(* ===== verification/_CoqProject ===== *)
-Q . S2P
Prelude.v
Counting.v
Errors.v
DnsWire.v
DnsWireProofs.v
DnsCache.v
DnsCacheProofs.v
DnsConfig.v
DnsAnswer.v
DnsAnswerProofs.v
DnsSession.v
DnsConfigProofs.v
DnsResolver.v
DnsTransportProofs.v
DnsResolverProofs.v
DnsResolverRuns.v
NativeReactor.v
NativeReactorProofs.v
NativeReactorRuns.v
BodyBudget.v
BodyBudgetProofs.v
Request.v
RequestProofs.v
Stream.v
StreamProofs.v
NativeUpload.v
TcpIo.v
TcpIoProofs.v
Registry.v
RegistryProofs.v
RegistryCalls.v
RegistryRuns.v
RegistryReach.v
ReactorCore.v
ReactorCoreProofs.v
ReactorCoreRuns.v
Http1.v
Http1Proofs.v
SerializeProofs.v
Http1Decoder.v
Framing.v
HttpParseInstance.v
NativeUploadProofs.v
BufferedProofs.v
StreamingProofs.v
StdText.v
NativeTls.v
NativeTlsProofs.v
NativeTlsRuns.v
NativeTlsWorkers.v
NativeTlsWorkersProofs.v
NativeHttp.v
NativeHttpEvents.v
NativeHttpProofs.v
NativeHttpStarts.v
NativeHttpEnds.v
NativeHttpEventProofs.v
NativeHttpRuns.v
SmtpWire.v
SmtpWireProofs.v
SmtpReplyProofs.v
SmtpClient.v
SmtpClientProofs.v
