(* ===== verification/Prelude.v ===== *)
(** * NBReq: verification development

    NBReq is a non-blocking HTTP/1.1, TCP and SMTP client library in Rust. An
    application hands requests to an engine; the engine's owner thread resolves
    names, opens connections, serializes requests, decodes responses and
    delivers results through buffered bodies, streams and callbacks. This
    library models the parts that hold the program's own logic as executable
    definitions, close to the code, and proves what the parts promise.

    ** How the code is read

    A Rust function becomes a function into [outcome]: [Ok], [Err], [Panic] (an
    index out of range, an arithmetic overflow, a failed [expect] or [assert])
    or [Diverge] (a loop whose fuel ran out). A method on [&mut self] becomes a
    function in the monad [M], whose state survives errors. Theorems that say a
    part is safe exclude [Panic] and [Diverge]. Unsigned integers are [Z] with
    their bounds written out; [usize] depends on a [Target] of 32 or 64 bits
    and every theorem holds on both. Bytes are [Z] below 256, byte strings are
    lists. Code under a mutex is one definition per locked region, and the
    theorems quantify over all interleavings of the regions. Triples are
    stated with [wp] (and [owp] for pure results) and proved with the tactics
    of this file; [wpx] is [wp] with a condition under which the code may fail
    to return.

    ** Files, and the code they model

    - [Prelude]: machine integers, outcomes, the monad, byte strings, decimal
      and hexadecimal numerals, triples, and the lemmas the components share.
      [Counting]: occurrences in lists. [StdText]: [str::from_utf8] and the
      address parser of Rust's standard library.
    - [Errors]: the error type of [src/types.rs].
    - [DnsWire], [DnsWireProofs]: [src/backend/native_dns_wire.rs], the query
      encoder, the response parser and the message encoder of its test
      support. The parser is total and safe on every packet, and inverts both
      encoders.
    - [DnsCache], [DnsCacheProofs]: the resolver's cache, of
      [src/backend/native_dns.rs], against a store without capacity.
    - [DnsConfig], [DnsConfigProofs]: DNS names as the application writes them
      ([src/dns.rs]), search suffixes and what is made of the system's
      configuration ([src/backend/native_dns_config.rs]).
    - [DnsAnswer], [DnsAnswerProofs]: reading an answer ([parse_answer]),
      against the names a question reaches through a message's aliases.
    - [DnsSession]: a public lookup in progress, its search candidates and how
      the families are combined. [DnsResolver]: the resolver's thread, one
      definition per function of [src/backend/native_dns.rs]; [turn] is a turn
      of [resolver_main]. The operating system (clock, random bits, sockets,
      the order of a [HashMap]) is the class [Env], whose answers the theorems
      leave open. [DnsTransportProofs]: identifiers, TCP framing and the answer
      to a public lookup. [DnsResolverProofs]: the invariant of the pending
      lookups, operation by operation; [DnsResolverRuns]: whole runs.
    - [NativeReactor]: [src/backend/native.rs], the reactor that owns the
      sockets: slots with generations, send queues, read allowances, deadlines
      and the poll. What the operating system answers is the class [Sockets].
      [NativeReactorProofs]: its invariant, call by call; [NativeReactorRuns]:
      polling, and any sequence of calls.
    - [BodyBudget], [BodyBudgetProofs]: [src/body_budget.rs], the budget that
      bounds all buffered bodies, its permits and its buffers; also the
      compare-and-exchange loop under interleaving threads.
    - [Request], [RequestProofs]: requests, their validation, origins and
      redirects, of [src/types.rs].
    - [Stream], [StreamProofs]: [src/stream.rs], the upload channel (module
      [Upload]) and the streamed response (module [Download]) between
      application and engine, in every interleaving.
    - [NativeUpload], [NativeUploadProofs]: the framing of an upload for the
      socket, of [src/backend/native_http.rs].
    - [TcpIo], [TcpIoProofs]: [src/tcp/io.rs], the queues a live TCP connection
      shares between its reader, its writer and the reactor.
    - [Registry]: [src/registry.rs] and [src/dispatch.rs], the registry of the
      operations in flight and the callback domain: admission, results,
      cancellation, shutdown. A live connection appears as what its release
      closures own. [RegistryProofs] keeps books of every permit, callback,
      activation and announcement and proves each region; [RegistryCalls]
      proves the submissions and the calls on the whole registry;
      [RegistryRuns] puts them together for any number of threads;
      [RegistryReach] shows that an operation without a result is registered,
      so cancellations, failures and shutdowns reach it, and that a call ends.
    - [ReactorCore]: [src/reactor.rs], and [drive] and [stop_network] of
      [src/engine.rs]: the thread that owns the backend, as one more thread of
      the registry, which another may interrupt between any two of its steps.
      What it still has to do is a list of instructions. The backend (the trait
      of [src/backend/mod.rs]) is the class [Backend]. [ReactorCoreProofs]: the
      owner's books, instruction by instruction; [ReactorCoreRuns]: its runs,
      and how they end.
    - [Http1], [Http1Proofs], [SerializeProofs]: request serialization and
      response heads, of [src/backend/native_http/http1.rs]. The third-party
      header parser [httparse] is a parameter; [HttpParseInstance] is a small
      parser that shows its hypotheses can hold.
    - [Http1Decoder]: the buffered and the streaming response decoders of the
      same file. [Framing] is the reference: a machine that reads one byte at
      a time. [BufferedProofs] and [StreamingProofs] show that both decoders
      refine it, whatever the segmentation, and compose the streaming one with
      [Stream.Download].
    - [NativeTls]: [src/backend/native_tls.rs], TLS sessions of HTTP exchanges
      and of plain TLS connections, over rustls as the class [Rustls];
      [NativeTlsProofs] proves them method by method under [RustlsLaws],
      [NativeTlsRuns] for whole exchanges and connections.
    - [NativeTlsWorkers], [NativeTlsWorkersProofs]:
      [src/backend/native_tls/worker.rs], the two threads that do handshakes,
      in every interleaving with the owner.
    - [NativeHttp], [NativeHttpEvents]: [src/backend/native_http.rs], the owner
      of the HTTP connections, on the reactor of [NativeReactor]; one definition
      per function, from a request to its connection (first file) and through
      its exchange (second). What the owner asks of TLS sessions, decoders,
      uploads and the resolver's handle is the class [HttpPeers].
      [NativeHttpProofs]: the books of connections and requests, and the small
      changes that keep them; [NativeHttpStarts], [NativeHttpEnds] and
      [NativeHttpEventProofs] go through the functions; [NativeHttpRuns]: any
      sequence of calls.
    - [SmtpWire], [SmtpWireProofs], [SmtpReplyProofs]: [smtp/src/reply.rs],
      [smtp/src/data.rs] and [smtp/src/request.rs], the reply parser, the DATA
      encoder and the validation of envelopes and messages.
    - [SmtpClient], [SmtpClientProofs]: [smtp/src/client.rs], the submission
      state machine, over a transport and a clock that may do anything.

    ** What the theorems show

    - Decoding: the result does not depend on how the bytes are cut, except
      that a budget without room for twice the body limit may refuse a body
      charged to it; bodies arrive exactly; limits hold on every input
      ([BufferedProofs], [StreamingProofs]). A response's framing is the one
      its fields give, or it is refused ([Http1Proofs]).
    - Encoding: requests, uploads, DNS queries and mail read back exactly, by a
      reference reader of the protocol ([SerializeProofs],
      [NativeUploadProofs], [DnsWireProofs], [SmtpWireProofs],
      [SmtpReplyProofs]).
    - Sharing: under every interleaving, queues deliver in order, within their
      capacity, and terminal results are recorded once ([StreamProofs],
      [TcpIoProofs], [BodyBudgetProofs]); every admission permit is counted
      and given back, a callback runs once and with the committed result
      ([RegistryRuns]); the engine's owner gives each operation to the backend
      at most once, loses none between the command queue and the backend, and
      leaves none without a result when it ends, save those accepted after a
      failure ([ReactorCoreRuns]).
    - Policy: redirects never leak credentials or leave https
      ([RequestProofs]); a submission sends one fixed conversation and reports
      truthfully ([SmtpClientProofs]).
    - Resolving: every result answers a lookup that is wanted when the result
      is sent, and none is forgotten ([DnsResolverRuns]); answers are read exactly ([DnsAnswerProofs]), and
      cached within bounds and until they expire ([DnsCacheProofs]);
      identifiers are found whenever there are any ([DnsTransportProofs]).
    - Sockets: slots are never reused, bytes are written and delivered in order
      and within limits and allowances, each deadline is reported once
      ([NativeReactorRuns]).
    - Connections: the HTTP owner's counters are exactly the connections there
      are, every request it gets ends once, and a connection serves one origin
      and one kind of verification ([NativeHttpRuns]).
    - TLS: plaintext is encrypted in order, once, and not before the handshake
      is done; what rustls makes and decrypts is handed on completely, within
      the windows, and charged to the budget the owner sets; a session keeps
      what the owner assumes of it
      ([NativeTlsRuns]). Handshake jobs stay within their places, give one
      result each and come to an end ([NativeTlsWorkersProofs]).
    - Progress: blocking pushes, reads and sends end ([StreamProofs],
      [StreamingProofs], [SmtpClientProofs]); the owner of a stopped engine
      returns if the calls of its backend do ([ReactorCoreRuns]).

    ** Fuel

    Loops that are not structural take fuel, and the theorems show that it is
    enough: 300 steps for a compressed DNS name (each step reads a label or
    follows a pointer, both of which are bounded), 40 decimal and 16
    hexadecimal digits (128 and 64 bits), the input's length for the decoders
    (every pass consumes a byte or stops), the number of lines for the
    reference mail receiver, for a blocking send the number of polls up to its
    deadline, the hops left for a chain of aliases and one more, one more
    candidate than a search has, 65,536 turns for a free identifier, one turn
    more than there are deadlines; of the connection owner one turn more than
    there are idle connections to evict, waiting requests to expire or to hand
    to a worker, addresses to try, or decrypted bytes to deliver, and the square
    of the waiting requests to dispatch them; of a TLS session one turn more
    than its output limit, its input, what rustls holds, or the head and body
    to encrypt. The runs of the registry and of the engine's owner are of any
    length. Where a call of the source does not return, neither does the
    model's: a streamed request that meets a full command queue hangs on the
    registry's lock, and the metric of queued TCP bytes can panic on a
    submission. [RegistryRuns.blocked] names these two regions; the theorems
    show that there is no third, and that every other thread's next region
    returns.

    ** Not modelled

    Sockets, the operating system's polling and the bodies of user callbacks
    ([src/backend/native_poll.rs], the platform crates) are I/O; of
    [src/dispatch.rs] the worker loops are left out. Metrics and condition
    variables do not change what is modelled. rustls, httparse and libcurl are
    not part of the sources: rustls and httparse are parameters with the laws
    the code relies on, the curl backend and the reading of root certificates,
    which only call them, are left out. Of the resolver, the channels of its
    handle, the poll's timeout and the platform's queries are left out. The
    connection owner's theorems take sessions, decoders and uploads as peers
    that answer anything within their contracts, which are proved for them
    separately; standalone TCP requests and the application's own lookups,
    which the same owner also carries, and the construction of an engine and of
    its backend ([src/engine.rs], [src/client.rs]) are not modelled. *)

From stdpp Require Import base list strings gmap.
From Stdlib Require Import ZArith Lia Ascii.

#[global] Open Scope Z_scope.

(** ** Machine integers

    [usize] is 32 or 64 bits wide, depending on the compilation target; every
    definition that mentions [usize::MAX] or [isize::MAX] takes the target as
    an implicit argument, so its theorems hold on both. *)

Class Target := {
  pointer_width : Z;
  pointer_width_cases : pointer_width = 32 ∨ pointer_width = 64
}.

Definition target64 : Target := {| pointer_width := 64; pointer_width_cases := or_intror eq_refl |}.
Definition target32 : Target := {| pointer_width := 32; pointer_width_cases := or_introl eq_refl |}.

Definition u8_max : Z := 255.
Definition u16_max : Z := 65535.
Definition u32_max : Z := 4294967295.
Definition u64_max : Z := 18446744073709551615.
Definition usize_max `{Target} : Z := 2 ^ pointer_width - 1.
Definition isize_max `{Target} : Z := 2 ^ (pointer_width - 1) - 1.

(** [a.checked_add(b)] and [a.checked_mul(b)] for an unsigned type with
    maximum [m]. *)
Definition checked_add (m a b : Z) : option Z :=
  if a + b <=? m then Some (a + b) else None.
Definition checked_mul (m a b : Z) : option Z :=
  if a * b <=? m then Some (a * b) else None.
Definition saturating_add (m a b : Z) : Z := Z.min (a + b) m.
Definition saturating_mul (m a b : Z) : Z := Z.min (a * b) m.
Definition saturating_sub (a b : Z) : Z := Z.max (a - b) 0.
Definition wrapping_add (m a b : Z) : Z := (a + b) mod (m + 1).

(** ** Outcomes

    A Rust call returns [Ok], returns [Err], panics (an index out of range, an
    arithmetic overflow, an [expect]), or does not return. [Diverge] is what a
    fuelled loop gives when its fuel runs out. *)

Inductive outcome (E A : Type) : Type :=
| Ok (a : A)
| Err (e : E)
| Panic
| Diverge.
Arguments Ok {E A} a.
Arguments Err {E A} e.
Arguments Panic {E A}.
Arguments Diverge {E A}.

#[global] Instance outcome_ret {E} : MRet (outcome E) := λ A a, Ok a.
#[global] Instance outcome_bind {E} : MBind (outcome E) := λ A B f m,
  match m with
  | Ok a => f a
  | Err e => Err e
  | Panic => Panic
  | Diverge => Diverge
  end.

(** [value.ok_or_else(|| error)]. *)
Definition ok_or {E A} (o : option A) (e : E) : outcome E A :=
  match o with Some a => Ok a | None => Err e end.

(** A fallible method on [&mut self]: the state it leaves is there on every
    outcome, also when it returns [Err]. *)
Definition M (S E A : Type) : Type := S → outcome E A * S.

#[global] Instance M_ret {S E} : MRet (M S E) := λ A a s, (Ok a, s).
#[global] Instance M_bind {S E} : MBind (M S E) := λ A B f m s,
  match m s with
  | (Ok a, s') => f a s'
  | (Err e, s') => (Err e, s')
  | (Panic, s') => (Panic, s')
  | (Diverge, s') => (Diverge, s')
  end.

Definition get {S E} : M S E S := λ s, (Ok s, s).
Definition put {S E} (s : S) : M S E unit := λ _, (Ok tt, s).
Definition modify {S E} (f : S → S) : M S E unit := λ s, (Ok tt, f s).
Definition fail {S E A} (e : E) : M S E A := λ s, (Err e, s).
Definition panic {S E A} : M S E A := λ s, (Panic, s).
Definition diverge {S E A} : M S E A := λ s, (Diverge, s).
(** The [?] operator on a result that does not touch the state. *)
Definition lift {S E A} (o : outcome E A) : M S E A := λ s, (o, s).

(** [for _ in 0..n { items.push(step()?) }]. *)
Fixpoint repeatM {S E A} (n : nat) (step : M S E A) : M S E (list A) :=
  match n with
  | O => mret []
  | Datatypes.S n' => a ← step; rest ← repeatM n' step; mret (a :: rest)
  end.

(** A [usize] addition in the source: it panics when it overflows. *)
Definition uadd `{Target} {E} (a b : Z) : outcome E Z :=
  if a + b <=? usize_max then Ok (a + b) else Panic.
Definition u64_add {E} (a b : Z) : outcome E Z :=
  if a + b <=? u64_max then Ok (a + b) else Panic.
Definition usub {E} (a b : Z) : outcome E Z :=
  if b <=? a then Ok (a - b) else Panic.

(** ** Byte strings *)

Definition len {A} (l : list A) : Z := Z.of_nat (length l).

(** [bytes.get(i)]. *)
Definition byte_get (bytes : list Z) (i : Z) : option Z :=
  if i <? 0 then None else bytes !! Z.to_nat i.

(** [bytes[i]] and [&bytes[a..b]]: out of range is a panic. *)
Definition index {E} (bytes : list Z) (i : Z) : outcome E Z :=
  match byte_get bytes i with Some b => Ok b | None => Panic end.
Definition subrange (bytes : list Z) (a b : Z) : list Z :=
  take (Z.to_nat (b - a)) (drop (Z.to_nat a) bytes).
Definition slice {E} (bytes : list Z) (a b : Z) : outcome E (list Z) :=
  if (0 <=? a) && (a <=? b) && (b <=? len bytes)
  then Ok (subrange bytes a b) else Panic.

Definition is_byte (b : Z) : Prop := 0 ≤ b < 256.
#[global] Instance is_byte_dec b : Decision (is_byte b).
Proof. unfold is_byte. apply _. Defined.

(** The bytes of a string literal. *)
Definition byte_of_ascii (c : ascii) : Z := Z.of_N (N_of_ascii c).
Fixpoint bs (s : string) : list Z :=
  match s with
  | EmptyString => []
  | String c s' => byte_of_ascii c :: bs s'
  end.
Fixpoint string_of_bytes (l : list Z) : string :=
  match l with
  | [] => EmptyString
  | b :: l' => String (ascii_of_N (Z.to_N b)) (string_of_bytes l')
  end.

Definition HT : Z := 9.
Definition LF : Z := 10.
Definition CR : Z := 13.
Definition SP : Z := 32.
Definition CRLF : list Z := [CR; LF].

(** The [u8] predicates of the standard library. *)
Definition in_range (lo hi b : Z) : bool := (lo <=? b) && (b <=? hi).
Definition is_ascii_digit (b : Z) : bool := in_range 48 57 b.
Definition is_ascii_uppercase (b : Z) : bool := in_range 65 90 b.
Definition is_ascii_lowercase (b : Z) : bool := in_range 97 122 b.
Definition is_ascii_alphabetic (b : Z) : bool := is_ascii_uppercase b || is_ascii_lowercase b.
Definition is_ascii_alphanumeric (b : Z) : bool := is_ascii_alphabetic b || is_ascii_digit b.
Definition is_ascii_whitespace (b : Z) : bool :=
  (b =? 32) || (b =? 9) || (b =? 10) || (b =? 12) || (b =? 13).
Definition is_ascii (l : list Z) : bool := forallb (λ b, b <? 128) l.
Definition to_ascii_lowercase (b : Z) : Z := if is_ascii_uppercase b then b + 32 else b.
Definition ascii_lowercase (l : list Z) : list Z := map to_ascii_lowercase l.
Definition bytes_eqb (a b : list Z) : bool := bool_decide (a = b).
Definition eq_ignore_ascii_case (a b : list Z) : bool :=
  bytes_eqb (ascii_lowercase a) (ascii_lowercase b).
Definition contains (b : Z) (l : list Z) : bool := existsb (Z.eqb b) l.

(** [slice::split] on a byte: one more piece than separators. *)
Fixpoint split_on (sep : Z) (l : list Z) : list (list Z) :=
  match l with
  | [] => [[]]
  | b :: l' =>
      if b =? sep then [] :: split_on sep l'
      else match split_on sep l' with
           | piece :: rest => (b :: piece) :: rest
           | [] => [[b]]
           end
  end.

(** [str::find] of a set of characters. *)
Fixpoint position (p : Z → bool) (l : list Z) : option nat :=
  match l with
  | [] => None
  | b :: l' => if p b then Some O else S <$> position p l'
  end.

Definition starts_with (prefix l : list Z) : bool := bytes_eqb (take (length prefix) l) prefix.
Definition ends_with (suffix l : list Z) : bool :=
  (length suffix <=? length l)%nat && bytes_eqb (drop (length l - length suffix) l) suffix.
Definition strip_prefix (prefix l : list Z) : option (list Z) :=
  if starts_with prefix l then Some (drop (length prefix) l) else None.
Definition strip_suffix (suffix l : list Z) : option (list Z) :=
  if ends_with suffix l then Some (take (length l - length suffix) l) else None.

(** [str::split_once] with a string pattern and [str::rsplit_once] with a
    character. *)
Fixpoint split_once (pat l : list Z) : option (list Z * list Z) :=
  match strip_prefix pat l with
  | Some rest => Some ([], rest)
  | None =>
      match l with
      | [] => None
      | b :: l' => prod_map (cons b) id <$> split_once pat l'
      end
  end.
Fixpoint rsplit_once (c : Z) (l : list Z) : option (list Z * list Z) :=
  match l with
  | [] => None
  | b :: l' =>
      match rsplit_once c l' with
      | Some (before, after) => Some (b :: before, after)
      | None => if b =? c then Some ([], l') else None
      end
  end.

(** The two-sided trimming loops of the source, on a byte predicate. *)
Fixpoint trim_start (p : Z → bool) (l : list Z) : list Z :=
  match l with
  | [] => []
  | b :: l' => if p b then trim_start p l' else l
  end.
Definition trim_end (p : Z → bool) (l : list Z) : list Z := reverse (trim_start p (reverse l)).
Definition trim (p : Z → bool) (l : list Z) : list Z := trim_end p (trim_start p l).

(** ** Decimal numerals

    [str::parse] for an unsigned type with maximum [m]: an optional [+], at
    least one digit, no overflow. *)
Fixpoint parse_digits (m acc : Z) (l : list Z) : option Z :=
  match l with
  | [] => Some acc
  | b :: l' =>
      if is_ascii_digit b then
        let next := acc * 10 + (b - 48) in
        if next <=? m then parse_digits m next l' else None
      else None
  end.
Definition parse_uint (m : Z) (l : list Z) : option Z :=
  let digits := match strip_prefix [43] l with Some rest => rest | None => l end in
  if bool_decide (digits = []) then None else parse_digits m 0 digits.

(** [to_string] of an unsigned integer. [fuel] bounds the number of digits;
    128-bit values have at most 39. *)
Fixpoint decimal_digits (fuel : nat) (n : Z) : list Z :=
  match fuel with
  | O => []
  | S fuel' => if n <? 10 then [48 + n] else decimal_digits fuel' (n / 10) ++ [48 + n mod 10]
  end.
Definition to_string (n : Z) : list Z := decimal_digits 40 n.
#[global] Arguments to_string : simpl never.
Definition display (n : Z) : string := string_of_bytes (to_string n).

(** [format!("{:X}")] of an unsigned integer of at most 64 bits. *)
Definition hex_digit (d : Z) : Z := if d <? 10 then 48 + d else 55 + d.
Fixpoint hex_digits (fuel : nat) (n : Z) : list Z :=
  match fuel with
  | O => []
  | S fuel' => if n <? 16 then [hex_digit n] else hex_digits fuel' (n / 16) ++ [hex_digit (n mod 16)]
  end.
Definition to_hex (n : Z) : list Z := hex_digits 16 n.
#[global] Arguments to_hex : simpl never.

(** Big-endian integers. *)
Definition u16_from_be_bytes (a b : Z) : Z := a * 256 + b.
Definition u16_to_be_bytes (v : Z) : list Z := [v / 256 mod 256; v mod 256].
Definition u32_from_be_bytes (a b c d : Z) : Z := ((a * 256 + b) * 256 + c) * 256 + d.
Definition u32_to_be_bytes (v : Z) : list Z :=
  [v / 16777216 mod 256; v / 65536 mod 256; v / 256 mod 256; v mod 256].

(** ** Weakest preconditions

    [wp m Q R s]: run from [s], [m] returns [Ok a] in a state satisfying
    [Q a], or returns [Err e] in a state satisfying [R e]; it neither panics
    nor runs out of fuel. [wpx stuck m Q R s] lets it do so if [stuck] holds. *)

Definition wpx {S E A} (stuck : Prop) (m : M S E A) (Q : A → S → Prop) (R : E → S → Prop) (s : S) : Prop :=
  match m s with
  | (Ok a, s') => Q a s'
  | (Err e, s') => R e s'
  | (Panic, _) => stuck
  | (Diverge, _) => stuck
  end.
Abbreviation wp := (wpx False).

(** The same for a result that does not touch the state. *)
Definition owp {E A} (o : outcome E A) (Q : A → Prop) (R : E → Prop) : Prop :=
  match o with Ok a => Q a | Err e => R e | Panic => False | Diverge => False end.

Section wp_rules.
Context {S E : Type} {stuck : Prop}.

Lemma wp_ret {A} (a : A) (Q : A → S → Prop) (R : E → S → Prop) s :
  Q a s → wpx stuck (mret a) Q R s.
Proof. done. Qed.

Lemma wp_bind {A B} (m : M S E A) (f : A → M S E B) Q R s :
  wpx stuck m (λ a s', wpx stuck (f a) Q R s') R s → wpx stuck (m ≫= f) Q R s.
Proof. unfold wpx, mbind, M_bind. destruct (m s) as [[a|e| |] s']; done. Qed.

Lemma wp_mono {A} (m : M S E A) (Q Q' : A → S → Prop) (R R' : E → S → Prop) s :
  wpx stuck m Q R s → (∀ a s', Q a s' → Q' a s') → (∀ e s', R e s' → R' e s') → wpx stuck m Q' R' s.
Proof. unfold wpx. destruct (m s) as [[a|e| |] s']; eauto. Qed.

Lemma wp_fail {A} (e : E) (Q : A → S → Prop) (R : E → S → Prop) s :
  R e s → wpx stuck (fail e) Q R s.
Proof. done. Qed.

Lemma wp_get (Q : S → S → Prop) (R : E → S → Prop) s : Q s s → wpx stuck get Q R s.
Proof. done. Qed.

Lemma wp_put (s' : S) (Q : unit → S → Prop) (R : E → S → Prop) s : Q tt s' → wpx stuck (put s') Q R s.
Proof. done. Qed.

Lemma wp_modify (f : S → S) (Q : unit → S → Prop) (R : E → S → Prop) s :
  Q tt (f s) → wpx stuck (modify f) Q R s.
Proof. done. Qed.

Lemma wp_lift {A} (o : outcome E A) (Q : A → S → Prop) (R : E → S → Prop) s :
  owp o (λ a, Q a s) (λ e, R e s) → wpx stuck (lift o) Q R s.
Proof. by destruct o. Qed.

(** A loop invariant for [repeatM]: [I n s] when [n] items are left. *)
Lemma wp_repeatM {A} (step : M S E A) (I : nat → list A → S → Prop) (R : E → S → Prop) :
  (∀ n l s, I (Datatypes.S n) l s → wpx stuck step (λ a s', I n (l ++ [a]) s') R s) →
  ∀ n l s, I n l s → wpx stuck (repeatM n step) (λ l' s', I O (l ++ l') s') R s.
Proof.
  intros Hstep n. induction n as [|n IH]; intros l s HI; simpl.
  - apply wp_ret. by rewrite app_nil_r.
  - apply wp_bind. eapply wp_mono; [by apply Hstep| |done].
    intros a s' HI'. apply wp_bind. eapply wp_mono; [exact (IH _ _ HI')| |done].
    intros l' s'' HI''. apply wp_ret. cbn in HI''. by rewrite <-app_assoc in HI''.
Qed.

(** A run that need not return. *)
Lemma wp_stuck {A} (Q : A → S → Prop) (R : E → S → Prop) s : stuck → wpx stuck diverge Q R s.
Proof. done. Qed.

Lemma wp_may {A} (stuck' : Prop) (m : M S E A) (Q : A → S → Prop) (R : E → S → Prop) s :
  wpx stuck m Q R s → (stuck → stuck') → wpx stuck' m Q R s.
Proof. unfold wpx. destruct (m s) as [[a|e| |] s']; auto. Qed.

Lemma wp_and {A} (m : M S E A) (Q Q' : A → S → Prop) (R R' : E → S → Prop) s :
  wpx stuck m Q R s → wpx stuck m Q' R' s → wpx stuck m (λ a s', Q a s' ∧ Q' a s') (λ e s', R e s' ∧ R' e s') s.
Proof. unfold wpx. destruct (m s) as [[a|e| |] s']; auto. Qed.

(** What a triple says of a run that is known to return. *)
Lemma wp_ok {A} (m : M S E A) Q R s a s' :
  wpx stuck m Q R s → m s = (Ok a, s') → Q a s'.
Proof. unfold wpx. intros Hwp Hrun. by rewrite Hrun in Hwp. Qed.
End wp_rules.

Lemma wp_run {S E A} {stuck : Prop} (m : M S E A) Q R s a s' : m s = (Ok a, s') → Q a s' → wpx stuck m Q R s.
Proof. unfold wpx. by intros ->. Qed.

(** A run with a triple returns, one way or the other. *)
Lemma wp_inv {S E A} (m : M S E A) Q R s :
  wp m Q R s →
  (∃ a s', m s = (Ok a, s') ∧ Q a s') ∨ (∃ e s', m s = (Err e, s') ∧ R e s').
Proof. unfold wpx. destruct (m s) as [[a|e| |] s']; [left|right|done|done]; eauto. Qed.

Lemma wp_conseq {S E A} {stuck : Prop} (m : M S E A) (Q Q' : A → S → Prop) (R : E → S → Prop) s :
  wpx stuck m Q (λ _ _, True) s → (∀ a s', Q a s' → Q' a s') → (∀ e s', R e s') → wpx stuck m Q' R s.
Proof. intros Hm HQ HR. eapply wp_mono; [exact Hm|done|intros; apply HR]. Qed.

Lemma owp_ok {E A} (a : A) (Q : A → Prop) (R : E → Prop) : Q a → owp (Ok a) Q R.
Proof. done. Qed.

Lemma owp_err {E A} (e : E) (Q : A → Prop) (R : E → Prop) : R e → owp (Err e) Q R.
Proof. done. Qed.

Lemma owp_bind {E A B} (o : outcome E A) (f : A → outcome E B) Q R :
  owp o (λ a, owp (f a) Q R) R → owp (o ≫= f) Q R.
Proof. by destruct o. Qed.

Lemma owp_mono {E A} (o : outcome E A) (Q Q' : A → Prop) (R R' : E → Prop) :
  owp o Q R → (∀ a, Q a → Q' a) → (∀ e, R e → R' e) → owp o Q' R'.
Proof. destruct o; simpl; eauto. Qed.

Lemma owp_ok_or {E A} (o : option A) (e : E) (Q : A → Prop) (R : E → Prop) :
  (∀ a, o = Some a → Q a) → (o = None → R e) → owp (ok_or o e) Q R.
Proof. destruct o; simpl; eauto. Qed.

Create HintDb wp.
#[export] Hint Resolve wp_ret wp_fail wp_get wp_put wp_modify : wp.

(** One structural step of a [wp] or [owp] goal, and as many as there are. *)
Ltac wp_step :=
  lazymatch goal with
  | |- wpx _ (mbind _ _) _ _ _ => apply wp_bind
  | |- wpx _ (lift _) _ _ _ => apply wp_lift
  | |- wpx _ get _ _ _ => apply wp_get
  | |- wpx _ (put _) _ _ _ => apply wp_put
  | |- wpx _ (modify _) _ _ _ => apply wp_modify
  | |- wpx _ (mret _) _ _ _ => apply wp_ret
  | |- wpx _ (fail _) _ _ _ => apply wp_fail
  | |- owp (mbind _ _) _ _ => apply owp_bind
  | |- owp (Ok _) _ _ => apply owp_ok
  | |- owp (Err _) _ _ => apply owp_err
  end; cbn beta iota.
Ltac wp_go := cbn beta iota; repeat wp_step.

(** [ok_or]: go on with the value [a] it holds; the error case is the side
    goal, if [done] does not close it. *)
Tactic Notation "wp_some" ident(a) simple_intropattern(H) :=
  apply owp_ok_or; [intros a H; wp_go | try done].
(** Use a specification already proved for the next call. *)
Tactic Notation "wp_use" uconstr(H) := eapply wp_conseq; [eapply H | cbn beta | try done].

(** Case analysis on a boolean test, keeping its meaning as a hypothesis. *)
Ltac zdestruct c :=
  lazymatch c with
  | ?a <=? ?b => destruct (Z.leb_spec a b)
  | ?a <? ?b => destruct (Z.ltb_spec a b)
  | ?a =? ?b => destruct (Z.eqb_spec a b)
  | _ => destruct c eqn:?
  end.
(** On the outermost test of a program in a [wp] goal, or else on the first
    one in the goal. *)
Ltac zcase :=
  rewrite ?Bool.if_negb;
  match goal with
  | |- wpx _ (if ?c then _ else _) _ _ _ => zdestruct c
  | |- owp (if ?c then _ else _) _ _ => zdestruct c
  | |- context [if ?c then _ else _] => zdestruct c
  end.

(** ** Lemmas on integers and lists *)

Lemma usize_bounds `{Target} : u32_max ≤ usize_max ≤ u64_max.
Proof. unfold usize_max, u32_max, u64_max. destruct pointer_width_cases as [-> | ->]; lia. Qed.

Lemma isize_bounds `{Target} : 2147483647 ≤ isize_max ∧ 2 * isize_max + 1 = usize_max.
Proof. unfold usize_max, isize_max. destruct pointer_width_cases as [-> | ->]; lia. Qed.

Lemma len_nil {A} : len (@nil A) = 0.
Proof. done. Qed.
Lemma len_cons {A} (x : A) l : len (x :: l) = 1 + len l.
Proof. unfold len. simpl. lia. Qed.
Lemma len_app {A} (l k : list A) : len (l ++ k) = len l + len k.
Proof. unfold len. rewrite length_app. lia. Qed.
Lemma len_nonneg {A} (l : list A) : 0 ≤ len l.
Proof. unfold len. lia. Qed.
Lemma len_map {A B} (f : A → B) l : len (map f l) = len l.
Proof. unfold len. by rewrite length_map. Qed.
Lemma len_zero {A} (l : list A) : len l = 0 → l = [].
Proof. unfold len. destruct l; [done|simpl; lia]. Qed.
Lemma len_reverse {A} (l : list A) : len (reverse l) = len l.
Proof. unfold len. by rewrite length_reverse. Qed.
Lemma len_concat_elem {A} (c : list A) cs : c ∈ cs → len c ≤ len (concat cs).
Proof.
  intros Hc. induction cs as [|c' cs IH]; [by apply elem_of_nil in Hc|]. cbn [concat]. rewrite len_app.
  pose proof (len_nonneg c'). pose proof (len_nonneg (concat cs)).
  apply elem_of_cons in Hc as [->|Hc]; [lia|]. specialize (IH Hc). lia.
Qed.
Lemma to_nat_len {A} (l : list A) : Z.to_nat (len l) = length l.
Proof. unfold len. lia. Qed.

Create Rewrite HintDb len.
#[export] Hint Rewrite @len_nil @len_cons @len_app @len_map @len_reverse : len.
(** Linear arithmetic over list lengths. *)
Ltac len_lia :=
  autorewrite with len in *;
  repeat match goal with
  | l : list _ |- _ =>
      lazymatch goal with
      | _ : 0 ≤ len l |- _ => fail
      | _ => pose proof (len_nonneg l)
      end
  end; lia.

Lemma byte_get_app (pre l : list Z) i :
  0 ≤ i → byte_get (pre ++ l) (len pre + i) = byte_get l i.
Proof.
  intros Hi. unfold byte_get, len.
  destruct (Z.ltb_spec (Z.of_nat (length pre) + i) 0); [lia|].
  destruct (Z.ltb_spec i 0); [lia|].
  rewrite lookup_app_r by lia. f_equal. lia.
Qed.

Lemma byte_get_some (l : list Z) i : 0 ≤ i < len l → ∃ b, byte_get l i = Some b ∧ b ∈ l.
Proof.
  intros Hi. unfold byte_get, len in *. destruct (Z.ltb_spec i 0); [lia|].
  destruct (lookup_lt_is_Some_2 l (Z.to_nat i)) as [b Hb]; [lia|].
  exists b. split; [done|]. by apply list_elem_of_lookup_2 in Hb.
Qed.

Lemma byte_get_inv (l : list Z) i b : byte_get l i = Some b → 0 ≤ i < len l ∧ b ∈ l.
Proof.
  unfold byte_get, len. destruct (Z.ltb_spec i 0); [done|]. intros Hb. split.
  - apply lookup_lt_Some in Hb. lia.
  - by apply list_elem_of_lookup_2 in Hb.
Qed.

Lemma byte_get_none (l : list Z) i : byte_get l i = None → 0 ≤ i → len l ≤ i.
Proof.
  unfold byte_get, len. destruct (Z.ltb_spec i 0); [lia|].
  intros Hn%lookup_ge_None Hi. lia.
Qed.

Lemma subrange_app (pre l : list Z) a b :
  0 ≤ a → subrange (pre ++ l) (len pre + a) (len pre + b) = subrange l a b.
Proof.
  intros Ha. unfold subrange, len.
  replace (Z.to_nat (Z.of_nat (length pre) + a)) with (length pre + Z.to_nat a)%nat by lia.
  rewrite drop_app_add.
  f_equal. lia.
Qed.

Lemma subrange_prefix (l rest : list Z) : subrange (l ++ rest) 0 (len l) = l.
Proof.
  unfold subrange, len. rewrite drop_0, Z.sub_0_r, Nat2Z.id. by rewrite take_app_length.
Qed.

Lemma len_subrange (l : list Z) a b : 0 ≤ a ≤ b → b ≤ len l → len (subrange l a b) = b - a.
Proof. unfold subrange, len. rewrite length_take, length_drop. lia. Qed.

Lemma subrange_Forall (P : Z → Prop) l a b : Forall P l → Forall P (subrange l a b).
Proof. intros. unfold subrange. by apply Forall_take, Forall_drop. Qed.

Lemma subrange_app_middle (pre mid post : list Z) :
  subrange (pre ++ mid ++ post) (len pre) (len pre + len mid) = mid.
Proof.
  replace (len pre) with (len pre + 0) at 1 by lia.
  rewrite subrange_app by lia. apply subrange_prefix.
Qed.

Lemma bytes_eqb_eq a b : bytes_eqb a b = true ↔ a = b.
Proof. unfold bytes_eqb. apply bool_decide_eq_true. Qed.

(** A boolean statement about one byte is decided by trying all 256. *)
Lemma byte_cases (p : Z → bool) :
  forallb p (seqZ 0 256) = true → ∀ b, is_byte b → p b = true.
Proof.
  intros H b Hb. rewrite forallb_forall in H. apply H, list_elem_of_In, elem_of_seqZ.
  unfold is_byte in Hb. lia.
Qed.

Lemma Forall_elem {A} (P : A → Prop) l x : Forall P l → x ∈ l → P x.
Proof. rewrite Forall_forall. eauto. Qed.

Lemma owp_uadd `{Target} {E} a b (Q : Z → Prop) (R : E → Prop) :
  a + b ≤ usize_max → Q (a + b) → owp (uadd a b) Q R.
Proof. intros Hab HQ. unfold uadd. by rewrite (proj2 (Z.leb_le _ _) Hab). Qed.

Lemma owp_u64_add {E} a b (Q : Z → Prop) (R : E → Prop) :
  a + b ≤ u64_max → Q (a + b) → owp (u64_add a b) Q R.
Proof. intros Hab HQ. unfold u64_add. by rewrite (proj2 (Z.leb_le _ _) Hab). Qed.

Lemma owp_usub {E} a b (Q : Z → Prop) (R : E → Prop) :
  b ≤ a → Q (a - b) → owp (usub a b) Q R.
Proof. intros Hab HQ. unfold usub. by rewrite (proj2 (Z.leb_le _ _) Hab). Qed.

Lemma owp_slice {E} l a b (Q : list Z → Prop) (R : E → Prop) :
  0 ≤ a ≤ b → b ≤ len l → Q (subrange l a b) → owp (slice l a b) Q R.
Proof.
  intros Hab Hb HQ. unfold slice.
  rewrite !(proj2 (Z.leb_le _ _)) by lia. done.
Qed.

Lemma owp_index {E} l i (Q : Z → Prop) (R : E → Prop) :
  0 ≤ i < len l → (∀ b, b ∈ l → Q b) → owp (index l i) Q R.
Proof.
  intros Hi HQ. unfold index. destruct (byte_get_some l i Hi) as (b & -> & Hb). by apply HQ.
Qed.

Lemma lor_bound a b n : 0 ≤ n → 0 ≤ a < 2 ^ n → 0 ≤ b < 2 ^ n → 0 ≤ Z.lor a b < 2 ^ n.
Proof.
  intros Hn Ha Hb. split; [apply Z.lor_nonneg; lia|].
  destruct (Z.eq_dec a 0) as [->|]; [rewrite Z.lor_0_l; lia|].
  destruct (Z.eq_dec b 0) as [->|]; [rewrite Z.lor_0_r; lia|].
  apply Z.log2_lt_cancel. rewrite Z.log2_lor, Z.log2_pow2 by lia.
  apply Z.max_lub_lt; apply Z.log2_lt_pow2; lia.
Qed.

(** ** Runs that succeed *)

Lemma run_bind {S E A B} (m : M S E A) (f : A → M S E B) s a s' :
  m s = (Ok a, s') → (m ≫= f) s = f a s'.
Proof. unfold mbind, M_bind. by intros ->. Qed.

Lemma run_repeatM_cons {S E A} (step : M S E A) n s a s' l s'' :
  step s = (Ok a, s') → repeatM n step s' = (Ok l, s'') →
  repeatM (Datatypes.S n) step s = (Ok (a :: l), s'').
Proof. intros Ha Hl. cbn [repeatM]. erewrite run_bind by done. by erewrite run_bind. Qed.

Lemma uadd_fits `{Target} {E} a b : a + b ≤ usize_max → @uadd _ E a b = Ok (a + b).
Proof. intros Hab. unfold uadd. by rewrite (proj2 (Z.leb_le _ _) Hab). Qed.

Lemma byte_get_head (pre l : list Z) x : byte_get (pre ++ x :: l) (len pre) = Some x.
Proof. replace (len pre) with (len pre + 0) by lia. by rewrite byte_get_app. Qed.

Lemma slice_middle {E} (pre mid post : list Z) :
  @slice E (pre ++ mid ++ post) (len pre) (len pre + len mid) = Ok mid.
Proof.
  unfold slice. rewrite subrange_app_middle.
  rewrite !(proj2 (Z.leb_le _ _)); [done|len_lia..].
Qed.

(** [located bytes c x]: the bytes [x] stand at offset [c] of [bytes]. *)
Definition located (bytes : list Z) (c : Z) (x : list Z) : Prop :=
  ∃ pre post, bytes = pre ++ x ++ post ∧ c = len pre.

Lemma located_app bytes c x y :
  located bytes c (x ++ y) → located bytes c x ∧ located bytes (c + len x) y.
Proof.
  intros (pre & post & -> & ->). split.
  - exists pre, (y ++ post). by rewrite <-app_assoc.
  - exists (pre ++ x), post. rewrite len_app. by rewrite <-!app_assoc.
Qed.

Lemma located_concat {T} (enc : T → list Z) bytes c x items :
  located bytes c (concat (map enc (x :: items))) →
  located bytes c (enc x) ∧ located bytes (c + len (enc x)) (concat (map enc items)).
Proof. apply located_app. Qed.

Lemma located_all bytes : located bytes 0 bytes.
Proof. exists [], []. by rewrite app_nil_r. Qed.

Lemma located_bound bytes c x : located bytes c x → 0 ≤ c ∧ c + len x ≤ len bytes.
Proof. intros (pre & post & -> & ->). len_lia. Qed.

(** ** Extension of runs

    [m ⊑run m']: every successful run of [m] is one of [m']. It is a
    preorder, and [mbind] is monotone in both arguments, so a program that
    sees more input extends the same program piece by piece. *)
Definition extends {S E A} (m m' : M S E A) : Prop :=
  ∀ s a s', m s = (Ok a, s') → m' s = (Ok a, s').
Infix "⊑run" := extends (at level 70).

#[global] Instance extends_preorder {S E A} : PreOrder (@extends S E A).
Proof. split; [by intros m s|intros m1 m2 m3 H1 H2 s a s' H; auto]. Qed.

#[global] Instance mbind_extends {S E A B} :
  Proper (pointwise_relation A extends ==> extends ==> extends) (@mbind (M S E) _ A B).
Proof.
  intros f f' Hf m m' Hm s b s''. unfold mbind, M_bind.
  destruct (m s) as [[a|e| |] s1] eqn:H; try done. rewrite (Hm _ _ _ H). apply Hf.
Qed.

Lemma extends_bind {S E A B} (m m' : M S E A) (f f' : A → M S E B) :
  m ⊑run m' → (∀ a, f a ⊑run f' a) → (m ≫= f) ⊑run (m' ≫= f').
Proof. intros Hm Hf. by apply mbind_extends. Qed.

Lemma extends_some {S E A} (o o' : option A) (e : E) :
  (∀ a, o = Some a → o' = Some a) → @lift S E A (ok_or o e) ⊑run lift (ok_or o' e).
Proof. intros H s a s'. unfold lift. destruct o as [x|]; [|done]. by rewrite (H x). Qed.

Lemma extends_fail {S E A} (e : E) (m : M S E A) : fail e ⊑run m.
Proof. by intros s a s'. Qed.

Lemma extends_repeatM {S E A} n (m m' : M S E A) : m ⊑run m' → repeatM n m ⊑run repeatM n m'.
Proof.
  intros H. induction n as [|n IH]; cbn [repeatM]; [done|].
  apply extends_bind; [done|]. intros a. by apply extends_bind.
Qed.

Lemma byte_get_app_l (l k : list Z) i b : byte_get l i = Some b → byte_get (l ++ k) i = Some b.
Proof. unfold byte_get. destruct (i <? 0); [done|]. apply lookup_app_l_Some. Qed.

Lemma subrange_app_l (l k : list Z) a b :
  0 ≤ a ≤ b → b ≤ len l → subrange (l ++ k) a b = subrange l a b.
Proof.
  intros Ha Hb. unfold subrange, len in *. rewrite drop_app_le by lia.
  rewrite take_app_le; [done|]. rewrite length_drop. lia.
Qed.

Lemma extends_slice {S E} l k a b : @lift S E _ (slice l a b) ⊑run lift (slice (l ++ k) a b).
Proof.
  intros s x s'. unfold lift, slice.
  destruct (Z.leb_spec 0 a), (Z.leb_spec a b), (Z.leb_spec b (len l)); try done.
  rewrite (proj2 (Z.leb_le b _)) by len_lia. cbn. by rewrite subrange_app_l by lia.
Qed.

Lemma extends_index {S E} l k i : @lift S E _ (index l i) ⊑run lift (index (l ++ k) i).
Proof.
  intros s x s'. unfold lift, index. destruct (byte_get l i) eqn:H; [|done].
  by rewrite (byte_get_app_l _ _ _ _ H).
Qed.

Create HintDb extends.
#[export] Hint Resolve extends_some extends_fail extends_slice extends_index byte_get_app_l : extends.

(** A decidable fact about concrete data, by evaluation. *)
Ltac by_eval := apply (bool_decide_unpack _); vm_compute; exact I.

(** ** Sums *)

Fixpoint sumZ (l : list Z) : Z := match l with [] => 0 | x :: l' => x + sumZ l' end.

Lemma sumZ_app l k : sumZ (l ++ k) = sumZ l + sumZ k.
Proof. induction l; cbn [app sumZ]; lia. Qed.

Lemma sumZ_nonneg l : Forall (λ p, 0 ≤ p) l → 0 ≤ sumZ l.
Proof. induction 1; cbn [sumZ]; lia. Qed.

(** ** Decimal numerals: printing and parsing *)

Lemma digit_byte d : 0 ≤ d < 10 → is_ascii_digit (48 + d) = true.
Proof. intros Hd. unfold is_ascii_digit, in_range. by rewrite !(proj2 (Z.leb_le _ _)) by lia. Qed.

Lemma parse_digits_app m acc l k :
  parse_digits m acc (l ++ k) =
  match parse_digits m acc l with Some a => parse_digits m a k | None => None end.
Proof.
  revert acc. induction l as [|b l IH]; intros acc; cbn [app parse_digits]; [done|].
  destruct (is_ascii_digit b); [|done]. cbv zeta. destruct (_ <=? m); [apply IH|done].
Qed.

Lemma decimal_digits_spec fuel n :
  0 ≤ n < 10 ^ Z.of_nat (S fuel) →
  let ds := decimal_digits (S fuel) n in
  ds ≠ [] ∧ Forall (λ b, is_ascii_digit b = true) ds ∧
  ∀ m, n ≤ m → parse_digits m 0 ds = Some n.
Proof.
  revert n. induction fuel as [|fuel IH]; intros n Hn; cbv zeta; unfold decimal_digits;
    fold decimal_digits; destruct (Z.ltb_spec n 10) as [Hs|Hb]; try (cbn in Hn; lia).
  1,2: split_and!; [done|by constructor; [apply digit_byte; lia|]|]; intros m Hm; cbn [parse_digits];
    rewrite digit_byte by lia; cbv zeta; replace (0 * 10 + (48 + n - 48)) with n by lia;
    by rewrite (proj2 (Z.leb_le n m) Hm).
  pose proof (Z.mod_pos_bound n 10 ltac:(lia)). pose proof (Z.div_mod n 10 ltac:(lia)).
  destruct (IH (n / 10)) as (Hne & Hd & Hp).
  { rewrite Nat2Z.inj_succ, Z.pow_succ_r in Hn by lia.
    split; [apply Z.div_pos|apply Z.div_lt_upper_bound]; lia. }
  unfold decimal_digits in Hne, Hd, Hp; fold decimal_digits in Hne, Hd, Hp. split_and!.
  - by destruct (if n / 10 <? 10 then _ else _).
  - apply Forall_app. split; [done|]. constructor; [apply digit_byte; lia|done].
  - intros m Hm. rewrite parse_digits_app, Hp by lia. cbn [parse_digits].
    rewrite digit_byte by lia. cbv zeta.
    replace (n / 10 * 10 + (48 + n mod 10 - 48)) with n by lia. by rewrite (proj2 (Z.leb_le n m) Hm).
Qed.

Lemma to_string_spec n :
  0 ≤ n ≤ u64_max →
  to_string n ≠ [] ∧ Forall (λ b, is_ascii_digit b = true) (to_string n) ∧
  ∀ m, n ≤ m → parse_digits m 0 (to_string n) = Some n.
Proof.
  intros Hn. apply decimal_digits_spec. unfold u64_max in Hn.
  assert (18446744073709551615 < 10 ^ Z.of_nat 40) by done. lia.
Qed.

Lemma strip_prefix_some p l r : strip_prefix p l = Some r → l = p ++ r.
Proof.
  unfold strip_prefix, starts_with. destruct (bytes_eqb _ _) eqn:H; [|done].
  apply bytes_eqb_eq in H. intros [= <-]. rewrite <-H at 1. by rewrite take_drop.
Qed.

Lemma strip_suffix_some q l r : strip_suffix q l = Some r → l = r ++ q.
Proof.
  unfold strip_suffix, ends_with. destruct (_ && _) eqn:H; [|done].
  apply andb_true_iff in H as [_ H%bytes_eqb_eq]. intros [= <-].
  rewrite <-(take_drop (length l - length q) l) at 1. by rewrite H.
Qed.

Lemma strip_prefix_app p r : strip_prefix p (p ++ r) = Some r.
Proof.
  unfold strip_prefix, starts_with. rewrite take_app_length, drop_app_length.
  by rewrite (proj2 (bytes_eqb_eq p p) eq_refl).
Qed.

Lemma parse_uint_to_string m n : 0 ≤ n ≤ u64_max → n ≤ m → parse_uint m (to_string n) = Some n.
Proof.
  intros Hn Hm. destruct (to_string_spec n Hn) as (Hne & Hd & Hp). unfold parse_uint.
  destruct (strip_prefix [43] (to_string n)) as [r|] eqn:Hs.
  { apply strip_prefix_some in Hs. rewrite Hs in Hd. by apply Forall_cons in Hd as [Hb _]. }
  rewrite bool_decide_eq_false_2 by done. auto.
Qed.

(** ** Splitting *)

Lemma position_none p l : (∀ b, b ∈ l → p b = false) → position p l = None.
Proof.
  induction l as [|b l IH]; intros H; [done|]. cbn. rewrite H by apply list_elem_of_here.
  rewrite IH; [done|]. intros; apply H. by apply list_elem_of_further.
Qed.

Lemma position_app p l b k :
  (∀ b, b ∈ l → p b = false) → p b = true → position p (l ++ b :: k) = Some (length l).
Proof.
  induction l as [|c l IH]; intros H Hb; cbn; [by rewrite Hb|].
  rewrite H by apply list_elem_of_here. rewrite IH; [done| |done].
  intros; apply H. by apply list_elem_of_further.
Qed.

Lemma position_take p l n b : position p l = Some n → b ∈ take n l → p b = false.
Proof.
  revert n. induction l as [|c l IH]; intros n; [done|]. cbn. destruct (p c) eqn:Hc.
  - intros [= <-]. cbn. by intros ?%elem_of_nil.
  - destruct (position p l) as [m|] eqn:Hm; [|done]. intros [= <-]. cbn.
    intros [->|Hb]%elem_of_cons; [done|]. by apply (IH m).
Qed.

Lemma position_full p l b : position p l = None → b ∈ l → p b = false.
Proof.
  induction l as [|c l IH]; cbn; [by intros _ ?%elem_of_nil|]. destruct (p c) eqn:Hc; [done|].
  destruct (position p l); [done|]. intros _ [->|Hb]%elem_of_cons; auto.
Qed.

Lemma contains_spec b l : contains b l = true ↔ b ∈ l.
Proof.
  unfold contains. rewrite existsb_exists. split.
  - intros (x & Hx & ->%Z.eqb_eq). by apply list_elem_of_In.
  - intros Hb%list_elem_of_In. exists b. by rewrite Z.eqb_refl.
Qed.

Lemma rsplit_once_some c l a b :
  rsplit_once c l = Some (a, b) → l = a ++ c :: b.
Proof.
  revert a b. induction l as [|x l IH]; intros a b; cbn; [done|].
  destruct (rsplit_once c l) as [[a' b']|].
  - intros [= <- <-]. cbn. by rewrite (IH a' b').
  - destruct (Z.eqb_spec x c); [|done]. by intros [= <- <-]; subst.
Qed.

Lemma rsplit_once_none c l : c ∉ l → rsplit_once c l = None.
Proof.
  induction l as [|x l IH]; intros Hc; cbn; [done|]. apply not_elem_of_cons in Hc as [Hx Hc].
  rewrite IH by done. by destruct (Z.eqb_spec x c).
Qed.

Lemma rsplit_once_app c a b : c ∉ b → rsplit_once c (a ++ c :: b) = Some (a, b).
Proof.
  intros Hb. induction a as [|x a IH]; cbn; [by rewrite rsplit_once_none, Z.eqb_refl|]. by rewrite IH.
Qed.

Lemma lowercase_upper b : is_ascii_uppercase (to_ascii_lowercase b) = false.
Proof.
  unfold to_ascii_lowercase. destruct (is_ascii_uppercase b) eqn:H; [|done].
  unfold is_ascii_uppercase, in_range in *. apply andb_true_iff in H as [?%Z.leb_le ?%Z.leb_le].
  apply andb_false_iff. right. apply Z.leb_gt. lia.
Qed.

Lemma lowercase_fixed l :
  Forall (λ b, is_ascii_uppercase b = false) l → ascii_lowercase l = l.
Proof.
  induction 1 as [|b l Hb _ IH]; [done|]. unfold ascii_lowercase in *. cbn [map].
  unfold to_ascii_lowercase at 1. by rewrite Hb, IH.
Qed.

(** ** Hexadecimal numerals *)

Definition is_hex_digit (b : Z) : bool := is_ascii_digit b || in_range 65 70 b.

Lemma hex_digit_byte d : 0 ≤ d < 16 → is_hex_digit (hex_digit d) = true.
Proof.
  intros Hd. unfold is_hex_digit, is_ascii_digit, in_range, hex_digit.
  destruct (Z.ltb_spec d 10); apply orb_true_iff; [left|right]; apply andb_true_iff;
    split; apply Z.leb_le; lia.
Qed.

Lemma hex_digits_spec fuel n :
  0 ≤ n → hex_digits (S fuel) n ≠ [] ∧ len (hex_digits (S fuel) n) ≤ Z.of_nat (S fuel) ∧
  Forall (λ b, is_hex_digit b = true) (hex_digits (S fuel) n).
Proof.
  revert n. induction fuel as [|fuel IH]; intros n Hn; unfold hex_digits; fold hex_digits;
    destruct (Z.ltb_spec n 16); try (split_and!; [done|unfold len; cbn [length app]; lia|by constructor; [apply hex_digit_byte; lia|]]).
  - split_and!; [done|unfold len; cbn [length app]; lia|]. constructor; [apply hex_digit_byte; by apply Z.mod_pos_bound|done].
  - destruct (IH (n / 16)) as (H1 & H2 & H3); [by apply Z.div_pos|].
    unfold hex_digits in H1, H2, H3; fold hex_digits in H1, H2, H3. split_and!.
    + by destruct (if n / 16 <? 16 then _ else _).
    + rewrite len_app. change (len [hex_digit (n mod 16)]) with 1. lia.
    + apply Forall_app. split; [done|]. constructor; [apply hex_digit_byte; by apply Z.mod_pos_bound|done].
Qed.

Lemma to_hex_spec n : 0 ≤ n →
  to_hex n ≠ [] ∧ len (to_hex n) ≤ 16 ∧ Forall (λ b, is_hex_digit b = true) (to_hex n).
Proof. apply (hex_digits_spec 15). Qed.

Lemma ends_with_app s l : ends_with s (l ++ s) = true.
Proof.
  unfold ends_with. rewrite length_app. rewrite (proj2 (Nat.leb_le _ _)) by lia. cbn [andb].
  replace (length l + length s - length s)%nat with (length l) by lia.
  rewrite drop_app_length. by apply bytes_eqb_eq.
Qed.

Lemma ends_with_last s l x y : ends_with (s ++ [x]) (l ++ [y]) = true → x = y.
Proof.
  unfold ends_with. intros [Hlen%Nat.leb_le H%bytes_eqb_eq]%andb_true_iff.
  rewrite !length_app in H, Hlen. cbn in H, Hlen.
  rewrite drop_app_le in H by lia. by apply app_inj_tail in H as [_ ->].
Qed.

(** Splitting at the first occurrence of a pattern whose first byte does not
    occur before it. *)
Lemma split_once_app c pat a rest :
  c ∉ a → split_once (c :: pat) (a ++ (c :: pat) ++ rest) = Some (a, rest).
Proof.
  intros Ha. induction a as [|b a IH].
  - cbn [app]. change (c :: pat ++ rest) with ((c :: pat) ++ rest).
    destruct ((c :: pat) ++ rest) eqn:He; [done|]. cbn [split_once].
    by rewrite <-He, strip_prefix_app.
  - apply not_elem_of_cons in Ha as [Hc Ha].
    cbn [app split_once]. destruct (strip_prefix _ _) eqn:Hs.
    + apply strip_prefix_some in Hs. by injection Hs as -> _.
    + change (a ++ c :: pat ++ rest) with (a ++ (c :: pat) ++ rest). by rewrite IH.
Qed.

Lemma split_once_some pat l a b : split_once pat l = Some (a, b) → l = a ++ pat ++ b.
Proof.
  revert a. induction l as [|x l IH]; intros a; cbn [split_once].
  - destruct (strip_prefix pat []) eqn:Hs; [|done]. intros [= <- <-]. by apply strip_prefix_some in Hs.
  - destruct (strip_prefix pat (x :: l)) eqn:Hs; [intros [= <- <-]; by apply strip_prefix_some in Hs|].
    destruct (split_once pat l) as [[a' b']|]; [|done]. intros [= <- <-]. cbn. by rewrite (IH a').
Qed.

Lemma position_drop p l n :
  position p l = Some n → ∃ b, p b = true ∧ drop n l = b :: drop (S n) l.
Proof.
  revert n. induction l as [|x l IH]; intros n; cbn [position]; [done|]. destruct (p x) eqn:Hx.
  - intros [= <-]. by exists x.
  - destruct (position p l) as [m|]; [|done]. intros [= <-]. exact (IH m eq_refl).
Qed.

Lemma parse_digits_digits m acc l n : parse_digits m acc l = Some n → Forall (λ b, is_ascii_digit b = true) l.
Proof.
  revert acc. induction l as [|b l IH]; intros acc; cbn; [by constructor|].
  destruct (is_ascii_digit b) eqn:Hb; [|done]. destruct (_ <=? m); [|done]. eauto.
Qed.

(** What [str::parse] accepts: digits, after at most one [+]. *)
Lemma parse_uint_bytes m l n b : parse_uint m l = Some n → b ∈ l → b = 43 ∨ is_ascii_digit b = true.
Proof.
  unfold parse_uint. intros H Hb. destruct (strip_prefix [43] l) as [r|] eqn:Hs.
  - apply strip_prefix_some in Hs. subst l. destruct (bool_decide _); [done|].
    apply parse_digits_digits in H. rewrite Forall_forall in H.
    apply elem_of_cons in Hb as [->|Hb]; eauto.
  - destruct (bool_decide _); [done|]. apply parse_digits_digits in H. rewrite Forall_forall in H. eauto.
Qed.

(** Induction on a fold that knows what was folded so far. *)
Lemma foldl_prefix_ind {A B} (P : list B → A → Prop) (f : A → B → A) a (l : list B) :
  P [] a → (∀ pre x post a, l = pre ++ x :: post → P pre a → P (pre ++ [x]) (f a x)) →
  P l (foldl f a l).
Proof.
  intros Ha Hf.
  assert (∀ pre k a, l = pre ++ k → P pre a → P l (foldl f a k)) as H; [|by apply (H [])].
  intros pre k. revert pre. induction k as [|x k IH]; intros pre a' Hl HP; cbn.
  - by rewrite Hl, app_nil_r.
  - apply (IH (pre ++ [x])); [by rewrite <-app_assoc|]. by eapply Hf.
Qed.
