(* ===== verification/Counting.v ===== *)
(** * Counting occurrences in lists

    How often a value is in a list, with equality decided; two lists are
    permutations when every value is in both as often. *)

From stdpp Require Import base list.
From Stdlib Require Import ZArith Lia.
From S2P Require Import Prelude.

(** ** Counting in lists *)

Definition occ `{EqDecision A} (x : A) (l : list A) : Z := Z.of_nat (count_occ (λ a b, decide (a = b)) l x).

Section occ.
Context `{EqDecision A}.
Implicit Types (x a : A) (l k : list A).
Lemma occ_nil x : occ x [] = 0.
Proof. done. Qed.
Lemma occ_cons x a l : occ x (a :: l) = (if decide (a = x) then 1 else 0) + occ x l.
Proof. unfold occ. cbn. destruct (decide (a = x)); lia. Qed.
Lemma occ_app x l k : occ x (l ++ k) = occ x l + occ x k.
Proof. unfold occ. rewrite count_occ_app. lia. Qed.
Lemma occ_nonneg x l : 0 ≤ occ x l.
Proof. unfold occ. lia. Qed.
Lemma occ_perm l k : l ≡ₚ k ↔ ∀ x, occ x l = occ x k.
Proof.
  unfold occ. rewrite (Permutation_count_occ (λ a b, decide (a = b))).
  split; intros Hp x; specialize (Hp x); lia.
Qed.
Lemma occ_elem x l : x ∈ l ↔ 0 < occ x l.
Proof. unfold occ. rewrite list_elem_of_In, (count_occ_In (λ a b, decide (a = b))). lia. Qed.
Lemma occ_nodup l : NoDup l ↔ ∀ x, occ x l ≤ 1.
Proof.
  unfold occ. rewrite NoDup_ListNoDup, (NoDup_count_occ (λ a b, decide (a = b))).
  split; intros Hn x; specialize (Hn x); lia.
Qed.
End occ.
Create Rewrite HintDb occ.
#[export] Hint Rewrite @occ_nil @occ_cons @occ_app : occ.

(** Permutations by counting; [prepare] unfolds the types that hide equal ones. *)
Ltac perm_by prepare :=
  repeat match goal with Hp : ?l ≡ₚ _ |- _ => let Hq := fresh "Hq" in pose proof (proj1 (occ_perm _ _) Hp) as Hq; clear Hp end;
  apply occ_perm; let y := fresh "y" in intros y;
  repeat match goal with Hq : ∀ x, occ x _ = occ x _ |- _ => specialize (Hq y) end;
  autorewrite with occ in *; prepare; lia.

(** Replacing one of several lists that are put together. *)
Lemma concat_insert {A B} `{EqDecision B} (f : A → list B) l i x y :
  l !! i = Some x → concat (map f (<[i := y]> l)) ++ f x ≡ₚ f y ++ concat (map f l).
Proof.
  intros Hi. rewrite insert_take_drop by (by eapply lookup_lt_Some). rewrite <-(take_drop_middle l i x Hi) at 3.
  rewrite !map_app, !concat_app. cbn. perm_by idtac.
Qed.
