(* ===== verification/Errors.v ===== *)
(** * The error type ([src/types.rs])

    The backend-neutral [Error] with its classification enums, each in a
    module of its own so that constructors are written as in the source
    ([ErrorKind.Limit], [TransportStage.Http]). *)

From stdpp Require Import base strings.
From S2P Require Import Prelude.

Module ErrorKind.
Inductive t :=
| EngineStopped | WrongEngine | WrongMode | ReentrantDrive | ReentrantOperation
| InvalidRequest | QueueFull | Limit | BackendUnavailable | Unsupported
| Transport | Timeout | Redirect | Internal.
#[global] Instance t_eq_dec : EqDecision t.
Proof. solve_decision. Defined.
End ErrorKind.

Module TimeoutKind.
Inductive t := Connect | Inactivity | Total | Unknown.
#[global] Instance t_eq_dec : EqDecision t.
Proof. solve_decision. Defined.
End TimeoutKind.

Module TransportStage.
Inductive t := Dns | Connect | Tls | Send | Receive | Http.
#[global] Instance t_eq_dec : EqDecision t.
Proof. solve_decision. Defined.
End TransportStage.

Module TlsFailure.
Inductive t :=
| Configuration | CertificateHostnameMismatch | CertificateUnknownIssuer
| CertificateExpired | CertificateNotYetValid | CertificateRevoked
| CertificateInvalid | PeerAlert | Protocol | Truncated | Io | Unknown.
#[global] Instance t_eq_dec : EqDecision t.
Proof. solve_decision. Defined.
End TlsFailure.

Module DnsFailure.
Inductive t :=
| ServerFailure | Refused | Malformed | Truncated | NoNameserver | Protocol | Io | Unknown.
#[global] Instance t_eq_dec : EqDecision t.
Proof. solve_decision. Defined.
End DnsFailure.

Module LimitKind.
Inductive t :=
| BufferedBodyBytes | RequestBodyBytes | RequestHeaderBytes | RequestHeaderCount
| ResponseBodyBytes | ResponseHeaderBytes | ResponseHeaderCount
| StreamingQueueBytes | ResolveResults | TcpQueueBytes.
#[global] Instance t_eq_dec : EqDecision t.
Proof. solve_decision. Defined.
End LimitKind.

Record Error := mkError {
  kind : ErrorKind.t;
  message : string;
  timeout_kind : option TimeoutKind.t;
  transport_stage : option TransportStage.t;
  tls_failure : option TlsFailure.t;
  dns_failure : option DnsFailure.t;
  limit_kind : option LimitKind.t
}.
#[global] Instance Error_eq_dec : EqDecision Error.
Proof. solve_decision. Defined.

(** The constructors [Error::new], [Error::timeout] and so on. *)
Definition error_new (k : ErrorKind.t) (m : string) : Error :=
  mkError k m None None None None None.
Definition error_timeout (k : TimeoutKind.t) (m : string) : Error :=
  mkError ErrorKind.Timeout m (Some k) None None None None.
Definition error_transport (stage : TransportStage.t) (m : string) : Error :=
  mkError ErrorKind.Transport m None (Some stage) None None None.
Definition error_tls (stage : TransportStage.t) (f : TlsFailure.t) (m : string) : Error :=
  mkError ErrorKind.Transport m None (Some stage) (Some f) None None.
Definition error_dns (f : DnsFailure.t) (m : string) : Error :=
  mkError ErrorKind.Transport m None (Some TransportStage.Dns) None (Some f) None.
Definition error_limit (k : LimitKind.t) (m : string) : Error :=
  mkError ErrorKind.Limit m None None None None (Some k).
