(* ===== verification/DnsWire.v ===== *)
(** * The DNS wire codec ([src/backend/native_dns_wire.rs])

    Names, queries and the response parser of the private, bounded DNS codec.
    A parser is a function from the packet to a computation on the cursor
    ([&mut usize]); [WireError] carries the source's message. *)

From stdpp Require Import base list strings gmap.
From Stdlib Require Import ZArith Lia.
From S2P Require Import Prelude.

Module Wire.

Definition MAX_PACKET_LEN : Z := 4096.
Definition DNS_HEADER_LEN : Z := 12.
Definition MAX_WIRE_NAME_LEN : Z := 255.
Definition MAX_LABEL_LEN : Z := 63.
Definition MAX_POINTER_HOPS : Z := 32.
Definition CLASS_IN : Z := 1.
Definition TYPE_CNAME : Z := 5.
Definition TYPE_SOA : Z := 6.
Definition TYPE_OPT : Z := 41.

Record WireError := mkWireError { message : string }.

Record Name := mkName { labels : list (list Z) }.

Inductive RecordType := A | AAAA.
Definition RecordType_code (t : RecordType) : Z :=
  match t with A => 1 | AAAA => 28 end.

Record Question := mkQuestion {
  q_name : Name;
  q_record_type : Z;
  q_class : Z
}.

(** [Ipv4Addr] and [Ipv6Addr] by their octets. *)
Inductive RData :=
| RData_A (a b c d : Z)
| RData_Aaaa (octets : list Z)
| RData_Cname (target : Name)
| RData_Soa (minimum : Z)
| RData_Opt (extended_rcode : Z)
| RData_Other.

Record DnsRecord := mkRecord {
  r_name : Name;
  r_record_type : Z;
  r_class : Z;
  r_ttl : Z;
  r_data : RData
}.

Record Response := mkResponse {
  id : Z;
  is_response : bool;
  truncated : bool;
  rcode : Z;
  questions : list Question;
  answers : list DnsRecord;
  authorities : list DnsRecord
}.

#[global] Instance Name_eq_dec : EqDecision Name.
Proof. solve_decision. Defined.
#[global] Instance RecordType_eq_dec : EqDecision RecordType.
Proof. solve_decision. Defined.
#[global] Instance Question_eq_dec : EqDecision Question.
Proof. solve_decision. Defined.
#[global] Instance RData_eq_dec : EqDecision RData.
Proof. solve_decision. Defined.
#[global] Instance DnsRecord_eq_dec : EqDecision DnsRecord.
Proof. solve_decision. Defined.

Definition root : Name := mkName [].
Definition is_root (n : Name) : bool := bool_decide (labels n = []).

Definition fold_label (label : list Z) : list Z := map to_ascii_lowercase label.

Section with_target.
Context {tgt : Target}.

(** The loop over [value.split('.')] of [Name::from_ascii]. *)
Fixpoint from_ascii_labels (pieces : list (list Z)) (acc : list (list Z)) (wire_len : Z)
  : outcome WireError Name :=
  match pieces with
  | [] => Ok (mkName acc)
  | label :: rest =>
      if bool_decide (label = []) || (MAX_LABEL_LEN <? len label)
      then Err (mkWireError "DNS presentation label length is invalid")
      else
        label_len ← uadd (len label) 1;
        wire_len' ← ok_or (checked_add usize_max wire_len label_len)
                      (mkWireError "DNS presentation name length overflowed");
        if MAX_WIRE_NAME_LEN <? wire_len'
        then Err (mkWireError "DNS presentation name is too long")
        else from_ascii_labels rest (acc ++ [fold_label label]) wire_len'
  end.

Definition from_ascii (value : list Z) : outcome WireError Name :=
  if negb (is_ascii value)
  then Err (mkWireError "DNS presentation name is not ASCII")
  else if bytes_eqb value (bs ".") then Ok root
  else
    let value := match strip_suffix (bs ".") value with Some v => v | None => value end in
    if bool_decide (value = [])
    then Err (mkWireError "DNS presentation name is empty")
    else from_ascii_labels (split_on 46 value) [] 1.

Definition put_u16 (output : list Z) (value : Z) : list Z := output ++ u16_to_be_bytes value.

(** [Name::encode]: the bytes it appends. [label.len() as u8] truncates. *)
Definition encode_label (label : list Z) : list Z := (len label mod 256) :: label.
Definition encode_name (n : Name) : list Z := concat (map encode_label (labels n)) ++ [0].

Definition encode_query (id : Z) (name : Name) (record_type : RecordType)
  : outcome WireError (list Z) :=
  if is_root name then Err (mkWireError "DNS query name is the root")
  else
    let output := put_u16 [] id in
    let output := put_u16 output 256 in
    let output := put_u16 output 1 in
    let output := put_u16 output 0 in
    let output := put_u16 output 0 in
    let output := put_u16 output 0 in
    let output := output ++ encode_name name in
    let output := put_u16 output (RecordType_code record_type) in
    let output := put_u16 output CLASS_IN in
    if MAX_PACKET_LEN <? len output
    then Err (mkWireError "encoded DNS query exceeds the packet bound")
    else Ok output.

(** ** Cursor primitives *)

Definition field_error : WireError := mkWireError "DNS field extends beyond the packet".

Definition take_u16 (bytes : list Z) : M Z WireError Z :=
  cursor ← get;
  first ← lift (ok_or (byte_get bytes cursor) field_error);
  at_second ← lift (uadd cursor 1);
  second ← lift (ok_or (byte_get bytes at_second) field_error);
  next ← lift (uadd cursor 2);
  _ ← put next;
  mret (u16_from_be_bytes first second).

(** [cursor.checked_add(n).filter(|end| *end <= bound)]. *)
Definition checked_end (cursor n bound : Z) : option Z :=
  match checked_add usize_max cursor n with
  | Some stop => if stop <=? bound then Some stop else None
  | None => None
  end.

Definition take_u32 (bytes : list Z) : M Z WireError Z :=
  cursor ← get;
  stop ← lift (ok_or (checked_end cursor 4 (len bytes)) field_error);
  field ← lift (slice bytes cursor stop);
  value ← match field with
          | [a; b; c; d] => mret (u32_from_be_bytes a b c d)
          | _ => fail (mkWireError "DNS field has the wrong width")
          end;
  _ ← put stop;
  mret value.

Definition take_u32_bounded (bytes : list Z) (bound : Z) : M Z WireError Z :=
  cursor ← get;
  match checked_end cursor 4 bound with
  | None => fail (mkWireError "DNS RDATA field extends beyond its declared span")
  | Some _ => take_u32 bytes
  end.

(** ** Names

    One iteration per label or pointer: [wire_len] grows with each label and
    [pointer_hops] with each pointer, so [READ_NAME_FUEL] iterations are
    enough (theorem [read_name_spec]). *)

Fixpoint read_name_loop (fuel : nat) (bytes : list Z) (labels : list (list Z))
    (position : Z) (jumped : bool) (pointer_hops : Z) (visited : list Z) (wire_len : Z)
  : M Z WireError Name :=
  match fuel with
  | O => diverge
  | S fuel' =>
      length ← lift (ok_or (byte_get bytes position)
                       (mkWireError "DNS name extends beyond the packet"));
      if Z.land length 192 =? 192 then
        at_low ← lift (uadd position 1);
        low ← lift (ok_or (byte_get bytes at_low)
                      (mkWireError "DNS compression pointer is incomplete"));
        let target := Z.lor (Z.shiftl (Z.land length 63) 8) low in
        if len bytes <=? target then
          fail (mkWireError "DNS compression pointer is outside the packet")
        else if position <=? target then
          fail (mkWireError "DNS compression pointer does not point backward")
        else
          _ ← (if jumped then mret tt else after ← lift (uadd position 2); put after);
          hops ← lift (uadd pointer_hops 1);
          if (MAX_POINTER_HOPS <? hops) || contains target visited then
            fail (mkWireError "DNS compression pointer loop or depth exceeded")
          else
            read_name_loop fuel' bytes labels target true hops (visited ++ [target]) wire_len
      else if negb (Z.land length 192 =? 0) then
        fail (mkWireError "DNS name uses an unsupported label encoding")
      else
        position ← lift (uadd position 1);
        if length =? 0 then
          _ ← (if jumped then mret tt else put position);
          mret (mkName labels)
        else if MAX_LABEL_LEN <? length then
          fail (mkWireError "DNS label exceeds 63 octets")
        else
          stop ← lift (ok_or (checked_end position length (len bytes))
                         (mkWireError "DNS label extends beyond the packet"));
          step ← lift (uadd length 1);
          wire_len' ← lift (ok_or (checked_add usize_max wire_len step)
                              (mkWireError "decoded DNS name length overflowed"));
          if MAX_WIRE_NAME_LEN <? wire_len' then
            fail (mkWireError "decoded DNS name exceeds 255 wire octets")
          else
            label ← lift (slice bytes position stop);
            read_name_loop fuel' bytes (labels ++ [fold_label label]) stop jumped
              pointer_hops visited wire_len'
  end.

Definition READ_NAME_FUEL : nat := 300.

Definition read_name (bytes : list Z) : M Z WireError Name :=
  cursor ← get;
  read_name_loop READ_NAME_FUEL bytes [] cursor false 0 [] 1.

(** ** Records

    [let mut c = start; f(bytes, &mut c)?]: run a reader on a cursor of its
    own, returning what it read and where it stopped; the outer cursor is
    untouched. *)
Definition at_cursor {R} (start : Z) (m : M Z WireError R) : M Z WireError (R * Z) :=
  λ cursor,
    match m start with
    | (Ok a, stop) => (Ok (a, stop), cursor)
    | (Err e, _) => (Err e, cursor)
    | (Panic, _) => (Panic, cursor)
    | (Diverge, _) => (Diverge, cursor)
    end.

Definition read_soa (bytes : list Z) (data_end : Z) : M Z WireError Z :=
  _primary ← read_name bytes;
  _mailbox ← read_name bytes;
  _serial ← take_u32_bounded bytes data_end;
  _refresh ← take_u32_bounded bytes data_end;
  _retry ← take_u32_bounded bytes data_end;
  _expire ← take_u32_bounded bytes data_end;
  take_u32_bounded bytes data_end.

(** The [match record_type] of [read_record]. *)
Definition read_rdata (bytes : list Z) (record_type ttl data_len data_start data_end : Z)
  : M Z WireError RData :=
  if record_type =? 1 then
    if negb (data_len =? 4) then fail (mkWireError "DNS A RDATA has the wrong length")
    else
      a ← lift (index bytes data_start);
      b ← lift (index bytes (data_start + 1));
      c ← lift (index bytes (data_start + 2));
      d ← lift (index bytes (data_start + 3));
      mret (RData_A a b c d)
  else if record_type =? 28 then
    if negb (data_len =? 16) then fail (mkWireError "DNS AAAA RDATA has the wrong length")
    else
      octets ← lift (slice bytes data_start data_end);
      (* [copy_from_slice] panics when the lengths differ *)
      if len octets =? 16 then mret (RData_Aaaa octets) else panic
  else if record_type =? TYPE_CNAME then
    '(target, name_cursor) ← at_cursor data_start (read_name bytes);
    if negb (name_cursor =? data_end) then
      fail (mkWireError "DNS CNAME RDATA has trailing bytes")
    else mret (RData_Cname target)
  else if record_type =? TYPE_SOA then
    '(minimum, soa_cursor) ← at_cursor data_start (read_soa bytes data_end);
    if negb (soa_cursor =? data_end) then
      fail (mkWireError "DNS SOA RDATA has trailing bytes")
    else mret (RData_Soa minimum)
  else if record_type =? TYPE_OPT then
    mret (RData_Opt (Z.shiftr ttl 24 mod 256))
  else mret RData_Other.

Definition read_record (bytes : list Z) : M Z WireError DnsRecord :=
  name ← read_name bytes;
  record_type ← take_u16 bytes;
  class ← take_u16 bytes;
  ttl ← take_u32 bytes;
  data_len ← take_u16 bytes;
  data_start ← get;
  data_end ← lift (ok_or (checked_end data_start data_len (len bytes))
                     (mkWireError "DNS RDATA extends beyond the packet"));
  data ← read_rdata bytes record_type ttl data_len data_start data_end;
  _ ← put data_end;
  mret (mkRecord name record_type class ttl data).

(** ** Messages *)

Definition validate_minimum_shape (remaining questions answers authorities additionals : Z)
  : outcome WireError unit :=
  question_minimum ← ok_or (checked_mul usize_max questions 5)
                       (mkWireError "DNS question count overflowed");
  record_count ← ok_or (match checked_add usize_max answers authorities with
                        | Some count => checked_add usize_max count additionals
                        | None => None
                        end) (mkWireError "DNS record count overflowed");
  record_minimum ← ok_or (checked_mul usize_max record_count 11)
                     (mkWireError "DNS record count overflowed");
  match checked_add usize_max question_minimum record_minimum with
  | Some minimum =>
      if remaining <? minimum
      then Err (mkWireError "DNS section counts cannot fit in the packet") else Ok tt
  | None => Err (mkWireError "DNS section counts cannot fit in the packet")
  end.

Definition read_question (bytes : list Z) : M Z WireError Question :=
  name ← read_name bytes;
  record_type ← take_u16 bytes;
  class ← take_u16 bytes;
  mret (mkQuestion name record_type class).

(** The loop over the additional section, keeping the one OPT record. *)
Fixpoint read_additionals (n : nat) (bytes : list Z) (extended_rcode : option Z)
  : M Z WireError (option Z) :=
  match n with
  | O => mret extended_rcode
  | S n' =>
      record ← read_record bytes;
      match r_data record with
      | RData_Opt value =>
          match extended_rcode with
          | Some _ => fail (mkWireError "DNS response contains multiple OPT records")
          | None => read_additionals n' bytes (Some value)
          end
      | _ => read_additionals n' bytes extended_rcode
      end
  end.

(** [parse_response] up to its trailing-bytes test: the six header fields,
    the shape check and the four sections. *)
Record Sections := mkSections {
  s_id : Z; s_flags : Z;
  s_questions : list Question; s_answers : list DnsRecord; s_authorities : list DnsRecord;
  s_extended_rcode : option Z
}.

Definition parse_sections (bytes : list Z) : M Z WireError Sections :=
  id ← take_u16 bytes;
  flags ← take_u16 bytes;
  question_count ← take_u16 bytes;
  answer_count ← take_u16 bytes;
  authority_count ← take_u16 bytes;
  additional_count ← take_u16 bytes;
  _ ← lift (remaining ← usub (len bytes) DNS_HEADER_LEN;
            validate_minimum_shape remaining question_count answer_count
              authority_count additional_count);
  questions ← repeatM (Z.to_nat question_count) (read_question bytes);
  answers ← repeatM (Z.to_nat answer_count) (read_record bytes);
  authorities ← repeatM (Z.to_nat authority_count) (read_record bytes);
  extended_rcode ← read_additionals (Z.to_nat additional_count) bytes None;
  mret (mkSections id flags questions answers authorities extended_rcode).

Definition parse_body (bytes : list Z) : M Z WireError Response :=
  parsed ← parse_sections bytes;
  cursor ← get;
  if negb (cursor =? len bytes) then fail (mkWireError "DNS response has trailing bytes")
  else
    let flags := s_flags parsed in
    let base_rcode := Z.land flags 15 in
    let rcode := Z.lor (Z.shiftl (default 0 (s_extended_rcode parsed)) 4) base_rcode in
    mret (mkResponse (s_id parsed) (negb (Z.land flags 32768 =? 0))
            (negb (Z.land flags 512 =? 0)) rcode
            (s_questions parsed) (s_answers parsed) (s_authorities parsed)).

Definition parse_response (bytes : list Z) : outcome WireError Response :=
  if (len bytes <? DNS_HEADER_LEN) || (MAX_PACKET_LEN <? len bytes)
  then Err (mkWireError "DNS response length is outside the packet bound")
  else fst (parse_body bytes 0).

End with_target.
End Wire.

(** ** The fixture encoder ([mod test_support])

    The repository's own message builder, which its resolver tests answer
    with: the other side of [parse_response]. *)

Module Fixture.
Import Wire.

Inductive MessageType := Query | Resp.
Inductive ResponseCode := NoError | FormErr | ServFail | NXDomain | Refused.
Definition ResponseCode_code (c : ResponseCode) : Z :=
  match c with NoError => 0 | FormErr => 1 | ServFail => 2 | NXDomain => 3 | Refused => 5 end.
Inductive FixtureType := FA | FAAAA | Other (code : Z).
Definition FixtureType_code (t : FixtureType) : Z :=
  match t with FA => 1 | FAAAA => 28 | Other code => code end.

Record FixtureQuery := mkQuery { query_name : Name; query_type : FixtureType }.

(** [refresh], [retry] and [expire] are [i32]. *)
Record SOA := mkSOA {
  primary : Name; mailbox : Name; serial : Z;
  refresh : Z; retry : Z; expire : Z; minimum : Z
}.

Inductive FixtureRData :=
| FD_A (a b c d : Z)
| FD_AAAA (octets : list Z)
| FD_CNAME (target : Name)
| FD_SOA (soa : SOA).

Record FixtureRecord := mkFixtureRecord {
  f_name : Name; f_ttl : Z; f_data : FixtureRData
}.

Record Message := mkMessage {
  m_id : Z;
  m_type : MessageType;
  recursion_desired : bool;
  recursion_available : bool;
  m_truncated : bool;
  response_code : ResponseCode;
  queries : list FixtureQuery;
  m_answers : list FixtureRecord;
  name_servers : list FixtureRecord
}.

Definition encode_rdata (d : FixtureRData) : Z * list Z :=
  match d with
  | FD_A a b c d => (1, [a; b; c; d])
  | FD_AAAA octets => (28, octets)
  | FD_CNAME name => (TYPE_CNAME, encode_name name)
  | FD_SOA soa =>
      (TYPE_SOA,
       encode_name (primary soa) ++ encode_name (mailbox soa) ++
       u32_to_be_bytes (serial soa) ++ u32_to_be_bytes (refresh soa) ++
       u32_to_be_bytes (retry soa) ++ u32_to_be_bytes (expire soa) ++
       u32_to_be_bytes (minimum soa))
  end.

Definition encode_record (output : list Z) (record : FixtureRecord)
  : outcome WireError (list Z) :=
  let output := output ++ encode_name (f_name record) in
  let '(record_type, rdata) := encode_rdata (f_data record) in
  let output := put_u16 output record_type in
  let output := put_u16 output CLASS_IN in
  let output := output ++ u32_to_be_bytes (f_ttl record) in
  if u16_max <? len rdata then Err (mkWireError "fixture DNS RDATA exceeds u16")
  else
    let output := put_u16 output (len rdata) in
    Ok (output ++ rdata).

Definition put_count (output : list Z) (value : Z) : outcome WireError (list Z) :=
  if u16_max <? value then Err (mkWireError "fixture DNS section count exceeds u16")
  else Ok (put_u16 output value).

Fixpoint encode_records (output : list Z) (records : list FixtureRecord)
  : outcome WireError (list Z) :=
  match records with
  | [] => Ok output
  | r :: rest => output ← encode_record output r; encode_records output rest
  end.

Definition encode_fixture_query (output : list Z) (q : FixtureQuery) : list Z :=
  let output := output ++ encode_name (query_name q) in
  let output := put_u16 output (FixtureType_code (query_type q)) in
  put_u16 output CLASS_IN.

Definition message_flags (m : Message) : Z :=
  let flags := 0 in
  let flags := match m_type m with Resp => Z.lor flags 32768 | Query => flags end in
  let flags := if recursion_desired m then Z.lor flags 256 else flags in
  let flags := if recursion_available m then Z.lor flags 128 else flags in
  let flags := if m_truncated m then Z.lor flags 512 else flags in
  Z.lor flags (ResponseCode_code (response_code m)).

Definition to_vec (m : Message) : outcome WireError (list Z) :=
  let output := put_u16 [] (m_id m) in
  let output := put_u16 output (message_flags m) in
  output ← put_count output (len (queries m));
  output ← put_count output (len (m_answers m));
  output ← put_count output (len (name_servers m));
  let output := put_u16 output 0 in
  let output := fold_left encode_fixture_query (queries m) output in
  output ← encode_records output (m_answers m);
  output ← encode_records output (name_servers m);
  if MAX_PACKET_LEN <? len output
  then Err (mkWireError "fixture DNS message exceeds packet bound")
  else Ok output.

End Fixture.
