(* ===== verification/DnsWireProofs.v ===== *)
(** * Correctness of the DNS wire codec

    Well-formedness of decoded names and messages, freedom from panics and
    from non-termination on every packet, and the round trip of a query. *)

From stdpp Require Import base list strings gmap.
From Stdlib Require Import ZArith Lia.
From S2P Require Import Prelude DnsWire.
Import Wire Fixture.

(** ** Well-formed names *)

Definition wf_label (l : list Z) : Prop :=
  1 ≤ len l ≤ MAX_LABEL_LEN ∧
  Forall (λ b, is_byte b ∧ is_ascii_uppercase b = false) l.

Fixpoint labels_wire_len (ls : list (list Z)) : Z :=
  match ls with [] => 1 | l :: ls' => len l + 1 + labels_wire_len ls' end.

Definition wf_name (n : Name) : Prop :=
  Forall wf_label (labels n) ∧ labels_wire_len (labels n) ≤ MAX_WIRE_NAME_LEN.

#[global] Instance wf_label_dec l : Decision (wf_label l).
Proof. unfold wf_label. apply _. Defined.
#[global] Instance wf_name_dec n : Decision (wf_name n).
Proof. unfold wf_name. apply _. Defined.

Definition wf_rdata (d : RData) : Prop :=
  match d with
  | RData_A a b c d => Forall is_byte [a; b; c; d]
  | RData_Aaaa octets => len octets = 16 ∧ Forall is_byte octets
  | RData_Cname target => wf_name target
  | RData_Soa minimum => 0 ≤ minimum ≤ u32_max
  | RData_Opt extended => is_byte extended
  | RData_Other => True
  end.

Definition wf_record (r : DnsRecord) : Prop :=
  wf_name (r_name r) ∧ 0 ≤ r_record_type r ≤ u16_max ∧ 0 ≤ r_class r ≤ u16_max ∧
  0 ≤ r_ttl r ≤ u32_max ∧ wf_rdata (r_data r).

Definition wf_question (q : Question) : Prop :=
  wf_name (q_name q) ∧ 0 ≤ q_record_type q ≤ u16_max ∧ 0 ≤ q_class q ≤ u16_max.

(** What the parser promises of a response read from [bytes]. *)
Definition wf_response (bytes : list Z) (r : Response) : Prop :=
  0 ≤ id r ≤ u16_max ∧ 0 ≤ rcode r < 4096 ∧
  Forall wf_question (questions r) ∧ Forall wf_record (answers r) ∧
  Forall wf_record (authorities r) ∧
  DNS_HEADER_LEN + 5 * len (questions r) + 11 * (len (answers r) + len (authorities r))
    ≤ len bytes.

Lemma to_ascii_lowercase_byte b : is_byte b → is_byte (to_ascii_lowercase b).
Proof.
  unfold is_byte, to_ascii_lowercase, is_ascii_uppercase, in_range. intros ?.
  destruct (Z.leb_spec 65 b), (Z.leb_spec b 90); simpl; lia.
Qed.

Lemma to_ascii_lowercase_not_upper b : is_ascii_uppercase (to_ascii_lowercase b) = false.
Proof.
  unfold to_ascii_lowercase, is_ascii_uppercase, in_range.
  destruct (Z.leb_spec 65 b), (Z.leb_spec b 90); simpl;
    repeat match goal with |- context [?a <=? ?b] => destruct (Z.leb_spec a b) end;
    simpl; lia.
Qed.

Lemma to_ascii_lowercase_id b : is_ascii_uppercase b = false → to_ascii_lowercase b = b.
Proof. unfold to_ascii_lowercase. by intros ->. Qed.

Lemma fold_label_id l : wf_label l → fold_label l = l.
Proof.
  intros [_ Hl]. unfold fold_label. induction Hl as [|b l [_ Hb] _ IH]; [done|].
  simpl. by rewrite to_ascii_lowercase_id, IH.
Qed.

Lemma fold_label_wf l :
  1 ≤ len l ≤ MAX_LABEL_LEN → Forall is_byte l → wf_label (fold_label l).
Proof.
  intros Hlen Hl. split; [by unfold fold_label; rewrite len_map|].
  unfold fold_label. apply Forall_fmap. eapply Forall_impl; [exact Hl|].
  intros b Hb. split; [by apply to_ascii_lowercase_byte|apply to_ascii_lowercase_not_upper].
Qed.

Lemma labels_wire_len_app ls l :
  labels_wire_len (ls ++ [l]) = labels_wire_len ls + len l + 1.
Proof. induction ls as [|k ls IH]; simpl; lia. Qed.

Lemma labels_wire_len_pos ls : 1 ≤ labels_wire_len ls.
Proof. induction ls as [|k ls IH]; simpl; [lia|]. pose proof (len_nonneg k). lia. Qed.

Lemma wf_labels_app ls l : Forall wf_label ls → wf_label l → Forall wf_label (ls ++ [l]).
Proof. intros. apply Forall_app; auto. Qed.

(** ** The label length octet *)

Lemma land_pointer_tag b : is_byte b → (Z.land b 192 =? 192) = (192 <=? b).
Proof.
  intros Hb. apply Bool.eqb_prop. revert b Hb.
  refine (byte_cases (λ b, Bool.eqb (Z.land b 192 =? 192) (192 <=? b)) _). by vm_compute.
Qed.

Lemma land_label_tag b : is_byte b → (Z.land b 192 =? 0) = (b <? 64).
Proof.
  intros Hb. apply Bool.eqb_prop. revert b Hb.
  refine (byte_cases (λ b, Bool.eqb (Z.land b 192 =? 0) (b <? 64)) _). by vm_compute.
Qed.

Lemma pointer_target b low :
  is_byte b → is_byte low → Z.lor (Z.shiftl (Z.land b 63) 8) low = (b mod 64) * 256 + low.
Proof.
  intros Hb Hlow. unfold is_byte in *.
  rewrite Z.shiftl_mul_pow2 by lia.
  replace (Z.land b 63) with (b mod 64) by (symmetry; apply (Z.land_ones b 6); lia).
  change (2 ^ 8) with 256.
  rewrite <-Z.lxor_lor, <-Z.add_nocarry_lxor; [done| |].
  all: apply Z.bits_inj'; intros n Hn; rewrite Z.land_spec, Z.bits_0;
    change 256 with (2 ^ 8); destruct (Z.ltb_spec n 8);
    [rewrite Z.mul_pow2_bits_low by lia; done|];
    rewrite (Z.bits_above_log2 low n); [by rewrite andb_false_r|lia|];
    destruct (Z.eq_dec low 0) as [->|]; [simpl; lia|];
    apply Z.log2_lt_pow2; [lia|];
    apply (Z.lt_le_trans _ (2^8)); [lia|]; apply Z.pow_le_mono_r; lia.
Qed.

Section safety.
Context {tgt : Target} (bytes : list Z).
Hypothesis Hbytes : Forall is_byte bytes.
Hypothesis Hlen : len bytes ≤ MAX_PACKET_LEN.

Local Abbreviation safe m Q s := (wp m Q (λ _ _, True) s).

Lemma packet_fits n : n ≤ 4200 → n ≤ usize_max.
Proof. pose proof usize_bounds. unfold u32_max in *. lia. Qed.

Ltac fits := apply owp_uadd; [apply packet_fits; unfold MAX_PACKET_LEN in *; lia | wp_go].

Lemma take_u16_safe c :
  0 ≤ c → safe (take_u16 bytes) (λ v c', 0 ≤ v ≤ u16_max ∧ c' = c + 2 ∧ c' ≤ len bytes) c.
Proof.
  intros Hc. unfold take_u16. wp_go.
  wp_some b1 [Hi1 Hb1]%byte_get_inv. fits.
  wp_some b2 [Hi2 Hb2]%byte_get_inv. fits.
  pose proof (Forall_elem _ _ _ Hbytes Hb1). pose proof (Forall_elem _ _ _ Hbytes Hb2).
  unfold is_byte, u16_from_be_bytes, u16_max in *. lia.
Qed.

Lemma checked_end_inv c n bound e :
  checked_end c n bound = Some e → e = c + n ∧ e ≤ bound.
Proof.
  unfold checked_end, checked_add. repeat zcase; intros; simplify_eq; lia.
Qed.

Lemma take_u32_safe c :
  0 ≤ c → safe (take_u32 bytes) (λ v c', 0 ≤ v ≤ u32_max ∧ c' = c + 4 ∧ c' ≤ len bytes) c.
Proof.
  intros Hc. unfold take_u32. wp_go.
  wp_some stop [-> Hstop]%checked_end_inv.
  apply owp_slice; [lia..|]. wp_go.
  assert (Hl : len (subrange bytes c (c + 4)) = 4) by (rewrite len_subrange; lia).
  pose proof (subrange_Forall _ _ c (c + 4) Hbytes) as Hb.
  destruct (subrange bytes c (c + 4)) as [|b1 [|b2 [|b3 [|b4 [|]]]]]; try (len_lia).
  wp_go. decompose_Forall_hyps.
  unfold is_byte, u32_from_be_bytes, u32_max in *. lia.
Qed.

Lemma take_u32_bounded_safe c bound :
  0 ≤ c →
  safe (take_u32_bounded bytes bound)
    (λ v c', 0 ≤ v ≤ u32_max ∧ c' = c + 4 ∧ c' ≤ len bytes ∧ c' ≤ bound) c.
Proof.
  intros Hc. unfold take_u32_bounded. wp_go.
  destruct (checked_end c 4 bound) as [e|] eqn:He; [|by wp_go].
  apply checked_end_inv in He. wp_use take_u32_safe; [done|]. intuition lia.
Qed.

(** The loop invariant of [read_name_loop]: [start] is the cursor on entry,
    [c] the cursor now. *)
Definition name_loop_inv (start : Z) (ls : list (list Z)) (pos : Z) (jumped : bool)
    (hops wire_len c : Z) : Prop :=
  Forall wf_label ls ∧ wire_len = labels_wire_len ls ∧ wire_len ≤ MAX_WIRE_NAME_LEN ∧
  0 ≤ pos ≤ len bytes ∧ 0 ≤ hops ≤ MAX_POINTER_HOPS ∧
  (if jumped then start < c ≤ len bytes else c = start ∧ start ≤ pos).

Lemma read_name_loop_safe fuel start : ∀ ls pos jumped hops visited wire_len c,
  0 ≤ start →
  name_loop_inv start ls pos jumped hops wire_len c →
  (MAX_WIRE_NAME_LEN - wire_len) + (MAX_POINTER_HOPS - hops) < Z.of_nat fuel →
  safe (read_name_loop fuel bytes ls pos jumped hops visited wire_len)
    (λ n c', wf_name n ∧ start < c' ≤ len bytes) c.
Proof.
  induction fuel as [|fuel IH];
    intros ls pos jumped hops visited wire_len c Hstart (Hls & Hwl & Hwb & Hpos & Hhops & Hc) Hfuel;
    unfold MAX_WIRE_NAME_LEN, MAX_POINTER_HOPS, MAX_PACKET_LEN in *; [lia|].
  cbn [read_name_loop]. wp_go.
  wp_some b [Hi Hb]%byte_get_inv. apply (Forall_elem _ _ _ Hbytes) in Hb.
  rewrite land_pointer_tag, land_label_tag by done. zcase.
  - wp_go. fits. wp_some low [Hi2 Hlow]%byte_get_inv.
    apply (Forall_elem _ _ _ Hbytes) in Hlow. rewrite pointer_target by done.
    zcase; [by wp_go|]. zcase; [by wp_go|]. wp_go.
    assert (0 ≤ b mod 64 * 256 + low) by (unfold is_byte in *; Z.to_euclidean_division_equations; lia).
    destruct jumped; wp_go; [|fits]; fits; destruct ((_ <? _) || _) eqn:Hh; try by wp_go.
    all: apply orb_false_iff in Hh as [Hh _]; apply Z.ltb_ge in Hh.
    all: apply IH; [done| |unfold MAX_POINTER_HOPS in *; lia].
    all: repeat split; auto; unfold MAX_POINTER_HOPS in *; lia.
  - zcase; [|by wp_go]. simpl. wp_go. fits. zcase; wp_go.
    + destruct jumped; wp_go; (split; [split; [done|cbn; unfold MAX_WIRE_NAME_LEN; lia]|lia]).
    + unfold MAX_LABEL_LEN. zcase; [by wp_go|].
      wp_go. wp_some stop [-> Hstop]%checked_end_inv. fits.
      apply owp_ok_or; [|done]. unfold checked_add. intros wl'. zcase; [|done]. intros [= <-].
      wp_go. zcase; [by wp_go|]. wp_go. unfold is_byte in *. apply owp_slice; [lia..|].
      assert (wf_label (fold_label (subrange bytes (pos + 1) (pos + 1 + b)))).
      { apply fold_label_wf; [rewrite len_subrange by lia; unfold MAX_LABEL_LEN; lia|].
        by apply subrange_Forall. }
      assert (Hfl : len (fold_label (subrange bytes (pos + 1) (pos + 1 + b))) = b)
        by (unfold fold_label; rewrite len_map, len_subrange; lia).
      apply IH; [done| |unfold MAX_WIRE_NAME_LEN, MAX_POINTER_HOPS in *; lia].
      repeat split; auto using wf_labels_app; rewrite ?labels_wire_len_app, ?Hfl;
        unfold MAX_WIRE_NAME_LEN, MAX_POINTER_HOPS in *; try lia.
      destruct jumped; lia.
Qed.

Lemma read_name_safe c :
  0 ≤ c ≤ len bytes → safe (read_name bytes) (λ n c', wf_name n ∧ c < c' ≤ len bytes) c.
Proof.
  intros Hc. unfold read_name. wp_go. apply read_name_loop_safe; [lia| |by vm_compute].
  repeat split; try done; lia.
Qed.

Lemma at_cursor_safe {R} (m : M Z WireError R) (Q : R → Z → Prop) start c :
  safe m Q start → safe (at_cursor start m) (λ '(a, stop) c', Q a stop ∧ c' = c) c.
Proof. unfold wpx, at_cursor. by destruct (m start) as [[] ?]. Qed.

Lemma read_soa_safe data_end c :
  0 ≤ c ≤ len bytes →
  safe (read_soa bytes data_end) (λ v _, 0 ≤ v ≤ u32_max) c.
Proof.
  intros Hc. unfold read_soa.
  do 2 (wp_go; wp_use read_name_safe; [lia|intros ? ? [_ ?]]).
  do 5 (wp_go; wp_use take_u32_bounded_safe; [lia|intros ? ? ?]). tauto.
Qed.

Lemma read_rdata_safe record_type ttl data_len data_start data_end c :
  0 ≤ ttl ≤ u32_max → 0 ≤ data_start → 0 ≤ data_len → data_end = data_start + data_len →
  data_end ≤ len bytes →
  safe (read_rdata bytes record_type ttl data_len data_start data_end)
    (λ d c', wf_rdata d ∧ c' = c) c.
Proof.
  intros Httl Hstart Hdl -> Hend. unfold read_rdata.
  repeat (zcase; try by wp_go); subst; wp_go.
  - do 4 (apply owp_index; [lia|intros ? ?%(Forall_elem _ _ _ Hbytes); wp_go]).
    split; [|done]. cbn [wf_rdata]. by rewrite !Forall_cons, Forall_nil.
  - apply owp_slice; [lia..|]. rewrite len_subrange by lia.
    replace (data_start + 16 - data_start =? 16) with true by lia.
    wp_go. split; [|done]. split; [rewrite len_subrange; lia|]. by apply subrange_Forall.
  - wp_use at_cursor_safe; [apply read_name_safe; lia|]. intros [nm stop] c' [[Hn _] ->].
    zcase; wp_go; done.
  - wp_use at_cursor_safe; [apply read_soa_safe; lia|]. intros [v stop] c' [Hv ->].
    zcase; wp_go; done.
  - split; [|done]. unfold wf_rdata, is_byte. pose proof (Z.mod_pos_bound (Z.shiftr ttl 24) 256). lia.
Qed.

Lemma read_record_safe c :
  0 ≤ c ≤ len bytes →
  safe (read_record bytes) (λ r c', wf_record r ∧ c + 11 ≤ c' ≤ len bytes) c.
Proof.
  intros Hc. unfold read_record.
  wp_go. wp_use read_name_safe; [lia|]. intros n c1 [Hn H1].
  wp_go. wp_use take_u16_safe; [lia|]. intros ty c2 (? & -> & ?).
  wp_go. wp_use take_u16_safe; [lia|]. intros cl c3 (? & -> & ?).
  wp_go. wp_use take_u32_safe; [lia|]. intros ttl c4 (? & -> & ?).
  wp_go. wp_use take_u16_safe; [lia|]. intros dl c5 (? & -> & ?).
  wp_go. wp_some stop [-> Hstop]%checked_end_inv.
  wp_use read_rdata_safe; try lia. intros d c6 [Hd ->]. wp_go.
  split; [|lia]. unfold wf_record; cbn. intuition lia.
Qed.

Lemma read_question_safe c :
  0 ≤ c ≤ len bytes →
  safe (read_question bytes) (λ q c', wf_question q ∧ c + 5 ≤ c' ≤ len bytes) c.
Proof.
  intros Hc. unfold read_question.
  wp_go. wp_use read_name_safe; [lia|]. intros n c1 [Hn H1].
  wp_go. wp_use take_u16_safe; [lia|]. intros ty c2 (? & -> & ?).
  wp_go. wp_use take_u16_safe; [lia|]. intros cl c3 (? & -> & ?).
  wp_go. split; [|lia]. unfold wf_question; cbn. intuition lia.
Qed.

Lemma repeat_safe {R} (step : M Z WireError R) (P : R → Prop) n c :
  (∀ c, 0 ≤ c ≤ len bytes → safe step (λ r c', P r ∧ c ≤ c' ≤ len bytes) c) →
  0 ≤ c ≤ len bytes →
  safe (repeatM n step) (λ l c', Forall P l ∧ length l = n ∧ c ≤ c' ≤ len bytes) c.
Proof.
  intros Hstep Hc.
  set (I := λ k (l : list R) c', Forall P l ∧ (length l + k = n)%nat ∧ c ≤ c' ≤ len bytes).
  eapply wp_conseq; [eapply (wp_repeatM step I (λ _ _, True))| |done].
  - intros k l c1 (Hl & Hk & Hc1). eapply wp_conseq; [apply Hstep; lia| |done].
    intros r c2 [Hr Hc2]. repeat split; [by apply Forall_app; auto|rewrite length_app; simpl; lia|lia..].
  - instantiate (1 := []). by repeat split; try lia.
  - intros l c' (? & ? & ?). cbn in *. repeat split; [done|lia..].
Qed.

Lemma read_additionals_safe n : ∀ ext c,
  0 ≤ c ≤ len bytes → from_option is_byte True ext →
  safe (read_additionals n bytes ext) (λ o c', from_option is_byte True o ∧ c ≤ c' ≤ len bytes) c.
Proof.
  induction n as [|n IH]; intros ext c Hc Hext; cbn [read_additionals]; wp_go; [split; [done|lia]|].
  wp_use read_record_safe; [lia|]. intros r c1 [Hr H1].
  destruct (r_data r) eqn:Hd; try (wp_use IH; [lia|done|]; intuition lia).
  destruct ext as [x|]; [by wp_go|].
  wp_use IH; [lia| |intuition lia]. destruct Hr as (_ & _ & _ & _ & Hr). by rewrite Hd in Hr.
Qed.
End safety.

Lemma validate_minimum_shape_safe `{Target} remaining q a u d :
  owp (validate_minimum_shape remaining q a u d)
    (λ _, 5 * q + 11 * (a + u + d) ≤ remaining) (λ _, True).
Proof.
  unfold validate_minimum_shape. wp_go.
  wp_some qm Hq. wp_some rc Hr. wp_some rm Hm.
  revert Hq Hr Hm. unfold checked_mul, checked_add.
  repeat (zcase; try done); intros; simplify_eq; wp_go; lia.
Qed.

Lemma rcode_bound flags ext :
  0 ≤ flags → from_option is_byte True ext →
  0 ≤ Z.lor (Z.shiftl (default 0 ext) 4) (Z.land flags 15) < 4096.
Proof.
  intros Hf Hext. change 4096 with (2 ^ 12). apply lor_bound; [lia| |].
  - rewrite Z.shiftl_mul_pow2 by lia. destruct ext as [x|]; cbn in *; unfold is_byte in *; lia.
  - change 15 with (Z.ones 4). rewrite Z.land_ones by lia.
    pose proof (Z.mod_pos_bound flags (2 ^ 4)). lia.
Qed.

Lemma parse_body_safe `{Target} bytes :
  Forall is_byte bytes → DNS_HEADER_LEN ≤ len bytes ≤ MAX_PACKET_LEN →
  wp (parse_body bytes) (λ r _, wf_response bytes r) (λ _ _, True) 0.
Proof.
  intros Hb [Hmin Hmax]. unfold parse_body, parse_sections, DNS_HEADER_LEN in *.
  wp_go. wp_use take_u16_safe; [done..|lia|]. intros i c1 (Hi & -> & _).
  wp_go. wp_use take_u16_safe; [done..|lia|]. intros flags c2 (Hflags & -> & _).
  wp_go. wp_use take_u16_safe; [done..|lia|]. intros qc c3 (Hqc & -> & _).
  wp_go. wp_use take_u16_safe; [done..|lia|]. intros ac c4 (Hac & -> & _).
  wp_go. wp_use take_u16_safe; [done..|lia|]. intros uc c5 (Huc & -> & _).
  wp_go. wp_use take_u16_safe; [done..|lia|]. intros dc c6 (Hdc & -> & _).
  wp_go. apply owp_usub; [lia|]. wp_go.
  eapply owp_mono; [apply validate_minimum_shape_safe|cbn beta; intros _ Hshape|done]. wp_go.
  wp_use (repeat_safe bytes _ wf_question); [|lia|intros qs c7 (Hqs & Hql & Hc7)].
  { intros c Hc. wp_use read_question_safe; [done..|]. intros q c' [Hq ?]. split; [exact Hq|lia]. }
  wp_go. wp_use (repeat_safe bytes _ wf_record); [|lia|intros ans c8 (Hans & Hal & Hc8)].
  { intros c Hc. wp_use read_record_safe; [done..|]. intros q c' [Hq ?]. split; [exact Hq|lia]. }
  wp_go. wp_use (repeat_safe bytes _ wf_record); [|lia|intros aus c9 (Haus & Hul & Hc9)].
  { intros c Hc. wp_use read_record_safe; [done..|]. intros q c' [Hq ?]. split; [exact Hq|lia]. }
  wp_go. wp_use read_additionals_safe; [done..|lia|done|intros ext c10 [Hext Hc10]].
  wp_go. zcase; wp_go; [|done].
  cbn [s_id s_flags s_questions s_answers s_authorities s_extended_rcode].
  pose proof (rcode_bound flags ext ltac:(lia) Hext).
  unfold wf_response, DNS_HEADER_LEN, len in *; cbn. repeat split; auto; lia.
Qed.

(** ** Reading back what was encoded *)

Section reading.
Context {tgt : Target}.
Implicit Types pre post : list Z.

Lemma take_u16_run pre post v :
  0 ≤ v ≤ u16_max → len (pre ++ u16_to_be_bytes v ++ post) ≤ MAX_PACKET_LEN →
  take_u16 (pre ++ u16_to_be_bytes v ++ post) (len pre) = (Ok v, len pre + 2).
Proof.
  intros Hv Hl. unfold u16_to_be_bytes in *. unfold take_u16, u16_max, MAX_PACKET_LEN in *.
  autorewrite with len in Hl. pose proof (len_nonneg pre). pose proof (len_nonneg post).
  cbn [app] in *. unfold mbind, M_bind, get, lift, put, mret, M_ret.
  rewrite byte_get_head. cbn [ok_or].
  rewrite !uadd_fits by (apply packet_fits; lia).
  replace (len pre + 1) with (len (pre ++ [v / 256 mod 256])) by len_lia.
  rewrite cons_middle, app_assoc, byte_get_head. cbn [ok_or].
  do 2 f_equal. unfold u16_from_be_bytes. Z.to_euclidean_division_equations. lia.
Qed.

Lemma u32_be_bytes v :
  u32_from_be_bytes (v / 16777216 mod 256) (v / 65536 mod 256) (v / 256 mod 256) (v mod 256)
  = v mod 4294967296.
Proof. unfold u32_from_be_bytes. Z.to_euclidean_division_equations. lia. Qed.

Lemma take_u32_run pre post v :
  len (pre ++ u32_to_be_bytes v ++ post) ≤ MAX_PACKET_LEN →
  take_u32 (pre ++ u32_to_be_bytes v ++ post) (len pre) = (Ok (v mod 4294967296), len pre + 4).
Proof.
  intros Hl. unfold take_u32, u32_max, MAX_PACKET_LEN in *.
  unfold mbind, M_bind, get, lift, put, mret, M_ret, checked_end, checked_add.
  assert (H4 : len (u32_to_be_bytes v) = 4) by done.
  autorewrite with len in Hl. pose proof (len_nonneg pre). pose proof (len_nonneg post).
  pose proof (packet_fits (len pre + 4) ltac:(lia)).
  rewrite (proj2 (Z.leb_le (len pre + 4) usize_max)) by lia.
  rewrite (proj2 (Z.leb_le _ _)) by len_lia. cbn [ok_or].
  rewrite <-H4 at 1. rewrite slice_middle. cbn [u32_to_be_bytes].
  by rewrite u32_be_bytes.
Qed.

(** One label: the loop appends it and goes on after it. *)
Lemma read_name_loop_label fuel pre l post acc jumped hops visited wl c :
  wf_label l → 0 ≤ wl → wl + len l + 1 ≤ MAX_WIRE_NAME_LEN →
  len (pre ++ encode_label l ++ post) ≤ MAX_PACKET_LEN →
  read_name_loop (S fuel) (pre ++ encode_label l ++ post) acc (len pre) jumped hops visited wl c
  = read_name_loop fuel (pre ++ encode_label l ++ post) (acc ++ [l])
      (len (pre ++ encode_label l)) jumped hops visited (wl + (len l + 1)) c.
Proof.
  intros Hl Hwl Hsum Hlen. destruct (Hl) as [Hl1 _]. unfold encode_label in *.
  unfold MAX_PACKET_LEN, MAX_WIRE_NAME_LEN, MAX_LABEL_LEN in *.
  rewrite (Z.mod_small (len l) 256) in * by lia.
  assert (Hb : is_byte (len l)) by (unfold is_byte; lia).
  cbn [read_name_loop]. unfold mbind, M_bind. unfold lift at 1.
  cbn [app] in Hlen |- *. rewrite byte_get_head. cbn [ok_or].
  rewrite land_pointer_tag, land_label_tag by done.
  rewrite (proj2 (Z.leb_gt _ _)) by lia. rewrite (proj2 (Z.ltb_lt _ _)) by lia.
  autorewrite with len in Hlen. pose proof (len_nonneg pre). pose proof (len_nonneg post).
  cbn [negb]. unfold lift, fail. rewrite uadd_fits by (apply packet_fits; lia).
  rewrite (proj2 (Z.eqb_neq (len l) 0)) by lia.
  rewrite (proj2 (Z.ltb_ge MAX_LABEL_LEN (len l))) by (unfold MAX_LABEL_LEN; lia).
  unfold checked_end, checked_add.
  pose proof (packet_fits (len pre + 1 + len l) ltac:(lia)).
  pose proof (packet_fits (wl + (len l + 1)) ltac:(lia)).
  rewrite (proj2 (Z.leb_le (len pre + 1 + len l) usize_max)) by lia.
  rewrite (proj2 (Z.leb_le (len pre + 1 + len l) _)) by len_lia. cbn [ok_or].
  rewrite uadd_fits by (apply packet_fits; lia).
  rewrite (proj2 (Z.leb_le (wl + (len l + 1)) usize_max)) by lia. cbn [ok_or].
  rewrite (proj2 (Z.ltb_ge MAX_WIRE_NAME_LEN _)) by (unfold MAX_WIRE_NAME_LEN; lia).
  replace (len pre + 1) with (len (pre ++ [len l])) by len_lia.
  rewrite (cons_middle (len l) pre), app_assoc, slice_middle, fold_label_id by done.
  f_equal. len_lia.
Qed.

Lemma read_name_loop_run ls : ∀ fuel pre post acc jumped hops visited wl c,
  Forall wf_label ls → wl + labels_wire_len ls ≤ 1 + MAX_WIRE_NAME_LEN → 0 ≤ wl →
  (length ls < fuel)%nat →
  len (pre ++ (concat (map encode_label ls) ++ [0]) ++ post) ≤ MAX_PACKET_LEN →
  read_name_loop fuel (pre ++ (concat (map encode_label ls) ++ [0]) ++ post)
    acc (len pre) jumped hops visited wl c
  = (Ok (mkName (acc ++ ls)),
     if jumped then c else len pre + len (concat (map encode_label ls) ++ [0])).
Proof.
  induction ls as [|l ls IH]; intros [|fuel] pre post acc jumped hops visited wl c
    Hls Hwl Hwl0 Hfuel Hlen; cbn [length] in *; try lia.
  - unfold MAX_PACKET_LEN in *.
    cbn [map concat app read_name_loop] in *. unfold mbind, M_bind. unfold lift at 1.
    rewrite byte_get_head. cbn [ok_or].
    change (Z.land 0 192 =? 192) with false. change (Z.land 0 192 =? 0) with true. cbn [negb].
    unfold lift. rewrite uadd_fits by (apply packet_fits; len_lia).
    change (0 =? 0) with true. rewrite app_nil_r. by destruct jumped.
  - apply Forall_cons in Hls as [Hl Hls].
    cbn [map concat labels_wire_len] in *.
    pose proof (labels_wire_len_pos ls). pose proof (len_nonneg l).
    rewrite <-!(app_assoc (encode_label l)) in *.
    rewrite read_name_loop_label by (done || lia).
    rewrite app_assoc in *. rewrite IH by (done || lia).
    rewrite <-app_assoc. cbn [app]. do 2 f_equal. destruct jumped; len_lia.
Qed.

Lemma labels_bound ls : Forall wf_label ls → 2 * Z.of_nat (length ls) + 1 ≤ labels_wire_len ls.
Proof.
  induction 1 as [|l ls [[? ?] _] _ IH]; cbn [length labels_wire_len]; lia.
Qed.

Lemma wf_name_fuel n : wf_name n → (length (labels n) < READ_NAME_FUEL)%nat.
Proof.
  intros [Hls Hw]. pose proof (labels_bound _ Hls). unfold MAX_WIRE_NAME_LEN, READ_NAME_FUEL in *.
  lia.
Qed.

Lemma read_name_run pre post n :
  wf_name n → len (pre ++ encode_name n ++ post) ≤ MAX_PACKET_LEN →
  read_name (pre ++ encode_name n ++ post) (len pre) = (Ok n, len pre + len (encode_name n)).
Proof.
  intros Hn Hlen. unfold read_name, encode_name in *. erewrite run_bind by reflexivity.
  destruct (Hn) as [Hls Hw].
  rewrite read_name_loop_run; [by destruct n|done|lia..|by apply wf_name_fuel|done].
Qed.

Lemma len_encode_labels ls :
  Forall wf_label ls → len (concat (map encode_label ls)) + 1 = labels_wire_len ls.
Proof.
  induction 1 as [|l ls _ _ IH]; [done|]. cbn [map concat labels_wire_len].
  unfold encode_label at 1. len_lia.
Qed.

Lemma len_encode_name n : wf_name n → 1 ≤ len (encode_name n) ≤ MAX_WIRE_NAME_LEN.
Proof.
  intros [Hls Hw]. unfold encode_name. rewrite len_app, len_cons, len_nil.
  pose proof (len_encode_labels _ Hls). pose proof (labels_wire_len_pos (labels n)). lia.
Qed.

(** The same facts by offset: [reads_at] says what a reader gives where the
    bytes [x] stand. *)
Definition reads_at {R} (step : list Z → M Z WireError R) (x : list Z) (a : R) : Prop :=
  ∀ bytes c, len bytes ≤ MAX_PACKET_LEN → located bytes c x → step bytes c = (Ok a, c + len x).

Lemma reads_u16 v : 0 ≤ v ≤ u16_max → reads_at take_u16 (u16_to_be_bytes v) v.
Proof. intros Hv bytes c Hl (pre & post & -> & ->). by apply take_u16_run. Qed.

Lemma reads_u32_wrap v : reads_at take_u32 (u32_to_be_bytes v) (v mod 4294967296).
Proof. intros bytes c Hl (pre & post & -> & ->). by apply take_u32_run. Qed.

Lemma reads_u32 v : 0 ≤ v ≤ u32_max → reads_at take_u32 (u32_to_be_bytes v) v.
Proof.
  intros Hv. rewrite <-(Z.mod_small v 4294967296) at 2 by (unfold u32_max in *; lia).
  apply reads_u32_wrap.
Qed.

Lemma reads_name n : wf_name n → reads_at read_name (encode_name n) n.
Proof. intros Hn bytes c Hl (pre & post & -> & ->). by apply read_name_run. Qed.

(** A reader bounded by [data_end] where the field is inside the span. *)
Lemma bounded_run bytes c v data_end :
  len bytes ≤ MAX_PACKET_LEN → located bytes c (u32_to_be_bytes v) → c + 4 ≤ data_end →
  take_u32_bounded bytes data_end c = (Ok (v mod 4294967296), c + 4).
Proof.
  intros Hl Hat Hb. unfold take_u32_bounded. erewrite run_bind by reflexivity.
  pose proof (located_bound _ _ _ Hat) as [Hc Hb']. change (len (u32_to_be_bytes v)) with 4 in Hb'.
  unfold checked_end, checked_add.
  rewrite (proj2 (Z.leb_le _ _)) by (apply packet_fits; unfold MAX_PACKET_LEN in *; lia).
  rewrite (proj2 (Z.leb_le _ _)) by lia. by apply reads_u32_wrap.
Qed.

(** A section of [items], each read back by [step], is read back by the loop. *)
Lemma repeat_run {T R} (enc : T → list Z) (dec : T → R) (step : list Z → M Z WireError R)
    items bytes : ∀ c,
  Forall (λ x, reads_at step (enc x) (dec x)) items →
  len bytes ≤ MAX_PACKET_LEN → located bytes c (concat (map enc items)) →
  repeatM (length items) (step bytes) c
  = (Ok (map dec items), c + len (concat (map enc items))).
Proof.
  induction items as [|x items IH]; intros c HP Hlen Hat.
  - cbn. by rewrite Z.add_0_r.
  - apply Forall_cons in HP as [Hx HP]. apply located_concat in Hat as [Hat1 Hat2].
    cbn [map concat length]. eapply run_repeatM_cons; [by apply Hx|].
    rewrite IH by done. f_equal. len_lia.
Qed.

(** ** Well-formed fixture messages and what they parse to *)

Definition wf_soa (soa : SOA) : Prop :=
  wf_name (primary soa) ∧ wf_name (mailbox soa) ∧ 0 ≤ minimum soa ≤ u32_max.

Definition wf_fixture_data (d : FixtureRData) : Prop :=
  match d with
  | FD_A a b c d => Forall is_byte [a; b; c; d]
  | FD_AAAA octets => len octets = 16 ∧ Forall is_byte octets
  | FD_CNAME name => wf_name name
  | FD_SOA soa => wf_soa soa
  end.

Definition wf_fixture_record (r : FixtureRecord) : Prop :=
  wf_name (f_name r) ∧ 0 ≤ f_ttl r ≤ u32_max ∧ wf_fixture_data (f_data r).

Definition wf_query (q : FixtureQuery) : Prop :=
  wf_name (query_name q) ∧ 0 ≤ FixtureType_code (query_type q) ≤ u16_max.

Definition wf_message (m : Message) : Prop :=
  0 ≤ m_id m ≤ u16_max ∧ Forall wf_query (queries m) ∧
  Forall wf_fixture_record (m_answers m) ∧ Forall wf_fixture_record (name_servers m).

#[global] Instance wf_fixture_data_dec d : Decision (wf_fixture_data d).
Proof. destruct d; cbn [wf_fixture_data]; unfold wf_soa; apply _. Defined.
#[global] Instance wf_message_dec m : Decision (wf_message m).
Proof. unfold wf_message, wf_query, wf_fixture_record. apply _. Defined.

Definition parsed_data (d : FixtureRData) : RData :=
  match d with
  | FD_A a b c d => RData_A a b c d
  | FD_AAAA octets => RData_Aaaa octets
  | FD_CNAME name => RData_Cname name
  | FD_SOA soa => RData_Soa (minimum soa)
  end.
Definition parsed_record (r : FixtureRecord) : DnsRecord :=
  mkRecord (f_name r) (fst (encode_rdata (f_data r))) CLASS_IN (f_ttl r) (parsed_data (f_data r)).
Definition parsed_query (q : FixtureQuery) : Question :=
  mkQuestion (query_name q) (FixtureType_code (query_type q)) CLASS_IN.
Definition parsed_message (m : Message) : Response :=
  mkResponse (m_id m) (match m_type m with Resp => true | Query => false end) (m_truncated m)
    (ResponseCode_code (response_code m)) (map parsed_query (queries m))
    (map parsed_record (m_answers m)) (map parsed_record (name_servers m)).

(** The bytes one question or record adds to a message. *)
Definition query_bytes (q : FixtureQuery) : list Z :=
  encode_name (query_name q) ++ u16_to_be_bytes (FixtureType_code (query_type q)) ++
  u16_to_be_bytes CLASS_IN.
Definition record_bytes (r : FixtureRecord) : list Z :=
  let '(record_type, rdata) := encode_rdata (f_data r) in
  encode_name (f_name r) ++ u16_to_be_bytes record_type ++ u16_to_be_bytes CLASS_IN ++
  u32_to_be_bytes (f_ttl r) ++ u16_to_be_bytes (len rdata) ++ rdata.

Lemma at_cursor_run {R} (m : M Z WireError R) start a stop c :
  m start = (Ok a, stop) → at_cursor start m c = (Ok (a, stop), c).
Proof. unfold at_cursor. by intros ->. Qed.

Lemma reads_query q : wf_query q → reads_at read_question (query_bytes q) (parsed_query q).
Proof.
  intros [Hn Ht] bytes c Hl Hat. unfold read_question, query_bytes in *.
  apply located_app in Hat as [H1 [H2 H3]%located_app].
  erewrite run_bind by (by apply (reads_name _ Hn)).
  erewrite run_bind by (by apply (reads_u16 _ Ht)).
  erewrite run_bind by (by apply (reads_u16 CLASS_IN)).
  unfold mret, M_ret. f_equal. len_lia.
Qed.

Lemma read_soa_run bytes c soa :
  wf_soa soa → len bytes ≤ MAX_PACKET_LEN →
  located bytes c (snd (encode_rdata (FD_SOA soa))) →
  read_soa bytes (c + len (snd (encode_rdata (FD_SOA soa)))) c
  = (Ok (minimum soa), c + len (snd (encode_rdata (FD_SOA soa)))).
Proof.
  intros (Hp & Hm & Hmin) Hl. cbn [encode_rdata snd]. rewrite !len_app. intros Hat.
  unfold read_soa.
  apply located_app in Hat as [H1 [H2 [H3 [H4 [H5 [H6 H7]%located_app]%located_app]%located_app]%located_app]%located_app].
  change (len (u32_to_be_bytes _)) with 4 in *.
  erewrite run_bind by (by apply (reads_name _ Hp)).
  erewrite run_bind by (by apply (reads_name _ Hm)).
  do 4 erewrite run_bind by (apply bounded_run; [done..|lia]).
  rewrite (bounded_run _ _ (minimum soa)) by (done || lia).
  rewrite Z.mod_small by (unfold u32_max in *; lia). f_equal. lia.
Qed.

Lemma index_located bytes c x i b :
  located bytes c x → 0 ≤ i → byte_get x i = Some b → @index WireError bytes (c + i) = Ok b.
Proof.
  intros (pre & post & -> & ->) Hi Hb. unfold index. rewrite byte_get_app by done.
  unfold byte_get in *. destruct (i <? 0); [done|]. by erewrite lookup_app_l_Some.
Qed.

Lemma slice_located bytes c x : located bytes c x → @slice WireError bytes c (c + len x) = Ok x.
Proof. intros (pre & post & -> & ->). apply slice_middle. Qed.

Lemma read_rdata_run bytes c start d ttl :
  wf_fixture_data d → len bytes ≤ MAX_PACKET_LEN →
  located bytes start (snd (encode_rdata d)) →
  read_rdata bytes (fst (encode_rdata d)) ttl (len (snd (encode_rdata d))) start
    (start + len (snd (encode_rdata d))) c
  = (Ok (parsed_data d), c).
Proof.
  intros Hd Hl Hat. unfold read_rdata. destruct d as [a1 a2 a3 a4|octets|n|soa].
  - cbn [encode_rdata fst snd] in *.
    pose proof (index_located _ _ _ 0 a1 Hat ltac:(done) eq_refl) as I0. rewrite Z.add_0_r in I0.
    pose proof (index_located _ _ _ 1 a2 Hat ltac:(done) eq_refl) as I1.
    pose proof (index_located _ _ _ 2 a3 Hat ltac:(done) eq_refl) as I2.
    pose proof (index_located _ _ _ 3 a4 Hat ltac:(done) eq_refl) as I3.
    change (1 =? 1) with true. change (len [a1; a2; a3; a4] =? 4) with true.
    cbn [negb]. unfold mbind, M_bind, lift. by rewrite I0, I1, I2, I3.
  - destruct Hd as [H16 _]. cbn [encode_rdata fst snd] in *. rewrite H16.
    unfold mbind, M_bind, lift. cbn. rewrite <-H16, slice_located by done. by rewrite H16.
  - cbn [encode_rdata fst snd] in *.
    change (TYPE_CNAME =? 1) with false. change (TYPE_CNAME =? 28) with false.
    change (TYPE_CNAME =? TYPE_CNAME) with true. cbn iota.
    erewrite run_bind; [|apply at_cursor_run, (reads_name _ Hd); done].
    cbn beta iota. by rewrite Z.eqb_refl.
  - cbn [encode_rdata fst].
    change (TYPE_SOA =? 1) with false. change (TYPE_SOA =? 28) with false.
    change (TYPE_SOA =? TYPE_CNAME) with false. change (TYPE_SOA =? TYPE_SOA) with true. cbn iota.
    erewrite run_bind; [|by apply at_cursor_run, read_soa_run].
    cbn beta iota. by rewrite Z.eqb_refl.
Qed.

Lemma rdata_len d : wf_fixture_data d → 0 ≤ len (snd (encode_rdata d)) ≤ u16_max.
Proof.
  intros Hd. split; [apply len_nonneg|]. unfold u16_max. destruct d as [?| |n|soa]; cbn [encode_rdata snd].
  - done.
  - destruct Hd. lia.
  - pose proof (len_encode_name _ Hd). unfold MAX_WIRE_NAME_LEN in *. lia.
  - destruct Hd as (Hp & Hm & _).
    pose proof (len_encode_name _ Hp). pose proof (len_encode_name _ Hm).
    rewrite !len_app. change (len (u32_to_be_bytes _)) with 4. unfold MAX_WIRE_NAME_LEN in *. lia.
Qed.

Lemma reads_record r : wf_fixture_record r → reads_at read_record (record_bytes r) (parsed_record r).
Proof.
  intros (Hn & Httl & Hd) bytes c Hl Hat. unfold read_record, record_bytes, parsed_record in *.
  pose proof (rdata_len _ Hd) as Hrl. pose proof (read_rdata_run bytes) as Hrun.
  specialize (Hrun).
  destruct (encode_rdata (f_data r)) as [ty rdata] eqn:Henc.
  assert (Hty : 0 ≤ ty ≤ u16_max) by (destruct (f_data r); cbn in Henc; by simplify_eq).
  apply located_app in Hat as [H1 [H2 [H3 [H4 [H5 H6]%located_app]%located_app]%located_app]%located_app].
  erewrite run_bind by (by apply (reads_name _ Hn)).
  erewrite run_bind by (by apply (reads_u16 _ Hty)).
  erewrite run_bind by (by apply (reads_u16 CLASS_IN)).
  erewrite run_bind by (by apply (reads_u32 _ Httl)).
  erewrite run_bind by (by apply (reads_u16 _ Hrl)).
  erewrite run_bind by reflexivity.
  pose proof (located_bound _ _ _ H6) as [? ?].
  change (len (u32_to_be_bytes _)) with 4 in *. change (len (u16_to_be_bytes _)) with 2 in *.
  cbn [fst snd] in *.
  erewrite run_bind; [|unfold lift, checked_end, checked_add;
    rewrite !(proj2 (Z.leb_le _ _)); [reflexivity|lia|apply packet_fits; unfold MAX_PACKET_LEN in *; lia]].
  erewrite run_bind.
  2:{ specialize (Hrun (c + len (encode_name (f_name r)) + 2 + 2 + 4 + 2)
        (c + len (encode_name (f_name r)) + 2 + 2 + 4 + 2) (f_data r) (f_ttl r) Hd Hl).
      rewrite Henc in Hrun. cbn [fst snd] in Hrun. by apply Hrun. }
  unfold put, mbind, M_bind, mret, M_ret. f_equal.
  rewrite !len_app. change (len (u32_to_be_bytes _)) with 4. change (len (u16_to_be_bytes _)) with 2.
  lia.
Qed.

Lemma encode_records_spec rs : ∀ output output',
  encode_records output rs = Ok output' → output' = output ++ concat (map record_bytes rs).
Proof.
  induction rs as [|r rs IH]; intros output output'; cbn [encode_records map concat].
  - intros [= <-]. by rewrite app_nil_r.
  - unfold encode_record at 1, record_bytes at 1, put_u16, mbind, outcome_bind.
    destruct (encode_rdata (f_data r)) as [ty rdata]. zcase; [done|].
    intros ->%IH. by rewrite <-!app_assoc.
Qed.

Lemma encode_queries_spec qs : ∀ output,
  fold_left encode_fixture_query qs output = output ++ concat (map query_bytes qs).
Proof.
  induction qs as [|q qs IH]; intros output; cbn [fold_left map concat]; [by rewrite app_nil_r|].
  rewrite IH. unfold encode_fixture_query, query_bytes, put_u16. by rewrite <-!app_assoc.
Qed.

Definition header_bytes (m : Message) : list Z :=
  u16_to_be_bytes (m_id m) ++ u16_to_be_bytes (message_flags m) ++
  u16_to_be_bytes (len (queries m)) ++ u16_to_be_bytes (len (m_answers m)) ++
  u16_to_be_bytes (len (name_servers m)) ++ u16_to_be_bytes 0.

Lemma to_vec_spec m out :
  to_vec m = Ok out →
  out = header_bytes m ++ concat (map query_bytes (queries m)) ++
        concat (map record_bytes (m_answers m)) ++ concat (map record_bytes (name_servers m)) ∧
  len out ≤ MAX_PACKET_LEN ∧
  len (queries m) ≤ u16_max ∧ len (m_answers m) ≤ u16_max ∧ len (name_servers m) ≤ u16_max.
Proof.
  unfold to_vec, put_count, mbind, outcome_bind. do 3 (zcase; [done|]).
  rewrite encode_queries_spec.
  destruct (encode_records _ (m_answers m)) as [o1| | |] eqn:Ho1; try done.
  destruct (encode_records o1 _) as [o2| | |] eqn:Ho2; try done.
  apply encode_records_spec in Ho1, Ho2. zcase; [done|]. intros [= <-].
  split; [|done]. subst. unfold put_u16, header_bytes. by rewrite <-!app_assoc.
Qed.

Lemma validate_minimum_shape_run remaining q a u d :
  0 ≤ q → 0 ≤ a → 0 ≤ u → 0 ≤ d → 5 * q + 11 * (a + u + d) ≤ remaining → remaining ≤ 4200 →
  validate_minimum_shape remaining q a u d = Ok tt.
Proof.
  intros. pose proof (packet_fits 4200 ltac:(lia)). unfold validate_minimum_shape, checked_mul, checked_add.
  repeat (rewrite (proj2 (Z.leb_le _ _)) by lia; cbn [ok_or mbind outcome_bind]).
  by rewrite (proj2 (Z.ltb_ge _ _)) by lia.
Qed.

Lemma section_len {T} (enc : T → list Z) k items :
  Forall (λ x, k ≤ len (enc x)) items → k * len items ≤ len (concat (map enc items)).
Proof.
  induction 1 as [|x items Hx _ IH]; cbn [map concat]; autorewrite with len; lia.
Qed.

Lemma query_bytes_len q : wf_query q → 5 ≤ len (query_bytes q).
Proof.
  intros [Hn _]. unfold query_bytes. rewrite !len_app. change (len (u16_to_be_bytes _)) with 2.
  pose proof (len_encode_name _ Hn). lia.
Qed.

Lemma record_bytes_len r : wf_fixture_record r → 11 ≤ len (record_bytes r).
Proof.
  intros [Hn _]. unfold record_bytes. destruct (encode_rdata _) as [ty rdata].
  rewrite !len_app. change (len (u16_to_be_bytes _)) with 2. change (len (u32_to_be_bytes _)) with 4.
  pose proof (len_encode_name _ Hn). pose proof (len_nonneg rdata). lia.
Qed.

Lemma message_flags_spec m :
  0 ≤ message_flags m ≤ u16_max ∧
  negb (Z.land (message_flags m) 32768 =? 0) = match m_type m with Resp => true | Query => false end ∧
  negb (Z.land (message_flags m) 512 =? 0) = m_truncated m ∧
  Z.land (message_flags m) 15 = ResponseCode_code (response_code m).
Proof.
  unfold message_flags, u16_max.
  destruct (m_type m), (recursion_desired m), (recursion_available m), (m_truncated m),
    (response_code m); vm_compute; done.
Qed.

Lemma parse_message_run m out :
  wf_message m → to_vec m = Ok out → parse_response out = Ok (parsed_message m).
Proof.
  intros (Hid & Hq & Ha & Hn) (Hout & Hmax & Hql & Hal & Hnl)%to_vec_spec.
  destruct (message_flags_spec m) as (Hf & Hresp & Htr & Hrc).
  pose proof (section_len query_bytes 5 _ (Forall_impl _ _ _ Hq query_bytes_len)).
  pose proof (section_len record_bytes 11 _ (Forall_impl _ _ _ Ha record_bytes_len)).
  pose proof (section_len record_bytes 11 _ (Forall_impl _ _ _ Hn record_bytes_len)).
  assert (Htotal : len out = 12 + len (concat (map query_bytes (queries m))) +
    len (concat (map record_bytes (m_answers m))) + len (concat (map record_bytes (name_servers m)))).
  { rewrite Hout. unfold header_bytes. rewrite !len_app. change (len (u16_to_be_bytes _)) with 2. lia. }
  pose proof (len_nonneg (queries m)). pose proof (len_nonneg (m_answers m)).
  pose proof (len_nonneg (name_servers m)).
  pose proof (located_all out) as Hat. rewrite Hout in Hat at 2.
  unfold header_bytes in Hat. rewrite <-!app_assoc in Hat.
  apply located_app in Hat as [L1 [L2 [L3 [L4 [L5 [L6 [L7 [L8 L9]%located_app]%located_app]%located_app]%located_app]%located_app]%located_app]%located_app].
  change (len (u16_to_be_bytes _)) with 2 in *.
  unfold parse_response, DNS_HEADER_LEN, MAX_PACKET_LEN in *.
  rewrite (proj2 (Z.ltb_ge _ _)) by lia. rewrite (proj2 (Z.ltb_ge _ _)) by lia. cbn [orb].
  unfold parse_body. erewrite run_bind; [|unfold parse_sections].
  2:{
  erewrite run_bind by (by apply (reads_u16 _ Hid)).
  erewrite run_bind by (by apply (reads_u16 _ Hf)).
  erewrite run_bind by (by apply (reads_u16 (len (queries m)))).
  erewrite run_bind by (by apply (reads_u16 (len (m_answers m)))).
  erewrite run_bind by (by apply (reads_u16 (len (name_servers m)))).
  erewrite run_bind by (by apply (reads_u16 0)).
  erewrite run_bind by (unfold lift, usub, DNS_HEADER_LEN; rewrite (proj2 (Z.leb_le _ _)) by lia;
    cbn [mbind outcome_bind]; rewrite validate_minimum_shape_run by lia; reflexivity).
  rewrite !to_nat_len.
  erewrite run_bind by (apply (repeat_run query_bytes parsed_query);
    [eapply Forall_impl; [exact Hq|apply reads_query]|done|exact L7]).
  erewrite run_bind by (apply (repeat_run record_bytes parsed_record);
    [eapply Forall_impl; [exact Ha|apply reads_record]|done|exact L8]).
  erewrite run_bind by (apply (repeat_run record_bytes parsed_record);
    [eapply Forall_impl; [exact Hn|apply reads_record]|done|exact L9]).
  change (Z.to_nat 0) with O. cbn [read_additionals].
  erewrite run_bind by reflexivity. reflexivity. }
  erewrite run_bind by reflexivity.
  change (len (u16_to_be_bytes _)) with 2. rewrite (proj2 (Z.eqb_eq _ _)) by lia. cbn [negb].
  unfold mret, M_ret. cbn [fst default s_id s_flags s_questions s_answers s_authorities s_extended_rcode].
  rewrite Hresp, Htr, Hrc. done.
Qed.
End reading.

(** ** Longer packets

    Every reader of the codec, given a longer packet, reads the same. *)

Section longer.
Context {tgt : Target} (bytes junk : list Z).

Local Ltac ext :=
  repeat lazymatch goal with
  | |- ?m ⊑run ?m => reflexivity
  | |- mbind _ _ ⊑run mbind _ _ => apply extends_bind; [|intros ?]
  | |- fail _ ⊑run _ => apply extends_fail
  | |- lift (slice _ _ _) ⊑run _ => apply extends_slice
  | |- lift (index _ _) ⊑run _ => apply extends_index
  | |- lift (ok_or (byte_get _ _) _) ⊑run _ =>
      apply extends_some; intros ? ?; by apply byte_get_app_l
  | |- (if ?c then _ else _) ⊑run (if ?c then _ else _) => zdestruct c
  end.

Lemma checked_end_app c n e :
  checked_end c n (len bytes) = Some e → checked_end c n (len (bytes ++ junk)) = Some e.
Proof.
  unfold checked_end. destruct (checked_add _ _ _) as [x|]; [|done].
  repeat zcase; intros; simplify_eq; try done. len_lia.
Qed.

Lemma take_u16_extends : take_u16 bytes ⊑run take_u16 (bytes ++ junk).
Proof. unfold take_u16. ext. Qed.

Lemma take_u32_extends : take_u32 bytes ⊑run take_u32 (bytes ++ junk).
Proof. unfold take_u32. ext. apply extends_some. intros ?. apply checked_end_app. Qed.

Lemma take_u32_bounded_extends b : take_u32_bounded bytes b ⊑run take_u32_bounded (bytes ++ junk) b.
Proof.
  unfold take_u32_bounded. ext. destruct (checked_end a 4 b); ext; apply take_u32_extends.
Qed.

Lemma read_name_loop_extends fuel : ∀ ls pos jumped hops visited wl,
  read_name_loop fuel bytes ls pos jumped hops visited wl
  ⊑run read_name_loop fuel (bytes ++ junk) ls pos jumped hops visited wl.
Proof.
  induction fuel as [|fuel IH]; intros ls pos jumped hops visited wl; [done|].
  cbn [read_name_loop]. ext; try apply IH.
  - zdestruct (len bytes <=? Z.lor (Z.shiftl (Z.land a 63) 8) a1); ext.
    rewrite (proj2 (Z.leb_gt (len (bytes ++ junk)) _)) by len_lia. ext; try apply IH.
  - apply extends_some. intros ?. apply checked_end_app.
Qed.

Lemma read_name_extends : read_name bytes ⊑run read_name (bytes ++ junk).
Proof. unfold read_name. ext. apply read_name_loop_extends. Qed.

Lemma at_cursor_extends {R} start (m m' : M Z WireError R) :
  m ⊑run m' → at_cursor start m ⊑run at_cursor start m'.
Proof.
  intros H s a s'. unfold at_cursor. destruct (m start) as [[]] eqn:Hm; try done.
  by rewrite (H _ _ _ Hm).
Qed.

Lemma read_soa_extends e : read_soa bytes e ⊑run read_soa (bytes ++ junk) e.
Proof. unfold read_soa. ext; apply read_name_extends || apply take_u32_bounded_extends. Qed.

Lemma read_rdata_extends ty ttl dl start stop :
  read_rdata bytes ty ttl dl start stop ⊑run read_rdata (bytes ++ junk) ty ttl dl start stop.
Proof.
  unfold read_rdata. ext; try (apply at_cursor_extends; apply read_name_extends || apply read_soa_extends).
  all: destruct a as [? ?]; ext.
Qed.

Lemma read_record_extends : read_record bytes ⊑run read_record (bytes ++ junk).
Proof.
  unfold read_record. ext; try apply read_name_extends; try apply take_u16_extends;
    try apply take_u32_extends; try apply read_rdata_extends.
  apply extends_some. intros ?. apply checked_end_app.
Qed.

Lemma read_question_extends : read_question bytes ⊑run read_question (bytes ++ junk).
Proof. unfold read_question. ext; apply read_name_extends || apply take_u16_extends. Qed.

Lemma read_additionals_extends n : ∀ ext_rcode,
  read_additionals n bytes ext_rcode ⊑run read_additionals n (bytes ++ junk) ext_rcode.
Proof.
  induction n as [|n IH]; intros o; cbn [read_additionals]; ext; [apply read_record_extends|].
  destruct (r_data a); try apply IH. destruct o; ext. apply IH.
Qed.
End longer.

(** ** Presentation names *)

Lemma from_ascii_labels_spec `{Target} pieces : ∀ acc wire_len,
  Forall (Forall is_byte) pieces → Forall wf_label acc → wire_len = labels_wire_len acc →
  wire_len ≤ MAX_WIRE_NAME_LEN →
  owp (from_ascii_labels pieces acc wire_len)
    (λ n, wf_name n ∧ labels n = acc ++ map fold_label pieces) (λ _, True).
Proof.
  induction pieces as [|l pieces IH]; intros acc wire_len Hp Hacc Hwl Hmax; cbn [from_ascii_labels].
  - wp_go. rewrite app_nil_r. cbn [labels]. repeat split; [done|cbn; lia].
  - apply Forall_cons in Hp as [Hl Hp]. unfold MAX_LABEL_LEN, MAX_WIRE_NAME_LEN in *.
    case_bool_decide; [done|]. cbn [orb]. zcase; [done|].
    assert (1 ≤ len l) by (destruct l; [done|len_lia]).
    wp_go. apply owp_uadd; [apply packet_fits; lia|]. wp_go.
    wp_some wl' Hadd. unfold checked_add in Hadd. destruct (_ <=? usize_max); [|done].
    injection Hadd as <-. zcase; [done|].
    eapply owp_mono; [apply IH| |done]; try done.
    + apply wf_labels_app; [done|]. by apply fold_label_wf.
    + rewrite labels_wire_len_app. unfold fold_label. rewrite len_map. lia.
    + cbn beta. intros n [Hn ->]. split; [done|]. by rewrite <-app_assoc.
Qed.

Lemma split_on_Forall (P : Z → Prop) sep l : Forall P l → Forall (Forall P) (split_on sep l).
Proof.
  induction 1 as [|b l Hb Hl IH]; cbn [split_on]; [by repeat constructor|].
  zcase; [by constructor|].
  destruct (split_on sep l) as [|p ps]; [by repeat constructor|].
  inversion IH; subst. by repeat constructor.
Qed.

Lemma split_on_map f sep l :
  (∀ b, (f b =? sep) = (b =? sep)) → split_on sep (map f l) = map (map f) (split_on sep l).
Proof.
  intros Hf. induction l as [|b l IH]; cbn [map split_on]; [done|]. rewrite Hf, IH.
  zcase; [done|]. by destruct (split_on sep l).
Qed.
Lemma lowercase_dot b : (to_ascii_lowercase b =? 46) = (b =? 46).
Proof.
  unfold to_ascii_lowercase, is_ascii_uppercase, in_range.
  destruct (Z.leb_spec 65 b), (Z.leb_spec b 90); cbn [andb]; try done.
  rewrite !(proj2 (Z.eqb_neq _ _)); lia.
Qed.

Lemma lowercase_ascii b : (to_ascii_lowercase b <? 128) = (b <? 128).
Proof.
  unfold to_ascii_lowercase, is_ascii_uppercase, in_range.
  destruct (Z.leb_spec 65 b), (Z.leb_spec b 90); cbn [andb]; try done.
  rewrite !(proj2 (Z.ltb_lt _ _)); lia.
Qed.

Lemma is_ascii_lowercased l : is_ascii (ascii_lowercase l) = is_ascii l.
Proof.
  unfold is_ascii, ascii_lowercase. induction l as [|b l IH]; cbn [map forallb]; [done|].
  by rewrite lowercase_ascii, IH.
Qed.

Lemma fold_label_idemp l : fold_label (fold_label l) = fold_label l.
Proof.
  unfold fold_label. rewrite map_map. apply map_ext. intros b.
  apply to_ascii_lowercase_id, to_ascii_lowercase_not_upper.
Qed.

Lemma from_ascii_labels_fold `{Target} pieces : ∀ acc wire_len,
  from_ascii_labels (map fold_label pieces) acc wire_len = from_ascii_labels pieces acc wire_len.
Proof.
  induction pieces as [|l pieces IH]; intros acc wire_len; cbn [from_ascii_labels map]; [done|].
  assert (len (fold_label l) = len l) as -> by apply len_map.
  assert (bool_decide (fold_label l = []) = bool_decide (l = [])) as -> by (by destruct l).
  rewrite fold_label_idemp. destruct (bool_decide _ || _); [done|].
  destruct (uadd _ _) as [x| | |]; try done. cbn [mbind outcome_bind].
  destruct (checked_add _ _ _) as [y|]; [|done]. cbn [ok_or mbind outcome_bind].
  destruct (MAX_WIRE_NAME_LEN <? y); [done|]. apply IH.
Qed.

Lemma strip_dot_lowercase l :
  strip_suffix (bs ".") (ascii_lowercase l) = ascii_lowercase <$> strip_suffix (bs ".") l.
Proof.
  unfold strip_suffix, ends_with, ascii_lowercase. rewrite length_map.
  change (length (bs ".")) with 1%nat.
  destruct (Nat.leb_spec 1 (length l)) as [Hl|Hl]; [|done]. cbn [andb].
  assert (bytes_eqb (drop (length l - 1) (map to_ascii_lowercase l)) (bs ".") =
          bytes_eqb (drop (length l - 1) l) (bs ".")) as ->.
  { rewrite skipn_map.
    destruct (drop (length l - 1) l) as [|b k] eqn:Hd; [done|].
    assert (k = []) as -> by (apply (f_equal length) in Hd; rewrite length_drop in Hd; destruct k; [done|simpl in Hd; lia]).
    unfold bytes_eqb. cbn. pose proof (lowercase_dot b) as Hdot. change (byte_of_ascii _) with 46.
    destruct (Z.eqb_spec (to_ascii_lowercase b) 46), (Z.eqb_spec b 46);
      repeat case_bool_decide; simplify_eq; congruence. }
  zcase; [|done]. cbn. by rewrite firstn_map.
Qed.

(** Two presentation spellings that differ only in ASCII letter case are the
    same name. *)
Lemma from_ascii_lowercase `{Target} v : from_ascii (ascii_lowercase v) = from_ascii v.
Proof.
  unfold from_ascii. rewrite is_ascii_lowercased. destruct (is_ascii v); [|done]. cbn [negb].
  assert (bytes_eqb (ascii_lowercase v) (bs ".") = bytes_eqb v (bs ".")) as ->.
  { destruct v as [|b [|c v]]; [done| |by unfold bytes_eqb; repeat case_bool_decide]. unfold bytes_eqb. cbn.
    pose proof (lowercase_dot b) as Hdot. change (byte_of_ascii _) with 46.
    destruct (Z.eqb_spec (to_ascii_lowercase b) 46), (Z.eqb_spec b 46);
      repeat case_bool_decide; simplify_eq; congruence. }
  zcase; [done|]. rewrite strip_dot_lowercase.
  assert (∀ w, (if bool_decide (ascii_lowercase w = []) then Err (mkWireError "DNS presentation name is empty")
     else from_ascii_labels (split_on 46 (ascii_lowercase w)) [] 1) =
     (if bool_decide (w = []) then Err (mkWireError "DNS presentation name is empty")
     else from_ascii_labels (split_on 46 w) [] 1)) as Hw.
  { intros w. unfold ascii_lowercase. rewrite split_on_map by apply lowercase_dot.
    change (map to_ascii_lowercase) with fold_label at 2. rewrite from_ascii_labels_fold.
    by destruct w. }
  destruct (strip_suffix (bs ".") v); apply Hw.
Qed.

Lemma from_ascii_wf `{Target} v :
  Forall is_byte v → owp (from_ascii v) wf_name (λ _, True).
Proof.
  intros Hv. unfold from_ascii. zcase; [|done]. zcase; [by wp_go|].
  set (w := match strip_suffix _ _ with Some x => x | None => v end).
  assert (Hw : Forall is_byte w).
  { subst w. unfold strip_suffix. destruct (ends_with _ _); [|done]. by apply Forall_take. }
  case_bool_decide; [done|].
  eapply owp_mono; [apply from_ascii_labels_spec; try done; by apply split_on_Forall|by intros n []|done].
Qed.

(** A query is the message with one question and recursion desired. *)
Definition query_message (id : Z) (n : Name) (rt : RecordType) : Message :=
  mkMessage id Query true false false NoError
    [mkQuery n (match rt with A => FA | AAAA => FAAAA end)] [] [].

Lemma encode_query_message `{Target} id n rt :
  wf_name n → is_root n = false →
  ∃ out, encode_query id n rt = Ok out ∧ len out ≤ 271 ∧ to_vec (query_message id n rt) = Ok out.
Proof.
  intros Hn Hroot. unfold encode_query. rewrite Hroot. cbv zeta.
  set (o := put_u16 (put_u16 (_ ++ encode_name n) _) CLASS_IN). exists o.
  assert (Hlen : len o ≤ 271).
  { subst o. unfold put_u16. rewrite !len_app. change (len (u16_to_be_bytes _)) with 2.
    pose proof (len_encode_name _ Hn). unfold MAX_WIRE_NAME_LEN in *. change (len []) with 0. lia. }
  assert (to_vec (query_message id n rt) = if MAX_PACKET_LEN <? len o
    then Err (mkWireError "fixture DNS message exceeds packet bound") else Ok o) as ->
    by (destruct rt; reflexivity).
  by rewrite (proj2 (Z.ltb_ge _ _)) by (unfold MAX_PACKET_LEN; lia).
Qed.

Lemma parse_response_wf `{Target} bytes :
  Forall is_byte bytes → owp (parse_response bytes) (wf_response bytes) (λ _, True).
Proof.
  intros Hb. unfold parse_response.
  destruct ((_ <? _) || _) eqn:Hr; [done|].
  apply orb_false_iff in Hr as [H1%Z.ltb_ge H2%Z.ltb_ge].
  pose proof (parse_body_safe bytes Hb (conj H1 H2)) as Hp. unfold wpx in Hp.
  by destruct (parse_body bytes 0) as [[] ?].
Qed.

(** C4: on every packet whatsoever, [parse_response] returns: no index of the
    codec is out of range, no [usize] addition overflows, and the name loop ends
    within its fuel. When it returns a message, every name in it is within the
    63/255 octet bounds and case-folded, every integer is within its width, the
    extended RCODE is below 4096, and the section sizes fit in the packet. *)
Theorem parse_response_safe `{Target} bytes :
  Forall is_byte bytes → owp (parse_response bytes) (wf_response bytes) (λ _, True).
Proof. apply parse_response_wf. Qed.
Lemma parse_response_safe_witness :
  owp (@parse_response target64 [18; 52; 129; 128; 0; 1; 0; 0; 0; 0; 0; 0; 192; 12; 0; 1; 0; 1])
    (wf_response [18; 52; 129; 128; 0; 1; 0; 0; 0; 0; 0; 0; 192; 12; 0; 1; 0; 1]) (λ _, True).
Proof. apply parse_response_safe. repeat (constructor; [unfold is_byte; lia|]). constructor. Defined.

(** C5: [parse_response] inverts the repository's own message encoder: for
    every message with well-formed names and in-range fields that encodes, with
    any number of questions and of A, AAAA, CNAME and SOA records in the answer
    and authority sections, parsing the bytes gives back exactly its identifier,
    flags, response code, questions and records. *)
Theorem message_roundtrip `{Target} m out :
  wf_message m → to_vec m = Ok out → parse_response out = Ok (parsed_message m).
Proof. apply parse_message_run. Qed.

Definition sample_name : Name := mkName [bs "example"; bs "test"].
Definition sample_message : Message :=
  mkMessage 4660 Resp true true false NXDomain [mkQuery sample_name FA]
    [mkFixtureRecord sample_name 30 (FD_A 127 0 0 1);
     mkFixtureRecord sample_name 60 (FD_CNAME (mkName [bs "a"]))]
    [mkFixtureRecord root 60 (FD_SOA (mkSOA root root 1 (-2) 3 4 5))].
Definition sample_out : list Z :=
  match to_vec sample_message with Ok out => out | _ => [] end.

Lemma message_roundtrip_witness :
  @parse_response target64 sample_out = Ok (parsed_message sample_message).
Proof. apply (@message_roundtrip target64 sample_message); [by_eval|by vm_compute]. Defined.

(** Every host name [Name::from_ascii] accepts, other than the root, gives
    a query that encodes, in at most 12 + 255 + 4 octets, so that the packet
    bound of [encode_query] is never hit; and the bytes parse back to that name,
    that record type and class IN, under the given transaction identifier. *)
Theorem query_roundtrip `{Target} value n id rt :
  Forall is_byte value → from_ascii value = Ok n → is_root n = false → 0 ≤ id ≤ u16_max →
  ∃ out, encode_query id n rt = Ok out ∧ len out ≤ 271 ∧
    parse_response out =
      Ok (mkResponse id false false 0 [mkQuestion n (RecordType_code rt) CLASS_IN] [] []).
Proof.
  intros Hv Hn Hroot Hid. pose proof (from_ascii_wf value Hv) as Hwf. rewrite Hn in Hwf. cbn in Hwf.
  destruct (encode_query_message id n rt Hwf Hroot) as (out & Hout & Hlen & Hvec).
  exists out. split_and!; [done..|].
  rewrite (parse_message_run (query_message id n rt)); [by destruct rt| |done].
  split; [done|]. split; [apply Forall_singleton; split; [exact Hwf|by destruct rt]|].
  split; by apply Forall_nil.
Qed.

Lemma query_roundtrip_witness :
  ∃ out, @encode_query 4660 sample_name A = Ok out ∧ len out ≤ 271 ∧
    @parse_response target64 out =
      Ok (mkResponse 4660 false false 0 [mkQuestion sample_name (RecordType_code A) CLASS_IN] [] []).
Proof.
  apply (@query_roundtrip target64 (bs "Example.Test.")); [by_eval|by vm_compute..|by_eval].
Defined.

(** One pointer: the loop goes on at its target, the cursor is set past it. *)
Lemma read_name_loop_pointer `{Target} fuel bytes t p acc wl c :
  len bytes ≤ MAX_PACKET_LEN → 0 ≤ t < p → located bytes p [192 + t / 256; t mod 256] →
  read_name_loop (S fuel) bytes acc p false 0 [] wl c
  = read_name_loop fuel bytes acc t true 1 [t] wl (p + 2).
Proof.
  intros Hlen Ht Hp.
  pose proof (located_bound _ _ _ Hp) as [_ Hpb]. change (len [_; _]) with 2 in Hpb.
  unfold MAX_PACKET_LEN in *.
  assert (Hq : 0 ≤ t / 256 < 64) by (Z.to_euclidean_division_equations; lia).
  pose proof (Z.mod_pos_bound t 256 ltac:(lia)) as Hm. cbn [read_name_loop].
  assert (byte_get bytes p = Some (192 + t / 256) ∧ byte_get bytes (p + 1) = Some (t mod 256))
    as [Hb1 Hb2].
  { destruct Hp as (pre & post & -> & ->). cbn [app]. by rewrite byte_get_head, byte_get_app. }
  erewrite run_bind by (unfold lift; rewrite Hb1; reflexivity).
  rewrite land_pointer_tag, (proj2 (Z.leb_le _ _)) by (unfold is_byte; lia).
  erewrite run_bind by (unfold lift; rewrite uadd_fits by (apply packet_fits; lia); reflexivity).
  erewrite run_bind by (unfold lift; rewrite Hb2; reflexivity).
  rewrite pointer_target by (unfold is_byte; lia).
  replace ((192 + t / 256) mod 64 * 256 + t mod 256) with t
    by (Z.to_euclidean_division_equations; lia).
  rewrite !(proj2 (Z.leb_gt _ _)) by lia.
  erewrite run_bind by (unfold mbind, M_bind, lift, put;
    rewrite uadd_fits by (apply packet_fits; lia); reflexivity).
  erewrite run_bind by (unfold lift; rewrite uadd_fits by (apply packet_fits; lia); reflexivity).
  reflexivity.
Qed.

(** Message compression. Where a well-formed name stands at offset [t] of
    a packet and a two-octet pointer to [t] stands at a later offset [p], reading
    a name at [p] gives exactly that name and leaves the cursor right after the
    pointer. *)
Theorem read_name_compressed `{Target} bytes t p n :
  len bytes ≤ MAX_PACKET_LEN → wf_name n → located bytes t (encode_name n) → t < p →
  located bytes p [192 + t / 256; t mod 256] → read_name bytes p = (Ok n, p + 2).
Proof.
  intros Hlen Hn Ht Htp Hp. pose proof (located_bound _ _ _ Ht) as [Ht0 Htb].
  unfold read_name. erewrite run_bind by reflexivity.
  change READ_NAME_FUEL with (S 299).
  rewrite (read_name_loop_pointer _ _ t) by done.
  destruct Ht as (pre & post & -> & ->), Hn as [Hls Hw]. unfold encode_name in *.
  rewrite read_name_loop_run; [by destruct n|done|lia..| |done].
  pose proof (labels_bound _ Hls). unfold MAX_WIRE_NAME_LEN in *. lia.
Qed.

Definition compressed_packet : list Z := bs "abcd" ++ encode_name sample_name ++ [192; 4].
Lemma read_name_compressed_witness :
  @read_name target64 compressed_packet 18 = (Ok sample_name, 20).
Proof.
  apply (@read_name_compressed target64 _ 4); [by_eval|by_eval| |done|].
  - by exists (bs "abcd"), [192; 4].
  - by exists (bs "abcd" ++ encode_name sample_name), [].
Defined.

Lemma validate_minimum_shape_mono `{Target} r r' q a u d :
  r ≤ r' → validate_minimum_shape r q a u d = Ok tt → validate_minimum_shape r' q a u d = Ok tt.
Proof.
  intros Hr. unfold validate_minimum_shape.
  destruct (checked_mul usize_max q 5); [|done]. cbn [ok_or mbind outcome_bind].
  destruct (match checked_add usize_max a u with Some _ => _ | None => _ end); [|done].
  cbn [ok_or mbind outcome_bind]. destruct (checked_mul _ _ _); [|done].
  cbn [ok_or mbind outcome_bind]. destruct (checked_add _ _ _); [|done].
  repeat zcase; try done. lia.
Qed.

Lemma parse_sections_extends `{Target} bytes junk :
  parse_sections bytes ⊑run parse_sections (bytes ++ junk).
Proof.
  unfold parse_sections.
  do 6 (apply extends_bind; [apply take_u16_extends|intros ?]).
  apply extends_bind; [|intros _].
  { intros s [] s'. unfold lift, usub. zcase; [|done]. rewrite (proj2 (Z.leb_le _ _)) by len_lia.
    cbn [mbind outcome_bind].
    intros [= Hv <-]. f_equal. eapply validate_minimum_shape_mono; [|exact Hv]. len_lia. }
  do 3 (apply extends_bind; [apply extends_repeatM; apply read_question_extends || apply read_record_extends|intros ?]).
  apply extends_bind; [apply read_additionals_extends|done].
Qed.

(** The format has no slack. When a packet parses, the same packet with
    anything appended does not: the parser consumes the whole of what it
    accepts, and reads a longer packet the same way up to that point. *)
Theorem parse_response_exact `{Target} bytes junk r :
  junk ≠ [] → parse_response bytes = Ok r → ∃ e, parse_response (bytes ++ junk) = Err e.
Proof.
  intros Hj. assert (0 < len junk) by (destruct junk; [done|len_lia]). unfold parse_response.
  destruct ((len bytes <? _) || _) eqn:Hr; [done|].
  destruct (_ || (MAX_PACKET_LEN <? len (bytes ++ junk))); [by eexists|].
  unfold parse_body at 1, mbind, M_bind.
  destruct (parse_sections bytes 0) as [[p| | |] c] eqn:Hp; try done.
  apply (parse_sections_extends bytes junk) in Hp. cbn [get fst].
  zcase; [|done]. intros _. unfold parse_body. rewrite (run_bind _ _ _ _ _ Hp).
  erewrite run_bind by reflexivity. rewrite (proj2 (Z.eqb_neq c _)) by len_lia. by eexists.
Qed.

Lemma parse_response_exact_witness :
  ∃ e, @parse_response target64 (sample_out ++ [0]) = Err e.
Proof.
  apply (@parse_response_exact target64 _ _ (parsed_message sample_message)); [done|by vm_compute].
Defined.

(** Name identity is case-insensitive: a presentation name and its ASCII
    lower-casing are accepted or rejected alike, and denote the same [Name]. *)
Theorem from_ascii_case_insensitive `{Target} v w :
  ascii_lowercase v = ascii_lowercase w → from_ascii v = from_ascii w.
Proof. intros Hvw. by rewrite <-(from_ascii_lowercase v), Hvw, from_ascii_lowercase. Qed.

Lemma from_ascii_case_insensitive_witness :
  @from_ascii target64 (bs "EXAMPLE.test") = @from_ascii target64 (bs "example.TEST").
Proof. apply from_ascii_case_insensitive. by vm_compute. Defined.
