(* ===== verification/DnsCache.v ===== *)
(** * The resolver's data and its cache ([src/backend/native_dns.rs])

    The answers, failures and families a lookup deals in, and the bounded
    cache: one map for what HTTP asks (a name) and one per record type for
    public lookups (a name and a type), with one use counter between them. An
    [Instant] is a number of nanoseconds up to the platform's last
    representable one, and so is a [Duration]. *)

From stdpp Require Import base list strings gmap sorting.
From Stdlib Require Import ZArith Lia.
From S2P Require Import Prelude Errors DnsWire.

(** ** Time *)

(** The largest [Instant] the platform represents. *)
Class Clock := { instant_max : Z }.

Definition instant_checked_add `{Clock} (now d : Z) : option Z := checked_add instant_max now d.
Definition checked_duration_since (later earlier : Z) : option Z :=
  if earlier <=? later then Some (later - earlier) else None.
Definition saturating_duration_since (later earlier : Z) : Z := saturating_sub later earlier.
Definition from_secs (s : Z) : Z := s * 1000000000.
Definition from_millis (ms : Z) : Z := ms * 1000000.

(** ** Data *)

Module AddressFamily.
Inductive t := Ipv4 | Ipv6 | Both.
#[global] Instance t_eq_dec : EqDecision t.
Proof. solve_decision. Defined.
End AddressFamily.

Module AddressOrder.
Inductive t := Ipv4ThenIpv6 | Ipv6ThenIpv4.
#[global] Instance t_eq_dec : EqDecision t.
Proof. solve_decision. Defined.
End AddressOrder.

Module CacheMode.
Inductive t := Use | Refresh | Bypass.
#[global] Instance t_eq_dec : EqDecision t.
Proof. solve_decision. Defined.
End CacheMode.

Module ResolveStatus.
Inductive t := Answer | NameNotFound | NoData.
#[global] Instance t_eq_dec : EqDecision t.
Proof. solve_decision. Defined.
End ResolveStatus.

Inductive IpAddr := V4 (a b c d : Z) | V6 (octets : list Z).
#[global] Instance IpAddr_eq_dec : EqDecision IpAddr.
Proof. solve_decision. Defined.

#[global] Instance Name_countable : Countable Wire.Name.
Proof. apply (inj_countable' Wire.labels Wire.mkName). by intros []. Defined.
#[global] Instance RecordType_countable : Countable Wire.RecordType.
Proof.
  apply (inj_countable' (λ t, match t with Wire.A => true | Wire.AAAA => false end)
           (λ b : bool, if b then Wire.A else Wire.AAAA)).
  by intros [].
Defined.

Record ResolveAnswer := mkAnswer { addresses : list IpAddr; ttl : Z }.
#[global] Instance ResolveAnswer_eq_dec : EqDecision ResolveAnswer.
Proof. solve_decision. Defined.

Record ResolveFailure := mkFailure { f_message : string; f_class : DnsFailure.t }.
#[global] Instance ResolveFailure_eq_dec : EqDecision ResolveFailure.
Proof. solve_decision. Defined.

(** [ResolveFailure::new] and [ResolveFailure::classified]. *)
Definition failure_new (message : string) : ResolveFailure := mkFailure message DnsFailure.Unknown.
Definition failure_classified (class : DnsFailure.t) (message : string) : ResolveFailure := mkFailure message class.

(** [Result<ResolveAnswer, ResolveFailure>]. *)
Definition lookup_result : Type := ResolveFailure + ResolveAnswer.

Module CachedFamily.
Inductive t := Answer (addresses : list IpAddr) | NameNotFound | NoData.
#[global] Instance t_eq_dec : EqDecision t.
Proof. solve_decision. Defined.
End CachedFamily.

(** ** The cache *)

Module Cache.
Import Wire.

Definition DNS_CACHE_CAPACITY : Z := 256.
Definition MAX_POSITIVE_CACHE_TTL : Z := from_secs (60 * 60).
Definition MAX_NEGATIVE_CACHE_TTL : Z := from_secs (5 * 60).

(** [CacheEntry] and [FamilyCacheEntry] differ in what they hold. *)
Record Entry (V : Type) := mkEntry { value : V; expires : Z; last_used : Z }.
Arguments mkEntry {V} value expires last_used.
Arguments value {V} e.
Arguments expires {V} e.
Arguments last_used {V} e.

Abbreviation CacheEntry := (Entry lookup_result).
Abbreviation FamilyCacheEntry := (Entry CachedFamily.t).

Record DnsCache := mkCache {
  entries : gmap Name CacheEntry;
  family_entries : gmap (Name * RecordType) FamilyCacheEntry;
  next_use : Z
}.

Definition new : DnsCache := mkCache ∅ ∅ 1.

Definition set_entries (m : gmap Name CacheEntry) (c : DnsCache) : DnsCache :=
  mkCache m (family_entries c) (next_use c).
Definition set_family_entries (m : gmap (Name * RecordType) FamilyCacheEntry) (c : DnsCache) : DnsCache :=
  mkCache (entries c) m (next_use c).

Section maps.
Context `{Countable K} {V : Type}.

(** [retain(|_, entry| entry.expires > now)]. *)
Definition retain_live (now : Z) (m : gmap K (Entry V)) : gmap K (Entry V) :=
  filter (λ ke, now < expires ke.2) m.

(** [iter().min_by_key(|(_, entry)| entry.last_used)]. *)
Definition older (a b : K * Entry V) : K * Entry V := if last_used b.2 <? last_used a.2 then b else a.
Definition min_by_last_used (l : list (K * Entry V)) : option (K * Entry V) :=
  match l with [] => None | a :: l' => Some (foldl older a l') end.
Definition oldest (m : gmap K (Entry V)) : option K := fst <$> min_by_last_used (map_to_list m).

(** The eviction of the two inserting methods. *)
Definition make_room (k : K) (m : gmap K (Entry V)) : gmap K (Entry V) :=
  if (DNS_CACHE_CAPACITY <=? Z.of_nat (size m)) && bool_decide (m !! k = None)
  then match oldest m with Some o => delete o m | None => m end
  else m.

Definition set_last_used (u : Z) (e : Entry V) : Entry V := mkEntry (value e) (expires e) u.
End maps.

Definition bump_use (c : DnsCache) : DnsCache :=
  match checked_add u64_max (next_use c) 1 with
  | Some n => mkCache (entries c) (family_entries c) n
  | None => mkCache ∅ ∅ 1
  end.

Definition get (name : Name) (now : Z) (c : DnsCache) : option lookup_result * DnsCache :=
  match entries c !! name with
  | None => (None, c)
  | Some e =>
      if expires e <=? now then (None, set_entries (delete name (entries c)) c)
      else
        let last_used := next_use c in
        let c := bump_use c in
        match entries c !! name with
        | None => (None, c)
        | Some e => (Some (value e), set_entries (<[name := set_last_used last_used e]> (entries c)) c)
        end
  end.

Definition get_family (name : Name) (record_type : RecordType) (now : Z) (c : DnsCache)
  : option (CachedFamily.t * Z) * DnsCache :=
  let key := (name, record_type) in
  match family_entries c !! key with
  | None => (None, c)
  | Some e =>
      if expires e <=? now then (None, set_family_entries (delete key (family_entries c)) c)
      else
        let last_used := next_use c in
        let c := bump_use c in
        match family_entries c !! key with
        | None => (None, c)
        | Some e =>
            (Some (value e, expires e),
             set_family_entries (<[key := set_last_used last_used e]> (family_entries c)) c)
        end
  end.

Definition remove_http (name : Name) (c : DnsCache) : DnsCache := set_entries (delete name (entries c)) c.
Definition clear (c : DnsCache) : DnsCache := mkCache ∅ ∅ (next_use c).

Section with_clock.
Context {clk : Clock}.

Definition insert (name : Name) (result : lookup_result) (ttl maximum_ttl now : Z) (c : DnsCache) : DnsCache :=
  if (ttl =? 0) || (DNS_CACHE_CAPACITY =? 0) then c
  else
    let c := set_entries (retain_live now (entries c)) c in
    let c := set_entries (make_room name (entries c)) c in
    let ttl := Z.min ttl maximum_ttl in
    match instant_checked_add now ttl with
    | None => c
    | Some expires =>
        let last_used := next_use c in
        let c := bump_use c in
        set_entries (<[name := mkEntry result expires last_used]> (entries c)) c
    end.

Definition insert_family (name : Name) (record_type : RecordType) (record : CachedFamily.t)
    (ttl maximum_ttl now : Z) (c : DnsCache) : option Z * DnsCache :=
  if (ttl =? 0) || (DNS_CACHE_CAPACITY =? 0) then (None, c)
  else
    let c := set_family_entries (retain_live now (family_entries c)) c in
    let key := (name, record_type) in
    let c := set_family_entries (make_room key (family_entries c)) c in
    let ttl := Z.min ttl maximum_ttl in
    match instant_checked_add now ttl with
    | None => (None, c)
    | Some expires =>
        let last_used := next_use c in
        let c := bump_use c in
        (Some expires, set_family_entries (<[key := mkEntry record expires last_used]> (family_entries c)) c)
    end.
End with_clock.

End Cache.
