(* ===== verification/DnsCacheProofs.v ===== *)
(** * Correctness of the resolver's cache

    Against a store that forgets nothing: what the cache returns is what was
    last stored under the name and has not expired, the two maps stay within
    their capacity, and an entry is given up early only for 256 others used
    after it. *)

From stdpp Require Import base list strings gmap.
From Stdlib Require Import ZArith Lia.
From S2P Require Import Prelude Errors DnsWire DnsCache.

Import Wire Cache.

(** ** The least recently used entry *)

Section maps.
Context `{Countable K} {V : Type}.
Implicit Types (m : gmap K (Entry V)) (k : K).

Lemma older_spec (a b : K * Entry V) :
  (older a b = a ∨ older a b = b) ∧ last_used (older a b).2 ≤ last_used a.2 ∧ last_used (older a b).2 ≤ last_used b.2.
Proof. unfold older. destruct (Z.ltb_spec (last_used b.2) (last_used a.2)); auto with lia. Qed.

Lemma foldl_older (l : list (K * Entry V)) : ∀ a,
  foldl older a l ∈ a :: l ∧ ∀ b, b ∈ a :: l → last_used (foldl older a l).2 ≤ last_used b.2.
Proof.
  induction l as [|x l IH]; intros a; cbn [foldl].
  - split; [by left|]. by intros b ->%list_elem_of_singleton.
  - destruct (IH (older a x)) as [Hin Hle]. destruct (older_spec a x) as (Hor & Ha & Hx). split.
    + apply elem_of_cons in Hin as [->|?]; [|by right; right].
      destruct Hor as [->| ->]; [by left|by right; left].
    + pose proof (Hle _ ltac:(by left)). intros b [->|[->|?]%elem_of_cons]%elem_of_cons; [lia..|].
      apply Hle. by right.
Qed.

Lemma oldest_spec m k :
  oldest m = Some k → ∃ e, m !! k = Some e ∧ ∀ k' e', m !! k' = Some e' → last_used e ≤ last_used e'.
Proof.
  unfold oldest, min_by_last_used. destruct (map_to_list m) as [|a l] eqn:Hl; [done|].
  intros [x [Hx ->]]%fmap_Some. simplify_eq. destruct (foldl_older l a) as [Hin Hle].
  rewrite <-Hl in Hin. destruct (foldl older a l) as [k e] eqn:Hf. exists e. split; [by apply elem_of_map_to_list|].
  intros k' e' Hk'. apply (Hle (k', e')). rewrite <-Hl. by apply elem_of_map_to_list.
Qed.

Lemma make_room_sub k m : make_room k m ⊆ m.
Proof.
  unfold make_room. destruct (_ && _); [|done]. destruct (oldest m); [|done]. apply delete_subseteq.
Qed.

Lemma retain_live_sub now m : retain_live now m ⊆ m.
Proof. apply map_filter_subseteq. Qed.

Lemma make_room_size k m e :
  Z.of_nat (size m) ≤ DNS_CACHE_CAPACITY → Z.of_nat (size (<[k := e]> (make_room k m))) ≤ DNS_CACHE_CAPACITY.
Proof.
  intros Hs. unfold make_room.
  destruct (_ && _) eqn:Hc.
  - apply andb_prop in Hc as [Hfull%Z.leb_le Hk%bool_decide_eq_true].
    destruct (oldest m) as [o|] eqn:Ho.
    + destruct (oldest_spec _ _ Ho) as (eo & Heo & _).
      rewrite map_size_insert_None by (apply lookup_delete_None; auto). rewrite map_size_delete, Heo.
      unfold DNS_CACHE_CAPACITY in *. lia.
    + unfold oldest, min_by_last_used in Ho. destruct (map_to_list m) as [|a l] eqn:Hl; [|done].
      apply map_to_list_empty_iff in Hl as ->. rewrite map_size_empty in Hfull. unfold DNS_CACHE_CAPACITY in Hfull. lia.
  - apply andb_false_iff in Hc. rewrite map_size_insert. destruct (m !! k) eqn:Hk; [done|].
    destruct Hc as [Hc%Z.leb_gt|Hc%bool_decide_eq_false]; [lia|done].
Qed.

(** [name] leaves only when it is the least recently used of a full map. *)
Lemma make_room_keeps k name e m :
  m !! name = Some e → make_room k m !! name = None →
  DNS_CACHE_CAPACITY ≤ Z.of_nat (size m) ∧ m !! k = None ∧
  ∀ k' e', m !! k' = Some e' → last_used e ≤ last_used e'.
Proof.
  intros Hn. unfold make_room. destruct (_ && _) eqn:Hc; [|congruence].
  apply andb_prop in Hc as [Hfull%Z.leb_le Hk%bool_decide_eq_true].
  destruct (oldest m) as [o|] eqn:Ho; [|congruence].
  intros [->|?]%lookup_delete_None; [|congruence].
  destruct (oldest_spec _ _ Ho) as (eo & Heo & Hle). by simplify_eq.
Qed.
End maps.

(** ** A store that forgets nothing *)

Inductive cache_op :=
| Op_get (name : Name) (now : Z)
| Op_insert (name : Name) (result : lookup_result) (ttl maximum_ttl now : Z)
| Op_get_family (name : Name) (t : RecordType) (now : Z)
| Op_insert_family (name : Name) (t : RecordType) (record : CachedFamily.t) (ttl maximum_ttl now : Z)
| Op_remove_http (name : Name)
| Op_clear.

Record Store := mkStore {
  http_store : gmap Name (lookup_result * Z);
  family_store : gmap (Name * RecordType) (CachedFamily.t * Z)
}.

Section with_clock.
Context {clk : Clock}.

Definition run_op (c : DnsCache) (op : cache_op) : DnsCache :=
  match op with
  | Op_get name now => snd (get name now c)
  | Op_insert name result ttl maximum now => insert name result ttl maximum now c
  | Op_get_family name t now => snd (get_family name t now c)
  | Op_insert_family name t record ttl maximum now => snd (insert_family name t record ttl maximum now c)
  | Op_remove_http name => remove_http name c
  | Op_clear => clear c
  end.
Definition run_ops : DnsCache → list cache_op → DnsCache := foldl run_op.

(** When what is stored now expires, if it can be stored at all. *)
Definition expiry (ttl maximum now : Z) : option Z :=
  if ttl =? 0 then None else instant_checked_add now (Z.min ttl maximum).

Definition store_op (s : Store) (op : cache_op) : Store :=
  match op with
  | Op_get _ _ | Op_get_family _ _ _ => s
  | Op_insert name result ttl maximum now =>
      match expiry ttl maximum now with
      | Some x => mkStore (<[name := (result, x)]> (http_store s)) (family_store s)
      | None => s
      end
  | Op_insert_family name t record ttl maximum now =>
      match expiry ttl maximum now with
      | Some x => mkStore (http_store s) (<[(name, t) := (record, x)]> (family_store s))
      | None => s
      end
  | Op_remove_http name => mkStore (delete name (http_store s)) (family_store s)
  | Op_clear => mkStore ∅ ∅
  end.
Definition store_ops : Store → list cache_op → Store := foldl store_op.

(** The entries of a map are entries of the store's. *)
Definition backed `{Countable K} {V} (m : gmap K (Entry V)) (s : gmap K (V * Z)) : Prop :=
  ∀ k e, m !! k = Some e → s !! k = Some (value e, expires e).

Record refines (c : DnsCache) (s : Store) : Prop := {
  r_http : backed (entries c) (http_store s);
  r_family : backed (family_entries c) (family_store s);
  r_http_size : Z.of_nat (size (entries c)) ≤ DNS_CACHE_CAPACITY;
  r_family_size : Z.of_nat (size (family_entries c)) ≤ DNS_CACHE_CAPACITY
}.

Lemma backed_sub `{Countable K} {V} (m m' : gmap K (Entry V)) s : m' ⊆ m → backed m s → backed m' s.
Proof. intros Hsub Hb k e He. apply Hb. by eapply lookup_weaken. Qed.

Lemma backed_empty `{Countable K} {V} (s : gmap K (V * Z)) : backed (V := V) ∅ s.
Proof. by intros k e. Qed.

Lemma backed_delete `{Countable K} {V} (m : gmap K (Entry V)) s k :
  backed m s → backed (delete k m) (delete k s).
Proof. intros Hb k' e [Hne He]%lookup_delete_Some. rewrite lookup_delete_ne by done. by apply Hb. Qed.

Lemma backed_insert `{Countable K} {V} (m : gmap K (Entry V)) s k e :
  backed m s → backed (<[k := e]> m) (<[k := (value e, expires e)]> s).
Proof.
  intros Hb k' e' [[-> ->]|[Hne He]]%lookup_insert_Some; [by rewrite lookup_insert_eq|].
  rewrite lookup_insert_ne by done. by apply Hb.
Qed.

Lemma backed_touch `{Countable K} {V} (m : gmap K (Entry V)) s k e u :
  backed m s → m !! k = Some e → backed (<[k := set_last_used u e]> m) s.
Proof.
  intros Hb Hk k' e' [[-> <-]|[Hne He]]%lookup_insert_Some; [|by apply Hb].
  by apply (Hb _ e).
Qed.

Lemma bump_use_cases c :
  (bump_use c = mkCache (entries c) (family_entries c) (next_use c + 1)) ∨ bump_use c = mkCache ∅ ∅ 1.
Proof. unfold bump_use, checked_add. destruct (_ <=? _); auto. Qed.

Lemma refines_bump c s : refines c s → refines (bump_use c) s.
Proof.
  intros H. destruct (bump_use_cases c) as [->| ->]; [by destruct H|].
  split; cbn; try apply backed_empty; rewrite map_size_empty; unfold DNS_CACHE_CAPACITY; lia.
Qed.

Lemma refines_entries c s m :
  refines c s → m ⊆ entries c → refines (set_entries m c) s.
Proof.
  intros [Hh Hf Hs1 Hs2] Hsub. split; cbn; [by eapply backed_sub|done| |done].
  pose proof (map_subseteq_size _ _ Hsub). lia.
Qed.

Lemma refines_family c s m :
  refines c s → m ⊆ family_entries c → refines (set_family_entries m c) s.
Proof.
  intros [Hh Hf Hs1 Hs2] Hsub. split; cbn; [done|by eapply backed_sub|done|].
  pose proof (map_subseteq_size _ _ Hsub). lia.
Qed.

Lemma refines_touch_entry c s name e u :
  refines c s → entries c !! name = Some e → refines (set_entries (<[name := set_last_used u e]> (entries c)) c) s.
Proof.
  intros [Hh Hf Hs1 Hs2] He. split; cbn; [by eapply backed_touch|done| |done].
  rewrite map_size_insert_Some; [done|by eexists].
Qed.

Lemma refines_touch_family c s key e u :
  refines c s → family_entries c !! key = Some e →
  refines (set_family_entries (<[key := set_last_used u e]> (family_entries c)) c) s.
Proof.
  intros [Hh Hf Hs1 Hs2] He. split; cbn; [done|by eapply backed_touch|done|].
  rewrite map_size_insert_Some; [done|by eexists].
Qed.

Lemma get_refines name now c s : refines c s → refines (snd (get name now c)) s.
Proof.
  intros H. unfold get. destruct (entries c !! name) as [e|]; [|done].
  destruct (_ <=? _); cbn; [by apply refines_entries; [|apply delete_subseteq]|].
  apply refines_bump in H. destruct (entries (bump_use c) !! name) as [e'|] eqn:He; cbn; [|done].
  by apply refines_touch_entry.
Qed.

Lemma get_family_refines name t now c s : refines c s → refines (snd (get_family name t now c)) s.
Proof.
  intros H. unfold get_family. destruct (family_entries c !! _) as [e|]; [|done].
  destruct (_ <=? _); cbn; [by apply refines_family; [|apply delete_subseteq]|].
  apply refines_bump in H. destruct (family_entries (bump_use c) !! _) as [e'|] eqn:He; cbn; [|done].
  by apply refines_touch_family.
Qed.

(** What the two inserting methods do before they store. *)
Definition swept (name : Name) (now : Z) (c : DnsCache) : DnsCache :=
  set_entries (make_room name (retain_live now (entries c))) c.
Definition swept_family (key : Name * RecordType) (now : Z) (c : DnsCache) : DnsCache :=
  set_family_entries (make_room key (retain_live now (family_entries c))) c.

Lemma insert_eq name result ttl maximum now c :
  insert name result ttl maximum now c =
  (if ttl =? 0 then c else
   match expiry ttl maximum now with
   | None => swept name now c
   | Some x =>
       let b := bump_use (swept name now c) in
       set_entries (<[name := mkEntry result x (next_use c)]> (entries b)) b
   end).
Proof. unfold insert, expiry. rewrite orb_false_r. by destruct (ttl =? 0). Qed.

Lemma insert_family_eq name t record ttl maximum now c :
  insert_family name t record ttl maximum now c =
  (if ttl =? 0 then (None, c) else
   match expiry ttl maximum now with
   | None => (None, swept_family (name, t) now c)
   | Some x =>
       let b := bump_use (swept_family (name, t) now c) in
       (Some x, set_family_entries (<[(name, t) := mkEntry record x (next_use c)]> (family_entries b)) b)
   end).
Proof. unfold insert_family, expiry. rewrite orb_false_r. by destruct (ttl =? 0). Qed.

Lemma swept_sub `{Countable K} {V} k now (m : gmap K (Entry V)) : make_room k (retain_live now m) ⊆ m.
Proof. etrans; [apply make_room_sub|apply retain_live_sub]. Qed.

(** Storing after the counter moved: the map is what it was, or empty. *)
Lemma stored_size `{Countable K} {V} (k : K) now (m m' : gmap K (Entry V)) e :
  Z.of_nat (size m) ≤ DNS_CACHE_CAPACITY →
  m' = make_room k (retain_live now m) ∨ m' = ∅ →
  Z.of_nat (size (<[k := e]> m')) ≤ DNS_CACHE_CAPACITY.
Proof.
  intros Hs [->| ->].
  - apply make_room_size. pose proof (map_subseteq_size _ _ (retain_live_sub now m)). lia.
  - rewrite insert_empty, map_size_singleton. unfold DNS_CACHE_CAPACITY. lia.
Qed.

Lemma run_op_refines c s op : refines c s → refines (run_op c op) (store_op s op).
Proof.
  intros H. destruct op as [name now|name result ttl maximum now|name t now|name t record ttl maximum now|name|];
    cbn [run_op store_op].
  - by apply get_refines.
  - rewrite insert_eq. unfold expiry. destruct (ttl =? 0); [done|].
    assert (Hsw : refines (swept name now c) s) by (apply refines_entries; [done|apply swept_sub]).
    destruct (instant_checked_add _ _) as [x|]; [|done].
    destruct (refines_bump _ _ Hsw) as [Hh Hf Hs1 Hs2].
    split; cbn; [by apply (backed_insert _ _ _ (mkEntry result x (next_use c)))|done| |done].
    apply (stored_size _ now (entries c)); [apply H|].
    destruct (bump_use_cases (swept name now c)) as [->| ->]; auto.
  - by apply get_family_refines.
  - rewrite insert_family_eq. unfold expiry. destruct (ttl =? 0); [done|].
    assert (Hsw : refines (swept_family (name, t) now c) s) by (apply refines_family; [done|apply swept_sub]).
    destruct (instant_checked_add _ _) as [x|]; [|done].
    destruct (refines_bump _ _ Hsw) as [Hh Hf Hs1 Hs2].
    split; cbn; [done|by apply (backed_insert _ _ _ (mkEntry record x (next_use c)))|done|].
    apply (stored_size _ now (family_entries c)); [apply H|].
    destruct (bump_use_cases (swept_family (name, t) now c)) as [->| ->]; auto.
  - destruct H as [Hh Hf Hs1 Hs2]. split; cbn; [by apply backed_delete|done| |done].
    etrans; [|exact Hs1]. apply inj_le, map_subseteq_size, delete_subseteq.
  - split; cbn; try apply backed_empty; rewrite map_size_empty; unfold DNS_CACHE_CAPACITY; lia.
Qed.

Lemma run_ops_refines ops : ∀ c s, refines c s → refines (run_ops c ops) (store_ops s ops).
Proof.
  induction ops as [|op ops IH]; intros c s H; [done|]. cbn. by apply IH, run_op_refines.
Qed.

Lemma refines_new : refines new (mkStore ∅ ∅).
Proof. split; cbn; try apply backed_empty; rewrite map_size_empty; unfold DNS_CACHE_CAPACITY; lia. Qed.

Lemma get_hit c s name now r :
  refines c s → fst (get name now c) = Some r → ∃ x, http_store s !! name = Some (r, x) ∧ now < x.
Proof.
  intros H. unfold get. destruct (entries c !! name) as [e|] eqn:He; [|done].
  zcase; [done|]. destruct (bump_use_cases c) as [->| ->]; cbn; [|by rewrite lookup_empty].
  rewrite He. cbn. intros [= <-]. exists (expires e). split; [by apply (r_http _ _ H)|lia].
Qed.

Lemma get_family_hit c s name t now r x :
  refines c s → fst (get_family name t now c) = Some (r, x) →
  family_store s !! (name, t) = Some (r, x) ∧ now < x.
Proof.
  intros H. unfold get_family. destruct (family_entries c !! _) as [e|] eqn:He; [|done].
  zcase; [done|]. destruct (bump_use_cases c) as [->| ->]; cbn; [|by rewrite lookup_empty].
  rewrite He. cbn. intros [= <- <-]. split; [by apply (r_family _ _ H)|lia].
Qed.

(** ** Recency

    Until the use counter wraps, every entry was used before [next_use], no two
    of them at once. *)

Record stamped (c : DnsCache) : Prop := {
  st_past : ∀ k e, entries c !! k = Some e → last_used e < next_use c;
  st_distinct : ∀ k k' e e', entries c !! k = Some e → entries c !! k' = Some e' → last_used e = last_used e' → k = k'
}.

Lemma stamped_sub c m fam n : stamped c → m ⊆ entries c → next_use c ≤ n → stamped (mkCache m fam n).
Proof.
  intros [Hp Hd] Hsub Hn. split; cbn.
  - intros k e He. specialize (Hp k e (lookup_weaken _ _ _ _ He Hsub)). lia.
  - intros k k' e e' He He'. by apply Hd; eapply lookup_weaken.
Qed.

(** Storing or touching one entry at the current count. *)
Lemma stamped_use c m name v x fam :
  stamped c → m ⊆ entries c →
  stamped (mkCache (<[name := mkEntry v x (next_use c)]> m) fam (next_use c + 1)).
Proof.
  intros [Hp Hd] Hsub. split; cbn.
  - intros k e [[-> <-]|[_ He]]%lookup_insert_Some; cbn; [lia|].
    specialize (Hp k e (lookup_weaken _ _ _ _ He Hsub)). lia.
  - intros k k' e e' [[-> <-]|[Hk He]]%lookup_insert_Some [[-> <-]|[Hk' He']]%lookup_insert_Some Heq; cbn in *.
    + done.
    + specialize (Hp _ _ (lookup_weaken _ _ _ _ He' Hsub)). lia.
    + specialize (Hp _ _ (lookup_weaken _ _ _ _ He Hsub)). lia.
    + by eapply Hd; [eapply lookup_weaken..|].
Qed.

Lemma bump_use_run c :
  next_use c < u64_max → bump_use c = mkCache (entries c) (family_entries c) (next_use c + 1).
Proof.
  intros Hn. unfold bump_use, checked_add. rewrite (proj2 (Z.leb_le _ _)) by lia. done.
Qed.

(** The use of [name] in the HTTP map, with the value and expiry it leaves. *)
Definition names_of (op : cache_op) : gset Name :=
  match op with Op_get n _ | Op_insert n _ _ _ _ => {[ n ]} | _ => ∅ end.
Definition time_of (op : cache_op) : option Z :=
  match op with
  | Op_get _ now | Op_insert _ _ _ _ now => Some now
  | _ => None
  end.
(** [op] neither replaces nor removes [name], and happens before [x]. *)
Definition spares (name : Name) (x : Z) (op : cache_op) : Prop :=
  match op with
  | Op_insert n _ _ _ now => n ≠ name ∧ now < x
  | Op_get _ now => now < x
  | Op_remove_http n => n ≠ name
  | Op_clear => False
  | _ => True
  end.

(** [name] holds [r] until [x], and only names in [T] were used after it. *)
Record recent (name : Name) (r : lookup_result) (x : Z) (T : gset Name) (c : DnsCache) : Prop := {
  rc_stamped : stamped c;
  rc_entry : ∃ u, entries c !! name = Some (mkEntry r x u) ∧
    ∀ k e, entries c !! k = Some e → u < last_used e → k ∈ T
}.

Lemma recent_grow name r x T T' c : recent name r x T c → T ⊆ T' → recent name r x T' c.
Proof. intros [Hs (u & He & Hu)] HT. split; [done|]. exists u. split; [done|]. eauto. Qed.

Lemma recent_union name r x T T' c : recent name r x T c → recent name r x (T ∪ T') c.
Proof. intros Hr. eapply recent_grow; [exact Hr|]. set_solver. Qed.

Lemma recent_family name r x T c fam n :
  recent name r x T c → next_use c ≤ n → recent name r x T (mkCache (entries c) fam n).
Proof.
  intros [Hs (u & He & Hu)] Hn. split; [|by exists u].
  destruct Hs as [Hp Hd]. split; cbn; [|done]. intros k e Hk. specialize (Hp k e Hk). lia.
Qed.

(** A map of the cache's entries that keeps [name]. *)
Lemma recent_sub name r x T c m :
  recent name r x T c → m ⊆ entries c → is_Some (m !! name) → recent name r x T (set_entries m c).
Proof.
  intros [Hs (u & He & Hu)] Hsub [e Hm]. split; [by apply (stamped_sub c)|].
  assert (e = mkEntry r x u) as -> by (apply (lookup_weaken _ _ _ _ Hm) in Hsub; congruence).
  exists u. split; [done|]. intros k e' Hk. apply Hu. by eapply lookup_weaken.
Qed.

(** Another name is stored or used. *)
Lemma recent_use name r x T c k v x' :
  recent name r x T c → k ≠ name →
  recent name r x (T ∪ {[ k ]}) (mkCache (<[k := mkEntry v x' (next_use c)]> (entries c)) (family_entries c) (next_use c + 1)).
Proof.
  intros [Hs (u & He & Hu)] Hk. split; [by apply stamped_use|]. exists u. cbn.
  split; [by rewrite lookup_insert_ne|].
  intros k' e [[-> _]|[_ Hk']]%lookup_insert_Some Hlt; [set_solver|]. apply elem_of_union_l. by apply (Hu k' e).
Qed.

(** [name] itself is used. *)
Lemma recent_touch name r x T c :
  recent name r x T c →
  recent name r x T (mkCache (<[name := mkEntry r x (next_use c)]> (entries c)) (family_entries c) (next_use c + 1)).
Proof.
  intros [Hs (u & He & Hu)]. split; [by apply stamped_use|]. exists (next_use c). cbn.
  split; [by rewrite lookup_insert_eq|].
  intros k e [[-> <-]|[_ Hk]]%lookup_insert_Some Hlt; cbn in *; [lia|]. apply (st_past _ Hs) in Hk. lia.
Qed.

(** Making room for [k] costs [name] its place only when 256 other names were
    used since. *)
Lemma recent_sweep name r x T c k now :
  recent name r x T c → k ≠ name → now < x → Z.of_nat (size (T ∪ {[ k ]} ∖ {[ name ]})) < DNS_CACHE_CAPACITY →
  recent name r x T (swept k now c).
Proof.
  intros Hr Hk Hnow HT. apply recent_sub; [done|apply swept_sub|].
  destruct Hr as [Hs (u & He & Hu)].
  assert (Hlive : retain_live now (entries c) !! name = Some (mkEntry r x u)).
  { unfold retain_live. by apply map_lookup_filter_Some. }
  destruct (make_room k _ !! name) as [e|] eqn:Hroom; [by eexists|].
  destruct (make_room_keeps _ _ _ _ Hlive Hroom) as (Hfull & Hnone & Hmin). exfalso.
  set (m := retain_live now (entries c)) in *.
  assert (Hsub : (dom m ∖ {[ name ]}) ∪ {[ k ]} ⊆ T ∪ {[ k ]} ∖ {[ name ]}).
  { intros n [Hn|Hn]%elem_of_union; [|set_solver]. apply elem_of_difference in Hn as [Hn Hne].
    apply elem_of_dom in Hn as [e Hn]. apply not_elem_of_singleton in Hne.
    apply elem_of_union_l. apply (Hu n e); [by eapply lookup_weaken; [|apply retain_live_sub]|].
    specialize (Hmin n e Hn). cbn in Hmin. destruct (Z.eq_dec u (last_used e)); [|lia].
    destruct Hne. apply (st_distinct _ Hs n name e (mkEntry r x u)); [|done|done].
    by eapply lookup_weaken; [|apply retain_live_sub]. }
  apply subseteq_size in Hsub. rewrite size_union in Hsub.
  2: { apply not_elem_of_dom in Hnone. set_solver. }
  rewrite size_singleton, size_difference, size_dom, size_singleton in Hsub.
  2: { apply singleton_subseteq_l, elem_of_dom. by eexists. }
  unfold DNS_CACHE_CAPACITY in *. lia.
Qed.

Lemma recent_op name r x T c op :
  recent name r x T c → spares name x op → next_use c < u64_max →
  Z.of_nat (size (T ∪ names_of op ∖ {[ name ]})) < DNS_CACHE_CAPACITY →
  recent name r x (T ∪ names_of op ∖ {[ name ]}) (run_op c op) ∧ next_use (run_op c op) ≤ next_use c + 1.
Proof.
  intros Hr Hsp Hn HT.
  destruct op as [n now|n v ttl maximum now|n t now|n t v ttl maximum now|n|]; cbn [run_op names_of spares] in *.
  - pose proof Hr as [Hs (u & He & Hu)]. unfold get. destruct (decide (n = name)) as [->|Hne].
    + rewrite He. cbn [expires]. rewrite (proj2 (Z.leb_gt _ _)) by lia. rewrite bump_use_run by done. cbn.
      rewrite He. cbn. split; [|lia]. apply (recent_grow _ _ _ T); [exact (recent_touch _ _ _ _ _ Hr)|set_solver].
    + destruct (entries c !! n) as [e|] eqn:Hen; [|split; [by apply recent_union|cbn; lia]].
      zcase; cbn.
      { split; [|lia]. apply recent_union, recent_sub; [done|apply delete_subseteq|].
        rewrite lookup_delete_ne by done. by eexists. }
      rewrite bump_use_run by done. cbn. rewrite Hen. cbn. split; [|cbn; lia].
      eapply recent_grow; [exact (recent_use _ _ _ _ _ n (value e) (expires e) Hr Hne)|]. set_solver.
  - destruct Hsp as [Hne Hnow]. rewrite insert_eq. zcase; [split; [by apply recent_union|lia]|].
    assert (Hsw : recent name r x T (swept n now c)) by (apply recent_sweep; try done; lia).
    destruct (expiry _ _ _) as [x'|]; [|split; [by apply recent_union|cbn; lia]].
    cbv zeta. rewrite bump_use_run by done. split; [|cbn; lia].
    eapply recent_grow; [exact (recent_use _ _ _ _ _ n v x' Hsw Hne)|]. set_solver.
  - replace (T ∪ ∅ ∖ {[ name ]}) with T by set_solver. unfold get_family.
    destruct (family_entries c !! _) as [e|]; [|split; [done|cbn; lia]].
    zcase; cbn; [split; [by apply (recent_family _ _ _ _ c)|lia]|].
    rewrite bump_use_run by done. cbn. destruct (family_entries c !! _); cbn; (split; [apply (recent_family _ _ _ _ c); [done|cbn; lia]|cbn; lia]).
  - replace (T ∪ ∅ ∖ {[ name ]}) with T by set_solver. rewrite insert_family_eq. zcase; cbn; [split; [done|lia]|].
    destruct (expiry _ _ _) as [x'|]; cbn; [|split; [by apply (recent_family _ _ _ _ c)|lia]].
    rewrite bump_use_run by done. cbn. split; [apply (recent_family _ _ _ _ c); [done|cbn; lia]|cbn; lia].
  - replace (T ∪ ∅ ∖ {[ name ]}) with T by set_solver. split; [|cbn; lia].
    pose proof Hr as [Hs (u & He & Hu)]. apply recent_sub; [done|apply delete_subseteq|].
    rewrite lookup_delete_ne by done. by eexists.
  - done.
Qed.

(** The names other than [name] that a sequence of operations uses. *)
Definition names_used (name : Name) (ops : list cache_op) : gset Name := ⋃ (map (λ op, names_of op ∖ {[ name ]}) ops).

Lemma recent_ops name r x ops : ∀ T c,
  recent name r x T c → Forall (spares name x) ops → next_use c + len ops < u64_max →
  Z.of_nat (size (T ∪ names_used name ops)) < DNS_CACHE_CAPACITY →
  recent name r x (T ∪ names_used name ops) (run_ops c ops).
Proof.
  induction ops as [|op ops IH]; intros T c Hr Hsp Hn HT; cbn.
  - by apply recent_union.
  - apply Forall_cons in Hsp as [Hop Hsp]. unfold names_used in *. cbn in HT. rewrite len_cons in Hn.
    pose proof (len_nonneg ops).
    assert (Hsub : T ∪ names_of op ∖ {[ name ]} ⊆ T ∪ (names_of op ∖ {[ name ]} ∪ ⋃ map (λ op, names_of op ∖ {[ name ]}) ops))
      by set_solver.
    apply subseteq_size in Hsub as Hle.
    destruct (recent_op _ _ _ _ _ op Hr Hop) as [Hr' Hn']; [lia|lia|].
    rewrite union_assoc_L. rewrite union_assoc_L in HT. apply IH; [done|done|lia|done].
Qed.

Lemma stamped_op c op : stamped c → next_use c < u64_max → stamped (run_op c op) ∧ next_use (run_op c op) ≤ next_use c + 1.
Proof.
  intros Hs Hn. pose proof (λ m fam n, stamped_sub c m fam n Hs) as Hsub.
  destruct op as [n now|n v ttl maximum now|n t now|n t v ttl maximum now|n|]; cbn [run_op].
  - unfold get. destruct (entries c !! n) as [e|] eqn:He; [|split; [done|cbn; lia]].
    zcase; cbn; [split; [by apply Hsub; [apply delete_subseteq|]|lia]|].
    rewrite bump_use_run by done. cbn. rewrite He. cbn. split; [|cbn; lia].
    exact (stamped_use c (entries c) n (value e) (expires e) _ Hs (reflexivity _)).
  - rewrite insert_eq. zcase; [split; [done|lia]|].
    assert (Hsw : stamped (swept n now c)) by (by apply Hsub; [apply swept_sub|]).
    destruct (expiry _ _ _) as [x|]; [|split; [done|cbn; lia]].
    cbv zeta. rewrite bump_use_run by done. split; [|cbn; lia]. exact (stamped_use _ (entries (swept n now c)) n v x _ Hsw (reflexivity _)).
  - unfold get_family. destruct (family_entries c !! _) as [e|]; [|split; [done|cbn; lia]].
    zcase; cbn; [split; [by apply Hsub|lia]|].
    rewrite bump_use_run by done. cbn. destruct (family_entries c !! _); cbn; (split; [apply Hsub; [done|cbn; lia]|cbn; lia]).
  - rewrite insert_family_eq. zcase; cbn; [split; [done|lia]|].
    destruct (expiry _ _ _) as [x|]; cbn; [|split; [by apply Hsub|lia]].
    rewrite bump_use_run by done. cbn. split; [apply Hsub; [done|cbn; lia]|cbn; lia].
  - split; [by apply Hsub; [apply delete_subseteq|]|cbn; lia].
  - split; [|cbn; lia]. split; cbn; intros *; by rewrite lookup_empty.
Qed.

Lemma stamped_ops ops : ∀ c, stamped c → next_use c + len ops < u64_max →
  stamped (run_ops c ops) ∧ next_use (run_ops c ops) ≤ next_use c + len ops.
Proof.
  induction ops as [|op ops IH]; intros c Hs Hn; cbn; [split; [done|rewrite len_nil; lia]|].
  rewrite len_cons in *. pose proof (len_nonneg ops).
  destruct (stamped_op c op Hs) as [Hs' Hn']; [lia|].
  destruct (IH _ Hs') as [? ?]; [lia|]. split; [done|cbn; lia].
Qed.
End with_clock.

(** ** The two properties *)

(** C26: the cache implements a store that forgets nothing, within its bounds:
    after any sequence of lookups, insertions, removals and clearings, at any
    times, each of the two maps holds at most 256 entries, and whatever a
    lookup returns is what was last stored under that name (and record type)
    and not removed since, and it has not expired; for a family, with the
    expiry it was stored with. *)
Theorem cache_refines_store `{Clock} ops :
  let c := run_ops new ops in
  let s := store_ops (mkStore ∅ ∅) ops in
  Z.of_nat (size (entries c)) ≤ 256 ∧ Z.of_nat (size (family_entries c)) ≤ 256 ∧
  (∀ name now r, fst (get name now c) = Some r → ∃ x, http_store s !! name = Some (r, x) ∧ now < x) ∧
  (∀ name t now r x, fst (get_family name t now c) = Some (r, x) →
     family_store s !! (name, t) = Some (r, x) ∧ now < x).
Proof.
  intros c s. pose proof (run_ops_refines ops _ _ refines_new) as Href. fold c s in Href.
  split_and!; [apply Href|apply Href| |]; intros; [by eapply get_hit|by eapply get_family_hit].
Qed.

(** The cache gives an entry up early only to make room for more recent
    ones: what is stored under a name is returned until it expires, whatever
    other names are looked up and stored meanwhile, as long as they are fewer
    than 256 and nobody stores under the name again, removes it or clears the
    cache. (The use counter is 64 bits wide.) *)
Theorem cache_keeps_recent `{Clock} before name r ttl maximum t0 x after now :
  expiry ttl maximum t0 = Some x →
  Forall (spares name x) after →
  Z.of_nat (size (names_used name after)) < 256 →
  len before + len after + 3 < u64_max →
  now < x →
  fst (get name now (run_ops (insert name r ttl maximum t0 (run_ops new before)) after)) = Some r.
Proof.
  intros Hx Hsp Hsize Hcount Hnow. pose proof (len_nonneg before). pose proof (len_nonneg after).
  destruct (stamped_ops before new) as [Hs Hn].
  { split; cbn; intros *; by rewrite lookup_empty. }
  { cbn. lia. }
  cbn [new next_use] in Hn. set (c0 := run_ops new before) in *.
  assert (Hins : recent name r x ∅ (insert name r ttl maximum t0 c0) ∧
                 next_use (insert name r ttl maximum t0 c0) = next_use c0 + 1).
  { rewrite insert_eq, Hx. destruct (ttl =? 0) eqn:Ht; [unfold expiry in Hx; by rewrite Ht in Hx|].
    cbv zeta. rewrite bump_use_run by (cbn; lia). split; [|done].
    assert (Hsw : stamped (swept name t0 c0)) by (by apply (stamped_sub c0); [|apply swept_sub|]).
    split; [exact (stamped_use _ (entries (swept name t0 c0)) name r x _ Hsw (reflexivity _))|].
    exists (next_use c0). cbn. split; [by rewrite lookup_insert_eq|].
    intros k e [[-> <-]|[_ Hk]]%lookup_insert_Some Hlt; cbn in Hlt; [lia|].
    apply (st_past _ Hsw) in Hk. cbn in Hk. lia. }
  destruct Hins as [Hr Hnext].
  destruct (recent_ops name r x after ∅ _ Hr Hsp) as [_ (u & He & _)]; [lia|by rewrite union_empty_l_L|].
  unfold get. rewrite He. cbn. rewrite (proj2 (Z.leb_gt _ _)) by lia.
  destruct (stamped_ops after _ (rc_stamped _ _ _ _ _ Hr)) as [_ Hn2]; [lia|].
  rewrite bump_use_run by lia. cbn. by rewrite He.
Qed.

Lemma cache_keeps_recent_witness :
  let clk := {| instant_max := 1000000000000000 |} in
  let a := mkName [bs "a"; bs "example"] in
  let b := mkName [bs "b"; bs "example"] in
  let answer := inr (mkAnswer [V4 192 0 2 1] (from_secs 60)) in
  fst (get a (from_secs 30)
        (run_ops (insert a answer (from_secs 60) MAX_POSITIVE_CACHE_TTL 0 (run_ops new [Op_get b 0]))
           [Op_insert b answer (from_secs 5) MAX_POSITIVE_CACHE_TTL (from_secs 1); Op_get a (from_secs 2)])) = Some answer.
Proof.
  intros clk a b answer. apply (cache_keeps_recent _ _ _ _ _ _ (from_secs 60)).
  - reflexivity.
  - repeat apply Forall_cons_2; [|reflexivity|apply Forall_nil_2]. split; [discriminate|reflexivity].
  - vm_compute. reflexivity.
  - vm_compute. reflexivity.
  - reflexivity.
Defined.
