(* ===== verification/DnsConfig.v ===== *)
(** * DNS names and the resolver's configuration

    [normalize_dns_name] ([src/dns.rs]), the search suffixes and nameservers a
    discovery ends with ([src/backend/native_dns_config.rs]), and the
    configuration the resolver runs with ([src/backend/native_dns.rs]). A
    [String] is its characters; the discoveries themselves (the registry, the
    parser of [resolv.conf], the system frameworks) are not in the sources, and
    their results are arguments. *)

From stdpp Require Import base list strings gmap sorting.
From Stdlib Require Import ZArith Lia.
From S2P Require Import Prelude Errors DnsWire DnsCache.

Module Config.

(** ** Names ([src/dns.rs]) *)

Definition MAX_DNS_NAME_LEN : Z := 253.
Definition MAX_DNS_LABEL_LEN : Z := 63.

Definition invalid_dns_name (message : string) : Error := error_new ErrorKind.InvalidRequest message.

Definition label_byte (b : Z) : bool := is_ascii_alphanumeric b || (b =? 45).

Definition validate_dns_label (label : list Z) : outcome Error unit :=
  if bool_decide (label = []) then Err (invalid_dns_name "DNS name contains an empty label")
  else if MAX_DNS_LABEL_LEN <? len label then Err (invalid_dns_name "DNS label exceeds the 63-octet limit")
  else
    first ← index label 0;
    last ← (if first =? 45 then Ok first else (i ← usub (len label) 1; index label i));
    if (first =? 45) || (last =? 45) then Err (invalid_dns_name "DNS label cannot begin or end with a hyphen")
    else if negb (forallb label_byte label)
    then Err (invalid_dns_name "DNS names must be exact ASCII letters, digits, hyphens, and dots")
    else Ok tt.

Record NormalizedDnsName := mkNormalized { identity : list Z; absolute : bool }.

(** The loop over [without_dot.split('.')]: [index] is the label's. *)
Fixpoint normalize_labels (index : Z) (labels : list (list Z)) (identity : list Z) : outcome Error (list Z) :=
  match labels with
  | [] => Ok identity
  | label :: rest =>
      _ ← validate_dns_label label;
      let identity := if 0 <? index then identity ++ [46] else identity in
      normalize_labels (index + 1) rest (identity ++ ascii_lowercase label)
  end.

Definition normalize_dns_name (raw : list Z) : outcome Error NormalizedDnsName :=
  if bool_decide (raw = []) then Err (invalid_dns_name "DNS name is empty")
  else if negb (is_ascii raw)
  then Err (invalid_dns_name "DNS names must be exact ASCII or punycode; Unicode is not converted")
  else
    let absolute := ends_with [46] raw in
    let without_dot := match strip_suffix [46] raw with Some v => v | None => raw end in
    if bool_decide (without_dot = []) then Err (invalid_dns_name "the DNS root name is not allowed")
    else if MAX_DNS_NAME_LEN <? len without_dot
    then Err (invalid_dns_name "DNS name exceeds the 253-octet presentation limit")
    else
      identity ← normalize_labels 0 (split_on 46 without_dot) [];
      Ok (mkNormalized identity absolute).

(** ** Discovery ([src/backend/native_dns_config.rs]) *)

Definition MAX_SEARCH_SUFFIXES : Z := 6.
Definition DNS_PORT : Z := 53.
Definition DEFAULT_ATTEMPT_TIMEOUT : Z := from_secs 1.
Definition DEFAULT_ATTEMPTS : Z := 3.

(** [char::is_whitespace]. *)
Definition is_whitespace (c : Z) : bool :=
  in_range 9 13 c || (c =? 32) || (c =? 133) || (c =? 160) || (c =? 5760) || in_range 8192 8202 c ||
  (c =? 8232) || (c =? 8233) || (c =? 8239) || (c =? 8287) || (c =? 12288).

Fixpoint normalize_suffixes_loop (suffixes : list (list Z)) (seen : gset (list Z)) (normalized : list (list Z))
  : list (list Z) :=
  match suffixes with
  | [] => normalized
  | suffix :: rest =>
      match normalize_dns_name (trim is_whitespace suffix) with
      | Ok parsed =>
          if bool_decide (identity parsed = []) || bool_decide (identity parsed ∈ seen)
          then normalize_suffixes_loop rest seen normalized
          else
            let normalized := normalized ++ [identity parsed] in
            if len normalized =? MAX_SEARCH_SUFFIXES then normalized
            else normalize_suffixes_loop rest ({[ identity parsed ]} ∪ seen) normalized
      | _ => normalize_suffixes_loop rest seen normalized
      end
  end.
Definition normalize_search_suffixes (suffixes : list (list Z)) : list (list Z) := normalize_suffixes_loop suffixes ∅ [].

Definition assemble_windows_search_suffixes (search_list adapter_suffixes : list (list Z))
    (computer_domain : option (list Z)) : list (list Z) :=
  match normalize_search_suffixes search_list with
  | [] => normalize_search_suffixes (adapter_suffixes ++ option_list computer_domain)
  | from_list => from_list
  end.

(** [SocketAddr]; [flow] and [scope] are zero for IPv4. *)
Record SocketAddr := mkSocketAddr { ip : IpAddr; port : Z; flow : Z; scope : Z }.
#[global] Instance SocketAddr_eq_dec : EqDecision SocketAddr.
Proof. solve_decision. Defined.

Definition is_unspecified (a : IpAddr) : bool :=
  match a with
  | V4 a b c d => (a =? 0) && (b =? 0) && (c =? 0) && (d =? 0)
  | V6 octets => forallb (Z.eqb 0) octets
  end.

Record DiscoveredResolverConfig := mkDiscovered {
  d_nameservers : list SocketAddr; d_search_suffixes : list (list Z);
  d_attempt_timeout : Z; d_attempts : Z
}.

(** The [filter] that keeps an address the first time it is [seen]. *)
Fixpoint first_occurrences (seen l : list SocketAddr) : list SocketAddr :=
  match l with
  | [] => []
  | a :: l' =>
      if bool_decide (a ∈ seen) then first_occurrences seen l' else a :: first_occurrences (a :: seen) l'
  end.

Definition finish (nameservers : list SocketAddr) (search_suffixes : list (list Z)) (attempt_timeout attempts : Z)
  : outcome Error DiscoveredResolverConfig :=
  let nameservers := first_occurrences [] (List.filter (λ a, negb (is_unspecified (ip a))) nameservers) in
  match nameservers with
  | [] => Err (error_new ErrorKind.Internal "the operating system reported no usable DNS nameservers")
  | _ => Ok (mkDiscovered nameservers (normalize_search_suffixes search_suffixes) attempt_timeout attempts)
  end.

(** *** Windows: adapters ranked by metric *)

Record DnsAdapter := mkAdapter {
  a_name : list Z; up : bool; ipv4_metric : Z; ipv6_metric : Z; ipv6_if_index : Z; dns_servers : list SocketAddr
}.
Record RankedAdapter := mkRankedAdapter { ra_metric : Z; ra_adapter_order : Z; ra_name : list Z }.
Record RankedServer := mkRankedServer { rs_metric : Z; rs_adapter_order : Z; rs_server_order : Z; rs_address : SocketAddr }.

(** [Ipv6Addr::is_unicast_link_local]: in fe80::/10. *)
Definition is_unicast_link_local (octets : list Z) : bool :=
  match octets with a :: b :: _ => (a =? 254) && (Z.land b 192 =? 128) | _ => false end.

Definition rank_server (adapter : DnsAdapter) (address : SocketAddr) : Z * SocketAddr :=
  match ip address with
  | V4 _ _ _ _ => (ipv4_metric adapter, mkSocketAddr (ip address) DNS_PORT 0 0)
  | V6 octets =>
      let scope_id := if (scope address =? 0) && is_unicast_link_local octets
                      then ipv6_if_index adapter else scope address in
      (ipv6_metric adapter, mkSocketAddr (ip address) DNS_PORT 0 scope_id)
  end.

Definition rank_servers (adapter_order : Z) (adapter : DnsAdapter) : list RankedServer :=
  imap (λ i address, let '(metric, address) := rank_server adapter address in
                     mkRankedServer metric adapter_order (Z.of_nat i) address) (dns_servers adapter).

Fixpoint collect_adapters (adapter_order : Z) (adapters : list DnsAdapter) : list RankedServer * list RankedAdapter :=
  match adapters with
  | [] => ([], [])
  | adapter :: rest =>
      let '(servers, ranked) := collect_adapters (adapter_order + 1) rest in
      if up adapter
      then (rank_servers adapter_order adapter ++ servers,
            mkRankedAdapter (Z.min (ipv4_metric adapter) (ipv6_metric adapter)) adapter_order (a_name adapter) :: ranked)
      else (servers, ranked)
  end.

(** The lexicographic orders of the two [sort_by_key]s. *)
Definition server_le (a b : RankedServer) : Prop :=
  rs_metric a < rs_metric b ∨
  (rs_metric a = rs_metric b ∧
   (rs_adapter_order a < rs_adapter_order b ∨
    (rs_adapter_order a = rs_adapter_order b ∧ rs_server_order a ≤ rs_server_order b))).
#[global] Instance server_le_dec : RelDecision server_le.
Proof. intros a b. unfold server_le. apply _. Defined.
Definition adapter_le (a b : RankedAdapter) : Prop :=
  ra_metric a < ra_metric b ∨ (ra_metric a = ra_metric b ∧ ra_adapter_order a ≤ ra_adapter_order b).
#[global] Instance adapter_le_dec : RelDecision adapter_le.
Proof. intros a b. unfold adapter_le. apply _. Defined.

Definition rank_adapters (adapters : list DnsAdapter) : list RankedServer * list RankedAdapter :=
  let '(servers, ranked) := collect_adapters 0 adapters in
  (merge_sort server_le servers, merge_sort adapter_le ranked).

(** *** Linux: the parsed [resolv.conf] *)

Inductive ScopedIp := Scoped_V4 (a b c d : Z) | Scoped_V6 (octets : list Z) (scope : option (list Z)).
Record ResolvConf := mkResolvConf {
  rc_nameservers : list ScopedIp; rc_search : list (list Z); rc_timeout : Z; rc_attempts : Z
}.
Definition clamp (lo hi v : Z) : Z := Z.max lo (Z.min v hi).
Definition nameserver_of (address : ScopedIp) : option SocketAddr :=
  match address with
  | Scoped_V4 a b c d => Some (mkSocketAddr (V4 a b c d) DNS_PORT 0 0)
  | Scoped_V6 octets None => Some (mkSocketAddr (V6 octets) DNS_PORT 0 0)
  | Scoped_V6 _ (Some _) => None
  end.
(** [suffixes_and_nameservers_from_resolv_bytes] after the parse. *)
Definition suffixes_and_nameservers (config : ResolvConf) : outcome Error DiscoveredResolverConfig :=
  let nameservers := omap nameserver_of (rc_nameservers config) in
  let timeout := from_secs (clamp 1 5 (rc_timeout config)) in
  let attempts := clamp 1 5 (rc_attempts config) in
  finish nameservers (rc_search config) timeout attempts.

(** *** macOS *)

Definition macos_attempt_timeout (configured_timeout : option Z) : outcome Error Z :=
  match configured_timeout with
  | None => Ok DEFAULT_ATTEMPT_TIMEOUT
  | Some seconds =>
      if 0 <? seconds then Ok (from_secs (Z.min seconds 5))
      else Err (error_new ErrorKind.Unsupported "macOS reported an invalid DNS server timeout")
  end.

(** ** The running configuration ([src/backend/native_dns.rs]) *)

Definition SYSTEM_CONFIG_REFRESH_INTERVAL : Z := from_secs 30.

Inductive ResolverConfigSource := Static | System.

Record ResolverConfig := mkConfig {
  nameservers : list SocketAddr; search_suffixes : list (list Z);
  attempt_timeout : Z; attempts : Z; source : ResolverConfigSource
}.

Record ResolverSnapshot := mkSnapshot {
  sn_nameservers : list SocketAddr; sn_search_suffixes : list (list Z); sn_attempt_timeout : Z; sn_attempts : Z
}.
#[global] Instance ResolverSnapshot_eq_dec : EqDecision ResolverSnapshot.
Proof. solve_decision. Defined.

Definition injected (nameserver : SocketAddr) : ResolverConfig :=
  mkConfig [nameserver] [] DEFAULT_ATTEMPT_TIMEOUT DEFAULT_ATTEMPTS Static.
Definition with_search_suffixes (suffixes : list (list Z)) (c : ResolverConfig) : ResolverConfig :=
  mkConfig (nameservers c) (normalize_search_suffixes suffixes) (attempt_timeout c) (attempts c) (source c).
(** [ResolverConfig::system], from what [discover] returned. *)
Definition system (discovered : Error + DiscoveredResolverConfig) : Error + ResolverConfig :=
  match discovered with
  | inl e => inl e
  | inr d => inr (mkConfig (d_nameservers d) (d_search_suffixes d) (d_attempt_timeout d) (d_attempts d) System)
  end.
Definition snapshot (c : ResolverConfig) : ResolverSnapshot :=
  mkSnapshot (nameservers c) (search_suffixes c) (attempt_timeout c) (attempts c).
Definition refresh_interval (c : ResolverConfig) : option Z :=
  match source c with System => Some SYSTEM_CONFIG_REFRESH_INTERVAL | Static => None end.
Definition rediscover (c : ResolverConfig) (discovered : Error + DiscoveredResolverConfig)
  : option (Error + ResolverSnapshot) :=
  match source c with
  | Static => None
  | System =>
      Some (match discovered with
            | inl e => inl e
            | inr d => inr (mkSnapshot (d_nameservers d) (d_search_suffixes d) (d_attempt_timeout d) (d_attempts d))
            end)
  end.
Definition apply (sn : ResolverSnapshot) (c : ResolverConfig) : ResolverConfig :=
  mkConfig (sn_nameservers sn) (sn_search_suffixes sn) (sn_attempt_timeout sn) (sn_attempts sn) (source c).

End Config.
