(* ===== verification/DnsAnswer.v ===== *)
(** * Reading an answer ([parse_answer] of [src/backend/native_dns.rs])

    A response is matched against the question that was asked, its CNAME
    records are followed within the message up to a hop limit, and the
    addresses at the end of the chain are collected. *)

From stdpp Require Import base list strings gmap.
From Stdlib Require Import ZArith Lia.
From S2P Require Import Prelude Errors DnsWire DnsCache.

Module Answer.
Import Wire.

Definition MAX_CNAME_HOPS : Z := 8.

Inductive ParsedAnswer :=
| PA_Answer (answer : ResolveAnswer)
| PA_Canonical (target : Name) (hops : Z)
| PA_NoRecords (negative_ttl : option Z)
| PA_Negative (failure : ResolveFailure) (negative_ttl : option Z)
| PA_Truncated.

Definition parsed : Type := ResolveFailure + ParsedAnswer.

Definition dns_response_code_debug (code : Z) : string :=
  if code =? 0 then "NoError" else if code =? 1 then "FormErr" else if code =? 2 then "ServFail"
  else if code =? 3 then "NXDomain" else if code =? 4 then "NotImp" else if code =? 5 then "Refused"
  else if code =? 6 then "YXDomain" else if code =? 7 then "YXRRSet" else if code =? 8 then "NXRRSet"
  else if code =? 9 then "NotAuth" else if code =? 10 then "NotZone" else if code =? 16 then "BADVERS"
  else if code =? 17 then "BADKEY" else if code =? 18 then "BADTIME" else if code =? 19 then "BADMODE"
  else if code =? 20 then "BADNAME" else if code =? 21 then "BADALG" else if code =? 22 then "BADTRUNC"
  else if code =? 23 then "BADCOOKIE" else "Unknown(" +:+ display code +:+ ")".

(** The first SOA record of the authority section. *)
Definition soa_ttl (record : DnsRecord) : option Z :=
  match r_data record with
  | RData_Soa minimum => Some (from_secs (Z.min (r_ttl record) minimum))
  | _ => None
  end.
Fixpoint find_map {T R} (f : T → option R) (l : list T) : option R :=
  match l with
  | [] => None
  | x :: l' => match f x with Some r => Some r | None => find_map f l' end
  end.

Definition root_target : ResolveFailure :=
  failure_classified DnsFailure.Protocol "the DNS CNAME target is the root name".
Definition hop_limit : ResolveFailure :=
  failure_classified DnsFailure.Protocol "the DNS CNAME chain exceeds the private hop limit".

(** The inner [for] of the CNAME loop: the first alias of an accepted name
    that leads somewhere new. *)
Fixpoint next_target (accepted : gset Name) (answers : list DnsRecord) : ResolveFailure + option (Name * Z) :=
  match answers with
  | [] => inr None
  | answer :: rest =>
      if bool_decide (r_name answer ∈ accepted) then
        match r_data answer with
        | RData_Cname canonical =>
            if is_root canonical then inl root_target
            else if bool_decide (canonical ∈ accepted) then next_target accepted rest
            else inr (Some (canonical, r_ttl answer))
        | _ => next_target accepted rest
        end
      else next_target accepted rest
  end.

Record chain := mkChain {
  accepted_names : gset Name; canonical_target : option Name; chain_ttl : Z; chain_hops : Z
}.

(** The CNAME [loop]. Each turn takes one hop, so one more turn than there are
    hops left is enough ([follow_chain_spec]). *)
Fixpoint follow_chain (fuel : nat) (remaining : Z) (answers : list DnsRecord) (c : chain)
  : outcome ResolveFailure chain :=
  match fuel with
  | O => Diverge
  | S fuel' =>
      match next_target (accepted_names c) answers with
      | inl failure => Err failure
      | inr None => Ok c
      | inr (Some (target, target_ttl)) =>
          if remaining <=? chain_hops c then Err hop_limit
          else
            follow_chain fuel' remaining answers
              (mkChain ({[ target ]} ∪ accepted_names c) (Some target)
                 (Z.min (chain_ttl c) target_ttl) (saturating_add u8_max (chain_hops c) 1))
      end
  end.

(** The address of a record of the type asked for. *)
Definition address_of (t : RecordType) (d : RData) : option IpAddr :=
  match t, d with
  | A, RData_A a b c d => Some (V4 a b c d)
  | AAAA, RData_Aaaa octets => Some (V6 octets)
  | _, _ => None
  end.

Fixpoint collect (t : RecordType) (accepted : gset Name) (answers : list DnsRecord)
    (addresses : list IpAddr) (ttl : Z) : list IpAddr * Z :=
  match answers with
  | [] => (addresses, ttl)
  | answer :: rest =>
      if bool_decide (r_name answer ∈ accepted) then
        match address_of t (r_data answer) with
        | Some a => collect t accepted rest (addresses ++ [a]) (Z.min ttl (r_ttl answer))
        | None => collect t accepted rest addresses ttl
        end
      else collect t accepted rest addresses ttl
  end.

Definition read_answers (m : Response) (expected_name : Name) (expected_type : RecordType)
    (remaining : Z) (negative_ttl : option Z) : outcome Empty_set parsed :=
  match follow_chain (S (Z.to_nat remaining)) remaining (answers m) (mkChain {[ expected_name ]} None u32_max 0) with
  | Err failure => Ok (inl failure)
  | Panic => Panic
  | Diverge => Diverge
  | Ok c =>
      let '(addresses, ttl) := collect expected_type (accepted_names c) (answers m) [] (chain_ttl c) in
      Ok (inr (match addresses with
               | [] => match canonical_target c with
                       | Some canonical => PA_Canonical canonical (chain_hops c)
                       | None => PA_NoRecords negative_ttl
                       end
               | _ => PA_Answer (mkAnswer addresses (from_secs ttl))
               end))
  end.

Definition malformed : ResolveFailure :=
  failure_classified DnsFailure.Malformed "the DNS server returned a malformed message".
Definition nxdomain : ResolveFailure := failure_new "the DNS server returned NXDomain".

Definition rcode_class (code : Z) : DnsFailure.t :=
  if code =? 2 then DnsFailure.ServerFailure
  else if code =? 5 then DnsFailure.Refused
  else if code =? 1 then DnsFailure.Malformed
  else DnsFailure.Unknown.

Definition asks (m : Response) (expected_name : Name) (expected_type : RecordType) : bool :=
  match questions m with
  | [q] => bool_decide (q_name q = expected_name) && (q_record_type q =? RecordType_code expected_type)
  | _ => false
  end.

Definition parse_answer `{Target} (bytes : list Z) (expected_id : Z) (expected_name : Name)
    (expected_type : RecordType) (remaining_cname_hops : Z) : outcome Empty_set (option parsed) :=
  match parse_response bytes with
  | Err _ => Ok (Some (inl malformed))
  | Panic => Panic
  | Diverge => Diverge
  | Ok message =>
      if negb (id message =? expected_id) || negb (is_response message) then Ok None
      else if negb (asks message expected_name expected_type) then Ok None
      else if truncated message then Ok (Some (inr PA_Truncated))
      else
        let negative_ttl := find_map soa_ttl (authorities message) in
        if rcode message =? 3 then Ok (Some (inr (PA_Negative nxdomain negative_ttl)))
        else if negb (rcode message =? 0) then
          Ok (Some (inl (failure_classified (rcode_class (rcode message))
                           ("the DNS server returned " +:+ dns_response_code_debug (rcode message)))))
        else
          result ← read_answers message expected_name expected_type remaining_cname_hops negative_ttl;
          mret (Some result)
  end.

End Answer.
