(* ===== verification/DnsAnswerProofs.v ===== *)
(** * Correctness of reading an answer

    [reaches]: the names a question stands for, following the aliases of the
    message. [parse_answer] returns the addresses of exactly those names, or
    says which of the ways of not having any it is. *)

From stdpp Require Import base list strings gmap.
From Stdlib Require Import ZArith Lia.
From S2P Require Import Prelude Errors DnsWire DnsWireProofs DnsCache DnsAnswer.

Import Wire Answer.

Inductive reaches (ans : list DnsRecord) (asked : Name) : Name → Prop :=
| reaches_asked : reaches ans asked asked
| reaches_alias r t :
    r ∈ ans → reaches ans asked (r_name r) → r_data r = RData_Cname t → reaches ans asked t.
#[export] Hint Constructors reaches : core.

(** [record] is an alias of an accepted name, for [t]. *)
Definition alias (ans : list DnsRecord) (S : gset Name) (t : Name) (r : DnsRecord) : Prop :=
  r ∈ ans ∧ r_name r ∈ S ∧ r_data r = RData_Cname t.
Definition closed (ans : list DnsRecord) (S : gset Name) : Prop := ∀ t r, alias ans S t r → t ∈ S ∧ is_root t = false.

Lemma is_root_eq n : is_root n = true → n = root.
Proof. destruct n as [ls]. unfold is_root, root. cbn. intros ->%bool_decide_eq_true. done. Qed.

Lemma alias_cons a ans S t r : alias ans S t r → alias (a :: ans) S t r.
Proof. intros (? & ? & ?). split; [by right|done]. Qed.

(** What one pass over the answer section finds. *)
Lemma next_target_spec S ans :
  match next_target S ans with
  | inl f => f = root_target ∧ ∃ r, alias ans S root r
  | inr None => closed ans S
  | inr (Some (t, ttl)) => t ∉ S ∧ is_root t = false ∧ ∃ r, alias ans S t r ∧ r_ttl r = ttl
  end.
Proof.
  induction ans as [|a ans IH]; cbn [next_target]; [by intros t r (?%elem_of_nil & _)|].
  assert (Hskip : (∀ t, ¬ alias [a] S t a ∨ t ∈ S ∧ is_root t = false) →
    match next_target S ans with
    | inl f => f = root_target ∧ ∃ r, alias (a :: ans) S root r
    | inr None => closed (a :: ans) S
    | inr (Some (t, ttl)) => t ∉ S ∧ is_root t = false ∧ ∃ r, alias (a :: ans) S t r ∧ r_ttl r = ttl
    end).
  { intros Hno. destruct (next_target S ans) as [f|[[t ttl]|]].
    - destruct IH as [-> (r & Hr)]. eauto using alias_cons.
    - destruct IH as (? & ? & r & ? & ?). eauto 8 using alias_cons.
    - intros t r (Hr%elem_of_cons & Hn & Hd). destruct Hr as [->|Hr].
      + destruct (Hno t) as [Hna|?]; [|done]. destruct Hna. split; [by left|done].
      + by apply (IH t r). }
  case_bool_decide as Hin; [|apply Hskip; left; by intros (_ & ? & _)].
  destruct (r_data a) as [| |t| | |] eqn:Hd; try (apply Hskip; left; intros (_ & _ & ?); congruence).
  destruct (is_root t) eqn:Hroot.
  { apply is_root_eq in Hroot as ->. split; [done|]. exists a. split; [by left|done]. }
  case_bool_decide as Ht.
  - apply Hskip. intros t'. destruct (decide (t = t')) as [->|]; [by right|left; intros (_ & _ & ?); congruence].
  - split; [done|]. split; [done|]. exists a. split; [|done]. split; [by left|done].
Qed.

Section chain.
Context (ans : list DnsRecord) (asked : Name) (remaining : Z).
Context (Hrem : 0 ≤ remaining ≤ u8_max).

(** The state of the loop after some hops. *)
Record chain_ok (c : chain) : Prop := {
  co_asked : asked ∈ accepted_names c;
  co_reached : ∀ n, n ∈ accepted_names c → reaches ans asked n;
  co_size : Z.of_nat (size (accepted_names c)) = chain_hops c + 1;
  co_hops : 0 ≤ chain_hops c ≤ remaining;
  co_target : match canonical_target c with
              | Some t => t ∈ accepted_names c ∧ t ≠ asked ∧ 0 < chain_hops c
              | None => chain_hops c = 0
              end;
  co_ttl : chain_ttl c = u32_max ∨ ∃ r, r ∈ ans ∧ reaches ans asked (r_name r) ∧ chain_ttl c = r_ttl r;
  co_alias : ∀ n, n ∈ accepted_names c → n ≠ asked →
    ∃ r, alias ans (accepted_names c) n r ∧ chain_ttl c ≤ r_ttl r
}.

Lemma chain_ok_init : chain_ok (mkChain {[ asked ]} None u32_max 0).
Proof.
  split; cbn.
  - by apply elem_of_singleton.
  - intros n ->%elem_of_singleton. constructor.
  - by rewrite size_singleton.
  - lia.
  - done.
  - by left.
  - by intros n ->%elem_of_singleton.
Qed.

Lemma chain_ok_reached c t r : chain_ok c → alias ans (accepted_names c) t r → reaches ans asked t.
Proof. intros H (Hr & Hn & Hd). by eapply reaches_alias; [|apply (co_reached _ H)|]. Qed.

Lemma chain_ok_step c t r :
  chain_ok c → t ∉ accepted_names c → alias ans (accepted_names c) t r → chain_hops c < remaining →
  chain_ok (mkChain ({[ t ]} ∪ accepted_names c) (Some t) (Z.min (chain_ttl c) (r_ttl r))
              (saturating_add u8_max (chain_hops c) 1)).
Proof.
  intros Hok Ht Hal Hlt. pose proof (co_hops _ Hok). pose proof (chain_ok_reached _ _ _ Hok Hal) as Hreach.
  assert (Hh : saturating_add u8_max (chain_hops c) 1 = chain_hops c + 1) by (unfold saturating_add; lia).
  destruct Hal as (Hr & Hn & Hd).
  split; cbn [accepted_names canonical_target chain_ttl chain_hops]; rewrite ?Hh.
  - apply elem_of_union_r, co_asked, Hok.
  - intros n [->%elem_of_singleton|Hin]%elem_of_union; [done|]. by apply (co_reached _ Hok).
  - rewrite size_union, size_singleton by set_solver. pose proof (co_size _ Hok). lia.
  - lia.
  - split_and!; [set_solver| |lia]. intros ->. by apply Ht, co_asked.
  - destruct (Z.min_spec (chain_ttl c) (r_ttl r)) as [[? ->]|[? ->]]; [apply (co_ttl _ Hok)|].
    right. exists r. split_and!; [done| |done]. by apply (co_reached _ Hok).
  - intros n [->%elem_of_singleton|Hin]%elem_of_union Hne.
    + exists r. split; [|lia]. split_and!; [done|by apply elem_of_union_r|done].
    + destruct (co_alias _ Hok n Hin Hne) as (r' & (? & ? & ?) & ?). exists r'.
      split; [split_and!; [done|by apply elem_of_union_r|done]|lia].
Qed.

(** The question's aliases lead to the root name or to more names than there
    are hops left. *)
Definition chain_refused : Prop :=
  reaches ans asked root ∨
  ∃ S : gset Name, (∀ n, n ∈ S → reaches ans asked n) ∧ remaining + 1 < Z.of_nat (size S).

Lemma follow_chain_spec fuel c :
  chain_ok c → remaining - chain_hops c < Z.of_nat fuel →
  owp (follow_chain fuel remaining ans c)
    (λ c', chain_ok c' ∧ closed ans (accepted_names c'))
    (λ f, f_class f = DnsFailure.Protocol ∧ chain_refused).
Proof.
  revert c. induction fuel as [|fuel IH]; intros c Hok Hf; [pose proof (co_hops _ Hok); lia|].
  cbn [follow_chain]. pose proof (next_target_spec (accepted_names c) ans) as Hnext.
  destruct (next_target _ _) as [f|[[t ttl]|]]; cbn.
  - destruct Hnext as [-> (r & Hr)]. split; [done|]. left. by eapply chain_ok_reached.
  - destruct Hnext as (Ht & Hroot & r & Hal & <-). destruct (Z.leb_spec remaining (chain_hops c)); cbn.
    + split; [done|]. right. exists ({[ t ]} ∪ accepted_names c). split.
      * intros n [->%elem_of_singleton|Hin]%elem_of_union; [by eapply chain_ok_reached|by apply (co_reached _ Hok)].
      * rewrite size_union, size_singleton by set_solver. pose proof (co_size _ Hok). lia.
    + pose proof (co_hops _ Hok). apply IH; [by apply chain_ok_step|]. cbn. unfold saturating_add, u8_max in *. lia.
  - by split.
Qed.
End chain.

Lemma closed_complete ans asked S n :
  asked ∈ S → closed ans S → reaches ans asked n → n ∈ S.
Proof. intros Ha Hc. induction 1 as [|r t Hr _ IH Hd]; [done|]. by apply (Hc t r). Qed.

Lemma closed_no_root ans asked S :
  is_root asked = false → asked ∈ S → closed ans S → ¬ reaches ans asked root.
Proof.
  intros Hroot Ha Hc Hr. inversion Hr as [Heq|r t Hin Hn Hd]; subst; [done|].
  apply (closed_complete _ _ S) in Hn; [|done..]. by destruct (Hc root r).
Qed.

(** ** Collecting addresses *)

Definition address_at (t : RecordType) (S : gset Name) (r : DnsRecord) : option IpAddr :=
  if bool_decide (r_name r ∈ S) then address_of t (r_data r) else None.

Lemma collect_spec t S ans : ∀ acc ttl0 addrs ttl1,
  collect t S ans acc ttl0 = (addrs, ttl1) →
  addrs = acc ++ omap (address_at t S) ans ∧ ttl1 ≤ ttl0 ∧
  (∀ r, r ∈ ans → is_Some (address_at t S r) → ttl1 ≤ r_ttl r) ∧
  (ttl1 = ttl0 ∨ ∃ r, r ∈ ans ∧ is_Some (address_at t S r) ∧ ttl1 = r_ttl r).
Proof.
  induction ans as [|a ans IH]; intros acc ttl0 addrs ttl1 Hc; cbn [collect] in Hc.
  - simplify_eq. rewrite app_nil_r. split_and!; [done|lia|by intros r ?%elem_of_nil|by left].
  - assert (Hskip : address_at t S a = None → collect t S ans acc ttl0 = (addrs, ttl1) →
      addrs = acc ++ omap (address_at t S) (a :: ans) ∧ ttl1 ≤ ttl0 ∧
      (∀ r, r ∈ a :: ans → is_Some (address_at t S r) → ttl1 ≤ r_ttl r) ∧
      (ttl1 = ttl0 ∨ ∃ r, r ∈ a :: ans ∧ is_Some (address_at t S r) ∧ ttl1 = r_ttl r)).
    { intros Hno Hc'. destruct (IH _ _ _ _ Hc') as (-> & ? & Hall & Hex). cbn. rewrite Hno.
      split_and!; [done|done| |].
      - intros r [->|?]%elem_of_cons Hs; [rewrite Hno in Hs; by destruct Hs|by apply Hall].
      - destruct Hex as [?|(r & ? & ? & ?)]; [by left|right; exists r; split; [by right|done]]. }
    unfold address_at in Hskip at 1. case_bool_decide as Hin; [|by apply Hskip].
    destruct (address_of t (r_data a)) as [x|] eqn:Hx; [|by apply Hskip].
    destruct (IH _ _ _ _ Hc) as (-> & ? & Hall & Hex). cbn.
    assert (Ha : address_at t S a = Some x) by (unfold address_at; by rewrite bool_decide_eq_true_2).
    rewrite Ha, <-app_assoc. split_and!; [done|lia| |].
    + intros r [->|?]%elem_of_cons Hs; [lia|by apply Hall].
    + destruct Hex as [->|(r & ? & ? & ?)]; [|right; exists r; split; [by right|done]].
      destruct (Z.min_spec ttl0 (r_ttl a)) as [[? ->]|[? ->]]; [by left|].
      right. exists a. split_and!; [by left|by eexists|done].
Qed.

(** ** The specification of an answer *)

Section spec.
Context (m : Response) (asked : Name) (t : RecordType) (remaining : Z).

Definition first_soa : option Z := find_map soa_ttl (authorities m).

(** [S] is the set of names the question stands for, within the hop limit. *)
Definition aliases_are (S : gset Name) : Prop :=
  (∀ n, n ∈ S ↔ reaches (answers m) asked n) ∧ Z.of_nat (size S) ≤ remaining + 1.

(** How long an answer may be kept: the least TTL among the address records
    it was read from and, for each alias, one record that gave it. *)
Definition ttl_of (S : gset Name) (secs : Z) : Prop :=
  (∀ r, r ∈ answers m → is_Some (address_at t S r) → secs ≤ r_ttl r) ∧
  (∀ n, n ∈ S → n ≠ asked → ∃ r, alias (answers m) S n r ∧ secs ≤ r_ttl r) ∧
  (∃ r, r ∈ answers m ∧ r_name r ∈ S ∧ secs = r_ttl r).

Definition describes (p : parsed) : Prop :=
  match p with
  | inr PA_Truncated => truncated m = true
  | inr (PA_Negative f soa) => truncated m = false ∧ rcode m = 3 ∧ f = nxdomain ∧ soa = first_soa
  | inl f =>
      truncated m = false ∧
      ((rcode m ≠ 0 ∧ rcode m ≠ 3 ∧ f_class f = rcode_class (rcode m)) ∨
       (rcode m = 0 ∧ f_class f = DnsFailure.Protocol ∧ chain_refused (answers m) asked remaining))
  | inr (PA_Answer a) =>
      truncated m = false ∧ rcode m = 0 ∧
      ∃ S secs, aliases_are S ∧ addresses a = omap (address_at t S) (answers m) ∧ addresses a ≠ [] ∧
                ttl a = from_secs secs ∧ ttl_of S secs
  | inr (PA_Canonical target hops) =>
      truncated m = false ∧ rcode m = 0 ∧ reaches (answers m) asked target ∧ target ≠ asked ∧
      ∃ S, aliases_are S ∧ omap (address_at t S) (answers m) = [] ∧ Z.of_nat (size S) = hops + 1 ∧
           0 < hops ≤ remaining
  | inr (PA_NoRecords soa) =>
      truncated m = false ∧ rcode m = 0 ∧ soa = first_soa ∧
      (∀ n, reaches (answers m) asked n → n = asked) ∧
      omap (address_at t {[ asked ]}) (answers m) = []
  end.
End spec.

Lemma singleton_of_size (S : gset Name) n : n ∈ S → size S = 1%nat → S = {[ n ]}.
Proof. intros Hn Hs. apply size_1_elem_of in Hs as [x Hx]. set_solver. Qed.

Lemma read_answers_spec m asked t remaining :
  0 ≤ remaining ≤ u8_max → Forall wf_record (answers m) → truncated m = false → rcode m = 0 →
  owp (read_answers m asked t remaining (first_soa m)) (describes m asked t remaining) (λ _, False).
Proof.
  intros Hrem Hwf Htr Hrc. unfold read_answers.
  pose proof (follow_chain_spec (answers m) asked remaining Hrem (S (Z.to_nat remaining))
                _ (chain_ok_init _ _ _ Hrem) ltac:(cbn; lia)) as Hchain.
  destruct (follow_chain _ _ _ _) as [c|f| |]; cbn in Hchain; try done.
  2: { destruct Hchain as [Hcl Hr]. cbn. auto. }
  destruct Hchain as [Hok Hclosed].
  assert (Hal : aliases_are m asked remaining (accepted_names c)).
  { split; [intros n; split|].
    - apply (co_reached _ _ _ _ Hok).
    - apply closed_complete; [apply (co_asked _ _ _ _ Hok)|done].
    - pose proof (co_size _ _ _ _ Hok). pose proof (co_hops _ _ _ _ Hok). lia. }
  destruct (collect t _ _ [] _) as [addrs secs] eqn:Hc.
  destruct (collect_spec _ _ _ _ _ _ _ Hc) as (-> & Hle & Hall & Hex). cbn [app] in *.
  destruct (omap (address_at t (accepted_names c)) (answers m)) as [|x xs] eqn:Ho; cbn.
  - pose proof (co_target _ _ _ _ Hok) as Ht. pose proof (co_hops _ _ _ _ Hok).
    pose proof (co_size _ _ _ _ Hok) as Hs. destruct (canonical_target c) as [tg|]; cbn.
    + destruct Ht as (Hin & Hne & ?). split_and!; try done; [by apply (co_reached _ _ _ _ Hok)|].
      exists (accepted_names c). split_and!; try done; lia.
    + assert (accepted_names c = {[ asked ]}) as Heq
        by (apply singleton_of_size; [apply (co_asked _ _ _ _ Hok)|lia]).
      rewrite Heq in Ho, Hal. split_and!; try done. intros n Hn%Hal. set_solver.
  - split_and!; try done. exists (accepted_names c), secs. split_and!; try done. split_and!; [done| |].
    + intros n Hn Hne. destruct (co_alias _ _ _ _ Hok n Hn Hne) as (r & Hr & ?). exists r. split; [done|lia].
    + assert (Hx : x ∈ omap (address_at t (accepted_names c)) (answers m)) by (rewrite Ho; left).
      apply list_elem_of_omap in Hx as (r & Hr & Hrx).
      assert (∀ r, is_Some (address_at t (accepted_names c) r) → r_name r ∈ accepted_names c) as Hin.
      { intros r' [y Hy]. unfold address_at in Hy. by case_bool_decide. }
      destruct Hex as [Heq|(r' & ? & ? & ?)]; [|exists r'; by split_and!; auto].
      destruct (co_ttl _ _ _ _ Hok) as [Hmax|(r' & ? & Hr' & ?)]; [|exists r'].
      * exists r. pose proof (Hall r Hr ltac:(by eexists)).
        apply (Forall_elem _ _ r) in Hwf as (_ & _ & _ & Httl & _); [|done].
        split_and!; [done|apply Hin; by eexists|lia].
      * split_and!; [done|by apply Hal|lia].
Qed.

(** The message answers the question. *)
Definition answers_question (m : Response) (expected_id : Z) (asked : Name) (t : RecordType) : Prop :=
  id m = expected_id ∧ is_response m = true ∧
  ∃ class, questions m = [mkQuestion asked (RecordType_code t) class].

Lemma asks_spec m asked t :
  asks m asked t = true ↔ ∃ class, questions m = [mkQuestion asked (RecordType_code t) class].
Proof.
  unfold asks. destruct (questions m) as [|[n ty cl] [|]]; cbn; split; try (intros (? & ?); congruence); try done.
  - intros [Hn%bool_decide_eq_true Ht%Z.eqb_eq]%andb_prop. exists cl. congruence.
  - intros (? & ?). simplify_eq. by rewrite bool_decide_eq_true_2, Z.eqb_refl.
Qed.

Lemma parse_answer_meaning `{Target} bytes expected_id asked t remaining :
  Forall is_byte bytes → 0 ≤ remaining ≤ u8_max →
  owp (parse_answer bytes expected_id asked t remaining)
    (λ res, match res with
            | None => ∃ m, parse_response bytes = Ok m ∧ ¬ answers_question m expected_id asked t
            | Some p =>
                (p = inl malformed ∧ ∃ e, parse_response bytes = Err e) ∨
                ∃ m, parse_response bytes = Ok m ∧ answers_question m expected_id asked t ∧
                     describes m asked t remaining p
            end) (λ _, False).
Proof.
  intros Hb Hrem. unfold parse_answer. pose proof (parse_response_wf bytes Hb) as Hwf.
  destruct (parse_response bytes) as [m|e| |]; cbn in Hwf; try done; [|cbn; eauto].
  destruct Hwf as (_ & _ & _ & Hans & _).
  zcase.
  { exists m. split; [done|]. intros (Hid & Hr & _).
    apply orb_prop in Heqb as [Hi|Hi]; [|by rewrite Hr in Hi]. by rewrite Hid, Z.eqb_refl in Hi. }
  apply orb_false_iff in Heqb as [Hid%negb_false_iff%Z.eqb_eq Hresp%negb_false_iff].
  zcase; [|exists m; split; [done|]; intros (_ & _ & Ha%asks_spec); congruence].
  apply asks_spec in Heqb. assert (Hq : answers_question m expected_id asked t) by done.
  zcase; [cbn; eauto 10|]. zcase.
  { right. exists m. cbn. split_and!; auto. }
  zcase; [|cbn; right; exists m; split_and!; auto; cbn; auto].
  wp_go. eapply owp_mono; [by apply read_answers_spec|cbn beta; intros p Hp|done].
  wp_go. right. eauto.
Qed.

(** C25: reading a datagram never panics or loops, and its verdict is exact. A
    message that does not answer the question (another identifier, not a
    response, another name or type) is ignored, and an unreadable one is
    malformed; of one that does, the verdict [describes] the message: the
    addresses are those of the names the question reaches through the message's
    aliases, in the order of the answer section, with the least TTL on the way;
    an alias without addresses is to be asked again; too many hops, an alias
    to the root, truncation, NXDOMAIN and the other response codes are told
    apart. *)
Theorem parse_answer_sound `{Target} bytes expected_id asked t remaining :
  Forall is_byte bytes → 0 ≤ remaining ≤ u8_max →
  owp (parse_answer bytes expected_id asked t remaining)
    (λ res, match res with
            | None => ∃ m, parse_response bytes = Ok m ∧ ¬ answers_question m expected_id asked t
            | Some p =>
                (p = inl malformed ∧ ∃ e, parse_response bytes = Err e) ∨
                ∃ m, parse_response bytes = Ok m ∧ answers_question m expected_id asked t ∧
                     describes m asked t remaining p
            end) (λ _, False).
Proof. apply parse_answer_meaning. Qed.

(** An alias [a.example] for [b.example] and the address of the latter. *)
Definition aliased_answer : list Z :=
  [18; 52; 129; 128; 0; 1; 0; 2; 0; 0; 0; 0] ++
  [1; 97; 7; 101; 120; 97; 109; 112; 108; 101; 0; 0; 1; 0; 1] ++
  [192; 12; 0; 5; 0; 1; 0; 0; 0; 60; 0; 4; 1; 98; 192; 14] ++
  [192; 39; 0; 1; 0; 1; 0; 0; 0; 30; 0; 4; 192; 0; 2; 1].

Example aliased_answer_read :
  @parse_answer target64 aliased_answer 4660 (mkName [bs "a"; bs "example"]) A 8 =
  Ok (Some (inr (PA_Answer (mkAnswer [V4 192 0 2 1] (from_secs 30))))).
Proof. vm_compute. reflexivity. Qed.

Lemma parse_answer_sound_witness :
  let a := mkName [bs "a"; bs "example"] in
  ∃ m, @parse_response target64 aliased_answer = Ok m ∧ answers_question m 4660 a A ∧
       describes m a A 8 (inr (PA_Answer (mkAnswer [V4 192 0 2 1] (from_secs 30)))).
Proof.
  cbv zeta. pose proof (@parse_answer_sound target64 aliased_answer 4660 (mkName [bs "a"; bs "example"]) A 8) as H.
  rewrite aliased_answer_read in H.
  destruct H as [[H _]|H]; [repeat (constructor; [split; [discriminate|reflexivity]|]); constructor|split; discriminate|discriminate H|exact H].
Defined.
