(* ===== verification/DnsSession.v ===== *)
(** * A public lookup in progress ([src/backend/native_dns.rs])

    [PublicSession]: the candidates of a search, what each address family gave
    for the current one, and how the two are combined into what the caller
    gets and into what HTTP may reuse. *)

From stdpp Require Import base list strings gmap.
From Stdlib Require Import ZArith Lia.
From S2P Require Import Prelude Errors DnsWire DnsCache DnsConfig DnsAnswer.

Module Session.
Import Wire Cache.

Record RetryPolicy := mkRetry { attempt_limit : Z; attempt_timeout : Z }.

Record FamilyOutcome := mkOutcome {
  status : ResolveStatus.t; outcome_addresses : list IpAddr; valid_until : option Z
}.

(** [negative_validity]: [None] until a negative candidate is recorded,
    [Some None] if one of them has no cache validity. *)
Record PublicSession := mkSession {
  session_identity : list Z;
  candidate : list Z;
  candidates : list (list Z);
  candidate_index : Z;
  family : AddressFamily.t;
  order : AddressOrder.t;
  cache_mode : CacheMode.t;
  max_results : Z;
  ipv4 : option FamilyOutcome;
  ipv6 : option FamilyOutcome;
  from_cache : bool;
  saw_nodata : bool;
  negative_validity : option (option Z);
  retry : RetryPolicy
}.

Definition set_families (v4 v6 : option FamilyOutcome) (s : PublicSession) : PublicSession :=
  mkSession (session_identity s) (candidate s) (candidates s) (candidate_index s) (family s) (order s) (cache_mode s)
    (max_results s) v4 v6 (from_cache s) (saw_nodata s) (negative_validity s) (retry s).
Definition set_from_cache (b : bool) (s : PublicSession) : PublicSession :=
  mkSession (session_identity s) (candidate s) (candidates s) (candidate_index s) (family s) (order s) (cache_mode s)
    (max_results s) (ipv4 s) (ipv6 s) b (saw_nodata s) (negative_validity s) (retry s).
Definition set_candidate (c : list Z) (i : Z) (s : PublicSession) : PublicSession :=
  mkSession (session_identity s) c (candidates s) i (family s) (order s) (cache_mode s)
    (max_results s) (ipv4 s) (ipv6 s) (from_cache s) (saw_nodata s) (negative_validity s) (retry s).
Definition set_negative (nodata : bool) (v : option (option Z)) (s : PublicSession) : PublicSession :=
  mkSession (session_identity s) (candidate s) (candidates s) (candidate_index s) (family s) (order s) (cache_mode s)
    (max_results s) (ipv4 s) (ipv6 s) (from_cache s) nodata v (retry s).

Inductive PublicLookupOutcome :=
| Completed (name : list Z) (status : ResolveStatus.t) (addresses : list IpAddr) (valid_until : option Z)
    (from_cache : bool) (candidate_name : option (list Z))
| Failed (error : Error).

Record PublicResolveSpec := mkSpec {
  sp_host : list Z; sp_family : AddressFamily.t; sp_order : AddressOrder.t; sp_cache_mode : CacheMode.t;
  sp_max_results : Z; expand_search : bool; unavailable_is_unsupported : bool
}.

(** ** Candidates *)

Fixpoint search_loop (identity : list Z) (suffixes : list (list Z)) (seen : gset (list Z)) (candidates : list (list Z))
  : list (list Z) :=
  match suffixes with
  | [] => candidates
  | suffix :: rest =>
      match Config.normalize_dns_name (identity ++ [46] ++ suffix) with
      | Ok parsed =>
          let c := Config.identity parsed in
          if bool_decide (c ∈ seen) then search_loop identity rest seen candidates
          else search_loop identity rest ({[ c ]} ∪ seen) (candidates ++ [c])
      | _ => search_loop identity rest seen candidates
      end
  end.

Definition public_search_candidates (identity : list Z) (expand_search : bool) (suffixes : list (list Z))
  : list (list Z) :=
  if negb expand_search then [identity]
  else
    let dotted := contains 46 identity in
    match search_loop identity suffixes {[ identity ]} (if dotted then [identity] else []) with
    | [] => [identity]
    | candidates => candidates
    end.

(** ** Families *)

Definition cached_family_outcome (record : CachedFamily.t) (expires : Z) : FamilyOutcome :=
  match record with
  | CachedFamily.Answer addresses => mkOutcome ResolveStatus.Answer addresses (Some expires)
  | CachedFamily.NameNotFound => mkOutcome ResolveStatus.NameNotFound [] (Some expires)
  | CachedFamily.NoData => mkOutcome ResolveStatus.NoData [] (Some expires)
  end.

Definition is_none {T} (o : option T) : bool := match o with None => true | Some _ => false end.

Definition session_needs (s : PublicSession) : option RecordType :=
  match family s with
  | AddressFamily.Ipv4 => if is_none (ipv4 s) then Some A else None
  | AddressFamily.Ipv6 => if is_none (ipv6 s) then Some AAAA else None
  | AddressFamily.Both =>
      if is_none (ipv4 s) then Some A else if is_none (ipv6 s) then Some AAAA else None
  end.

Definition has_status (st : ResolveStatus.t) (o : option FamilyOutcome) : bool :=
  match o with Some f => bool_decide (status f = st) | None => false end.

Definition answered_addresses (o : option FamilyOutcome) : list IpAddr :=
  match o with
  | Some f => if bool_decide (status f = ResolveStatus.Answer) then outcome_addresses f else []
  | None => []
  end.

Definition min_valid_until (v4 v6 : option FamilyOutcome) : option Z :=
  match v4 ≫= valid_until, v6 ≫= valid_until with
  | Some l, Some r => Some (Z.min l r)
  | Some l, None => if is_none v6 then Some l else None
  | None, Some r => if is_none v4 then Some r else None
  | None, None => None
  end.

Definition truncate (n : Z) (l : list IpAddr) : list IpAddr := take (Z.to_nat n) l.

Definition response : Type := ResolveStatus.t * list IpAddr * option Z.

Definition family_response (o : option FamilyOutcome) : response :=
  match o with
  | Some f => (status f, outcome_addresses f, valid_until f)
  | None => (ResolveStatus.NoData, [], None)
  end.

Definition combine_both (s : PublicSession) : response :=
  let v4 := ipv4 s in
  let v6 := ipv6 s in
  if has_status ResolveStatus.NameNotFound v4 || has_status ResolveStatus.NameNotFound v6
  then (ResolveStatus.NameNotFound, [], min_valid_until v4 v6)
  else
    let ipv4_addresses := answered_addresses v4 in
    let ipv6_addresses := answered_addresses v6 in
    let '(ipv4_addresses, ipv6_addresses) :=
      if max_results s <? len ipv4_addresses + len ipv6_addresses then
        let remaining := max_results s in
        match order s with
        | AddressOrder.Ipv4ThenIpv6 =>
            let ipv4_addresses := truncate remaining ipv4_addresses in
            (ipv4_addresses, truncate (saturating_sub remaining (len ipv4_addresses)) ipv6_addresses)
        | AddressOrder.Ipv6ThenIpv4 =>
            let ipv6_addresses := truncate remaining ipv6_addresses in
            (truncate (saturating_sub remaining (len ipv6_addresses)) ipv4_addresses, ipv6_addresses)
        end
      else (ipv4_addresses, ipv6_addresses) in
    match ipv4_addresses, ipv6_addresses with
    | [], [] => (ResolveStatus.NoData, [], min_valid_until v4 v6)
    | _, _ =>
        (ResolveStatus.Answer,
         match order s with
         | AddressOrder.Ipv4ThenIpv6 => ipv4_addresses ++ ipv6_addresses
         | AddressOrder.Ipv6ThenIpv4 => ipv6_addresses ++ ipv4_addresses
         end,
         min_valid_until v4 v6)
    end.

(** The [match session.family] of [complete_public_session] and of
    [after_candidate_families_complete]. *)
Definition session_response (s : PublicSession) : response :=
  match family s with
  | AddressFamily.Ipv4 => family_response (ipv4 s)
  | AddressFamily.Ipv6 => family_response (ipv6 s)
  | AddressFamily.Both => combine_both s
  end.

Definition complete_public_session (s : PublicSession) : PublicLookupOutcome :=
  let '(st, addresses, family_valid_until) := session_response s in
  let addresses := if max_results s <? len addresses then truncate (max_results s) addresses else addresses in
  if bool_decide (st = ResolveStatus.Answer)
  then Completed (session_identity s) st addresses family_valid_until (from_cache s) (Some (candidate s))
  else
    Completed (session_identity s) (if saw_nodata s then ResolveStatus.NoData else ResolveStatus.NameNotFound)
      addresses (default None (negative_validity s)) (from_cache s) None.

Definition record_search_negative (st : ResolveStatus.t) (until : option Z) (s : PublicSession) : PublicSession :=
  let nodata := if bool_decide (st = ResolveStatus.NoData) then true else saw_nodata s in
  set_negative nodata
    (Some (match negative_validity s, until with
           | None, until => until
           | Some None, _ | Some _, None => None
           | Some (Some previous), Some expires => Some (Z.min previous expires)
           end)) s.

Section with_clock.
Context {clk : Clock}.

Record PublicFamilyUpdate := mkUpdate {
  u_record_type : RecordType; u_status : ResolveStatus.t; u_addresses : list IpAddr;
  u_ttl : option Z; cacheable : bool
}.

Definition cached_of (st : ResolveStatus.t) (addresses : list IpAddr) : CachedFamily.t :=
  match st with
  | ResolveStatus.Answer => CachedFamily.Answer addresses
  | ResolveStatus.NameNotFound => CachedFamily.NameNotFound
  | ResolveStatus.NoData => CachedFamily.NoData
  end.

(** [now] is read only when the family is stored. *)
Definition record_public_family (u : PublicFamilyUpdate) (name : Name) (now : Z) (s : PublicSession) (c : DnsCache)
  : PublicSession * DnsCache :=
  let '(valid_until, c) :=
    if cacheable u && negb (bool_decide (cache_mode s = CacheMode.Bypass)) then
      match u_ttl u with
      | Some ttl =>
          let maximum := if bool_decide (u_status u = ResolveStatus.Answer)
                         then MAX_POSITIVE_CACHE_TTL else MAX_NEGATIVE_CACHE_TTL in
          insert_family name (u_record_type u) (cached_of (u_status u) (u_addresses u)) ttl maximum now c
      | None => (None, c)
      end
    else (None, c) in
  let outcome := mkOutcome (u_status u) (u_addresses u) valid_until in
  (match u_record_type u with
   | A => set_families (Some outcome) (ipv6 s) s
   | AAAA => set_families (ipv4 s) (Some outcome) s
   end, c).

(** ** What HTTP may reuse *)

Definition no_usable_records : ResolveFailure :=
  failure_new "the DNS response contained no usable A or AAAA records".

(** [valid_until.and_then(checked_duration_since(now)).filter(nonzero)]. *)
Definition time_left (valid_until : option Z) (now : Z) : option Z :=
  match valid_until ≫= (λ x, checked_duration_since x now) with
  | Some ttl => if ttl =? 0 then None else Some ttl
  | None => None
  end.

Definition publish_http_family (name : Name) (o : FamilyOutcome) (now : Z) (c : DnsCache) : DnsCache :=
  match status o with
  | ResolveStatus.NoData => remove_http name c
  | ResolveStatus.Answer =>
      match time_left (valid_until o) now with
      | None => remove_http name c
      | Some ttl => insert name (inr (mkAnswer (outcome_addresses o) ttl)) ttl MAX_POSITIVE_CACHE_TTL now c
      end
  | ResolveStatus.NameNotFound =>
      match time_left (valid_until o) now with
      | None => remove_http name c
      | Some ttl => insert name (inl Answer.nxdomain) ttl MAX_NEGATIVE_CACHE_TTL now c
      end
  end.

Definition publish_http_view (name : Name) (s : PublicSession) (now : Z) (c : DnsCache) : DnsCache :=
  match family s with
  | AddressFamily.Ipv6 => c
  | AddressFamily.Ipv4 =>
      match ipv4 s with
      | Some o => publish_http_family name o now c
      | None => remove_http name c
      end
  | AddressFamily.Both =>
      let '(st, addresses, valid_until) := combine_both s in
      match time_left valid_until now with
      | None => remove_http name c
      | Some ttl =>
          match st with
          | ResolveStatus.Answer =>
              let http_addresses :=
                match ipv4 s with
                | Some o => if bool_decide (status o = ResolveStatus.Answer) then outcome_addresses o else addresses
                | None => addresses
                end in
              insert name (inr (mkAnswer http_addresses ttl)) ttl MAX_POSITIVE_CACHE_TTL now c
          | ResolveStatus.NameNotFound => insert name (inl Answer.nxdomain) ttl MAX_NEGATIVE_CACHE_TTL now c
          | ResolveStatus.NoData => insert name (inl no_usable_records) ttl MAX_NEGATIVE_CACHE_TTL now c
          end
      end
  end.
End with_clock.

End Session.
