(* ===== verification/DnsConfigProofs.v ===== *)
(** * DNS names and search lists

    What [normalize_dns_name] accepts it accepts again unchanged and the wire
    codec can ask for; search suffixes and candidates are few, distinct and of
    that kind; a discovery ends with usable nameservers. *)

From stdpp Require Import base list strings gmap sorting.
From Stdlib Require Import ZArith Lia.
From S2P Require Import Prelude Errors DnsWire DnsWireProofs DnsCache DnsConfig DnsAnswer DnsSession.

Import Config.
#[local] Arguments ascii_lowercase : simpl never.

(** ** Labels *)

Definition valid_label (l : list Z) : Prop :=
  1 ≤ len l ≤ MAX_DNS_LABEL_LEN ∧ Forall (λ b, label_byte b = true) l ∧ head l ≠ Some 45 ∧ last l ≠ Some 45.

Lemma index_head (l : list Z) x : @index Empty_set (x :: l) 0 = Ok x.
Proof. done. Qed.

Lemma index_last {E} (l : list Z) : ∀ x, last l = Some x → @index E l (len l - 1) = Ok x.
Proof.
  intros x Hx. unfold index, byte_get. destruct l as [|y l]; [done|].
  rewrite len_cons. pose proof (len_nonneg l). rewrite (proj2 (Z.ltb_ge _ _)) by lia.
  rewrite last_lookup in Hx. cbn [length pred] in Hx.
  replace (Z.to_nat (1 + len l - 1)) with (length l) by (unfold len; lia). by rewrite Hx.
Qed.

Lemma validate_dns_label_spec l :
  (validate_dns_label l = Ok tt ∧ valid_label l) ∨ (∃ e, validate_dns_label l = Err e ∧ ¬ valid_label l).
Proof.
  unfold validate_dns_label, valid_label.
  case_bool_decide as He; [right; eexists; split; [done|]; subst; rewrite len_nil; lia|].
  zcase; [right; eexists; split; [done|]; lia|].
  destruct l as [|x l]; [done|]. destruct (last (x :: l)) as [y|] eqn:Hl; [|by apply last_None in Hl].
  change (index (x :: l) 0) with (@Ok Error Z x). cbn [mbind outcome_bind].
  assert (Hlast : (if x =? 45 then Ok x else i ← usub (len (x :: l)) 1; index (x :: l) i) = @Ok Error Z (if x =? 45 then x else y)).
  { destruct (x =? 45); [done|]. unfold usub. rewrite len_cons. pose proof (len_nonneg l).
    rewrite (proj2 (Z.leb_le _ _)) by lia. cbn [mbind outcome_bind]. rewrite <-len_cons with (x := x).
    by apply index_last. }
  rewrite Hlast. cbn [mbind outcome_bind].
  destruct (Z.eqb_spec x 45); cbn [orb]; [right; eexists; split; [done|]; intros (_ & _ & Hh & _); by subst|].
  destruct (Z.eqb_spec y 45); [right; eexists; split; [done|]; intros (_ & _ & _ & Hh); by subst|].
  destruct (forallb label_byte (x :: l)) eqn:Hf; cbn [negb].
  - left. split; [done|]. rewrite len_cons in *. pose proof (len_nonneg l). split_and!; [lia|lia| |by intros [=]|congruence].
    rewrite Forall_forall. rewrite forallb_forall in Hf. intros b Hb. apply Hf. by apply list_elem_of_In.
  - right. eexists. split; [done|]. intros (_ & Hall & _). rewrite Forall_forall in Hall.
    assert (forallb label_byte (x :: l) = true); [|congruence].
    apply forallb_forall. intros b Hb. apply Hall. by apply list_elem_of_In.
Qed.

Lemma validate_ok l : valid_label l → validate_dns_label l = Ok tt.
Proof. intros Hv. by destruct (validate_dns_label_spec l) as [[? _]|(e & _ & ?)]. Qed.

(** Letter case does not matter. *)
Lemma label_byte_lower b : label_byte b = true → label_byte (to_ascii_lowercase b) = true.
Proof.
  unfold label_byte, is_ascii_alphanumeric, is_ascii_alphabetic, to_ascii_lowercase, is_ascii_uppercase,
    is_ascii_lowercase, is_ascii_digit, in_range.
  destruct (Z.leb_spec 65 b), (Z.leb_spec b 90); cbn [andb]; lia.
Qed.

Lemma lower_hyphen b : to_ascii_lowercase b = 45 → b = 45.
Proof.
  unfold to_ascii_lowercase, is_ascii_uppercase, in_range.
  destruct (Z.leb_spec 65 b), (Z.leb_spec b 90); cbn [andb]; lia.
Qed.

Lemma valid_label_lower l : valid_label l → valid_label (ascii_lowercase l).
Proof.
  intros (Hlen & Hall & Hh & Hl). unfold valid_label, ascii_lowercase. rewrite len_map. split_and!; try lia.
  - apply Forall_map. eapply Forall_impl; [exact Hall|]. apply label_byte_lower.
  - destruct l as [|x l]; cbn; [done|]. intros [= Hx%lower_hyphen]. by subst.
  - change (map to_ascii_lowercase l) with (to_ascii_lowercase <$> l). rewrite fmap_last.
    destruct (last l) as [y|]; cbn; [|done]. intros [= Hy%lower_hyphen]. by subst.
Qed.

Lemma label_byte_ascii b : label_byte b = true → 0 ≤ b < 128 ∧ b ≠ 46.
Proof.
  unfold label_byte, is_ascii_alphanumeric, is_ascii_alphabetic, is_ascii_uppercase, is_ascii_lowercase,
    is_ascii_digit, in_range. lia.
Qed.

(** ** Names *)

Definition valid_name (w : list Z) : Prop := len w ≤ MAX_DNS_NAME_LEN ∧ Forall valid_label (split_on 46 w).

Lemma split_on_concat sep w l ls : split_on sep w = l :: ls → w = l ++ concat (map (cons sep) ls).
Proof.
  revert l ls. induction w as [|b w IH]; intros l ls; cbn [split_on]; [by intros [= <- <-]|].
  destruct (split_on sep w) as [|p ps] eqn:Hs.
  { zcase; [intros [= <- <-]|intros [= <- <-]]; by destruct w; cbn in Hs; [done|revert Hs; zcase; [done|destruct (split_on sep w)]]. }
  zcase; intros [= <- <-]; cbn; [subst; by rewrite (IH p ps)|by rewrite (IH p ps)].
Qed.

Lemma split_on_nonempty sep w : split_on sep w ≠ [].
Proof. destruct w; cbn; [done|]. zcase; [done|]. by destruct (split_on sep w). Qed.

Lemma lower_concat l ls :
  ascii_lowercase (l ++ concat (map (cons 46) ls)) =
  ascii_lowercase l ++ concat (map (λ l, 46 :: ascii_lowercase l) ls).
Proof.
  unfold ascii_lowercase. rewrite map_app. f_equal.
  induction ls as [|x ls IH]; cbn; [done|]. by rewrite map_app, IH.
Qed.

Lemma normalize_labels_spec ls : ∀ i acc, 0 < i →
  (normalize_labels i ls acc = Ok (acc ++ concat (map (λ l, 46 :: ascii_lowercase l) ls)) ∧ Forall valid_label ls) ∨
  (∃ e, normalize_labels i ls acc = Err e ∧ ¬ Forall valid_label ls).
Proof.
  induction ls as [|l ls IH]; intros i acc Hi; cbn; [left; by rewrite app_nil_r|].
  destruct (validate_dns_label_spec l) as [[-> Hv]|(e & -> & Hv)]; cbn.
  2: { right. exists e. split; [done|]. by intros [? _]%Forall_cons. }
  rewrite (proj2 (Z.ltb_lt _ _)) by done.
  destruct (IH (i + 1) ((acc ++ [46]) ++ ascii_lowercase l)) as [[-> Hall]|(e & -> & Hall)]; [lia|left|right].
  - split; [|by constructor]. by rewrite <-!app_assoc.
  - exists e. split; [done|]. by intros [_ ?]%Forall_cons.
Qed.

Lemma normalize_first w :
  (normalize_labels 0 (split_on 46 w) [] = Ok (ascii_lowercase w) ∧ Forall valid_label (split_on 46 w)) ∨
  (∃ e, normalize_labels 0 (split_on 46 w) [] = Err e ∧ ¬ Forall valid_label (split_on 46 w)).
Proof.
  destruct (split_on 46 w) as [|l ls] eqn:Hs; [by apply split_on_nonempty in Hs|].
  apply split_on_concat in Hs as ->. rewrite lower_concat. cbn.
  destruct (validate_dns_label_spec l) as [[-> Hv]|(e & -> & Hv)]; cbn.
  2: { right. exists e. split; [done|]. by intros [? _]%Forall_cons. }
  destruct (normalize_labels_spec ls (0 + 1) (ascii_lowercase l)) as [[-> Hall]|(e & -> & Hall)]; [lia|left|right].
  - split; [done|by constructor].
  - exists e. split; [done|]. by intros [_ ?]%Forall_cons.
Qed.

Lemma strip_dot_cases w :
  (strip_suffix [46] w = None ∧ ends_with [46] w = false ∧ last w ≠ Some 46) ∨
  (∃ v, w = v ++ [46] ∧ strip_suffix [46] w = Some v ∧ ends_with [46] w = true).
Proof.
  unfold strip_suffix, ends_with. cbn [length].
  destruct (decide (w = [])) as [->|Hne]; [by left|].
  destruct (exists_last Hne) as (v & x & ->). rewrite length_app, last_snoc. cbn [length].
  replace (length v + 1 - 1)%nat with (length v) by lia. rewrite drop_app_length, take_app_length.
  rewrite (proj2 (Nat.leb_le _ _)) by lia. cbn [andb]. unfold bytes_eqb.
  case_bool_decide as Hx; simplify_eq; [by right; eexists|left]. split_and!; [done|done|]. congruence.
Qed.

(** The name meant by a spelling: one trailing dot is not part of it. *)
Definition spells (raw w : list Z) : Prop := raw = w ∨ raw = w ++ [46].

Lemma normalize_spec raw :
  match normalize_dns_name raw with
  | Ok n => ∃ w, spells raw w ∧ identity n = ascii_lowercase w ∧ valid_name w ∧ is_ascii w = true
  | Err _ => True
  | Panic | Diverge => False
  end.
Proof.
  unfold normalize_dns_name. case_bool_decide; [done|]. zcase; [|done].
  assert (∃ w, match strip_suffix [46] raw with Some v => v | None => raw end = w ∧ spells raw w ∧ is_ascii w = true)
    as (w & -> & Hsp & Hasc).
  { unfold spells. destruct (strip_dot_cases raw) as [(-> & _ & _)|(v & -> & -> & _)]; eexists; split; eauto.
    split; [by right|]. unfold is_ascii in *. rewrite forallb_app in Heqb. by apply andb_prop in Heqb as [? _]. }
  case_bool_decide; [done|]. zcase; [done|].
  destruct (normalize_first w) as [[-> Hv]|(e & -> & _)]; cbn; [|done]. exists w. by split_and!.
Qed.

Lemma valid_split_last w : Forall valid_label (split_on 46 w) → last w ≠ Some 46.
Proof.
  destruct (split_on 46 w) as [|l ls] eqn:Hs; [by apply split_on_nonempty in Hs|].
  apply split_on_concat in Hs as ->. intros [Hl Hls]%Forall_cons.
  assert (Hlab : ∀ k, valid_label k → ∃ y, last k = Some y ∧ y ≠ 46).
  { intros k (Hk & Hkb & _). destruct (last k) as [y|] eqn:Hy; [|apply last_None in Hy; subst; rewrite len_nil in Hk; lia].
    exists y. split; [done|]. apply last_Some in Hy as [k' ->]. apply Forall_app in Hkb as [_ Hkb].
    apply Forall_cons in Hkb as [Hkb _]. by destruct (label_byte_ascii _ Hkb). }
  destruct ls as [|k ls _] using rev_ind; cbn.
  - rewrite app_nil_r. destruct (Hlab l Hl) as (y & -> & ?). congruence.
  - rewrite map_app, concat_app. cbn. rewrite app_nil_r. apply Forall_app in Hls as [_ [Hk _]%Forall_cons].
    destruct (Hlab k Hk) as (y & Hy & ?). rewrite !last_app, last_cons, Hy. congruence.
Qed.

Lemma valid_name_lower w : valid_name w → valid_name (ascii_lowercase w).
Proof.
  intros [Hlen Hall]. unfold valid_name, ascii_lowercase. rewrite len_map, split_on_map by apply lowercase_dot.
  split; [done|]. apply Forall_map. eapply Forall_impl; [exact Hall|]. apply valid_label_lower.
Qed.

Lemma ascii_lowercase_idemp w : ascii_lowercase (ascii_lowercase w) = ascii_lowercase w.
Proof. exact (fold_label_idemp w). Qed.

Lemma valid_name_nonempty w : valid_name w → w ≠ [].
Proof. intros [_ Hall] ->. cbn in Hall. apply Forall_cons in Hall as [(Hl & _) _]. rewrite len_nil in Hl. lia. Qed.

(** A valid name is accepted as it is. *)
Lemma normalize_valid w :
  valid_name w → is_ascii w = true → normalize_dns_name w = Ok (mkNormalized (ascii_lowercase w) false).
Proof.
  intros Hv Hasc. pose proof (valid_name_nonempty w Hv) as Hne. destruct Hv as [Hlen Hall].
  unfold normalize_dns_name. rewrite (bool_decide_eq_false_2 (w = [])) by done. rewrite Hasc. cbn [negb].
  destruct (strip_dot_cases w) as [(-> & -> & _)|(v & -> & _ & _)].
  2: { apply valid_split_last in Hall. by rewrite last_snoc in Hall. }
  rewrite (bool_decide_eq_false_2 (w = [])) by done. rewrite (proj2 (Z.ltb_ge _ _)) by done.
  destruct (normalize_first w) as [[-> _]|(e & _ & ?)]; done.
Qed.

(** ** On the wire *)

Lemma from_ascii_labels_ok `{Target} pieces : ∀ acc wire_len,
  Forall (λ l, 1 ≤ len l ≤ Wire.MAX_LABEL_LEN) pieces →
  0 ≤ wire_len → wire_len + (labels_wire_len pieces - 1) ≤ Wire.MAX_WIRE_NAME_LEN →
  Wire.from_ascii_labels pieces acc wire_len = Ok (Wire.mkName (acc ++ map Wire.fold_label pieces)).
Proof.
  induction pieces as [|l pieces IH]; intros acc wl Hp Hwl Hmax; cbn [Wire.from_ascii_labels map]; [by rewrite app_nil_r|].
  apply Forall_cons in Hp as [Hl Hp]. cbn [labels_wire_len] in Hmax. pose proof (labels_wire_len_pos pieces).
  unfold Wire.MAX_LABEL_LEN, Wire.MAX_WIRE_NAME_LEN in *.
  rewrite bool_decide_eq_false_2 by (intros ->; rewrite len_nil in Hl; lia).
  rewrite (proj2 (Z.ltb_ge _ _)) by lia. cbn [orb].
  rewrite uadd_fits by (apply packet_fits; lia). cbn [mbind outcome_bind].
  unfold checked_add. pose proof (packet_fits 300 ltac:(lia)). rewrite (proj2 (Z.leb_le _ _)) by lia. cbn [ok_or mbind outcome_bind].
  rewrite (proj2 (Z.ltb_ge _ _)) by lia. rewrite IH by (done || lia). by rewrite <-app_assoc.
Qed.

Lemma split_wire_len w : labels_wire_len (split_on 46 w) = len w + 2.
Proof.
  induction w as [|b w IH]; cbn [split_on]; [done|]. rewrite len_cons.
  zcase; [cbn [labels_wire_len]; rewrite len_nil; lia|].
  destruct (split_on 46 w) as [|p ps] eqn:Hs; [by apply split_on_nonempty in Hs|].
  cbn [labels_wire_len] in *. rewrite len_cons. lia.
Qed.

Lemma valid_not_dot : ¬ Forall valid_label (split_on 46 [46]).
Proof. cbn. intros [(Hl & _) _]%Forall_cons. rewrite len_nil in Hl. lia. Qed.

Lemma labels_wire_len_fold ls : labels_wire_len (map Wire.fold_label ls) = labels_wire_len ls.
Proof. induction ls as [|l ls IH]; cbn; [done|]. rewrite IH. unfold Wire.fold_label. by rewrite len_map. Qed.

Lemma valid_label_bytes l : valid_label l → Forall is_byte l.
Proof.
  intros (_ & Hall & _). eapply Forall_impl; [exact Hall|]. intros b Hb%label_byte_ascii. unfold is_byte. lia.
Qed.

Lemma from_ascii_valid `{Target} w :
  valid_name w → is_ascii w = true →
  ∃ n, Wire.from_ascii w = Ok n ∧ wf_name n ∧ Wire.is_root n = false ∧ Wire.labels n = map Wire.fold_label (split_on 46 w).
Proof.
  intros [Hlen Hall] Hasc. exists (Wire.mkName (map Wire.fold_label (split_on 46 w))).
  assert (Hok : Wire.from_ascii_labels (split_on 46 w) [] 1 = Ok (Wire.mkName (map Wire.fold_label (split_on 46 w)))).
  { apply (from_ascii_labels_ok _ []); [|lia|].
    - eapply Forall_impl; [exact Hall|]. by intros l (? & _).
    - rewrite split_wire_len. unfold Wire.MAX_WIRE_NAME_LEN, MAX_DNS_NAME_LEN in *. lia. }
  split; [|split_and!; [| |done]].
  - unfold Wire.from_ascii. rewrite Hasc. cbn [negb].
    assert (Hne : w ≠ []) by (by apply valid_name_nonempty).
    assert (bytes_eqb w (bs ".") = false) as ->.
    { unfold bytes_eqb. apply bool_decide_eq_false_2. intros ->. by apply valid_not_dot in Hall. }
    change (bs ".") with [46]. destruct (strip_dot_cases w) as [(-> & _ & _)|(v & -> & _)].
    2: { apply valid_split_last in Hall. by rewrite last_snoc in Hall. }
    by rewrite bool_decide_eq_false_2.
  - split.
    + apply Forall_map. eapply Forall_impl; [exact Hall|]. intros l Hl. cbn.
      apply fold_label_wf; [by destruct Hl|by apply valid_label_bytes].
    + cbn. rewrite labels_wire_len_fold, split_wire_len. unfold MAX_DNS_NAME_LEN, Wire.MAX_WIRE_NAME_LEN in *. lia.
  - unfold Wire.is_root. cbn. apply bool_decide_eq_false_2. intros Heq%map_eq_nil. by apply split_on_nonempty in Heq.
Qed.

(** A trailing dot changes nothing for the codec either. *)
Lemma from_ascii_dot `{Target} w : valid_name w → is_ascii w = true → Wire.from_ascii (w ++ [46]) = Wire.from_ascii w.
Proof.
  intros Hv Hasc. pose proof (valid_name_nonempty w Hv) as Hne. destruct Hv as [_ Hall].
  unfold Wire.from_ascii. change (bs ".") with [46].
  assert (is_ascii (w ++ [46]) = is_ascii w) as -> by (unfold is_ascii; rewrite forallb_app; cbn; apply andb_true_r).
  rewrite Hasc. cbn [negb].
  assert (∀ v, bytes_eqb (v ++ [46]) [46] = bool_decide (v = [])) as Hdot.
  { intros v. unfold bytes_eqb. apply bool_decide_ext. destruct v as [|x [|y v]]; cbn; split; congruence. }
  rewrite Hdot, bool_decide_eq_false_2 by done.
  destruct (strip_dot_cases (w ++ [46])) as [(_ & _ & Hl)|(v & Hv & -> & _)]; [by rewrite last_snoc in Hl|].
  apply app_inj_tail in Hv as [<- _].
  destruct (strip_dot_cases w) as [(-> & _ & _)|(v & -> & _)].
  2: { apply valid_split_last in Hall. by rewrite last_snoc in Hall. }
  rewrite bool_decide_eq_false_2 by done.
  assert (bytes_eqb w [46] = false) as ->; [|done].
  unfold bytes_eqb. apply bool_decide_eq_false_2. intros ->. by apply valid_not_dot in Hall.
Qed.

(** ** Search lists *)

(** What a normalized name is. *)
Definition canonical (w : list Z) : Prop := valid_name w ∧ is_ascii w = true ∧ ascii_lowercase w = w.

Lemma normalize_canonical raw n : normalize_dns_name raw = Ok n → canonical (identity n).
Proof.
  intros Hn. pose proof (normalize_spec raw) as Hs. rewrite Hn in Hs. destruct Hs as (w & _ & -> & Hv & Hasc).
  split_and!; [by apply valid_name_lower|by rewrite is_ascii_lowercased|apply ascii_lowercase_idemp].
Qed.

Lemma normalize_suffixes_spec suffixes : ∀ seen acc,
  Forall canonical acc → NoDup acc → (∀ s, s ∈ acc → s ∈ seen) → len acc < MAX_SEARCH_SUFFIXES →
  let out := normalize_suffixes_loop suffixes seen acc in
  Forall canonical out ∧ NoDup out ∧ len out ≤ MAX_SEARCH_SUFFIXES.
Proof.
  induction suffixes as [|s suffixes IH]; intros seen acc Hc Hd Hseen Hlen; cbn; [split_and!; try done; lia|].
  destruct (normalize_dns_name (trim is_whitespace s)) as [n| | |] eqn:Hn; try by apply IH.
  destruct (bool_decide _ || _) eqn:Hb; [by apply IH|].
  apply orb_false_iff in Hb as [_ Hin%bool_decide_eq_false].
  assert (Hc' : Forall canonical (acc ++ [identity n])) by (apply Forall_app; split; [done|apply Forall_singleton; by eapply normalize_canonical]).
  assert (Hd' : NoDup (acc ++ [identity n])).
  { apply NoDup_app. split_and!; [done| |by apply NoDup_singleton]. intros x Hx ->%list_elem_of_singleton. auto. }
  unfold MAX_SEARCH_SUFFIXES in *. zcase; [split_and!; try done; lia|].
  apply IH; [done|done| |rewrite len_app in *; change (len [identity n]) with 1 in *; lia].
  intros x [Hx| ->%list_elem_of_singleton]%elem_of_app; set_solver.
Qed.

Lemma normalize_search_suffixes_spec suffixes :
  let out := normalize_search_suffixes suffixes in
  Forall canonical out ∧ NoDup out ∧ len out ≤ MAX_SEARCH_SUFFIXES.
Proof.
  apply normalize_suffixes_spec; [done|apply NoDup_nil_2|by intros s ?%elem_of_nil|done].
Qed.

Lemma search_loop_spec i suffixes : ∀ seen acc,
  Forall canonical acc → NoDup acc → (∀ s, s ∈ acc → s ∈ seen) →
  let out := Session.search_loop i suffixes seen acc in
  Forall canonical out ∧ NoDup out ∧ len out ≤ len acc + len suffixes ∧ (i ∈ seen → i ∈ out → i ∈ acc).
Proof.
  induction suffixes as [|s suffixes IH]; intros seen acc Hc Hd Hseen; cbn; [split_and!; try done; len_lia|].
  rewrite len_cons.
  assert (Hskip : let out := Session.search_loop i suffixes seen acc in
    Forall canonical out ∧ NoDup out ∧ len out ≤ len acc + (1 + len suffixes) ∧ (i ∈ seen → i ∈ out → i ∈ acc)).
  { destruct (IH seen acc Hc Hd Hseen) as (? & ? & ? & ?). split_and!; try done. lia. }
  destruct (normalize_dns_name _) as [n| | |] eqn:Hn; try done. case_bool_decide as Hin; [done|].
  destruct (IH ({[ identity n ]} ∪ seen) (acc ++ [identity n])) as (? & ? & Hl & Hi).
  - apply Forall_app. split; [done|]. constructor; [by eapply normalize_canonical|done].
  - apply NoDup_app. split_and!; [done| |by apply NoDup_singleton]. intros x Hx ->%list_elem_of_singleton. auto.
  - intros x [Hx| ->%list_elem_of_singleton]%elem_of_app; set_solver.
  - rewrite len_app in Hl. change (len [identity n]) with 1 in Hl. split_and!; [done|done|lia|].
    intros Hseen' Hout. specialize (Hi ltac:(set_solver) Hout).
    apply elem_of_app in Hi as [?| ->%list_elem_of_singleton]; [done|by destruct Hin].
Qed.

(** However the name looks, a search has at most one candidate more than there
    are suffixes. *)
Lemma search_loop_len i suffixes : ∀ seen acc, len (Session.search_loop i suffixes seen acc) ≤ len acc + len suffixes.
Proof.
  induction suffixes as [|s suffixes IH]; intros seen acc; cbn; [len_lia|]. rewrite len_cons.
  assert (Hskip : len (Session.search_loop i suffixes seen acc) ≤ len acc + (1 + len suffixes))
    by (specialize (IH seen acc); lia).
  destruct (normalize_dns_name _) as [n| | |]; try done. case_bool_decide; [done|].
  etrans; [apply IH|]. rewrite len_app. change (len [identity n]) with 1. lia.
Qed.
Lemma candidates_len i expand suffixes : len (Session.public_search_candidates i expand suffixes) ≤ 1 + len suffixes.
Proof.
  unfold Session.public_search_candidates. pose proof (len_nonneg suffixes).
  destruct expand; cbn; [|change (len [i]) with 1; lia].
  pose proof (search_loop_len i suffixes {[ i ]} (if contains 46 i then [i] else [])) as Hl.
  destruct (Session.search_loop _ _ _ _); [change (len [i]) with 1; lia|].
  destruct (contains 46 i); [change (len [i]) with 1 in Hl|rewrite len_nil in Hl]; lia.
Qed.

Lemma candidates_spec i expand suffixes :
  canonical i →
  let out := Session.public_search_candidates i expand suffixes in
  out ≠ [] ∧ Forall canonical out ∧ NoDup out ∧ len out ≤ 1 + len suffixes.
Proof.
  intros Hi. unfold Session.public_search_candidates. pose proof (len_nonneg suffixes).
  assert (Hone : [i] ≠ [] ∧ Forall canonical [i] ∧ NoDup [i] ∧ len [i] ≤ 1 + len suffixes).
  { split_and!; [done|by constructor|apply NoDup_singleton|change (len [i]) with 1; lia]. }
  destruct expand; cbn; [|done].
  destruct (search_loop_spec i suffixes {[ i ]} (if contains 46 i then [i] else [])) as (? & ? & Hl & _).
  - by destruct (contains 46 i); constructor.
  - destruct (contains 46 i); [apply NoDup_singleton|apply NoDup_nil_2].
  - destruct (contains 46 i); set_solver.
  - destruct (Session.search_loop _ _ _ _) as [|c cs]; [done|]. split_and!; try done.
    destruct (contains 46 i); [change (len [i]) with 1 in Hl|rewrite len_nil in Hl]; lia.
Qed.

(** ** Discoveries *)

Lemma first_occurrences_spec l : ∀ seen,
  let out := first_occurrences seen l in
  NoDup out ∧ (∀ a, a ∈ out ↔ a ∈ l ∧ a ∉ seen).
Proof.
  induction l as [|a l IH]; intros seen; cbn; [split; [apply NoDup_nil_2|set_solver]|].
  case_bool_decide as Ha.
  - destruct (IH seen) as [Hd Hin]. split; [done|]. intros x. rewrite Hin. set_solver.
  - destruct (IH (a :: seen)) as [Hd Hin]. split.
    + constructor; [rewrite Hin; set_solver|done].
    + intros x. rewrite elem_of_cons, Hin. destruct (decide (x = a)); set_solver.
Qed.

Lemma finish_spec servers suffixes timeout attempts d :
  finish servers suffixes timeout attempts = Ok d →
  d_nameservers d ≠ [] ∧ NoDup (d_nameservers d) ∧
  (∀ a, a ∈ d_nameservers d ↔ a ∈ servers ∧ is_unspecified (ip a) = false) ∧
  Forall canonical (d_search_suffixes d) ∧ NoDup (d_search_suffixes d) ∧
  len (d_search_suffixes d) ≤ MAX_SEARCH_SUFFIXES ∧ d_attempt_timeout d = timeout ∧ d_attempts d = attempts.
Proof.
  unfold finish. set (live := List.filter _ servers).
  destruct (first_occurrences_spec live []) as [Hd Hin].
  destruct (first_occurrences [] live) as [|a l] eqn:Hf; [done|]. intros [= <-].
  destruct (normalize_search_suffixes_spec suffixes) as (? & ? & ?). cbn.
  split_and!; try done. intros x. rewrite Hin. unfold live. rewrite list_elem_of_In, filter_In, <-list_elem_of_In.
  rewrite negb_true_iff. set_solver.
Qed.

(** Whichever platform it came from, the number of attempts is between 1 and 5
    and the timeout between one and five seconds on Linux. *)
Lemma resolv_conf_bounds c d :
  suffixes_and_nameservers c = Ok d →
  1 ≤ d_attempts d ≤ 5 ∧ from_secs 1 ≤ d_attempt_timeout d ≤ from_secs 5.
Proof.
  unfold suffixes_and_nameservers. intros (_ & _ & _ & _ & _ & _ & -> & ->)%finish_spec.
  unfold from_secs, clamp. lia.
Qed.

Lemma canonical_resolves `{Target} w :
  canonical w → ∃ n, Wire.from_ascii w = Ok n ∧ wf_name n ∧ Wire.is_root n = false.
Proof. intros (Hv & Ha & _). destruct (from_ascii_valid w Hv Ha) as (n & ? & ? & ? & _). eauto. Qed.

(** A name the library accepts is one the resolver can ask for: normalizing
    it again changes nothing, the wire codec accepts both the caller's spelling
    and the normalized one, as the same well-formed name, and a query for it of
    either type, with any identifier, can be encoded. *)
Theorem normalized_name_resolves `{Target} raw n :
  normalize_dns_name raw = Ok n →
  normalize_dns_name (identity n) = Ok (mkNormalized (identity n) false) ∧
  ∃ name, Wire.from_ascii raw = Ok name ∧ Wire.from_ascii (identity n) = Ok name ∧ wf_name name ∧
    ∀ id t, ∃ wire, Wire.encode_query id name t = Ok wire.
Proof.
  intros Hn. pose proof (normalize_spec raw) as Hs. rewrite Hn in Hs.
  destruct Hs as (w & Hsp & Hid & Hv & Hasc). destruct (normalize_canonical _ _ Hn) as (Hv' & Ha' & Hlow).
  split; [rewrite (normalize_valid _ Hv' Ha'); by rewrite Hlow|].
  destruct (from_ascii_valid w Hv Hasc) as (name & Hw & Hwf & Hroot & _). exists name. split_and!; [| |done|].
  - destruct Hsp as [->| ->]; [done|by rewrite from_ascii_dot].
  - by rewrite Hid, from_ascii_lowercase.
  - intros id t. destruct (encode_query_message id name t Hwf Hroot) as (out & ? & _). eauto.
Qed.
Lemma normalized_name_resolves_witness :
  normalize_dns_name (bs "WWW.Example.ORG.") = Ok (mkNormalized (bs "www.example.org") true) ∧
  normalize_dns_name (bs "www.example.org") = Ok (mkNormalized (bs "www.example.org") false) ∧
  ∃ name, @Wire.from_ascii target64 (bs "WWW.Example.ORG.") = Ok name ∧ @Wire.from_ascii target64 (bs "www.example.org") = Ok name ∧
    wf_name name ∧ ∀ id t, ∃ wire, Wire.encode_query id name t = Ok wire.
Proof.
  split; [vm_compute; reflexivity|].
  exact (@normalized_name_resolves target64 (bs "WWW.Example.ORG.") (mkNormalized (bs "www.example.org") true) ltac:(vm_compute; reflexivity)).
Defined.

(** The search list of a public lookup: for a normalized name and the
    suffixes of a configuration there is at least one candidate and there are at
    most seven, all different, and the wire codec accepts each of them. *)
Theorem search_candidates_valid `{Target} raw n expand raw_suffixes :
  normalize_dns_name raw = Ok n →
  let out := Session.public_search_candidates (identity n) expand (normalize_search_suffixes raw_suffixes) in
  1 ≤ len out ≤ 7 ∧ NoDup out ∧
  Forall (λ c, ∃ name, Wire.from_ascii c = Ok name ∧ wf_name name ∧ Wire.is_root name = false) out.
Proof.
  intros Hn out. destruct (candidates_spec (identity n) expand (normalize_search_suffixes raw_suffixes)) as (Hne & Hc & Hd & Hl).
  { by eapply normalize_canonical. }
  destruct (normalize_search_suffixes_spec raw_suffixes) as (_ & _ & Hs). unfold MAX_SEARCH_SUFFIXES in Hs.
  fold out in Hne, Hc, Hd, Hl. split_and!; [|lia|done|].
  - destruct out; [done|len_lia].
  - eapply Forall_impl; [exact Hc|]. apply canonical_resolves.
Qed.
Lemma search_candidates_valid_witness :
  let out := Session.public_search_candidates (bs "host") true
               (normalize_search_suffixes [bs " Corp.example "; bs "bad_label"; bs "corp.EXAMPLE."; bs "lab.example"]) in
  out = [bs "host.corp.example"; bs "host.lab.example"] ∧ 1 ≤ len out ≤ 7 ∧ NoDup out ∧
  Forall (λ c, ∃ name, @Wire.from_ascii target64 c = Ok name ∧ wf_name name ∧ Wire.is_root name = false) out.
Proof.
  split; [vm_compute; reflexivity|].
  exact (@search_candidates_valid target64 (bs "HOST") (mkNormalized (bs "host") false) true _ ltac:(vm_compute; reflexivity)).
Defined.
