(* ===== verification/DnsResolver.v ===== *)
(** * The resolver ([src/backend/native_dns.rs])

    The resolver's thread: its pending queries, their identifiers and retries,
    the UDP socket and the TCP fallbacks, the cache, the configuration and the
    results it sends. [Resolver] is [ResolverState] with the socket, the
    configuration and the two outgoing channels; [turn] is one turn of the loop
    of [resolver_main].

    What the thread asks of the operating system is answered by [Env]: the
    clock (which never goes back), random bits, the outcome of each socket
    call and the order in which a [HashMap] is iterated. The [n]-th question
    gets the [n]-th answer, and the theorems hold for all of them. *)

From stdpp Require Import base list strings gmap.
From Stdlib Require Import ZArith Lia.
From S2P Require Import Prelude Errors DnsWire DnsCache DnsConfig DnsAnswer DnsSession.

Module Resolver.
Import Wire Answer Session.
Import Cache (DnsCache, MAX_POSITIVE_CACHE_TTL, MAX_NEGATIVE_CACHE_TTL).
Import Config (SocketAddr, ResolverConfig, ResolverSnapshot, DiscoveredResolverConfig).

Definition SOCKET_TOKEN : Z := 1.
Definition FIRST_TCP_TOKEN : Z := 2.
Definition DNS_PACKET_LIMIT : Z := 4096.
Definition HTTP_DNS_TXID_RESERVE : Z := 1024.
Definition DNS_TRANSACTION_ID_SPACE : Z := u16_max + 1.
Definition TCP_READ_BUFFER : Z := 1024.

(** ** The operating system *)

(** [Ok(n)], [WouldBlock] or another error of [UdpSocket::send]. *)
Inductive SendResult := Sent (n : Z) | SendBlocked | SendError.
(** What [UdpSocket::recv] gives before it would block: a datagram, or an
    error, which does or does not make the socket unusable
    ([udp_receive_error_poisons_generation]). *)
Inductive RecvResult := Datagram (bytes : list Z) | RecvError (interrupted : bool).
(** The same for [TcpStream::write] and [TcpStream::read]. *)
Inductive WriteResult := Wrote (n : Z) | WriteError (message : string).
Inductive ReadResult := ReadBytes (bytes : list Z) | ReadError (message : string).

Record Event := mkEvent { e_token : Z; readable : bool; writable : bool }.

(** The answers; [inl], or [Some] where nothing else is returned, is the text of
    an error. A list of reads or writes is what the calls return until one
    would block; [write] accepts at most what it is given and [read] fills at
    most the buffer. Every platform's discovery ends with [finish]; the keys of
    a [HashMap] are iterated in some order. *)
Class Env := {
  env_clock :: Clock;
  env_tick : nat → Z;
  env_tick_nonneg : ∀ n, 0 ≤ env_tick n;
  env_entropy : nat → string + Z * Z;
  env_entropy_u16 : ∀ n, match env_entropy n with inr (a, b) => 0 ≤ a ≤ u16_max ∧ 0 ≤ b ≤ u16_max | inl _ => True end;
  env_pump : nat → bool;
  env_discover : nat → Error + DiscoveredResolverConfig;
  env_discover_finish : ∀ n, match env_discover n with
    | inr d => 0 ≤ Config.d_attempts d ≤ u8_max ∧ ∃ servers suffixes,
        Config.finish servers suffixes (Config.d_attempt_timeout d) (Config.d_attempts d) = Ok d
    | inl _ => True end;
  env_connect : nat → SocketAddr → option string;
  env_register : nat → option string;
  env_take_error : nat → string + option string;
  env_send : nat → list Z → SendResult;
  env_poll : nat → option (list Event);
  env_write : nat → list WriteResult;
  env_read : nat → list ReadResult;
  env_read_bytes : ∀ n bytes, ReadBytes bytes ∈ env_read n → Forall is_byte bytes;
  env_keys : nat → gset Z → list Z;
  env_keys_perm : ∀ n X, env_keys n X ≡ₚ elements X
}.

(** ** State *)

Inductive QueryPolicy := Http (retry : RetryPolicy) | Public (session : PublicSession).

(** The stream itself is the operating system's. *)
Record TcpFallback := mkTcp {
  token : Z; outbound : list Z; written : Z; inbound : list Z; expected : option Z
}.

Inductive QueryTransport := Udp | Tcp (tcp : TcpFallback).

Record PendingQuery := mkQuery {
  key : Z; host : Name; record_type : RecordType; cname_hops : Z; wire : list Z;
  attempts_sent : Z; q_attempt_limit : Z; q_attempt_timeout : Z; servers_tried : Z;
  last_udp_generation : Z; next_attempt : Z; transport : QueryTransport; policy : QueryPolicy
}.

Record ResolveResult := mkResult {
  r_key : Z; r_result : lookup_result; r_public : option PublicLookupOutcome
}.
(** [ResolveResult::http] and [ResolveResult::public]. *)
Definition result_http (key : Z) (result : lookup_result) : ResolveResult := mkResult key result None.
Definition result_public (key : Z) (public : PublicLookupOutcome) : ResolveResult :=
  mkResult key (inl (failure_new "public lookup")) (Some public).

Inductive Command :=
| Cmd_Resolve (key : Z) (host : list Z)
| Cmd_PublicResolve (key : Z) (spec : PublicResolveSpec)
| Cmd_Cancel (key : Z)
| Cmd_Shutdown.

(** What the thread does on its channels: it takes a command, or sends a result. *)
Inductive Traffic := Took (c : Command) | Gave (result : ResolveResult).
Definition took (t : Traffic) : option Command := match t with Took c => Some c | Gave _ => None end.
Definition gave (t : Traffic) : option ResolveResult := match t with Gave res => Some res | Took _ => None end.

(** [ResolverState], the socket (by the nameserver it is connected to), the
    configuration, the history of the commands taken and the results sent (in
    the order of both together) and of the control messages sent, and how far
    the clock and the answers of the operating system have been used. *)
Record Resolver := mkResolver {
  pending : gmap Z PendingQuery;
  by_key : gmap Z Z;
  tcp_by_token : gmap Z Z;
  next_tcp_token : Z;
  current_nameserver : Z;
  udp_generation : Z;
  config_generation : Z;
  config_available : bool;
  config_error : option Error;
  config_dirty : bool;
  next_config_refresh : option Z;
  cache : DnsCache;
  socket : option SocketAddr;
  config : ResolverConfig;
  log : list Traffic;
  controls : list Z;
  clock : Z;
  calls : nat
}.

Definition set_pending (v : gmap Z PendingQuery) (r : Resolver) : Resolver :=
  mkResolver v (by_key r) (tcp_by_token r) (next_tcp_token r) (current_nameserver r) (udp_generation r) (config_generation r) (config_available r) (config_error r) (config_dirty r) (next_config_refresh r) (cache r) (socket r) (config r) (log r) (controls r) (clock r) (calls r).
Definition set_by_key (v : gmap Z Z) (r : Resolver) : Resolver :=
  mkResolver (pending r) v (tcp_by_token r) (next_tcp_token r) (current_nameserver r) (udp_generation r) (config_generation r) (config_available r) (config_error r) (config_dirty r) (next_config_refresh r) (cache r) (socket r) (config r) (log r) (controls r) (clock r) (calls r).
Definition set_tcp_by_token (v : gmap Z Z) (r : Resolver) : Resolver :=
  mkResolver (pending r) (by_key r) v (next_tcp_token r) (current_nameserver r) (udp_generation r) (config_generation r) (config_available r) (config_error r) (config_dirty r) (next_config_refresh r) (cache r) (socket r) (config r) (log r) (controls r) (clock r) (calls r).
Definition set_next_tcp_token (v : Z) (r : Resolver) : Resolver :=
  mkResolver (pending r) (by_key r) (tcp_by_token r) v (current_nameserver r) (udp_generation r) (config_generation r) (config_available r) (config_error r) (config_dirty r) (next_config_refresh r) (cache r) (socket r) (config r) (log r) (controls r) (clock r) (calls r).
Definition set_current_nameserver (v : Z) (r : Resolver) : Resolver :=
  mkResolver (pending r) (by_key r) (tcp_by_token r) (next_tcp_token r) v (udp_generation r) (config_generation r) (config_available r) (config_error r) (config_dirty r) (next_config_refresh r) (cache r) (socket r) (config r) (log r) (controls r) (clock r) (calls r).
Definition set_udp_generation (v : Z) (r : Resolver) : Resolver :=
  mkResolver (pending r) (by_key r) (tcp_by_token r) (next_tcp_token r) (current_nameserver r) v (config_generation r) (config_available r) (config_error r) (config_dirty r) (next_config_refresh r) (cache r) (socket r) (config r) (log r) (controls r) (clock r) (calls r).
Definition set_config_generation (v : Z) (r : Resolver) : Resolver :=
  mkResolver (pending r) (by_key r) (tcp_by_token r) (next_tcp_token r) (current_nameserver r) (udp_generation r) v (config_available r) (config_error r) (config_dirty r) (next_config_refresh r) (cache r) (socket r) (config r) (log r) (controls r) (clock r) (calls r).
Definition set_config_available (v : bool) (r : Resolver) : Resolver :=
  mkResolver (pending r) (by_key r) (tcp_by_token r) (next_tcp_token r) (current_nameserver r) (udp_generation r) (config_generation r) v (config_error r) (config_dirty r) (next_config_refresh r) (cache r) (socket r) (config r) (log r) (controls r) (clock r) (calls r).
Definition set_config_error (v : option Error) (r : Resolver) : Resolver :=
  mkResolver (pending r) (by_key r) (tcp_by_token r) (next_tcp_token r) (current_nameserver r) (udp_generation r) (config_generation r) (config_available r) v (config_dirty r) (next_config_refresh r) (cache r) (socket r) (config r) (log r) (controls r) (clock r) (calls r).
Definition set_config_dirty (v : bool) (r : Resolver) : Resolver :=
  mkResolver (pending r) (by_key r) (tcp_by_token r) (next_tcp_token r) (current_nameserver r) (udp_generation r) (config_generation r) (config_available r) (config_error r) v (next_config_refresh r) (cache r) (socket r) (config r) (log r) (controls r) (clock r) (calls r).
Definition set_next_config_refresh (v : option Z) (r : Resolver) : Resolver :=
  mkResolver (pending r) (by_key r) (tcp_by_token r) (next_tcp_token r) (current_nameserver r) (udp_generation r) (config_generation r) (config_available r) (config_error r) (config_dirty r) v (cache r) (socket r) (config r) (log r) (controls r) (clock r) (calls r).
Definition set_cache (v : DnsCache) (r : Resolver) : Resolver :=
  mkResolver (pending r) (by_key r) (tcp_by_token r) (next_tcp_token r) (current_nameserver r) (udp_generation r) (config_generation r) (config_available r) (config_error r) (config_dirty r) (next_config_refresh r) v (socket r) (config r) (log r) (controls r) (clock r) (calls r).
Definition set_socket (v : option SocketAddr) (r : Resolver) : Resolver :=
  mkResolver (pending r) (by_key r) (tcp_by_token r) (next_tcp_token r) (current_nameserver r) (udp_generation r) (config_generation r) (config_available r) (config_error r) (config_dirty r) (next_config_refresh r) (cache r) v (config r) (log r) (controls r) (clock r) (calls r).
Definition set_config (v : ResolverConfig) (r : Resolver) : Resolver :=
  mkResolver (pending r) (by_key r) (tcp_by_token r) (next_tcp_token r) (current_nameserver r) (udp_generation r) (config_generation r) (config_available r) (config_error r) (config_dirty r) (next_config_refresh r) (cache r) (socket r) v (log r) (controls r) (clock r) (calls r).
Definition set_log (v : list Traffic) (r : Resolver) : Resolver :=
  mkResolver (pending r) (by_key r) (tcp_by_token r) (next_tcp_token r) (current_nameserver r) (udp_generation r) (config_generation r) (config_available r) (config_error r) (config_dirty r) (next_config_refresh r) (cache r) (socket r) (config r) v (controls r) (clock r) (calls r).
Definition set_controls (v : list Z) (r : Resolver) : Resolver :=
  mkResolver (pending r) (by_key r) (tcp_by_token r) (next_tcp_token r) (current_nameserver r) (udp_generation r) (config_generation r) (config_available r) (config_error r) (config_dirty r) (next_config_refresh r) (cache r) (socket r) (config r) (log r) v (clock r) (calls r).
Definition set_clock (v : Z) (r : Resolver) : Resolver :=
  mkResolver (pending r) (by_key r) (tcp_by_token r) (next_tcp_token r) (current_nameserver r) (udp_generation r) (config_generation r) (config_available r) (config_error r) (config_dirty r) (next_config_refresh r) (cache r) (socket r) (config r) (log r) (controls r) v (calls r).
Definition set_calls (v : nat) (r : Resolver) : Resolver :=
  mkResolver (pending r) (by_key r) (tcp_by_token r) (next_tcp_token r) (current_nameserver r) (udp_generation r) (config_generation r) (config_available r) (config_error r) (config_dirty r) (next_config_refresh r) (cache r) (socket r) (config r) (log r) (controls r) (clock r) v.

(** The commands taken, and the results sent. *)
Definition taken (r : Resolver) : list Command := omap took (log r).
Definition results (r : Resolver) : list ResolveResult := omap gave (log r).

Definition set_sent (attempts generation next : Z) (q : PendingQuery) : PendingQuery :=
  mkQuery (key q) (host q) (record_type q) (cname_hops q) (wire q) attempts (q_attempt_limit q) (q_attempt_timeout q)
    (servers_tried q) generation next (transport q) (policy q).
Definition set_next_attempt (next : Z) (q : PendingQuery) : PendingQuery :=
  set_sent (attempts_sent q) (last_udp_generation q) next q.
Definition set_servers_tried (n : Z) (q : PendingQuery) : PendingQuery :=
  mkQuery (key q) (host q) (record_type q) (cname_hops q) (wire q) (attempts_sent q) (q_attempt_limit q) (q_attempt_timeout q)
    n (last_udp_generation q) (next_attempt q) (transport q) (policy q).
Definition set_transport (t : QueryTransport) (q : PendingQuery) : PendingQuery :=
  mkQuery (key q) (host q) (record_type q) (cname_hops q) (wire q) (attempts_sent q) (q_attempt_limit q) (q_attempt_timeout q)
    (servers_tried q) (last_udp_generation q) (next_attempt q) t (policy q).

Definition is_udp (q : PendingQuery) : bool := match transport q with Udp => true | Tcp _ => false end.
Definition is_public (p : QueryPolicy) : bool := match p with Public _ => true | Http _ => false end.

Section resolver.
Context {tgt : Target} {env : Env}.

(** No operation of the resolver returns an error to its caller. *)
Definition R : Type → Type := M Resolver Empty_set.

(** The next answer of the operating system. *)
Definition ask {T} (f : nat → T) : R T := λ r, (Ok (f (calls r)), set_calls (S (calls r)) r).
(** [Instant::now()]. *)
Definition instant_now : R Z :=
  tick ← ask env_tick; r ← get; let now := clock r + tick in _ ← put (set_clock now r); mret now.

Fixpoint for_each {T} (l : list T) (f : T → R unit) : R unit :=
  match l with [] => mret tt | x :: l' => _ ← f x; for_each l' f end.

(** ** Results *)

Definition send_result (result : ResolveResult) : R unit := modify (λ r, set_log (log r ++ [Gave result]) r).
(** [send_control] of [ResolverControl::EvictIdleHttp]. *)
Definition send_control (generation : Z) : R unit := modify (λ r, set_controls (controls r ++ [generation]) r).

Definition public_error (failure : ResolveFailure) : Error := error_dns (f_class failure) (f_message failure).
Definition public_failed (key : Z) (failure : ResolveFailure) : ResolveResult :=
  result_public key (Failed (public_error failure)).

Definition emit_failure (query : PendingQuery) (failure : ResolveFailure) : R unit :=
  match policy query with
  | Http _ => send_result (result_http (key query) (inl failure))
  | Public _ => send_result (public_failed (key query) failure)
  end.

Definition by_key_remove (k : Z) : R unit := modify (λ r, set_by_key (delete k (by_key r)) r).
Definition pending_remove (id : Z) : R (option PendingQuery) :=
  r ← get; _ ← put (set_pending (delete id (pending r)) r); mret (pending r !! id).
Definition token_remove (t : Z) : R unit := modify (λ r, set_tcp_by_token (delete t (tcp_by_token r)) r).
(** [state.by_key.insert(key, id); state.pending.insert(id, query)]. *)
Definition enter_query (id : Z) (query : PendingQuery) : R unit :=
  modify (λ r, set_pending (<[id := query]> (pending r)) (set_by_key (<[key query := id]> (by_key r)) r)).
Definition pending_insert (id : Z) (query : PendingQuery) : R unit :=
  modify (λ r, set_pending (<[id := query]> (pending r)) r).

Definition remove_query (id : Z) : R (option PendingQuery) :=
  query ← pending_remove id;
  match query with
  | None => mret None
  | Some query =>
      _ ← match transport query with Tcp tcp => token_remove (token tcp) | Udp => mret tt end;
      mret (Some query)
  end.

(** [if let Some(id) = state.by_key.remove(&key) { remove_query(id, ..); }]. *)
Definition withdraw (k : Z) : R unit :=
  r ← get;
  match by_key r !! k with
  | None => mret tt
  | Some id => _ ← by_key_remove k; _ ← remove_query id; mret tt
  end.

(** ** Transaction identifiers *)

Definition public_txid_available_counts (http_count total : Z) : bool :=
  if DNS_TRANSACTION_ID_SPACE <=? total then false
  else
    let reserved_for_http := saturating_sub HTTP_DNS_TXID_RESERVE http_count in
    reserved_for_http <? DNS_TRANSACTION_ID_SPACE - total.

Definition http_queries (p : gmap Z PendingQuery) : gmap Z PendingQuery :=
  filter (λ iq, is_public (policy iq.2) = false) p.
Definition public_txid_available (p : gmap Z PendingQuery) : bool :=
  public_txid_available_counts (Z.of_nat (size (http_queries p))) (Z.of_nat (size p)).

(** [for _ in 0..=u16::MAX]. *)
Fixpoint find_free (turns : nat) (p : gmap Z PendingQuery) (candidate stride : Z) : option Z :=
  match turns with
  | O => None
  | S turns' =>
      match p !! candidate with
      | None => Some candidate
      | Some _ => find_free turns' p (wrapping_add u16_max candidate stride) stride
      end
  end.

Definition allocate_id_with_random (p : gmap Z PendingQuery) (public : bool) (entropy : string + Z * Z)
  : ResolveFailure + option Z :=
  if public && negb (public_txid_available p) then inr None
  else if DNS_TRANSACTION_ID_SPACE <=? Z.of_nat (size p) then inr None
  else
    match entropy with
    | inl error => inl (failure_new ("native resolver transaction randomization failed: " +:+ error))
    | inr (candidate, bits) =>
        let stride := Z.lor bits 1 in
        inr (find_free (Z.to_nat DNS_TRANSACTION_ID_SPACE) p candidate stride)
    end.

(** Random bits are asked for only when there is room. *)
Definition allocate_id (public : bool) : R (ResolveFailure + option Z) :=
  r ← get;
  if (public && negb (public_txid_available (pending r))) || (DNS_TRANSACTION_ID_SPACE <=? Z.of_nat (size (pending r)))
  then mret (allocate_id_with_random (pending r) public (inl EmptyString))
  else entropy ← ask env_entropy; mret (allocate_id_with_random (pending r) public entropy).

Definition policy_retry (p : QueryPolicy) : RetryPolicy :=
  match p with Http retry => retry | Public session => Session.retry session end.

Definition space_exhausted (public : bool) : ResolveFailure :=
  failure_classified DnsFailure.Protocol
    (if public then "the native resolver public transaction space is reserved from HTTP-internal DNS"
     else "the native resolver transaction space is exhausted").
Definition query_not_encoded : ResolveFailure :=
  failure_classified DnsFailure.Protocol "the DNS query could not be encoded".

Definition prepare_name_query (key : Z) (name : Name) (record_type : RecordType) (cname_hops : Z) (p : QueryPolicy)
  : R (ResolveFailure + Z * PendingQuery) :=
  let retry := policy_retry p in
  allocated ← allocate_id (is_public p);
  match allocated with
  | inl failure => mret (inl failure)
  | inr None => mret (inl (space_exhausted (is_public p)))
  | inr (Some id) =>
      match encode_query id name record_type with
      | Err _ => mret (inl query_not_encoded)
      | Panic => panic
      | Diverge => diverge
      | Ok wire =>
          now ← instant_now;
          mret (inr (id, mkQuery key name record_type cname_hops wire 0 (attempt_limit retry) (attempt_timeout retry)
                           1 0 now Udp p))
      end
  end.

(** A method of the cache. *)
Definition on_cache {T} (f : DnsCache → T * DnsCache) : R T :=
  r ← get; let '(a, c) := f (cache r) in _ ← put (set_cache c r); mret a.
Definition update_cache (f : DnsCache → DnsCache) : R unit := modify (λ r, set_cache (f (cache r)) r).

Definition invalid_hostname : ResolveFailure := failure_classified DnsFailure.Protocol "the DNS hostname is invalid".
Definition parse_dns_name (host : list Z) : R (ResolveFailure + Name) :=
  match from_ascii host with
  | Ok name => mret (inr name)
  | Err _ => mret (inl invalid_hostname)
  | Panic => panic
  | Diverge => diverge
  end.

(** ** Public lookups *)

(** [after_candidate_families_complete]; [restart] is [start_current_candidate]
    and [query_key] the key of the query that completed the candidate, if any. *)
Definition after_candidate (restart : Z → PublicSession → R unit) (key : Z) (query_key : option Z)
    (session : PublicSession) (name : Name) : R unit :=
  let '(st, _, valid_until) := session_response session in
  let forget := match query_key with Some k => by_key_remove k | None => mret tt end in
  _ ← (if bool_decide (cache_mode session = CacheMode.Bypass) then mret tt
       else now ← instant_now; update_cache (publish_http_view name session now));
  if bool_decide (st = ResolveStatus.Answer) then
    _ ← forget; send_result (result_public key (complete_public_session session))
  else
    let session := record_search_negative st valid_until session in
    let next_index := saturating_add usize_max (candidate_index session) 1 in
    match candidates session !! Z.to_nat next_index with
    | Some next => _ ← forget; restart key (set_candidate next next_index session)
    | None => _ ← forget; send_result (result_public key (complete_public_session session))
    end.

(** What the cache holds of the two families of the current candidate. *)
Definition load_families (name : Name) (session : PublicSession) : R PublicSession :=
  let fam := family session in
  now ← instant_now;
  v4 ← (if bool_decide (fam = AddressFamily.Ipv6) then mret None
        else on_cache (Cache.get_family name A now));
  v6 ← (if bool_decide (fam = AddressFamily.Ipv4) then mret None
        else on_cache (Cache.get_family name AAAA now));
  let v4 := (λ re, cached_family_outcome re.1 re.2) <$> v4 in
  let v6 := (λ re, cached_family_outcome re.1 re.2) <$> v6 in
  mret (if bool_decide (fam = AddressFamily.Both) then
          if has_status ResolveStatus.NameNotFound v4 then set_families v4 v4 session
          else if has_status ResolveStatus.NameNotFound v6 then set_families v6 v6 session
          else set_families v4 v6 session
        else set_families v4 v6 session).

(** A candidate answered by the cache, or not to be had, leads to the next one:
    [fuel] bounds how many are left ([start_current_candidate_spec]). *)
Fixpoint start_current_candidate (fuel : nat) (key : Z) (session : PublicSession) : R unit :=
  match fuel with
  | O => diverge
  | S fuel' =>
      let session := set_families None None session in
      parsed ← parse_dns_name (candidate session);
      match parsed with
      | inl failure => send_result (public_failed key failure)
      | inr name =>
          let query session :=
            match session_needs session with
            | None => after_candidate (start_current_candidate fuel') key None session name
            | Some record_type =>
                prepared ← prepare_name_query key name record_type 0 (Public session);
                match prepared with
                | inr (id, query) => enter_query id query
                | inl failure => send_result (public_failed key failure)
                end
            end in
          if bool_decide (cache_mode session = CacheMode.Use) then
            session ← load_families name session;
            match session_needs session with
            | None => after_candidate (start_current_candidate fuel') key None session name
            | Some _ => query (set_from_cache false session)
            end
          else query session
      end
  end.

(** One more turn than there are candidates. *)
Definition candidate_fuel (session : PublicSession) : nat := S (length (candidates session)).
Definition after_candidate_families_complete (key : Z) (query_key : option Z) (session : PublicSession) (name : Name)
  : R unit :=
  after_candidate (start_current_candidate (candidate_fuel session)) key query_key session name.

Definition no_candidates : ResolveFailure :=
  failure_classified DnsFailure.Protocol "the public resolver produced no DNS search candidates".

Definition begin_public_resolve (key : Z) (spec : PublicResolveSpec) (search_suffixes : list (list Z))
    (retry : RetryPolicy) : R unit :=
  let candidates := public_search_candidates (sp_host spec) (expand_search spec) search_suffixes in
  let session candidate :=
    mkSession (sp_host spec) candidate candidates 0 (sp_family spec) (sp_order spec) (sp_cache_mode spec)
      (sp_max_results spec) None None (bool_decide (sp_cache_mode spec = CacheMode.Use)) false None retry in
  match candidates with
  | [] => send_result (public_failed key no_candidates)
  | first :: _ => start_current_candidate (candidate_fuel (session first)) key (session first)
  end.

(** ** Answers *)

(** Go on with another query for the same lookup, or fail it. *)
Definition replace_query (query : PendingQuery) (prepared : ResolveFailure + Z * PendingQuery) : R unit :=
  match prepared with
  | inr (next, replacement) => enter_query next replacement
  | inl failure => _ ← by_key_remove (key query); emit_failure query failure
  end.

Definition follow_canonical (query : PendingQuery) (target : Name) (hops : Z) : R unit :=
  prepared ← prepare_name_query (key query) target (record_type query)
               (saturating_add u8_max (cname_hops query) hops) (policy query);
  replace_query query prepared.

Definition tcp_truncated : ResolveFailure :=
  failure_classified DnsFailure.Truncated "the DNS-over-TCP response was unexpectedly truncated".

(** The failure of a query that was answered. *)
Definition fail_query (query : PendingQuery) (failure : ResolveFailure) : R unit :=
  _ ← by_key_remove (key query); emit_failure query failure.

(** Store an HTTP result and the families it implies, when the question was the
    name's own and the answer has a TTL. *)
Definition store_http (query : PendingQuery) (result : lookup_result) (families : list (RecordType * CachedFamily.t))
    (ttl : option Z) (maximum : Z) : R unit :=
  match ttl with
  | Some ttl =>
      if cname_hops query =? 0 then
        now ← instant_now;
        _ ← update_cache (Cache.insert (host query) result ttl maximum now);
        for_each families (λ tf, _ ← on_cache (Cache.insert_family (host query) tf.1 tf.2 ttl maximum now); mret tt)
      else mret tt
  | None => mret tt
  end.

Definition finish_http_answer (query : PendingQuery) (result : parsed) : R unit :=
  match result with
  | inr (PA_Answer answer) =>
      _ ← by_key_remove (key query);
      _ ← store_http query (inr answer) [(record_type query, CachedFamily.Answer (addresses answer))]
            (Some (ttl answer)) MAX_POSITIVE_CACHE_TTL;
      send_result (result_http (key query) (inr answer))
  | inr (PA_Canonical target hops) => follow_canonical query target hops
  | inr (PA_NoRecords negative_ttl) =>
      if bool_decide (record_type query = A) then
        _ ← match negative_ttl with
            | Some ttl =>
                if cname_hops query =? 0 then
                  now ← instant_now;
                  _ ← on_cache (Cache.insert_family (host query) A CachedFamily.NoData ttl MAX_NEGATIVE_CACHE_TTL now);
                  mret tt
                else mret tt
            | None => mret tt
            end;
        prepared ← prepare_name_query (key query) (host query) AAAA (cname_hops query) (policy query);
        replace_query query prepared
      else
        _ ← by_key_remove (key query);
        _ ← store_http query (inl no_usable_records) [(record_type query, CachedFamily.NoData)]
              negative_ttl MAX_NEGATIVE_CACHE_TTL;
        send_result (result_http (key query) (inl no_usable_records))
  | inr (PA_Negative failure negative_ttl) =>
      _ ← by_key_remove (key query);
      _ ← store_http query (inl failure) [(A, CachedFamily.NameNotFound); (AAAA, CachedFamily.NameNotFound)]
            negative_ttl MAX_NEGATIVE_CACHE_TTL;
      send_result (result_http (key query) (inl failure))
  | inl failure => fail_query query failure
  | inr PA_Truncated => fail_query query tcp_truncated
  end.

Definition continue_or_complete_public (query : PendingQuery) (session : PublicSession) : R unit :=
  match session_needs session with
  | Some record_type =>
      prepared ← prepare_name_query (key query) (host query) record_type 0 (Public session);
      replace_query query prepared
  | None => after_candidate_families_complete (key query) (Some (key query)) session (host query)
  end.

(** [record_public_family] on the resolver's cache; the clock is read when the
    family is stored. *)
Definition record_family (u : PublicFamilyUpdate) (name : Name) (session : PublicSession) : R PublicSession :=
  now ← (if cacheable u && negb (bool_decide (cache_mode session = CacheMode.Bypass)) && negb (is_none (u_ttl u))
         then instant_now else mret 0);
  on_cache (record_public_family u name now session).

(** The [for] over both families of an NXDOMAIN answer: the expiry of the last
    one stored. *)
Definition store_name_not_found (name : Name) (ttl now : Z) (session : PublicSession) (types : list RecordType)
  : R PublicSession :=
  foldl (λ m t,
    session ← m;
    expires ← on_cache (Cache.insert_family name t CachedFamily.NameNotFound ttl MAX_NEGATIVE_CACHE_TTL now);
    mret (match expires with
          | Some x =>
              let outcome := mkOutcome ResolveStatus.NameNotFound [] (Some x) in
              set_families (Some outcome) (Some outcome) session
          | None => session
          end)) (mret session) types.

Definition finish_public_answer (query : PendingQuery) (session : PublicSession) (result : parsed) : R unit :=
  let direct := cname_hops query =? 0 in
  match result with
  | inr (PA_Canonical target hops) => follow_canonical query target hops
  | inr PA_Truncated => fail_query query tcp_truncated
  | inl failure => fail_query query failure
  | inr (PA_Answer answer) =>
      session ← record_family (mkUpdate (record_type query) ResolveStatus.Answer (addresses answer) (Some (ttl answer)) direct)
                  (host query) session;
      continue_or_complete_public query session
  | inr (PA_NoRecords negative_ttl) =>
      session ← record_family (mkUpdate (record_type query) ResolveStatus.NoData [] negative_ttl direct)
                  (host query) session;
      continue_or_complete_public query session
  | inr (PA_Negative _ negative_ttl) =>
      let outcome := mkOutcome ResolveStatus.NameNotFound [] None in
      let session := set_families (Some outcome) (Some outcome) session in
      session ← match negative_ttl with
                | Some ttl =>
                    if direct then
                      now ← instant_now;
                      if bool_decide (cache_mode session = CacheMode.Bypass) then mret session
                      else store_name_not_found (host query) ttl now session [A; AAAA]
                    else mret session
                | None => mret session
                end;
      after_candidate_families_complete (key query) (Some (key query)) session (host query)
  end.

Definition finish_answer (query : PendingQuery) (result : parsed) : R unit :=
  match policy query with
  | Public session => finish_public_answer query session result
  | Http _ => finish_http_answer query result
  end.

(** ** TCP fallback *)

Definition tcp_failure (class : DnsFailure.t) (message : string) : ResolveFailure := failure_classified class message.

(** [TcpStream::connect] and [poll.register] of the fallback. *)
Definition begin_tcp_fallback (id : Z) (query : PendingQuery) (nameserver : SocketAddr) (timeout : Z)
  : R (ResolveFailure + PendingQuery) :=
  if u16_max <? len (wire query)
  then mret (inl (tcp_failure DnsFailure.Protocol "the DNS query is too large for TCP framing"))
  else
    r ← get;
    let token := next_tcp_token r in
    match checked_add usize_max token 1 with
    | None => mret (inl (tcp_failure DnsFailure.Protocol "the native resolver TCP token space is exhausted"))
    | Some next =>
        _ ← put (set_next_tcp_token next r);
        connected ← ask (λ n, env_connect n nameserver);
        match connected with
        | Some error => mret (inl (tcp_failure DnsFailure.Io ("DNS-over-TCP connect failed: " +:+ error)))
        | None =>
            registered ← ask env_register;
            match registered with
            | Some error => mret (inl (tcp_failure DnsFailure.Io ("DNS-over-TCP registration failed: " +:+ error)))
            | None =>
                let outbound := u16_to_be_bytes (len (wire query)) ++ wire query in
                now ← instant_now;
                deadline ← match instant_checked_add now timeout with Some d => mret d | None => instant_now end;
                let query := set_transport (Tcp (mkTcp token outbound 0 [] None)) (set_next_attempt deadline query) in
                _ ← modify (λ r, set_tcp_by_token (<[token := id]> (tcp_by_token r)) r);
                mret (inr query)
            end
        end
    end.

Inductive TcpDrive := Drive_Pending | Drive_Message (message : list Z).

Definition set_written (n : Z) (tcp : TcpFallback) : TcpFallback :=
  mkTcp (token tcp) (outbound tcp) n (inbound tcp) (expected tcp).
Definition set_inbound (l : list Z) (e : option Z) (tcp : TcpFallback) : TcpFallback :=
  mkTcp (token tcp) (outbound tcp) (written tcp) l e.

(** [while tcp.written < tcp.outbound.len()]. *)
Fixpoint write_loop (writes : list WriteResult) (tcp : TcpFallback) : TcpFallback * option ResolveFailure :=
  if len (outbound tcp) <=? written tcp then (tcp, None)
  else
    match writes with
    | [] => (tcp, None)
    | Wrote n :: rest =>
        let n := Z.max 0 (Z.min n (len (outbound tcp) - written tcp)) in
        if n =? 0 then (tcp, Some (tcp_failure DnsFailure.Io "DNS-over-TCP closed while sending the query"))
        else write_loop rest (set_written (written tcp + n) tcp)
    | WriteError error :: _ => (tcp, Some (tcp_failure DnsFailure.Io ("DNS-over-TCP query send failed: " +:+ error)))
    end.

(** The [Ok(read)] branch of the reading loop. *)
Definition accept_read (chunk : list Z) (tcp : TcpFallback) : outcome Empty_set (TcpFallback * (ResolveFailure + TcpDrive)) :=
  if DNS_PACKET_LIMIT + 2 <? saturating_add usize_max (len (inbound tcp)) (len chunk) then
    Ok (tcp, inl (tcp_failure DnsFailure.Truncated "DNS-over-TCP response exceeds the private packet limit"))
  else
    let bytes := inbound tcp ++ chunk in
    let tcp := set_inbound bytes (expected tcp) tcp in
    sized ← (if is_none (expected tcp) && (2 <=? len bytes) then
               first ← index bytes 0;
               second ← index bytes 1;
               let e := u16_from_be_bytes first second in
               if (e =? 0) || (DNS_PACKET_LIMIT <? e)
               then Ok (inl (tcp_failure DnsFailure.Malformed "DNS-over-TCP response length is invalid"))
               else Ok (inr (Some e))
             else Ok (inr (expected tcp)));
    match sized with
    | inl failure => Ok (tcp, inl failure)
    | inr e =>
        let tcp := set_inbound bytes e tcp in
        match e with
        | Some e =>
            if e + 2 <=? len bytes then message ← slice bytes 2 (e + 2); Ok (tcp, inr (Drive_Message message))
            else Ok (tcp, inr Drive_Pending)
        | None => Ok (tcp, inr Drive_Pending)
        end
    end.

Fixpoint read_loop (reads : list ReadResult) (tcp : TcpFallback) : outcome Empty_set (TcpFallback * (ResolveFailure + TcpDrive)) :=
  match reads with
  | [] => Ok (tcp, inr Drive_Pending)
  | ReadError error :: _ =>
      Ok (tcp, inl (tcp_failure DnsFailure.Io ("DNS-over-TCP response read failed: " +:+ error)))
  | ReadBytes bytes :: rest =>
      let chunk := take (Z.to_nat TCP_READ_BUFFER) bytes in
      if bool_decide (chunk = [])
      then Ok (tcp, inl (tcp_failure DnsFailure.Io "DNS-over-TCP closed before a complete response"))
      else
        step ← accept_read chunk tcp;
        match step with
        | (tcp, inr Drive_Pending) => read_loop rest tcp
        | done => Ok done
        end
  end.

(** The first half of [drive_tcp]: the connection's status, the query, and the
    re-registration for reading alone. *)
Definition drive_write (tcp : TcpFallback) : R (TcpFallback * option ResolveFailure) :=
  status ← ask env_take_error;
  match status with
  | inl error => mret (tcp, Some (tcp_failure DnsFailure.Io ("DNS-over-TCP connect status failed: " +:+ error)))
  | inr (Some error) => mret (tcp, Some (tcp_failure DnsFailure.Io ("DNS-over-TCP connect failed: " +:+ error)))
  | inr None =>
      writes ← ask env_write;
      let '(tcp, failed) := write_loop writes tcp in
      match failed with
      | Some failure => mret (tcp, Some failure)
      | None =>
          if written tcp =? len (outbound tcp) then
            registered ← ask env_register;
            match registered with
            | Some error => mret (tcp, Some (tcp_failure DnsFailure.Io ("DNS-over-TCP re-registration failed: " +:+ error)))
            | None => mret (tcp, None)
            end
          else mret (tcp, None)
      end
  end.

Definition drive_tcp (tcp : TcpFallback) (readable writable : bool) : R (TcpFallback * (ResolveFailure + TcpDrive)) :=
  '(tcp, failed) ← (if writable && (written tcp <? len (outbound tcp)) then drive_write tcp else mret (tcp, None));
  match failed with
  | Some failure => mret (tcp, inl failure)
  | None =>
      if (readable : bool) then reads ← ask env_read; lift (read_loop reads tcp)
      else mret (tcp, inr Drive_Pending)
  end.

Definition tcp_mismatch : ResolveFailure :=
  failure_classified DnsFailure.Protocol "the DNS-over-TCP response did not match its query".

Definition receive_tcp (t : Z) (readable writable : bool) : R unit :=
  r ← get;
  match tcp_by_token r !! t with
  | None => mret tt
  | Some id =>
      removed ← pending_remove id;
      match removed with
      | None => token_remove t
      | Some query =>
          match transport query with
          | Udp => token_remove t
          | Tcp tcp =>
              '(tcp, drive) ← drive_tcp tcp readable writable;
              let query := set_transport (Tcp tcp) query in
              match drive with
              | inr Drive_Pending => pending_insert id query
              | inr (Drive_Message message) =>
                  _ ← token_remove (token tcp);
                  let remaining := saturating_sub MAX_CNAME_HOPS (cname_hops query) in
                  parsed ← lift (parse_answer message id (host query) (record_type query) remaining);
                  finish_answer query (default (inl tcp_mismatch) parsed)
              | inl failure =>
                  _ ← token_remove (token tcp);
                  fail_query query failure
              end
          end
      end
  end.

(** ** UDP *)

Definition advance_generation (generation : Z) : Z :=
  let generation := wrapping_add u64_max generation 1 in
  if generation =? 0 then 1 else generation.
Definition advance_udp_generation : R unit := modify (λ r, set_udp_generation (advance_generation (udp_generation r)) r).
Definition advance_config_generation : R unit :=
  modify (λ r, set_config_generation (advance_generation (config_generation r)) r).

(** [connect_one_nameserver] and [poll.register]. *)
Definition open_socket (nameserver : SocketAddr) : R bool :=
  connected ← ask (λ n, env_connect n nameserver);
  match connected with
  | Some _ => mret false
  | None => registered ← ask env_register; mret (is_none registered)
  end.

Definition replace_current_nameserver : R bool :=
  r ← get;
  match Config.nameservers (config r) !! Z.to_nat (current_nameserver r) with
  | None => mret false
  | Some nameserver =>
      opened ← open_socket nameserver;
      if (opened : bool) then _ ← modify (set_socket (Some nameserver)); mret true else mret false
  end.

(** [for offset in 1..config.nameservers.len()]. *)
Fixpoint advance_loop (offsets : list nat) : R bool :=
  match offsets with
  | [] => mret false
  | offset :: rest =>
      r ← get;
      let count := Z.of_nat (length (Config.nameservers (config r))) in
      let index := (current_nameserver r + Z.of_nat offset) mod count in
      match Config.nameservers (config r) !! Z.to_nat index with
      | None => panic
      | Some nameserver =>
          opened ← open_socket nameserver;
          if (opened : bool) then
            _ ← modify (λ r, set_current_nameserver index (set_socket (Some nameserver) r)); mret true
          else advance_loop rest
      end
  end.
Definition advance_nameserver : R bool :=
  r ← get; advance_loop (seq 1 (length (Config.nameservers (config r)) - 1)).

Definition receive_datagram (bytes : list Z) : R unit :=
  let bytes := take (Z.to_nat DNS_PACKET_LIMIT) bytes in
  if len bytes <? 2 then mret tt
  else
    high ← lift (index bytes 0);
    low ← lift (index bytes 1);
    let id := u16_from_be_bytes high low in
    r ← get;
    match pending r !! id with
    | None => mret tt
    | Some query =>
        let remaining := saturating_sub MAX_CNAME_HOPS (cname_hops query) in
        parsed ← lift (parse_answer bytes id (host query) (record_type query) remaining);
        match parsed with
        | None => mret tt
        | Some result =>
            _ ← pending_remove id;
            match result with
            | inr PA_Truncated =>
                match Config.nameservers (config r) !! Z.to_nat (current_nameserver r) with
                | None => panic
                | Some nameserver =>
                    started ← begin_tcp_fallback id query nameserver (q_attempt_timeout query);
                    match started with
                    | inr query => pending_insert id query
                    | inl failure => fail_query query failure
                    end
                end
            | _ => finish_answer query result
            end
        end
    end.

(** Whether the socket is to be replaced. *)
Fixpoint receive_packets (received : list RecvResult) : R bool :=
  match received with
  | [] => mret false
  | RecvError interrupted :: rest => if (interrupted : bool) then receive_packets rest else mret true
  | Datagram bytes :: rest => _ ← receive_datagram bytes; receive_packets rest
  end.

(** ** Transmission and retries *)

Definition tcp_deadline : ResolveFailure :=
  failure_classified DnsFailure.Io "the DNS-over-TCP fallback did not complete before its deadline".
Definition retries_exhausted : ResolveFailure :=
  failure_classified DnsFailure.NoNameserver "the configured DNS servers did not answer within the retry budget".

(** The effect of a successful [advance_nameserver] on the pending queries. *)
Definition restart_attempts (now : Z) (query : PendingQuery) : PendingQuery :=
  if is_udp query
  then set_servers_tried (saturating_add usize_max (servers_tried query) 1)
         (set_sent 0 (last_udp_generation query) now query)
  else query.

(** [match socket.send(&query.wire)]. *)
Definition record_send (sent : SendResult) (now generation : Z) (query : PendingQuery) : outcome Empty_set PendingQuery :=
  let failed := set_sent (q_attempt_limit query) generation now query in
  match sent with
  | Sent n =>
      if n =? len (wire query) then
        if attempts_sent query + 1 <=? u8_max
        then Ok (set_sent (attempts_sent query + 1) generation
                   (default now (instant_checked_add now (q_attempt_timeout query))) query)
        else Panic
      else Ok failed
  | SendBlocked => Ok (set_next_attempt (default now (instant_checked_add now (from_millis 1))) query)
  | SendError => Ok failed
  end.

(** The end of the loop's body: send the query, if it is still there and still
    on UDP. *)
Definition transmit (id now : Z) : R unit :=
  r ← get;
  match pending r !! id with
  | None => mret tt
  | Some query =>
      if is_udp query then
        sent ← ask (λ n, env_send n (wire query));
        query ← lift (record_send sent now (udp_generation r) query);
        pending_insert id query
      else mret tt
  end.

(** A query whose attempts are spent: try another nameserver, or give up. The
    answer says whether the configuration should be looked at again, and
    whether the query is gone. *)
Definition exhaust (id now : Z) (query : PendingQuery) : R (bool * bool) :=
  r ← get;
  let may_try_another := servers_tried query <? Z.of_nat (length (Config.nameservers (config r))) in
  advanced ← (if may_try_another then advance_nameserver else mret false);
  if (advanced : bool) then
    _ ← advance_udp_generation;
    _ ← modify (λ r, set_pending (restart_attempts now <$> pending r) r);
    mret (false, false)
  else
    r ← get;
    _ ← (if last_udp_generation query =? udp_generation r then
           replaced ← replace_current_nameserver;
           if (replaced : bool) then advance_udp_generation else mret tt
         else mret tt);
    removed ← pending_remove id;
    _ ← match removed with Some query => fail_query query retries_exhausted | None => mret tt end;
    mret (true, true).

(** One query of [due]; whether the configuration should be looked at again. *)
Definition transmit_one (now id : Z) : R bool :=
  r ← get;
  match pending r !! id with
  | None => _ ← transmit id now; mret false
  | Some query =>
      if negb (is_udp query) then
        removed ← remove_query id;
        _ ← match removed with Some query => fail_query query tcp_deadline | None => mret tt end;
        mret false
      else if q_attempt_limit query <=? attempts_sent query then
        '(dirty, gone) ← exhaust id now query;
        _ ← (if (gone : bool) then mret tt else transmit id now);
        mret dirty
      else _ ← transmit id now; mret false
  end.

Fixpoint transmit_loop (now : Z) (due : list Z) (config_dirty : bool) : R bool :=
  match due with
  | [] => mret config_dirty
  | id :: rest => dirty ← transmit_one now id; transmit_loop now rest (config_dirty || dirty)
  end.

Definition transmit_due : R bool :=
  now ← instant_now;
  r ← get;
  ids ← ask (λ n, env_keys n (dom (filter (λ iq, next_attempt iq.2 ≤ now) (pending r))));
  transmit_loop now ids false.

(** ** Configuration *)

Definition connect_error (failed : option string) : Error :=
  error_new ErrorKind.Internal
    (match failed with
     | None => "no DNS nameservers were configured"
     | Some error => "no configured DNS nameserver was reachable: " +:+ error
     end).

(** [connect_nameserver]: the first reachable one and its index. The text of an
    address is the operating system's. *)
Fixpoint connect_nameserver (index : Z) (servers : list SocketAddr) (last_error : option string)
  : R (Error + SocketAddr * Z) :=
  match servers with
  | [] => mret (inl (connect_error last_error))
  | nameserver :: rest =>
      connected ← ask (λ n, env_connect n nameserver);
      match connected with
      | None => mret (inr (nameserver, index))
      | Some error => connect_nameserver (index + 1) rest (Some error)
      end
  end.

Definition resolver_internal (operation error : string) : Error :=
  error_new ErrorKind.Internal ("native resolver " +:+ operation +:+ " failed: " +:+ error).

(** [connect_nameserver], then [poll.register]. *)
Definition connect_and_register (c : ResolverConfig) : R (Error + SocketAddr * Z) :=
  connected ← connect_nameserver 0 (Config.nameservers c) None;
  match connected with
  | inl error => mret (inl error)
  | inr replacement =>
      registered ← ask env_register;
      mret (match registered with
            | Some error => inl (resolver_internal "socket registration" error)
            | None => inr replacement
            end)
  end.

Definition retire_configured_socket : R unit := modify (set_socket None).

Definition install_configured_socket : R (Error + Z) :=
  r ← get;
  replacement ← connect_and_register (config r);
  _ ← retire_configured_socket;
  match replacement with
  | inl error => mret (inl error)
  | inr (nameserver, index) => _ ← modify (set_socket (Some nameserver)); mret (inr index)
  end.

Definition configuration_changed : ResolveFailure :=
  failure_classified DnsFailure.NoNameserver "the system DNS configuration changed while the lookup was pending".

Definition fail_pending_for_configuration_change : R unit :=
  r ← get;
  ids ← ask (λ n, env_keys n (dom (pending r)));
  for_each ids (λ id,
    removed ← remove_query id;
    match removed with Some query => fail_query query configuration_changed | None => mret tt end).

Definition transition_configuration_unavailable : R unit :=
  r ← get;
  if negb (config_available r) then mret tt
  else
    _ ← fail_pending_for_configuration_change;
    _ ← update_cache Cache.clear;
    _ ← retire_configured_socket;
    _ ← modify (set_config_available false);
    _ ← advance_config_generation;
    r ← get;
    send_control (config_generation r).

Definition no_nameservers_discovered : Error :=
  error_new ErrorKind.Internal "DNS discovery returned no nameservers or a zero retry budget".

Definition usable_snapshot (sn : ResolverSnapshot) : bool :=
  negb (bool_decide (Config.sn_nameservers sn = [])) && negb (Config.sn_attempts sn =? 0) &&
  negb (Config.sn_attempt_timeout sn =? 0).

(** [refresh_configuration_if_dirty] once there is a usable snapshot. *)
Definition apply_snapshot (sn : ResolverSnapshot) : R unit :=
  r ← get;
  let current := Config.snapshot (config r) in
  if config_available r && bool_decide (sn = current) then mret tt
  else
    let route_changed :=
      negb (config_available r) || negb (bool_decide (Config.sn_nameservers sn = Config.sn_nameservers current)) in
    if negb route_changed then
      _ ← modify (λ r, set_config (Config.apply sn (config r)) r);
      advance_config_generation
    else
      _ ← fail_pending_for_configuration_change;
      _ ← update_cache Cache.clear;
      _ ← modify (λ r, set_config (Config.apply sn (config r)) r);
      installed ← install_configured_socket;
      _ ← match installed with
          | inr index =>
              modify (λ r, set_config_error None (set_config_available true (set_current_nameserver index r)))
          | inl error => modify (λ r, set_config_error (Some error) (set_config_available false r))
          end;
      _ ← advance_config_generation;
      r ← get;
      send_control (config_generation r).

Definition refresh_configuration_if_dirty : R unit :=
  r ← get;
  if negb (config_dirty r) then mret tt
  else
    _ ← modify (set_config_dirty false);
    refresh ← match Config.refresh_interval (config r) with
              | Some interval => now ← instant_now; mret (instant_checked_add now interval)
              | None => mret None
              end;
    _ ← modify (set_next_config_refresh refresh);
    discovered ← match Config.source (config r) with
                 | Config.Static => mret None
                 | Config.System => d ← ask env_discover; mret (Config.rediscover (config r) d)
                 end;
    match discovered with
    | None => mret tt
    | Some (inr sn) =>
        if usable_snapshot sn then apply_snapshot sn
        else
          _ ← modify (set_config_error (Some no_nameservers_discovered));
          transition_configuration_unavailable
    | Some (inl error) =>
        _ ← modify (set_config_error (Some error));
        transition_configuration_unavailable
    end.

Definition configuration_unavailable_message (r : Resolver) : string :=
  let message := "the current system DNS configuration is unavailable or unsupported"%string in
  match config_error r with
  | Some error => message +:+ ": " +:+ Errors.message error
  | None => message
  end.
Definition configuration_unavailable_failure (r : Resolver) : ResolveFailure :=
  failure_classified DnsFailure.NoNameserver (configuration_unavailable_message r).

(** ** The thread *)

Definition resolve_command (k : Z) (host : list Z) : R unit :=
  _ ← withdraw k;
  r ← get;
  if negb (config_available r) then send_result (result_http k (inl (configuration_unavailable_failure r)))
  else
    parsed ← parse_dns_name host;
    match parsed with
    | inl failure => send_result (result_http k (inl failure))
    | inr name =>
        now ← instant_now;
        hit ← on_cache (Cache.get name now);
        match hit with
        | Some result => send_result (result_http k result)
        | None =>
            prepared ← prepare_name_query k name A 0
                         (Http (mkRetry (Config.attempts (config r)) (Config.attempt_timeout (config r))));
            match prepared with
            | inr (id, query) => enter_query id query
            | inl failure => send_result (result_http k (inl failure))
            end
        end
    end.

Definition public_resolve_command (k : Z) (spec : PublicResolveSpec) : R unit :=
  _ ← withdraw k;
  r ← get;
  if negb (config_available r) then
    let error := if unavailable_is_unsupported spec
                 then error_new ErrorKind.Unsupported (configuration_unavailable_message r)
                 else public_error (configuration_unavailable_failure r) in
    send_result (result_public k (Failed error))
  else
    begin_public_resolve k spec (Config.search_suffixes (config r))
      (mkRetry (Config.attempts (config r)) (Config.attempt_timeout (config r))).

(** A command comes off the channel. *)
Definition take_command (c : Command) : R unit := modify (λ r, set_log (log r ++ [Took c]) r).
(** The [try_recv] loop; whether the thread is to stop. *)
Fixpoint run_commands (commands : list Command) : R bool :=
  match commands with
  | [] => mret false
  | c :: rest =>
      _ ← take_command c;
      match c with
      | Cmd_Resolve k host => _ ← resolve_command k host; run_commands rest
      | Cmd_PublicResolve k spec => _ ← public_resolve_command k spec; run_commands rest
      | Cmd_Cancel k => _ ← withdraw k; run_commands rest
      | Cmd_Shutdown => mret true
      end
  end.

Definition poll_failed : ResolveFailure := failure_classified DnsFailure.Io "native resolver poll failed".
(** [fail_all]: [drain] iterates in some order. *)
Definition fail_all (failure : ResolveFailure) : R unit :=
  r ← get;
  ids ← ask (λ n, env_keys n (dom (pending r)));
  _ ← for_each ids (λ id,
        removed ← pending_remove id;
        match removed with Some query => emit_failure query failure | None => mret tt end);
  modify (set_by_key ∅).

(** [receive_packets] is given what [recv] returns until it would block. *)
Definition poll_phase (received : list RecvResult) : R bool :=
  _now ← instant_now;
  events ← ask env_poll;
  match events with
  | None => _ ← fail_all poll_failed; mret true
  | Some events =>
      r ← get;
      _ ← (if existsb (λ e, (e_token e =? SOCKET_TOKEN) && readable e) events && negb (is_none (socket r)) then
             poisoned ← receive_packets received;
             if (poisoned : bool) then
               replaced ← replace_current_nameserver;
               if (replaced : bool) then advance_udp_generation else mret tt
             else mret tt
           else mret tt);
      _ ← for_each (List.filter (λ e, FIRST_TCP_TOKEN <=? e_token e) events)
            (λ e, receive_tcp (e_token e) (readable e) (writable e));
      mret false
  end.

(** What comes in during a turn: the commands the channel holds and the
    datagrams (and errors) the socket has when it is polled. *)
Record Input := mkInput { commands : list Command; received : list RecvResult }.

(** One turn of the loop of [resolver_main]; whether the thread returns. The
    poll's timeout is not modelled. *)
Definition turn (i : Input) : R bool :=
  pumped ← ask env_pump;
  _ ← (if (pumped : bool) then modify (set_config_dirty true) else mret tt);
  r ← get;
  _ ← match next_config_refresh r with
      | Some deadline =>
          now ← instant_now;
          if deadline <=? now then modify (set_config_dirty true) else mret tt
      | None => mret tt
      end;
  _ ← refresh_configuration_if_dirty;
  stop ← run_commands (commands i);
  if (stop : bool) then mret true
  else
    _ ← refresh_configuration_if_dirty;
    r ← get;
    _ ← match socket r with
        | Some _ => dirty ← transmit_due; if (dirty : bool) then modify (set_config_dirty true) else mret tt
        | None => mret tt
        end;
    _ ← refresh_configuration_if_dirty;
    poll_phase (received i).

(** The thread's turns, until one of them stops it. *)
Fixpoint turns (script : list Input) : R bool :=
  match script with
  | [] => mret false
  | i :: rest => stop ← turn i; if (stop : bool) then mret true else turns rest
  end.

(** [NativeResolver::new_inner], once the poll exists: the thread's first
    state, or the error. *)
Definition initial (c : ResolverConfig) (start : Z) : Resolver :=
  mkResolver ∅ ∅ ∅ FIRST_TCP_TOKEN 0 1 1 true None false None Cache.new None c [] [] start 0.

Definition zero_retry : Error :=
  error_new ErrorKind.Internal "native resolver retry configuration must be nonzero".

Definition new_inner (c : ResolverConfig) : R (option Error) :=
  if (Config.attempts c =? 0) || (Config.attempt_timeout c =? 0) then mret (Some zero_retry)
  else
    connected ← connect_and_register c;
    match connected with
    | inl error => mret (Some error)
    | inr (nameserver, index) =>
        refresh ← match Config.refresh_interval c with
                  | Some interval => now ← instant_now; mret (instant_checked_add now interval)
                  | None => mret None
                  end;
        _ ← modify (λ r, set_next_config_refresh refresh
                           (set_current_nameserver index (set_socket (Some nameserver) r)));
        mret None
    end.

End resolver.
End Resolver.
