(* ===== verification/DnsTransportProofs.v ===== *)
(** * Identifiers, framing and answers of the resolver

    The parts of the resolver that do not depend on its history: a transaction
    identifier is found whenever there is one and some are kept for HTTP, a
    DNS-over-TCP message is reassembled from any segments, and a public lookup
    gets the addresses it asked for in the order and number it asked for. *)

From stdpp Require Import base list strings gmap.
From Stdlib Require Import ZArith Znumtheory Zpow_facts Lia.
From S2P Require Import Prelude Errors DnsWire DnsCache DnsConfig DnsAnswer DnsSession DnsResolver.

Import Wire Session Resolver.

(** ** Transaction identifiers *)

Definition is_id (i : Z) : Prop := 0 ≤ i ≤ u16_max.

Lemma find_free_spec p stride : ∀ k candidate,
  match find_free k p candidate stride with
  | Some i => p !! i = None ∧ (is_id candidate → is_id i)
  | None => ∀ n, (n < k)%nat → is_Some (p !! Nat.iter n (λ c, wrapping_add u16_max c stride) candidate)
  end.
Proof.
  induction k as [|k IH]; intros candidate; cbn [find_free]; [intros n Hn; lia|].
  destruct (p !! candidate) as [q|] eqn:Hq; [|done].
  specialize (IH (wrapping_add u16_max candidate stride)).
  destruct (find_free k p _ stride) as [i|].
  - split; [apply IH|]. intros _. apply IH. unfold is_id, wrapping_add, u16_max.
    pose proof (Z.mod_pos_bound (candidate + stride) (65535 + 1)). lia.
  - intros [|n] Hn; [cbn; rewrite Hq; by eexists|]. rewrite Nat.iter_succ_r. apply IH. lia.
Qed.

Lemma iter_stride stride n : ∀ c, is_id c →
  Nat.iter n (λ c, wrapping_add u16_max c stride) c = (c + Z.of_nat n * stride) mod DNS_TRANSACTION_ID_SPACE.
Proof.
  unfold is_id, DNS_TRANSACTION_ID_SPACE. induction n as [|n IH]; intros c Hc.
  - cbn. rewrite Z.mod_small; lia.
  - rewrite Nat.iter_succ, IH by done. unfold wrapping_add. rewrite Zplus_mod_idemp_l. f_equal. lia.
Qed.

(** An odd stride visits every identifier. *)
Lemma odd_stride_visits c i stride :
  Z.odd stride = true → is_id i →
  ∃ n, (n < Z.to_nat DNS_TRANSACTION_ID_SPACE)%nat ∧ (c + Z.of_nat n * stride) mod DNS_TRANSACTION_ID_SPACE = i.
Proof.
  unfold is_id, DNS_TRANSACTION_ID_SPACE. intros Hodd Hi.
  assert (Hprime : rel_prime stride (2 ^ 16)).
  { apply rel_prime_Zpower_r; [lia|]. apply Zgcd_1_rel_prime, Z.bezout_1_gcd.
    apply Z.odd_spec in Hodd as [k ->]. exists 1, (- k). lia. }
  apply rel_prime_bezout in Hprime as [u v Huv].
  set (m := ((i - c) * u) mod 65536). assert (Hm : 0 ≤ m < 65536) by (by apply Z.mod_pos_bound).
  exists (Z.to_nat m). change (u16_max + 1) with 65536. split; [lia|]. rewrite Z2Nat.id by lia.
  subst m. rewrite <-Zplus_mod_idemp_r, Zmult_mod_idemp_l, Zplus_mod_idemp_r.
  replace (c + (i - c) * u * stride) with (i + (- (i - c) * v) * 65536) by (change (2 ^ 16) with 65536 in Huv; nia).
  rewrite Z_mod_plus_full. apply Z.mod_small. unfold u16_max in Hi. lia.
Qed.

(** The identifiers of a table that holds them all. *)
Lemma all_ids_size (p : gmap Z PendingQuery) :
  (∀ i, is_id i → is_Some (p !! i)) → DNS_TRANSACTION_ID_SPACE ≤ Z.of_nat (size p).
Proof.
  intros Hall. rewrite <-size_dom.
  assert (Hsub : (list_to_set (seqZ 0 DNS_TRANSACTION_ID_SPACE) : gset Z) ⊆ dom p).
  { intros i Hi%elem_of_list_to_set%elem_of_seqZ. apply elem_of_dom, Hall. unfold is_id, DNS_TRANSACTION_ID_SPACE in *. lia. }
  apply subseteq_size in Hsub. rewrite size_list_to_set in Hsub by apply NoDup_seqZ.
  rewrite length_seqZ in Hsub. lia.
Qed.

Lemma find_free_succeeds p c stride :
  is_id c → Z.odd stride = true → Z.of_nat (size p) < DNS_TRANSACTION_ID_SPACE →
  is_Some (find_free (Z.to_nat DNS_TRANSACTION_ID_SPACE) p c stride).
Proof.
  intros Hc Hodd Hsize. pose proof (find_free_spec p stride (Z.to_nat DNS_TRANSACTION_ID_SPACE) c) as Hf.
  destruct (find_free _ p c stride) as [i|]; [by eexists|].
  assert (Hfull : DNS_TRANSACTION_ID_SPACE ≤ Z.of_nat (size p)); [|lia].
  apply all_ids_size. intros i Hi. destruct (odd_stride_visits c i stride Hodd Hi) as (n & Hn & <-).
  rewrite <-iter_stride by done. by apply Hf.
Qed.

(** The public queries of the table. *)
Definition public_queries (p : gmap Z PendingQuery) : gmap Z PendingQuery :=
  filter (λ iq, is_public (policy iq.2) = true) p.

Lemma queries_split p : (size p = size (http_queries p) + size (public_queries p))%nat.
Proof.
  unfold http_queries, public_queries.
  rewrite <-(map_filter_union_complement (λ iq : Z * PendingQuery, is_public (policy iq.2) = false) p) at 1.
  rewrite map_size_disj_union by apply map_disjoint_filter_complement. do 2 f_equal.
  apply map_filter_ext. intros i q _. cbn. by destruct (is_public (policy q)).
Qed.

Lemma lor_one_odd bits : Z.odd (Z.lor bits 1) = true.
Proof. rewrite <-Z.bit0_odd, Z.lor_spec. apply orb_true_r. Qed.

Lemma available_counts (h p : Z) :
  0 ≤ h → 0 ≤ p →
  if public_txid_available_counts h (h + p)
  then p < DNS_TRANSACTION_ID_SPACE - HTTP_DNS_TXID_RESERVE ∧ h + p < DNS_TRANSACTION_ID_SPACE
  else DNS_TRANSACTION_ID_SPACE ≤ h + p ∨ DNS_TRANSACTION_ID_SPACE - HTTP_DNS_TXID_RESERVE ≤ p.
Proof.
  intros Hh Hp. unfold public_txid_available_counts, saturating_sub, DNS_TRANSACTION_ID_SPACE, HTTP_DNS_TXID_RESERVE, u16_max.
  destruct (_ <=? _) eqn:Hfull; [apply Z.leb_le in Hfull; left; lia|apply Z.leb_gt in Hfull]. zcase; lia.
Qed.

Lemma public_insert_size p id q :
  p !! id = None → (size (public_queries (<[id := q]> p)) ≤ S (size (public_queries p)))%nat.
Proof.
  intros Hid. unfold public_queries. rewrite map_filter_insert. case_decide.
  - rewrite map_size_insert_None; [done|]. apply map_lookup_filter_None. by left.
  - rewrite delete_id by done. lia.
Qed.

(** C27: an identifier is allocated to a query whenever one is free: the
    identifier returned is a free 16-bit one, the search (a random start and an
    odd stride) fails only when all 65,536 are taken, and random numbers being
    unavailable is the only other error. Public lookups are admitted only while
    they leave 1,024 identifiers to HTTP: never more than 64,512 of them are
    pending, so HTTP is refused only when 1,024 of its own queries are. *)
Theorem transaction_ids p public entropy :
  match entropy with inr (start, bits) => is_id start | inl _ => True end →
  match allocate_id_with_random p public entropy with
  | inl _ => ∃ error, entropy = inl error
  | inr (Some id) =>
      is_id id ∧ p !! id = None ∧
      (public = true → ∀ q,
         Z.of_nat (size (public_queries (<[id := q]> p))) ≤ DNS_TRANSACTION_ID_SPACE - HTTP_DNS_TXID_RESERVE)
  | inr None =>
      let full := DNS_TRANSACTION_ID_SPACE ≤ Z.of_nat (size p) in
      let publics := Z.of_nat (size (public_queries p)) in
      if public then full ∨ DNS_TRANSACTION_ID_SPACE - HTTP_DNS_TXID_RESERVE ≤ publics
      else full ∧ (publics ≤ DNS_TRANSACTION_ID_SPACE - HTTP_DNS_TXID_RESERVE →
                   HTTP_DNS_TXID_RESERVE ≤ Z.of_nat (size (http_queries p)))
  end.
Proof.
  intros Hent. unfold allocate_id_with_random, public_txid_available. pose proof (queries_split p) as Hsplit.
  pose proof (available_counts (Z.of_nat (size (http_queries p))) (Z.of_nat (size (public_queries p)))) as Hav.
  rewrite Hsplit, Nat2Z.inj_add in *. specialize (Hav (Nat2Z.is_nonneg _) (Nat2Z.is_nonneg _)).
  destruct (public_txid_available_counts _ _) eqn:Hc; cbn [negb].
  2: { destruct public; cbn [andb]; [done|]. zcase; [split; [done|lia]|].
       destruct Hav; [lia|]. destruct entropy as [e|[start bits]]; [by eexists|].
       destruct (find_free_succeeds p start (Z.lor bits 1) Hent (lor_one_odd _)) as [id Hid]; [lia|]. rewrite Hid.
       pose proof (find_free_spec p (Z.lor bits 1) (Z.to_nat DNS_TRANSACTION_ID_SPACE) start) as Hf. rewrite Hid in Hf.
       destruct Hf as [? ?]. by split_and!; [auto| |]. }
  rewrite andb_false_r. rewrite (proj2 (Z.leb_gt _ _)) by lia.
  destruct entropy as [e|[start bits]]; [by eexists|].
  destruct (find_free_succeeds p start (Z.lor bits 1) Hent (lor_one_odd _)) as [id Hid]; [lia|]. rewrite Hid.
  pose proof (find_free_spec p (Z.lor bits 1) (Z.to_nat DNS_TRANSACTION_ID_SPACE) start) as Hf. rewrite Hid in Hf.
  destruct Hf as [Hfree ?]. split_and!; [auto|done|]. intros _ q. pose proof (public_insert_size p id q Hfree). lia.
Qed.

Lemma transaction_ids_witness :
  match allocate_id_with_random ∅ true (inr (65535, 6)) with
  | inr (Some id) => is_id id ∧ (∅ : gmap Z PendingQuery) !! id = None
  | _ => False
  end.
Proof.
  pose proof (transaction_ids ∅ true (inr (65535, 6))) as H.
  assert (Hid : is_id 65535) by (split; [discriminate|reflexivity]). specialize (H Hid).
  change (allocate_id_with_random ∅ true (inr (65535, 6))) with (@inr ResolveFailure _ (Some 65535)) in *.
  split; apply H.
Defined.

(** ** DNS over TCP *)

Section framing.
Context {tgt : Target}.

(** The fallback reads what has arrived each time its stream is readable. *)
Fixpoint deliver (events : list (list ReadResult)) (tcp : TcpFallback)
  : outcome Empty_set (TcpFallback * (ResolveFailure + TcpDrive)) :=
  match events with
  | [] => Ok (tcp, inr Drive_Pending)
  | reads :: rest =>
      step ← read_loop reads tcp;
      match step with
      | (tcp, inr Drive_Pending) => deliver rest tcp
      | done => Ok done
      end
  end.

(** What [TcpStream::read] returns into a buffer of 1,024 bytes before the end
    of the stream. *)
Definition segment (chunk : list Z) : Prop := chunk ≠ [] ∧ len chunk ≤ TCP_READ_BUFFER.

Lemma read_loop_app a b tcp :
  read_loop (a ++ b) tcp =
  (step ← read_loop a tcp; match step with (tcp, inr Drive_Pending) => read_loop b tcp | done => Ok done end).
Proof.
  revert tcp. induction a as [|[bytes|e] a IH]; intros tcp; cbn [read_loop app]; [done| |done].
  case_bool_decide; [done|]. destruct (accept_read _ tcp) as [[tcp' [f|[|m]]]|e| |]; cbn; [done|apply IH|done..].
Qed.

Lemma deliver_concat events : ∀ tcp, deliver events tcp = read_loop (concat events) tcp.
Proof.
  induction events as [|reads events IH]; intros tcp; cbn [deliver concat]; [done|]. rewrite read_loop_app.
  destruct (read_loop reads tcp) as [[tcp' [f|[|m]]]|e| |]; cbn; [done|apply IH|done..].
Qed.

Section message.
Context (t : Z) (out : list Z) (w : Z) (message : list Z).
Context (Hlen : 1 ≤ len message ≤ DNS_PACKET_LIMIT).

Definition frame : list Z := u16_to_be_bytes (len message) ++ message.
Definition partial (p : list Z) : TcpFallback :=
  mkTcp t out w p (if 2 <=? len p then Some (len message) else None).
Definition verdict (missing : list Z) : ResolveFailure + TcpDrive :=
  inr (if bool_decide (missing = []) then Drive_Message message else Drive_Pending).

Lemma frame_len : len frame = len message + 2.
Proof. unfold frame. rewrite len_app. change (len (u16_to_be_bytes _)) with 2. lia. Qed.

(** The length once two bytes of the frame are there. *)
Lemma frame_size {E} p missing :
  p ++ missing = frame → 2 ≤ len p →
  ∃ a b, @index E p 0 = Ok a ∧ @index E p 1 = Ok b ∧ u16_from_be_bytes a b = len message.
Proof.
  unfold frame, u16_to_be_bytes. intros Hf Hp. destruct p as [|a [|b p]].
  - rewrite len_nil in Hp. lia.
  - rewrite len_cons, len_nil in Hp. lia.
  - cbn in Hf. injection Hf as -> -> _. eexists _, _. split; [done|split; [done|]].
    unfold u16_from_be_bytes. unfold DNS_PACKET_LIMIT in Hlen. Z.to_euclidean_division_equations. lia.
Qed.

Lemma accept_segment p chunk missing :
  p ++ chunk ++ missing = frame →
  accept_read chunk (partial p) = Ok (partial (p ++ chunk), verdict missing).
Proof.
  intros Hf. pose proof frame_len as Hfl. rewrite <-Hf, !len_app in Hfl. pose proof usize_bounds.
  pose proof (len_nonneg p). pose proof (len_nonneg chunk). pose proof (len_nonneg missing).
  unfold accept_read. cbn [inbound partial expected].
  rewrite (proj2 (Z.ltb_ge _ _)) by (unfold saturating_add, DNS_PACKET_LIMIT, u32_max in *; lia).
  assert (Hf' : (p ++ chunk) ++ missing = frame) by (by rewrite <-app_assoc).
  assert (Hsub : missing = [] → @slice Empty_set (p ++ chunk) 2 (len message + 2) = Ok message).
  { intros ->. rewrite app_nil_r in Hf'. rewrite Hf'. unfold frame.
    pose proof (@slice_middle Empty_set (u16_to_be_bytes (len message)) message []) as Hs.
    rewrite app_nil_r in Hs. by replace (len message + 2) with (len (u16_to_be_bytes (len message)) + len message) by (change (len (u16_to_be_bytes _)) with 2; lia). }
  set (bytes := p ++ chunk) in *. assert (Hb : len bytes = len p + len chunk) by apply len_app.
  assert (Hsized : ∀ (f : _ → outcome Empty_set (TcpFallback * (ResolveFailure + TcpDrive))),
    (sized ← (if is_none (if 2 <=? len p then Some (len message) else None) && (2 <=? len bytes) then
       first ← index bytes 0; second ← index bytes 1;
       let e := u16_from_be_bytes first second in
       if (e =? 0) || (DNS_PACKET_LIMIT <? e)
       then Ok (inl (tcp_failure DnsFailure.Malformed "DNS-over-TCP response length is invalid"))
       else Ok (inr (Some e))
     else Ok (inr (if 2 <=? len p then Some (len message) else None))); f sized) =
    f (inr (if 2 <=? len bytes then Some (len message) else None))).
  { intros f. destruct (Z.leb_spec 2 (len p)); cbn [is_none andb].
    - by rewrite (proj2 (Z.leb_le 2 (len bytes))) by lia.
    - destruct (Z.leb_spec 2 (len bytes)) as [Htwo|Htwo]; [|done].
      destruct (@frame_size Empty_set bytes missing Hf' Htwo) as (a & b & -> & -> & He). cbn. rewrite He.
      rewrite (proj2 (Z.eqb_neq _ _)), (proj2 (Z.ltb_ge _ _)) by lia. done. }
  cbn [set_inbound expected token outbound written]. rewrite Hsized. clear Hsized. cbn [set_inbound token outbound written].
  unfold partial, verdict. destruct (Z.leb_spec 2 (len bytes)); cbn iota beta.
  - case_bool_decide as Hm.
    + rewrite (proj2 (Z.leb_le _ _)) by (subst missing; rewrite len_nil in *; lia). by rewrite Hsub.
    + assert (len missing ≠ 0) by (by intros ?%len_zero).
      by rewrite (proj2 (Z.leb_gt _ _)) by lia.
  - rewrite bool_decide_eq_false_2; [done|]. intros ->. rewrite len_nil in *. lia.
Qed.

Lemma read_segments chunks : ∀ p missing,
  Forall segment chunks → p ++ concat chunks ++ missing = frame → chunks ≠ [] →
  read_loop (map ReadBytes chunks) (partial p) = Ok (partial (p ++ concat chunks), verdict missing).
Proof.
  induction chunks as [|chunk chunks IH]; intros p missing Hseg Hf Hne; [done|].
  apply Forall_cons in Hseg as [[Hc Hcl] Hseg]. cbn [map read_loop concat] in *.
  rewrite (take_ge chunk) by (unfold TCP_READ_BUFFER, len in *; lia). rewrite bool_decide_eq_false_2 by done.
  rewrite <-app_assoc in Hf. rewrite (accept_segment p chunk (concat chunks ++ missing)) by auto. cbn.
  unfold verdict at 1. destruct chunks as [|c' chunks].
  - cbn [concat map read_loop app]. rewrite (app_nil_r chunk). unfold verdict. by case_bool_decide.
  - rewrite bool_decide_eq_false_2.
    2: { apply Forall_cons in Hseg as [[Hc' _] _]. cbn. by destruct c'. }
    rewrite (app_assoc p chunk). apply IH; [done| |done]. by rewrite <-app_assoc.
Qed.
End message.

(** A DNS-over-TCP message is reassembled whatever the segments it arrives
    in and however they are spread over the events of the stream: nothing is
    taken for a message before the last byte of the frame, and then the message
    is exactly what the two length bytes enclose. *)
Theorem tcp_reassembly token outbound written message events missing :
  1 ≤ len message ≤ DNS_PACKET_LIMIT →
  Forall segment (concat events) →
  concat (concat events) ++ missing = u16_to_be_bytes (len message) ++ message →
  ∃ tcp, deliver (map (map ReadBytes) events) (mkTcp token outbound written [] None) =
         Ok (tcp, inr (if bool_decide (missing = []) then Drive_Message message else Drive_Pending)).
Proof.
  intros Hlen Hseg Hf. rewrite deliver_concat, <-concat_map.
  destruct (concat events) as [|c chunks] eqn:Hc.
  { cbn in *. exists (mkTcp token outbound written [] None). rewrite bool_decide_eq_false_2; [done|]. by intros ->. }
  exists (partial token outbound written message (concat (c :: chunks))).
  by apply (read_segments token outbound written message Hlen (c :: chunks) [] missing).
Qed.
End framing.

Lemma tcp_reassembly_witness :
  ∃ tcp, @deliver target64 [[ReadBytes [0]]; [ReadBytes [3; 7]; ReadBytes [8]]; []; [ReadBytes [9]]]
           (mkTcp 2 [] 0 [] None) = Ok (tcp, inr (Drive_Message [7; 8; 9])).
Proof.
  apply (@tcp_reassembly target64 2 [] 0 [7; 8; 9] [[[0]]; [[3; 7]; [8]]; []; [[9]]] []).
  - split; discriminate.
  - repeat (constructor; [split; discriminate|]). constructor.
  - reflexivity.
Defined.

(** ** What a public lookup gets *)

(** The outcomes of the families a session asks for. *)
Definition families (s : PublicSession) : list FamilyOutcome :=
  match family s with
  | AddressFamily.Ipv4 => option_list (ipv4 s)
  | AddressFamily.Ipv6 => option_list (ipv6 s)
  | AddressFamily.Both => option_list (ipv4 s) ++ option_list (ipv6 s)
  end.

(** A family has addresses exactly if it was answered. *)
Definition outcome_ok (f : FamilyOutcome) : Prop := status f = ResolveStatus.Answer ↔ outcome_addresses f ≠ [].

(** Their addresses, in the order asked for; none if the name does not exist. *)
Definition found (s : PublicSession) : list IpAddr :=
  if existsb (λ f, bool_decide (status f = ResolveStatus.NameNotFound)) (families s) then []
  else concat (map outcome_addresses
         (match order s with AddressOrder.Ipv4ThenIpv6 => families s | AddressOrder.Ipv6ThenIpv4 => reverse (families s) end)).

(** The earliest of some times, if all of them are known. *)
Fixpoint earliest (l : list (option Z)) : option Z :=
  match l with
  | [] => None
  | [x] => x
  | x :: rest => match x, earliest rest with Some a, Some b => Some (Z.min a b) | _, _ => None end
  end.

Lemma truncate_ge n l : len l ≤ n → truncate n l = l.
Proof. intros Hn. unfold truncate. apply take_ge. unfold len in Hn. lia. Qed.
Lemma truncate_nil n l : 1 ≤ n → truncate n l = [] → l = [].
Proof. unfold truncate. intros Hn Ht. destruct l; [done|]. destruct (Z.to_nat n) eqn:He; [lia|done]. Qed.

(** Cutting the first family and then the second is cutting both. *)
Lemma truncate_app n (a b : list IpAddr) :
  0 ≤ n → truncate n a ++ truncate (saturating_sub n (len (truncate n a))) b = truncate n (a ++ b).
Proof.
  intros Hn. unfold truncate, saturating_sub, len. rewrite take_app, length_take. f_equal. f_equal. lia.
Qed.

Definition cut (n : Z) (l : list IpAddr) : list IpAddr := if n <? len l then truncate n l else l.
Lemma cut_truncate n l : cut n l = truncate n l.
Proof. unfold cut. zcase; [done|]. by rewrite truncate_ge by lia. Qed.
Lemma truncate_twice n l : truncate n (truncate n l) = truncate n l.
Proof. unfold truncate. rewrite take_take. f_equal. lia. Qed.

Lemma min_valid_both f4 f6 : min_valid_until (Some f4) (Some f6) = earliest [valid_until f4; valid_until f6].
Proof. unfold min_valid_until. cbn. by destruct (valid_until f4), (valid_until f6). Qed.

Lemma answered_ok f : outcome_ok f → answered_addresses (Some f) = outcome_addresses f.
Proof.
  unfold outcome_ok, answered_addresses. intros Hf. case_bool_decide; [done|].
  destruct (outcome_addresses f); [done|]. by destruct Hf as [_ Hf]; destruct H; apply Hf.
Qed.

(** One of the two orders: [a] first, then [b]. *)
Lemma cut_two n (a b : list IpAddr) :
  0 ≤ n →
  let p := if n <? len a + len b then (truncate n a, truncate (saturating_sub n (len (truncate n a))) b) else (a, b) in
  fst p ++ snd p = truncate n (a ++ b).
Proof.
  intros Hn. cbv zeta. zcase; cbn [fst snd]; [by apply truncate_app|]. rewrite truncate_ge; [done|]. rewrite len_app. lia.
Qed.

Lemma combine_both_spec s f4 f6 :
  family s = AddressFamily.Both → ipv4 s = Some f4 → ipv6 s = Some f6 → outcome_ok f4 → outcome_ok f6 → 1 ≤ max_results s →
  ∃ st, combine_both s = (st, truncate (max_results s) (found s), earliest (map valid_until (families s))) ∧
        (st = ResolveStatus.Answer ↔ found s ≠ []).
Proof.
  intros Hfam H4 H6 Ho4 Ho6 Hmax. assert (Hfs : families s = [f4; f6]) by (unfold families; by rewrite Hfam, H4, H6).
  unfold combine_both, found. rewrite Hfs, H4, H6, min_valid_both. cbn [has_status existsb map]. rewrite (orb_false_r (bool_decide (status f6 = _))).
  destruct (bool_decide (status f4 = _) || _); [eexists; split; [by unfold truncate; rewrite take_nil|done]|].
  rewrite !answered_ok by done. set (a4 := outcome_addresses f4). set (a6 := outcome_addresses f6).
  assert (Hend : ∀ x y l addrs : list IpAddr, addrs = truncate (max_results s) l → (x = [] ∧ y = [] ↔ addrs = []) →
    ∃ st, match x, y with
          | [], [] => (ResolveStatus.NoData, @nil IpAddr, earliest [valid_until f4; valid_until f6])
          | _, _ => (ResolveStatus.Answer, addrs, earliest [valid_until f4; valid_until f6])
          end = (st, truncate (max_results s) l, earliest [valid_until f4; valid_until f6]) ∧
          (st = ResolveStatus.Answer ↔ l ≠ [])).
  { intros x y l addrs -> Hnil. assert (Hl : l = [] ↔ truncate (max_results s) l = []).
    { split; [intros ->; by unfold truncate; rewrite take_nil|by apply truncate_nil]. }
    setoid_rewrite Hl. setoid_rewrite <-Hnil. destruct x as [|i x], y as [|j y].
    - rewrite (proj1 Hnil) by done. eexists. split; [done|]. by split; [|intros []].
    - eexists. split; [done|]. by split; [intros _ [_ ?]|].
    - eexists. split; [done|]. by split; [intros _ [? _]|].
    - eexists. split; [done|]. by split; [intros _ [? _]|]. }
  destruct (order s).
  - pose proof (cut_two (max_results s) a4 a6) as Hcut. cbv zeta in Hcut. destruct (if _ <? _ then _ else _) as [x y].
    cbn in Hcut |- *. rewrite app_nil_r. apply Hend; [apply Hcut; lia|]. split; [by intros [-> ->]|apply app_eq_nil].
  - pose proof (cut_two (max_results s) a6 a4) as Hcut. rewrite (Z.add_comm (len a6)) in Hcut. cbv zeta in Hcut.
    destruct (_ <? _); cbn in Hcut |- *; rewrite app_nil_r.
    + apply Hend; [apply Hcut; lia|]. split; [by intros [-> ->]|intros [? ?]%app_eq_nil; done].
    + apply Hend; [apply Hcut; lia|]. split; [by intros [-> ->]|intros [? ?]%app_eq_nil; done].
Qed.

(** The negative candidates of a search, recorded one after the other. *)
Definition record_negatives (negatives : list (ResolveStatus.t * option Z)) (s : PublicSession) : PublicSession :=
  foldl (λ s n, record_search_negative n.1 n.2 s) s negatives.

(** [earliest], accumulated from the left. *)
Definition earlier (validity : option (option Z)) (until : option Z) : option Z :=
  match validity, until with
  | None, until => until
  | Some (Some previous), Some expires => Some (Z.min previous expires)
  | _, _ => None
  end.
Lemma earliest_cons validity x l : earliest (option_list validity ++ x :: l) = earliest (earlier validity x :: l).
Proof.
  destruct validity as [v|]; [|done]. destruct l as [|y l]; cbn; [by destruct v, x|].
  destruct v as [v|], x as [x|]; cbn; try done; destruct l; cbn; try (by destruct y); repeat case_match; simplify_eq; try done; f_equal; lia.
Qed.

Lemma record_negatives_spec negatives : ∀ s,
  record_negatives negatives s =
  set_negative (saw_nodata s || existsb (λ n, bool_decide (n.1 = ResolveStatus.NoData)) negatives)
    (match negatives with
     | [] => negative_validity s
     | _ => Some (earliest (option_list (negative_validity s) ++ map snd negatives))
     end) s.
Proof.
  induction negatives as [|n negatives IH]; intros s; cbn [record_negatives foldl existsb].
  - rewrite orb_false_r. by destruct s.
  - change (foldl _ ?x negatives) with (record_negatives negatives x). rewrite IH. cbn [map].
    rewrite earliest_cons. unfold record_search_negative.
    assert (He : match negative_validity s, n.2 with
                 | None, until => until
                 | Some None, _ | Some _, None => None
                 | Some (Some previous), Some expires => Some (Z.min previous expires)
                 end = earlier (negative_validity s) n.2) by (by destruct (negative_validity s) as [[]|], (n.2)).
    rewrite He. unfold set_negative. cbn. f_equal.
    + case_bool_decide; [by rewrite orb_true_r|done].
    + by destruct negatives.
Qed.

Lemma session_response_spec s :
  Forall outcome_ok (families s) → 1 ≤ max_results s → session_needs s = None →
  ∃ st addresses, session_response s = (st, addresses, earliest (map valid_until (families s))) ∧
    truncate (max_results s) addresses = truncate (max_results s) (found s) ∧
    (st = ResolveStatus.Answer ↔ found s ≠ []).
Proof.
  intros Hok Hmax Hneeds. unfold session_response, session_needs in *.
  assert (Hone : ∀ f, families s = [f] →
    ∃ st addresses, family_response (Some f) = (st, addresses, earliest (map valid_until (families s))) ∧
      truncate (max_results s) addresses = truncate (max_results s) (found s) ∧
      (st = ResolveStatus.Answer ↔ found s ≠ [])).
  { intros f Hf. rewrite Hf in Hok. apply Forall_cons in Hok as [Hok _]. unfold found. rewrite Hf. cbn [existsb family_response map earliest].
    eexists _, _. split; [done|]. rewrite orb_false_r. unfold outcome_ok in Hok.
    assert (He : concat (map outcome_addresses match order s with
        AddressOrder.Ipv4ThenIpv6 => [f] | AddressOrder.Ipv6ThenIpv4 => reverse [f] end) = outcome_addresses f)
      by (destruct (order s); cbn; apply app_nil_r).
    rewrite He. case_bool_decide as Hn; [|done]. destruct (outcome_addresses f) as [|i l]; [done|].
    assert (status f = ResolveStatus.Answer) by (by apply Hok). congruence. }
  unfold families in Hone |- *. destruct (family s) eqn:Hfam.
  - destruct (ipv4 s) as [f|] eqn:H4; [by apply Hone|done].
  - destruct (ipv6 s) as [f|] eqn:H6; [by apply Hone|done].
  - destruct (ipv4 s) as [f4|] eqn:H4; [|done]. destruct (ipv6 s) as [f6|] eqn:H6; [|done].
    assert (Hfs : families s = [f4; f6]) by (unfold families; by rewrite Hfam, H4, H6).
    rewrite Hfs in Hok. apply Forall_cons in Hok as [Ho4 Hok]. apply Forall_cons in Hok as [Ho6 _].
    destruct (combine_both_spec s f4 f6) as (st & Hc & Hst); try done. exists st, (truncate (max_results s) (found s)).
    split_and!; [by rewrite Hc, Hfs|apply truncate_twice|done].
Qed.

(** What a public lookup is told once its families are known, after any
    number of negative candidates: the first [max_results] of the addresses
    found, one family after the other in the order asked for, valid as long as
    every family is; or, if the last candidate has none either, NODATA if some
    candidate existed and otherwise name not found, valid as long as all the
    negative answers are. *)
Theorem public_response_exact s negatives :
  Forall outcome_ok (families s) → 1 ≤ max_results s → session_needs s = None →
  saw_nodata s = false → negative_validity s = None →
  complete_public_session (record_negatives negatives s) =
  match found s with
  | [] =>
      Completed (session_identity s)
        (if existsb (λ n, bool_decide (n.1 = ResolveStatus.NoData)) negatives
         then ResolveStatus.NoData else ResolveStatus.NameNotFound)
        [] (earliest (map snd negatives)) (from_cache s) None
  | addresses =>
      Completed (session_identity s) ResolveStatus.Answer (take (Z.to_nat (max_results s)) addresses)
        (earliest (map valid_until (families s))) (from_cache s) (Some (candidate s))
  end.
Proof.
  intros Hok Hmax Hneeds Hsaw Hval. destruct (session_response_spec s) as (st & addrs & Hr & Ht & Hst); try done.
  rewrite record_negatives_spec, Hsaw, Hval. cbn [orb option_list app]. unfold complete_public_session.
  change (session_response (set_negative _ _ s)) with (session_response s). rewrite Hr.
  cbn [max_results session_identity from_cache candidate saw_nodata negative_validity set_negative].
  change (if max_results s <? len addrs then _ else _) with (cut (max_results s) addrs). rewrite cut_truncate, Ht.
  destruct (found s) as [|i l].
  - rewrite bool_decide_eq_false_2 by (intros ->; by apply Hst). unfold truncate. rewrite take_nil.
    f_equal. by destruct negatives.
  - assert (Ha : st = ResolveStatus.Answer) by (by apply Hst). by rewrite Ha, bool_decide_eq_true_2 by done.
Qed.

Lemma public_response_exact_witness :
  let f4 := mkOutcome ResolveStatus.Answer [V4 192 0 2 1; V4 192 0 2 2] (Some 90) in
  let f6 := mkOutcome ResolveStatus.Answer [V6 [32; 1; 13; 184; 0; 0; 0; 0; 0; 0; 0; 0; 0; 0; 0; 1]] (Some 70) in
  let s := mkSession (bs "www") (bs "www.example") [bs "www.corp"; bs "www.example"] 1 AddressFamily.Both
             AddressOrder.Ipv6ThenIpv4 CacheMode.Use 2 (Some f4) (Some f6) false false None (mkRetry 2 5) in
  complete_public_session (record_negatives [(ResolveStatus.NameNotFound, Some 40)] s) =
  Completed (bs "www") ResolveStatus.Answer [V6 [32; 1; 13; 184; 0; 0; 0; 0; 0; 0; 0; 0; 0; 0; 0; 1]; V4 192 0 2 1]
    (Some 70) false (Some (bs "www.example")).
Proof.
  intros f4 f6 s. refine (public_response_exact s _ _ _ _ _ _).
  - repeat (constructor; [split; [intros _; discriminate|reflexivity]|]). constructor.
  - discriminate.
  - reflexivity.
  - reflexivity.
  - reflexivity.
Defined.
