(* ===== verification/DnsResolverProofs.v ===== *)
(** * Invariants of the resolver

    [serves] is what the resolver promises its caller, of the commands it takes
    and the results it sends, in their order: every result answers a lookup
    that has been asked for, and since then neither cancelled nor answered.
    [Inv] relates it to the resolver's maps, and holds before and after every
    operation of the thread. *)

From stdpp Require Import base list strings gmap.
From Stdlib Require Import ZArith Lia.
From S2P Require Import Prelude Errors DnsWire DnsWireProofs DnsCache DnsConfig DnsConfigProofs DnsAnswer DnsAnswerProofs DnsSession DnsResolver.

Import Wire Answer Session Resolver.
Import Config (SocketAddr, ResolverConfig, ResolverSnapshot, DiscoveredResolverConfig).
Import Cache (DnsCache).

(** ** The promise *)

(** The lookups wanted after a command. *)
Definition accept (c : Command) (O : gset Z) : gset Z :=
  match c with
  | Cmd_Resolve k _ | Cmd_PublicResolve k _ => {[ k ]} ∪ O
  | Cmd_Cancel k => O ∖ {[ k ]}
  | Cmd_Shutdown => O
  end.

(** From the wanted lookups [O], taking the commands and sending the results in
    this order leaves [O']: a result answers a lookup that is wanted when it is
    sent, and from then on it is wanted no more. *)
Inductive serves : gset Z → list Traffic → gset Z → Prop :=
| serves_done O : serves O [] O
| serves_answer O res l O' :
    r_key res ∈ O → serves (O ∖ {[ r_key res ]}) l O' → serves O (Gave res :: l) O'
| serves_command O c l O' : serves (accept c O) l O' → serves O (Took c :: l) O'.

Lemma serves_app O l O' l' O'' : serves O l O' → serves O' l' O'' → serves O (l ++ l') O''.
Proof. induction 1; intros H'; cbn; [done|..]; by constructor; auto. Qed.

(** All traffic so far, with the commands taken. *)
Definition served (cmds : list Command) (l : list Traffic) (O : gset Z) : Prop := serves ∅ l O ∧ omap took l = cmds.

Lemma served_answer cmds l O res :
  served cmds l O → r_key res ∈ O → served cmds (l ++ [Gave res]) (O ∖ {[ r_key res ]}).
Proof.
  intros [Hs <-] Hin. split; [eapply serves_app; [done|]; by repeat constructor|]. by rewrite omap_app, app_nil_r.
Qed.
Lemma served_command cmds l O c : served cmds l O → served (cmds ++ [c]) (l ++ [Took c]) (accept c O).
Proof. intros [Hs <-]. split; [eapply serves_app; [done|]; repeat constructor|]. by rewrite omap_app. Qed.

(** ** The maps and the wanted lookups *)

(** The lookup the thread is working on: still in [by_key], or not. *)
Inductive hand := Free | Held (k : Z) | Loose (k : Z).
Definition hand_key (h : hand) : option Z := match h with Free => None | Held k | Loose k => Some k end.

(** [exact]: nothing wanted is forgotten. *)
Record covers (exact : bool) (O : gset Z) (h : hand) (r : Resolver) : Prop := {
  cv_key : ∀ id q, pending r !! id = Some q →
    by_key r !! key q = Some id ∧ key q ∈ O ∧ hand_key h ≠ Some (key q);
  cv_hand : ∀ k, hand_key h = Some k → k ∈ O;
  cv_loose : ∀ k, h = Loose k → by_key r !! k = None;
  cv_owed : exact = true → ∀ k, k ∈ O → hand_key h = Some k ∨ is_Some (by_key r !! k);
  cv_known : exact = true → ∀ k id, by_key r !! k = Some id →
    hand_key h = Some k ∨ ∃ q, pending r !! id = Some q ∧ key q = k
}.

Definition lookups (exact : bool) (cmds : list Command) (h : hand) (r : Resolver) : Prop :=
  ∃ O, served cmds (log r) O ∧ covers exact O h r.

(** ** Bounds *)

Section inv.
Context {tgt : Target} {env : Env}.

Definition retry_ok (p : RetryPolicy) : Prop := 1 ≤ attempt_limit p ≤ u8_max.
Definition session_ok (s : PublicSession) : Prop :=
  retry_ok (Session.retry s) ∧ 0 ≤ candidate_index s ∧ len (candidates s) < usize_max.
Definition policy_ok (p : QueryPolicy) : Prop :=
  retry_ok (policy_retry p) ∧ match p with Public s => session_ok s | Http _ => True end.

Definition tcp_ok (tcp : TcpFallback) : Prop :=
  Forall is_byte (inbound tcp) ∧ match expected tcp with Some e => 1 ≤ e ≤ DNS_PACKET_LIMIT | None => True end.

Record q_ok (q : PendingQuery) : Prop := {
  qo_limit : 1 ≤ q_attempt_limit q ≤ u8_max;
  qo_attempts : 0 ≤ attempts_sent q ≤ q_attempt_limit q;
  qo_hops : 0 ≤ cname_hops q ≤ MAX_CNAME_HOPS;
  qo_policy : policy_ok (policy q);
  qo_tcp : match transport q with Tcp tcp => tcp_ok tcp | Udp => True end
}.

Definition token_of (q : PendingQuery) : option Z :=
  match transport q with Tcp tcp => Some (token tcp) | Udp => None end.
Lemma token_of_some q t : token_of q = Some t ↔ ∃ tcp, transport q = Tcp tcp ∧ token tcp = t.
Proof. unfold token_of. destruct (transport q) as [|tcp]; naive_solver. Qed.

(** The tokens are those of the fallbacks under way, and new ones are fresh. *)
Record tokens_ok (r : Resolver) : Prop := {
  tk_known : ∀ t id, tcp_by_token r !! t = Some id →
    t < next_tcp_token r ∧ ∃ q tcp, pending r !! id = Some q ∧ transport q = Tcp tcp ∧ token tcp = t;
  tk_all : ∀ id q tcp, pending r !! id = Some q → transport q = Tcp tcp → tcp_by_token r !! token tcp = Some id
}.

Definition config_ok (c : ResolverConfig) : Prop :=
  1 ≤ Config.attempts c ≤ u8_max ∧ len (Config.search_suffixes c) ≤ Config.MAX_SEARCH_SUFFIXES.

(** The socket goes to the current nameserver; without one nothing is pending. *)
Definition route_ok (r : Resolver) : Prop :=
  match socket r with
  | Some nameserver =>
      config_available r = true ∧ 0 ≤ current_nameserver r ∧
      Config.nameservers (config r) !! Z.to_nat (current_nameserver r) = Some nameserver
  | None => config_available r = false ∧ pending r = ∅
  end.

(** The queries that may be on TCP. *)
Context (streams : Z → Prop).
(** Whether the phase of the turn has a socket. *)
Context (live : Prop).

Record rest_ok (exact : bool) (r : Resolver) : Prop := {
  ro_queries : ∀ id q, pending r !! id = Some q → q_ok q ∧ (token_of q = None ∨ streams id);
  ro_tokens : exact = true → tokens_ok r;
  ro_config : config_ok (config r);
  ro_route : route_ok r;
  ro_live : live → is_Some (socket r)
}.

Definition Inv (exact : bool) (cmds : list Command) (h : hand) (r : Resolver) : Prop :=
  lookups exact cmds h r ∧ rest_ok exact r.

(** ** Operations that leave the maps alone *)

Definition same (r r' : Resolver) : Prop :=
  pending r' = pending r ∧ by_key r' = by_key r ∧ tcp_by_token r' = tcp_by_token r ∧
  next_tcp_token r' = next_tcp_token r ∧ current_nameserver r' = current_nameserver r ∧
  config_available r' = config_available r ∧ socket r' = socket r ∧ config r' = config r ∧ log r' = log r.

#[global] Instance same_preorder : PreOrder same.
Proof.
  split; [by intros r; repeat split|].
  intros r1 r2 r3 (?&?&?&?&?&?&?&?&?) (?&?&?&?&?&?&?&?&?). unfold same. repeat split; congruence.
Qed.

Lemma covers_same exact O h r r' : same r r' → covers exact O h r → covers exact O h r'.
Proof. intros (Hp & Hb & _) [? ? ? ? ?]. split; rewrite ?Hp, ?Hb; auto. Qed.

Lemma tokens_same r r' : same r r' → tokens_ok r → tokens_ok r'.
Proof. intros (Hp & _ & Ht & Hn & _) [? ?]. split; rewrite ?Hp, ?Ht, ?Hn; auto. Qed.

Lemma inv_same exact cmds h r r' : same r r' → Inv exact cmds h r → Inv exact cmds h r'.
Proof.
  intros Hs [(O & Hserves & Hcov) [Hq Ht Hc Hr Hlv]]. split.
  - exists O. split; [|by eapply covers_same]. destruct Hs as (_&_&_&_&_&_&_&_&->). done.
  - pose proof Hs as (Hp & _ & _ & _ & Hcur & Hav & Hsock & Hconf & _). split.
    + by rewrite Hp.
    + intros He. eapply tokens_same; [exact Hs|auto].
    + by rewrite Hconf.
    + unfold route_ok in *. by rewrite Hsock, Hp, Hcur, Hav, Hconf.
    + by rewrite Hsock.
Qed.

(** Total correctness: the operation returns. *)
Definition returns {T} (m : R T) (Q : T → Resolver → Prop) (r : Resolver) : Prop := wp m Q (λ _ _, False) r.

Lemma returns_mono {T} (m : R T) (Q Q' : T → Resolver → Prop) r :
  returns m Q r → (∀ a r', Q a r' → Q' a r') → returns m Q' r.
Proof. intros Hm HQ. eapply wp_mono; [exact Hm|done|done]. Qed.

Lemma returns_bind {T U} (m : R T) (f : T → R U) Q r :
  returns m (λ a r', returns (f a) Q r') r → returns (m ≫= f) Q r.
Proof. apply wp_bind. Qed.

(** Run an operation whose result is known. *)
Lemma returns_step {T U} (m : R T) (f : T → R U) Q r a r' :
  m r = (Ok a, r') → returns (f a) Q r' → returns (m ≫= f) Q r.
Proof. intros Hm Hf. apply returns_bind. unfold returns at 1, wpx. by rewrite Hm. Qed.
Lemma returns_ret {T} (a : T) (Q : T → Resolver → Prop) r : Q a r → returns (mret a) Q r.
Proof. done. Qed.
Lemma pending_remove_run id r : pending_remove id r = (Ok (pending r !! id), set_pending (delete id (pending r)) r).
Proof. done. Qed.

(** An operation that changes none of the fields of [same]. *)
Definition quiet {T} (m : R T) : Prop := ∀ r, returns m (λ _ r', same r r') r.

Lemma quiet_ret {T} (a : T) : quiet (mret a).
Proof. intros r. by apply wp_ret. Qed.
Lemma quiet_ask {T} (f : nat → T) : quiet (ask f).
Proof. intros r. by unfold returns, wpx, ask. Qed.
Lemma quiet_bind {T U} (m : R T) (f : T → R U) : quiet m → (∀ a, quiet (f a)) → quiet (m ≫= f).
Proof.
  intros Hm Hf r. apply returns_bind. eapply returns_mono; [apply Hm|]. intros a r' Hs.
  eapply returns_mono; [apply Hf|]. intros b r'' Hs'. by transitivity r'.
Qed.
Lemma quiet_now : quiet instant_now.
Proof. intros r. by unfold returns, wpx, instant_now, ask. Qed.
Lemma quiet_on_cache {T} (f : DnsCache → T * DnsCache) : quiet (on_cache f).
Proof. intros r. unfold on_cache, returns, wpx, mbind, M_bind, Prelude.get. destruct (f (cache r)). by repeat split. Qed.
Lemma quiet_update_cache f : quiet (update_cache f).
Proof. intros r. by unfold returns, wpx. Qed.
Lemma quiet_if {T} (b : bool) (m m' : R T) : quiet m → quiet m' → quiet (if b then m else m').
Proof. by destruct b. Qed.
Lemma quiet_for_each {T} (l : list T) (f : T → R unit) : (∀ x, quiet (f x)) → quiet (for_each l f).
Proof.
  intros Hf. induction l as [|x l IH]; cbn; [apply quiet_ret|]. by apply quiet_bind.
Qed.

Create HintDb quiet.
#[local] Hint Resolve quiet_ret quiet_ask quiet_bind quiet_now quiet_on_cache quiet_update_cache quiet_if quiet_for_each : quiet.

(** Run a quiet operation before the rest of the program. *)
Lemma quiet_then {T U} (m : R T) (f : T → R U) (P : Resolver → Prop) Q r :
  quiet m → P r → (∀ r r', same r r' → P r → P r') → (∀ a r', P r' → returns (f a) Q r') → returns (m ≫= f) Q r.
Proof.
  intros Hm HP Hst Hf. apply returns_bind. eapply returns_mono; [apply Hm|]. intros a r' Hs. apply Hf. eapply Hst; [exact Hs|exact HP].
Qed.

Lemma quiet_inv {T} (m : R T) exact cmds h r :
  quiet m → Inv exact cmds h r → returns m (λ _ r', Inv exact cmds h r') r.
Proof. intros Hm HI. eapply returns_mono; [apply Hm|]. intros a r' Hs. exact (inv_same _ _ _ _ _ Hs HI). Qed.

(** ** Sending and forgetting *)

Lemma send_result_inv exact cmds k res r :
  Inv exact cmds (Loose k) r → r_key res = k → returns (send_result res) (λ _ r', Inv exact cmds Free r') r.
Proof.
  intros [(O & Hs & [Hk Hh Hl Ho Hn]) [Hq Ht Hc Hr Hlv]] <-. unfold send_result. apply wp_modify.
  split; [|by split; [|intros He; destruct (Ht He)|..]].
  exists (O ∖ {[ r_key res ]}). cbn [log set_log]. split; [apply served_answer; auto|].
  split; cbn [pending by_key set_log hand_key] in *.
  - intros id q Hid. destruct (Hk id q Hid) as (? & ? & Hne). split_and!; [done| |done].
    apply elem_of_difference. split; [done|]. apply not_elem_of_singleton. congruence.
  - done.
  - done.
  - intros He k [Hin Hne]%elem_of_difference. apply not_elem_of_singleton in Hne.
    destruct (Ho He k Hin) as [[= <-]|?]; [done|by right].
  - intros He k id Hid. destruct (Hn He k id Hid) as [[= <-]|?]; [|by right]. by rewrite Hl in Hid.
Qed.

Lemma by_key_remove_inv exact cmds k r :
  Inv exact cmds (Held k) r ∨ Inv exact cmds (Loose k) r →
  returns (by_key_remove k) (λ _ r', Inv exact cmds (Loose k) r') r.
Proof.
  assert (Hgen : ∀ h, hand_key h = Some k → Inv exact cmds h r →
    returns (by_key_remove k) (λ _ r', Inv exact cmds (Loose k) r') r).
  { intros h Hhk [(O & Hs & [Hk Hh Hl Ho Hn]) [Hq Ht Hc Hr Hlv]]. unfold by_key_remove. apply wp_modify.
    split; [|by split; [|intros He; destruct (Ht He)|..]].
    exists O. split; [done|]. split; cbn [pending by_key set_by_key hand_key]; rewrite Hhk in *.
    - intros id q Hid. destruct (Hk id q Hid) as (? & ? & Hne). split_and!; [|done|done].
      rewrite lookup_delete_ne; [done|congruence].
    - intros j [= <-]. by apply Hh.
    - intros j [= <-]. apply lookup_delete_eq.
    - intros He j Hj. destruct (decide (j = k)) as [->|Hne]; [by left|right].
      rewrite lookup_delete_ne by done. by destruct (Ho He j Hj) as [[= <-]|?].
    - intros He j id Hid. apply lookup_delete_Some in Hid as [Hne Hid].
      destruct (Hn He j id Hid) as [[= <-]|?]; [done|by right]. }
  intros [?|?]; [by apply (Hgen (Held k))|by apply (Hgen (Loose k))].
Qed.

Lemma emit_failure_inv exact cmds q f r :
  Inv exact cmds (Loose (key q)) r → returns (emit_failure q f) (λ _ r', Inv exact cmds Free r') r.
Proof. intros HI. unfold emit_failure. destruct (policy q); by eapply send_result_inv. Qed.

Lemma fail_query_inv exact cmds q f r :
  Inv exact cmds (Held (key q)) r → returns (fail_query q f) (λ _ r', Inv exact cmds Free r') r.
Proof.
  intros HI. unfold fail_query. apply returns_bind. eapply returns_mono; [by apply by_key_remove_inv; left|].
  intros ? r' HI'. by apply emit_failure_inv.
Qed.

(** ** Taking a query out and putting one in *)

Definition available (r : Resolver) : Prop := is_Some (socket r).
Lemma available_same r r' : same r r' → available r → available r'.
Proof. unfold available. by intros (_&_&_&_&_&_&->&_). Qed.

Lemma pending_available exact r id q : rest_ok exact r → pending r !! id = Some q → available r.
Proof.
  intros [_ _ _ Hr _] Hq. unfold route_ok, available in *. destruct (socket r); [by eexists|].
  destruct Hr as [_ Hp]. by rewrite Hp, lookup_empty in Hq.
Qed.

Lemma covers_remove exact O r id q :
  covers exact O Free r → pending r !! id = Some q →
  covers exact O (Held (key q)) (set_pending (delete id (pending r)) r).
Proof.
  intros [Hk Hh Hl Ho Hn] Hq. destruct (Hk id q Hq) as (Hbk & Hin & _). split; cbn [pending by_key set_pending hand_key].
  - intros id' q' [Hne Hq']%lookup_delete_Some. destruct (Hk id' q' Hq') as (Hb' & ? & _). split_and!; [done|done|].
    intros [= Heq]. rewrite Heq in Hbk. congruence.
  - by intros k [= <-].
  - done.
  - intros He k Hk'. destruct (Ho He k Hk') as [?|?]; [done|by right].
  - intros He k id' Hid. destruct (Hn He k id' Hid) as [?|(q' & Hq' & <-)]; [done|].
    destruct (decide (id' = id)) as [->|Hne]; [left; congruence|right]. exists q'. by rewrite lookup_delete_ne.
Qed.

Lemma route_remove r p : route_ok r → p ⊆ pending r → route_ok (set_pending p r).
Proof.
  unfold route_ok. cbn. destruct (socket r); [done|]. intros [? Hp] Hsub. split; [done|].
  rewrite Hp in Hsub. apply map_empty. intros id. destruct (p !! id) eqn:Hid; [|done].
  by apply (lookup_weaken _ _ _ _ Hid) in Hsub.
Qed.

Lemma tokens_remove_udp r id q :
  tokens_ok r → pending r !! id = Some q → transport q = Udp → tokens_ok (set_pending (delete id (pending r)) r).
Proof.
  intros [Hkn Hall] Hq Hu. split; cbn [pending tcp_by_token next_tcp_token set_pending].
  - intros t id' Ht. destruct (Hkn t id' Ht) as (? & q' & tcp & Hq' & Htr & ?). split; [done|]. exists q', tcp.
    split; [|done]. rewrite lookup_delete_ne; [done|]. intros <-. congruence.
  - intros id' q' tcp [_ Hq']%lookup_delete_Some. eauto.
Qed.

(** Removing a query that is on UDP, or when tokens are not tracked. *)
Lemma pending_remove_inv exact cmds r id q :
  Inv exact cmds Free r → pending r !! id = Some q → (exact = true → transport q = Udp) →
  Inv exact cmds (Held (key q)) (set_pending (delete id (pending r)) r).
Proof.
  intros [(O & Hs & Hcov) [Hq Ht Hc Hr Hlv]] Hid Hudp. split.
  - exists O. split; [done|]. by apply covers_remove.
  - split; cbn [pending config set_pending].
    + intros id' q' [_ Hq']%lookup_delete_Some. eauto.
    + intros He. eapply tokens_remove_udp; eauto.
    + done.
    + apply route_remove; [done|apply delete_subseteq].
    + done.
Qed.

(** ... and one that is on TCP together with its token. *)
Lemma tokens_remove_tcp r id q tcp :
  tokens_ok r → pending r !! id = Some q → transport q = Tcp tcp →
  tokens_ok (set_tcp_by_token (delete (token tcp) (tcp_by_token r)) (set_pending (delete id (pending r)) r)).
Proof.
  intros [Hkn Hall] Hq Htr. split; cbn [pending tcp_by_token next_tcp_token set_pending set_tcp_by_token].
  - intros t id' [Hne Ht]%lookup_delete_Some. destruct (Hkn t id' Ht) as (? & q' & tcp' & Hq' & Htr' & Htok).
    split; [done|]. exists q', tcp'. split; [|done]. rewrite lookup_delete_ne; [done|]. intros <-. congruence.
  - intros id' q' tcp' [Hne Hq']%lookup_delete_Some Htr'. pose proof (Hall _ _ _ Hq' Htr') as Ht'.
    rewrite lookup_delete_ne; [done|]. intros Heq. rewrite <-Heq, (Hall _ _ _ Hq Htr) in Ht'. congruence.
Qed.

Lemma remove_tcp_inv exact cmds r id q tcp :
  Inv exact cmds Free r → pending r !! id = Some q → transport q = Tcp tcp →
  Inv exact cmds (Held (key q))
    (set_tcp_by_token (delete (token tcp) (tcp_by_token r)) (set_pending (delete id (pending r)) r)).
Proof.
  intros [(O & Hs & Hcov) [Hq Ht Hc Hr Hlv]] Hid Htr. split.
  - exists O. split; [done|]. by destruct (covers_remove _ _ _ _ _ Hcov Hid).
  - split; cbn [pending config set_pending set_tcp_by_token].
    + intros id' q' [_ Hq']%lookup_delete_Some. eauto.
    + intros He. eapply tokens_remove_tcp; eauto.
    + done.
    + apply (route_remove r); [done|apply delete_subseteq].
    + done.
Qed.

Lemma remove_query_inv exact cmds r id :
  Inv exact cmds Free r →
  returns (remove_query id)
    (λ o r', pending r' = delete id (pending r) ∧ socket r' = socket r ∧ config r' = config r ∧ by_key r' = by_key r ∧
             current_nameserver r' = current_nameserver r ∧ config_available r' = config_available r ∧
             o = pending r !! id ∧
             match o with
             | None => Inv exact cmds Free r'
             | Some q => Inv exact cmds (Held (key q)) r'
             end) r.
Proof.
  intros HI. unfold remove_query. eapply returns_step; [apply pending_remove_run|].
  destruct (pending r !! id) as [q|] eqn:Hq.
  - destruct (transport q) as [|tcp] eqn:Htr; (eapply returns_step; [done|]); apply returns_ret; cbn.
    + split_and!; try done. by apply pending_remove_inv.
    + split_and!; try done. by apply remove_tcp_inv.
  - apply returns_ret. cbn. split_and!; try done. rewrite delete_id by done. by destruct r.
Qed.

(** Entering a query for the lookup in hand. *)
Lemma covers_enter exact O h r id q :
  covers exact O h r → hand_key h = Some (key q) → pending r !! id = None →
  covers exact O Free (set_pending (<[id := q]> (pending r)) (set_by_key (<[key q := id]> (by_key r)) r)).
Proof.
  intros [Hk Hh Hl Ho Hn] Hhk Hid. split; cbn [pending by_key set_pending set_by_key hand_key].
  - intros id' q' [[<- <-]|[Hne Hq']]%lookup_insert_Some.
    + split_and!; [by rewrite lookup_insert_eq|auto|done].
    + destruct (Hk id' q' Hq') as (? & ? & Hnk). split_and!; [|done|done].
      rewrite lookup_insert_ne; [done|]. congruence.
  - done.
  - done.
  - intros He k Hin. right. destruct (decide (k = key q)) as [->|Hne]; [rewrite lookup_insert_eq; by eexists|].
    rewrite lookup_insert_ne by done. destruct (Ho He k Hin) as [Heq|?]; [congruence|done].
  - intros He k id' [[<- <-]|[Hne Hid']]%lookup_insert_Some; right.
    + exists q. by rewrite lookup_insert_eq.
    + destruct (Hn He k id' Hid') as [Heq|(q' & Hq' & ?)]; [congruence|]. exists q'. split; [|done].
      rewrite lookup_insert_ne; [done|]. intros <-. congruence.
Qed.

Lemma route_available r p : route_ok r → available r → route_ok (set_pending p r).
Proof. unfold route_ok, available. cbn. intros Hr [ns Hns]. by rewrite Hns in *. Qed.

Lemma tokens_enter r id q b :
  tokens_ok r → pending r !! id = None → transport q = Udp → tokens_ok (set_pending (<[id := q]> (pending r)) (set_by_key b r)).
Proof.
  intros [Hkn Hall] Hid Hu. split; cbn [pending tcp_by_token next_tcp_token set_pending set_by_key].
  - intros t id' Ht. destruct (Hkn t id' Ht) as (? & q' & tcp & Hq' & ? & ?). split; [done|]. exists q', tcp.
    split; [|done]. rewrite lookup_insert_ne; [done|]. intros <-. congruence.
  - intros id' q' tcp [[<- <-]|[_ Hq']]%lookup_insert_Some; [congruence|eauto].
Qed.

Lemma enter_query_inv exact cmds h r id q :
  Inv exact cmds h r → available r → hand_key h = Some (key q) → pending r !! id = None → q_ok q → transport q = Udp →
  returns (enter_query id q) (λ _ r', Inv exact cmds Free r') r.
Proof.
  intros [(O & Hs & Hcov) [Hq Ht Hc Hr Hlv]] Hav Hhk Hid Hok Hu. unfold enter_query. apply wp_modify. split.
  - exists O. split; [done|]. by eapply covers_enter.
  - split; cbn [pending config set_pending set_by_key].
    + intros id' q' [[<- <-]|[_ Hq']]%lookup_insert_Some; [|eauto]. split; [done|]. left. unfold token_of. by rewrite Hu.
    + intros He. by apply tokens_enter; [apply Ht| |].
    + done.
    + by apply (route_available (set_by_key _ r)).
    + done.
Qed.

(** Changing a query in place. *)
Lemma covers_update exact O r id q q' :
  covers exact O Free r → pending r !! id = Some q → key q' = key q →
  covers exact O Free (set_pending (<[id := q']> (pending r)) r).
Proof.
  intros [Hk Hh Hl Ho Hn] Hid Hkey. split; cbn [pending by_key set_pending hand_key]; try done.
  - intros i x [[<- <-]|[Hne Hx]]%lookup_insert_Some; [|eauto]. rewrite Hkey. eauto.
  - intros He k i Hi. destruct (Hn He k i Hi) as [?|(x & Hx & <-)]; [done|right].
    destruct (decide (id = i)) as [<-|Hne]; [exists q'; rewrite lookup_insert_eq; split; [done|congruence]|].
    exists x. by rewrite lookup_insert_ne.
Qed.

Lemma tokens_update r id q q' :
  tokens_ok r → pending r !! id = Some q → token_of q' = token_of q → tokens_ok (set_pending (<[id := q']> (pending r)) r).
Proof.
  intros [Hkn Hall] Hid Htr. split; cbn [pending tcp_by_token next_tcp_token set_pending].
  - intros t i Ht. destruct (Hkn t i Ht) as (? & x & tcp & Hx & Hxt & ?). split; [done|].
    destruct (decide (id = i)) as [<-|Hne].
    + assert (token_of q' = Some t) as (tcp' & ? & ?)%token_of_some
        by (rewrite Htr; apply token_of_some; exists tcp; split; [congruence|done]).
      exists q', tcp'. by rewrite lookup_insert_eq.
    + exists x, tcp. by rewrite lookup_insert_ne.
  - intros i x tcp [[<- <-]|[_ Hx]]%lookup_insert_Some Hxt; [|eauto].
    assert (token_of q = Some (token tcp)) as (tcp' & Htcp' & <-)%token_of_some
      by (rewrite <-Htr; apply token_of_some; by exists tcp).
    by apply (Hall id q).
Qed.

Lemma update_inv exact cmds r id q q' :
  Inv exact cmds Free r → pending r !! id = Some q → key q' = key q → token_of q' = token_of q → q_ok q' →
  Inv exact cmds Free (set_pending (<[id := q']> (pending r)) r).
Proof.
  intros [(O & Hs & Hcov) Hrest] Hid Hkey Htr Hok.
  pose proof (pending_available _ _ _ _ Hrest Hid) as Hav. destruct Hrest as [Hq Ht Hc Hr Hlv]. split.
  - exists O. split; [done|]. by eapply covers_update.
  - split; cbn [pending config set_pending].
    + intros i x [[<- <-]|[_ Hx]]%lookup_insert_Some; [|eauto]. split; [done|]. rewrite Htr. by eapply Hq.
    + intros He. eapply tokens_update; eauto.
    + done.
    + by apply route_available.
    + done.
Qed.

(** Changing all of them. *)
Lemma fmap_inv exact cmds r (f : PendingQuery → PendingQuery) :
  Inv exact cmds Free r → (∀ q, q_ok q → key (f q) = key q ∧ transport (f q) = transport q ∧ q_ok (f q)) →
  Inv exact cmds Free (set_pending (f <$> pending r) r).
Proof.
  intros [(O & Hs & [Hk Hh Hl Ho Hn]) [Hq Ht Hc Hr Hlv]] Hf. split.
  - exists O. split; [done|]. split; cbn [pending by_key set_pending hand_key]; try done.
    + intros id q (x & <- & Hx)%lookup_fmap_Some. destruct (Hf x) as (-> & _); [by eapply Hq|eauto].
    + intros He k id Hid. destruct (Hn He k id Hid) as [?|(q & Hq' & <-)]; [done|right]. exists (f q).
      rewrite lookup_fmap, Hq'. split; [done|]. by destruct (Hf q) as (-> & _); [eapply Hq|].
  - split; cbn [pending config set_pending].
    + intros id q (x & <- & Hx)%lookup_fmap_Some. destruct (Hq id x Hx) as [Hx1 Hx2].
      destruct (Hf x Hx1) as (_ & Htr & ?). split; [done|]. unfold token_of in *. by rewrite Htr.
    + intros He. destruct (Ht He) as [Hkn Hall]. split; cbn [pending tcp_by_token next_tcp_token set_pending].
      * intros t id Hid. destruct (Hkn t id Hid) as (? & q & tcp & Hq' & ? & ?). split; [done|]. exists (f q), tcp.
        rewrite lookup_fmap, Hq'. destruct (Hf q) as (_ & -> & _); [by eapply Hq|eauto].
      * intros id q tcp (x & <- & Hx)%lookup_fmap_Some Htr. apply (Hall id x); [done|].
        destruct (Hf x) as (_ & <- & _); [by eapply Hq|done].
    + done.
    + unfold route_ok in *. cbn. destruct (socket r); [done|]. destruct Hr as [? ->]. split; [done|]. apply fmap_empty.
    + done.
Qed.

(** ** Preparing a query *)

Lemma find_free_some n p c stride id : find_free n p c stride = Some id → p !! id = None.
Proof.
  revert c. induction n as [|n IH]; intros c; cbn; [done|]. destruct (p !! c) eqn:Hc; [apply IH|by intros [= <-]].
Qed.

Lemma allocate_free p public entropy id :
  allocate_id_with_random p public entropy = inr (Some id) → p !! id = None.
Proof.
  unfold allocate_id_with_random. generalize (Z.to_nat DNS_TRANSACTION_ID_SPACE). intros n.
  destruct (_ && _); [done|]. destruct (_ <=? _); [done|].
  destruct entropy as [|[c b]]; [done|]. intros [= Hf]. by eapply find_free_some.
Qed.

Lemma allocate_id_spec public r :
  returns (allocate_id public)
    (λ o r', same r r' ∧ ∃ entropy, o = allocate_id_with_random (pending r) public entropy) r.
Proof.
  unfold allocate_id, returns. wp_go. zcase; wp_go.
  - split; [done|]. eauto.
  - unfold ask, wpx. cbn. split; [done|]. eauto.
Qed.

Lemma encode_query_total id name t :
  match encode_query id name t with Ok _ | Err _ => True | Panic | Diverge => False end.
Proof. unfold encode_query. destruct (is_root name); [done|]. by destruct (_ <? _). Qed.

Lemma prepare_spec r k name t hops p :
  policy_ok p → 0 ≤ hops ≤ MAX_CNAME_HOPS →
  returns (prepare_name_query k name t hops p)
    (λ o r', same r r' ∧
       match o with
       | inr (id, q) => pending r' !! id = None ∧ key q = k ∧ q_ok q ∧ transport q = Udp
       | inl _ => True
       end) r.
Proof.
  intros [Hr Hp] Hh. unfold prepare_name_query. apply returns_bind.
  eapply returns_mono; [apply allocate_id_spec|]. intros a r' [Hs (entropy & ->)].
  destruct (allocate_id_with_random _ _ _) as [f|[id|]] eqn:Ha; [by apply returns_ret| |by apply returns_ret].
  apply allocate_free in Ha. pose proof (encode_query_total id name t) as Henc.
  destruct (encode_query id name t) as [w| | |]; try done.
  apply returns_bind. eapply returns_mono; [apply quiet_now|]. intros now r'' Hs'. apply returns_ret.
  split; [by transitivity r'|]. pose proof (transitivity Hs Hs') as (Hpd & _). rewrite Hpd.
  split_and!; try done. destruct Hr as [? ?].
  split; cbn; [lia|lia|done| |done]. split; [|done]. by split.
Qed.

(** Fail the lookup in hand, which was never entered. *)
Lemma prepared_or_failed exact cmds k r o res :
  Inv exact cmds (Loose k) r → available r →
  match o with
  | inr (id, q) => pending r !! id = None ∧ key q = k ∧ q_ok q ∧ transport q = Udp
  | inl _ => True
  end → (∀ f : ResolveFailure, r_key (res f) = k) →
  returns (match o with inr (id, q) => enter_query id q | inl f => send_result (res f) end)
    (λ _ r', Inv exact cmds Free r') r.
Proof.
  intros HI Hav Ho Hres. destruct o as [f|[id q]]; [by eapply send_result_inv|].
  destruct Ho as (Hid & Hk & Hok & Hu). eapply enter_query_inv; eauto. by rewrite Hk.
Qed.

Lemma replace_query_inv exact cmds q0 r o :
  Inv exact cmds (Held (key q0)) r → available r →
  match o with
  | inr (id, q) => pending r !! id = None ∧ key q = key q0 ∧ q_ok q ∧ transport q = Udp
  | inl _ => True
  end →
  returns (replace_query q0 o) (λ _ r', Inv exact cmds Free r') r.
Proof.
  intros HI Hav Ho. destruct o as [f|[id q]]; cbn; [by apply fail_query_inv|].
  destruct Ho as (Hid & Hk & Hok & Hu). eapply enter_query_inv; eauto. by rewrite Hk.
Qed.

(** The state in which an answer is processed. *)
Definition working (exact : bool) (cmds : list Command) (h : hand) (r : Resolver) : Prop :=
  Inv exact cmds h r ∧ available r.
Lemma working_same exact cmds h r r' : same r r' → working exact cmds h r → working exact cmds h r'.
Proof. intros Hs [HI Ha]. split; [exact (inv_same _ _ _ _ _ Hs HI)|exact (available_same _ _ Hs Ha)]. Qed.

Lemma prepare_replace exact cmds q0 name t hops p r :
  working exact cmds (Held (key q0)) r → policy_ok p → 0 ≤ hops ≤ MAX_CNAME_HOPS →
  returns (prepared ← prepare_name_query (key q0) name t hops p; replace_query q0 prepared)
    (λ _ r', Inv exact cmds Free r') r.
Proof.
  intros HW Hp Hh. apply returns_bind. eapply returns_mono; [by apply prepare_spec|]. intros o r' [Hs Ho].
  apply (working_same _ _ _ _ _ Hs) in HW as [HI Ha]. by apply replace_query_inv.
Qed.

(** ** Public lookups *)

Lemma quiet_parse_dns_name host : quiet (parse_dns_name host).
Proof.
  unfold parse_dns_name, from_ascii.
  assert (Hl : ∀ pieces acc wl, match from_ascii_labels pieces acc wl with Ok _ | Err _ => True | _ => False end).
  { induction pieces as [|l pieces IH]; intros acc wl; cbn [from_ascii_labels]; [done|].
    destruct (_ || _) eqn:Hb; [done|]. apply orb_false_iff in Hb as [_ Hb%Z.ltb_ge]. unfold MAX_LABEL_LEN in Hb.
    rewrite uadd_fits by (apply packet_fits; lia). cbn [mbind outcome_bind].
    destruct (checked_add _ _ _); [|done]. cbn [ok_or mbind outcome_bind]. destruct (_ <? _); [done|]. apply IH. }
  destruct (negb _); [apply quiet_ret|]. destruct (bytes_eqb _ _); [apply quiet_ret|].
  set (v := match strip_suffix _ _ with Some v => v | None => host end).
  case_bool_decide; [apply quiet_ret|]. specialize (Hl (split_on 46 v) [] 1).
  destruct (from_ascii_labels _ _ _); by try apply quiet_ret.
Qed.

Lemma load_families_spec name s r :
  returns (load_families name s) (λ s' r', same r r' ∧ ∃ v4 v6, s' = set_families v4 v6 s) r.
Proof.
  assert (Hq : ∀ T (m : R T) U (f : T → R U) (P : U → Prop) r, quiet m →
    (∀ a r, returns (f a) (λ b r', same r r' ∧ P b) r) → returns (m ≫= f) (λ b r', same r r' ∧ P b) r).
  { intros T m U f P r0 Hm Hf. apply returns_bind. eapply returns_mono; [apply Hm|]. intros a r1 Hs.
    eapply returns_mono; [apply Hf|]. intros b r2 [Hs' HP]. split; [by transitivity r1|done]. }
  unfold load_families. apply Hq; [apply quiet_now|intros now r1].
  apply Hq; [apply quiet_if; auto with quiet|intros v4 r2].
  apply Hq; [apply quiet_if; auto with quiet|intros v6 r3].
  apply returns_ret. split; [done|]. repeat case_match; eauto.
Qed.

(** The lookup in hand, with the query that was answered for it, if any. *)
Definition hand_of (k : Z) (query_key : option Z) : hand :=
  match query_key with Some _ => Held k | None => Loose k end.

Lemma after_candidate_inv exact cmds restart k query_key s name r :
  working exact cmds (hand_of k query_key) r → (∀ k', query_key = Some k' → k' = k) → session_ok s →
  (∀ s' r', working exact cmds (Loose k) r' → session_ok s' → candidates s' = candidates s →
     candidate_index s' = candidate_index s + 1 → candidate_index s' < len (candidates s) →
     returns (restart k s') (λ _ r', Inv exact cmds Free r') r') →
  returns (after_candidate restart k query_key s name) (λ _ r', Inv exact cmds Free r') r.
Proof.
  intros HW Hqk Hs Hrestart. unfold after_candidate. destruct (session_response s) as [[st addrs] until].
  set (forget := match query_key with Some k => by_key_remove k | None => mret tt end).
  assert (Hforget : ∀ r, working exact cmds (hand_of k query_key) r →
                      returns forget (λ _ r', working exact cmds (Loose k) r') r).
  { intros r1 [HI Ha]. subst forget. destruct query_key as [k'|]; cbn [hand_of] in *; [|by apply returns_ret].
    rewrite (Hqk k' eq_refl). unfold returns, wpx. cbn. split; [|done].
    exact (by_key_remove_inv _ _ _ _ (or_introl HI)). }
  assert (Hsend : ∀ res r, r_key res = k → working exact cmds (hand_of k query_key) r →
                    returns (forget ≫= λ _, send_result res) (λ _ r', Inv exact cmds Free r') r).
  { intros res r1 Hres HW1. apply returns_bind. eapply returns_mono; [by apply Hforget|].
    intros ? r2 [HI _]. by eapply send_result_inv. }
  apply (quiet_then _ _ (working exact cmds (hand_of k query_key))); [|done|by apply working_same|].
  { case_bool_decide; [apply quiet_ret|]. apply quiet_bind; [apply quiet_now|]. intros. apply quiet_update_cache. }
  intros ? r1 HW1. case_bool_decide; [by apply Hsend|].
  set (s1 := record_search_negative st until s). destruct Hs as (Hretry & Hi & Hlen).
  destruct (candidates s1 !! Z.to_nat _) as [next|] eqn:Hnext; [|by apply Hsend].
  apply lookup_lt_Some in Hnext. change (candidate_index s1) with (candidate_index s) in *.
  change (candidates s1) with (candidates s) in *.
  assert (saturating_add usize_max (candidate_index s) 1 = candidate_index s + 1) as Hsat
    by (unfold saturating_add, len in *; lia).
  rewrite Hsat in *. apply returns_bind. eapply returns_mono; [by apply Hforget|]. intros ? r2 HW2.
  apply Hrestart; [done| |done|done|cbn; unfold len; lia]. split_and!; [done|cbn; lia|done].
Qed.

Lemma start_current_candidate_spec exact cmds fuel : ∀ k s r,
  working exact cmds (Loose k) r → session_ok s → (0 < fuel)%nat →
  len (candidates s) - candidate_index s < Z.of_nat fuel →
  returns (start_current_candidate fuel k s) (λ _ r', Inv exact cmds Free r') r.
Proof.
  induction fuel as [|fuel IH]; intros k s r HW Hs Hpos Hf; [lia|]. cbn [start_current_candidate].
  set (s0 := set_families None None s).
  assert (Hafter : ∀ name s' r', working exact cmds (Loose k) r' → session_ok s' → candidates s' = candidates s →
    candidate_index s' = candidate_index s →
    returns (after_candidate (start_current_candidate fuel) k None s' name) (λ _ r', Inv exact cmds Free r') r').
  { intros name s' r' HW' Hs' Hc Hi. apply after_candidate_inv; try done. intros s2 r2 HW2 Hs2 Hc2 Hi2 Hlt.
    rewrite Hc in *. rewrite Hi in *. apply IH; [done|done|lia|]. rewrite Hc2. lia. }
  apply (quiet_then _ _ (working exact cmds (Loose k))); [apply quiet_parse_dns_name|done|by apply working_same|].
  intros p r1 HW1. destruct p as [f|name]; [by eapply send_result_inv; [apply HW1|]|].
  assert (Hquery : ∀ s' r', working exact cmds (Loose k) r' → session_ok s' → candidates s' = candidates s →
    candidate_index s' = candidate_index s →
    returns (match session_needs s' with
             | None => after_candidate (start_current_candidate fuel) k None s' name
             | Some t =>
                 prepared ← prepare_name_query k name t 0 (Public s');
                 match prepared with inr (id, q) => enter_query id q | inl f => send_result (public_failed k f) end
             end) (λ _ r', Inv exact cmds Free r') r').
  { intros s' r' HW' Hs' Hc Hi. destruct (session_needs s') as [t|]; [|by apply Hafter].
    apply returns_bind. eapply returns_mono; [apply prepare_spec; [by destruct Hs'|unfold MAX_CNAME_HOPS; lia]|].
    intros o r2 [Hsame Ho]. apply (working_same _ _ _ _ _ Hsame) in HW' as [HI Ha].
    by apply (prepared_or_failed _ _ k _ _ (public_failed k)). }
  case_bool_decide; [|by apply Hquery].
  apply returns_bind. eapply returns_mono; [apply load_families_spec|]. intros s' r2 [Hsame (v4 & v6 & ->)].
  apply (working_same _ _ _ _ _ Hsame) in HW1.
  destruct (session_needs (set_families v4 v6 s0));
    [apply (Hquery (set_from_cache false (set_families v4 v6 s0)))|apply Hafter]; done.
Qed.

Lemma candidate_fuel_enough s : 0 ≤ candidate_index s → len (candidates s) - candidate_index s < Z.of_nat (candidate_fuel s).
Proof. unfold candidate_fuel, len. lia. Qed.

Lemma after_candidate_families_inv exact cmds k s name r :
  working exact cmds (Held k) r → session_ok s →
  returns (after_candidate_families_complete k (Some k) s name) (λ _ r', Inv exact cmds Free r') r.
Proof.
  intros HW Hs. apply after_candidate_inv; [done|by intros k' [= ->]|done|]. intros s' r' HW' Hs' Hc Hi Hlt.
  destruct Hs as (_ & ? & _). apply start_current_candidate_spec; [done|done|unfold candidate_fuel; lia|].
  rewrite Hc. pose proof (candidate_fuel_enough s). lia.
Qed.

Lemma begin_public_resolve_inv exact cmds k spec suffixes retry r :
  working exact cmds (Loose k) r → retry_ok retry → len suffixes ≤ Config.MAX_SEARCH_SUFFIXES →
  returns (begin_public_resolve k spec suffixes retry) (λ _ r', Inv exact cmds Free r') r.
Proof.
  intros HW Hr Hsuf. unfold begin_public_resolve.
  pose proof (candidates_len (sp_host spec) (expand_search spec) suffixes) as Hlen.
  destruct (public_search_candidates _ _ _) as [|first rest] eqn:Hc; [by eapply send_result_inv; [apply HW|]|].
  apply start_current_candidate_spec; [done| |unfold candidate_fuel; lia|by apply candidate_fuel_enough].
  split; [done|split; [done|]]. cbn [candidates]. pose proof (packet_fits 100 ltac:(lia)).
  unfold Config.MAX_SEARCH_SUFFIXES in *. lia.
Qed.

(** ** Answers *)

(** What [parse_answer] gives for a query whose remaining hops are known. *)
Definition parsed_ok (remaining : Z) (p : parsed) : Prop :=
  match p with inr (PA_Canonical _ hops) => 0 < hops ≤ remaining | _ => True end.

Lemma parse_answer_ok bytes id asked t hops :
  Forall is_byte bytes → 0 ≤ hops ≤ MAX_CNAME_HOPS →
  owp (parse_answer bytes id asked t (saturating_sub MAX_CNAME_HOPS hops))
    (λ o, match o with Some p => parsed_ok (MAX_CNAME_HOPS - hops) p | None => True end) (λ _, False).
Proof.
  intros Hb Hh. replace (saturating_sub MAX_CNAME_HOPS hops) with (MAX_CNAME_HOPS - hops)
    by (unfold saturating_sub; lia).
  eapply owp_mono; [apply parse_answer_meaning; [done|unfold MAX_CNAME_HOPS, u8_max in *; lia]| |done].
  intros [p|] Hp; [|done]. destruct Hp as [(-> & _)|(m & _ & _ & Hd)]; [done|].
  destruct p as [f|[a|target h|n|f n|]]; try done. cbn in Hd.
  destruct Hd as (_ & _ & _ & _ & S & _ & _ & _ & Hbounds). exact Hbounds.
Qed.

Lemma follow_canonical_inv exact cmds q target hops r :
  working exact cmds (Held (key q)) r → q_ok q → 0 < hops ≤ MAX_CNAME_HOPS - cname_hops q →
  returns (follow_canonical q target hops) (λ _ r', Inv exact cmds Free r') r.
Proof.
  intros HW Hq Hh. unfold follow_canonical. apply prepare_replace; [done|apply Hq|].
  pose proof (qo_hops _ Hq). unfold saturating_add, MAX_CNAME_HOPS, u8_max in *. lia.
Qed.

Lemma quiet_store_http q result families ttl maximum : quiet (store_http q result families ttl maximum).
Proof.
  unfold store_http. destruct ttl; [|apply quiet_ret]. apply quiet_if; [|apply quiet_ret].
  apply quiet_bind; [apply quiet_now|intros now]. apply quiet_bind; [apply quiet_update_cache|intros _].
  apply quiet_for_each. intros x. apply quiet_bind; [apply quiet_on_cache|intros ?; apply quiet_ret].
Qed.

(** Forget the key, store something, send the result. *)
Lemma finish_with exact cmds k (store : R unit) res r :
  working exact cmds (Held k) r → quiet store → r_key res = k →
  returns (_ ← by_key_remove k; _ ← store; send_result res) (λ _ r', Inv exact cmds Free r') r.
Proof.
  intros [HI _] Hq Hres. apply returns_bind. eapply returns_mono; [by apply by_key_remove_inv; left|]. intros ? r1 HI1.
  apply returns_bind. eapply returns_mono; [exact (quiet_inv _ _ _ _ _ Hq HI1)|]. intros ? r2 HI2. exact (send_result_inv _ _ _ _ _ HI2 Hres).
Qed.

Lemma finish_http_answer_inv exact cmds q p r :
  working exact cmds (Held (key q)) r → q_ok q → parsed_ok (MAX_CNAME_HOPS - cname_hops q) p →
  returns (finish_http_answer q p) (λ _ r', Inv exact cmds Free r') r.
Proof.
  intros HW Hq Hp. unfold finish_http_answer. destruct p as [f|[a|target h|n|f n|]].
  - by apply fail_query_inv, HW.
  - apply finish_with; [done|apply quiet_store_http|done].
  - by apply follow_canonical_inv.
  - case_bool_decide; [|apply finish_with; [done|apply quiet_store_http|done]].
    apply (quiet_then _ _ (working exact cmds (Held (key q)))); [|done|by apply working_same|].
    { destruct n; [|apply quiet_ret]. apply quiet_if; [|apply quiet_ret]. apply quiet_bind; [apply quiet_now|intros now].
      apply quiet_bind; [apply quiet_on_cache|intros ?; apply quiet_ret]. }
    intros ? r1 HW1. apply prepare_replace; [done|apply Hq|apply Hq].
  - apply finish_with; [done|apply quiet_store_http|done].
  - by apply fail_query_inv, HW.
Qed.

Lemma continue_or_complete_inv exact cmds q s r :
  working exact cmds (Held (key q)) r → session_ok s →
  returns (continue_or_complete_public q s) (λ _ r', Inv exact cmds Free r') r.
Proof.
  intros HW Hs. unfold continue_or_complete_public. destruct (session_needs s); [|by apply after_candidate_families_inv].
  apply prepare_replace; [done|split; [apply Hs|done]|unfold MAX_CNAME_HOPS; lia].
Qed.

(** Storing what a family gave leaves the search where it is. *)
Definition same_search (s s' : PublicSession) : Prop := session_ok s → session_ok s'.

Lemma record_family_spec u name s r :
  returns (record_family u name s) (λ s' r', same r r' ∧ same_search s s') r.
Proof.
  unfold record_family. apply returns_bind.
  eapply returns_mono; [apply quiet_if; [apply quiet_now|apply quiet_ret]|]. intros now r1 Hs.
  unfold on_cache, returns. wp_go.
  assert (Hss : same_search s (record_public_family u name now s (cache r1)).1).
  { unfold record_public_family, same_search. repeat case_match; by intros. }
  destruct (record_public_family u name now s (cache r1)) as [s' c]. wp_go. split; [|done].
  transitivity r1; [done|by repeat split].
Qed.

Lemma store_name_not_found_spec name ttl now s types r :
  returns (store_name_not_found name ttl now s types) (λ s' r', same r r' ∧ same_search s s') r.
Proof.
  unfold store_name_not_found.
  assert (Hgen : ∀ m r0, returns m (λ s' r', same r0 r' ∧ same_search s s') r0 →
    returns (foldl (λ m t, session ← m;
      expires ← on_cache (Cache.insert_family name t CachedFamily.NameNotFound ttl Cache.MAX_NEGATIVE_CACHE_TTL now);
      mret (match expires with
            | Some x => let outcome := mkOutcome ResolveStatus.NameNotFound [] (Some x) in
                        set_families (Some outcome) (Some outcome) session
            | None => session end)) m types) (λ s' r', same r0 r' ∧ same_search s s') r0).
  { induction types as [|t types IH]; intros m r0 Hm; cbn; [done|]. apply IH. apply returns_bind.
    eapply returns_mono; [exact Hm|]. intros s1 r1 [Hs1 Hss]. apply returns_bind.
    eapply returns_mono; [apply quiet_on_cache|]. intros x r2 Hs2. apply returns_ret.
    split; [by transitivity r1|]. intros Hs. destruct x; by apply Hss. }
  apply Hgen. apply returns_ret. split; [done|by intros ?].
Qed.

Lemma finish_public_answer_inv exact cmds q s p r :
  working exact cmds (Held (key q)) r → q_ok q → session_ok s → parsed_ok (MAX_CNAME_HOPS - cname_hops q) p →
  returns (finish_public_answer q s p) (λ _ r', Inv exact cmds Free r') r.
Proof.
  intros HW Hq Hs Hp. unfold finish_public_answer.
  assert (Hrec : ∀ u, returns (s' ← record_family u (host q) s; continue_or_complete_public q s')
                        (λ _ r', Inv exact cmds Free r') r).
  { intros u. apply returns_bind. eapply returns_mono; [apply record_family_spec|]. intros s' r1 [Hsame Hss].
    apply continue_or_complete_inv; [by apply (working_same _ _ _ _ _ Hsame)|by apply Hss]. }
  destruct p as [f|[a|target h|n|f n|]]; [by apply fail_query_inv, HW|apply Hrec|by apply follow_canonical_inv|apply Hrec| |by apply fail_query_inv, HW].
  set (o := mkOutcome ResolveStatus.NameNotFound [] None). set (s1 := set_families (Some o) (Some o) s).
  assert (Hs1 : session_ok s1) by done.
  assert (Hdone : ∀ s' r', same r r' → same_search s1 s' →
    returns (after_candidate_families_complete (key q) (Some (key q)) s' (host q)) (λ _ r', Inv exact cmds Free r') r').
  { intros s' r' Hsame Hss. apply after_candidate_families_inv; [by apply (working_same _ _ _ _ _ Hsame)|by apply Hss]. }
  apply returns_bind. destruct n as [ttl|]; [|apply returns_ret, Hdone; [done|by intros ?]].
  destruct (cname_hops q =? 0); [|apply returns_ret, Hdone; [done|by intros ?]].
  apply returns_bind. eapply returns_mono; [apply quiet_now|]. intros now r1 Hsame1.
  case_bool_decide; [apply returns_ret, Hdone; [done|by intros ?]|].
  eapply returns_mono; [apply store_name_not_found_spec|]. intros s' r2 [Hsame2 Hss].
  apply Hdone; [by transitivity r1|done].
Qed.

Lemma finish_answer_inv exact cmds q p r :
  working exact cmds (Held (key q)) r → q_ok q → parsed_ok (MAX_CNAME_HOPS - cname_hops q) p →
  returns (finish_answer q p) (λ _ r', Inv exact cmds Free r') r.
Proof.
  intros HW Hq Hp. unfold finish_answer. pose proof (qo_policy _ Hq) as [_ Hpol].
  destruct (policy q) as [|s]; [by apply finish_http_answer_inv|by apply finish_public_answer_inv].
Qed.

(** ** TCP fallbacks *)

Definition drive_ok (tcp : TcpFallback) (out : TcpFallback * (ResolveFailure + TcpDrive)) : Prop :=
  token out.1 = token tcp ∧ tcp_ok out.1 ∧
  match out.2 with inr (Drive_Message m) => Forall is_byte m | _ => True end.

Lemma accept_read_spec chunk tcp :
  tcp_ok tcp → Forall is_byte chunk → owp (accept_read chunk tcp) (drive_ok tcp) (λ _, False).
Proof.
  intros [Hin Hexp] Hc. unfold accept_read. zcase; [by split_and!|].
  set (bytes := inbound tcp ++ chunk). assert (Hb : Forall is_byte bytes) by (by apply Forall_app).
  cbn [expected set_inbound].
  assert (Hsized : owp (E := Empty_set)
    (if is_none (expected tcp) && (2 <=? len bytes) then
       first ← index bytes 0; second ← index bytes 1;
       let e := u16_from_be_bytes first second in
       if (e =? 0) || (DNS_PACKET_LIMIT <? e)
       then Ok (inl (tcp_failure DnsFailure.Malformed "DNS-over-TCP response length is invalid"))
       else Ok (inr (Some e))
     else Ok (inr (expected tcp)))
    (λ o : ResolveFailure + option Z, match o with inr (Some e) => 1 ≤ e ≤ DNS_PACKET_LIMIT | _ => True end) (λ _, False)).
  { destruct (_ && _) eqn:Hcond; [|cbn; by destruct (expected tcp)].
    apply andb_prop in Hcond as [_ Hlen%Z.leb_le]. apply owp_bind, owp_index; [lia|]. intros a Ha.
    apply owp_bind, owp_index; [lia|]. intros b Hb'. cbv zeta.
    pose proof (Forall_elem _ _ _ Hb Ha). pose proof (Forall_elem _ _ _ Hb Hb'). unfold is_byte, u16_from_be_bytes in *.
    destruct (_ || _) eqn:He; [done|]. apply orb_false_iff in He as [?%Z.eqb_neq ?%Z.ltb_ge]. cbn. lia. }
  apply owp_bind. eapply owp_mono; [exact Hsized| |done]. intros [f|[e|]] He; cbn.
  - split_and!; [done|split; [done|by destruct (expected tcp)]|done].
  - zcase; [|by split_and!]. apply owp_bind, owp_slice; [lia|lia|]. split_and!; [done|done|]. by apply subrange_Forall.
  - by split_and!.
Qed.

Lemma tcp_read_loop_spec reads : ∀ tcp,
  tcp_ok tcp → (∀ bytes, ReadBytes bytes ∈ reads → Forall is_byte bytes) →
  owp (read_loop reads tcp) (drive_ok tcp) (λ _, False).
Proof.
  induction reads as [|[bytes|error] reads IH]; intros tcp Htcp Hb; cbn [read_loop]; [by split_and!| |by split_and!].
  case_bool_decide; [by split_and!|]. apply owp_bind.
  eapply owp_mono; [apply accept_read_spec; [done|apply Forall_take, Hb; by left]| |done].
  intros [tcp' d] (Htok & Htcp' & Hd). cbn in *. destruct d as [f|[|m]]; cbn; [by split_and!| |by split_and!].
  eapply owp_mono; [apply IH; [done|]| |done].
  - intros bytes' Hin. apply Hb. by right.
  - intros [tcp2 d2] (Htok2 & ? & ?). split_and!; [|done|done]. cbn in *. congruence.
Qed.

Lemma write_loop_spec writes : ∀ tcp,
  token (write_loop writes tcp).1 = token tcp ∧ inbound (write_loop writes tcp).1 = inbound tcp ∧
  expected (write_loop writes tcp).1 = expected tcp.
Proof.
  induction writes as [|[n|e] writes IH]; intros tcp; cbn [write_loop]; destruct (_ <=? _); try done.
  cbv zeta. destruct (_ =? 0); [done|]. destruct (IH (set_written (written tcp + Z.max 0 (Z.min n (len (outbound tcp) - written tcp))) tcp))
    as (-> & -> & ->). done.
Qed.

Lemma drive_write_spec tcp r :
  tcp_ok tcp → returns (drive_write tcp) (λ out r', same r r' ∧ token out.1 = token tcp ∧ tcp_ok out.1) r.
Proof.
  intros Htcp. unfold drive_write. apply returns_bind. eapply returns_mono; [apply quiet_ask|]. intros st r1 Hs1.
  destruct st as [e|[e|]]; [by apply returns_ret..|].
  apply returns_bind. eapply returns_mono; [apply quiet_ask|]. intros ws r2 Hs2.
  pose proof (write_loop_spec ws tcp) as (Htok & Hin & Hexp). destruct (write_loop ws tcp) as [tcp' failed]. cbn in *.
  assert (Htcp' : tcp_ok tcp') by (unfold tcp_ok in *; by rewrite Hin, Hexp).
  assert (Hs : same r r2) by (by transitivity r1).
  destruct failed; [by apply returns_ret|]. destruct (_ =? _); [|by apply returns_ret].
  apply returns_bind. eapply returns_mono; [apply quiet_ask|]. intros o r3 Hs3.
  assert (same r r3) by (by transitivity r2). destruct o; by apply returns_ret.
Qed.

Lemma drive_tcp_spec tcp readable writable r :
  tcp_ok tcp → returns (drive_tcp tcp readable writable) (λ out r', same r r' ∧ drive_ok tcp out) r.
Proof.
  intros Htcp. unfold drive_tcp. apply returns_bind.
  apply (returns_mono _ (λ out r', same r r' ∧ token out.1 = token tcp ∧ tcp_ok out.1)).
  { destruct (_ && _); [by apply drive_write_spec|by apply returns_ret]. }
  intros [tcp' failed] r1 (Hs & Htok & Htcp'). cbn in *. destruct failed; [by apply returns_ret|].
  destruct readable; [|by apply returns_ret].
  apply returns_bind. unfold returns, wpx at 1, ask. cbn beta iota.
  apply wp_lift. eapply owp_mono; [apply tcp_read_loop_spec; [done|apply env_read_bytes]| |done].
  intros [tcp2 d] (Htok2 & ? & ?). split; [by transitivity r1|]. split_and!; [|done|done]. cbn in *. congruence.
Qed.

(** The one place where a lookup can be dropped: only when tokens are not
    tracked. *)
Lemma drop_inv cmds r id :
  Inv false cmds Free r → Inv false cmds Free (set_pending (delete id (pending r)) r).
Proof.
  intros [(O & Hs & [Hk Hh Hl Ho Hn]) [Hq Ht Hc Hr Hlv]]. split.
  - exists O. split; [done|]. split; try done. cbn. intros i q [_ Hq']%lookup_delete_Some. eauto.
  - split; try done; cbn.
    + intros i q [_ Hq']%lookup_delete_Some. eauto.
    + apply route_remove; [done|apply delete_subseteq].
Qed.

Lemma token_remove_inv cmds h r t :
  Inv false cmds h r → returns (token_remove t) (λ _ r', Inv false cmds h r') r.
Proof.
  intros [(O & Hs & [? ? ? ? ?]) [? ? ? ? ?]]. unfold token_remove. apply wp_modify.
  split; [by exists O|by split].
Qed.

Lemma receive_tcp_inv exact cmds t rd wr r :
  Inv exact cmds Free r → returns (receive_tcp t rd wr) (λ _ r', Inv exact cmds Free r') r.
Proof.
  intros HI. unfold receive_tcp. apply returns_bind, wp_get.
  destruct (tcp_by_token r !! t) as [id|] eqn:Ht; [|by apply returns_ret].
  eapply returns_step; [apply pending_remove_run|].
  assert (Hexact : exact = true → ∃ q tcp, pending r !! id = Some q ∧ transport q = Tcp tcp).
  { intros He. destruct (tk_known _ (ro_tokens _ _ (proj2 HI) He) t id Ht) as (_ & q & tcp & ? & ? & _). eauto. }
  destruct (pending r !! id) as [q|] eqn:Hq.
  2: { destruct exact; [by destruct Hexact as (? & ? & ? & _)|]. by apply token_remove_inv, drop_inv. }
  destruct (transport q) as [|tcp] eqn:Htr.
  { destruct exact; [destruct Hexact as (q' & tcp & [= <-] & ?); [done|congruence]|]. by apply token_remove_inv, drop_inv. }
  destruct (ro_queries _ _ (proj2 HI) id q Hq) as [Hok _]. pose proof (qo_tcp _ Hok) as Htcp. rewrite Htr in Htcp.
  pose proof (pending_available _ _ _ _ (proj2 HI) Hq) as Hav.
  apply returns_bind. eapply returns_mono; [by apply drive_tcp_spec|]. intros [tcp' d] r2 (Hs & Htok & Htcp' & Hd). cbn in *.
  set (q' := set_transport (Tcp tcp') q).
  assert (Hok' : q_ok q') by (destruct Hok; by split).
  assert (Hout : ∀ f : R unit, (∀ r3, working exact cmds (Held (key q')) r3 → returns f (λ _ r', Inv exact cmds Free r') r3) →
    returns (token_remove (token tcp') ≫= λ _, f) (λ _ r', Inv exact cmds Free r') r2).
  { intros f Hf. eapply returns_step; [done|]. apply Hf. eapply working_same; [|split; [exact (remove_tcp_inv _ _ _ _ _ _ HI Hq Htr)|exact Hav]].
    destruct Hs as (?&?&?&?&?&?&?&?&?). rewrite Htok. unfold same in *. cbn in *. split_and!; congruence. }
  destruct d as [f|[|m]].
  - apply Hout. intros r3 [HI3 _]. by apply fail_query_inv.
  - apply wp_modify. eapply inv_same; [|apply (update_inv _ _ r id q q'); try done; unfold token_of; cbn; by rewrite Htr, Htok].
    destruct Hs as (Hp&?&?&?&?&?&?&?&?). unfold same. cbn in *. rewrite Hp, insert_delete_eq. by split_and!.
  - apply Hout. intros r3 HW. apply returns_bind, wp_lift.
    eapply owp_mono; [apply parse_answer_ok; [done|apply Hok]| |done]. intros o Ho. apply finish_answer_inv; [done|done|].
    by destruct o.
Qed.

(** ** UDP answers *)

Lemma covers_put_back exact O r id q q' :
  covers exact O (Held (key q)) r → by_key r !! key q = Some id → pending r !! id = None → key q' = key q →
  covers exact O Free (set_pending (<[id := q']> (pending r)) r).
Proof.
  intros [Hk Hh Hl Ho Hn] Hb Hid Hkey. split; cbn [pending by_key set_pending hand_key] in *.
  - intros i x [[<- <-]|[Hne Hx]]%lookup_insert_Some; [rewrite Hkey; auto|]. destruct (Hk i x Hx) as (? & ? & _). auto.
  - done.
  - done.
  - intros He k Hin. right. destruct (Ho He k Hin) as [[= <-]|?]; [by eexists|done].
  - intros He k i Hi. right. destruct (Hn He k i Hi) as [[= <-]|(x & Hx & ?)].
    + exists q'. assert (i = id) as -> by congruence. by rewrite lookup_insert_eq.
    + exists x. split; [|done]. rewrite lookup_insert_ne; [done|]. intros <-. congruence.
Qed.

Lemma next_token_inv exact cmds h r n :
  Inv exact cmds h r → next_tcp_token r ≤ n → Inv exact cmds h (set_next_tcp_token n r).
Proof.
  intros [(O & Hs & [? ? ? ? ?]) [? Ht ? ? ?]] Hn. split; [by exists O|]. split; try done.
  intros He. destruct (Ht He) as [Hkn Hall]. split; [|done]. cbn. intros t id Hid.
  destruct (Hkn t id Hid) as (? & ?). split; [lia|done].
Qed.

Lemma start_fallback_inv exact cmds r id q q' tcp :
  Inv exact cmds (Held (key q)) r → available r → by_key r !! key q = Some id → pending r !! id = None →
  key q' = key q → q_ok q' → transport q' = Tcp tcp → streams id →
  (exact = true → ∀ t' i, tcp_by_token r !! t' = Some i → t' < token tcp) → token tcp < next_tcp_token r →
  Inv exact cmds Free (set_pending (<[id := q']> (pending r)) (set_tcp_by_token (<[token tcp := id]> (tcp_by_token r)) r)).
Proof.
  intros [(O & Hs & Hcov) [Hq Ht Hc Hr Hlv]] Hav Hb Hid Hkey Hok Htr Hst Hfresh Hlt. split.
  - exists O. split; [done|]. by destruct (covers_put_back _ _ _ _ _ q' Hcov Hb Hid Hkey).
  - split; cbn [pending config set_pending set_tcp_by_token].
    + intros i x [[<- <-]|[_ Hx]]%lookup_insert_Some; eauto.
    + intros He. destruct (Ht He) as [Hkn Hall]. split; cbn [pending tcp_by_token next_tcp_token set_pending set_tcp_by_token].
      * intros t i [[<- <-]|[Hne Hi]]%lookup_insert_Some; [split; [done|]; exists q', tcp; by rewrite lookup_insert_eq|].
        destruct (Hkn t i Hi) as (? & x & tcp' & Hx & ? & ?). split; [done|]. exists x, tcp'. split; [|done].
        rewrite lookup_insert_ne; [done|]. intros <-. congruence.
      * intros i x tcp' [[<- <-]|[_ Hx]]%lookup_insert_Some Hxt.
        { assert (tcp' = tcp) as -> by congruence. by rewrite lookup_insert_eq. }
        pose proof (Hall _ _ _ Hx Hxt) as Hold. rewrite lookup_insert_ne; [done|]. intros Heq.
        specialize (Hfresh He _ _ Hold). lia.
    + done.
    + by apply (route_available (set_tcp_by_token _ r)).
    + done.
Qed.

(** ** Nameservers *)

Lemma quiet_open_socket ns : quiet (open_socket ns).
Proof.
  unfold open_socket. apply quiet_bind; [apply quiet_ask|]. intros [?|]; [apply quiet_ret|].
  apply quiet_bind; [apply quiet_ask|]. intros ?. apply quiet_ret.
Qed.

Lemma route_set_inv exact cmds r i ns :
  Inv exact cmds Free r → available r → 0 ≤ i → Config.nameservers (config r) !! Z.to_nat i = Some ns →
  Inv exact cmds Free (set_current_nameserver i (set_socket (Some ns) r)).
Proof.
  intros [(O & Hs & [? ? ? ? ?]) [Hq Ht Hc Hr Hlv]] [ns0 Hns] Hi Hlook. split; [by exists O|].
  split; try done; cbn; [by intros He; destruct (Ht He)|]. unfold route_ok in *. rewrite Hns in Hr. by destruct Hr.
Qed.

(** What the nameserver operations do: only the socket and the current index
    may change. *)
Definition rerouted (exact : bool) (cmds : list Command) (r r' : Resolver) : Prop :=
  Inv exact cmds Free r' ∧ available r' ∧ pending r' = pending r.

Lemma replace_current_inv exact cmds r :
  Inv exact cmds Free r → available r → returns replace_current_nameserver (λ _ r', rerouted exact cmds r r') r.
Proof.
  intros HI Ha. unfold replace_current_nameserver. apply returns_bind, wp_get.
  destruct (Config.nameservers (config r) !! _) as [ns|] eqn:Hns; [|by apply returns_ret].
  apply returns_bind. eapply returns_mono; [apply quiet_open_socket|]. intros b r1 Hs.
  pose proof (inv_same _ _ _ _ _ Hs HI) as HI1. pose proof (available_same _ _ Hs Ha) as Ha1.
  destruct Hs as (Hp & _ & _ & _ & Hcur & _ & _ & Hcf & _).
  destruct b; [|by apply returns_ret]. eapply returns_step; [done|]. apply returns_ret. split_and!; [|by eexists|done].
  rewrite <-Hcur, <-Hcf in Hns. apply (route_set_inv exact cmds r1 (current_nameserver r1)) in Hns; [|done|done|].
  - by destruct r1.
  - destruct HI1 as [_ [_ _ _ Hr _]]. unfold route_ok in Hr. destruct Ha1 as [? Ha1]. rewrite Ha1 in Hr. by destruct Hr as (_ & ? & _).
Qed.

Lemma advance_loop_inv exact cmds offsets : ∀ r,
  Inv exact cmds Free r → available r → returns (advance_loop offsets) (λ _ r', rerouted exact cmds r r') r.
Proof.
  induction offsets as [|o offsets IH]; intros r HI Ha; cbn [advance_loop]; [by apply returns_ret|].
  apply returns_bind, wp_get. set (count := Z.of_nat (length (Config.nameservers (config r)))).
  assert (Hcount : 0 < count ∧ 0 ≤ current_nameserver r).
  { destruct HI as [_ [_ _ _ Hr _]]. unfold route_ok in Hr. destruct Ha as [ns Hns]. rewrite Hns in Hr.
    destruct Hr as (_ & ? & Hlook%lookup_lt_Some). lia. }
  pose proof (Z.mod_pos_bound (current_nameserver r + Z.of_nat o) count ltac:(lia)) as Hmod.
  set (i := (current_nameserver r + Z.of_nat o) mod count) in *.
  destruct (lookup_lt_is_Some_2 (Config.nameservers (config r)) (Z.to_nat i)) as [ns Hns]; [lia|]. rewrite Hns.
  apply returns_bind. eapply returns_mono; [apply quiet_open_socket|]. intros b r1 Hs.
  pose proof (inv_same _ _ _ _ _ Hs HI) as HI1. pose proof (available_same _ _ Hs Ha) as Ha1.
  destruct Hs as (Hp & _ & _ & _ & Hcur & _ & _ & Hcf & _). destruct b.
  - eapply returns_step; [done|]. apply returns_ret. split_and!; [|by eexists|done].
    apply route_set_inv; [done|done|lia|]. by rewrite Hcf.
  - eapply returns_mono; [by apply IH|]. intros c r2 (? & ? & ?). split_and!; [done|done|congruence].
Qed.

Lemma generation_inv exact cmds h r g : Inv exact cmds h r → Inv exact cmds h (set_udp_generation g r).
Proof. apply inv_same. by repeat split. Qed.

(** ** Transmission *)

Lemma record_send_spec sent now g q :
  q_ok q → attempts_sent q < q_attempt_limit q →
  owp (record_send sent now g q) (λ q', key q' = key q ∧ transport q' = transport q ∧ q_ok q') (λ _, False).
Proof.
  intros [? ? ? ? ?] Hlt. unfold record_send, u8_max in *.
  assert (∀ a g n, 0 ≤ a ≤ q_attempt_limit q → q_ok (set_sent a g n q)) as Hset by (intros; by split).
  destruct sent; cbn [owp].
  - zcase; [|split_and!; [done|done|apply Hset; lia]]. rewrite (proj2 (Z.leb_le _ _)) by lia.
    split_and!; [done|done|apply Hset; lia].
  - split_and!; [done|done|apply Hset; lia].
  - split_and!; [done|done|apply Hset; lia].
Qed.

Lemma transmit_inv exact cmds id now r :
  Inv exact cmds Free r →
  (∀ q, pending r !! id = Some q → is_udp q = true → attempts_sent q < q_attempt_limit q) →
  returns (transmit id now) (λ _ r', Inv exact cmds Free r') r.
Proof.
  intros HI Hlt. unfold transmit. apply returns_bind, wp_get.
  destruct (pending r !! id) as [q|] eqn:Hq; [|by apply returns_ret].
  destruct (is_udp q) eqn:Hudp; [|by apply returns_ret].
  destruct (ro_queries _ _ (proj2 HI) id q Hq) as [Hok _].
  apply returns_bind. eapply returns_mono; [apply quiet_ask|]. intros sent r1 Hs.
  pose proof (inv_same _ _ _ _ _ Hs HI) as HI1. destruct Hs as (Hp & _).
  apply returns_bind, wp_lift. eapply owp_mono; [apply record_send_spec; [done|by apply Hlt]| |done].
  intros q' (Hk & Htr & Hok'). apply wp_modify. eapply update_inv; try done; [by rewrite Hp|].
  unfold token_of. by rewrite Htr.
Qed.

Lemma restart_attempts_ok now q :
  q_ok q → key (restart_attempts now q) = key q ∧ transport (restart_attempts now q) = transport q ∧ q_ok (restart_attempts now q).
Proof. intros [? ? ? ? ?]. unfold restart_attempts. destruct (is_udp q); [|done]. split_and!; try done. split; try done; cbn; lia. Qed.

Lemma exhaust_inv exact cmds id now q r :
  Inv exact cmds Free r → pending r !! id = Some q → is_udp q = true →
  returns (exhaust id now q)
    (λ out r', Inv exact cmds Free r' ∧
       (out.2 = false → ∀ q', pending r' !! id = Some q' → is_udp q' = true → attempts_sent q' < q_attempt_limit q')) r.
Proof.
  intros HI Hq Hudp. pose proof (pending_available _ _ _ _ (proj2 HI) Hq) as Ha.
  unfold exhaust. apply returns_bind, wp_get. apply returns_bind.
  apply (returns_mono _ (λ _ r', rerouted exact cmds r r')).
  { destruct (_ <? _); [|by apply returns_ret]. unfold advance_nameserver. apply returns_bind, wp_get. by apply advance_loop_inv. }
  intros b r1 (HI1 & Ha1 & Hp1). destruct b.
  - eapply returns_step; [done|]. eapply returns_step; [done|]. apply returns_ret. cbn. split.
    + apply (fmap_inv _ _ (set_udp_generation _ r1)); [by apply generation_inv|]. apply restart_attempts_ok.
    + intros _ q'. rewrite Hp1, lookup_fmap, Hq. intros [= <-] _. unfold restart_attempts. rewrite Hudp. cbn.
      destruct (ro_queries _ _ (proj2 HI) id q Hq) as [[? ? ? ? ?] _]. lia.
  - apply returns_bind, wp_get. apply returns_bind.
    apply (returns_mono _ (λ _ r', Inv exact cmds Free r' ∧ pending r' = pending r)).
    { zcase; [|by apply returns_ret]. apply returns_bind. eapply returns_mono; [by apply replace_current_inv|].
      intros c r2 (HI2 & _ & Hp2). destruct c; [|apply returns_ret; split; [done|congruence]].
      apply wp_modify. split; [by apply generation_inv|cbn; congruence]. }
    intros ? r2 [HI2 Hp2]. eapply returns_step; [apply pending_remove_run|]. rewrite Hp2, Hq. rewrite <-Hp2.
    apply returns_bind. eapply returns_mono.
    { apply fail_query_inv, pending_remove_inv; [done|congruence|]. intros _. unfold is_udp in Hudp. by destruct (transport q). }
    intros ? r3 HI3. apply returns_ret. by split.
Qed.

Lemma transmit_one_inv exact cmds now id r :
  Inv exact cmds Free r → returns (transmit_one now id) (λ _ r', Inv exact cmds Free r') r.
Proof.
  intros HI. unfold transmit_one. apply returns_bind, wp_get.
  assert (Htr : (∀ q, pending r !! id = Some q → is_udp q = true → attempts_sent q < q_attempt_limit q) →
    returns (transmit id now ≫= λ _, mret false) (λ _ r', Inv exact cmds Free r') r).
  { intros Hlt. apply returns_bind. by eapply returns_mono; [apply transmit_inv|]. }
  destruct (pending r !! id) as [q|] eqn:Hq; [|by apply Htr].
  destruct (is_udp q) eqn:Hudp; cbn [negb].
  2: { apply returns_bind. eapply returns_mono; [by apply remove_query_inv|].
       intros o r1 (_ & _ & _ & _ & _ & _ & -> & Ho). rewrite Hq in *. apply returns_bind.
       eapply returns_mono; [by apply fail_query_inv|]. intros ? r2 HI2. by apply returns_ret. }
  zcase; [|apply Htr; by intros ? [= <-]].
  apply returns_bind. eapply returns_mono; [by apply exhaust_inv|]. intros [d gone] r1 [HI1 Hlt]. cbn in Hlt.
  apply returns_bind. destruct gone; [by apply returns_ret, returns_ret|].
  eapply returns_mono; [by apply transmit_inv; auto|]. intros ? r2 HI2. by apply returns_ret.
Qed.

Lemma transmit_due_inv exact cmds r :
  Inv exact cmds Free r → returns transmit_due (λ _ r', Inv exact cmds Free r') r.
Proof.
  intros HI. unfold transmit_due.
  assert (Hloop : ∀ now ids d r, Inv exact cmds Free r → returns (transmit_loop now ids d) (λ _ r', Inv exact cmds Free r') r).
  { intros now ids. induction ids as [|id ids IH]; intros d r0 HI0; cbn [transmit_loop]; [by apply returns_ret|].
    apply returns_bind. eapply returns_mono; [by apply transmit_one_inv|]. intros b r1 HI1. by apply IH. }
  apply (quiet_then _ _ (Inv exact cmds Free)); [apply quiet_now|done|by apply inv_same|]. intros now r1 HI1.
  apply returns_bind, wp_get. apply (quiet_then _ _ (Inv exact cmds Free)); [apply quiet_ask|done|by apply inv_same|].
  intros ids r2 HI2. by apply Hloop.
Qed.

(** ** Configuration *)

Lemma returns_and {T} (m : R T) (Q Q' : T → Resolver → Prop) r :
  returns m Q r → returns m Q' r → returns m (λ a r', Q a r' ∧ Q' a r') r.
Proof. unfold returns, wpx. destruct (m r) as [[| | |] ?]; done. Qed.

(** No query pending, whatever the socket. *)
Record bare (exact : bool) (cmds : list Command) (r : Resolver) : Prop := {
  br_lookups : lookups exact cmds Free r;
  br_pending : pending r = ∅;
  br_tokens : exact = true → tokens_ok r;
  br_config : config_ok (config r)
}.

Lemma bare_of_inv exact cmds r : Inv exact cmds Free r → pending r = ∅ → bare exact cmds r.
Proof. intros [Hl [? ? ? ? ?]] Hp. by split. Qed.

Lemma bare_frame exact cmds r r' :
  bare exact cmds r → pending r' = pending r → by_key r' = by_key r → tcp_by_token r' = tcp_by_token r →
  next_tcp_token r' = next_tcp_token r → log r' = log r → config_ok (config r') → bare exact cmds r'.
Proof.
  intros [(O & Hs & [? ? ? ? ?]) Hp Ht Hc] Hp' Hb Htk Hn Hres Hc'. split.
  - exists O. rewrite Hres. split; [done|]. split; rewrite ?Hp', ?Hb; auto.
  - by rewrite Hp'.
  - intros He. destruct (Ht He). split; rewrite ?Hp', ?Htk, ?Hn; auto.
  - done.
Qed.

Lemma bare_inv exact cmds r : bare exact cmds r → route_ok r → (live → is_Some (socket r)) → Inv exact cmds Free r.
Proof.
  intros [Hl Hp Ht Hc] Hr Hlv. split; [done|]. split; try done. intros id q Hq. by rewrite Hp, lookup_empty in Hq.
Qed.

Lemma fail_query_frame q f r :
  returns (fail_query q f) (λ _ r', pending r' = pending r ∧ config r' = config r ∧ config_available r' = config_available r) r.
Proof. unfold fail_query, emit_failure, returns, wpx. cbn. by destruct (policy q). Qed.

Lemma fail_pending_inv exact cmds r :
  Inv exact cmds Free r →
  returns fail_pending_for_configuration_change
    (λ _ r', bare exact cmds r' ∧ config r' = config r ∧ config_available r' = config_available r) r.
Proof.
  intros HI. unfold fail_pending_for_configuration_change. apply returns_bind, wp_get.
  assert (Hloop : ∀ ids r0, Inv exact cmds Free r0 → (∀ id, is_Some (pending r0 !! id) → id ∈ ids) →
    returns (for_each ids (λ id, removed ← remove_query id;
      match removed with Some query => fail_query query configuration_changed | None => mret tt end))
      (λ _ r', bare exact cmds r' ∧ config r' = config r0 ∧ config_available r' = config_available r0) r0).
  { induction ids as [|id ids IH]; intros r0 HI0 Hsub; cbn [for_each].
    - apply returns_ret. split; [|done]. apply bare_of_inv; [done|]. apply map_empty. intros id.
      destruct (pending r0 !! id) eqn:Hid; [|done]. by destruct (not_elem_of_nil id); apply Hsub; eexists.
    - apply returns_bind. apply (returns_mono _ (λ _ r', Inv exact cmds Free r' ∧ pending r' = delete id (pending r0) ∧
        config r' = config r0 ∧ config_available r' = config_available r0)).
      { apply returns_bind. eapply returns_mono; [by apply remove_query_inv|].
        intros o r1 (Hp & _ & Hc & _ & _ & Hav & _ & Ho). destruct o as [q|]; [|by apply returns_ret].
        eapply returns_mono; [apply returns_and; [by apply fail_query_inv|apply fail_query_frame]|].
        intros ? r2 (HI2 & Hp2 & Hc2 & Hav2). split_and!; [done|congruence..]. }
      intros ? r1 (HI1 & Hp1 & Hc1 & Hav1). eapply returns_mono; [apply IH; [done|]|].
      + rewrite Hp1. intros i [x [Hne Hx]%lookup_delete_Some]. assert (Hi : i ∈ id :: ids) by (apply Hsub; by eexists).
        apply elem_of_cons in Hi as [|]; done.
      + intros ? r2 (? & ? & ?). split_and!; [done|congruence..]. }
  apply returns_bind. unfold returns, wpx at 1, ask. cbn beta iota. fold (returns (T := unit)).
  eapply returns_mono; [apply (Hloop _ (set_calls _ r))|].
  - apply (inv_same _ _ _ r); [by repeat split|done].
  - intros id Hid. rewrite env_keys_perm. by apply elem_of_elements, elem_of_dom.
  - done.
Qed.

Lemma connect_nameserver_spec servers : ∀ i last r,
  0 ≤ i →
  returns (connect_nameserver i servers last)
    (λ o r', same r r' ∧ match o with
                         | inr (ns, j) => i ≤ j ∧ servers !! Z.to_nat (j - i) = Some ns
                         | inl _ => True end) r.
Proof.
  induction servers as [|s servers IH]; intros i last r Hi; cbn [connect_nameserver]; [by apply returns_ret|].
  apply returns_bind. eapply returns_mono; [apply quiet_ask|]. intros o r1 Hs. destruct o as [e|].
  - eapply returns_mono; [apply IH; lia|]. intros [e'|[ns j]] r2 [Hs2 Ho]; (split; [by transitivity r1|]); [done|].
    destruct Ho as [? Hlook]. split; [lia|]. replace (Z.to_nat (j - i)) with (S (Z.to_nat (j - (i + 1)))) by lia. done.
  - apply returns_ret. split; [done|]. split; [lia|]. by rewrite Z.sub_diag.
Qed.

Lemma connect_and_register_spec c r :
  returns (connect_and_register c)
    (λ o r', same r r' ∧ match o with
                         | inr (ns, j) => 0 ≤ j ∧ Config.nameservers c !! Z.to_nat j = Some ns
                         | inl _ => True end) r.
Proof.
  unfold connect_and_register. apply returns_bind. eapply returns_mono; [by apply connect_nameserver_spec|].
  intros [e|[ns j]] r1 [Hs Ho]; [by apply returns_ret|]. rewrite Z.sub_0_r in Ho.
  apply returns_bind. eapply returns_mono; [apply quiet_ask|]. intros o r2 Hs2.
  apply returns_ret. split; [by transitivity r1|]. by destruct o.
Qed.

(** A phase that may close the socket. *)
Context (Hdead : ¬ live).

Lemma transition_inv exact cmds r :
  Inv exact cmds Free r → returns transition_configuration_unavailable (λ _ r', Inv exact cmds Free r') r.
Proof.
  intros HI. unfold transition_configuration_unavailable. apply returns_bind, wp_get.
  destruct (config_available r); cbn [negb]; [|by apply returns_ret].
  apply returns_bind. eapply returns_mono; [by apply fail_pending_inv|]. intros ? r1 (Hb & _ & _).
  do 5 (eapply returns_step; [done|]). apply wp_modify. apply bare_inv; [|split; [done|apply Hb]|done].
  apply (bare_frame _ _ _ _ Hb); try done. apply Hb.
Qed.

Definition snapshot_ok (sn : ResolverSnapshot) : Prop :=
  0 ≤ Config.sn_attempts sn ≤ u8_max ∧ len (Config.sn_search_suffixes sn) ≤ Config.MAX_SEARCH_SUFFIXES.

Lemma usable_config sn c : snapshot_ok sn → usable_snapshot sn = true → config_ok (Config.apply sn c).
Proof.
  intros [Ha Hs]. unfold usable_snapshot. rewrite !andb_true_iff, !negb_true_iff. intros [[_ Hne%Z.eqb_neq] _].
  unfold config_ok. cbn. lia.
Qed.

(** A new socket, or none, once nothing is pending. *)
Lemma settled exact cmds r r' :
  bare exact cmds r → pending r' = pending r → by_key r' = by_key r → tcp_by_token r' = tcp_by_token r →
  next_tcp_token r' = next_tcp_token r → log r' = log r → config r' = config r →
  match socket r' with
  | Some ns => config_available r' = true ∧ 0 ≤ current_nameserver r' ∧
               Config.nameservers (config r) !! Z.to_nat (current_nameserver r') = Some ns
  | None => config_available r' = false
  end → Inv exact cmds Free r'.
Proof.
  intros Hb Hp Hk Ht Hn Hres Hc Hroute. apply bare_inv; [|unfold route_ok|done].
  - apply (bare_frame _ _ _ _ Hb); try done. rewrite Hc. apply Hb.
  - rewrite Hc. destruct (socket r'); [done|]. split; [done|]. rewrite Hp. apply Hb.
Qed.

Lemma install_inv exact cmds r :
  bare exact cmds r →
  returns (installed ← install_configured_socket;
           match installed with
           | inr index => modify (λ r, set_config_error None (set_config_available true (set_current_nameserver index r)))
           | inl error => modify (λ r, set_config_error (Some error) (set_config_available false r))
           end) (λ _ r', Inv exact cmds Free r') r.
Proof.
  intros Hb. unfold install_configured_socket. apply returns_bind. apply returns_bind, wp_get. apply returns_bind.
  eapply returns_mono; [apply connect_and_register_spec|]. intros o r1 [Hs Ho].
  assert (Hcfg : config r1 = config r) by (by destruct Hs as (_&_&_&_&_&_&_&->&_)).
  assert (Hb1 : bare exact cmds r1).
  { destruct Hs as (?&?&?&?&?&?&?&_&?). apply (bare_frame _ _ _ _ Hb); try done. rewrite Hcfg. apply Hb. }
  eapply returns_step; [done|]. destruct o as [e|[ns j]].
  - apply returns_ret, wp_modify. by apply (settled _ _ r1).
  - eapply returns_step; [done|]. apply returns_ret, wp_modify. apply (settled _ _ r1); try done. cbn.
    by rewrite Hcfg.
Qed.

Lemma same_route_inv exact cmds sn r :
  Inv exact cmds Free r → config_ok (Config.apply sn (config r)) →
  Config.sn_nameservers sn = Config.nameservers (config r) →
  Inv exact cmds Free (set_config (Config.apply sn (config r)) r).
Proof.
  intros [(O & Hs & [? ? ? ? ?]) [Hq Ht Hc Hr Hlv]] Hok Hns. split; [by exists O|].
  split; try done; [by intros He; destruct (Ht He)|].
  unfold route_ok in *. cbn. by rewrite Hns.
Qed.

Lemma apply_snapshot_inv exact cmds sn r :
  Inv exact cmds Free r → snapshot_ok sn → usable_snapshot sn = true →
  returns (apply_snapshot sn) (λ _ r', Inv exact cmds Free r') r.
Proof.
  intros HI Hsn Hus. unfold apply_snapshot. apply returns_bind, wp_get.
  destruct (config_available r && _) eqn:Hsame; [by apply returns_ret|].
  destruct (_ || _) eqn:Hroute; cbn [negb].
  - apply returns_bind. eapply returns_mono; [by apply fail_pending_inv|]. intros ? r1 (Hb & Hc & _).
    do 2 (eapply returns_step; [done|]). set (r2 := set_config _ _).
    assert (Hb2 : bare exact cmds r2) by (apply (bare_frame _ _ _ _ Hb); try done; by apply usable_config).
    clearbody r2. pose proof (install_inv _ _ _ Hb2) as Hin. unfold returns, wpx, mbind, M_bind in Hin |- *.
    destruct (install_configured_socket r2) as [[o|e| |] r3]; try done. cbn beta iota in *.
    destruct o as [e|j]; cbn in Hin |- *; revert Hin; apply inv_same; by repeat split.
  - apply orb_false_iff in Hroute as [Hav%negb_false_iff Hns%negb_false_iff%bool_decide_eq_true].
    eapply returns_step; [done|]. apply wp_modify.
    eapply inv_same; [|apply (same_route_inv _ _ sn _ HI); [by apply usable_config|done]]. by repeat split.
Qed.

Lemma discovered_ok n d c sn :
  env_discover n = d → Config.rediscover c d = Some (inr sn) → snapshot_ok sn.
Proof.
  intros Hd. pose proof (env_discover_finish n) as Hfin. rewrite Hd in Hfin. unfold Config.rediscover.
  destruct (Config.source c); [done|]. destruct d as [e|d]; [done|]. intros [= <-].
  destruct Hfin as (? & servers & suffixes & Hf). destruct (finish_spec _ _ _ _ _ Hf) as (_ & _ & _ & _ & _ & ? & _).
  by split.
Qed.

Lemma refresh_inv exact cmds r :
  Inv exact cmds Free r → returns refresh_configuration_if_dirty (λ _ r', Inv exact cmds Free r') r.
Proof.
  intros HI. unfold refresh_configuration_if_dirty. apply returns_bind, wp_get.
  destruct (config_dirty r); cbn [negb]; [|by apply returns_ret].
  eapply returns_step; [done|].
  apply (quiet_then _ _ (Inv exact cmds Free)); [|by apply (inv_same _ _ _ r); [repeat split|]|by apply inv_same|].
  { destruct (Config.refresh_interval _); [|apply quiet_ret]. apply quiet_bind; [apply quiet_now|]. intros. apply quiet_ret. }
  intros refresh r1 HI1. eapply returns_step; [done|].
  assert (HI2 : Inv exact cmds Free (set_next_config_refresh refresh r1)) by (by apply (inv_same _ _ _ r1); [repeat split|]).
  apply returns_bind.
  apply (returns_mono _ (λ d r', Inv exact cmds Free r' ∧ ∀ sn, d = Some (inr sn) → snapshot_ok sn)).
  { destruct (Config.source (config r)); [by apply returns_ret|]. apply returns_bind. unfold returns, wpx at 1, ask.
    cbn beta iota. fold (returns (T := option (Error + ResolverSnapshot))). apply returns_ret. split.
    - by apply (inv_same _ _ _ (set_next_config_refresh refresh r1)); [repeat split|].
    - intros sn Hsn. by eapply discovered_ok. }
  intros d r2 [HI3 Hsn]. destruct d as [[e|sn]|]; [| |by apply returns_ret].
  - eapply returns_step; [done|]. apply transition_inv. by apply (inv_same _ _ _ r2); [repeat split|].
  - destruct (usable_snapshot sn) eqn:Hus; [apply apply_snapshot_inv; [done|by apply Hsn|done]|].
    eapply returns_step; [done|]. apply transition_inv. by apply (inv_same _ _ _ r2); [repeat split|].
Qed.
End inv.

(** ** Commands *)

Section commands.
Context {tgt : Target} {env : Env} (streams : Z → Prop).
#[local] Notation Inv := (Inv streams False).
#[local] Notation rest_ok := (rest_ok streams False).

(** A command has been taken, and the maps are as before. *)
Definition commanded exact cmds (c : Command) (r : Resolver) : Prop :=
  ∃ O, served cmds (log r) (accept c O) ∧ covers exact O Free r.
Lemma take_command_spec exact cmds c r :
  Inv exact cmds Free r →
  returns (take_command c) (λ _ r', commanded exact (cmds ++ [c]) c r' ∧ rest_ok exact r') r.
Proof.
  intros [(O & Hs & [? ? ? ? ?]) [? Ht ? ? ?]]. apply wp_modify. split.
  - exists O. split; [by apply served_command|by split].
  - split; try done. intros He. by destruct (Ht He).
Qed.

(** After a lookup is withdrawn, only the others are covered. *)
Lemma withdraw_spec exact cmds c k r :
  commanded exact cmds c r → rest_ok exact r →
  returns (withdraw k)
    (λ _ r', (∃ O, served cmds (log r') (accept c O) ∧ covers exact (O ∖ {[ k ]}) Free r') ∧ by_key r' !! k = None ∧
             rest_ok exact r' ∧ config r' = config r) r.
Proof.
  intros (O & Hs & Hcov) Hrest. unfold withdraw. apply returns_bind, wp_get.
  destruct (by_key r !! k) as [id|] eqn:Hk.
  2: { apply returns_ret. split_and!; try done. exists O. split; [done|]. destruct Hcov as [Hck Hh Hl Ho Hn]. split; try done.
       - intros i q Hq. destruct (Hck i q Hq) as (? & ? & ?). split_and!; [done| |done].
         apply elem_of_difference. split; [done|]. apply not_elem_of_singleton. congruence.
       - intros He j [Hj _]%elem_of_difference. by apply Ho. }
  assert (HI' : exact = true → ∃ q, pending r !! id = Some q ∧ key q = k).
  { intros He. by destruct (cv_known _ _ _ _ Hcov He k id Hk). }
  eapply returns_step; [done|]. unfold remove_query.
  set (p := set_by_key (delete k (by_key r)) r).
  assert (Hgoal : ∀ tk, (exact = true → tokens_ok (set_tcp_by_token tk (set_pending (delete id (pending r)) r))) →
    (∃ O, served cmds (log r) (accept c O) ∧
       covers exact (O ∖ {[ k ]}) Free (set_tcp_by_token tk (set_pending (delete id (pending r)) p))) ∧
    rest_ok exact (set_tcp_by_token tk (set_pending (delete id (pending r)) p))).
  { intros tk Htk. split.
    - exists O. split; [done|]. destruct Hcov as [Hck Hh Hl Ho Hn]. split; try done; cbn.
      + intros i q [Hne Hq]%lookup_delete_Some. destruct (Hck i q Hq) as (Hb & ? & _).
        assert (key q ≠ k) by congruence. split_and!; [by rewrite lookup_delete_ne| |done].
        apply elem_of_difference. split; [done|]. by apply not_elem_of_singleton.
      + intros He j [Hj Hne%not_elem_of_singleton]%elem_of_difference. right. rewrite lookup_delete_ne by done.
        by destruct (Ho He j Hj).
      + intros He j i [Hne Hi]%lookup_delete_Some. destruct (Hn He j i Hi) as [?|(q & Hq & Hqk)]; [done|right].
        exists q. split; [|done]. rewrite lookup_delete_ne; [done|]. intros <-.
        destruct (HI' He) as (q' & Hq' & ?). congruence.
    - destruct Hrest as [Hq Ht Hc Hr Hlv]. split; try done; cbn.
      + intros i q [_ Hq']%lookup_delete_Some. eauto.
      + intros He. by destruct (Htk He).
      + apply (route_remove (set_tcp_by_token tk p)); [done|apply delete_subseteq]. }
  apply returns_bind. eapply returns_step; [apply pending_remove_run|]. change (pending p) with (pending r).
  destruct (pending r !! id) as [q|] eqn:Hq.
  - destruct (transport q) as [|tcp] eqn:Htr; (eapply returns_step; [done|]); apply returns_ret, returns_ret.
    + destruct (Hgoal (tcp_by_token r)) as [? ?]; [intros He|].
      { by destruct (tokens_remove_udp _ _ _ (ro_tokens _ _ _ _ Hrest He) Hq Htr). }
      split_and!; try done. cbn. apply lookup_delete_eq.
    + destruct (Hgoal (delete (token tcp) (tcp_by_token r))) as [? ?]; [intros He|].
      { exact (tokens_remove_tcp _ _ _ _ (ro_tokens _ _ _ _ Hrest He) Hq Htr). }
      split_and!; try done. cbn. apply lookup_delete_eq.
  - apply returns_ret, returns_ret. destruct (Hgoal (tcp_by_token r)) as [? ?]; [intros He|].
    { destruct (HI' He) as (q & ? & _). congruence. }
    split_and!; try done. cbn. apply lookup_delete_eq.
Qed.

(** A lookup is asked for: it is in hand, and not registered. *)
Lemma asked_inv exact cmds c k r :
  (∃ O, served cmds (log r) (accept c O) ∧ covers exact (O ∖ {[ k ]}) Free r) → by_key r !! k = None →
  rest_ok exact r → (∀ O, accept c O = {[ k ]} ∪ O) → Inv exact cmds (Loose k) r.
Proof.
  intros (O & Hs & [Hck Hh Hl Ho Hn]) Hk Hrest Hacc. split; [|done]. exists ({[ k ]} ∪ O).
  split; [by rewrite <-Hacc|]. split; cbn [hand_key].
  - intros i q Hq. destruct (Hck i q Hq) as (? & [? Hne%not_elem_of_singleton]%elem_of_difference & _).
    split_and!; [done|by apply elem_of_union_r|congruence].
  - intros j [= <-]. apply elem_of_union_l. by apply elem_of_singleton.
  - by intros j [= <-].
  - intros He j Hj. destruct (decide (j = k)) as [->|Hne]; [by left|right].
    apply elem_of_union in Hj as [Hj%elem_of_singleton|Hj]; [done|].
    destruct (Ho He j) as [?|?]; [|done|done]. apply elem_of_difference. split; [done|]. by apply not_elem_of_singleton.
  - intros He j i Hi. right. by destruct (Hn He j i Hi).
Qed.

Lemma working_asked exact cmds k r :
  Inv exact cmds (Loose k) r → config_available r = true → working streams False exact cmds (Loose k) r.
Proof.
  intros HI Hav. split; [done|]. destruct HI as [_ [_ _ _ Hr _]]. unfold route_ok, available in *.
  destruct (socket r); [by eexists|]. destruct Hr. congruence.
Qed.

Lemma resolve_command_inv exact cmds k host r :
  commanded exact cmds (Cmd_Resolve k host) r → rest_ok exact r →
  returns (resolve_command k host) (λ _ r', Inv exact cmds Free r') r.
Proof.
  intros Hc Hr. unfold resolve_command. apply returns_bind. eapply returns_mono; [by apply withdraw_spec|].
  intros ? r1 (HO & Hk & Hrest & Hcf). pose proof (asked_inv _ _ (Cmd_Resolve k host) k _ HO Hk Hrest ltac:(done)) as HI1.
  apply returns_bind, wp_get. destruct (config_available r1) eqn:Hav; cbn [negb]; [|by eapply send_result_inv].
  apply working_asked in HI1 as HW1; [|done]. set (W := working streams False exact cmds (Loose k)).
  apply (quiet_then _ _ W); [apply quiet_parse_dns_name|done|by apply working_same|].
  intros [f|name] r2 [HI2 Ha2]; [by eapply send_result_inv|].
  apply (quiet_then _ _ W); [apply quiet_now|done|by apply working_same|]. intros now r3 HW3.
  apply (quiet_then _ _ W); [apply quiet_on_cache|done|by apply working_same|]. intros [res|] r4 HW4; [by eapply send_result_inv; [apply HW4|]|].
  apply returns_bind. eapply returns_mono; [apply prepare_spec|].
  - split; [|done]. cbn. unfold retry_ok. cbn. destruct Hrest as [_ _ [? _] _ _]. done.
  - unfold MAX_CNAME_HOPS. lia.
  - intros o r5 [Hs Ho]. apply (working_same _ _ _ _ _ _ _ Hs) in HW4 as [HI5 Ha5].
    by apply (prepared_or_failed _ _ _ _ k _ _ (λ f, result_http k (inl f))).
Qed.

Lemma public_resolve_command_inv exact cmds k spec r :
  commanded exact cmds (Cmd_PublicResolve k spec) r → rest_ok exact r →
  returns (public_resolve_command k spec) (λ _ r', Inv exact cmds Free r') r.
Proof.
  intros Hc Hr. unfold public_resolve_command. apply returns_bind. eapply returns_mono; [by apply withdraw_spec|].
  intros ? r1 (HO & Hk & Hrest & Hcf).
  pose proof (asked_inv _ _ (Cmd_PublicResolve k spec) k _ HO Hk Hrest ltac:(done)) as HI1.
  apply returns_bind, wp_get. destruct (config_available r1) eqn:Hav; cbn [negb]; [|by eapply send_result_inv].
  apply working_asked in HI1; [|done]. destruct Hrest as [_ _ [? ?] _ _]. by apply begin_public_resolve_inv.
Qed.

Lemma cancel_command_inv exact cmds k r :
  commanded exact cmds (Cmd_Cancel k) r → rest_ok exact r → returns (withdraw k) (λ _ r', Inv exact cmds Free r') r.
Proof.
  intros Hc Hr. eapply returns_mono; [by apply withdraw_spec|]. intros ? r1 ((O & Hs & Hcov) & Hk & Hrest & _).
  split; [|done]. exists (O ∖ {[ k ]}). by split.
Qed.

(** The commands that were taken: all of them, or those up to a shutdown. *)
Lemma run_commands_inv exact l : ∀ cmds r,
  Inv exact cmds Free r →
  returns (run_commands l)
    (λ stop r', ∃ now later, l = now ++ later ∧ Inv exact (cmds ++ now) Free r' ∧ (stop = false → later = [])) r.
Proof.
  induction l as [|c l IH]; intros cmds r HI; cbn [run_commands].
  { apply returns_ret. exists [], []. by rewrite (app_nil_r cmds). }
  apply returns_bind. eapply returns_mono; [exact (take_command_spec _ _ c _ HI)|]. intros ? r1 [Hc Hr].
  assert (Hstep : ∀ m : R unit, returns m (λ _ r', Inv exact (cmds ++ [c]) Free r') r1 →
    returns (m ≫= λ _, run_commands l)
      (λ stop r', ∃ now later, c :: l = now ++ later ∧ Inv exact (cmds ++ now) Free r' ∧ (stop = false → later = [])) r1).
  { intros m Hm. apply returns_bind. eapply returns_mono; [exact Hm|]. intros ? r2 HI2.
    eapply returns_mono; [exact (IH _ _ HI2)|]. intros stop r3 (now & later & -> & HI3 & Hst).
    exists (c :: now), later. rewrite <-app_assoc in HI3. split; [done|]. split; [exact HI3|done]. }
  destruct c as [k host|k spec|k|].
  - apply Hstep. by apply resolve_command_inv.
  - apply Hstep. by apply public_resolve_command_inv.
  - apply Hstep. by apply cancel_command_inv.
  - apply returns_ret. exists [Cmd_Shutdown], l. split; [done|]. split; [|done].
    destruct Hc as (O & Hs & Hcov). split; [by exists O|exact Hr].
Qed.
End commands.
