(* ===== verification/DnsResolverRuns.v ===== *)
(** * Runs of the resolver's thread

    Receiving, polling and whole turns keep the invariant; from it, the
    properties of every run: the thread never panics, every result answers a
    lookup that is wanted, and (as long as no datagram answers a query that has
    moved to TCP) no wanted lookup is forgotten. *)

From stdpp Require Import base list strings gmap.
From Stdlib Require Import ZArith Lia.
From S2P Require Import Prelude Errors DnsWire DnsWireProofs DnsCache DnsConfig DnsConfigProofs DnsAnswer DnsAnswerProofs DnsSession DnsResolver DnsResolverProofs.

Import Wire Answer Session Resolver.
Import Config (SocketAddr, ResolverConfig).

Section runs.
Context {tgt : Target} {env : Env}.

Lemma inv_weaken (S S' : Z → Prop) (live live' : Prop) exact cmds h r :
  Inv S live exact cmds h r → (∀ i, S i → S' i) → (live' → live) → Inv S' live' exact cmds h r.
Proof.
  intros [Hl [Hq Ht Hc Hr Hlv]] HS Hlive. split; [done|]. split; try done; [|auto].
  intros id q Hid. destruct (Hq id q Hid) as [? [?|?]]; auto.
Qed.

(** The queries that are on TCP. *)
Definition tcp_ids (r : Resolver) (id : Z) : Prop := ∃ q, pending r !! id = Some q ∧ is_udp q = false.

Lemma inv_tighten S live exact cmds h r : Inv S live exact cmds h r → Inv (tcp_ids r) live exact cmds h r.
Proof.
  intros [Hl [Hq Ht Hc Hr Hlv]]. split; [done|]. split; try done. intros id q Hid.
  destruct (Hq id q Hid) as [? _]. split; [done|]. destruct (is_udp q) eqn:Hu; [left|right; by exists q].
  unfold is_udp, token_of in *. by destruct (transport q).
Qed.

(** ** Datagrams *)

(** The transaction identifier a datagram starts with. *)
Definition datagram_id (bytes : list Z) : option Z :=
  match bytes with a :: b :: _ => Some (u16_from_be_bytes a b) | _ => None end.

Lemma begin_tcp_fallback_inv S live exact cmds r id q ns timeout :
  Inv S live exact cmds (Held (key q)) r → available r → q_ok q → by_key r !! key q = Some id → pending r !! id = None → S id →
  returns (begin_tcp_fallback id q ns timeout)
    (λ o r', match o with
             | inl _ => Inv S live exact cmds (Held (key q)) r'
             | inr q' => Inv S live exact cmds Free (set_pending (<[id := q']> (pending r')) r')
             end) r.
Proof.
  intros HI Ha Hq Hb Hid HS. unfold begin_tcp_fallback. zcase; [by apply returns_ret|].
  apply returns_bind, wp_get. unfold checked_add. zcase; [|by apply returns_ret].
  eapply returns_step; [done|]. set (r1 := set_next_tcp_token _ r).
  assert (HI1 : Inv S live exact cmds (Held (key q)) r1) by (apply next_token_inv; [done|lia]).
  assert (Hfresh : exact = true → ∀ t i, tcp_by_token r1 !! t = Some i → t < next_tcp_token r).
  { intros He t i Ht. by destruct (tk_known _ (ro_tokens _ _ _ _ (proj2 HI) He) t i Ht). }
  apply returns_bind. eapply returns_mono; [apply quiet_ask|]. intros o r2 Hs2.
  destruct o; [apply returns_ret; exact (inv_same _ _ _ _ _ _ _ Hs2 HI1)|].
  apply returns_bind. eapply returns_mono; [apply quiet_ask|]. intros o r3 Hs3.
  assert (Hs13 : same r1 r3) by (by transitivity r2).
  destruct o; [apply returns_ret; exact (inv_same _ _ _ _ _ _ _ Hs13 HI1)|].
  apply returns_bind. eapply returns_mono; [apply quiet_now|]. intros now r4 Hs4.
  apply returns_bind. apply (returns_mono _ (λ _ r', same r4 r')).
  { destruct (instant_checked_add _ _); [by apply returns_ret|apply quiet_now]. }
  intros deadline r5 Hs5. assert (Hs : same r1 r5) by (transitivity r3; [done|by transitivity r4]).
  eapply returns_step; [done|]. apply returns_ret. cbn [pending set_tcp_by_token].
  set (tcp := mkTcp (next_tcp_token r) _ 0 [] None). set (q' := set_transport _ _).
  pose proof (inv_same _ _ _ _ _ _ _ Hs HI1) as HI5. destruct Hs as (Hp & Hbk & Htk & Hnx & _ & _ & Hsk & _).
  refine (start_fallback_inv S live exact cmds r5 id q q' tcp HI5 _ _ _ _ _ _ HS _ _).
  - unfold available. by rewrite Hsk.
  - by rewrite Hbk.
  - by rewrite Hp.
  - done.
  - destruct Hq. by split.
  - done.
  - intros He t i Ht. rewrite Htk in Ht. by apply (Hfresh He t i).
  - rewrite Hnx. cbn. lia.
Qed.

Lemma index_two {E} (bytes : list Z) :
  2 ≤ len bytes → ∃ a b rest, bytes = a :: b :: rest ∧ @index E bytes 0 = Ok a ∧ @index E bytes 1 = Ok b.
Proof.
  intros Hl. destruct bytes as [|a [|b rest]]; [rewrite len_nil in Hl; lia|rewrite len_cons, len_nil in Hl; lia|].
  by exists a, b, rest.
Qed.

Lemma receive_datagram_inv S live exact cmds bytes r :
  Inv S live exact cmds Free r → Forall is_byte bytes →
  (exact = true → ∀ id, datagram_id bytes = Some id → ¬ S id) →
  returns (receive_datagram bytes) (λ _ r', Inv (λ i, S i ∨ datagram_id bytes = Some i) live exact cmds Free r') r.
Proof.
  intros HI Hb Hnot. unfold receive_datagram. set (bs := take (Z.to_nat DNS_PACKET_LIMIT) bytes).
  assert (Hbs : Forall is_byte bs) by (by apply Forall_take).
  assert (HI0 : Inv (λ i, S i ∨ datagram_id bytes = Some i) live exact cmds Free r) by (eapply inv_weaken; eauto).
  zcase; [by apply returns_ret|].
  destruct (@index_two Empty_set bs) as (a & b & rest & Hbytes & Hia & Hib); [lia|].
  apply returns_bind, wp_lift. rewrite Hia. apply returns_bind, wp_lift. rewrite Hib. cbn [owp].
  set (id := u16_from_be_bytes a b).
  assert (Hdid : datagram_id bytes = Some id).
  { subst bs. replace (Z.to_nat DNS_PACKET_LIMIT) with (Datatypes.S (Datatypes.S (Z.to_nat 4094))) in Hbytes by (unfold DNS_PACKET_LIMIT; lia).
    destruct bytes as [|x [|y bytes]]; [done|done|]. cbn [take] in Hbytes. by injection Hbytes as -> -> _. }
  apply returns_bind, wp_get. destruct (pending r !! id) as [q|] eqn:Hq; [|by apply returns_ret].
  destruct (ro_queries _ _ _ _ (proj2 HI) id q Hq) as [Hok Htok].
  pose proof (pending_available _ _ _ _ _ _ (proj2 HI) Hq) as Ha.
  apply returns_bind, wp_lift. eapply owp_mono; [apply parse_answer_ok; [done|apply Hok]| |done].
  intros [p|] Hp; [|by apply returns_ret].
  assert (Hudp : exact = true → transport q = Udp).
  { intros He. destruct Htok as [Ht|HS]; [|by destruct (Hnot He id)]. unfold token_of in Ht. by destruct (transport q). }
  pose proof (pending_remove_inv _ _ _ _ _ _ _ HI0 Hq Hudp) as HI1.
  eapply returns_step; [apply pending_remove_run|].
  assert (Hfin : returns (finish_answer q p)
    (λ _ r', Inv (λ i, S i ∨ datagram_id bytes = Some i) live exact cmds Free r') (set_pending (delete id (pending r)) r))
    by (by apply finish_answer_inv).
  destruct p as [f|[ans|target h|n|f n|]]; try done.
  pose proof (ro_route _ _ _ _ (proj2 HI)) as Hroute. unfold route_ok in Hroute. destruct Ha as [ns Hns]. rewrite Hns in Hroute.
  destruct Hroute as (_ & _ & ->). apply returns_bind.
  eapply returns_mono; [apply (begin_tcp_fallback_inv (λ i, S i ∨ datagram_id bytes = Some i)); try done|].
  - by eexists.
  - destruct HI as [(O & _ & Hcov) _]. by destruct (cv_key _ _ _ _ Hcov id q Hq).
  - cbn. apply lookup_delete_eq.
  - by right.
  - intros [f|q'] r2 HI2; [by apply fail_query_inv|]. by apply wp_modify.
Qed.

Definition received_ids (received : list RecvResult) : list Z :=
  omap (λ x, match x with Datagram bytes => datagram_id bytes | RecvError _ => None end) received.
Definition received_bytes (received : list RecvResult) : Prop :=
  ∀ bytes, Datagram bytes ∈ received → Forall is_byte bytes.

Lemma receive_packets_inv live exact cmds received : ∀ S r,
  Inv S live exact cmds Free r → received_bytes received →
  (exact = true → NoDup (received_ids received) ∧ ∀ id, id ∈ received_ids received → ¬ S id) →
  returns (receive_packets received) (λ _ r', ∃ S', Inv S' live exact cmds Free r') r.
Proof.
  induction received as [|x received IH]; intros S r HI Hb Hids; cbn [receive_packets]; [apply returns_ret; eauto|].
  assert (Hb' : received_bytes received) by (intros y Hy; apply Hb; by right).
  destruct x as [bytes|interrupted].
  - apply returns_bind. eapply returns_mono; [apply receive_datagram_inv; [done|apply Hb; by left|]|].
    + intros He id Hid. destruct (Hids He) as [_ Hn]. apply Hn. unfold received_ids. cbn. rewrite Hid. by left.
    + intros ? r1 HI1. apply (IH _ _ HI1 Hb'). intros He. destruct (Hids He) as [Hd Hn].
      unfold received_ids in *. cbn in *. destruct (datagram_id bytes) as [id|].
      * apply NoDup_cons in Hd as [Hnin Hd]. split; [done|]. intros i Hi [?|[= ->]]; [|done].
        by apply (Hn i); [right|].
      * split; [done|]. intros i Hi [?|?]; [|done]. by apply (Hn i).
  - destruct interrupted; [by apply (IH S)|apply returns_ret; eauto].
Qed.

(** ** Polling *)

Lemma fail_all_lookups S live exact cmds f r :
  Inv S live exact cmds Free r → returns (fail_all f) (λ _ r', lookups exact cmds Free r' ∧ pending r' = ∅) r.
Proof.
  intros [(O & Hs & [Hk Hh Hl Ho Hn]) _]. unfold fail_all. apply returns_bind, wp_get.
  assert (Hloop : ∀ ids r0, (∃ O, served cmds (log r0) O ∧
      (∀ id q, pending r0 !! id = Some q → key q ∈ O) ∧
      (∀ i j q q', pending r0 !! i = Some q → pending r0 !! j = Some q' → key q = key q' → i = j) ∧
      (exact = true → ∀ k, k ∈ O → ∃ id q, pending r0 !! id = Some q ∧ key q = k)) →
    (∀ id, is_Some (pending r0 !! id) → id ∈ ids) →
    returns (for_each ids (λ id, removed ← pending_remove id;
      match removed with Some query => emit_failure query f | None => mret tt end))
      (λ _ r', (∃ O, served cmds (log r') O ∧ (exact = true → O = ∅)) ∧ pending r' = ∅) r0).
  { induction ids as [|id ids IH]; intros r0 (O' & Hs' & Hin & Hinj & Hall) Hsub; cbn [for_each].
    - apply returns_ret. assert (Hp : pending r0 = ∅).
      { apply map_empty. intros i. destruct (pending r0 !! i) eqn:Hi; [|done]. by destruct (not_elem_of_nil i); apply Hsub; eexists. }
      split; [|done]. exists O'. split; [done|]. intros He. apply set_eq. intros k. split; [|by intros ?%not_elem_of_empty].
      intros (i & q & Hi & _)%(Hall He). by rewrite Hp, lookup_empty in Hi.
    - apply returns_bind. eapply returns_step; [apply pending_remove_run|].
      destruct (pending r0 !! id) as [q|] eqn:Hq.
      2: { apply returns_ret. rewrite delete_id by done. apply IH; [by exists O'|]. cbn. intros i Hi.
           assert (Hi' : i ∈ id :: ids) by (by apply Hsub). apply elem_of_cons in Hi' as [->|]; [by rewrite Hq in Hi; destruct Hi|done]. }
      assert (Hnext : ∀ res, r_key res = key q → returns (send_result res) (λ _ r1,
        (∃ O, served cmds (log r1) O ∧ (∀ id q, pending r1 !! id = Some q → key q ∈ O) ∧
          (∀ i j q q', pending r1 !! i = Some q → pending r1 !! j = Some q' → key q = key q' → i = j) ∧
          (exact = true → ∀ k, k ∈ O → ∃ id q, pending r1 !! id = Some q ∧ key q = k)) ∧
        (∀ i, is_Some (pending r1 !! i) → i ∈ ids)) (set_pending (delete id (pending r0)) r0)).
      { intros res Hres. apply wp_modify. cbn. split.
        - exists (O' ∖ {[ r_key res ]}). split; [apply served_answer; [done|]; rewrite Hres; eauto|]. split_and!.
          + intros i q' [Hne Hi]%lookup_delete_Some. apply elem_of_difference. split; [eauto|].
            apply not_elem_of_singleton. rewrite Hres. intros Heq. apply Hne. symmetry. eauto.
          + intros i j q1 q2 [_ Hi]%lookup_delete_Some [_ Hj]%lookup_delete_Some. eauto.
          + intros He k [Hin' Hne%not_elem_of_singleton]%elem_of_difference. destruct (Hall He k Hin') as (i & q' & Hi & <-).
            exists i, q'. split; [|done]. rewrite lookup_delete_ne; [done|]. intros <-. congruence.
        - intros i [x [Hne Hx]%lookup_delete_Some]. assert (Hi' : i ∈ id :: ids) by (apply Hsub; by eexists).
          apply elem_of_cons in Hi' as [->|]; done. }
      eapply returns_mono; [unfold emit_failure; destruct (policy q); by apply Hnext|].
      intros ? r1 [HO1 Hsub1]. by apply IH. }
  apply returns_bind. unfold returns, wpx at 1, ask. cbn beta iota. fold (returns (T := unit)).
  apply returns_bind. eapply returns_mono; [apply (Hloop _ (set_calls _ r))|].
  - exists O. split_and!; [done| | |].
    + intros id q Hq. by destruct (Hk id q Hq) as (_ & ? & _).
    + intros i j q q' Hi Hj Heq. destruct (Hk _ _ Hi) as (Hbi & _). destruct (Hk _ _ Hj) as (Hbj & _). congruence.
    + intros He k Hin. destruct (Ho He k Hin) as [?|[id Hid]]; [done|].
      destruct (Hn He k id Hid) as [?|(q & ? & ?)]; [done|by exists id, q].
  - intros id Hid. rewrite env_keys_perm. by apply elem_of_elements, elem_of_dom.
  - intros ? r1 ((O1 & Hs1 & Hempty) & Hp1). apply wp_modify. cbn. split; [|done]. exists O1. split; [done|].
    split; cbn; try done.
    + intros id q. by rewrite Hp1, lookup_empty.
    + intros He k Hin. rewrite (Hempty He) in Hin. by apply not_elem_of_empty in Hin.
Qed.

(** What holds after a turn, or when the thread has stopped. *)
Definition after_phase (exact : bool) (cmds : list Command) (stop : bool) (r : Resolver) : Prop :=
  lookups exact cmds Free r ∧ (stop = false → ∃ S, Inv S False exact cmds Free r).

Lemma receive_tcp_all S exact cmds events : ∀ r,
  Inv S False exact cmds Free r →
  returns (for_each events (λ e, receive_tcp (e_token e) (readable e) (writable e))) (λ _ r', Inv S False exact cmds Free r') r.
Proof.
  induction events as [|e events IH]; intros r HI; cbn [for_each]; [by apply returns_ret|].
  apply returns_bind. eapply returns_mono; [by apply receive_tcp_inv|]. intros ? r1 HI1. by apply IH.
Qed.

Lemma poll_phase_inv S exact cmds received r :
  Inv S False exact cmds Free r → received_bytes received →
  (exact = true → NoDup (received_ids received) ∧ ∀ id, id ∈ received_ids received → ¬ S id) →
  returns (poll_phase received) (after_phase exact cmds) r.
Proof.
  intros HI Hb Hids. unfold poll_phase.
  apply (quiet_then _ _ (Inv S False exact cmds Free)); [apply quiet_now|done|by apply inv_same|]. intros ? r1 HI1.
  apply (quiet_then _ _ (Inv S False exact cmds Free)); [apply quiet_ask|done|by apply inv_same|]. intros [events|] r2 HI2.
  2: { apply returns_bind. eapply returns_mono; [by apply (fail_all_lookups S False exact cmds)|]. intros ? r3 [Hl _]. apply returns_ret. by split. }
  apply returns_bind, wp_get. apply returns_bind.
  apply (returns_mono _ (λ _ r', ∃ S', Inv S' False exact cmds Free r')).
  - destruct (_ && _) eqn:Hready; [|apply returns_ret; by exists S].
    apply andb_prop in Hready as [_ Hsock%negb_true_iff].
    assert (HI3 : Inv S True exact cmds Free r2).
    { destruct HI2 as [Hl [Hq Ht Hc Hr _]]. split; [done|]. split; try done. intros _. by destruct (socket r2); [eexists|]. }
    apply returns_bind. eapply returns_mono; [by apply (receive_packets_inv True exact cmds received S)|]. intros poisoned r3 (S' & HI4).
    assert (Hweak : ∀ r, Inv S' True exact cmds Free r → ∃ S', Inv S' False exact cmds Free r)
      by (intros; exists S'; by eapply inv_weaken).
    destruct poisoned; [|by apply returns_ret, Hweak].
    apply returns_bind. eapply returns_mono; [apply (replace_current_inv S' True exact cmds); [done|by apply (ro_live _ _ _ _ (proj2 HI4))]|].
    intros replaced r4 (HI5 & _ & _). destruct replaced; [|by apply returns_ret, Hweak].
    apply wp_modify. by apply Hweak, generation_inv.
  - intros ? r3 (S' & HI3). apply returns_bind. eapply returns_mono; [by apply (receive_tcp_all S')|].
    intros ? r4 HI4. apply returns_ret. split; [apply HI4|by exists S'].
Qed.

(** ** Turns *)

(** Every datagram of the batch answers a query that is on UDP, and no query
    gets two. *)
Definition one_answer_each (i : Input) (r : Resolver) : Prop :=
  NoDup (received_ids (received i)) ∧
  ∀ id q, id ∈ received_ids (received i) → pending r !! id = Some q → is_udp q = true.

Lemma dirty_inv S exact cmds (b : bool) r :
  Inv S False exact cmds Free r →
  returns (if b then modify (set_config_dirty true) else mret tt) (λ _ r', Inv S False exact cmds Free r') r.
Proof.
  intros HI. destruct b; [|by apply returns_ret]. apply wp_modify. by apply (inv_same _ _ _ _ _ r); [repeat split|].
Qed.

Lemma turn_inv exact cmds i r :
  Inv (tcp_ids r) False exact cmds Free r → received_bytes (received i) → (exact = true → one_answer_each i r) →
  returns (turn i)
    (λ stop r', ∃ now later, commands i = now ++ later ∧ after_phase exact (cmds ++ now) stop r' ∧
                              (stop = false → later = [])) r.
Proof.
  intros HI Hb Hone. set (S := tcp_ids r) in *. unfold turn.
  apply (quiet_then _ _ (Inv S False exact cmds Free)); [apply quiet_ask|done|by apply inv_same|]. intros pumped r1 HI1.
  apply returns_bind. eapply returns_mono; [exact (dirty_inv S exact cmds pumped r1 HI1)|]. intros ? r2 HI2.
  apply returns_bind, wp_get. apply returns_bind. apply (returns_mono _ (λ _ r', Inv S False exact cmds Free r')).
  { destruct (next_config_refresh r2) as [d|]; [|by apply returns_ret].
    apply (quiet_then _ _ (Inv S False exact cmds Free)); [apply quiet_now|done|by apply inv_same|]. intros now r3 HI3.
    by apply dirty_inv. }
  intros ? r3 HI3. apply returns_bind. eapply returns_mono; [apply (refresh_inv S False); [tauto|done]|]. intros ? r4 HI4.
  apply returns_bind. eapply returns_mono; [exact (run_commands_inv S _ _ _ _ HI4)|].
  intros stop r5 (now & later & Hcmds & HI5 & Hrest). destruct stop.
  { apply returns_ret. exists now, later. split_and!; [done| |done]. split; [apply HI5|done]. }
  apply returns_bind. eapply returns_mono; [apply (refresh_inv S False); [tauto|done]|]. intros ? r6 HI6.
  apply returns_bind, wp_get. apply returns_bind.
  apply (returns_mono _ (λ _ r', Inv S False exact (cmds ++ now) Free r')).
  { destruct (socket r6); [|by apply returns_ret]. apply returns_bind. eapply returns_mono; [exact (transmit_due_inv S False exact (cmds ++ now) _ HI6)|].
    intros dirty r7 HI7. by apply dirty_inv. }
  intros ? r7 HI7. apply returns_bind. eapply returns_mono; [apply (refresh_inv S False); [tauto|done]|]. intros ? r8 HI8.
  eapply returns_mono; [apply (poll_phase_inv S exact (cmds ++ now)); [done|done|]|].
  - intros He. destruct (Hone He) as [Hd Hudp]. split; [done|]. intros id Hid (q & Hq & Hu).
    specialize (Hudp id q Hid Hq). congruence.
  - intros stop r9 Hafter. exists now, later. by split_and!; auto.
Qed.

(** Each turn's datagrams, in the state the turn starts in. *)
Fixpoint answers_once (script : list Input) (r : Resolver) : Prop :=
  match script with
  | [] => True
  | i :: rest => one_answer_each i r ∧ answers_once rest (snd (turn i r))
  end.

Definition all_commands (script : list Input) : list Command := concat (map commands script).

Lemma turns_inv exact script : ∀ cmds r,
  Inv (tcp_ids r) False exact cmds Free r → Forall (λ i, received_bytes (received i)) script →
  (exact = true → answers_once script r) →
  returns (turns script)
    (λ stop r', ∃ now later, all_commands script = now ++ later ∧ after_phase exact (cmds ++ now) stop r' ∧
                              (stop = false → later = [])) r.
Proof.
  induction script as [|i script IH]; intros cmds r HI Hb Hone; cbn [turns].
  { apply returns_ret. exists [], []. rewrite (app_nil_r cmds). split_and!; [done| |done]. split; [apply HI|eauto]. }
  apply Forall_cons in Hb as [Hbi Hb]. apply returns_bind.
  assert (Hti : exact = true → one_answer_each i r) by (intros He; by apply Hone).
  pose proof (turn_inv exact cmds i r HI Hbi Hti) as Ht. unfold returns, wpx in Ht |- *.
  destruct (turn i r) as [[stop|e| |] r1] eqn:Hrun; try done.
  destruct Ht as (now & later & Hc & Hafter & Hst). unfold all_commands. cbn [map concat]. rewrite Hc.
  destruct stop.
  { cbn. exists now, (later ++ all_commands script). rewrite <-app_assoc. by split_and!. }
  rewrite (Hst eq_refl), app_nil_r. destruct Hafter as [_ Hinv]. destruct (Hinv eq_refl) as [S HI1].
  apply inv_tighten in HI1. assert (Hone1 : exact = true → answers_once script r1).
  { intros He. destruct (Hone He) as [_ Hrest]. by rewrite Hrun in Hrest. }
  specialize (IH (cmds ++ now) r1 HI1 Hb Hone1). unfold returns, wpx in IH.
  destruct (turns script r1) as [[stop|e| |] r2]; try done.
  destruct IH as (now' & later' & Hc' & Hafter' & Hst'). exists (now ++ now'), later'.
  rewrite <-!app_assoc in *. split_and!; [by rewrite <-Hc'|done|done].
Qed.

(** ** Starting *)

Definition start_config_ok (c : ResolverConfig) : Prop :=
  0 ≤ Config.attempts c ≤ u8_max ∧ len (Config.search_suffixes c) ≤ Config.MAX_SEARCH_SUFFIXES.

Lemma new_inner_inv exact c t :
  start_config_ok c →
  returns (new_inner c) (λ failed r, failed = None → ∃ S, Inv S False exact [] Free r ∧ log r = [] ∧ pending r = ∅) (initial c t).
Proof.
  intros [Ha Hs]. unfold new_inner. destruct (_ || _) eqn:Hz; [by apply returns_ret|].
  apply orb_false_iff in Hz as [Hz%Z.eqb_neq _].
  assert (Hbare : bare exact [] (initial c t)).
  { split; [|done|by split|split; cbn; [lia|done]]. exists ∅. split; [by split; constructor|]. by split. }
  apply returns_bind. eapply returns_mono; [apply connect_and_register_spec|]. intros [e|[ns j]] r1 [Hsame Ho]; [by apply returns_ret|].
  apply returns_bind. apply (returns_mono _ (λ _ r', same r1 r')).
  { destruct (Config.refresh_interval c); [|by apply returns_ret]. apply quiet_bind; [apply quiet_now|intros; apply quiet_ret]. }
  intros refresh r2 Hs2. assert (Hs02 : same (initial c t) r2) by (by transitivity r1).
  eapply returns_step; [done|]. apply returns_ret. intros _. exists (λ _, False).
  destruct Hs02 as (Hp & Hbk & Htk & Hnx & _ & Hav & _ & Hcf & Hres). split_and!; [|done|done].
  apply (settled _ False) with (r := initial c t); try done. tauto.
Qed.

(** ** Properties of every run *)

(** The thread started from a configuration. *)
Definition started (c : ResolverConfig) (t : Z) (r : Resolver) : Prop :=
  start_config_ok c ∧ new_inner c (initial c t) = (Ok None, r).

Lemma started_inv exact c t r : started c t r → Inv (tcp_ids r) False exact [] Free r.
Proof.
  intros [Hc Hnew]. pose proof (new_inner_inv exact c t Hc) as H. unfold returns, wpx in H. rewrite Hnew in H.
  destruct (H eq_refl) as (S & HI & _). by eapply inv_tighten.
Qed.

Lemma run_inv exact c t r0 script :
  started c t r0 → Forall (λ i, received_bytes (received i)) script → (exact = true → answers_once script r0) →
  ∃ stop r later, turns script r0 = (Ok stop, r) ∧ all_commands script = taken r ++ later ∧
    (stop = false → later = []) ∧ after_phase exact (taken r) stop r.
Proof.
  intros Hs Hb Hone. pose proof (turns_inv exact script [] r0 (started_inv exact c t r0 Hs) Hb Hone) as Ht.
  unfold returns, wpx in Ht. destruct (turns script r0) as [[stop|e| |] r]; try done.
  destruct Ht as (now & later & Hc & Hafter & Hrest). destruct (Hafter) as [(O & [_ Hnow] & _) _]. cbn in Hnow.
  exists stop, r, later. unfold taken. rewrite Hnow. by split_and!.
Qed.

(** C23: the resolver's thread never panics or hangs in a turn, whatever the
    commands, the datagrams, the TCP streams, the clock and the operating
    system's errors; and its results keep its promise. In the order in which the
    thread takes the commands and sends the results, each result answers a
    lookup that has been asked for before, has not been answered since and has
    not been cancelled since; and every query the thread has in flight belongs
    to one wanted lookup, each lookup having at most one. It takes the commands
    in order, and all of them until it stops. *)
Theorem resolver_serves c t r0 script :
  started c t r0 → Forall (λ i, received_bytes (received i)) script →
  ∃ stop r later O,
    turns script r0 = (Ok stop, r) ∧ all_commands script = taken r ++ later ∧ (stop = false → later = []) ∧
    serves ∅ (log r) O ∧
    ∀ id q, pending r !! id = Some q → key q ∈ O ∧ by_key r !! key q = Some id.
Proof.
  intros Hs Hb. destruct (run_inv false c t r0 script Hs Hb) as (stop & r & later & Hrun & Hc & Hlater & [HI _]); [done|].
  destruct HI as (O & [HO _] & Hcov). exists stop, r, later, O. split_and!; try done.
  intros id q Hq. by destruct (cv_key _ _ _ _ Hcov id q Hq) as (? & ? & _).
Qed.

(** C24: no lookup is forgotten. If no query gets two datagrams in one batch or
    a datagram after it has moved to TCP, then after every turn, and also when
    the thread has stopped because polling failed, the wanted lookups are
    exactly those with a query in flight: every other one has been answered or
    cancelled. *)
Theorem resolver_forgets_none c t r0 script :
  started c t r0 → Forall (λ i, received_bytes (received i)) script → answers_once script r0 →
  ∃ stop r later O,
    turns script r0 = (Ok stop, r) ∧ all_commands script = taken r ++ later ∧ (stop = false → later = []) ∧
    serves ∅ (log r) O ∧
    ∀ k, k ∈ O ↔ ∃ id q, pending r !! id = Some q ∧ key q = k.
Proof.
  intros Hs Hb Hone.
  destruct (run_inv true c t r0 script Hs Hb) as (stop & r & later & Hrun & Hc & Hlater & [HI _]); [done|].
  destruct HI as (O & [HO _] & Hcov). exists stop, r, later, O. split_and!; try done. intros k. split.
  - intros Hk. destruct (cv_owed _ _ _ _ Hcov eq_refl k Hk) as [?|[id Hid]]; [done|].
    destruct (cv_known _ _ _ _ Hcov eq_refl k id Hid) as [?|(q & ? & ?)]; [done|by exists id, q].
  - intros (id & q & Hq & <-). by destruct (cv_key _ _ _ _ Hcov id q Hq) as (_ & ? & _).
Qed.

(** While the thread runs, its state stays within its bounds: every query
    has made at most its limit of attempts and followed at most eight aliases,
    a partial DNS-over-TCP answer holds bytes and knows its length only within
    the packet limit, the socket is connected to the current nameserver of the
    configuration, and without a socket no lookup is in flight. *)
Theorem resolver_state_bounds c t r0 script r :
  started c t r0 → Forall (λ i, received_bytes (received i)) script → turns script r0 = (Ok false, r) →
  (∀ id q, pending r !! id = Some q →
     0 ≤ attempts_sent q ≤ q_attempt_limit q ∧ q_attempt_limit q ≤ u8_max ∧ 0 ≤ cname_hops q ≤ MAX_CNAME_HOPS ∧
     match transport q with Tcp tcp => tcp_ok tcp | Udp => True end) ∧
  match socket r with
  | Some nameserver =>
      config_available r = true ∧ Config.nameservers (config r) !! Z.to_nat (current_nameserver r) = Some nameserver
  | None => config_available r = false ∧ pending r = ∅
  end.
Proof.
  intros Hs Hb Hrun. destruct (run_inv false c t r0 script Hs Hb) as (stop & r' & later & Hrun' & _ & _ & [_ HI]); [done|].
  rewrite Hrun in Hrun'. injection Hrun' as <- <-. destruct (HI eq_refl) as (S & _ & [Hq _ _ Hroute _]). split.
  - intros id q Hid. destruct (Hq id q Hid) as [[Hl Ha Hh _ Ht] _]. split_and!; lia || done.
  - unfold route_ok in Hroute. destruct (socket r); [|done]. by destruct Hroute as (? & _ & ?).
Qed.
End runs.

(** ** A run *)

(** One nameserver that can be reached, the events every poll reports, and a
    clock that advances by a millisecond each time it is read. *)
Definition network (events : list Event) : Env.
Proof.
  refine {|
    env_clock := {| instant_max := 2 ^ 62 |};
    env_tick := λ _, from_millis 1;
    env_entropy := λ _, inr (4660, 2);
    env_pump := λ _, false;
    env_discover := λ _, inl (error_new ErrorKind.Internal "none");
    env_connect := λ _ _, None;
    env_register := λ _, None;
    env_take_error := λ _, inr None;
    env_send := λ _ bytes, Sent (len bytes);
    env_poll := λ _, Some events;
    env_write := λ _, [];
    env_read := λ _, [];
    env_keys := λ _ X, elements X
  |}.
  all: try done.
  intros n bytes H%elem_of_nil. done.
Defined.

Definition quiet_network : Env := network [mkEvent SOCKET_TOKEN true false].

Definition one_nameserver : ResolverConfig := Config.injected (Config.mkSocketAddr (V4 192 0 2 53) 53 0 0).
Definition first_state (e : Env) : Resolver := snd (@new_inner e one_nameserver (initial one_nameserver 0)).
#[local] Notation run e script := (@turns target64 e script (first_state e)).

(** Two lookups, one of them cancelled at once, and the answer to the other. *)
Definition two_lookups : list Input :=
  [mkInput [Cmd_Resolve 5 (bs "a.example"); Cmd_Resolve 6 (bs "c.example"); Cmd_Cancel 6] [Datagram aliased_answer]].

Example two_lookups_answered :
  let r := snd (run quiet_network two_lookups) in
  results r = [result_http 5 (inr (mkAnswer [V4 192 0 2 1] (from_secs 30)))] ∧ pending r = ∅.
Proof. vm_compute. split; reflexivity. Qed.

(** The datagrams of a script are bytes. *)
Definition datagrams_are_bytes (script : list Input) : bool :=
  forallb (λ i, forallb (λ x, match x with Datagram b => bool_decide (Forall is_byte b) | RecvError _ => true end) (received i)) script.
Lemma datagrams_are_bytes_spec script :
  datagrams_are_bytes script = true → Forall (λ i, received_bytes (received i)) script.
Proof.
  intros H. apply Forall_forall. intros i Hi bytes Hb. unfold datagrams_are_bytes in H. rewrite forallb_forall in H.
  specialize (H i (proj1 (list_elem_of_In _ _) Hi)). rewrite forallb_forall in H.
  specialize (H _ (proj1 (list_elem_of_In _ _) Hb)). by apply bool_decide_eq_true in H.
Qed.

Lemma quiet_started : @started quiet_network one_nameserver 0 (first_state quiet_network).
Proof. split; [split; [split; vm_compute; discriminate|vm_compute; discriminate]|reflexivity]. Qed.

Lemma resolver_serves_witness :
  let r := snd (run quiet_network two_lookups) in
  log r = [Took (Cmd_Resolve 5 (bs "a.example")); Took (Cmd_Resolve 6 (bs "c.example")); Took (Cmd_Cancel 6);
           Gave (result_http 5 (inr (mkAnswer [V4 192 0 2 1] (from_secs 30))))] ∧
  ∃ O, serves ∅ (log r) O ∧ ∀ id q, pending r !! id = Some q → key q ∈ O ∧ by_key r !! key q = Some id.
Proof.
  cbv zeta. split; [vm_compute; reflexivity|].
  destruct (@resolver_serves target64 quiet_network _ _ _ two_lookups quiet_started (datagrams_are_bytes_spec two_lookups eq_refl))
    as (stop & r' & later & O & Hrun & Hc & Hlater & HO & Hq).
  rewrite Hrun. exists O. split; [exact HO|exact Hq].
Defined.

Lemma resolver_forgets_none_witness :
  let r := snd (run quiet_network two_lookups) in
  ∃ O, serves ∅ (log r) O ∧ ∀ k, k ∈ O ↔ ∃ id q, pending r !! id = Some q ∧ key q = k.
Proof.
  cbv zeta. destruct (@resolver_forgets_none target64 quiet_network _ _ _ two_lookups quiet_started (datagrams_are_bytes_spec two_lookups eq_refl))
    as (stop & r' & later & O & Hrun & Hc & Hlater & HO & Hk).
  { split; [|exact I]. split; [repeat constructor; set_solver|]. intros id q _ H. discriminate H. }
  rewrite Hrun. exists O. split; [exact HO|exact Hk].
Defined.

(** After the commands alone, one query is in flight. *)
Definition one_lookup : list Input := [mkInput [Cmd_Resolve 5 (bs "a.example")] []].

Lemma resolver_state_bounds_witness :
  let r := snd (run quiet_network one_lookup) in
  size (pending r) = 1%nat ∧ config_available r = true ∧
  ∀ id q, pending r !! id = Some q → 0 ≤ attempts_sent q ≤ q_attempt_limit q ∧ 0 ≤ cname_hops q ≤ MAX_CNAME_HOPS.
Proof.
  intros r.
  destruct (@resolver_state_bounds target64 quiet_network _ _ _ one_lookup r quiet_started (datagrams_are_bytes_spec one_lookup eq_refl))
    as [Hq _]; [vm_compute; reflexivity|].
  split; [vm_compute; reflexivity|split; [vm_compute; reflexivity|]]. intros id q Hid. destruct (Hq id q Hid) as (? & _ & ? & _). split; assumption.
Defined.

(** A truncated answer and one without records, to the same query. *)
Definition truncated_answer : list Z :=
  [18; 52; 131; 128; 0; 1; 0; 0; 0; 0; 0; 0; 1; 97; 7; 101; 120; 97; 109; 112; 108; 101; 0; 0; 1; 0; 1].
Definition empty_answer : list Z :=
  [18; 52; 129; 128; 0; 1; 0; 0; 0; 0; 0; 0; 1; 97; 7; 101; 120; 97; 109; 112; 108; 101; 0; 0; 1; 0; 1].

(** Why the datagrams matter: a query that has moved to TCP takes a datagram as
    its answer and leaves its token behind; when the lookup's next query gets
    the same identifier, an event of the old stream removes that query, and the
    lookup is never answered. *)
Example datagram_after_fallback_loses_lookup :
  let r := snd (run (network [mkEvent SOCKET_TOKEN true false; mkEvent FIRST_TCP_TOKEN true false])
                  [mkInput [Cmd_Resolve 5 (bs "a.example")] [Datagram truncated_answer]; mkInput [] [Datagram empty_answer]]) in
  results r = [] ∧ pending r = ∅ ∧ by_key r = {[ 5 := 4660 ]}.
Proof. vm_compute. repeat split; reflexivity. Qed.
