(* ===== verification/NativeReactor.v ===== *)
(** * The reactor ([src/backend/native.rs])

    The reactor owns the sockets of the native backend: slots with
    generations, bounded send queues, read allowances, deadlines, and the
    events a poll reports. What it asks of the operating system (sockets, the
    poll, the clock, whether a body budget admits some bytes) is answered by
    [Sockets]; the [n]-th question gets the [n]-th answer, and the theorems
    hold for all of them. The addresses of a connection and the capacity of its
    queue are not modelled. *)

From stdpp Require Import base list strings gmap.
From Stdlib Require Import ZArith Lia.
From S2P Require Import Prelude Errors DnsCache DnsConfig.

Module Reactor.
Import Config (SocketAddr).

Definition FIRST_SOCKET_TOKEN : Z := 1.
Definition READ_CHUNK : Z := 16 * 1024.
Definition DEADLINE_COMPACTION_SLACK : Z := 64.
Definition SMALL_WINDOW : Z := 18 * 1024.

Record SlotId := mkSlotId { index : Z; generation : Z }.
#[global] Instance SlotId_eq_dec : EqDecision SlotId.
Proof. solve_decision. Defined.
#[global] Instance SlotId_countable : Countable SlotId.
Proof. apply (inj_countable' (λ i, (index i, generation i)) (λ x, mkSlotId x.1 x.2)). by intros []. Defined.

(** ** Failures and events *)

Inductive NativeFailureKind := Connect | Read | Write | OutboundQueueFull | ReceiveLimit | BodyBudget | Internal.

(** The kinds of [io::Error] the code tells apart, besides [WouldBlock]. *)
Inductive IoKind := ConnectionReset | ConnectionAborted | BrokenPipe | OtherIo.
Record IoError := mkIoError { error_kind : IoKind; error_text : string }.

Record NativeFailure := mkFailure { kind : NativeFailureKind; message : string; io_kind : option IoKind }.

Definition failure_io (kind : NativeFailureKind) (operation : string) (error : IoError) : NativeFailure :=
  mkFailure kind ("native " +:+ operation +:+ " failed: " +:+ error_text error) (Some (error_kind error)).
Definition failure_internal (message : string) : NativeFailure := mkFailure Internal message None.

Definition is_connection_reset (f : NativeFailure) : bool :=
  match io_kind f with
  | Some (ConnectionReset | ConnectionAborted | BrokenPipe) => true
  | _ => false
  end.

Inductive NativeEvent :=
| Connected (id : SlotId)
| WriteProgress (id : SlotId) (bytes : Z)
| WriteDrained (id : SlotId)
| Data (id : SlotId) (bytes : list Z)
| PeerClosed (id : SlotId)
| Failed (id : SlotId) (failure : NativeFailure)
| DeadlineExpired (id : SlotId).

(** ** The operating system *)

Record Ready := mkReady { ready_token : Z; readable : bool; writable : bool; error : bool }.
(** [write] and [read] until they would block; a successful [read] of no bytes
    is the end of the stream. *)
Inductive WriteResult := Wrote (n : Z) | WriteError (e : IoError).
Inductive ReadResult := ReadBytes (bytes : list Z) | ReadError (e : IoError).
Inductive PeekResult := PeekBlocks | PeekReady | PeekError (e : IoError).

(** [Some] and [inl] are errors. A shared buffer ([Arc<BodyBuffer>]) is its
    address, its contents do not change while it is shared; a body budget is
    its address, too. *)
Class Sockets := {
  sk_tick : nat → Z;
  sk_tick_nonneg : ∀ n, 0 ≤ sk_tick n;
  sk_connect : nat → SocketAddr → option IoError;
  sk_register : nat → option IoError;
  sk_take_error : nat → IoError + option IoError;
  sk_poll : nat → IoError + list Ready;
  sk_write : nat → list WriteResult;
  sk_read : nat → list ReadResult;
  sk_peek : nat → PeekResult;
  sk_shutdown : nat → option IoError;
  sk_charge : nat → option string;
  arc_bytes : Z → list Z;
  budget_is_limited : Z → bool
}.

(** ** State *)

Inductive ConnectionState := State_Connecting | State_Connected.
#[global] Instance ConnectionState_eq_dec : EqDecision ConnectionState.
Proof. solve_decision. Defined.

(** [body] is a window of a shared buffer: its address, start and end. *)
Record Connection := mkConnection {
  token : Z; registered : bool; state : ConnectionState; peer_read_closed : bool;
  outbound : list Z; body : option (Z * Z * Z); body_budget : option Z; outbound_limit : Z;
  received : Z; receive_limit : Z; read_allowance : option Z; deadline : option Z
}.

Definition set_registered (b : bool) (c : Connection) : Connection :=
  mkConnection (token c) b (state c) (peer_read_closed c) (outbound c) (body c) (body_budget c) (outbound_limit c)
    (received c) (receive_limit c) (read_allowance c) (deadline c).
Definition set_state (s : ConnectionState) (c : Connection) : Connection :=
  mkConnection (token c) (registered c) s (peer_read_closed c) (outbound c) (body c) (body_budget c) (outbound_limit c)
    (received c) (receive_limit c) (read_allowance c) (deadline c).
Definition set_peer_read_closed (b : bool) (c : Connection) : Connection :=
  mkConnection (token c) (registered c) (state c) b (outbound c) (body c) (body_budget c) (outbound_limit c)
    (received c) (receive_limit c) (read_allowance c) (deadline c).
Definition set_queue (out : list Z) (b : option (Z * Z * Z)) (c : Connection) : Connection :=
  mkConnection (token c) (registered c) (state c) (peer_read_closed c) out b (body_budget c) (outbound_limit c)
    (received c) (receive_limit c) (read_allowance c) (deadline c).
Definition set_budget (b : option Z) (c : Connection) : Connection :=
  mkConnection (token c) (registered c) (state c) (peer_read_closed c) (outbound c) (body c) b (outbound_limit c)
    (received c) (receive_limit c) (read_allowance c) (deadline c).
Definition set_limit (l : Z) (c : Connection) : Connection :=
  mkConnection (token c) (registered c) (state c) (peer_read_closed c) (outbound c) (body c) (body_budget c) l
    (received c) (receive_limit c) (read_allowance c) (deadline c).
Definition set_reading (n : Z) (limit : Z) (allowance : option Z) (c : Connection) : Connection :=
  mkConnection (token c) (registered c) (state c) (peer_read_closed c) (outbound c) (body c) (body_budget c) (outbound_limit c)
    n limit allowance (deadline c).
Definition set_conn_deadline (d : option Z) (c : Connection) : Connection :=
  mkConnection (token c) (registered c) (state c) (peer_read_closed c) (outbound c) (body c) (body_budget c) (outbound_limit c)
    (received c) (receive_limit c) (read_allowance c) d.

Record Slot := mkSlot { slot_generation : Z; connection : option Connection }.

Record DeadlineEntry := mkEntry { when : Z; entry_id : SlotId }.
#[global] Instance DeadlineEntry_eq_dec : EqDecision DeadlineEntry.
Proof. solve_decision. Defined.

(** [free_slots] is a stack, its top first; [deadlines] is the binary heap, as
    the sorted list of its entries. [output] is what the poll under way
    reports; [sent] and [got] are what the sockets took and gave, and by whom. *)
Record NativeReactor := mkReactor {
  slots : list Slot;
  free_slots : list Z;
  tokens : gmap Z SlotId;
  next_token : Z;
  deadlines : list DeadlineEntry;
  output : list NativeEvent;
  sent : list (SlotId * list Z);
  got : list (SlotId * list Z);
  clock : Z;
  calls : nat
}.

Definition set_slots (v : list Slot) (r : NativeReactor) : NativeReactor :=
  mkReactor v (free_slots r) (tokens r) (next_token r) (deadlines r) (output r) (sent r) (got r) (clock r) (calls r).
Definition set_free_slots (v : list Z) (r : NativeReactor) : NativeReactor :=
  mkReactor (slots r) v (tokens r) (next_token r) (deadlines r) (output r) (sent r) (got r) (clock r) (calls r).
Definition set_tokens (v : gmap Z SlotId) (r : NativeReactor) : NativeReactor :=
  mkReactor (slots r) (free_slots r) v (next_token r) (deadlines r) (output r) (sent r) (got r) (clock r) (calls r).
Definition set_next_token (v : Z) (r : NativeReactor) : NativeReactor :=
  mkReactor (slots r) (free_slots r) (tokens r) v (deadlines r) (output r) (sent r) (got r) (clock r) (calls r).
Definition set_deadlines (v : list DeadlineEntry) (r : NativeReactor) : NativeReactor :=
  mkReactor (slots r) (free_slots r) (tokens r) (next_token r) v (output r) (sent r) (got r) (clock r) (calls r).
Definition set_output (v : list NativeEvent) (r : NativeReactor) : NativeReactor :=
  mkReactor (slots r) (free_slots r) (tokens r) (next_token r) (deadlines r) v (sent r) (got r) (clock r) (calls r).
Definition set_sent (v : list (SlotId * list Z)) (r : NativeReactor) : NativeReactor :=
  mkReactor (slots r) (free_slots r) (tokens r) (next_token r) (deadlines r) (output r) v (got r) (clock r) (calls r).
Definition set_got (v : list (SlotId * list Z)) (r : NativeReactor) : NativeReactor :=
  mkReactor (slots r) (free_slots r) (tokens r) (next_token r) (deadlines r) (output r) (sent r) v (clock r) (calls r).
Definition set_clock (v : Z) (r : NativeReactor) : NativeReactor :=
  mkReactor (slots r) (free_slots r) (tokens r) (next_token r) (deadlines r) (output r) (sent r) (got r) v (calls r).
Definition set_calls (v : nat) (r : NativeReactor) : NativeReactor :=
  mkReactor (slots r) (free_slots r) (tokens r) (next_token r) (deadlines r) (output r) (sent r) (got r) (clock r) v.

(** ** The heap of deadlines *)

(** [DeadlineEntry::cmp]. *)
Definition entry_le (a b : DeadlineEntry) : bool :=
  if when a =? when b then
    if index (entry_id a) =? index (entry_id b) then generation (entry_id a) <=? generation (entry_id b)
    else index (entry_id a) <? index (entry_id b)
  else when a <? when b.

Fixpoint heap_push (e : DeadlineEntry) (heap : list DeadlineEntry) : list DeadlineEntry :=
  match heap with
  | [] => [e]
  | x :: rest => if entry_le e x then e :: heap else x :: heap_push e rest
  end.

Definition is_none {T} (o : option T) : bool := match o with None => true | Some _ => false end.

Section reactor.
Context {tgt : Target} {sk : Sockets}.

Definition RM : Type → Type := M NativeReactor NativeFailure.

Definition ask {T} (f : nat → T) : RM T := λ r, (Ok (f (calls r)), set_calls (S (calls r)) r).
Definition instant_now : RM Z :=
  tick ← ask sk_tick; r ← get; let now := clock r + tick in _ ← put (set_clock now r); mret now.
Definition emit (e : NativeEvent) : RM unit := modify (λ r, set_output (output r ++ [e]) r).

(** [result.map_err(..)] of a call that returns nothing else. *)
Definition checked (kind : NativeFailureKind) (operation : string) (result : option IoError) : RM unit :=
  match result with
  | Some e => fail (failure_io kind operation e)
  | None => mret tt
  end.

(** ** Slots *)

(** [self.slots.get(id.index)] with the generation checked; an index is not
    negative. *)
Definition slot_of (r : NativeReactor) (id : SlotId) : option Slot :=
  if index id <? 0 then None
  else
    match slots r !! Z.to_nat (index id) with
    | Some s => if slot_generation s =? generation id then Some s else None
    | None => None
    end.
Definition connection_mut (r : NativeReactor) (id : SlotId) : option Connection := slot_of r id ≫= connection.
Definition contains (r : NativeReactor) (id : SlotId) : bool := negb (is_none (connection_mut r id)).

Definition set_connection (id : SlotId) (c : option Connection) (r : NativeReactor) : NativeReactor :=
  set_slots (<[Z.to_nat (index id) := mkSlot (generation id) c]> (slots r)) r.

Definition allocate_slot : RM SlotId :=
  r ← get;
  match free_slots r with
  | i :: rest =>
      _ ← put (set_free_slots rest r);
      match slots r !! Z.to_nat i with
      | None => panic
      | Some s =>
          match checked_add u32_max (slot_generation s) 1 with
          | None => fail (failure_internal "native slot generation space is exhausted")
          | Some g =>
              let id := mkSlotId i g in
              _ ← modify (set_connection id (connection s)); mret id
          end
      end
  | [] =>
      let i := len (slots r) in
      if u32_max <? i then fail (failure_internal "native slot index space is exhausted")
      else _ ← put (set_slots (slots r ++ [mkSlot 1 None]) r); mret (mkSlotId i 1)
  end.

Definition allocate_token : RM Z :=
  r ← get;
  match checked_add usize_max (next_token r) 1 with
  | None => fail (failure_internal "native poll token space is exhausted")
  | Some next => _ ← put (set_next_token next r); mret (next_token r)
  end.

Definition release_empty_slot (i : Z) : RM unit :=
  r ← get;
  match slots r !! Z.to_nat i with
  | Some (mkSlot _ None) => put (set_free_slots (i :: free_slots r) r)
  | _ => panic
  end.

(** [release_empty_slot] before the error is returned. *)
Definition or_release {T} (i : Z) (m : RM T) : RM T := λ r,
  match m r with
  | (Err e, r') => (_ ← release_empty_slot i; fail e) r'
  | done => done
  end.

(** ** Readiness *)

Definition body_len (c : Connection) : Z :=
  match body c with Some (_, first, last) => Z.max 0 (last - first) | None => 0 end.
Definition outbound_len (c : Connection) : Z := len (outbound c) + body_len c.
Definition outbound_empty (c : Connection) : bool := outbound_len c =? 0.

(** [connection_interest]: readable and writable. *)
Definition connection_interest (c : Connection) : option (bool * bool) :=
  if bool_decide (state c = State_Connecting) then Some (true, true)
  else
    let readable := negb (peer_read_closed c) && negb (bool_decide (read_allowance c = Some 0)) in
    let writable := negb (outbound_empty c) in
    if readable || writable then Some (readable, writable) else None.

Definition reregister (id : SlotId) : RM unit :=
  r ← get;
  match slot_of r id with
  | None => fail (failure_internal "native readiness update targeted a stale slot")
  | Some s =>
      match connection s with
      | None => fail (failure_internal "native readiness update targeted a closed slot")
      | Some c =>
          match registered c, connection_interest c with
          | true, Some _ => e ← ask sk_register; checked Internal "socket reregistration" e
          | false, Some _ =>
              e ← ask sk_register; _ ← checked Internal "socket registration" e;
              modify (set_connection id (Some (set_registered true c)))
          | true, None =>
              e ← ask sk_register; _ ← checked Internal "socket deregistration" e;
              modify (set_connection id (Some (set_registered false c)))
          | false, None => mret tt
          end
      end
  end.

(** ** Deadlines *)

Definition conn_deadline (s : Slot) : option Z := connection s ≫= deadline.

(** The entries of the connections that have a deadline. *)
Definition live_deadlines (l : list Slot) : list DeadlineEntry :=
  omap id (imap (λ i s, (λ d, mkEntry d (mkSlotId (Z.of_nat i) (slot_generation s))) <$> conn_deadline s) l).

Definition maybe_compact_deadlines : RM unit :=
  r ← get;
  let live := len (live_deadlines (slots r)) in
  let retained_limit := saturating_add usize_max (saturating_mul usize_max live 2) DEADLINE_COMPACTION_SLACK in
  if len (deadlines r) <=? retained_limit then mret tt
  else put (set_deadlines (foldr heap_push [] (live_deadlines (slots r))) r).

Definition push_deadline (deadline : option Z) (id : SlotId) : RM unit :=
  match deadline with
  | Some when => modify (λ r, set_deadlines (heap_push (mkEntry when id) (deadlines r)) r)
  | None => mret tt
  end.

Definition current_deadline (r : NativeReactor) (id : SlotId) : option Z := connection_mut r id ≫= deadline.
Definition is_current (r : NativeReactor) (e : DeadlineEntry) : bool :=
  bool_decide (current_deadline r (entry_id e) = Some (when e)).

(** The loop of [nearest_deadline]. *)
Fixpoint drop_stale (r : NativeReactor) (heap : list DeadlineEntry) : list DeadlineEntry :=
  match heap with
  | [] => []
  | e :: rest => if is_current r e then heap else drop_stale r rest
  end.
Definition nearest_deadline : RM (option Z) :=
  r ← get;
  let heap := drop_stale r (deadlines r) in
  _ ← put (set_deadlines heap r);
  mret (when <$> head heap).

(** Every turn pops an entry, so one more turn than there are entries is enough
    ([expire_loop_spec]). *)
Fixpoint expire_loop (fuel : nat) (now : Z) : RM unit :=
  match fuel with
  | O => diverge
  | S fuel' =>
      nearest ← nearest_deadline;
      if match nearest with Some d => d <=? now | None => false end then
        r ← get;
        match deadlines r with
        | [] => mret tt
        | e :: rest =>
            _ ← put (set_deadlines rest r);
            _ ← match connection_mut r (entry_id e) with
                | Some c =>
                    if bool_decide (deadline c = Some (when e)) then
                      _ ← modify (set_connection (entry_id e) (Some (set_conn_deadline None c)));
                      emit (DeadlineExpired (entry_id e))
                    else mret tt
                | None => mret tt
                end;
            expire_loop fuel' now
        end
      else mret tt
  end.
Definition expire_deadlines : RM unit :=
  now ← instant_now; r ← get; expire_loop (S (length (deadlines r))) now.

(** ** Opening and closing *)

(** Whether there was something to remove. *)
Definition remove (id : SlotId) : RM bool :=
  r ← get;
  match connection_mut r id with
  | None => mret false
  | Some c =>
      _ ← modify (set_connection id None);
      _ ← (if registered c then _ ← ask sk_register; mret tt else mret tt);
      _ ← modify (λ r, set_free_slots (index id :: free_slots r) (set_tokens (delete (token c) (tokens r)) r));
      _ ← maybe_compact_deadlines;
      mret true
  end.
Definition cancel (id : SlotId) : RM bool := remove id.

(** [TcpStream::connect], the registration and the first look at its status. *)
Definition open_stream (address : SocketAddr) : RM unit :=
  e ← ask (λ n, sk_connect n address);
  _ ← checked Connect "connect start" e;
  e ← ask sk_register;
  _ ← checked Internal "socket registration" e;
  status ← ask sk_take_error;
  match status with
  | inr (Some e) => _ ← ask sk_register; fail (failure_io Connect "connect" e)
  | inl e => _ ← ask sk_register; fail (failure_io Internal "initial connect status" e)
  | inr None => mret tt
  end.

Definition connect (address : SocketAddr) (deadline : option Z) (outbound_limit receive_limit : Z) : RM SlotId :=
  id ← allocate_slot;
  token ← or_release (index id) allocate_token;
  _ ← or_release (index id) (open_stream address);
  _ ← modify (λ r, set_connection id (Some (mkConnection token true State_Connecting false [] None None outbound_limit
                     0 receive_limit None deadline)) (set_tokens (<[token := id]> (tokens r)) r));
  _ ← push_deadline deadline id;
  mret id.

(** [self.connection_mut(id).ok_or_else(..)]. *)
Definition require (id : SlotId) (otherwise : string) : RM Connection :=
  r ← get;
  match connection_mut r id with
  | Some c => mret c
  | None => fail (failure_internal otherwise)
  end.
Definition update (id : SlotId) (c : Connection) : RM unit := modify (set_connection id (Some c)).

(** ** Output *)

Definition room (c : Connection) : Z := saturating_sub (outbound_limit c) (outbound_len c).

Definition queue_write (id : SlotId) (bytes : list Z) : RM unit :=
  c ← require id "native write targeted a stale or closed slot";
  if negb (is_none (body c)) && negb (bool_decide (bytes = []))
  then fail (failure_internal "owned output cannot overtake a queued body window")
  else if room c <? len bytes
  then fail (mkFailure OutboundQueueFull "native outbound queue limit exceeded" None)
  else _ ← update id (set_queue (outbound c ++ bytes) (body c) c); reregister id.

Definition queue_body (id : SlotId) (arc first last : Z) : RM unit :=
  c ← require id "stale body slot";
  if (last <? first) || (len (arc_bytes arc) <? last) || (room c <? last - first)
  then fail (failure_internal "invalid buffered body window")
  else
    _ ← match body c with
        | Some (owner, start, stop) =>
            if (owner =? arc) && (stop =? first) then update id (set_queue (outbound c) (Some (owner, start, last)) c)
            else fail (failure_internal "buffered body windows are not contiguous")
        | None => update id (set_queue (outbound c) (Some (arc, first, last)) c)
        end;
    reregister id.

Definition set_body_budget (id : SlotId) (budget : option Z) : RM unit :=
  c ← require id "stale budget slot"; update id (set_budget budget c).
Definition outbound_capacity (id : SlotId) : RM Z :=
  c ← require id "native outbound capacity targeted a stale or closed slot"; mret (room c).
Definition outbound_is_empty (id : SlotId) : RM bool :=
  c ← require id "native outbound state targeted a stale or closed slot"; mret (outbound_empty c).
Definition set_outbound_limit (id : SlotId) (limit : Z) : RM unit :=
  c ← require id "native output limit targeted a stale or closed slot";
  if limit <? outbound_len c then fail (failure_internal "native output limit is below already queued bytes")
  else update id (set_limit limit c).

Definition shutdown_write (id : SlotId) : RM unit :=
  c ← require id "native write shutdown targeted a stale or closed slot";
  if negb (outbound_empty c) then fail (failure_internal "native write shutdown requires a drained outbound queue")
  else e ← ask sk_shutdown; checked Write "write shutdown" e.

Definition set_read_allowance (id : SlotId) (allowance : option Z) : RM unit :=
  c ← require id "native read allowance targeted a stale or closed slot";
  _ ← update id (set_reading (received c) (receive_limit c) allowance c);
  reregister id.

Definition set_deadline (id : SlotId) (deadline : option Z) : RM unit :=
  c ← require id "native deadline update targeted a stale or closed slot";
  _ ← update id (set_conn_deadline deadline c);
  _ ← push_deadline deadline id;
  maybe_compact_deadlines.

Definition clean (c : Connection) : bool :=
  bool_decide (state c = State_Connected) && negb (peer_read_closed c) && outbound_empty c.

Definition park_idle (id : SlotId) (deadline : Z) : RM unit :=
  c ← require id "native idle parking targeted a stale or closed slot";
  if negb (clean c) then fail (failure_internal "native idle parking requires a clean connection and drained output")
  else set_deadline id (Some deadline).

Definition prepare_reuse (id : SlotId) (deadline : option Z) (outbound_limit receive_limit : Z) : RM unit :=
  c ← require id "native reuse targeted a stale or closed slot";
  if negb (clean c) then fail (failure_internal "native reuse targeted a connection that was not clean and idle")
  else
    _ ← update id (set_conn_deadline deadline (set_limit outbound_limit (set_reading 0 receive_limit None c)));
    _ ← push_deadline deadline id;
    _ ← maybe_compact_deadlines;
    reregister id.

Definition idle_is_quiet (id : SlotId) : RM bool :=
  c ← require id "native idle probe targeted a stale or closed slot";
  if negb (clean c) then mret false
  else
    peeked ← ask sk_peek;
    match peeked with
    | PeekBlocks => mret true
    | PeekReady => mret false
    | PeekError e => fail (failure_io Read "idle socket probe" e)
    end.

(** ** Polling *)

(** Close a connection that failed. *)
Definition fail_slot (id : SlotId) (failure : NativeFailure) : RM unit :=
  _ ← remove id; emit (Failed id failure).

(** The failure a readiness error stands for, if there is one. *)
Definition socket_error (id : SlotId) : RM (option NativeFailure) :=
  r ← get;
  match connection_mut r id with
  | None => mret None
  | Some c =>
      status ← ask sk_take_error;
      mret (match status with
            | inr (Some e) =>
                Some (failure_io (if bool_decide (state c = State_Connecting) then Connect
                                  else if negb (outbound_empty c) then Write else Read) "socket readiness" e)
            | inr None => None
            | inl e => Some (failure_io Internal "socket error query" e)
            end)
  end.

Definition finish_connect (id : SlotId) : RM bool :=
  r ← get;
  match connection_mut r id with
  | None => mret false
  | Some c =>
      if bool_decide (state c = State_Connected) then mret true
      else
        status ← ask sk_take_error;
        match status with
        | inr (Some e) => _ ← fail_slot id (failure_io Connect "connect" e); mret false
        | inl e => _ ← fail_slot id (failure_io Connect "connect status" e); mret false
        | inr None => _ ← update id (set_state State_Connected c); _ ← emit (Connected id); mret true
        end
  end.

(** What is queued: the owned bytes, then the window of the body. *)
Definition body_bytes (c : Connection) : list Z :=
  match body c with Some (arc, first, last) => subrange (arc_bytes arc) first last | None => [] end.
Definition queued (c : Connection) : list Z := outbound c ++ body_bytes c.

(** The first [n] queued bytes are written. *)
Definition consume (n : Z) (c : Connection) : Connection :=
  let header_written := Z.min n (len (outbound c)) in
  let rest := drop (Z.to_nat header_written) (outbound c) in
  set_queue rest
    (if header_written <? n then
       match body c with
       | Some (arc, first, last) =>
           let first := first + (n - header_written) in
           if first =? last then None else Some (arc, first, last)
       | None => None
       end
     else body c) c.

Definition no_progress : NativeFailure := mkFailure Write "native socket write made no progress" None.

(** The writing loop; the bytes written so far, unless the connection failed.
    At most what is queued can be written. *)
Fixpoint write_loop (id : SlotId) (writes : list WriteResult) (c : Connection) (wrote : Z) : RM (option (Connection * Z)) :=
  if outbound_empty c then mret (Some (c, wrote))
  else
    match writes with
    | [] => mret (Some (c, wrote))
    | Wrote n :: rest =>
        let n := Z.max 0 (Z.min n (outbound_len c)) in
        if n =? 0 then _ ← fail_slot id no_progress; mret None
        else
          _ ← modify (λ r, set_sent (sent r ++ [(id, take (Z.to_nat n) (queued c))]) r);
          let c := consume n c in
          _ ← update id c;
          write_loop id rest c (saturating_add usize_max wrote n)
    | WriteError e :: _ => _ ← fail_slot id (failure_io Write "write" e); mret None
    end.

Definition flush_write (id : SlotId) : RM bool :=
  r ← get;
  match connection_mut r id with
  | None => mret false
  | Some c =>
      if bool_decide (state c ≠ State_Connected) || outbound_empty c then mret true
      else
        writes ← ask sk_write;
        written ← write_loop id writes c 0;
        match written with
        | None => mret false
        | Some (c, wrote) =>
            _ ← (if outbound_empty c then emit (WriteDrained id)
                 else if negb (wrote =? 0) then emit (WriteProgress id wrote) else mret tt);
            mret true
        end
  end.

Definition emit_data (id : SlotId) (bytes : list Z) : RM unit :=
  if bool_decide (bytes = []) then mret tt else emit (Data id bytes).

Definition receive_limit_exceeded : NativeFailure := mkFailure ReceiveLimit "native receive limit exceeded" None.

(** Grow a body buffer; the budget may refuse. *)
Definition charge (id : SlotId) : RM bool :=
  refused ← ask sk_charge;
  match refused with
  | Some text => _ ← fail_slot id (mkFailure BodyBudget text None); mret false
  | None => mret true
  end.

(** [Ok(read)]: the counters; whether the limit is exceeded. *)
Definition count_read (n : Z) (c : Connection) : Connection :=
  set_reading (saturating_add usize_max (received c) n) (receive_limit c)
    ((λ allowance, saturating_sub allowance n) <$> read_allowance c) c.

Fixpoint read_loop (id : SlotId) (bounded : bool) (small : option Z) (budget : option Z) (reads : list ReadResult)
    (bounded_data : list Z) (allocated : bool) : RM unit :=
  r ← get;
  let allowed := Z.min (default READ_CHUNK (connection_mut r id ≫= read_allowance)) READ_CHUNK in
  if allowed =? 0 then emit_data id bounded_data
  else
    match connection_mut r id with
    | Some c =>
        if bool_decide (state c = State_Connected) then
          match reads with
          | [] => emit_data id bounded_data
          | ReadError e :: _ =>
              _ ← remove id;
              _ ← emit_data id bounded_data;
              emit (Failed id (failure_io Read "read" e))
          | ReadBytes bytes :: rest =>
              let chunk := take (Z.to_nat allowed) bytes in
              if bool_decide (chunk = []) then
                _ ← update id (set_peer_read_closed true c);
                _ ← emit_data id bounded_data;
                emit (PeerClosed id)
              else
                _ ← modify (λ r, set_got (got r ++ [(id, chunk)]) r);
                let c := count_read (len chunk) c in
                _ ← update id c;
                if receive_limit c <? received c then
                  _ ← remove id;
                  _ ← emit_data id bounded_data;
                  emit (Failed id receive_limit_exceeded)
                else if (bounded : bool) then
                  reserved ← (if is_none budget && negb allocated && negb (is_none small) then charge id else mret true);
                  if (reserved : bool) then
                    extended ← charge id;
                    if (extended : bool) then read_loop id bounded small budget rest (bounded_data ++ chunk) true
                    else mret tt
                  else mret tt
                else
                  extended ← charge id;
                  if (extended : bool) then
                    _ ← emit (Data id chunk);
                    if match budget with Some b => budget_is_limited b | None => false end then mret tt
                    else read_loop id bounded small budget rest bounded_data allocated
                  else mret tt
          end
        else mret tt
    | None => mret tt
    end.

Definition read_ready (id : SlotId) : RM unit :=
  r ← get;
  let allowance := connection_mut r id ≫= read_allowance in
  let small := match allowance with Some a => if a <=? SMALL_WINDOW then Some a else None | None => None end in
  let budget := connection_mut r id ≫= body_budget in
  reads ← ask sk_read;
  read_loop id (negb (is_none allowance)) small budget reads [] false.

(** One ready socket of [poll]. *)
Definition serve (ready : SlotId * Ready) : RM unit :=
  let '(id, e) := ready in
  r ← get;
  if negb (contains r id) then mret tt
  else
    failure ← (if error e then socket_error id else mret None);
    match failure with
    | Some failure => fail_slot id failure
    | None =>
        connected ← (r ← get;
                     match connection_mut r id with
                     | Some c => if bool_decide (state c = State_Connecting) then finish_connect id else mret true
                     | None => mret true
                     end);
        if negb connected then mret tt
        else
          flushed ← (if writable e then flush_write id else mret true);
          if negb flushed then mret tt
          else
            _ ← (if readable e then read_ready id else mret tt);
            r ← get;
            if contains r id then reregister id else mret tt
    end.

Fixpoint serve_all (ready : list (SlotId * Ready)) : RM unit :=
  match ready with
  | [] => mret tt
  | e :: rest => _ ← serve e; serve_all rest
  end.

(** The poll's timeout and targets are the operating system's. *)
Definition poll_events : RM unit :=
  _ ← nearest_deadline;
  _ ← instant_now;
  polled ← ask sk_poll;
  match polled with
  | inl e => fail (failure_io Internal "poll" e)
  | inr ready =>
      r ← get;
      let ready := omap (λ e, (λ id, (id, e)) <$> tokens r !! ready_token e) ready in
      _ ← serve_all ready;
      expire_deadlines
  end.

(** [output] is a local variable: it is returned, or dropped with an error. *)
Definition poll : RM (list NativeEvent) := λ r,
  match poll_events (set_output [] r) with
  | (Ok _, r') => (Ok (output r'), set_output [] r')
  | (Err e, r') => (Err e, set_output [] r')
  | (Panic, r') => (Panic, r')
  | (Diverge, r') => (Diverge, r')
  end.

(** The sockets of [tokens], in some order. *)
Fixpoint remove_all (ids : list SlotId) : RM unit :=
  match ids with
  | [] => mret tt
  | id :: rest => _ ← remove id; remove_all rest
  end.
Definition shutdown : RM unit :=
  r ← get; remove_all (map snd (map_to_list (tokens r))).
Definition active_count (r : NativeReactor) : Z := Z.of_nat (size (tokens r)).

Definition new : NativeReactor := mkReactor [] [] ∅ FIRST_SOCKET_TOKEN [] [] [] [] 0 0.

(** ** Calls *)

Inductive Call :=
| Call_connect (address : SocketAddr) (deadline : option Z) (outbound_limit receive_limit : Z)
| Call_queue_write (id : SlotId) (bytes : list Z)
| Call_queue_body (id : SlotId) (arc first last : Z)
| Call_set_body_budget (id : SlotId) (budget : option Z)
| Call_set_outbound_limit (id : SlotId) (limit : Z)
| Call_shutdown_write (id : SlotId)
| Call_set_read_allowance (id : SlotId) (allowance : option Z)
| Call_set_deadline (id : SlotId) (deadline : option Z)
| Call_park_idle (id : SlotId) (deadline : Z)
| Call_prepare_reuse (id : SlotId) (deadline : option Z) (outbound_limit receive_limit : Z)
| Call_idle_is_quiet (id : SlotId)
| Call_cancel (id : SlotId)
| Call_poll
| Call_shutdown.

(** What a call returns to the owner. *)
Inductive Reply := Reply_slot (id : SlotId) | Reply_unit | Reply_bool (b : bool) | Reply_events (events : list NativeEvent).

Definition run_call (c : Call) : RM Reply :=
  match c with
  | Call_connect address deadline o i => id ← connect address deadline o i; mret (Reply_slot id)
  | Call_queue_write id bytes => _ ← queue_write id bytes; mret Reply_unit
  | Call_queue_body id arc first last => _ ← queue_body id arc first last; mret Reply_unit
  | Call_set_body_budget id budget => _ ← set_body_budget id budget; mret Reply_unit
  | Call_set_outbound_limit id limit => _ ← set_outbound_limit id limit; mret Reply_unit
  | Call_shutdown_write id => _ ← shutdown_write id; mret Reply_unit
  | Call_set_read_allowance id a => _ ← set_read_allowance id a; mret Reply_unit
  | Call_set_deadline id d => _ ← set_deadline id d; mret Reply_unit
  | Call_park_idle id d => _ ← park_idle id d; mret Reply_unit
  | Call_prepare_reuse id d o i => _ ← prepare_reuse id d o i; mret Reply_unit
  | Call_idle_is_quiet id => b ← idle_is_quiet id; mret (Reply_bool b)
  | Call_cancel id => b ← cancel id; mret (Reply_bool b)
  | Call_poll => events ← poll; mret (Reply_events events)
  | Call_shutdown => _ ← shutdown; mret Reply_unit
  end.

(** A sequence of calls; an error does not end it. *)
Fixpoint run_calls (calls : list Call) (r : NativeReactor) : list (Call * outcome NativeFailure Reply) * NativeReactor :=
  match calls with
  | [] => ([], r)
  | c :: rest =>
      let '(o, r1) := run_call c r in
      let '(replies, r2) := run_calls rest r1 in
      ((c, o) :: replies, r2)
  end.

End reactor.
End Reactor.
