(* ===== verification/NativeReactorProofs.v ===== *)
(** * Correctness of the reactor

    [Inv] relates the reactor to its history: the slots it has given out, the
    bytes it has accepted for each and the bytes it has delivered. It holds
    after every sequence of calls, whatever the operating system answers. *)

From stdpp Require Import base list strings gmap sorting.
From Stdlib Require Import ZArith Lia.
From S2P Require Import Prelude Errors DnsCache DnsConfig NativeReactor.

Import Reactor.

(** ** The heap *)

Definition entry_leP (a b : DeadlineEntry) : Prop := entry_le a b = true.

Lemma entry_le_spec a b :
  entry_leP a b ↔ when a < when b ∨ when a = when b ∧
    (index (entry_id a) < index (entry_id b) ∨
     index (entry_id a) = index (entry_id b) ∧ generation (entry_id a) ≤ generation (entry_id b)).
Proof. unfold entry_leP, entry_le. repeat zcase; split; intros; (done || lia). Qed.

#[global] Instance entry_le_trans : Transitive entry_leP.
Proof. intros a b c. rewrite !entry_le_spec. lia. Qed.
Lemma entry_le_total a b : entry_leP a b ∨ entry_leP b a.
Proof. rewrite !entry_le_spec. lia. Qed.

Lemma heap_push_perm e heap : heap_push e heap ≡ₚ e :: heap.
Proof.
  induction heap as [|x heap IH]; cbn; [done|]. destruct (entry_le e x); [done|]. rewrite IH. apply Permutation_swap.
Qed.
Lemma heap_push_in e heap x : x ∈ heap_push e heap ↔ x = e ∨ x ∈ heap.
Proof. rewrite heap_push_perm. apply elem_of_cons. Qed.
Lemma heap_push_len e heap : len (heap_push e heap) = 1 + len heap.
Proof. unfold len. rewrite heap_push_perm. cbn [length]. lia. Qed.

Lemma heap_push_sorted e heap : StronglySorted entry_leP heap → StronglySorted entry_leP (heap_push e heap).
Proof.
  induction 1 as [|x heap Hs IH Hx]; cbn; [repeat constructor|]. destruct (entry_le e x) eqn:He.
  - constructor; [by constructor|]. constructor; [done|]. eapply Forall_impl; [exact Hx|]. intros y Hy. by transitivity x.
  - constructor; [done|]. apply Forall_forall. intros y [->|Hy]%heap_push_in; [|by eapply Forall_forall in Hx].
    destruct (entry_le_total e x) as [Hc|Hc]; [unfold entry_leP in Hc; congruence|done].
Qed.

Lemma heap_collect l : StronglySorted entry_leP (foldr heap_push [] l) ∧ foldr heap_push [] l ≡ₚ l.
Proof.
  induction l as [|e l [IHs IHp]]; cbn; [split; [constructor|done]|]. split; [by apply heap_push_sorted|].
  by rewrite heap_push_perm, IHp.
Qed.

(** ** Slots *)

Lemma slot_of_some r id s :
  slot_of r id = Some s ↔ 0 ≤ index id ∧ slots r !! Z.to_nat (index id) = Some s ∧ slot_generation s = generation id.
Proof.
  unfold slot_of. zcase; [split; [done|lia]|]. destruct (slots r !! Z.to_nat (index id)) as [s'|]; [|naive_solver].
  zcase; split; intros; naive_solver.
Qed.

Lemma connection_mut_some r id c :
  connection_mut r id = Some c ↔
  0 ≤ index id ∧ slots r !! Z.to_nat (index id) = Some (mkSlot (generation id) (Some c)).
Proof.
  unfold connection_mut. rewrite bind_Some. setoid_rewrite slot_of_some. split.
  - intros (s & (Hi & Hs & Hg) & Hc). split; [done|]. rewrite Hs. destruct s. cbn in *. by subst.
  - intros [Hi Hs]. eexists. by split_and!.
Qed.

Lemma connection_set r id c s id' :
  slot_of r id = Some s → connection_mut (set_connection id c r) id' = if decide (id' = id) then c else connection_mut r id'.
Proof.
  intros (Hi & Hs & Hg)%slot_of_some. unfold connection_mut, slot_of, set_connection. cbn [slots set_slots].
  destruct (decide (id' = id)) as [->|Hne].
  - rewrite (proj2 (Z.ltb_ge _ _)) by lia. rewrite list_lookup_insert_eq by (by eapply lookup_lt_Some).
    cbn. by rewrite Z.eqb_refl.
  - zcase; [done|]. destruct (decide (Z.to_nat (index id') = Z.to_nat (index id))) as [Heq|Hix].
    + rewrite Heq, list_lookup_insert_eq by (by eapply lookup_lt_Some). rewrite Hs. cbn.
      assert (index id' = index id) by lia. assert (generation id ≠ generation id').
      { intros ?. apply Hne. destruct id, id'; cbn in *. congruence. }
      rewrite Hg. by rewrite (proj2 (Z.eqb_neq _ _)).
    + by rewrite list_lookup_insert_ne.
Qed.

(** A connection weighs two if it has a deadline and one if not. *)
Definition weight (s : Slot) : Z :=
  match connection s with Some c => if is_none (deadline c) then 1 else 2 | None => 0 end.
Fixpoint total_weight (l : list Slot) : Z := match l with [] => 0 | s :: l' => weight s + total_weight l' end.

Lemma total_weight_app l k : total_weight (l ++ k) = total_weight l + total_weight k.
Proof. induction l as [|s l IH]; cbn; [done|]. rewrite IH. lia. Qed.
Lemma weight_bounds s : 0 ≤ weight s ≤ 2.
Proof. unfold weight. destruct (connection s) as [c|]; [|lia]. destruct (is_none _); lia. Qed.
Lemma total_weight_insert l i s s' :
  l !! i = Some s → total_weight (<[i := s']> l) = total_weight l - weight s + weight s'.
Proof.
  revert i. induction l as [|x l IH]; intros [|i] Hi; [done|done|injection Hi as ->; cbn; lia|].
  change (total_weight (x :: <[i:=s']> l) = total_weight (x :: l) - weight s + weight s'). cbn [total_weight].
  rewrite (IH i Hi). lia.
Qed.

Lemma collected_len (f : nat → Slot → Z → DeadlineEntry) l :
  2 * len (omap id (imap (λ i s, f i s <$> conn_deadline s) l)) ≤ total_weight l.
Proof.
  revert f. induction l as [|s l IH]; intros f; [cbv; discriminate|]. specialize (IH (λ i, f (S i))).
  rewrite imap_cons. cbn [total_weight]. unfold weight.
  change (λ x, _) with (λ i s, f (S i) s <$> conn_deadline s) in IH. unfold compose.
  unfold conn_deadline at 1. destruct (connection s) as [c|]; cbn; [destruct (deadline c); cbn|]; cbn in *.
  - rewrite len_cons. lia.
  - lia.
  - lia.
Qed.
Lemma live_deadlines_len l : 2 * len (live_deadlines l) ≤ total_weight l.
Proof. apply (collected_len (λ i s d, mkEntry d (mkSlotId (Z.of_nat i) (slot_generation s)))). Qed.

Lemma live_deadlines_in r id d :
  0 ≤ index id → mkEntry d id ∈ live_deadlines (slots r) ↔ current_deadline r id = Some d.
Proof.
  intros Hi. unfold live_deadlines. rewrite list_elem_of_omap. unfold current_deadline. rewrite bind_Some.
  setoid_rewrite connection_mut_some. split.
  - intros (o & (i & s & -> & Hs)%elem_of_lookup_imap & Ho). cbn in Ho.
    unfold conn_deadline in Ho. apply fmap_Some in Ho as (d' & Hd & He). injection He as -> Hid.
    apply bind_Some in Hd as (c & Hc & Hd). exists c. split; [|done]. split; [done|]. rewrite Hid. cbn.
    rewrite Nat2Z.id, Hs. destruct s; cbn in *. by subst.
  - intros (c & (_ & Hs) & Hd). exists (Some (mkEntry d id)). split; [|done]. apply elem_of_lookup_imap.
    eexists _, _. split; [|exact Hs]. cbn. rewrite Hd. cbn. rewrite Z2Nat.id by done. by destruct id.
Qed.

(** ** The invariant *)

Section inv.
Context {tgt : Target} {sk : Sockets}.

(** The bytes a log holds for a slot, and those the events deliver to it. *)
Definition bytes_of (id : SlotId) (log : list (SlotId * list Z)) : list Z :=
  concat (map snd (filter (λ x, x.1 = id) log)).
Definition data_of (id : SlotId) (events : list NativeEvent) : list Z :=
  concat (omap (λ e, match e with Data i bytes => if decide (i = id) then Some bytes else None | _ => None end) events).
Definition event_slot (e : NativeEvent) : SlotId :=
  match e with
  | Connected id | WriteProgress id _ | WriteDrained id | Data id _ | PeerClosed id | Failed id _ | DeadlineExpired id => id
  end.

Lemma bytes_of_snoc id log i bytes :
  bytes_of id (log ++ [(i, bytes)]) = bytes_of id log ++ if decide (i = id) then bytes else [].
Proof.
  unfold bytes_of. rewrite filter_app, map_app, concat_app. f_equal. rewrite filter_cons, filter_nil. cbn.
  destruct (decide (i = id)); cbn; [apply app_nil_r|done].
Qed.
Lemma data_of_snoc id events e :
  data_of id (events ++ [e]) =
  data_of id events ++ match e with Data i bytes => if decide (i = id) then bytes else [] | _ => [] end.
Proof.
  unfold data_of. rewrite omap_app, concat_app. f_equal. destruct e; cbn; try done. destruct (decide _); cbn; [apply app_nil_r|done].
Qed.

(** What the reactor has done: the slots it gave out, the bytes it accepted for
    each, the bytes of earlier polls that were delivered or lost with the poll,
    and how many bytes may have been read for it in all; [polling] during a
    poll; [closed] are slots known to be closed. *)
Record Ghost := mkGhost {
  issued : list SlotId; accepted : SlotId → list Z; settled : SlotId → list Z; granted : SlotId → option Z; polling : bool;
  closed : list SlotId
}.

#[export] Instance Ghost_equiv : Equiv Ghost := λ g g',
  issued g = issued g' ∧ (∀ id, accepted g id = accepted g' id) ∧ (∀ id, settled g id = settled g' id) ∧
  (∀ id, granted g id = granted g' id) ∧ polling g = polling g' ∧ closed g = closed g'.
#[export] Instance Ghost_equivalence : Equivalence (≡@{Ghost}).
Proof.
  split; [done| |].
  - intros g g' (? & ? & ? & ? & ? & ?). by split_and!.
  - intros g1 g2 g3 (? & H2 & H3 & H4 & ? & ?) (? & H2' & H3' & H4' & ? & ?).
    split_and!; [congruence| | | |congruence|congruence]; intros id; by rewrite ?H2, ?H3, ?H4.
Qed.

Definition body_ok (c : Connection) : Prop :=
  match body c with Some (arc, first, last) => 0 ≤ first ≤ last ∧ last ≤ len (arc_bytes arc) | None => True end.

Record conn_ok (c : Connection) : Prop := {
  co_body : body_ok c;
  co_queue : outbound_len c ≤ outbound_limit c;
  co_received : 0 ≤ received c ≤ receive_limit c;
  co_allowance : ∀ a, read_allowance c = Some a → 0 ≤ a
}.

(** Bytes read and not yet delivered. *)
Definition held (h : option (SlotId * list Z)) (id : SlotId) : list Z :=
  match h with Some (i, bytes) => if decide (i = id) then bytes else [] | None => [] end.

Record slots_ok (g : Ghost) (r : NativeReactor) : Prop := {
  so_generation : ∀ i s, slots r !! i = Some s → 1 ≤ slot_generation s ≤ u32_max;
  so_len : len (slots r) ≤ u32_max + 1;
  so_nodup : NoDup (free_slots r);
  so_free : ∀ i, i ∈ free_slots r → 0 ≤ i ∧ ∃ n, slots r !! Z.to_nat i = Some (mkSlot n None);
  so_issued : ∀ id, id ∈ issued g → ∃ s, 0 ≤ index id ∧ slots r !! Z.to_nat (index id) = Some s ∧ generation id ≤ slot_generation s;
  so_live : ∀ id c, connection_mut r id = Some c → id ∈ issued g;
  so_token : ∀ t id, tokens r !! t = Some id → t < next_token r ∧ ∃ c, connection_mut r id = Some c ∧ token c = t;
  so_tokens : ∀ id c, connection_mut r id = Some c → tokens r !! token c = Some id;
  so_closed : ∀ id, id ∈ closed g → id ∈ issued g ∧ connection_mut r id = None
}.

(** [sized]: the heap has been compacted where it must be. *)
Record heap_ok (sized : bool) (r : NativeReactor) : Prop := {
  ho_sorted : StronglySorted entry_leP (deadlines r);
  ho_covers : ∀ id d, current_deadline r id = Some d → mkEntry d id ∈ deadlines r;
  ho_size : sized = true → len (deadlines r) ≤ total_weight (slots r) + DEADLINE_COMPACTION_SLACK
}.

Record logs_ok (g : Ghost) (h : option (SlotId * list Z)) (r : NativeReactor) : Prop := {
  lo_sent_issued : ∀ id bytes, (id, bytes) ∈ sent r → id ∈ issued g;
  lo_got_issued : ∀ id bytes, (id, bytes) ∈ got r → id ∈ issued g;
  lo_output : ∀ e, e ∈ output r → event_slot e ∈ issued g;
  lo_ghost : ∀ id, id ∉ issued g → accepted g id = [] ∧ settled g id = [] ∧ granted g id = None;
  lo_sent : ∀ id, match connection_mut r id with
                  | Some c => bytes_of id (sent r) ++ queued c = accepted g id
                  | None => bytes_of id (sent r) `prefix_of` accepted g id
                  end;
  lo_got : ∀ id, match connection_mut r id with
                 | Some _ => settled g id ++ data_of id (output r) ++ held h id = bytes_of id (got r)
                 | None => settled g id ++ data_of id (output r) ++ held h id `prefix_of` bytes_of id (got r)
                 end;
  lo_granted : ∀ id c, connection_mut r id = Some c →
                 granted g id = (λ a, len (bytes_of id (got r)) + a) <$> read_allowance c;
  lo_budget : ∀ id n, granted g id = Some n → len (bytes_of id (got r)) ≤ n;
  lo_idle : polling g = false → output r = [];
  lo_drained : ∀ id, WriteDrained id ∈ output r → bytes_of id (sent r) = accepted g id
}.

Record Inv (sized : bool) (g : Ghost) (h : option (SlotId * list Z)) (r : NativeReactor) : Prop := {
  iv_slots : slots_ok g r;
  iv_conns : ∀ id c, connection_mut r id = Some c → conn_ok c;
  iv_heap : heap_ok sized r;
  iv_logs : logs_ok g h r
}.

#[export] Instance Inv_proper z : Proper ((≡) ==> (=) ==> (=) ==> impl) (Inv z).
Proof.
  intros g g' (Hi & Ha & Hs & Hg & Hp & Hcl) h ? <- r ? <- [[] Hc [] [? ? ? Hl4 Hl5 Hl6 Hl7 Hl8 Hl9 Hl10]].
  split; try done; split; try done; rewrite <-?Hi, <-?Hp, <-?Hcl; try done.
  - intros id. rewrite <-Ha, <-Hs, <-Hg. apply Hl4.
  - intros id. rewrite <-Ha. apply Hl5.
  - intros id. rewrite <-Hs. apply Hl6.
  - intros id. rewrite <-Hg. apply Hl7.
  - intros id. rewrite <-Hg. apply Hl8.
  - intros id. rewrite <-Ha. apply Hl10.
Qed.

(** The clock and the number of questions asked do not matter. *)
Definition same (r r' : NativeReactor) : Prop := ∃ n t, r' = set_calls n (set_clock t r).

#[global] Instance same_preorder : PreOrder same.
Proof.
  split; [intros r; exists (calls r), (clock r); by destruct r|].
  intros r1 r2 r3 (n & t & ->) (n' & t' & ->). by exists n', t'.
Qed.
Lemma same_inv z g h r r' : same r r' → Inv z g h r → Inv z g h r'.
Proof. intros (n & t & ->) [[] Hc [] []]. by split. Qed.

(** Every outcome but a panic and a hang, with the same property. *)
Definition keeps {T} (m : RM T) (P : NativeReactor → Prop) (r : NativeReactor) : Prop := wp m (λ _, P) (λ _, P) r.

Definition still {T} (m : RM T) : Prop := ∀ r, keeps m (same r) r.
Lemma still_ret {T} (a : T) : still (mret a).
Proof. intros r. by apply wp_ret. Qed.
Lemma still_fail {T} f : still (fail (A := T) f).
Proof. intros r. by apply wp_fail. Qed.
Lemma still_ask {T} (f : nat → T) : still (ask f).
Proof. intros r. unfold keeps, wpx, ask. exists (S (calls r)), (clock r). by destruct r. Qed.
Lemma still_bind {T U} (m : RM T) (f : T → RM U) : still m → (∀ a, still (f a)) → still (m ≫= f).
Proof.
  intros Hm Hf r. apply wp_bind. eapply wp_mono; [apply Hm| |done]. intros a r' Hs.
  eapply wp_mono; [apply Hf| |]; intros ? r2 Hs2; by transitivity r'.
Qed.
Lemma still_now : still instant_now.
Proof.
  intros r. unfold keeps, wpx, instant_now, ask. cbn. by exists (S (calls r)), (clock r + sk_tick (calls r)).
Qed.
Lemma still_checked k op e : still (checked k op e).
Proof. destruct e; [apply still_fail|apply still_ret]. Qed.

(** Run an operation that only asks, then go on from an unchanged state. *)
Lemma still_then {T U} (m : RM T) (f : T → RM U) (P : NativeReactor → Prop) Q R r :
  still m → P r → (∀ r r', same r r' → P r → P r') → (∀ a r', P r' → wp (f a) Q R r') → (∀ e r', P r' → R e r') →
  wp (m ≫= f) Q R r.
Proof.
  intros Hm HP Hst Hf HR. apply wp_bind. eapply wp_mono; [apply Hm| |].
  - intros a r' Hs. apply Hf. exact (Hst _ _ Hs HP).
  - intros e r' Hs. apply HR. exact (Hst _ _ Hs HP).
Qed.

Lemma ask_then {T U} (f : nat → T) (k : T → RM U) Q R r :
  (∀ a r', same r r' → wp (k a) Q R r') → wp (ask f ≫= k) Q R r.
Proof. intros Hk. apply wp_bind. unfold wpx at 1, ask. apply Hk. exists (S (calls r)), (clock r). by destruct r. Qed.

(** ** Changing a connection *)

Definition weight_of (c : Connection) : Z := if is_none (deadline c) then 1 else 2.

Lemma slot_of_live r id c : connection_mut r id = Some c → slot_of r id = Some (mkSlot (generation id) (Some c)).
Proof. intros [Hi Hs]%connection_mut_some. by apply slot_of_some. Qed.

(** The slots after one of them got another connection. *)
Lemma insert_slot_lookup r id c c' i s :
  connection_mut r id = Some c → slots (set_connection id c' r) !! i = Some s →
  s = mkSlot (generation id) c' ∧ i = Z.to_nat (index id) ∨ slots r !! i = Some s ∧ i ≠ Z.to_nat (index id).
Proof. intros _. cbn. rewrite list_lookup_insert_Some. naive_solver. Qed.

Lemma insert_slot_keeps r id c c' i s :
  connection_mut r id = Some c → slots r !! i = Some s →
  ∃ s', slots (set_connection id c' r) !! i = Some s' ∧ slot_generation s' = slot_generation s ∧
        (i ≠ Z.to_nat (index id) → s' = s).
Proof.
  intros [Hi Hs]%connection_mut_some Hsi. cbn. destruct (decide (i = Z.to_nat (index id))) as [->|Hne].
  - exists (mkSlot (generation id) c'). rewrite Hs in Hsi. injection Hsi as <-.
    rewrite list_lookup_insert_eq by (by eapply lookup_lt_Some). done.
  - exists s. by rewrite list_lookup_insert_ne.
Qed.

(** What does not depend on the tokens. *)
Lemma slots_set g r id c c' :
  slots_ok g r → connection_mut r id = Some c →
  (∀ i s, slots (set_connection id c' r) !! i = Some s → 1 ≤ slot_generation s ≤ u32_max) ∧
  len (slots (set_connection id c' r)) ≤ u32_max + 1 ∧ index id ∉ free_slots r ∧
  (∀ i, i ∈ free_slots r → 0 ≤ i ∧ ∃ n, slots (set_connection id c' r) !! Z.to_nat i = Some (mkSlot n None)) ∧
  (∀ id', id' ∈ issued g → ∃ s, 0 ≤ index id' ∧ slots (set_connection id c' r) !! Z.to_nat (index id') = Some s ∧
                                generation id' ≤ slot_generation s) ∧
  (∀ id' x, connection_mut (set_connection id c' r) id' = Some x → id' ∈ issued g).
Proof.
  intros [Hgen Hlen Hnd Hfree His Hlive Htok Htoks Hcl] Hc. pose proof Hc as [Hi Hs]%connection_mut_some.
  assert (Hnot : index id ∉ free_slots r) by (intros (_ & n & Hn)%Hfree; congruence).
  split_and!; [| |done| | |].
  - intros i s [[-> _]|[Hsi _]]%(insert_slot_lookup r id c); [|by eapply Hgen|done]. cbn. by apply (Hgen _ _ Hs).
  - cbn. unfold len in *. by rewrite length_insert.
  - intros i Hin. destruct (Hfree i Hin) as (Hi0 & n & Hn). split; [done|]. exists n. cbn.
    rewrite list_lookup_insert_ne; [done|]. intros Heq. assert (i = index id) by lia. by subst.
  - intros id' Hin. destruct (His id' Hin) as (s & Hi' & Hs' & Hle).
    destruct (insert_slot_keeps r id c c' _ _ Hc Hs') as (s' & ? & Hg & _). exists s'. rewrite Hg. done.
  - intros id' x. rewrite (connection_set r id c' _ id' (slot_of_live _ _ _ Hc)). case_decide as Hd; [subst|]; eauto.
Qed.

Lemma slots_update g r id c c' :
  slots_ok g r → connection_mut r id = Some c → token c' = token c → slots_ok g (set_connection id (Some c') r).
Proof.
  intros Hok Hc Ht. destruct (slots_set g r id c (Some c') Hok Hc) as (? & ? & _ & ? & ? & ?).
  destruct Hok as [_ _ Hnd _ _ _ Htok Htoks Hcl]. pose proof (λ i, connection_set r id (Some c') _ i (slot_of_live _ _ _ Hc)) as Hset.
  split; try done.
  - intros t i Hti. destruct (Htok t i Hti) as (? & x & Hx & Htx). split; [done|]. rewrite Hset. case_decide as Hd; [|by exists x].
    subst i. exists c'. split; [done|]. rewrite Ht. congruence.
  - intros i x. rewrite Hset. case_decide as Hd; [|apply Htoks]. subst i. intros [= <-]. rewrite Ht. by apply Htoks.
  - intros i [? Hn]%Hcl. split; [done|]. rewrite Hset, decide_False; [done|]. intros ->. congruence.
Qed.

Lemma slots_remove g r id c :
  slots_ok g r → connection_mut r id = Some c →
  slots_ok g (set_free_slots (index id :: free_slots r) (set_tokens (delete (token c) (tokens r)) (set_connection id None r))).
Proof.
  intros Hok Hc. destruct (slots_set g r id c None Hok Hc) as (? & ? & Hnot & Hfree & ? & ?).
  destruct Hok as [_ _ Hnd _ _ _ Htok Htoks Hcl]. pose proof (λ i, connection_set r id None _ i (slot_of_live _ _ _ Hc)) as Hset.
  pose proof Hc as [Hi Hs]%connection_mut_some. split; try done; cbn [free_slots tokens next_token set_free_slots set_tokens].
  - by constructor.
  - intros i [->|Hin]%elem_of_cons; [|by apply Hfree]. split; [done|]. exists (generation id). cbn.
    by rewrite list_lookup_insert_eq by (by eapply lookup_lt_Some).
  - intros t i [Hne Hti]%lookup_delete_Some. destruct (Htok t i Hti) as (? & x & Hx & <-). split; [done|].
    exists x. split; [|done]. change (connection_mut (set_connection id None r) i = Some x). rewrite Hset.
    case_decide as Hd; [|done]. subst i. congruence.
  - intros i x Hx. change (connection_mut (set_connection id None r) i = Some x) in Hx. rewrite Hset in Hx.
    case_decide as Hd; [done|]. rewrite lookup_delete_ne; [by apply Htoks|]. intros Heq.
    apply Htoks in Hx. apply Htoks in Hc. congruence.
  - intros i [? Hn]%Hcl. split; [done|]. change (connection_mut (set_connection id None r) i = None). rewrite Hset. by case_decide.
Qed.

(** The heap after a connection's deadline changed or went. *)
Lemma heap_set z r id c c' :
  heap_ok z r → connection_mut r id = Some c →
  (∀ d, (c' ≫= deadline) = Some d → mkEntry d id ∈ deadlines r) →
  (z = true → len (deadlines r) ≤ total_weight (slots r) - weight_of c + match c' with Some x => weight_of x | None => 0 end
                                  + DEADLINE_COMPACTION_SLACK) →
  heap_ok z (set_connection id c' r).
Proof.
  intros [Hs Hc _] Hid Hd Hw. split; cbn [deadlines set_connection set_slots]; [done| |].
  - intros i d. unfold current_deadline. rewrite (connection_set r id c' _ i (slot_of_live _ _ _ Hid)).
    case_decide as Hi; [subst i; apply Hd|apply Hc].
  - intros Hz. specialize (Hw Hz). pose proof Hid as [_ Hsl]%connection_mut_some. cbn [slots set_slots].
    change (slots (set_connection id c' r)) with (<[Z.to_nat (index id) := mkSlot (generation id) c']> (slots r)).
    rewrite (total_weight_insert _ _ _ _ Hsl). unfold weight, weight_of in *. cbn [connection]. destruct c'; lia.
Qed.

(** The ghost state after [bytes] were accepted for [id], and after a reading
    allowance was granted. *)
Definition accept (id : SlotId) (bytes : list Z) (g : Ghost) : Ghost :=
  mkGhost (issued g) (λ i, if decide (i = id) then accepted g i ++ bytes else accepted g i) (settled g) (granted g) (polling g) (closed g).
Definition grant (id : SlotId) (allowance : option Z) (r : NativeReactor) (g : Ghost) : Ghost :=
  mkGhost (issued g) (accepted g) (settled g)
    (λ i, if decide (i = id) then (λ a, len (bytes_of i (got r)) + a) <$> allowance else granted g i) (polling g) (closed g).

Lemma accept_nil id g : accept id [] g ≡ g.
Proof. split_and!; try done. intros i. cbn. case_decide; by rewrite ?app_nil_r. Qed.
Lemma grant_same z g h r id c : Inv z g h r → connection_mut r id = Some c → grant id (read_allowance c) r g ≡ g.
Proof.
  intros HI Hc. split_and!; try done. intros i. cbn. case_decide; [subst|done]. by rewrite (lo_granted _ _ _ (iv_logs _ _ _ _ HI) _ _ Hc).
Qed.

(** A connection changes, [bytes] are accepted for it and [log] is written. *)
Lemma reactor_update_inv z g h r id c c' bytes log :
  Inv z g h r → connection_mut r id = Some c → token c' = token c → conn_ok c' →
  (∀ d, deadline c' = Some d → mkEntry d id ∈ deadlines r) →
  (z = true → len (deadlines r) ≤ total_weight (slots r) - weight_of c + weight_of c' + DEADLINE_COMPACTION_SLACK) →
  queued c ++ bytes = log ++ queued c' → bytes = [] ∨ polling g = false →
  Inv z (accept id bytes (grant id (read_allowance c') r g)) h
    (set_connection id (Some c') (set_sent (sent r ++ match log with [] => [] | _ => [(id, log)] end) r)).
Proof.
  intros [Hsl Hco Hh Hl] Hc Ht Hok Hd Hw Hq Hp.
  pose proof (λ i, connection_set r id (Some c') _ i (slot_of_live _ _ _ Hc)) as Hset.
  assert (Hin : id ∈ issued g) by (by eapply so_live).
  assert (Hlog : ∀ i, bytes_of i (sent r ++ match log with [] => [] | _ => [(id, log)] end) =
                      bytes_of i (sent r) ++ if decide (id = i) then log else []).
  { intros i. destruct log; [rewrite !app_nil_r; destruct (decide _); by rewrite ?app_nil_r|]. apply bytes_of_snoc. }
  split.
  - destruct (slots_update g r id c c' Hsl Hc Ht). by split.
  - intros i x. change (connection_mut _ i) with (connection_mut (set_connection id (Some c') r) i). rewrite Hset.
    case_decide; [naive_solver|]. by apply Hco.
  - pose proof (heap_set z r id c (Some c') Hh Hc Hd Hw) as []. by split.
  - destruct Hl as [Hl1 Hl2 Hl3 Hl4 Hl5 Hl6 Hl7 Hl8 Hl9 Hl10]. split; try done; cbn [sent set_connection set_slots set_sent].
    + intros i b [?|Hb]%elem_of_app; [by eapply Hl1|]. destruct log; [by apply elem_of_nil in Hb|].
      apply list_elem_of_singleton in Hb. by injection Hb as -> _.
    + intros i Hi. destruct (Hl4 i Hi) as (Ha & ? & ?). cbn. case_decide; [subst; done|done].
    + intros i. change (connection_mut _ i) with (connection_mut (set_connection id (Some c') r) i). rewrite Hset, Hlog.
      specialize (Hl5 i). cbn. destruct (decide (i = id)) as [->|Hne].
      * rewrite decide_True by done. rewrite Hc in Hl5. by rewrite <-Hl5, <-!app_assoc, Hq.
      * by rewrite decide_False, app_nil_r by congruence.
    + intros i. change (connection_mut _ i) with (connection_mut (set_connection id (Some c') r) i). rewrite Hset.
      specialize (Hl6 i). case_decide; [subst; by rewrite Hc in Hl6|done].
    + intros i x. change (connection_mut _ i) with (connection_mut (set_connection id (Some c') r) i). rewrite Hset. cbn.
      case_decide; [by intros [= <-]|apply Hl7].
    + intros i n. cbn [granted accept grant]. case_decide; [|apply Hl8]. intros (a & Ha & ->)%fmap_Some. pose proof (co_allowance _ Hok a Ha). subst. change (got _) with (got r). lia.
    + intros i Hi. rewrite Hlog. cbn. specialize (Hl10 i Hi). destruct (decide (i = id)) as [->|Hne];
        [|by rewrite decide_False, app_nil_r by congruence]. rewrite decide_True by done.
      destruct Hp as [->|Hp]; [|change (WriteDrained id ∈ output r) in Hi; rewrite (Hl9 Hp) in Hi; by apply elem_of_nil in Hi].
      specialize (Hl5 id). rewrite Hc, Hl10 in Hl5. rewrite <-(app_nil_r (accepted g id)) in Hl5 at 2. apply app_inv_head in Hl5.
      rewrite Hl5 in Hq. symmetry in Hq. apply app_eq_nil in Hq as [-> _]. by rewrite Hl10.
Qed.

Lemma set_sent_nil r : set_sent (sent r ++ []) r = r.
Proof. rewrite app_nil_r. by destruct r. Qed.

(** Nothing is queued; the deadline and the allowance may change. *)
Lemma adjust_inv z g h r id c c' :
  Inv z g h r → connection_mut r id = Some c → token c' = token c → conn_ok c' →
  (∀ d, deadline c' = Some d → mkEntry d id ∈ deadlines r) →
  (z = true → len (deadlines r) ≤ total_weight (slots r) - weight_of c + weight_of c' + DEADLINE_COMPACTION_SLACK) →
  queued c' = queued c → Inv z (grant id (read_allowance c') r g) h (set_connection id (Some c') r).
Proof.
  intros HI Hc Ht Hok Hd Hw Hq. rewrite <-(accept_nil id).
  pose proof (reactor_update_inv z g h r id c c' [] [] HI Hc Ht Hok Hd Hw) as H. rewrite set_sent_nil in H.
  apply H; [by rewrite app_nil_r, Hq|by left].
Qed.

Lemma deadline_kept z g h r id c c' :
  Inv z g h r → connection_mut r id = Some c → deadline c' = deadline c →
  (∀ d, deadline c' = Some d → mkEntry d id ∈ deadlines r) ∧
  (z = true → len (deadlines r) ≤ total_weight (slots r) - weight_of c + weight_of c' + DEADLINE_COMPACTION_SLACK).
Proof.
  intros HI Hc Hd. split.
  - intros d Hcd. apply (ho_covers _ _ (iv_heap _ _ _ _ HI)). unfold current_deadline. rewrite Hc. cbn. congruence.
  - intros Hz. pose proof (ho_size _ _ (iv_heap _ _ _ _ HI) Hz). unfold weight_of. rewrite Hd. lia.
Qed.

Lemma accept_inv z g h r id c c' bytes :
  Inv z g h r → connection_mut r id = Some c → token c' = token c → conn_ok c' → deadline c' = deadline c →
  read_allowance c' = read_allowance c → polling g = false →
  queued c' = queued c ++ bytes → Inv z (accept id bytes g) h (set_connection id (Some c') r).
Proof.
  intros HI Hc Ht Hok Hd Ha Hp Hq. destruct (deadline_kept z g h r id c c' HI Hc Hd) as [? ?].
  pose proof (reactor_update_inv z g h r id c c' bytes [] HI Hc Ht Hok) as Hu. rewrite set_sent_nil, Ha in Hu.
  eapply Inv_proper; [|done|done|apply Hu; [done|done|by rewrite Hq|by right]].
  pose proof (grant_same z g h r id c HI Hc) as (? & ? & ? & ? & ? & ?). by split_and!.
Qed.

(** A change that leaves the queue, the deadline and the allowance alone. *)
Lemma plain_inv z g h r id c c' :
  Inv z g h r → connection_mut r id = Some c → token c' = token c → conn_ok c' → deadline c' = deadline c →
  read_allowance c' = read_allowance c → queued c' = queued c → Inv z g h (set_connection id (Some c') r).
Proof.
  intros HI Hc Ht Hok Hd Ha Hq. destruct (deadline_kept z g h r id c c' HI Hc Hd) as [? ?].
  rewrite <-(grant_same z g h r id c HI Hc), <-Ha. by apply (adjust_inv z g h r id c).
Qed.

(** ** Reading and reporting *)

Lemma emitted_inv z g h r e :
  Inv z g h r → event_slot e ∈ issued g → polling g = true →
  match e with Data _ _ => False | WriteDrained id => bytes_of id (sent r) = accepted g id | _ => True end →
  Inv z g h (set_output (output r ++ [e]) r).
Proof.
  intros [[] Hc [] [? ? Ho ? ? Hg ? ? ? Hdr]] He Hp Hd. split; try done; split; try done; cbn [output set_output].
  - intros x [?| ->%list_elem_of_singleton]%elem_of_app; [by apply Ho|done].
  - intros id. specialize (Hg id). rewrite data_of_snoc. destruct e; try by rewrite app_nil_r. done.
  - intros Hp'. congruence.
  - intros id [?|Hx%list_elem_of_singleton]%elem_of_app; [by apply Hdr|]. by subst e.
Qed.

Lemma deliver_inv z g r id b :
  Inv z g (Some (id, b)) r → id ∈ issued g → polling g = true → wp (emit (Data id b)) (λ _, Inv z g None) (λ _ _, False) r.
Proof.
  intros [[] Hc [] [? ? Ho ? ? Hg ? ? ? Hdr]] He Hp. apply wp_modify. split; try done; split; try done; cbn [output set_output].
  - intros x [?| ->%list_elem_of_singleton]%elem_of_app; [by apply Ho|done].
  - intros i. specialize (Hg i). rewrite data_of_snoc. cbn [held] in *. by rewrite app_nil_r.
  - intros Hp'. congruence.
  - intros i [?|Hx%list_elem_of_singleton]%elem_of_app; [by apply Hdr|done].
Qed.

Lemma held_nil id i : held (Some (id, [])) i = held None i.
Proof. cbn. by destruct (decide _). Qed.
Lemma hold_inv z g r id : Inv z g (Some (id, [])) r ↔ Inv z g None r.
Proof.
  split; intros [[] Hc [] [? ? ? ? ? Hg]]; (split; try done; split; try done); intros i; specialize (Hg i); by rewrite ?held_nil in *.
Qed.

Lemma emit_data_inv z g r id b :
  Inv z g (Some (id, b)) r → id ∈ issued g → polling g = true →
  wp (emit_data id b) (λ _ r', Inv z g None r' ∧ ∃ out, r' = set_output out r) (λ _ _, False) r.
Proof.
  intros HI He Hp. unfold emit_data. case_bool_decide as Hb.
  - apply wp_ret. subst b. apply hold_inv in HI. split; [done|]. exists (output r). by destruct r.
  - pose proof (deliver_inv z g r id b HI He Hp) as Hd. apply wp_modify. split; [exact Hd|by eexists].
Qed.

(** What was read is dropped when the connection is gone. *)
Lemma drop_held_inv z g r id b : Inv z g (Some (id, b)) r → connection_mut r id = None → Inv z g None r.
Proof.
  intros [[] Hc [] [? ? ? ? ? Hg]] Hn. split; try done; split; try done. intros i. specialize (Hg i). cbn [held] in *.
  destruct (decide (id = i)) as [<-|]; [|done]. rewrite Hn in *. rewrite app_nil_r. etrans; [|exact Hg].
  rewrite app_assoc. apply prefix_app_r. done.
Qed.

(** [chunk] is read from the socket, and counted. *)
Lemma got_inv z g r id c c' b chunk :
  Inv z g (Some (id, b)) r → connection_mut r id = Some c → token c' = token c → conn_ok c' → deadline c' = deadline c →
  queued c' = queued c → read_allowance c' = (λ a, a - len chunk) <$> read_allowance c →
  Inv z g (Some (id, b ++ chunk)) (set_connection id (Some c') (set_got (got r ++ [(id, chunk)]) r)).
Proof.
  intros HI Hc Ht Hok Hd Hq Ha. destruct (deadline_kept z g _ r id c c' HI Hc Hd) as [? ?].
  pose proof (λ i, connection_set r id (Some c') _ i (slot_of_live _ _ _ Hc)) as Hset.
  assert (Hin : id ∈ issued g) by exact (so_live _ _ (iv_slots _ _ _ _ HI) _ _ Hc).
  pose proof (adjust_inv z g _ r id c c' HI Hc Ht Hok) as HI'. specialize (HI' H H0 Hq).
  destruct HI as [_ _ _ [? Hgi ? ? ? Hg Hgr Hbu ? ?]]. destruct HI' as [[] Hco [] []].
  split; try done; split; try done; cbn [got set_got set_connection set_slots].
  - intros i x [?|Hx]%elem_of_app; [by eapply Hgi|]. apply list_elem_of_singleton in Hx. by injection Hx as -> _.
  - intros i. change (connection_mut _ i) with (connection_mut (set_connection id (Some c') r) i). rewrite Hset.
    specialize (Hg i). rewrite bytes_of_snoc. cbn [held output set_connection set_slots set_got] in *.
    destruct (decide (id = i)) as [<-|Hne]; [|rewrite decide_False by congruence; by rewrite (app_nil_r (bytes_of _ _))].
    rewrite decide_True by done. rewrite Hc in Hg. by rewrite <-Hg, <-!app_assoc.
  - intros i x. change (connection_mut _ i) with (connection_mut (set_connection id (Some c') r) i). rewrite Hset, bytes_of_snoc.
    destruct (decide (i = id)) as [->|Hne]; [|rewrite decide_False, app_nil_r by congruence; apply Hgr].
    intros [= <-]. rewrite decide_True, (Hgr _ _ Hc), Ha, len_app by done. destruct (read_allowance c); cbn; [|done]. f_equal. lia.
  - intros i n Hn. rewrite bytes_of_snoc. destruct (decide (id = i)) as [<-|Hne]; [|rewrite app_nil_r; by apply Hbu].
    rewrite (Hgr _ _ Hc) in Hn. apply fmap_Some in Hn as (a & Hra & ->). rewrite len_app.
    enough (0 ≤ a - len chunk) by lia. apply (co_allowance _ Hok). by rewrite Ha, Hra.
Qed.

(** ** Deadlines *)

Lemma live_index g r id d : slots_ok g r → current_deadline r id = Some d → 0 ≤ index id.
Proof. intros _. unfold current_deadline. intros (c & [? _]%connection_mut_some & _)%bind_Some. done. Qed.

Lemma compact_spec g h r :
  Inv false g h r →
  wp maybe_compact_deadlines (λ _ r', Inv true g h r' ∧ ∀ id, connection_mut r' id = connection_mut r id) (λ _ _, False) r.
Proof.
  intros [[] Hc [Hs Hcov _] []]. unfold maybe_compact_deadlines. apply wp_bind, wp_get.
  pose proof (live_deadlines_len (slots r)) as Hlen. pose proof (len_nonneg (live_deadlines (slots r))).
  zcase.
  - apply wp_ret. split; [|done]. split; try done; split; try done. intros _. unfold saturating_add, saturating_mul in *. lia.
  - apply wp_put. split; [|done]. destruct (heap_collect (live_deadlines (slots r))) as [Hsort Hperm].
    split; try done; split; try done; cbn [deadlines set_deadlines].
    + intros id d Hd. rewrite Hperm. apply live_deadlines_in; [by eapply live_index; [split|]|done].
    + intros _. apply Permutation_length in Hperm. unfold len, DEADLINE_COMPACTION_SLACK in *. cbn [slots set_deadlines]. lia.
Qed.

Lemma push_inv z g h r d id : Inv z g h r → keeps (push_deadline d id) (Inv false g h) r.
Proof.
  intros [[] Hc [Hs Hcov _] []]. destruct d as [d|]; cbn [push_deadline]; [apply wp_modify|apply wp_ret];
    split; try done; split; try done; cbn [deadlines set_deadlines].
  - by apply heap_push_sorted.
  - intros i x Hx. apply heap_push_in. right. by apply Hcov.
Qed.

Lemma unsized z g h r : Inv z g h r → Inv false g h r.
Proof. intros [[] Hc [] []]. by split; try done; split. Qed.

Lemma connection_removed r id c f t :
  connection_mut r id = Some c → connection_mut (set_free_slots f (set_tokens t (set_connection id None r))) id = None.
Proof.
  intros Hc. change (connection_mut (set_connection id None r) id = None).
  by rewrite (connection_set r id None _ id (slot_of_live _ _ _ Hc)), decide_True.
Qed.

Lemma prefix_of_eq {T} (l k : list T) : l = k → l `prefix_of` k.
Proof. by intros ->. Qed.

Lemma removed_inv z g h r id c :
  Inv z g h r → connection_mut r id = Some c →
  Inv false g h (set_free_slots (index id :: free_slots r) (set_tokens (delete (token c) (tokens r)) (set_connection id None r))).
Proof.
  intros [Hsl Hco Hh Hl] Hc. pose proof (λ i, connection_set r id None _ i (slot_of_live _ _ _ Hc)) as Hset. split.
  - by apply slots_remove.
  - intros i x Hx. change (connection_mut (set_connection id None r) i = Some x) in Hx. rewrite Hset in Hx.
    case_decide; [done|]. by eapply Hco.
  - destruct Hh as [Hs Hcov _]. split; [done| |done]. intros i d Hd.
    change (connection_mut (set_connection id None r) i ≫= deadline = Some d) in Hd. rewrite Hset in Hd.
    case_decide; [done|]. by apply Hcov.
  - destruct Hl as [? ? ? ? Hl5 Hl6 Hl7 ? ? ?]. split; try done.
    + intros i. change (connection_mut _ i) with (connection_mut (set_connection id None r) i). rewrite Hset.
      specialize (Hl5 i). case_decide; [|done]. subst i. rewrite Hc in Hl5. cbn. rewrite <-Hl5. by apply prefix_app_r.
    + intros i. change (connection_mut _ i) with (connection_mut (set_connection id None r) i). rewrite Hset.
      specialize (Hl6 i). case_decide; [|done]. subst i. rewrite Hc in Hl6. exact (prefix_of_eq _ _ Hl6).
    + intros i x. change (connection_mut _ i) with (connection_mut (set_connection id None r) i). rewrite Hset. case_decide; [done|apply Hl7].
Qed.

Lemma remove_spec g h r id :
  Inv true g h r →
  wp (remove id) (λ _ r', Inv true g h r' ∧ connection_mut r' id = None) (λ _ _, False) r.
Proof.
  intros HI. unfold remove. apply wp_bind, wp_get. destruct (connection_mut r id) as [c|] eqn:Hc; [|by apply wp_ret].
  apply wp_bind, wp_modify.
  assert (Hrest : ∀ r', same (set_connection id None r) r' →
    wp (_ ← modify (λ r, set_free_slots (index id :: free_slots r) (set_tokens (delete (token c) (tokens r)) r));
        _ ← maybe_compact_deadlines; mret true) (λ _ r', Inv true g h r' ∧ connection_mut r' id = None) (λ _ _, False) r').
  { intros r' (n & t & ->). apply wp_bind, wp_modify. apply wp_bind.
    pose proof (removed_inv true g h r id c HI Hc) as HI'.
    pose proof (connection_removed r id c (index id :: free_slots r) (delete (token c) (tokens r)) Hc) as Hn.
    set (r1 := set_free_slots _ (set_tokens _ (set_connection id None r))) in *.
    assert (Hs : same r1 (set_calls n (set_clock t r1))) by (by exists n, t).
    change (set_free_slots _ _) with (set_calls n (set_clock t r1)).
    eapply wp_mono; [exact (compact_spec g h _ (same_inv _ _ _ _ _ Hs HI'))| |done]. intros ? r2 [HI2 Hsame]. apply wp_ret.
    split; [done|]. rewrite Hsame. exact Hn. }
  destruct (registered c).
  - apply wp_bind. apply ask_then. intros ? r' Hs. apply wp_ret. by apply Hrest.
  - apply wp_bind, wp_ret. by apply Hrest.
Qed.

(** A deadline is set and entered, whatever comes next. *)
Lemma arm_then {T} z g h r id c c' d (k : unit → RM T) Q R :
  Inv z g h r → connection_mut r id = Some c → token c' = token c → conn_ok c' → deadline c' = d → queued c' = queued c →
  (∀ r', Inv false (grant id (read_allowance c') r g) h r' → connection_mut r' id = Some c' → wp (k tt) Q R r') →
  wp (_ ← update id c'; push_deadline d id ≫= k) Q R r.
Proof.
  intros HI Hc Ht Hok Hd Hq Hk. apply wp_bind, wp_modify.
  set (r1 := match d with Some w => set_deadlines (heap_push (mkEntry w id) (deadlines r)) r | None => r end).
  assert (HI1 : Inv false g h r1).
  { pose proof (push_inv z g h r d id HI) as Hp. unfold r1. by destruct d. }
  assert (Hc1 : connection_mut r1 id = Some c) by (by unfold r1; destruct d).
  assert (HI2 : Inv false (grant id (read_allowance c') r g) h (set_connection id (Some c') r1)).
  { replace (grant id (read_allowance c') r g) with (grant id (read_allowance c') r1 g) by (by unfold r1; destruct d).
    apply (adjust_inv false g h r1 id c c' HI1 Hc1 Ht Hok); [|done|done].
    intros w Hw. unfold r1. rewrite <-Hd, Hw. cbn. apply heap_push_in. by left. }
  assert (Hset : connection_mut (set_connection id (Some c') r1) id = Some c').
  { by rewrite (connection_set r1 id (Some c') _ id (slot_of_live _ _ _ Hc1)), decide_True. }
  unfold r1 in *. destruct d as [w|]; apply wp_bind; [apply wp_modify|apply wp_ret]; by apply Hk.
Qed.

Lemma drop_stale_spec r heap :
  ∃ stale, heap = stale ++ drop_stale r heap ∧ (∀ e, e ∈ stale → is_current r e = false) ∧
           (∀ e, head (drop_stale r heap) = Some e → is_current r e = true).
Proof.
  induction heap as [|e heap (stale & Hs & Hst & Hh)]; cbn [drop_stale]; [exists []; split_and!; [done|by intros ? ?%elem_of_nil|done]|].
  destruct (is_current r e) eqn:Hc; [exists []; split_and!; [done|by intros ? ?%elem_of_nil|by intros ? [= <-]]|].
  exists (e :: stale). split_and!; [by rewrite Hs at 1|by intros x [->|?]%elem_of_cons; auto|done].
Qed.

Lemma sorted_suffix a b : StronglySorted entry_leP (a ++ b) → StronglySorted entry_leP b.
Proof. induction a as [|x a IH]; [done|]. by inversion 1; auto. Qed.

(** The nearest deadline is the earliest one a connection has. *)
Definition earliest_deadline (r : NativeReactor) (d : option Z) : Prop :=
  match d with
  | Some d => (∃ id, current_deadline r id = Some d) ∧ ∀ id d', current_deadline r id = Some d' → d ≤ d'
  | None => ∀ id, current_deadline r id = None
  end.

Lemma nearest_spec g h r :
  Inv true g h r →
  wp nearest_deadline (λ d r', Inv true g h r' ∧ (∃ heap, r' = set_deadlines heap r ∧ (length heap ≤ length (deadlines r))%nat) ∧
        d = when <$> head (deadlines r') ∧ (∀ e, head (deadlines r') = Some e → is_current r e = true) ∧ earliest_deadline r d)
    (λ _ _, False) r.
Proof.
  intros [[] Hc [Hs Hcov Hsz] []]. unfold nearest_deadline. apply wp_bind, wp_get, wp_bind, wp_put, wp_ret.
  destruct (drop_stale_spec r (deadlines r)) as (stale & Heq & Hst & Hh). set (heap := drop_stale r (deadlines r)) in *.
  assert (Hcov' : ∀ id d, current_deadline r id = Some d → mkEntry d id ∈ heap).
  { intros id d Hd. apply Hcov in Hd as Hin. rewrite Heq in Hin. apply elem_of_app in Hin as [Hin|?]; [|done].
    apply Hst in Hin. unfold is_current in Hin. cbn in Hin. by rewrite bool_decide_eq_true_2 in Hin. }
  assert (Hsort : StronglySorted entry_leP heap) by (apply (sorted_suffix stale); by rewrite <-Heq).
  assert (Hlen : (length heap ≤ length (deadlines r))%nat) by (rewrite Heq, length_app; lia).
  split_and!; [split; try done; split; try done|by exists heap|done|done|].
  - intros Hz. specialize (Hsz Hz). cbn. unfold len in *. cbn in *. lia.
  - unfold earliest_deadline. destruct heap as [|e heap'] eqn:Hheap; cbn.
    + intros id. destruct (current_deadline r id) as [d|] eqn:Hd; [|done]. by apply Hcov', elem_of_nil in Hd.
    + split.
      * exists (entry_id e). specialize (Hh e eq_refl). unfold is_current in Hh. by apply bool_decide_eq_true in Hh.
      * intros id d' Hd'. apply Hcov', elem_of_cons in Hd' as [He|Hin]; [by subst e|].
        inversion Hsort as [|? ? _ Hall]. eapply Forall_forall in Hall; [|exact Hin]. apply entry_le_spec in Hall. cbn in Hall. lia.
Qed.

Lemma conn_ok_deadline c d : conn_ok c → conn_ok (set_conn_deadline d c).
Proof. by intros []. Qed.

Lemma expire_one_inv g h r e rest c :
  Inv true g h r → deadlines r = e :: rest → connection_mut r (entry_id e) = Some c → deadline c = Some (when e) →
  Inv true g h (set_connection (entry_id e) (Some (set_conn_deadline None c)) (set_deadlines rest r)).
Proof.
  intros HI He Hc Hd.
  assert (HI1 : Inv false g h (set_connection (entry_id e) (Some (set_conn_deadline None c)) r)).
  { rewrite <-(grant_same _ _ _ _ _ _ HI Hc). apply (adjust_inv false g h r (entry_id e) c (set_conn_deadline None c)); try done; [by eapply unsized|].
    apply conn_ok_deadline. by eapply iv_conns. }
  destruct HI as [_ _ [Hs Hcov Hsz] _]. destruct HI1 as [[] Hco _ []]. split; [by split|done|split|by split].
  - cbn. rewrite He in Hs. by inversion Hs.
  - intros i d Hi. pose proof Hi as Hi'. unfold current_deadline in Hi'.
    change (connection_mut _ i) with (connection_mut (set_connection (entry_id e) (Some (set_conn_deadline None c)) r) i) in Hi'.
    rewrite (connection_set r _ _ _ i (slot_of_live _ _ _ Hc)) in Hi'. case_decide as Hde; [done|].
    pose proof (Hcov i d Hi') as Hin. rewrite He in Hin. apply elem_of_cons in Hin as [<-|?]; [done|done].
  - intros _. specialize (Hsz eq_refl). rewrite He, len_cons in Hsz. pose proof Hc as [_ Hsl]%connection_mut_some.
    unfold set_connection. cbn [deadlines set_slots set_deadlines slots].
    rewrite (total_weight_insert _ _ _ _ Hsl). unfold weight. cbn. rewrite Hd. cbn. lia.
Qed.

(** The deadlines that have passed are reported and cleared, each once. *)
Definition expired (now : Z) (r r' : NativeReactor) : Prop :=
  clock r' = clock r ∧ ∃ ids, output r' = output r ++ map DeadlineExpired ids ∧ NoDup ids ∧
    (∀ id, id ∈ ids ↔ ∃ d, current_deadline r id = Some d ∧ d ≤ now) ∧
    (∀ id, current_deadline r' id = if decide (id ∈ ids) then None else current_deadline r id) ∧
    ∀ id c, connection_mut r' id = Some c → ∃ c0, connection_mut r id = Some c0 ∧ queued c = queued c0.

Lemma expired_none now r heap :
  (∀ id d, current_deadline r id = Some d → now < d) → expired now r (set_deadlines heap r).
Proof.
  intros Hnone. split; [done|]. exists []. split_and!; [by rewrite app_nil_r|constructor| |done|by eauto].
  intros id. split; [by intros ?%elem_of_nil|]. intros (d & Hd & Hle). apply Hnone in Hd. lia.
Qed.

Lemma expired_step now r r1 r2 id d :
  current_deadline r id = Some d → d ≤ now →
  clock r1 = clock r → output r1 = output r ++ [DeadlineExpired id] →
  (∀ i, current_deadline r1 i = if decide (i = id) then None else current_deadline r i) →
  (∀ i c, connection_mut r1 i = Some c → ∃ c0, connection_mut r i = Some c0 ∧ queued c = queued c0) →
  expired now r1 r2 → expired now r r2.
Proof.
  intros Hd Hle Hcl Ho Hc Hq (Hcl2 & ids & Ho2 & Hnd & Hin & Hc2 & Hq2). split; [by rewrite Hcl2|]. exists (id :: ids). split_and!.
  - rewrite Ho2, Ho, <-app_assoc. done.
  - constructor; [|done]. rewrite Hin. intros (d' & Hd' & _). rewrite Hc, decide_True in Hd' by done. done.
  - intros i. rewrite elem_of_cons, Hin. split.
    + intros [->|(d' & Hd' & ?)]; [eauto|]. rewrite Hc in Hd'. case_decide; [done|]. eauto.
    + intros (d' & Hd' & ?). destruct (decide (i = id)) as [->|Hne]; [by left|right]. exists d'. by rewrite Hc, decide_False.
  - intros i. rewrite Hc2, Hc. destruct (decide (i = id)) as [->|Hne].
    + rewrite (decide_True (P := id ∈ id :: ids)) by (by left). by case_decide.
    + destruct (decide (i ∈ ids)); [by rewrite decide_True by (by right)|]. rewrite decide_False; [done|].
      intros [->|?]%elem_of_cons; done.
  - intros i c Hi. destruct (Hq2 i c Hi) as (c1 & Hc1 & ->). by apply Hq.
Qed.

Lemma expire_loop_spec g h now : ∀ fuel r,
  Inv true g h r → polling g = true → (length (deadlines r) < fuel)%nat →
  wp (expire_loop fuel now) (λ _ r', Inv true g h r' ∧ expired now r r') (λ _ _, False) r.
Proof.
  induction fuel as [|fuel IH]; intros r HI Hp Hf; [lia|]. cbn [expire_loop].
  apply wp_bind. eapply wp_mono; [exact (nearest_spec g h r HI)| |done].
  intros d r1 (HI1 & (heap & -> & Hlen) & -> & Hcur & Hear). cbn [deadlines set_deadlines] in *.
  destruct heap as [|e rest]; cbn [head fmap option_fmap option_map] in *.
  { apply wp_ret. split; [done|]. apply expired_none. intros id d Hd. by rewrite (Hear id) in Hd. }
  destruct Hear as [_ Hmin]. zcase.
  2: { apply wp_ret. split; [done|]. apply expired_none. intros id d Hd. apply Hmin in Hd. lia. }
  apply wp_bind, wp_get. cbn [deadlines set_deadlines]. apply wp_bind, wp_put. specialize (Hcur e eq_refl). unfold is_current, current_deadline in Hcur.
  apply bool_decide_eq_true, bind_Some in Hcur as (c & Hc & Hd).
  change (connection_mut (set_deadlines (e :: rest) r) (entry_id e)) with (connection_mut r (entry_id e)). rewrite Hc.
  rewrite bool_decide_eq_true_2 by done. apply wp_bind, wp_bind, wp_modify.
  pose proof (expire_one_inv g h _ e rest c HI1 eq_refl Hc Hd) as HI2.
  apply wp_modify. set (r2 := set_output _ _).
  assert (HI3 : Inv true g h r2).
  { apply emitted_inv; [exact HI2| |done|done]. by apply (so_live _ _ (iv_slots _ _ _ _ HI) _ _ Hc). }
  assert (Hset : ∀ i, connection_mut r2 i = if decide (i = entry_id e) then Some (set_conn_deadline None c) else connection_mut r i)
    by (intros i; exact (connection_set r (entry_id e) (Some (set_conn_deadline None c)) _ i (slot_of_live _ _ _ Hc))).
  eapply wp_mono; [apply IH; [exact HI3|done|cbn in *; lia]| |done].
  intros ? r3 [HI4 Hexp]. split; [done|]. eapply (expired_step now r r2 r3 (entry_id e) (when e)); try done.
  - unfold current_deadline. by rewrite Hc.
  - intros i. unfold current_deadline. rewrite Hset. by case_decide.
  - intros i x. rewrite Hset. case_decide as Hi; [|eauto]. subst i. intros [= <-]. by exists c.
Qed.

(** ** Calls on one connection *)

Lemma same_connection r r' id : same r r' → connection_mut r' id = connection_mut r id.
Proof. by intros (n & t & ->). Qed.

Lemma ok_set_registered b c : conn_ok c → conn_ok (set_registered b c).
Proof. by intros []. Qed.

Lemma reregister_spec z g h r id c :
  Inv z g h r → connection_mut r id = Some c →
  wp (reregister id) (λ _ r', Inv z g h r') (λ f r', Inv z g h r' ∧ is_Some (io_kind f)) r.
Proof.
  intros HI Hc. unfold reregister. apply wp_bind, wp_get. rewrite (slot_of_live _ _ _ Hc). cbn [connection].
  assert (Hset : ∀ op b r', same r r' → ∀ e : option IoError,
    wp (_ ← checked Internal op e; modify (set_connection id (Some (set_registered b c))))
      (λ _ r', Inv z g h r') (λ f r', Inv z g h r' ∧ is_Some (io_kind f)) r').
  { intros op b r' Hs [e|]; cbn [checked]; apply wp_bind.
    - apply wp_fail. split; [exact (same_inv _ _ _ _ _ Hs HI)|by eexists].
    - apply wp_ret, wp_modify. apply (plain_inv z g h r' id c); try done; [exact (same_inv _ _ _ _ _ Hs HI)|by rewrite (same_connection _ _ _ Hs)|].
      apply ok_set_registered. by eapply iv_conns. }
  destruct (registered c), (connection_interest c).
  - apply ask_then. intros [e|] r' Hs; cbn [checked].
    + apply wp_fail. split; [exact (same_inv _ _ _ _ _ Hs HI)|by eexists].
    + apply wp_ret. exact (same_inv _ _ _ _ _ Hs HI).
  - apply ask_then. intros e r' Hs. by apply Hset.
  - apply ask_then. intros e r' Hs. by apply Hset.
  - by apply wp_ret.
Qed.

Lemma require_then {T} id text (k : Connection → RM T) Q R r :
  (∀ c, connection_mut r id = Some c → wp (k c) Q R r) →
  (connection_mut r id = None → R (failure_internal text) r) → wp (require id text ≫= k) Q R r.
Proof.
  intros Hk HR. apply wp_bind. unfold require. apply wp_bind, wp_get.
  destruct (connection_mut r id) as [c|]; [apply wp_ret; by apply Hk|apply wp_fail; by apply HR].
Qed.

Definition accepts (f : NativeFailure) : bool := negb (is_none (io_kind f)).

Lemma update_then {T} id c' (k : unit → RM T) Q R r :
  wp (k tt) Q R (set_connection id (Some c') r) → wp (update id c' ≫= k) Q R r.
Proof. intros Hk. apply wp_bind, wp_modify. exact Hk. Qed.

Lemma updated_connection r id c c' : connection_mut r id = Some c → connection_mut (set_connection id (Some c') r) id = Some c'.
Proof. intros Hc. by rewrite (connection_set r id (Some c') _ id (slot_of_live _ _ _ Hc)), decide_True. Qed.

Lemma queue_write_spec g r id bytes :
  Inv true g None r → polling g = false →
  wp (queue_write id bytes) (λ _ r', Inv true (accept id bytes g) None r')
    (λ f r', Inv true (if accepts f then accept id bytes g else g) None r') r.
Proof.
  intros HI Hp. unfold queue_write. apply require_then; [|done]. intros c Hc.
  pose proof (iv_conns _ _ _ _ HI _ _ Hc) as [Hb Hq Hr Hal]. zcase; [by apply wp_fail|]. zcase; [by apply wp_fail|].
  apply update_then. set (c' := set_queue _ _ c).
  assert (HI' : Inv true (accept id bytes g) None (set_connection id (Some c') r)).
  { apply (accept_inv true g None r id c); try done.
    - split; [done| |done|done]. unfold room, saturating_sub in *. unfold outbound_len, body_len in *. cbn in *. rewrite len_app. lia.
    - unfold queued, c', body_bytes. cbn. rewrite <-!app_assoc. f_equal.
      destruct (body c); [|by rewrite app_nil_r]. cbn in Heqb. apply negb_false_iff, bool_decide_eq_true in Heqb as ->. by rewrite app_nil_r. }
  eapply wp_mono; [apply (reregister_spec true _ None _ id c' HI'); by eapply updated_connection|done|].
  intros f r' [HI2 [k Hk]]. unfold accepts. by rewrite Hk.
Qed.

Lemma subrange_glue (l : list Z) a b c :
  0 ≤ a ≤ b → b ≤ c → subrange l a b ++ subrange l b c = subrange l a c.
Proof.
  intros Hab Hbc. unfold subrange. replace (Z.to_nat (c - a)) with (Z.to_nat (b - a) + Z.to_nat (c - b))%nat by lia.
  rewrite <-take_take_drop, drop_drop. do 3 f_equal. lia.
Qed.

Lemma queue_body_spec g r id arc first last :
  Inv true g None r → polling g = false → 0 ≤ first →
  wp (queue_body id arc first last) (λ _ r', Inv true (accept id (subrange (arc_bytes arc) first last) g) None r')
    (λ f r', Inv true (if accepts f then accept id (subrange (arc_bytes arc) first last) g else g) None r') r.
Proof.
  intros HI Hp Hfirst. unfold queue_body. apply require_then; [|done]. intros c Hc.
  pose proof (iv_conns _ _ _ _ HI _ _ Hc) as [Hb Hq Hr Hal]. zcase; [by apply wp_fail|].
  apply orb_false_iff in Heqb as [[Hfl%Z.ltb_ge Hll%Z.ltb_ge]%orb_false_iff Hroom%Z.ltb_ge].
  assert (Hgo : ∀ c', token c' = token c → conn_ok c' → deadline c' = deadline c → read_allowance c' = read_allowance c →
    queued c' = queued c ++ subrange (arc_bytes arc) first last →
    wp (_ ← update id c'; reregister id) (λ _ r', Inv true (accept id (subrange (arc_bytes arc) first last) g) None r')
      (λ f r', Inv true (if accepts f then accept id (subrange (arc_bytes arc) first last) g else g) None r') r).
  { intros c' Ht Hok Hd Ha Hqu. apply update_then.
    pose proof (accept_inv true g None r id c c' _ HI Hc Ht Hok Hd Ha Hp Hqu) as HI'.
    eapply wp_mono; [apply (reregister_spec true _ None _ id c' HI'); by eapply updated_connection|done|].
    intros f r' [HI2 [k Hk]]. unfold accepts. by rewrite Hk. }
  unfold room, saturating_sub, outbound_len, body_len, body_ok in *. destruct (body c) as [[[owner start] stop]|] eqn:Hbody.
  - zcase; [|by apply wp_bind, wp_fail]. apply andb_true_iff in Heqb as [->%Z.eqb_eq ->%Z.eqb_eq]. apply Hgo; try done.
    + split; [unfold body_ok; cbn; lia| |done|done]. unfold outbound_len, body_len. cbn. lia.
    + unfold queued, body_bytes. cbn. rewrite Hbody, <-app_assoc, subrange_glue; [done|lia|lia].
  - apply Hgo; try done.
    + split; [unfold body_ok; cbn; lia| |done|done]. unfold outbound_len, body_len. cbn. lia.
    + unfold queued, body_bytes. cbn. by rewrite Hbody, app_nil_r.
Qed.

(** A change of one connection that neither queues nor arms anything. *)
Lemma plain_then {T} z g h r id c c' (k : unit → RM T) Q R :
  Inv z g h r → connection_mut r id = Some c → token c' = token c → conn_ok c' → deadline c' = deadline c →
  read_allowance c' = read_allowance c → queued c' = queued c →
  (∀ r', Inv z g h r' → connection_mut r' id = Some c' → wp (k tt) Q R r') → wp (update id c' ≫= k) Q R r.
Proof.
  intros HI Hc Ht Hok Hd Ha Hq Hk. apply update_then, Hk; [by apply (plain_inv z g h r id c)|by eapply updated_connection].
Qed.

Lemma update_keeps z g h r id c c' :
  Inv z g h r → connection_mut r id = Some c → token c' = token c → conn_ok c' → deadline c' = deadline c →
  read_allowance c' = read_allowance c → queued c' = queued c → keeps (update id c') (Inv z g h) r.
Proof. intros HI Hc Ht Hok Hd Ha Hq. apply wp_modify. by apply (plain_inv z g h r id c). Qed.

Lemma still_keeps {T} (m : RM T) z g h r : still m → Inv z g h r → keeps m (Inv z g h) r.
Proof. intros Hm HI. eapply wp_mono; [apply Hm| |]; intros ? r' Hs; exact (same_inv _ _ _ _ _ Hs HI). Qed.

Lemma set_body_budget_keeps g r id b : Inv true g None r → keeps (set_body_budget id b) (Inv true g None) r.
Proof.
  intros HI. unfold set_body_budget. apply require_then; [|done]. intros c Hc.
  pose proof (iv_conns _ _ _ _ HI _ _ Hc) as []. by apply (update_keeps true g None r id c).
Qed.

Lemma set_outbound_limit_keeps g r id l : Inv true g None r → keeps (set_outbound_limit id l) (Inv true g None) r.
Proof.
  intros HI. unfold set_outbound_limit. apply require_then; [|done]. intros c Hc.
  pose proof (iv_conns _ _ _ _ HI _ _ Hc) as []. zcase; [by apply wp_fail|].
  apply (update_keeps true g None r id c); try done.
Qed.

Lemma shutdown_write_keeps g r id : Inv true g None r → keeps (shutdown_write id) (Inv true g None) r.
Proof.
  intros HI. unfold shutdown_write. apply require_then; [|done]. intros c Hc. zcase; [|by apply wp_fail].
  apply (still_keeps (e ← ask sk_shutdown; checked Write "write shutdown" e)); [|done].
  apply still_bind; [apply still_ask|intros; apply still_checked].
Qed.

Lemma set_read_allowance_spec g r id a :
  Inv true g None r → (∀ n, a = Some n → 0 ≤ n) →
  wp (set_read_allowance id a) (λ _ r', Inv true (grant id a r g) None r')
    (λ f r', Inv true (if accepts f then grant id a r g else g) None r') r.
Proof.
  intros HI Ha. unfold set_read_allowance. apply require_then; [|done]. intros c Hc.
  pose proof (iv_conns _ _ _ _ HI _ _ Hc) as []. destruct (deadline_kept true g None r id c c HI Hc eq_refl) as [? ?].
  apply update_then. set (c' := set_reading _ _ _ c).
  assert (HI' : Inv true (grant id a r g) None (set_connection id (Some c') r)) by (by apply (adjust_inv true g None r id c c')).
  eapply wp_mono; [apply (reregister_spec true _ None _ id c' HI'); by eapply updated_connection|done|].
  intros f r' [HI2 [k Hk]]. unfold accepts. by rewrite Hk.
Qed.

Lemma set_deadline_keeps g r id d : Inv true g None r → keeps (set_deadline id d) (Inv true g None) r.
Proof.
  intros HI. unfold set_deadline. apply require_then; [|done]. intros c Hc.
  apply (arm_then true g None r id c); try done; [apply conn_ok_deadline; by eapply iv_conns|].
  intros r' HI' _. change (read_allowance (set_conn_deadline d c)) with (read_allowance c) in HI'.
  rewrite (grant_same _ _ _ _ _ _ HI Hc) in HI'. eapply wp_mono; [exact (compact_spec g None r' HI')| |done]. by intros ? r2 [? _].
Qed.

Lemma park_idle_keeps g r id d : Inv true g None r → keeps (park_idle id d) (Inv true g None) r.
Proof.
  intros HI. unfold park_idle. apply require_then; [|done]. intros c Hc. zcase; [|by apply wp_fail]. by apply set_deadline_keeps.
Qed.

Lemma clean_queue c : conn_ok c → clean c = true → outbound_len c = 0.
Proof. intros _. unfold clean, outbound_empty. rewrite !andb_true_iff. by intros [_ ?%Z.eqb_eq]. Qed.

Lemma prepare_reuse_spec g r id d o i :
  Inv true g None r → 0 ≤ o → 0 ≤ i →
  wp (prepare_reuse id d o i) (λ _ r', Inv true (grant id None r g) None r')
    (λ f r', Inv true (if accepts f then grant id None r g else g) None r') r.
Proof.
  intros HI Ho Hi. unfold prepare_reuse. apply require_then; [|done]. intros c Hc. zcase; [|by apply wp_fail].
  pose proof (iv_conns _ _ _ _ HI _ _ Hc) as Hok. apply (clean_queue c Hok) in Heqb. destruct Hok.
  apply (arm_then true g None r id c); try done.
  - split; [done| |cbn; lia|done]. unfold outbound_len, body_len in *. cbn. lia.
  - intros r' HI' Hc'. apply wp_bind. eapply wp_mono; [exact (compact_spec _ None r' HI')| |done].
    intros ? r2 [HI2 Hsame]. eapply wp_mono; [eapply (reregister_spec true _ None r2 id); [exact HI2|by rewrite Hsame]|done|].
    intros f r3 [? [k Hk]]. unfold accepts. by rewrite Hk.
Qed.

Lemma idle_is_quiet_keeps g r id : Inv true g None r → keeps (idle_is_quiet id) (Inv true g None) r.
Proof.
  intros HI. unfold idle_is_quiet. apply require_then; [|done]. intros c Hc. zcase; [|by apply wp_ret].
  apply ask_then. intros [| |e] r' Hs; [apply wp_ret|apply wp_ret|apply wp_fail]; exact (same_inv _ _ _ _ _ Hs HI).
Qed.

(** ** Opening a connection *)

(** Slots without a connection come and go; nothing else changes. *)
Lemma reslot_inv z g h r sl fr :
  Inv z g h r → (∀ id, connection_mut (set_free_slots fr (set_slots sl r)) id = connection_mut r id) →
  total_weight sl = total_weight (slots r) →
  (∀ i s, sl !! i = Some s → 1 ≤ slot_generation s ≤ u32_max) → len sl ≤ u32_max + 1 → NoDup fr →
  (∀ i, i ∈ fr → 0 ≤ i ∧ ∃ n, sl !! Z.to_nat i = Some (mkSlot n None)) →
  (∀ id, id ∈ issued g → ∃ s, 0 ≤ index id ∧ sl !! Z.to_nat (index id) = Some s ∧ generation id ≤ slot_generation s) →
  Inv z g h (set_free_slots fr (set_slots sl r)).
Proof.
  intros [[] Hco [? Hcov Hsz] [? ? ? ? Hs Hg Hgr ? ? ?]] Hsame Hw ? ? ? ? ?. split.
  - split; try done; [intros id c|intros t id Ht|intros id c|intros id Hi]; setoid_rewrite Hsame; eauto.
  - intros id c. rewrite Hsame. apply Hco.
  - split; [done| |].
    + intros id d. unfold current_deadline. rewrite Hsame. apply Hcov.
    + intros Hz. cbn. rewrite Hw. by apply Hsz.
  - split; try done; intros id; rewrite Hsame; [apply Hs|apply Hg|apply Hgr].
Qed.

(** An empty slot that nobody knows. *)
Definition vacant (g : Ghost) (id : SlotId) (r : NativeReactor) : Prop :=
  slot_of r id = Some (mkSlot (generation id) None) ∧ index id ∉ free_slots r ∧ id ∉ issued g.

Lemma vacant_same g id r r' : same r r' → vacant g id r → vacant g id r'.
Proof. intros (n & t & ->). done. Qed.

Lemma connection_reslot r sl fr :
  (∀ i s, slots r !! i = Some s → connection s ≠ None → sl !! i = Some s) →
  (∀ i s, sl !! i = Some s → connection s ≠ None → slots r !! i = Some s) →
  ∀ id, connection_mut (set_free_slots fr (set_slots sl r)) id = connection_mut r id.
Proof.
  intros H1 H2 id. apply option_eq. intros c. rewrite !connection_mut_some. cbn.
  split; intros [? Hs]; (split; [done|]); [apply (H2 _ _ Hs)|apply (H1 _ _ Hs)]; done.
Qed.


Lemma set_free_slots_same r : set_free_slots (free_slots r) r = r.
Proof. by destruct r. Qed.

Lemma fresh_slot_inv g r :
  Inv true g None r → free_slots r = [] → len (slots r) ≤ u32_max →
  Inv true g None (set_slots (slots r ++ [mkSlot 1 None]) r) ∧
  vacant g (mkSlotId (len (slots r)) 1) (set_slots (slots r ++ [mkSlot 1 None]) r).
Proof.
  intros HI Hfr Hle. pose proof (iv_slots _ _ _ _ HI) as [Hgen Hlen _ _ Hiss _ _ _ _].
  assert (Hnew : ∀ i s, (slots r ++ [mkSlot 1 None]) !! i = Some s → slots r !! i = Some s ∨ s = mkSlot 1 None).
  { intros i s [?|[? [_ <-]%list_lookup_singleton_Some]]%lookup_app_Some; auto. }
  split.
  - rewrite <-(set_free_slots_same (set_slots _ r)). apply reslot_inv; cbn [free_slots set_slots]; rewrite ?Hfr; try done.
    + apply connection_reslot; [intros i s Hs _; by apply lookup_app_l_Some|]. by intros i s [?| ->]%Hnew.
    + rewrite total_weight_app. cbn. lia.
    + intros i s [?| ->]%Hnew; [by eapply Hgen|]. cbn. unfold u32_max. lia.
    + rewrite len_app. unfold len in *. cbn [length]. lia.
    + constructor.
    + by intros i ?%elem_of_nil.
    + intros id (s & ? & Hs & ?)%Hiss. exists s. split_and!; [done|by apply lookup_app_l_Some|done].
  - split_and!; cbn [free_slots set_slots].
    + apply slot_of_some. cbn. split; [apply len_nonneg|]. split; [|done]. unfold len. rewrite Nat2Z.id. by apply list_lookup_middle.
    + rewrite Hfr. apply not_elem_of_nil.
    + intros (s & _ & Hs%lookup_lt_Some & _)%Hiss. cbn in Hs. unfold len in Hs. lia.
Qed.

Lemma reused_slot_inv g r i rest n :
  Inv true g None r → free_slots r = i :: rest → slots r !! Z.to_nat i = Some (mkSlot n None) → n + 1 ≤ u32_max →
  let r' := set_connection (mkSlotId i (n + 1)) None (set_free_slots rest r) in
  Inv true g None r' ∧ vacant g (mkSlotId i (n + 1)) r'.
Proof.
  intros HI Hfr Hn Hle. pose proof (iv_slots _ _ _ _ HI) as [Hgen Hlen Hnd Hfree Hiss _ _ _ _].
  rewrite Hfr in Hnd, Hfree. apply NoDup_cons in Hnd as [Hni Hnd]. pose proof (Hgen _ _ Hn) as Hg. cbn in Hg.
  destruct (Hfree i) as (Hi & _); [by left|]. pose proof (lookup_lt_Some _ _ _ Hn) as Hlt. cbv zeta. split.
  - change (set_connection _ None _) with (set_free_slots rest (set_slots (<[Z.to_nat i := mkSlot (n + 1) None]> (slots r)) r)).
    apply reslot_inv; try done.
    + apply connection_reslot; intros j s Hs Hne.
      * rewrite list_lookup_insert_ne; [done|]. intros <-. rewrite Hn in Hs. by injection Hs as <-.
      * apply list_lookup_insert_Some in Hs as [(_ & <- & _)|[_ ?]]; done.
    + rewrite (total_weight_insert _ _ _ _ Hn). cbn. lia.
    + intros j s [(_ & <- & _)|[_ ?]]%list_lookup_insert_Some; [cbn; lia|by eapply Hgen].
    + unfold len in *. by rewrite length_insert.
    + intros j Hj. destruct (Hfree j) as (Hj0 & m & Hm); [by right|]. split; [done|]. exists m.
      rewrite list_lookup_insert_ne; [done|]. intros Heq. assert (i = j) by lia. by subst.
    + intros id (s & Hid & Hs & Hge)%Hiss. destruct (decide (Z.to_nat i = Z.to_nat (index id))) as [Heq|Hne].
      * rewrite <-Heq, Hn in Hs. injection Hs as <-. eexists. split_and!; [done|rewrite <-Heq; by apply list_lookup_insert_eq|].
        cbn in *. lia.
      * exists s. by rewrite list_lookup_insert_ne.
  - split_and!.
    + apply slot_of_some. cbn. split_and!; [done| |done]. by apply list_lookup_insert_eq.
    + done.
    + intros (s & _ & Hs & Hge)%Hiss. cbn in Hs, Hge. rewrite Hn in Hs. injection Hs as <-. cbn in Hge. lia.
Qed.

Lemma allocate_slot_spec g r :
  Inv true g None r →
  wp allocate_slot (λ id r', Inv true g None r' ∧ vacant g id r') (λ _ r', Inv true g None r') r.
Proof.
  intros HI. pose proof (iv_slots _ _ _ _ HI) as [Hgen Hlen Hnd Hfree Hiss _ _ _ _].
  unfold allocate_slot. apply wp_bind, wp_get. destruct (free_slots r) as [|i rest] eqn:Hfr.
  - zcase; [by apply wp_fail|]. apply wp_bind, wp_put, wp_ret. by apply fresh_slot_inv.
  - apply wp_bind, wp_put. destruct (Hfree i) as (Hi & n & Hn); [by left|]. rewrite Hn. cbn [slot_generation connection].
    unfold checked_add. zcase.
    + apply wp_bind, wp_modify, wp_ret. by apply reused_slot_inv.
    + apply wp_fail. change (set_free_slots rest r) with (set_free_slots rest (set_slots (slots r) r)).
      apply reslot_inv; try done; [by inversion Hnd|]. intros j Hj. apply Hfree. by right.
Qed.

Lemma release_spec g id r :
  Inv true g None r → vacant g id r → keeps (release_empty_slot (index id)) (Inv true g None) r.
Proof.
  intros HI ([Hi [Hs _]]%slot_of_some & Hnf & _). unfold release_empty_slot. apply wp_bind, wp_get. rewrite Hs. apply wp_put.
  pose proof (iv_slots _ _ _ _ HI) as [Hgen Hlen Hnd Hfree Hiss _ _ _ _].
  change (set_free_slots ?f r) with (set_free_slots f (set_slots (slots r) r)). apply reslot_inv; try done.
  - by constructor.
  - intros j [->|Hj]%elem_of_cons; [by eauto|by apply Hfree].
Qed.

(** A step of [connect] that leaves the slot vacant gives it back if it fails. *)
Lemma or_release_then {T U} g id (m : RM T) (k : T → RM U) Q R r :
  wp m (λ a r', Inv true g None r' ∧ vacant g id r' ∧ wp (k a) Q R r') (λ _ r', Inv true g None r' ∧ vacant g id r') r →
  (∀ f r', Inv true g None r' → R f r') → wp (or_release (index id) m ≫= k) Q R r.
Proof.
  intros Hm HR. apply wp_bind. unfold wpx at 1, or_release. unfold wpx at 1 in Hm. destruct (m r) as [[a|f| |] r']; try done; [naive_solver|].
  change (wp (_ ← release_empty_slot (index id); fail f) (λ a r', wp (k a) Q R r') R r'). apply wp_bind.
  destruct Hm as [HI Hv]. eapply wp_mono; [exact (release_spec g id r' HI Hv)| |]; intros ? r2 HI2; [apply wp_fail|]; by apply HR.
Qed.

(** A slot is given out. *)
Definition issue (id : SlotId) (g : Ghost) : Ghost := mkGhost (id :: issued g) (accepted g) (settled g) (granted g) (polling g) (closed g).

Lemma slots_open g r id c :
  slots_ok g r → vacant g id r → tokens r !! token c = None → token c < next_token r →
  slots_ok (issue id g) (set_connection id (Some c) (set_tokens (<[token c := id]> (tokens r)) r)).
Proof.
  intros [Hgen Hlen Hnd Hfree Hiss Hlive Htok Htoks Hcl] ([Hi [Hs _]]%slot_of_some & Hnf & Hni) Htn Htlt.
  pose proof (lookup_lt_Some _ _ _ Hs) as Hlt.
  assert (Hset : ∀ i, connection_mut (set_connection id (Some c) (set_tokens (<[token c := id]> (tokens r)) r)) i =
                      if decide (i = id) then Some c else connection_mut r i).
  { intros i. apply (connection_set r id (Some c) (mkSlot (generation id) None)). by apply slot_of_some. }
  split; try done; cbn [slots set_connection set_slots tokens set_tokens next_token issued issue].
  - intros j s [(_ & <- & _)|[_ ?]]%list_lookup_insert_Some; [cbn; by apply (Hgen _ _ Hs)|by eapply Hgen].
  - unfold len in *. by rewrite length_insert.
  - intros j Hj. destruct (Hfree j Hj) as (Hj0 & m & Hm). split; [done|]. exists m.
    rewrite list_lookup_insert_ne; [done|]. intros Heq. assert (index id = j) by lia. by subst.
  - intros i [->|Hin]%elem_of_cons; [eexists; split_and!; [done|by apply list_lookup_insert_eq|done]|].
    destruct (Hiss i Hin) as (s & Hi0 & Hsi & Hge). destruct (decide (Z.to_nat (index id) = Z.to_nat (index i))) as [Heq|Hne].
    + rewrite <-Heq, Hs in Hsi. injection Hsi as <-. eexists. by split_and!; [|rewrite <-Heq; apply list_lookup_insert_eq|].
    + exists s. by rewrite list_lookup_insert_ne.
  - intros i x. rewrite Hset. case_decide; [subst; by left|]. intros ?%Hlive. by right.
  - intros t i [[<- <-]|[Hne (? & x & Hx & Htx)%Htok]]%lookup_insert_Some.
    + split; [done|]. exists c. by rewrite Hset, decide_True.
    + split; [done|]. exists x. rewrite Hset, decide_False; [done|]. intros ->. by apply Hlive in Hx.
  - intros i x. rewrite Hset. case_decide as Hd; [intros [= <-]; subst; apply lookup_insert_eq|].
    intros Hx%Htoks. rewrite lookup_insert_ne; [done|]. congruence.
  - intros i [? Hn]%Hcl. split; [by right|]. rewrite Hset, decide_False; [done|]. by intros ->.
Qed.

Lemma unissued_logs g r id :
  logs_ok g None r → id ∉ issued g → bytes_of id (sent r) = [] ∧ bytes_of id (got r) = [] ∧ data_of id (output r) = [].
Proof.
  intros [Hs Hg Ho _ _ _ _ _ _ _] Hn.
  assert (Hlog : ∀ log, (∀ i b, (i, b) ∈ log → i ∈ issued g) → bytes_of id log = []).
  { intros log Hlog. induction log as [|[i b] log IH]; [done|]. unfold bytes_of. rewrite filter_cons. cbn.
    rewrite decide_False; [|intros ->; by apply Hn, (Hlog id b); left]. apply IH. intros j x Hx. apply (Hlog j x). by right. }
  split_and!; [by apply Hlog|by apply Hlog|]. unfold data_of. induction (output r) as [|e l IH]; [done|].
  assert (Hl : ∀ x, x ∈ l → event_slot x ∈ issued g) by (intros x Hx; apply Ho; by right).
  specialize (IH Hl). assert (He : event_slot e ∈ issued g) by (apply Ho; by left).
  destruct e; cbn in *; try done. case_decide; [subst; done|done].
Qed.

Lemma logs_open g r r' id c :
  logs_ok g None r → id ∉ issued g → connection_mut r id = None → queued c = [] → read_allowance c = None →
  sent r' = sent r → got r' = got r → output r' = output r →
  (∀ i, connection_mut r' i = if decide (i = id) then Some c else connection_mut r i) → logs_ok (issue id g) None r'.
Proof.
  intros Hl Hn Hnone Hq Hra Hs Hg Ho Hset. destruct (unissued_logs g r id Hl Hn) as (Hs0 & Hg0 & Ho0).
  destruct Hl as [H1 H2 H3 H4 H5 H6 H7 H8 H9 H10]. destruct (H4 id Hn) as (Ha & Hd & Hgr).
  split; rewrite ?Hs, ?Hg, ?Ho; cbn [issued issue accepted settled granted polling]; try done.
  - intros i b Hin. right. by eapply H1.
  - intros i b Hin. right. by eapply H2.
  - intros e Hin. right. by apply H3.
  - intros i Hi. apply H4. intros ?. apply Hi. by right.
  - intros i. rewrite Hset. specialize (H5 i). case_decide; [subst i|done]. by rewrite Hs0, Hq, Ha.
  - intros i. rewrite Hset. specialize (H6 i). case_decide; [subst i|done]. by rewrite Hd, Ho0, Hg0.
  - intros i x. rewrite Hset. case_decide; [subst i|by apply H7]. intros [= <-]. by rewrite Hgr, Hra.
Qed.

Lemma opened_inv g r id c :
  Inv true g None r → vacant g id r → tokens r !! token c = None → token c < next_token r → conn_ok c → queued c = [] → read_allowance c = None →
  let r1 := set_connection id (Some c) (set_tokens (<[token c := id]> (tokens r)) r) in
  wp (push_deadline (deadline c) id) (λ _ r', Inv true (issue id g) None r' ∧ connection_mut r' id = Some c) (λ _ _, False) r1.
Proof.
  intros [Hsl Hco [Hso Hcov Hsz] Hl] Hv Htn Htlt Hok Hq Hra r1.
  assert (Hset : ∀ i, connection_mut r1 i = if decide (i = id) then Some c else connection_mut r i)
    by (intros i; apply (connection_set r id (Some c) _ i (proj1 Hv))).
  assert (Hnone : connection_mut r id = None) by (unfold connection_mut; by rewrite (proj1 Hv)).
  pose proof (slots_open g r id c Hsl Hv Htn Htlt) as Hsl'.
  pose proof Hv as ([_ [Hs _]]%slot_of_some & _ & Hni).
  assert (Hw : total_weight (slots r1) = total_weight (slots r) + weight_of c).
  { unfold r1. cbn. rewrite (total_weight_insert _ _ _ _ Hs). unfold weight, weight_of. cbn. lia. }
  specialize (Hsz eq_refl). unfold weight_of in Hw.
  assert (Hheap : ∀ heap, StronglySorted entry_leP heap → (∀ e, e ∈ deadlines r → e ∈ heap) →
            (∀ d, deadline c = Some d → mkEntry d id ∈ heap) → len heap ≤ total_weight (slots r1) + DEADLINE_COMPACTION_SLACK →
            Inv true (issue id g) None (set_deadlines heap r1) ∧ connection_mut (set_deadlines heap r1) id = Some c).
  { intros heap Hh1 Hh2 Hh3 Hh4. split; [|by rewrite (Hset id : connection_mut (set_deadlines heap r1) id = _), decide_True].
    split; [by destruct Hsl'| | |by apply (logs_open g r _ id c)].
    - intros i x Hx. change (connection_mut r1 i = Some x) in Hx. rewrite Hset in Hx. case_decide; [naive_solver|by eapply Hco].
    - split; [done| |done]. intros i d Hd. change (connection_mut r1 i ≫= deadline = Some d) in Hd. rewrite Hset in Hd.
      case_decide; [subst i; by apply Hh3|by apply Hh2, Hcov]. }
  destruct (deadline c) as [d|] eqn:Hd; cbn [push_deadline]; [apply wp_modify|apply wp_ret].
  - apply Hheap; [by apply heap_push_sorted|intros e He; apply heap_push_in; by right| |].
    + intros x [= <-]. apply heap_push_in. by left.
    + rewrite heap_push_len, Hw. change (deadlines r1) with (deadlines r). cbn. lia.
  - assert (r1 = set_deadlines (deadlines r) r1) as -> by done. apply Hheap; try done. rewrite Hw. cbn. lia.
Qed.

Lemma open_stream_still address : still (open_stream address).
Proof.
  unfold open_stream. repeat (apply still_bind; [apply still_ask || apply still_checked|intros]).
  repeat case_match; try apply still_ret; (apply still_bind; [apply still_ask|intros; apply still_fail]).
Qed.

Lemma connect_spec g r address d o i :
  Inv true g None r → 0 ≤ o → 0 ≤ i →
  wp (connect address d o i) (λ id r', Inv true (issue id g) None r' ∧ id ∉ issued g ∧ is_Some (connection_mut r' id))
    (λ _ r', Inv true g None r') r.
Proof.
  intros HI Ho Hi. unfold connect. apply wp_bind. eapply wp_mono; [exact (allocate_slot_spec g r HI)| |done].
  intros id r1 [HI1 Hv1]. apply (or_release_then g id); [|done].
  unfold allocate_token. apply wp_bind, wp_get. unfold checked_add. zcase; [|by apply wp_fail].
  apply wp_bind, wp_put, wp_ret. set (t := next_token r1). set (r2 := set_next_token (t + 1) r1).
  assert (Htok : ∀ t' x, tokens r1 !! t' = Some x → t' < t) by (intros t' x Hx; by apply (so_token _ _ (iv_slots _ _ _ _ HI1)) in Hx as []).
  assert (HI2 : Inv true g None r2).
  { destruct HI1 as [[? ? ? ? ? ? Htk ? ?] ? [] []]. split; try done; split; try done.
    intros t' x Hx. destruct (Htk t' x Hx) as [? ?]. split; [|done]. cbn. lia. }
  split_and!; [done|done|]. apply (or_release_then g id); [|done].
  eapply wp_mono; [exact (open_stream_still address r2)| |].
  2: { intros ? r3 Hs. split; [exact (same_inv _ _ _ _ _ Hs HI2)|exact (vacant_same _ _ _ _ Hs Hv1)]. }
  intros ? r3 Hs. split_and!; [exact (same_inv _ _ _ _ _ Hs HI2)|exact (vacant_same _ _ _ _ Hs Hv1)|].
  apply wp_bind, wp_modify, wp_bind. set (c := mkConnection _ _ _ _ _ _ _ _ _ _ _ _).
  eapply wp_mono; [apply (opened_inv g r3 id c); [exact (same_inv _ _ _ _ _ Hs HI2)|exact (vacant_same _ _ _ _ Hs Hv1)|..]| |].
  - destruct Hs as (? & ? & ->). cbn. destruct (tokens r1 !! t) eqn:Ht; [|done]. apply Htok in Ht. lia.
  - destruct Hs as (? & ? & ->). cbn. lia.
  - by split; [| |cbn; lia|].
  - done.
  - done.
  - intros ? r4 [HI4 Hc4]. apply wp_ret. split_and!; [done|apply Hv1|by eexists].
  - done.
Qed.
End inv.
