(* ===== verification/NativeReactorRuns.v ===== *)
(** * What the reactor guarantees

    Writing, reading and polling keep the invariant of the reactor
    ([NativeReactorProofs.v]); so does every call, and with it every sequence
    of calls. The theorems read the guarantees off it: slots are never reused,
    bytes are written in order and read in order, within the limits and the
    allowances, and every deadline is reported once. *)

From stdpp Require Import base list strings gmap sorting.
From Stdlib Require Import ZArith Lia.
From S2P Require Import Prelude Errors DnsCache DnsConfig NativeReactor NativeReactorProofs.

Import Reactor.

Section runs.
Context {tgt : Target} {sk : Sockets}.

(** ** Writing *)

Lemma live_issued z g h r id c : Inv z g h r → connection_mut r id = Some c → id ∈ issued g.
Proof. intros HI Hc. exact (so_live _ _ (iv_slots _ _ _ _ HI) _ _ Hc). Qed.

Lemma emit_spec z g h r e :
  Inv z g h r → event_slot e ∈ issued g → polling g = true →
  match e with Data _ _ => False | WriteDrained id => bytes_of id (sent r) = accepted g id | _ => True end →
  wp (emit e) (λ _ r', Inv z g h r' ∧ ∃ out, r' = set_output out r) (λ _ _, False) r.
Proof. intros HI He Hp Hd. apply wp_modify. split; [by apply emitted_inv|by eexists]. Qed.

Lemma fail_slot_spec g h r id f :
  Inv true g h r → id ∈ issued g → polling g = true →
  wp (fail_slot id f) (λ _ r', Inv true g h r' ∧ connection_mut r' id = None) (λ _ _, False) r.
Proof.
  intros HI Hin Hp. unfold fail_slot. apply wp_bind. eapply wp_mono; [exact (remove_spec g h r id HI)| |done].
  intros _ r1 [HI1 Hn]. eapply wp_mono; [by apply (emit_spec true g h)| |done]. by intros _ r2 [? [out ->]].
Qed.

Lemma fail_slot_then {T} g h r id c f (k : unit → RM T) Q R :
  Inv true g h r → polling g = true → connection_mut r id = Some c →
  (∀ r', Inv true g h r' → connection_mut r' id = None → wp (k tt) Q R r') → wp (fail_slot id f ≫= k) Q R r.
Proof.
  intros HI Hp Hc Hk. apply wp_bind.
  eapply wp_mono; [exact (fail_slot_spec g h r id f HI (live_issued _ _ _ _ _ _ HI Hc) Hp)| |done]. intros [] r' [HI' Hn]. by apply Hk.
Qed.

Lemma body_bytes_len c : body_ok c → len (body_bytes c) = body_len c.
Proof.
  unfold body_ok, body_bytes, body_len. destruct (body c) as [[[arc first] last]|]; [|done]. intros [? ?].
  unfold subrange, len in *. rewrite length_take, length_drop. lia.
Qed.
Lemma queued_len c : body_ok c → len (queued c) = outbound_len c.
Proof. intros Hb. unfold queued, outbound_len. by rewrite len_app, body_bytes_len. Qed.

Lemma consume_body n c :
  body_ok c → 0 < n ≤ outbound_len c →
  body_ok (consume n c) ∧ outbound_len (consume n c) = outbound_len c - n ∧ queued (consume n c) = drop (Z.to_nat n) (queued c).
Proof.
  intros Hb Hn. unfold consume, queued, body_bytes, body_ok, outbound_len, body_len in *. pose proof (len_nonneg (outbound c)).
  assert (Hdrop : ∀ m : Z, 0 ≤ m → len (drop (Z.to_nat m) (outbound c)) = Z.max 0 (len (outbound c) - m))
    by (intros m ?; unfold len; rewrite length_drop; lia).
  destruct (Z.min n (len (outbound c)) <? n) eqn:Hlt; cbn [outbound body set_queue]; rewrite Hdrop by lia.
  - apply Z.ltb_lt in Hlt. rewrite Z.min_r in * by lia.
    rewrite (drop_ge (outbound c)) by (unfold len; lia). rewrite (drop_app_ge (outbound c)) by (unfold len in *; lia).
    replace (Z.to_nat n - length (outbound c))%nat with (Z.to_nat (n - len (outbound c))) by (unfold len; lia).
    destruct (body c) as [[[arc first] last]|]; [|lia]. unfold subrange. zcase; (split; [lia|]; split; [lia|]).
    + rewrite drop_ge; [done|]. rewrite length_take. lia.
    + cbn [app]. rewrite Z2Nat.inj_add, <-drop_drop, take_drop_commute by lia. do 2 f_equal. lia.
  - apply Z.ltb_ge in Hlt. assert (n ≤ len (outbound c)) by lia. rewrite Z.min_l by lia. split_and!; [done|lia|]. by rewrite drop_app_le by (unfold len in *; lia).
Qed.

Lemma consume_ok n c :
  conn_ok c → 0 < n ≤ outbound_len c →
  conn_ok (consume n c) ∧ queued c = take (Z.to_nat n) (queued c) ++ queued (consume n c).
Proof.
  intros [Hb Hq Hr Ha] Hn. destruct (consume_body n c Hb Hn) as (Hb' & Hl & Hd). split.
  - split; [done| |done|done]. rewrite Hl. change (outbound_limit (consume n c)) with (outbound_limit c). lia.
  - by rewrite Hd, take_drop.
Qed.

Lemma reactor_write_loop_spec g id : ∀ writes c wrote r,
  Inv true g None r → polling g = true → connection_mut r id = Some c →
  wp (write_loop id writes c wrote)
    (λ o r', Inv true g None r' ∧ connection_mut r' id = (fst <$> o)) (λ _ _, False) r.
Proof.
  induction writes as [|[n|e] writes IH]; intros c wrote r HI Hp Hc; cbn [write_loop];
    (zcase; [by apply wp_ret|]); [by apply wp_ret| |].
  - pose proof (iv_conns _ _ _ _ HI _ _ Hc) as Hok. pose proof (queued_len c (co_body _ Hok)).
    unfold outbound_empty in Heqb. apply Z.eqb_neq in Heqb. pose proof (len_nonneg (queued c)). cbv zeta.
    set (m := Z.max 0 (Z.min n (outbound_len c))). zcase.
    + by apply (fail_slot_then g None r id c).
    + apply wp_bind, wp_modify, update_then. destruct (consume_ok m c Hok ltac:(lia)) as [Hok' Hq].
      destruct (deadline_kept true g None r id c (consume m c) HI Hc eq_refl) as [? ?].
      pose proof (reactor_update_inv true g None r id c (consume m c) [] (take (Z.to_nat m) (queued c)) HI Hc eq_refl Hok') as Hu.
      change (read_allowance (consume m c)) with (read_allowance c) in Hu.
      rewrite (accept_nil id), (grant_same _ _ _ _ _ _ HI Hc) in Hu.
      apply IH; [|done|by eapply updated_connection].
      destruct (take (Z.to_nat m) (queued c)) as [|x l] eqn:Htake.
      { exfalso. apply (f_equal length) in Htake. rewrite length_take in Htake. unfold len in *. cbn in *. lia. }
      apply Hu; [done|done|by rewrite app_nil_r|by left].
  - by apply (fail_slot_then g None r id c).
Qed.

Lemma flush_write_spec g r id :
  Inv true g None r → polling g = true → wp (flush_write id) (λ _ r', Inv true g None r') (λ _ _, False) r.
Proof.
  intros HI Hp. unfold flush_write. apply wp_bind, wp_get. destruct (connection_mut r id) as [c|] eqn:Hc; [|by apply wp_ret].
  zcase; [by apply wp_ret|]. apply ask_then. intros writes r1 Hs. apply wp_bind.
  assert (HI1 : Inv true g None r1) by exact (same_inv _ _ _ _ _ Hs HI).
  eapply wp_mono; [apply (reactor_write_loop_spec g id writes c 0 r1 HI1 Hp); by rewrite (same_connection _ _ _ Hs)| |done].
  intros [[c' wrote]|] r2 [HI2 Hc2]; [|by apply wp_ret]. cbn in Hc2. apply wp_bind.
  assert (Hin : id ∈ issued g) by (by eapply live_issued). zcase; [|zcase].
  - eapply wp_mono; [apply (emit_spec true g None r2 (WriteDrained id)); try done| |done].
    + pose proof (lo_sent _ _ _ (iv_logs _ _ _ _ HI2) id) as Hsent. rewrite Hc2 in Hsent.
      apply Z.eqb_eq in Heqb0. rewrite <-queued_len in Heqb0 by (by apply co_body, (iv_conns _ _ _ _ HI2 id)).
      apply len_zero in Heqb0. by rewrite Heqb0, app_nil_r in Hsent.
    + intros _ r3 [? _]. by apply wp_ret.
  - by apply wp_ret, wp_ret.
  - eapply wp_mono; [by apply (emit_spec true g None r2 (WriteProgress id wrote))| |done]. intros _ r3 [? _]. by apply wp_ret.
Qed.

(** ** Reading *)

Lemma remove_ext r id c c' :
  connection_mut r id = Some c → registered c' = registered c → token c' = token c →
  remove id (set_connection id (Some c') r) = remove id r.
Proof.
  intros Hc Hr Ht. unfold remove. unfold mbind, M_bind, get. rewrite (updated_connection r id c c' Hc), Hc, Hr, Ht.
  unfold modify. cbn -[set_connection]. replace (set_connection id None (set_connection id (Some c') r)) with (set_connection id None r); [done|].
  unfold set_connection. cbn. by rewrite list_insert_insert_eq.
Qed.

Lemma shrink_held_inv z g r id b b' :
  Inv z g (Some (id, b')) r → b `prefix_of` b' → connection_mut r id = None → Inv z g (Some (id, b)) r.
Proof.
  intros [[] Hc [] [? ? ? ? ? Hg]] Hb Hn. split; try done; split; try done. intros i. specialize (Hg i). cbn [held] in *.
  destruct (decide (id = i)) as [<-|]; [|done]. rewrite Hn in *. etrans; [|exact Hg]. by do 2 apply prefix_app.
Qed.

(** The connection is closed, and what was read from it is delivered, but for
    the bytes that exceed the limit. *)
Lemma close_reading g r id b b' f :
  Inv true g (Some (id, b')) r → b `prefix_of` b' → id ∈ issued g → polling g = true →
  wp (_ ← remove id; _ ← emit_data id b; emit (Failed id f)) (λ _, Inv true g None) (λ _ _, False) r.
Proof.
  intros HI Hb Hin Hp. apply wp_bind. eapply wp_mono; [exact (remove_spec _ _ r id HI)| |done]. intros _ r1 [HI1 Hn].
  apply wp_bind. eapply wp_mono; [apply (emit_data_inv true g); try done; by eapply shrink_held_inv| |done]. intros _ r2 [HI2 _].
  eapply wp_mono; [by apply (emit_spec true g None)| |done]. by intros _ r3 [? _].
Qed.

Lemma charge_then g h r id b c (k : bool → RM unit) Q R :
  Inv true g h r → h = Some (id, b) → polling g = true → connection_mut r id = Some c →
  (∀ r', same r r' → Inv true g h r' → wp (k true) Q R r') → (∀ r', Inv true g None r' → wp (k false) Q R r') →
  wp (charge id ≫= k) Q R r.
Proof.
  intros HI -> Hp Hc Hyes Hno. apply wp_bind. unfold charge. apply ask_then. intros [text|] r1 Hs.
  - apply (fail_slot_then g (Some (id, b)) r1 id c); [exact (same_inv _ _ _ _ _ Hs HI)|done|by rewrite (same_connection _ _ _ Hs)|].
    intros r2 HI2 Hn. apply wp_ret, Hno. by eapply drop_held_inv.
  - apply wp_ret. apply Hyes; [done|exact (same_inv _ _ _ _ _ Hs HI)].
Qed.

Lemma count_read_allowance n c :
  (∀ a, read_allowance c = Some a → n ≤ a) → read_allowance (count_read n c) = (λ a, a - n) <$> read_allowance c.
Proof.
  intros Ha. unfold count_read. cbn [read_allowance set_reading]. destruct (read_allowance c) as [a|]; [|done].
  specialize (Ha a eq_refl). cbn [fmap option_fmap option_map]. f_equal. unfold saturating_sub. lia.
Qed.

Lemma allowed_chunk c (bytes : list Z) :
  conn_ok c → let chunk := take (Z.to_nat (Z.min (default READ_CHUNK (read_allowance c)) READ_CHUNK)) bytes in
  ∀ a, read_allowance c = Some a → len chunk ≤ a.
Proof.
  intros Hok chunk a Ha. pose proof (co_allowance _ Hok a Ha). unfold chunk. rewrite Ha. cbn [default from_option].
  unfold len, id. rewrite length_take. unfold READ_CHUNK. lia.
Qed.

(** The state after [chunk] was read, with the counters kept in bounds when the
    limit is exceeded: the connection is then closed. *)
Lemma read_step z g r id c b chunk n :
  Inv z g (Some (id, b)) r → connection_mut r id = Some c → (∀ a, read_allowance c = Some a → len chunk ≤ a) →
  0 ≤ n ≤ receive_limit c →
  Inv z g (Some (id, b ++ chunk))
    (set_connection id (Some (set_reading n (receive_limit c) (read_allowance (count_read (len chunk) c)) c))
       (set_got (got r ++ [(id, chunk)]) r)).
Proof.
  intros HI Hc Ha Hn. pose proof (iv_conns _ _ _ _ HI _ _ Hc) as [? ? ? Hal].
  apply (got_inv z g r id c); try done; [|by apply count_read_allowance].
  split; try done. intros a. cbn [read_allowance set_reading]. rewrite count_read_allowance by done.
  intros (x & Hx & ->)%fmap_Some. specialize (Ha x Hx). lia.
Qed.

Lemma over_limit_spec g r id c b chunk :
  Inv true g (Some (id, b)) r → connection_mut r id = Some c → (∀ a, read_allowance c = Some a → len chunk ≤ a) → polling g = true →
  wp (_ ← remove id; _ ← emit_data id b; emit (Failed id receive_limit_exceeded)) (λ _, Inv true g None) (λ _ _, False)
    (set_connection id (Some (count_read (len chunk) c)) (set_got (got r ++ [(id, chunk)]) r)).
Proof.
  intros HI Hc Ha Hp. pose proof (iv_conns _ _ _ _ HI _ _ Hc) as [? ? ? Hal].
  pose proof (read_step true g r id c b chunk (receive_limit c) HI Hc Ha ltac:(lia)) as HI2.
  pose proof (close_reading g _ id b (b ++ chunk) receive_limit_exceeded HI2 (prefix_app_r _ _ _ (reflexivity b))
    (live_issued _ _ _ _ _ _ HI Hc) Hp) as Hw.
  unfold wpx, mbind, M_bind in *. rewrite (remove_ext (set_got _ r) id c) in Hw |- * by done. exact Hw.
Qed.

Lemma peer_closed_spec g r id c b :
  Inv true g (Some (id, b)) r → connection_mut r id = Some c → polling g = true →
  wp (_ ← update id (set_peer_read_closed true c); _ ← emit_data id b; emit (PeerClosed id))
    (λ _, Inv true g None) (λ _ _, False) r.
Proof.
  intros HI Hc Hp. pose proof (iv_conns _ _ _ _ HI _ _ Hc) as []. pose proof (live_issued _ _ _ _ _ _ HI Hc) as Hin.
  apply (plain_then true g (Some (id, b)) r id c); try done. intros r1 HI1 Hc1.
  apply wp_bind. eapply wp_mono; [by apply (emit_data_inv true g)| |done]. intros _ r2 [HI2 _].
  eapply wp_mono; [by apply (emit_spec true g None)| |done]. by intros _ r3 [? _].
Qed.

Lemma reactor_read_loop_spec g id bounded small budget : ∀ reads b allocated r,
  Inv true g (Some (id, b)) r → polling g = true → (bounded = false → b = []) →
  (b = [] ∨ ∃ c, connection_mut r id = Some c ∧ state c = State_Connected) → id ∈ issued g →
  wp (read_loop id bounded small budget reads b allocated) (λ _, Inv true g None) (λ _ _, False) r.
Proof.
  induction reads as [|[bytes|e] reads IH]; intros b allocated r HI Hp Hb Hlive Hin; cbn [read_loop];
    apply wp_bind, wp_get; cbv zeta.
  all: assert (Hemit : wp (emit_data id b) (λ _, Inv true g None) (λ _ _, False) r)
    by (eapply wp_mono; [by apply (emit_data_inv true g)|by intros _ r' [? _]|done]).
  all: zcase; [done|].
  all: destruct (connection_mut r id) as [c|] eqn:Hc;
    [|destruct Hlive as [->|(? & ? & _)]; [apply wp_ret; by apply (hold_inv true g r id)|done]].
  all: case_bool_decide as Hst; [|destruct Hlive as [->|(? & [= <-] & ?)]; [apply wp_ret; by apply (hold_inv true g r id)|done]].
  - done.
  - cbn [mbind option_bind]. pose proof (iv_conns _ _ _ _ HI _ _ Hc) as Hok. pose proof (allowed_chunk c bytes Hok) as Hal. cbv zeta in Hal.
    set (chunk := take _ bytes) in *. case_bool_decide as Hch.
    + by apply (peer_closed_spec g r id c b).
    + apply wp_bind, wp_modify, update_then. zcase; [by apply over_limit_spec|].
      assert (HI2 : Inv true g (Some (id, b ++ chunk)) (set_connection id (Some (count_read (len chunk) c)) (set_got (got r ++ [(id, chunk)]) r))).
      { apply (read_step true g r id c b chunk _ HI Hc Hal). pose proof (co_received _ Hok). pose proof (len_nonneg chunk).
        pose proof usize_bounds. unfold u32_max in *. cbn in *. unfold saturating_add in *. lia. }
      set (r2 := set_connection _ _ _) in *.
      assert (Hc2 : connection_mut r2 id = Some (count_read (len chunk) c)) by (by apply (updated_connection (set_got _ r) id c)).
      assert (Hnext : ∀ r', same r2 r' → ∃ c', connection_mut r' id = Some c' ∧ state c' = State_Connected)
        by (intros r' Hs; exists (count_read (len chunk) c); by rewrite (same_connection _ _ _ Hs)).
      destruct bounded.
      * assert (Hext : ∀ r', same r2 r' → Inv true g (Some (id, b ++ chunk)) r' →
          wp (extended ← charge id; if (extended : bool) then read_loop id true small budget reads (b ++ chunk) true else mret tt)
            (λ _, Inv true g None) (λ _ _, False) r').
        { intros r' Hs HI'. apply (charge_then g (Some (id, b ++ chunk)) r' id (b ++ chunk) (count_read (len chunk) c)); try done.
          - by rewrite (same_connection _ _ _ Hs).
          - intros r3 Hs3 HI3. apply IH; try done. right. apply Hnext. by transitivity r'. }
        zcase.
        -- apply (charge_then g (Some (id, b ++ chunk)) r2 id (b ++ chunk) (count_read (len chunk) c)); done.
        -- apply wp_bind, wp_ret. by apply Hext.
      * rewrite (Hb eq_refl) in *. cbn [app] in *.
        apply (charge_then g (Some (id, chunk)) r2 id chunk (count_read (len chunk) c)); try done.
        intros r3 Hs3 HI3. apply wp_bind. eapply wp_mono; [by apply (deliver_inv true g)| |done].
        intros ? r4 HI4. zcase; [by apply wp_ret|]. apply IH; try done; [by apply hold_inv|by left].
  - by apply (close_reading g r id b b).
Qed.

Lemma read_ready_spec g r id :
  Inv true g None r → polling g = true → id ∈ issued g → wp (read_ready id) (λ _, Inv true g None) (λ _ _, False) r.
Proof.
  intros HI Hp Hin. unfold read_ready. apply wp_bind, wp_get. cbv zeta. apply ask_then. intros reads r1 Hs.
  apply reactor_read_loop_spec; try done; [|by left]. apply hold_inv. exact (same_inv _ _ _ _ _ Hs HI).
Qed.

(** ** Polling *)

Lemma socket_error_still id : still (socket_error id).
Proof.
  intros r. unfold socket_error. apply wp_bind, wp_get. destruct (connection_mut r id); [|by apply wp_ret].
  apply ask_then. intros st r1 Hs. by apply wp_ret.
Qed.

Lemma finish_connect_spec g r id :
  Inv true g None r → polling g = true → wp (finish_connect id) (λ _, Inv true g None) (λ _ _, False) r.
Proof.
  intros HI Hp. unfold finish_connect. apply wp_bind, wp_get. destruct (connection_mut r id) as [c|] eqn:Hc; [|by apply wp_ret].
  zcase; [by apply wp_ret|]. apply ask_then. intros st r1 Hs. pose proof (same_inv _ _ _ _ _ Hs HI) as HI1.
  rewrite <-(same_connection _ _ _ Hs) in Hc. destruct st as [e|[e|]]; [by apply (fail_slot_then g None r1 id c)..|].
  pose proof (iv_conns _ _ _ _ HI1 _ _ Hc) as []. apply (plain_then true g None r1 id c); try done. intros r2 HI2 Hc2.
  apply wp_bind. eapply wp_mono; [apply (emit_spec true g None r2 (Connected id)); try done; by eapply live_issued| |done].
  intros ? r3 [? _]. by apply wp_ret.
Qed.

Lemma serve_keeps g r e : Inv true g None r → polling g = true → keeps (serve e) (Inv true g None) r.
Proof.
  intros HI Hp. destruct e as [id e]. unfold serve. apply wp_bind, wp_get. zcase; [|by apply wp_ret].
  assert (Hin : id ∈ issued g).
  { unfold contains in Heqb. destruct (connection_mut r id) eqn:Hc; [by eapply live_issued|done]. }
  assert (Hq : still (if error e then socket_error id else mret None)) by (destruct (error e); [apply socket_error_still|apply still_ret]).
  apply (still_then _ _ (Inv true g None)); [done|done|intros; by eapply same_inv| |done].
  intros [f|] r1 HI1; [eapply wp_mono; [by apply (fail_slot_spec g None)|by intros ? r2 [? _]|done]|].
  apply wp_bind, wp_bind, wp_get.
  assert (Hfin : wp (match connection_mut r1 id with
                     | Some c => if bool_decide (state c = State_Connecting) then finish_connect id else mret true
                     | None => mret true end) (λ _, Inv true g None) (λ _ _, False) r1).
  { destruct (connection_mut r1 id); [zcase; [by apply finish_connect_spec|]|]; by apply wp_ret. }
  eapply wp_mono; [exact Hfin| |done]. intros connected r2 HI2. zcase; [|by apply wp_ret].
  apply wp_bind. apply (wp_mono _ (λ _, Inv true g None) _ (λ _ _, False));
    [destruct (writable e); [by apply flush_write_spec|by apply wp_ret]| |done].
  intros flushed r3 HI3. zcase; [|by apply wp_ret].
  apply wp_bind. apply (wp_mono _ (λ _, Inv true g None) _ (λ _ _, False));
    [destruct (readable e); [by apply read_ready_spec|by apply wp_ret]| |done].
  intros ? r4 HI4. apply wp_bind, wp_get. zcase; [|by apply wp_ret]. unfold contains in Heqb2.
  destruct (connection_mut r4 id) as [c|] eqn:Hc; [|done].
  eapply wp_mono; [exact (reregister_spec true g None r4 id c HI4 Hc)|done|by intros ? r5 [? _]].
Qed.

Lemma serve_all_keeps g : ∀ ready r, Inv true g None r → polling g = true → keeps (serve_all ready) (Inv true g None) r.
Proof.
  induction ready as [|e ready IH]; intros r HI Hp; cbn [serve_all]; [by apply wp_ret|].
  apply wp_bind. eapply wp_mono; [by apply (serve_keeps g)| |done]. intros ? r1 HI1. by apply IH.
Qed.

Lemma now_then {T} (k : Z → RM T) Q R r :
  (∀ r', same r r' → wp (k (clock r')) Q R r') → wp (instant_now ≫= k) Q R r.
Proof.
  intros Hk. apply wp_bind. unfold wpx at 1, instant_now, ask. cbn.
  apply (Hk (set_clock (clock r + sk_tick (calls r)) (set_calls (S (calls r)) r))). by eexists _, _.
Qed.

Lemma poll_events_spec g r :
  Inv true g None r → polling g = true →
  wp poll_events (λ _ r', Inv true g None r' ∧ ∃ r1, Inv true g None r1 ∧ expired (clock r') r1 r') (λ _, Inv true g None) r.
Proof.
  intros HI Hp. unfold poll_events. apply wp_bind. eapply wp_mono; [exact (nearest_spec g None r HI)| |done].
  intros ? r1 (HI1 & _). apply (still_then _ _ (Inv true g None)); [apply still_now|done|intros; by eapply same_inv| |done].
  intros ? r2 HI2. apply ask_then. intros [e|ready] r3 Hs; pose proof (same_inv _ _ _ _ _ Hs HI2) as HI3; [by apply wp_fail|].
  apply wp_bind, wp_get, wp_bind. eapply wp_mono; [by apply (serve_all_keeps g)| |done].
  intros ? r4 HI4. unfold expire_deadlines. apply now_then. intros r5 Hs5. pose proof (same_inv _ _ _ _ _ Hs5 HI4) as HI5.
  apply wp_bind, wp_get. eapply wp_mono; [apply (expire_loop_spec g None (clock r5) _ r5 HI5 Hp); lia| |done].
  intros ? r6 [HI6 Hex]. split; [done|]. exists r5. split; [done|]. destruct Hex as [Hcl Hex]. rewrite Hcl. by split.
Qed.

Definition set_polling (b : bool) (g : Ghost) : Ghost := mkGhost (issued g) (accepted g) (settled g) (granted g) b (closed g).
(** A poll ended: its events are delivered, or lost. *)
Definition settle (bytes : SlotId → list Z) (g : Ghost) : Ghost := mkGhost (issued g) (accepted g) bytes (granted g) (polling g) (closed g).

Lemma start_polling g r : Inv true g None r → polling g = false → Inv true (set_polling true g) None (set_output [] r).
Proof.
  intros [[] ? [] [? ? ? ? ? Hg ? ? Hidle ?]] Hp. specialize (Hidle Hp). split; try done; split; try done; cbn [output set_output].
  - by intros ? ?%elem_of_nil.
  - intros id. specialize (Hg id). by rewrite Hidle in Hg.
  - by intros ? ?%elem_of_nil.
Qed.

Lemma end_polling g r bytes :
  Inv true (set_polling true g) None r → polling g = false → (∀ id, id ∉ issued g → bytes id = []) →
  (∀ id, match connection_mut r id with
         | Some _ => bytes id = bytes_of id (got r)
         | None => bytes id `prefix_of` bytes_of id (got r)
         end) → Inv true (settle bytes g) None (set_output [] r).
Proof.
  intros [[] ? [] [? ? ? Hl4 ? ? ? ? ? ?]] Hp Hu Hb. split; try done; split; try done; cbn [output set_output].
  - by intros ? ?%elem_of_nil.
  - intros id Hid. destruct (Hl4 id Hid) as (? & ? & ?). split_and!; [done|by apply Hu|done].
  - intros id. specialize (Hb id). cbn [data_of held settled settle]. unfold data_of. cbn. rewrite app_nil_r. by apply Hb.
  - by intros ? ?%elem_of_nil.
Qed.

Lemma poll_spec g r :
  Inv true g None r → polling g = false →
  wp poll (λ events r', Inv true (settle (λ id, settled g id ++ data_of id events) g) None r' ∧
             (∀ id, WriteDrained id ∈ events → bytes_of id (sent r') = accepted g id) ∧
             ∃ served r1, Inv true (set_polling true g) None r1 ∧ expired (clock r') r1 (set_output events r') ∧ output r1 = served)
    (λ _ r', Inv true (settle (λ id, bytes_of id (got r')) g) None r') r.
Proof.
  intros HI Hp. pose proof (poll_events_spec (set_polling true g) (set_output [] r) (start_polling g r HI Hp) eq_refl) as Hw.
  unfold wpx in Hw. unfold wpx, poll. destruct (poll_events (set_output [] r)) as [[[]|f| |] r1]; try done.
  - destruct Hw as (HI1 & r2 & HI2 & Hex). split_and!.
    + apply end_polling; [done|done| |].
      * intros id Hid. pose proof (iv_logs _ _ _ _ HI1) as Hl. destruct (unissued_logs _ _ id Hl Hid) as (_ & _ & ->).
        destruct (lo_ghost _ _ _ Hl id Hid) as (_ & Hse & _). cbn in Hse. by rewrite Hse.
      * intros id. pose proof (lo_got _ _ _ (iv_logs _ _ _ _ HI1) id) as Hg. cbn in Hg. by rewrite app_nil_r in Hg.
    + intros id Hid. exact (lo_drained _ _ _ (iv_logs _ _ _ _ HI1) id Hid).
    + exists (output r2), r2. split_and!; [done| |done]. by destruct r1.
  - apply end_polling; [done|done| |].
    + intros id Hid. by destruct (unissued_logs _ _ id (iv_logs _ _ _ _ Hw) Hid) as (_ & ? & _).
    + intros id. cbn. by destruct (connection_mut r1 id).
Qed.

Lemma remove_all_keeps g : ∀ ids r, Inv true g None r → keeps (remove_all ids) (Inv true g None) r.
Proof.
  induction ids as [|id ids IH]; intros r HI; cbn [remove_all]; [by apply wp_ret|].
  apply wp_bind. eapply wp_mono; [exact (remove_spec g None r id HI)| |done]. intros ? r1 [HI1 _]. by apply IH.
Qed.

(** ** Calls *)

(** The limits, windows and allowances are [usize]. *)
Definition call_ok (c : Call) : Prop :=
  match c with
  | Call_connect _ _ o i | Call_prepare_reuse _ _ o i => 0 ≤ o ∧ 0 ≤ i
  | Call_queue_body _ _ first _ => 0 ≤ first
  | Call_set_read_allowance _ (Some a) => 0 ≤ a
  | _ => True
  end.

(** The call took effect; it did, too, when it could not register the socket. *)
Definition took (o : outcome NativeFailure Reply) : bool :=
  match o with Ok _ => true | Err f => accepts f | _ => false end.
Definition finished (o : outcome NativeFailure Reply) : Prop := match o with Ok _ | Err _ => True | _ => False end.

(** The slot a call returned, and the bytes it accepted. *)
Definition slot_in (x : Call * outcome NativeFailure Reply) : option SlotId :=
  match x with (Call_connect _ _ _ _, Ok (Reply_slot id)) => Some id | _ => None end.
Definition accepted_in (x : Call * outcome NativeFailure Reply) : option (SlotId * list Z) :=
  if took x.2 then
    match x.1 with
    | Call_queue_write id bytes => Some (id, bytes)
    | Call_queue_body id arc first last => Some (id, subrange (arc_bytes arc) first last)
    | _ => None
    end
  else None.

(** The ghost state [g'] follows [g] after the calls [out]. *)
Record follows (g : Ghost) (out : list (Call * outcome NativeFailure Reply)) (g' : Ghost) : Prop := {
  fo_issued : issued g' = reverse (omap slot_in out) ++ issued g;
  fo_fresh : NoDup (omap slot_in out) ∧ ∀ id, id ∈ omap slot_in out → id ∉ issued g;
  fo_accepted : ∀ id, accepted g' id = accepted g id ++ bytes_of id (omap accepted_in out);
  fo_closed : closed g' = closed g;
  fo_polling : polling g' = polling g
}.

Lemma follows_nil g x :
  slot_in x = None → accepted_in x = None → ∀ g', issued g' = issued g → (∀ id, accepted g' id = accepted g id) →
  closed g' = closed g → polling g' = polling g → follows g [x] g'.
Proof.
  intros Hs Ha g' Hi Hacc Hc Hp. split; cbn; rewrite ?Hs, ?Ha; try done.
  - split; [constructor|]. by intros id ?%elem_of_nil.
  - intros id. by rewrite Hacc, app_nil_r.
Qed.

Lemma follows_app g g1 g2 out1 out2 : follows g out1 g1 → follows g1 out2 g2 → follows g (out1 ++ out2) g2.
Proof.
  intros [Hi1 [Hn1 Hf1] Ha1 Hc1 Hp1] [Hi2 [Hn2 Hf2] Ha2 Hc2 Hp2].
  assert (Hd : ∀ id, id ∈ omap slot_in out2 → id ∉ omap slot_in out1 ∧ id ∉ issued g).
  { intros id Hin%Hf2. rewrite Hi1, elem_of_app, elem_of_reverse in Hin. naive_solver. }
  split; rewrite ?omap_app; [|split| | |].
  - by rewrite Hi2, Hi1, reverse_app, app_assoc.
  - apply NoDup_app. split_and!; [done| |done]. intros id Hin1 Hin2. by apply Hd in Hin2 as [].
  - intros id [?|?]%elem_of_app; [by apply Hf1|by apply Hd].
  - intros id. rewrite Ha2, Ha1. unfold bytes_of. by rewrite filter_app, map_app, concat_app, app_assoc.
  - congruence.
  - congruence.
Qed.

(** A call ends in a good state. *)
Definition good (g : Ghost) (c : Call) (x : outcome NativeFailure Reply * NativeReactor) : Prop :=
  finished x.1 ∧ ∃ g', Inv true g' None x.2 ∧ follows g [(c, x.1)] g'.

Lemma call_good {T} (m : RM T) (reply : T → Reply) c g Q R r :
  wp m Q R r → (∀ a r', Q a r' → good g c (Ok (reply a), r')) → (∀ f r', R f r' → good g c (Err f, r')) →
  good g c ((x ← m; mret (reply x)) r).
Proof. intros Hw HQ HR. unfold wpx in Hw. unfold mbind, M_bind. destruct (m r) as [[a|f| |] r']; try done; [by apply HQ|by apply HR]. Qed.

Lemma keeps_good {T} (m : RM T) (reply : T → Reply) c g r :
  keeps m (Inv true g None) r → (∀ o, slot_in (c, o) = None ∧ accepted_in (c, o) = None) → good g c ((x ← m; mret (reply x)) r).
Proof.
  intros Hw Hn. eapply call_good; [exact Hw| |]; intros ? r' HI; (split; [done|]); exists g; (split; [exact HI|]); apply follows_nil; try done; apply Hn.
Qed.

Lemma accept_follows g c o id bytes :
  slot_in (c, o) = None → accepted_in (c, o) = Some (id, bytes) → follows g [(c, o)] (accept id bytes g).
Proof.
  intros Hs Ha. split; cbn -[slot_in accepted_in]; rewrite ?Hs, ?Ha; try done.
  - split; [constructor|]. by intros i ?%elem_of_nil.
  - intros i. unfold bytes_of. rewrite filter_cons, filter_nil. cbn. destruct (decide (i = id)) as [->|];
      [rewrite decide_True by done|rewrite decide_False by congruence]; cbn; by rewrite ?app_nil_r.
Qed.

Lemma granted_good g r r' c o id a :
  finished o → slot_in (c, o) = None → accepted_in (c, o) = None →
  Inv true (if took o then grant id a r g else g) None r' → good g c (o, r').
Proof. intros Hf Hs Ha HI. split; [done|]. eexists. split; [exact HI|]. apply follows_nil; try done; by destruct (took o). Qed.

Lemma accepted_good g r' c o id bytes :
  finished o → slot_in (c, o) = None → accepted_in (c, o) = (if took o then Some (id, bytes) else None) →
  Inv true (if took o then accept id bytes g else g) None r' → good g c (o, r').
Proof.
  intros Hf Hs Ha HI. split; [done|]. eexists. split; [exact HI|]. destruct (took o); [by apply accept_follows|by apply follows_nil].
Qed.

Lemma connect_good g r address d o i :
  Inv true g None r → 0 ≤ o → 0 ≤ i → good g (Call_connect address d o i) (run_call (Call_connect address d o i) r).
Proof.
  intros HI Ho Hi. eapply call_good; [exact (connect_spec g r address d o i HI Ho Hi)| |].
  - intros id r' (HI' & Hn & _). split; [done|]. eexists. split; [exact HI'|]. split; cbn; try done.
    + split; [apply NoDup_singleton|]. by intros x ->%list_elem_of_singleton.
    + intros x. by rewrite app_nil_r.
  - intros f r' HI'. split; [done|]. exists g. split; [exact HI'|]. apply follows_nil; try done. unfold accepted_in. by destruct (took _).
Qed.

Lemma poll_good g r : Inv true g None r → polling g = false → good g Call_poll (run_call Call_poll r).
Proof.
  intros HI Hp. eapply call_good; [exact (poll_spec g r HI Hp)| |].
  - intros events r' (HI' & _). split; [done|]. eexists. split; [exact HI'|]. by apply follows_nil.
  - intros f r' HI'. split; [done|]. eexists. split; [exact HI'|]. apply follows_nil; try done. unfold accepted_in. by destruct (took _).
Qed.

Lemma shutdown_keeps g r : Inv true g None r → keeps shutdown (Inv true g None) r.
Proof. intros HI. unfold shutdown. apply wp_bind, wp_get. by apply remove_all_keeps. Qed.

Lemma cancel_keeps g r id : Inv true g None r → keeps (cancel id) (Inv true g None) r.
Proof. intros HI. eapply wp_mono; [exact (remove_spec g None r id HI)| |done]. by intros ? r' [? _]. Qed.

Lemma plain_call c o :
  match c with Call_connect _ _ _ _ | Call_queue_write _ _ | Call_queue_body _ _ _ _ => False | _ => True end →
  slot_in (c, o) = None ∧ accepted_in (c, o) = None.
Proof. intros Hc. unfold accepted_in. by destruct c, (took _). Qed.

Lemma call_spec g c r : Inv true g None r → polling g = false → call_ok c → good g c (run_call c r).
Proof.
  intros HI Hp Hc. destruct c as [| |id arc first last0| | | | | | | | | | |]; cbn [call_ok] in Hc; cbn [run_call].
  - destruct Hc. by apply connect_good.
  - eapply call_good; [exact (queue_write_spec g r id bytes HI Hp)| |]; intros; by apply (accepted_good g _ _ _ id bytes).
  - eapply call_good; [exact (queue_body_spec g r id arc first last0 HI Hp Hc)| |]; intros;
      by apply (accepted_good g _ _ _ id (subrange (arc_bytes arc) first last0)).
  - apply keeps_good; [by apply set_body_budget_keeps|]. intros o. by apply plain_call.
  - apply keeps_good; [by apply set_outbound_limit_keeps|]. intros o. by apply plain_call.
  - apply keeps_good; [by apply shutdown_write_keeps|]. intros o. by apply plain_call.
  - eapply call_good; [apply (set_read_allowance_spec g r id allowance HI)| |].
    + by intros n ->.
    + intros. apply (granted_good g r _ _ _ id allowance); try done; by apply plain_call.
    + intros f r' HI'. apply (granted_good g r _ _ _ id allowance); try done; by apply plain_call.
  - apply keeps_good; [by apply set_deadline_keeps|]. intros o. by apply plain_call.
  - apply keeps_good; [by apply park_idle_keeps|]. intros o. by apply plain_call.
  - destruct Hc. eapply call_good; [by apply (prepare_reuse_spec g r)| |].
    + intros. by apply (granted_good g r _ _ _ id None).
    + intros f r' HI'. apply (granted_good g r _ _ _ id None); try done; by apply plain_call.
  - apply keeps_good; [by apply idle_is_quiet_keeps|]. intros o. by apply plain_call.
  - apply keeps_good; [by apply cancel_keeps|]. intros o. by apply plain_call.
  - by apply poll_good.
  - apply keeps_good; [by apply shutdown_keeps|]. intros o. by apply plain_call.
Qed.

(** ** Sequences of calls *)

Lemma run_spec : ∀ cs g r out r',
  Inv true g None r → polling g = false → Forall call_ok cs → run_calls cs r = (out, r') →
  Forall (λ x, finished x.2) out ∧ ∃ g', Inv true g' None r' ∧ follows g out g'.
Proof.
  induction cs as [|c cs IH]; intros g r out r' HI Hp Hok Hrun; cbn in Hrun.
  - injection Hrun as <- <-. split; [constructor|]. exists g. split; [done|]. split; cbn; try done.
    + split; [constructor|]. by intros id ?%elem_of_nil.
    + intros id. by rewrite app_nil_r.
  - apply Forall_cons in Hok as [Hc Hok]. pose proof (call_spec g c r HI Hp Hc) as [Hf (g1 & HI1 & Hfo)].
    destruct (run_call c r) as [o r1]. destruct (run_calls cs r1) as [out2 r2] eqn:Hr2. injection Hrun as <- <-.
    assert (Hp1 : polling g1 = false) by (by rewrite (fo_polling _ _ _ Hfo)).
    destruct (IH g1 r1 out2 r2 HI1 Hp1 Hok Hr2) as [Hf2 (g2 & HI2 & Hfo2)].
    split; [by constructor|]. exists g2. split; [done|]. by apply (follows_app g g1 g2 [(c, o)] out2).
Qed.

Definition no_history : Ghost := mkGhost [] (λ _, []) (λ _, []) (λ _, None) false [].

Lemma new_inv : Inv true no_history None new.
Proof.
  assert (Hn : ∀ id, connection_mut new id = None) by (intros id; unfold connection_mut, slot_of; by zcase).
  split.
  - split; cbn; try done; try (by constructor); try (by intros ? ?%elem_of_nil); intros id c; by rewrite Hn.
  - intros id c. by rewrite Hn.
  - split; cbn; [constructor| |done]. intros id d. unfold current_deadline. by rewrite Hn.
  - split; cbn; try done; try (by intros ? ?%elem_of_nil); try (by intros ? ? ?%elem_of_nil); intros id; rewrite ?Hn; done.
Qed.

Lemma run_new cs out r :
  Forall call_ok cs → run_calls cs new = (out, r) →
  Forall (λ x, finished x.2) out ∧ ∃ g, Inv true g None r ∧ polling g = false ∧ follows no_history out g.
Proof.
  intros Hok Hrun. destruct (run_spec _ _ _ _ _ new_inv eq_refl Hok Hrun) as [Hf (g & HI & Hfo)]. split; [done|].
  exists g. split_and!; [done|by rewrite (fo_polling _ _ _ Hfo)|done].
Qed.

(** Slots known to be closed. *)
Definition close_in (ids : list SlotId) (g : Ghost) : Ghost :=
  mkGhost (issued g) (accepted g) (settled g) (granted g) (polling g) ids.
Lemma closed_inv g r ids :
  Inv true g None r → (∀ id, id ∈ ids → id ∈ issued g ∧ connection_mut r id = None) → Inv true (close_in ids g) None r.
Proof. intros [[] ? [] []] Hids. by split; try done; split. Qed.

(** ** Guarantees *)

(** The slot a call is about, and what it does to one that is not open. *)
Definition target (c : Call) : option SlotId :=
  match c with
  | Call_connect _ _ _ _ | Call_poll | Call_shutdown => None
  | Call_queue_write id _ | Call_queue_body id _ _ _ | Call_set_body_budget id _ | Call_set_outbound_limit id _
  | Call_shutdown_write id | Call_set_read_allowance id _ | Call_set_deadline id _ | Call_park_idle id _
  | Call_prepare_reuse id _ _ _ | Call_idle_is_quiet id | Call_cancel id => Some id
  end.
Definition refused (c : Call) (r : NativeReactor) : Prop :=
  match c with
  | Call_cancel _ => run_call c r = (Ok (Reply_bool false), r)
  | _ => ∃ text, run_call c r = (Err (failure_internal text), r)
  end.

Lemma closed_refuses c r id : target c = Some id → connection_mut r id = None → refused c r.
Proof.
  intros Ht Hn. destruct c; cbn in Ht; try done; injection Ht as ->; cbn [refused run_call];
    try (eexists; unfold queue_write, queue_body, set_body_budget, set_outbound_limit, shutdown_write, set_read_allowance,
           set_deadline, park_idle, prepare_reuse, idle_is_quiet, require, mbind, M_bind, get; by rewrite Hn).
  unfold cancel, remove, mbind, M_bind, get. by rewrite Hn.
Qed.

(** C28: A slot id is given out at most once, whatever happened to the
    connections before; every open connection was given out; once a connection
    is closed its id stays closed, and every call on it is refused and changes
    nothing. No call panics or runs for ever. *)
Theorem slots_never_reused cs1 cs2 out1 out2 r1 r2 :
  Forall call_ok (cs1 ++ cs2) → run_calls cs1 new = (out1, r1) → run_calls cs2 r1 = (out2, r2) →
  Forall (λ x, finished x.2) (out1 ++ out2) ∧ NoDup (omap slot_in (out1 ++ out2)) ∧
  (∀ id c, connection_mut r2 id = Some c → id ∈ omap slot_in (out1 ++ out2)) ∧
  (∀ id, id ∈ omap slot_in out1 → connection_mut r1 id = None →
     connection_mut r2 id = None ∧ ∀ c, target c = Some id → refused c r2).
Proof.
  intros [Hok1 Hok2]%Forall_app Hr1 Hr2. destruct (run_new cs1 out1 r1 Hok1 Hr1) as [Hf1 (g1 & HI1 & Hp1 & Hfo1)].
  destruct (run_spec cs2 g1 r1 out2 r2 HI1 Hp1 Hok2 Hr2) as [Hf2 (g2 & HI2 & Hfo2)].
  destruct (follows_app _ _ _ _ _ Hfo1 Hfo2) as [His [Hnd _] _ _ _]. split_and!; [by apply Forall_app|done| |].
  - intros id c Hc. pose proof (live_issued _ _ _ _ _ _ HI2 Hc) as Hin. by rewrite His, app_nil_r, elem_of_reverse in Hin.
  - intros id Hid Hn.
    assert (HIc : Inv true (close_in [id] g1) None r1).
    { apply closed_inv; [done|]. intros x ->%list_elem_of_singleton. split; [|done].
      by rewrite (fo_issued _ _ _ Hfo1), app_nil_r, elem_of_reverse. }
    destruct (run_spec cs2 _ r1 out2 r2 HIc Hp1 Hok2 Hr2) as [_ (g3 & HI3 & Hfo3)].
    assert (Hn2 : connection_mut r2 id = None).
    { apply (so_closed _ _ (iv_slots _ _ _ _ HI3)). rewrite (fo_closed _ _ _ Hfo3). by left. }
    split; [done|]. intros c Hc. by eapply closed_refuses.
Qed.

(** C29: For every connection the bytes the socket took, followed by the bytes
    still queued, are the bytes the calls had accepted, in their order; the
    queue is within its limit. For a closed connection they are a prefix. When
    a poll reports that the output is drained, the socket has taken all of them. *)
Theorem written_in_order cs out r id :
  Forall call_ok cs → run_calls cs new = (out, r) →
  (match connection_mut r id with
   | Some c => bytes_of id (sent r) ++ queued c = bytes_of id (omap accepted_in out) ∧ len (queued c) ≤ outbound_limit c
   | None => bytes_of id (sent r) `prefix_of` bytes_of id (omap accepted_in out)
   end) ∧
  ∀ events r', poll r = (Ok events, r') → WriteDrained id ∈ events → bytes_of id (sent r') = bytes_of id (omap accepted_in out).
Proof.
  intros Hok Hrun. destruct (run_new cs out r Hok Hrun) as [_ (g & HI & Hp & Hfo)].
  assert (Ha : accepted g id = bytes_of id (omap accepted_in out)) by (by rewrite (fo_accepted _ _ _ Hfo)).
  pose proof (lo_sent _ _ _ (iv_logs _ _ _ _ HI) id) as Hs. rewrite Ha in Hs. split.
  - destruct (connection_mut r id) as [c|] eqn:Hc; [|done]. split; [done|].
    pose proof (iv_conns _ _ _ _ HI _ _ Hc) as [Hb Hq _ _]. by rewrite queued_len.
  - intros events r' Hpoll Hd. pose proof (wp_ok _ _ _ _ _ _ (poll_spec g r HI Hp) Hpoll) as (_ & Hdr & _). by rewrite Hdr.
Qed.

(** C30: What a poll delivers to an open connection is what the socket gave,
    in order and without a gap; a connection that is closed by the poll may
    lose the end of it. The poll reads no more than the connection's allowance,
    and an open connection is within its receive limit. *)
Theorem delivered_in_order cs out r events r' id c :
  Forall call_ok cs → run_calls cs new = (out, r) → poll r = (Ok events, r') → connection_mut r id = Some c →
  ∃ fresh, bytes_of id (got r') = bytes_of id (got r) ++ fresh ∧
    (∀ a, read_allowance c = Some a → len fresh ≤ a) ∧
    match connection_mut r' id with
    | Some c' => data_of id events = fresh ∧ 0 ≤ received c' ≤ receive_limit c'
    | None => data_of id events `prefix_of` fresh
    end.
Proof.
  intros Hok Hrun Hpoll Hc. destruct (run_new cs out r Hok Hrun) as [_ (g & HI & Hp & Hfo)].
  pose proof (wp_ok _ _ _ _ _ _ (poll_spec g r HI Hp) Hpoll) as (HI' & _).
  pose proof (iv_logs _ _ _ _ HI) as Hl. pose proof (iv_logs _ _ _ _ HI') as Hl'.
  pose proof (lo_got _ _ _ Hl id) as Hg. rewrite Hc, (lo_idle _ _ _ Hl Hp) in Hg. cbn in Hg. rewrite app_nil_r in Hg.
  pose proof (lo_got _ _ _ Hl' id) as Hg'. rewrite (lo_idle _ _ _ Hl' Hp) in Hg'. cbn [settled settle held data_of] in Hg'.
  change (data_of id []) with (@nil Z) in Hg'. cbn [app] in Hg'. rewrite app_nil_r, Hg in Hg'.
  assert (Hpre : bytes_of id (got r) ++ data_of id events `prefix_of` bytes_of id (got r'))
    by (destruct (connection_mut r' id); [by rewrite Hg'|done]).
  destruct Hpre as [rest Hrest]. rewrite <-app_assoc in Hrest. exists (data_of id events ++ rest). split_and!; [done| |].
  - intros a Ha. pose proof (lo_granted _ _ _ Hl id c Hc) as Hgr. rewrite Ha in Hgr. cbn in Hgr.
    pose proof (lo_budget _ _ _ Hl' id _ Hgr) as Hle. rewrite Hrest, len_app in Hle. lia.
  - destruct (connection_mut r' id) as [c'|] eqn:Hc'; [|by eexists]. split; [|by apply (iv_conns _ _ _ _ HI' _ _ Hc')].
    rewrite Hrest, app_assoc in Hg'. rewrite <-(app_nil_r (_ ++ data_of id events)) in Hg' at 1.
    apply app_inv_head in Hg'. by rewrite <-Hg', app_nil_r.
Qed.

(** The open connections. *)
Definition open_connections (r : NativeReactor) : Z := len (omap connection (slots r)).
Lemma weight_open l : total_weight l ≤ 2 * len (omap connection l).
Proof.
  induction l as [|s l IH]; [done|]. cbn [total_weight omap list_omap]. unfold weight.
  destruct (connection s) as [c|]; [|done]. rewrite len_cons. destruct (is_none _); cbn [omap] in *; lia.
Qed.

(** Between calls the heap of deadlines holds at most twice as many entries
    as connections are open, and 64 more, although entries go stale; the
    nearest deadline it yields is the earliest deadline of an open connection.
    A poll reports the deadlines that have passed, each once, after its other
    events, and clears them: no open connection is left with a deadline in the past. *)
Theorem deadlines_exact cs out r :
  Forall call_ok cs → run_calls cs new = (out, r) →
  len (deadlines r) ≤ 2 * open_connections r + 64 ∧
  (∃ d r', nearest_deadline r = (Ok d, r') ∧ earliest_deadline r d) ∧
  ∀ events r', poll r = (Ok events, r') →
    ∃ served ids, events = served ++ map DeadlineExpired ids ∧ NoDup ids ∧
      (∀ id, id ∈ ids → current_deadline r' id = None) ∧
      ∀ id d, current_deadline r' id = Some d → clock r' < d.
Proof.
  intros Hok Hrun. destruct (run_new cs out r Hok Hrun) as [_ (g & HI & Hp & Hfo)]. split_and!.
  - pose proof (ho_size _ _ (iv_heap _ _ _ _ HI) eq_refl) as Hsz. pose proof (weight_open (slots r)).
    unfold open_connections, DEADLINE_COMPACTION_SLACK in *. lia.
  - pose proof (nearest_spec g None r HI) as Hn. unfold wpx in Hn. destruct (nearest_deadline r) as [[d|f| |] r']; try done.
    exists d, r'. by destruct Hn as (_ & _ & _ & _ & ?).
  - intros events r' Hpoll. pose proof (wp_ok _ _ _ _ _ _ (poll_spec g r HI Hp) Hpoll) as (_ & _ & served & r1 & _ & Hex & <-).
    destruct Hex as (_ & ids & Ho & Hnd & Hin & Hcd & _). exists (output r1), ids. split_and!; [done|done| |].
    + intros id Hid. specialize (Hcd id). by rewrite decide_True in Hcd.
    + intros id d Hd. specialize (Hcd id). change (current_deadline r' id = Some d) in Hd.
      change (current_deadline (set_output events r') id) with (current_deadline r' id) in Hcd. case_decide as Hi; [by rewrite Hd in Hcd|].
      destruct (Z.lt_ge_cases (clock r') d) as [?|Hle]; [done|]. exfalso. apply Hi, Hin. exists d. split; [|done].
      rewrite <-Hcd. exact Hd.
Qed.
End runs.

(** ** Witnesses *)

#[local] Existing Instance target64.

(** Every socket connects, takes three bytes at a time and gives three. *)
#[local] Program Instance steady_sockets : Sockets := {|
  sk_tick := λ _, 5;
  sk_connect := λ _ _, None;
  sk_register := λ _, None;
  sk_take_error := λ _, inr None;
  sk_poll := λ _, inr [mkReady 1 true true false; mkReady 2 true true false];
  sk_write := λ _, [Wrote 3];
  sk_read := λ _, [ReadBytes [7; 8; 9]];
  sk_peek := λ _, PeekBlocks;
  sk_shutdown := λ _, None;
  sk_charge := λ _, None;
  arc_bytes := λ _, [11; 12; 13];
  budget_is_limited := λ _, false
|}.
Next Obligation. lia. Qed.

#[local] Notation address := (Config.mkSocketAddr (V4 10 0 0 1) 80 0 0).
#[local] Notation first_slot := (mkSlotId 0 1).
#[local] Notation script1 :=
  [Call_connect address (Some 3) 8 100; Call_poll; Call_queue_write first_slot [1; 2; 3; 4];
   Call_queue_body first_slot 0 1 2; Call_set_read_allowance first_slot (Some 2); Call_set_deadline first_slot (Some 23);
   Call_poll; Call_queue_body first_slot 0 2 3].
#[local] Notation script2 := [Call_connect address (Some 70) 8 100; Call_queue_write first_slot [1]].
#[local] Notation run cs r := (run_calls cs r).
#[local] Notation ran := (run script1 new).

Lemma script1_ok : Forall call_ok script1.
Proof. by repeat constructor. Qed.
Lemma scripts_ok : Forall call_ok ((script1 ++ [Call_cancel first_slot]) ++ script2).
Proof. by repeat constructor. Qed.

Example script1_runs :
  omap slot_in ran.1 = [first_slot] ∧ sent ran.2 = [(first_slot, [1; 2; 3])] ∧
  queued <$> connection_mut ran.2 first_slot = Some [4; 12; 13] ∧ active_count ran.2 = 1.
Proof. vm_compute. by split_and!. Qed.

Lemma slots_never_reused_witness :
  connection_mut (run (script1 ++ [Call_cancel first_slot]) new).2 first_slot = None ∧
  refused (Call_queue_write first_slot [1]) (run script2 (run (script1 ++ [Call_cancel first_slot]) new).2).2.
Proof.
  destruct (slots_never_reused _ script2 _ _ _ _ scripts_ok (surjective_pairing _) (surjective_pairing _)) as (_ & _ & _ & H).
  split; [vm_compute; reflexivity|]. apply (H first_slot); [|vm_compute; reflexivity|reflexivity].
  vm_compute. apply list_elem_of_singleton. reflexivity.
Defined.

Lemma written_in_order_witness :
  bytes_of first_slot (omap accepted_in ran.1) = [1; 2; 3; 4; 12; 13] ∧
  bytes_of first_slot (sent ran.2) `prefix_of` bytes_of first_slot (omap accepted_in ran.1).
Proof.
  split; [vm_compute; reflexivity|].
  destruct (written_in_order script1 _ _ first_slot script1_ok (surjective_pairing _)) as [H _]. revert H.
  generalize (connection_mut ran.2 first_slot). intros [c|] H; [|exact H]. destruct H as [<- _]. exists (queued c). reflexivity.
Defined.

(** The allowance of two bytes was used up by the last poll. *)
Lemma script1_polls :
  match (poll ran.2).1 with Ok events => DeadlineExpired first_slot ∈ events | _ => False end ∧
  (connection_mut ran.2 first_slot ≫= read_allowance) = Some 0.
Proof. vm_compute. split; [right; left|reflexivity]. Qed.

Lemma delivered_in_order_witness :
  match poll ran.2 with
  | (Ok events, r') => ∃ fresh, bytes_of first_slot (got r') = bytes_of first_slot (got ran.2) ++ fresh ∧ len fresh ≤ 0
  | _ => False
  end.
Proof.
  destruct script1_polls as [Hp Ha]. destruct (poll ran.2) as [[events|f| |] r'] eqn:Hpoll; try exact Hp.
  apply bind_Some in Ha as (c & Hc & Ha).
  destruct (delivered_in_order script1 _ _ _ _ first_slot c script1_ok (surjective_pairing _) Hpoll Hc) as (fresh & Hf & Hle & _).
  exists fresh. split; [exact Hf|exact (Hle 0 Ha)].
Defined.

Lemma deadlines_exact_witness :
  len (deadlines ran.2) ≤ 2 * open_connections ran.2 + 64 ∧
  match poll ran.2 with
  | (Ok events, r') => DeadlineExpired first_slot ∈ events ∧ ∀ d, current_deadline r' first_slot = Some d → clock r' < d
  | _ => False
  end.
Proof.
  destruct (deadlines_exact script1 _ _ script1_ok (surjective_pairing _)) as (Hlen & _ & H).
  split; [exact Hlen|]. destruct script1_polls as [Hp _]. destruct (poll ran.2) as [[events|f| |] r']; try exact Hp.
  destruct (H events r' eq_refl) as (served & ids & _ & _ & _ & Hd). split; [exact Hp|exact (Hd first_slot)].
Defined.
