(* ===== verification/BodyBudget.v ===== *)
(** * Buffered-body memory accounting ([src/body_budget.rs])

    The Engine owns one [BodyBudget]; every [Arc<BodyBudget>] in a buffer or a
    permit points to it, so it is threaded as a state and an
    [Option<Arc<BodyBudget>>] is the flag saying whether the buffer is
    charged. [Budget] is the single-threaded behaviour of the operations, and
    [Concurrent] the compare-and-exchange loop of [acquire] under an arbitrary
    interleaving of threads. *)

From stdpp Require Import base list strings.
From Stdlib Require Import ZArith Lia.
From S2P Require Import Prelude Errors.

(** The growth policy of [Vec]: the standard library leaves it open, and
    promises only that the new capacity is enough. *)
Class VecAlloc := {
  grow_capacity : Z → Z → Z;
  grow_capacity_ok : ∀ old needed, needed ≤ grow_capacity old needed
}.

Definition doubling : VecAlloc.
Proof. refine {| grow_capacity := λ old needed, Z.max (2 * old) needed |}. lia. Defined.

Module Budget.

Record BodyBudget := mkBudget {
  limit : option Z;
  used : Z;
  peak : Z
}.

(** A permit is the number of bytes charged. *)
Record BodyPermit := mkPermit { permit_bytes : Z }.

Record BodyBuffer := mkBuffer {
  bytes : list Z;
  vec_capacity : Z;
  permit : option BodyPermit;
  budgeted : bool;
  future : option BodyPermit;
  planned_capacity : Z
}.

Definition set_bytes (f : list Z → list Z) (b : BodyBuffer) : BodyBuffer :=
  mkBuffer (f (bytes b)) (vec_capacity b) (permit b) (budgeted b) (future b) (planned_capacity b).

Definition budget_new (limit : option Z) : BodyBudget := mkBudget limit 0 0.

Section with_target.
Context {tgt : Target} {alloc : VecAlloc}.

Definition exhausted : Error :=
  error_limit LimitKind.BufferedBodyBytes "aggregate buffered HTTP body capacity exhausted".

(** [used.checked_add(bytes).filter(|next| limit.is_none_or(|l| *next <= l))] *)
Definition admitted (limit : option Z) (used bytes : Z) : option Z :=
  match checked_add usize_max used bytes with
  | Some next =>
      match limit with
      | None => Some next
      | Some l => if next <=? l then Some next else None
      end
  | None => None
  end.

(** [BodyBudget::acquire] with no other thread between its load and its
    compare-and-exchange. *)
Definition acquire (n : Z) : M BodyBudget Error BodyPermit :=
  if n =? 0 then mret (mkPermit 0)
  else
    b ← get;
    next ← lift (ok_or (admitted (limit b) (used b) n) exhausted);
    _ ← put (mkBudget (limit b) next (Z.max (peak b) next));
    mret (mkPermit n).

(** [Drop for BodyPermit]: [fetch_sub] wraps around. *)
Definition refund (p : BodyPermit) (b : BodyBudget) : BodyBudget :=
  mkBudget (limit b) ((used b - permit_bytes p) mod (usize_max + 1)) (peak b).
Definition refund_option (p : option BodyPermit) (b : BodyBudget) : BodyBudget :=
  match p with Some p => refund p b | None => b end.

Definition is_limited (b : BodyBudget) : bool :=
  match limit b with Some _ => true | None => false end.

(** ** Buffers

    Methods of [BodyBuffer] run on the buffer and the shared budget. *)

Definition default_buffer : BodyBuffer := mkBuffer [] 0 None false None 0.
Definition buffer_new (budget : bool) : BodyBuffer := mkBuffer [] 0 None budget None 0.
Definition from_vec (v : list Z) (cap : Z) : BodyBuffer := mkBuffer v cap None false None 0.

Definition buffer_admit (v : list Z) (cap : Z) : M BodyBudget Error BodyBuffer :=
  p ← acquire cap;
  mret (mkBuffer v cap (Some p) true None 0).

Definition MB := M (BodyBuffer * BodyBudget) Error.

(** Run a budget operation from a buffer method. *)
Definition on_budget {A} (m : M BodyBudget Error A) : MB A := λ '(buf, bud),
  let '(r, bud') := m bud in (r, (buf, bud')).

Definition check_capacity (capacity : Z) : outcome Error unit :=
  if isize_max <? capacity
  then Err (error_limit LimitKind.BufferedBodyBytes
              "buffered HTTP capacity exceeds the addressable allocation size")
  else Ok tt.

Definition plan_capacity (capacity : Z) : MB unit :=
  _ ← lift (check_capacity capacity);
  '(buf, _) ← get;
  if budgeted buf then
    p ← on_budget (acquire capacity);
    (* the old reservation is dropped by the assignment *)
    modify (λ '(buf, bud),
      (mkBuffer (bytes buf) (vec_capacity buf) (permit buf) (budgeted buf) (Some p) capacity,
       refund_option (future buf) bud))
  else mret tt.

(** The permit for a new allocation of [capacity] bytes: the reservation,
    topped up when it is too small, or else a new one. *)
Definition take_permit (capacity : Z) : MB (option BodyPermit) :=
  '(buf, _) ← get;
  match future buf with
  | Some reserved =>
      _ ← (if permit_bytes reserved <? capacity then
             _ ← on_budget (acquire (capacity - permit_bytes reserved));
             (* [additional.bytes = 0]: its charge moves into the reservation *)
             modify (λ '(buf, bud),
               (mkBuffer (bytes buf) (vec_capacity buf) (permit buf) (budgeted buf)
                  (Some (mkPermit capacity)) (planned_capacity buf), bud))
           else mret tt);
      '(buf, bud) ← get;
      _ ← put (mkBuffer (bytes buf) (vec_capacity buf) (permit buf) (budgeted buf)
                 None (planned_capacity buf), bud);
      mret (future buf)
  | None =>
      if budgeted buf then p ← on_budget (acquire capacity); mret (Some p) else mret None
  end.

Definition reserve_capacity (capacity : Z) : MB unit :=
  '(buf, _) ← get;
  let capacity := Z.max capacity (planned_capacity buf) in
  _ ← lift (check_capacity capacity);
  if capacity <=? vec_capacity buf then mret tt
  else
    new_permit ← take_permit capacity;
    '(buf, bud) ← get;
    (* [bytes[..self.bytes.len()]] of the new allocation *)
    if capacity <? len (bytes buf) then panic
    else
      put (mkBuffer (bytes buf) capacity new_permit (budgeted buf) (future buf) 0,
           refund_option (permit buf) bud).

(** [Vec::extend_from_slice]: reallocates only when the capacity is too
    small; a capacity above [isize::MAX] panics. *)
Definition vec_extend (more : list Z) : MB unit :=
  '(buf, bud) ← get;
  let needed := len (bytes buf) + len more in
  if needed <=? vec_capacity buf
  then put (set_bytes (λ v, v ++ more) buf, bud)
  else if isize_max <? needed then panic
  else put (mkBuffer (bytes buf ++ more) (grow_capacity (vec_capacity buf) needed)
              (permit buf) (budgeted buf) (future buf) (planned_capacity buf), bud).

Definition staging_exceeded : Error :=
  error_limit LimitKind.BufferedBodyBytes "buffered HTTP staging capacity exceeded".

Definition extend (more : list Z) (ceiling : Z) : MB unit :=
  '(buf, _) ← get;
  needed ← lift (ok_or (match checked_add usize_max (len (bytes buf)) (len more) with
                        | Some n => if n <=? ceiling then Some n else None
                        | None => None
                        end) staging_exceeded);
  if negb (budgeted buf) then vec_extend more
  else
    _ ← (if vec_capacity buf <? needed then
           let capacity :=
             if negb (planned_capacity buf =? 0) then Z.max (planned_capacity buf) needed
             else Z.min (Z.max (Z.max needed
                           (saturating_mul usize_max (vec_capacity buf) 2)) 4096) ceiling in
           reserve_capacity capacity
         else mret tt);
    vec_extend more.

Definition push (byte : Z) (ceiling : Z) : MB unit :=
  '(buf, _) ← get;
  if (len (bytes buf) <? vec_capacity buf) || negb (budgeted buf)
  then vec_extend [byte]
  else extend [byte] ceiling.

(** Dropping a buffer, and [into_vec], which keeps the allocation: both drop
    the permit and the reservation. *)
Definition drop_buffer (buf : BodyBuffer) (bud : BodyBudget) : BodyBudget :=
  refund_option (future buf) (refund_option (permit buf) bud).
Definition into_vec (buf : BodyBuffer) (bud : BodyBudget) : list Z * BodyBudget :=
  (bytes buf, drop_buffer buf bud).

End with_target.
End Budget.

(** ** Threads

    Each thread that calls [acquire] loads [used], computes the next value and
    tries to exchange it; [compare_exchange_weak] may also fail spuriously.
    After a successful exchange it still has to raise [peak]. Permits are
    dropped by whoever owns them by then, so the outstanding ones are kept in
    one pool. *)
Module Concurrent.
Import Budget.

Inductive pc :=
| Idle
| Trying (n snapshot : Z)
| Publishing (n next : Z).

Record world := mkWorld {
  w_limit : option Z;
  w_used : Z;
  w_peak : Z;
  pcs : list pc;
  permits : list Z
}.

Definition initial (limit : option Z) (threads : nat) : world :=
  mkWorld limit 0 0 (replicate threads Idle) [].

Section with_target.
Context {tgt : Target}.

Inductive step : world → world → Prop :=
(* [bytes == 0] returns at once *)
| step_zero l u k ps qs i :
    ps !! i = Some Idle →
    step (mkWorld l u k ps qs) (mkWorld l u k ps (0 :: qs))
(* [self.used.load] *)
| step_load l u k ps qs i n :
    ps !! i = Some Idle → 0 < n →
    step (mkWorld l u k ps qs) (mkWorld l u k (<[i:=Trying n u]> ps) qs)
(* the [ok_or_else] error *)
| step_refuse l u k ps qs i n snapshot :
    ps !! i = Some (Trying n snapshot) → admitted l snapshot n = None →
    step (mkWorld l u k ps qs) (mkWorld l u k (<[i:=Idle]> ps) qs)
(* [compare_exchange_weak] stores [next] *)
| step_exchange l u k ps qs i n next :
    ps !! i = Some (Trying n u) → admitted l u n = Some next →
    step (mkWorld l u k ps qs) (mkWorld l next k (<[i:=Publishing n next]> ps) qs)
(* it fails and gives the value it saw *)
| step_retry l u k ps qs i n snapshot next :
    ps !! i = Some (Trying n snapshot) → admitted l snapshot n = Some next →
    step (mkWorld l u k ps qs) (mkWorld l u k (<[i:=Trying n u]> ps) qs)
(* [self.peak.fetch_max(next)], and the permit is returned *)
| step_publish l u k ps qs i n next :
    ps !! i = Some (Publishing n next) →
    step (mkWorld l u k ps qs) (mkWorld l u (Z.max k next) (<[i:=Idle]> ps) (n :: qs))
(* [Drop for BodyPermit] *)
| step_drop l u k ps qs1 p qs2 :
    step (mkWorld l u k ps (qs1 ++ p :: qs2))
         (mkWorld l ((u - p) mod (usize_max + 1)) k ps (qs1 ++ qs2)).

End with_target.
End Concurrent.
