(* ===== verification/BodyBudgetProofs.v ===== *)
(** * Correctness of the buffered-body accounting

    A charged buffer pays for exactly its allocation plus its outstanding
    reservation, a failed operation changes nothing, and the concurrent
    [acquire] loop never lets the total exceed the limit. *)

From stdpp Require Import base list strings relations.
From Stdlib Require Import ZArith Lia.
From S2P Require Import Prelude Errors BodyBudget.
Import Budget.

Section accounting.
Context {tgt : Target} {alloc : VecAlloc}.

Definition permit_charge (p : option BodyPermit) : Z := from_option permit_bytes 0 p.
Definition charge (buf : BodyBuffer) : Z := permit_charge (permit buf) + permit_charge (future buf).

(** The budget: within [usize], within its limit, and [peak] is a high-water
    mark. *)
Definition wf_budget (b : BodyBudget) : Prop :=
  0 ≤ used b ≤ peak b ∧ peak b ≤ usize_max ∧
  match limit b with Some l => peak b ≤ l | None => True end.

(** A buffer: a charged one pays for its capacity, and remembers what it
    planned; an uncharged one holds no permit. *)
Definition wf_buffer (buf : BodyBuffer) : Prop :=
  len (bytes buf) ≤ vec_capacity buf ∧
  0 ≤ permit_charge (permit buf) ∧ 0 ≤ permit_charge (future buf) ∧
  if budgeted buf
  then permit_charge (permit buf) = vec_capacity buf ∧
       planned_capacity buf = permit_charge (future buf)
  else permit buf = None ∧ future buf = None ∧ planned_capacity buf = 0.

(** [others] is what all other owners are charged. *)
Definition inv (others : Z) (s : BodyBuffer * BodyBudget) : Prop :=
  0 ≤ others ∧ wf_buffer (fst s) ∧ wf_budget (snd s) ∧ used (snd s) = others + charge (fst s).

Lemma admitted_inv l u n next :
  admitted l u n = Some next →
  next = u + n ∧ next ≤ usize_max ∧ match l with Some l => next ≤ l | None => True end.
Proof.
  unfold admitted, checked_add. zcase; [|done]. destruct l as [l|]; [zcase; [|done]|];
    intros [= <-]; lia.
Qed.

(** [acquire] charges exactly [n], or fails and changes nothing. *)
Lemma acquire_spec n b :
  0 ≤ n → wf_budget b →
  wp (acquire n)
    (λ p b', permit_bytes p = n ∧ wf_budget b' ∧ used b' = used b + n ∧ limit b' = limit b)
    (λ e b', e = exhausted ∧ b' = b) b.
Proof.
  intros Hn (Hu & Hp & Hl). unfold acquire. zcase; wp_go; [subst; by repeat split; try lia|].
  apply owp_ok_or; [|done]. intros next (-> & Hmax & Hlim)%admitted_inv. wp_go.
  repeat split; cbn; try lia. destruct (limit b); lia.
Qed.

Lemma refund_spec p b :
  0 ≤ permit_charge p ≤ used b → wf_budget b →
  wf_budget (refund_option p b) ∧ used (refund_option p b) = used b - permit_charge p ∧
  limit (refund_option p b) = limit b.
Proof.
  intros Hp (Hu & Hpk & Hl). destruct p as [p|]; cbn in *; [|by repeat split; try lia].
  unfold wf_budget; cbn. rewrite !Z.mod_small by lia. repeat split; try lia; auto.
Qed.

Lemma on_budget_wp {A} (m : M BodyBudget Error A) Q R buf bud :
  wp m (λ a b', Q a (buf, b')) (λ e b', R e (buf, b')) bud → wp (on_budget m) Q R (buf, bud).
Proof. unfold wpx, on_budget. by destruct (m bud) as [[] ?]. Qed.

Definition unchanged (s : BodyBuffer * BodyBudget) (_ : Error) (s' : BodyBuffer * BodyBudget) : Prop :=
  s' = s.

Lemma plan_capacity_spec others n s :
  inv others s → 0 ≤ n →
  wp (plan_capacity n)
    (λ _ s', inv others s' ∧ bytes (fst s') = bytes (fst s) ∧ budgeted (fst s') = budgeted (fst s) ∧
             vec_capacity (fst s') = vec_capacity (fst s))
    (unchanged s) s.
Proof.
  destruct s as [buf bud]. intros Hinv Hn. destruct (Hinv) as (Ho & Hb & Hbud & Hused).
  unfold plan_capacity. wp_go.
  unfold check_capacity. zcase; wp_go; [done|]. cbn [fst snd] in *.
  destruct (budgeted buf) eqn:Hbg; wp_go; [|by split_and!].
  apply on_budget_wp. eapply wp_mono; [by apply acquire_spec| |by intros e b' [_ ->]].
  cbn beta. intros [pb] b' (Hpb & Hwf & Hub & Hlim). cbn in Hpb. subst pb. wp_go.
  destruct Hb as (Hlen & Hpc & Hfc & Hrest). rewrite Hbg in Hrest. unfold charge in *.
  destruct (refund_spec (future buf) b') as (Hwf' & Hu' & _); [lia|done|].
  unfold inv, wf_buffer, charge. cbn [fst snd bytes vec_capacity permit budgeted future planned_capacity].
  rewrite Hbg, Hu'. cbn. split_and!; try done; try tauto; lia.
Qed.

(** The permit taken for an allocation covers it exactly, and what it adds to
    the budget is what the buffer no longer holds as a reservation. *)
Lemma take_permit_spec others n s :
  inv others s → permit_charge (future (fst s)) ≤ n →
  wp (take_permit n)
    (λ p s', wf_budget (snd s') ∧
       used (snd s') = others + permit_charge (permit (fst s)) + permit_charge p ∧
       (if budgeted (fst s) then permit_charge p = n else p = None) ∧
       fst s' = mkBuffer (bytes (fst s)) (vec_capacity (fst s)) (permit (fst s))
                  (budgeted (fst s)) None (planned_capacity (fst s)))
    (unchanged s) s.
Proof.
  destruct s as [[v cap p bg f pl] bud]. intros (Ho & Hb & Hbud & Hused) Hn.
  destruct Hb as (Hlen & Hpc & Hfc & Hrest). unfold take_permit, charge in *.
  cbn [fst snd bytes vec_capacity permit budgeted future planned_capacity] in *. wp_go.
  destruct f as [[r]|]; cbn in Hn, Hfc, Hused; cbn [future budgeted].
  - destruct bg; [|by destruct Hrest as (_ & ? & _)]. wp_go. zcase; wp_go.
    + apply on_budget_wp. cbn [permit_bytes] in *.
      eapply wp_mono; [apply acquire_spec; [lia|done]| |by intros e b' [_ ->]].
      cbn beta. intros q b' (_ & Hwf & Hub & _). wp_go. cbn. split_and!; try done; lia.
    + cbn [permit_bytes] in *. cbn. split_and!; try done; lia.
  - destruct bg; wp_go.
    + apply on_budget_wp. eapply wp_mono; [apply acquire_spec; [lia|done]| |by intros e b' [_ ->]].
      cbn beta. intros [q] b' (Hq & Hwf & Hub & _). cbn in Hq. wp_go. cbn.
      split_and!; try done; lia.
    + cbn. split_and!; try done; lia.
Qed.

Lemma reserve_capacity_spec others n s :
  inv others s → 0 ≤ n →
  wp (reserve_capacity n)
    (λ _ s', inv others s' ∧ bytes (fst s') = bytes (fst s) ∧ budgeted (fst s') = budgeted (fst s) ∧
             n ≤ vec_capacity (fst s'))
    (unchanged s) s.
Proof.
  intros Hinv Hn. destruct s as [buf bud]. destruct (Hinv) as (Ho & Hb & Hbud & Hused).
  destruct Hb as (Hlen & Hpc & Hfc & Hrest). unfold reserve_capacity. wp_go.
  unfold check_capacity. zcase; wp_go; [done|]. zcase; wp_go; [split_and!; [done..|cbn; lia]|].
  assert (Hpl : planned_capacity buf = permit_charge (future buf)).
  { cbn in Hrest. destruct (budgeted buf); [tauto|]. destruct Hrest as (_ & -> & ->). done. }
  eapply wp_mono; [apply take_permit_spec; [exact Hinv|cbn; lia]| |done].
  intros p [buf' bud'] (Hwf & Hu & Hp & Heq). cbn [fst snd] in *. wp_go. rewrite Heq. cbn [bytes].
  zcase; wp_go; [lia|].
  destruct (refund_spec (permit buf) bud') as (Hwf' & Hu' & _).
  { assert (0 ≤ permit_charge p); [|lia]. destruct (budgeted buf); [lia|by subst]. }
  { done. }
  unfold inv, wf_buffer, charge. cbn [fst snd bytes vec_capacity permit budgeted future planned_capacity].
  rewrite Hu'. pose proof (len_nonneg (bytes buf)).
  destruct (budgeted buf); [|subst p]; change (permit_charge None) with 0 in *; split_and!; try tauto; try done; lia.
Qed.

Lemma vec_extend_spec others more s :
  inv others s →
  (if budgeted (fst s) then len (bytes (fst s)) + len more ≤ vec_capacity (fst s)
   else len (bytes (fst s)) + len more ≤ isize_max) →
  wp (vec_extend more)
    (λ _ s', inv others s' ∧ bytes (fst s') = bytes (fst s) ++ more ∧
             budgeted (fst s') = budgeted (fst s))
    (λ _ _, False) s.
Proof.
  destruct s as [buf bud]. intros (Ho & (Hlen & Hpc & Hfc & Hrest) & Hbud & Hused) Hfit.
  unfold vec_extend. cbn [fst snd] in *. wp_go.
  pose proof (grow_capacity_ok (vec_capacity buf) (len (bytes buf) + len more)).
  unfold inv, wf_buffer, charge in *. zcase; wp_go.
  - unfold set_bytes. cbn [fst snd bytes vec_capacity permit budgeted future planned_capacity].
    rewrite len_app. split_and!; try done; lia.
  - destruct (budgeted buf) eqn:Hbg; [lia|]. zcase; wp_go; [lia|].
    cbn [fst snd bytes vec_capacity permit budgeted future planned_capacity].
    rewrite len_app. split_and!; try done; try tauto; lia.
Qed.

Lemma extend_spec others more ceiling s :
  inv others s → (budgeted (fst s) = false → ceiling ≤ isize_max) →
  wp (extend more ceiling)
    (λ _ s', inv others s' ∧ bytes (fst s') = bytes (fst s) ++ more ∧
             budgeted (fst s') = budgeted (fst s) ∧ len (bytes (fst s')) ≤ ceiling)
    (unchanged s) s.
Proof.
  intros Hinv Hc. destruct s as [buf bud]. unfold extend. wp_go. cbn [fst snd] in *.
  apply owp_ok_or; [|done]. intros needed. unfold checked_add. zcase; [|done]. zcase; [|done].
  intros [= <-]. destruct (budgeted buf) eqn:Hbg; cbn [negb]; wp_go.
  - eapply (wp_mono _ (λ _ s', inv others s' ∧ bytes (fst s') = bytes buf ∧ budgeted (fst s') = true ∧
      len (bytes buf) + len more ≤ vec_capacity (fst s')) _ (unchanged (buf, bud))).
    + zcase; wp_go; [|by split_and!].
      eapply wp_mono; [apply (reserve_capacity_spec others); [exact Hinv|]| |done].
      * pose proof (len_nonneg (bytes buf)). pose proof (len_nonneg more). repeat zcase; lia.
      * cbn beta. intros _ s' (Hi & Hb & Hg & Hcap). rewrite Hg. cbn [fst]. split_and!; try done.
        revert Hcap. repeat zcase; lia.
    + intros _ s' (Hi & Hb & Hg & Hcap).
      eapply wp_mono; [apply vec_extend_spec; [exact Hi|by rewrite Hg, Hb]| |done].
      cbn beta. intros _ s'' (Hi' & Hb' & Hg'). rewrite Hb', Hb, Hg', len_app. split_and!; auto.
    + done.
  - eapply wp_mono; [apply vec_extend_spec; [exact Hinv|cbn [fst]; rewrite Hbg; specialize (Hc eq_refl); lia]| |done].
    cbn beta. intros _ s'' (Hi' & Hb' & Hg'). rewrite Hb', Hg', len_app. cbn [fst].
    rewrite Hbg. split_and!; auto.
Qed.

Lemma push_spec others byte ceiling s :
  inv others s → ceiling ≤ isize_max → len (bytes (fst s)) < ceiling →
  wp (push byte ceiling)
    (λ _ s', inv others s' ∧ bytes (fst s') = bytes (fst s) ++ [byte] ∧
             budgeted (fst s') = budgeted (fst s))
    (unchanged s) s.
Proof.
  intros Hinv Hc Hlt. destruct s as [buf bud]. unfold push. wp_go. cbn [fst snd] in *.
  destruct (_ || _) eqn:Hb.
  - eapply wp_mono; [apply vec_extend_spec; [exact Hinv|]|done|done]. cbn [fst].
    rewrite len_cons, len_nil. apply orb_true_iff in Hb as [Hb%Z.ltb_lt|Hb%negb_true_iff].
    + destruct (budgeted buf); lia.
    + rewrite Hb. lia.
  - eapply wp_mono; [apply (extend_spec others); [exact Hinv|done]| |done].
    cbn beta. intros _ s' (? & ? & ? & ?). by split_and!.
Qed.

(** *** Enough room

    A buffer that never allocates more than [C] bytes holds at most its old and
    its new allocation at a time: a budget with room for twice [C], next to
    [others], does not refuse it. *)

Section room.
Context (C others : Z) (lim : option Z).

Definition fits (n : Z) (b : BodyBudget) : Prop := used b + n ≤ usize_max ∧ match limit b with Some x => used b + n ≤ x | None => True end.
Definition roomy : Prop := others + 2 * C ≤ usize_max ∧ match lim with Some x => others + 2 * C ≤ x | None => True end.
Definition small (s : BodyBuffer * BodyBudget) : Prop :=
  limit (snd s) = lim ∧ (budgeted (fst s) = true → vec_capacity (fst s) ≤ C ∧ planned_capacity (fst s) ≤ C).

Lemma acquire_fits n b : 0 ≤ n → wf_budget b → wp (acquire n) (λ _ b', limit b' = limit b) (λ _ _, ¬ fits n b) b.
Proof.
  intros Hn _. unfold acquire, fits. zcase; wp_go; [done|]. apply owp_ok_or.
  - intros next _. by wp_go.
  - unfold admitted, checked_add. zcase; [|intros _; lia]. destruct (limit b); [|done]. zcase; [done|]. intros _. lia.
Qed.
Lemma not_roomy n s : inv others s → limit (snd s) = lim → charge (fst s) + n ≤ 2 * C → ¬ fits n (snd s) → ¬ roomy.
Proof.
  intros (_ & _ & _ & Hu) Hlim Hn Hfits [H1 H2]. apply Hfits. unfold fits. rewrite Hlim. destruct lim; lia.
Qed.

Lemma plan_capacity_small n s :
  inv others s → small s → charge (fst s) = 0 → 0 ≤ n ≤ C → C ≤ isize_max → wp (plan_capacity n) (λ _, small) (λ _ _, ¬ roomy) s.
Proof.
  destruct s as [buf bud]. intros Hinv [Hlim Hs] Hzero Hn HC. destruct (Hinv) as (_ & _ & Hbud & _). unfold plan_capacity, check_capacity.
  rewrite (proj2 (Z.ltb_ge isize_max n)) by lia. wp_go. cbn [fst snd] in *. destruct (budgeted buf) eqn:Hbg; wp_go; [|split; cbn; [done|by rewrite Hbg]].
  apply on_budget_wp. eapply wp_mono; [apply acquire_fits; [lia|done]| |].
  - intros p b' Hb'. wp_go. split; cbn; [|rewrite ?Hbg; intros _; specialize (Hs eq_refl); lia]. destruct (future buf); cbn; congruence.
  - intros e b' Hf. eapply (not_roomy n (buf, bud)); [done..|cbn; lia|done].
Qed.

Lemma take_permit_small n s :
  inv others s → small s → permit_charge (future (fst s)) ≤ n ≤ C → wp (take_permit n) (λ _ s', limit (snd s') = lim) (λ _ _, ¬ roomy) s.
Proof.
  destruct s as [buf bud]. intros Hinv [Hlim Hs] Hn. destruct (Hinv) as (_ & (_ & Hpc & Hfc & Hrest) & Hbud & _). cbn [fst snd] in *.
  unfold take_permit. wp_go. destruct (future buf) as [r|] eqn:Hf; cbn in Hn, Hfc.
  - wp_go. zcase; wp_go; [|done]. apply on_budget_wp. eapply wp_mono; [apply acquire_fits; [lia|done]| |].
    + intros p b' Hb'. wp_go. cbn. congruence.
    + intros e b' Hff. eapply (not_roomy (n - permit_bytes r) (buf, bud)); [done..| |done]. unfold charge. cbn. rewrite Hf. cbn.
      destruct (budgeted buf); [specialize (Hs eq_refl); lia|]. destruct Hrest as (_ & ? & _). congruence.
  - destruct (budgeted buf) eqn:Hbg; wp_go; [|done]. apply on_budget_wp. eapply wp_mono; [apply acquire_fits; [cbn in *; lia|done]| |].
    + intros p b' Hb'. wp_go. cbn. congruence.
    + intros e b' Hff. eapply (not_roomy n (buf, bud)); [done..| |done]. unfold charge. cbn. rewrite Hf. cbn. specialize (Hs eq_refl). lia.
Qed.

Lemma reserve_capacity_small n s :
  inv others s → small s → budgeted (fst s) = true → 0 ≤ n ≤ C → C ≤ isize_max → wp (reserve_capacity n) (λ _, small) (λ _ _, ¬ roomy) s.
Proof.
  intros Hinv Hsm Hbg Hn HC. destruct s as [buf bud]. destruct (Hinv) as (_ & (Hlen & Hpc & Hfc & Hrest) & Hbud & Hused). destruct (Hsm) as [Hlim Hs].
  cbn [fst snd] in *. rewrite Hbg in Hrest. destruct Hrest as [Hcap Hplan]. destruct (Hs Hbg) as [Hv Hp]. unfold reserve_capacity, check_capacity. wp_go.
  zcase; wp_go; [lia|]. zcase; wp_go; [done|].
  eapply wp_mono; [apply wp_and; [apply (take_permit_spec others _ _ Hinv)|apply (take_permit_small _ _ Hinv Hsm)]| |by intros ? ? [_ ?]]; cbn [fst]; [lia|lia|].
  intros p [buf' bud'] [(Hwf & Hu & _ & Heq) Hl]. cbn [fst snd] in *. wp_go. rewrite Heq. cbn [bytes]. zcase; wp_go; [lia|].
  split; cbn; [|intros _; lia]. destruct (permit buf); cbn; congruence.
Qed.

Lemma vec_extend_small more s :
  small s → (budgeted (fst s) = true → len (bytes (fst s)) + len more ≤ vec_capacity (fst s)) →
  (budgeted (fst s) = false → len (bytes (fst s)) + len more ≤ isize_max) → wp (vec_extend more) (λ _, small) (λ _ _, ¬ roomy) s.
Proof.
  destruct s as [buf bud]. intros [Hlim Hs] Hfit Hu. unfold vec_extend. wp_go. cbn [fst snd] in *. zcase; wp_go; [by split|].
  destruct (budgeted buf) eqn:Hbg; [specialize (Hfit eq_refl); lia|]. specialize (Hu eq_refl). zcase; wp_go; [lia|]. split; [done|]. cbn. done.
Qed.

Lemma extend_small more s :
  inv others s → small s → len (bytes (fst s)) + len more ≤ C → C ≤ isize_max → wp (extend more C) (λ _, small) (λ _ _, ¬ roomy) s.
Proof.
  intros Hinv Hsm Hfit HC. destruct s as [buf bud]. cbn [fst snd] in *. unfold extend. wp_go. pose proof isize_bounds. unfold checked_add.
  rewrite (proj2 (Z.leb_le (len (bytes buf) + len more) usize_max)) by lia. rewrite (proj2 (Z.leb_le _ C)) by lia. cbn [ok_or]. wp_go.
  pose proof (len_nonneg (bytes buf)). pose proof (len_nonneg more). destruct (budgeted buf) eqn:Hbg; cbn [negb]; wp_go.
  - eapply (wp_mono _ (λ _ s', small s' ∧ bytes (fst s') = bytes buf ∧ budgeted (fst s') = true ∧
      len (bytes buf) + len more ≤ vec_capacity (fst s'))); [| |by intros ? ? Hr; exact Hr].
    + zcase; wp_go; [|by split_and!]. destruct (Hsm) as [_ Hs]. specialize (Hs Hbg). cbn [fst] in Hs. match goal with |- wpx _ (reserve_capacity ?c) _ _ _ => set (capacity := c) end.
      assert (Hcap : len (bytes buf) + len more ≤ capacity ≤ C) by (unfold capacity; destruct (_ =? 0); lia).
      pose proof (reserve_capacity_spec others capacity _ Hinv ltac:(lia)) as Hspec.
      pose proof (reserve_capacity_small capacity _ Hinv Hsm Hbg ltac:(lia) HC) as Hsmall.
      eapply wp_mono; [exact (wp_and _ _ _ _ _ _ Hspec Hsmall)| |by intros ? ? [_ ?]].
      intros _ s' ((_ & Hb & Hg & Hc) & Hsm'). split_and!; [done|done|by rewrite Hg|lia].
    + intros _ s' (Hsm' & Hb & Hg & Hc). apply vec_extend_small; [done|by rewrite Hb|by rewrite Hg].
  - apply vec_extend_small; [done| |]; cbn [fst]; rewrite Hbg; [done|lia].
Qed.

Lemma push_small byte s :
  inv others s → small s → len (bytes (fst s)) < C → C ≤ isize_max → wp (push byte C) (λ _, small) (λ _ _, ¬ roomy) s.
Proof.
  intros Hinv Hsm Hlt HC. destruct s as [buf bud]. unfold push. wp_go. cbn [fst snd] in *. pose proof (@len_nil Z).
  destruct (_ || _) eqn:Hb.
  - apply vec_extend_small; [done|..]; cbn [fst]; intros Hbg; rewrite len_cons; rewrite ?Hbg, ?orb_false_r in Hb; [apply Z.ltb_lt in Hb|]; lia.
  - apply extend_small; [done|done| |done]. cbn [fst]. rewrite len_cons. lia.
Qed.
End room.

Lemma drop_buffer_spec others s :
  inv others s → wf_budget (drop_buffer (fst s) (snd s)) ∧ used (drop_buffer (fst s) (snd s)) = others.
Proof.
  destruct s as [buf bud]. intros (Ho & (Hlen & Hpc & Hfc & _) & Hbud & Hused).
  unfold drop_buffer, charge in *. cbn [fst snd] in *.
  destruct (refund_spec (permit buf) bud) as (H1 & H2 & _); [lia|done|].
  destruct (refund_spec (future buf) (refund_option (permit buf) bud)) as (H3 & H4 & _); [lia|done|].
  split; [done|lia].
Qed.

(** ** Sequences of operations *)

Inductive buffer_op :=
| OpPlan (n : Z) | OpReserve (n : Z) | OpExtend (more : list Z) (ceiling : Z).

Definition wf_op (o : buffer_op) : Prop :=
  match o with OpPlan n => 0 ≤ n | OpReserve n => 0 ≤ n | OpExtend _ _ => True end.

Definition run_op (o : buffer_op) : MB unit :=
  match o with
  | OpPlan n => plan_capacity n
  | OpReserve n => reserve_capacity n
  | OpExtend more ceiling => extend more ceiling
  end.

(** Run them all, going on after an error, as a caller that keeps the buffer
    does. *)
Definition run_ops (ops : list buffer_op) (s : BodyBuffer * BodyBudget) : BodyBuffer * BodyBudget :=
  fold_left (λ s o, snd (run_op o s)) ops s.

Lemma run_op_inv others o s :
  inv others s → budgeted (fst s) = true → wf_op o →
  inv others (snd (run_op o s)) ∧ budgeted (fst (snd (run_op o s))) = true ∧
  match fst (run_op o s) with Panic => False | Diverge => False | _ => True end.
Proof.
  intros Hinv Hg Hop.
  assert (wp (run_op o) (λ _ s', inv others s' ∧ budgeted (fst s') = true) (unchanged s) s) as Hwp.
  { destruct o as [n|n|more ceiling]; cbn [run_op].
    - eapply wp_mono; [by apply plan_capacity_spec| |done]. cbn beta. intros _ s' (? & ? & ? & ?).
      by split; [|congruence].
    - eapply wp_mono; [by apply reserve_capacity_spec| |done]. cbn beta. intros _ s' (? & ? & ? & ?).
      by split; [|congruence].
    - eapply wp_mono; [apply (extend_spec others); [done|congruence]| |done].
      cbn beta. intros _ s' (? & ? & ? & ?). by split; [|congruence]. }
  unfold wpx, unchanged in Hwp. destruct (run_op o s) as [[| | |] s']; cbn; [tauto|by subst|done..].
Qed.

Lemma run_ops_inv others ops : ∀ s,
  inv others s → budgeted (fst s) = true → Forall wf_op ops →
  inv others (run_ops ops s) ∧ budgeted (fst (run_ops ops s)) = true.
Proof.
  induction ops as [|o ops IH]; intros s Hinv Hg Hops; [done|].
  apply Forall_cons in Hops as [Ho Hops]. cbn [run_ops fold_left].
  destruct (run_op_inv others o s Hinv Hg Ho) as (H1 & H2 & _). by apply IH.
Qed.
End accounting.

(** ** Interleavings *)

Section interleavings.
Context {tgt : Target}.
Import Concurrent.

Definition published (p : pc) : Z := match p with Publishing n _ => n | _ => 0 end.
Definition charged (w : world) : Z := sumZ (permits w) + sumZ (map published (pcs w)).

Definition wf_pc (limit : option Z) (p : pc) : Prop :=
  match p with
  | Idle => True
  | Trying n _ => 0 < n
  | Publishing n next =>
      0 < n ∧ next ≤ usize_max ∧ match limit with Some l => next ≤ l | None => True end
  end.

(** [used] has been, or is about to be, recorded in [peak]. *)
Definition recorded (w : world) : Prop :=
  w_used w ≤ w_peak w ∨ ∃ i n next, pcs w !! i = Some (Publishing n next) ∧ w_used w ≤ next.

Definition winv (w : world) : Prop :=
  w_used w = charged w ∧ w_used w ≤ usize_max ∧ 0 ≤ w_peak w ≤ usize_max ∧
  match w_limit w with Some l => w_used w ≤ l ∧ w_peak w ≤ l | None => True end ∧
  Forall (λ p, 0 ≤ p) (permits w) ∧ Forall (wf_pc (w_limit w)) (pcs w) ∧ recorded w.

Lemma sumZ_insert (f : pc → Z) ps i old new :
  ps !! i = Some old → sumZ (map f (<[i:=new]> ps)) = sumZ (map f ps) - f old + f new.
Proof.
  intros Hi. rewrite insert_take_drop by (by eapply lookup_lt_Some).
  rewrite <-(take_drop_middle ps i old Hi) at 3.
  rewrite !map_app, !sumZ_app. cbn. lia.
Qed.

Lemma published_nonneg limit ps :
  Forall (wf_pc limit) ps → 0 ≤ sumZ (map published ps).
Proof.
  intros Hps. apply sumZ_nonneg, Forall_fmap. eapply Forall_impl; [exact Hps|].
  intros [|n s|n next]; cbn; lia.
Qed.

(** A thread that moves without having just stored a new value keeps what was
    recorded, as long as it was not the one about to publish. *)
Lemma recorded_insert l u u' k ps qs qs' i new old :
  ps !! i = Some old → (∀ n next, old ≠ Publishing n next) → u' ≤ u →
  recorded (mkWorld l u k ps qs) → recorded (mkWorld l u' k (<[i:=new]> ps) qs').
Proof.
  intros Hi Hold Hu [Hr|(j & n & next & Hj & Hr)]; cbn in *; [left; cbn; lia|].
  right. exists j, n, next. cbn. split; [|lia].
  rewrite list_lookup_insert_ne; [done|]. intros ->. rewrite Hi in Hj. naive_solver.
Qed.

Lemma recorded_publish l u k ps qs qs' i n next :
  ps !! i = Some (Publishing n next) → recorded (mkWorld l u k ps qs) →
  recorded (mkWorld l u (Z.max k next) (<[i:=Idle]> ps) qs').
Proof.
  intros Hi [Hr|(j & m & nx & Hj & Hr)]; cbn in *; [left; cbn; lia|].
  destruct (decide (i = j)) as [->|Hij]; [left; cbn; simplify_eq; lia|].
  right. exists j, m, nx. cbn. by rewrite list_lookup_insert_ne.
Qed.

Lemma winv_initial l threads :
  from_option (λ l, 0 ≤ l) True l → winv (initial l threads).
Proof.
  intros Hl. pose proof usize_bounds. unfold u32_max in *.
  assert (sumZ (map published (replicate threads Idle)) = 0) as Hs by (induction threads; cbn in *; lia).
  unfold winv, charged, recorded; cbn. rewrite Hs. cbn in *.
  split_and!; try lia; try done; first [by apply Forall_replicate|by left|destruct l; cbn in *; lia].
Qed.

Local Ltac side :=
  split_and!; try done; try lia;
  try (by apply Forall_insert); try (by apply Forall_cons; split; [lia|]); try (by apply Forall_app);
  try (eapply recorded_insert; [eassumption|done| |eassumption]; lia);
  try (by eapply recorded_publish);
  try (match goal with l : option Z |- _ => destruct l; lia end).

Lemma winv_step w w' : winv w → step w w' → winv w'.
Proof.
  intros (Hu & Hmax & Hk & Hlim & Hq & Hp & Hr) Hstep. pose proof usize_bounds. unfold u32_max in *.
  pose proof (published_nonneg _ _ Hp) as Hpub. pose proof (sumZ_nonneg _ Hq) as Hsum.
  destruct Hstep as [l u k ps qs i Hi|l u k ps qs i n Hi Hn|l u k ps qs i n sn Hi Ha
    |l u k ps qs i n next Hi Ha|l u k ps qs i n sn next Hi Ha|l u k ps qs i n next Hi|l u k ps qs1 p qs2];
    unfold winv, charged in *; cbn [w_limit w_used w_peak pcs permits sumZ] in *;
    try pose proof (Forall_lookup_1 _ _ _ _ Hp Hi) as Hwf; cbn [wf_pc] in *;
    try rewrite (sumZ_insert _ _ _ _ _ Hi); cbn [published].
  - side.
  - side.
  - side.
  - apply admitted_inv in Ha as (-> & Hm & Hl). side.
    right. exists i, n, (u + n). cbn. split; [|lia].
    apply list_lookup_insert_eq. by eapply lookup_lt_Some.
  - side.
  - destruct Hwf as (Hn & Hnx & Hnl). side.
  - rewrite !sumZ_app in *. cbn [sumZ] in *.
    apply Forall_app in Hq as [Hq1 [Hp0 Hq2]%Forall_cons].
    pose proof (sumZ_nonneg _ Hq1). pose proof (sumZ_nonneg _ Hq2). rewrite Z.mod_small by lia. side.
    destruct Hr as [Hr|(j & m & nx & Hj & Hr)]; cbn in *; [left; cbn; lia|].
    right. exists j, m, nx. cbn. split; [done|lia].
Qed.

Lemma winv_reachable l threads w :
  from_option (λ l, 0 ≤ l) True l → rtc step (initial l threads) w → winv w.
Proof.
  intros Hl Hrun. assert (Hi : winv (initial l threads)) by (by apply winv_initial).
  clear Hl. revert Hi. induction Hrun; eauto using winv_step.
Qed.
End interleavings.

(** A charged buffer pays for exactly what it holds. Whatever sequence of
    reservations, growths and appends is run on a fresh charged buffer, errors
    included, while the other owners hold [others] bytes: the budget then holds
    [others] plus the buffer's allocated capacity plus its outstanding
    reservation, stays within its limit, and [peak] covers it; dropping the
    buffer gives back exactly its share. *)
Theorem buffer_accounting `{Target, VecAlloc} others bud ops :
  0 ≤ others → wf_budget bud → used bud = others → Forall wf_op ops →
  let s := run_ops ops (buffer_new true, bud) in
  used (snd s) = others + vec_capacity (fst s) + planned_capacity (fst s) ∧
  len (bytes (fst s)) ≤ vec_capacity (fst s) ∧ wf_budget (snd s) ∧
  used (drop_buffer (fst s) (snd s)) = others.
Proof.
  intros Ho Hbud Hused Hops s.
  destruct (run_ops_inv others ops (buffer_new true, bud)) as [Hinv Hg]; [|done..|].
  { split_and!; try done. unfold charge; cbn; lia. }
  fold s in Hinv, Hg. destruct (drop_buffer_spec others s Hinv) as [_ Hdrop].
  destruct Hinv as (_ & (Hlen & _ & _ & Hrest) & Hwf & Hu). rewrite Hg in Hrest.
  unfold charge in Hu. split_and!; try done. lia.
Qed.

Definition sample_ops : list buffer_op :=
  [OpPlan 4; OpExtend [1; 2; 3; 4; 5; 6] 8; OpReserve 100; OpExtend [7] 8].
Lemma buffer_accounting_witness :
  let s := @run_ops target64 doubling sample_ops (buffer_new true, mkBudget (Some 20) 5 5) in
  used (snd s) = 5 + vec_capacity (fst s) + planned_capacity (fst s) ∧
  len (bytes (fst s)) ≤ vec_capacity (fst s) ∧ @wf_budget target64 (snd s) ∧
  used (@drop_buffer target64 (fst s) (snd s)) = 5.
Proof.
  apply (@buffer_accounting target64 doubling 5 (mkBudget (Some 20) 5 5) sample_ops); [lia| |done|].
  - repeat split; cbn; try lia. by vm_compute.
  - repeat (apply Forall_cons; split; [cbn; lia || done|]). by apply Forall_nil.
Defined.

(** Appending is all or nothing. On any buffer in any state the accounting
    allows, [extend] neither panics nor fails to return; it either appends
    exactly the given bytes, within the ceiling, keeping the accounting, or it
    reports an error and leaves the bytes, the allocation, the reservation and
    the budget exactly as they were. *)
Theorem extend_all_or_nothing `{Target, VecAlloc} others more ceiling s :
  inv others s → (budgeted (fst s) = false → ceiling ≤ isize_max) →
  wp (extend more ceiling)
    (λ _ s', inv others s' ∧ bytes (fst s') = bytes (fst s) ++ more ∧
             budgeted (fst s') = budgeted (fst s) ∧ len (bytes (fst s')) ≤ ceiling)
    (λ _ s', s' = s) s.
Proof. apply extend_spec. Qed.

Lemma extend_all_or_nothing_witness :
  wp (@extend target64 doubling [1; 2; 3] 8)
    (λ _ s', @inv target64 5 s' ∧ bytes (fst s') = [] ++ [1; 2; 3] ∧
             budgeted (fst s') = true ∧ len (bytes (fst s')) ≤ 8)
    (λ _ s', s' = (buffer_new true, mkBudget (Some 20) 5 5))
    (buffer_new true, mkBudget (Some 20) 5 5).
Proof.
  apply (@extend_all_or_nothing target64 doubling); [|done].
  split_and!; cbn; [lia| | |done]; repeat split; cbn; try lia; by vm_compute.
Defined.

(** Concurrent admission never exceeds the limit. In every state that any
    number of threads can reach by interleaving their loads, weak
    compare-and-exchanges (failing spuriously or not), peak updates and permit
    drops: the total charged is within the limit and equals what outstanding
    permits and acquirers about to return hold, so that no [fetch_sub] wraps;
    [peak] is within the limit; and when no thread is between its exchange and
    its peak update, [peak] covers the total. *)
Theorem concurrent_admission `{Target} l threads w :
  0 ≤ l → rtc Concurrent.step (Concurrent.initial (Some l) threads) w →
  Concurrent.w_used w ≤ l ∧ Concurrent.w_peak w ≤ l ∧ 0 ≤ Concurrent.w_used w ∧
  Concurrent.w_used w = charged w ∧
  ((∀ i n next, Concurrent.pcs w !! i ≠ Some (Concurrent.Publishing n next)) →
   Concurrent.w_used w ≤ Concurrent.w_peak w).
Proof.
  intros Hl Hrun.
  assert (Hlim : Concurrent.w_limit w = Some l).
  { clear Hl. remember (Concurrent.initial (Some l) threads) as w0 eqn:Hw0.
    assert (Concurrent.w_limit w0 = Some l) as Hl0 by (by subst). clear Hw0.
    induction Hrun as [|x y z Hstep _ IH]; [done|]. apply IH. by destruct Hstep. }
  destruct (winv_reachable (Some l) threads w Hl Hrun) as (Hu & _ & Hk & Hb & Hq & Hp & Hr).
  rewrite Hlim in Hb, Hp. pose proof (published_nonneg _ _ Hp). pose proof (sumZ_nonneg _ Hq).
  unfold charged in *. split_and!; try done; try lia.
  intros Hquiet. destruct Hr as [Hr|(i & n & next & Hi & _)]; [done|]. by destruct (Hquiet i n next).
Qed.

Definition race : Concurrent.world :=
  Concurrent.mkWorld (Some 5) 4 4 [Concurrent.Idle; Concurrent.Idle] [4].
Lemma concurrent_admission_witness :
  Concurrent.w_used race ≤ 5 ∧ Concurrent.w_peak race ≤ 5 ∧ 0 ≤ Concurrent.w_used race ∧
  Concurrent.w_used race = charged race ∧
  ((∀ i n next, Concurrent.pcs race !! i ≠ Some (Concurrent.Publishing n next)) →
   Concurrent.w_used race ≤ Concurrent.w_peak race).
Proof.
  apply (@concurrent_admission target64 5 2); [lia|].
  (* both load 0; the first stores 4, the second sees it and is refused *)
  eapply rtc_l; [apply (Concurrent.step_load _ _ _ _ _ 0 4); done|].
  eapply rtc_l; [apply (Concurrent.step_load _ _ _ _ _ 1 3); done|].
  eapply rtc_l; [apply (Concurrent.step_exchange _ _ _ _ _ 0 4 4); done|].
  eapply rtc_l; [apply (Concurrent.step_retry _ _ _ _ _ 1 3 0 3); done|].
  eapply rtc_l; [apply (Concurrent.step_refuse _ _ _ _ _ 1 3 4); done|].
  eapply rtc_l; [apply (Concurrent.step_publish _ _ _ _ _ 0 4 4); done|].
  apply rtc_refl.
Defined.
