(* ===== verification/Request.v ===== *)
(** * Requests, origins and redirects ([src/types.rs])

    The owned request, its validation, the origin of an HTTP URL and the
    redirect policy. A [String] is its UTF-8 bytes; a [Duration] is its length
    in nanoseconds. *)

From stdpp Require Import base list strings.
From Stdlib Require Import ZArith Lia.
From S2P Require Import Prelude Errors BodyBudget.
Import Budget.

Module Request.

Inductive Method := Get | Head | Post | Put | Patch | Delete | Other (name : list Z).
#[global] Instance Method_eq_dec : EqDecision Method.
Proof. solve_decision. Defined.

Record Header := mkHeader { name : list Z; value : list Z }.
#[global] Instance Header_eq_dec : EqDecision Header.
Proof. solve_decision. Defined.

Inductive TlsVerification := Verify | DangerouslyDisableCertificateVerification.

Record RequestOptions := mkOptions {
  max_request_body_bytes : option Z;
  max_response_body_bytes : option Z;
  connect_timeout : option Z;
  inactivity_timeout : option Z;
  total_timeout : option Z;
  redirect_limit : Z;
  tls_verification : TlsVerification
}.

Definition seconds (n : Z) : Z := n * 1000000000.

Definition default_options : RequestOptions :=
  mkOptions None None (Some (seconds 10)) (Some (seconds 30)) (Some (seconds 120)) 5 Verify.

Definition request_body_limit (o : RequestOptions) (engine_limit : Z) : Z :=
  Z.min (default engine_limit (max_request_body_bytes o)) engine_limit.
Definition response_body_limit (o : RequestOptions) (engine_limit : Z) : Z :=
  Z.min (default engine_limit (max_response_body_bytes o)) engine_limit.

Record Request := mkRequest {
  method : Method;
  url : list Z;
  headers : list Header;
  body : BodyBuffer;
  options : RequestOptions
}.

(** ** Character classes *)

Definition token_symbols : list Z := bs "!#$%&'*+-.^_`|~".
Definition is_token_byte (b : Z) : bool := is_ascii_alphanumeric b || contains b token_symbols.
Definition is_http_token (v : list Z) : bool :=
  negb (bool_decide (v = [])) && forallb is_token_byte v.
Definition is_valid_http_header_value (v : list Z) : bool :=
  negb (existsb (λ b, (b =? 127) || ((b <? 32) && negb (b =? HT))) v).

(** ** Origins *)

Record HttpOrigin := mkOrigin { scheme : list Z; host : list Z; port : Z }.
#[global] Instance HttpOrigin_eq_dec : EqDecision HttpOrigin.
Proof. solve_decision. Defined.

Section origin.
Variable error_kind : ErrorKind.t.

Definition parse_port (p : list Z) : outcome Error Z :=
  ok_or (match parse_uint u16_max p with
         | Some n => if negb (n =? 0) then Some n else None
         | None => None
         end) (error_new error_kind "HTTP URL port is invalid").

(** The [(host, port)] part of the authority. *)
Definition split_authority (authority : list Z) (default_port : Z)
  : outcome Error (list Z * Z) :=
  match strip_prefix (bs "[") authority with
  | Some bracketed =>
      match position (Z.eqb 93) bracketed with
      | None => Err (error_new error_kind "HTTP URL has an invalid IPv6 host")
      | Some closing =>
          let host := take closing bracketed in
          let suffix := drop (closing + 1) bracketed in
          port ← (if bool_decide (suffix = []) then Ok default_port
                  else match strip_prefix (bs ":") suffix with
                       | Some p => parse_port p
                       | None => Err (error_new error_kind "HTTP URL has an invalid authority")
                       end);
          Ok (host, port)
      end
  | None =>
      match rsplit_once 58 authority with
      | Some (host, p) =>
          if contains 58 host
          then Err (error_new error_kind "an IPv6 URL host must be enclosed in brackets")
          else port ← parse_port p; Ok (host, port)
      | None => Ok (authority, default_port)
      end
  end.

(** [remainder.find(['/', '?', '#']).unwrap_or(remainder.len())] *)
Definition authority_end (remainder : list Z) : nat :=
  default (length remainder) (position (λ b, contains b (bs "/?#")) remainder).

Definition http_origin (u : list Z) : outcome Error HttpOrigin :=
  match split_once (bs "://") u with
  | None => Err (error_new error_kind "HTTP URL has no scheme separator")
  | Some (raw_scheme, remainder) =>
      let scheme := ascii_lowercase raw_scheme in
      default_port ← (if bytes_eqb scheme (bs "http") then Ok 80
                      else if bytes_eqb scheme (bs "https") then Ok 443
                      else Err (error_new error_kind "NBReq permits only HTTP and HTTPS URLs"));
      let authority := take (authority_end remainder) remainder in
      if bool_decide (authority = []) || contains 64 authority
      then Err (error_new error_kind
                  "HTTP URL authority is empty or contains embedded credentials")
      else
        '(host, port) ← split_authority authority default_port;
        if bool_decide (host = []) then Err (error_new error_kind "HTTP URL host is empty")
        else if existsb (λ b, (b <=? 32) || (b =? 127) || (b =? 92)) host
        then Err (error_new error_kind "HTTP URL host is invalid")
        else Ok (mkOrigin scheme (ascii_lowercase host) port)
  end.
End origin.

(** ** Validation and the builder *)

Definition valid_header (h : Header) : bool :=
  is_http_token (name h) && is_valid_http_header_value (value h).

Definition validate (r : Request) : outcome Error unit :=
  _ ← http_origin ErrorKind.InvalidRequest (url r);
  if match method r with Other m => negb (is_http_token m) | _ => false end
  then Err (error_new ErrorKind.InvalidRequest "extension HTTP method is not a valid token")
  else if negb (forallb valid_header (headers r))
  then Err (error_new ErrorKind.InvalidRequest "request contains an invalid HTTP header")
  else Ok tt.

(** [Request::builder] and the [RequestBuilder] methods. *)
Definition builder (m : Method) (u : list Z) : Request :=
  mkRequest m u [] default_buffer default_options.
Definition with_header (n v : list Z) (r : Request) : Request :=
  mkRequest (method r) (url r) (headers r ++ [mkHeader n v]) (body r) (options r).
Definition with_body (v : list Z) (cap : Z) (r : Request) : Request :=
  mkRequest (method r) (url r) (headers r) (from_vec v cap) (options r).
Definition with_options (o : RequestOptions) (r : Request) : Request :=
  mkRequest (method r) (url r) (headers r) (body r) o.
Definition build (r : Request) : outcome Error Request := _ ← validate r; Ok r.

(** [Request::admit_body], of an unshared body: the whole allocation is
    charged to the Engine's budget. *)
Definition admit_body `{Target} (r : Request) : M BodyBudget Error Request :=
  b ← buffer_admit (bytes (body r)) (vec_capacity (body r));
  mret (mkRequest (method r) (url r) (headers r) b (options r)).

(** ** Redirects *)

Definition is_body_header (n : list Z) : bool :=
  eq_ignore_ascii_case n (bs "content-length") || eq_ignore_ascii_case n (bs "transfer-encoding").
Definition is_origin_bound (n : list Z) : bool :=
  eq_ignore_ascii_case n (bs "authorization") || eq_ignore_ascii_case n (bs "proxy-authorization")
  || eq_ignore_ascii_case n (bs "cookie") || eq_ignore_ascii_case n (bs "host").

Definition keeps_header (keep_body cross_origin : bool) (h : Header) : bool :=
  (keep_body || negb (is_body_header (name h))) && (negb cross_origin || negb (is_origin_bound (name h))).

Definition redirected (r : Request) (u : list Z) (m : Method) (keep_body cross_origin : bool) : Request :=
  mkRequest m u (List.filter (keeps_header keep_body cross_origin) (headers r))
    (if keep_body then body r else buffer_new (budgeted (body r))) (options r).

Record RequestRedirect := mkRedirect {
  rd_url : list Z; rd_method : Method; rd_keep_body : bool; rd_cross_origin : bool
}.

Definition apply_redirect (rd : RequestRedirect) (r : Request) : Request :=
  redirected r (rd_url rd) (rd_method rd) (rd_keep_body rd) (rd_cross_origin rd).

(** The [(method, keep_body)] of a status, or [None] when it is not followed. *)
Definition redirect_method (m : Method) (status : Z) : option (Method * bool) :=
  if (status =? 301) || (status =? 302) then
    match m with Get | Head => Some (m, true) | _ => None end
  else if status =? 303 then
    match m with Head => Some (Head, false) | _ => Some (Get, false) end
  else if (status =? 307) || (status =? 308) then Some (m, true)
  else None.

Definition plan_redirect (r : Request) (status redirect_hops : Z)
    (target : outcome Error (option (list Z))) : outcome Error (option RequestRedirect) :=
  match redirect_method (method r) status with
  | None => Ok None
  | Some (m, keep_body) =>
      let limit := redirect_limit (options r) in
      if limit =? 0 then Ok None
      else if limit <=? redirect_hops then
        Err (error_new ErrorKind.Redirect
               (("redirect limit of " +:+ display limit) +:+ " hops was exceeded"))
      else
        found ← target;
        match found with
        | None => Ok None
        | Some u =>
            source_origin ← http_origin ErrorKind.Redirect (url r);
            target_origin ← http_origin ErrorKind.Redirect u;
            if bytes_eqb (scheme source_origin) (bs "https")
               && bytes_eqb (scheme target_origin) (bs "http")
            then Err (error_new ErrorKind.Redirect "an HTTPS-to-HTTP redirect was blocked")
            else
              let cross_origin := negb (bool_decide (source_origin = target_origin)) in
              Ok (Some (mkRedirect u m keep_body cross_origin))
        end
  end.

End Request.
