(* ===== verification/RequestProofs.v ===== *)
(** * Correctness of origins and redirects

    What [http_origin] accepts is a clean origin, printing an origin and
    parsing it gives it back, and a chain of redirects keeps within the hop
    limit, never leaves https, never carries credentials to another origin,
    and keeps the request valid. *)

From stdpp Require Import base list strings relations.
From Stdlib Require Import ZArith Lia.
From S2P Require Import Prelude Errors BodyBudget Request.
Import Budget Request.

(** A byte a parsed host can hold: printable, and neither a delimiter of the
    URL nor an upper-case letter. *)
Definition host_byte (b : Z) : bool :=
  (32 <? b) && negb (contains b [127; 92; 47; 63; 35; 64]) && negb (is_ascii_uppercase b).

Definition wf_origin (o : HttpOrigin) : Prop :=
  (scheme o = bs "http" ∨ scheme o = bs "https") ∧ 1 ≤ port o ≤ u16_max ∧
  host o ≠ [] ∧ Forall (λ b, host_byte b = true) (host o).

Ltac outcome_inv :=
  repeat match goal with
  | H : (_ ≫= _) = Ok _ |- _ => unfold mbind, outcome_bind in H
  | H : match ?o with Ok _ => _ | Err _ => _ | Panic => _ | Diverge => _ end = Ok _ |- _ =>
      destruct o eqn:?; try discriminate H
  end.

Lemma parse_digits_bound m acc l n : 0 ≤ acc ≤ m → parse_digits m acc l = Some n → 0 ≤ n ≤ m.
Proof.
  revert acc. induction l as [|b l IH]; intros acc Hacc; cbn [parse_digits]; [by intros [= <-]|].
  destruct (is_ascii_digit b) eqn:Hb; [|done]. cbv zeta. zcase; [|done].
  unfold is_ascii_digit, in_range in Hb. apply andb_true_iff in Hb as [?%Z.leb_le ?%Z.leb_le].
  apply IH. lia.
Qed.

Lemma parse_uint_bound m l n : 0 ≤ m → parse_uint m l = Some n → 0 ≤ n ≤ m.
Proof.
  intros Hm. unfold parse_uint. destruct (bool_decide _); [done|].
  apply parse_digits_bound. lia.
Qed.

Lemma parse_port_bound k p n : parse_port k p = Ok n → 1 ≤ n ≤ u16_max.
Proof.
  unfold parse_port, ok_or. destruct (parse_uint u16_max p) as [m|] eqn:Hp; [|done].
  apply parse_uint_bound in Hp; [|done]. destruct (Z.eqb_spec m 0); [done|]. intros [= <-]. lia.
Qed.

(** The host is a part of the authority, and the port is in range. *)
Lemma split_authority_spec k authority dp h p :
  1 ≤ dp ≤ u16_max → split_authority k authority dp = Ok (h, p) →
  1 ≤ p ≤ u16_max ∧ ∀ b, b ∈ h → b ∈ authority.
Proof.
  intros Hdp. unfold split_authority.
  destruct (strip_prefix (bs "[") authority) as [br|] eqn:Hs.
  - apply strip_prefix_some in Hs. subst authority. destruct (position _ br) as [c|]; [|done].
    intros H. outcome_inv. injection H as <- <-.
    split; [|intros b Hb; apply elem_of_app; right; by eapply subseteq_take].
    revert Heqo. destruct (bool_decide _); [by intros [= <-]|].
    destruct (strip_prefix (bs ":") _); [apply parse_port_bound|done].
  - destruct (rsplit_once 58 authority) as [[h' p']|] eqn:Hr; [|by intros [= <- <-]].
    apply rsplit_once_some in Hr. subst authority. destruct (contains 58 h'); [done|].
    intros H. outcome_inv. injection H as <- <-. split; [by eapply parse_port_bound|].
    intros b Hb. apply elem_of_app. by left.
Qed.

Lemma host_byte_lower b :
  (32 <? b) && negb (contains b [127; 92; 47; 63; 35; 64]) = true →
  host_byte (to_ascii_lowercase b) = true.
Proof.
  intros H. unfold host_byte. rewrite lowercase_upper. unfold to_ascii_lowercase.
  destruct (is_ascii_uppercase b) eqn:Hu; [|by rewrite H].
  unfold is_ascii_uppercase, in_range in Hu. apply andb_true_iff in Hu as [?%Z.leb_le ?%Z.leb_le].
  apply andb_true_iff. split; [|done]. apply andb_true_iff. split; [apply Z.ltb_lt; lia|].
  apply negb_true_iff. cbn. rewrite !(proj2 (Z.eqb_neq _ _)) by lia. done.
Qed.

(** The authority has no delimiter. *)
Lemma authority_clean r b : b ∈ take (authority_end r) r → contains b (bs "/?#") = false.
Proof.
  unfold authority_end. destruct (position _ r) as [n|] eqn:Hp; cbn.
  - exact (position_take _ r n b Hp).
  - rewrite take_ge by lia. exact (position_full _ r b Hp).
Qed.

Lemma existsb_false {A} (p : A → bool) l x : existsb p l = false → x ∈ l → p x = false.
Proof.
  intros H Hx. destruct (p x) eqn:Hp; [|done].
  assert (existsb p l = true); [|congruence]. apply existsb_exists. exists x.
  by apply list_elem_of_In in Hx.
Qed.

Lemma http_origin_inv k u o : http_origin k u = Ok o → wf_origin o.
Proof.
  unfold http_origin. destruct (split_once _ u) as [[rs rem]|]; [|done]. intros H.
  set (s := ascii_lowercase rs) in *.
  assert (Hdp : ∃ dp, (s = bs "http" ∨ s = bs "https") ∧ 1 ≤ dp ≤ u16_max ∧
    (if bytes_eqb s (bs "http") then Ok 80
     else if bytes_eqb s (bs "https") then Ok 443
     else Err (error_new k "NBReq permits only HTTP and HTTPS URLs")) = Ok dp).
  { destruct (bytes_eqb s (bs "http")) eqn:H1; [exists 80|destruct (bytes_eqb s (bs "https")) eqn:H2; [exists 443|done]].
    - apply bytes_eqb_eq in H1. by split_and!; [left| | |].
    - apply bytes_eqb_eq in H2. by split_and!; [right| | |]. }
  destruct Hdp as (dp & Hscheme & Hdp & Heq). rewrite Heq in H. cbn in H.
  set (authority := take (authority_end rem) rem) in *.
  destruct (bool_decide (authority = []) || contains 64 authority) eqn:Ha; [done|].
  apply orb_false_iff in Ha as [_ Hat]. unfold mbind, outcome_bind in H.
  destruct (split_authority k authority dp) as [[h p]| | |] eqn:Hsplit; try done.
  apply split_authority_spec in Hsplit as [Hp Hsub]; [|done].
  case_bool_decide as Hh; [done|]. destruct (existsb _ h) eqn:Hbad; [done|]. injection H as <-.
  unfold wf_origin; cbn. split_and!; try done; try lia; [by destruct h|]. apply Forall_map, Forall_forall.
  intros b Hb. apply host_byte_lower. pose proof (existsb_false _ _ _ Hbad Hb) as Hb1. cbn in Hb1.
  pose proof (authority_clean rem b (Hsub b Hb)) as Hb2. change (bs "/?#") with [47; 63; 35] in Hb2. cbn in Hb2.
  assert (b ≠ 64) as Hb3.
  { intros ->. assert (contains 64 authority = true); [by apply contains_spec, Hsub|congruence]. }
  repeat (apply orb_false_iff in Hb1 as [Hb1 ?]). repeat (apply orb_false_iff in Hb2 as [? Hb2]).
  apply andb_true_iff. split; [apply Z.ltb_lt; lia|]. apply negb_true_iff. cbn.
  by rewrite !(proj2 (Z.eqb_neq b _)) by lia.
Qed.

(** Every byte of an accepted authority is visible: not a space, not a control
    byte, not DEL. *)
Definition visible (b : Z) : Prop := 32 < b ∧ b ≠ 127.

Lemma port_visible k p n b : parse_port k p = Ok n → b ∈ p → visible b.
Proof.
  unfold parse_port. intros H Hb. destruct (parse_uint u16_max p) as [m|] eqn:Hp; [|done].
  apply (parse_uint_bytes _ _ _ b) in Hp as [->|Hd]; [done| |done].
  unfold is_ascii_digit, in_range in Hd. apply andb_true_iff in Hd as [?%Z.leb_le ?%Z.leb_le].
  split; lia.
Qed.

Lemma split_authority_visible k authority dp h p b :
  split_authority k authority dp = Ok (h, p) → (∀ b, b ∈ h → visible b) → b ∈ authority → visible b.
Proof.
  unfold split_authority. intros H Hh Hb.
  destruct (strip_prefix (bs "[") authority) as [br|] eqn:Hs.
  - apply strip_prefix_some in Hs. subst authority. apply elem_of_cons in Hb as [->|Hb]; [done|].
    destruct (position _ br) as [c|] eqn:Hc; [|done].
    apply position_drop in Hc as (x & Hx & Hbr). rewrite Nat.add_1_r in H.
    outcome_inv. injection H as <- <-. rewrite <-(take_drop c br), Hbr in Hb.
    apply elem_of_app in Hb as [Hb|[->|Hb]%elem_of_cons]; [eauto| |].
    { apply Z.eqb_eq in Hx as <-. done. }
    revert Heqo. case_bool_decide as Hsuf; [rewrite Hsuf in Hb; by apply elem_of_nil in Hb|].
    destruct (strip_prefix (bs ":") _) as [q|] eqn:Hq; [|done]. intros Hport.
    apply strip_prefix_some in Hq. rewrite Hq in Hb.
    apply elem_of_cons in Hb as [->|Hb]; [done|]. by eapply port_visible.
  - destruct (rsplit_once 58 authority) as [[h' p']|] eqn:Hr; [|injection H as <- <-; eauto].
    apply rsplit_once_some in Hr. subst authority. destruct (contains 58 h'); [done|].
    outcome_inv. injection H as <- <-.
    apply elem_of_app in Hb as [Hb|[->|Hb]%elem_of_cons]; [eauto|done|]. by eapply port_visible.
Qed.

Lemma authority_visible k u o s rem b :
  http_origin k u = Ok o → split_once (bs "://") u = Some (s, rem) →
  b ∈ take (authority_end rem) rem → visible b.
Proof.
  unfold http_origin. intros H Hs Hb. rewrite Hs in H. cbn beta iota in H. outcome_inv.
  destruct (bool_decide _ || _); [done|]. outcome_inv. destruct a0 as [h p].
  case_bool_decide; [done|]. destruct (existsb _ h) eqn:Hbad; [done|].
  eapply split_authority_visible; [eassumption| |exact Hb].
  intros x Hx. pose proof (existsb_false _ _ _ Hbad Hx) as Hx1. cbn in Hx1.
  repeat (apply orb_false_iff in Hx1 as [Hx1 ?]). split; lia.
Qed.

(** The error kind only labels failures. *)
Lemma http_origin_kind k k' u o : http_origin k u = Ok o → http_origin k' u = Ok o.
Proof.
  unfold http_origin, split_authority, parse_port, ok_or, mbind, outcome_bind.
  repeat (case_match; simplify_eq; try done).
Qed.

(** ** Printing an origin *)

Definition print_origin (o : HttpOrigin) (path : list Z) : list Z :=
  scheme o ++ bs "://" ++ host o ++ bs ":" ++ to_string (port o) ++ path.

(** A host that is written without brackets. *)
Definition plain_host (h : list Z) : Prop :=
  h ≠ [] ∧ Forall (λ b, host_byte b = true ∧ b ≠ 58 ∧ b ≠ 91) h.

Lemma position_prefix p l k :
  (∀ b, b ∈ l → p b = false) → (k = [] ∨ ∃ b k', k = b :: k' ∧ p b = true) →
  take (default (length (l ++ k)) (position p (l ++ k))) (l ++ k) = l.
Proof.
  intros Hl [->|(b & k' & -> & Hb)].
  - rewrite app_nil_r, position_none by done. cbn. apply take_ge. lia.
  - rewrite position_app by done. cbn. apply take_app_length.
Qed.

Lemma host_byte_inv b :
  host_byte b = true →
  32 < b ∧ contains b [127; 92; 47; 63; 35; 64] = false ∧ is_ascii_uppercase b = false.
Proof.
  unfold host_byte. intros [[?%Z.ltb_lt ?%negb_true_iff]%andb_true_iff ?%negb_true_iff]%andb_true_iff.
  done.
Qed.

(** Digits are none of the delimiters. *)
Lemma digit_inv b : is_ascii_digit b = true → 48 ≤ b ≤ 57.
Proof. unfold is_ascii_digit, in_range. intros [?%Z.leb_le ?%Z.leb_le]%andb_true_iff. lia. Qed.

Lemma split_scheme s rest :
  (s = bs "http" ∨ s = bs "https") → split_once (bs "://") (s ++ bs "://" ++ rest) = Some (s, rest).
Proof. by intros [->| ->]. Qed.

(** The bytes of a printed authority. *)
Lemma printed_byte h p b :
  plain_host h → 0 ≤ p ≤ u16_max → b ∈ h ++ bs ":" ++ to_string p →
  contains b (bs "/?#@") = false.
Proof.
  intros [_ Hplain] Hp. rewrite Forall_forall in Hplain.
  destruct (to_string_spec p) as (_ & Hdig & _); [unfold u16_max, u64_max in *; lia|].
  rewrite Forall_forall in Hdig. change (bs "/?#@") with [47; 63; 35; 64].
  intros [Hb|[Hb|Hb]%elem_of_app]%elem_of_app.
  - destruct (Hplain _ Hb) as [(_ & Hcl & _)%host_byte_inv _]. cbn in Hcl |- *.
    repeat (apply orb_false_iff in Hcl as [? Hcl]). by rewrite !orb_false_iff.
  - apply list_elem_of_singleton in Hb. by subst b.
  - specialize (Hdig _ Hb). apply digit_inv in Hdig. cbn.
    by rewrite !(proj2 (Z.eqb_neq b _)) by lia.
Qed.

Lemma split_printed k h p dp :
  plain_host h → 1 ≤ p ≤ u16_max → split_authority k (h ++ bs ":" ++ to_string p) dp = Ok (h, p).
Proof.
  intros [Hne Hplain] Hp. rewrite Forall_forall in Hplain. unfold split_authority.
  destruct (strip_prefix (bs "[") _) as [r|] eqn:Hstrip.
  { apply strip_prefix_some in Hstrip. destruct h as [|b h]; [done|]. injection Hstrip as -> _.
    by destruct (Hplain _ (list_elem_of_here _ _)) as (_ & _ & ?). }
  change (bs ":" ++ to_string p) with (58 :: to_string p). rewrite rsplit_once_app.
  - destruct (contains 58 h) eqn:Hc; [apply contains_spec, Hplain in Hc; tauto|].
    unfold parse_port. rewrite parse_uint_to_string by (unfold u16_max, u64_max in *; lia).
    by destruct (Z.eqb_spec p 0); [lia|].
  - destruct (to_string_spec p) as (_ & Hdig & _); [unfold u16_max, u64_max in *; lia|].
    rewrite Forall_forall in Hdig. intros Hc%Hdig. done.
Qed.

Lemma host_accepted h :
  plain_host h → existsb (λ b, (b <=? 32) || (b =? 127) || (b =? 92)) h = false ∧ ascii_lowercase h = h.
Proof.
  intros [_ Hplain]. rewrite Forall_forall in Hplain. split.
  - destruct (existsb _ h) eqn:He; [|done]. apply existsb_exists in He as (b & Hb%list_elem_of_In & Hbad).
    destruct (Hplain _ Hb) as [(H32 & Hcl & _)%host_byte_inv _]. cbn in Hcl.
    repeat (apply orb_false_iff in Hcl as [? Hcl]). apply orb_true_iff in Hbad as [[?|?]%orb_true_iff|?]; lia.
  - apply lowercase_fixed, Forall_forall. intros b Hb.
    by destruct (Hplain _ Hb) as [(_ & _ & ?)%host_byte_inv _].
Qed.

(** Printing a well-formed origin as [scheme://host:port] in front of any
    path, query or fragment, and taking the origin of that URL, gives the
    origin back. *)
Theorem origin_roundtrip k o path :
  wf_origin o → plain_host (host o) →
  (path = [] ∨ ∃ b rest, path = b :: rest ∧ contains b (bs "/?#") = true) →
  http_origin k (print_origin o path) = Ok o.
Proof.
  destruct o as [s h p]. intros (Hs & Hp & _) Hplain Hpath. cbn in Hs, Hp, Hplain.
  unfold print_origin, http_origin. cbn [scheme host port]. rewrite split_scheme by done.
  assert (Hbyte : ∀ b, b ∈ h ++ bs ":" ++ to_string p → contains b (bs "/?#@") = false).
  { intros b. apply printed_byte; [done|lia]. }
  assert (take (authority_end (h ++ bs ":" ++ to_string p ++ path)) (h ++ bs ":" ++ to_string p ++ path)
    = h ++ bs ":" ++ to_string p) as ->.
  { unfold authority_end. replace (h ++ bs ":" ++ to_string p ++ path)
      with ((h ++ bs ":" ++ to_string p) ++ path) by (by rewrite <-!app_assoc).
    apply position_prefix; [|done]. intros b Hb%Hbyte. revert Hb.
    change (bs "/?#@") with [47; 63; 35; 64]. change (bs "/?#") with [47; 63; 35]. cbn.
    rewrite !orb_false_iff. tauto. }
  rewrite bool_decide_eq_false_2 by (destruct Hplain; by destruct h).
  assert (contains 64 (h ++ bs ":" ++ to_string p) = false) as ->.
  { destruct (contains 64 _) eqn:Hc; [|done]. by apply contains_spec, Hbyte in Hc. }
  assert (ascii_lowercase s = s) as -> by (by destruct Hs as [->| ->]). cbn [orb].
  assert (Hdp : ∃ dp, (if bytes_eqb s (bs "http") then Ok 80
      else if bytes_eqb s (bs "https") then Ok 443
      else Err (error_new k "NBReq permits only HTTP and HTTPS URLs")) = Ok dp)
    by (destruct Hs as [->| ->]; by eexists).
  destruct Hdp as [dp ->]. unfold mbind, outcome_bind. rewrite split_printed by done.
  rewrite bool_decide_eq_false_2 by (by destruct Hplain).
  by destruct (host_accepted h Hplain) as [-> ->].
Qed.

(** C40: Every origin the parser accepts is well formed: its scheme is http or
    https, its port is between 1 and 65535, and its host is not empty and
    holds no control byte, space, backslash, upper-case letter or URL
    delimiter, so it can be compared byte by byte. *)
Theorem http_origin_wf k u o :
  http_origin k u = Ok o →
  (scheme o = bs "http" ∨ scheme o = bs "https") ∧ 1 ≤ port o ≤ u16_max ∧
  host o ≠ [] ∧ Forall (λ b, host_byte b = true) (host o).
Proof. apply http_origin_inv. Qed.

(** ** Redirect chains

    One hop: the policy planned a redirect of [r] after [hops] hops for some
    status and target, and it was applied. *)
Inductive follows : Request * Z → Request * Z → Prop :=
| follows_hop r hops status u rd :
    plan_redirect r status hops (Ok (Some u)) = Ok (Some rd) →
    follows (r, hops) (apply_redirect rd r, hops + 1).

Lemma plan_redirect_inv r status hops u rd :
  plan_redirect r status hops (Ok (Some u)) = Ok (Some rd) →
  hops < redirect_limit (options r) ∧ rd_url rd = u ∧
  (rd_method rd = method r ∨ rd_method rd = Get ∨ rd_method rd = Head) ∧
  (rd_keep_body rd = false → rd_method rd = Get ∨ rd_method rd = Head) ∧
  ∃ so tgt, http_origin ErrorKind.Redirect (url r) = Ok so ∧ http_origin ErrorKind.Redirect u = Ok tgt ∧
    (scheme so = bs "https" → scheme tgt ≠ bs "http") ∧ (rd_cross_origin rd = false → so = tgt).
Proof.
  unfold plan_redirect. destruct (redirect_method (method r) status) as [[m kb]|] eqn:Hm; [|done].
  destruct (Z.eqb_spec (redirect_limit (options r)) 0); [done|].
  destruct (Z.leb_spec (redirect_limit (options r)) hops); [done|]. unfold mbind, outcome_bind.
  destruct (http_origin ErrorKind.Redirect (url r)) as [so| | |]; try done.
  destruct (http_origin ErrorKind.Redirect u) as [tgt| | |] eqn:Ht; try done.
  destruct (_ && _) eqn:Hdown; [done|]. intros [= <-]. cbn. split_and!; [done|done| | |].
  - revert Hm. unfold redirect_method. repeat case_match; intros; simplify_eq; auto.
  - intros ->. revert Hm. unfold redirect_method. repeat case_match; intros; simplify_eq; auto.
  - exists so, tgt. split_and!; try done.
    + intros Hs Htg. rewrite Hs, Htg in Hdown. done.
    + intros Hc%negb_false_iff. by apply bool_decide_eq_true in Hc.
Qed.

(** What holds all along a chain from [r0]. *)
Definition chain_inv (r0 : Request) (o0 : HttpOrigin) (p : Request * Z) : Prop :=
  let '(r, hops) := p in
  0 ≤ hops ≤ redirect_limit (options r0) ∧ options r = options r0 ∧ validate r = Ok tt ∧
  headers r ⊆ headers r0 ∧
  ∃ o, http_origin ErrorKind.Redirect (url r) = Ok o ∧
    (scheme o0 = bs "https" → scheme o = bs "https") ∧
    (o = o0 ∨ Forall (λ h, is_origin_bound (name h) = false) (headers r)).

Lemma valid_parts r : validate r = Ok tt →
  (∃ o, http_origin ErrorKind.InvalidRequest (url r) = Ok o) ∧
  (∀ m, method r = Other m → is_http_token m = true) ∧ forallb valid_header (headers r) = true.
Proof.
  unfold validate, mbind, outcome_bind. destruct (http_origin _ _) as [o| | |]; try done. intros H.
  split; [by exists o|].
  destruct (match method r with Other m => negb (is_http_token m) | _ => false end) eqn:Hm; [done|].
  destruct (forallb _ _) eqn:Hh; [|done]. split; [|done].
  intros m Hmeth. rewrite Hmeth in Hm. by apply negb_false_iff.
Qed.

Lemma validate_intro r o :
  http_origin ErrorKind.InvalidRequest (url r) = Ok o →
  (∀ m, method r = Other m → is_http_token m = true) → forallb valid_header (headers r) = true →
  validate r = Ok tt.
Proof.
  intros Ho Hm Hh. unfold validate, mbind, outcome_bind. rewrite Ho, Hh. cbn.
  destruct (method r) as [| | | | | |m] eqn:He; try done. by rewrite (Hm m).
Qed.

Lemma follows_inv r0 o0 p q : chain_inv r0 o0 p → follows p q → chain_inv r0 o0 q.
Proof.
  intros Hinv Hstep. destruct Hstep as [r hops status u rd Hplan].
  destruct Hinv as (Hhops & Hopt & Hval & Hsub & o & Ho & Hhttps & Hbound).
  apply plan_redirect_inv in Hplan as (Hlim & Hurl & Hmeth & _ & so & tgt & Hso & Htg & Hdown & Hcross).
  rewrite Ho in Hso. injection Hso as <-. rewrite Hopt in Hlim.
  destruct (valid_parts r Hval) as (_ & Hm & Hh).
  assert (Hf : ∀ h, h ∈ List.filter (keeps_header (rd_keep_body rd) (rd_cross_origin rd)) (headers r) →
    h ∈ headers r ∧ keeps_header (rd_keep_body rd) (rd_cross_origin rd) h = true).
  { intros h Hin%list_elem_of_In%filter_In. by rewrite <-list_elem_of_In in Hin. }
  unfold chain_inv, apply_redirect, redirected. cbn. rewrite Hurl. split_and!; try lia; try done.
  - eapply validate_intro; cbn; [by eapply http_origin_kind| |].
    + intros m Hm'. destruct Hmeth as [He|[He|He]]; rewrite He in Hm'; try done. by apply Hm.
    + apply forallb_forall. intros h Hin%list_elem_of_In%Hf. rewrite forallb_forall in Hh.
      apply Hh. apply list_elem_of_In. tauto.
  - intros h [Hin _]%Hf. by apply Hsub.
  - exists tgt. split_and!; [done| |].
    + intros H0. destruct (http_origin_inv _ _ _ Htg) as ([Hs|Hs] & _); [|done].
      by destruct (Hdown (Hhttps H0)).
    + destruct (rd_cross_origin rd) eqn:Hc.
      * right. apply Forall_forall. intros h (_ & Hk)%Hf. unfold keeps_header in Hk.
        apply andb_true_iff in Hk as [_ Hk]. by apply negb_true_iff in Hk.
      * rewrite <-(Hcross eq_refl). destruct Hbound as [->|Hb]; [by left|right].
        rewrite Forall_forall in *. intros h (Hin & _)%Hf. auto.
Qed.

(** C39: Along any chain of redirects followed from a valid request: the number
    of hops never exceeds the request's redirect limit; the options are
    unchanged; every request stays valid, with no header the first did not
    have; a chain that starts at https stays on https; and a request to
    another origin than the first carries no Authorization,
    Proxy-Authorization, Cookie or Host header. *)
Theorem redirect_chain_safe r0 r n :
  validate r0 = Ok tt → 0 ≤ redirect_limit (options r0) → rtc follows (r0, 0) (r, n) →
  n ≤ redirect_limit (options r0) ∧ options r = options r0 ∧ validate r = Ok tt ∧
  headers r ⊆ headers r0 ∧
  ∃ o0 o, http_origin ErrorKind.Redirect (url r0) = Ok o0 ∧ http_origin ErrorKind.Redirect (url r) = Ok o ∧
    (scheme o0 = bs "https" → scheme o = bs "https") ∧
    (o ≠ o0 → Forall (λ h, is_origin_bound (name h) = false) (headers r)).
Proof.
  intros Hval Hlim Hchain. destruct (valid_parts r0 Hval) as ([o0 Ho0] & _).
  apply (http_origin_kind _ ErrorKind.Redirect) in Ho0.
  assert (Hinv : chain_inv r0 o0 (r, n)).
  { eapply (rtc_ind_r (chain_inv r0 o0)); [| |exact Hchain].
    - split_and!; try done; try lia. exists o0. split_and!; auto.
    - intros p q _ Hstep Hp. by eapply follows_inv. }
  destruct Hinv as (Hhops & Hopt & Hv & Hsub & o & Ho & Hhttps & Hbound).
  split_and!; [lia|done|done|done|]. exists o0, o. split_and!; try done. by destruct Hbound.
Qed.

(** The redirect policy by status: 301 and 302 are followed only for GET
    and HEAD and keep the method; 303 always becomes GET (HEAD stays HEAD) and
    drops the body together with its Content-Length and Transfer-Encoding
    headers; 307 and 308 keep method and body; no other status is followed. *)
Theorem redirect_status_policy r status hops u rd :
  plan_redirect r status hops (Ok (Some u)) = Ok (Some rd) →
  let r' := apply_redirect rd r in
  url r' = u ∧
  (((status = 301 ∨ status = 302) ∧ (method r = Get ∨ method r = Head) ∧ method r' = method r ∧ body r' = body r) ∨
   (status = 303 ∧ method r' = (if bool_decide (method r = Head) then Head else Get) ∧
    bytes (body r') = [] ∧ Forall (λ h, is_body_header (name h) = false) (headers r')) ∨
   ((status = 307 ∨ status = 308) ∧ method r' = method r ∧ body r' = body r)).
Proof.
  intros Hplan. pose proof (plan_redirect_inv _ _ _ _ _ Hplan) as (_ & Hurl & _).
  unfold plan_redirect in Hplan. destruct (redirect_method (method r) status) as [[m kb]|] eqn:Hm; [|done].
  assert (rd_method rd = m ∧ rd_keep_body rd = kb) as [Hrm Hrk].
  { revert Hplan. unfold mbind, outcome_bind. repeat (case_match; try done). by intros [= <-]. }
  cbv zeta. unfold apply_redirect, redirected. cbn. rewrite Hrm, Hrk. split; [done|]. clear Hplan Hrm Hrk.
  unfold redirect_method in Hm. destruct (Z.eqb_spec status 301); [|destruct (Z.eqb_spec status 302)]; cbn [orb] in Hm.
  1,2: left; destruct (method r) eqn:Hmeth; simplify_eq; split_and!; auto.
  destruct (Z.eqb_spec status 303); [|destruct (Z.eqb_spec status 307); [|destruct (Z.eqb_spec status 308)]];
    cbn [orb] in Hm; simplify_eq.
  - right. left. split; [done|].
    assert (kb = false ∧ m = (if bool_decide (method r = Head) then Head else Get)) as [-> ->].
    { destruct (method r); by simplify_eq. }
    split_and!; [done|done|]. apply Forall_forall. intros h [_ Hk]%list_elem_of_In%filter_In.
    apply andb_true_iff in Hk as [Hk _]. by apply negb_true_iff.
  - right. right. split_and!; auto.
  - right. right. split_and!; auto.
Qed.

(** ** Concrete requests *)

Definition demo_origin : HttpOrigin := mkOrigin (bs "https") (bs "example.com") 8443.
Definition demo_request : Request :=
  mkRequest Post (bs "https://Example.com:8443/a?b#c")
    [mkHeader (bs "Authorization") (bs "secret"); mkHeader (bs "Content-Length") (bs "3");
     mkHeader (bs "Accept") (bs "*/*")]
    (mkBuffer [1; 2; 3] 3 None false None 0) default_options.
Definition demo_target : list Z := bs "https://other.example/x".
Definition demo_redirect : RequestRedirect := mkRedirect demo_target Get false true.

Lemma origin_roundtrip_witness :
  http_origin ErrorKind.InvalidRequest (print_origin demo_origin (bs "/a?b")) = Ok demo_origin.
Proof.
  apply origin_roundtrip.
  - unfold wf_origin. split_and!; [by right|done..|]. by_eval.
  - split; [done|]. by_eval.
  - right. exists 47, (bs "a?b"). by split.
Defined.

Lemma http_origin_wf_witness :
  http_origin ErrorKind.InvalidRequest (url demo_request) = Ok demo_origin ∧ 1 ≤ port demo_origin.
Proof.
  split; [by vm_compute|].
  exact (proj1 (proj1 (proj2 (http_origin_wf ErrorKind.InvalidRequest (url demo_request) demo_origin
    ltac:(by vm_compute))))).
Defined.

Lemma redirect_chain_safe_witness :
  let r := apply_redirect demo_redirect demo_request in
  headers r = [mkHeader (bs "Accept") (bs "*/*")] ∧ headers r ⊆ headers demo_request.
Proof.
  split; [by vm_compute|].
  refine (proj1 (proj2 (proj2 (proj2 (redirect_chain_safe demo_request
    (apply_redirect demo_redirect demo_request) 1 _ _ _))))).
  - by vm_compute.
  - done.
  - apply rtc_once. refine (follows_hop demo_request 0 303 demo_target demo_redirect _). by vm_compute.
Defined.

Lemma redirect_status_policy_witness :
  url (apply_redirect demo_redirect demo_request) = demo_target.
Proof.
  refine (proj1 (redirect_status_policy demo_request 303 0 demo_target demo_redirect _)). by vm_compute.
Defined.

(** The numeral parser of the port accepts a sign, which RFC 3986 does not. *)
Lemma port_accepts_sign :
  http_origin ErrorKind.InvalidRequest (bs "http://h:+80/") = Ok (mkOrigin (bs "http") (bs "h") 80).
Proof. by vm_compute. Qed.
