(* ===== verification/Stream.v ===== *)
(** * Streamed request and response bodies ([src/stream.rs])

    [Upload]: the bounded queue between an [UploadSender] and the Engine's
    [UploadBody]. [Download]: the bounded queue between the transport's
    [ResponseSink] (and the Engine's [ResponseControl]) and the caller's
    [ResponseReader]. A mutex-protected state is the state of the computation
    that holds the lock for the whole method; condition variables and wakers
    are counters of the notifications sent. *)

From stdpp Require Import base list strings.
From Stdlib Require Import ZArith Lia.
From S2P Require Import Prelude Errors BodyBudget Request.
Import Request.

Inductive RunMode := Spawned | Manual.
#[global] Instance RunMode_eq_dec : EqDecision RunMode.
Proof. solve_decision. Defined.

(** [state.queue] holds the chunks in order; [queued] is their total size. *)
Definition queued (q : list (list Z)) : Z := sumZ (map len q).

Module Upload.

Inductive UploadFraming := Fixed (length : Z) | Chunked.

Inductive ProducerState := Open | Finished | Abandoned | LengthMismatch.
#[global] Instance ProducerState_eq_dec : EqDecision ProducerState.
Proof. solve_decision. Defined.

Record UploadState := mkState {
  queue : list (list Z);
  queued_bytes : Z;
  accepted_bytes : Z;
  producer : ProducerState;
  receiver_alive : bool;
  total_limit : option Z;
  run_mode : option RunMode
}.

(** [engine_waker] is whether a waker is installed, [wakes] how often it was
    called, [notified] how often [changed] was notified. *)
Record UploadShared := mkShared {
  state : UploadState;
  framing : UploadFraming;
  queue_capacity : Z;
  engine_waker : bool;
  wakes : Z;
  notified : Z
}.

Definition set_state (s : UploadState) (u : UploadShared) : UploadShared :=
  mkShared s (framing u) (queue_capacity u) (engine_waker u) (wakes u) (notified u).
Definition notify_all (u : UploadShared) : UploadShared :=
  mkShared (state u) (framing u) (queue_capacity u) (engine_waker u) (wakes u) (notified u + 1).
Definition wake_engine (u : UploadShared) : UploadShared :=
  if engine_waker u
  then mkShared (state u) (framing u) (queue_capacity u) true (wakes u + 1) (notified u)
  else u.

Definition pair (f : UploadFraming) (capacity : Z) : outcome Error UploadShared :=
  if capacity =? 0
  then Err (error_new ErrorKind.InvalidRequest
              "a streamed upload queue capacity must be greater than zero")
  else Ok (mkShared (mkState [] 0 0 Open true None None) f capacity false 0 0).

Definition declared_length (u : UploadShared) : option Z :=
  match framing u with Fixed length => Some length | Chunked => None end.

Definition validate_for_build (u : UploadShared) : outcome Error unit :=
  match producer (state u) with
  | Open | Finished => Ok tt
  | Abandoned => Err (error_new ErrorKind.InvalidRequest
                        "the streamed upload sender was dropped before finish")
  | LengthMismatch => Err (error_new ErrorKind.InvalidRequest
                        "the fixed-length streamed upload was finished at the wrong length")
  end.

Definition exceeds_declared (f : UploadFraming) (n : Z) : bool :=
  match f with Fixed length => length <? n | Chunked => false end.

Definition bind (max_queue_capacity limit : Z) (mode : RunMode) : M UploadShared Error unit :=
  u ← get;
  if max_queue_capacity <? queue_capacity u then
    fail (error_limit LimitKind.StreamingQueueBytes
      (("streamed upload queue exceeds the configured " +:+ display max_queue_capacity)
         +:+ " byte per-transfer limit"))
  else
    (* [u64::try_from(total_limit).unwrap_or(u64::MAX)] *)
    let limit := Z.min limit u64_max in
    let st := state u in
    match total_limit st with
    | Some _ => fail (error_new ErrorKind.Internal
                        "a streamed upload body was bound to an Engine more than once")
    | None =>
        if negb (receiver_alive st) then
          fail (error_transport TransportStage.Send
                  "the streamed upload body closed before submission")
        else match producer st with
        | Abandoned => fail (error_transport TransportStage.Send
                          "the streamed upload sender was dropped before submission")
        | LengthMismatch => fail (error_transport TransportStage.Send
                          "the fixed-length streamed upload finished at the wrong length")
        | _ =>
            if (limit <? accepted_bytes st)
               || match framing u with Fixed length => limit <? length | Chunked => false end
            then fail (error_limit LimitKind.RequestBodyBytes
                   (("streamed request body exceeds the configured " +:+ display limit)
                      +:+ " byte limit"))
            else
              put (mkShared (mkState (queue st) (queued_bytes st) (accepted_bytes st) (producer st)
                               (receiver_alive st) (Some limit) (Some mode))
                     (framing u) (queue_capacity u) true (wakes u) (notified u))
        end
    end.

Inductive UploadPoll := Chunk (c : list Z) | Pending | PollFinished | Failed (e : Error).

Definition try_pop : M UploadShared Empty_set UploadPoll :=
  u ← get;
  let st := state u in
  if negb (receiver_alive st) then
    mret (Failed (error_transport TransportStage.Send "the streamed upload body is closed"))
  else match queue st with
  | chunk :: rest =>
      queued' ← lift (usub (queued_bytes st) (len chunk));
      _ ← put (notify_all (set_state (mkState rest queued' (accepted_bytes st) (producer st)
                 (receiver_alive st) (total_limit st) (run_mode st)) u));
      mret (Chunk chunk)
  | [] =>
      mret match producer st with
           | Open => Pending
           | Finished => PollFinished
           | Abandoned => Failed (error_transport TransportStage.Send
               "the streamed upload sender was dropped before finish")
           | LengthMismatch => Failed (error_transport TransportStage.Send
               "the fixed-length streamed upload finished at the wrong length")
           end
  end.

(** [UploadBody::close], and the same on drop. *)
Definition close (u : UploadShared) : UploadShared :=
  let st := state u in
  notify_all (set_state (mkState [] 0 (accepted_bytes st) (producer st) false
                           (total_limit st) (run_mode st)) u).

Inductive TryPushErrorKind :=
| WouldBlock | ChunkTooLarge | LengthExceeded | TotalLimitExceeded | Closed
| NotSubmitted | WrongMode.
Record TryPushError := mkPushError { push_kind : TryPushErrorKind; push_chunk : list Z }.

(** [total_limit.is_some_and(|limit| next > limit)] *)
Definition over_total (st : UploadState) (next : Z) : bool :=
  match total_limit st with Some limit => limit <? next | None => false end.

Section with_target.
Context {tgt : Target}.

Definition try_push (chunk : list Z) : M UploadShared TryPushError unit :=
  u ← get;
  if queue_capacity u <? len chunk then fail (mkPushError ChunkTooLarge chunk)
  else
    let st := state u in
    if negb (receiver_alive st) then fail (mkPushError Closed chunk)
    else if negb (bool_decide (producer st = Open)) then fail (mkPushError Closed chunk)
    else if u64_max <? len chunk then fail (mkPushError LengthExceeded chunk)
    else match checked_add u64_max (accepted_bytes st) (len chunk) with
    | None => fail (mkPushError LengthExceeded chunk)
    | Some next_accepted =>
        if over_total st next_accepted then fail (mkPushError TotalLimitExceeded chunk)
        else if exceeds_declared (framing u) next_accepted
        then fail (mkPushError LengthExceeded chunk)
        else
          available ← lift (usub (queue_capacity u) (queued_bytes st));
          if available <? len chunk then fail (mkPushError WouldBlock chunk)
          else
            queued' ← lift (uadd (queued_bytes st) (len chunk));
            put (wake_engine (notify_all (set_state
                   (mkState (if bool_decide (chunk = []) then queue st else queue st ++ [chunk])
                      queued' next_accepted (producer st) (receiver_alive st)
                      (total_limit st) (run_mode st)) u)))
    end.

(** The checks [push] makes once, before it starts to wait. [Some tt]: there
    is work to do; [None]: an empty chunk, done. *)
Definition push_admit (chunk : list Z) : M UploadShared TryPushError (option unit) :=
  if u64_max <? len chunk then fail (mkPushError LengthExceeded chunk)
  else
    u ← get;
    let st := state u in
    match run_mode st with
    | None => fail (mkPushError NotSubmitted chunk)
    | Some Manual => fail (mkPushError WrongMode chunk)
    | Some Spawned =>
        if bool_decide (chunk = []) then mret None
        else if negb (receiver_alive st) || negb (bool_decide (producer st = Open))
        then fail (mkPushError Closed chunk)
        else match checked_add u64_max (accepted_bytes st) (len chunk) with
        | None => fail (mkPushError LengthExceeded chunk)
        | Some next_accepted =>
            if over_total st next_accepted then fail (mkPushError TotalLimitExceeded chunk)
            else if exceeds_declared (framing u) next_accepted
            then fail (mkPushError LengthExceeded chunk)
            else mret (Some tt)
        end
    end.

(** One pass of the [while offset < chunk.len()] loop with the lock held:
    [None] when the thread waits on the condition variable, else the new
    offset. *)
Definition push_pass (chunk : list Z) (offset : Z) : M UploadShared TryPushError (option Z) :=
  u ← get;
  let st := state u in
  if receiver_alive st && bool_decide (producer st = Open)
     && (queued_bytes st =? queue_capacity u)
  then mret None
  else if negb (receiver_alive st) || negb (bool_decide (producer st = Open))
  then fail (mkPushError Closed (drop (Z.to_nat offset) chunk))
  else
    available ← lift (usub (queue_capacity u) (queued_bytes st));
    left ← lift (usub (len chunk) offset);
    let count := Z.min available left in
    accepted ← lift (slice chunk offset (offset + count));
    accepted_bytes' ← lift (u64_add (accepted_bytes st) count);
    queued' ← lift (uadd (queued_bytes st) count);
    _ ← put (wake_engine (notify_all (set_state
              (mkState (queue st ++ [accepted]) queued' accepted_bytes'
                 (producer st) (receiver_alive st) (total_limit st) (run_mode st)) u)));
    mret (Some (offset + count)).
End with_target.

Inductive UploadFinishErrorKind := FinishLengthMismatch | FinishClosed.
Record UploadFinishError := mkFinishError {
  finish_kind : UploadFinishErrorKind; expected : option Z; accepted : Z
}.

Definition set_producer (p : ProducerState) (st : UploadState) : UploadState :=
  mkState (queue st) (queued_bytes st) (accepted_bytes st) p (receiver_alive st)
    (total_limit st) (run_mode st).

(** [UploadSender::finish] consumes the sender; its drop then does nothing. *)
Definition finish : M UploadShared UploadFinishError unit := λ u,
  let st := state u in
  let exp := declared_length u in
  let acc := accepted_bytes st in
  let '(result, st') :=
    if negb (receiver_alive st) then (Err (mkFinishError FinishClosed exp acc), st)
    else if match exp with Some length => negb (length =? acc) | None => false end
    then (Err (mkFinishError FinishLengthMismatch exp acc), set_producer LengthMismatch st)
    else (Ok tt, set_producer Finished st) in
  (result, wake_engine (notify_all (set_state st' u))).

(** [Drop for UploadSender] when it was not finished. *)
Definition drop_sender (u : UploadShared) : UploadShared :=
  let st := state u in
  let st' := if bool_decide (producer st = Open) then set_producer Abandoned st else st in
  wake_engine (notify_all (set_state st' u)).

(** ** Interleavings of a transfer

    The operations of the two halves in any order, with logs of the bytes
    accepted from the sender and of the bytes handed to the transport. A
    sender is consumed by [finish] or its drop, and makes no other call while
    it is inside a blocking [push]. [None] is a panic. *)

Inductive transfer_op :=
| TryPush (chunk : list Z) | PushStart (chunk : list Z) | PushPass | Finish | DropSender
| TryPop | Close | Bind (max_queue limit : Z) (mode : RunMode).

Record transfer := mkTransfer {
  channel : UploadShared;
  sender_live : bool;
  pushing : option (list Z * Z);
  accepted_log : list Z;
  popped_log : list Z
}.

Definition start (u : UploadShared) : transfer := mkTransfer u true None [] [].

Definition transfer_step `{Target} (o : transfer_op) (t : transfer) : option transfer :=
  let '(mkTransfer u live busy acc pop) := t in
  let idle := live && match busy with None => true | Some _ => false end in
  match o with
  | TryPush chunk =>
      if negb idle then Some t
      else match try_push chunk u with
      | (Ok tt, u') => Some (mkTransfer u' live busy (acc ++ chunk) pop)
      | (Err _, u') => Some (mkTransfer u' live busy acc pop)
      | _ => None
      end
  | PushStart chunk =>
      if negb idle then Some t
      else match push_admit chunk u with
      | (Ok (Some tt), u') => Some (mkTransfer u' live (Some (chunk, 0)) acc pop)
      | (Ok None, u') | (Err _, u') => Some (mkTransfer u' live busy acc pop)
      | _ => None
      end
  | PushPass =>
      match busy with
      | None => Some t
      | Some (chunk, offset) =>
          match push_pass chunk offset u with
          | (Ok None, u') => Some (mkTransfer u' live busy acc pop)
          | (Ok (Some offset'), u') =>
              Some (mkTransfer u' live
                      (if offset' <? len chunk then Some (chunk, offset') else None)
                      (acc ++ subrange chunk offset offset') pop)
          | (Err _, u') => Some (mkTransfer u' live None acc pop)
          | _ => None
          end
      end
  | Finish =>
      if negb idle then Some t
      else match finish u with
      | (Ok _, u') | (Err _, u') => Some (mkTransfer u' false None acc pop)
      | _ => None
      end
  | DropSender => if negb idle then Some t else Some (mkTransfer (drop_sender u) false None acc pop)
  | TryPop =>
      match try_pop u with
      | (Ok (Chunk c), u') => Some (mkTransfer u' live busy acc (pop ++ c))
      | (Ok _, u') => Some (mkTransfer u' live busy acc pop)
      | _ => None
      end
  | Close => Some (mkTransfer (close u) live busy acc pop)
  | Bind max_queue limit mode =>
      match bind max_queue limit mode u with
      | (Ok _, u') | (Err _, u') => Some (mkTransfer u' live busy acc pop)
      | _ => None
      end
  end.

Fixpoint transfer_run `{Target} (ops : list transfer_op) (t : transfer) : option transfer :=
  match ops with
  | [] => Some t
  | o :: ops' => match transfer_step o t with Some t' => transfer_run ops' t' | None => None end
  end.

End Upload.

Module Download.

Record ResponseHead := mkHead { head_status : Z; head_headers : list Header }.
#[global] Instance ResponseHead_eq_dec : EqDecision ResponseHead.
Proof. solve_decision. Defined.

Inductive StreamTerminal := Complete | Failed (e : Error) | Cancelled.
#[global] Instance StreamTerminal_eq_dec : EqDecision StreamTerminal.
Proof. solve_decision. Defined.

Inductive StreamOutcome := OutCompleted | OutFailed | OutCancelled.
Definition outcome_of (t : StreamTerminal) : StreamOutcome :=
  match t with Complete => OutCompleted | Failed _ => OutFailed | Cancelled => OutCancelled end.

Record ResponseState := mkState {
  head : option ResponseHead;
  no_body : bool;
  queue : list (list Z);
  queued_bytes : Z;
  received_bytes : Z;
  terminal : option StreamTerminal;
  reader_alive : bool;
  generation : Z
}.

(** [recorded] is the sequence of outcomes reported to the metrics. *)
Record ResponseShared := mkShared {
  state : ResponseState;
  queue_capacity : Z;
  total_limit : Z;
  recorded : list StreamOutcome;
  notified : Z;
  wakes : Z
}.

Definition set_state (st : ResponseState) (s : ResponseShared) : ResponseShared :=
  mkShared st (queue_capacity s) (total_limit s) (recorded s) (notified s) (wakes s).
Definition record_terminal (o : StreamOutcome) (s : ResponseShared) : ResponseShared :=
  mkShared (state s) (queue_capacity s) (total_limit s) (recorded s ++ [o]) (notified s) (wakes s).
Definition notify_all (s : ResponseShared) : ResponseShared :=
  mkShared (state s) (queue_capacity s) (total_limit s) (recorded s) (notified s + 1) (wakes s).
Definition wake_transport (s : ResponseShared) : ResponseShared :=
  mkShared (state s) (queue_capacity s) (total_limit s) (recorded s) (notified s) (wakes s + 1).

(** [state.generation.wrapping_add(1)] *)
Definition next_generation (st : ResponseState) : Z := wrapping_add u64_max (generation st) 1.
Definition bump (st : ResponseState) : ResponseState :=
  mkState (head st) (no_body st) (queue st) (queued_bytes st) (received_bytes st) (terminal st)
    (reader_alive st) (next_generation st).

(** ** The transport's side

    [ResponseSink] is the shared state and its own [terminal] flag;
    [ResponseControl] is the shared state alone. *)

Record ResponseSink := mkSink { shared : ResponseShared; sink_terminal : bool }.

Definition set_terminal (t : StreamTerminal) (clear : bool) (st : ResponseState) : ResponseState :=
  mkState (head st) (no_body st) (if clear then [] else queue st)
    (if clear then 0 else queued_bytes st) (received_bytes st) (Some t) (reader_alive st)
    (generation st).

Definition control_commit (t : StreamTerminal) (s : ResponseShared) : bool * ResponseShared :=
  match terminal (state s) with
  | Some _ => (false, s)
  | None =>
      (true, wake_transport (notify_all (set_state (bump (set_terminal t true (state s)))
               (record_terminal (outcome_of t) s))))
  end.
Definition control_fail (e : Error) (s : ResponseShared) : bool * ResponseShared :=
  control_commit (Failed e) s.
Definition control_cancel (s : ResponseShared) : bool * ResponseShared := control_commit Cancelled s.
Definition is_terminal (s : ResponseShared) : bool :=
  match terminal (state s) with Some _ => true | None => false end.

Definition publish_head (h : ResponseHead) (no_body : bool) (k : ResponseSink) : bool * ResponseSink :=
  let s := shared k in
  let st := state s in
  match head st, terminal st, reader_alive st with
  | None, None, true =>
      let st' := mkState (Some h) no_body (queue st) (queued_bytes st) (received_bytes st)
                   (if no_body then Some Complete else None) true (generation st) in
      let s' := if no_body then record_terminal OutCompleted s else s in
      (true, mkSink (notify_all (set_state (bump st') s')) (if no_body then true else sink_terminal k))
  | _, _, _ => (false, k)
  end.

Inductive ResponsePushError :=
| WouldBlock (c : list Z) | PushClosed (c : list Z) | Protocol (c : list Z) | OverLimit (c : list Z).

Section with_target.
Context {tgt : Target}.

Definition sink_push (chunk : list Z) : M ResponseSink ResponsePushError unit :=
  k ← get;
  let s := shared k in
  let st := state s in
  if negb (reader_alive st) || match terminal st with Some _ => true | None => false end
  then fail (PushClosed chunk)
  else match head st with
  | None => fail (Protocol chunk)
  | Some _ =>
      match checked_add usize_max (received_bytes st) (len chunk) with
      | None => fail (OverLimit chunk)
      | Some next_total =>
          if total_limit s <? next_total then fail (OverLimit chunk)
          else
            available ← lift (usub (queue_capacity s) (queued_bytes st));
            if available <? len chunk then fail (WouldBlock chunk)
            else
              queued' ← lift (uadd (queued_bytes st) (len chunk));
              let st' := mkState (head st) (no_body st)
                           (if bool_decide (chunk = []) then queue st else queue st ++ [chunk])
                           queued' next_total (terminal st) (reader_alive st) (generation st) in
              put (mkSink (notify_all (set_state (bump st') s)) (sink_terminal k))
      end
  end.
End with_target.

Definition sink_commit (t : StreamTerminal) (k : ResponseSink) : ResponseSink :=
  let s := shared k in
  match terminal (state s) with
  | Some _ => k
  | None =>
      let clear := match t with Complete => false | _ => true end in
      mkSink (notify_all (set_state (bump (set_terminal t clear (state s)))
                (record_terminal (outcome_of t) s))) true
  end.
Definition sink_complete : ResponseSink → ResponseSink := sink_commit Complete.
Definition sink_fail (e : Error) : ResponseSink → ResponseSink := sink_commit (Failed e).
Definition sink_cancel : ResponseSink → ResponseSink := sink_commit Cancelled.

(** [Drop for ResponseSink]. *)
Definition drop_sink (k : ResponseSink) : ResponseSink :=
  if sink_terminal k then k
  else sink_fail (error_new ErrorKind.Internal
         "streaming response producer ended without a terminal result") k.

Definition available_capacity (s : ResponseShared) : outcome Empty_set Z :=
  usub (queue_capacity s) (queued_bytes (state s)).

(** ** The caller's side *)

Inductive StreamRead := Pending | Data (bytes : list Z) | Eof.
Inductive StreamError := StreamFailed (e : Error) | StreamCancelled | Operation (e : Error).

Record ResponseReader := mkReader {
  reader_mode : RunMode;
  reader_head : option ResponseHead;
  current : option (list Z * Z);
  body_started : bool;
  eof_reached : bool;
  seen_generation : Z
}.

Definition terminal_error_without_head (t : StreamTerminal) : StreamError :=
  match t with
  | Failed e => StreamFailed e
  | Cancelled => StreamCancelled
  | Complete => Operation (error_new ErrorKind.Internal
                  "streaming response completed without a final head")
  end.

Definition response_pair (mode : RunMode) (capacity limit : Z)
  : outcome Error (ResponseReader * ResponseSink) :=
  if capacity =? 0
  then Err (error_limit LimitKind.StreamingQueueBytes
              "a streaming response queue capacity must be greater than zero")
  else
    Ok (mkReader mode None None false false 0,
        mkSink (mkShared (mkState None false [] 0 0 None true 0) capacity limit [] 0 0) false).

(** Reader methods run on the reader and the shared state. *)
Definition MR := M (ResponseReader * ResponseShared) StreamError.

Definition try_head : MR (option ResponseHead) :=
  '(r, s) ← get;
  match reader_head r with
  | Some h => mret (Some h)
  | None =>
      let st := state s in
      match head st with
      | Some h =>
          let eof := if no_body st && bool_decide (terminal st = Some Complete)
                     then true else eof_reached r in
          _ ← put (mkReader (reader_mode r) (Some h) (current r) (body_started r) eof
                     (generation st), s);
          mret (Some h)
      | None =>
          _ ← put (mkReader (reader_mode r) None (current r) (body_started r) (eof_reached r)
                     (generation st), s);
          match terminal st with
          | Some t => fail (terminal_error_without_head t)
          | None => mret None
          end
      end
  end.

(** The chunk the next read takes bytes from: the current one, or else the
    front of the queue. *)
Definition next_chunk (r : ResponseReader) (st : ResponseState)
  : option (list Z * Z * list (list Z)) :=
  match current r with
  | Some (chunk, offset) => Some (chunk, offset, queue st)
  | None => match queue st with
            | chunk :: rest => Some (chunk, 0, rest)
            | [] => None
            end
  end.

Definition with_seen (r : ResponseReader) (cur : option (list Z * Z)) (started eof : bool) (g : Z)
  : ResponseReader := mkReader (reader_mode r) (reader_head r) cur started eof g.

(** The last part of [try_read]: bytes from the next chunk, or what an empty
    queue means. [destination] is its length. *)
Definition read_available (destination : Z) : MR StreamRead :=
  '(r, s) ← get;
  let st := state s in
  let g := generation st in
  match next_chunk r st with
  | None =>
      if bool_decide (terminal st = Some Complete)
      then _ ← put (with_seen r None (body_started r) true g, s); mret Eof
      else _ ← put (with_seen r None (body_started r) (eof_reached r) g, s); mret Pending
  | Some (chunk, offset, rest) =>
      left ← lift (usub (len chunk) offset);
      let count := Z.min destination left in
      data ← lift (slice chunk offset (offset + count));
      queued' ← lift (usub (queued_bytes st) count);
      let offset := offset + count in
      let st' := bump (mkState (head st) (no_body st) rest queued' (received_bytes st)
                         (terminal st) (reader_alive st) g) in
      let chunk_done := offset =? len chunk in
      let eof := if chunk_done && bool_decide (rest = []) && bool_decide (terminal st = Some Complete)
                 then true else eof_reached r in
      _ ← put (with_seen r (if chunk_done then None else Some (chunk, offset))
                 (body_started r || negb (count =? 0)) eof (generation st'),
               wake_transport (notify_all (set_state st' s)));
      mret (Data data)
  end.

Definition try_read (destination : Z) : MR StreamRead :=
  h ← try_head;
  match h with
  | None => mret Pending
  | Some _ =>
      '(r, s) ← get;
      if eof_reached r then mret Eof
      else if destination =? 0 then mret (Data [])
      else
        match terminal (state s) with
        | Some (Failed e) =>
            _ ← put (with_seen r None (body_started r) (eof_reached r) (generation (state s)), s);
            fail (StreamFailed e)
        | Some Cancelled =>
            _ ← put (with_seen r None (body_started r) (eof_reached r) (generation (state s)), s);
            fail StreamCancelled
        | _ => read_available destination
        end
  end.

Definition require_spawned (r : ResponseReader) (operation : string) : outcome StreamError unit :=
  match reader_mode r with
  | Manual => Err (Operation (error_new ErrorKind.WrongMode
                 (operation +:+ " is not available for a manual Engine")))
  | Spawned => Ok tt
  end.

(** [Drop for ResponseReader]: [true] when it requests cancellation. *)
Definition drop_reader (r : ResponseReader) (s : ResponseShared) : bool * ResponseShared :=
  let st := state s in
  let st' := bump (mkState (head st) (no_body st) [] 0 (received_bytes st) (terminal st)
                     false (generation st)) in
  (negb (eof_reached r), wake_transport (notify_all (set_state st' s))).

(** ** Interleavings of an exchange

    The transport, the Engine's control and the reader in any order, with
    logs of the bytes pushed and of the bytes read. [None] is a panic. *)

Inductive exchange_op :=
| PublishHead (h : ResponseHead) (no_body : bool) | SinkPush (chunk : list Z)
| SinkComplete | SinkFail (e : Error) | SinkCancel | DropSink
| ControlFail (e : Error) | ControlCancel
| TryHead | TryRead (destination : Z) | DropReader.

Record exchange := mkExchange {
  reader : ResponseReader;
  sink : ResponseSink;
  sink_live : bool;
  reader_live : bool;
  pushed_log : list Z;
  read_log : list Z
}.

Definition open_exchange (r : ResponseReader) (k : ResponseSink) : exchange :=
  mkExchange r k true true [] [].

Definition on_shared (s : ResponseShared) (k : ResponseSink) : ResponseSink :=
  mkSink s (sink_terminal k).

(** The bytes a read delivered. *)
Definition delivered (r : StreamRead) : list Z := match r with Data d => d | _ => [] end.

Definition exchange_step `{Target} (o : exchange_op) (x : exchange) : option exchange :=
  let '(mkExchange r k kl rl pushed got) := x in
  let with_sink k' := Some (mkExchange r k' kl rl pushed got) in
  match o with
  | PublishHead h nb => if kl then with_sink (snd (publish_head h nb k)) else Some x
  | SinkPush chunk =>
      if kl then
        match sink_push chunk k with
        | (Ok _, k') => Some (mkExchange r k' kl rl (pushed ++ chunk) got)
        | (Err _, k') => with_sink k'
        | _ => None
        end
      else Some x
  | SinkComplete => if kl then with_sink (sink_complete k) else Some x
  | SinkFail e => if kl then with_sink (sink_fail e k) else Some x
  | SinkCancel => if kl then with_sink (sink_cancel k) else Some x
  | DropSink => if kl then Some (mkExchange r (drop_sink k) false rl pushed got) else Some x
  | ControlFail e => with_sink (on_shared (snd (control_fail e (shared k))) k)
  | ControlCancel => with_sink (on_shared (snd (control_cancel (shared k))) k)
  | TryHead =>
      if rl then
        match try_head (r, shared k) with
        | (Ok _, (r', s')) | (Err _, (r', s')) => Some (mkExchange r' (on_shared s' k) kl rl pushed got)
        | _ => None
        end
      else Some x
  | TryRead n =>
      if rl then
        match try_read n (r, shared k) with
        | (Ok d, (r', s')) =>
            Some (mkExchange r' (on_shared s' k) kl rl pushed (got ++ delivered d))
        | (Err _, (r', s')) => Some (mkExchange r' (on_shared s' k) kl rl pushed got)
        | _ => None
        end
      else Some x
  | DropReader =>
      if rl then Some (mkExchange r (on_shared (snd (drop_reader r (shared k))) k) kl false pushed got)
      else Some x
  end.

Fixpoint exchange_run `{Target} (ops : list exchange_op) (x : exchange) : option exchange :=
  match ops with
  | [] => Some x
  | o :: ops' => match exchange_step o x with Some x' => exchange_run ops' x' | None => None end
  end.

End Download.
