(* ===== verification/StreamProofs.v ===== *)
(** * Correctness of streamed bodies

    [UploadProofs]: whatever the interleaving of the two halves, the queue
    stays within its capacity, the transport sees exactly the bytes the sender
    had accepted, in order, and a blocking push completes while the transport
    keeps popping. [DownloadProofs]: the same for the response queue, and the
    terminal result is recorded exactly once. *)

From stdpp Require Import base list strings.
From Stdlib Require Import ZArith Lia.
From S2P Require Import Prelude Errors BodyBudget Request Stream.

#[local] Arguments queued : simpl never.
#[local] Arguments bool_decide : simpl never.
#[local] Arguments len : simpl never.

Lemma queued_app q c : queued (q ++ [c]) = queued q + len c.
Proof. unfold queued. rewrite map_app, sumZ_app. cbn [map sumZ]. lia. Qed.

Lemma queued_cons c q : queued (c :: q) = len c + queued q.
Proof. done. Qed.

Lemma queued_nonneg q : 0 ≤ queued q.
Proof.
  apply sumZ_nonneg, Forall_forall. intros x (c & <- & _)%list_elem_of_In%in_map_iff.
  apply len_nonneg.
Qed.

(** [if chunk.is_empty() {} else { queue.push_back(chunk) }] *)
Lemma queued_push q c : queued (if bool_decide (c = []) then q else q ++ [c]) = queued q + len c.
Proof. case_bool_decide; [subst; rewrite len_nil; lia|apply queued_app]. Qed.

Lemma concat_push (q : list (list Z)) c :
  concat (if bool_decide (c = []) then q else q ++ [c]) = concat q ++ c.
Proof.
  case_bool_decide; [subst; by rewrite app_nil_r|].
  rewrite concat_app. cbn [concat]. by rewrite app_nil_r.
Qed.

Lemma nonempty_push (q : list (list Z)) c :
  Forall (λ c, c ≠ []) q →
  Forall (λ c, c ≠ []) (if bool_decide (c = []) then q else q ++ [c]).
Proof. intros Hq. case_bool_decide; [done|]. apply Forall_app. by split; [|constructor]. Qed.

Lemma subrange_step c a b : 0 ≤ a ≤ b → b ≤ len c →
  drop (Z.to_nat a) c = subrange c a b ++ drop (Z.to_nat b) c.
Proof.
  intros Ha Hb. unfold subrange.
  replace (Z.to_nat b) with (Z.to_nat a + Z.to_nat (b - a))%nat by lia.
  rewrite <-drop_drop. by rewrite take_drop.
Qed.

Module UploadProofs.
Import Upload.

Section with_target.
Context {tgt : Target}.

(** [n] bytes in total are within every limit of the transfer. *)
Definition within (u : UploadShared) (n : Z) : Prop :=
  n ≤ u64_max ∧ over_total (state u) n = false ∧ exceeds_declared (framing u) n = false.

(** The shared state against the logs of the bytes accepted and popped. *)
Definition channel_inv (u : UploadShared) (acc pop : list Z) : Prop :=
  let st := state u in
  1 ≤ queue_capacity u ≤ usize_max ∧
  queued_bytes st = queued (queue st) ∧ queued_bytes st ≤ queue_capacity u ∧
  Forall (λ c, c ≠ []) (queue st) ∧
  accepted_bytes st = len acc ∧ within u (len acc) ∧
  (total_limit st = None → run_mode st = None) ∧
  (producer st = Finished → ∀ n, framing u = Fixed n → len acc = n) ∧
  if receiver_alive st then acc = pop ++ concat (queue st)
  else queue st = [] ∧ pop `prefix_of` acc.

(** A blocking push at [offset]: the rest of its chunk was admitted. *)
Definition pushing_inv (u : UploadShared) (acc : list Z) (busy : option (list Z * Z)) : Prop :=
  match busy with
  | None => True
  | Some (chunk, offset) =>
      0 ≤ offset < len chunk ∧ run_mode (state u) ≠ None ∧ producer (state u) = Open ∧
      within u (len acc + (len chunk - offset))
  end.

Definition transfer_inv (t : transfer) : Prop :=
  channel_inv (channel t) (accepted_log t) (popped_log t) ∧
  pushing_inv (channel t) (accepted_log t) (pushing t) ∧
  (pushing t ≠ None → sender_live t = true).

Lemma within_mono u n m : m ≤ n → within u n → within u m.
Proof.
  unfold within, over_total, exceeds_declared. intros Hm (H1 & H2 & H3). split_and!; [lia| |].
  - destruct (total_limit _); [|done]. apply Z.ltb_ge. apply Z.ltb_ge in H2. lia.
  - destruct (framing u); [|done]. apply Z.ltb_ge. apply Z.ltb_ge in H3. lia.
Qed.

(** Notifications touch only the counters. *)
Lemma wake_state u : state (wake_engine u) = state u.
Proof. unfold wake_engine. by destruct (engine_waker u). Qed.
Lemma wake_framing u : framing (wake_engine u) = framing u.
Proof. unfold wake_engine. by destruct (engine_waker u). Qed.
Lemma wake_capacity u : queue_capacity (wake_engine u) = queue_capacity u.
Proof. unfold wake_engine. by destruct (engine_waker u). Qed.
Lemma wake_within u n : within (wake_engine u) n = within u n.
Proof. unfold within. by rewrite wake_state, wake_framing. Qed.
Lemma wake_channel_inv u acc pop : channel_inv (wake_engine u) acc pop = channel_inv u acc pop.
Proof. unfold channel_inv. by rewrite wake_state, wake_framing, wake_capacity, wake_within. Qed.

Ltac destruct_inv :=
  match goal with
  | H : channel_inv _ _ _ |- _ =>
      let Hc := fresh "Hcap" in let Hq := fresh "Hqueued" in let Hb := fresh "Hbound" in
      let Hn := fresh "Hne" in let Ha := fresh "Hacc" in let Hw := fresh "Hwithin" in
      let Hm := fresh "Hmode" in let Hf := fresh "Hfin" in let Hx := fresh "Hfifo" in
      destruct H as (Hc & Hq & Hb & Hn & Ha & Hw & Hm & Hf & Hx)
  end.

Lemma try_push_inv chunk u acc pop :
  channel_inv u acc pop →
  wp (try_push chunk) (λ _ u', channel_inv u' (acc ++ chunk) pop)
    (λ e u', u' = u ∧ push_chunk e = chunk) u.
Proof.
  intros Hinv. destruct_inv. unfold try_push. wp_go.
  zcase; wp_go; [done|]. destruct (receiver_alive (state u)) eqn:Halive; wp_go; [|done].
  case_bool_decide as Hopen; wp_go; [|done]. zcase; wp_go; [done|].
  unfold checked_add. zcase; wp_go; [|done].
  destruct (over_total _ _) eqn:Htotal; wp_go; [done|].
  destruct (exceeds_declared _ _) eqn:Hdecl; wp_go; [done|].
  apply owp_usub; [done|]. zcase; wp_go; [done|].
  apply owp_uadd; [lia|]. wp_go. rewrite wake_channel_inv.
  unfold channel_inv, within, over_total in *. cbn.
  rewrite ?queued_push, ?concat_push, len_app, ?Halive, ?Hopen, <-?Hacc.
  split_and!; try done; try lia.
  - by apply nonempty_push.
  - by rewrite Hfifo, app_assoc.
Qed.

Lemma push_admit_inv chunk u acc pop :
  channel_inv u acc pop →
  wp (push_admit chunk)
    (λ r u', u' = u ∧ (r = Some tt → pushing_inv u acc (Some (chunk, 0))))
    (λ e u', u' = u ∧ push_chunk e = chunk) u.
Proof.
  intros Hinv. destruct_inv. unfold push_admit. zcase; wp_go; [done|].
  destruct (run_mode (state u)) as [[]|] eqn:Hmode'; wp_go; try done.
  case_bool_decide; wp_go; [done|].
  destruct (negb _ || negb _) eqn:Hclosed; wp_go; [done|].
  apply orb_false_iff in Hclosed as [_ Hopen%negb_false_iff%bool_decide_eq_true].
  unfold checked_add. zcase; wp_go; [|done].
  destruct (over_total _ _) eqn:Htotal; wp_go; [done|].
  destruct (exceeds_declared _ _) eqn:Hdecl; wp_go; [done|].
  split; [done|]. intros _. unfold pushing_inv, within. rewrite Z.sub_0_r, <-Hacc, Hmode'.
  assert (len chunk ≠ 0) by (by intros ?%len_zero). pose proof (len_nonneg chunk).
  split_and!; try done; lia.
Qed.

(** A pass waits only when the queue is full; otherwise it moves at least one
    byte, or finds the transfer closed. *)
Lemma push_pass_inv chunk offset u acc pop :
  channel_inv u acc pop → pushing_inv u acc (Some (chunk, offset)) →
  wp (push_pass chunk offset)
    (λ r u', match r with
       | None => u' = u ∧ receiver_alive (state u) = true ∧ queued_bytes (state u) = queue_capacity u
       | Some offset' =>
           offset < offset' ≤ len chunk ∧ receiver_alive (state u') = true ∧
           channel_inv u' (acc ++ subrange chunk offset offset') pop ∧
           (offset' < len chunk →
            pushing_inv u' (acc ++ subrange chunk offset offset') (Some (chunk, offset')))
       end)
    (λ e u', u' = u ∧ receiver_alive (state u) = false ∧
             push_chunk e = drop (Z.to_nat offset) chunk) u.
Proof.
  intros Hinv (Hoff & Hrm & Hopen & Hrest). destruct_inv. unfold push_pass. wp_go.
  rewrite Hopen, bool_decide_eq_true_2 by done.
  destruct (receiver_alive (state u)) eqn:Halive; cbn [andb orb negb]; [|wp_go; done].
  zcase; wp_go; [done|].
  apply owp_usub; [done|]. wp_go. apply owp_usub; [lia|]. wp_go.
  set (count := Z.min _ _). assert (0 < count ≤ len chunk - offset) by lia.
  apply owp_slice; [lia..|]. wp_go. destruct Hrest as (Hmax & Htot & Hdec).
  apply owp_u64_add; [lia|]. wp_go. apply owp_uadd; [lia|]. wp_go.
  set (acc' := acc ++ _). assert (Hlen : len acc' = len acc + count).
  { unfold acc'. rewrite len_app, len_subrange by lia. lia. }
  assert (Hw : within u (len acc')).
  { eapply (within_mono u (len acc + (len chunk - offset))); [lia|done]. }
  rewrite wake_channel_inv, wake_state. unfold pushing_inv. rewrite wake_state, wake_within.
  split_and!; [lia|lia|done| |].
  - unfold channel_inv, within, over_total in *. cbn.
    rewrite ?queued_app, ?concat_app, ?Halive, ?Hopen. cbn. rewrite app_nil_r, len_subrange by lia.
    split_and!; try done; try lia; try tauto.
    + apply Forall_app. split; [done|]. constructor; [|done]. intros Hnil.
      assert (Hl : len (subrange chunk offset (offset + count)) = 0) by (by rewrite Hnil).
      rewrite len_subrange in Hl by lia. lia.
    + unfold acc'. by rewrite Hfifo, app_assoc.
  - intros Hlt. cbn. split_and!; try done; try lia. rewrite Hlen.
    replace (len acc + count + (len chunk - (offset + count)))
      with (len acc + (len chunk - offset)) by lia. done.
Qed.

Lemma finish_inv u acc pop :
  channel_inv u acc pop →
  wp finish (λ _ u', channel_inv u' acc pop ∧ producer (state u') = Finished)
    (λ _ u', channel_inv u' acc pop) u.
Proof.
  intros Hinv. destruct_inv. unfold wpx, finish, declared_length.
  destruct (receiver_alive (state u)) eqn:Halive; cbn [negb].
  - destruct (framing u) as [n|] eqn:Hfr; [destruct (Z.eqb_spec n (accepted_bytes (state u)))|];
      cbn [negb]; rewrite ?wake_channel_inv, ?wake_state; unfold channel_inv, within, over_total in *;
      cbn; rewrite Hfr, Halive in *; split_and!; try done; try tauto; intros; simplify_eq; lia.
  - rewrite wake_channel_inv. unfold channel_inv. cbn. rewrite Halive. split_and!; try done; tauto.
Qed.

Lemma drop_sender_inv u acc pop : channel_inv u acc pop → channel_inv (drop_sender u) acc pop.
Proof.
  intros Hinv. destruct_inv. unfold drop_sender. rewrite wake_channel_inv.
  case_bool_decide; unfold channel_inv, within, over_total in *; cbn; split_and!; try done; tauto.
Qed.

Lemma close_inv u acc pop : channel_inv u acc pop → channel_inv (close u) acc pop.
Proof.
  intros Hinv. destruct_inv. pose proof (queued_nonneg (queue (state u))).
  unfold channel_inv, within, over_total in *. cbn. split_and!; try done; try lia; try tauto.
  destruct (receiver_alive (state u)); [|tauto]. rewrite Hfifo. by apply prefix_app_r.
Qed.

Lemma try_pop_inv u acc pop :
  channel_inv u acc pop →
  wp try_pop
    (λ r u', match r with
       | Chunk c => channel_inv u' acc (pop ++ c) ∧ queued_bytes (state u') < queue_capacity u' ∧
                    receiver_alive (state u') = true ∧ producer (state u') = producer (state u)
       | PollFinished => u' = u ∧ producer (state u) = Finished ∧ acc = pop
       | _ => u' = u ∧ (receiver_alive (state u) = true → queue (state u) = [])
       end) (λ _ _, False) u.
Proof.
  intros Hinv. pose proof Hinv as Hinv'. destruct_inv. unfold try_pop. wp_go.
  destruct (receiver_alive (state u)) eqn:Halive; cbn [negb]; wp_go; [|done].
  destruct (queue (state u)) as [|c rest] eqn:Hq.
  - wp_go. cbn in Hfifo. rewrite app_nil_r in Hfifo. by destruct (producer (state u)).
  - rewrite queued_cons in Hqueued. pose proof (queued_nonneg rest).
    apply Forall_cons in Hne as [Hc Hne]. assert (len c ≠ 0) by (by intros ?%len_zero).
    pose proof (len_nonneg c).
    wp_go. apply owp_usub; [lia|]. wp_go. split_and!; try done; [|cbn; lia].
    unfold channel_inv, within, over_total in *. cbn. rewrite ?Halive.
    split_and!; try done; try lia; try tauto. by rewrite <-app_assoc.
Qed.

Lemma bind_inv mq limit mode u acc pop :
  channel_inv u acc pop →
  wp (bind mq limit mode)
    (λ _ u', channel_inv u' acc pop ∧ total_limit (state u) = None)
    (λ _ u', u' = u) u.
Proof.
  intros Hinv. destruct_inv. unfold bind. wp_go. zcase; wp_go; [done|].
  destruct (total_limit (state u)) eqn:Htl; wp_go; [done|].
  destruct (receiver_alive (state u)) eqn:Halive; wp_go; [|done].
  assert (Hok : (Z.min limit u64_max <? accepted_bytes (state u)) = false →
    channel_inv (mkShared (mkState (queue (state u)) (queued_bytes (state u))
      (accepted_bytes (state u)) (producer (state u)) (receiver_alive (state u))
      (Some (Z.min limit u64_max)) (Some mode)) (framing u) (queue_capacity u) true (wakes u)
      (notified u)) acc pop).
  { intros Hb. unfold channel_inv, within, over_total in *. cbn. rewrite ?Halive.
    rewrite Hacc in Hb. split_and!; try done; try tauto; lia. }
  destruct (producer (state u)) eqn:Hp; wp_go; try done;
    (destruct (_ || _) eqn:Hlim; wp_go; [done|]); rewrite ?Halive in Hok;
    apply orb_false_iff in Hlim as [Hlim _]; split; try done; by apply Hok.
Qed.

Lemma start_inv f capacity u :
  1 ≤ capacity ≤ usize_max → (∀ n, f = Fixed n → 0 ≤ n) → pair f capacity = Ok u →
  transfer_inv (start u).
Proof.
  intros Hcap Hf. unfold pair. zcase; [done|]. intros [= <-]. split_and!; [|done..].
  unfold channel_inv, within, exceeds_declared. cbn. split_and!; try done; try lia.
  destruct f as [m|]; [|done]. apply Z.ltb_ge. by apply Hf.
Qed.

(** What is stable when the receiver acts during a blocking push. *)
Lemma pushing_pop u u' acc busy :
  pushing_inv u acc busy → producer (state u') = producer (state u) →
  run_mode (state u') = run_mode (state u) → total_limit (state u') = total_limit (state u) →
  framing u' = framing u → pushing_inv u' acc busy.
Proof.
  destruct busy as [[c off]|]; [|done]. unfold pushing_inv, within, over_total.
  by intros (? & ? & ? & ?) -> -> -> ->.
Qed.

Lemma try_pop_fields u r u' :
  try_pop u = (r, u') →
  producer (state u') = producer (state u) ∧ run_mode (state u') = run_mode (state u) ∧
  total_limit (state u') = total_limit (state u) ∧ framing u' = framing u.
Proof.
  unfold try_pop, mbind, M_bind, get, lift, put, mret, M_ret, usub.
  destruct (negb _); [by intros [= <- <-]|]. destruct (queue (state u)); [by intros [= <- <-]|].
  zcase; by intros [= <- <-].
Qed.

Lemma transfer_step_inv o t :
  transfer_inv t → ∃ t', transfer_step o t = Some t' ∧ transfer_inv t'.
Proof.
  destruct t as [u live busy acc pop]. intros (Hch & Hpush & Hlive). cbn in Hch, Hpush, Hlive.
  unfold transfer_inv, transfer_step. destruct o.
  - destruct (live && _) eqn:Hidle; cbn [negb]; [|by eexists].
    apply andb_true_iff in Hidle as [-> Hbusy]. destruct busy; [done|].
    destruct (wp_inv _ _ _ _ (try_push_inv chunk u acc pop Hch))
      as [([] & u' & -> & Hu')|(e & u' & -> & -> & _)]; eexists; by split.
  - destruct (live && _) eqn:Hidle; cbn [negb]; [|by eexists].
    apply andb_true_iff in Hidle as [-> Hbusy]. destruct busy; [done|].
    destruct (wp_inv _ _ _ _ (push_admit_inv chunk u acc pop Hch))
      as [([[]|] & u' & -> & -> & Hp)|(e & u' & -> & -> & _)]; eexists; split_and!; try done.
    by apply Hp.
  - destruct busy as [[c off]|]; [|by eexists].
    destruct (wp_inv _ _ _ _ (push_pass_inv c off u acc pop Hch Hpush))
      as [([off'|] & u' & -> & Hu')|(e & u' & -> & -> & _)]; eexists; split_and!; try done.
    + by destruct Hu' as (_ & _ & ? & _).
    + destruct Hu' as (_ & _ & _ & Hp). cbn. zcase; [by apply Hp|done].
    + intros _. by apply Hlive.
    + by destruct Hu' as [-> _].
    + by destruct Hu' as [-> _].
  - destruct (live && _) eqn:Hidle; cbn [negb]; [|by eexists].
    destruct (wp_inv _ _ _ _ (finish_inv u acc pop Hch))
      as [([] & u' & -> & Hu' & _)|(e & u' & -> & Hu')]; eexists; by split.
  - destruct (live && _) eqn:Hidle; cbn [negb]; [|by eexists].
    eexists. split; [done|]. split_and!; [by apply drop_sender_inv|done..].
  - destruct (wp_inv _ _ _ _ (try_pop_inv u acc pop Hch)) as [(r & u' & Hr & Hu')|(? & ? & ? & [])].
    destruct (try_pop_fields _ _ _ Hr) as (H1 & H2 & H3 & H4). rewrite Hr.
    assert (Hp : pushing_inv u' acc busy) by (by eapply pushing_pop).
    destruct r; eexists; split_and!; try done; cbn; first [by destruct Hu' as [? _] | destruct Hu' as [-> _]; done].
  - eexists. split; [done|]. split_and!; [by apply close_inv| |done]. by eapply pushing_pop.
  - destruct (wp_inv _ _ _ _ (bind_inv max_queue limit mode u acc pop Hch))
      as [([] & u' & -> & Hu' & Htl)|(e & u' & -> & ->)]; eexists; split_and!; try done.
    destruct busy as [[c off]|]; [|done]. destruct Hpush as (_ & Hrm & _).
    destruct Hch as (_ & _ & _ & _ & _ & _ & Hmode & _). by specialize (Hmode Htl).
Qed.

Lemma transfer_run_inv ops t :
  transfer_inv t → ∃ t', transfer_run ops t = Some t' ∧ transfer_inv t'.
Proof.
  revert t. induction ops as [|o ops IH]; intros t Ht; cbn [transfer_run]; [by eexists|].
  destruct (transfer_step_inv o t Ht) as (t' & -> & Ht'). by apply IH.
Qed.

(** The framing and the capacity never change. *)
Lemma transfer_step_config o t t' :
  transfer_step o t = Some t' →
  framing (channel t') = framing (channel t) ∧
  queue_capacity (channel t') = queue_capacity (channel t).
Proof.
  destruct t as [u live busy acc pop]. destruct o; cbn;
    unfold try_push, push_admit, push_pass, finish, drop_sender, try_pop, bind, mbind, M_bind, get,
      lift, put, fail, mret, M_ret;
    repeat (case_match; simplify_eq; try done); intros; simplify_eq; cbn;
    rewrite ?wake_framing, ?wake_capacity; done.
Qed.

Lemma transfer_run_config ops t t' :
  transfer_run ops t = Some t' →
  framing (channel t') = framing (channel t) ∧
  queue_capacity (channel t') = queue_capacity (channel t).
Proof.
  revert t. induction ops as [|o ops IH]; intros t; cbn [transfer_run]; [by intros [= <-]|].
  destruct (transfer_step o t) as [t1|] eqn:Hstep; [|done].
  intros (-> & ->)%IH. by apply transfer_step_config with o.
Qed.

(** One round of the transport popping and the blocked sender going on. *)
Definition pop_then_pass : list transfer_op := [TryPop; PushPass].

Lemma round_progress t c off :
  transfer_inv t → pushing t = Some (c, off) → receiver_alive (state (channel t)) = true →
  ∃ t' off', transfer_run pop_then_pass t = Some t' ∧ transfer_inv t' ∧
    receiver_alive (state (channel t')) = true ∧ off < off' ≤ len c ∧
    accepted_log t' = accepted_log t ++ subrange c off off' ∧
    pushing t' = if off' <? len c then Some (c, off') else None.
Proof.
  intros Ht Hp Halive.
  destruct (transfer_step_inv TryPop t Ht) as (t1 & Hpop & Ht1).
  destruct (transfer_step_inv PushPass t1 Ht1) as (t2 & Hpass & Ht2).
  exists t2. cbn [transfer_run pop_then_pass]. rewrite Hpop, Hpass.
  destruct t as [u live busy acc pop]. cbn in Hp, Halive. subst busy. cbn in Hpop.
  assert (∃ u1 pop1, t1 = mkTransfer u1 live (Some (c, off)) acc pop1 ∧
    receiver_alive (state u1) = true ∧ queued_bytes (state u1) < queue_capacity u1)
    as (u1 & pop1 & -> & Halive1 & Hroom).
  { destruct Ht as (Hch & _). cbn in Hch.
    destruct (wp_inv _ _ _ _ (try_pop_inv u acc pop Hch)) as [(r & u' & Hr & Hu')|(? & ? & ? & [])].
    destruct Hch as (Hcap & Hq & _ & _ & _ & _ & _ & _ & Hfifo).
    rewrite Hr in Hpop. destruct r; simplify_eq; eexists _, _; split; try done;
      destruct Hu' as (Hu' & Hrest); subst.
    - tauto.
    - split; [done|]. rewrite Hq, (Hrest Halive). change (queued []) with 0. lia.
    - split; [done|]. destruct Hrest as [_ ->]. rewrite Halive in Hfifo.
      rewrite Hq. assert (concat (queue (state u)) = []) as Hnil.
      { apply (f_equal length) in Hfifo. rewrite length_app in Hfifo. apply nil_length_inv. lia. }
      destruct Ht1 as ((_ & _ & _ & Hne & _) & _). cbn in Hne.
      destruct (queue (state u)) as [|c0 q]; [change (queued []) with 0; lia|]. cbn in Hnil. apply app_eq_nil in Hnil as [-> _].
      by apply Forall_cons in Hne as [? _].
    - split; [done|]. rewrite Hq, (Hrest Halive). change (queued []) with 0. lia. }
  destruct Ht1 as (Hch1 & Hpush1 & _). cbn in Hch1, Hpush1, Hpass.
  destruct (wp_inv _ _ _ _ (push_pass_inv c off u1 acc pop1 Hch1 Hpush1))
    as [([off'|] & u' & Hr & Hu')|(e & u' & _ & _ & Hdead & _)]; [|lia|congruence].
  rewrite Hr in Hpass. simplify_eq. exists off'. destruct Hu' as (Hoff & Ha & _). split_and!; done || lia.
Qed.

Lemma rounds_idle n t :
  transfer_inv t → pushing t = None →
  ∃ t', transfer_run (concat (replicate n pop_then_pass)) t = Some t' ∧ transfer_inv t' ∧
    pushing t' = None ∧ accepted_log t' = accepted_log t.
Proof.
  revert t. induction n as [|n IH]; intros t Ht Hp; [by exists t|].
  cbn [replicate concat app pop_then_pass transfer_run].
  destruct (transfer_step_inv TryPop t Ht) as (t1 & Hpop & Ht1). rewrite Hpop.
  assert (pushing t1 = None ∧ accepted_log t1 = accepted_log t) as [Hp1 Ha1].
  { destruct t as [u live busy acc pop]. cbn in *. repeat case_match; simplify_eq; done. }
  assert (transfer_step PushPass t1 = Some t1) as ->.
  { destruct t1; cbn in *. by subst. }
  rewrite <-Ha1. by apply IH.
Qed.

Lemma rounds_complete n t c off :
  transfer_inv t → pushing t = Some (c, off) → receiver_alive (state (channel t)) = true →
  len c - off ≤ Z.of_nat n →
  ∃ t', transfer_run (concat (replicate n pop_then_pass)) t = Some t' ∧ transfer_inv t' ∧
    pushing t' = None ∧ accepted_log t' = accepted_log t ++ drop (Z.to_nat off) c.
Proof.
  revert t off. induction n as [|n IH]; intros t off Ht Hp Halive Hn.
  { destruct Ht as (_ & Hpi & _). rewrite Hp in Hpi. destruct Hpi as [Hoff _]. lia. }
  cbn [replicate concat]. assert (Hoff0 : 0 ≤ off).
  { destruct Ht as (_ & Hpi & _). rewrite Hp in Hpi. destruct Hpi as [Hoff _]. lia. }
  destruct (round_progress t c off Ht Hp Halive) as (t1 & off' & Hrun & Ht1 & Ha1 & Hoff & Hacc & Hp1).
  assert (Happ : ∀ o1 o2 s, transfer_run (o1 ++ o2) s =
    match transfer_run o1 s with Some s' => transfer_run o2 s' | None => None end).
  { intros o1 o2. induction o1 as [|o o1 IHo]; intros s; [done|]. cbn.
    destruct (transfer_step o s); [apply IHo|done]. }
  rewrite Happ, Hrun, (subrange_step c off off'), app_assoc, <-Hacc by lia.
  destruct (Z.ltb_spec off' (len c)) as [Hlt|Hge].
  - by apply IH; [| |done|lia].
  - rewrite (drop_ge c), app_nil_r by (unfold len in Hge; lia). by apply rounds_idle.
Qed.

(** C6: Whatever sequence of sender, transport and binding operations runs on
    a fresh upload channel, in any interleaving, no operation panics; the
    queue's byte count is exact and never exceeds the capacity, the accepted
    byte count is exact and never exceeds the [u64] range, the bound total
    limit or the declared length, and what the transport has popped is a
    prefix of what was accepted, the rest of which is in the queue while the
    receiver is alive. *)
Theorem upload_transfer_safe f capacity u ops :
  1 ≤ capacity ≤ usize_max → (∀ n, f = Fixed n → 0 ≤ n) → pair f capacity = Ok u →
  ∃ t, transfer_run ops (start u) = Some t ∧
    let st := state (channel t) in
    queued_bytes st = queued (queue st) ∧ queued_bytes st ≤ capacity ∧
    accepted_bytes st = len (accepted_log t) ∧ accepted_bytes st ≤ u64_max ∧
    (∀ limit, total_limit st = Some limit → accepted_bytes st ≤ limit) ∧
    (∀ n, f = Fixed n → accepted_bytes st ≤ n) ∧
    popped_log t `prefix_of` accepted_log t ∧
    (receiver_alive st = true → accepted_log t = popped_log t ++ concat (queue st)).
Proof.
  intros Hcap Hf Hu. pose proof (start_inv f capacity u Hcap Hf Hu) as Hs.
  destruct (transfer_run_inv ops _ Hs) as (t & Ht & Hinv). exists t. split; [done|].
  apply transfer_run_config in Ht as [Hfr Hc]. cbn [channel start] in Hfr, Hc.
  unfold pair in Hu. revert Hu. zcase; [done|]. intros [= <-]. cbn in Hfr, Hc.
  destruct Hinv as (Hch & _). destruct_inv. destruct Hwithin as (Hmax & Htot & Hdec).
  rewrite Hfr in *. cbv zeta. rewrite Hacc. split_and!; try done; try lia.
  - intros limit Hl. unfold over_total in Htot. rewrite Hl in Htot. by apply Z.ltb_ge.
  - intros m ->. by apply Z.ltb_ge.
  - destruct (receiver_alive _); [rewrite Hfifo; by apply prefix_app_r|tauto].
  - intros Ha. by rewrite Ha in Hfifo.
Qed.

(** When the transport's poll reports the upload finished, it has popped
    exactly the bytes the sender had accepted, and a fixed-length upload is
    exactly as long as declared. *)
Theorem upload_finished_exact f capacity u ops t u' :
  1 ≤ capacity ≤ usize_max → (∀ n, f = Fixed n → 0 ≤ n) → pair f capacity = Ok u →
  transfer_run ops (start u) = Some t → try_pop (channel t) = (Ok PollFinished, u') →
  popped_log t = accepted_log t ∧ (∀ n, f = Fixed n → len (popped_log t) = n).
Proof.
  intros Hcap Hf Hu Hrun Hpoll. pose proof (start_inv f capacity u Hcap Hf Hu) as Hs.
  destruct (transfer_run_inv ops _ Hs) as (t' & Ht & Hinv). rewrite Hrun in Ht. simplify_eq.
  apply transfer_run_config in Hrun as [Hfr _]. cbn [channel start] in Hfr.
  assert (framing u = f) as Hff by (revert Hu; unfold pair; zcase; [done|by intros [= <-]]).
  destruct Hinv as (Hch & _). pose proof (try_pop_inv _ _ _ Hch) as Hwp.
  pose proof (wp_ok _ _ _ _ _ _ Hwp Hpoll) as (-> & Hp & Heq). destruct_inv.
  rewrite <-Heq. split; [done|]. intros n ->. apply Hfin; [done|]. congruence.
Qed.

(** A blocking push that was admitted completes while the transport keeps
    popping: after one round of pop and pass per remaining byte the push has
    returned and its whole chunk was accepted. *)
Theorem blocking_push_completes f capacity u ops t chunk offset :
  1 ≤ capacity ≤ usize_max → (∀ n, f = Fixed n → 0 ≤ n) → pair f capacity = Ok u →
  transfer_run ops (start u) = Some t → pushing t = Some (chunk, offset) →
  receiver_alive (state (channel t)) = true →
  ∃ t', transfer_run (concat (replicate (Z.to_nat (len chunk - offset)) pop_then_pass)) t = Some t' ∧
    pushing t' = None ∧ accepted_log t' = accepted_log t ++ drop (Z.to_nat offset) chunk.
Proof.
  intros Hcap Hf Hu Hrun Hp Halive. pose proof (start_inv f capacity u Hcap Hf Hu) as Hs.
  destruct (transfer_run_inv ops _ Hs) as (t0 & Ht & Hinv). rewrite Hrun in Ht. simplify_eq.
  destruct (rounds_complete (Z.to_nat (len chunk - offset)) t0 chunk offset Hinv Hp Halive)
    as (t' & ? & _ & ? & ?); [lia|]. by exists t'.
Qed.
End with_target.

(** A transfer that uses every operation: a five-byte fixed-length upload
    through a three-byte queue. *)
Definition demo_ops : list transfer_op :=
  [TryPush [1; 2]; Bind 64 100 Spawned; PushStart [3; 4; 5]; PushPass; PushPass; TryPop; PushPass;
   TryPop; TryPop; Finish].
Definition demo_channel : UploadShared :=
  mkShared (mkState [] 0 0 Open true None None) (Fixed 5) 3 false 0 0.
Definition demo_end (ops : list transfer_op) : transfer :=
  default (start demo_channel) (@transfer_run target64 ops (start demo_channel)).

Lemma upload_transfer_safe_witness :
  ∃ t, @transfer_run target64 demo_ops (start demo_channel) = Some t ∧
    popped_log t `prefix_of` accepted_log t.
Proof.
  destruct (@upload_transfer_safe target64 (Fixed 5) 3 demo_channel demo_ops) as (t & Ht & H).
  - by vm_compute.
  - by intros n [= <-].
  - done.
  - exists t. split; [exact Ht|]. apply H.
Defined.

Lemma upload_finished_exact_witness :
  popped_log (demo_end demo_ops) = [1; 2; 3; 4; 5] ∧ len (popped_log (demo_end demo_ops)) = 5.
Proof.
  split; [by vm_compute|].
  refine (proj2 (@upload_finished_exact target64 (Fixed 5) 3 demo_channel demo_ops
    (demo_end demo_ops) (channel (demo_end demo_ops)) _ _ _ _ _) 5 _).
  - by vm_compute.
  - by intros n [= <-].
  - done.
  - by vm_compute.
  - by vm_compute.
  - done.
Defined.

Lemma blocking_push_completes_witness :
  ∃ t', @transfer_run target64 (concat (replicate 3 pop_then_pass)) (demo_end (take 3 demo_ops))
        = Some t' ∧ pushing t' = None ∧ accepted_log t' = [1; 2; 3; 4; 5].
Proof.
  destruct (@blocking_push_completes target64 (Fixed 5) 3 demo_channel (take 3 demo_ops)
    (demo_end (take 3 demo_ops)) [3; 4; 5] 0) as (t' & H1 & H2 & H3).
  - by vm_compute.
  - by intros n [= <-].
  - done.
  - by vm_compute.
  - by vm_compute.
  - by vm_compute.
  - exists t'. split; [exact H1|]. split; [exact H2|]. rewrite H3. by vm_compute.
Defined.
End UploadProofs.

Module DownloadProofs.
Import Download.

Section with_target.
Context {tgt : Target}.
(** The queue capacity and the response limit of the exchange. *)
Context (capacity limit : Z).

(** The unread rest of the reader's current chunk. *)
Definition current_rest (c : option (list Z * Z)) : list Z :=
  match c with Some (chunk, offset) => drop (Z.to_nat offset) chunk | None => [] end.

Definition current_ok (c : option (list Z * Z)) : Prop :=
  match c with Some (chunk, offset) => 0 ≤ offset < len chunk | None => True end.

(** The transfer can still deliver bytes: it neither failed nor was it
    cancelled. *)
Definition delivering (st : ResponseState) : bool :=
  match terminal st with None | Some Complete => true | _ => false end.

Definition shared_inv (s : ResponseShared) (cur : option (list Z * Z)) (pushed got : list Z) : Prop :=
  let st := state s in
  (queue_capacity s = capacity ∧ 1 ≤ capacity ≤ usize_max) ∧ 0 ≤ queued_bytes st ≤ capacity ∧
  received_bytes st = len pushed ∧ len pushed ≤ limit ∧ (total_limit s = limit ∧ limit ≤ usize_max) ∧
  recorded s = match terminal st with Some t => [outcome_of t] | None => [] end ∧
  (head st = None → pushed = []) ∧ (no_body st = true → pushed = [] ∧ terminal st ≠ None) ∧
  Forall (λ c, c ≠ []) (queue st) ∧
  if delivering st && reader_alive st
  then pushed = got ++ current_rest cur ++ concat (queue st) ∧
       queued_bytes st = len (current_rest cur) + queued (queue st)
  else got `prefix_of` pushed.

Definition reader_inv (r : ResponseReader) (s : ResponseShared) (pushed got : list Z) : Prop :=
  current_ok (current r) ∧
  (eof_reached r = true → terminal (state s) = Some Complete ∧ got = pushed) ∧
  (reader_head r ≠ None → head (state s) ≠ None).

Definition exchange_inv (x : exchange) : Prop :=
  let s := shared (sink x) in
  shared_inv s (current (reader x)) (pushed_log x) (read_log x) ∧
  reader_inv (reader x) s (pushed_log x) (read_log x) ∧
  reader_alive (state s) = reader_live x ∧
  (sink_terminal (sink x) = true ∨ sink_live x = false → terminal (state s) ≠ None).

Ltac destruct_shared H :=
  destruct H as (Hcap & Hqb & Hrecv & Hlim & Hmax & Hrec & Hhead & Hnobody & Hne & Hfifo).

Lemma shared_prefix s cur pushed got : shared_inv s cur pushed got → got `prefix_of` pushed.
Proof.
  intros Hs. destruct_shared Hs. destruct (_ && _); [|done].
  destruct Hfifo as [-> _]. by apply prefix_app_r.
Qed.

(** Every way to end the transfer: the first one wins and is recorded once. *)
Lemma terminate_inv t (clear : bool) s cur pushed got :
  shared_inv s cur pushed got → terminal (state s) = None → clear = match t with Complete => false | _ => true end →
  shared_inv (set_state (bump (set_terminal t clear (state s))) (record_terminal (outcome_of t) s))
    cur pushed got.
Proof.
  intros Hs Ht ->. pose proof (shared_prefix _ _ _ _ Hs). destruct_shared Hs. rewrite Ht in Hrec.
  unfold shared_inv, delivering in *. cbn. rewrite Ht in Hfifo. cbn in Hfifo. rewrite Hrec.
  destruct t; cbn; split_and!; first [done | lia | tauto | intros ?; split; [tauto|done]].
Qed.

Lemma notify_inv s cur pushed got :
  shared_inv (notify_all s) cur pushed got = shared_inv s cur pushed got.
Proof. done. Qed.

Lemma sink_commit_inv t k cur pushed got :
  shared_inv (shared k) cur pushed got →
  shared_inv (shared (sink_commit t k)) cur pushed got ∧
  terminal (state (shared (sink_commit t k))) ≠ None ∧
  reader_alive (state (shared (sink_commit t k))) = reader_alive (state (shared k)) ∧
  head (state (shared (sink_commit t k))) = head (state (shared k)) ∧
  (terminal (state (shared k)) ≠ None → sink_commit t k = k).
Proof.
  intros Hs. unfold sink_commit. destruct (terminal (state (shared k))) eqn:Ht.
  - by split_and!; rewrite ?Ht.
  - cbn [shared]. rewrite notify_inv. split_and!; try done. by apply terminate_inv.
Qed.

Lemma control_commit_inv t s cur pushed got :
  t ≠ Complete → shared_inv s cur pushed got →
  shared_inv (snd (control_commit t s)) cur pushed got ∧
  terminal (state (snd (control_commit t s))) ≠ None ∧
  reader_alive (state (snd (control_commit t s))) = reader_alive (state s) ∧
  head (state (snd (control_commit t s))) = head (state s) ∧
  (terminal (state s) ≠ None → snd (control_commit t s) = s).
Proof.
  intros Hc Hs. unfold control_commit. destruct (terminal (state s)) eqn:Ht.
  - by split_and!; cbn [snd]; rewrite ?Ht.
  - cbn [snd]. split_and!; try done. apply (terminate_inv t true); try done.
    by destruct t.
Qed.

Lemma publish_head_inv h nb k cur pushed got :
  shared_inv (shared k) cur pushed got →
  let k' := snd (publish_head h nb k) in
  shared_inv (shared k') cur pushed got ∧
  reader_alive (state (shared k')) = reader_alive (state (shared k)) ∧
  (terminal (state (shared k)) ≠ None → k' = k) ∧
  (head (state (shared k)) ≠ None → k' = k) ∧
  (sink_terminal k' = true → sink_terminal k = true ∨ terminal (state (shared k')) ≠ None).
Proof.
  intros Hs k'. subst k'. unfold publish_head.
  destruct (head (state (shared k))) eqn:Hh; [by cbn; split_and!; auto|].
  destruct (terminal (state (shared k))) eqn:Ht; [by cbn; split_and!; auto|].
  destruct (reader_alive (state (shared k))) eqn:Ha; [|by cbn; split_and!; auto].
  cbn [snd shared]. rewrite notify_inv. destruct_shared Hs. specialize (Hhead Hh).
  rewrite Ht in Hrec. unfold delivering in Hfifo. rewrite Ht, Ha in Hfifo. cbn in Hfifo.
  destruct nb; (split_and!; [unfold shared_inv, delivering; cbn; rewrite ?Hrec; split_and!; first [done | lia | tauto | intros ?; split; [tauto|done]]|done..|]);
    cbn; auto.
Qed.

Lemma sink_push_inv chunk k cur pushed got :
  shared_inv (shared k) cur pushed got →
  wp (sink_push chunk)
    (λ _ k', shared_inv (shared k') cur (pushed ++ chunk) got ∧
       reader_alive (state (shared k')) = reader_alive (state (shared k)) ∧
       terminal (state (shared k)) = None ∧ terminal (state (shared k')) = None ∧
       sink_terminal k' = sink_terminal k ∧ head (state (shared k')) = head (state (shared k)))
    (λ _ k', k' = k) k.
Proof.
  intros Hs. destruct_shared Hs. unfold sink_push. wp_go.
  destruct (reader_alive (state (shared k))) eqn:Ha; cbn [negb orb]; wp_go; [|done].
  destruct (terminal (state (shared k))) eqn:Ht; wp_go; [done|].
  destruct (head (state (shared k))) eqn:Hh; wp_go; [|done].
  unfold checked_add. zcase; wp_go; [|done]. zcase; wp_go; [done|].
  apply owp_usub; [lia|]. wp_go. zcase; wp_go; [done|]. apply owp_uadd; [lia|]. wp_go.
  unfold delivering in Hfifo. rewrite Ht in Hfifo. destruct Hfifo as [Hp Hq].
  split_and!; try done. pose proof (len_nonneg chunk). pose proof (len_app pushed chunk).
  unfold shared_inv, delivering in *. cbn.
  rewrite concat_push, queued_push. split_and!; try done; try lia.
  - intros Hnb. by destruct (Hnobody Hnb).
  - by apply nonempty_push.
  - by rewrite Hp, <-!app_assoc.
Qed.

Lemma try_head_inv r s pushed got :
  shared_inv s (current r) pushed got → reader_inv r s pushed got →
  wp try_head
    (λ h p, snd p = s ∧ current (fst p) = current r ∧ reader_inv (fst p) s pushed got ∧
            (h = None → head (state s) = None) ∧ (eof_reached r = true → eof_reached (fst p) = true))
    (λ _ p, snd p = s ∧ current (fst p) = current r ∧ reader_inv (fst p) s pushed got ∧
            head (state s) = None) (r, s).
Proof.
  intros Hs (Hc & He & Hh). destruct_shared Hs. unfold try_head. wp_go.
  destruct (reader_head r) eqn:Hrh; wp_go.
  { split_and!; try done. unfold reader_inv. cbn. rewrite Hrh. by split_and!. }
  destruct (head (state s)) eqn:Hsh; wp_go.
  - cbn. split_and!; try done; [|by intros ->; destruct (no_body _ && _)]. unfold reader_inv. cbn. rewrite Hsh.
    split_and!; try done. destruct (no_body (state s)) eqn:Hnb; [|done].
    case_bool_decide as Ht; [|done]. intros _. split; [done|].
    destruct (Hnobody eq_refl) as [-> _]. unfold delivering in Hfifo. rewrite Ht in Hfifo.
    destruct (reader_alive (state s)); cbn in Hfifo; [|by apply prefix_nil_inv in Hfifo].
    destruct Hfifo as [Hf _]. symmetry in Hf. by apply app_eq_nil in Hf as [? _].
  - assert (Hr : reader_inv (mkReader (reader_mode r) None (current r) (body_started r)
      (eof_reached r) (generation (state s))) s pushed got) by (by unfold reader_inv).
    destruct (terminal (state s)); wp_go; by split_and!.
Qed.

(** The chunk [next_chunk] finds is the front of what is left to read. *)
Lemma next_chunk_spec r st :
  current_ok (current r) → Forall (λ c, c ≠ []) (queue st) →
  match next_chunk r st with
  | Some (chunk, offset, rest) =>
      0 ≤ offset < len chunk ∧ Forall (λ c, c ≠ []) rest ∧
      current_rest (current r) ++ concat (queue st) = drop (Z.to_nat offset) chunk ++ concat rest ∧
      len (current_rest (current r)) + queued (queue st) = len chunk - offset + queued rest
  | None => current_rest (current r) ++ concat (queue st) = []
  end.
Proof.
  unfold next_chunk. destruct (current r) as [[c off]|]; cbn [current_ok current_rest]; intros Hc Hq.
  - split_and!; try done; try lia. unfold len in *. rewrite length_drop. lia.
  - destruct (queue st) as [|c q]; [done|]. apply Forall_cons in Hq as [Hc' Hq].
    assert (len c ≠ 0) by (by intros ?%len_zero). pose proof (len_nonneg c).
    cbn beta iota. split_and!; try done; try lia. change (len c + queued q = len c - 0 + queued q). lia.
Qed.

(** What a read from [s] by [r] leaves, [d] being what it returned. *)
Definition read_post (n : Z) (s : ResponseShared) (pushed got : list Z) (d : StreamRead)
  (p : ResponseReader * ResponseShared) : Prop :=
  shared_inv (snd p) (current (fst p)) pushed (got ++ delivered d) ∧
  reader_inv (fst p) (snd p) pushed (got ++ delivered d) ∧
  reader_alive (state (snd p)) = true ∧ terminal (state (snd p)) = terminal (state s) ∧
  head (state (snd p)) = head (state s) ∧ (d = Eof → eof_reached (fst p) = true) ∧
  (1 ≤ n → head (state s) ≠ None →
     terminal (state s) = Some Complete ∨ (terminal (state s) = None ∧ 0 < queued_bytes (state s)) →
     d = Eof ∨ delivered d ≠ []).

Lemma read_available_inv n r s pushed got :
  1 ≤ n → shared_inv s (current r) pushed got → reader_inv r s pushed got →
  reader_alive (state s) = true → delivering (state s) = true → eof_reached r = false →
  wp (read_available n) (read_post n s pushed got) (λ _ _, False) (r, s).
Proof.
  intros Hn Hs (Hc & He & Hrh) Ha Hd Heof. destruct_shared Hs. rewrite Hd, Ha in Hfifo.
  destruct Hfifo as [Hp Hq]. unfold read_available. wp_go.
  pose proof (next_chunk_spec r (state s) Hc Hne) as Hnext.
  destruct (next_chunk r (state s)) as [[[chunk offset] rest]|].
  - destruct Hnext as (Hoff & Hrest & Hcat & Hlen). pose proof (queued_nonneg rest).
    wp_go. apply owp_usub; [lia|]. wp_go. set (count := Z.min _ _).
    assert (0 < count ≤ len chunk - offset) by lia. apply owp_slice; [lia..|]. wp_go.
    apply owp_usub; [lia|]. wp_go. rewrite (subrange_step chunk offset (offset + count)) in Hcat by lia.
    set (data := subrange chunk offset (offset + count)) in *.
    assert (Hdata : len data = count) by (unfold data; rewrite len_subrange; lia).
    assert (Hcur : current_rest (if offset + count =? len chunk then None else Some (chunk, offset + count))
      = drop (Z.to_nat (offset + count)) chunk).
    { zcase; [|done]. cbn. rewrite drop_ge; [done|]. unfold len in *. lia. }
    assert (Hl : len (drop (Z.to_nat (offset + count)) chunk) = len chunk - (offset + count)).
    { unfold len in *. rewrite length_drop. lia. }
    assert (Hp' : pushed = (got ++ data) ++ drop (Z.to_nat (offset + count)) chunk ++ concat rest).
    { by rewrite Hp, Hcat, <-!app_assoc. }
    unfold read_post, shared_inv, reader_inv, delivering in *. cbn. rewrite Hd, Ha, Hcur. cbn.
    split_and!; try done; try lia.
    + zcase; cbn; lia.
    + destruct (Z.eqb_spec (offset + count) (len chunk)) as [Hdone|]; cbn [andb]; [|by rewrite Heof].
      case_bool_decide as Hr; cbn [andb]; [|by rewrite Heof].
      case_bool_decide as Ht; [|by rewrite Heof]. intros _. split; [done|]. rewrite Hp', Hr.
      rewrite (drop_ge chunk); [by rewrite !app_nil_r|]. unfold len in *. lia.
    + intros _ _ _. right. intros Hnil. rewrite Hnil in Hdata. change (0 = count) in Hdata. lia.
  - rewrite Hnext in Hp. assert (queue (state s) = [] ∧ current_rest (current r) = []) as [Hnil Hcnil].
    { apply app_eq_nil in Hnext as [? Hcat]. split; [|done].
      destruct (queue (state s)) as [|c q]; [done|]. apply Forall_cons in Hne as [? _].
      cbn in Hcat. by apply app_eq_nil in Hcat as [-> _]. }
    unfold read_post, shared_inv, reader_inv, delivering in *.
    case_bool_decide as Ht; wp_go; cbn; rewrite ?app_nil_r in *; rewrite ?Hd, ?Ha, ?Hnil, ?Hcnil in *;
      cbn; rewrite ?app_nil_r; split_and!; try done; try lia; auto.
    intros _ _ [?|[_ ?]]; [done|]. change (queued_bytes (state s) = 0 + 0) in Hq. lia.
Qed.

Lemma try_read_inv n r s pushed got :
  0 ≤ n → shared_inv s (current r) pushed got → reader_inv r s pushed got →
  reader_alive (state s) = true →
  wp (try_read n) (read_post n s pushed got)
    (λ _ p, shared_inv (snd p) (current (fst p)) pushed got ∧
       reader_inv (fst p) (snd p) pushed got ∧ reader_alive (state (snd p)) = true ∧
       terminal (state (snd p)) = terminal (state s) ∧ head (state (snd p)) = head (state s) ∧
       (delivering (state s) = true → head (state s) = None)) (r, s).
Proof.
  intros Hn Hs Hr Ha. unfold try_read. wp_go.
  eapply wp_mono; [exact (try_head_inv r s pushed got Hs Hr)| |].
  2: { intros e [r' s'] (Hs' & Hcur & Hr' & Hh). cbn in *. subst s'. rewrite Hcur. by split_and!. }
  cbn beta. intros h [r' s'] (Hs' & Hcur & Hr' & Hh & _). cbn [fst snd] in *. subst s'.
  rewrite <-Hcur in Hs. clear Hr Hcur r. unfold read_post. destruct h as [h|]; wp_go.
  2: { cbn. rewrite app_nil_r. specialize (Hh eq_refl). by split_and!. }
  destruct (eof_reached r') eqn:Heof; wp_go; [cbn; rewrite app_nil_r; split_and!; try done; auto|].
  zcase; wp_go; [cbn; rewrite app_nil_r; split_and!; try done; lia|].
  pose proof (shared_prefix _ _ _ _ Hs) as Hpre.
  assert (Hfailed : ∀ g, delivering (state s) = false → shared_inv s None pushed got ∧
    reader_inv (with_seen r' None (body_started r') false g) s pushed got).
  { intros g Hd. destruct Hr' as (_ & _ & Hrh). split; [|by split_and!].
    destruct_shared Hs. unfold shared_inv. rewrite Hd. split_and!; done || lia. }
  unfold delivering in Hfailed. destruct (terminal (state s)) as [[|e|]|] eqn:Ht; wp_go.
  2,3: cbn; split_and!; try done; try (by apply Hfailed); unfold delivering; by rewrite Ht.
  all: eapply wp_mono; [apply read_available_inv; try done; [lia|by unfold delivering; rewrite Ht]| |done];
    intros d p Hpost; unfold read_post in Hpost; by rewrite Ht in Hpost.
Qed.

(** The reader's own facts survive what the other side does to the state. *)
Lemma reader_keeps r s s' pushed pushed' got :
  reader_inv r s pushed got →
  (head (state s) ≠ None → head (state s') ≠ None) →
  (terminal (state s) = Some Complete → terminal (state s') = Some Complete ∧ pushed' = pushed) →
  reader_inv r s' pushed' got.
Proof.
  intros (Hc & He & Hh) Hhead Hterm. unfold reader_inv. split_and!; [done| |auto].
  intros Heof. destruct (He Heof) as [Ht ->]. destruct (Hterm Ht) as [? ->]. done.
Qed.

Lemma sink_ended_inv r k k' kl rl kl' pushed got :
  exchange_inv (mkExchange r k kl rl pushed got) →
  shared_inv (shared k') (current r) pushed got → terminal (state (shared k')) ≠ None →
  reader_alive (state (shared k')) = reader_alive (state (shared k)) →
  head (state (shared k')) = head (state (shared k)) →
  (terminal (state (shared k)) ≠ None → shared k' = shared k) →
  exchange_inv (mkExchange r k' kl' rl pushed got).
Proof.
  intros (Hs & Hr & Ha & Hk) Hs' Ht Ha' Hh Hsame. cbn in *.
  unfold exchange_inv. cbn. split_and!; [done| |congruence|done].
  eapply reader_keeps; [exact Hr|by rewrite Hh|]. intros Hc. by rewrite Hsame, Hc by congruence.
Qed.

Lemma exchange_step_inv o x :
  exchange_inv x → (∀ n, o = TryRead n → 0 ≤ n) →
  ∃ x', exchange_step o x = Some x' ∧ exchange_inv x'.
Proof.
  destruct x as [r k kl rl pushed got]. intros Hx Hn. pose proof Hx as (Hs & Hr & Ha & Hk).
  cbn in Hs, Hr, Ha, Hk. unfold exchange_step.
  assert (Hcommit : ∀ t, exchange_inv (mkExchange r (sink_commit t k) kl rl pushed got)).
  { intros t. destruct (sink_commit_inv t k _ _ _ Hs) as (H1 & H2 & H3 & H4 & H5).
    eapply sink_ended_inv; try done. intros ?. by rewrite H5. }
  assert (Hcontrol : ∀ t, t ≠ Complete →
    exchange_inv (mkExchange r (on_shared (snd (control_commit t (shared k))) k) kl rl pushed got)).
  { intros t Hc. destruct (control_commit_inv t (shared k) _ _ _ Hc Hs) as (H1 & H2 & H3 & H4 & H5).
    eapply sink_ended_inv; try done. }
  destruct o; try (destruct kl; [|by eexists]); 
    try (by eexists; split; [done|first [apply Hcommit | by apply Hcontrol]]).
  - eexists. split; [done|].
    match goal with |- context [publish_head h ?b k] => pose proof (publish_head_inv h b k _ _ _ Hs) as Hpub end.
    destruct Hpub as (H1 & H2 & H3 & H4 & H5).
    unfold exchange_inv. cbn. split_and!; [done| |congruence|].
    + eapply reader_keeps; [exact Hr|intros ?; by rewrite H4|]. intros Hc. by rewrite H3, Hc by congruence.
    + intros [Ht|]; [|done]. destruct (H5 Ht) as [Ht'|]; [|done]. specialize (Hk (or_introl Ht')).
      by rewrite H3.
  - destruct (wp_inv _ _ _ _ (sink_push_inv chunk k _ _ _ Hs)) as [([] & k' & -> & Hk')|(e & k' & -> & ->)];
      eexists; (split; [done|]); [|done].
    destruct Hk' as (H1 & H2 & H3 & H4 & H5 & H6). unfold exchange_inv. cbn. split_and!; [done| |congruence|].
    + eapply reader_keeps; [exact Hr|by rewrite H6|]. intros Hc. congruence.
    + rewrite H5. intros Hor. specialize (Hk Hor). congruence.
  - eexists. split; [done|]. unfold drop_sink. destruct (sink_terminal k) eqn:Hkt.
    + unfold exchange_inv. cbn. split_and!; auto.
    + destruct (Hcommit (Failed (error_new ErrorKind.Internal
         "streaming response producer ended without a terminal result"))) as (H1 & H2 & H3 & H4).
      destruct (sink_commit_inv (Failed (error_new ErrorKind.Internal
         "streaming response producer ended without a terminal result")) k _ _ _ Hs) as (_ & H5 & _).
      unfold exchange_inv. cbn in *. by split_and!.
  - destruct rl; [|by eexists].
    destruct (wp_inv _ _ _ _ (try_head_inv r (shared k) _ _ Hs Hr))
      as [(h & [r' s'] & -> & Hp)|(e & [r' s'] & -> & Hp)]; cbn in Hp; destruct Hp as (-> & Hc & Hr' & _);
      eexists; (split; [done|]); unfold exchange_inv; cbn; rewrite Hc; by split_and!.
  - destruct rl; [|by eexists].
    destruct (wp_inv _ _ _ _ (try_read_inv destination r (shared k) _ _ (Hn _ eq_refl) Hs Hr Ha))
      as [(h & [r' s'] & -> & Hp)|(e & [r' s'] & -> & Hp)]; cbn in Hp;
      destruct Hp as (H1 & H2 & H3 & H4 & H5 & _); cbn in *; eexists; (split; [done|]);
      unfold exchange_inv; cbn; rewrite H4; by split_and!.
  - destruct rl; [|by eexists]. eexists. split; [done|]. unfold exchange_inv, drop_reader. cbn.
    pose proof (shared_prefix _ _ _ _ Hs). destruct_shared Hs.
    split_and!; try done. unfold shared_inv, delivering in *. cbn. rewrite andb_false_r.
    split_and!; done || lia.
Qed.

Definition valid_op (o : exchange_op) : Prop := match o with TryRead n => 0 ≤ n | _ => True end.

Lemma exchange_run_inv ops x :
  exchange_inv x → Forall valid_op ops → ∃ x', exchange_run ops x = Some x' ∧ exchange_inv x'.
Proof.
  revert x. induction ops as [|o ops IH]; intros x Hx Hv; cbn [exchange_run]; [by eexists|].
  apply Forall_cons in Hv as [Ho Hv].
  destruct (exchange_step_inv o x Hx) as (x' & -> & Hx'); [by intros n ->|]. by apply IH.
Qed.

Lemma open_inv mode r k :
  1 ≤ capacity ≤ usize_max → 0 ≤ limit ≤ usize_max → response_pair mode capacity limit = Ok (r, k) →
  exchange_inv (open_exchange r k).
Proof.
  intros Hcap Hlim. unfold response_pair. zcase; [done|]. intros [= <- <-].
  unfold exchange_inv, shared_inv, reader_inv. cbn. split_and!; try done; rewrite ?len_nil; try lia; intros []; done.
Qed.

(** Reading with room for at least one byte after completion: each read
    consumes at least a byte until the end is known. *)
Lemma drain_progress n x :
  exchange_inv x → 1 ≤ n → reader_live x = true →
  terminal (state (shared (sink x))) = Some Complete → head (state (shared (sink x))) ≠ None →
  ∃ x', exchange_step (TryRead n) x = Some x' ∧ exchange_inv x' ∧ reader_live x' = true ∧
    terminal (state (shared (sink x'))) = Some Complete ∧ head (state (shared (sink x'))) ≠ None ∧
    pushed_log x' = pushed_log x ∧
    (eof_reached (reader x') = true ∨ len (read_log x) < len (read_log x')).
Proof.
  intros Hx Hn Hl Ht Hh. destruct (exchange_step_inv (TryRead n) x Hx) as (x' & Hstep & Hx').
  { intros ? [= <-]. lia. }
  exists x'. split; [done|]. split; [done|].
  destruct x as [r k kl rl pushed got]. destruct Hx as (Hs & Hr & Ha & _). cbn in *. rewrite Hl in Ha, Hstep.
  destruct (wp_inv _ _ _ _ (try_read_inv n r (shared k) _ _ ltac:(lia) Hs Hr Ha))
    as [(d & [r' s'] & Hrun & Hp)|(e & [r' s'] & Hrun & Hp)]; rewrite Hrun in Hstep; cbn in Hp.
  - destruct Hp as (_ & _ & _ & H4 & H5 & H6 & H7). cbn in *. simplify_eq. cbn.
    rewrite H4, H5, len_app. split_and!; try done.
    destruct (H7 Hn Hh (or_introl Ht)) as [->|Hne]; [left; by apply H6|right].
    assert (len (delivered d) ≠ 0) by (by intros ?%len_zero). pose proof (len_nonneg (delivered d)). lia.
  - destruct Hp as (_ & _ & _ & _ & _ & Hhead). destruct Hh. apply Hhead. unfold delivering. by rewrite Ht.
Qed.

Lemma drain_complete m n x :
  exchange_inv x → 1 ≤ n → reader_live x = true →
  terminal (state (shared (sink x))) = Some Complete → head (state (shared (sink x))) ≠ None →
  len (pushed_log x) - len (read_log x) < Z.of_nat m ∨ (eof_reached (reader x) = true ∧ (1 ≤ m)%nat) →
  ∃ x', exchange_run (replicate m (TryRead n)) x = Some x' ∧
    eof_reached (reader x') = true ∧ read_log x' = pushed_log x ∧ exchange_inv x'.
Proof.
  revert x. induction m as [|m IH]; intros x Hx Hn Hl Ht Hh Hm.
  { destruct Hx as (Hs & _). apply shared_prefix, prefix_length in Hs. unfold len in Hm. lia. }
  cbn [replicate exchange_run].
  destruct (drain_progress n x Hx Hn Hl Ht Hh) as (x1 & -> & Hx1 & Hl1 & Ht1 & Hh1 & Hp1 & Hprog).
  rewrite <-Hp1. destruct m as [|m].
  - exists x1. split; [done|]. assert (eof_reached (reader x1) = true) as He.
    { destruct Hprog as [|Hlt]; [done|]. pose proof Hx1 as (Hs1 & _).
      pose proof Hx as (Hs & Hr & _). apply shared_prefix, prefix_length in Hs1. unfold len in *.
      rewrite Hp1 in Hs1. destruct Hm as [Hm|[He _]]; [lia|].
      destruct Hr as (_ & Heof & _). destruct (Heof He) as [_ Heq]. rewrite Heq in Hlt. lia. }
    pose proof Hx1 as (_ & (_ & Heof & _) & _). destruct (Heof He) as [_ ->]. done.
  - apply IH; try done. destruct Hprog as [|Hlt]; [right; split; [done|lia]|left].
    pose proof Hx1 as (Hs1 & _). apply shared_prefix, prefix_length in Hs1.
    rewrite Hp1 in *. destruct Hm as [Hm|[He _]]; [lia|].
    destruct Hx as (_ & (_ & Heof & _) & _). destruct (Heof He) as [_ Heq].
    rewrite Heq in Hlt. unfold len in *. lia.
Qed.

(** C7: Whatever the transport, the Engine's control and the reader do, in any
    interleaving, no operation panics; the queue stays within its capacity
    and the bytes accepted within the response limit; the bytes read are a
    prefix of the bytes pushed; the outcome reported to the metrics is exactly
    the terminal state, reported once; and a sink that is gone has left a
    terminal state behind. *)
Theorem download_exchange_safe mode r k ops :
  1 ≤ capacity ≤ usize_max → 0 ≤ limit ≤ usize_max → response_pair mode capacity limit = Ok (r, k) →
  Forall valid_op ops →
  ∃ x, exchange_run ops (open_exchange r k) = Some x ∧
    let s := shared (sink x) in
    queued_bytes (state s) ≤ capacity ∧ received_bytes (state s) = len (pushed_log x) ∧
    len (pushed_log x) ≤ limit ∧ read_log x `prefix_of` pushed_log x ∧
    recorded s = match terminal (state s) with Some t => [outcome_of t] | None => [] end ∧
    (sink_live x = false → terminal (state s) ≠ None).
Proof.
  intros Hcap0 Hlim0 Hpair Hv.
  destruct (exchange_run_inv ops _ (open_inv _ _ _ Hcap0 Hlim0 Hpair) Hv) as (x & Hx & Hinv).
  exists x. split; [done|]. destruct Hinv as (Hs & _ & _ & Hk). pose proof (shared_prefix _ _ _ _ Hs).
  destruct_shared Hs. cbv zeta. split_and!; try done; try lia. auto.
Qed.

(** A reader that is told [Eof] has read exactly the bytes the transport
    pushed, of a response that completed successfully. *)
Theorem download_eof_exact mode r k ops x n p :
  1 ≤ capacity ≤ usize_max → 0 ≤ limit ≤ usize_max → response_pair mode capacity limit = Ok (r, k) →
  Forall valid_op ops → exchange_run ops (open_exchange r k) = Some x → reader_live x = true → 0 ≤ n →
  try_read n (reader x, shared (sink x)) = (Ok Eof, p) →
  read_log x = pushed_log x ∧ terminal (state (shared (sink x))) = Some Complete ∧
  recorded (shared (sink x)) = [OutCompleted].
Proof.
  intros Hcap0 Hlim0 Hpair Hv Hrun Hl Hn Hread.
  destruct (exchange_run_inv ops _ (open_inv _ _ _ Hcap0 Hlim0 Hpair) Hv) as (x' & Hx & Hinv).
  rewrite Hrun in Hx. injection Hx as <-. destruct Hinv as (Hs & Hr & Ha & _). rewrite Hl in Ha.
  pose proof (wp_ok _ _ _ _ _ _ (try_read_inv n _ _ _ _ Hn Hs Hr Ha) Hread)
    as (_ & (_ & Heof & _) & _ & Ht & _ & He & _).
  destruct (Heof (He eq_refl)) as [Hc Hgot]. cbn in Hgot. rewrite app_nil_r in Hgot.
  rewrite Ht in Hc. destruct_shared Hs. rewrite Hrec, Hc. done.
Qed.

(** Once the response has completed, reading with room for at least one
    byte delivers everything: one read more than there are bytes left reaches
    the known end with all pushed bytes read. *)
Theorem download_drains mode r k ops x n :
  1 ≤ capacity ≤ usize_max → 0 ≤ limit ≤ usize_max → response_pair mode capacity limit = Ok (r, k) →
  Forall valid_op ops → exchange_run ops (open_exchange r k) = Some x → reader_live x = true → 1 ≤ n →
  terminal (state (shared (sink x))) = Some Complete → head (state (shared (sink x))) ≠ None →
  ∃ x', exchange_run
          (replicate (S (Z.to_nat (len (pushed_log x) - len (read_log x)))) (TryRead n)) x = Some x' ∧
    eof_reached (reader x') = true ∧ read_log x' = pushed_log x.
Proof.
  intros Hcap0 Hlim0 Hpair Hv Hrun Hl Hn Ht Hh.
  destruct (exchange_run_inv ops _ (open_inv _ _ _ Hcap0 Hlim0 Hpair) Hv) as (x' & Hx & Hinv).
  rewrite Hrun in Hx. injection Hx as <-.
  destruct (drain_complete (S (Z.to_nat (len (pushed_log x) - len (read_log x)))) n x)
    as (x'' & ? & ? & ? & _); try done; [left; lia|]. by exists x''.
Qed.
End with_target.

(** An exchange of five bytes through a four-byte queue. *)
Definition demo_head : ResponseHead := mkHead 200 [].
Definition demo_ops : list exchange_op :=
  [TryHead; PublishHead demo_head false; SinkPush [1; 2; 3]; SinkPush [4; 5]; TryRead 2;
   SinkPush [4; 5]; SinkComplete; ControlCancel].
Definition demo_reader : ResponseReader := mkReader Spawned None None false false 0.
Definition demo_sink : ResponseSink :=
  mkSink (mkShared (mkState None false [] 0 0 None true 0) 4 100 [] 0 0) false.
Definition demo_end (ops : list exchange_op) : exchange :=
  default (open_exchange demo_reader demo_sink)
    (@exchange_run target64 ops (open_exchange demo_reader demo_sink)).

Lemma download_exchange_safe_witness :
  ∃ x, @exchange_run target64 demo_ops (open_exchange demo_reader demo_sink) = Some x ∧
    read_log x `prefix_of` pushed_log x.
Proof.
  destruct (@download_exchange_safe target64 4 100 Spawned demo_reader demo_sink demo_ops)
    as (x & Hx & H).
  - by vm_compute.
  - by vm_compute.
  - done.
  - by repeat constructor.
  - exists x. split; [exact Hx|]. apply H.
Defined.

Lemma download_eof_exact_witness :
  let x := demo_end (demo_ops ++ [TryRead 8; TryRead 8]) in
  read_log x = [1; 2; 3; 4; 5] ∧ read_log x = pushed_log x.
Proof.
  split; [by vm_compute|].
  refine (proj1 (@download_eof_exact target64 4 100 Spawned demo_reader demo_sink
    (demo_ops ++ [TryRead 8; TryRead 8]) (demo_end (demo_ops ++ [TryRead 8; TryRead 8])) 8
    (reader (demo_end (demo_ops ++ [TryRead 8; TryRead 8])),
     shared (sink (demo_end (demo_ops ++ [TryRead 8; TryRead 8])))) _ _ _ _ _ _ _ _)).
  - by vm_compute.
  - by vm_compute.
  - done.
  - by repeat constructor.
  - by vm_compute.
  - by vm_compute.
  - done.
  - by vm_compute.
Defined.

Lemma download_drains_witness :
  ∃ x', @exchange_run target64 (replicate 4 (TryRead 1)) (demo_end demo_ops) = Some x' ∧
    eof_reached (reader x') = true ∧ read_log x' = [1; 2; 3; 4; 5].
Proof.
  destruct (@download_drains target64 4 100 Spawned demo_reader demo_sink demo_ops
    (demo_end demo_ops) 1) as (x' & H1 & H2 & H3).
  - by vm_compute.
  - by vm_compute.
  - done.
  - by repeat constructor.
  - by vm_compute.
  - by vm_compute.
  - done.
  - by vm_compute.
  - by vm_compute.
  - exists x'. split; [exact H1|]. split; [exact H2|]. rewrite H3. by vm_compute.
Defined.
End DownloadProofs.
