(* ===== verification/NativeUpload.v ===== *)
(** * Upload bodies on the wire ([src/backend/native_http.rs])

    [NativeUpload] takes chunks from the upload channel and frames them for
    the wire: as they are when the length is declared, in HTTP/1.1 chunks
    otherwise. [sending] runs it against a sender in any interleaving. *)

From stdpp Require Import base list strings.
From Stdlib Require Import ZArith Lia.
From S2P Require Import Prelude Errors Stream.
Import Upload.

(** The field [body] is the receiving half of the channel. *)
Record NativeUpload := mkUpload {
  up_body : UploadShared;
  up_framing : UploadFraming;
  producer_finished : bool;
  pending_wire : option (list Z)
}.

Inductive UploadWire := WirePending | WireBytes (wire : list Z) | WireComplete.

Definition upload_new (body : UploadShared) : NativeUpload := mkUpload body (framing body) false None.

Definition MU := M NativeUpload Error.

Definition set_pending (wire : option (list Z)) (u : NativeUpload) : NativeUpload :=
  mkUpload (up_body u) (up_framing u) (producer_finished u) wire.
Definition set_finished (u : NativeUpload) : NativeUpload :=
  mkUpload (up_body u) (up_framing u) true (pending_wire u).

(** [self.body.try_pop()] *)
Definition pop_body : MU UploadPoll := λ u,
  match try_pop (up_body u) with
  | (Ok p, b) => (Ok p, mkUpload b (up_framing u) (producer_finished u) (pending_wire u))
  | (Err e, _) => match e with end
  | (Panic, b) => (Panic, mkUpload b (up_framing u) (producer_finished u) (pending_wire u))
  | (Diverge, b) => (Diverge, mkUpload b (up_framing u) (producer_finished u) (pending_wire u))
  end.

Section with_target.
Context {tgt : Target}.

Definition prepare_wire : MU unit :=
  poll ← pop_body;
  u ← get;
  match poll with
  | Chunk chunk =>
      match up_framing u with
      | Fixed _ => modify (set_pending (Some chunk))
      | Chunked =>
          let prefix := to_hex (len chunk) ++ CRLF in
          _ ← lift (ok_or (a ← checked_add usize_max (len prefix) (len chunk); checked_add usize_max a 2)
                      (error_new ErrorKind.Internal "native chunked upload framing length overflowed"));
          modify (set_pending (Some (prefix ++ chunk ++ CRLF)))
      end
  | Pending => mret tt
  | PollFinished =>
      match up_framing u with
      | Fixed _ => modify set_finished
      | Chunked =>
          _ ← modify set_finished;
          modify (set_pending (Some (bs "0" ++ CRLF ++ CRLF)))
      end
  | Failed e => fail e
  end.

Definition next_wire (capacity : option Z) : MU UploadWire :=
  u ← get;
  _ ← (if bool_decide (pending_wire u = None) && negb (producer_finished u) then prepare_wire else mret tt);
  u ← get;
  match pending_wire u with
  | Some wire =>
      if match capacity with Some capacity => capacity <? len wire | None => false end
      then mret WirePending
      else _ ← modify (set_pending None); mret (WireBytes wire)
  | None => mret (if producer_finished u then WireComplete else WirePending)
  end.

Definition is_complete (u : NativeUpload) : bool :=
  producer_finished u && bool_decide (pending_wire u = None).

Definition upload_close (u : NativeUpload) : NativeUpload :=
  mkUpload (close (up_body u)) (up_framing u) (producer_finished u) (pending_wire u).

(** [cleartext_outbound_limit]: [serialized] and [body_bytes] are lengths,
    [upload] the queue capacity of a streamed body. *)
Definition HTTP_BODY_SEND_WINDOW : Z := 64 * 1024.
Definition cleartext_outbound_limit (serialized body_bytes : Z) (upload : option Z) : Z :=
  let body_window := match upload with
                     | None => Z.min body_bytes HTTP_BODY_SEND_WINDOW
                     | Some capacity => saturating_add usize_max capacity 32
                     end in
  saturating_add usize_max serialized body_window.

(** ** Sending in any interleaving

    The sender's operations and the transport's calls; [sent] is what went to
    the socket, [sd_complete] whether the transport saw the end. *)

Inductive send_op := SenderDoes (o : transfer_op) | NextWire (capacity : option Z) | CloseUpload.

Record sending := mkSending {
  sd_upload : NativeUpload;
  sd_live : bool;
  sd_busy : option (list Z * Z);
  sd_accepted : list Z;
  sent : list Z;
  sd_complete : bool;
  sd_failed : option Error
}.

Definition start_sending (u : UploadShared) : sending :=
  mkSending (upload_new u) true None [] [] false None.

Definition with_body (b : UploadShared) (u : NativeUpload) : NativeUpload :=
  mkUpload b (up_framing u) (producer_finished u) (pending_wire u).

Definition send_step (o : send_op) (s : sending) : option sending :=
  match o with
  | SenderDoes TryPop => Some s
  | SenderDoes o =>
      t ← transfer_step o (mkTransfer (up_body (sd_upload s)) (sd_live s) (sd_busy s) (sd_accepted s) []);
      Some (mkSending (with_body (channel t) (sd_upload s)) (sender_live t) (pushing t) (accepted_log t)
              (sent s) (sd_complete s) (sd_failed s))
  | NextWire capacity =>
      if bool_decide (is_Some (sd_failed s)) then Some s
      else match next_wire capacity (sd_upload s) with
      | (Ok r, u) =>
          Some (mkSending u (sd_live s) (sd_busy s) (sd_accepted s)
                  (sent s ++ match r with WireBytes w => w | _ => [] end)
                  (match r with WireComplete => true | _ => sd_complete s end) None)
      | (Err e, u) =>
          Some (mkSending u (sd_live s) (sd_busy s) (sd_accepted s) (sent s) (sd_complete s) (Some e))
      | _ => None
      end
  | CloseUpload =>
      Some (mkSending (upload_close (sd_upload s)) (sd_live s) (sd_busy s) (sd_accepted s) (sent s)
              (sd_complete s) (sd_failed s))
  end.

Fixpoint send_run (ops : list send_op) (s : sending) : option sending :=
  match ops with
  | [] => Some s
  | o :: ops' => s' ← send_step o s; send_run ops' s'
  end.
End with_target.
