(* ===== verification/TcpIo.v ===== *)
(** * Live TCP queues ([src/tcp/io.rs])

    [TcpIoShared]: the state a standalone TCP connection shares between the
    application's reader and writer and the reactor's [TcpIoOwner]. Each
    definition is one region under the mutex; [notified] counts the wakeups,
    [refunds] and [jobs] record the release callbacks that ran and the finish
    callbacks that were dispatched, in order. *)

From stdpp Require Import base list strings.
From Stdlib Require Import ZArith Lia.
From S2P Require Import Prelude Errors BodyBudget Stream.

(** ** Public results ([src/tcp/mod.rs]) *)

Inductive TcpFinishStatus := FinishStatusPending | FinishStatusFinished.
Inductive TcpRead := ReadPending | ReadData (count : Z) | ReadEof.
Inductive TcpStreamError :=
| StreamFailed (error : Error) | StreamCancelled | StreamReset | StreamOperation (error : Error).
Inductive TcpSendErrorKind :=
| WouldBlock | ChunkTooLarge | Closed | Reset | SendCancelled | SendEngineStopped | SendWrongMode | SendUnsupported.
#[global] Instance TcpSendErrorKind_eq_dec : EqDecision TcpSendErrorKind.
Proof. solve_decision. Defined.
Record TcpSendError := mkSendError { send_kind : TcpSendErrorKind; remaining_bytes : list Z }.
Inductive TcpFinishError :=
| FinishClosed (error : Error) | FinishReset | FinishEngineStopped | FinishWrongMode
| FinishFailed (error : Error) | FinishCancelled | FinishUnsupported (error : Error).

Module Io.

Inductive TcpAbort := AbortReset | AbortCancelled | AbortFailed (error : Error) | AbortEngineStopped.

Record TcpIoState := mkState {
  outbound : list (list Z); outbound_bytes : Z; outbound_tls_offset : Z;
  pump : list (list Z); pump_offset : Z; pump_bytes : Z;
  inbound : list (list Z); inbound_offset : Z; inbound_bytes : Z;
  write_finish_requested : bool; write_finished : bool;
  peer_fin : bool; read_eof_observed : bool; upgrading : bool;
  abort : option TcpAbort;
  finish_callback_registered : bool; finish_callback : bool;
  finish_callback_permit : bool; finish_callback_active : bool
}.

(** A release callback is a name; [on_release] holds those to run, in order. *)
Record TcpIo := mkIo {
  mode : RunMode; send_window : Z; receive_window : Z;
  state : TcpIoState;
  on_release : option (list nat); released : bool;
  notified : Z; refunds : list nat; jobs : list (option TcpFinishError)
}.

Definition set_state (s : TcpIoState) (io : TcpIo) : TcpIo :=
  mkIo (mode io) (send_window io) (receive_window io) s (on_release io) (released io) (notified io) (refunds io) (jobs io).
Definition notify (io : TcpIo) : TcpIo :=
  mkIo (mode io) (send_window io) (receive_window io) (state io) (on_release io) (released io) (notified io + 1) (refunds io) (jobs io).

Definition set_outbound (q : list (list Z)) (n off : Z) (s : TcpIoState) : TcpIoState :=
  mkState q n off (pump s) (pump_offset s) (pump_bytes s) (inbound s) (inbound_offset s) (inbound_bytes s)
    (write_finish_requested s) (write_finished s) (peer_fin s) (read_eof_observed s) (upgrading s) (abort s)
    (finish_callback_registered s) (finish_callback s) (finish_callback_permit s) (finish_callback_active s).
Definition set_pump (q : list (list Z)) (off n : Z) (s : TcpIoState) : TcpIoState :=
  mkState (outbound s) (outbound_bytes s) (outbound_tls_offset s) q off n (inbound s) (inbound_offset s) (inbound_bytes s)
    (write_finish_requested s) (write_finished s) (peer_fin s) (read_eof_observed s) (upgrading s) (abort s)
    (finish_callback_registered s) (finish_callback s) (finish_callback_permit s) (finish_callback_active s).
Definition set_inbound (q : list (list Z)) (off n : Z) (s : TcpIoState) : TcpIoState :=
  mkState (outbound s) (outbound_bytes s) (outbound_tls_offset s) (pump s) (pump_offset s) (pump_bytes s) q off n
    (write_finish_requested s) (write_finished s) (peer_fin s) (read_eof_observed s) (upgrading s) (abort s)
    (finish_callback_registered s) (finish_callback s) (finish_callback_permit s) (finish_callback_active s).
(** The flags: finish requested and finished, peer FIN, EOF observed, upgrading. *)
Definition set_flags (requested finished fin eof up : bool) (s : TcpIoState) : TcpIoState :=
  mkState (outbound s) (outbound_bytes s) (outbound_tls_offset s) (pump s) (pump_offset s) (pump_bytes s)
    (inbound s) (inbound_offset s) (inbound_bytes s) requested finished fin eof up (abort s)
    (finish_callback_registered s) (finish_callback s) (finish_callback_permit s) (finish_callback_active s).
Definition set_requested (s : TcpIoState) := set_flags true (write_finished s) (peer_fin s) (read_eof_observed s) (upgrading s) s.
Definition set_finished (s : TcpIoState) := set_flags (write_finish_requested s) true (peer_fin s) (read_eof_observed s) (upgrading s) s.
Definition set_peer_fin (s : TcpIoState) := set_flags (write_finish_requested s) (write_finished s) true (read_eof_observed s) (upgrading s) s.
Definition set_eof (s : TcpIoState) := set_flags (write_finish_requested s) (write_finished s) (peer_fin s) true (upgrading s) s.
Definition set_upgrading (b : bool) (s : TcpIoState) :=
  set_flags (write_finish_requested s) (write_finished s) (peer_fin s) (read_eof_observed s) b s.
Definition set_abort (a : TcpAbort) (s : TcpIoState) : TcpIoState :=
  mkState (outbound s) (outbound_bytes s) (outbound_tls_offset s) (pump s) (pump_offset s) (pump_bytes s)
    (inbound s) (inbound_offset s) (inbound_bytes s) (write_finish_requested s) (write_finished s) (peer_fin s)
    (read_eof_observed s) (upgrading s) (Some a)
    (finish_callback_registered s) (finish_callback s) (finish_callback_permit s) (finish_callback_active s).
Definition set_callback (registered callback permit active : bool) (s : TcpIoState) : TcpIoState :=
  mkState (outbound s) (outbound_bytes s) (outbound_tls_offset s) (pump s) (pump_offset s) (pump_bytes s)
    (inbound s) (inbound_offset s) (inbound_bytes s) (write_finish_requested s) (write_finished s) (peer_fin s)
    (read_eof_observed s) (upgrading s) (abort s) registered callback permit active.

Definition send_abort_kind (a : TcpAbort) : TcpSendErrorKind :=
  match a with
  | AbortReset => Reset | AbortCancelled => SendCancelled
  | AbortEngineStopped => SendEngineStopped | AbortFailed _ => Closed
  end.
Definition engine_stopped_error : Error := error_new ErrorKind.EngineStopped "the owning Engine has stopped".
Definition stream_abort (a : TcpAbort) : TcpStreamError :=
  match a with
  | AbortReset => StreamReset | AbortCancelled => StreamCancelled
  | AbortEngineStopped => StreamFailed engine_stopped_error | AbortFailed e => StreamFailed e
  end.
Definition finish_abort (a : TcpAbort) : TcpFinishError :=
  match a with
  | AbortReset => FinishReset | AbortCancelled => FinishCancelled
  | AbortEngineStopped => FinishEngineStopped | AbortFailed e => FinishFailed e
  end.
Definition abort_error (a : TcpAbort) : Error :=
  match a with
  | AbortEngineStopped => engine_stopped_error
  | AbortFailed e => e
  | AbortReset => error_new ErrorKind.Transport "TCP connection was reset"
  | AbortCancelled => error_new ErrorKind.Internal "TCP connection was cancelled"
  end.

Section with_target.
Context {tgt : Target}.

Definition pair (m : RunMode) (send_window receive_window : Z) (release : nat) : outcome Empty_set TcpIo :=
  if (0 <? send_window) && (0 <? receive_window)
  then Ok (mkIo m send_window receive_window
         (mkState [] 0 0 [] 0 0 [] 0 0 false false false false false None false false false false)
         (Some [release]) false 0 [] [])
  else Panic.

(** ** Release and finish callbacks *)

(** [take_release_locked], then [run_release]. *)
Definition release (io : TcpIo) : TcpIo :=
  if released io then io
  else mkIo (mode io) (send_window io) (receive_window io) (state io) None true (notified io)
         (refunds io ++ default [] (on_release io)) (jobs io).

Definition maybe_release (io : TcpIo) : TcpIo :=
  let s := state io in
  if bool_decide (abort s = None) && write_finished s && read_eof_observed s then release io else io.

(** [take_finish_job_locked]: the job to dispatch, if one is due. *)
Definition take_finish_job {E} : M TcpIo E (option (option TcpFinishError)) :=
  io ← get;
  let s := state io in
  if negb (finish_callback_active s) then mret None
  else
    match abort s, write_finished s with
    | None, false => mret None
    | a, _ =>
        if negb (finish_callback s) then mret None
        else if negb (finish_callback_permit s) then panic
        else
          _ ← put (set_state (set_callback (finish_callback_registered s) false false true s) io);
          mret (Some (finish_abort <$> a))
    end.

Definition dispatch_job {E} (job : option (option TcpFinishError)) : M TcpIo E unit :=
  match job with
  | None => mret tt
  | Some result =>
      modify (λ io, mkIo (mode io) (send_window io) (receive_window io) (state io) (on_release io) (released io)
                         (notified io) (refunds io) (jobs io ++ [result]))
  end.

(** ** The application's half *)

Definition try_send (bytes : list Z) : M TcpIo TcpSendError unit :=
  if bool_decide (bytes = []) then mret tt
  else
    io ← get;
    let s := state io in
    if send_window io <? len bytes then fail (mkSendError ChunkTooLarge bytes)
    else match abort s with
    | Some a => fail (mkSendError (send_abort_kind a) bytes)
    | None =>
        if write_finish_requested s || write_finished s then fail (mkSendError Closed bytes)
        else
          consumed ← lift (uadd (outbound_bytes s) (pump_bytes s));
          let remaining := saturating_sub (send_window io) consumed in
          if remaining <? len bytes then fail (mkSendError WouldBlock bytes)
          else
            n ← lift (uadd (outbound_bytes s) (len bytes));
            put (notify (set_state (set_outbound (outbound s ++ [bytes]) n (outbound_tls_offset s) s) io))
    end.

(** [send] and [send_one_blocking], one pass at a time: [chunk] is being
    sent, [rest] follows it. A pass that would block waits and tries again. *)
Inductive send_call := Sending (chunk rest : list Z) | SendOk | SendErr (e : TcpSendError).

Definition send_start (window : Z) (bytes : list Z) : send_call :=
  if bool_decide (bytes = []) then SendOk
  else if len bytes <=? window then Sending bytes []
  else Sending (take (Z.to_nat window) bytes) (drop (Z.to_nat window) bytes).

(** [active] is whether the caller is on the engine's own stack. *)
Definition send (active : bool) (bytes : list Z) (io : TcpIo) : outcome Empty_set send_call :=
  if active then Panic
  else match mode io with
  | Manual => Ok (SendErr (mkSendError SendWrongMode bytes))
  | Spawned => Ok (send_start (send_window io) bytes)
  end.

Definition send_pass (c : send_call) : M TcpIo Empty_set send_call :=
  match c with
  | Sending chunk rest => λ io,
      match try_send chunk io with
      | (Ok _, io') => (Ok (if bool_decide (rest = []) then SendOk else send_start (send_window io) rest), io')
      | (Err e, io') =>
          (Ok (if bool_decide (send_kind e = WouldBlock) then Sending (remaining_bytes e) rest
               else SendErr (mkSendError (send_kind e) (remaining_bytes e ++ rest))), io')
      | (Panic, io') => (Panic, io')
      | (Diverge, io') => (Diverge, io')
      end
  | done => mret done
  end.

(** The copy loop of [try_read]: [want] is the room left. A chunk that is not
    used up has filled the destination. *)
Fixpoint read_loop {E} (q : list (list Z)) (offset bytes want : Z) : outcome E (list Z * list (list Z) * Z * Z) :=
  match q with
  | [] => Ok ([], [], offset, bytes)
  | chunk :: rest =>
      if want <=? 0 then Ok ([], q, offset, bytes)
      else
        available ← usub (len chunk) offset;
        let n := Z.min available want in
        data ← slice chunk offset (offset + n);
        bytes' ← usub bytes n;
        if offset + n =? len chunk then
          '(more, q', offset', bytes'') ← read_loop rest 0 bytes' (want - n);
          Ok (data ++ more, q', offset', bytes'')
        else Ok (data, q, offset + n, bytes')
  end.

(** [try_read] into a buffer of [room] bytes: the result and the bytes. *)
Definition try_read (room : Z) : M TcpIo TcpStreamError (TcpRead * list Z) :=
  io ← get;
  let s := state io in
  match abort s with
  | Some a => fail (stream_abort a)
  | None =>
      if inbound_bytes s =? 0 then
        if peer_fin s then
          _ ← modify (λ io, notify (maybe_release (set_state (set_eof (state io)) io)));
          mret (ReadEof, [])
        else mret (ReadPending, [])
      else if room <=? 0 then mret (ReadData 0, [])
      else
        '(data, q, offset, bytes) ← lift (read_loop (inbound s) (inbound_offset s) (inbound_bytes s) room);
        _ ← put (notify (set_state (set_inbound q offset bytes s) io));
        mret (ReadData (len data), data)
  end.

Definition try_finish : M TcpIo TcpFinishError TcpFinishStatus :=
  io ← get;
  let s := state io in
  match abort s with
  | Some a => fail (finish_abort a)
  | None =>
      if write_finished s then mret FinishStatusFinished
      else _ ← put (notify (set_state (set_requested s) io)); mret FinishStatusPending
  end.

(** [finish_with]: the check, the registration and the activation, each under
    the lock; between the first two a callback event is admitted. *)
Definition already_registered : Error :=
  error_new ErrorKind.InvalidRequest "a TCP write half already has a finish callback".

Definition finish_check : M TcpIo Error unit :=
  io ← get; if finish_callback_registered (state io) then fail already_registered else mret tt.

Definition finish_register : M TcpIo Error unit :=
  io ← get;
  let s := state io in
  if finish_callback_registered s then fail already_registered
  else
    let s := if bool_decide (abort s = None) && negb (write_finished s) then set_requested s else s in
    put (notify (set_state (set_callback true true true (finish_callback_active s) s) io)).

Definition finish_activate : M TcpIo Error unit :=
  _ ← modify (λ io, let s := state io in
         set_state (set_callback (finish_callback_registered s) (finish_callback s) (finish_callback_permit s) true s) io);
  job ← take_finish_job; dispatch_job job.

Definition finish_with (admission : option Error) : M TcpIo Error unit :=
  _ ← finish_check;
  match admission with
  | Some e => fail e
  | None => _ ← finish_register; finish_activate
  end.

Definition abort_with {E} (kind : TcpAbort) : M TcpIo E unit :=
  io ← get;
  match abort (state io) with
  | Some _ => mret tt
  | None =>
      let s := set_abort kind (state io) in
      let s := set_inbound [] 0 0 (set_pump [] 0 0 (set_outbound [] 0 (outbound_tls_offset s) s)) in
      _ ← put (release (set_state s io));
      job ← take_finish_job;
      _ ← modify notify;
      dispatch_job job
  end.

Definition writer_dropped {E} : M TcpIo E unit :=
  io ← get;
  let s := state io in
  if negb (write_finish_requested s || write_finished s) && bool_decide (abort s = None)
  then abort_with AbortCancelled else mret tt.

Definition reader_dropped {E} : M TcpIo E unit :=
  io ← get;
  let s := state io in
  if negb (read_eof_observed s) && bool_decide (abort s = None) then abort_with AbortCancelled else mret tt.

(** ** TLS upgrade *)

Definition begin_upgrade : M TcpIo Error unit :=
  io ← get;
  let s := state io in
  if bool_decide (is_Some (abort s)) || upgrading s || write_finish_requested s || write_finished s || peer_fin s
     || read_eof_observed s || negb (inbound_bytes s =? 0) || negb (outbound_bytes s =? 0) || negb (pump_bytes s =? 0)
  then fail (error_new ErrorKind.InvalidRequest
               "TLS upgrade requires an open, idle, unsplit TCP connection with no unread bytes")
  else put (notify (set_state (set_upgrading true s) io)).

Definition attach_tls_reserve (extra : nat) : M TcpIo Error unit :=
  io ← get;
  let s := state io in
  if bool_decide (is_Some (abort s)) || negb (upgrading s) || released io
  then fail (error_new ErrorKind.InvalidRequest "the TLS upgrade connection was released")
  else match on_release io with
  | None => fail (error_new ErrorKind.Internal "live TCP release callback missing")
  | Some prior =>
      put (mkIo (mode io) (send_window io) (receive_window io) s (Some (extra :: prior)) (released io)
                (notified io) (refunds io) (jobs io))
  end.

Definition complete_upgrade (io : TcpIo) : TcpIo := notify (set_state (set_upgrading false (state io)) io).

Definition upgrade_boundary_clean (io : TcpIo) : bool :=
  let s := state io in
  upgrading s && bool_decide (abort s = None) && negb (peer_fin s) && negb (write_finish_requested s)
  && negb (write_finished s) && (inbound_bytes s =? 0) && (outbound_bytes s =? 0) && (pump_bytes s =? 0)
  && negb (released io).

(** ** The owner's half *)

Definition close_write_admission_if_idle (io : TcpIo) : bool * TcpIo :=
  let s := state io in
  ((outbound_bytes s =? 0) && (pump_bytes s =? 0), notify (set_state (set_requested s) io)).

(** The bytes of [chunk] go to the pump, [q] and [n] are what is left. *)
Definition to_pump (chunk : list Z) (q : list (list Z)) (n off : Z) : M TcpIo Empty_set (option (list Z)) :=
  io ← get;
  let s := state io in
  pumped ← lift (uadd (pump_bytes s) (len chunk));
  _ ← put (notify (set_state (set_pump (pump s ++ [chunk]) (pump_offset s) pumped (set_outbound q n off s)) io));
  mret (Some chunk).

Definition take_outbound : M TcpIo Empty_set (option (list Z)) :=
  io ← get;
  let s := state io in
  match outbound s with
  | [] => mret None
  | chunk :: rest =>
      n ← lift (usub (outbound_bytes s) (len chunk));
      to_pump chunk rest n (outbound_tls_offset s)
  end.

Definition take_outbound_up_to (capacity : Z) : M TcpIo Empty_set (option (list Z)) :=
  if capacity =? 0 then mret None
  else
    io ← get;
    let s := state io in
    if upgrading s then mret None
    else match outbound s with
    | [] => mret None
    | front :: rest =>
        let n := Z.min (len front) capacity in
        let '(chunk, q) := if n =? len front then (front, rest)
                           else (take (Z.to_nat n) front, drop (Z.to_nat n) front :: rest) in
        left ← lift (usub (outbound_bytes s) (len chunk));
        to_pump chunk q left (outbound_tls_offset s)
    end.

Definition take_tls_outbound_up_to (capacity : Z) : M TcpIo Empty_set (option (list Z)) :=
  if capacity =? 0 then mret None
  else
    io ← get;
    let s := state io in
    if upgrading s then mret None
    else match outbound s with
    | [] => mret None
    | front :: rest =>
        remaining ← lift (usub (len front) (outbound_tls_offset s));
        let n := Z.min remaining capacity in
        chunk ← lift (slice front (outbound_tls_offset s) (outbound_tls_offset s + n));
        offset ← lift (uadd (outbound_tls_offset s) (len chunk));
        if offset =? len front
        then left ← lift (usub (outbound_bytes s) (len front)); to_pump chunk rest left 0
        else to_pump chunk (outbound s) (outbound_bytes s) offset
    end.

(** The loop of [write_progress]. *)
Fixpoint progress_loop {E} (q : list (list Z)) (offset bytes n : Z) : outcome E (list (list Z) * Z * Z) :=
  match q with
  | [] => Ok ([], offset, bytes)
  | front :: rest =>
      if n <=? 0 then Ok (q, offset, bytes)
      else
        available ← usub (len front) offset;
        let k := Z.min available n in
        bytes' ← usub bytes k;
        if offset + k =? len front then progress_loop rest 0 bytes' (n - k)
        else Ok (q, offset + k, bytes')
  end.

Definition write_progress (n : Z) : M TcpIo Empty_set unit :=
  io ← get;
  let s := state io in
  '(q, offset, bytes) ← lift (progress_loop (pump s) (pump_offset s) (pump_bytes s) n);
  put (notify (set_state (set_pump q offset bytes s) io)).

Definition complete_write_shutdown : M TcpIo Error unit :=
  io ← get;
  let s := state io in
  match abort s with
  | Some a => fail (abort_error a)
  | None =>
      if negb (write_finish_requested s)
      then fail (error_new ErrorKind.Internal "write shutdown requires an accepted finish request")
      else if negb (outbound_bytes s =? 0) || negb (pump_bytes s =? 0)
      then fail (error_new ErrorKind.Internal "write shutdown requires drained accepted output")
      else
        _ ← put (maybe_release (set_state (set_finished s) io));
        job ← take_finish_job;
        _ ← modify notify;
        dispatch_job job
  end.

Definition push_inbound (bytes : list Z) : M TcpIo Error unit :=
  if bool_decide (bytes = []) then mret tt
  else
    io ← get;
    let s := state io in
    if upgrading s then fail (error_new ErrorKind.InvalidRequest "cleartext arrived across the TLS upgrade boundary")
    else match abort s with
    | Some a => fail (abort_error a)
    | None =>
        if peer_fin s then fail (error_new ErrorKind.Internal "inbound data after peer FIN")
        else
          let remaining := saturating_sub (receive_window io) (inbound_bytes s) in
          if remaining <? len bytes
          then fail (error_new ErrorKind.Internal "inbound push exceeds the unread receive window")
          else
            n ← lift (uadd (inbound_bytes s) (len bytes));
            put (notify (set_state (set_inbound (inbound s ++ [bytes]) (inbound_offset s) n s) io))
    end.

Definition peer_closed (io : TcpIo) : TcpIo :=
  match abort (state io) with
  | Some _ => io
  | None => notify (set_state (set_peer_fin (state io)) io)
  end.

Definition send_occupancy (io : TcpIo) : outcome Empty_set Z :=
  uadd (outbound_bytes (state io)) (pump_bytes (state io)).

Definition read_allowance (io : TcpIo) : Z :=
  if upgrading (state io) then 0 else saturating_sub (receive_window io) (inbound_bytes (state io)).

Definition drop_owner {E} : M TcpIo E unit :=
  io ← get;
  let s := state io in
  if bool_decide (abort s = None) && negb (write_finished s && read_eof_observed s)
  then abort_with AbortEngineStopped else mret tt.
End with_target.
End Io.
