(* ===== verification/TcpIoProofs.v ===== *)
(** * Correctness of the live TCP queues

    Under every interleaving of the application's halves and the owner, bytes
    come out as they went in, within the windows; the reservation is released
    once, when nothing is held; the finish callback runs once and tells the
    truth. *)

From stdpp Require Import base list strings.
From Stdlib Require Import ZArith Lia.
From S2P Require Import Prelude Errors BodyBudget Stream TcpIo.
Import Io.

#[local] Arguments len : simpl never.

(** ** Queues with a partly used front *)

Definition size (q : list (list Z)) : Z := len (concat q).
(** [offset] bytes of the front are used, [n] bytes are left. *)
Definition queue_ok (q : list (list Z)) (offset n : Z) : Prop :=
  n + offset = size q ∧ Forall (λ c, c ≠ []) q ∧
  match q with [] => offset = 0 | f :: _ => 0 ≤ offset < len f end.
Definition content (q : list (list Z)) (offset : Z) : list Z := drop (Z.to_nat offset) (concat q).

Lemma size_cons c q : size (c :: q) = len c + size q.
Proof. unfold size. cbn. by rewrite len_app. Qed.
Lemma size_snoc q c : size (q ++ [c]) = size q + len c.
Proof. unfold size. rewrite concat_app, len_app. cbn. by rewrite app_nil_r. Qed.
Lemma size_nonneg q : 0 ≤ size q.
Proof. apply len_nonneg. Qed.

Lemma len_pos {A} (l : list A) : l ≠ [] → 0 < len l.
Proof. destruct l; [done|]. rewrite len_cons. pose proof (len_nonneg l). lia. Qed.

Lemma queue_bounds q off n : queue_ok q off n → 0 ≤ off ≤ size q ∧ 0 ≤ n.
Proof.
  intros (Hs & Hf & Ho). destruct q as [|f q].
  - subst. change (size []) with 0 in *. lia.
  - rewrite size_cons in *. pose proof (size_nonneg q). lia.
Qed.

Lemma content_len q off n : queue_ok q off n → len (content q off) = n.
Proof.
  intros H. pose proof (queue_bounds _ _ _ H). destruct H as (Hs & _). unfold content, size, len in *.
  rewrite length_drop. lia.
Qed.

Lemma queue_empty q off n : queue_ok q off n → n = 0 → q = [] ∧ off = 0.
Proof.
  intros (Hs & Hf & Ho) ->. destruct q as [|f q]; [done|]. rewrite size_cons in Hs. pose proof (size_nonneg q). lia.
Qed.

Lemma queue_push q off n c : queue_ok q off n → c ≠ [] → queue_ok (q ++ [c]) off (n + len c).
Proof.
  intros (Hs & Hf & Ho) Hc. split_and!.
  - rewrite size_snoc. lia.
  - apply Forall_app. by repeat constructor.
  - pose proof (len_pos c Hc). destruct q; cbn; [subst; lia|done].
Qed.

Lemma content_push q off n c : queue_ok q off n → content (q ++ [c]) off = content q off ++ c.
Proof.
  intros H%queue_bounds. unfold content. rewrite concat_app. cbn. rewrite app_nil_r, drop_app_le; [done|].
  unfold size, len in H. lia.
Qed.

(** Using up [k] bytes of the front: the two branches of the loops. *)
Lemma queue_front_part f q off n k :
  queue_ok (f :: q) off n → 0 ≤ k → off + k < len f →
  queue_ok (f :: q) (off + k) (n - k) ∧
  content (f :: q) off = subrange f off (off + k) ++ content (f :: q) (off + k).
Proof.
  intros (Hs & Hf & Ho) Hk Hlt. split.
  - split_and!; try done; lia.
  - unfold content, subrange. cbn [concat]. rewrite !drop_app_le by (unfold len in *; lia).
    rewrite app_assoc. f_equal. replace (Z.to_nat (off + k)) with (Z.to_nat off + Z.to_nat k)%nat by lia.
    rewrite <-drop_drop. replace (Z.to_nat (off + k - off)) with (Z.to_nat k) by lia. by rewrite take_drop.
Qed.

Lemma queue_front_all f q off n :
  queue_ok (f :: q) off n →
  queue_ok q 0 (n - (len f - off)) ∧ content (f :: q) off = subrange f off (len f) ++ content q 0.
Proof.
  intros (Hs & Hf & Ho). apply Forall_cons in Hf as [Hf1 Hf]. rewrite size_cons in Hs. split.
  - split_and!; [lia|done|]. destruct q; [done|]. apply Forall_cons in Hf as [Hc _]. pose proof (len_pos l Hc). lia.
  - unfold content, subrange. cbn [concat]. rewrite drop_app_le by (unfold len in *; lia). rewrite drop_0. f_equal.
    rewrite take_ge; [done|]. rewrite length_drop. unfold len. lia.
Qed.

Lemma read_loop_spec {E} q off n want :
  queue_ok q off n → 0 ≤ want →
  ∃ data q' off' n', read_loop (E := E) q off n want = Ok (data, q', off', n') ∧ queue_ok q' off' n' ∧
    content q off = data ++ content q' off' ∧ len data = Z.min want n.
Proof.
  revert off n want. induction q as [|f q IH]; intros off n want Hq Hw; cbn [read_loop].
  { exists [], [], off, n. pose proof Hq as (Hs & _ & ->). change (size []) with 0 in Hs. change (len []) with 0.
    split_and!; try done. lia. }
  pose proof Hq as (Hs & Hf & Ho). pose proof (queue_bounds _ _ _ Hq).
  destruct (Z.leb_spec want 0).
  { exists [], (f :: q), off, n. change (len []) with 0. split_and!; try done. lia. }
  unfold usub. rewrite (proj2 (Z.leb_le off (len f))) by lia. cbn [mbind outcome_bind]. cbv zeta.
  set (k := Z.min (len f - off) want). rewrite size_cons in Hs. pose proof (size_nonneg q).
  unfold slice. rewrite !(proj2 (Z.leb_le _ _)) by lia. cbn [andb mbind outcome_bind].
  destruct (Z.eqb_spec (off + k) (len f)) as [He|He].
  - destruct (queue_front_all _ _ _ _ Hq) as [Hq' Hc]. replace (n - (len f - off)) with (n - k) in Hq' by lia.
    destruct (IH 0 (n - k) (want - k) Hq' ltac:(lia)) as (data & q' & off' & n' & -> & Hq'' & Hc' & Hl). cbn [mbind outcome_bind].
    eexists _, _, _, _. split; [reflexivity|]. split_and!; [done| |].
    + rewrite Hc, Hc', He. by rewrite app_assoc.
    + rewrite len_app, Hl, len_subrange by lia. pose proof (queue_bounds _ _ _ Hq'). lia.
  - destruct (queue_front_part f q off n k Hq) as [Hq' Hc]; [lia|lia|].
    eexists _, _, _, _. split; [reflexivity|]. split_and!; [done|done|]. rewrite len_subrange by lia. lia.
Qed.

Lemma progress_loop_spec {E} q off n k :
  queue_ok q off n → 0 ≤ k →
  ∃ data q' off' n', progress_loop (E := E) q off n k = Ok (q', off', n') ∧ queue_ok q' off' n' ∧
    content q off = data ++ content q' off' ∧ len data = Z.min k n ∧ n' ≤ n.
Proof.
  revert off n k. induction q as [|f q IH]; intros off n k Hq Hw; cbn [progress_loop].
  { exists [], [], off, n. pose proof Hq as (Hs & _ & ->). change (size []) with 0 in Hs. change (len []) with 0.
    split_and!; try done; lia. }
  pose proof Hq as (Hs & Hf & Ho). pose proof (queue_bounds _ _ _ Hq).
  destruct (Z.leb_spec k 0).
  { exists [], (f :: q), off, n. change (len []) with 0. split_and!; try done; lia. }
  unfold usub. rewrite (proj2 (Z.leb_le off (len f))) by lia. cbn [mbind outcome_bind]. cbv zeta.
  set (m := Z.min (len f - off) k). rewrite size_cons in Hs. pose proof (size_nonneg q).
  rewrite (proj2 (Z.leb_le m n)) by lia. cbn [mbind outcome_bind].
  destruct (Z.eqb_spec (off + m) (len f)) as [He|He].
  - destruct (queue_front_all _ _ _ _ Hq) as [Hq' Hc]. replace (n - (len f - off)) with (n - m) in Hq' by lia.
    destruct (IH 0 (n - m) (k - m) Hq' ltac:(lia)) as (data & q' & off' & n' & -> & Hq'' & Hc' & Hl & Hn).
    exists (subrange f off (len f) ++ data), q', off', n'. split_and!; [done|done| | |lia].
    + rewrite Hc, Hc'. by rewrite app_assoc.
    + rewrite len_app, Hl, len_subrange by lia. pose proof (queue_bounds _ _ _ Hq'). lia.
  - destruct (queue_front_part f q off n m Hq) as [Hq' Hc]; [lia|lia|].
    exists (subrange f off (off + m)). eexists _, _, _. split_and!; [reflexivity|done|done| |lia]. rewrite len_subrange by lia. lia.
Qed.

(** ** The machine

    [io_op] is one region under the lock, by whoever: the application's
    writer and reader, the connection's handle, the owner. [accepted] is what
    sends were admitted, [taken] what the owner took to write, [written] what
    it reported written, [pushed] what it received and [got] what was read.
    [reserves] are the release callbacks attached, [call] is the blocking
    [send] in progress, of [call_bytes], with [call_done] admitted. *)

Inductive io_op :=
| TrySend (bytes : list Z) | StartSend (bytes : list Z) | SendPass | TryRead (room : Z) | TryFinish
| FinishCheck | FinishRegister | FinishActivate | Abort (kind : TcpAbort) | WriterDropped | ReaderDropped
| BeginUpgrade | AttachReserve (name : nat) | CompleteUpgrade | CloseAdmission
| TakeOutbound | TakeUpTo (n : Z) | TakeTls (n : Z) | WriteProgress (n : Z) | CompleteShutdown
| PushInbound (bytes : list Z) | PeerClosed | DropOwner.

(** Counts are unsigned. *)
Definition valid_io_op (o : io_op) : Prop :=
  match o with TryRead n | TakeUpTo n | TakeTls n | WriteProgress n => 0 ≤ n | _ => True end.

Record world := mkWorld {
  io : TcpIo;
  accepted : list Z; taken : list Z; written : list Z; pushed : list Z; got : list Z;
  reserves : list nat; tls : bool;
  call : send_call; call_bytes : list Z; call_done : list Z
}.

Definition set_io (i : TcpIo) (w : world) : world :=
  mkWorld i (accepted w) (taken w) (written w) (pushed w) (got w) (reserves w) (tls w) (call w) (call_bytes w) (call_done w).
Definition add_accepted (b : list Z) (w : world) : world :=
  mkWorld (io w) (accepted w ++ b) (taken w) (written w) (pushed w) (got w) (reserves w) (tls w) (call w) (call_bytes w) (call_done w).
Definition add_taken (b : option (list Z)) (w : world) : world :=
  mkWorld (io w) (accepted w) (taken w ++ default [] b) (written w) (pushed w) (got w) (reserves w) (tls w) (call w) (call_bytes w) (call_done w).
(** [k] more of the bytes taken are written. *)
Definition add_written (k : Z) (w : world) : world :=
  mkWorld (io w) (accepted w) (taken w)
    (written w ++ take (Z.to_nat k) (drop (length (written w)) (taken w)))
    (pushed w) (got w) (reserves w) (tls w) (call w) (call_bytes w) (call_done w).
Definition add_pushed (b : list Z) (w : world) : world :=
  mkWorld (io w) (accepted w) (taken w) (written w) (pushed w ++ b) (got w) (reserves w) (tls w) (call w) (call_bytes w) (call_done w).
Definition add_got (b : list Z) (w : world) : world :=
  mkWorld (io w) (accepted w) (taken w) (written w) (pushed w) (got w ++ b) (reserves w) (tls w) (call w) (call_bytes w) (call_done w).
Definition add_reserve (n : nat) (w : world) : world :=
  mkWorld (io w) (accepted w) (taken w) (written w) (pushed w) (got w) (n :: reserves w) (tls w) (call w) (call_bytes w) (call_done w).
Definition set_tls (w : world) : world :=
  mkWorld (io w) (accepted w) (taken w) (written w) (pushed w) (got w) (reserves w) true (call w) (call_bytes w) (call_done w).
Definition set_call (c : send_call) (b d : list Z) (w : world) : world :=
  mkWorld (io w) (accepted w) (taken w) (written w) (pushed w) (got w) (reserves w) (tls w) c b d.

Section with_target.
Context {tgt : Target}.

(** Run a method: [ok] is what its success adds to the history. *)
Definition run {E A} (m : M TcpIo E A) (ok : A → world → world) (w : world) : option world :=
  match m (io w) with
  | (Ok a, i) => Some (ok a (set_io i w))
  | (Err _, i) => Some (set_io i w)
  | _ => None
  end.
Definition quiet {A} : A → world → world := λ _ w, w.

Definition send_pass_step (w : world) : option world :=
  match call w with
  | Sending chunk rest =>
      match send_pass (call w) (io w) with
      | (Ok c, i) =>
          let w := set_io i w in
          match c with
          | Sending chunk' rest' =>
              if bool_decide (rest' = rest ∧ chunk' = chunk) then Some (set_call c (call_bytes w) (call_done w) w)
              else Some (set_call c (call_bytes w) (call_done w ++ chunk) (add_accepted chunk w))
          | SendOk => Some (set_call c (call_bytes w) (call_done w ++ chunk) (add_accepted chunk w))
          | SendErr _ => Some (set_call c (call_bytes w) (call_done w) w)
          end
      | _ => None
      end
  | _ => Some w
  end.

Definition io_step (o : io_op) (w : world) : option world :=
  match o with
  | TrySend bytes => run (try_send bytes) (λ _, add_accepted bytes) w
  | StartSend bytes =>
      match call w with
      | Sending _ _ => Some w
      | _ => match send false bytes (io w) with
             | Ok c => Some (set_call c bytes [] w)
             | _ => None
             end
      end
  | SendPass => send_pass_step w
  | TryRead room => run (try_read room) (λ r, add_got r.2) w
  | TryFinish => run try_finish quiet w
  | FinishCheck => run finish_check quiet w
  | FinishRegister => run finish_register quiet w
  | FinishActivate =>
      if finish_callback_registered (state (io w)) && negb (finish_callback_active (state (io w)))
      then run finish_activate quiet w else Some w
  | Abort kind => run (E := Empty_set) (abort_with kind) quiet w
  | WriterDropped => run (E := Empty_set) writer_dropped quiet w
  | ReaderDropped => run (E := Empty_set) reader_dropped quiet w
  | BeginUpgrade => run begin_upgrade quiet w
  | AttachReserve name => run (attach_tls_reserve name) (λ _, add_reserve name) w
  | CompleteUpgrade => Some (set_io (complete_upgrade (io w)) w)
  | CloseAdmission => Some (set_io (close_write_admission_if_idle (io w)).2 w)
  | TakeOutbound => if tls w then Some w else run take_outbound add_taken w
  | TakeUpTo n => if tls w then Some w else run (take_outbound_up_to n) add_taken w
  | TakeTls n => run (take_tls_outbound_up_to n) (λ c w, set_tls (add_taken c w)) w
  | WriteProgress n => run (write_progress n)
      (λ _ w', add_written (pump_bytes (state (io w)) - pump_bytes (state (io w'))) w') w
  | CompleteShutdown => run complete_write_shutdown quiet w
  | PushInbound bytes => run (push_inbound bytes) (λ _, add_pushed bytes) w
  | PeerClosed => Some (set_io (peer_closed (io w)) w)
  | DropOwner => run (E := Empty_set) drop_owner quiet w
  end.

Fixpoint io_run (ops : list io_op) (w : world) : option world :=
  match ops with [] => Some w | o :: ops' => w' ← io_step o w; io_run ops' w' end.

Definition start (m : RunMode) (sw rw : Z) (name : nat) : option world :=
  match pair m sw rw name with
  | Ok i => Some (mkWorld i [] [] [] [] [] [name] false SendOk [] [])
  | _ => None
  end.

(** A whole life of a connection. *)
Definition life (m : RunMode) (sw rw : Z) (name : nat) (ops : list io_op) : option world :=
  w ← start m sw rw name; io_run ops w.

(** ** The invariant, for windows [sw] and [rw] *)

Context {sw rw : Z}.

Definition outstanding (c : send_call) : list Z :=
  match c with Sending chunk rest => chunk ++ rest | SendOk => [] | SendErr e => remaining_bytes e end.

Record alive (w : world) (s : TcpIoState) : Prop := {
  v_out : queue_ok (outbound s) (outbound_tls_offset s) (outbound_bytes s - outbound_tls_offset s);
  v_pump : queue_ok (pump s) (pump_offset s) (pump_bytes s);
  v_in : queue_ok (inbound s) (inbound_offset s) (inbound_bytes s);
  v_window : outbound_bytes s + pump_bytes s - outbound_tls_offset s ≤ send_window (io w);
  v_queue : outbound_bytes s ≤ send_window (io w);
  v_receive : inbound_bytes s ≤ receive_window (io w);
  v_accepted : accepted w = taken w ++ content (outbound s) (outbound_tls_offset s);
  v_taken : taken w = written w ++ content (pump s) (pump_offset s);
  v_pushed : pushed w = got w ++ content (inbound s) (inbound_offset s);
  v_finished : write_finished s = true → outbound_bytes s = 0 ∧ pump_bytes s = 0 ∧ write_finish_requested s = true;
  v_eof : read_eof_observed s = true → inbound_bytes s = 0 ∧ peer_fin s = true;
  v_released : released (io w) = write_finished s && read_eof_observed s;
  v_plain : tls w = false → outbound_tls_offset s = 0;
}.

Record dead (w : world) (s : TcpIoState) : Prop := {
  x_queues : outbound s = [] ∧ outbound_bytes s = 0 ∧ pump s = [] ∧ pump_offset s = 0 ∧ pump_bytes s = 0 ∧
             inbound s = [] ∧ inbound_offset s = 0 ∧ inbound_bytes s = 0;
  x_taken : taken w `prefix_of` accepted w;
  x_written : written w `prefix_of` taken w;
  x_got : got w `prefix_of` pushed w;
  x_finished : write_finished s = true → written w = accepted w;
  x_eof : read_eof_observed s = true → got w = pushed w ∧ peer_fin s = true;
  x_released : released (io w) = true;
}.

Definition job_ok (s : TcpIoState) (j : option TcpFinishError) : Prop :=
  match j with
  | None => write_finished s = true
  | Some e => ∃ a, abort s = Some a ∧ e = finish_abort a
  end.

Definition callback_ok (s : TcpIoState) (js : list (option TcpFinishError)) : Prop :=
  finish_callback s = finish_callback_permit s ∧
  (finish_callback_registered s = false → finish_callback s = false ∧ finish_callback_active s = false ∧ js = []) ∧
  (finish_callback s = true → js = [] ∧
     (finish_callback_active s = true → abort s = None ∧ write_finished s = false)) ∧
  (finish_callback_registered s = true → finish_callback s = false →
     finish_callback_active s = true ∧ ∃ j, js = [j] ∧ job_ok s j).

(** The callback's accounting while its job may be due. *)
Definition callback_pre (s : TcpIoState) (js : list (option TcpFinishError)) : Prop :=
  finish_callback s = finish_callback_permit s ∧
  (finish_callback_registered s = false → finish_callback s = false ∧ finish_callback_active s = false ∧ js = []) ∧
  (finish_callback s = true → js = []) ∧
  (finish_callback_registered s = true → finish_callback s = false →
     finish_callback_active s = true ∧ ∃ j, js = [j] ∧ job_ok s j).

Record inv_gen (cb : TcpIoState → list (option TcpFinishError) → Prop) (w : world) : Prop := {
  i_send : 0 < send_window (io w) ≤ isize_max ∧ send_window (io w) = sw;
  i_receive : 0 < receive_window (io w) ≤ isize_max ∧ receive_window (io w) = rw;
  i_state : match abort (state (io w)) with None => alive w (state (io w)) | Some _ => dead w (state (io w)) end;
  i_release : if released (io w) then on_release (io w) = None ∧ refunds (io w) = reserves w
              else on_release (io w) = Some (reserves w) ∧ refunds (io w) = [];
  i_callback : cb (state (io w)) (jobs (io w));
  i_call : call_bytes w = call_done w ++ outstanding (call w);
  i_chunk : match call w with Sending chunk _ => chunk ≠ [] ∧ len chunk ≤ send_window (io w) | _ => True end;
}.
#[local] Arguments i_send {cb} w _.
#[local] Arguments i_receive {cb} w _.
#[local] Arguments i_state {cb} w _.
#[local] Arguments i_release {cb} w _.
#[local] Arguments i_callback {cb} w _.
#[local] Arguments i_call {cb} w _.
#[local] Arguments i_chunk {cb} w _.
Definition inv : world → Prop := inv_gen callback_ok.
Definition inv_pre : world → Prop := inv_gen callback_pre.

(** ** Every operation preserves it *)

Lemma set_io_id w : set_io (io w) w = w.
Proof. by destruct w. Qed.

Lemma add_got_nil w : add_got [] w = w.
Proof. destruct w. unfold add_got. cbn. by rewrite app_nil_r. Qed.
Lemma add_taken_none w : add_taken None w = w.
Proof. destruct w. unfold add_taken. cbn. by rewrite app_nil_r. Qed.

Definition preserved (r : option world) : Prop := ∃ w', r = Some w' ∧ inv w'.

Lemma run_ok {E A} (m : M TcpIo E A) ok w :
  wp m (λ a i, inv (ok a (set_io i w))) (λ _ i, inv (set_io i w)) (io w) → preserved (run m ok w).
Proof. unfold wpx, run, preserved. destruct (m (io w)) as [[]]; eauto; done. Qed.

Lemma callback_same s s' js :
  callback_ok s js → finish_callback_registered s' = finish_callback_registered s →
  finish_callback s' = finish_callback s → finish_callback_permit s' = finish_callback_permit s →
  finish_callback_active s' = finish_callback_active s → abort s' = abort s → write_finished s' = write_finished s →
  callback_ok s' js.
Proof. unfold callback_ok, job_ok. by intros H -> -> -> -> -> ->. Qed.

(** A new state of the same connection; the call is as it was. *)
Lemma inv_step w w' s' n :
  inv w →
  io w' = mkIo (mode (io w)) (send_window (io w)) (receive_window (io w)) s' (on_release (io w)) (released (io w))
            n (refunds (io w)) (jobs (io w)) →
  reserves w' = reserves w → call w' = call w → call_bytes w' = call_bytes w → call_done w' = call_done w →
  (match abort s' with None => alive w' s' | Some _ => dead w' s' end) → callback_ok s' (jobs (io w)) → inv w'.
Proof.
  intros [] Hio Hr Hc Hcb Hcd Hst Hcall. split; rewrite ?Hio, ?Hr, ?Hc, ?Hcb, ?Hcd; cbn; done.
Qed.

(** Nothing but the wakeup count and the history that grew. *)
Ltac same_callback Hinv :=
  eapply callback_same; [exact (i_callback _ Hinv)|reflexivity..].

Lemma alive_of w : inv w → abort (state (io w)) = None → alive w (state (io w)).
Proof. intros Hinv Ha. pose proof (i_state _ Hinv) as H. by rewrite Ha in H. Qed.
Lemma dead_of w a : inv w → abort (state (io w)) = Some a → dead w (state (io w)).
Proof. intros Hinv Ha. pose proof (i_state _ Hinv) as H. by rewrite Ha in H. Qed.

(** The occupancy never overflows. *)
Lemma occupancy w : alive w (state (io w)) → inv w →
  0 ≤ outbound_bytes (state (io w)) ∧ 0 ≤ pump_bytes (state (io w)) ∧ 0 ≤ outbound_tls_offset (state (io w)) ∧
  outbound_bytes (state (io w)) + pump_bytes (state (io w)) ≤ usize_max.
Proof.
  intros [] Hinv. pose proof (i_send _ Hinv). pose proof isize_bounds as [_ Hi].
  pose proof (queue_bounds _ _ _ v_out0) as [Ho Hr]. pose proof (queue_bounds _ _ _ v_pump0) as [_ Hp].
  destruct v_out0 as (Hs & _ & _). rewrite <-Hs in Ho.
  assert (outbound_tls_offset (state (io w)) ≤ outbound_bytes (state (io w))) by lia.
  lia.
Qed.

(** Admission of [bytes], not all of which may be refused. *)
Lemma try_send_spec w bytes (Q : unit → TcpIo → Prop) (R : TcpSendError → TcpIo → Prop) :
  inv w →
  (bytes = [] → Q tt (io w)) →
  (bytes ≠ [] → len bytes ≤ send_window (io w) → abort (state (io w)) = None →
     write_finish_requested (state (io w)) = false → write_finished (state (io w)) = false →
     outbound_bytes (state (io w)) + pump_bytes (state (io w)) + len bytes ≤ send_window (io w) →
     Q tt (notify (set_state (set_outbound (outbound (state (io w)) ++ [bytes])
             (outbound_bytes (state (io w)) + len bytes) (outbound_tls_offset (state (io w))) (state (io w))) (io w)))) →
  (∀ k, bytes ≠ [] → (k = WouldBlock → len bytes ≤ send_window (io w)) → R (mkSendError k bytes) (io w)) →
  wp (try_send bytes) Q R (io w).
Proof.
  intros Hinv H0 Hok Herr. unfold try_send. destruct (bool_decide_reflect (bytes = [])) as [He|Hne]; [wp_go; auto|].
  wp_go. destruct (Z.ltb_spec (send_window (io w)) (len bytes)); [wp_go; by apply Herr|].
  destruct (abort (state (io w))) as [a|] eqn:Ha; [wp_go; apply Herr; [done|by destruct a]|].
  pose proof (alive_of _ Hinv Ha) as Hal. pose proof (occupancy _ Hal Hinv) as (Ho & Hp & Ht & Hsum).
  destruct (write_finish_requested (state (io w))) eqn:Hr; [wp_go; by apply Herr|].
  destruct (write_finished (state (io w))) eqn:Hf; [wp_go; by apply Herr|]. cbn [orb]. wp_go.
  apply owp_uadd; [done|]. unfold saturating_sub.
  destruct (Z.ltb_spec (Z.max (send_window (io w) - (outbound_bytes (state (io w)) + pump_bytes (state (io w)))) 0) (len bytes));
    [wp_go; by apply Herr|].
  pose proof (len_pos bytes Hne). pose proof (i_send _ Hinv). pose proof isize_bounds as [_ Hi].
  wp_go. apply owp_uadd; [lia|]. wp_go. apply Hok; try done. lia.
Qed.

(** The state after an admitted send, with the history. *)
Lemma sent_inv w w' bytes :
  inv w → bytes ≠ [] → abort (state (io w)) = None → write_finish_requested (state (io w)) = false →
  write_finished (state (io w)) = false →
  outbound_bytes (state (io w)) + pump_bytes (state (io w)) + len bytes ≤ send_window (io w) →
  io w' = notify (set_state (set_outbound (outbound (state (io w)) ++ [bytes])
     (outbound_bytes (state (io w)) + len bytes) (outbound_tls_offset (state (io w))) (state (io w))) (io w)) →
  accepted w' = accepted w ++ bytes → taken w' = taken w → written w' = written w → pushed w' = pushed w → got w' = got w →
  tls w' = tls w → reserves w' = reserves w → call w' = call w → call_bytes w' = call_bytes w → call_done w' = call_done w → inv w'.
Proof.
  intros Hinv Hne Ha Hr Hf Hroom Hio Hacc Ht Hw Hp Hg Htls Hres Hc Hcb Hcd.
  pose proof (alive_of _ Hinv Ha) as []. pose proof (len_pos bytes Hne).
  eapply inv_step; [exact Hinv|exact Hio|done..| |same_callback Hinv]. cbn. rewrite Ha.
  pose proof (queue_bounds _ _ _ v_out0) as [Htl _]. pose proof (queue_bounds _ _ _ v_pump0) as [_ Hpp].
  split; cbn; rewrite ?Hio, ?Hacc, ?Ht, ?Hw, ?Hp, ?Hg, ?Htls; cbn; try done; try lia.
  - replace (outbound_bytes (state (io w)) + len bytes - outbound_tls_offset (state (io w)))
      with (outbound_bytes (state (io w)) - outbound_tls_offset (state (io w)) + len bytes) by lia. by apply queue_push.
  - rewrite v_accepted0. erewrite content_push by done. by rewrite app_assoc.
  - rewrite Hf. done.
Qed.

Lemma step_try_send w bytes : inv w → preserved (io_step (TrySend bytes) w).
Proof.
  intros Hinv. apply run_ok, try_send_spec; [done| | |].
  - intros ->. rewrite set_io_id. destruct w. unfold add_accepted. cbn. by rewrite app_nil_r.
  - intros. by eapply (sent_inv w).
  - intros. by rewrite set_io_id.
Qed.

Lemma send_start_spec window bytes :
  0 < window →
  outstanding (send_start window bytes) = bytes ∧
  match send_start window bytes with Sending chunk _ => chunk ≠ [] ∧ len chunk ≤ window | SendOk => True | SendErr _ => False end.
Proof.
  intros Hw. unfold send_start. destruct (bool_decide_reflect (bytes = [])) as [->|Hne]; [done|].
  destruct (Z.leb_spec (len bytes) window); cbn; [by rewrite app_nil_r|]. rewrite take_drop. split; [done|].
  split.
  - intros He%(f_equal length). rewrite length_take in He. cbn in He. destruct bytes; [done|]. cbn in He. lia.
  - unfold len. rewrite length_take. lia.
Qed.

Lemma send_start_progress window bytes chunk : 0 < window → bytes ≠ [] → send_start window bytes ≠ Sending chunk bytes.
Proof.
  intros Hw Hne. unfold send_start. rewrite bool_decide_eq_false_2 by done.
  destruct (Z.leb_spec (len bytes) window); intros [= _ He]; [congruence|].
  apply (f_equal length) in He. rewrite length_drop in He. destruct bytes; [done|]. cbn in He. lia.
Qed.

Lemma inv_call w c b d :
  inv w → b = d ++ outstanding c →
  match c with Sending chunk _ => chunk ≠ [] ∧ len chunk ≤ send_window (io w) | _ => True end → inv (set_call c b d w).
Proof. intros [] Hb Hc. split; try done. destruct (abort _); [by destruct i_state0|by destruct i_state0]. Qed.

Lemma step_start_send w bytes : inv w → preserved (io_step (StartSend bytes) w).
Proof.
  intros Hinv. cbn [io_step]. destruct (send_start_spec (send_window (io w)) bytes) as [Ho Hc]; [apply Hinv|].
  unfold preserved, send. destruct (call w); [by eexists|..];
    (destruct (mode (io w)); eexists; (split; [reflexivity|]); apply inv_call; try done; by destruct (send_start _ _)).
Qed.

Lemma step_send_pass w : inv w → preserved (io_step SendPass w).
Proof.
  intros Hinv. cbn [io_step]. unfold send_pass_step. destruct (call w) as [chunk rest| |e] eqn:Hcall; try (by eexists).
  pose proof (i_call _ Hinv) as Hb. pose proof (i_chunk _ Hinv) as Hch. rewrite Hcall in Hb, Hch. destruct Hch as [Hne Hlen].
  cbn [outstanding] in Hb. unfold send_pass, preserved.
  assert (Hsp : wp (try_send chunk)
    (λ _ i, abort (state (io w)) = None ∧ write_finish_requested (state (io w)) = false ∧ write_finished (state (io w)) = false ∧
       outbound_bytes (state (io w)) + pump_bytes (state (io w)) + len chunk ≤ send_window (io w) ∧
       i = notify (set_state (set_outbound (outbound (state (io w)) ++ [chunk])
             (outbound_bytes (state (io w)) + len chunk) (outbound_tls_offset (state (io w))) (state (io w))) (io w)))
    (λ e i, i = io w ∧ remaining_bytes e = chunk) (io w)).
  { apply try_send_spec; [done|congruence|intros; by split_and!|by intros]. }
  unfold wpx in Hsp. destruct (try_send chunk (io w)) as [[[]|e| |] i]; [| |done..].
  - destruct Hsp as (Ha & Hr & Hf & Hroom & ->).
    assert (Hsent : inv (add_accepted chunk (set_io (notify (set_state (set_outbound (outbound (state (io w)) ++ [chunk])
      (outbound_bytes (state (io w)) + len chunk) (outbound_tls_offset (state (io w))) (state (io w))) (io w))) w)))
      by (by eapply (sent_inv w)).
    assert (Hw : 0 < send_window (io w)) by apply Hinv.
    destruct (bool_decide_reflect (rest = [])) as [->|Hrest].
    + eexists. split; [reflexivity|]. apply inv_call; [done| |done]. cbn. by rewrite Hb, !app_nil_r.
    + destruct (send_start_spec (send_window (io w)) rest Hw) as [Ho Hc].
      pose proof (send_start_progress (send_window (io w)) rest chunk Hw Hrest) as Hp.
      destruct (send_start (send_window (io w)) rest) as [chunk' rest'| |e']; cbn [outstanding] in Ho.
      * rewrite bool_decide_eq_false_2 by (intros [-> ->]; done). eexists. split; [reflexivity|].
        apply inv_call; [done| |done]. cbn. by rewrite Hb, <-app_assoc, Ho.
      * eexists. split; [reflexivity|]. apply inv_call; [done| |done]. cbn. by rewrite Hb, <-Ho.
      * done.
  - destruct Hsp as [-> Hrem]. rewrite set_io_id.
    destruct (bool_decide (send_kind e = WouldBlock)).
    + rewrite Hrem, bool_decide_eq_true_2 by done. eexists. split; [reflexivity|]. by apply inv_call.
    + eexists. split; [reflexivity|]. apply inv_call; [done| |done]. cbn. by rewrite Hrem.
Qed.

(** No job is due. *)
Lemma callback_settled s js :
  callback_pre s js →
  (finish_callback s = true → finish_callback_active s = true → abort s = None ∧ write_finished s = false) → callback_ok s js.
Proof. unfold callback_pre, callback_ok. intuition. Qed.
Lemma callback_weaken s js : callback_ok s js → callback_pre s js.
Proof. unfold callback_pre, callback_ok. intuition. Qed.

(** Taking the job that is due makes the accounting exact again. *)
Lemma finish_job_spec {E} w (R : E → TcpIo → Prop) (f : TcpIo → TcpIo) :
  inv_pre w →
  (∀ i, f i = mkIo (mode i) (send_window i) (receive_window i) (state i) (on_release i) (released i) (notified (f i)) (refunds i) (jobs i)) →
  wp (take_finish_job (E := E)) (λ job i, wp ((_ ← modify f; dispatch_job job) : M TcpIo E unit) (λ _ i', inv (set_io i' w)) R i)
    R (io w).
Proof.
  intros Hinv Hf. pose proof (i_callback _ Hinv) as (Hperm & Hreg & Hcb & Hdone).
  assert (Hsame : ∀ i s' js', i = mkIo (mode (io w)) (send_window (io w)) (receive_window (io w)) s' (on_release (io w)) (released (io w))
      (notified i) (refunds (io w)) js' → callback_ok s' js' →
      (∃ a b c d, s' = set_callback a b c d (state (io w))) → inv (set_io i w)).
  { intros i s' js' -> Hok (a & b & c & d & ->). destruct Hinv as [? ? Hst ? _ ? ?]. split; try done. cbn.
    destruct (abort (state (io w))); by destruct Hst. }
  assert (Hkeep : ∀ i, i = mkIo (mode (io w)) (send_window (io w)) (receive_window (io w)) (state (io w)) (on_release (io w)) (released (io w))
      (notified i) (refunds (io w)) (jobs (io w)) → callback_ok (state (io w)) (jobs (io w)) → inv (set_io i w)).
  { intros i Hi Hok. eapply Hsame; [exact Hi|done|].
    exists (finish_callback_registered (state (io w))), (finish_callback (state (io w))), (finish_callback_permit (state (io w))),
      (finish_callback_active (state (io w))). by destruct (state (io w)). }
  unfold take_finish_job. wp_go. destruct (finish_callback_active (state (io w))) eqn:Hact; cbn [negb].
  2:{ wp_go. cbn [dispatch_job]. wp_go. apply Hkeep; [apply Hf|]. apply callback_settled; [apply Hinv|congruence]. }
  assert (Hdue : ∀ j, job_ok (state (io w)) j →
    wp (if negb (finish_callback (state (io w))) then mret None
        else if negb (finish_callback_permit (state (io w))) then panic
        else _ ← put (set_state (set_callback (finish_callback_registered (state (io w))) false false true (state (io w))) (io w));
             mret (Some j))
      (λ job i, wp ((_ ← modify f; dispatch_job job) : M TcpIo E unit) (λ _ i', inv (set_io i' w)) R i) R (io w)).
  { intros j Hj. rewrite <-Hperm. destruct (finish_callback (state (io w))) eqn:Hc; cbn [negb]; wp_go; cbn [dispatch_job]; wp_go.
    - pose proof (Hf (set_state (set_callback (finish_callback_registered (state (io w))) false false true (state (io w))) (io w))) as Hf'.
      eapply (Hsame _ _ (jobs (io w) ++ [j])); [rewrite Hf'; reflexivity| |by eexists _, _, _, _].
      rewrite (Hcb eq_refl). split; [done|]. split; [|split; [done|]]; cbn.
      + intros Hr. destruct (Hreg Hr) as [? _]. congruence.
      + intros _ _. split; [done|]. by exists j.
    - apply Hkeep; [apply Hf|]. apply callback_settled; [apply Hinv|congruence]. }
  destruct (abort (state (io w))) as [a|] eqn:Ha.
  - apply (Hdue (Some (finish_abort a))). by exists a.
  - destruct (write_finished (state (io w))) eqn:Hfin; [by apply (Hdue None)|]. wp_go. cbn [dispatch_job]. wp_go.
    apply Hkeep; [apply Hf|]. by apply callback_settled; [apply Hinv|].
Qed.

Lemma inv_notify cb i w : inv_gen cb (set_io i w) → inv_gen cb (set_io (notify i) w).
Proof. intros []. split; try done. cbn in *. by destruct (abort (state i)), i_state0. Qed.

(** A new state in which both directions may have ended. *)
Lemma maybe_release_inv cb w s' :
  inv w → abort (state (io w)) = None → abort s' = None →
  (write_finished (state (io w)) && read_eof_observed (state (io w)) = true → write_finished s' && read_eof_observed s' = true) →
  (∀ i, send_window i = send_window (io w) → receive_window i = receive_window (io w) →
     released i = write_finished s' && read_eof_observed s' → alive (set_io i w) s') →
  cb s' (jobs (io w)) → inv_gen cb (set_io (maybe_release (set_state s' (io w))) w).
Proof.
  intros Hinv Ha Ha' Hmono Hal Hcb. pose proof (v_released _ _ (alive_of _ Hinv Ha)) as Hrel.
  pose proof (i_release _ Hinv) as Hr. destruct Hinv as [Hs Hw _ _ _ Hc Hk].
  unfold maybe_release. cbn [state set_state]. rewrite bool_decide_eq_true_2 by done. cbn [andb].
  destruct (write_finished s' && read_eof_observed s') eqn:Hboth; unfold release; cbn [released set_state].
  - destruct (released (io w)) eqn:Hold; (split; cbn; rewrite ?Ha'; try done); [by apply Hal|by rewrite Hold|by apply Hal|].
    destruct Hr as [-> ->]. done.
  - assert (Hold : released (io w) = false) by (destruct (released (io w)); [|done]; specialize (Hmono (eq_sym Hrel)); congruence).
    rewrite Hold in Hr. split; cbn; rewrite ?Ha'; try done; [by apply Hal|by rewrite Hold].
Qed.

Lemma step_try_read w room : 0 ≤ room → inv w → preserved (io_step (TryRead room) w).
Proof.
  intros Hroom Hinv. apply run_ok. unfold try_read. wp_go.
  destruct (abort (state (io w))) as [a|] eqn:Ha; [wp_go; by rewrite set_io_id|].
  pose proof (alive_of _ Hinv Ha) as Hal. pose proof Hal as [].
  assert (Hsame : inv (add_got [] (set_io (io w) w))) by (by rewrite set_io_id, add_got_nil).
  destruct (Z.eqb_spec (inbound_bytes (state (io w))) 0) as [Hz|Hz].
  - destruct (peer_fin (state (io w))) eqn:Hfin; wp_go; [|done].
    assert (Hi : inv (set_io (maybe_release (set_state (set_eof (state (io w))) (io w))) w)).
    { apply maybe_release_inv; try done.
      - cbn. intros [-> _]%andb_true_iff. done.
      - intros i Hsw Hrw Hrel. split; cbn; rewrite ?Hsw, ?Hrw; done.
      - same_callback Hinv. }
    cbn [snd]. rewrite add_got_nil. by apply inv_notify.
  - destruct (Z.leb_spec room 0); [wp_go; done|].
    destruct (read_loop_spec (E := TcpStreamError) (inbound (state (io w))) (inbound_offset (state (io w))) (inbound_bytes (state (io w))) room v_in0 Hroom)
      as (data & q' & off' & n' & -> & Hq & Hcont & Hlen). wp_go.
    eapply inv_step; [exact Hinv|reflexivity|done..| |same_callback Hinv]. cbn. rewrite Ha.
    split; cbn; try done.
    + apply content_len in v_in0, Hq. rewrite Hcont, len_app in v_in0. pose proof (len_nonneg data). lia.
    + rewrite v_pushed0, Hcont. by rewrite app_assoc.
    + intros He. destruct (v_eof0 He). done.
Qed.

Lemma step_try_finish w : inv w → preserved (io_step TryFinish w).
Proof.
  intros Hinv. apply run_ok. unfold try_finish. wp_go. unfold quiet.
  destruct (abort (state (io w))) as [a|] eqn:Ha; [wp_go; by rewrite set_io_id|].
  destruct (write_finished (state (io w))) eqn:Hf; wp_go; [by rewrite set_io_id|].
  eapply inv_step; [exact Hinv|reflexivity|done..| |same_callback Hinv]. cbn. rewrite Ha.
  destruct (alive_of _ Hinv Ha). split; cbn; try done. rewrite Hf. done.
Qed.

Lemma step_finish_check w : inv w → preserved (io_step FinishCheck w).
Proof.
  intros Hinv. apply run_ok. unfold finish_check, quiet. wp_go.
  destruct (finish_callback_registered _); wp_go; by rewrite set_io_id.
Qed.

Lemma step_finish_register w : inv w → preserved (io_step FinishRegister w).
Proof.
  intros Hinv. apply run_ok. unfold finish_register, quiet. wp_go.
  destruct (finish_callback_registered (state (io w))) eqn:Hreg; wp_go; [by rewrite set_io_id|].
  destruct (i_callback _ Hinv) as (_ & Hn & _). destruct (Hn Hreg) as (_ & Hact & Hjs).
  set (s1 := if bool_decide _ && _ then _ else _). assert (Hs1 : s1 = state (io w) ∨ (abort (state (io w)) = None ∧ s1 = set_requested (state (io w)))).
  { unfold s1. destruct (bool_decide_reflect (abort (state (io w)) = None)); [|by left].
    destruct (write_finished _); [by left|by right]. }
  eapply inv_step; [exact Hinv|reflexivity|done..| |].
  - destruct Hs1 as [->|[Ha ->]]; cbn.
    + pose proof (i_state _ Hinv) as Hst. destruct (abort (state (io w))); by destruct Hst.
    + rewrite Ha. destruct (alive_of _ Hinv Ha). split; cbn; try done. intros Hf. destruct (v_finished0 Hf) as (? & ? & ?). done.
  - rewrite Hjs. destruct Hs1 as [->|[Ha ->]]; (split; [done|split; [done|split; [|done]]]); cbn; intros _; (split; [done|]); congruence.
Qed.

(** A callback-only change before the job is taken. *)
Lemma step_finish_activate w : inv w → preserved (io_step FinishActivate w).
Proof.
  intros Hinv. cbn [io_step]. destruct (finish_callback_registered (state (io w))) eqn:Hreg; [|by eexists].
  destruct (finish_callback_active (state (io w))) eqn:Hact; [by eexists|]. cbn [andb negb].
  apply run_ok. unfold finish_activate, quiet. wp_go.
  set (i1 := set_state _ _).
  assert (Hpre : inv_pre (set_io i1 w)).
  { pose proof (i_callback _ Hinv) as (Hp & _ & Hc & Hd). pose proof (i_state _ Hinv) as Hst. destruct Hinv as [? ? _ ? _ ? ?].
    split; try done; cbn.
    - destruct (abort (state (io w))); by destruct Hst.
    - unfold callback_pre. cbn. split; [done|]. split; [congruence|]. split; [intros H; by apply Hc|].
      intros H1 H2. destruct (Hd H1 H2). congruence. }
  eapply wp_mono; [apply (finish_job_spec (E := Error) (set_io i1 w) (λ _ i, inv (set_io i w)) id Hpre); by intros []| |done].
  intros job i H. exact H.
Qed.

(** The connection is torn down. *)
Lemma abort_with_inv {E} w kind (Q : TcpIo → Prop) (R : E → TcpIo → Prop) :
  inv w → (∀ i, inv (set_io i w) → Q i) → wp (abort_with (E := E) kind) (λ _ i, Q i) R (io w).
Proof.
  intros Hinv HQ. unfold abort_with. wp_go. destruct (abort (state (io w))) as [a|] eqn:Ha; [wp_go; apply HQ; by rewrite set_io_id|].
  wp_go. set (i1 := release _).
  assert (Hpre : inv_pre (set_io i1 w)).
  { pose proof (alive_of _ Hinv Ha) as Hal. pose proof (i_release _ Hinv) as Hr. pose proof (callback_weaken _ _ (i_callback _ Hinv)) as Hcb.
    assert (Hw : send_window i1 = send_window (io w) ∧ receive_window i1 = receive_window (io w) ∧ released i1 = true ∧
       jobs i1 = jobs (io w) ∧ on_release i1 = None ∧ refunds i1 = reserves w ∧ state i1 =
       set_inbound [] 0 0 (set_pump [] 0 0 (set_outbound [] 0 (outbound_tls_offset (state (io w))) (set_abort kind (state (io w)))))).
    { unfold i1, release. cbn. destruct (released (io w)) eqn:Hrel; cbn; [tauto|]. destruct Hr as [-> ->]. done. }
    destruct Hw as (Hw1 & Hw2 & Hw3 & Hw4 & Hw5 & Hw6 & Hw7). destruct Hinv as [? ? _ _ _ ? ?].
    split; cbn; rewrite ?Hw1, ?Hw2, ?Hw3, ?Hw4, ?Hw5, ?Hw6, ?Hw7; try done; cbn.
    - destruct Hal. split; try done; cbn.
      + rewrite v_accepted0. by apply prefix_app_r.
      + rewrite v_taken0. by apply prefix_app_r.
      + rewrite v_pushed0. by apply prefix_app_r.
      + intros Hf. destruct (v_finished0 Hf) as (Ho & Hp & _).
        destruct (queue_empty _ _ _ v_pump0 Hp) as [Hp1 Hp2]. rewrite v_accepted0, v_taken0, Hp1, Hp2, app_nil_r.
        assert (Ho' : outbound_bytes (state (io w)) - outbound_tls_offset (state (io w)) = 0)
          by (pose proof (queue_bounds _ _ _ v_out0); lia).
        destruct (queue_empty _ _ _ v_out0 Ho') as [Ho1 Ho2]. by rewrite Ho1, Ho2, app_nil_r.
      + intros He. destruct (v_eof0 He) as [Hi Hf]. split; [|done].
        destruct (queue_empty _ _ _ v_in0 Hi) as [Hi1 Hi2]. by rewrite v_pushed0, Hi1, Hi2, app_nil_r.
    - destruct Hcb as (H1 & H2 & H3 & H4). split; [done|]. split; [done|]. split; [done|]. intros Hr1 Hc1.
      destruct (H4 Hr1 Hc1) as (Hact & j & -> & Hj). split; [done|]. exists j. split; [done|].
      destruct j as [e|]; [|done]. destruct Hj as (a & Ha' & _). congruence. }
  eapply wp_mono; [apply (finish_job_spec (E := E) (set_io i1 w) R notify Hpre); by intros []| |done].
  intros job i H. eapply wp_mono; [exact H| |done]. intros ? i' Hi'. apply HQ. exact Hi'.
Qed.

Lemma step_abort w kind : inv w → preserved (io_step (Abort kind) w).
Proof. intros Hinv. apply run_ok. by apply (abort_with_inv w kind (λ i, inv (set_io i w))). Qed.

(** The three drop handlers: abort, or nothing. *)
Lemma guarded_abort w (b : bool) kind :
  inv w → preserved (run (E := Empty_set) (if b then abort_with kind else mret tt) quiet w).
Proof.
  intros Hinv. destruct b; [by apply step_abort|]. apply run_ok. wp_go. unfold quiet. by rewrite set_io_id.
Qed.

Lemma step_begin_upgrade w : inv w → preserved (io_step BeginUpgrade w).
Proof.
  intros Hinv. apply run_ok. unfold begin_upgrade, quiet. wp_go. destruct (_ || _); wp_go; [by rewrite set_io_id|].
  eapply inv_step; [exact Hinv|reflexivity|done..| |same_callback Hinv].
  cbn. pose proof (i_state _ Hinv) as Hst. destruct (abort (state (io w))); by destruct Hst.
Qed.

Lemma step_attach_reserve w name : inv w → preserved (io_step (AttachReserve name) w).
Proof.
  intros Hinv. apply run_ok. unfold attach_tls_reserve. wp_go.
  destruct (released (io w)) eqn:Hrel; [rewrite orb_true_r; wp_go; by rewrite set_io_id|].
  destruct (_ || _); [wp_go; by rewrite set_io_id|].
  pose proof (i_release _ Hinv) as Hr. rewrite Hrel in Hr. destruct Hr as [-> Hr]. wp_go.
  pose proof (i_state _ Hinv) as Hst. destruct Hinv as [? ? _ _ ? ? ?]. split; try done; cbn.
  destruct (abort (state (io w))); destruct Hst; split; try done; cbn; congruence.
Qed.

(** A change of the flags that the invariant does not read. *)
Lemma step_complete_upgrade w : inv w → preserved (io_step CompleteUpgrade w).
Proof.
  intros Hinv. eexists. split; [reflexivity|]. eapply inv_step; [exact Hinv|reflexivity|done..| |same_callback Hinv].
  cbn. pose proof (i_state _ Hinv) as Hst. destruct (abort (state (io w))); by destruct Hst.
Qed.

Lemma step_close_admission w : inv w → preserved (io_step CloseAdmission w).
Proof.
  intros Hinv. eexists. split; [reflexivity|]. eapply inv_step; [exact Hinv|reflexivity|done..| |same_callback Hinv].
  cbn. pose proof (i_state _ Hinv) as Hst. destruct (abort (state (io w))); [by destruct Hst|].
  destruct Hst. split; cbn; try done. intros Hf. by destruct (v_finished0 Hf) as (? & ? & ?).
Qed.

Lemma step_peer_closed w : inv w → preserved (io_step PeerClosed w).
Proof.
  intros Hinv. eexists. split; [reflexivity|]. unfold peer_closed.
  destruct (abort (state (io w))) eqn:Ha; [by rewrite set_io_id|].
  eapply inv_step; [exact Hinv|reflexivity|done..| |same_callback Hinv].
  cbn. rewrite Ha. destruct (alive_of _ Hinv Ha). split; cbn; try done. intros He. by destruct (v_eof0 He).
Qed.

(** [chunk] goes to the pump; [q], [n] and [off] are what the queue keeps. *)
Lemma to_pump_inv w (ok : option (list Z) → world → world) chunk q n off (R : Empty_set → TcpIo → Prop) :
  inv w → abort (state (io w)) = None → chunk ≠ [] →
  queue_ok q off (n - off) → n ≤ outbound_bytes (state (io w)) →
  outbound_bytes (state (io w)) - outbound_tls_offset (state (io w)) = n - off + len chunk →
  content (outbound (state (io w))) (outbound_tls_offset (state (io w))) = chunk ++ content q off →
  (write_finished (state (io w)) = false) →
  (ok = add_taken ∧ (tls w = false → off = 0) ∨ ok = (λ c w, set_tls (add_taken c w))) →
  wp (to_pump chunk q n off) (λ c i, inv (ok c (set_io i w))) R (io w).
Proof.
  intros Hinv Ha Hne Hq Hn Hsum Hc Hnf Hok. pose proof (alive_of _ Hinv Ha) as Hal. pose proof (occupancy _ Hal Hinv) as (Ho & Hp & Ht & Hu).
  pose proof Hal as []. pose proof (len_pos chunk Hne). pose proof (queue_bounds _ _ _ Hq).
  pose proof (queue_bounds _ _ _ v_out0) as [Hto _]. unfold to_pump. wp_go. apply owp_uadd.
  { pose proof (i_send _ Hinv). pose proof isize_bounds. lia. }
  wp_go.
  assert (Halive : ∀ w', accepted w' = accepted w → taken w' = taken w ++ chunk → written w' = written w → pushed w' = pushed w →
     got w' = got w → send_window (io w') = send_window (io w) → receive_window (io w') = receive_window (io w) →
     released (io w') = released (io w) → (tls w' = false → off = 0) →
     alive w' (set_pump (pump (state (io w)) ++ [chunk]) (pump_offset (state (io w))) (pump_bytes (state (io w)) + len chunk)
                 (set_outbound q n off (state (io w))))).
  { intros w' H1 H2 H3 H4 H5 H6 H7 H8 H9. split; cbn; rewrite ?H1, ?H2, ?H3, ?H4, ?H5, ?H6, ?H7, ?H8; try done; try lia.
    - by apply queue_push.
    - rewrite v_accepted0, Hc. by rewrite app_assoc.
    - erewrite content_push by done. by rewrite v_taken0, app_assoc.
    - rewrite Hnf. done. }
  destruct Hok as [[-> Hoff]| ->]; (eapply inv_step; [exact Hinv|reflexivity|done..| |same_callback Hinv]);
    cbn; rewrite Ha; by apply Halive.
Qed.

Lemma unfinished w f rest : inv w → abort (state (io w)) = None → outbound (state (io w)) = f :: rest →
  write_finished (state (io w)) = false.
Proof.
  intros Hinv Ha Hq. destruct (alive_of _ Hinv Ha). destruct (write_finished _) eqn:Hf; [|done].
  destruct (v_finished0 eq_refl) as (Hz & _). rewrite Hq in v_out0. pose proof (queue_bounds _ _ _ v_out0).
  destruct (queue_empty _ _ _ v_out0) as [? _]; [lia|done].
Qed.

Lemma dead_outbound w : inv w → outbound (state (io w)) ≠ [] → abort (state (io w)) = None.
Proof. intros Hinv Hne. destruct (abort _) eqn:Ha; [|done]. destruct (dead_of _ _ Hinv Ha). tauto. Qed.

Lemma step_take_outbound w : inv w → preserved (io_step TakeOutbound w).
Proof.
  intros Hinv. cbn [io_step]. destruct (tls w) eqn:Htls; [by eexists|]. apply run_ok. unfold take_outbound. wp_go.
  destruct (outbound (state (io w))) as [|f rest] eqn:Hq; wp_go; [by rewrite set_io_id, add_taken_none|].
  assert (Ha : abort (state (io w)) = None) by (apply dead_outbound; [done|congruence]).
  pose proof (unfinished _ _ _ Hinv Ha Hq). destruct (alive_of _ Hinv Ha).
  rewrite Hq, (v_plain0 Htls) in v_out0. destruct (queue_front_all _ _ _ _ v_out0) as [Hq' Hc].
  pose proof (queue_bounds _ _ _ Hq'). pose proof (len_nonneg f).
  destruct v_out0 as (_ & [Hne _]%Forall_cons & _). apply owp_usub; [lia|]. wp_go.
  apply to_pump_inv; try done.
  - rewrite (v_plain0 Htls). replace (outbound_bytes (state (io w)) - len f - 0) with (outbound_bytes (state (io w)) - 0 - (len f - 0)) by lia. done.
  - lia.
  - rewrite (v_plain0 Htls). lia.
  - rewrite Hq, (v_plain0 Htls), Hc. unfold subrange. change (Z.to_nat 0) with 0%nat. rewrite drop_0, take_ge; [done|]. unfold len. lia.
  - left. split; [done|]. intros _. by apply v_plain0.
Qed.

Lemma queue_ok_full q n : queue_ok q 0 n ↔ n = size q ∧ Forall (λ c, c ≠ []) q.
Proof.
  unfold queue_ok. split; [intros (? & ? & _); split; [lia|done]|]. intros [-> Hf]. split_and!; [lia|done|].
  destruct Hf as [|c q Hc]; [done|]. pose proof (len_pos c Hc). lia.
Qed.

Lemma step_take_up_to w n : 0 ≤ n → inv w → preserved (io_step (TakeUpTo n) w).
Proof.
  intros Hn Hinv. cbn [io_step]. destruct (tls w) eqn:Htls; [by eexists|]. apply run_ok. unfold take_outbound_up_to.
  assert (Hsame : inv (add_taken None (set_io (io w) w))) by (by rewrite set_io_id, add_taken_none).
  destruct (Z.eqb_spec n 0); [wp_go; done|]. wp_go. destruct (upgrading _); [wp_go; done|].
  destruct (outbound (state (io w))) as [|f rest] eqn:Hq; [wp_go; done|].
  assert (Ha : abort (state (io w)) = None) by (apply dead_outbound; [done|congruence]).
  pose proof (unfinished _ _ _ Hinv Ha Hq). destruct (alive_of _ Hinv Ha).
  rewrite Hq, (v_plain0 Htls) in v_out0. apply queue_ok_full in v_out0 as [Hs Hf]. rewrite size_cons in Hs.
  pose proof Hf as [Hne Hf']%Forall_cons. pose proof (len_pos f Hne). pose proof (size_nonneg rest).
  set (m := Z.min (len f) n). cbv zeta.
  assert (Hcut : ∃ chunk q, (if m =? len f then (f, rest) else (take (Z.to_nat m) f, drop (Z.to_nat m) f :: rest)) = (chunk, q) ∧
     chunk ≠ [] ∧ Forall (λ c, c ≠ []) q ∧ concat (f :: rest) = chunk ++ concat q).
  { destruct (Z.eqb_spec m (len f)); [by exists f, rest|]. eexists _, _. split; [reflexivity|]. split_and!.
    - intros He%(f_equal length). rewrite length_take in He. unfold len in *. cbn in He. lia.
    - constructor; [|done]. intros He%(f_equal length). rewrite length_drop in He. unfold len in *. cbn in He. lia.
    - cbn [concat]. by rewrite app_assoc, take_drop. }
  destruct Hcut as (chunk & q & -> & Hck & Hqf & Hcc).
  assert (Hss : len f + size rest = len chunk + size q) by (rewrite <-size_cons; unfold size; by rewrite Hcc, len_app).
  pose proof (size_nonneg q). wp_go. apply owp_usub; [lia|]. wp_go. pose proof (len_pos chunk Hck).
  apply to_pump_inv; try done; rewrite ?(v_plain0 Htls); try lia.
  - apply queue_ok_full. split; [lia|done].
  - rewrite Hq. unfold content. cbn [Z.to_nat]. by rewrite !drop_0, Hcc.
  - left. done.
Qed.

Lemma step_take_tls w n : 0 ≤ n → inv w → preserved (io_step (TakeTls n) w).
Proof.
  intros Hn Hinv. apply run_ok. unfold take_tls_outbound_up_to.
  assert (Hsame : inv (set_tls (add_taken None (set_io (io w) w)))).
  { rewrite set_io_id, add_taken_none. destruct Hinv as [? ? Hst ? ? ? ?]. split; try done. cbn. destruct (abort _); by destruct Hst. }
  destruct (Z.eqb_spec n 0); [wp_go; done|]. wp_go. destruct (upgrading _); [wp_go; done|].
  destruct (outbound (state (io w))) as [|f rest] eqn:Hq; [wp_go; done|].
  assert (Ha : abort (state (io w)) = None) by (apply dead_outbound; [done|congruence]).
  pose proof (unfinished _ _ _ Hinv Ha Hq). destruct (alive_of _ Hinv Ha). rewrite Hq in v_out0.
  pose proof v_out0 as (Hs & _ & Hoff). rewrite size_cons in Hs. pose proof (size_nonneg rest).
  set (off := outbound_tls_offset (state (io w))) in *. wp_go. apply owp_usub; [lia|]. wp_go.
  set (m := Z.min (len f - off) n). apply owp_slice; [lia|lia|]. wp_go.
  assert (Hlen : len (subrange f off (off + m)) = m) by (rewrite len_subrange by lia; lia). rewrite !Hlen.
  apply owp_uadd. { pose proof (i_send _ Hinv). pose proof isize_bounds. lia. }
  assert (Hck : subrange f off (off + m) ≠ []) by (intros He; rewrite He in Hlen; change (len []) with 0 in Hlen; lia).
  destruct (Z.eqb_spec (off + m) (len f)) as [He|He]; wp_go.
  - destruct (queue_front_all _ _ _ _ v_out0) as [Hq' Hc]. pose proof (queue_bounds _ _ _ Hq'). apply owp_usub; [lia|]. wp_go.
    apply (to_pump_inv w (λ c w, set_tls (add_taken c w))); try done; try (fold off; lia).
    + replace (outbound_bytes (state (io w)) - len f - 0) with (outbound_bytes (state (io w)) - off - (len f - off)) by lia. done.
    + rewrite Hq. fold off. by rewrite Hc, He.
    + by right.
  - destruct (queue_front_part f rest off _ m v_out0) as [Hq' Hc]; [lia|lia|].
    apply (to_pump_inv w (λ c w, set_tls (add_taken c w))); try done; try (fold off; lia).
    + replace (outbound_bytes (state (io w)) - (off + m)) with (outbound_bytes (state (io w)) - off - m) by lia. done.
    + by rewrite Hq.
    + by right.
Qed.

Lemma step_write_progress w n : 0 ≤ n → inv w → preserved (io_step (WriteProgress n) w).
Proof.
  intros Hn Hinv. apply run_ok. unfold write_progress. wp_go. destruct (abort (state (io w))) as [a|] eqn:Ha.
  - destruct (dead_of _ _ Hinv Ha) as [(H1 & H2 & Hp1 & Hp2 & Hp3 & H6 & H7 & H8)]. rewrite Hp1, Hp2, Hp3. cbn [progress_loop]. wp_go.
    rewrite Z.sub_diag. cbn. eapply inv_step; [exact Hinv|reflexivity|done..| |same_callback Hinv].
    cbn. rewrite Ha. split; cbn; try done; rewrite ?app_nil_r; done.
  - destruct (alive_of _ Hinv Ha).
    destruct (progress_loop_spec (E := Empty_set) _ _ _ n v_pump0 Hn) as (data & q' & off' & n' & -> & Hq & Hc & Hl & Hle). wp_go.
    pose proof (content_len _ _ _ v_pump0) as Hcl. rewrite Hc, len_app, (content_len _ _ _ Hq) in Hcl.
    pose proof (queue_bounds _ _ _ Hq).
    eapply inv_step; [exact Hinv|reflexivity|done..| |same_callback Hinv]. cbn. rewrite Ha.
    split; cbn; try done; try lia.
    + rewrite v_taken0, Hc, drop_app_length, <-app_assoc. f_equal.
      replace (Z.to_nat (pump_bytes (state (io w)) - n')) with (length data) by (unfold len in Hcl; lia).
      by rewrite take_app_length.
    + intros Hf. destruct (v_finished0 Hf) as (? & ? & ?). split_and!; [done|lia|done].
Qed.

Lemma step_complete_shutdown w : inv w → preserved (io_step CompleteShutdown w).
Proof.
  intros Hinv. apply run_ok. unfold complete_write_shutdown, quiet. wp_go.
  destruct (abort (state (io w))) as [a|] eqn:Ha; [wp_go; by rewrite set_io_id|].
  destruct (write_finish_requested (state (io w))) eqn:Hr; cbn [negb]; [|wp_go; by rewrite set_io_id].
  destruct (Z.eqb_spec (outbound_bytes (state (io w))) 0); cbn [negb orb]; [|wp_go; by rewrite set_io_id].
  destruct (Z.eqb_spec (pump_bytes (state (io w))) 0); cbn [negb]; [|wp_go; by rewrite set_io_id].
  wp_go. set (i1 := maybe_release _).
  assert (Hpre : inv_pre (set_io i1 w)).
  { apply maybe_release_inv; try done.
    - cbn. by intros [_ ?]%andb_true_iff.
    - intros i Hsw Hrw Hrel. destruct (alive_of _ Hinv Ha). split; cbn; rewrite ?Hsw, ?Hrw; done.
    - destruct (callback_weaken _ _ (i_callback _ Hinv)) as (H1 & H2 & H3 & H4). split; [done|]. split; [done|]. split; [done|].
      intros Hreg Hcb. destruct (H4 Hreg Hcb) as (Hact & j & -> & Hj). split; [done|]. exists j. split; [done|].
      by destruct j. }
  eapply wp_mono; [apply (finish_job_spec (set_io i1 w) (λ _ i, inv (set_io i w)) notify Hpre); by intros []| |done].
  intros job i H. exact H.
Qed.

Lemma step_push_inbound w bytes : inv w → preserved (io_step (PushInbound bytes) w).
Proof.
  intros Hinv. apply run_ok. unfold push_inbound.
  destruct (bool_decide_reflect (bytes = [])) as [->|Hne].
  { wp_go. rewrite set_io_id. unfold add_pushed. rewrite app_nil_r. by destruct w. }
  wp_go. destruct (upgrading _); [wp_go; by rewrite set_io_id|].
  destruct (abort (state (io w))) as [a|] eqn:Ha; [wp_go; by rewrite set_io_id|].
  destruct (peer_fin (state (io w))) eqn:Hf; [wp_go; by rewrite set_io_id|].
  destruct (Z.ltb_spec (saturating_sub (receive_window (io w)) (inbound_bytes (state (io w)))) (len bytes)) as [Hlt|Hge];
    [wp_go; by rewrite set_io_id|].
  destruct (alive_of _ Hinv Ha). pose proof (len_pos bytes Hne). unfold saturating_sub in Hge.
  pose proof (i_receive _ Hinv). pose proof isize_bounds. wp_go. apply owp_uadd; [lia|]. wp_go.
  eapply inv_step; [exact Hinv|reflexivity|done..| |same_callback Hinv]. cbn. rewrite Ha.
  split; cbn; try done; try lia.
  - by apply queue_push.
  - rewrite v_pushed0. erewrite content_push by done. by rewrite app_assoc.
  - intros He. destruct (v_eof0 He). congruence.
Qed.

Lemma io_step_inv o w : valid_io_op o → inv w → preserved (io_step o w).
Proof.
  intros Hv Hinv. destruct o; cbn in Hv.
  - by apply step_try_send.
  - by apply step_start_send.
  - by apply step_send_pass.
  - by apply step_try_read.
  - by apply step_try_finish.
  - by apply step_finish_check.
  - by apply step_finish_register.
  - by apply step_finish_activate.
  - by apply step_abort.
  - by apply (guarded_abort w (negb (write_finish_requested (state (io w)) || write_finished (state (io w))) && _)).
  - by apply (guarded_abort w (negb (read_eof_observed (state (io w))) && _)).
  - by apply step_begin_upgrade.
  - by apply step_attach_reserve.
  - by apply step_complete_upgrade.
  - by apply step_close_admission.
  - by apply step_take_outbound.
  - by apply step_take_up_to.
  - by apply step_take_tls.
  - by apply step_write_progress.
  - by apply step_complete_shutdown.
  - by apply step_push_inbound.
  - by apply step_peer_closed.
  - by apply (guarded_abort w (bool_decide _ && _)).
Qed.

Lemma io_run_inv ops w : Forall valid_io_op ops → inv w → preserved (io_run ops w).
Proof.
  intros Hv. revert w. induction Hv as [|o ops Ho Hops IH]; intros w Hinv; cbn [io_run]; [by eexists|].
  destruct (io_step_inv o w Ho Hinv) as (w' & -> & Hinv'). cbn. by apply IH.
Qed.

Lemma tcp_start_inv m name :
  0 < sw ≤ isize_max → 0 < rw ≤ isize_max →
  ∃ w, start m sw rw name = Some w ∧ inv w.
Proof.
  intros Hs Hr. unfold start, pair. rewrite !(proj2 (Z.ltb_lt _ _)) by lia. eexists. split; [reflexivity|].
  split; cbn; try done. split; cbn; try done; try lia; by repeat constructor.
Qed.

Lemma life_inv m name ops :
  0 < sw ≤ isize_max → 0 < rw ≤ isize_max → Forall valid_io_op ops →
  ∃ w, life m sw rw name ops = Some w ∧ inv w.
Proof.
  intros Hs Hr Hv. unfold life. destruct (tcp_start_inv m name Hs Hr) as (w0 & -> & Hi). cbn. by apply io_run_inv.
Qed.

(** ** What the invariant says *)

Lemma inv_order w : inv w →
  written w `prefix_of` taken w ∧ taken w `prefix_of` accepted w ∧ got w `prefix_of` pushed w.
Proof.
  intros Hinv. pose proof (i_state _ Hinv) as Hst. destruct (abort _); destruct Hst; [done|].
  rewrite v_accepted0, v_taken0, v_pushed0. split_and!; by apply prefix_app_r.
Qed.

Lemma inv_held w : inv w → abort (state (io w)) = None →
  len (accepted w) - len (written w) = outbound_bytes (state (io w)) + pump_bytes (state (io w)) - outbound_tls_offset (state (io w)) ∧
  len (pushed w) - len (got w) = inbound_bytes (state (io w)).
Proof.
  intros Hinv Ha. destruct (alive_of _ Hinv Ha). rewrite v_accepted0, v_taken0, v_pushed0, !len_app.
  rewrite (content_len _ _ _ v_out0), (content_len _ _ _ v_pump0), (content_len _ _ _ v_in0). lia.
Qed.

Lemma inv_ended w : inv w →
  (write_finished (state (io w)) = true → written w = accepted w) ∧
  (read_eof_observed (state (io w)) = true → got w = pushed w ∧ peer_fin (state (io w)) = true).
Proof.
  intros Hinv. destruct (abort (state (io w))) as [a|] eqn:Ha; [by destruct (dead_of _ _ Hinv Ha)|].
  pose proof (inv_order w Hinv) as (H1 & H2 & H3). destruct (inv_held w Hinv Ha) as [Hheld Hunread].
  pose proof (alive_of _ Hinv Ha) as []. pose proof (queue_bounds _ _ _ v_out0). split.
  - intros Hf. destruct (v_finished0 Hf) as (Ho & Hp & _). apply prefix_length_eq; [by etrans|]. unfold len in *. lia.
  - intros He. destruct (v_eof0 He) as [Hi Hfin]. split; [|done]. apply prefix_length_eq; [done|]. unfold len in *. lia.
Qed.
End with_target.

(** ** The promises *)

(** C33: through any interleaving of the writer, the reader, the handle and
    the owner no operation panics, the owner writes what sends were admitted
    and the reader gets what arrived, in order; no more than a window is held
    each way while the connection lives; a finished writer has had all of it
    written, a reader at EOF has it all, and a blocking send has admitted
    exactly what it does not give back. Left out are a blocking send on the
    engine's own thread, which the code asserts away, and cleartext taken from
    the queue after TLS has taken over. *)
Theorem tcp_stream_exact {tgt : Target} m sw rw name ops :
  0 < sw ≤ isize_max → 0 < rw ≤ isize_max → Forall valid_io_op ops →
  ∃ w, life m sw rw name ops = Some w ∧
    written w `prefix_of` taken w ∧ taken w `prefix_of` accepted w ∧ got w `prefix_of` pushed w ∧
    (abort (state (io w)) = None →
       len (accepted w) - len (written w) ≤ sw ∧ len (pushed w) - len (got w) ≤ rw) ∧
    (write_finished (state (io w)) = true → written w = accepted w) ∧
    (read_eof_observed (state (io w)) = true → got w = pushed w ∧ peer_fin (state (io w)) = true) ∧
    call_bytes w = call_done w ++ outstanding (call w).
Proof.
  intros Hs Hr Hv. destruct (life_inv m name ops Hs Hr Hv) as (w & Hw & Hinv). exists w.
  destruct (inv_order w Hinv) as (? & ? & ?). destruct (inv_ended w Hinv) as [? ?].
  split_and!; try done; [|apply (i_call _ _ Hinv)]. intros Ha. destruct (inv_held w Hinv Ha) as [-> ->].
  pose proof (i_send _ _ Hinv). pose proof (i_receive _ _ Hinv). destruct (alive_of w Hinv Ha). lia.
Qed.

(** A connection that sends past its window, upgrades nothing, and is read. *)
Definition sample_ops : list io_op :=
  [StartSend (bs "abcdef"); SendPass; SendPass; TakeUpTo 3; WriteProgress 2; WriteProgress 9; TakeUpTo 9; WriteProgress 4;
   SendPass; FinishRegister; FinishActivate; TakeOutbound; WriteProgress 2; CompleteShutdown;
   PushInbound (bs "hi"); TryRead 1; TryRead 5; PeerClosed; TryRead 1].

Lemma tcp_stream_exact_witness :
  ∃ w, @life target64 Spawned 4 4 7 sample_ops = Some w ∧ written w = accepted w ∧ got w = pushed w.
Proof.
  destruct (@tcp_stream_exact target64 Spawned 4 4 7 sample_ops) as (w & Hw & _ & _ & _ & _ & Hf & He & _).
  - split; [done|]. vm_compute. discriminate.
  - split; [done|]. vm_compute. discriminate.
  - unfold sample_ops. repeat (constructor; [cbn; lia || done|]). constructor.
  - exists w. split; [done|]. vm_compute in Hw. injection Hw as <-. split; [by apply Hf|by apply He].
Defined.

(** C34: the connection's reservations are given back exactly once, all of
    them, at the moment it was aborted or both directions ended; nothing is
    queued from then on, and before then nothing is given back. *)
Theorem tcp_release_once {tgt : Target} m sw rw name ops w :
  0 < sw ≤ isize_max → 0 < rw ≤ isize_max → Forall valid_io_op ops → life m sw rw name ops = Some w →
  (if released (io w)
   then refunds (io w) = reserves w ∧ outbound_bytes (state (io w)) = 0 ∧ pump_bytes (state (io w)) = 0 ∧
        inbound_bytes (state (io w)) = 0
   else refunds (io w) = []) ∧
  (released (io w) = true ↔
     abort (state (io w)) ≠ None ∨ write_finished (state (io w)) = true ∧ read_eof_observed (state (io w)) = true).
Proof.
  intros Hs Hr Hv Hl. destruct (life_inv m name ops Hs Hr Hv) as (w' & Hw & Hinv). rewrite Hl in Hw. injection Hw as <-.
  pose proof (i_release _ _ Hinv) as Hrel. destruct (abort (state (io w))) as [a|] eqn:Ha.
  - destruct (dead_of w a Hinv Ha). rewrite x_released0 in *. destruct Hrel as [_ ->]. split; [by split_and!; tauto|].
    split; [by left|done].
  - destruct (alive_of w Hinv Ha). destruct (released (io w)); symmetry in v_released0.
    + apply andb_true_iff in v_released0 as [Hf He]. destruct (v_finished0 Hf) as (? & ? & _), (v_eof0 He) as [? _].
      destruct Hrel as [_ ->]. split; [done|]. by split; [right|].
    + destruct Hrel as [_ ->]. split; [done|]. split; [done|]. intros [?|[Hf He]]; [done|]. by rewrite Hf, He in v_released0.
Qed.

Definition upgraded_ops : list io_op :=
  [BeginUpgrade; AttachReserve 8; CompleteUpgrade; TrySend (bs "ab"); Abort AbortReset].

Lemma tcp_release_once_witness :
  ∃ w, @life target64 Spawned 4 4 7 upgraded_ops = Some w ∧
    refunds (io w) = [8; 7]%nat ∧ outbound_bytes (state (io w)) = 0.
Proof.
  destruct (@life target64 Spawned 4 4 7 upgraded_ops)
    as [w|] eqn:Hw; [|vm_compute in Hw; discriminate]. exists w. split; [done|].
  destruct (@tcp_release_once target64 Spawned 4 4 7 upgraded_ops w) as [H _]; [..|exact Hw|].
  - split; [done|]. vm_compute. discriminate.
  - split; [done|]. vm_compute. discriminate.
  - unfold upgraded_ops. repeat (constructor; [done|]). constructor.
  - vm_compute in Hw. injection Hw as <-. cbn in H. tauto.
Defined.

(** A finish callback is dispatched at most once, only after it was
    registered and activated; it is told of success only when every admitted
    byte was written, and of the abort that happened otherwise; once the
    connection has ended either way an active callback has been dispatched. *)
Theorem tcp_finish_callback_once {tgt : Target} m sw rw name ops w :
  0 < sw ≤ isize_max → 0 < rw ≤ isize_max → Forall valid_io_op ops → life m sw rw name ops = Some w →
  (jobs (io w) = [] ∨
   (finish_callback_registered (state (io w)) = true ∧ finish_callback_active (state (io w)) = true ∧
    ((jobs (io w) = [None] ∧ write_finished (state (io w)) = true ∧ written w = accepted w) ∨
     ∃ a, jobs (io w) = [Some (finish_abort a)] ∧ abort (state (io w)) = Some a))) ∧
  (finish_callback_registered (state (io w)) = true → finish_callback_active (state (io w)) = true →
   abort (state (io w)) ≠ None ∨ write_finished (state (io w)) = true → length (jobs (io w)) = 1%nat).
Proof.
  intros Hs Hr Hv Hl. destruct (life_inv m name ops Hs Hr Hv) as (w' & Hw & Hinv). rewrite Hl in Hw. injection Hw as <-.
  destruct (i_callback _ _ Hinv) as (_ & Hn & Hc & Hd). destruct (inv_ended w Hinv) as [Hfin _].
  destruct (finish_callback_registered (state (io w))) eqn:Hreg.
  - destruct (finish_callback (state (io w))) eqn:Hcb.
    + destruct (Hc eq_refl) as [Hj Hnd]. split; [by left|]. intros _ Hact [Ha|Hf]; destruct (Hnd Hact); congruence.
    + destruct (Hd eq_refl eq_refl) as (Hact & j & Hj & Hok). rewrite Hj. split; [|done]. right. split; [done|]. split; [done|].
      destruct j as [e|]; [right; destruct Hok as (a & ? & ->); by exists a|left; auto].
  - destruct (Hn eq_refl) as (_ & _ & Hj). split; [by left|done].
Qed.

Lemma tcp_finish_callback_once_witness :
  ∃ w, @life target64 Spawned 4 4 7 sample_ops = Some w ∧ length (jobs (io w)) = 1%nat.
Proof.
  destruct (@life target64 Spawned 4 4 7 sample_ops) as [w|] eqn:Hw; [|vm_compute in Hw; discriminate]. exists w. split; [done|].
  destruct (@tcp_finish_callback_once target64 Spawned 4 4 7 sample_ops w) as [_ H]; [..|exact Hw|].
  - split; [done|]. vm_compute. discriminate.
  - split; [done|]. vm_compute. discriminate.
  - unfold sample_ops. repeat (constructor; [cbn; lia || done|]). constructor.
  - vm_compute in Hw. injection Hw as <-. apply H; [done|done|by right].
Defined.
