(* ===== verification/Registry.v ===== *)
(** * The request registry ([src/registry.rs]) and callback dispatch
      ([src/dispatch.rs])

    [Registry] is [Shared] with its atomics, its core mutex, its command queue
    and its callback domain. An [Arc] to the state of an operation is an
    address in [heap]; an [AdmissionPermit] or [BytePermit] is a [permit], held
    by the state, the job or the release closure that owns it. Metrics, the
    external waker and the condition variables are not part of the model.

    A region under a lock is a definition. A call that goes on after it has
    released a lock leaves [cont]s, what its thread does next; [run_cont] runs
    one, and any other thread may run in between. *)

From stdpp Require Import base list gmap strings.
From Stdlib Require Import ZArith Lia.
From S2P Require Import Prelude Errors BodyBudget Request TcpIo.

Inductive LifecycleState := Running | ShuttingDown | Stopped.
#[global] Instance LifecycleState_eq_dec : EqDecision LifecycleState.
Proof. solve_decision. Defined.

(** The atomics that permits are taken from. *)
Inductive counter :=
| Inflight | ResolutionInflight | CallbackInflight | StreamQueuedBytes | QueuedBytes | TcpConnections | TcpQueuedBytes.
#[global] Instance counter_eq_dec : EqDecision counter.
Proof. solve_decision. Defined.

Definition permit : Type := counter * Z.

(** [value] names the response, the answer or the connection delivered. *)
Inductive Completion := Completed (value : nat) | Failed (error : Error) | Cancelled.

(** ** The states of the operations *)

Record RequestInner := mkRequestInner {
  completion : option Completion; terminal : bool; callback : bool; callback_active : bool;
  inflight_permit : bool; callback_permit : bool
}.

(** [ResolveInner] has no [terminal]: its completion is never taken. *)
Record ResolveInner := mkResolveInner {
  res_completion : option Completion; res_callback : bool; res_callback_active : bool;
  res_inflight_permit : bool; res_callback_permit : bool
}.

(** [TcpConnectInner]; [TlsConnectInner] has the same fields. *)
Record TcpConnectInner := mkConnectInner {
  con_completion : option Completion; con_terminal : bool; delivery_ready : bool;
  con_callback : bool; con_callback_active : bool;
  occupancy_permit : bool; queued_bytes_permit : option Z; metric_bytes_permit : option Z;
  dns_borrow : bool; con_callback_permit : bool
}.
Definition TlsConnectInner : Type := TcpConnectInner.

(** A streamed response: whether its control is terminal, and the bytes
    reserved with the permits, while it has them. *)
Record StreamRequestState := mkStreamState { control_terminal : bool; permits : option Z }.

(** What the registry sees of a live connection's [TcpIoShared]: the permits
    its release closures own, in the order they run. *)
Record LiveIo := mkLive { session_released : bool; io_upgrading : bool; reserve : list permit }.

Inductive object :=
| ORequest (id : Z) (s : RequestInner)
| OResolve (id : Z) (s : ResolveInner)
| OStream (id : Z) (s : StreamRequestState)
| OConnect (id send_window receive_window : Z) (s : TcpConnectInner)
| OTls (id send_window receive_window : Z) (upgrade : bool) (s : TlsConnectInner)
| OLive (id : Z) (s : LiveIo)
(** A finish callback's permit, while the connection has it. *)
| OEvent (id : Z) (pending : bool).

(** A [CallbackJob]: [job_of] is the operation whose result it delivers, or
    [None] for a connection's finish callback. *)
Record CallbackJob := mkJob { job_of : option (nat * Completion); job_id : Z; job_permits : list permit }.

(** [DispatchState]; only tests enqueue progress jobs. [ran] and [lost] are the
    callbacks that ran and those dropped because the domain was sealed. *)
Record Domain := mkDomain {
  sealed : bool; jobs : list CallbackJob; active_requests : list Z; running : Z;
  ran : list (nat * Completion); lost : list nat
}.

Record Config := mkConfig {
  engine_id : Z;
  inflight_limit : Z; resolution_inflight_limit : Z; callback_inflight_limit : Z; tcp_connection_limit : Z;
  max_request_body_bytes : Z; max_stream_queue_bytes_per_request : Z; max_stream_queued_bytes : Z; max_queued_bytes : Z;
  max_tcp_queue_bytes_per_connection : Z; max_header_bytes : Z; max_header_count : Z; command_queue_capacity : Z;
  streaming_supported : bool; native_resolver_supported : bool; standalone_tcp_supported : bool
}.

(** The maps of [CoreState], by sequence number. *)
Inductive table := TRequests | TStreams | TResolutions | TConnects | TTls | TLive.
#[global] Instance table_eq_dec : EqDecision table.
Proof. solve_decision. Defined.

(** [committed] records the results in the order they were committed,
    [with_callback] the operations accepted with a callback. *)
Record Registry := mkRegistry {
  cfg : Config;
  counters : counter → Z;
  lifecycle : LifecycleState; next_sequence : Z; tables : table → gmap Z nat;
  heap : list object;
  queue : list nat; generation : Z;
  stopped : bool; callback_activations : Z;
  domain : Domain;
  committed : list (nat * Completion); with_callback : list nat
}.

Definition set_counter (c : counter) (v : Z) (r : Registry) : Registry :=
  mkRegistry (cfg r) (λ c', if decide (c' = c) then v else counters r c') (lifecycle r) (next_sequence r) (tables r) (heap r)
    (queue r) (generation r) (stopped r) (callback_activations r) (domain r) (committed r) (with_callback r).
Definition set_lifecycle (l : LifecycleState) (r : Registry) : Registry :=
  mkRegistry (cfg r) (counters r) l (next_sequence r) (tables r) (heap r)
    (queue r) (generation r) (stopped r) (callback_activations r) (domain r) (committed r) (with_callback r).
Definition set_sequence (n : Z) (r : Registry) : Registry :=
  mkRegistry (cfg r) (counters r) (lifecycle r) n (tables r) (heap r)
    (queue r) (generation r) (stopped r) (callback_activations r) (domain r) (committed r) (with_callback r).
Definition set_table (t : table) (m : gmap Z nat) (r : Registry) : Registry :=
  mkRegistry (cfg r) (counters r) (lifecycle r) (next_sequence r) (λ t', if decide (t' = t) then m else tables r t') (heap r)
    (queue r) (generation r) (stopped r) (callback_activations r) (domain r) (committed r) (with_callback r).
Definition set_heap (h : list object) (r : Registry) : Registry :=
  mkRegistry (cfg r) (counters r) (lifecycle r) (next_sequence r) (tables r) h
    (queue r) (generation r) (stopped r) (callback_activations r) (domain r) (committed r) (with_callback r).
Definition set_queue (q : list nat) (g : Z) (r : Registry) : Registry :=
  mkRegistry (cfg r) (counters r) (lifecycle r) (next_sequence r) (tables r) (heap r)
    q g (stopped r) (callback_activations r) (domain r) (committed r) (with_callback r).
Definition set_stopped (b : bool) (r : Registry) : Registry :=
  mkRegistry (cfg r) (counters r) (lifecycle r) (next_sequence r) (tables r) (heap r)
    (queue r) (generation r) b (callback_activations r) (domain r) (committed r) (with_callback r).
Definition set_activations (n : Z) (r : Registry) : Registry :=
  mkRegistry (cfg r) (counters r) (lifecycle r) (next_sequence r) (tables r) (heap r)
    (queue r) (generation r) (stopped r) n (domain r) (committed r) (with_callback r).
Definition set_domain (d : Domain) (r : Registry) : Registry :=
  mkRegistry (cfg r) (counters r) (lifecycle r) (next_sequence r) (tables r) (heap r)
    (queue r) (generation r) (stopped r) (callback_activations r) d (committed r) (with_callback r).
Definition log_commit (a : nat) (c : Completion) (r : Registry) : Registry :=
  mkRegistry (cfg r) (counters r) (lifecycle r) (next_sequence r) (tables r) (heap r)
    (queue r) (generation r) (stopped r) (callback_activations r) (domain r) (committed r ++ [(a, c)]) (with_callback r).
Definition log_callback (a : nat) (r : Registry) : Registry :=
  mkRegistry (cfg r) (counters r) (lifecycle r) (next_sequence r) (tables r) (heap r)
    (queue r) (generation r) (stopped r) (callback_activations r) (domain r) (committed r) (with_callback r ++ [a]).

Definition update (a : nat) (o : object) (r : Registry) : Registry := set_heap (<[a := o]> (heap r)) r.
Definition table_insert (t : table) (id : Z) (a : nat) (r : Registry) : Registry := set_table t (<[id := a]> (tables r t)) r.
Definition table_remove (t : table) (id : Z) (r : Registry) : Registry := set_table t (delete id (tables r t)) r.

Section with_target.
Context {tgt : Target}.

(** ** Permits *)

(** Dropping a permit: [fetch_sub] wraps around. *)
Definition drop_permit (p : permit) (r : Registry) : Registry :=
  set_counter p.1 ((counters r p.1 - p.2) mod (usize_max + 1)) r.
Definition drop_permits (ps : list permit) (r : Registry) : Registry := foldl (λ r p, drop_permit p r) r ps.

(** [AdmissionPermit::try_acquire] and [BytePermit::try_acquire], with the
    error of a refusal; [Metric] is the acquisition that is expected to
    succeed. *)
Inductive acquisition :=
| Admission (c : counter) (limit : Z) (refusal : Error)
| Bytes (c : counter) (limit bytes : Z) (refusal : Error)
| Metric (c : counter) (bytes : Z).

Definition admission_try_acquire (c : counter) (limit : Z) (r : Registry) : option Registry :=
  if counters r c <? limit then Some (set_counter c (counters r c + 1) r) else None.
Definition byte_try_acquire (c : counter) (limit bytes : Z) (r : Registry) : option Registry :=
  match checked_add usize_max (counters r c) bytes with
  | Some next => if next <=? limit then Some (set_counter c next r) else None
  | None => None
  end.
Definition acquired (q : acquisition) : permit :=
  match q with Admission c _ _ => (c, 1) | Bytes c _ n _ => (c, n) | Metric c n => (c, n) end.
Definition try_acquire (q : acquisition) (r : Registry) : option Registry :=
  match q with
  | Admission c limit _ => admission_try_acquire c limit r
  | Bytes c limit n _ => byte_try_acquire c limit n r
  | Metric c n => byte_try_acquire c usize_max n r
  end.

(** The permits of a submission, in the order of the source. A refusal drops
    those already taken. *)
Fixpoint acquire_all (qs : list acquisition) (taken : list permit) : M Registry Error unit :=
  match qs with
  | [] => mret tt
  | q :: qs' => λ r,
      match try_acquire q r with
      | Some r' => acquire_all qs' (taken ++ [acquired q]) r'
      | None =>
          match q with
          | Admission _ _ e | Bytes _ _ _ e => (Err e, drop_permits taken r)
          | Metric _ _ => (Panic, r)
          end
      end
  end.

(** ** The command queue *)

Definition wake (r : Registry) : Registry := set_queue (queue r) (wrapping_add u64_max (generation r) 1) r.

Definition command_queue_full (r : Registry) : bool := command_queue_capacity (cfg r) <=? Z.of_nat (length (queue r)).

Definition try_push (a : nat) (r : Registry) : option Registry :=
  if command_queue_full r then None
  else Some (set_queue (queue r ++ [a]) (wrapping_add u64_max (generation r) 1) r).

Definition drain (r : Registry) : list nat * Registry := (queue r, set_queue [] (generation r) r).

(** ** Submission *)

Definition stopped_error : Error := error_new ErrorKind.EngineStopped "the owning Engine has stopped accepting work".
Definition exhausted_ids : Error := error_new ErrorKind.Internal "request identity space is exhausted".
Definition queue_full : Error := error_new ErrorKind.QueueFull "the Engine's bounded command queue is full".
Definition inflight_full : Error := error_new ErrorKind.QueueFull "the Engine's accepted/inflight request capacity is full".
Definition callback_full : Error := error_new ErrorKind.QueueFull "the Engine's callback request/event capacity is full".
Definition resolution_full : Error :=
  error_new ErrorKind.QueueFull "the Engine's accepted/inflight public-resolution capacity is full".
Definition tcp_full : Error := error_new ErrorKind.QueueFull "the Engine's standalone TCP connection capacity is full".

Definition callback_acquisition (cb : bool) (r : Registry) (e : Error) : list acquisition :=
  if cb then [Admission CallbackInflight (callback_inflight_limit (cfg r)) e] else [].

(** The end of every [accept]: the identity, the registered state and the
    queued submission. A state that cannot be queued is dropped, with its
    permits. *)
Definition enlist (t : table) (cb : bool) (make : Z → object) (ps : list permit) : M Registry Error nat :=
  r ← get;
  let id := next_sequence r in
  let a := length (heap r) in
  let r := set_sequence (id + 1) r in
  match try_push a r with
  | None => _ ← put (drop_permits ps r); fail queue_full
  | Some r =>
      let r := table_insert t id a (set_heap (heap r ++ [make id]) r) in
      let r := if cb then log_callback a (set_activations (callback_activations r + 1) r) else r in
      _ ← put r; mret a
  end.

Definition validate_request_limits (c : Config) (request : Request.Request) : outcome Error unit :=
  let body_limit := Request.request_body_limit (Request.options request) (max_request_body_bytes c) in
  if body_limit <? len (Budget.bytes (Request.body request)) then
    Err (error_limit LimitKind.RequestBodyBytes ("request body exceeds the configured " +:+ display body_limit +:+ " byte limit"))
  else if max_header_count c <? len (Request.headers request) then
    Err (error_limit LimitKind.RequestHeaderCount
           ("request headers exceed the configured " +:+ display (max_header_count c) +:+ " field limit"))
  else
    let header_bytes := foldl (λ total h,
      total ← total;
      a ← checked_add usize_max total (len (Request.name h));
      b ← checked_add usize_max a (len (Request.value h));
      checked_add usize_max b 4) (Some 0) (Request.headers request) in
    if match header_bytes with None => true | Some n => max_header_bytes c <? n end
    then Err (error_limit LimitKind.RequestHeaderBytes
                ("request headers exceed the configured " +:+ display (max_header_bytes c) +:+ " byte limit"))
    else Ok tt.

(** The result of a call into another part, which fails or changes nothing
    here. *)
Definition checked (result : option Error) : M Registry Error unit :=
  match result with Some e => fail e | None => mret tt end.

(** [admission] is the outcome of [admit_body]. *)
Definition accept (request : Request.Request) (admission : option Error) (cb : bool) : M Registry Error nat :=
  r ← get;
  if negb (bool_decide (lifecycle r = Running)) then fail stopped_error
  else if next_sequence r =? u64_max then fail exhausted_ids
  else
    _ ← lift (validate_request_limits (cfg r) request);
    _ ← checked admission;
    let qs := Admission Inflight (inflight_limit (cfg r)) inflight_full :: callback_acquisition cb r callback_full in
    _ ← acquire_all qs [];
    enlist TRequests cb (λ id, ORequest id (mkRequestInner None false cb false true cb)) (map acquired qs).

Definition accept_resolve (max_results : option Z) (max_resolve_results : Z) (cb : bool) : M Registry Error nat :=
  r ← get;
  if negb (bool_decide (lifecycle r = Running)) then fail stopped_error
  else if match max_results with Some n => max_resolve_results <? n | None => false end then
    fail (error_limit LimitKind.ResolveResults
            ("resolution max_results exceeds the Engine ceiling of " +:+ display max_resolve_results))
  else if negb (native_resolver_supported (cfg r)) then
    fail (error_new ErrorKind.Unsupported "public hostname resolution is not available on this Engine")
  else if next_sequence r =? u64_max then fail exhausted_ids
  else
    let qs := Admission ResolutionInflight (resolution_inflight_limit (cfg r)) resolution_full
              :: callback_acquisition cb r callback_full in
    _ ← acquire_all qs [];
    enlist TResolutions cb (λ id, OResolve id (mkResolveInner None cb false true cb)) (map acquired qs).

(** [validate], [admission] and [bind] are the outcomes of the request's
    validation, of [admit_buffered_body] and of [bind_upload] followed by
    [response_pair]; [upload_window] is the capacity of its upload queue. When
    the command queue is full the source returns an error with the local
    [reader] still alive, which is dropped before the guard of [core]: its
    [Drop] cancels the request, and [cancel] locks [core] once more on the same
    thread. The call does not return. *)
Definition accept_stream (validate : option Error) (request : Request.Request) (admission : option Error) (upload_window : Z)
    (bind : option Error) : M Registry Error nat :=
  r ← get;
  if negb (streaming_supported (cfg r)) then
    fail (error_new ErrorKind.Unsupported "the selected backend does not support streaming requests")
  else if negb (bool_decide (lifecycle r = Running)) then fail stopped_error
  else if next_sequence r =? u64_max then fail exhausted_ids
  else
    _ ← checked validate;
    _ ← lift (validate_request_limits (cfg r) request);
    _ ← checked admission;
    let response_window := max_stream_queue_bytes_per_request (cfg r) in
    if response_window =? 0 then
      fail (error_limit LimitKind.StreamingQueueBytes "streaming is disabled by the Engine's zero-byte queue window")
    else if response_window <? upload_window then
      fail (error_limit LimitKind.StreamingQueueBytes
              ("streamed upload queue exceeds the configured " +:+ display response_window +:+ " byte per-transfer limit"))
    else
      reserved ← lift (ok_or (checked_add usize_max response_window upload_window)
                         (error_limit LimitKind.StreamingQueueBytes "streaming queue reservation overflowed"));
      let qs :=
        [Admission Inflight (inflight_limit (cfg r)) inflight_full;
         Bytes StreamQueuedBytes (max_stream_queued_bytes (cfg r)) reserved
           (error_limit LimitKind.StreamingQueueBytes
              ("streaming queues exceed the Engine's configured " +:+ display (max_stream_queued_bytes (cfg r))
               +:+ " byte aggregate budget"));
         Bytes QueuedBytes (max_queued_bytes (cfg r)) reserved
           (error_limit LimitKind.StreamingQueueBytes
              ("streaming queues exceed the Engine's configured " +:+ display (max_queued_bytes (cfg r))
               +:+ " byte shared queue budget"))] in
      _ ← acquire_all qs [];
      match bind with
      | Some e =>
          r ← get;
          _ ← put (drop_permits (map acquired qs) (set_sequence (next_sequence r + 1) r)); fail e
      | None =>
          r ← get;
          if command_queue_full r then diverge
          else enlist TStreams false (λ id, OStream id (mkStreamState false (Some reserved))) (map acquired qs)
      end.

Definition dns_acquisition (hostname : bool) (r : Registry) (e : Error) : list acquisition :=
  if hostname then [Admission ResolutionInflight (resolution_inflight_limit (cfg r)) e] else [].

(** [hostname] is whether the target is a host name; the windows are those the
    request asks for. *)
Definition accept_tcp_connect (hostname : bool) (send_queue_bytes receive_queue_bytes : option Z) (cb : bool)
  : M Registry Error nat :=
  r ← get;
  if negb (bool_decide (lifecycle r = Running)) then fail stopped_error
  else if negb (standalone_tcp_supported (cfg r)) then
    fail (error_new ErrorKind.Unsupported "standalone TCP connections are not available on this Engine")
  else if hostname && negb (native_resolver_supported (cfg r)) then
    fail (error_new ErrorKind.Unsupported "hostname TCP connections require the native resolver owner")
  else
    let ceiling := max_tcp_queue_bytes_per_connection (cfg r) in
    let send_window := default ceiling send_queue_bytes in
    let receive_window := default ceiling receive_queue_bytes in
    if (ceiling <? send_window) || (ceiling <? receive_window) then
      fail (error_limit LimitKind.TcpQueueBytes
              ("TCP queue window exceeds the Engine ceiling of " +:+ display ceiling +:+ " bytes"))
    else if (send_window =? 0) || (receive_window =? 0) then
      fail (error_limit LimitKind.TcpQueueBytes
              "standalone TCP is disabled by the Engine's zero-byte per-connection queue window")
    else
      reserved ← lift (ok_or (checked_add usize_max send_window receive_window)
                         (error_limit LimitKind.TcpQueueBytes "TCP queue reservation overflowed"));
      if max_queued_bytes (cfg r) =? 0 then
        fail (error_limit LimitKind.TcpQueueBytes
                "standalone TCP is disabled by the Engine's zero-byte shared queue budget")
      else if next_sequence r =? u64_max then fail exhausted_ids
      else
        let qs :=
          [Admission TcpConnections (tcp_connection_limit (cfg r)) tcp_full;
           Bytes QueuedBytes (max_queued_bytes (cfg r)) reserved
             (error_limit LimitKind.TcpQueueBytes
                ("TCP queues exceed the Engine's configured " +:+ display (max_queued_bytes (cfg r)) +:+ " byte shared queue budget"));
           Metric TcpQueuedBytes reserved]
          ++ dns_acquisition hostname r resolution_full ++ callback_acquisition cb r callback_full in
        _ ← acquire_all qs [];
        enlist TConnects cb
          (λ id, OConnect id send_window receive_window
             (mkConnectInner None false false cb false true (Some reserved) (Some reserved) hostname cb))
          (map acquired qs).

Definition TLS_EXTRA_RESERVE : Z := 256 * 1024.
Definition tls_callback_full : Error := error_new ErrorKind.QueueFull "the Engine's callback capacity is full".

(** [validate] is the outcome of the options' validation. *)
Definition accept_tls_connect (validate : option Error) (hostname : bool) (send_queue_bytes receive_queue_bytes : option Z)
    (cb : bool) : M Registry Error nat :=
  _ ← checked validate;
  r ← get;
  if negb (bool_decide (lifecycle r = Running)) then fail stopped_error
  else if negb (standalone_tcp_supported (cfg r)) then
    fail (error_new ErrorKind.Unsupported "standalone TLS connections are not available on this Engine")
  else if hostname && negb (native_resolver_supported (cfg r)) then
    fail (error_new ErrorKind.Unsupported "hostname TLS connections require the native resolver owner")
  else
    let ceiling := max_tcp_queue_bytes_per_connection (cfg r) in
    let send_window := default ceiling send_queue_bytes in
    let receive_window := default ceiling receive_queue_bytes in
    if (send_window =? 0) || (receive_window =? 0) || (ceiling <? send_window) || (ceiling <? receive_window) then
      fail (error_limit LimitKind.TcpQueueBytes "TLS queue window exceeds the Engine ceiling or is disabled")
    else
      reserved ← lift (ok_or (sum ← checked_add usize_max send_window receive_window; checked_add usize_max sum TLS_EXTRA_RESERVE)
                         (error_limit LimitKind.TcpQueueBytes "TLS queue reservation overflowed"));
      if next_sequence r =? u64_max then fail exhausted_ids
      else
        let qs :=
          [Admission TcpConnections (tcp_connection_limit (cfg r)) tcp_full;
           Bytes QueuedBytes (max_queued_bytes (cfg r)) reserved
             (error_limit LimitKind.TcpQueueBytes "TLS queues exceed the Engine's shared queue budget");
           Metric TcpQueuedBytes reserved]
          ++ dns_acquisition hostname r (error_new ErrorKind.QueueFull "the Engine's resolution capacity is full")
          ++ callback_acquisition cb r tls_callback_full in
        _ ← acquire_all qs [];
        enlist TTls cb
          (λ id, OTls id send_window receive_window false
             (mkConnectInner None false false cb false true (Some reserved) (Some reserved) hostname cb))
          (map acquired qs).

(** ** Live connections

    [begin_upgrade], [attach_tls_reserve] and [complete_upgrade] as the
    registry sees them; [idle] is whether nothing but the end of the
    connection and a running upgrade forbids one. *)
Definition upgrade_refused : Error :=
  error_new ErrorKind.InvalidRequest "TLS upgrade requires an open, idle, unsplit TCP connection with no unread bytes".

Definition begin_upgrade (idle : bool) (s : LiveIo) : outcome Error LiveIo :=
  if session_released s || io_upgrading s || negb idle then Err upgrade_refused
  else Ok (mkLive (session_released s) true (reserve s)).
Definition attach_tls_reserve (ps : list permit) (s : LiveIo) : outcome Error LiveIo :=
  if session_released s || negb (io_upgrading s)
  then Err (error_new ErrorKind.InvalidRequest "the TLS upgrade connection was released")
  else Ok (mkLive (session_released s) (io_upgrading s) (ps ++ reserve s)).

(** The upgrade of the connection at [l]. *)
Definition accept_tls_upgrade (validate : option Error) (l : nat) (idle cb : bool) : M Registry Error nat :=
  _ ← checked validate;
  r ← get;
  match heap r !! l with
  | Some (OLive id s) =>
      if negb (bool_decide (lifecycle r = Running)) then fail stopped_error
      else if negb (bool_decide (tables r TLive !! id = Some l)) || bool_decide (is_Some (tables r TTls !! id)) then
        fail (error_new ErrorKind.InvalidRequest "the TCP connection is not live or is already upgrading")
      else
        let reserve := [(QueuedBytes, TLS_EXTRA_RESERVE); (TcpQueuedBytes, TLS_EXTRA_RESERVE)] in
        let callback := callback_acquisition cb r tls_callback_full in
        let held := map acquired callback in
        _ ← acquire_all
              ([Bytes QueuedBytes (max_queued_bytes (cfg r)) TLS_EXTRA_RESERVE
                  (error_limit LimitKind.TcpQueueBytes "TLS upgrade exceeds the Engine's shared queue budget");
                Metric TcpQueuedBytes TLS_EXTRA_RESERVE] ++ callback) [];
        match begin_upgrade idle s with
        | Err e => _ ← modify (drop_permits (reserve ++ held)); fail e
        | Ok s =>
            match attach_tls_reserve reserve s with
            | Err e => _ ← modify (λ r, drop_permits (reserve ++ held) (update l (OLive id s) r)); fail e
            | Ok s =>
                _ ← modify (update l (OLive id s));
                r ← get;
                let a := length (heap r) in
                match try_push a r with
                | None => _ ← put (drop_permits held r); fail queue_full
                | Some r =>
                    let state := mkConnectInner None false false cb false false None None false cb in
                    let r := table_insert TTls id a (set_heap (heap r ++ [OTls id 0 0 true state]) r) in
                    let r := if cb then log_callback a (set_activations (callback_activations r + 1) r) else r in
                    _ ← put r; mret a
                end
            | Panic => panic | Diverge => diverge
            end
        | Panic => panic | Diverge => diverge
        end
  | _ => panic
  end.

(** [try_begin_callback_event], for the connection [id]: the event's permit
    and the activation. *)
Definition try_begin_callback_event (id : Z) : M Registry Error nat :=
  r ← get;
  if negb (bool_decide (lifecycle r = Running)) then fail stopped_error
  else
    _ ← acquire_all [Admission CallbackInflight (callback_inflight_limit (cfg r)) callback_full] [];
    r ← get;
    let a := length (heap r) in
    _ ← put (set_activations (callback_activations r + 1) (set_heap (heap r ++ [OEvent id true]) r));
    mret a.

(** ** Results

    Each is a region on the state at address [a]; an address of another kind
    does not occur. *)

Definition R : Type → Type := M Registry Empty_set.

(** [RequestState::take_terminal_job]. *)
Definition take_terminal_job (a : nat) (id : Z) (s : RequestInner) : outcome Empty_set (option CallbackJob * RequestInner) :=
  if negb (callback_active s) || negb (terminal s) then Ok (None, s)
  else if negb (callback s) then Ok (None, s)
  else match completion s with
  | None => Panic
  | Some c =>
      if negb (inflight_permit s) then Panic
      else if negb (callback_permit s) then Panic
      else Ok (Some (mkJob (Some (a, c)) id [(Inflight, 1); (CallbackInflight, 1)]),
               mkRequestInner None (terminal s) false (callback_active s) false false)
  end.

Definition if_held (b : bool) (c : counter) : list permit := if b then [(c, 1)] else [].
Definition bytes_held (o : option Z) (c : counter) : list permit := match o with Some n => [(c, n)] | None => [] end.

(** [RequestState::commit]: whether it won, and the job. *)
Definition commit (a : nat) (c : Completion) : R (bool * option CallbackJob) :=
  r ← get;
  match heap r !! a with
  | Some (ORequest id s) =>
      if terminal s then mret (false, None)
      else
        '(job, s) ← lift (take_terminal_job a id
                   (mkRequestInner (Some c) true (callback s) (callback_active s) (inflight_permit s) (callback_permit s)));
        let r := log_commit a c r in
        if negb (callback s) && bool_decide (job = None) then
          let dropped := if_held (inflight_permit s) Inflight ++ if_held (callback_permit s) CallbackInflight in
          let s := mkRequestInner (completion s) (terminal s) (callback s) (callback_active s) false false in
          _ ← put (drop_permits dropped (update a (ORequest id s) r)); mret (true, job)
        else _ ← put (update a (ORequest id s) r); mret (true, job)
  | _ => panic
  end.

(** [ResolveState::take_terminal_job] and [commit]. *)
Definition take_resolve_job (a : nat) (id : Z) (s : ResolveInner) : outcome Empty_set (option CallbackJob * ResolveInner) :=
  if negb (res_callback_active s) || bool_decide (res_completion s = None) then Ok (None, s)
  else if negb (res_callback s) then Ok (None, s)
  else match res_completion s with
  | None => Panic
  | Some c =>
      if negb (res_inflight_permit s) then Panic
      else if negb (res_callback_permit s) then Panic
      else Ok (Some (mkJob (Some (a, c)) id [(ResolutionInflight, 1); (CallbackInflight, 1)]),
               mkResolveInner (res_completion s) false (res_callback_active s) false false)
  end.

Definition resolve_commit (a : nat) (c : Completion) : R (bool * option CallbackJob) :=
  r ← get;
  match heap r !! a with
  | Some (OResolve id s) =>
      if bool_decide (is_Some (res_completion s)) then mret (false, None)
      else
        '(job, s) ← lift (take_resolve_job a id
                   (mkResolveInner (Some c) (res_callback s) (res_callback_active s) (res_inflight_permit s) (res_callback_permit s)));
        let r := log_commit a c r in
        if negb (res_callback s) && bool_decide (job = None) then
          let dropped := if_held (res_inflight_permit s) ResolutionInflight ++ if_held (res_callback_permit s) CallbackInflight in
          let s := mkResolveInner (res_completion s) (res_callback s) (res_callback_active s) false false in
          _ ← put (drop_permits dropped (update a (OResolve id s) r)); mret (true, job)
        else _ ← put (update a (OResolve id s) r); mret (true, job)
  | _ => panic
  end.

(** A connect operation of either kind: its identity and inner state. *)
Definition connect_parts (o : object) : option (Z * TcpConnectInner) :=
  match o with OConnect id _ _ s => Some (id, s) | OTls id _ _ _ s => Some (id, s) | _ => None end.
Definition with_inner (s : TcpConnectInner) (o : object) : object :=
  match o with
  | OConnect id sw rw _ => OConnect id sw rw s
  | OTls id sw rw up _ => OTls id sw rw up s
  | _ => o
  end.

(** [take_terminal_job] of a TCP connect, [take_callback] of a TLS connect. *)
Definition take_connect_job (a : nat) (id : Z) (s : TcpConnectInner) : outcome Empty_set (option CallbackJob * TcpConnectInner) :=
  if negb (con_callback_active s) || negb (delivery_ready s) then Ok (None, s)
  else if negb (con_callback s) then Ok (None, s)
  else match con_completion s with
  | None => Panic
  | Some c =>
      if negb (con_callback_permit s) then Panic
      else Ok (Some (mkJob (Some (a, c)) id [(CallbackInflight, 1)]),
               mkConnectInner None (con_terminal s) (delivery_ready s) false (con_callback_active s) (occupancy_permit s)
                 (queued_bytes_permit s) (metric_bytes_permit s) (dns_borrow s) false)
  end.

(** The permits a connect holds until it is terminal. *)
Definition connect_permits (s : TcpConnectInner) : list permit :=
  if_held (occupancy_permit s) TcpConnections ++ bytes_held (queued_bytes_permit s) QueuedBytes ++
  bytes_held (metric_bytes_permit s) TcpQueuedBytes ++ if_held (dns_borrow s) ResolutionInflight.

(** [TcpConnectState::commit_terminal]. *)
Definition commit_terminal (a : nat) (c : Completion) : R bool :=
  r ← get;
  match heap r !! a with
  | Some o =>
      match connect_parts o with
      | Some (id, s) =>
          if con_terminal s then mret false
          else
            let s' := mkConnectInner (Some c) true (delivery_ready s) (con_callback s) (con_callback_active s)
                        false None None false (con_callback_permit s) in
            _ ← put (drop_permits (connect_permits s) (update a (with_inner s' o) (log_commit a c r))); mret true
      | None => panic
      end
  | None => panic
  end.
(** [TlsConnectState::commit] drops the same permits. *)
Definition tls_commit (a : nat) (c : Completion) : R bool := commit_terminal a c.

(** [publish_terminal]. *)
Definition publish_terminal (a : nat) : R (option CallbackJob) :=
  r ← get;
  match heap r !! a with
  | Some o =>
      match connect_parts o with
      | Some (id, s) =>
          if negb (con_terminal s) || delivery_ready s then panic
          else
            '(job, s') ← lift (take_connect_job a id
               (mkConnectInner (con_completion s) (con_terminal s) true (con_callback s) (con_callback_active s) (occupancy_permit s)
                  (queued_bytes_permit s) (metric_bytes_permit s) (dns_borrow s) (con_callback_permit s)));
            _ ← put (update a (with_inner s' o) r); mret job
      | None => panic
      end
  | None => panic
  end.

(** [activate_callback] of every kind. *)
Definition activate_callback (a : nat) : R (option CallbackJob) :=
  r ← get;
  match heap r !! a with
  | Some (ORequest id s) =>
      '(job, s) ← lift (take_terminal_job a id
         (mkRequestInner (completion s) (terminal s) (callback s) true (inflight_permit s) (callback_permit s)));
      _ ← put (update a (ORequest id s) r); mret job
  | Some (OResolve id s) =>
      '(job, s) ← lift (take_resolve_job a id
         (mkResolveInner (res_completion s) (res_callback s) true (res_inflight_permit s) (res_callback_permit s)));
      _ ← put (update a (OResolve id s) r); mret job
  | Some o =>
      match connect_parts o with
      | Some (id, s) =>
          '(job, s') ← lift (take_connect_job a id
             (mkConnectInner (con_completion s) (con_terminal s) (delivery_ready s) (con_callback s) true (occupancy_permit s)
                (queued_bytes_permit s) (metric_bytes_permit s) (dns_borrow s) (con_callback_permit s)));
          _ ← put (update a (with_inner s' o) r); mret job
      | None => panic
      end
  | None => panic
  end.

(** ** Completion under the core lock *)

(** [Arc::ptr_eq] of the registered state and [a]. *)
Definition registered (t : table) (a : nat) (r : Registry) : option Z :=
  o ← heap r !! a;
  '(id, _) ← connect_parts o;
  if bool_decide (tables r t !! id = Some a) then Some id else None.

Definition complete_tcp_state_locked (a : nat) (c : Completion) : R bool :=
  r ← get;
  match registered TConnects a r with
  | None => mret false
  | Some id =>
      won ← commit_terminal a c;
      if negb won then mret false else _ ← modify (table_remove TConnects id); mret true
  end.

Definition complete_tls_state_locked (a : nat) (c : Completion) : R bool :=
  r ← get;
  match registered TTls a r with
  | None => mret false
  | Some id =>
      won ← tls_commit a c;
      if negb won then mret false else _ ← modify (table_remove TTls id); mret true
  end.

(** The loops over the pending connects: those that won. *)
Fixpoint complete_each (complete : nat → R bool) (l : list nat) : R (list nat) :=
  match l with
  | [] => mret []
  | a :: l' => won ← complete a; rest ← complete_each complete l'; mret (if won : bool then a :: rest else rest)
  end.

(** [TcpIoShared::pair] asserts that the windows are not empty. *)
Definition pair_asserts (send_window receive_window : Z) : bool := (0 <? send_window) && (0 <? receive_window).

(** [complete_tcp_connected]. The connection is at the new address; the
    [debug_assert] that the DNS capacity was released counts as a panic. *)
Definition complete_tcp_connected (a : nat) : R (option CallbackJob) :=
  r ← get;
  match heap r !! a with
  | Some (OConnect id sw rw s) =>
      if negb (bool_decide (lifecycle r = Running)) || negb (bool_decide (tables r TConnects !! id = Some a))
         || con_terminal s then mret None
      else
        if negb (occupancy_permit s) then panic
        else match queued_bytes_permit s, metric_bytes_permit s with
        | Some queued, Some metric =>
            if dns_borrow s || negb (pair_asserts sw rw) then panic
            else
              let l := length (heap r) in
              let c := Completed l in
              '(job, s') ← lift (take_connect_job a id
                 (mkConnectInner (Some c) true true (con_callback s) (con_callback_active s) false None None (dns_borrow s)
                    (con_callback_permit s)));
              let live := mkLive false false [(TcpConnections, 1); (QueuedBytes, queued); (TcpQueuedBytes, metric)] in
              let r := log_commit a c (update a (OConnect id sw rw s') r) in
              let r := table_insert TLive id l (table_remove TConnects id (set_heap (heap r ++ [OLive id live]) r)) in
              _ ← put r; mret job
        | _, _ => panic
        end
  | _ => panic
  end.

Definition complete_tls_transport_connected (a : nat) : R unit :=
  r ← get;
  match heap r !! a with
  | Some (OTls id sw rw upgrade s) =>
      if negb (bool_decide (lifecycle r = Running)) || upgrade || negb (bool_decide (tables r TTls !! id = Some a))
         || con_terminal s then mret tt
      else
        (* a permit that is missing ends the call, the ones taken before it are dropped *)
        let taken occupancy queued metric :=
          update a (OTls id sw rw upgrade (mkConnectInner (con_completion s) (con_terminal s) (delivery_ready s) (con_callback s)
             (con_callback_active s) occupancy queued metric (dns_borrow s) (con_callback_permit s))) r in
        if negb (occupancy_permit s) then mret tt
        else match queued_bytes_permit s, metric_bytes_permit s with
        | None, metric => put (drop_permits [(TcpConnections, 1)] (taken false None metric))
        | Some queued, None => put (drop_permits [(QueuedBytes, queued); (TcpConnections, 1)] (taken false None None))
        | Some queued, Some metric =>
            if dns_borrow s || negb (pair_asserts sw rw) then panic
            else
              let r := taken false None None in
              let l := length (heap r) in
              let live := mkLive false false [(TcpConnections, 1); (QueuedBytes, queued); (TcpQueuedBytes, metric)] in
              put (table_insert TLive id l (set_heap (heap r ++ [OLive id live]) r))
        end
  | _ => panic
  end.

(** [complete_tls_connected], up to the release of the core lock: whether the
    result is to be published. *)
Definition complete_tls_connected (a : nat) : R bool :=
  r ← get;
  match heap r !! a with
  | Some (OTls id sw rw upgrade s) =>
      if negb (bool_decide (lifecycle r = Running)) || negb (bool_decide (tables r TTls !! id = Some a)) then mret false
      else match tables r TLive !! id with
      | None => mret false
      | Some l =>
          match heap r !! l with
          | Some (OLive lid live) =>
              if session_released live then mret false
              else
                _ ← (if upgrade then put (update l (OLive lid (mkLive (session_released live) false (reserve live))) r) else mret tt);
                won ← tls_commit a (Completed l);
                if negb won then panic
                else _ ← modify (table_remove TTls id); mret true
          | _ => panic
          end
      end
  | _ => panic
  end.

(** [complete_tls_state], up to the release of the core lock: whether it won,
    and the connection to abort. *)
Definition complete_tls_state (a : nat) (c : Completion) : R (bool * option nat) :=
  r ← get;
  match registered TTls a r with
  | None => mret (false, None)
  | Some id =>
      let io := match c with Completed _ => None | _ => tables r TLive !! id end in
      won ← tls_commit a c;
      if won : bool then _ ← modify (table_remove TTls id); mret (true, io) else mret (false, io)
  end.

(** [release_dns_borrow]. *)
Definition release_dns_borrow (a : nat) : R unit :=
  r ← get;
  match heap r !! a with
  | Some o =>
      match connect_parts o with
      | Some (id, s) =>
          if con_terminal s || negb (dns_borrow s) then mret tt
          else
            let s' := mkConnectInner (con_completion s) (con_terminal s) (delivery_ready s) (con_callback s) (con_callback_active s)
                        (occupancy_permit s) (queued_bytes_permit s) (metric_bytes_permit s) false (con_callback_permit s) in
            put (drop_permit (ResolutionInflight, 1) (update a (with_inner s' o) r))
      | None => panic
      end
  | None => panic
  end.

(** [try_completion], of an operation submitted without a callback. *)
Definition try_completion (a : nat) : R (option Completion) :=
  r ← get;
  match heap r !! a with
  | Some (ORequest id s) =>
      if callback s then mret None
      else
        _ ← put (update a (ORequest id (mkRequestInner None (terminal s) (callback s) (callback_active s) (inflight_permit s)
                   (callback_permit s))) r);
        mret (completion s)
  | Some (OResolve id s) => mret (res_completion s)
  | Some o =>
      match connect_parts o with
      | Some (id, s) =>
          if con_callback s || negb (delivery_ready s) then mret None
          else
            _ ← put (update a (with_inner (mkConnectInner None (con_terminal s) (delivery_ready s) (con_callback s)
                       (con_callback_active s) (occupancy_permit s) (queued_bytes_permit s) (metric_bytes_permit s) (dns_borrow s)
                       (con_callback_permit s)) o) r);
            mret (con_completion s)
      | None => mret None
      end
  | None => mret None
  end.

(** ** Streams *)

(** [ResponseControl::cancel] and [fail], or the transport's own result: the
    first one wins. *)
Definition control_commit (a : nat) (c : Completion) : R bool :=
  r ← get;
  match heap r !! a with
  | Some (OStream id s) =>
      if control_terminal s then mret false
      else _ ← put (log_commit a c (update a (OStream id (mkStreamState true (permits s))) r)); mret true
  | _ => panic
  end.

Definition stream_permits (o : option Z) : list permit :=
  match o with Some n => [(Inflight, 1); (StreamQueuedBytes, n); (QueuedBytes, n)] | None => [] end.

Definition release_permits (a : nat) : R unit :=
  r ← get;
  match heap r !! a with
  | Some (OStream id s) =>
      put (drop_permits (stream_permits (permits s)) (update a (OStream id (mkStreamState (control_terminal s) None)) r))
  | _ => panic
  end.

(** The end of [finish_stream_state]. *)
Definition remove_stream (a : nat) : R unit :=
  r ← get;
  match heap r !! a with
  | Some (OStream id s) =>
      if bool_decide (is_Some (tables r TStreams !! id)) && negb (control_terminal s) then panic
      else put (table_remove TStreams id r)
  | _ => panic
  end.

(** ** The callback domain *)

Definition enqueue_terminal (j : CallbackJob) : R unit :=
  r ← get;
  let d := domain r in
  if sealed d then
    put (drop_permits (job_permits j)
      (set_domain (mkDomain true (jobs d) (active_requests d) (running d) (ran d)
         (lost d ++ match job_of j with Some (a, _) => [a] | None => [] end)) r))
  else put (set_domain (mkDomain (sealed d) (jobs d ++ [j]) (active_requests d) (running d) (ran d) (lost d)) r).

(** The first job whose request has none running. *)
Fixpoint first_runnable (active : list Z) (l : list CallbackJob) : option (CallbackJob * list CallbackJob) :=
  match l with
  | [] => None
  | j :: l' =>
      if bool_decide (job_id j ∈ active) then prod_map id (cons j) <$> first_runnable active l' else Some (j, l')
  end.

Definition take_runnable : R (option CallbackJob) :=
  r ← get;
  let d := domain r in
  match first_runnable (active_requests d) (jobs d) with
  | None => mret None
  | Some (j, rest) =>
      _ ← put (set_domain (mkDomain (sealed d) rest (job_id j :: active_requests d) (running d + 1) (ran d) (lost d)) r);
      mret (Some j)
  end.

(** The callback of a job runs and its permits go with it, panic or not. *)
Definition call_job (j : CallbackJob) : R unit :=
  r ← get;
  let d := domain r in
  put (drop_permits (job_permits j)
    (set_domain (mkDomain (sealed d) (jobs d) (active_requests d) (running d)
       (ran d ++ match job_of j with Some x => [x] | None => [] end) (lost d)) r)).

Definition finish_job (id : Z) : R unit :=
  r ← get;
  let d := domain r in
  n ← lift (usub (running d) 1);
  put (set_domain (mkDomain (sealed d) (jobs d) (List.filter (λ x, negb (x =? id)) (active_requests d)) n (ran d) (lost d)) r).

Definition seal (r : Registry) : Registry :=
  let d := domain r in
  set_domain (mkDomain true (jobs d) (active_requests d) (running d) (ran d) (lost d)) r.

Definition finish_callback_activation : R unit :=
  r ← get; n ← lift (usub (callback_activations r) 1); put (set_activations n r).

(** ** Calls and what they do next *)

Inductive cont :=
(* calls *)
| Accept (request : Request.Request) (admission : option Error) (cb : bool)
| AcceptResolve (max_results : option Z) (ceiling : Z) (cb : bool)
| AcceptStream (validate : option Error) (request : Request.Request) (admission : option Error) (upload_window : Z) (bind : option Error)
| AcceptTcp (hostname : bool) (send receive : option Z) (cb : bool)
| AcceptTls (validate : option Error) (hostname : bool) (send receive : option Z) (cb : bool)
| AcceptUpgrade (validate : option Error) (l : nat) (idle cb : bool)
| BeginEvent (id : Z) | EventJob (a : nat) | DropEvent (a : nat)
| Cancel (engine id : Z) | CancelAll | BeginShutdown | FailAll (e : Error) | MarkStopped
| CompleteState (a : nat) (c : Completion) | CompleteResolve (a : nat) (c : Completion)
| CompleteTcp (a : nat) (c : Completion) | CompleteTls (a : nat) (c : Completion)
| TcpConnected (a : nat) | TlsTransportConnected (a : nat) | TlsConnected (a : nat) | ReleaseDns (a : nat)
| StreamResult (a : nat) (c : Completion) | CancelStream (a : nat) | FailStream (a : nat) (e : Error) | FinishStream (a : nat)
| TryCompletion (a : nat) | Drain | ConnectionEnded (l : nat) | TakeRunnable | Seal
(* what is left of them *)
| Activate (a : nat) | EndActivation | Enqueue (j : CallbackJob) | Remove (t : table) (id : Z)
| ReleaseStream (a : nat) | RemoveStream (a : nat)
| Publish (a : nat) | PublishAll (todo : list nat) (done : list CallbackJob)
| ReleasePermit (p : permit) | ReleaseLive (id : Z) | StoreStopped | Wake
| CallJob (j : CallbackJob) | FinishJob (id : Z).

Definition is_call (c : cont) : bool :=
  match c with
  | Activate _ | EndActivation | Enqueue _ | Remove _ _ | ReleaseStream _ | RemoveStream _ | Publish _ | PublishAll _ _
  | ReleasePermit _ | ReleaseLive _ | StoreStopped | Wake | CallJob _ | FinishJob _ => false
  | _ => true
  end.

Definition enqueue (job : option CallbackJob) : list cont := match job with Some j => [Enqueue j] | None => [] end.
Definition accepted (cb : bool) (a : nat) : list cont := if cb then [Activate a; EndActivation] else [].

(** [io.abort], or the end of both directions: the release closures run. *)
Definition release_io (l : nat) : R (list cont) :=
  r ← get;
  match heap r !! l with
  | Some (OLive id s) =>
      if session_released s then mret []
      else _ ← put (update l (OLive id (mkLive true (io_upgrading s) [])) r);
           mret (map ReleasePermit (reserve s) ++ [ReleaseLive id])
  | _ => panic
  end.

(** [cancel]. *)
Definition cancel (engine id : Z) : R (list cont) :=
  r ← get;
  if negb (engine =? engine_id (cfg r)) then mret []
  else
    let connect_state := tables r TConnects !! id in
    let tls_state := tables r TTls !! id in
    tcp_won ← match connect_state with Some a => complete_tcp_state_locked a Cancelled | None => mret false end;
    tls_won ← match tls_state with Some a => complete_tls_state_locked a Cancelled | None => mret false end;
    r ← get;
    let live_tcp := if tcp_won : bool then None else tables r TLive !! id in
    mret
      (match (if tcp_won : bool then connect_state else None), (if tls_won : bool then tls_state else None), live_tcp,
             tables r TRequests !! id, tables r TStreams !! id with
       | Some a, _, _, _, _ => [Publish a]
       | None, Some a, io, _, _ => match io with Some l => [ConnectionEnded l] | None => [] end ++ [Publish a]
       | None, None, Some l, _, _ => [ConnectionEnded l]
       | None, None, None, Some a, _ => [CompleteState a Cancelled]
       | None, None, None, None, Some a => [CancelStream a]
       | None, None, None, None, None => []
       end
       ++ match tables r TResolutions !! id with Some a => [CompleteResolve a Cancelled] | None => [] end ++ [Wake]).

(** The states of a table, those up to [barrier]. *)
Definition states (t : table) (barrier : option Z) (r : Registry) : list nat :=
  map snd (List.filter (λ x : Z * nat, match barrier with Some b => x.1 <=? b | None => true end) (map_to_list (tables r t))).

(** The part common to [cancel_all], [begin_shutdown] and [fail_all]: the
    pending connects are completed under the lock, the rest after it. *)
Definition complete_all (barrier : option Z) (tcp tls rest : Completion) (stream : nat → cont) : R (list cont) :=
  r ← get;
  tls_states ← complete_each (λ a, complete_tls_state_locked a tls) (states TTls barrier r);
  tcp_terminals ← complete_each (λ a, complete_tcp_state_locked a tcp) (states TConnects barrier r);
  r ← get;
  mret (map (λ a, CompleteState a rest) (states TRequests barrier r) ++ map stream (states TStreams barrier r)
        ++ map (λ a, CompleteResolve a rest) (states TResolutions barrier r)
        ++ [PublishAll tcp_terminals []] ++ map ConnectionEnded (states TLive barrier r) ++ map Publish tls_states).

Definition cancel_all : R (list cont) :=
  r ← get;
  cs ← complete_all (Some (saturating_sub (next_sequence r) 1)) Cancelled Cancelled Cancelled CancelStream;
  mret (cs ++ [Wake]).

Definition begin_shutdown : R (list cont) :=
  _ ← modify (λ r, if bool_decide (lifecycle r = Running) then set_lifecycle ShuttingDown r else r);
  cs ← complete_all None
         (Failed (error_new ErrorKind.EngineStopped "the owning Engine stopped during TCP connection establishment"))
         (Failed (error_new ErrorKind.EngineStopped "the owning Engine stopped during TLS establishment"))
         Cancelled CancelStream;
  mret (cs ++ [StoreStopped; Wake]).

Definition fail_all (e : Error) : R (list cont) :=
  cs ← complete_all None (Failed e) (Failed e) (Failed e) (λ a, FailStream a e);
  mret (cs ++ [Wake]).

(** An [accept]: on success the callback is activated. *)
Definition accepting (cb : bool) (m : M Registry Error nat) : R (list cont) := λ r,
  match m r with
  | (Ok a, r') => (Ok (accepted cb a), r')
  | (Err _, r') => (Ok [], r')
  | (Panic, r') => (Panic, r')
  | (Diverge, r') => (Diverge, r')
  end.

Definition run_cont (c : cont) : R (list cont) :=
  match c with
  | Accept request admission cb => accepting cb (accept request admission cb)
  | AcceptResolve max_results ceiling cb => accepting cb (accept_resolve max_results ceiling cb)
  | AcceptStream validate request admission window bind => accepting false (accept_stream validate request admission window bind)
  | AcceptTcp hostname send receive cb => accepting cb (accept_tcp_connect hostname send receive cb)
  | AcceptTls validate hostname send receive cb => accepting cb (accept_tls_connect validate hostname send receive cb)
  | AcceptUpgrade validate l idle cb => accepting cb (accept_tls_upgrade validate l idle cb)
  | BeginEvent id => λ r,
      match try_begin_callback_event id r with
      | (Ok _, r') => (Ok [EndActivation], r')
      | (Err _, r') => (Ok [], r')
      | (Panic, r') => (Panic, r')
      | (Diverge, r') => (Diverge, r')
      end
  | EventJob a =>
      r ← get;
      match heap r !! a with
      | Some (OEvent id true) =>
          _ ← put (update a (OEvent id false) r); mret [Enqueue (mkJob None id [(CallbackInflight, 1)])]
      | _ => mret []
      end
  | DropEvent a =>
      r ← get;
      match heap r !! a with
      | Some (OEvent id true) => _ ← put (drop_permit (CallbackInflight, 1) (update a (OEvent id false) r)); mret []
      | _ => mret []
      end
  | Cancel engine id => cancel engine id
  | CancelAll => cancel_all
  | BeginShutdown => begin_shutdown
  | FailAll e => fail_all e
  | MarkStopped => _ ← modify (set_lifecycle Stopped); mret [StoreStopped; Wake]
  | CompleteState a result =>
      r ← get;
      '(won, job) ← commit a result;
      if negb won then mret []
      else mret (match heap r !! a with Some (ORequest id _) => [Remove TRequests id] | _ => [] end ++ enqueue job)
  | CompleteResolve a result =>
      r ← get;
      '(won, job) ← resolve_commit a result;
      if negb won then mret []
      else mret (match heap r !! a with Some (OResolve id _) => [Remove TResolutions id] | _ => [] end ++ enqueue job)
  | CompleteTcp a result => won ← complete_tcp_state_locked a result; mret (if won : bool then [Publish a] else [])
  | CompleteTls a result =>
      '(won, io) ← complete_tls_state a result;
      mret (match io with Some l => [ConnectionEnded l] | None => [] end ++ if won : bool then [Publish a] else [])
  | TcpConnected a => job ← complete_tcp_connected a; mret (enqueue job)
  | TlsTransportConnected a => _ ← complete_tls_transport_connected a; mret []
  | TlsConnected a => won ← complete_tls_connected a; mret (if won : bool then [Publish a] else [])
  | ReleaseDns a => _ ← release_dns_borrow a; mret []
  | StreamResult a result => _ ← control_commit a result; mret []
  | CancelStream a => won ← control_commit a Cancelled; mret (if won : bool then [ReleaseStream a; FinishStream a] else [])
  | FailStream a e => won ← control_commit a (Failed e); mret (if won : bool then [ReleaseStream a; FinishStream a] else [])
  | FinishStream a => _ ← release_permits a; mret [RemoveStream a]
  | TryCompletion a => _ ← try_completion a; mret []
  | Drain => _ ← modify (λ r, (drain r).2); mret []
  | ConnectionEnded l => release_io l
  | TakeRunnable => job ← take_runnable; mret (match job with Some j => [CallJob j; FinishJob (job_id j)] | None => [] end)
  | Seal => _ ← modify seal; mret []
  | Activate a => job ← activate_callback a; mret (enqueue job)
  | EndActivation => _ ← finish_callback_activation; mret []
  | Enqueue j => _ ← enqueue_terminal j; mret []
  | Remove t id => _ ← modify (table_remove t id); mret []
  | ReleaseStream a => _ ← release_permits a; mret []
  | RemoveStream a => _ ← remove_stream a; mret []
  | Publish a => job ← publish_terminal a; mret (enqueue job)
  | PublishAll [] done => mret (map Enqueue done)
  | PublishAll (a :: todo) done =>
      job ← publish_terminal a; mret [PublishAll todo (done ++ match job with Some j => [j] | None => [] end)]
  | ReleasePermit p => _ ← modify (drop_permit p); mret []
  | ReleaseLive id => _ ← modify (λ r, wake (table_remove TLive id r)); mret []
  | StoreStopped => _ ← modify (set_stopped true); mret []
  | Wake => _ ← modify wake; mret []
  | CallJob j => _ ← call_job j; mret []
  | FinishJob id => _ ← finish_job id; mret []
  end.

(** ** The whole: any number of threads, each in the middle of a call *)

Record Engine := mkEngine { registry : Registry; threads : list (list cont) }.

Inductive move := Call (c : cont) | Step (thread : nat).

(** The handle a call is made with is of its kind, and what the caller must
    have seen to is done: a stream is finished after its result, the DNS
    capacity of a connect is released before its socket is established, and
    byte counts are unsigned. *)
Definition possible (h : list object) (c : cont) : bool :=
  match c with
  | CompleteState a _ => match h !! a with Some (ORequest _ _) => true | _ => false end
  | CompleteResolve a _ => match h !! a with Some (OResolve _ _) => true | _ => false end
  | CompleteTcp a _ => match h !! a with Some (OConnect _ _ _ _) => true | _ => false end
  | TcpConnected a => match h !! a with Some (OConnect _ _ _ s) => negb (dns_borrow s) | _ => false end
  | CompleteTls a _ | TlsConnected a => match h !! a with Some (OTls _ _ _ _ _) => true | _ => false end
  | TlsTransportConnected a => match h !! a with Some (OTls _ _ _ _ s) => negb (dns_borrow s) | _ => false end
  | ReleaseDns a | Publish a => match h !! a with Some (OConnect _ _ _ _ | OTls _ _ _ _ _) => true | _ => false end
  | PublishAll l _ => forallb (λ a, match h !! a with Some (OConnect _ _ _ _) => true | _ => false end) l
  | Activate a =>
      match h !! a with Some (ORequest _ _ | OResolve _ _ | OConnect _ _ _ _ | OTls _ _ _ _ _) => true | _ => false end
  | StreamResult a _ | CancelStream a | FailStream a _ | ReleaseStream a =>
      match h !! a with Some (OStream _ _) => true | _ => false end
  | FinishStream a | RemoveStream a => match h !! a with Some (OStream _ s) => control_terminal s | _ => false end
  | ConnectionEnded l | AcceptUpgrade _ l _ _ => match h !! l with Some (OLive _ _) => true | _ => false end
  | AcceptStream _ _ _ window _ => 0 <=? window
  | AcceptTcp _ send receive _ | AcceptTls _ _ send receive _ => (0 <=? default 0 send) && (0 <=? default 0 receive)
  | _ => true
  end.

Definition step (m : move) (e : Engine) : option Engine :=
  match m with
  | Call c =>
      if is_call c && possible (heap (registry e)) c then Some (mkEngine (registry e) (threads e ++ [[c]])) else Some e
  | Step i =>
      match threads e !! i with
      | Some (c :: rest) =>
          match run_cont c (registry e) with
          | (Ok next, r) => Some (mkEngine r (<[i := next ++ rest]> (threads e)))
          | _ => None
          end
      | _ => Some e
      end
  end.

Fixpoint run_moves (ms : list move) (e : Engine) : option Engine :=
  match ms with [] => Some e | m :: ms' => e' ← step m e; run_moves ms' e' end.

Definition initial (c : Config) : Registry :=
  mkRegistry c (λ _, 0) Running 1 (λ _, ∅) [] [] 0 false 0 (mkDomain false [] [] 0 [] []) [] [].
Definition new_engine (c : Config) : Engine := mkEngine (initial c) [].
End with_target.
