(* ===== verification/RegistryProofs.v ===== *)
(** * Correctness of the registry

    Under every interleaving of any number of threads: every permit is
    accounted for and given back once, an operation has one result and its
    callback gets it once, and every region returns but two ([stuck] in
    [wpx]): a streamed request that meets a full command queue, and a
    reservation that the metric of queued TCP bytes has no room for. *)

From stdpp Require Import base list gmap strings.
From Stdlib Require Import ZArith Lia.
From S2P Require Import Prelude Errors BodyBudget Request TcpIo Registry.

#[local] Arguments len : simpl never.
#[local] Arguments drop_permits : simpl never.
#[local] Arguments drop_permit : simpl never.

(** ** Resources

    What is counted: the permits of each counter, the callback of each
    operation and its activation, the announcement of each connect's result, the activations and
    the running jobs. *)

Inductive key := KCounter (c : counter) | KCallback (a : nat) | KActivate (a : nat) | KPublish (a : nat) | KActivation | KRunning.
#[global] Instance key_eq_dec : EqDecision key.
Proof. solve_decision. Defined.

Definition resource : Type := key * Z.

Definition amount (k : key) (x : resource) : Z := if decide (x.1 = k) then x.2 else 0.
Definition weight (k : key) (l : list resource) : Z := sumZ (map (amount k) l).

Lemma weight_app k l l' : weight k (l ++ l') = weight k l + weight k l'.
Proof. unfold weight. by rewrite map_app, sumZ_app. Qed.
Lemma weight_cons k x l : weight k (x :: l) = amount k x + weight k l.
Proof. done. Qed.
Lemma weight_nil k : weight k [] = 0.
Proof. done. Qed.
Lemma amount_neg k x n : amount k (x, -n) = - amount k (x, n).
Proof. unfold amount. cbn. destruct (decide _); lia. Qed.
Lemma amount_neg1 k x : amount k (x, -1) = - amount k (x, 1).
Proof. apply (amount_neg k x 1). Qed.
#[local] Arguments weight : simpl never.
#[local] Arguments amount : simpl never.

Definition permit_res (ps : list permit) : list resource := map (λ p, (KCounter p.1, p.2)) ps.
Definition callback_res (b : bool) (a : nat) : list resource := if b then [(KCallback a, 1)] else [].
(** A callback that is not active has its activation to come. *)
Definition activate_res (b : bool) (a : nat) : list resource := if b then [(KActivate a, -1)] else [].
Definition job_res (j : CallbackJob) : list resource :=
  permit_res (job_permits j) ++ match job_of j with Some (a, _) => [(KCallback a, 1)] | None => [] end.

Definition connect_res (a : nat) (s : TcpConnectInner) : list resource :=
  permit_res (connect_permits s) ++ permit_res (if_held (con_callback_permit s) CallbackInflight) ++ callback_res (con_callback s) a
  ++ activate_res (con_callback s && negb (con_callback_active s)) a
  ++ if con_terminal s && negb (delivery_ready s) then [(KPublish a, -1)] else [].

Definition object_res (a : nat) (o : object) : list resource :=
  match o with
  | ORequest _ s =>
      permit_res (if_held (inflight_permit s) Inflight) ++ permit_res (if_held (callback_permit s) CallbackInflight)
      ++ callback_res (callback s) a ++ activate_res (callback s && negb (callback_active s)) a
  | OResolve _ s =>
      permit_res (if_held (res_inflight_permit s) ResolutionInflight) ++ permit_res (if_held (res_callback_permit s) CallbackInflight)
      ++ callback_res (res_callback s) a ++ activate_res (res_callback s && negb (res_callback_active s)) a
  | OStream _ s => permit_res (stream_permits (permits s))
  | OConnect _ _ _ s | OTls _ _ _ _ s => connect_res a s
  | OLive _ s => permit_res (reserve s)
  | OEvent _ b => permit_res (if_held b CallbackInflight)
  end.

Definition cont_res (c : cont) : list resource :=
  match c with
  | Activate a => [(KActivate a, 1)]
  | EndActivation => [(KActivation, 1)]
  | Enqueue j | CallJob j => job_res j
  | Publish a => [(KPublish a, 1)]
  | PublishAll todo done => map (λ a, (KPublish a, 1)) todo ++ concat (map job_res done)
  | ReleasePermit p => permit_res [p]
  | FinishJob _ => [(KRunning, 1)]
  | _ => []
  end.

Definition heap_res (h : list object) : list resource := concat (imap object_res h).
Definition jobs_res (js : list CallbackJob) : list resource := concat (map job_res js).
Definition conts_res (cs : list cont) : list resource := concat (map cont_res cs).
Definition threads_res (ts : list (list cont)) : list resource := concat (map conts_res ts).

Lemma conts_res_app cs cs' : conts_res (cs ++ cs') = conts_res cs ++ conts_res cs'.
Proof. unfold conts_res. by rewrite map_app, concat_app. Qed.

#[local] Arguments heap_res : simpl never.
#[local] Arguments jobs_res : simpl never.
#[local] Arguments object_res : simpl never.
#[local] Arguments permit_res : simpl never.

(** What the registry has recorded of each. *)
Definition count (a : nat) (l : list nat) : Z := sumZ (map (λ x, if decide (x = a) then 1 else 0) l).
Definition value (r : Registry) (k : key) : Z :=
  match k with
  | KCounter c => counters r c
  | KCallback a => count a (with_callback r) - count a (map fst (ran (domain r))) - count a (lost (domain r))
  | KActivate _ | KPublish _ => 0
  | KActivation => callback_activations r
  | KRunning => running (domain r)
  end.

(** What the threads must hold for the books to balance. *)
Definition owed (r : Registry) (k : key) : Z := value r k - weight k (heap_res (heap r)) - weight k (jobs_res (jobs (domain r))).

Lemma count_app a l l' : count a (l ++ l') = count a l + count a l'.
Proof. unfold count. by rewrite map_app, sumZ_app. Qed.
#[local] Arguments count : simpl never.

Lemma heap_res_snoc h o : heap_res (h ++ [o]) = heap_res h ++ object_res (length h) o.
Proof.
  unfold heap_res. rewrite imap_app. cbn. rewrite concat_app. cbn. rewrite app_nil_r. f_equal.
  by rewrite Nat.add_0_r.
Qed.

Lemma heap_res_update k h a o o' :
  h !! a = Some o →
  weight k (heap_res (<[a := o']> h)) = weight k (heap_res h) - weight k (object_res a o) + weight k (object_res a o').
Proof.
  intros Ha. rewrite <-(take_drop_middle h a o Ha) at 2.
  rewrite insert_take_drop by by eapply lookup_lt_Some.
  assert (Hl : length (take a h) = a) by (rewrite length_take; apply lookup_lt_Some in Ha; lia).
  unfold heap_res. rewrite !imap_app. cbn [imap]. rewrite !concat_app, Hl. cbn. rewrite Nat.add_0_r, !weight_app. lia.
Qed.

(** ** Books *)

Definition with_counters (f : counter → Z) (r : Registry) : Registry :=
  mkRegistry (cfg r) f (lifecycle r) (next_sequence r) (tables r) (heap r) (queue r) (generation r) (stopped r)
    (callback_activations r) (domain r) (committed r) (with_callback r).

Lemma with_counters_id r : with_counters (counters r) r = r.
Proof. by destruct r. Qed.

Lemma owed_counters f r k :
  owed (with_counters f r) k = owed r k + match k with KCounter c => f c - counters r c | _ => 0 end.
Proof. unfold owed. destruct k; cbn; lia. Qed.

Lemma owed_update k r a o o' :
  heap r !! a = Some o → owed (update a o' r) k = owed r k + weight k (object_res a o) - weight k (object_res a o').
Proof.
  intros Ha. unfold owed. cbn [heap update set_heap domain].
  change (value (update a o' r) k) with (value r k). rewrite (heap_res_update k _ _ _ o' Ha). lia.
Qed.

Lemma owed_alloc k r o : owed (set_heap (heap r ++ [o]) r) k = owed r k - weight k (object_res (length (heap r)) o).
Proof.
  unfold owed. cbn [heap set_heap domain]. change (value (set_heap (heap r ++ [o]) r) k) with (value r k).
  rewrite heap_res_snoc, weight_app. lia.
Qed.

Lemma owed_activations k r n :
  owed (set_activations n r) k = owed r k + amount k (KActivation, n - callback_activations r).
Proof. unfold owed, amount. destruct k; cbn; try destruct (decide _); try done; lia. Qed.

Lemma owed_log_callback k r a : owed (log_callback a r) k = owed r k + amount k (KCallback a, 1).
Proof.
  unfold owed, amount. destruct k as [| b| | | |]; cbn; try (destruct (decide _); [done|lia]); try lia.
  rewrite count_app. change (count b [a]) with ((if decide (a = b) then 1 else 0) + 0).
  destruct (decide (a = b)), (decide (KCallback a = KCallback b)); congruence || lia.
Qed.

Lemma permit_res_cons p ps : permit_res (p :: ps) = (KCounter p.1, p.2) :: permit_res ps.
Proof. done. Qed.
Lemma permit_res_app ps qs : permit_res (ps ++ qs) = permit_res ps ++ permit_res qs.
Proof. apply map_app. Qed.
Definition job_resources (job : option CallbackJob) : list resource := match job with Some j => job_res j | None => [] end.

(** Resources given up. *)
Definition neg (l : list resource) : list resource := map (λ x, (x.1, - x.2)) l.
Lemma weight_neg k l : weight k (neg l) = - weight k l.
Proof.
  induction l as [|[x n] l IH]; [done|]. cbn [neg map]. fold (neg l). rewrite !weight_cons, IH. cbn. rewrite amount_neg. lia.
Qed.

Ltac weights :=
  unfold object_res, connect_res, callback_res, activate_res, job_resources, job_res, connect_permits, stream_permits, if_held, bytes_held, neg;
  cbn [acquired app map job_permits job_of andb negb
       inflight_permit callback_permit callback terminal res_inflight_permit res_callback_permit res_callback
       callback_active res_callback_active con_callback_active con_terminal delivery_ready con_callback occupancy_permit queued_bytes_permit metric_bytes_permit dns_borrow con_callback_permit
       permits reserve fst snd];
  rewrite ?permit_res_app, ?permit_res_cons; change (permit_res []) with (@nil resource); cbn [fst snd app];
  rewrite ?weight_app, ?weight_cons, ?weight_app, ?weight_nil, ?amount_neg1; try lia.

Section with_target.
Context {tgt : Target}.

(** ** Limits *)

Definition limit_of (c : Config) (k : counter) : Z :=
  match k with
  | Inflight => inflight_limit c | ResolutionInflight => resolution_inflight_limit c
  | CallbackInflight => callback_inflight_limit c | StreamQueuedBytes => max_stream_queued_bytes c
  | QueuedBytes => max_queued_bytes c | TcpConnections => tcp_connection_limit c | TcpQueuedBytes => usize_max
  end.

(** The limits are [usize] values. *)
Definition config_ok (c : Config) : Prop :=
  (∀ k, 0 ≤ limit_of c k ≤ usize_max) ∧ 0 ≤ max_stream_queue_bytes_per_request c ≤ usize_max ∧
  0 ≤ max_tcp_queue_bytes_per_connection c ≤ usize_max.

Definition counters_ok (r : Registry) : Prop := ∀ c, 0 ≤ counters r c ≤ limit_of (cfg r) c.

Definition held (c : counter) (ps : list permit) : Z := weight (KCounter c) (permit_res ps).
Lemma held_app c ps qs : held c (ps ++ qs) = held c ps + held c qs.
Proof. unfold held. by rewrite permit_res_app, weight_app. Qed.
Lemma held_cons c p ps : held c (p :: ps) = (if decide (p.1 = c) then p.2 else 0) + held c ps.
Proof.
  unfold held. rewrite permit_res_cons, weight_cons. unfold amount. cbn.
  destruct (decide (p.1 = c)), (decide (KCounter p.1 = KCounter c)); congruence || done.
Qed.
Lemma held_nonneg c ps : Forall (λ p : permit, 0 ≤ p.2) ps → 0 ≤ held c ps.
Proof.
  induction 1 as [|p ps Hp _ IH]; [done|]. rewrite held_cons. destruct (decide _); lia.
Qed.
Lemma weight_permits k ps :
  weight k (permit_res ps) = match k with KCounter c => held c ps | _ => 0 end.
Proof.
  destruct k; [done|..]; induction ps as [|p ps IH]; try done; rewrite permit_res_cons, weight_cons; unfold amount; cbn;
    (destruct (decide _); [done|exact IH]).
Qed.
#[local] Arguments held : simpl never.

(** Dropping permits that are counted never wraps around. *)
Lemma drop_permits_spec ps r :
  config_ok (cfg r) → counters_ok r → Forall (λ p : permit, 0 ≤ p.2) ps → (∀ c, held c ps ≤ counters r c) →
  ∃ f, drop_permits ps r = with_counters f r ∧ ∀ c, f c = counters r c - held c ps.
Proof.
  intros Hcfg. revert r Hcfg. induction ps as [|p ps IH]; intros r Hcfg Hok Hnn Hle.
  { exists (counters r). rewrite with_counters_id. split; [done|]. intros c. change (held c []) with 0. lia. }
  apply Forall_cons in Hnn as [Hp Hnn].
  assert (Hc : ∀ c, counters (drop_permit p r) c = counters r c - if decide (p.1 = c) then p.2 else 0).
  { intros c. unfold drop_permit. cbn. destruct (decide (c = p.1)) as [->|]; [|by rewrite decide_False; [lia|]].
    rewrite decide_True by done. apply Z.mod_small. pose proof (Hok p.1). destruct Hcfg as [Hl _]. pose proof (Hl p.1).
    pose proof (Hle p.1) as Hle'. rewrite held_cons, decide_True in Hle' by done. pose proof (held_nonneg p.1 ps Hnn). lia. }
  destruct (IH (drop_permit p r)) as (f & Hf & Hfc); [done| |done| |].
  - intros c. rewrite Hc. pose proof (Hok c). change (cfg (drop_permit p r)) with (cfg r). pose proof (Hle c) as Hle'.
    rewrite held_cons in Hle'. pose proof (held_nonneg c ps Hnn). destruct (decide _); lia.
  - intros c. rewrite Hc. pose proof (Hle c) as Hle'. rewrite held_cons in Hle'. lia.
  - exists f. split; [exact Hf|]. intros c. rewrite Hfc, Hc, held_cons. lia.
Qed.

Definition acquisition_ok (c : Config) (q : acquisition) : Prop :=
  match q with
  | Admission k limit _ => limit = limit_of c k
  | Bytes k limit n _ => limit = limit_of c k ∧ 0 ≤ n
  | Metric k n => k = TcpQueuedBytes ∧ 0 ≤ n
  end.

Lemma acquired_nonneg c q : acquisition_ok c q → 0 ≤ (acquired q).2.
Proof. destruct q; cbn; lia. Qed.

Lemma try_acquire_spec q r r' :
  config_ok (cfg r) → counters_ok r → acquisition_ok (cfg r) q → try_acquire q r = Some r' →
  ∃ f, r' = with_counters f r ∧ counters_ok r' ∧ ∀ c, f c = counters r c + held c [acquired q].
Proof.
  intros Hcfg Hok Hq H.
  assert (Hset : ∀ k n, 0 ≤ n → counters r k + n ≤ limit_of (cfg r) k → r' = set_counter k (counters r k + n) r → acquired q = (k, n) →
    ∃ f, r' = with_counters f r ∧ counters_ok r' ∧ ∀ c, f c = counters r c + held c [acquired q]).
  { intros k n Hn Hl -> Ha. eexists. split; [reflexivity|]. split.
    - intros c. cbn. pose proof (Hok c). pose proof (Hok k). destruct (decide (c = k)) as [->|]; lia.
    - intros c. rewrite Ha, held_cons. cbn. change (held c []) with 0. destruct (decide (c = k)) as [->|].
      + rewrite decide_True by done. lia.
      + rewrite decide_False by done. lia. }
  destruct Hcfg as [Hl _]. destruct q as [k limit e|k limit n e|k n]; cbn in Hq, H.
  - unfold admission_try_acquire in H. destruct (Z.ltb_spec (counters r k) limit); [|done]. injection H as <-.
    apply (Hset k 1); [lia|lia|done|done].
  - destruct Hq as [-> Hn]. unfold byte_try_acquire, checked_add in H. destruct (Z.leb_spec (counters r k + n) usize_max); [|done].
    destruct (Z.leb_spec (counters r k + n) (limit_of (cfg r) k)); [|done]. injection H as <-. by apply (Hset k n).
  - destruct Hq as [-> Hn]. unfold byte_try_acquire, checked_add in H.
    destruct (Z.leb_spec (counters r TcpQueuedBytes + n) usize_max) as [Hle|]; [|done].
    rewrite (proj2 (Z.leb_le _ _) Hle) in H. injection H as <-. by apply (Hset TcpQueuedBytes n).
Qed.

(** A reservation that the metric has no room for panics. *)
Lemma acquire_all_spec qs taken r0 g :
  config_ok (cfg r0) → counters_ok (with_counters g r0) → Forall (acquisition_ok (cfg r0)) qs →
  Forall (λ p : permit, 0 ≤ p.2) taken → counters_ok r0 → (∀ c, g c = counters r0 c + held c taken) →
  wpx (usize_max < counters r0 TcpQueuedBytes + held TcpQueuedBytes (taken ++ map acquired qs)) (acquire_all qs taken)
    (λ _ r', ∃ f, r' = with_counters f r0 ∧ counters_ok r' ∧ ∀ c, f c = counters r0 c + held c (taken ++ map acquired qs))
    (λ _ r', ∃ f, r' = with_counters f r0 ∧ ∀ c, f c = counters r0 c) (with_counters g r0).
Proof.
  revert taken g. induction qs as [|q qs IH]; intros taken g Hcfg Hg Hqs Htk Hok Hval; cbn [acquire_all map].
  { exists g. rewrite app_nil_r. done. }
  apply Forall_cons in Hqs as [Hq Hqs]. unfold wpx. destruct (try_acquire q (with_counters g r0)) as [r'|] eqn:Ht.
  - apply try_acquire_spec in Ht as (f & Hr' & Hok' & Hf); [|done..].
    change (with_counters f (with_counters g r0)) with (with_counters f r0) in Hr'. subst r'.
    assert (Hf' : ∀ c, f c = counters r0 c + held c (taken ++ [acquired q])).
    { intros c. rewrite Hf, held_app. cbn. rewrite Hval. lia. }
    specialize (IH (taken ++ [acquired q]) f Hcfg Hok' Hqs). rewrite <-app_assoc in IH. cbn [app] in IH. apply IH; try done.
    apply Forall_app. split; [done|]. constructor; [by eapply acquired_nonneg|done].
  - assert (Hdrop : ∃ f, drop_permits taken (with_counters g r0) = with_counters f r0 ∧ ∀ c, f c = counters r0 c).
    { destruct (drop_permits_spec taken (with_counters g r0)) as (f & Hf & Hfc); [done..| |].
      - intros c. cbn. rewrite Hval. pose proof (Hok c). lia.
      - exists f. split; [done|]. intros c. rewrite Hfc. cbn. rewrite Hval. lia. }
    destruct q; [exact Hdrop|exact Hdrop|]. destruct Hq as [-> Hn]. cbn in Ht. unfold byte_try_acquire, checked_add in Ht.
    cbn in Ht. rewrite Hval in Ht. rewrite held_app, held_cons, decide_True by done. cbn [acquired snd].
    assert (0 ≤ held TcpQueuedBytes (map acquired qs)).
    { apply held_nonneg, Forall_map. eapply Forall_impl; [exact Hqs|]. intros x Hx. by eapply acquired_nonneg. }
    destruct (Z.leb_spec (counters r0 TcpQueuedBytes + held TcpQueuedBytes taken + bytes) usize_max) as [Hle|]; [|lia].
    by rewrite (proj2 (Z.leb_le _ _) Hle) in Ht.
Qed.

(** ** The invariant of the registry *)

Definition results : Type := list (nat * Completion).

Definition connect_ok (cm : results) (a : nat) (s : TcpConnectInner) : Prop :=
  Forall (λ p : permit, 0 ≤ p.2) (connect_permits s) ∧
  if con_terminal s then
    a ∈ (cm.*1) ∧ (∀ c, con_completion s = Some c → (a, c) ∈ cm) ∧ connect_permits s = [] ∧
    (if con_callback s then is_Some (con_completion s) ∧ con_callback_permit s = true ∧ (delivery_ready s = true → con_callback_active s = false)
     else con_callback_permit s = false)
  else ¬ (a ∈ cm.*1) ∧ con_completion s = None ∧ delivery_ready s = false ∧ con_callback_permit s = con_callback s.

Definition object_ok (cm : results) (a : nat) (o : object) : Prop :=
  match o with
  | ORequest _ s =>
      if terminal s then
        a ∈ (cm.*1) ∧ (∀ c, completion s = Some c → (a, c) ∈ cm) ∧
        (if callback s then is_Some (completion s) ∧ inflight_permit s = true ∧ callback_permit s = true ∧ callback_active s = false
         else inflight_permit s = false ∧ callback_permit s = false)
      else ¬ (a ∈ cm.*1) ∧ completion s = None ∧ inflight_permit s = true ∧ callback_permit s = callback s
  | OResolve _ s =>
      match res_completion s with
      | Some c =>
          (a, c) ∈ cm ∧
          (if res_callback s then res_inflight_permit s = true ∧ res_callback_permit s = true ∧ res_callback_active s = false
           else res_inflight_permit s = false ∧ res_callback_permit s = false)
      | None => ¬ (a ∈ cm.*1) ∧ res_inflight_permit s = true ∧ res_callback_permit s = res_callback s
      end
  | OStream _ s =>
      Forall (λ p : permit, 0 ≤ p.2) (stream_permits (permits s)) ∧ if control_terminal s then a ∈ (cm.*1) else ¬ (a ∈ cm.*1)
  | OConnect _ sw rw s =>
      connect_ok cm a s ∧ 0 < sw ∧ 0 < rw ∧
      (con_terminal s = false → occupancy_permit s = true ∧ is_Some (queued_bytes_permit s) ∧ is_Some (metric_bytes_permit s))
  | OTls _ sw rw up s => connect_ok cm a s ∧ (up = false → 0 < sw ∧ 0 < rw)
  | OLive _ s => ¬ (a ∈ cm.*1) ∧ Forall (λ p : permit, 0 ≤ p.2) (reserve s) ∧ (session_released s = true → reserve s = [])
  | OEvent _ _ => ¬ (a ∈ cm.*1)
  end.

(** The state registered under [id] in table [t]. *)
Definition entry_ok (t : table) (id : Z) (o : object) : Prop :=
  match t, o with
  | TRequests, ORequest id' _ | TStreams, OStream id' _ | TResolutions, OResolve id' _ | TLive, OLive id' _ => id' = id
  | TConnects, OConnect id' _ _ s | TTls, OTls id' _ _ _ s => id' = id ∧ con_terminal s = false
  | _, _ => False
  end.

(** A job keeps its operation's callback permit until the callback returned. *)
Definition permits_ok (ps : list permit) : Prop := Forall (λ p : permit, 0 ≤ p.2) ps ∧ (CallbackInflight, 1) ∈ ps.
Definition job_ok (cm : results) (j : CallbackJob) : Prop :=
  permits_ok (job_permits j) ∧ match job_of j with Some x => x ∈ cm | None => True end.

(** The identities in use are below the next one, and one that is still
    connecting is neither live nor in a TLS handshake. *)
Definition ids_ok (T : table → gmap Z nat) (next : Z) : Prop :=
  (∀ t id a, T t !! id = Some a → id < next) ∧
  ∀ id, is_Some (T TConnects !! id) → T TLive !! id = None ∧ T TTls !! id = None.

Lemma ids_ok_shrink (T T' : table → gmap Z nat) n n' :
  (∀ t id b, T' t !! id = Some b → T t !! id = Some b) → n ≤ n' → ids_ok T n → ids_ok T' n'.
Proof.
  intros Hsub Hn [Hlt Hdis]. split; [intros t id a Ha; apply Hsub, Hlt in Ha; lia|].
  intros id [a Ha]. destruct (Hdis id) as [Hl Ht]; [eexists; eauto|].
  split; apply eq_None_not_Some; intros [b Hb]; apply Hsub in Hb; congruence.
Qed.

Record RI (r : Registry) : Prop := {
  ri_config : config_ok (cfg r);
  ri_counters : counters_ok r;
  ri_objects : ∀ a o, heap r !! a = Some o → object_ok (committed r) a o;
  ri_tables : ∀ t id a, tables r t !! id = Some a → ∃ o, heap r !! a = Some o ∧ entry_ok t id o;
  ri_ids : ids_ok (tables r) (next_sequence r);
  ri_nodup : NoDup (committed r).*1;
  ri_addresses : ∀ a, a ∈ (committed r).*1 → (a < length (heap r))%nat;
  ri_jobs : Forall (job_ok (committed r)) (jobs (domain r));
  ri_ran : ∀ x, x ∈ ran (domain r) → x ∈ committed r;
  ri_callbacks : NoDup (with_callback r) ∧ ∀ a, a ∈ with_callback r → (a < length (heap r))%nat;
  ri_lost : sealed (domain r) = false → lost (domain r) = []
}.

Definition same_kind (o o' : object) : Prop :=
  match o, o' with
  | ORequest id _, ORequest id' _ | OResolve id _, OResolve id' _ | OLive id _, OLive id' _ | OEvent id _, OEvent id' _ => id' = id
  | OStream id s, OStream id' s' => id' = id ∧ (control_terminal s = true → control_terminal s' = true)
  | OConnect id sw rw s, OConnect id' sw' rw' s' => id' = id ∧ sw' = sw ∧ rw' = rw ∧ (dns_borrow s = false → dns_borrow s' = false)
  | OTls id sw rw up s, OTls id' sw' rw' up' s' =>
      id' = id ∧ sw' = sw ∧ rw' = rw ∧ up' = up ∧ (dns_borrow s = false → dns_borrow s' = false)
  | _, _ => False
  end.

Lemma same_kind_refl o : same_kind o o.
Proof. by destruct o. Qed.
Lemma same_kind_trans o1 o2 o3 : same_kind o1 o2 → same_kind o2 o3 → same_kind o1 o3.
Proof. destruct o1, o2; try done; destruct o3; try done; cbn; intuition congruence. Qed.

(** What a region may do to what a thread has seen. *)
Record evolves (r r' : Registry) : Prop := {
  ev_cfg : cfg r' = cfg r;
  ev_heap : ∀ a o, heap r !! a = Some o → ∃ o', heap r' !! a = Some o' ∧ same_kind o o';
  ev_committed : ∀ x, x ∈ committed r → x ∈ committed r'
}.

#[global] Instance evolves_preorder : PreOrder evolves.
Proof.
  split.
  - intros r. split; [done| |done]. intros a o Ha. exists o. by split; [|apply same_kind_refl].
  - intros r1 r2 r3 [Hc1 Hh1 Hm1] [Hc2 Hh2 Hm2]. split; [congruence| |auto]. intros a o Ha.
    destruct (Hh1 a o Ha) as (o2 & Ha2 & Hk2), (Hh2 a o2 Ha2) as (o3 & Ha3 & Hk3). exists o3. split; [done|]. by eapply same_kind_trans.
Qed.

Definition cont_ok (r : Registry) (c : cont) : Prop :=
  possible (heap r) c = true ∧
  match c with
  | Enqueue j | CallJob j => job_ok (committed r) j
  | PublishAll _ done => Forall (job_ok (committed r)) done
  | ReleasePermit p => 0 ≤ p.2
  | _ => True
  end.

Lemma job_ok_mono cm cm' j : (∀ x, x ∈ cm → x ∈ cm') → job_ok cm j → job_ok cm' j.
Proof. intros Hm [Hp Hj]. split; [done|]. destruct (job_of j); auto. Qed.

Lemma possible_mono r r' c : evolves r r' → possible (heap r) c = true → possible (heap r') c = true.
Proof.
  intros [_ Hh _].
  assert (Hone : ∀ a (P : object → bool), (∀ o o', same_kind o o' → P o = true → P o' = true) →
    match heap r !! a with Some o => P o | None => false end = true →
    match heap r' !! a with Some o => P o | None => false end = true).
  { intros a P HP. destruct (heap r !! a) as [o|] eqn:Ha; [|done]. intros H. destruct (Hh a o Ha) as (o' & -> & Hk). eauto. }
  destruct c; cbn [possible]; try done; intros H;
    try (match type of H with (match heap r !! ?a with _ => _ end) = _ => idtac end;
         match type of H with
         | context [heap r !! ?a] =>
             match goal with |- ?G => revert H; first
               [ refine (Hone a (λ o, match o with ORequest _ _ => true | _ => false end) _)
               | refine (Hone a (λ o, match o with OResolve _ _ => true | _ => false end) _)
               | refine (Hone a (λ o, match o with OConnect _ _ _ _ => true | _ => false end) _)
               | refine (Hone a (λ o, match o with OTls _ _ _ _ _ => true | _ => false end) _)
               | refine (Hone a (λ o, match o with OConnect _ _ _ s => negb (dns_borrow s) | _ => false end) _)
               | refine (Hone a (λ o, match o with OTls _ _ _ _ s => negb (dns_borrow s) | _ => false end) _)
               | refine (Hone a (λ o, match o with OStream _ _ => true | _ => false end) _)
               | refine (Hone a (λ o, match o with OStream _ s => control_terminal s | _ => false end) _)
               | refine (Hone a (λ o, match o with OLive _ _ => true | _ => false end) _)
               | refine (Hone a (λ o, match o with OConnect _ _ _ _ | OTls _ _ _ _ _ => true | _ => false end) _)
               | refine (Hone a (λ o, match o with ORequest _ _ | OResolve _ _ | OConnect _ _ _ _ | OTls _ _ _ _ _ => true | _ => false end) _) ]
             end
         end; intros [] []; cbn; rewrite ?negb_true_iff; try done; tauto).
  rewrite forallb_forall in *. intros a Ha. specialize (H a Ha). revert H.
  refine (Hone a (λ o, match o with OConnect _ _ _ _ => true | _ => false end) _). by intros [] [].
Qed.

(** ** Enough is counted *)

Lemma weight_nonneg_permits c ps : Forall (λ p : permit, 0 ≤ p.2) ps → 0 ≤ weight (KCounter c) (permit_res ps).
Proof. rewrite weight_permits. apply held_nonneg. Qed.

Lemma weight_callback_res c b a : weight (KCounter c) (callback_res b a) = 0.
Proof. by destruct b. Qed.

Lemma weight_activate_res c b a : weight (KCounter c) (activate_res b a) = 0.
Proof. by destruct b. Qed.

Lemma if_held_nonneg b c : Forall (λ p : permit, 0 ≤ p.2) (if_held b c).
Proof. destruct b; repeat constructor; cbn; lia. Qed.

Lemma object_res_nonneg cm a o c : object_ok cm a o → 0 ≤ weight (KCounter c) (object_res a o).
Proof.
  assert (Hconnect : ∀ s, connect_ok cm a s → 0 ≤ weight (KCounter c) (connect_res a s)).
  { intros s [Hp _]. unfold connect_res. rewrite !weight_app, weight_callback_res, weight_activate_res.
    pose proof (weight_nonneg_permits c _ Hp). pose proof (weight_nonneg_permits c _ (if_held_nonneg (con_callback_permit s) CallbackInflight)).
    destruct (_ && _); [change (weight (KCounter c) [(KPublish a, -1)]) with 0|change (weight (KCounter c) []) with 0]; lia. }
  destruct o; cbn [object_ok object_res]; unfold object_res; intros Hok.
  - rewrite !weight_app, weight_callback_res, weight_activate_res. pose proof (weight_nonneg_permits c _ (if_held_nonneg (inflight_permit s) Inflight)).
    pose proof (weight_nonneg_permits c _ (if_held_nonneg (callback_permit s) CallbackInflight)). lia.
  - rewrite !weight_app, weight_callback_res, weight_activate_res. pose proof (weight_nonneg_permits c _ (if_held_nonneg (res_inflight_permit s) ResolutionInflight)).
    pose proof (weight_nonneg_permits c _ (if_held_nonneg (res_callback_permit s) CallbackInflight)). lia.
  - apply weight_nonneg_permits, Hok.
  - apply Hconnect, Hok.
  - apply Hconnect, Hok.
  - apply weight_nonneg_permits, Hok.
  - apply weight_nonneg_permits, if_held_nonneg.
Qed.

Lemma job_res_nonneg cm j c : job_ok cm j → 0 ≤ weight (KCounter c) (job_res j).
Proof.
  intros [[Hp _] _]. unfold job_res. rewrite weight_app. pose proof (weight_nonneg_permits c _ Hp).
  destruct (job_of j) as [[]|]; [change (weight (KCounter c) [(KCallback n, 1)]) with 0|change (weight (KCounter c) []) with 0]; lia.
Qed.

Lemma jobs_res_nonneg cm js c : Forall (job_ok cm) js → 0 ≤ weight (KCounter c) (jobs_res js).
Proof.
  induction 1 as [|j js Hj _ IH]; [done|]. unfold jobs_res in *. cbn [map concat]. rewrite weight_app.
  pose proof (job_res_nonneg _ _ c Hj). lia.
Qed.

Lemma heap_res_nonneg k (h : list object) :
  (∀ a o, h !! a = Some o → 0 ≤ weight k (object_res a o)) → 0 ≤ weight k (heap_res h).
Proof.
  induction h as [|o h IH] using rev_ind; intros H; [done|]. rewrite heap_res_snoc, weight_app.
  assert (0 ≤ weight k (object_res (length h) o)) by (apply H; by rewrite lookup_app_r, Nat.sub_diag by done).
  assert (0 ≤ weight k (heap_res h)); [|lia]. apply IH. intros a x Ha. apply H. by apply lookup_app_l_Some.
Qed.

(** The permits of an object, and those owed to the thread, are counted. *)
Lemma object_counted r a o c :
  RI r → heap r !! a = Some o → weight (KCounter c) (object_res a o) + owed r (KCounter c) ≤ counters r c.
Proof.
  intros [] Ha. unfold owed. cbn [value]. pose proof (jobs_res_nonneg _ _ c ri_jobs0).
  assert (Hge : weight (KCounter c) (object_res a o) ≤ weight (KCounter c) (heap_res (heap r))).
  { pose proof (heap_res_update (KCounter c) (heap r) a o (OEvent 0 false) Ha) as Hu.
    change (weight (KCounter c) (object_res a (OEvent 0 false))) with 0 in Hu.
    assert (0 ≤ weight (KCounter c) (heap_res (<[a:=OEvent 0 false]> (heap r)))); [|lia].
    apply heap_res_nonneg. intros b x Hb. destruct (decide (b = a)) as [->|Hne].
    - rewrite list_lookup_insert_eq in Hb by by eapply lookup_lt_Some. by injection Hb as <-.
    - rewrite list_lookup_insert_ne in Hb by done. by eapply object_res_nonneg, ri_objects0. }
  lia.
Qed.

(** ** One region

    [moved r res r']: the region kept the invariant and handed the resources
    [res] to its thread. *)

Record moved (r : Registry) (res : list resource) (r' : Registry) : Prop := {
  mv_ri : RI r';
  mv_evolves : evolves r r';
  mv_owed : ∀ k, owed r' k = owed r k + weight k res
}.

Lemma moved_refl r : RI r → moved r [] r.
Proof. intros. split; [done|reflexivity|]. intros k. rewrite weight_nil. lia. Qed.

Lemma moved_trans r x r' y r'' : moved r x r' → moved r' y r'' → moved r (x ++ y) r''.
Proof.
  intros [] []. split; [done|by etrans|]. intros k. rewrite weight_app, mv_owed1, mv_owed0. lia.
Qed.

Lemma elem_snoc_addresses (cm : results) a c b : b ∈ (cm ++ [(a, c)]).*1 ↔ b ∈ cm.*1 ∨ b = a.
Proof. rewrite fmap_app, elem_of_app. cbn. by rewrite list_elem_of_singleton. Qed.

(** Another object's result does not concern this one. *)
Lemma object_ok_grow cm a c b o : b ≠ a → object_ok cm b o → object_ok (cm ++ [(a, c)]) b o.
Proof.
  intros Hne.
  assert (Hin : b ∈ cm.*1 → b ∈ (cm ++ [(a, c)]).*1) by (intros; apply elem_snoc_addresses; by left).
  assert (Hnot : ¬ (b ∈ cm.*1) → ¬ (b ∈ (cm ++ [(a, c)]).*1)) by (intros ? [?|?]%elem_snoc_addresses; done).
  assert (Hel : ∀ x, x ∈ cm → x ∈ cm ++ [(a, c)]) by (intros; apply elem_of_app; by left).
  assert (Hconnect : ∀ s, connect_ok cm b s → connect_ok (cm ++ [(a, c)]) b s).
  { intros s [Hp Hs]. split; [done|]. destruct (con_terminal s); intuition. }
  destruct o; cbn; try (intuition; fail).
  - destruct (terminal s); intuition.
  - destruct (res_completion s); intuition.
  - destruct (control_terminal s); intuition.
Qed.

Lemma entry_same_kind t id o o' :
  same_kind o o' → (∀ s, connect_parts o' = Some s → con_terminal s.2 = false) → entry_ok t id o → entry_ok t id o'.
Proof.
  destruct t, o, o'; cbn; try done; intros Hk Hc; try (intuition congruence);
    specialize (Hc _ eq_refl); cbn in Hc; intuition congruence.
Qed.

(** The object at [a] becomes [o'], the permits [ps] are dropped and the
    resources [res] go to the thread; the result of [a] may be committed, and
    table entries removed. *)
Lemma change_counted r r1 a o o' ps res :
  RI r → heap r !! a = Some o → heap r1 = <[a := o']> (heap r) → same_kind o o' →
  (committed r1 = committed r ∨ ∃ c, committed r1 = committed r ++ [(a, c)] ∧ ¬ (a ∈ (committed r).*1)) →
  object_ok (committed r1) a o' →
  (∀ t id b, tables r1 t !! id = Some b → tables r t !! id = Some b ∧ (b = a → entry_ok t id o')) →
  cfg r1 = cfg r → next_sequence r1 = next_sequence r → counters r1 = counters r → domain r1 = domain r →
  callback_activations r1 = callback_activations r → with_callback r1 = with_callback r →
  Forall (λ p : permit, 0 ≤ p.2) ps → (∀ c, held c ps ≤ counters r c) →
  (∀ k, weight k (object_res a o) = weight k (object_res a o') + weight k (permit_res ps) + weight k res) →
  moved r res (drop_permits ps r1).
Proof.
  intros Hri Ha Hheap Hk Hcm Hok Htab Hcfg Hseq Hcnt Hdom Hact Hwc Hps Hheld Hw.
  destruct (drop_permits_spec ps r1) as (f & -> & Hf).
  { rewrite Hcfg. apply Hri. }
  { intros c. rewrite Hcnt, Hcfg. apply Hri. }
  { done. }
  { intros c. rewrite Hcnt. apply Hheld. }
  assert (Hsub : ∀ x, x ∈ committed r → x ∈ committed r1).
  { intros x Hx. destruct Hcm as [->|(c & -> & _)]; [done|]. apply elem_of_app. by left. }
  assert (Hlook : ∀ b, b ≠ a → heap r1 !! b = heap r !! b) by (intros; by rewrite Hheap, list_lookup_insert_ne).
  assert (Hself : heap r1 !! a = Some o') by (rewrite Hheap; apply list_lookup_insert_eq; by eapply lookup_lt_Some).
  split.
  - destruct Hri. split; cbn [cfg counters heap committed tables next_sequence domain with_counters]; rewrite ?Hcfg, ?Hdom; try done.
    + intros c. cbn [counters cfg with_counters]. rewrite Hf, Hcnt, Hcfg. pose proof (Hheld c). pose proof (ri_counters0 c).
      pose proof (held_nonneg c ps Hps). lia.
    + intros b x Hb. destruct (decide (b = a)) as [->|Hne]; [rewrite Hself in Hb; by injection Hb as <-|].
      rewrite Hlook in Hb by done. destruct Hcm as [->|(c & -> & _)]; [auto|]. apply object_ok_grow; auto.
    + intros t id b Hb. destruct (Htab t id b Hb) as [Hold He]. destruct (decide (b = a)) as [->|Hne].
      * exists o'. auto.
      * rewrite Hlook by done. eauto.
    + rewrite Hseq. eapply ids_ok_shrink; [|reflexivity|exact ri_ids0]. intros t id b Hb. by apply Htab.
    + destruct Hcm as [->|(c & -> & Hnew)]; [done|]. rewrite fmap_app. cbn. apply NoDup_app. split_and!; [done| |by apply NoDup_singleton].
      intros x Hx ->%list_elem_of_singleton. done.
    + rewrite Hheap, length_insert. intros b Hb. destruct Hcm as [Hcm|(c & Hcm & _)]; rewrite Hcm in Hb; [auto|].
      apply elem_snoc_addresses in Hb as [Hb| ->]; [auto|by eapply lookup_lt_Some].
    + eapply Forall_impl; [exact ri_jobs0|]. intros j. by apply job_ok_mono.
    + auto.
    + cbn [with_callback with_counters]. by rewrite Hwc, Hheap, length_insert.
  - split; cbn [cfg heap committed with_counters]; [done| |done]. intros b x Hb. destruct (decide (b = a)) as [->|Hne].
    + rewrite Ha in Hb. injection Hb as <-. by exists o'.
    + rewrite Hlook by done. exists x. by split; [|apply same_kind_refl].
  - intros k. unfold owed. cbn [heap domain with_counters]. rewrite Hheap, Hdom, (heap_res_update k _ _ _ o' Ha), (Hw k), weight_permits.
    destruct k; cbn [value with_counters counters domain callback_activations with_callback]; rewrite ?Hf, ?Hcnt, ?Hdom, ?Hact, ?Hwc; lia.
Qed.

Lemma change r r1 a o o' ps res :
  RI r → (∀ k, 0 ≤ owed r k) → heap r !! a = Some o → heap r1 = <[a := o']> (heap r) → same_kind o o' →
  (committed r1 = committed r ∨ ∃ c, committed r1 = committed r ++ [(a, c)] ∧ ¬ (a ∈ (committed r).*1)) →
  object_ok (committed r1) a o' →
  (∀ t id b, tables r1 t !! id = Some b → tables r t !! id = Some b ∧ (b = a → entry_ok t id o')) →
  cfg r1 = cfg r → next_sequence r1 = next_sequence r → counters r1 = counters r → domain r1 = domain r →
  callback_activations r1 = callback_activations r → with_callback r1 = with_callback r →
  Forall (λ p : permit, 0 ≤ p.2) ps → (∀ c, 0 ≤ weight (KCounter c) res) →
  (∀ k, weight k (object_res a o) = weight k (object_res a o') + weight k (permit_res ps) + weight k res) →
  moved r res (drop_permits ps r1).
Proof.
  intros Hri Howed Ha Hheap Hk Hcm Hok Htab Hcfg Hseq Hcnt Hdom Hact Hwc Hps Hres Hw.
  eapply change_counted; try eassumption. intros c. pose proof (object_counted r a o c Hri Ha). pose proof (Hw (KCounter c)) as Hwc'.
  pose proof (object_res_nonneg _ _ _ c Hok). specialize (Hres c). specialize (Howed (KCounter c)).
  change (weight (KCounter c) (permit_res ps)) with (held c ps) in Hwc'. lia.
Qed.

Definition opt_job_ok (cm : results) (job : option CallbackJob) : Prop := match job with Some j => job_ok cm j | None => True end.

Lemma one_nonneg (c : counter) : 0 ≤ (c, 1).2.
Proof. cbn. lia. Qed.

Lemma tables_same r (o : object) a :
  RI r → heap r !! a = Some o → ∀ o', same_kind o o' → (∀ s, connect_parts o' = Some s → con_terminal s.2 = false) →
  ∀ t id b, tables r t !! id = Some b → tables r t !! id = Some b ∧ (b = a → entry_ok t id o').
Proof.
  intros Hri Ha o' Hk Hc t id b Hb. split; [done|]. intros ->. destruct (ri_tables _ Hri _ _ _ Hb) as (x & Hx & He).
  rewrite Ha in Hx. injection Hx as <-. by eapply entry_same_kind.
Qed.

(** [change] without drops. *)
Lemma change_kept r r1 a o o' res :
  RI r → (∀ k, 0 ≤ owed r k) → heap r !! a = Some o → heap r1 = <[a := o']> (heap r) → same_kind o o' →
  (committed r1 = committed r ∨ ∃ c, committed r1 = committed r ++ [(a, c)] ∧ ¬ (a ∈ (committed r).*1)) →
  object_ok (committed r1) a o' →
  (∀ t id b, tables r1 t !! id = Some b → tables r t !! id = Some b ∧ (b = a → entry_ok t id o')) →
  cfg r1 = cfg r → next_sequence r1 = next_sequence r → counters r1 = counters r → domain r1 = domain r →
  callback_activations r1 = callback_activations r → with_callback r1 = with_callback r →
  (∀ c, 0 ≤ weight (KCounter c) res) →
  (∀ k, weight k (object_res a o) = weight k (object_res a o') + weight k res) →
  moved r res r1.
Proof.
  intros ?????????????? Hres Hw. apply (change r r1 a o o' []); try done. intros k. rewrite Hw. change (permit_res []) with (@nil resource).
  rewrite weight_nil. lia.
Qed.

Lemma job_res_counter_nonneg c job cm : opt_job_ok cm job → 0 ≤ weight (KCounter c) (job_resources job).
Proof. destruct job; [apply job_res_nonneg|done]. Qed.

(** [change] for a region whose final state is in the goal: the side
    conditions that are left are those on the object, the tables and the
    permits. *)
(** No resource of a job, and none at all, is a negative count. *)
Ltac nonneg_res := intros; first [done | eapply job_res_counter_nonneg; split; [by repeat constructor|cbn; first [done|eassumption]]].
Ltac same_tables :=
  try match goal with
  | Hri : RI ?r, Ha : heap ?r !! ?a = Some ?o |- context [entry_ok] => solve [refine (tables_same r o a Hri Ha _ _ _); done]
  end.
(** The new object satisfies its invariant. *)
Ltac new_object :=
  try (cbn; repeat (split; [solve [done | by intros ? [= <-] | by eexists | by repeat constructor]|]);
       solve [done | by intros ? [= <-] | by eexists | by repeat constructor]).
Ltac by_change c :=
  lazymatch goal with
  | |- moved _ _ (drop_permits _ _) =>
      eapply change; [eassumption|eassumption|eassumption|reflexivity|try done|first [by left|right; exists c; by split]|new_object|same_tables
        |reflexivity|reflexivity|reflexivity|reflexivity|reflexivity|reflexivity|by repeat constructor|try nonneg_res|intros; weights]
  | |- moved _ _ _ =>
      eapply change_kept; [eassumption|eassumption|eassumption|reflexivity|try done|first [by left|right; exists c; by split]|new_object|same_tables
        |reflexivity|reflexivity|reflexivity|reflexivity|reflexivity|reflexivity|try nonneg_res|intros; weights]
  end.

Lemma commit_spec r a id s c :
  RI r → (∀ k, 0 ≤ owed r k) → heap r !! a = Some (ORequest id s) →
  wp (commit a c)
    (λ '(won, job) r', moved r (job_resources job) r' ∧ opt_job_ok (committed r') job ∧ (won = false → job = None)) (λ _ _, False) r.
Proof.
  intros Hri Howed Ha. pose proof (ri_objects _ Hri _ _ Ha) as Hok. cbn in Hok. unfold commit. wp_go. rewrite Ha.
  destruct s as [comp term cb act inf cbp]; cbn in *. destruct term; [wp_go; split_and!; [by apply moved_refl|done|done]|].
  destruct Hok as (Hnew & -> & -> & ->).
  assert (Hin : a ∈ (committed r ++ [(a, c)]).*1) by (apply elem_snoc_addresses; by right).
  assert (Hin' : (a, c) ∈ committed r ++ [(a, c)]) by (apply elem_of_app; right; by apply list_elem_of_singleton).
  unfold take_terminal_job; cbn.
  destruct cb, act; cbn; wp_go; cbn; wp_go; split; [|split; [|done]| |split; [|done]| |split; [|done]| |split; [|done]]; try done.
  - by_change c.
  - split; [by repeat constructor|done].
  - by_change c.
  - by_change c.
  - by_change c.
Qed.

Lemma resolve_commit_spec r a id s c :
  RI r → (∀ k, 0 ≤ owed r k) → heap r !! a = Some (OResolve id s) →
  wp (resolve_commit a c)
    (λ '(won, job) r', moved r (job_resources job) r' ∧ opt_job_ok (committed r') job ∧ (won = false → job = None)) (λ _ _, False) r.
Proof.
  intros Hri Howed Ha. pose proof (ri_objects _ Hri _ _ Ha) as Hok. cbn in Hok. unfold resolve_commit. wp_go. rewrite Ha.
  destruct s as [comp cb act inf cbp]; cbn in *. destruct comp as [old|].
  { rewrite bool_decide_eq_true_2 by done. wp_go; split_and!; [by apply moved_refl|done|done]. }
  rewrite bool_decide_eq_false_2 by (by intros []).
  destruct Hok as (Hnew & -> & ->).
  assert (Hin' : (a, c) ∈ committed r ++ [(a, c)]) by (apply elem_of_app; right; by apply list_elem_of_singleton).
  unfold take_resolve_job; cbn.
  destruct cb, act; cbn; wp_go; cbn; wp_go; split; [|split; [|done]| |split; [|done]| |split; [|done]| |split; [|done]]; try done.
  - by_change c.
  - split; [by repeat constructor|done].
  - by_change c.
  - by_change c.
  - by_change c.
Qed.

Lemma table_remove_drop t id ps r : table_remove t id (drop_permits ps r) = drop_permits ps (table_remove t id r).
Proof. revert r. induction ps as [|p ps IH]; intros r; [done|]. unfold drop_permits in *. cbn [foldl]. by rewrite IH. Qed.

Lemma table_remove_lookup t id r t' id' b :
  tables (table_remove t id r) t' !! id' = Some b → tables r t' !! id' = Some b ∧ (t' = t → id' ≠ id).
Proof.
  unfold table_remove, set_table. cbn. destruct (decide (t' = t)) as [->|Hne]; [|done].
  intros [Hne Hb]%lookup_delete_Some. done.
Qed.

(** A connect of the kind of table [t]. *)
Definition connect_table (t : table) (o : object) : Prop :=
  match t, o with TConnects, OConnect _ _ _ _ | TTls, OTls _ _ _ _ _ => True | _, _ => False end.

Lemma registered_inv t a r id :
  RI r → registered t a r = Some id → t = TConnects ∨ t = TTls →
  ∃ o s, heap r !! a = Some o ∧ connect_parts o = Some (id, s) ∧ con_terminal s = false ∧ connect_table t o ∧ tables r t !! id = Some a.
Proof.
  intros Hri H Ht. unfold registered in H. destruct (heap r !! a) as [o|] eqn:Ha; [|done]. cbn in H.
  destruct (connect_parts o) as [[id' s]|] eqn:Hp; [|done]. cbn in H.
  destruct (bool_decide_reflect (tables r t !! id' = Some a)) as [Hreg|]; [|done]. injection H as ->.
  destruct (ri_tables _ Hri _ _ _ Hreg) as (x & Hx & He). rewrite Ha in Hx. injection Hx as <-. exists o, s.
  destruct Ht as [-> | ->]; destruct o; try done; cbn in Hp, He; injection Hp as <- <-; by destruct He.
Qed.

Lemma connect_res_of a o id s : connect_parts o = Some (id, s) → object_res a o = connect_res a s.
Proof. by destruct o; intros [= <- <-]. Qed.
Lemma connect_ok_of cm a o id s : connect_parts o = Some (id, s) → object_ok cm a o → connect_ok cm a s.
Proof. destruct o; intros [= <- <-]; cbn; tauto. Qed.
Lemma with_inner_parts o id s s' : connect_parts o = Some (id, s) → connect_parts (with_inner s' o) = Some (id, s').
Proof. by destruct o; intros [= <- <-]. Qed.
Lemma with_inner_kind o id s s' :
  connect_parts o = Some (id, s) → (dns_borrow s = false → dns_borrow s' = false) → same_kind o (with_inner s' o).
Proof. destruct o; intros [= <- <-]; cbn; tauto. Qed.
Lemma no_permits_dns s : connect_permits s = [] → dns_borrow s = false.
Proof. unfold connect_permits. destruct (dns_borrow s); [|done]. intros H. by destruct (occupancy_permit s), (queued_bytes_permit s), (metric_bytes_permit s). Qed.
(** A new inner state: the windows are as they were. *)
Lemma with_inner_ok cm cm' a o id s s' :
  connect_parts o = Some (id, s) → object_ok cm a o → connect_ok cm' a s' →
  (con_terminal s' = false → con_terminal s = false ∧ occupancy_permit s' = occupancy_permit s ∧
     queued_bytes_permit s' = queued_bytes_permit s ∧ metric_bytes_permit s' = metric_bytes_permit s) →
  object_ok cm' a (with_inner s' o).
Proof.
  destruct o; intros [= <- <-]; cbn; [|tauto]. intros (H1 & H2 & H3 & H4) Hc Hsame. split_and!; try done;
    intros Hf; destruct (Hsame Hf) as (? & -> & -> & ->); by apply H4.
Qed.

Lemma entry_connect t id o id' s :
  entry_ok t id o → connect_parts o = Some (id', s) → id' = id ∧ con_terminal s = false ∧ connect_table t o.
Proof. destruct t, o; cbn; try done; intros [? ?] [= <- <-]; done. Qed.
Lemma connect_table_unique t t' o : connect_table t o → connect_table t' o → t' = t.
Proof. destruct t, t', o; done. Qed.

(** A registered connect gets its result and leaves its table. *)
Lemma commit_registered r t a id o s s' c ps res :
  RI r → (∀ k, 0 ≤ owed r k) → heap r !! a = Some o → connect_parts o = Some (id, s) → con_terminal s = false → connect_table t o →
  con_terminal s' = true → connect_ok (committed r ++ [(a, c)]) a s' →
  Forall (λ p : permit, 0 ≤ p.2) ps → (∀ c, 0 ≤ weight (KCounter c) res) →
  (∀ k, weight k (connect_res a s) = weight k (connect_res a s') + weight k (permit_res ps) + weight k res) →
  moved r res (table_remove t id (drop_permits ps (update a (with_inner s' o) (log_commit a c r)))).
Proof.
  intros Hri Howed Ha Hp Hterm Ht Hterm' Hok' Hps Hres Hw. rewrite table_remove_drop. pose proof (ri_objects _ Hri _ _ Ha) as Hok.
  pose proof (connect_ok_of _ _ _ _ _ Hp Hok) as [_ Hs]. rewrite Hterm in Hs. destruct Hs as (Hnew & _).
  assert (Hdns : dns_borrow s' = false) by (destruct Hok' as [_ Hs']; rewrite Hterm' in Hs'; apply no_permits_dns; tauto).
  eapply change; [eassumption|eassumption|eassumption|reflexivity|by eapply with_inner_kind|right; by exists c|..|exact Hps|exact Hres|];
    try reflexivity.
  - eapply with_inner_ok; [done|done|done|congruence].
  - intros t' id' b [Hb Hne]%table_remove_lookup. cbn in Hb. split; [done|]. intros ->. exfalso.
    destruct (ri_tables _ Hri _ _ _ Hb) as (x & Hx & He). rewrite Ha in Hx. injection Hx as <-.
    destruct (entry_connect _ _ _ _ _ He Hp) as (-> & _ & Ht'). by apply (Hne (connect_table_unique _ _ _ Ht Ht')).
  - intros k. by rewrite (connect_res_of _ _ _ _ Hp), (connect_res_of _ _ _ _ (with_inner_parts _ _ _ s' Hp)).
Qed.

Lemma committed_here (cm : results) a c : a ∈ (cm ++ [(a, c)]).*1 ∧ (a, c) ∈ cm ++ [(a, c)].
Proof. split; [apply elem_snoc_addresses; by right|]. apply elem_of_app. right. by apply list_elem_of_singleton. Qed.

(** Completing a registered connect: its result is to be published. *)
Lemma complete_registered r t a id o s c :
  RI r → (∀ k, 0 ≤ owed r k) → heap r !! a = Some o → connect_parts o = Some (id, s) → con_terminal s = false →
  connect_table t o →
  moved r [(KPublish a, 1)]
    (table_remove t id (drop_permits (connect_permits s)
       (update a (with_inner (mkConnectInner (Some c) true (delivery_ready s) (con_callback s) (con_callback_active s)
          false None None false (con_callback_permit s)) o) (log_commit a c r)))).
Proof.
  intros Hri Howed Ha Hp Hterm Ht. pose proof (ri_objects _ Hri _ _ Ha) as Hok.
  pose proof (connect_ok_of _ _ _ _ _ Hp Hok) as [Hps Hs]. rewrite Hterm in Hs. destruct Hs as (Hnew & Hcomp & Hready & Hcbp).
  destruct (committed_here (committed r) a c). eapply commit_registered; try done.
  - split; [by constructor|]. cbn. split_and!; [done|by intros ? [= <-]|done|].
    rewrite Hcbp. destruct (con_callback s); [|done]. split_and!; [by eexists|done|]. congruence.
  - intros k. unfold connect_res. rewrite Hterm, Hready.
    cbn [connect_permits con_terminal delivery_ready andb negb occupancy_permit queued_bytes_permit metric_bytes_permit dns_borrow
         if_held bytes_held app con_callback_permit con_callback con_callback_active].
    rewrite !weight_app, !weight_cons, !weight_nil, amount_neg1. change (permit_res []) with (@nil resource). rewrite ?weight_nil. lia.
Qed.

Lemma complete_locked_spec t r a c :
  RI r → (∀ k, 0 ≤ owed r k) → t = TConnects ∨ t = TTls →
  wp (r ← get;
      match registered t a r with
      | None => mret false
      | Some id => won ← commit_terminal a c; if negb won then mret false else _ ← modify (table_remove t id); mret true
      end)
    (λ won r', moved r (if won : bool then [(KPublish a, 1)] else []) r' ∧ 
       (won = true → ∃ o, heap r' !! a = Some o ∧ connect_table t o)) (λ _ _, False) r.
Proof.
  intros Hri Howed Ht. wp_go. destruct (registered t a r) as [id|] eqn:Hreg; [|wp_go; split; [by apply moved_refl|done]].
  destruct (registered_inv _ _ _ _ Hri Hreg Ht) as (o & s & Ha & Hp & Hterm & Hk & Hin). wp_go.
  unfold commit_terminal. wp_go. rewrite Ha, Hp, Hterm. wp_go. cbn [negb]. wp_go.
  pose proof (complete_registered r t a id o s c Hri Howed Ha Hp Hterm Hk) as Hm. split; [done|]. intros _.
  destruct (ev_heap _ _ (mv_evolves _ _ _ Hm) a o Ha) as (o' & Ha' & Hkind). exists o'. split; [done|].
  destruct t, o, o'; done.
Qed.

Lemma owed_moved r res r' : (∀ k, 0 ≤ owed r k) → moved r res r' → (∀ k, 0 ≤ weight k res) → ∀ k, 0 ≤ owed r' k.
Proof. intros Ho [] Hw k. rewrite mv_owed0. specialize (Ho k). specialize (Hw k). lia. Qed.

Lemma publish_nonneg k a : 0 ≤ weight k [(KPublish a, 1)].
Proof. unfold weight, amount. cbn. destruct (decide _); lia. Qed.
Definition publish_res (l : list nat) : list resource := map (λ a, (KPublish a, 1)) l.
Lemma publish_res_nonneg k l : 0 ≤ weight k (publish_res l).
Proof.
  induction l as [|a l IH]; [done|]. change (publish_res (a :: l)) with ([(KPublish a, 1)] ++ publish_res l).
  rewrite weight_app. pose proof (publish_nonneg k a). lia.
Qed.

Lemma connect_table_kind t o o' : same_kind o o' → connect_table t o → connect_table t o'.
Proof. destruct t, o, o'; done. Qed.

Lemma complete_each_spec t (complete : nat → R bool) l r :
  (∀ a r, RI r → (∀ k, 0 ≤ owed r k) →
     wp (complete a) (λ won r', moved r (if won : bool then [(KPublish a, 1)] else []) r' ∧ 
       (won = true → ∃ o, heap r' !! a = Some o ∧ connect_table t o)) (λ _ _, False) r) →
  RI r → (∀ k, 0 ≤ owed r k) →
  wp (complete_each complete l)
    (λ won r', moved r (publish_res won) r' ∧ Forall (λ a, ∃ o, heap r' !! a = Some o ∧ connect_table t o) won) (λ _ _, False) r.
Proof.
  intros Hone. revert r. induction l as [|a l IH]; intros r Hri Howed; cbn [complete_each].
  { wp_go. split; [by apply moved_refl|done]. }
  wp_go. eapply wp_mono; [by apply Hone| |done]. intros won r1 [Hm1 Hk1]. wp_go.
  assert (Ho1 : ∀ k, 0 ≤ owed r1 k) by (eapply owed_moved; [done|done|destruct won; [intros; apply publish_nonneg|done]]).
  eapply wp_mono; [apply IH; [apply Hm1|done]| |done]. intros rest r2 [Hm2 Hk2]. wp_go. destruct won.
  - split; [by eapply (moved_trans _ [(KPublish a, 1)])|]. constructor; [|done].
    destruct (Hk1 eq_refl) as (o & Ha & Hk). destruct (ev_heap _ _ (mv_evolves _ _ _ Hm2) _ _ Ha) as (o' & Ha' & Hs).
    exists o'. split; [done|]. by eapply connect_table_kind.
  - split; [by eapply (moved_trans _ [])|done].
Qed.

(** ** Announcing a connect's result *)

Lemma amount_other k x : x.1 ≠ k → amount k x = 0.
Proof. intros. unfold amount. by rewrite decide_False. Qed.

Lemma amount_same k n : amount k (k, n) = n.
Proof. unfold amount. by rewrite decide_True. Qed.

(** Only the state at [a] is marked for its announcement and its
    activation. *)
Definition mark (k : key) (a : nat) : Prop := k = KPublish a ∨ k = KActivate a.

Lemma mark_permits k a ps : mark k a → weight k (permit_res ps) = 0.
Proof. rewrite weight_permits. by intros [-> | ->]. Qed.
Lemma mark_callback k a b c : mark k a → weight k (callback_res c b) = 0.
Proof. by destruct c; intros [-> | ->]. Qed.

Lemma marked_elsewhere k a b o : mark k a → b ≠ a → weight k (object_res b o) = 0.
Proof.
  intros Hk Hne.
  assert (Hact : ∀ c, weight k (activate_res c b) = 0).
  { intros []; [|done]. cbn. rewrite weight_cons, amount_other; [done|]. destruct Hk as [-> | ->]; cbn; congruence. }
  assert (Hc : ∀ s, weight k (connect_res b s) = 0).
  { intros s. unfold connect_res. rewrite !weight_app, !(mark_permits k a), (mark_callback k a), Hact by done. destruct (con_terminal s && _); [|done].
    rewrite weight_cons, amount_other; [done|]. destruct Hk as [-> | ->]; cbn; congruence. }
  destruct o; unfold object_res; rewrite ?weight_app, ?(mark_permits k a), ?(mark_callback k a), ?Hact by done; try done; apply Hc.
Qed.

Lemma marked_jobs k a js : mark k a → weight k (jobs_res js) = 0.
Proof.
  intros Hk. induction js as [|j js IH]; [done|]. unfold jobs_res in *. cbn [map concat]. rewrite weight_app, IH. unfold job_res.
  rewrite weight_app, (mark_permits k a) by done. destruct (job_of j) as [[]|]; [|done]. rewrite weight_cons, amount_other; [done|].
  by destruct Hk as [-> | ->].
Qed.

Lemma marked_heap k h a o : mark k a → h !! a = Some o → weight k (heap_res h) = weight k (object_res a o).
Proof.
  intros Hk Ha. pose proof (heap_res_update k h a o (OEvent 0 false) Ha) as Hu.
  change (weight k (object_res a (OEvent 0 false))) with 0 in Hu.
  assert (Hz : ∀ h' : list object, (∀ b x, h' !! b = Some x → b ≠ a ∨ x = OEvent 0 false) → weight k (heap_res h') = 0).
  { induction h' as [|x h' IH] using rev_ind; intros H; [done|]. rewrite heap_res_snoc, weight_app, IH.
    - destruct (H (length h') x) as [Hne| ->]; [by rewrite lookup_app_r, Nat.sub_diag by done|by rewrite (marked_elsewhere k a)|done].
    - intros b y Hb. apply H. by apply lookup_app_l_Some. }
  rewrite Hz in Hu; [lia|]. intros b x Hb. destruct (decide (b = a)) as [->|]; [right|by left].
  rewrite list_lookup_insert_eq in Hb by by eapply lookup_lt_Some. congruence.
Qed.

Lemma owed_marked k r a o : mark k a → heap r !! a = Some o → owed r k = - weight k (object_res a o).
Proof.
  intros Hk Ha. unfold owed. rewrite (marked_jobs k a), (marked_heap k _ _ _ Hk Ha) by done. destruct Hk as [-> | ->]; cbn [value]; lia.
Qed.

Lemma publish_weight a s :
  weight (KPublish a) (connect_res a s) = if con_terminal s && negb (delivery_ready s) then -1 else 0.
Proof.
  unfold connect_res. rewrite !weight_app, !(mark_permits _ a), (mark_callback _ a) by by left.
  replace (weight (KPublish a) (activate_res _ a)) with 0 by (by destruct (con_callback s && _)).
  destruct (con_terminal s && _); [|done]. by rewrite weight_cons, amount_same.
Qed.

Lemma activate_weight a b : weight (KActivate a) (activate_res b a) = if b then -1 else 0.
Proof. destruct b; [|done]. cbn. by rewrite weight_cons, amount_same. Qed.

(** Whether the callback's activation is still to come. *)
Definition inactive (o : object) : bool :=
  match o with
  | ORequest _ s => callback s && negb (callback_active s)
  | OResolve _ s => res_callback s && negb (res_callback_active s)
  | OConnect _ _ _ s | OTls _ _ _ _ s => con_callback s && negb (con_callback_active s)
  | _ => false
  end.

Lemma activate_marks a o : weight (KActivate a) (object_res a o) = if inactive o then -1 else 0.
Proof.
  assert (Hc : ∀ s, weight (KActivate a) (connect_res a s) = if con_callback s && negb (con_callback_active s) then -1 else 0).
  { intros s. unfold connect_res. rewrite !weight_app, !(mark_permits _ a), (mark_callback _ a), activate_weight by by right.
    replace (weight (KActivate a) (if con_terminal s && _ then _ else _)) with 0 by (by destruct (con_terminal s && _)). lia. }
  destruct o; unfold object_res; cbn [inactive]; rewrite ?weight_app, ?(mark_permits _ a), ?(mark_callback _ a), ?activate_weight by (by right); first [lia|apply Hc].
Qed.

(** A result owed to a thread for announcing is not announced yet, and a
    callback to be activated is not active. *)
Lemma owed_publish r a o id s :
  heap r !! a = Some o → connect_parts o = Some (id, s) → 1 ≤ owed r (KPublish a) →
  con_terminal s = true ∧ delivery_ready s = false.
Proof.
  intros Ha Hp Ho. rewrite (owed_marked _ r a o), (connect_res_of _ _ _ _ Hp), publish_weight in Ho by (done || by left).
  destruct (con_terminal s), (delivery_ready s); try done; cbn in Ho; lia.
Qed.
Lemma owed_activate r a o : heap r !! a = Some o → 1 ≤ owed r (KActivate a) → inactive o = true.
Proof.
  intros Ha Ho. rewrite (owed_marked _ r a o), activate_marks in Ho by (done || by right). by destruct (inactive o).
Qed.

Lemma terminal_unregistered r a o id s :
  RI r → heap r !! a = Some o → connect_parts o = Some (id, s) → con_terminal s = true →
  ∀ t id' b, tables r t !! id' = Some b → tables r t !! id' = Some b ∧ (b = a → ∀ o', entry_ok t id' o').
Proof.
  intros Hri Ha Hp Hterm t id' b Hb. split; [done|]. intros -> o'. destruct (ri_tables _ Hri _ _ _ Hb) as (x & Hx & He).
  rewrite Ha in Hx. injection Hx as <-. destruct (entry_connect _ _ _ _ _ He Hp) as (_ & Hf & _). congruence.
Qed.

(** The states of a connect with its callback job taken or not. *)
Lemma connect_job_spec r a o id s s1 res :
  RI r → (∀ k, 0 ≤ owed r k) → heap r !! a = Some o → connect_parts o = Some (id, s) → con_terminal s = true →
  con_terminal s1 = true → con_completion s1 = con_completion s → con_callback s1 = con_callback s →
  con_callback_permit s1 = con_callback_permit s → connect_permits s1 = connect_permits s →
  (delivery_ready s = true → con_callback s = true → con_callback_active s = false) →
  (∀ c, weight (KCounter c) res = 0) →
  (∀ k, weight k (activate_res (con_callback s && negb (con_callback_active s)) a)
        + weight k (if negb (delivery_ready s) then [(KPublish a, -1)] else []) =
        weight k (activate_res (con_callback s1 && negb (con_callback_active s1)) a)
        + weight k (if negb (delivery_ready s1) then [(KPublish a, -1)] else []) + weight k res) →
  owp (take_connect_job a id s1)
    (λ '(job, s'), moved r (res ++ job_resources job) (update a (with_inner s' o) r) ∧ opt_job_ok (committed r) job) (λ _, False).
Proof.
  intros Hri Howed Ha Hp Hterm Hterm1 Hcomp Hcb Hcbp Hps Hact Hres Hw.
  pose proof (ri_objects _ Hri _ _ Ha) as Hok. pose proof (connect_ok_of _ _ _ _ _ Hp Hok) as [Hnn Hs]. rewrite Hterm in Hs.
  destruct Hs as (Hin & Hcm & Hnil & Hcase).
  assert (Hdns : dns_borrow s1 = false) by (apply no_permits_dns; congruence).
  assert (Hkeep : (con_callback s1 = true → delivery_ready s1 = true → con_callback_active s1 = false) →
    moved r (res ++ []) (update a (with_inner s1 o) r)).
  { intros Hnj. eapply change_kept; [eassumption|eassumption|eassumption|reflexivity|by eapply with_inner_kind|by left| | |reflexivity..| |].
    - eapply with_inner_ok; [done|done| |congruence]. split; [by rewrite Hps|]. rewrite Hterm1, Hcomp, Hcb, Hcbp, Hps. split_and!; [done..|].
      rewrite Hcb in Hnj. destruct (con_callback s); [|done]. destruct Hcase as (? & ? & _). split_and!; [done|done|auto].
    - intros t i b Hb. destruct (terminal_unregistered _ _ _ _ _ Hri Ha Hp Hterm t i b Hb) as [? H]. split; [done|]. intros E. by apply H.
    - intros c. rewrite weight_app, Hres. done.
    - intros k. rewrite (connect_res_of _ _ _ _ Hp), (connect_res_of _ _ _ _ (with_inner_parts _ _ _ s1 Hp)).
      unfold connect_res. rewrite Hps, Hcbp, Hterm, Hterm1, !weight_app. cbn [andb]. specialize (Hw k). rewrite Hcb in Hw |- *. rewrite weight_nil. lia. }
  unfold take_connect_job. destruct (con_callback_active s1) eqn:Hact1, (delivery_ready s1) eqn:Hready1; cbn [negb orb];
    try (wp_go; split; [apply Hkeep; congruence|done]).
  destruct (con_callback s1) eqn:Hcb1; cbn [negb]; [|wp_go; split; [apply Hkeep; congruence|done]].
  rewrite <-Hcb in Hcase. destruct Hcase as ([c Hc] & Hpermit & Hra). rewrite Hcomp, Hc, Hcbp, Hpermit. cbn [negb]. wp_go.
  assert (Hjob : opt_job_ok (committed r) (Some (mkJob (Some (a, c)) id [(CallbackInflight, 1)]))) by (split; [by repeat constructor|by apply Hcm]).
  split; [|done]. set (s2 := mkConnectInner _ _ _ _ _ _ _ _ _ _).
  assert (Hps2 : connect_permits s2 = connect_permits s) by exact Hps.
  eapply change_kept; [eassumption|eassumption|eassumption|reflexivity|by eapply with_inner_kind|by left| | |reflexivity..| |].
  - eapply with_inner_ok; [done|done| |cbn; congruence]. split; [by rewrite Hps2|]. cbn [con_terminal s2]. rewrite Hterm1, Hps2. done.
  - intros t i b Hb. destruct (terminal_unregistered _ _ _ _ _ Hri Ha Hp Hterm t i b Hb) as [? H]. split; [done|]. intros E. by apply H.
  - intros k. rewrite weight_app, Hres. by eapply job_res_counter_nonneg.
  - intros k. rewrite (connect_res_of _ _ _ _ Hp), (connect_res_of _ _ _ _ (with_inner_parts _ _ _ s2 Hp)).
    unfold connect_res. rewrite Hps2, Hterm. cbn [s2 con_terminal delivery_ready con_callback con_callback_permit andb].
    rewrite Hterm1, <-Hcb. cbn [andb]. rewrite Hpermit. specialize (Hw k). rewrite <-Hcb in Hw. cbn [negb andb activate_res] in Hw.
    rewrite !weight_nil in Hw. rewrite !weight_app. cbn [activate_res]. revert Hw. weights.
Qed.

Lemma publish_terminal_spec r a o id s :
  RI r → (∀ k, 0 ≤ owed r k) → 1 ≤ owed r (KPublish a) → heap r !! a = Some o → connect_parts o = Some (id, s) →
  wp (publish_terminal a)
    (λ job r', moved r (neg [(KPublish a, 1)] ++ job_resources job) r' ∧ opt_job_ok (committed r') job) (λ _ _, False) r.
Proof.
  intros Hri Howed Hone Ha Hp. destruct (owed_publish _ _ _ _ _ Ha Hp Hone) as [Hterm Hready].
  unfold publish_terminal. wp_go. rewrite Ha, Hp, Hterm, Hready. cbn [negb orb]. wp_go.
  eapply owp_mono; [apply (connect_job_spec r a o id s _ (neg [(KPublish a, 1)])); try done| |done].
  - congruence.
  - intros k. rewrite Hready. cbn [negb delivery_ready con_callback con_callback_active]. change (neg [(KPublish a, 1)]) with [(KPublish a, -1)].
    rewrite weight_nil. lia.
  - intros [job s'] [Hm Hj]. wp_go. by split.
Qed.

(** ** Activating a callback *)

Definition activated (a : nat) : list resource := neg [(KActivate a, 1)].
Lemma activated_nonneg a c cm job : opt_job_ok cm job → 0 ≤ weight (KCounter c) (activated a ++ job_resources job).
Proof. intros Hj. rewrite weight_app. exact (job_res_counter_nonneg c job cm Hj). Qed.
Ltac activation := unfold activated; by_change Cancelled; try (intros; eapply activated_nonneg; done).

Lemma activate_request r a id s :
  RI r → (∀ k, 0 ≤ owed r k) → 1 ≤ owed r (KActivate a) → heap r !! a = Some (ORequest id s) →
  wp (activate_callback a) (λ job r', moved r (activated a ++ job_resources job) r' ∧ opt_job_ok (committed r') job) (λ _ _, False) r.
Proof.
  intros Hri Howed Hone Ha. pose proof (owed_activate _ _ _ Ha Hone) as Hact.
  pose proof (ri_objects _ Hri _ _ Ha) as Hok. cbn in Hok. unfold activate_callback. wp_go. rewrite Ha.
  destruct s as [comp term cb act inf cbp]; unfold take_terminal_job; cbn in *. destruct cb, act; try done.
  destruct term; cbn.
  - destruct Hok as (Hin & Hcm & [c ->] & -> & -> & _). cbn. wp_go.
    assert (Hj : opt_job_ok (committed r) (Some (mkJob (Some (a, c)) id [(Inflight, 1); (CallbackInflight, 1)])))
      by (split; [by repeat constructor|by apply Hcm]).
    split; [activation|done].
  - destruct Hok as (Hnew & -> & -> & ->). wp_go. split; [activation|done].
Qed.

Lemma activate_resolve r a id s :
  RI r → (∀ k, 0 ≤ owed r k) → 1 ≤ owed r (KActivate a) → heap r !! a = Some (OResolve id s) →
  wp (activate_callback a) (λ job r', moved r (activated a ++ job_resources job) r' ∧ opt_job_ok (committed r') job) (λ _ _, False) r.
Proof.
  intros Hri Howed Hone Ha. pose proof (owed_activate _ _ _ Ha Hone) as Hact.
  pose proof (ri_objects _ Hri _ _ Ha) as Hok. cbn in Hok. unfold activate_callback. wp_go. rewrite Ha.
  destruct s as [comp cb act inf cbp]; unfold take_resolve_job; cbn in *. destruct cb, act; try done.
  destruct comp as [c|]; cbn.
  - destruct Hok as (Hcm & -> & -> & _). cbn. wp_go.
    assert (Hj : opt_job_ok (committed r) (Some (mkJob (Some (a, c)) id [(ResolutionInflight, 1); (CallbackInflight, 1)])))
      by (split; [by repeat constructor|done]).
    split; [activation|done].
  - destruct Hok as (Hnew & -> & ->). wp_go. split; [activation|done].
Qed.

Lemma activate_connect r a o id s :
  RI r → (∀ k, 0 ≤ owed r k) → 1 ≤ owed r (KActivate a) → heap r !! a = Some o → connect_parts o = Some (id, s) →
  wp (activate_callback a) (λ job r', moved r (activated a ++ job_resources job) r' ∧ opt_job_ok (committed r') job) (λ _ _, False) r.
Proof.
  intros Hri Howed Hone Ha Hp. pose proof (owed_activate _ _ _ Ha Hone) as Hin.
  pose proof (ri_objects _ Hri _ _ Ha) as Hok. pose proof (connect_ok_of _ _ _ _ _ Hp Hok) as [Hnn Hs].
  assert (Hact : con_callback s = true ∧ con_callback_active s = false).
  { destruct o; try done; injection Hp as <- <-; cbn in Hin; apply andb_true_iff in Hin as [? ?%negb_true_iff]; done. }
  destruct Hact as [Hcb Hact].
  assert (Hrun : wp ((r ← get; '(job, s') ← lift (take_connect_job a id
             (mkConnectInner (con_completion s) (con_terminal s) (delivery_ready s) (con_callback s) true (occupancy_permit s)
                (queued_bytes_permit s) (metric_bytes_permit s) (dns_borrow s) (con_callback_permit s)));
          _ ← put (update a (with_inner s' o) r); mret job) : R (option CallbackJob))
    (λ job r', moved r (activated a ++ job_resources job) r' ∧ opt_job_ok (committed r') job) (λ _ _, False) r).
  { wp_go. destruct (con_terminal s) eqn:Hterm.
    - destruct Hs as (Hin' & Hcm & Hnil & Hcase). eapply owp_mono; [eapply (connect_job_spec r a o id s _ (activated a)); try done| |done].
      + intros k. cbn [delivery_ready con_callback con_callback_active]. rewrite Hcb, Hact. cbn [andb negb activate_res]. change (activated a) with [(KActivate a, -1)].
        rewrite weight_nil. lia.
      + intros [job s'] [Hm Hj]. wp_go. by split.
    - destruct Hs as (Hnew & Hcomp & Hready & Hcbp). unfold take_connect_job. cbn. rewrite Hready. cbn. wp_go. split; [|done].
      set (s1 := mkConnectInner _ _ _ _ _ _ _ _ _ _).
      eapply change_kept; [eassumption|eassumption|eassumption|reflexivity|by eapply with_inner_kind|by left| | |reflexivity..|done|].
      + eapply with_inner_ok; [done|done| |done]. split; [done|]. cbn. done.
      + refine (tables_same r o a Hri Ha _ _ _); [by eapply with_inner_kind|]. intros x. rewrite (with_inner_parts _ _ _ s1 Hp). by intros [= <-].
      + intros k. match goal with |- _ = _ + ?w => change w with (weight k [(KActivate a, -1)]) end.
        rewrite (connect_res_of _ _ _ _ Hp), (connect_res_of _ _ _ _ (with_inner_parts _ _ _ s1 Hp)).
        unfold connect_res. change (connect_permits s1) with (connect_permits s). rewrite Hterm, Hact, Hcb. subst s1.
        cbn [con_terminal con_callback con_callback_active con_callback_permit]. rewrite Hcb, app_nil_r, !weight_app.
        cbn [andb negb activate_res]. rewrite !weight_nil. lia. }
  unfold activate_callback. destruct o; try done; injection Hp as -> ->; wp_go; rewrite Ha; exact Hrun.
Qed.

(** ** The callback domain *)

Lemma moved_ext r x y r' : (∀ k, weight k x = weight k y) → moved r x r' → moved r y r'.
Proof. intros Hw []. split; try done. intros k. by rewrite mv_owed0, Hw. Qed.

Lemma owed_counted r c : RI r → owed r (KCounter c) ≤ counters r c.
Proof.
  intros []. unfold owed. cbn [value]. pose proof (jobs_res_nonneg _ _ c ri_jobs0).
  assert (0 ≤ weight (KCounter c) (heap_res (heap r))) by (apply heap_res_nonneg; intros; by eapply object_res_nonneg, ri_objects0). lia.
Qed.

(** A change that the invariant does not read, but for the books. *)
Lemma books_moved r r1 res :
  RI r → cfg r1 = cfg r → next_sequence r ≤ next_sequence r1 → (∀ c, counters r1 c = counters r c) → heap r1 = heap r → committed r1 = committed r →
  with_callback r1 = with_callback r → (sealed (domain r1) = false → lost (domain r1) = []) →
  (∀ t id b, tables r1 t !! id = Some b → tables r t !! id = Some b) →
  Forall (job_ok (committed r)) (jobs (domain r1)) → (∀ x, x ∈ ran (domain r1) → x ∈ committed r) →
  (∀ k, value r1 k - weight k (jobs_res (jobs (domain r1))) = value r k - weight k (jobs_res (jobs (domain r))) + weight k res) →
  moved r res r1.
Proof.
  intros [] Hcfg Hseq Hcnt Hheap Hcm Hwc Hlost Htab Hj Hran Hv. split.
  - split; rewrite ?Hcfg, ?Hheap, ?Hcm, ?Hwc; try done; [intros c; rewrite Hcnt, Hcfg; apply ri_counters0|eauto|by eapply ids_ok_shrink].
  - split; [done| |by rewrite Hcm]. intros a o Ha. rewrite Hheap. exists o. by split; [|apply same_kind_refl].
  - intros k. unfold owed. rewrite Hheap. specialize (Hv k). lia.
Qed.

(** Dropping permits the thread owns. *)
Lemma drop_owned r ps :
  RI r → Forall (λ p : permit, 0 ≤ p.2) ps → (∀ c, held c ps ≤ owed r (KCounter c)) → moved r (neg (permit_res ps)) (drop_permits ps r).
Proof.
  intros Hri Hps Hle. destruct (drop_permits_spec ps r) as (f & -> & Hf); [apply Hri|apply Hri|done| |].
  { intros c. pose proof (owed_counted r c Hri). specialize (Hle c). lia. }
  split.
  - destruct Hri. split; try done. intros c. cbn. rewrite Hf. pose proof (ri_counters0 c). pose proof (held_nonneg c ps Hps).
    pose proof (owed_counted r c). specialize (Hle c). assert (owed r (KCounter c) ≤ counters r c) by (apply owed_counted; by split). lia.
  - split; try done. intros a o Ha. exists o. by split; [|apply same_kind_refl].
  - intros k. rewrite owed_counters, weight_neg, weight_permits. destruct k; rewrite ?Hf; lia.
Qed.

Definition job_callback (j : CallbackJob) : list resource := match job_of j with Some (a, _) => [(KCallback a, 1)] | None => [] end.

Lemma held_job c j : held c (job_permits j) = weight (KCounter c) (job_res j).
Proof.
  unfold job_res. rewrite weight_app, weight_permits. destruct (job_of j) as [[]|]; [|by rewrite weight_nil, Z.add_0_r].
  rewrite weight_cons, amount_other by done. rewrite weight_nil. lia.
Qed.

Lemma count_single a b : count b [a] = amount (KCallback b) (KCallback a, 1).
Proof.
  unfold count, amount. cbn. destruct (decide (a = b)), (decide (KCallback a = KCallback b)); congruence || done.
Qed.

(** A callback that ran, or was dropped with its job. *)
Lemma callback_moved r d j :
  RI r → job_ok (committed r) j → jobs d = jobs (domain r) → running d = running (domain r) →
  (ran d = ran (domain r) ++ match job_of j with Some x => [x] | None => [] end ∧ lost d = lost (domain r)
   ∧ sealed d = sealed (domain r)) ∨
  (sealed d = true ∧ ran d = ran (domain r) ∧ lost d = lost (domain r) ++ match job_of j with Some (a, _) => [a] | None => [] end) →
  (∀ k, weight k (job_res j) ≤ owed r k) →
  moved r (neg (job_res j)) (drop_permits (job_permits j) (set_domain d r)).
Proof.
  intros Hri [[Hps _] Hj] Hjobs Hrun Hcase Howed.
  assert (Hm : moved r (neg (job_callback j)) (set_domain d r)).
  { apply books_moved; try done; cbn [domain set_domain].
    - destruct Hcase as [(_ & -> & ->)|(-> & _)]; [apply Hri|done].
    - rewrite Hjobs. apply Hri.
    - intros x. pose proof (ri_ran _ Hri x). destruct Hcase as [(-> & _)|(_ & -> & _)]; [|done]. rewrite elem_of_app.
      intros [?|Hx]; [auto|]. destruct (job_of j); [|by apply elem_of_nil in Hx]. by apply list_elem_of_singleton in Hx as ->.
    - intros k. rewrite Hjobs, weight_neg. unfold job_callback. destruct k as [|b| | | |]; cbn [value domain set_domain counters with_callback callback_activations];
        try (destruct (job_of j) as [[]|]; [rewrite weight_cons, amount_other by done|]; rewrite weight_nil; lia).
      destruct Hcase as [(-> & -> & _)|(_ & -> & ->)]; destruct (job_of j) as [[a c]|]; rewrite ?map_app, ?count_app, ?app_nil_r, ?weight_cons, ?weight_nil;
        cbn [map fst]; rewrite ?count_single; change (count b []) with 0; lia. }
  assert (Hw : ∀ k, weight k (neg (job_callback j) ++ neg (permit_res (job_permits j))) = weight k (neg (job_res j))).
  { intros k. unfold job_res. fold (job_callback j). rewrite !weight_app, !weight_neg, weight_app. lia. }
  eapply moved_ext; [exact Hw|]. eapply moved_trans; [exact Hm|]. apply drop_owned; [apply Hm|done|].
  intros c. rewrite (mv_owed _ _ _ Hm), weight_neg, held_job.
  replace (weight (KCounter c) (job_callback j)) with 0; [specialize (Howed (KCounter c)); lia|].
  unfold job_callback. destruct (job_of j) as [[]|]; [|done]. by rewrite weight_cons, amount_other.
Qed.

Lemma enqueue_terminal_spec r j :
  RI r → job_ok (committed r) j → (∀ k, weight k (job_res j) ≤ owed r k) →
  wp (enqueue_terminal j) (λ _ r', moved r (neg (job_res j)) r') (λ _ _, False) r.
Proof.
  intros Hri Hj Howed. unfold enqueue_terminal. wp_go. destruct (sealed (domain r)) eqn:Hsealed; wp_go.
  - apply callback_moved; try done. by right.
  - apply books_moved; try done; cbn [domain set_domain jobs ran sealed lost].
    + intros _. by apply (ri_lost _ Hri).
    + apply Forall_app. split; [apply Hri|by constructor].
    + apply Hri.
    + intros k. unfold jobs_res. rewrite map_app, concat_app, weight_app, weight_neg. cbn [map concat]. rewrite app_nil_r.
      replace (value (set_domain _ r) k) with (value r k) by (by destruct k). lia.
Qed.

Lemma call_job_spec r j :
  RI r → job_ok (committed r) j → (∀ k, weight k (job_res j) ≤ owed r k) →
  wp (call_job j) (λ _ r', moved r (neg (job_res j)) r') (λ _ _, False) r.
Proof. intros Hri Hj Howed. unfold call_job. wp_go. apply callback_moved; try done. by left. Qed.

Lemma first_runnable_split active l j rest :
  first_runnable active l = Some (j, rest) → ∃ pre post, l = pre ++ j :: post ∧ rest = pre ++ post ∧ ¬ (job_id j ∈ active).
Proof.
  revert rest. induction l as [|x l IH]; intros rest; cbn; [done|]. destruct (bool_decide_reflect (job_id x ∈ active)).
  - destruct (first_runnable active l) as [[j' rest']|]; [|done]. intros [= -> <-]. destruct (IH rest' eq_refl) as (pre & post & -> & -> & ?).
    by exists (x :: pre), post.
  - intros [= -> ->]. by exists [], rest.
Qed.

Lemma take_runnable_spec r :
  RI r →
  wp take_runnable (λ job r', moved r (match job with Some j => job_res j ++ [(KRunning, 1)] | None => [] end) r' ∧ opt_job_ok (committed r') job)
    (λ _ _, False) r.
Proof.
  intros Hri. unfold take_runnable. wp_go. destruct (first_runnable _ _) as [[j rest]|] eqn:Hf; wp_go; [|split; [by apply moved_refl|done]].
  apply first_runnable_split in Hf as (pre & post & Hjobs & -> & _). pose proof (ri_jobs _ Hri) as Hall. rewrite Hjobs in Hall.
  apply Forall_app in Hall as [Hpre [Hj Hpost]%Forall_cons]. split; [|done].
  apply books_moved; try done; cbn [domain set_domain jobs ran sealed lost].
  - apply Hri.
  - by apply Forall_app.
  - apply Hri.
  - intros k. rewrite Hjobs. unfold jobs_res. rewrite !map_app, !concat_app, !weight_app. cbn [map concat]. rewrite weight_app, weight_cons, weight_nil.
    destruct k; cbn [value domain set_domain running ran lost counters with_callback callback_activations];
      (rewrite amount_other by done; lia) || (rewrite amount_same; lia).
Qed.


(** Only threads hold activations and running jobs. *)
Lemma thread_only r k : k = KActivation ∨ k = KRunning → owed r k = value r k.
Proof.
  intros Hk.
  assert (Hcb : ∀ c a, weight k (callback_res c a) = 0).
  { intros [] a; [|done]. cbn. by destruct Hk as [-> | ->]; rewrite weight_cons, amount_other. }
  assert (Hp : ∀ ps, weight k (permit_res ps) = 0) by (intros; rewrite weight_permits; by destruct Hk as [-> | ->]).
  assert (Hact : ∀ c a, weight k (activate_res c a) = 0).
  { intros [] a; [|done]. cbn. by destruct Hk as [-> | ->]; rewrite weight_cons, amount_other. }
  assert (Hc : ∀ a s, weight k (connect_res a s) = 0).
  { intros a s. unfold connect_res. rewrite !weight_app, !Hp, Hcb, Hact. destruct (con_terminal s && _); [|done].
    by destruct Hk as [-> | ->]; rewrite weight_cons, amount_other. }
  assert (Ho : ∀ a o, weight k (object_res a o) = 0) by (intros a []; unfold object_res; rewrite ?weight_app, ?Hp, ?Hcb, ?Hact, ?Hc; done).
  assert (Hh : weight k (heap_res (heap r)) = 0).
  { induction (heap r) as [|o h IH] using rev_ind; [done|]. by rewrite heap_res_snoc, weight_app, IH, Ho. }
  assert (Hj : weight k (jobs_res (jobs (domain r))) = 0).
  { induction (jobs (domain r)) as [|j js IH]; [done|]. unfold jobs_res in *. cbn [map concat]. rewrite weight_app, IH. unfold job_res.
    rewrite weight_app, Hp. destruct (job_of j) as [[]|]; [|done]. by destruct Hk as [-> | ->]; rewrite weight_cons, amount_other. }
  unfold owed. rewrite Hh, Hj. lia.
Qed.

Lemma job_finished_spec r id :
  RI r → 1 ≤ owed r KRunning → wp (finish_job id) (λ _ r', moved r (neg [(KRunning, 1)]) r') (λ _ _, False) r.
Proof.
  intros Hri Hone. rewrite thread_only in Hone by auto. cbn in Hone. unfold finish_job. wp_go. apply owp_usub; [done|]. wp_go.
  apply books_moved; try done; try apply Hri. intros k. rewrite weight_neg, weight_cons, weight_nil.
  destruct k; cbn [value domain set_domain running ran lost counters with_callback callback_activations jobs];
    (rewrite amount_other by done; lia) || (rewrite amount_same; lia).
Qed.

Lemma finish_activation_spec r :
  RI r → 1 ≤ owed r KActivation → wp finish_callback_activation (λ _ r', moved r (neg [(KActivation, 1)]) r') (λ _ _, False) r.
Proof.
  intros Hri Hone. rewrite thread_only in Hone by auto. cbn in Hone. unfold finish_callback_activation. wp_go. apply owp_usub; [done|]. wp_go.
  apply books_moved; try done; try apply Hri. intros k. rewrite weight_neg, weight_cons, weight_nil.
  destruct k; cbn [value domain set_activations running ran lost counters with_callback callback_activations jobs];
    (rewrite amount_other by done; lia) || (rewrite amount_same; lia).
Qed.

(** ** Streams, waiters and DNS capacity *)

Lemma release_permits_spec r a id s :
  RI r → (∀ k, 0 ≤ owed r k) → heap r !! a = Some (OStream id s) →
  wp (release_permits a) (λ _ r', moved r [] r') (λ _ _, False) r.
Proof.
  intros Hri Howed Ha. pose proof (ri_objects _ Hri _ _ Ha) as [Hps Hterm]. unfold release_permits. wp_go. rewrite Ha.
  eapply change; [eassumption|eassumption|eassumption|reflexivity|done|by left|by split|same_tables|reflexivity..|exact Hps|done|].
  intros k. unfold object_res. cbn [permits stream_permits]. change (permit_res []) with (@nil resource). rewrite !weight_nil. lia.
Qed.

Lemma control_commit_spec r a id s c :
  RI r → (∀ k, 0 ≤ owed r k) → heap r !! a = Some (OStream id s) →
  wp (control_commit a c)
    (λ won r', moved r [] r' ∧ (won = true → ∃ id s', heap r' !! a = Some (OStream id s') ∧ control_terminal s' = true)) (λ _ _, False) r.
Proof.
  intros Hri Howed Ha. pose proof (ri_objects _ Hri _ _ Ha) as [Hps Hterm]. unfold control_commit. wp_go. rewrite Ha.
  destruct (control_terminal s) eqn:Ht; wp_go; [split; [by apply moved_refl|done]|].
  split.
  - eapply change_kept; [eassumption|eassumption|eassumption|reflexivity|done|right; by exists c| |same_tables|reflexivity..|done|].
    + split; [done|]. cbn. apply elem_snoc_addresses. by right.
    + intros k. unfold object_res. cbn [permits]. rewrite weight_nil. lia.
  - intros _. eexists _, _. split; [cbn; apply list_lookup_insert_eq; by eapply lookup_lt_Some|done].
Qed.

Lemma release_dns_spec r a o id s :
  RI r → (∀ k, 0 ≤ owed r k) → heap r !! a = Some o → connect_parts o = Some (id, s) →
  wp (release_dns_borrow a) (λ _ r', moved r [] r') (λ _ _, False) r.
Proof.
  intros Hri Howed Ha Hp. pose proof (ri_objects _ Hri _ _ Ha) as Hok. pose proof (connect_ok_of _ _ _ _ _ Hp Hok) as [Hnn Hs].
  unfold release_dns_borrow. wp_go. rewrite Ha, Hp. destruct (con_terminal s) eqn:Hterm; cbn [orb]; [wp_go; by apply moved_refl|].
  destruct (dns_borrow s) eqn:Hdns; cbn [negb]; [|wp_go; by apply moved_refl]. wp_go.
  set (s' := mkConnectInner _ _ _ _ _ _ _ _ _ _).
  assert (Hsplit : connect_permits s = connect_permits s' ++ [(ResolutionInflight, 1)]).
  { unfold connect_permits. cbn. rewrite Hdns. cbn. by rewrite !app_nil_r, <-!app_assoc. }
  rewrite Hsplit in Hnn. apply Forall_app in Hnn as [Hnn _].
  change (drop_permit (ResolutionInflight, 1)) with (drop_permits [(ResolutionInflight, 1)]).
  eapply change; [eassumption|eassumption|eassumption|reflexivity|by eapply with_inner_kind|by left| | |reflexivity..|by repeat constructor|done|].
  - eapply with_inner_ok; [done|done| |done]. split; [done|]. exact Hs.
  - refine (tables_same r o a Hri Ha _ _ _); [by eapply with_inner_kind|]. intros x. rewrite (with_inner_parts _ _ _ s' Hp).
    by intros [= <-].
  - intros k. rewrite (connect_res_of _ _ _ _ Hp), (connect_res_of _ _ _ _ (with_inner_parts _ _ _ s' Hp)).
    unfold connect_res. rewrite Hsplit, permit_res_app, !weight_app, Hterm. change (con_terminal s') with false. change (con_callback_permit s') with (con_callback_permit s).
    change (con_callback s') with (con_callback s). change (con_callback_active s') with (con_callback_active s). cbn [andb]. rewrite weight_nil. lia.
Qed.

Lemma try_completion_spec r a :
  RI r → (∀ k, 0 ≤ owed r k) → wp (try_completion a) (λ _ r', moved r [] r') (λ _ _, False) r.
Proof.
  intros Hri Howed. assert (Hc : Completion) by exact Cancelled. unfold try_completion. wp_go.
  destruct (heap r !! a) as [o|] eqn:Ha; [|wp_go; by apply moved_refl]. pose proof (ri_objects _ Hri _ _ Ha) as Hok.
  assert (Hconnect : ∀ id s, connect_parts o = Some (id, s) →
    wp ((if con_callback s || negb (delivery_ready s) then mret None
        else
          _ ← put (update a (with_inner (mkConnectInner None (con_terminal s) (delivery_ready s) (con_callback s)
                     (con_callback_active s) (occupancy_permit s) (queued_bytes_permit s) (metric_bytes_permit s) (dns_borrow s)
                     (con_callback_permit s)) o) r);
          mret (con_completion s)) : R (option Completion)) (λ _ r', moved r [] r') (λ _ _, False) r).
  { intros id s Hp. pose proof (connect_ok_of _ _ _ _ _ Hp Hok) as [Hnn Hs]. destruct (con_callback s) eqn:Hcb; cbn [orb]; [wp_go; by apply moved_refl|].
    destruct (delivery_ready s) eqn:Hready; cbn [negb]; [|wp_go; by apply moved_refl]. wp_go.
    destruct (con_terminal s) eqn:Hterm; [|by destruct Hs as (_ & _ & ? & _)]. destruct Hs as (Hin & Hcm & Hnil & Hcase).
    set (s' := mkConnectInner _ _ _ _ _ _ _ _ _ _). assert (Hps : connect_permits s' = connect_permits s) by done.
    eapply change_kept; [eassumption|eassumption|eassumption|reflexivity|by eapply with_inner_kind|by left| | |reflexivity..|done|].
    - eapply with_inner_ok; [done|done| |done]. split; [by rewrite Hps|]. cbn [s' con_terminal]. by rewrite Hps.
    - intros t i b Hb. destruct (terminal_unregistered _ _ _ _ _ Hri Ha Hp Hterm t i b Hb) as [? H]. split; [done|]. intros E. by apply H.
    - intros k. rewrite (connect_res_of _ _ _ _ Hp), (connect_res_of _ _ _ _ (with_inner_parts _ _ _ s' Hp)).
      unfold connect_res. rewrite Hps, Hterm, Hready, Hcb, weight_nil. change (con_terminal s') with true. change (delivery_ready s') with true.
      change (con_callback s') with false. change (con_callback_permit s') with (con_callback_permit s). cbn [andb negb]. lia. }
  destruct o as [id s|id s|id s|id sw rw s|id sw rw up s|id s|id b]; try (wp_go; by apply moved_refl); try (by eapply Hconnect).
  destruct s as [comp term cb act inf cbp]; cbn in *. destruct cb; wp_go; [by apply moved_refl|].
  destruct term; [destruct Hok as (Hin & Hcm & -> & ->)|destruct Hok as (Hnew & -> & -> & ->)]; by_change Hc.
Qed.

Lemma conts_release ps id : conts_res (map ReleasePermit ps ++ [ReleaseLive id]) = permit_res ps.
Proof.
  rewrite conts_res_app. change (conts_res [ReleaseLive id]) with (@nil resource). rewrite app_nil_r.
  induction ps as [|p ps IH]; [done|]. unfold conts_res in *. cbn [map concat]. rewrite IH. done.
Qed.

Lemma release_io_spec r l id s :
  RI r → (∀ k, 0 ≤ owed r k) → heap r !! l = Some (OLive id s) →
  wp (release_io l) (λ cs r', moved r (conts_res cs) r' ∧ Forall (cont_ok r') cs) (λ _ _, False) r.
Proof.
  intros Hri Howed Ha. pose proof (ri_objects _ Hri _ _ Ha) as (Hnew & Hnn & _). unfold release_io. wp_go. rewrite Ha.
  destruct (session_released s); wp_go; [split; [by apply moved_refl|done]|]. split.
  - rewrite conts_release. eapply change_kept; [eassumption|eassumption|eassumption|reflexivity|done|by left|by split|same_tables|reflexivity..| |].
    + intros c. by apply weight_nonneg_permits.
    + intros k. unfold object_res. cbn [reserve]. change (permit_res []) with (@nil resource). rewrite weight_nil. lia.
  - apply Forall_app. split; [|by repeat constructor]. apply Forall_map. eapply Forall_impl; [exact Hnn|]. by intros p Hp.
Qed.

(** ** New objects *)

Lemma alloc_moved r r1 o res :
  RI r → heap r1 = heap r ++ [o] → cfg r1 = cfg r → committed r1 = committed r → domain r1 = domain r → counters_ok r1 →
  object_ok (committed r) (length (heap r)) o →
  (∀ t id b, tables r1 t !! id = Some b → tables r t !! id = Some b ∨ (b = length (heap r) ∧ entry_ok t id o)) →
  with_callback r1 = with_callback r ∨ with_callback r1 = with_callback r ++ [length (heap r)] →
  ids_ok (tables r1) (next_sequence r1) →
  (∀ k, value r1 k = value r k + weight k (object_res (length (heap r)) o) + weight k res) →
  moved r res r1.
Proof.
  intros [] Hheap Hcfg Hcm Hdom Hcnt Hok Htab Hwc Hids Hv. split; [|split|]; rewrite ?Hcfg, ?Hcm; try done.
  - split; rewrite ?Hcfg, ?Hcm, ?Hdom; try done.
    + intros a x Ha. rewrite Hheap in Ha. apply lookup_app_Some in Ha as [Ha|[Hge Ha]]; [auto|].
      destruct (a - length (heap r))%nat eqn:He; [|done]. injection Ha as <-. by replace a with (length (heap r)) by lia.
    + intros t id b Hb. rewrite Hheap. destruct (Htab t id b Hb) as [Hold|[-> He]].
      * destruct (ri_tables0 _ _ _ Hold) as (x & Hx & He). exists x. split; [by apply lookup_app_l_Some|done].
      * exists o. by rewrite lookup_app_r, Nat.sub_diag by done.
    + intros a Ha. rewrite Hheap, length_app. specialize (ri_addresses0 a Ha). lia.
    + destruct ri_callbacks0 as [Hnd Hlt]. rewrite Hheap, length_app. destruct Hwc as [-> | ->].
      * split; [done|]. intros a Ha. specialize (Hlt a Ha). lia.
      * split.
        -- apply NoDup_app. split_and!; [done| |by apply NoDup_singleton]. intros a Ha ->%list_elem_of_singleton. specialize (Hlt _ Ha). lia.
        -- intros a [Ha| ->%list_elem_of_singleton]%elem_of_app; [specialize (Hlt a Ha)|]; cbn; lia.
  - intros a x Ha. rewrite Hheap. exists x. split; [by apply lookup_app_l_Some|apply same_kind_refl].
  - intros k. unfold owed. rewrite Hheap, heap_res_snoc, weight_app, Hdom, Hv. lia.
Qed.

Lemma fresh_address r : RI r → ¬ (length (heap r) ∈ (committed r).*1).
Proof. intros Hri Hin. pose proof (ri_addresses _ Hri _ Hin). lia. Qed.

End with_target.
