(* ===== verification/RegistryCalls.v ===== *)
(** * The registry under every interleaving

    The calls, what is left of them after each lock, and the claims: every
    permit is counted and given back once, a result is committed once and its
    callback gets it once, and every region returns but the two that
    [may_stick] names. *)

From stdpp Require Import base list gmap strings.
From Stdlib Require Import ZArith Lia.
From S2P Require Import Prelude Errors BodyBudget Request TcpIo Registry RegistryProofs.

#[local] Arguments len : simpl never.
#[local] Arguments drop_permits : simpl never.
#[local] Arguments drop_permit : simpl never.
#[local] Arguments weight : simpl never.
#[local] Arguments amount : simpl never.
#[local] Arguments heap_res : simpl never.
#[local] Arguments jobs_res : simpl never.
#[local] Arguments object_res : simpl never.
#[local] Arguments permit_res : simpl never.
#[local] Arguments count : simpl never.
#[local] Arguments held : simpl never.

Section with_target.
Context {tgt : Target}.

(** ** Submissions *)

Definition submission (c : cont) : bool :=
  match c with
  | Accept _ _ _ | AcceptResolve _ _ _ | AcceptStream _ _ _ _ _ | AcceptTcp _ _ _ _ | AcceptTls _ _ _ _ _ | AcceptUpgrade _ _ _ _ => true
  | _ => false
  end.
(** What a submission reserves for a connection, when it is admitted. *)
Definition reserves (c : Config) (x : cont) : Z :=
  let window := default (max_tcp_queue_bytes_per_connection c) in
  match x with
  | AcceptTcp _ send receive _ => window send + window receive
  | AcceptTls _ _ send receive _ => window send + window receive + TLS_EXTRA_RESERVE
  | AcceptUpgrade _ _ _ _ => TLS_EXTRA_RESERVE
  | _ => 0
  end.

(** The two cases in which a region does not return: a streamed request meets
    a full command queue, and the metric of queued TCP bytes has no room for a
    reservation that the budget has room for. *)
Definition may_stick (r : Registry) (x : cont) : Prop :=
  match x with
  | AcceptStream _ _ _ _ _ => command_queue_full r = true
  | AcceptTcp _ _ _ _ | AcceptTls _ _ _ _ _ | AcceptUpgrade _ _ _ _ => usize_max < counters r TcpQueuedBytes + reserves (cfg r) x
  | _ => False
  end.

(** The outcome of a call: what its thread is to do next. *)
Definition progressed (r : Registry) (c : cont) (cs : list cont) (r' : Registry) : Prop :=
  moved r (neg (cont_res c) ++ conts_res cs) r' ∧ Forall (cont_ok r') cs.

Definition called (r : Registry) (cs : list cont) (r' : Registry) : Prop :=
  moved r (conts_res cs) r' ∧ Forall (cont_ok r') cs.

Lemma may_stick_submission r x : may_stick r x → submission x = true.
Proof. by destruct x. Qed.

Lemma accepting_wp cb (stuck : Prop) (m : M Registry Error nat) Q r :
  wpx stuck m (λ a r', Q (accepted cb a) r') (λ _ r', Q [] r') r → wpx stuck (accepting cb m) Q (λ _ _, False) r.
Proof. unfold wpx, accepting. by destruct (m r) as [[]]. Qed.

Lemma called_nothing r : RI r → called r [] r.
Proof. intros Hri. split; [by apply moved_refl|done]. Qed.
Lemma called_same r r' : RI r → moved r [] r' → called r [] r'.
Proof. by split. Qed.
Lemma held_neg_counters ps c : Forall (λ p : permit, 0 ≤ p.2) ps → 0 ≤ held c ps.
Proof. apply held_nonneg. Qed.

(** The object a submission makes. *)
Record makes (r : Registry) (t : table) (cb : bool) (make : Z → object) (ps : list permit) : Prop := {
  mk_ok : ∀ id, object_ok (committed r) (length (heap r)) (make id);
  mk_entry : ∀ id, entry_ok t id (make id);
  mk_res : ∀ id k, weight k (object_res (length (heap r)) (make id)) =
                   weight k (permit_res ps) + weight k (callback_res cb (length (heap r))) + weight k (activate_res cb (length (heap r)));
  mk_kind : cb = true → ∀ id h, possible (h ++ [make id]) (Activate (length h)) = true
}.

Lemma refund_moved r r1 ps f :
  RI r → cfg r1 = cfg r → next_sequence r ≤ next_sequence r1 → heap r1 = heap r → committed r1 = committed r →
  tables r1 = tables r → domain r1 = domain r →
  callback_activations r1 = callback_activations r → with_callback r1 = with_callback r →
  counters r1 = f → (∀ c, f c = counters r c + held c ps) → counters_ok r1 → Forall (λ p : permit, 0 ≤ p.2) ps →
  moved r [] (drop_permits ps r1).
Proof.
  intros Hri Hcfg Hseq Hheap Hcm Htab Hdom Hact Hwc Hcnt Hf Hok Hps.
  destruct (drop_permits_spec ps r1) as (g & -> & Hg); [rewrite Hcfg; apply Hri|done|done| |].
  { intros c. rewrite Hcnt, Hf. pose proof (ri_counters _ Hri c). lia. }
  assert (Hgc : ∀ c, g c = counters r c) by (intros c; rewrite Hg, Hcnt, Hf; lia).
  apply books_moved; try done; cbn [domain with_counters tables]; rewrite ?Hdom, ?Htab; try done; try apply Hri.
  intros k. rewrite weight_nil. destruct k; cbn [value counters with_counters domain with_callback callback_activations];
    rewrite ?Hgc, ?Hdom, ?Hwc, ?Hact; lia.
Qed.

(** Permits taken and not given to an object yet. *)
Lemma taken_moved r f ps :
  RI r → counters_ok (with_counters f r) → (∀ c, f c = counters r c + held c ps) →
  moved r (permit_res ps) (with_counters f r).
Proof.
  intros Hri Hok Hf. split.
  - by destruct Hri.
  - split; [done| |done]. intros a o Ha. exists o. by split; [|apply same_kind_refl].
  - intros k. rewrite owed_counters, weight_permits. destruct k; rewrite ?Hf; lia.
Qed.

(** The identity of a submission is new, that of an upgrade is live. *)
Lemma ids_ok_fresh r r1 t a :
  RI r → tables r1 = tables (table_insert t (next_sequence r) a r) → next_sequence r1 = next_sequence r + 1 →
  ids_ok (tables r1) (next_sequence r1).
Proof.
  intros Hri -> ->. destruct (ri_ids _ Hri) as [Hlt Hdis].
  assert (Hnone : ∀ t', tables r t' !! next_sequence r = None).
  { intros t'. apply eq_None_not_Some. intros [b Hb]. specialize (Hlt _ _ _ Hb). lia. }
  split.
  - intros t' id b. cbn. destruct (decide _) as [->|]; [|intros Hb; specialize (Hlt _ _ _ Hb); lia].
    intros [[<- <-]|[_ Hb]]%lookup_insert_Some; [lia|]. specialize (Hlt _ _ _ Hb). lia.
  - intros id. cbn. repeat case_decide; subst; try done; try (by apply Hdis);
      destruct (decide (id = next_sequence r)) as [->|]; rewrite ?lookup_insert_ne by done; try (by apply Hdis); rewrite ?Hnone; try done.
    all: by intros []%is_Some_None.
Qed.

Lemma ids_ok_live r t id a :
  RI r → t = TTls ∨ t = TLive → is_Some (tables r TLive !! id) ∨ is_Some (tables r TTls !! id) →
  ids_ok (tables (table_insert t id a r)) (next_sequence r).
Proof.
  intros Hri Ht Hlive. destruct (ri_ids _ Hri) as [Hlt Hdis].
  assert (Hid : id < next_sequence r) by (destruct Hlive as [[b Hb]|[b Hb]]; eauto).
  assert (Hnot : ∀ id', is_Some (tables r TConnects !! id') → id' ≠ id).
  { intros id' Hc ->. destruct (Hdis id Hc) as [H1 H2]. rewrite H1, H2 in Hlive. by destruct Hlive as [[]|[]]. }
  split.
  - intros t' id' b. cbn. destruct (decide _) as [->|]; [|eauto]. intros [[<- <-]|[_ Hb]]%lookup_insert_Some; eauto.
  - intros id'. cbn. destruct Ht as [-> | ->]; repeat case_decide; try done; intros Hc; specialize (Hnot id' Hc);
      rewrite lookup_insert_ne by congruence; by apply Hdis.
Qed.

(** A new state, registered with the permits [ps] its thread took. *)
Lemma listed_moved r r1 t id o (cb : bool) ps :
  RI r → heap r1 = heap r ++ [o] → cfg r1 = cfg r → committed r1 = committed r → domain r1 = domain r → counters r1 = counters r →
  tables r1 = tables (table_insert t id (length (heap r)) r) →
  callback_activations r1 = (if cb then callback_activations r + 1 else callback_activations r) →
  with_callback r1 = (if cb then with_callback r ++ [length (heap r)] else with_callback r) →
  ids_ok (tables r1) (next_sequence r1) → object_ok (committed r) (length (heap r)) o → entry_ok t id o →
  (∀ k, weight k (object_res (length (heap r)) o) = weight k (permit_res ps) + weight k (callback_res cb (length (heap r)))
        + weight k (activate_res cb (length (heap r)))) →
  moved r (neg (permit_res ps) ++ conts_res (accepted cb (length (heap r)))) r1.
Proof.
  set (a := length (heap r)). intros Hri H1 H2 H3 H4 H5 H6 H7 H8 Hids Hok He Hr. apply (alloc_moved r r1 o); try done.
  - intros c. rewrite H5, H2. apply Hri.
  - intros t' id' b Hb. rewrite H6 in Hb. cbn in Hb. destruct (decide (t' = t)) as [->|]; [|by left].
    apply lookup_insert_Some in Hb as [[<- <-]|[_ Hb]]; [right; by split|by left].
  - rewrite H8. destruct cb; auto.
  - intros k. fold a. rewrite Hr, weight_app, weight_neg, weight_permits. 
    destruct cb; unfold accepted; [change (conts_res [Activate a; EndActivation]) with [(KActivate a, 1); (KActivation, 1)]|change (conts_res []) with (@nil resource)];
      cbn [callback_res activate_res]; rewrite ?weight_cons, ?weight_nil, ?amount_neg1;
      destruct k; cbn [value]; rewrite ?H4, ?H5, ?H7, ?H8, ?count_app, ?count_single;
      rewrite ?amount_same; repeat match goal with |- context [amount ?k ?x] => rewrite (amount_other k x) by done end; lia.
Qed.

Lemma enlist_spec r f t cb make ps :
  RI r → counters_ok (with_counters f r) → (∀ c, f c = counters r c + held c ps) → Forall (λ p : permit, 0 ≤ p.2) ps →
  makes r t cb make ps →
  wp (enlist t cb make ps) (λ a r', called r (accepted cb a) r') (λ _ r', called r [] r') (with_counters f r).
Proof.
  intros Hri Hok Hf Hps [Hmo He Hr Hk]. unfold enlist. wp_go.
  cbn [next_sequence heap with_counters]. set (a := length (heap r)). set (id := next_sequence r).
  unfold try_push. destruct (command_queue_full _); wp_go.
  { apply called_same; [done|]. eapply (refund_moved r _ ps f); try done. cbn. lia. }
  set (r1 := if cb then _ else _).
  assert (Hr1 : heap r1 = heap r ++ [make id] ∧ cfg r1 = cfg r ∧ committed r1 = committed r ∧ domain r1 = domain r ∧ counters r1 = f ∧
    tables r1 = tables (table_insert t id a r) ∧ callback_activations r1 = (if cb then callback_activations r + 1 else callback_activations r) ∧
    with_callback r1 = (if cb then with_callback r ++ [a] else with_callback r)) by (subst r1; by destruct cb).
  destruct Hr1 as (H1 & H2 & H3 & H4 & H5 & H6 & H7 & H8). split.
  - pose proof (taken_moved r f ps Hri Hok Hf) as Hm.
    eapply moved_ext, moved_trans; [..|exact Hm|eapply (listed_moved (with_counters f r) r1 t id (make id) cb ps); [apply Hm|try done..]].
    + intros k. rewrite !weight_app, weight_neg. cbn [heap with_counters]. fold a. lia.
    + apply (ids_ok_fresh r r1 t a Hri H6). subst r1. by destruct cb.
  - destruct cb; [|done]. constructor; [|by constructor]. split; [|done]. rewrite H1. by apply Hk.
Qed.

Lemma admitted_spec r qs t cb make :
  RI r → Forall (acquisition_ok (cfg r)) qs → makes r t cb make (map acquired qs) →
  wpx (usize_max < counters r TcpQueuedBytes + held TcpQueuedBytes (map acquired qs)) (_ ← acquire_all qs []; enlist t cb make (map acquired qs))
    (λ a r', called r (accepted cb a) r') (λ _ r', called r [] r') r.
Proof.
  intros Hri Hqs Hmk. wp_go.
  assert (Hps : Forall (λ p : permit, 0 ≤ p.2) (map acquired qs)).
  { apply Forall_map. eapply Forall_impl; [exact Hqs|]. intros q. apply acquired_nonneg. }
  pose proof (acquire_all_spec qs [] r (counters r)) as Hacq. rewrite with_counters_id in Hacq.
  eapply wp_mono; [apply Hacq; try apply Hri; try done| |].
  - intros c. change (held c []) with 0. lia.
  - intros _ r1 (f & -> & Hok & Hf). cbn [app] in Hf. eapply wp_may; [by apply enlist_spec|done].
  - intros e r1 (f & -> & Hf). apply called_same; [done|].
    apply books_moved; try done; try apply Hri. intros k. rewrite weight_nil. destruct k; cbn; rewrite ?Hf; lia.
Qed.

(** Admissions and byte budgets refuse, they do not panic. *)
Lemma admitted_returns r qs t cb make :
  RI r → Forall (acquisition_ok (cfg r)) qs → held TcpQueuedBytes (map acquired qs) = 0 → makes r t cb make (map acquired qs) →
  wp (_ ← acquire_all qs []; enlist t cb make (map acquired qs))
    (λ a r', called r (accepted cb a) r') (λ _ r', called r [] r') r.
Proof.
  intros Hri Hqs Htcp Hmk. eapply wp_may; [by apply admitted_spec|]. pose proof (ri_counters _ Hri TcpQueuedBytes) as H. cbn in H. lia.
Qed.

Lemma validate_limits_total c request (Q : unit → Prop) (E : Error → Prop) :
  Q tt → (∀ e, E e) → owp (validate_request_limits c request) Q E.
Proof.
  intros HQ HE. unfold validate_request_limits. destruct (_ <? _); [by apply owp_err|]. destruct (_ <? _); [by apply owp_err|].
  cbv zeta. destruct (match foldl _ _ _ with Some _ => _ | None => _ end); [by apply owp_err|by apply owp_ok].
Qed.

Lemma callback_acquisition_ok r cb e :
  Forall (acquisition_ok (cfg r)) (callback_acquisition cb r e) ∧
  map acquired (callback_acquisition cb r e) = if_held cb CallbackInflight.
Proof. destruct cb; (split; [by repeat constructor|done]). Qed.
Lemma dns_acquisition_ok r h e :
  Forall (acquisition_ok (cfg r)) (dns_acquisition h r e) ∧ map acquired (dns_acquisition h r e) = if_held h ResolutionInflight.
Proof. destruct h; (split; [by repeat constructor|done]). Qed.

(** Refusals change nothing. *)
Ltac refused Hri := wp_go; exact (called_nothing _ Hri).

Lemma accept_spec r request admission cb :
  RI r →
  wp (accept request admission cb) (λ a r', called r (accepted cb a) r') (λ _ r', called r [] r') r.
Proof.
  intros Hri. unfold accept. wp_go. destruct (bool_decide (lifecycle r = Running)); cbn [negb]; [|refused Hri].
  destruct (_ =? _); [refused Hri|]. wp_go. apply validate_limits_total; [|intros; by apply called_nothing].
  unfold checked. destruct admission; [refused Hri|]. apply wp_bind, wp_ret.
  destruct (callback_acquisition_ok r cb callback_full) as [Hcb Hacq].
  apply (admitted_returns r _ TRequests cb); [done|by constructor| |]; cbn [map]; rewrite Hacq.
  - by destruct cb.
  - split; try done.
    + intros id. cbn. split_and!; try done. by apply fresh_address.
    + intros id k. unfold object_res. destruct cb; weights.
    + intros -> id h. cbn. by rewrite lookup_app_r, Nat.sub_diag by done.
Qed.

Lemma accept_resolve_spec r max_results ceiling cb :
  RI r →
  wp (accept_resolve max_results ceiling cb) (λ a r', called r (accepted cb a) r') (λ _ r', called r [] r') r.
Proof.
  intros Hri. unfold accept_resolve. wp_go. destruct (bool_decide (lifecycle r = Running)); cbn [negb]; [|refused Hri].
  destruct (match max_results with Some _ => _ | None => _ end); [refused Hri|].
  destruct (native_resolver_supported (cfg r)); cbn [negb]; [|refused Hri]. destruct (_ =? _); [refused Hri|].
  destruct (callback_acquisition_ok r cb callback_full) as [Hcb Hacq].
  apply (admitted_returns r _ TResolutions cb); [done|by constructor| |]; cbn [map]; rewrite Hacq.
  - by destruct cb.
  - split; try done.
    + intros id. cbn. split_and!; try done. by apply fresh_address.
    + intros id k. unfold object_res. destruct cb; weights.
    + intros -> id h. cbn. by rewrite lookup_app_r, Nat.sub_diag by done.
Qed.

Lemma checked_add_some m a b n : checked_add m a b = Some n → n = a + b ∧ a + b ≤ m.
Proof. unfold checked_add. destruct (Z.leb_spec (a + b) m); [|done]. by intros [= <-]. Qed.

Lemma accept_stream_spec r validate request admission window bind :
  RI r → 0 ≤ window →
  wpx (command_queue_full r = true) (accept_stream validate request admission window bind)
    (λ a r', called r (accepted false a) r') (λ _ r', called r [] r') r.
Proof.
  intros Hri Hwin. unfold accept_stream. wp_go. destruct (streaming_supported (cfg r)); cbn [negb]; [|refused Hri].
  destruct (bool_decide (lifecycle r = Running)); cbn [negb]; [|refused Hri]. destruct (_ =? _); [refused Hri|].
  unfold checked. destruct validate; [refused Hri|]. apply wp_bind, wp_ret. wp_go.
  apply validate_limits_total; [|intros; by apply called_nothing]. destruct admission; [refused Hri|]. apply wp_bind, wp_ret.
  cbv zeta. destruct (_ =? 0); [refused Hri|]. destruct (_ <? _); [refused Hri|]. apply wp_bind, wp_lift.
  apply owp_ok_or; [|intros; by apply called_nothing]. intros reserved Hres. apply checked_add_some in Hres as [-> Hres].
  set (reserved := max_stream_queue_bytes_per_request (cfg r) + window) in *.
  assert (Hnn : 0 ≤ reserved) by (destruct Hri as [(_ & H & _)]; lia).
  set (qs := [_; _; _]).
  assert (Hqs : Forall (acquisition_ok (cfg r)) qs) by (by repeat constructor).
  assert (Htcp : held TcpQueuedBytes (map acquired qs) = 0).
  { change (map acquired qs) with [(Inflight, 1); (StreamQueuedBytes, reserved); (QueuedBytes, reserved)]. by rewrite !held_cons, !decide_False. }
  assert (Hmk : makes r TStreams false (λ id, OStream id (mkStreamState false (Some reserved))) (map acquired qs)).
  { split; try done.
    - intros id. split; [by repeat constructor|]. by apply fresh_address.
    - intros id k. unfold object_res. cbn [permits]. cbn [callback_res activate_res]. rewrite weight_nil.
      change (map acquired qs) with (stream_permits (Some reserved)). lia. }
  assert (Hps : Forall (λ p : permit, 0 ≤ p.2) (map acquired qs)).
  { apply Forall_map. eapply Forall_impl; [exact Hqs|]. intros q. apply acquired_nonneg. }
  pose proof (acquire_all_spec qs [] r (counters r)) as Hacq. rewrite with_counters_id in Hacq.
  wp_go. eapply wp_mono; [eapply wp_may; [apply Hacq; try apply Hri; try done|]| |].
  - intros c. change (held c []) with 0. lia.
  - cbn [app]. pose proof (ri_counters _ Hri TcpQueuedBytes) as H. cbn in H. lia.
  - intros _ r1 (f & -> & Hok & Hf). cbn [app] in Hf. destruct bind as [e|]; wp_go.
    + apply called_same; [done|]. eapply (refund_moved r _ _ f); try done. cbn. lia.
    + change (command_queue_full (with_counters f r)) with (command_queue_full r). destruct (command_queue_full r); [by apply wp_stuck|].
      eapply wp_may; [by apply enlist_spec|done].
  - intros e' r1 (f & -> & Hf). apply called_same; [done|].
    apply books_moved; try done; try apply Hri. intros k. rewrite weight_nil. destruct k; cbn; rewrite ?Hf; lia.
Qed.

(** *** Connects *)

Definition connect_acquired (reserved : Z) (hostname cb : bool) : list permit :=
  [(TcpConnections, 1); (QueuedBytes, reserved); (TcpQueuedBytes, reserved)] ++
  if_held hostname ResolutionInflight ++ if_held cb CallbackInflight.
Definition new_connect (reserved : Z) (hostname cb : bool) : TcpConnectInner :=
  mkConnectInner None false false cb false true (Some reserved) (Some reserved) hostname cb.

Lemma new_connect_ok cm a reserved hostname cb : 0 ≤ reserved → ¬ (a ∈ cm.*1) → connect_ok cm a (new_connect reserved hostname cb).
Proof. intros Hr Ha. split; [|done]. by destruct hostname; repeat constructor. Qed.
Lemma new_connect_res k a reserved hostname cb :
  weight k (connect_res a (new_connect reserved hostname cb)) =
  weight k (permit_res (connect_acquired reserved hostname cb)) + weight k (callback_res cb a) + weight k (activate_res cb a).
Proof. unfold new_connect, connect_acquired. destruct hostname, cb; weights. Qed.
Lemma connect_tcp_bytes reserved hostname cb : held TcpQueuedBytes (connect_acquired reserved hostname cb) = reserved.
Proof.
  unfold connect_acquired. rewrite !held_app.
  destruct hostname, cb; cbn [if_held]; rewrite !held_cons; cbn; change (held TcpQueuedBytes []) with 0; repeat case_decide; congruence || lia.
Qed.

Lemma connect_submitted r t qs hostname cb reserved make e1 e2 :
  RI r → 0 ≤ reserved → Forall (acquisition_ok (cfg r)) qs →
  map acquired qs = [(TcpConnections, 1); (QueuedBytes, reserved); (TcpQueuedBytes, reserved)] →
  (∀ id, connect_parts (make id) = Some (id, new_connect reserved hostname cb)) →
  (∀ id, object_ok (committed r) (length (heap r)) (make id)) → (∀ id, entry_ok t id (make id)) →
  wpx (usize_max < counters r TcpQueuedBytes + reserved)
    (_ ← acquire_all (qs ++ dns_acquisition hostname r e1 ++ callback_acquisition cb r e2) [];
     enlist t cb make (map acquired (qs ++ dns_acquisition hostname r e1 ++ callback_acquisition cb r e2)))
    (λ a r', called r (accepted cb a) r') (λ _ r', called r [] r') r.
Proof.
  intros Hri Hres Hqs Hacq Hparts Hok He.
  destruct (callback_acquisition_ok r cb e2) as [Hcb Hcba], (dns_acquisition_ok r hostname e1) as [Hdns Hdnsa].
  assert (Hall : map acquired (qs ++ dns_acquisition hostname r e1 ++ callback_acquisition cb r e2) = connect_acquired reserved hostname cb)
    by by rewrite !map_app, Hacq, Hcba, Hdnsa.
  eapply wp_may; [apply admitted_spec; [done|by repeat apply Forall_app_2|rewrite Hall]|rewrite Hall, connect_tcp_bytes; done].
  split; try done.
  - intros id k. rewrite (connect_res_of _ _ _ _ (Hparts id)). apply new_connect_res.
  - intros _ id h. cbn. rewrite lookup_app_r, Nat.sub_diag by done. cbn. specialize (Hparts id). by destruct (make id).
Qed.

Lemma window_positive c w : 0 ≤ default 0 w → default c w ≠ 0 → 0 ≤ c → 0 < default c w.
Proof. destruct w; cbn; lia. Qed.

Lemma accept_tcp_spec r hostname send receive cb :
  RI r → 0 ≤ default 0 send → 0 ≤ default 0 receive →
  wpx (may_stick r (AcceptTcp hostname send receive cb)) (accept_tcp_connect hostname send receive cb)
    (λ a r', called r (accepted cb a) r') (λ _ r', called r [] r') r.
Proof.
  intros Hri Hs Hr. unfold accept_tcp_connect. wp_go. destruct (bool_decide (lifecycle r = Running)); cbn [negb]; [|refused Hri].
  destruct (standalone_tcp_supported (cfg r)); cbn [negb]; [|refused Hri]. destruct (hostname && _); [refused Hri|].
  assert (Hceil : 0 ≤ max_tcp_queue_bytes_per_connection (cfg r)) by (destruct Hri as [(_ & _ & H)]; lia).
  cbv zeta. set (ceiling := max_tcp_queue_bytes_per_connection (cfg r)) in *. set (sw := default ceiling send). set (rw := default ceiling receive).
  destruct (Z.ltb_spec ceiling sw); [refused Hri|]. destruct (Z.ltb_spec ceiling rw); [refused Hri|]. cbn [orb].
  destruct (Z.eqb_spec sw 0); [refused Hri|]. destruct (Z.eqb_spec rw 0); [refused Hri|]. cbn [orb].
  assert (0 < sw) by by apply window_positive. assert (0 < rw) by by apply window_positive.
  apply wp_bind, wp_lift, owp_ok_or; [|intros; by apply called_nothing]. intros reserved [-> _]%checked_add_some.
  destruct (_ =? 0); [refused Hri|]. destruct (_ =? _); [refused Hri|].
  apply connect_submitted with (reserved := sw + rw); try done.
  - lia.
  - repeat constructor; cbn; lia.
  - intros id. split_and!; try done; try lia.
    + apply new_connect_ok; [lia|by apply fresh_address].
Qed.

Lemma accept_tls_spec r validate hostname send receive cb :
  RI r → 0 ≤ default 0 send → 0 ≤ default 0 receive →
  wpx (may_stick r (AcceptTls validate hostname send receive cb)) (accept_tls_connect validate hostname send receive cb)
    (λ a r', called r (accepted cb a) r') (λ _ r', called r [] r') r.
Proof.
  intros Hri Hs Hr. unfold accept_tls_connect, checked. destruct validate; [refused Hri|]. apply wp_bind, wp_ret. wp_go.
  destruct (bool_decide (lifecycle r = Running)); cbn [negb]; [|refused Hri].
  destruct (standalone_tcp_supported (cfg r)); cbn [negb]; [|refused Hri]. destruct (hostname && _); [refused Hri|].
  assert (Hceil : 0 ≤ max_tcp_queue_bytes_per_connection (cfg r)) by (destruct Hri as [(_ & _ & H)]; lia).
  cbv zeta. set (ceiling := max_tcp_queue_bytes_per_connection (cfg r)) in *. set (sw := default ceiling send). set (rw := default ceiling receive).
  destruct (Z.eqb_spec sw 0); [refused Hri|]. destruct (Z.eqb_spec rw 0); [refused Hri|].
  destruct (Z.ltb_spec ceiling sw); [refused Hri|]. destruct (Z.ltb_spec ceiling rw); [refused Hri|]. cbn [orb].
  assert (0 < sw) by by apply window_positive. assert (0 < rw) by by apply window_positive.
  apply wp_bind, wp_lift, owp_ok_or; [|intros; by apply called_nothing]. intros reserved Hres.
  destruct (checked_add usize_max sw rw) as [sum|] eqn:Hn; [|done]. apply checked_add_some in Hn as [-> _]. cbn in Hres.
  apply checked_add_some in Hres as [-> _]. destruct (_ =? _); [refused Hri|].
  assert (Hextra : TLS_EXTRA_RESERVE = 262144) by done.
  apply connect_submitted with (reserved := sw + rw + TLS_EXTRA_RESERVE); try done.
  - lia.
  - repeat constructor; cbn; lia.
  - intros id. split; [|done]. apply new_connect_ok; [lia|by apply fresh_address].
Qed.

Definition upgrade_reserve : list permit := [(QueuedBytes, TLS_EXTRA_RESERVE); (TcpQueuedBytes, TLS_EXTRA_RESERVE)].

(** The reserve of an upgrade goes to the connection. *)
Lemma upgrade_attached r f l id s ps :
  RI r → heap r !! l = Some (OLive id s) → counters_ok (with_counters f r) → (∀ c, f c = counters r c + held c (upgrade_reserve ++ ps)) →
  session_released s = false →
  moved r (permit_res ps)
    (update l (OLive id (mkLive (session_released s) true (upgrade_reserve ++ reserve s))) (with_counters f r)).
Proof.
  intros Hri Ha Hok Hf Hrel. pose proof (taken_moved _ _ _ Hri Hok Hf) as Hm. pose proof (mv_ri _ _ _ Hm) as Hri1.
  pose proof (ri_objects _ Hri _ _ Ha) as (Hnew & Hnn & _).
  set (live := OLive id _).
  assert (Hm2 : moved (with_counters f r) (neg (permit_res upgrade_reserve)) (update l live (with_counters f r))).
  { change (update l live (with_counters f r)) with (drop_permits [] (update l live (with_counters f r))).
    eapply (change_counted (with_counters f r) _ l _ live []); [done|exact Ha|reflexivity|done|by left| | |reflexivity..|done| |].
    - cbn. rewrite Hrel. split_and!; [done|by repeat constructor|done].
    - refine (tables_same (with_counters f r) _ l Hri1 Ha live _ _); done.
    - intros c. apply Hok.
    - intros k. unfold live, object_res. cbn [reserve]. rewrite permit_res_app, weight_neg, weight_app. change (permit_res []) with (@nil resource).
      rewrite weight_nil. lia. }
  eapply moved_ext; [|exact (moved_trans _ _ _ _ _ Hm Hm2)].
  intros k. rewrite permit_res_app, !weight_app, weight_neg. lia.
Qed.

Lemma accept_upgrade_spec r validate l idle cb id s :
  RI r → (∀ k, 0 ≤ owed r k) → heap r !! l = Some (OLive id s) →
  wpx (may_stick r (AcceptUpgrade validate l idle cb)) (accept_tls_upgrade validate l idle cb)
    (λ a r', called r (accepted cb a) r') (λ _ r', called r [] r') r.
Proof.
  intros Hri Howed Ha. unfold accept_tls_upgrade, checked. destruct validate; [refused Hri|]. apply wp_bind, wp_ret. wp_go. rewrite Ha.
  destruct (bool_decide (lifecycle r = Running)); cbn [negb]; [|refused Hri].
  destruct (bool_decide_reflect (tables r TLive !! id = Some l)) as [Hlive|]; cbn [negb orb]; [|refused Hri].
  destruct (bool_decide _); [refused Hri|]. cbv zeta.
  destruct (callback_acquisition_ok r cb tls_callback_full) as [Hcb Hcba]. set (qs := _ ++ callback_acquisition _ _ _).
  assert (Hqs : Forall (acquisition_ok (cfg r)) qs) by (by apply Forall_app_2; [repeat constructor|]).
  assert (Hacq : map acquired qs = upgrade_reserve ++ if_held cb CallbackInflight) by (unfold qs; by rewrite map_app, Hcba).
  assert (Hcb0 : held TcpQueuedBytes (if_held cb CallbackInflight) = 0) by by destruct cb.
  pose proof (acquire_all_spec qs [] r (counters r)) as Hall. rewrite with_counters_id in Hall. rewrite Hcba. fold upgrade_reserve.
  wp_go. eapply wp_mono; [eapply wp_may; [apply Hall; try apply Hri; try done|]| |].
  - intros c. change (held c []) with 0. lia.
  - cbn [app may_stick reserves]. rewrite Hacq, held_app, Hcb0. unfold upgrade_reserve. rewrite !held_cons. cbn [fst snd].
    rewrite decide_False, decide_True by done. change (held TcpQueuedBytes []) with 0. lia.
  - intros _ r1 (f & -> & Hok & Hf). cbn [app] in Hf. rewrite Hacq in Hf. unfold begin_upgrade.
    destruct (session_released s) eqn:Hrel; cbn [orb].
    { wp_go. apply called_same; [done|]. eapply (refund_moved r _ _ f); try done. by destruct cb; repeat constructor. }
    destruct (_ || _); [wp_go; apply called_same; [done|]; eapply (refund_moved r _ _ f); try done; by destruct cb; repeat constructor|].
    unfold attach_tls_reserve. cbn [session_released io_upgrading reserve negb orb]. wp_go.
    pose proof (upgrade_attached r f l id s (if_held cb CallbackInflight) Hri Ha Hok Hf Hrel) as Hm. rewrite Hrel in Hm.
    set (r2 := update l _ _) in *. pose proof (mv_ri _ _ _ Hm) as Hri2.
    unfold try_push. destruct (command_queue_full _); wp_go.
    + split; [|done]. eapply moved_ext; [|eapply moved_trans; [exact Hm|]].
      2: { apply drop_owned; [done|by destruct cb; repeat constructor|]. intros c. rewrite (mv_owed _ _ _ Hm), weight_permits.
           specialize (Howed (KCounter c)). lia. }
      intros k. change (conts_res []) with (@nil resource). rewrite weight_app, weight_neg, weight_nil. lia.
    + change (length (heap r2)) with (length (heap (set_queue (queue r2) (generation r2) r2))). set (r3 := if cb then _ else _).
      assert (Hr3 : heap r3 = heap r2 ++ [OTls id 0 0 true (mkConnectInner None false false cb false false None None false cb)])
        by (subst r3; by destruct cb).
      split.
      * eapply moved_ext, moved_trans; [..|exact Hm|eapply (listed_moved r2 r3 TTls id _ cb (if_held cb CallbackInflight)); [done|exact Hr3|..]];
          try (subst r3; by destruct cb).
        -- intros k. rewrite !weight_app, weight_neg. cbn [heap set_queue]. lia.
        -- assert (Hids : ids_ok (tables (table_insert TTls id (length (heap r2)) r2)) (next_sequence r2)).
           { apply ids_ok_live; [done|by left|left; by exists l]. }
           subst r3. by destruct cb.
        -- pose proof (fresh_address r2 Hri2). split; [|done]. split; [done|]. done.
        -- intros k. destruct cb; weights.
      * destruct cb; [|done]. constructor; [|by constructor]. split; [|done]. rewrite Hr3. cbn. by rewrite lookup_app_r, Nat.sub_diag by done.
  - intros e r1 (f & -> & Hf). apply called_same; [done|].
    apply books_moved; try done; try apply Hri. intros k. rewrite weight_nil. destruct k; cbn; rewrite ?Hf; lia.
Qed.

(** ** Connections *)

Definition live_reserve (queued metric : Z) : list permit := [(TcpConnections, 1); (QueuedBytes, queued); (TcpQueuedBytes, metric)].

(** The permits of a connect go to its connection. *)
Lemma live_moved r r1 r2 id ps res :
  moved r (permit_res ps ++ res) r1 → is_Some (tables r1 TLive !! id) ∨ is_Some (tables r1 TTls !! id) ∨ tables r1 TConnects !! id = None →
  id < next_sequence r1 → Forall (λ p : permit, 0 ≤ p.2) ps →
  r2 = table_insert TLive id (length (heap r1)) (set_heap (heap r1 ++ [OLive id (mkLive false false ps)]) r1) →
  moved r res r2.
Proof.
  intros Hm Hin Hlt Hps ->. pose proof (mv_ri _ _ _ Hm) as Hri.
  eapply moved_ext; [|eapply moved_trans; [exact Hm|]].
  2: { eapply (listed_moved r1 _ TLive id _ false ps); [done|reflexivity..| | |done|].
    - destruct (ri_ids _ Hri) as [Hids Hdis]. split.
      + intros t id' b. cbn. destruct (decide _) as [->|]; [|eauto]. intros [[<- <-]|[_ Hb]]%lookup_insert_Some; eauto.
      + intros id' Hc. change (is_Some (tables r1 TConnects !! id')) in Hc. specialize (Hdis id' Hc) as [Hl Ht]. split; [|done].
        change (<[id := length (heap r1)]> (tables r1 TLive) !! id' = None). rewrite lookup_insert_ne; [done|]. intros ->. destruct Hin as [[? ?]|[[? ?]|Hn]]; [congruence..|]. rewrite Hn in Hc. by destruct Hc.
    - split; [by apply fresh_address|done].
    - intros k. unfold object_res. cbn [reserve callback_res activate_res]. rewrite weight_nil. lia. }
  intros k. change (conts_res (accepted false (length (heap r1)))) with (@nil resource). rewrite !weight_app, weight_neg, weight_nil. lia.
Qed.

Lemma tcp_connected_spec r a id sw rw s :
  RI r → (∀ k, 0 ≤ owed r k) → heap r !! a = Some (OConnect id sw rw s) → dns_borrow s = false →
  wp (complete_tcp_connected a) (λ job r', moved r (job_resources job) r' ∧ opt_job_ok (committed r') job) (λ _ _, False) r.
Proof.
  intros Hri Howed Ha Hdns. pose proof (ri_objects _ Hri _ _ Ha) as Hok. cbn in Hok.
  destruct Hok as ([Hnn Hs] & Hsw & Hrw & Hperm). unfold complete_tcp_connected. wp_go. rewrite Ha.
  destruct (bool_decide (lifecycle r = Running)); cbn [negb orb]; [|wp_go; split; [by apply moved_refl|done]].
  destruct (bool_decide_reflect (tables r TConnects !! id = Some a)) as [Hreg|]; cbn [negb orb]; [|wp_go; split; [by apply moved_refl|done]].
  destruct s as [comp term ready cb act occ q m dns cbp]; cbn in Hdns, Hnn, Hs, Hperm |- *. subst dns.
  destruct term; [wp_go; split; [by apply moved_refl|done]|].
  destruct (Hperm eq_refl) as (-> & [queued ->] & [metric ->]). destruct Hs as (Hnew & -> & -> & ->). cbn [negb]. unfold pair_asserts.
  rewrite (proj2 (Z.ltb_lt _ _) Hsw), (proj2 (Z.ltb_lt _ _) Hrw). cbn [negb andb orb].
  set (c := Completed (length (heap r))). destruct (committed_here (committed r) a c) as [Hin Hin'].
  change (connect_permits _) with (live_reserve queued metric) in Hnn.
  assert (Hgo : ∀ job s', con_terminal s' = true → connect_ok (committed r ++ [(a, c)]) a s' → opt_job_ok (committed r ++ [(a, c)]) job →
    (∀ k, weight k (permit_res (if_held cb CallbackInflight)) + weight k (callback_res cb a) + weight k (activate_res (cb && negb act) a)
          = weight k (connect_res a s') + weight k (job_resources job)) →
    moved r (job_resources job) (table_insert TLive id (length (heap r)) (table_remove TConnects id (set_heap
      (<[a := OConnect id sw rw s']> (heap r) ++ [OLive id (mkLive false false (live_reserve queued metric))])
      (log_commit a c (update a (OConnect id sw rw s') r)))))).
  { intros job s' Hterm Hok Hj Hw.
    eapply (live_moved r (table_remove TConnects id (update a (OConnect id sw rw s') (log_commit a c r))) _ id (live_reserve queued metric)).
    - change (update a (OConnect id sw rw s') (log_commit a c r)) with (drop_permits [] (update a (OConnect id sw rw s') (log_commit a c r))).
      change (OConnect id sw rw s') with (with_inner s' (OConnect id sw rw (mkConnectInner None false false cb act true (Some queued) (Some metric) false cb))).
      eapply commit_registered; [done|done|exact Ha|done|done|done|done|done|done| |].
      + intros c'. rewrite weight_app. pose proof (weight_nonneg_permits c' _ Hnn). pose proof (job_res_counter_nonneg c' _ _ Hj). lia.
      + intros k. change (permit_res []) with (@nil resource). rewrite weight_nil, weight_app. specialize (Hw k).
        unfold connect_res at 1. cbn [con_terminal con_callback_permit con_callback con_callback_active]. change (false && _) with false. cbv iota. rewrite !weight_app, weight_nil.
        change (connect_permits _) with (live_reserve queued metric). lia.
    - right; right. change (delete id (tables r TConnects) !! id = None). apply lookup_delete_eq.
    - cbn. destruct (ri_ids _ Hri) as [H _]. eauto.
    - done.
    - cbn. rewrite length_insert. done. }
  unfold take_connect_job. destruct act, cb; cbn [con_callback_active delivery_ready con_callback con_completion con_callback_permit negb orb]; wp_go;
    (split; [apply Hgo; try done|]); try (split; [by repeat constructor|done]); try done; try (intros k; weights).
  all: split; [by constructor|]; cbn; split_and!; try done; try (by intros ? [= <-]); try by eexists.
Qed.

(** A TLS connect that goes on with other permits. *)
Lemma tls_change r a id sw rw up s s' ps res :
  RI r → (∀ k, 0 ≤ owed r k) → heap r !! a = Some (OTls id sw rw up s) → con_terminal s' = false → con_terminal s = false →
  (dns_borrow s = false → dns_borrow s' = false) → connect_ok (committed r) a s' → Forall (λ p : permit, 0 ≤ p.2) ps → (∀ c, 0 ≤ weight (KCounter c) res) →
  (∀ k, weight k (connect_res a s) = weight k (connect_res a s') + weight k (permit_res ps) + weight k res) →
  moved r res (drop_permits ps (update a (OTls id sw rw up s') r)).
Proof.
  intros Hri Howed Ha Hterm' Hterm Hdns Hok' Hps Hres Hw. pose proof (ri_objects _ Hri _ _ Ha) as [Hok Hwin].
  eapply change; [eassumption|eassumption|eassumption|reflexivity|done|by left|by split| |reflexivity..|done|done|exact Hw].
  refine (tables_same r _ a Hri Ha _ _ _); [done|]. by intros ? [= <-].
Qed.

Lemma tls_transport_spec r a id sw rw up s :
  RI r → (∀ k, 0 ≤ owed r k) → heap r !! a = Some (OTls id sw rw up s) → dns_borrow s = false →
  wp (complete_tls_transport_connected a) (λ _ r', moved r [] r') (λ _ _, False) r.
Proof.
  intros Hri Howed Ha Hdns. pose proof (ri_objects _ Hri _ _ Ha) as [[Hnn Hs] Hwin]. unfold complete_tls_transport_connected. wp_go. rewrite Ha.
  destruct (bool_decide (lifecycle r = Running)); cbn [negb orb]; [|wp_go; by apply moved_refl].
  destruct up; cbn [orb]; [wp_go; by apply moved_refl|]. destruct (Hwin eq_refl) as [Hsw Hrw].
  destruct (bool_decide_reflect (tables r TTls !! id = Some a)) as [Hreg|]; cbn [negb orb]; [|wp_go; by apply moved_refl].
  destruct s as [comp term ready cb act occ q m dns cbp]; cbn in Hdns, Hnn, Hs |- *. subst dns.
  destruct term; [wp_go; by apply moved_refl|].
  destruct occ; cbn [negb]; [|wp_go; by apply moved_refl].
  destruct q as [queued|], m as [metric|].
  - unfold pair_asserts. rewrite (proj2 (Z.ltb_lt _ _) Hsw), (proj2 (Z.ltb_lt _ _) Hrw). cbn [negb andb]. wp_go.
    set (s' := mkConnectInner _ _ _ _ _ _ _ _ _ _).
    eapply (live_moved r (update a (OTls id sw rw false s') r) _ id (live_reserve queued metric) []).
    + rewrite app_nil_r. change (update a (OTls id sw rw false s') r) with (drop_permits [] (update a (OTls id sw rw false s') r)).
      eapply tls_change; [done|done|exact Ha|done|done|done| |done| |].
      * by split; [constructor|].
      * intros c. by apply weight_nonneg_permits.
      * intros k. subst s'. unfold live_reserve. weights.
    + right; left. by exists a.
    + cbn. destruct (ri_ids _ Hri) as [H _]. eauto.
    + done.
    + done.
  - wp_go. eapply tls_change; [done|done|exact Ha|done|done|done| | |done|].
    + by split; [constructor|].
    + apply Forall_cons in Hnn as [? Hnn]. apply Forall_cons in Hnn as [? Hnn]. by repeat constructor.
    + intros k. weights.
  - wp_go. eapply tls_change; [done|done|exact Ha|done|done|done| | |done|].
    + apply Forall_cons in Hnn as [_ Hnn]. by split.
    + by repeat constructor.
    + intros k. weights.
  - wp_go. eapply tls_change; [done|done|exact Ha|done|done|done| | |done|].
    + by split; [constructor|].
    + by repeat constructor.
    + intros k. weights.
Qed.

Lemma tls_connected_spec r a id sw rw up s :
  RI r → (∀ k, 0 ≤ owed r k) → heap r !! a = Some (OTls id sw rw up s) →
  wp (complete_tls_connected a) (λ won r', moved r (if won : bool then [(KPublish a, 1)] else []) r') (λ _ _, False) r.
Proof.
  intros Hri Howed Ha. unfold complete_tls_connected. wp_go. rewrite Ha.
  destruct (bool_decide (lifecycle r = Running)); cbn [negb orb]; [|wp_go; by apply moved_refl].
  destruct (bool_decide_reflect (tables r TTls !! id = Some a)) as [Hreg|]; cbn [negb orb]; [|wp_go; by apply moved_refl].
  destruct (tables r TLive !! id) as [l|] eqn:Hl; [|wp_go; by apply moved_refl].
  destruct (ri_tables _ Hri _ _ _ Hl) as (ol & Hol & Hel). destruct ol as [| | | | |lid live|]; try done. rewrite Hol.
  destruct (session_released live); [wp_go; by apply moved_refl|].
  destruct (ri_tables _ Hri _ _ _ Hreg) as (x & Hx & Hex). rewrite Ha in Hx. injection Hx as <-. destruct Hex as [_ Hterm].
  assert (Hne : l ≠ a) by congruence.
  set (upd := if up then _ else _).
  assert (Hup : wp upd (λ _ r1, moved r [] r1 ∧ heap r1 !! a = Some (OTls id sw rw up s)) (λ _ _, False) r).
  { subst upd. destruct up; wp_go; [|split; [by apply moved_refl|done]]. split; [|cbn; by rewrite list_lookup_insert_ne].
    pose proof (ri_objects _ Hri _ _ Hol) as Hok. 
    eapply change_kept; [eassumption|eassumption|exact Hol|reflexivity|done|by left| | |reflexivity..|done|].
    - destruct Hok as (? & ? & _). by split_and!.
    - refine (tables_same r _ l Hri Hol _ _ _); done.
    - intros k. unfold object_res. cbn [reserve]. rewrite weight_nil. lia. }
  wp_go. eapply wp_mono; [exact Hup| |done]. intros _ r1 [Hm1 Ha1]. pose proof (mv_ri _ _ _ Hm1) as Hri1.
  assert (Ho1 : ∀ k, 0 ≤ owed r1 k) by (by eapply owed_moved).
  wp_go. unfold tls_commit, commit_terminal. wp_go. rewrite Ha1. cbn [connect_parts]. rewrite Hterm. wp_go. cbn [negb]. wp_go.
  change [(KPublish a, 1)] with ([] ++ [(KPublish a, 1)]). eapply moved_trans; [exact Hm1|]. by eapply (complete_registered r1 TTls).
Qed.

Lemma tls_state_spec r a c :
  RI r → (∀ k, 0 ≤ owed r k) →
  wp (complete_tls_state a c)
    (λ '(won, io) r', moved r (if won : bool then [(KPublish a, 1)] else []) r' ∧
       (won = true → ∃ o, heap r' !! a = Some o ∧ connect_table TTls o) ∧
       (∀ l, io = Some l → ∃ id s, heap r' !! l = Some (OLive id s))) (λ _ _, False) r.
Proof.
  intros Hri Howed. unfold complete_tls_state. wp_go. destruct (registered TTls a r) as [id|] eqn:Hreg.
  2: { wp_go. split_and!; [by apply moved_refl|done|done]. }
  destruct (registered_inv _ _ _ _ Hri Hreg ltac:(by right)) as (o & s & Ha & Hp & Hterm & Hk & Hin).
  unfold tls_commit, commit_terminal. wp_go. rewrite Ha, Hp, Hterm. wp_go.
  pose proof (complete_registered r TTls a id o s c Hri Howed Ha Hp Hterm Hk) as Hm. split_and!; [done|..].
  - intros _. destruct (ev_heap _ _ (mv_evolves _ _ _ Hm) a o Ha) as (o' & Ha' & Hkind). exists o'. split; [done|]. by destruct o, o'.
  - intros l Hl. assert (Hlive : tables r TLive !! id = Some l) by (by destruct c).
    destruct (ri_tables _ Hri _ _ _ Hlive) as (ol & Hol & Hel). destruct ol as [| | | | |lid live|]; try done.
    destruct (ev_heap _ _ (mv_evolves _ _ _ Hm) l _ Hol) as (o' & Hl' & Hkind). destruct o'; try done. eauto.
Qed.

(** ** Cancellation and shutdown *)

Lemma conts_free cs : Forall (λ c, cont_res c = []) cs → conts_res cs = [].
Proof. induction 1 as [|c cs Hc _ IH]; [done|]. unfold conts_res in *. cbn [map concat]. by rewrite Hc, IH. Qed.
Lemma conts_map_free {A} (f : A → cont) l : (∀ x, cont_res (f x) = []) → conts_res (map f l) = [].
Proof. intros Hf. apply conts_free, Forall_map, Forall_true, Hf. Qed.
Lemma conts_publish l : conts_res (map Publish l) = publish_res l.
Proof. induction l as [|a l IH]; [done|]. unfold conts_res in *. cbn [map concat]. by rewrite IH. Qed.

Lemma states_entry t barrier r a : a ∈ states t barrier r → ∃ id, tables r t !! id = Some a.
Proof.
  unfold states. intros Ha%list_elem_of_fmap. destruct Ha as ([id x] & -> & Hin). apply list_elem_of_In, filter_In in Hin as [Hin _].
  exists id. by apply elem_of_map_to_list, list_elem_of_In.
Qed.

(** What the registered states allow. *)
Lemma states_conts t barrier r (f : nat → cont) :
  RI r → (∀ id a o, heap r !! a = Some o → entry_ok t id o → cont_ok r (f a)) → Forall (cont_ok r) (map f (states t barrier r)).
Proof.
  intros Hri Hf. apply Forall_map, Forall_forall. intros a (id & Hid)%states_entry.
  destruct (ri_tables _ Hri _ _ _ Hid) as (o & Ha & He). eauto.
Qed.
Ltac entry_cont := let o := fresh "o" in intros ? ? o Ha He; split; [|done]; cbn; rewrite Ha; by destruct o.

Lemma complete_all_spec barrier tcp tls rest stream r :
  RI r → (∀ k, 0 ≤ owed r k) → stream = CancelStream ∨ (∃ e, stream = λ a, FailStream a e) →
  wp (complete_all barrier tcp tls rest stream) (λ cs r', moved r (conts_res cs) r' ∧ Forall (cont_ok r') cs) (λ _ _, False) r.
Proof.
  intros Hri Howed Hstream. unfold complete_all. wp_go.
  eapply wp_mono; [apply (complete_each_spec TTls); [|done|done]; intros; apply (complete_locked_spec TTls); auto| |done].
  intros tls_states r1 [Hm1 Hk1]. pose proof (mv_ri _ _ _ Hm1) as Hri1.
  assert (Ho1 : ∀ k, 0 ≤ owed r1 k) by (eapply owed_moved; [done|done|intros; apply publish_res_nonneg]).
  wp_go. eapply wp_mono; [apply (complete_each_spec TConnects); [|done|done]; intros; apply (complete_locked_spec TConnects); auto| |done].
  intros tcp_states r2 [Hm2 Hk2]. wp_go. pose proof (mv_ri _ _ _ Hm2) as Hri2.
  assert (Hfree : ∀ a, cont_res (stream a) = []) by (by destruct Hstream as [->|[e ->]]).
  split.
  - eapply moved_ext; [|eapply moved_trans; [exact Hm1|exact Hm2]]. intros k.
    rewrite !conts_res_app, !conts_map_free, conts_publish by done. cbn [app].
    change (conts_res [PublishAll tcp_states []]) with ((publish_res tcp_states ++ []) ++ []).
    rewrite !app_nil_r, !weight_app. lia.
  - repeat (apply Forall_app; split); try (by apply states_conts; [done|entry_cont]).
    + apply states_conts; [done|]. destruct Hstream as [->|[e ->]]; entry_cont.
    + constructor; [|done]. split; [|done]. cbn. apply forallb_forall. intros a Ha%list_elem_of_In.
      rewrite Forall_forall in Hk2. destruct (Hk2 a Ha) as (o & -> & Hk). by destruct o.
    + apply Forall_map. eapply Forall_impl; [exact Hk1|]. intros a (o & Ha & Hk). split; [|done].
      destruct (ev_heap _ _ (mv_evolves _ _ _ Hm2) a o Ha) as (o' & Ha' & Hkind). cbn. rewrite Ha'. by destruct o, o'.
Qed.

(** A change to what the books do not record. *)
Lemma quiet_moved r r1 :
  RI r → cfg r1 = cfg r → next_sequence r ≤ next_sequence r1 → counters r1 = counters r → heap r1 = heap r → committed r1 = committed r →
  (∀ t id b, tables r1 t !! id = Some b → tables r t !! id = Some b) →
  jobs (domain r1) = jobs (domain r) → ran (domain r1) = ran (domain r) → lost (domain r1) = lost (domain r) →
  (sealed (domain r) = true → sealed (domain r1) = true) → running (domain r1) = running (domain r) → callback_activations r1 = callback_activations r → with_callback r1 = with_callback r →
  moved r [] r1.
Proof.
  intros Hri Hcfg Hseq Hcnt Hheap Hcm Htab Hj Hran Hlost Hsealed Hrun Hact Hwc.
  apply books_moved; rewrite ?Hj, ?Hran, ?Hlost; try done; try apply Hri.
  - intros c. by rewrite Hcnt.
  - intros Hs. destruct (sealed (domain r)) eqn:E; [by rewrite Hsealed in Hs|by apply (ri_lost _ Hri)].
  - intros k. rewrite weight_nil. destruct k; cbn [value]; rewrite ?Hcnt, ?Hact, ?Hwc, ?Hran, ?Hlost, ?Hrun; lia.
Qed.
Lemma remove_moved t id r : RI r → moved r [] (table_remove t id r).
Proof. intros Hri. apply quiet_moved; try done. intros t' id' b Hb. by apply table_remove_lookup in Hb as [? _]. Qed.

Lemma called_conts r cs r' : RI r → moved r (conts_res cs) r' → Forall (cont_ok r') cs → called r cs r'.
Proof. by split. Qed.

(** With calls that hold nothing after them. *)
Lemma conts_followed r cs ds r' :
  RI r → moved r (conts_res cs) r' ∧ Forall (cont_ok r') cs → conts_res ds = [] → Forall (cont_ok r') ds → called r (cs ++ ds) r'.
Proof.
  intros Hri [Hm Hcs] Hds Hok. apply called_conts; [done| |by apply Forall_app]. by rewrite conts_res_app, Hds, app_nil_r.
Qed.

Lemma cancel_all_spec r : RI r → (∀ k, 0 ≤ owed r k) → wp cancel_all (λ cs r', called r cs r') (λ _ _, False) r.
Proof.
  intros Hri Howed. unfold cancel_all. wp_go. eapply wp_mono; [apply complete_all_spec; auto| |done]. intros cs r' H. wp_go.
  apply conts_followed; try done. by repeat constructor.
Qed.

Lemma fail_all_spec r e : RI r → (∀ k, 0 ≤ owed r k) → wp (fail_all e) (λ cs r', called r cs r') (λ _ _, False) r.
Proof.
  intros Hri Howed. unfold fail_all. wp_go. eapply wp_mono; [apply complete_all_spec; eauto| |done]. intros cs r' H. wp_go.
  apply conts_followed; try done. by repeat constructor.
Qed.

Lemma begin_shutdown_spec r : RI r → (∀ k, 0 ≤ owed r k) → wp begin_shutdown (λ cs r', called r cs r') (λ _ _, False) r.
Proof.
  intros Hri Howed. unfold begin_shutdown. wp_go. set (r1 := if bool_decide _ then _ else _).
  assert (Hm1 : moved r [] r1) by (subst r1; destruct (bool_decide _); [by apply quiet_moved|by apply moved_refl]).
  pose proof (mv_ri _ _ _ Hm1) as Hri1.
  eapply wp_mono; [apply complete_all_spec; [done|by eapply owed_moved|auto]| |done]. intros cs r' [Hm2 Hcs]. wp_go.
  apply conts_followed; [done| |done|by repeat constructor]. split; [|done]. by apply (moved_trans _ [] r1).
Qed.

(** What a state registered under [id] allows. *)
Lemma entry_conts r t id (f : nat → cont) :
  RI r → (∀ a o, heap r !! a = Some o → entry_ok t id o → cont_ok r (f a)) → ∀ a, tables r t !! id = Some a → cont_ok r (f a).
Proof. intros Hri Hf a Ha. destruct (ri_tables _ Hri _ _ _ Ha) as (o & Ho & He). eauto. Qed.
Ltac one_entry t :=
  apply (entry_conts _ t); [done|let o := fresh "o" in intros ? o Ha He; split; [|done]; cbn; rewrite Ha; by destruct o].

Lemma cancel_conts r r' id (tcp tls live : option nat) :
  RI r → moved r (publish_res (option_list tcp ++ option_list tls)) r' → tcp = None ∨ tls = None →
  (∀ a, tcp = Some a ∨ tls = Some a → cont_ok r' (Publish a)) → (∀ l, live = Some l → tables r' TLive !! id = Some l) →
  called r
    (match tcp, tls, live, tables r' TRequests !! id, tables r' TStreams !! id with
     | Some a, _, _, _, _ => [Publish a]
     | None, Some a, io, _, _ => match io with Some l => [ConnectionEnded l] | None => [] end ++ [Publish a]
     | None, None, Some l, _, _ => [ConnectionEnded l]
     | None, None, None, Some a, _ => [CompleteState a Cancelled]
     | None, None, None, None, Some a => [CancelStream a]
     | None, None, None, None, None => []
     end
     ++ match tables r' TResolutions !! id with Some a => [CompleteResolve a Cancelled] | None => [] end ++ [Wake]) r'.
Proof.
  intros Hri Hm Hone Hpub Hlive. pose proof (mv_ri _ _ _ Hm) as Hri'.
  assert (Hl : ∀ l, tables r' TLive !! id = Some l → cont_ok r' (ConnectionEnded l)) by one_entry TLive.
  assert (Hr : ∀ a, tables r' TRequests !! id = Some a → cont_ok r' (CompleteState a Cancelled)) by one_entry TRequests.
  assert (Hs : ∀ a, tables r' TStreams !! id = Some a → cont_ok r' (CancelStream a)) by one_entry TStreams.
  assert (Hv : ∀ a, tables r' TResolutions !! id = Some a → cont_ok r' (CompleteResolve a Cancelled)) by one_entry TResolutions.
  apply conts_followed; [done| | |].
  - destruct tcp as [a|]; [destruct Hone as [?| ->]; [done|]|destruct tls as [a|]; destruct live as [l|]];
      try destruct (tables r' TRequests !! id) as [q|]; try destruct (tables r' TStreams !! id) as [st|];
      (split; [exact Hm|]); cbn [app]; repeat first [apply Forall_nil_2|apply Forall_cons_2]; first [by apply Hpub; auto|by apply Hl, Hlive|by apply Hr|by apply Hs].
  - by destruct (tables r' TResolutions !! id).
  - destruct (tables r' TResolutions !! id); cbn [app]; repeat first [apply Forall_nil_2|apply Forall_cons_2]; first [by apply Hv|done].
Qed.

Lemma cancel_spec r engine id : RI r → (∀ k, 0 ≤ owed r k) → wp (cancel engine id) (λ cs r', called r cs r') (λ _ _, False) r.
Proof.
  intros Hri Howed. unfold cancel. wp_go. destruct (negb _); [wp_go; by apply called_nothing|]. cbv zeta.
  destruct (ri_ids _ Hri) as [_ Hdis]. destruct (tables r TConnects !! id) as [a|] eqn:Hc.
  - destruct (Hdis id) as [Hnl Hnt]; [by rewrite Hc|]. rewrite Hnt. wp_go.
    eapply wp_mono; [apply (complete_locked_spec TConnects); auto| |done]. intros won r1 [Hm Hk]. wp_go.
    destruct won.
    + apply (cancel_conts r r1 id (Some a) None None); try done; [by right|]. intros b [[= <-]|[=]]. destruct (Hk eq_refl) as (o & Ha & Ho).
      split; [|done]. cbn. rewrite Ha. by destruct o.
    + apply (cancel_conts r r1 id None None (tables r1 TLive !! id)); try done; [by left|]. by intros b [[=]|[=]].
  - wp_go. destruct (tables r TTls !! id) as [a|] eqn:Ht; wp_go.
    + eapply wp_mono; [apply (complete_locked_spec TTls); auto| |done]. intros won r1 [Hm Hk]. wp_go.
      destruct won.
      * apply (cancel_conts r r1 id None (Some a) (tables r1 TLive !! id)); try done; [by left|]. intros b [[=]|[= <-]].
        destruct (Hk eq_refl) as (o & Ha & Ho). split; [|done]. cbn. rewrite Ha. by destruct o.
      * apply (cancel_conts r r1 id None None (tables r1 TLive !! id)); try done; [by left|]. by intros b [[=]|[=]].
    + apply (cancel_conts r r id None None (tables r TLive !! id)); try done; [by apply moved_refl|by left|]. by intros b [[=]|[=]].
Qed.
End with_target.
