(* ===== verification/RegistryRuns.v ===== *)
(** * The registry under every interleaving

    Each call and each remainder of one keeps the books, so any number of
    threads, interleaved at the locks in any way, do: every permit is counted
    and given back once, a result is committed once, a callback runs at most
    once and with that result, and every region returns that [blocked] does not
    name. *)

From stdpp Require Import base list gmap strings.
From Stdlib Require Import ZArith Lia.
From S2P Require Import Prelude Errors BodyBudget Request TcpIo Registry RegistryProofs RegistryCalls.

#[local] Arguments len : simpl never.
#[local] Arguments drop_permits : simpl never.
#[local] Arguments drop_permit : simpl never.
#[local] Arguments weight : simpl never.
#[local] Arguments amount : simpl never.
#[local] Arguments heap_res : simpl never.
#[local] Arguments jobs_res : simpl never.
#[local] Arguments object_res : simpl never.
#[local] Arguments permit_res : simpl never.
#[local] Arguments count : simpl never.
#[local] Arguments held : simpl never.

Section with_target.
Context {tgt : Target}.

(** ** One step of a thread *)

Record ready (r : Registry) (c : cont) : Prop := {
  rd_ri : RI r;
  rd_ok : cont_ok r c;
  rd_owed : ∀ k, 0 ≤ owed r k;
  rd_res : ∀ k, weight k (cont_res c) ≤ owed r k
}.

Lemma progressed_call r c cs r' : cont_res c = [] → called r cs r' → progressed r c cs r'.
Proof. intros Hc [Hm Hcs]. split; [|done]. by rewrite Hc. Qed.

Lemma call_wp r c (stuck : Prop) (m : R (list cont)) :
  cont_res c = [] → wpx stuck m (λ cs r', called r cs r') (λ _ _, False) r → wpx stuck m (λ cs r', progressed r c cs r') (λ _ _, False) r.
Proof. intros Hc Hm. eapply wp_mono; [exact Hm| |done]. intros. by apply progressed_call. Qed.

Lemma conts_enqueue job : conts_res (enqueue job) = job_resources job.
Proof. destruct job; [|done]. unfold conts_res. cbn. apply app_nil_r. Qed.
Lemma enqueue_ok r job : opt_job_ok (committed r) job → Forall (cont_ok r) (enqueue job).
Proof. destruct job; [|done]. intros Hj. constructor; [by split|done]. Qed.

Lemma called_job r job r' : RI r → moved r (job_resources job) r' → opt_job_ok (committed r') job → called r (enqueue job) r'.
Proof. intros Hri Hm Hj. apply called_conts; [done|by rewrite conts_enqueue|by apply enqueue_ok]. Qed.
Lemma called_removal r t id job r' :
  RI r → moved r (job_resources job) r' → opt_job_ok (committed r') job → called r ([Remove t id] ++ enqueue job) r'.
Proof.
  intros Hri Hm Hj. apply called_conts; [done| |]; [by rewrite conts_res_app, conts_enqueue|].
  apply Forall_app. split; [by repeat constructor|by apply enqueue_ok].
Qed.

(** A remainder that does its part and leaves nothing. *)
Lemma progressed_done r c r' : RI r → moved r (neg (cont_res c)) r' → progressed r c [] r'.
Proof.
  intros Hri Hm. split; [|done]. by rewrite app_nil_r.
Qed.
Lemma progressed_next r c cs r' :
  RI r → moved r (neg (cont_res c) ++ conts_res cs) r' → Forall (cont_ok r') cs → progressed r c cs r'.
Proof. by split. Qed.

(** The state a call was made with. *)
Ltac the_object H a := destruct (heap _ !! a) as [[]|] eqn:H; try done.

Lemma run_submission r c :
  ready r c →
  match c with Accept _ _ _ | AcceptResolve _ _ _ | AcceptStream _ _ _ _ _ | AcceptTcp _ _ _ _ | AcceptTls _ _ _ _ _ | AcceptUpgrade _ _ _ _ => True | _ => False end →
  wpx (may_stick r c) (run_cont c) (λ cs r', progressed r c cs r') (λ _ _, False) r.
Proof.
  intros [Hri [Hpos Hok] Howed Hres] Hc.
  destruct c; try done; apply call_wp; try done; cbn [run_cont]; apply accepting_wp; cbn [possible] in Hpos.
  - by apply accept_spec.
  - by apply accept_resolve_spec.
  - apply accept_stream_spec; [done|lia].
  - apply andb_true_iff in Hpos as [?%Z.leb_le ?%Z.leb_le]. by apply accept_tcp_spec.
  - apply andb_true_iff in Hpos as [?%Z.leb_le ?%Z.leb_le]. by apply accept_tls_spec.
  - the_object Ha l. by eapply accept_upgrade_spec.
Qed.

(** Finish callbacks of connections. *)
Lemma begin_event_spec r id :
  RI r →
  wp (run_cont (BeginEvent id)) (λ cs r', called r cs r') (λ _ _, False) r.
Proof.
  intros Hri. cbn [run_cont].
  assert (Hev : wp (try_begin_callback_event id) (λ _ r', called r [EndActivation] r') (λ _ r', called r [] r') r).
  { unfold try_begin_callback_event. wp_go. destruct (bool_decide _); cbn [negb]; [|wp_go; by apply called_nothing].
    set (qs := [Admission _ _ _]). pose proof (acquire_all_spec qs [] r (counters r)) as Hacq. rewrite with_counters_id in Hacq.
    wp_go. eapply wp_mono; [eapply wp_may; [apply Hacq; try apply Hri; try done|]| |].
    - by repeat constructor.
    - intros c. change (held c []) with 0. lia.
    - change (held TcpQueuedBytes ([] ++ map acquired qs)) with 0. pose proof (ri_counters _ Hri TcpQueuedBytes) as H. cbn in H. lia.
    - intros _ r1 (f & -> & Hok & Hf). wp_go. split; [|by repeat constructor]. apply (alloc_moved r _ (OEvent id true)); try done.
      + by apply fresh_address.
      + intros t i b Hb. by left.
      + by left.
      + apply Hri.
      + intros k. change (object_res _ (OEvent id true)) with [(KCounter CallbackInflight, 1)].
        change (conts_res [EndActivation]) with [(KActivation, 1)]. rewrite !weight_cons, !weight_nil.
        destruct k as [c| | | | |]; cbn [value set_activations with_counters set_heap counters callback_activations domain with_callback];
          rewrite ?amount_same; repeat match goal with |- context [amount ?k ?x] => rewrite (amount_other k x) by done end; try lia.
        rewrite Hf. change ([] ++ map acquired qs) with [(CallbackInflight, 1)]. unfold held. rewrite permit_res_cons, weight_cons. 
        change (weight (KCounter c) (permit_res [])) with 0. cbn [fst snd]. lia.
    - intros e r1 (f & -> & Hf). apply called_same; [done|].
      apply books_moved; try done; try apply Hri. intros k. rewrite weight_nil. destruct k; cbn; rewrite ?Hf; lia. }
  unfold wpx in *. destruct (try_begin_callback_event id r) as [[]]; done.
Qed.

Lemma event_spec r a c :
  RI r → (∀ k, 0 ≤ owed r k) → c = EventJob a ∨ c = DropEvent a →
  wp (run_cont c) (λ cs r', called r cs r') (λ _ _, False) r.
Proof.
  intros Hri Howed Hc. destruct (heap r !! a) as [[]|] eqn:Ha; 
    try (by destruct Hc as [-> | ->]; cbn [run_cont]; wp_go; rewrite Ha; wp_go; apply called_nothing).
  destruct pending; [|by destruct Hc as [-> | ->]; cbn [run_cont]; wp_go; rewrite Ha; wp_go; apply called_nothing].
  pose proof (ri_objects _ Hri _ _ Ha) as Hnew. destruct Hc as [-> | ->]; cbn [run_cont]; wp_go; rewrite Ha; wp_go.
  - apply (called_job r (Some _)); [done| |by repeat constructor].
    eapply change_kept; [eassumption|eassumption|exact Ha|reflexivity|done|by left|done| |reflexivity..| |].
    + refine (tables_same r _ a Hri Ha _ _ _); done.
    + intros c. by apply (job_res_counter_nonneg _ _ (committed r)); repeat constructor.
    + intros k. weights.
  - apply called_same; [done|]. change (drop_permit (CallbackInflight, 1)) with (drop_permits [(CallbackInflight, 1)]).
    eapply change; [eassumption|eassumption|exact Ha|reflexivity|done|by left|done| |reflexivity..|by repeat constructor|done|].
    + refine (tables_same r _ a Hri Ha _ _ _); done.
    + intros k. weights.
Qed.

(** Results. *)
Lemma run_result r c :
  ready r c →
  match c with
  | CompleteState _ _ | CompleteResolve _ _ | CompleteTcp _ _ | CompleteTls _ _ | TcpConnected _ | TlsTransportConnected _ | TlsConnected _
  | ReleaseDns _ | TryCompletion _ | ConnectionEnded _ => True
  | _ => False
  end →
  wp (run_cont c) (λ cs r', progressed r c cs r') (λ _ _, False) r.
Proof.
  intros [Hri [Hpos Hok] Howed Hres] Hc.
  destruct c; try done; apply call_wp; try done; cbn [run_cont]; wp_go; cbn [possible] in Hpos; clear Hc Hok.
  - the_object Ha a. eapply wp_mono; [by eapply commit_spec| |done]. intros [won job] r' (Hm & Hj & Hw). destruct won; cbn [negb]; wp_go.
    + by apply called_removal.
    + rewrite (Hw eq_refl) in Hm. by apply called_same.
  - the_object Ha a. eapply wp_mono; [by eapply resolve_commit_spec| |done]. intros [won job] r' (Hm & Hj & Hw). destruct won; cbn [negb]; wp_go.
    + by apply called_removal.
    + rewrite (Hw eq_refl) in Hm. by apply called_same.
  - eapply wp_mono; [apply (complete_locked_spec TConnects); auto| |done]. intros won r' [Hm Hk]. wp_go. destruct won; [|by apply called_same].
    destruct (Hk eq_refl) as (o & Ha & Ho). apply called_conts; [done|done|]. constructor; [|done]. split; [|done]. cbn. rewrite Ha. by destruct o.
  - eapply wp_mono; [by apply tls_state_spec| |done]. intros [won io] r' (Hm & Hk & Hio). wp_go. apply called_conts; [done| |].
    + rewrite conts_res_app. replace (conts_res (match io with Some l => _ | None => _ end)) with (@nil resource) by (by destruct io).
      by destruct won.
    + apply Forall_app. split.
      * destruct io as [l|]; [|done]. destruct (Hio l eq_refl) as (i & x & Hl). constructor; [|done]. split; [|done]. cbn. by rewrite Hl.
      * destruct won; [|done]. destruct (Hk eq_refl) as (o & Ha & Ho). constructor; [|done]. split; [|done]. cbn. rewrite Ha. by destruct o.
  - the_object Ha a. apply negb_true_iff in Hpos. eapply wp_mono; [by eapply tcp_connected_spec| |done]. intros job r' [Hm Hj]. wp_go. by apply called_job.
  - the_object Ha a. apply negb_true_iff in Hpos. eapply wp_mono; [by eapply tls_transport_spec| |done]. intros ? r' Hm. wp_go. by apply called_same.
  - the_object Ha a. eapply wp_mono; [by eapply tls_connected_spec| |done]. intros won r' Hm. wp_go. destruct won; [|by apply called_same].
    apply called_conts; [done|done|]. constructor; [|done]. split; [|done]. cbn.
    destruct (ev_heap _ _ (mv_evolves _ _ _ Hm) _ _ Ha) as (o' & -> & Hk). by destruct o'.
  - the_object Ha a; (eapply wp_mono; [by eapply release_dns_spec| |done]; intros ? r' Hm; wp_go; by apply called_same).
  - eapply wp_mono; [by apply try_completion_spec| |done]. intros ? r' Hm. wp_go. by apply called_same.
  - the_object Ha l. eapply wp_mono; [by eapply release_io_spec| |done]. intros cs r' [Hm Hcs]. by apply called_conts.
Qed.

(** Streams. *)
Lemma run_stream r c :
  ready r c →
  match c with StreamResult _ _ | CancelStream _ | FailStream _ _ | FinishStream _ | ReleaseStream _ | RemoveStream _ => True | _ => False end →
  wp (run_cont c) (λ cs r', progressed r c cs r') (λ _ _, False) r.
Proof.
  intros [Hri [Hpos Hok] Howed Hres] Hc.
  destruct c; try done; apply call_wp; try done; cbn [run_cont]; wp_go; cbn [possible] in Hpos; clear Hc Hok; the_object Ha a.
  - eapply wp_mono; [by eapply control_commit_spec| |done]. intros won r' [Hm Hk]. wp_go. by apply called_same.
  - eapply wp_mono; [by eapply control_commit_spec| |done]. intros won r' [Hm Hk]. wp_go. destruct won; [|by apply called_same].
    destruct (Hk eq_refl) as (i & x & Hx & Hterm). apply called_conts; [done|done|]. repeat constructor; cbn; by rewrite Hx.
  - eapply wp_mono; [by eapply control_commit_spec| |done]. intros won r' [Hm Hk]. wp_go. destruct won; [|by apply called_same].
    destruct (Hk eq_refl) as (i & x & Hx & Hterm). apply called_conts; [done|done|]. repeat constructor; cbn; by rewrite Hx.
  - eapply wp_mono; [by eapply release_permits_spec| |done]. intros ? r' Hm. wp_go. apply called_conts; [done|done|]. constructor; [|done].
    split; [|done]. cbn. destruct (ev_heap _ _ (mv_evolves _ _ _ Hm) _ _ Ha) as (o' & -> & Hk). destruct o'; try done. by apply Hk.
  - eapply wp_mono; [by eapply release_permits_spec| |done]. intros ? r' Hm. wp_go. by apply called_same.
  - unfold remove_stream. wp_go. rewrite Ha, Hpos, andb_false_r. wp_go. apply called_same; [done|]. by apply remove_moved.
Qed.

(** Calls on the whole registry. *)
Lemma run_control r c :
  ready r c →
  match c with
  | BeginEvent _ | EventJob _ | DropEvent _ | Cancel _ _ | CancelAll | BeginShutdown | FailAll _ | MarkStopped | Drain | Seal
  | Remove _ _ | ReleaseLive _ | StoreStopped | Wake => True
  | _ => False
  end →
  wp (run_cont c) (λ cs r', progressed r c cs r') (λ _ _, False) r.
Proof.
  intros [Hri [Hpos Hok] Howed Hres] Hc. destruct c; try done; apply call_wp; try done; clear Hc Hok.
  - by apply begin_event_spec.
  - eapply event_spec; eauto.
  - eapply event_spec; eauto.
  - by apply cancel_spec.
  - by apply cancel_all_spec.
  - by apply begin_shutdown_spec.
  - by apply fail_all_spec.
  - cbn [run_cont]. wp_go. apply called_conts; [done|by apply quiet_moved|by repeat constructor].
  - cbn [run_cont]. wp_go. apply called_same; [done|]. by apply quiet_moved.
  - cbn [run_cont]. wp_go. apply called_same; [done|]. by apply quiet_moved.
  - cbn [run_cont]. wp_go. apply called_same; [done|]. by apply remove_moved.
  - cbn [run_cont]. wp_go. apply called_same; [done|]. pose proof (remove_moved TLive id r Hri) as Hm.
    apply (moved_trans _ [] _ [] _ Hm). by apply quiet_moved; [apply Hm|..].
  - cbn [run_cont]. wp_go. apply called_same; [done|]. by apply quiet_moved.
  - cbn [run_cont]. wp_go. apply called_same; [done|]. by apply quiet_moved.
Qed.

Lemma one_of k x l : weight k [(x, 1)] ≤ owed l k → x = k → 1 ≤ owed l k.
Proof. intros H ->. rewrite weight_cons, amount_same, weight_nil in H. lia. Qed.

(** Callbacks. *)
Lemma run_callback r c :
  ready r c →
  match c with TakeRunnable | Activate _ | EndActivation | Enqueue _ | CallJob _ | FinishJob _ => True | _ => False end →
  wp (run_cont c) (λ cs r', progressed r c cs r') (λ _ _, False) r.
Proof.
  intros [Hri [Hpos Hok] Howed Hres] Hc. destruct c; try done; cbn [run_cont]; wp_go; clear Hc; cbn [possible] in Hpos.
  - eapply wp_mono; [by apply take_runnable_spec| |done]. intros job r' [Hm Hj]. wp_go. apply progressed_next; [done| |].
    + eapply moved_ext; [|exact Hm]. intros k. by destruct job.
    + destruct job; [|done]. constructor; [by split|]. by repeat constructor.
  - pose proof (one_of _ _ _ (Hres (KActivate a)) eq_refl) as Hone.
    assert (Hgo : wp (activate_callback a) (λ job r', moved r (activated a ++ job_resources job) r' ∧ opt_job_ok (committed r') job) (λ _ _, False) r).
    { the_object Ha a; [by eapply activate_request|by eapply activate_resolve|by eapply activate_connect..]. }
    eapply wp_mono; [exact Hgo| |done]. intros job r' [Hm Hj]. wp_go. apply progressed_next; [done|by rewrite conts_enqueue|by apply enqueue_ok].
  - eapply wp_mono; [apply finish_activation_spec; [done|exact (one_of _ _ _ (Hres KActivation) eq_refl)]| |done]. intros ? r' Hm. wp_go. by apply progressed_done.
  - eapply wp_mono; [by apply enqueue_terminal_spec| |done]. intros ? r' Hm. wp_go. by apply progressed_done.
  - eapply wp_mono; [by apply call_job_spec| |done]. intros ? r' Hm. wp_go. by apply progressed_done.
  - eapply wp_mono; [apply job_finished_spec; [done|exact (one_of _ _ _ (Hres KRunning) eq_refl)]| |done]. intros ? r' Hm. wp_go. by apply progressed_done.
Qed.

Lemma jobs_res_nonneg_all cm js k : Forall (job_ok cm) js → 0 ≤ weight k (jobs_res js).
Proof.
  induction 1 as [|j js [Hp Hj] _ IH]; [done|]. unfold jobs_res in *. cbn [map concat]. rewrite weight_app. unfold job_res at 1.
  rewrite weight_app, weight_permits.
  assert (0 ≤ match k with KCounter c => held c (job_permits j) | _ => 0 end) by (destruct k; try done; by apply held_nonneg, Hp).
  assert (0 ≤ weight k (match job_of j with Some (a, _) => [(KCallback a, 1)] | None => [] end)); [|lia].
  destruct (job_of j) as [[a c]|]; [|done]. rewrite weight_cons, weight_nil. unfold amount. destruct (decide _); cbn; lia.
Qed.

Lemma conts_jobs js : conts_res (map Enqueue js) = jobs_res js.
Proof. induction js as [|j js IH]; [done|]. unfold conts_res, jobs_res in *. cbn [map concat]. by rewrite IH. Qed.

(** Announcing results, and the release closures. *)
Lemma run_publish r c :
  ready r c →
  match c with Publish _ | PublishAll _ _ | ReleasePermit _ => True | _ => False end →
  wp (run_cont c) (λ cs r', progressed r c cs r') (λ _ _, False) r.
Proof.
  intros [Hri [Hpos Hok] Howed Hres] Hc. destruct c; try done; clear Hc; cbn [possible] in Hpos.
  - cbn [run_cont]. wp_go. pose proof (one_of _ _ _ (Hres (KPublish a)) eq_refl) as Hone.
    the_object Ha a; (eapply wp_mono; [by eapply publish_terminal_spec| |done]; intros job r' [Hm Hj]; wp_go;
      apply progressed_next; [done|by rewrite conts_enqueue|by apply enqueue_ok]).
  - destruct todo as [|a todo]; cbn [run_cont]; wp_go.
    + apply progressed_next; [done| |].
      * eapply moved_ext; [|by apply moved_refl]. intros k. rewrite conts_jobs, weight_app, weight_neg. cbn [cont_res map app]. fold (jobs_res done).
        rewrite weight_nil. lia.
      * apply Forall_map. eapply Forall_impl; [exact Hok|]. intros j Hj. by split.
    + cbn [forallb] in Hpos. apply andb_true_iff in Hpos as [Ha Hpos].
      assert (Hone : 1 ≤ owed r (KPublish a)).
      { specialize (Hres (KPublish a)). cbn [cont_res map app] in Hres. rewrite weight_cons, weight_app, amount_same in Hres.
        pose proof (publish_res_nonneg (KPublish a) todo) as H1. pose proof (jobs_res_nonneg_all _ done (KPublish a) Hok) as H2.
        unfold publish_res in H1. unfold jobs_res in H2. lia. }
      the_object Ho a. eapply wp_mono; [by eapply publish_terminal_spec| |done]. intros job r' [Hm Hj]. wp_go. apply progressed_next; [done| |].
      * eapply moved_ext; [|exact Hm]. intros k. rewrite !weight_app, weight_neg. unfold conts_res.
        cbn [map concat cont_res app]. rewrite app_nil_r, map_app, concat_app, weight_neg, !weight_cons, !weight_app, weight_nil.
        replace (weight k (concat (map job_res (match job with Some j => [j] | None => [] end)))) with (weight k (job_resources job))
          by (destruct job; [cbn; by rewrite app_nil_r|done]). lia.
      * constructor; [|done]. split.
        -- cbn. apply forallb_forall. intros b Hb. rewrite forallb_forall in Hpos. specialize (Hpos b Hb). the_object Hx b.
           destruct (ev_heap _ _ (mv_evolves _ _ _ Hm) _ _ Hx) as (o' & -> & Hk). by destruct o'.
        -- apply Forall_app. split; [|by destruct job; [constructor|]]. eapply Forall_impl; [exact Hok|]. intros j.
           apply job_ok_mono. apply Hm.
  - cbn [run_cont]. wp_go. apply progressed_done; [done|]. change (drop_permit p r) with (drop_permits [p] r).
    apply drop_owned; [done|by constructor|]. intros c. apply Hres.
Qed.

Lemma run_cont_spec r c : ready r c → wpx (may_stick r c) (run_cont c) (λ cs r', progressed r c cs r') (λ _ _, False) r.
Proof.
  intros Hr. destruct c;
    first [by apply run_submission|eapply wp_may; [first [by apply run_result|by apply run_stream|by apply run_control|by apply run_callback|by apply run_publish]|done]].
Qed.

(** ** Any number of threads *)

Lemma cont_res_nonneg r c k : cont_ok r c → 0 ≤ weight k (cont_res c).
Proof.
  assert (Hone : ∀ x, 0 ≤ weight k [(x, 1)]).
  { intros x. rewrite weight_cons, weight_nil. unfold amount. destruct (decide _); cbn; lia. }
  assert (Hjob : ∀ j, job_ok (committed r) j → 0 ≤ weight k (job_res j)).
  { intros j Hj. rewrite <-(app_nil_r (job_res j)). by apply (jobs_res_nonneg_all (committed r) [j] k), Forall_singleton. }
  intros [_ Hok]. destruct c; cbn [cont_res]; try done; try apply Hone; try by apply Hjob.
  - rewrite weight_app. pose proof (publish_res_nonneg k todo) as H1. pose proof (jobs_res_nonneg_all _ _ k Hok) as H2.
    unfold publish_res in H1. unfold jobs_res in H2. lia.
  - rewrite weight_permits. destruct k; try done. by apply held_nonneg, Forall_singleton.
Qed.

Lemma cont_ok_mono r r' c : evolves r r' → cont_ok r c → cont_ok r' c.
Proof.
  intros Hev [Hp Hok]. split; [by eapply possible_mono|]. pose proof (job_ok_mono (committed r) (committed r')) as Hm.
  destruct c; try done; try (eapply Hm; [apply Hev|done]). eapply Forall_impl; [exact Hok|]. intros j. apply Hm, Hev.
Qed.

Lemma conts_res_nonneg r cs k : Forall (cont_ok r) cs → 0 ≤ weight k (conts_res cs).
Proof.
  induction 1 as [|c cs Hc _ IH]; [done|]. unfold conts_res in *. cbn [map concat]. rewrite weight_app. pose proof (cont_res_nonneg r c k Hc). lia.
Qed.
Lemma threads_res_nonneg r ts k : Forall (Forall (cont_ok r)) ts → 0 ≤ weight k (threads_res ts).
Proof.
  induction 1 as [|cs ts Hcs _ IH]; [done|]. unfold threads_res in *. cbn [map concat]. rewrite weight_app.
  pose proof (conts_res_nonneg r cs k Hcs). lia.
Qed.
Lemma threads_res_app ts ts' : threads_res (ts ++ ts') = threads_res ts ++ threads_res ts'.
Proof. unfold threads_res. by rewrite map_app, concat_app. Qed.
Lemma conts_res_cons c cs : conts_res (c :: cs) = cont_res c ++ conts_res cs.
Proof. done. Qed.
Lemma threads_res_cons cs ts : threads_res (cs :: ts) = conts_res cs ++ threads_res ts.
Proof. done. Qed.

(** The invariant of the engine. *)
Record EI (c : Config) (e : Engine) : Prop := {
  ei_cfg : cfg (registry e) = c;
  ei_ri : RI (registry e);
  ei_books : ∀ k, owed (registry e) k = weight k (threads_res (threads e));
  ei_threads : Forall (Forall (cont_ok (registry e))) (threads e)
}.

(** A thread that is about to enter a region which need not return. *)
Definition blocked (m : move) (e : Engine) : Prop :=
  match m with
  | Call _ => False
  | Step i => match threads e !! i with Some (x :: _) => may_stick (registry e) x | _ => False end
  end.

Lemma step_result c e m : EI c e → match step m e with Some e' => EI c e' | None => blocked m e end.
Proof.
  intros He. pose proof He as [Hcfg Hri Hbooks Hthreads].
  destruct m as [x|i]; cbn [step blocked].
  - destruct (is_call x && possible (heap (registry e)) x) eqn:Hx; [|done].
    apply andb_true_iff in Hx as [Hcall Hpos]. split; cbn [registry threads]; try done.
    + intros k. rewrite threads_res_app, weight_app, Hbooks. replace (threads_res [[x]]) with (cont_res x) by (unfold threads_res, conts_res; cbn; by rewrite !app_nil_r).
      replace (cont_res x) with (@nil resource) by (by destruct x). rewrite weight_nil. lia.
    + apply Forall_app. split; [done|]. constructor; [|done]. constructor; [|done]. split; [done|]. by destruct x.
  - destruct (threads e !! i) as [[|x rest]|] eqn:Hi; try done.
    rewrite <-(take_drop_middle _ _ _ Hi) in Hthreads. apply Forall_app in Hthreads as [Hpre [Hx Hpost]%Forall_cons].
    apply Forall_cons in Hx as [Hx Hrest].
    assert (Hall : ∀ k, weight k (threads_res (threads e)) =
      weight k (threads_res (take i (threads e))) + weight k (cont_res x) + weight k (conts_res rest) + weight k (threads_res (drop (S i) (threads e)))).
    { intros k. rewrite <-(take_drop_middle _ _ _ Hi) at 1. rewrite threads_res_app, threads_res_cons, conts_res_cons, !weight_app. lia. }
    assert (Hready : ready (registry e) x).
    { split; try done.
      - intros k. rewrite Hbooks, Hall. pose proof (threads_res_nonneg _ _ k Hpre). pose proof (threads_res_nonneg _ _ k Hpost).
        pose proof (conts_res_nonneg _ _ k Hrest). pose proof (cont_res_nonneg _ _ k Hx). lia.
      - intros k. rewrite Hbooks, Hall. pose proof (threads_res_nonneg _ _ k Hpre). pose proof (threads_res_nonneg _ _ k Hpost).
        pose proof (conts_res_nonneg _ _ k Hrest). lia. }
    pose proof (run_cont_spec _ _ Hready) as Hrun. unfold wpx in Hrun. destruct (run_cont x (registry e)) as [[next| | |] r']; try done.
    destruct Hrun as [[Hri' Hev Hmoved] Hnext].
    assert (Hmono : ∀ cs, Forall (cont_ok (registry e)) cs → Forall (cont_ok r') cs).
    { intros cs Hcs. eapply Forall_impl; [exact Hcs|]. intros y. by apply cont_ok_mono. }
    split; cbn [registry threads].
    + by rewrite (ev_cfg _ _ Hev).
    + done.
    + intros k. rewrite Hmoved, Hbooks, Hall, insert_take_drop by by eapply lookup_lt_Some.
      rewrite threads_res_app, threads_res_cons, conts_res_app, !weight_app, weight_neg. lia.
    + rewrite insert_take_drop by by eapply lookup_lt_Some. apply Forall_app. split; [by eapply Forall_impl|].
      constructor; [apply Forall_app; auto|by eapply Forall_impl].
Qed.

Lemma step_spec c e m e' : EI c e → step m e = Some e' → EI c e'.
Proof. intros He Hs. pose proof (step_result c e m He) as Hr. by rewrite Hs in Hr. Qed.
Lemma step_blocked c e m : EI c e → step m e = None → blocked m e.
Proof. intros He Hs. pose proof (step_result c e m He) as Hr. by rewrite Hs in Hr. Qed.

Lemma initial_books c : config_ok c → EI c (new_engine c).
Proof.
  intros Hc. split; try done.
  - split; try done.
    + intros k. cbn. destruct Hc as [Hl _]. specialize (Hl k). lia.
    + cbn. constructor.
    + cbn. intros a Ha. by apply elem_of_nil in Ha.
    + cbn. split; [constructor|]. intros a Ha. by apply elem_of_nil in Ha.
  - by intros [].
Qed.

Lemma run_moves_spec c ms e : config_ok c → run_moves ms (new_engine c) = Some e → EI c e.
Proof.
  intros Hc. assert (Hgen : ∀ e0, EI c e0 → run_moves ms e0 = Some e → EI c e); [|by apply Hgen, initial_books].
  induction ms as [|m ms IH]; intros e0 He; cbn [run_moves]; [by intros [= <-]|].
  destruct (step m e0) as [e1|] eqn:Hs; [|done]. cbn. apply IH. by eapply step_spec.
Qed.

(** ** Counting callbacks *)

Lemma count_cons a b l : count a (b :: l) = (if decide (b = a) then 1 else 0) + count a l.
Proof. done. Qed.
Lemma count_nonneg a l : 0 ≤ count a l.
Proof. induction l as [|b l IH]; [done|]. rewrite count_cons. destruct (decide _); lia. Qed.
Lemma count_elem a l : a ∈ l ↔ 1 ≤ count a l.
Proof.
  induction l as [|b l IH]; [split; [by intros ?%elem_of_nil|done]|]. rewrite count_cons, elem_of_cons, IH. pose proof (count_nonneg a l).
  destruct (decide (b = a)) as [->|]; intuition (congruence || lia).
Qed.
Lemma count_once l : NoDup l ↔ ∀ a, count a l ≤ 1.
Proof.
  induction l as [|b l IH]; [split; [done|constructor]|]. rewrite NoDup_cons, IH. split.
  - intros [Hb Hl] a. rewrite count_cons. specialize (Hl a). rewrite count_elem in Hb. destruct (decide (b = a)) as [->|]; lia.
  - intros Hl. split; [rewrite count_elem; specialize (Hl b); rewrite count_cons, decide_True in Hl by done; lia|].
    intros a. specialize (Hl a). rewrite count_cons in Hl. destruct (decide _); lia.
Qed.

(** Whether the operation still has its callback. *)
Definition has_callback (o : object) : bool :=
  match o with
  | ORequest _ s => callback s
  | OResolve _ s => res_callback s
  | OConnect _ _ _ s | OTls _ _ _ _ s => con_callback s
  | _ => false
  end.

Lemma callback_weight a b o : weight (KCallback a) (object_res b o) = if decide (b = a) then (if has_callback o then 1 else 0) else 0.
Proof.
  assert (Hp : ∀ ps, weight (KCallback a) (permit_res ps) = 0) by (intros; by rewrite weight_permits).
  assert (Hact : ∀ c, weight (KCallback a) (activate_res c b) = 0) by (by intros []).
  assert (Hcb : ∀ c, weight (KCallback a) (callback_res c b) = if decide (b = a) then (if c : bool then 1 else 0) else 0).
  { intros []; cbn; [|by destruct (decide _)]. rewrite weight_cons, weight_nil. unfold amount. cbn.
    destruct (decide (b = a)), (decide (KCallback b = KCallback a)); congruence || done. }
  assert (Hc : ∀ s, weight (KCallback a) (connect_res b s) = if decide (b = a) then (if con_callback s then 1 else 0) else 0).
  { intros s. unfold connect_res. rewrite !weight_app, !Hp, Hcb, Hact.
    replace (weight (KCallback a) (if con_terminal s && _ then _ else _)) with 0 by (by destruct (con_terminal s && _)). lia. }
  destruct o; unfold object_res; cbn [has_callback]; rewrite ?weight_app, ?Hp, ?Hcb, ?Hact, ?Hc; try lia; by destruct (decide _).
Qed.

Lemma callback_heap a h : weight (KCallback a) (heap_res h) = match h !! a with Some o => if has_callback o then 1 else 0 | None => 0 end.
Proof.
  induction h as [|o h IH] using rev_ind; [done|]. rewrite heap_res_snoc, weight_app, IH, callback_weight.
  destruct (decide (length h = a)) as [<-|Hne].
  - rewrite lookup_ge_None_2, lookup_app_r, Nat.sub_diag by done. cbn. lia.
  - destruct (decide (a < length h)%nat) as [Hlt|Hge].
    + rewrite lookup_app_l by done. lia.
    + rewrite !lookup_ge_None_2 by (rewrite ?length_app; cbn; lia). done.
Qed.

(** Every callback is somewhere. *)
Lemma callback_books c e a :
  EI c e →
  count a (with_callback (registry e)) =
  count a (ran (domain (registry e))).*1 + count a (lost (domain (registry e)))
  + (match heap (registry e) !! a with Some o => if has_callback o then 1 else 0 | None => 0 end)
  + weight (KCallback a) (jobs_res (jobs (domain (registry e)))) + weight (KCallback a) (threads_res (threads e)).
Proof.
  intros He. pose proof (ei_books _ _ He (KCallback a)) as Hb. unfold owed in Hb. cbn [value] in Hb. rewrite callback_heap in Hb. 
  change (map fst (ran (domain (registry e)))) with (ran (domain (registry e))).*1 in Hb. lia.
Qed.

Lemma callback_once c e a :
  EI c e → count a (ran (domain (registry e))).*1 + count a (lost (domain (registry e))) ≤ count a (with_callback (registry e)) ≤ 1.
Proof.
  intros He. pose proof (callback_books _ _ a He). destruct He as [? Hri ? Hthreads].
  pose proof (jobs_res_nonneg_all _ _ (KCallback a) (ri_jobs _ Hri)). pose proof (threads_res_nonneg _ _ (KCallback a) Hthreads).
  assert (Hone : count a (with_callback (registry e)) ≤ 1) by (apply count_once, Hri).
  destruct (heap (registry e) !! a) as [o|]; [destruct (has_callback o)|]; lia.
Qed.

(** ** When the threads are done *)

(** No thread is in the middle of a call and no callback waits or runs. *)
Definition quiet (e : Engine) : Prop := Forall (λ cs, cs = []) (threads e) ∧ jobs (domain (registry e)) = [].

Lemma quiet_threads e k : quiet e → weight k (threads_res (threads e)) = 0.
Proof.
  intros [Ht _]. induction Ht as [|cs ts -> _ IH]; [done|]. rewrite threads_res_cons, weight_app, IH. done.
Qed.

(** An operation that has its result has given its callback away. *)
Lemma quiet_callback c e a o :
  EI c e → quiet e → heap (registry e) !! a = Some o → a ∈ (committed (registry e)).*1 → has_callback o = false.
Proof.
  intros He Hq Ha Hin. destruct He as [_ Hri Hbooks _]. pose proof (ri_objects _ Hri _ _ Ha) as Hok.
  assert (Hact : inactive o = false).
  { pose proof (Hbooks (KActivate a)) as Hb. rewrite (owed_marked _ _ a o), activate_marks, quiet_threads in Hb by (done || by right).
    by destruct (inactive o). }
  assert (Hconnect : ∀ id s, connect_parts o = Some (id, s) → connect_ok (committed (registry e)) a s → con_callback s && negb (con_callback_active s) = false →
    con_callback s = false).
  { intros id s Hp [_ Hs] Hina. pose proof (Hbooks (KPublish a)) as Hb.
    rewrite (owed_marked _ _ a o), (connect_res_of _ _ _ _ Hp), publish_weight, quiet_threads in Hb by (done || by left).
    destruct (con_terminal s); [|tauto]. destruct Hs as (_ & _ & _ & Hs). destruct (con_callback s); [|done].
    destruct (delivery_ready s); [|done]. destruct Hs as (_ & _ & Hs). by rewrite (Hs eq_refl) in Hina. }
  destruct o; cbn in Hok, Hact |- *; try done.
  - destruct (terminal s); [|tauto]. destruct Hok as (_ & _ & Hs). destruct (callback s); [|done]. destruct Hs as (_ & _ & _ & Hs). by rewrite Hs in Hact.
  - destruct (res_completion s); [|tauto]. destruct Hok as (_ & Hs). destruct (res_callback s); [|done]. destruct Hs as (_ & _ & Hs). by rewrite Hs in Hact.
  - by eapply Hconnect; [|apply Hok|].
  - by eapply Hconnect; [|apply Hok|].
Qed.

(** What is over: an operation with its result, a stream whose transport has
    finished with it, a connection whose both ends are released, a finish
    callback that ran or was dropped. *)
Definition over (o : object) : Prop :=
  match o with
  | ORequest _ s => terminal s = true
  | OResolve _ s => is_Some (res_completion s)
  | OStream _ s => permits s = None
  | OConnect _ _ _ s | OTls _ _ _ _ s => con_terminal s = true
  | OLive _ s => session_released s = true
  | OEvent _ pending => pending = false
  end.

Lemma over_weight c e a o k :
  EI c e → quiet e → heap (registry e) !! a = Some o → over o → weight (KCounter k) (object_res a o) = 0.
Proof.
  intros He Hq Ha Hover. pose proof (ri_objects _ (ei_ri _ _ He) _ _ Ha) as Hok.
  pose proof (quiet_callback _ _ _ _ He Hq Ha) as Hcb.
  assert (Hconnect : ∀ s, con_terminal s = true → connect_ok (committed (registry e)) a s → (a ∈ (committed (registry e)).*1 → con_callback s = false) →
    weight (KCounter k) (connect_res a s) = 0).
  { intros s Hterm [_ Hs] Hno. rewrite Hterm in Hs. destruct Hs as (Hin & _ & Hnil & Hs). rewrite (Hno Hin) in Hs.
    unfold connect_res. rewrite Hnil, Hs, (Hno Hin). cbn [if_held callback_res activate_res andb]. rewrite !weight_app.
    by destruct (con_terminal s && _). }
  destruct o; cbn in Hover, Hok, Hcb; unfold object_res.
  - rewrite Hover in Hok. destruct Hok as (Hin & _ & Hs). rewrite (Hcb Hin) in Hs |- *. by destruct Hs as [-> ->].
  - destruct Hover as [x Hx]. rewrite Hx in Hok. destruct Hok as (Hin & Hs).
    assert (Hin' : a ∈ (committed (registry e)).*1) by (apply list_elem_of_fmap; by exists (a, x)).
    rewrite (Hcb Hin') in Hs |- *. by destruct Hs as [-> ->].
  - by rewrite Hover.
  - by apply Hconnect; [|apply Hok|].
  - by apply Hconnect; [|apply Hok|].
  - destruct Hok as (_ & _ & Hr). by rewrite (Hr Hover).
  - by rewrite Hover.
Qed.

Lemma one_result (cm : results) a x y : NoDup cm.*1 → (a, x) ∈ cm → (a, y) ∈ cm → x = y.
Proof.
  intros Hnd [i Hi]%list_elem_of_lookup [j Hj]%list_elem_of_lookup.
  assert (i = j) as <- by (eapply NoDup_lookup; [exact Hnd|rewrite list_lookup_fmap, Hi; done|by rewrite list_lookup_fmap, Hj]). congruence.
Qed.

Lemma job_callback_permit cm j : job_ok cm j → 1 ≤ weight (KCounter CallbackInflight) (job_res j).
Proof.
  intros [[Hps (pre & post & Hsplit)%list_elem_of_split] _]. rewrite <-held_job, Hsplit, held_app, held_cons, decide_True by done. cbn [snd].
  rewrite Hsplit in Hps. apply Forall_app in Hps as [Hpre [_ Hpost]%Forall_cons].
  pose proof (held_nonneg CallbackInflight pre Hpre). pose proof (held_nonneg CallbackInflight post Hpost). lia.
Qed.
Lemma jobs_callback_permits cm js : Forall (job_ok cm) js → len js ≤ weight (KCounter CallbackInflight) (jobs_res js).
Proof.
  unfold len. induction 1 as [|j js Hj _ IH]; [done|]. unfold jobs_res in *. cbn [map concat length]. rewrite weight_app.
  pose proof (job_callback_permit _ _ Hj). lia.
Qed.

(** ** The claims *)

(** The permits of counter [k] that operations, callback jobs and threads
    hold. *)
Definition outstanding (e : Engine) (k : counter) : Z :=
  weight (KCounter k) (heap_res (heap (registry e))) + weight (KCounter k) (jobs_res (jobs (domain (registry e))))
  + weight (KCounter k) (threads_res (threads e)).

(** C9: at every moment of every interleaving of the registry's calls, cut at
    the locks in any way, each atomic is exactly the sum of the permits that
    are out, and within its limit; and the next region of any thread returns,
    except in the two cases of [blocked]: a streamed request that meets a full
    command queue, and a reservation that the metric of queued TCP bytes has no
    room for. *)
Theorem registry_accounting c ms e :
  config_ok c → run_moves ms (new_engine c) = Some e →
  (∀ k, counters (registry e) k = outstanding e k ∧ 0 ≤ counters (registry e) k ≤ limit_of c k) ∧
  ∀ m, step m e = None → blocked m e.
Proof.
  intros Hc Hrun. pose proof (run_moves_spec c ms e Hc Hrun) as He. split; [|intros m; by eapply step_blocked]. intros k.
  pose proof (ei_books _ _ He (KCounter k)) as Hb. unfold owed in Hb. cbn [value] in Hb. split; [unfold outstanding; lia|].
  rewrite <-(ei_cfg _ _ He). apply (ei_ri _ _ He).
Qed.

(** C10: an operation's result is committed once, and its callback runs at most
    once, with that result; none is dropped before the callback domain is
    sealed. *)
Theorem results_once c ms e :
  config_ok c → run_moves ms (new_engine c) = Some e →
  let r := registry e in
  NoDup (committed r).*1 ∧ NoDup ((ran (domain r)).*1 ++ lost (domain r)) ∧
  (∀ a x, (a, x) ∈ ran (domain r) → (a, x) ∈ committed r ∧ a ∈ with_callback r) ∧
  (sealed (domain r) = false → lost (domain r) = []).
Proof.
  intros Hc Hrun. pose proof (run_moves_spec c ms e Hc Hrun) as He.
  pose proof (λ a, callback_once _ _ a He) as Hcount. pose proof (ei_ri _ _ He) as Hri.
  cbv zeta. split_and!; [apply Hri| | |apply Hri].
  - apply count_once. intros a. rewrite count_app. specialize (Hcount a). lia.
  - intros a x Hx. split; [by apply Hri|]. apply count_elem. specialize (Hcount a).
    assert (1 ≤ count a (ran (domain (registry e))).*1) by (apply count_elem, list_elem_of_fmap; by exists (a, x)).
    pose proof (count_nonneg a (lost (domain (registry e)))). lia.
Qed.

(** C11: once no call is under way and no callback waits or runs, every
    operation submitted with a callback that has a result has had its callback
    run with it, unless the domain was sealed and dropped it. *)
Theorem callbacks_delivered c ms e a x :
  config_ok c → run_moves ms (new_engine c) = Some e → quiet e →
  a ∈ with_callback (registry e) → (a, x) ∈ committed (registry e) →
  (a, x) ∈ ran (domain (registry e)) ∨ (sealed (domain (registry e)) = true ∧ a ∈ lost (domain (registry e))).
Proof.
  intros Hc Hrun Hq Hw Hx. pose proof (run_moves_spec c ms e Hc Hrun) as He.
  pose proof (ei_ri _ _ He) as Hri.
  assert (Hin : a ∈ (committed (registry e)).*1) by (apply list_elem_of_fmap; by exists (a, x)).
  destruct (lookup_lt_is_Some_2 _ _ (ri_addresses _ Hri a Hin)) as [o Ha].
  pose proof (callback_books _ _ a He) as Hb. rewrite Ha, (quiet_callback _ _ _ _ He Hq Ha Hin), quiet_threads, (proj2 Hq) in Hb by done.
  change (weight (KCallback a) (jobs_res [])) with 0 in Hb. apply count_elem in Hw.
  destruct (decide (1 ≤ count a (lost (domain (registry e))))) as [Hl|].
  - right. apply count_elem in Hl. split; [|done]. destruct (sealed (domain (registry e))) eqn:Hs; [done|].
    rewrite (ri_lost _ Hri Hs) in Hl. by apply elem_of_nil in Hl.
  - left. assert (Hran : 1 ≤ count a (ran (domain (registry e))).*1) by lia. apply count_elem, list_elem_of_fmap in Hran as ([b y] & -> & Hy).
    cbn in *. pose proof (ri_ran _ Hri _ Hy) as Hy'. by rewrite (one_result _ _ _ _ (ri_nodup _ Hri) Hx Hy').
Qed.

(** Nothing leaks: once no call is under way and everything is over, every
    atomic is back at zero. *)
Theorem capacity_returned c ms e :
  config_ok c → run_moves ms (new_engine c) = Some e → quiet e →
  (∀ a o, heap (registry e) !! a = Some o → over o) → ∀ k, counters (registry e) k = 0.
Proof.
  intros Hc Hrun Hq Hover k. pose proof (run_moves_spec c ms e Hc Hrun) as He.
  pose proof (ei_books _ _ He (KCounter k)) as Hb. unfold owed in Hb. cbn [value] in Hb. rewrite quiet_threads, (proj2 Hq) in Hb by done.
  change (weight (KCounter k) (jobs_res [])) with 0 in Hb.
  assert (Hz : ∀ h : list object, (∀ a o, h !! a = Some o → weight (KCounter k) (object_res a o) = 0) → weight (KCounter k) (heap_res h) = 0).
  { induction h as [|o h IH] using rev_ind; intros H; [done|]. rewrite heap_res_snoc, weight_app, IH.
    - rewrite H; [done|]. by rewrite lookup_app_r, Nat.sub_diag by done.
    - intros a x Hx. apply H. by apply lookup_app_l_Some. }
  rewrite Hz in Hb; [lia|]. intros a o Ha. eapply over_weight; eauto.
Qed.

(** The callback queue never exceeds its capacity: a thread that is about
    to queue a callback finds a free place. *)
Theorem callback_queue_bounded c ms e :
  config_ok c → run_moves ms (new_engine c) = Some e →
  len (jobs (domain (registry e))) ≤ callback_inflight_limit c ∧
  ∀ i j rest, threads e !! i = Some (Enqueue j :: rest) → len (jobs (domain (registry e))) < callback_inflight_limit c.
Proof.
  intros Hc Hrun. pose proof (run_moves_spec c ms e Hc Hrun) as He.
  pose proof (ei_books _ _ He (KCounter CallbackInflight)) as Hb. destruct He as [Hcfg Hri _ Hthreads]. unfold owed in Hb. cbn [value] in Hb.
  pose proof (ri_counters _ Hri CallbackInflight) as Hlim. rewrite Hcfg in Hlim. cbn [limit_of] in Hlim.
  pose proof (jobs_callback_permits _ _ (ri_jobs _ Hri)).
  assert (Hheap : 0 ≤ weight (KCounter CallbackInflight) (heap_res (heap (registry e)))).
  { apply heap_res_nonneg. intros. by eapply object_res_nonneg, (ri_objects _ Hri). }
  split; [pose proof (threads_res_nonneg _ _ (KCounter CallbackInflight) Hthreads); lia|]. intros i j rest Hi.
  rewrite <-(take_drop_middle _ _ _ Hi) in Hthreads, Hb. rewrite threads_res_app, threads_res_cons, conts_res_cons, !weight_app in Hb.
  apply Forall_app in Hthreads as [Hpre [[[_ Hj] Hrest]%Forall_cons Hpost]%Forall_cons].
  pose proof (job_callback_permit _ _ Hj). pose proof (threads_res_nonneg _ _ (KCounter CallbackInflight) Hpre).
  pose proof (threads_res_nonneg _ _ (KCounter CallbackInflight) Hpost). pose proof (conts_res_nonneg _ _ (KCounter CallbackInflight) Hrest).
  cbn [cont_res] in Hb. lia.
Qed.
End with_target.

(** ** A run

    A connection is established before the submitting thread activates the
    callback, the callback runs, and both ends close. *)
Definition demo_config : Config := mkConfig 1 4 4 2 4 1000 1000 4000 1000000 1000 1000 100 4 true true true.
Definition demo_moves : list move :=
  [Call (AcceptTcp false None None true); Step 0; Call (TcpConnected 0); Step 1; Step 0; Step 0; Call TakeRunnable; Step 2; Step 0; Step 2; Step 2;
   Call (ConnectionEnded 1); Step 3; Step 3; Step 3; Step 3; Step 3].
(** The same, while the callback waits. *)
Definition demo_prefix : list move := take 5 demo_moves.

Lemma demo_config_ok : config_ok (tgt := target64) demo_config.
Proof. split; [|done]. by intros []. Qed.

Definition demo_middle : Engine := default (new_engine demo_config) (run_moves (tgt := target64) demo_prefix (new_engine demo_config)).
Lemma demo_middle_run : run_moves (tgt := target64) demo_prefix (new_engine demo_config) = Some demo_middle.
Proof. vm_compute. reflexivity. Qed.
Definition demo_end : Engine := default (new_engine demo_config) (run_moves (tgt := target64) demo_moves (new_engine demo_config)).
Lemma demo_run : run_moves (tgt := target64) demo_moves (new_engine demo_config) = Some demo_end.
Proof. vm_compute. reflexivity. Qed.
Lemma demo_quiet : quiet demo_end.
Proof. split; [vm_compute; by repeat constructor|by vm_compute]. Qed.

Lemma registry_accounting_witness :
  (∀ k, counters (registry demo_middle) k = outstanding demo_middle k ∧
    0 ≤ counters (registry demo_middle) k ≤ limit_of (tgt := target64) demo_config k) ∧
  ∀ m, step (tgt := target64) m demo_middle = None → blocked (tgt := target64) m demo_middle.
Proof. apply (registry_accounting (tgt := target64) demo_config demo_prefix); [apply demo_config_ok|apply demo_middle_run]. Defined.

Lemma results_once_witness :
  let r := registry demo_end in
  NoDup (committed r).*1 ∧ NoDup ((ran (domain r)).*1 ++ lost (domain r)) ∧
  (∀ a x, (a, x) ∈ ran (domain r) → (a, x) ∈ committed r ∧ a ∈ with_callback r) ∧
  (sealed (domain r) = false → lost (domain r) = []).
Proof. apply (results_once (tgt := target64) demo_config demo_moves); [apply demo_config_ok|apply demo_run]. Defined.

Lemma callbacks_delivered_witness :
  (0%nat, Completed 1) ∈ ran (domain (registry demo_end)) ∨
  (sealed (domain (registry demo_end)) = true ∧ 0%nat ∈ lost (domain (registry demo_end))).
Proof.
  apply (callbacks_delivered (tgt := target64) demo_config demo_moves demo_end 0%nat (Completed 1));
    [apply demo_config_ok|apply demo_run|apply demo_quiet|vm_compute; constructor|vm_compute; constructor].
Defined.

Lemma capacity_returned_witness : counters (registry demo_end) QueuedBytes = 0.
Proof.
  apply (capacity_returned (tgt := target64) demo_config demo_moves demo_end);
    [apply demo_config_ok|apply demo_run|apply demo_quiet|].
  intros [|[|a]] o; vm_compute; intros [= <-]; done.
Defined.

Lemma callback_queue_bounded_witness :
  len (jobs (domain (registry demo_middle))) ≤ callback_inflight_limit demo_config ∧
  ∀ i j rest, threads demo_middle !! i = Some (Enqueue j :: rest) → len (jobs (domain (registry demo_middle))) < callback_inflight_limit demo_config.
Proof. apply (callback_queue_bounded (tgt := target64) demo_config demo_prefix); [apply demo_config_ok|apply demo_middle_run]. Defined.

(** A thread that cancels may be between the commit and the queueing of the
    callback when the engine, with no activation left to wait for, seals the
    domain: the result is committed and the callback is dropped. *)
Definition race_before_seal : list move :=
  [Call (AcceptResolve None 10 true); Step 0; Step 0; Step 0; Call (Cancel 1 1); Step 1; Step 1;
   Call BeginShutdown; Step 2; Step 2; Step 2; Step 2; Step 2].
Definition race_moves : list move := race_before_seal ++ [Call Seal; Step 3; Step 1; Step 1; Step 1].

Example callback_dropped_at_seal :
  match run_moves (tgt := target64) race_before_seal (new_engine demo_config), run_moves (tgt := target64) race_moves (new_engine demo_config) with
  | Some e, Some e' =>
      callback_activations (registry e) = 0 ∧ forallb (λ cs, match cs with [] => true | _ => false end) (threads e') = true ∧
      committed (registry e') = [(0%nat, Cancelled)] ∧ with_callback (registry e') = [0%nat] ∧
      ran (domain (registry e')) = [] ∧ lost (domain (registry e')) = [0%nat]
  | _, _ => False
  end.
Proof. vm_compute. by repeat split. Qed.

(** The queue reservation of a connection that ends is given back before its
    metric: with a budget above half of [usize], a submission in between finds
    room in the budget and none in the metric, and panics. *)
Definition wide_config : Config :=
  mkConfig 1 4 4 2 4 1000 1000 4000 3000000000 1400000000 1000 100 4 true true true.
Definition metric_race : list move :=
  [Call (AcceptTcp false None None false); Step 0; Call (TcpConnected 0); Step 1; Call (ConnectionEnded 1); Step 2; Step 2; Step 2;
   Call (AcceptTcp false None None false); Step 3].

Example metric_reservation_panics : run_moves (tgt := target32) metric_race (new_engine wide_config) = None.
Proof. vm_compute. reflexivity. Qed.

(** A streamed request that meets a full command queue is dropped under the
    lock of [core], which its cancellation takes again. *)
Definition narrow_config : Config := mkConfig 1 4 4 2 4 1000 1000 4000 1000000 1000 1000 100 1 true true true.
Definition demo_stream : Request.Request :=
  Request.mkRequest Request.Get (bs "http://example.com/") [] Budget.default_buffer Request.default_options.
Definition stream_on_full : list move :=
  [Call (AcceptTcp false None None false); Step 0; Call (AcceptStream None demo_stream None 10 None)].

Example stream_on_full_never_returns :
  match run_moves (tgt := target64) stream_on_full (new_engine narrow_config) with
  | Some e => len (queue (registry e)) = 1 ∧ (run_cont (tgt := target64) (AcceptStream None demo_stream None 10 None) (registry e)).1 = Diverge
  | None => False
  end.
Proof. vm_compute. by split. Qed.
