(* ===== verification/RegistryReach.v ===== *)
(** * What the registry reaches

    Every operation without a result is registered under its identity, so a
    cancellation, a shutdown or a failure that goes through the tables reaches
    it; an accepted operation stays in the command queue until it is drained;
    and once the engine no longer runs, none is accepted. Proved region by
    region, then for the threads of an engine. *)

From stdpp Require Import base list gmap strings.
From Stdlib Require Import ZArith Lia.
From S2P Require Import Prelude Errors BodyBudget Request TcpIo Registry RegistryProofs RegistryCalls RegistryRuns.

(** ** Operations *)

(** The table, the identity, and whether it is that of a connection being
    upgraded. *)
Definition op_key (o : object) : option (table * Z * bool) :=
  match o with
  | ORequest id _ => Some (TRequests, id, false)
  | OResolve id _ => Some (TResolutions, id, false)
  | OStream id _ => Some (TStreams, id, false)
  | OConnect id _ _ _ => Some (TConnects, id, false)
  | OTls id _ _ up _ => Some (TTls, id, up)
  | OLive _ _ | OEvent _ _ => None
  end.
(** It has its result. *)
Definition op_done (o : object) : bool :=
  match o with
  | ORequest _ s => terminal s
  | OResolve _ s => bool_decide (is_Some (res_completion s))
  | OStream _ s => control_terminal s
  | OConnect _ _ _ s | OTls _ _ _ _ s => con_terminal s
  | OLive _ _ | OEvent _ _ => true
  end.
Definition done_at (r : Registry) (a : nat) : Prop := ∃ o, heap r !! a = Some o ∧ op_done o = true.
Definition is_op (o : object) : Prop := is_Some (op_key o).

Lemma op_key_table o t id up : op_key o = Some (t, id, up) → t ≠ TLive.
Proof. destruct o; naive_solver. Qed.
Lemma key_entry t o id : entry_ok t id o → t ≠ TLive → ∃ up, op_key o = Some (t, id, up).
Proof. destruct t, o; cbn; try done; intros H _; try destruct H as [H _]; subst; eauto. Qed.

(** A region that accepts nothing: what it does to queue, operations and
    tables. *)
Record plain (r r' : Registry) : Prop := {
  pl_queue : queue r' = queue r;
  pl_lifecycle : lifecycle r ≠ Running → lifecycle r' ≠ Running;
  pl_stopped : stopped r' = stopped r;
  pl_sequence : next_sequence r ≤ next_sequence r';
  pl_old : ∀ a o, heap r !! a = Some o → ∃ o', heap r' !! a = Some o' ∧ op_key o' = op_key o ∧ (op_done o = true → op_done o' = true);
  pl_new : ∀ a o', heap r' !! a = Some o' → is_op o' → is_Some (heap r !! a);
  pl_kept : ∀ t id a, t ≠ TLive → tables r t !! id = Some a → tables r' t !! id = Some a ∨ done_at r' a;
  pl_tables : ∀ t id a, t ≠ TLive → tables r' t !! id = Some a → tables r t !! id = Some a
}.

Lemma plain_refl r : plain r r.
Proof. split; try done; eauto. Qed.
Lemma plain_done r r' a : plain r r' → done_at r a → done_at r' a.
Proof. intros Hp (o & Ha & Hd). destruct (pl_old _ _ Hp a o Ha) as (o' & Ha' & _ & H). exists o'. auto. Qed.
Lemma plain_trans r1 r2 r3 : plain r1 r2 → plain r2 r3 → plain r1 r3.
Proof.
  intros H1 H2. destruct (H1) as [Hq Hl Hs Hn Ho Hw Hk Ht], (H2) as [Hq' Hl' Hs' Hn' Ho' Hw' Hk' Ht']. split; try congruence; try lia; [by auto| | | |].
  - intros a o Ha. destruct (Ho a o Ha) as (o2 & Ha2 & Hkey & Hd), (Ho' a o2 Ha2) as (o3 & Ha3 & Hkey' & Hd').
    exists o3. split_and!; [done|congruence|auto].
  - intros a o3 Ha3 Hop. destruct (Hw' a o3 Ha3 Hop) as [o2 Ha2]. apply (Hw a o2 Ha2). destruct (Ho' a o2 Ha2) as (o3' & Ha3' & Hkey & _).
    unfold is_op in *. by simplify_eq; rewrite <-Hkey.
  - intros t id a Hne Ha. destruct (Hk t id a Hne Ha) as [Ha2|Hd]; [by apply Hk'|right; by eapply plain_done].
  - eauto.
Qed.

(** The steps a region is made of. *)
Lemma plain_same r x r' :
  plain r x → queue r' = queue x → lifecycle r' = lifecycle x → stopped r' = stopped x → next_sequence x ≤ next_sequence r' →
  heap r' = heap x → (∀ t, t ≠ TLive → tables r' t = tables x t) → plain r r'.
Proof.
  intros Hp Hq Hl Hs Hn Hh Ht. eapply plain_trans; [exact Hp|]. split; try done; [by rewrite Hl| | | |].
  - intros a o Ha. exists o. by rewrite Hh.
  - intros a o'. by rewrite Hh.
  - intros t id a Hne. rewrite (Ht t Hne). auto.
  - intros t id a Hne. by rewrite (Ht t Hne).
Qed.
Section with_target.
Context {tgt : Target}.

Lemma drop_permits_rest ps r :
  queue (drop_permits ps r) = queue r ∧ lifecycle (drop_permits ps r) = lifecycle r ∧ stopped (drop_permits ps r) = stopped r ∧
  next_sequence (drop_permits ps r) = next_sequence r ∧ heap (drop_permits ps r) = heap r ∧ tables (drop_permits ps r) = tables r.
Proof. unfold drop_permits. revert r. induction ps as [|p ps IH]; intros r; [done|]. cbn [foldl]. by destruct (IH (drop_permit p r)) as (-> & -> & -> & -> & -> & ->). Qed.
Lemma plain_drop r x ps : plain r x → plain r (drop_permits ps x).
Proof.
  intros Hp. destruct (drop_permits_rest ps x) as (Hq & Hl & Hs & Hn & Hh & Ht).
  apply (plain_same r x); try done; [by rewrite Hn|]. intros t _. by rewrite Ht.
Qed.
Lemma plain_update r x a o o' :
  plain r x → heap x !! a = Some o → op_key o' = op_key o → (op_done o = true → op_done o' = true) → plain r (update a o' x).
Proof.
  intros Hp Ha Hk Hd. eapply plain_trans; [exact Hp|]. split; try done; cbn; try by auto.
  - intros b ob Hb. destruct (decide (a = b)) as [<-|Hne].
    + exists o'. rewrite list_lookup_insert_eq by (by eapply lookup_lt_Some). simplify_eq. eauto.
    + exists ob. by rewrite list_lookup_insert_ne.
  - intros b ob Hb _. destruct (decide (a = b)) as [<-|Hne]; [by eexists|]. rewrite list_lookup_insert_ne in Hb by done. by eexists.
Qed.
Lemma plain_alloc r x o : plain r x → op_key o = None → plain r (set_heap (heap x ++ [o]) x).
Proof.
  intros Hp Hk. eapply plain_trans; [exact Hp|]. split; try done; cbn; try by auto.
  - intros b ob Hb. exists ob. split_and!; try done. by apply lookup_app_l_Some.
  - intros b ob Hb Hop. apply lookup_app_Some in Hb as [Hb|[Hge Hb]]; [by eexists|].
    apply list_lookup_singleton_Some in Hb as [_ <-]. unfold is_op in Hop. rewrite Hk in Hop. by destruct Hop.
Qed.
Lemma plain_remove r x t id :
  plain r x → (∀ a, tables x t !! id = Some a → t = TLive ∨ done_at x a) → plain r (table_remove t id x).
Proof.
  intros Hp Hd. eapply plain_trans; [exact Hp|]. split; try done; try by eauto.
  - intros t' id' a Hne Ha. destruct (decide (t' = t)) as [->|Ht].
    + destruct (decide (id' = id)) as [->|Hi].
      * destruct (Hd a Ha) as [?|?]; [done|by right].
      * left. cbn. rewrite decide_True by done. by rewrite lookup_delete_ne.
    + left. cbn. by rewrite decide_False.
  - intros t' id' a _ Ha. by apply table_remove_lookup in Ha as [? _].
Qed.
Lemma plain_live r x id a : plain r x → plain r (table_insert TLive id a x).
Proof. intros Hp. apply (plain_same r x); try done. intros t Ht. cbn. by rewrite decide_False. Qed.

Lemma done_drop ps x a : done_at (drop_permits ps x) a ↔ done_at x a.
Proof. unfold done_at. by destruct (drop_permits_rest ps x) as (_ & _ & _ & _ & -> & _). Qed.
Lemma done_update x a o o' b : heap x !! a = Some o → (b = a ∧ op_done o' = true) ∨ (b ≠ a ∧ done_at x b) → done_at (update a o' x) b.
Proof.
  intros Ha [[-> Hd]|[Hne (ob & Hb & Hd)]].
  - exists o'. split; [|done]. cbn. apply list_lookup_insert_eq. by eapply lookup_lt_Some.
  - exists ob. split; [|done]. cbn. by rewrite list_lookup_insert_ne.
Qed.

(** ** A region, if it returns *)

Definition pwp {E A} (m : M Registry E A) (Q : A → Registry → Prop) (F : Registry → Prop) (r : Registry) : Prop :=
  match m r with (Ok a, r') => Q a r' | (Err _, r') => F r' | _ => True end.

Section pwp.
Context {E : Type}.
Lemma pwp_bind {A B} (m : M Registry E A) (f : A → M Registry E B) Q F r :
  pwp m (λ a r', pwp (f a) Q F r') F r → pwp (m ≫= f) Q F r.
Proof. unfold pwp, mbind, M_bind. destruct (m r) as [[a|e| |] r']; done. Qed.
Lemma pwp_ret {A} (a : A) Q F r : Q a r → pwp (E := E) (mret a) Q F r.
Proof. done. Qed.
Lemma pwp_fail {A} (e : E) (Q : A → Registry → Prop) F r : F r → pwp (fail e) Q F r.
Proof. done. Qed.
Lemma pwp_panic {A} (Q : A → Registry → Prop) F r : pwp (E := E) panic Q F r.
Proof. done. Qed.
Lemma pwp_diverge {A} (Q : A → Registry → Prop) F r : pwp (E := E) diverge Q F r.
Proof. done. Qed.
Lemma pwp_get Q F r : Q r r → pwp (E := E) get Q F r.
Proof. done. Qed.
Lemma pwp_put r' Q F r : Q tt r' → pwp (E := E) (put r') Q F r.
Proof. done. Qed.
Lemma pwp_modify f Q F r : Q tt (f r) → pwp (E := E) (modify f) Q F r.
Proof. done. Qed.
Lemma pwp_lift {A} (o : outcome E A) Q F r : (∀ a, o = Ok a → Q a r) → F r → pwp (lift o) Q F r.
Proof. intros HQ HF. destruct o; cbn; auto. Qed.
Lemma pwp_mono {A} (m : M Registry E A) (Q Q' : A → Registry → Prop) (F F' : Registry → Prop) r :
  pwp m Q F r → (∀ a r', Q a r' → Q' a r') → (∀ r', F r' → F' r') → pwp m Q' F' r.
Proof. unfold pwp. destruct (m r) as [[a|e| |] r']; eauto. Qed.
End pwp.

Ltac pstep :=
  lazymatch goal with
  | |- pwp (mbind _ _) _ _ _ => apply pwp_bind
  | |- pwp get _ _ _ => apply pwp_get
  | |- pwp (put _) _ _ _ => apply pwp_put
  | |- pwp (modify _) _ _ _ => apply pwp_modify
  | |- pwp (mret _) _ _ _ => apply pwp_ret
  | |- pwp (fail _) _ _ _ => apply pwp_fail
  | |- pwp panic _ _ _ => apply pwp_panic
  | |- pwp diverge _ _ _ => apply pwp_diverge
  end; cbn beta iota.
Ltac pgo := cbn beta iota; repeat pstep.

#[local] Arguments drop_permits : simpl never.
#[local] Arguments drop_permit : simpl never.

Lemma take_terminal_key a id s job s' : take_terminal_job a id s = Ok (job, s') → terminal s' = terminal s.
Proof. unfold take_terminal_job. intros H. repeat case_match; by simplify_eq. Qed.
Lemma take_resolve_key a id s job s' : take_resolve_job a id s = Ok (job, s') → res_completion s' = res_completion s.
Proof. unfold take_resolve_job. intros H. repeat case_match; by simplify_eq. Qed.
Lemma take_connect_key a id s job s' : take_connect_job a id s = Ok (job, s') → con_terminal s' = con_terminal s.
Proof. unfold take_connect_job. intros H. repeat case_match; by simplify_eq. Qed.
Lemma with_inner_op s o id s0 : connect_parts o = Some (id, s0) → op_key (with_inner s o) = op_key o ∧ op_done (with_inner s o) = con_terminal s.
Proof. by destruct o. Qed.
Lemma connect_done o id s : connect_parts o = Some (id, s) → op_done o = con_terminal s.
Proof. destruct o; cbn; try done; by intros [= _ <-]. Qed.

Lemma pwp_gets {E A} (f : Registry → M Registry E A) Q F r : pwp (f r) Q F r → pwp (r ← get; f r) Q F r.
Proof. done. Qed.

(** A state is replaced by one of the same operation that is done if it was;
    results, permits and callbacks are of no concern here. *)
Ltac plains := repeat first
  [ apply plain_refl | apply plain_drop | eapply plain_update; [|done|done|try done] | apply plain_live | apply plain_alloc; [|done]
  | match goal with |- plain _ ?x => is_var x; eassumption end ].
Ltac same := first [apply (plain_same _ _ _ (plain_refl _)); done | eapply plain_same; [eassumption|done..]].

Lemma commit_plain a c r :
  pwp (commit a c) (λ _ r', plain r r' ∧ ∀ id s, heap r !! a = Some (ORequest id s) → done_at r' a) (plain r) r.
Proof.
  unfold commit. pgo. destruct (heap r !! a) as [[]|] eqn:Ha; try apply pwp_panic. destruct (terminal s) eqn:Ht.
  { pgo. split; [plains|]. intros ? ? [= <- <-]. by exists (ORequest id s). }
  pgo. apply pwp_lift; [|plains]. intros [job s1] Hj%take_terminal_key. cbn in Hj.
  assert (Hlog : plain r (log_commit a c r)) by same.
  destruct (_ && _); pgo; (split; [try apply plain_drop; apply (plain_update _ _ a (ORequest id s)); [exact Hlog|exact Ha|done|done]|]);
    intros ? ? _; try apply done_drop; (eapply done_update; [exact Ha|left; by split]).
Qed.
Lemma resolve_commit_plain a c r :
  pwp (resolve_commit a c) (λ _ r', plain r r' ∧ ∀ id s, heap r !! a = Some (OResolve id s) → done_at r' a) (plain r) r.
Proof.
  unfold resolve_commit. pgo. destruct (heap r !! a) as [[]|] eqn:Ha; try apply pwp_panic. destruct (bool_decide _) eqn:Ht.
  { pgo. split; [plains|]. intros ? ? [= <- <-]. by exists (OResolve id s). }
  pgo. apply pwp_lift; [|plains]. intros [job s1] Hj%take_resolve_key. cbn in Hj.
  assert (Hlog : plain r (log_commit a c r)) by same.
  assert (Hd : op_done (OResolve id s1) = true) by (cbn; by rewrite Hj).
  destruct (_ && _); pgo; (split; [try apply plain_drop; apply (plain_update _ _ a (OResolve id s)); [exact Hlog|exact Ha|done|by intros _; rewrite <-Hd]|]);
    intros ? ? _; try apply done_drop; (eapply done_update; [exact Ha|left; split; [done|by rewrite <-Hd]]).
Qed.
Lemma commit_terminal_plain a c r :
  pwp (commit_terminal a c) (λ won r', plain r r' ∧ tables r' = tables r ∧ done_at r' a) (plain r) r.
Proof.
  unfold commit_terminal. pgo. destruct (heap r !! a) as [o|] eqn:Ha; [|apply pwp_panic].
  destruct (connect_parts o) as [[id s]|] eqn:Ho; [|apply pwp_panic]. destruct (con_terminal s) eqn:Ht; pgo.
  { split_and!; [plains|done|]. exists o. split; [done|]. by rewrite (connect_done _ _ _ Ho). }
  set (s' := mkConnectInner _ _ _ _ _ _ _ _ _ _). destruct (with_inner_op s' o id s Ho) as [Hk Hd].
  assert (Hlog : plain r (log_commit a c r)) by same. split_and!.
  - apply plain_drop. apply (plain_update _ _ a o); [exact Hlog|exact Ha|done|by intros _; rewrite Hd].
  - by destruct (drop_permits_rest (connect_permits s) (update a (with_inner s' o) (log_commit a c r))) as (_ & _ & _ & _ & _ & ->).
  - apply done_drop. eapply done_update; [exact Ha|left; by rewrite Hd].
Qed.

(** The rewritten inner state of a connect keeps what concerns the tables. *)
Lemma inner_plain r x a o id s s' :
  plain r x → heap x !! a = Some o → connect_parts o = Some (id, s) → con_terminal s' = con_terminal s → plain r (update a (with_inner s' o) x).
Proof.
  intros Hp Ha Ho Hs. destruct (with_inner_op s' o id s Ho) as [Hk Hd]. apply (plain_update _ _ a o); [done..|]. by rewrite Hd, Hs, (connect_done _ _ _ Ho).
Qed.

Lemma publish_plain a r : pwp (publish_terminal a) (λ _ r', plain r r') (plain r) r.
Proof.
  unfold publish_terminal. pgo. destruct (heap r !! a) as [o|] eqn:Ha; [|apply pwp_panic].
  destruct (connect_parts o) as [[id s]|] eqn:Ho; [|apply pwp_panic]. destruct (_ || _); [apply pwp_panic|].
  pgo. apply pwp_lift; [|plains]. intros [job s1] Hj%take_connect_key. pgo. by apply (inner_plain _ _ _ _ id s); [plains|..].
Qed.
Lemma activate_plain a r : pwp (activate_callback a) (λ _ r', plain r r') (plain r) r.
Proof.
  unfold activate_callback. pgo.
  assert (Hconnect : ∀ o id s s', heap r !! a = Some o → connect_parts o = Some (id, s) → con_terminal s' = con_terminal s →
    pwp (E := Empty_set) ('(job, s') ← lift (take_connect_job a id s'); _ ← put (update a (with_inner s' o) r); mret job) (λ _ r', plain r r') (plain r) r).
  { intros o id s s' Ha Ho Hs. pgo. apply pwp_lift; [|plains]. intros [job s1] Hj%take_connect_key. pgo.
    apply (inner_plain _ _ _ _ id s); [plains|done|done|congruence]. }
  destruct (heap r !! a) as [[]|] eqn:Ha; try apply pwp_panic; try by eapply Hconnect.
  - pgo. apply pwp_lift; [|plains]. intros [job s1] Hj%take_terminal_key. pgo.
    apply (plain_update _ _ a (ORequest id s)); [plains|done|done|]. cbn in *. by rewrite Hj.
  - pgo. apply pwp_lift; [|plains]. intros [job s1] Hj%take_resolve_key. pgo.
    apply (plain_update _ _ a (OResolve id s)); [plains|done|done|]. cbn in *. by rewrite Hj.
Qed.

Lemma registered_parts t a r id :
  registered t a r = Some id → ∃ o s, heap r !! a = Some o ∧ connect_parts o = Some (id, s) ∧ tables r t !! id = Some a.
Proof.
  unfold registered. destruct (heap r !! a) as [o|]; [|done]. cbn. destruct (connect_parts o) as [[id' s]|] eqn:Ho; [|done]. cbn.
  destruct (bool_decide_reflect (tables r t !! id' = Some a)); [|done]. intros [= ->]. eauto.
Qed.

(** Under the core lock: a registered operation gets its result and leaves the
    table. *)
Lemma locked_plain t (complete : nat → R bool) a c r :
  (complete = λ a, complete_tcp_state_locked a c) ∧ t = TConnects ∨ (complete = λ a, complete_tls_state_locked a c) ∧ t = TTls →
  pwp (complete a) (λ _ r', plain r r' ∧ (is_Some (registered t a r) → done_at r' a)) (plain r) r.
Proof.
  assert (Hgo : pwp (match registered t a r with
     | None => mret false
     | Some id => won ← commit_terminal a c; if negb won then mret false else _ ← modify (table_remove t id); mret true
     end : R bool) (λ _ r', plain r r' ∧ (is_Some (registered t a r) → done_at r' a)) (plain r) r).
  { destruct (registered t a r) as [id|] eqn:Hr; pgo; [|split; [plains|by intros []]]. apply registered_parts in Hr as (o & s & Ha & Ho & Hid).
    eapply pwp_mono; [apply commit_terminal_plain| |done]. intros won r1 (Hp & Ht & Hd). destruct won; cbn [negb]; pgo; [|by split].
    split; [|intros _; exact Hd]. apply plain_remove; [done|]. intros b Hb. rewrite Ht in Hb. right. by simplify_eq. }
  intros [[-> ->]|[-> ->]]; exact Hgo.
Qed.

Lemma each_plain t (complete : nat → R bool) l c r :
  (complete = λ a, complete_tcp_state_locked a c) ∧ t = TConnects ∨ (complete = λ a, complete_tls_state_locked a c) ∧ t = TTls →
  pwp (complete_each complete l)
    (λ _ r', plain r r' ∧ ∀ a, a ∈ l → is_Some (registered t a r) → done_at r' a) (plain r) r.
Proof.
  intros Hc. revert r. induction l as [|a l IH]; intros r; cbn [complete_each]; pgo; [split; [plains|by intros ? ?%elem_of_nil]|].
  eapply pwp_mono; [by eapply locked_plain| |done]. intros won r1 [Hp1 Hd1]. pgo.
  eapply pwp_mono; [apply IH| |intros r2 Hp2; by eapply plain_trans]. intros rest r2 [Hp2 Hd2]. pgo.
  split; [by eapply plain_trans|]. intros b [->|Hb]%elem_of_cons Hreg; [by eapply plain_done, Hd1|].
  destruct (registered t b r1) eqn:Hr1; [apply Hd2; [done|by rewrite Hr1]|].
  (* it was registered before [a] got its result, so [a] took it out *)
  destruct Hreg as [id Hid]. apply registered_parts in Hid as (o & s & Hb1 & Ho & Hid).
  assert (Ht : t ≠ TLive) by (destruct Hc as [[_ ->]|[_ ->]]; done).
  destruct (pl_kept _ _ Hp1 t id b Ht Hid) as [Hin|Hd]; [|by eapply plain_done].
  destruct (pl_old _ _ Hp1 b o Hb1) as (o1 & Ho1 & Hk & _). exfalso. clear -Hr1 Ho1 Hk Ho Hin.
  unfold registered in Hr1. rewrite Ho1 in Hr1. cbn in Hr1. destruct o; cbn in Ho; simplify_eq; destruct o1; cbn in Hk; simplify_eq; cbn in Hr1; by rewrite Hin, bool_decide_true in Hr1.
Qed.

Lemma tcp_connected_plain a r : pwp (complete_tcp_connected a) (λ _ r', plain r r') (plain r) r.
Proof.
  unfold complete_tcp_connected. pgo. destruct (heap r !! a) as [[]|] eqn:Ha; try apply pwp_panic.
  destruct (_ || _) eqn:Hc; pgo; [plains|]. apply orb_false_iff in Hc as [[_ Hid%negb_false_iff%bool_decide_eq_true]%orb_false_iff Ht].
  destruct (negb _); [apply pwp_panic|]. destruct (queued_bytes_permit s), (metric_bytes_permit s); try apply pwp_panic.
  destruct (_ || _); [apply pwp_panic|]. pgo. apply pwp_lift; [|plains]. intros [job s1] Hj%take_connect_key. pgo. cbn in Hj.
  apply plain_live, plain_remove.
  - apply plain_alloc; [|done]. apply (plain_same _ (update a (OConnect id send_window receive_window s1) r)); try done.
    apply (plain_update _ _ a (OConnect id send_window receive_window s)); [plains|done|done|]. cbn. by rewrite Hj.
  - intros b Hb. cbn in Hb. right. assert (b = a) as -> by congruence. exists (OConnect id send_window receive_window s1). split; [|done]. cbn.
    rewrite lookup_app_l by (rewrite length_insert; by eapply lookup_lt_Some). apply list_lookup_insert_eq. by eapply lookup_lt_Some.
Qed.

Lemma tls_transport_plain a r : pwp (complete_tls_transport_connected a) (λ _ r', plain r r') (plain r) r.
Proof.
  unfold complete_tls_transport_connected. pgo. destruct (heap r !! a) as [[]|] eqn:Ha; try apply pwp_panic.
  destruct (_ || _); pgo; [plains|].
  assert (Htaken : ∀ s', con_terminal s' = con_terminal s → plain r (update a (OTls id send_window receive_window upgrade s') r)).
  { intros s' Hs. apply (plain_update _ _ a (OTls id send_window receive_window upgrade s)); [plains|done|done|]. cbn. by rewrite Hs. }
  destruct (negb _); pgo; [plains|]. destruct (queued_bytes_permit s), (metric_bytes_permit s); pgo; try by apply plain_drop, Htaken.
  destruct (_ || _); pgo. apply plain_live, plain_alloc; [by apply Htaken|done].
Qed.

Lemma tls_connected_plain a r : pwp (complete_tls_connected a) (λ _ r', plain r r') (plain r) r.
Proof.
  unfold complete_tls_connected. pgo. destruct (heap r !! a) as [[]|] eqn:Ha; try apply pwp_panic.
  destruct (_ || _) eqn:Hc; pgo; [plains|]. apply orb_false_iff in Hc as [_ Hid%negb_false_iff%bool_decide_eq_true].
  destruct (tables r TLive !! id) as [l|] eqn:Hl; pgo; [|plains]. destruct (heap r !! l) as [[]|] eqn:Hlo; try apply pwp_panic.
  destruct (session_released _); pgo; [plains|].
  assert (Hgo : ∀ r1, plain r r1 → tables r1 TTls !! id = Some a →
    pwp (tls_commit a (Completed l))
      (λ won r', pwp (E := Empty_set) (if negb won then panic else _ ← modify (table_remove TTls id); mret true) (λ _ r', plain r r') (plain r) r')
      (plain r) r1).
  { intros r1 Hp Ht1. eapply pwp_mono; [apply commit_terminal_plain| |intros; by eapply plain_trans].
    intros won r2 (Hp2 & Ht2 & Hd). destruct won; cbn [negb]; pgo. apply plain_remove; [by eapply plain_trans|].
    intros b Hb. rewrite Ht2 in Hb. right. by simplify_eq. }
  destruct upgrade; pgo; [|by apply Hgo; [plains|]]. apply Hgo; [|done]. by apply (plain_update _ _ l (OLive id0 s0)); [plains|..].
Qed.

Lemma tls_state_plain a c r :
  pwp (complete_tls_state a c) (λ _ r', plain r r' ∧ (is_Some (registered TTls a r) → done_at r' a)) (plain r) r.
Proof.
  unfold complete_tls_state. pgo. destruct (registered TTls a r) as [id|] eqn:Hr; pgo; [|split; [plains|by intros []]].
  apply registered_parts in Hr as (o & s & Ha & Ho & Hid).
  eapply pwp_mono; [apply commit_terminal_plain| |done]. intros won r1 (Hp & Ht & Hd). destruct won; pgo; [|by split].
  split; [|intros _; exact Hd]. apply plain_remove; [done|]. intros b Hb. rewrite Ht in Hb. right. by simplify_eq.
Qed.

Lemma release_dns_plain a r : pwp (release_dns_borrow a) (λ _ r', plain r r') (plain r) r.
Proof.
  unfold release_dns_borrow. pgo. destruct (heap r !! a) as [o|] eqn:Ha; [|apply pwp_panic].
  destruct (connect_parts o) as [[id s]|] eqn:Ho; [|apply pwp_panic]. destruct (_ || _); pgo; [plains|].
  change (drop_permit ?p ?x) with (drop_permits [p] x). apply plain_drop. by apply (inner_plain _ _ _ _ id s); [plains|..].
Qed.
Lemma try_completion_plain a r : pwp (try_completion a) (λ _ r', plain r r') (plain r) r.
Proof.
  unfold try_completion. pgo.
  assert (Hconnect : ∀ o id s s' (c : option Completion), heap r !! a = Some o → connect_parts o = Some (id, s) → con_terminal s' = con_terminal s →
    pwp (E := Empty_set) (_ ← put (update a (with_inner s' o) r); mret c) (λ _ r', plain r r') (plain r) r).
  { intros o id s s' c Ha Ho Hs. pgo. by apply (inner_plain _ _ _ _ id s); [plains|..]. }
  destruct (heap r !! a) as [[]|] eqn:Ha; cbn [connect_parts]; pgo; try plains.
  - destruct (callback s); pgo; [plains|]. by apply (plain_update _ _ a (ORequest id s)); [plains|..].
  - destruct (_ || _); [pgo; plains|]. by eapply Hconnect.
  - destruct (_ || _); [pgo; plains|]. by eapply Hconnect.
Qed.

Lemma control_plain a c r :
  pwp (control_commit a c) (λ _ r', plain r r' ∧ ∀ id s, heap r !! a = Some (OStream id s) → done_at r' a) (plain r) r.
Proof.
  unfold control_commit. pgo. destruct (heap r !! a) as [[]|] eqn:Ha; try apply pwp_panic. destruct (control_terminal s) eqn:Ht; pgo.
  - split; [plains|]. intros ? ? [= <- <-]. by exists (OStream id s).
  - split; [apply (plain_same _ (update a (OStream id (mkStreamState true (permits s))) r)); try done;
      by apply (plain_update _ _ a (OStream id s)); [plains|..]|].
    intros ? ? _. by eapply done_update; [exact Ha|left].
Qed.
Lemma release_permits_plain a r : pwp (release_permits a) (λ _ r', plain r r') (plain r) r.
Proof.
  unfold release_permits. pgo. destruct (heap r !! a) as [[]|] eqn:Ha; try apply pwp_panic. pgo. apply plain_drop.
  by apply (plain_update _ _ a (OStream id s)); [plains|..].
Qed.
(** Calls that take nothing out of a table and do not stop the engine. *)
Definition quiet_cont (c : cont) : Prop := match c with Remove _ _ | StoreStopped | MarkStopped | Drain => False | _ => True end.
(** What only the owner calls. *)
Definition owners (c : cont) : Prop := c = MarkStopped ∨ c = Drain.
Ltac quiets := intros; repeat case_match; simplify_eq; by repeat constructor.

Lemma release_io_plain l r : pwp (release_io l) (λ cs r', plain r r' ∧ Forall quiet_cont cs) (plain r) r.
Proof.
  unfold release_io. pgo. destruct (heap r !! l) as [[]|] eqn:Hl; try apply pwp_panic. destruct (session_released s); pgo; [split; [plains|done]|].
  split; [by apply (plain_update _ _ l (OLive id s)); [plains|..]|]. apply Forall_app. split; [|by repeat constructor]. by apply Forall_map, Forall_true.
Qed.

Lemma callback_plain (m : R (option CallbackJob)) r : m = take_runnable → pwp m (λ _ r', plain r r') (plain r) r.
Proof. intros ->. unfold take_runnable. pgo. destruct (first_runnable _ _) as [[j rest]|]; pgo; [same|plains]. Qed.
Lemma enqueue_terminal_plain j r : pwp (enqueue_terminal j) (λ _ r', plain r r') (plain r) r.
Proof. unfold enqueue_terminal. pgo. destruct (sealed _); pgo; [apply plain_drop|]; same. Qed.
Lemma call_job_plain j r : pwp (call_job j) (λ _ r', plain r r') (plain r) r.
Proof. unfold call_job. pgo. apply plain_drop. same. Qed.
Lemma finish_job_plain id r : pwp (finish_job id) (λ _ r', plain r r') (plain r) r.
Proof. unfold finish_job. pgo. apply pwp_lift; [|plains]. intros n _. pgo. same. Qed.
Lemma finish_activation_plain r : pwp finish_callback_activation (λ _ r', plain r r') (plain r) r.
Proof. unfold finish_callback_activation. pgo. apply pwp_lift; [|plains]. intros n _. pgo. same. Qed.

(** ** Every operation without a result is registered *)

Record Reg (r : Registry) : Prop := {
  rg_registered : ∀ a o t id up, heap r !! a = Some o → op_key o = Some (t, id, up) → op_done o = true ∨ tables r t !! id = Some a;
  rg_unique : ∀ a b o o' t t' id,
    heap r !! a = Some o → heap r !! b = Some o' → op_key o = Some (t, id, false) → op_key o' = Some (t', id, false) → a = b;
  rg_ids : ∀ a o t id up, heap r !! a = Some o → op_key o = Some (t, id, up) → id < next_sequence r
}.

(** An operation that was there before. *)
Lemma plain_was r r' a o' k : plain r r' → heap r' !! a = Some o' → op_key o' = Some k →
  ∃ o, heap r !! a = Some o ∧ op_key o = Some k ∧ (op_done o = true → op_done o' = true).
Proof.
  intros Hp Ha Hk. destruct (pl_new _ _ Hp a o' Ha) as [o Ho]; [by eexists|]. destruct (pl_old _ _ Hp a o Ho) as (o2 & Ho2 & Hk2 & Hd).
  rewrite Ha in Ho2. injection Ho2 as <-. exists o. split_and!; [done|congruence|done].
Qed.

Lemma plain_reg r r' : plain r r' → Reg r → Reg r'.
Proof.
  intros Hp [Hr Hu Hi]. split.
  - intros a o' t id up Ha Hk. destruct (plain_was _ _ _ _ _ Hp Ha Hk) as (o & Ho & Hko & Hd).
    destruct (Hr a o t id up Ho Hko) as [?|Hin]; [by left; auto|]. 
    destruct (pl_kept _ _ Hp t id a (op_key_table _ _ _ _ Hk) Hin) as [?|(o2 & Ho2 & Hd2)]; [by right|left; congruence].
  - intros a b o o' t t' id Ha Hb Hka Hkb. destruct (plain_was _ _ _ _ _ Hp Ha Hka) as (oa & Hoa & Hka' & _), (plain_was _ _ _ _ _ Hp Hb Hkb) as (ob & Hob & Hkb' & _).
    by eapply Hu.
  - intros a o' t id up Ha Hk. destruct (plain_was _ _ _ _ _ Hp Ha Hk) as (o & Ho & Hko & _). specialize (Hi a o t id up Ho Hko).
    pose proof (pl_sequence _ _ Hp). lia.
Qed.

(** An operation is accepted. *)
Record grown (r r' : Registry) : Prop := {
  gr_op : ∃ o t id up, heap r' = heap r ++ [o] ∧ op_key o = Some (t, id, up) ∧ op_done o = false ∧
    tables r t !! id = None ∧ tables r' t !! id = Some (length (heap r)) ∧
    (∀ t' id', tables r' t' !! id' = tables r t' !! id' ∨ t' = t ∧ id' = id) ∧
    (if up then t = TTls ∧ id < next_sequence r ∧ next_sequence r' = next_sequence r else id = next_sequence r ∧ next_sequence r' = id + 1);
  gr_queue : queue r' = queue r ++ [length (heap r)];
  gr_lifecycle : lifecycle r = Running;
  gr_stopped : stopped r' = stopped r
}.

Lemma grown_reg r r' : grown r r' → Reg r → Reg r'.
Proof.
  intros [(o & t & id & up & Hh & Hk & Hnd & Hfree & Hin & Hother & Hid) _ _ _] [Hr Hu Hi].
  assert (Hold : ∀ a x, heap r' !! a = Some x → heap r !! a = Some x ∨ a = length (heap r) ∧ x = o).
  { intros a x. rewrite Hh, lookup_app_Some. intros [?|[Hge Hx]]; [by left|right]. apply list_lookup_singleton_Some in Hx as [? <-]. split; [lia|done]. }
  assert (Hseq : next_sequence r ≤ next_sequence r') by (destruct up; lia). split.
  - intros a x t' id' up' Ha Hkx. destruct (Hold a x Ha) as [Ho|[-> ->]].
    + destruct (Hr a x t' id' up' Ho Hkx) as [?|Hreg]; [by left|right]. destruct (Hother t' id') as [->|[-> ->]]; [done|congruence].
    + right. congruence.
  - intros a b x y t1 t2 i Ha Hb Hkx Hky. destruct (Hold a x Ha) as [Hoa|[-> ->]], (Hold b y Hb) as [Hob|[-> ->]]; try done.
    + by eapply Hu.
    + pose proof (Hi _ _ _ _ _ Hoa Hkx). simplify_eq. lia.
    + pose proof (Hi _ _ _ _ _ Hob Hky). simplify_eq. lia.
  - intros a x t' id' up' Ha Hkx. destruct (Hold a x Ha) as [Ho|[-> ->]].
    + pose proof (Hi _ _ _ _ _ Ho Hkx). lia.
    + simplify_eq. destruct up; lia.
Qed.

Definition frame (r r' : Registry) : Prop := plain r r' ∨ ∃ r1, plain r r1 ∧ grown r1 r'.

Lemma frame_reg r r' : frame r r' → Reg r → Reg r'.
Proof. intros [Hp|(r1 & Hp & Hg)] Hr; [by eapply plain_reg|]. by eapply grown_reg, plain_reg. Qed.
Lemma frame_done r r' a : frame r r' → done_at r a → done_at r' a.
Proof.
  intros [Hp|(r1 & Hp & Hg)] Hd; [by eapply plain_done|]. eapply plain_done in Hd as (o & Ho & Hd); [|done].
  destruct Hg as [(? & ? & ? & ? & Hh & _) _ _ _]. exists o. split; [|done]. rewrite Hh. by apply lookup_app_l_Some.
Qed.

(** ** Submissions *)

Lemma drop_with ps r : drop_permits ps r = with_counters (counters (drop_permits ps r)) r.
Proof. unfold drop_permits. revert r. induction ps as [|p ps IH]; intros r; [by destruct r|]. cbn [foldl]. by rewrite (IH (drop_permit p r)) at 1. Qed.

Lemma acquire_with qs taken r :
  pwp (acquire_all qs taken) (λ _ r', ∃ f, r' = with_counters f r) (λ r', ∃ f, r' = with_counters f r) r.
Proof.
  revert taken r. induction qs as [|q qs IH]; intros taken r; cbn [acquire_all]; [pgo; exists (counters r); by destruct r|].
  unfold pwp at 1. destruct (try_acquire q r) as [r1|] eqn:Hq.
  - assert (Hr1 : ∃ f, r1 = with_counters f r).
    { destruct q; cbn in Hq; unfold admission_try_acquire, byte_try_acquire in Hq; repeat case_match; simplify_eq; eexists; reflexivity. }
    destruct Hr1 as [f ->]. pose proof (IH (taken ++ [acquired q]) (with_counters f r)) as Hi. unfold pwp in Hi.
    destruct (acquire_all qs _ _) as [[[]|e| |] r2]; try done; destruct Hi as [g ->]; by exists g.
  - destruct q; try done; rewrite drop_with; eexists; reflexivity.
Qed.

Lemma plain_counters r x f : plain r x → plain r (with_counters f x).
Proof. intros Hp. by apply (plain_same r x). Qed.

Lemma enlist_frame t cb make ps r0 r :
  plain r0 r → lifecycle r = Running → tables r t !! next_sequence r = None →
  (∀ id, op_key (make id) = Some (t, id, false) ∧ op_done (make id) = false) →
  pwp (enlist t cb make ps) (λ _ r', frame r0 r') (plain r0) r.
Proof.
  intros Hp Hl Hfree Hmake. destruct (Hmake (next_sequence r)) as [Hk Hd]. unfold enlist. pgo. unfold try_push. destruct (command_queue_full _); pgo.
  - apply plain_drop. apply (plain_same r0 r); try done. cbn. lia.
  - right. exists r. split; [done|]. split; try done; try (by destruct cb).
    exists (make (next_sequence r)), t, (next_sequence r), false. destruct cb; cbn; split_and!; try done.
    all: try (by rewrite decide_True, lookup_insert_eq by done).
    all: intros t' id'; destruct (decide (t' = t)) as [->|]; [|by left]; rewrite ?decide_True by done;
      destruct (decide (id' = next_sequence r)) as [->|]; [by right|left; by rewrite lookup_insert_ne].
Qed.

Lemma fresh_entry r t : RI r → tables r t !! next_sequence r = None.
Proof.
  intros Hri. destruct (tables r t !! next_sequence r) as [a|] eqn:Ha; [|done]. destruct (ri_ids _ Hri) as [Hlt _]. apply Hlt in Ha. lia.
Qed.

(** What every submission of a new operation ends with. *)
Lemma acquire_enlist t cb make qs ps (k : M Registry Error nat) r :
  RI r → lifecycle r = Running → (∀ id, op_key (make id) = Some (t, id, false) ∧ op_done (make id) = false) →
  k = enlist t cb make ps →
  pwp (acquire_all qs []) (λ _ r1, pwp k (λ _ r', frame r r') (λ r', frame r r') r1) (λ r', frame r r') r.
Proof.
  intros Hri Hl Hmake ->. eapply pwp_mono; [apply acquire_with| |intros r1 [f ->]; left; by apply plain_counters, plain_refl].
  intros _ r1 [f ->]. eapply pwp_mono; [apply (enlist_frame t cb make ps r)|done|intros; by left].
  - by apply plain_counters, plain_refl.
  - done.
  - exact (fresh_entry r t Hri).
  - done.
Qed.

Lemma frame_refl r : frame r r.
Proof. left. apply plain_refl. Qed.
Ltac stay := pgo; apply frame_refl.

Lemma accept_frame request admission cb r : RI r → pwp (accept request admission cb) (λ _ r', frame r r') (λ r', frame r r') r.
Proof.
  intros Hri. unfold accept. pgo. destruct (bool_decide_reflect (lifecycle r = Running)) as [Hl|]; cbn [negb]; [|stay].
  destruct (_ =? _); [stay|]. pgo. apply pwp_lift; [|apply frame_refl]. intros _ _. destruct admission; cbn [checked]; pgo; [apply frame_refl|].
  by eapply (acquire_enlist TRequests cb (λ id, ORequest id (mkRequestInner None false cb false true cb))).
Qed.
Lemma accept_resolve_frame max_results ceiling cb r :
  RI r → pwp (accept_resolve max_results ceiling cb) (λ _ r', frame r r') (λ r', frame r r') r.
Proof.
  intros Hri. unfold accept_resolve. pgo. destruct (bool_decide_reflect (lifecycle r = Running)) as [Hl|]; cbn [negb]; [|stay].
  destruct (match max_results with Some _ => _ | None => _ end); [stay|]. destruct (negb _); [stay|]. destruct (_ =? _); [stay|]. pgo.
  by eapply (acquire_enlist TResolutions cb (λ id, OResolve id (mkResolveInner None cb false true cb))).
Qed.
Lemma accept_stream_frame validate request admission window bind r :
  RI r → pwp (accept_stream validate request admission window bind) (λ _ r', frame r r') (λ r', frame r r') r.
Proof.
  intros Hri. unfold accept_stream. pgo. destruct (negb (streaming_supported _)); [stay|].
  destruct (bool_decide_reflect (lifecycle r = Running)) as [Hl|]; cbn [negb]; [|stay]. destruct (_ =? _); [stay|]. pgo.
  destruct validate; cbn [checked]; pgo; [apply frame_refl|]. apply pwp_lift; [|apply frame_refl]. intros _ _.
  destruct admission; cbn [checked]; pgo; [apply frame_refl|]. destruct (_ =? _); [stay|]. destruct (_ <? _); [stay|]. pgo.
  apply pwp_lift; [|apply frame_refl]. intros reserved _.
  pgo. eapply pwp_mono; [apply acquire_with| |intros r1 [f ->]; left; by apply plain_counters, plain_refl].
  intros _ r1 [f ->]. destruct bind as [e|]; pgo.
  - left. apply plain_drop. apply (plain_same r r); try done; [apply plain_refl|cbn; lia].
  - destruct (command_queue_full _); [apply pwp_diverge|].
    eapply pwp_mono; [apply (enlist_frame TStreams false (λ id, OStream id (mkStreamState false (Some reserved))) _ r)|done|intros; by left]; try done.
    + by apply plain_counters, plain_refl.
    + exact (fresh_entry r TStreams Hri).
Qed.
Lemma accept_tcp_frame hostname send receive cb r :
  RI r → pwp (accept_tcp_connect hostname send receive cb) (λ _ r', frame r r') (λ r', frame r r') r.
Proof.
  intros Hri. unfold accept_tcp_connect. pgo. destruct (bool_decide_reflect (lifecycle r = Running)) as [Hl|]; cbn [negb]; [|stay].
  destruct (negb _); [stay|]. destruct (_ && _); [stay|]. cbv zeta. destruct (_ || _); [stay|]. destruct (_ || _); [stay|]. pgo.
  apply pwp_lift; [|apply frame_refl]. intros reserved _. destruct (_ =? _); [stay|]. destruct (_ =? _); [stay|]. pgo.
  by eapply (acquire_enlist TConnects cb (λ id, OConnect id _ _ (mkConnectInner None false false cb false true (Some reserved) (Some reserved) hostname cb))).
Qed.
Lemma accept_tls_frame validate hostname send receive cb r :
  RI r → pwp (accept_tls_connect validate hostname send receive cb) (λ _ r', frame r r') (λ r', frame r r') r.
Proof.
  intros Hri. unfold accept_tls_connect. pgo. destruct validate; cbn [checked]; pgo; [apply frame_refl|].
  destruct (bool_decide_reflect (lifecycle r = Running)) as [Hl|]; cbn [negb]; [|stay].
  destruct (negb _); [stay|]. destruct (_ && _); [stay|]. cbv zeta. destruct (_ || _); [stay|]. pgo.
  apply pwp_lift; [|apply frame_refl]. intros reserved _. destruct (_ =? _); [stay|]. pgo.
  by eapply (acquire_enlist TTls cb (λ id, OTls id _ _ false (mkConnectInner None false false cb false true (Some reserved) (Some reserved) hostname cb))).
Qed.

Lemma accept_upgrade_frame validate l idle cb r :
  RI r → pwp (accept_tls_upgrade validate l idle cb) (λ _ r', frame r r') (λ r', frame r r') r.
Proof.
  intros Hri. unfold accept_tls_upgrade. pgo. destruct validate; cbn [checked]; pgo; [apply frame_refl|].
  destruct (heap r !! l) as [[]|] eqn:Hl; try apply pwp_panic.
  destruct (bool_decide_reflect (lifecycle r = Running)) as [Hrun|]; cbn [negb]; [|stay].
  destruct (_ || _) eqn:Hfree; [stay|]. apply orb_false_iff in Hfree as [Hid%negb_false_iff%bool_decide_eq_true Hnone%bool_decide_eq_false].
  apply eq_None_not_Some in Hnone. cbv zeta. pgo.
  eapply pwp_mono; [apply acquire_with| |intros r1 [f ->]; left; by apply plain_counters, plain_refl]. intros _ r1 [f ->].
  assert (Hp : plain r (with_counters f r)) by (by apply plain_counters, plain_refl).
  assert (Hup : ∀ s', plain r (update l (OLive id s') (with_counters f r))) by (intros; by apply (plain_update _ _ l (OLive id s))).
  destruct (begin_upgrade idle s) as [s1|e| |]; try apply pwp_panic; [|pgo; left; by apply plain_drop|apply pwp_diverge].
  destruct (attach_tls_reserve _ s1) as [s2|e| |]; try apply pwp_panic; [|pgo; left; by apply plain_drop|apply pwp_diverge].
  pgo. unfold try_push. destruct (command_queue_full _); pgo; [left; by apply plain_drop, Hup|].
  right. exists (update l (OLive id s2) (with_counters f r)). split; [done|]. split; try done; try (by destruct cb).
  destruct (ri_ids _ Hri) as [Hlt _]. specialize (Hlt _ _ _ Hid).
  exists (OTls id 0 0 true (mkConnectInner None false false cb false false None None false cb)), TTls, id, true.
  destruct cb; cbn; split_and!; try done.
  all: try (by rewrite ?decide_True, lookup_insert_eq by done).
  all: intros t' id'; destruct (decide (t' = TTls)) as [->|]; [|by left]; rewrite ?decide_True by done;
      destruct (decide (id' = id)) as [->|]; [by right|left; by rewrite lookup_insert_ne].
Qed.

Lemma begin_event_plain id r : pwp (try_begin_callback_event id) (λ _ r', plain r r') (plain r) r.
Proof.
  unfold try_begin_callback_event. pgo. destruct (bool_decide _); cbn [negb]; pgo; [|apply plain_refl].
  eapply pwp_mono; [apply acquire_with| |intros r1 [f ->]; by apply plain_counters, plain_refl]. intros _ r1 [f ->]. pgo.
  apply (plain_same _ (set_heap (heap r ++ [OEvent id true]) (with_counters f r))); try done.
  apply (plain_alloc r (with_counters f r)); [|done]. by apply plain_counters, plain_refl.
Qed.

(** ** Calls that reach every operation *)

(** After this, the operation has its result. *)
Definition covers (a : nat) (c : cont) : Prop :=
  match c with
  | CompleteState b _ | CompleteResolve b _ | StreamResult b _ | CancelStream b | FailStream b _ | CompleteTcp b _ | CompleteTls b _ => b = a
  | _ => False
  end.
Definition swept (cs : list cont) (r : Registry) : Prop :=
  ∀ a o, heap r !! a = Some o → is_op o → op_done o = true ∨ Exists (covers a) cs.

Lemma registered_at r t a o id up :
  heap r !! a = Some o → op_key o = Some (t, id, up) → t = TConnects ∨ t = TTls → tables r t !! id = Some a → registered t a r = Some id.
Proof.
  intros Ha Hk Ht Hin. unfold registered. rewrite Ha. destruct Ht as [-> | ->], o; cbn in Hk; simplify_eq; cbn; by rewrite bool_decide_true.
Qed.
Lemma states_elem t barrier r id a :
  tables r t !! id = Some a → match barrier with Some b => id ≤ b | None => True end → a ∈ states t barrier r.
Proof.
  intros Ha Hb. unfold states. apply list_elem_of_fmap. exists (id, a). split; [done|]. apply list_elem_of_In, filter_In.
  split; [by apply list_elem_of_In, elem_of_map_to_list|]. cbn. destruct barrier; [by apply Z.leb_le|done].
Qed.

Lemma complete_all_sweeps barrier tcp tls rest stream r0 r :
  plain r0 r → Reg r → (∀ a, covers a (stream a)) → match barrier with Some b => next_sequence r - 1 ≤ b | None => True end →
  pwp (complete_all barrier tcp tls rest stream) (λ cs r', plain r0 r' ∧ swept cs r') (plain r0) r.
Proof.
  intros Hp0 Hr Hstream Hb. unfold complete_all. pgo.
  eapply pwp_mono; [eapply (each_plain TTls); by right| |intros; by eapply plain_trans]. intros tls_states r1 [Hp1 Hd1]. pgo.
  eapply pwp_mono; [eapply (each_plain TConnects); by left| |intros; eapply plain_trans; [done|by eapply plain_trans]]. intros tcp_states r2 [Hp2 Hd2]. pgo.
  split; [eapply plain_trans; [done|by eapply plain_trans]|]. intros a o2 Ha2 [[[t id] up] Hk].
  destruct (op_done o2) eqn:Hnd; [by left|right].
  pose proof (plain_reg _ _ Hp2 (plain_reg _ _ Hp1 Hr)) as Hr2. destruct (rg_registered _ Hr2 a o2 t id up Ha2 Hk) as [?|Hin2]; [congruence|].
  pose proof (op_key_table _ _ _ _ Hk) as Ht. pose proof (pl_tables _ _ Hp2 t id a Ht Hin2) as Hin1. pose proof (pl_tables _ _ Hp1 t id a Ht Hin1) as Hin.
  destruct (plain_was _ _ _ _ _ Hp2 Ha2 Hk) as (o1 & Ha1 & Hk1 & _). destruct (plain_was _ _ _ _ _ Hp1 Ha1 Hk1) as (o & Ha & Hko & _).
  assert (Hbar : match barrier with Some b => id ≤ b | None => True end).
  { destruct barrier; [|done]. pose proof (rg_ids _ Hr a o t id up Ha Hko). lia. }
  assert (Hexists : ∀ l : list cont, (∃ c, c ∈ l ∧ covers a c) → Exists (covers a) l) by (intros l ?; by apply Exists_exists).
  assert (Hnot : ∀ x, done_at r2 x → x ≠ a) by (intros x (ox & Hx & Hdx) ->; congruence).
  pose proof (states_elem t barrier r2 id a Hin2 Hbar) as Hs2. pose proof (states_elem t barrier r id a Hin Hbar) as Hs.
  apply Hexists. destruct t; try done.
  - exists (CompleteState a rest). split; [|done]. rewrite !elem_of_app. left. apply list_elem_of_fmap. by exists a.
  - exists (stream a). split; [|done]. rewrite !elem_of_app. right. left. apply list_elem_of_fmap. by exists a.
  - exists (CompleteResolve a rest). split; [|done]. rewrite !elem_of_app. do 2 right. left. apply list_elem_of_fmap. by exists a.
  - exfalso. apply (Hnot a); [|done]. apply Hd2; [done|]. eexists. eapply registered_at; eauto.
  - exfalso. apply (Hnot a); [|done]. apply (plain_done r1); [done|]. apply Hd1; [done|]. eexists. eapply registered_at; eauto.
Qed.

Lemma cancel_plain engine id r : pwp (cancel engine id) (λ cs r', plain r r' ∧ Forall quiet_cont cs) (plain r) r.
Proof.
  unfold cancel. pgo. destruct (negb _); pgo; [by split; [apply plain_refl|]|]. cbv zeta. pgo.
  assert (Hopt : ∀ (o : option nat) (complete : nat → R bool) r1, plain r r1 →
    (∀ a, pwp (complete a) (λ _ r', plain r1 r') (plain r1) r1) →
    pwp (match o with Some a => complete a | None => mret false end) (λ _ r', plain r r') (plain r) r1).
  { intros [a|] complete r1 Hp Hc; pgo; [|done]. eapply pwp_mono; [apply Hc|intros; by eapply plain_trans..]. }
  eapply pwp_mono; [apply (Hopt _ (λ a, complete_tcp_state_locked a Cancelled) r (plain_refl r))| |done].
  - intros a. eapply pwp_mono; [apply (locked_plain TConnects (λ a, complete_tcp_state_locked a Cancelled) a Cancelled); by left|by intros ? ? []|done].
  - intros won r1 Hp. pgo. eapply pwp_mono; [apply (Hopt _ (λ a, complete_tls_state_locked a Cancelled) r1 Hp)| |done].
    + intros a. eapply pwp_mono; [apply (locked_plain TTls (λ a, complete_tls_state_locked a Cancelled) a Cancelled); by right|by intros ? ? []|done].
    + intros won' r2 Hp2. pgo. split; [done|]. quiets.
Qed.

(** ** One step of a thread *)

Inductive effect (c : cont) (r r' : Registry) : Prop :=
| effect_frame : frame r r' → effect c r r'
| effect_stop : c = StoreStopped → r' = set_stopped true r → effect c r r'
| effect_drain : c = Drain → r' = (drain r).2 → effect c r r'.

(** A thread takes out of a table only what has its result. *)
Definition cont_reg (r : Registry) (c : cont) : Prop :=
  match c with
  | Remove t id => (t = TRequests ∨ t = TResolutions) ∧ id < next_sequence r ∧ ∀ a, tables r t !! id = Some a → done_at r a
  | _ => True
  end.

Record outcome_of (c : cont) (r : Registry) (cs : list cont) (r' : Registry) : Prop := {
  oc_effect : effect c r r';
  oc_conts : Forall (cont_reg r') cs;
  oc_covers : ∀ a, covers a c → done_at r' a;
  oc_shutdown : c = BeginShutdown → lifecycle r' ≠ Running ∧ ∃ cs0, cs = cs0 ++ [StoreStopped; Wake] ∧ swept cs0 r' ∧ ¬ (StoreStopped ∈ cs0);
  oc_sweeps : c = CancelAll ∨ (∃ e, c = FailAll e) → swept cs r';
  oc_stopped : c ≠ BeginShutdown → c ≠ MarkStopped → ¬ (StoreStopped ∈ cs);
  oc_owners : Forall (λ c', ¬ owners c') cs
}.

Lemma quiet_owners cs : Forall quiet_cont cs → Forall (λ c, ¬ owners c) cs.
Proof. intros Hq. eapply Forall_impl; [exact Hq|]. by intros c Hc [-> | ->]. Qed.
Lemma quiet_conts r cs : Forall quiet_cont cs → Forall (cont_reg r) cs ∧ ¬ (StoreStopped ∈ cs).
Proof.
  intros Hq. split; [eapply Forall_impl; [exact Hq|]; by intros []|]. intros Hin. rewrite Forall_forall in Hq. by apply Hq in Hin.
Qed.
Lemma quiet_outcome c r cs r' :
  frame r r' → Forall quiet_cont cs → (∀ a, covers a c → done_at r' a) → c ≠ BeginShutdown → c ≠ CancelAll → (∀ e, c ≠ FailAll e) →
  outcome_of c r cs r'.
Proof.
  intros Hf Hq Hc H1 H2 H3. destruct (quiet_conts r' cs Hq). split; try done.
  - by apply effect_frame.
  - intros [?|[e ?]]; [done|by destruct (H3 e)].
  - by apply quiet_owners.
Qed.
Lemma enqueue_quiet job : Forall quiet_cont (enqueue job).
Proof. destruct job; by repeat constructor. Qed.

(** The entry of an operation that has its result may go. *)
Lemma remove_reg r a t id o :
  RI r → Reg r → heap r !! a = Some o → op_key o = Some (t, id, false) → (t = TRequests ∨ t = TResolutions ∨ t = TStreams) → done_at r a →
  id < next_sequence r ∧ ∀ b, tables r t !! id = Some b → done_at r b.
Proof.
  intros Hri Hr Ha Hk Ht Hd. split; [by eapply (rg_ids _ Hr)|]. intros b Hb. destruct (ri_tables _ Hri _ _ _ Hb) as (ob & Hob & He).
  assert (op_key ob = Some (t, id, false)) as Hkb by (destruct Ht as [->|[->| ->]], ob; cbn in He |- *; try done; congruence).
  by assert (b = a) as -> by by eapply (rg_unique _ Hr).
Qed.

(** A result under the state's own lock, then its entry. *)
Lemma result_outcome c r t a id o r' job :
  (t = TRequests ∨ t = TResolutions) → plain r r' → RI r' → Reg r → heap r !! a = Some o → op_key o = Some (t, id, false) → done_at r' a →
  (∀ b, covers b c → b = a) → c ≠ BeginShutdown → c ≠ CancelAll → (∀ e, c ≠ FailAll e) →
  outcome_of c r ([Remove t id] ++ enqueue job) r'.
Proof.
  intros Ht Hp Hri' Hr Ha Hk Hd Hc H1 H2 H3. pose proof (plain_reg _ _ Hp Hr) as Hr'.
  destruct (pl_old _ _ Hp a o Ha) as (o' & Ha' & Hk' & _). rewrite Hk in Hk'.
  destruct (remove_reg r' a t id o' Hri' Hr' Ha' Hk') as [Hid Hrem]; [tauto|done|].
  destruct (quiet_conts r' _ (enqueue_quiet job)) as [Hq Hnin]. split; try done.
  - by apply effect_frame; left.
  - constructor; [done|done].
  - by intros b ->%Hc.
  - intros [?|[e ?]]; [done|by destruct (H3 e)].
  - intros _ _ [?|?]%elem_of_cons; done.
  - constructor; [by intros [?|?]|]. apply quiet_owners, enqueue_quiet.
Qed.

Lemma accepting_frame cb (m : M Registry Error nat) r :
  pwp m (λ _ r', frame r r') (λ r', frame r r') r →
  pwp (accepting cb m) (λ cs r', frame r r' ∧ Forall quiet_cont cs) (λ _, True) r.
Proof.
  unfold pwp, accepting. destruct (m r) as [[a|e| |] r']; try done; intros Hf; (split; [exact Hf|]); try destruct cb; by repeat constructor.
Qed.

(** A region that accepts nothing, with calls that take nothing out. *)
Lemma plain_outcome {A} c (m : R A) (f : A → list cont) r :
  pwp m (λ _ r', plain r r') (plain r) r → (∀ x, Forall quiet_cont (f x)) → (∀ a, ¬ covers a c) →
  c ≠ BeginShutdown → c ≠ CancelAll → (∀ e, c ≠ FailAll e) →
  pwp (x ← m; mret (f x) : R (list cont)) (λ cs r', outcome_of c r cs r') (λ _, True) r.
Proof.
  intros Hm Hf Hc H1 H2 H3. apply pwp_bind. eapply pwp_mono; [exact Hm| |done]. intros x r' Hp. pgo.
  apply quiet_outcome; try done; [by left|]. intros a Ha. by destruct (Hc a).
Qed.

(** The calls grouped by what they do. *)
Definition plain_call (c : cont) : bool :=
  match c with
  | TcpConnected _ | TlsTransportConnected _ | TlsConnected _ | ReleaseDns _ | TryCompletion _ | ConnectionEnded _ | FinishStream _ | ReleaseStream _
  | Publish _ | Activate _ | EndActivation | Enqueue _ | TakeRunnable | CallJob _ | FinishJob _ | Cancel _ _ => true
  | _ => false
  end.

Lemma plain_call_outcome c r : plain_call c = true → pwp (run_cont c) (λ cs r', outcome_of c r cs r') (λ _, True) r.
Proof.
  intros Hc. destruct c; try discriminate Hc; cbn [run_cont]; clear Hc.
  - eapply pwp_mono; [apply cancel_plain| |done]. intros cs r' [Hp Hq]. by apply quiet_outcome; [left|..].
  - apply (plain_outcome _ (complete_tcp_connected a) enqueue); try done; [apply tcp_connected_plain|apply enqueue_quiet|by intros ? []].
  - apply (plain_outcome _ (complete_tls_transport_connected a) (λ _, [])); try done; [apply tls_transport_plain|by intros ? []].
  - apply (plain_outcome _ (complete_tls_connected a) (λ won, if won : bool then [Publish a] else [])); try done; [apply tls_connected_plain|quiets|by intros ? []].
  - apply (plain_outcome _ (release_dns_borrow a) (λ _, [])); try done; [apply release_dns_plain|by intros ? []].
  - apply (plain_outcome _ (release_permits a) (λ _, [RemoveStream a])); try done; [apply release_permits_plain|quiets|by intros ? []].
  - apply (plain_outcome _ (try_completion a) (λ _, [])); try done; [apply try_completion_plain|by intros ? []].
  - eapply pwp_mono; [apply release_io_plain| |done]. intros cs r' [Hp Hq]. by apply quiet_outcome; [left|..].
  - apply (plain_outcome _ take_runnable (λ job, match job with Some j => [CallJob j; FinishJob (job_id j)] | None => [] end)); try done; [by apply callback_plain|quiets|by intros ? []].
  - apply (plain_outcome _ (activate_callback a) enqueue); try done; [apply activate_plain|apply enqueue_quiet|by intros ? []].
  - apply (plain_outcome _ finish_callback_activation (λ _, [])); try done; [apply finish_activation_plain|by intros ? []].
  - apply (plain_outcome _ (enqueue_terminal j) (λ _, [])); try done; [apply enqueue_terminal_plain|by intros ? []].
  - apply (plain_outcome _ (release_permits a) (λ _, [])); try done; [apply release_permits_plain|by intros ? []].
  - apply (plain_outcome _ (publish_terminal a) enqueue); try done; [apply publish_plain|apply enqueue_quiet|by intros ? []].
  - apply (plain_outcome _ (call_job j) (λ _, [])); try done; [apply call_job_plain|by intros ? []].
  - apply (plain_outcome _ (finish_job id) (λ _, [])); try done; [apply finish_job_plain|by intros ? []].
Qed.

Definition admits (c : cont) : bool := match c with BeginEvent _ => true | _ => submission c end.
Lemma submission_outcome c r : admits c = true → RI r → pwp (run_cont c) (λ cs r', outcome_of c r cs r') (λ _, True) r.
Proof.
  intros Hc Hri.
  assert (Hgo : ∀ cb m, pwp m (λ _ r', frame r r') (λ r', frame r r') r → (∀ a, ¬ covers a c) → c ≠ BeginShutdown → c ≠ CancelAll →
    (∀ e, c ≠ FailAll e) → pwp (accepting cb m) (λ cs r', outcome_of c r cs r') (λ _, True) r).
  { intros cb m Hm H0 H1 H2 H3. eapply pwp_mono; [by apply accepting_frame| |done]. intros cs r' [Hf Hq]. apply quiet_outcome; try done. intros a Ha. by destruct (H0 a). }
  destruct c; try discriminate Hc; cbn [run_cont]; try (apply Hgo; try done; try (by intros ? [])).
  - by apply accept_frame.
  - by apply accept_resolve_frame.
  - by apply accept_stream_frame.
  - by apply accept_tcp_frame.
  - by apply accept_tls_frame.
  - by apply accept_upgrade_frame.
  - pose proof (begin_event_plain id r) as Hb. unfold pwp in Hb |- *. destruct (try_begin_callback_event id r) as [[a|e| |] r']; try done;
      (apply quiet_outcome; [by left|first [exact (Forall_nil_2 _)|by repeat constructor]|by intros ? []|done..]).
Qed.

(** Results. *)
Definition result_call (c : cont) : bool :=
  match c with
  | CompleteState _ _ | CompleteResolve _ _ | CompleteTcp _ _ | CompleteTls _ _ | StreamResult _ _ | CancelStream _ | FailStream _ _ => true
  | _ => false
  end.
Lemma result_call_outcome c r :
  result_call c = true → Reg r → possible (heap r) c = true → pwp (run_cont c) (λ cs r', RI r' → outcome_of c r cs r') (λ _, True) r.
Proof.
  intros Hc Hr Hpos. destruct c; try discriminate Hc; cbn [run_cont possible] in *; clear Hc; pgo.
  - destruct (heap r !! a) as [[]|] eqn:Ha; try done. eapply pwp_mono; [apply commit_plain| |done]. intros [won job] r' [Hp Hd]. 
    specialize (Hd id s Ha). destruct won; cbn [negb]; pgo; intros Hri'.
    + eapply (result_outcome _ _ TRequests a id); eauto; by intros ? <-.
    + apply quiet_outcome; try done; [by left|by intros ? <-].
  - destruct (heap r !! a) as [[]|] eqn:Ha; try done. eapply pwp_mono; [apply resolve_commit_plain| |done]. intros [won job] r' [Hp Hd].
    specialize (Hd id s Ha). destruct won; cbn [negb]; pgo; intros Hri'.
    + eapply (result_outcome _ _ TResolutions a id); eauto; by intros ? <-.
    + apply quiet_outcome; try done; [by left|by intros ? <-].
  - destruct (heap r !! a) as [[]|] eqn:Ha; try done.
    eapply pwp_mono; [apply (locked_plain TConnects (λ a, complete_tcp_state_locked a c) a c); by left| |done].
    intros won r' [Hp Hd]. pgo. intros _. apply quiet_outcome; try done; [by left|quiets|]. intros b <-.
    destruct (rg_registered _ Hr a _ TConnects id false Ha eq_refl) as [Hdone|Hin]; [eapply plain_done; [done|by eexists]|].
    apply Hd. eexists. by eapply registered_at; eauto.
  - destruct (heap r !! a) as [[]|] eqn:Ha; try done. eapply pwp_mono; [apply tls_state_plain| |done].
    intros [won io] r' [Hp Hd]. pgo. intros _. apply quiet_outcome; try done; [by left|quiets|]. intros b <-.
    destruct (rg_registered _ Hr a _ TTls id upgrade Ha eq_refl) as [Hdone|Hin]; [eapply plain_done; [done|by eexists]|].
    apply Hd. eexists. by eapply registered_at; eauto.
  - destruct (heap r !! a) as [[]|] eqn:Ha; try done. eapply pwp_mono; [apply control_plain| |done]. intros won r' [Hp Hd]. pgo. intros _.
    apply quiet_outcome; try done; [by left|intros b <-; by eapply Hd].
  - destruct (heap r !! a) as [[]|] eqn:Ha; try done. eapply pwp_mono; [apply control_plain| |done]. intros won r' [Hp Hd]. pgo. intros _.
    apply quiet_outcome; try done; [by left|quiets|intros b <-; by eapply Hd].
  - destruct (heap r !! a) as [[]|] eqn:Ha; try done. eapply pwp_mono; [apply control_plain| |done]. intros won r' [Hp Hd]. pgo. intros _.
    apply quiet_outcome; try done; [by left|quiets|intros b <-; by eapply Hd].
Qed.

Lemma frame_quiet c r r' : plain r r' → (∀ a, ¬ covers a c) → c ≠ BeginShutdown → c ≠ CancelAll → (∀ e, c ≠ FailAll e) → outcome_of c r [] r'.
Proof. intros Hp Hc H1 H2 H3. apply quiet_outcome; try done; [by left|]. intros a Ha. by destruct (Hc a). Qed.

Lemma swept_app cs cs' r : swept cs r → swept (cs ++ cs') r.
Proof. intros Hs a o Ha Hop. destruct (Hs a o Ha Hop) as [?|He]; [by left|right]. apply Exists_app. by left. Qed.
Lemma complete_all_quiet barrier tcp tls rest stream r :
  (∀ a, quiet_cont (stream a)) → pwp (complete_all barrier tcp tls rest stream) (λ cs _, Forall quiet_cont cs) (λ _, True) r.
Proof.
  intros Hs. unfold complete_all. pgo. assert (Hany : ∀ (m : R (list nat)) r, pwp m (λ _ _, True) (λ _, True) r).
  { intros m r1. unfold pwp. by destruct (m r1) as [[]]. }
  eapply pwp_mono; [apply Hany| |done]. intros l1 r1 _. pgo. eapply pwp_mono; [apply Hany| |done]. intros l2 r2 _. pgo.
  repeat (apply Forall_app; split); try (by apply Forall_map, Forall_true); by repeat constructor.
Qed.
Lemma pwp_and {E A} (m : M Registry E A) Q Q' F F' r : pwp m Q F r → pwp m Q' F' r → pwp m (λ a r', Q a r' ∧ Q' a r') (λ r', F r' ∧ F' r') r.
Proof. unfold pwp. by destruct (m r) as [[]]. Qed.

(** The calls that go through the tables. *)
Lemma sweep_outcome c r :
  c = CancelAll ∨ c = BeginShutdown ∨ (∃ e, c = FailAll e) → Reg r → pwp (run_cont c) (λ cs r', outcome_of c r cs r') (λ _, True) r.
Proof.
  assert (Hall : ∀ barrier tcp tls rest stream r1, plain r r1 → Reg r1 → (∀ a, covers a (stream a) ∧ quiet_cont (stream a)) →
    match barrier with Some b => next_sequence r1 - 1 ≤ b | None => True end →
    pwp (complete_all barrier tcp tls rest stream) (λ cs r', plain r r' ∧ swept cs r' ∧ Forall quiet_cont cs) (λ _, True) r1).
  { intros barrier tcp tls rest stream r1 Hp Hr Hst Hb. eapply pwp_mono; [apply pwp_and; [apply (complete_all_sweeps barrier tcp tls rest stream r r1)|apply complete_all_quiet]| |done].
    - done.
    - done.
    - intros a. apply Hst.
    - done.
    - intros a. apply Hst.
    - by intros cs r' [[? ?] ?]. }
  assert (Hfin : ∀ cs r', c = CancelAll ∨ (∃ e, c = FailAll e) → plain r r' ∧ swept cs r' ∧ Forall quiet_cont cs → outcome_of c r (cs ++ [Wake]) r').
  { intros cs r' Hc (Hp & Hs & Hq). destruct (quiet_conts r' (cs ++ [Wake])) as [Hreg Hnin]; [apply Forall_app; split; [done|by repeat constructor]|]. split.
    - by apply effect_frame; left.
    - done.
    - by destruct Hc as [-> |[e ->]].
    - by destruct Hc as [-> |[e ->]].
    - intros _. by apply swept_app.
    - done.
    - apply quiet_owners, Forall_app. split; [done|by repeat constructor]. }
  intros [-> |[-> |[e ->]]] Hr; cbn [run_cont].
  - unfold cancel_all. pgo. eapply pwp_mono; [apply Hall; [apply plain_refl|done|done|]| |done].
    + unfold saturating_sub. lia.
    + intros cs r' H. pgo. apply Hfin; [by left|done].
  - unfold begin_shutdown. pgo. set (r1 := if bool_decide _ then _ else _).
    assert (Hp1 : plain r r1).
    { subst r1. destruct (bool_decide _); [|apply plain_refl]. split; try done; cbn; eauto. }
    assert (Hl1 : lifecycle r1 ≠ Running) by (subst r1; destruct (bool_decide_reflect (lifecycle r = Running)); done).
    eapply pwp_mono; [apply pwp_and; [apply (Hall _ _ _ _ _ r1 Hp1 (plain_reg _ _ Hp1 Hr)); done|
      apply (complete_all_sweeps _ _ _ _ _ r1 r1 (plain_refl r1) (plain_reg _ _ Hp1 Hr)); done]| |done].
    intros cs r' [(Hp & Hs & Hq) [Hp2 _]]. pgo. destruct (quiet_conts r' cs Hq) as [Hreg Hnin]. split; try done.
    + by apply effect_frame; left.
    + apply Forall_app. split; [done|by repeat constructor].
    + intros _. split; [by apply (pl_lifecycle _ _ Hp2)|]. by exists cs.
    + by intros [?|[e ?]].
    + apply Forall_app. split; [by apply quiet_owners|]. repeat constructor; by intros [?|?].
  - unfold fail_all. pgo. eapply pwp_mono; [apply Hall; [apply plain_refl|done|done|done]| |done].
    intros cs r' H. pgo. apply Hfin; [by right; eexists|done].
Qed.

Definition bookkeeping (c : cont) : bool :=
  match c with
  | EventJob _ | DropEvent _ | MarkStopped | Drain | Seal | Remove _ _ | RemoveStream _ | PublishAll _ _ | ReleasePermit _ | ReleaseLive _
  | StoreStopped | Wake => true
  | _ => false
  end.
Lemma bookkeeping_outcome c r :
  bookkeeping c = true → RI r → Reg r → possible (heap r) c = true → cont_reg r c → pwp (run_cont c) (λ cs r', outcome_of c r cs r') (λ _, True) r.
Proof.
  intros Hc Hri Hr Hpos Hcr.
  assert (Hmod : ∀ f, plain r (f r) → (∀ a, ¬ covers a c) → c ≠ BeginShutdown → c ≠ CancelAll → (∀ e, c ≠ FailAll e) →
    pwp (_ ← modify f; mret [] : R (list cont)) (λ cs r', outcome_of c r cs r') (λ _, True) r).
  { intros f Hp H0 H1 H2 H3. pgo. by apply frame_quiet. }
  pose proof (plain_refl r) as Hrefl.
  destruct c; try discriminate Hc; cbn [run_cont possible cont_reg] in *; clear Hc.
  - pgo. destruct (heap r !! a) as [[| | | | | |id []]|] eqn:Ha; try (pgo; apply frame_quiet; [done|by intros ? []|done..]). pgo.
    apply quiet_outcome; [left; by apply (plain_update _ _ a (OEvent id true))|by repeat constructor|by intros ? []|done..].
  - pgo. destruct (heap r !! a) as [[| | | | | |id []]|] eqn:Ha; try (pgo; apply frame_quiet; [done|by intros ? []|done..]). pgo.
    apply frame_quiet; [|by intros ? []|done..]. change (drop_permit ?p ?x) with (drop_permits [p] x). apply plain_drop. by apply (plain_update _ _ a (OEvent id true)).
  - pgo. split; try done.
    + apply effect_frame; left. split; try done; cbn; eauto.
    + by repeat constructor.
    + by intros [?|[e ?]].
    + repeat constructor; by intros [?|?].
  - pgo. split; try done; [by apply effect_drain|by intros [?|[e ?]]|by intros _ _ ?%elem_of_nil].
  - apply Hmod; [same|by intros ? []|done..].
  - apply Hmod; [|by intros ? []|done..]. destruct Hcr as (Ht & _ & Hd). apply plain_remove; [done|]. intros a Ha. right. auto.
  - destruct (heap r !! a) as [[]|] eqn:Ha; try done. unfold remove_stream. pgo. rewrite Ha. destruct (_ && _); [apply pwp_panic|]. pgo.
    apply frame_quiet; [|by intros ? []|done..]. apply plain_remove; [done|]. intros b Hb. right.
    eapply (remove_reg r a TStreams id); eauto. exists (OStream id s). by split.
  - destruct todo as [|a todo]; pgo.
    + apply quiet_outcome; [by left|by apply Forall_map, Forall_true|by intros ? []|done..].
    + eapply pwp_mono; [apply publish_plain| |done]. intros job r' Hp. pgo. apply quiet_outcome; [by left|by repeat constructor|by intros ? []|done..].
  - apply Hmod; [|by intros ? []|done..]. change (drop_permit ?p ?x) with (drop_permits [p] x). by apply plain_drop.
  - apply Hmod; [|by intros ? []|done..]. apply (plain_same _ (table_remove TLive id r)); try done. apply plain_remove; [done|by left].
  - pgo. split; try done; [by apply effect_stop|by intros [?|[e ?]]|by intros _ _ ?%elem_of_nil].
  - apply Hmod; [same|by intros ? []|done..].
Qed.

Lemma run_cont_outcome c r cs r' :
  RI r → RI r' → Reg r → possible (heap r) c = true → cont_reg r c → run_cont c r = (Ok cs, r') → outcome_of c r cs r'.
Proof.
  intros Hri Hri' Hr Hpos Hcr Hrun.
  assert (Hgo : pwp (run_cont c) (λ cs r', RI r' → outcome_of c r cs r') (λ _, True) r); [|unfold pwp in Hgo; rewrite Hrun in Hgo; by apply Hgo].
  assert (Hweak : pwp (run_cont c) (λ cs r', outcome_of c r cs r') (λ _, True) r → pwp (run_cont c) (λ cs r', RI r' → outcome_of c r cs r') (λ _, True) r).
  { intros H. eapply pwp_mono; [exact H|auto|done]. }
  destruct (plain_call c) eqn:Hc1; [by apply Hweak, plain_call_outcome|]. destruct (admits c) eqn:Hc2; [by apply Hweak, submission_outcome|].
  destruct (result_call c) eqn:Hc3; [by apply result_call_outcome|]. destruct (bookkeeping c) eqn:Hc4; [by apply Hweak, bookkeeping_outcome|].
  destruct c; try discriminate; apply Hweak; apply sweep_outcome; eauto.
Qed.

(** ** Threads *)

Record ER (e : Engine) : Prop := {
  er_reg : Reg (registry e);
  er_conts : Forall (Forall (cont_reg (registry e))) (threads e)
}.

Lemma frame_entry r r' t id a :
  frame r r' → Reg r → (t = TRequests ∨ t = TResolutions) → id < next_sequence r → tables r' t !! id = Some a → tables r t !! id = Some a.
Proof.
  intros [Hp|(r1 & Hp & [(o & t0 & id0 & up & Hh & Hk & Hnd & Hfree & Hin & Hother & Hid) _ _ _])] Hr Ht Hlt Ha.
  - apply (pl_tables _ _ Hp); [by destruct Ht as [-> | ->]|done].
  - destruct (Hother t id) as [Heq|[-> ->]]; [apply (pl_tables _ _ Hp); [by destruct Ht as [-> | ->]|congruence]|].
    pose proof (pl_sequence _ _ Hp). destruct up; [destruct Hid as [-> _]; by destruct Ht|]. lia.
Qed.
Lemma frame_sequence r r' : frame r r' → next_sequence r ≤ next_sequence r'.
Proof. intros [Hp|(r1 & Hp & [(o & t0 & id0 & up & Hh & Hk & Hnd & Hfree & Hin & Hother & Hid) _ _ _])]; pose proof (pl_sequence _ _ Hp); [done|]. destruct up; lia. Qed.

Lemma effect_done c r r' a : effect c r r' → done_at r a → done_at r' a.
Proof. intros [Hf|_ ->|_ ->] Hd; [by eapply frame_done|done|done]. Qed.
Lemma effect_reg c r r' : effect c r r' → Reg r → Reg r'.
Proof. intros [Hf|_ ->|_ ->]; [by apply frame_reg|by intros []; split|by intros []; split]. Qed.
Lemma cont_reg_mono c r r' c' : effect c r r' → Reg r → cont_reg r c' → cont_reg r' c'.
Proof.
  intros He Hr. destruct c'; try done. intros (Ht & Hid & Hd). destruct He as [Hf|_ ->|_ ->]; [|done|done]. split_and!; [done| |].
  - pose proof (frame_sequence _ _ Hf). lia.
  - intros a Ha. eapply frame_done, Hd; [done|]. by eapply frame_entry.
Qed.

(** The kinds of step. *)
Inductive stepped (m : move) (e e' : Engine) : Prop :=
| stepped_none : e' = e → stepped m e e'
| stepped_call c : m = Call c → is_call c = true → possible (heap (registry e)) c = true →
    e' = mkEngine (registry e) (threads e ++ [[c]]) → stepped m e e'
| stepped_run i c rest cs r' : m = Step i → threads e !! i = Some (c :: rest) → possible (heap (registry e)) c = true →
    outcome_of c (registry e) cs r' → e' = mkEngine r' (<[i := cs ++ rest]> (threads e)) → stepped m e e'.

Lemma step_stepped c m e e' : EI c e → EI c e' → ER e → step m e = Some e' → stepped m e e'.
Proof.
  intros He He' [Hr Hcs] Hs. destruct m as [x|i]; cbn [step] in Hs.
  - destruct (is_call x && possible (heap (registry e)) x) eqn:Hx; simplify_eq; [|by apply stepped_none].
    apply andb_true_iff in Hx as [? ?]. by eapply stepped_call.
  - destruct (threads e !! i) as [[|x rest]|] eqn:Hi; simplify_eq; try by apply stepped_none.
    destruct (run_cont x (registry e)) as [[cs| | |] r'] eqn:Hrun; simplify_eq.
    pose proof (proj1 (Forall_lookup _ _) (ei_threads _ _ He) _ _ Hi) as [[Hpos _] _]%Forall_cons.
    pose proof (proj1 (Forall_lookup _ _) Hcs _ _ Hi) as [Hreg _]%Forall_cons.
    eapply (stepped_run _ _ _ i x rest cs r'); try done. apply run_cont_outcome; try done; [apply He|apply He'].
Qed.

Lemma stepped_reach m e e' : stepped m e e' → ER e → ER e'.
Proof.
  intros [-> |c -> Hcall Hpos -> |i c rest cs r' -> Hi Hpos [He Hc _ _ _ _ _] ->] [Hr Hcs]; [done| |].
  - split; [done|]. cbn. apply Forall_app. split; [done|]. repeat constructor. by destruct c.
  - split; [by eapply effect_reg|]. cbn. apply Forall_insert.
    + eapply Forall_impl; [exact Hcs|]. intros l Hl. eapply Forall_impl; [exact Hl|]. intros x. by eapply cont_reg_mono.
    + apply Forall_app. split; [done|]. pose proof (proj1 (Forall_lookup _ _) Hcs _ _ Hi) as [_ Hrest]%Forall_cons.
      eapply Forall_impl; [exact Hrest|]. intros x. by eapply cont_reg_mono.
Qed.

(** ** Stopping *)

Definition all_done (r : Registry) : Prop := ∀ a o, heap r !! a = Some o → is_op o → op_done o = true.

(** An engine that no longer runs accepts nothing. *)
Lemma effect_stopping c r r' : effect c r r' → lifecycle r ≠ Running → lifecycle r' ≠ Running ∧
  ∀ a o', heap r' !! a = Some o' → is_op o' → ∃ o, heap r !! a = Some o ∧ is_op o ∧ (op_done o = true → op_done o' = true).
Proof.
  intros [[Hp|(r1 & Hp & Hg)]|_ ->|_ ->] Hl.
  - split; [by apply (pl_lifecycle _ _ Hp)|]. intros a o' Ha [k Hk]. destruct (plain_was _ _ _ _ _ Hp Ha Hk) as (o & Ho & Hko & Hd).
    exists o. split_and!; [done|by eexists|done].
  - by destruct (pl_lifecycle _ _ Hp Hl (gr_lifecycle _ _ Hg)).
  - split; [done|]. eauto.
  - split; [done|]. eauto.
Qed.
Lemma effect_swept c r r' cs : effect c r r' → lifecycle r ≠ Running → swept cs r → swept cs r'.
Proof.
  intros He Hl Hs a o' Ha Hop. destruct (proj2 (effect_stopping _ _ _ He Hl) a o' Ha Hop) as (o & Ho & Hop' & Hd).
  destruct (Hs a o Ho Hop') as [?|?]; auto.
Qed.

(** A thread that will publish the stop has dealt with every operation, or
    will have before it does. *)
Definition stops_after (r : Registry) (cs : list cont) : Prop :=
  ∀ pre post, cs = pre ++ StoreStopped :: post → lifecycle r ≠ Running ∧ swept pre r.
Record Stops (e : Engine) : Prop := {
  st_threads : Forall (stops_after (registry e)) (threads e);
  st_marks : Forall (Forall (λ c, c ≠ MarkStopped)) (threads e);
  st_stopped : stopped (registry e) = true → lifecycle (registry e) ≠ Running ∧ all_done (registry e)
}.

Lemma is_begin_shutdown c : {c = BeginShutdown} + {c ≠ BeginShutdown}.
Proof. destruct c; try (by right); by left. Qed.
Lemma stops_after_step c r cs r' rest :
  outcome_of c r cs r' → c ≠ MarkStopped → stops_after r (c :: rest) → stops_after r' (cs ++ rest).
Proof.
  intros Ho Hc Hs pre post Heq. pose proof (oc_effect _ _ _ _ Ho) as He.
  assert (Hold : ∀ k, lifecycle r ≠ Running → swept (c :: k) r → lifecycle r' ≠ Running ∧ swept (cs ++ k) r').
  { intros k Hl Hsw. split; [by apply (effect_stopping _ _ _ He)|].
    intros a o' Ha Hop. destruct (proj2 (effect_stopping _ _ _ He Hl) a o' Ha Hop) as (o & Hoa & Hop' & Hd).
    destruct (Hsw a o Hoa Hop') as [?|[Hcov|Hcov]%Exists_cons]; [left; auto| |right; apply Exists_app; by right].
    destruct (oc_covers _ _ _ _ Ho a Hcov) as (o2 & Ho2 & ?). left. congruence. }
  apply app_eq_inv in Heq as [(k & Hcs & Hrest)|(k & -> & Hrest)].
  - destruct k as [|x k]; cbn in Hrest; simplify_eq.
    + rewrite app_nil_r in *. destruct (Hs [c] post eq_refl) as [Hl Hsw]. destruct (Hold [] Hl Hsw) as [Hl' Hsw']. by rewrite app_nil_r in Hsw'.
    + destruct (is_begin_shutdown c) as [->|Hns].
      * destruct (oc_shutdown _ _ _ _ Ho eq_refl) as (Hl & cs0 & Heq & Hsw & Hnin). split; [done|].
        apply app_eq_inv in Heq as [(k2 & -> & Hk2)|(k2 & -> & Hk2)]; [by apply swept_app|].
        destruct k2 as [|y k2]; cbn in Hk2; simplify_eq; [by rewrite app_nil_r in Hsw|]. destruct Hnin. apply elem_of_app; right. by left.
      * exfalso. apply (oc_stopped _ _ _ _ Ho Hns Hc). apply elem_of_app. right. by left.
  - destruct (Hs (c :: k) post) as [Hl Hsw]; [by rewrite Hrest|]. by apply Hold.
Qed.

Lemma stops_after_other c r r' cs : effect c r r' → stops_after r cs → stops_after r' cs.
Proof.
  intros He Hs pre post Heq. destruct (Hs pre post Heq) as [Hl Hsw]. split; [by apply (effect_stopping _ _ _ He)|by eapply effect_swept].
Qed.

Lemma effect_all_done c r r' : effect c r r' → lifecycle r ≠ Running → all_done r → all_done r'.
Proof. intros He Hl Hd a o' Ha Hop. destruct (proj2 (effect_stopping _ _ _ He Hl) a o' Ha Hop) as (o & Ho & Hop' & H). eauto. Qed.

Lemma stepped_stops m e e' : m ≠ Call MarkStopped → stepped m e e' → Stops e → Stops e'.
Proof.
  intros Hm [-> |c -> Hcall Hpos -> |i c rest cs r' -> Hi Hpos Ho ->] [Hth Hmk Hst]; [done| |].
  - split; cbn; [| |done].
    + apply Forall_app. split; [done|]. apply Forall_singleton. intros pre post Heq. destruct pre as [|x []]; by simplify_eq/=.
    + apply Forall_app. split; [done|]. repeat constructor. congruence.
  - pose proof (oc_effect _ _ _ _ Ho) as He.
    pose proof (proj1 (Forall_lookup _ _) Hth _ _ Hi) as Hs. pose proof (proj1 (Forall_lookup _ _) Hmk _ _ Hi) as [Hc Hrest]%Forall_cons.
    split; cbn.
    + apply Forall_insert; [|by eapply stops_after_step]. eapply Forall_impl; [exact Hth|]. intros l. by apply (stops_after_other c).
    + apply Forall_insert; [done|]. apply Forall_app. split; [|done]. eapply Forall_impl; [apply (oc_owners _ _ _ _ Ho)|].
      intros x Hx ->. apply Hx. by left.
    + intros Hs'. destruct (stopped (registry e)) eqn:Hold.
      * destruct (Hst eq_refl) as [Hl Hd]. split; [by apply (effect_stopping _ _ _ He)|by eapply effect_all_done].
      * destruct He as [[Hp|(r1 & Hp & Hg)]| -> -> | -> ->].
        -- rewrite (pl_stopped _ _ Hp) in Hs'. congruence.
        -- rewrite (gr_stopped _ _ Hg), (pl_stopped _ _ Hp) in Hs'. congruence.
        -- destruct (Hs [] rest eq_refl) as [Hl Hsw]. split; [done|]. intros a o Ha Hop.
           destruct (Hsw a o Ha Hop) as [?|H]; [done|by apply Exists_nil in H].
        -- cbn in Hs'. congruence.
Qed.

(** ** A call ends *)

(** How long what is left of a call can take; [None] for the calls that go
    through the tables. *)
Definition size (c : cont) : option nat :=
  match c with
  | Cancel _ _ | CancelAll | BeginShutdown | FailAll _ => None
  | Accept _ _ _ | AcceptResolve _ _ _ | AcceptStream _ _ _ _ _ | AcceptTcp _ _ _ _ | AcceptTls _ _ _ _ _ | AcceptUpgrade _ _ _ _
  | CompleteTcp _ _ | CompleteTls _ _ | TlsConnected _ | CancelStream _ | FailStream _ _ => Some 2%nat
  | Publish _ | Activate _ | FinishStream _ | ConnectionEnded _ | CompleteState _ _ | CompleteResolve _ _ | EventJob _ | MarkStopped
  | TakeRunnable | BeginEvent _ | TcpConnected _ => Some 1%nat
  | PublishAll todo _ => Some (S (length todo))
  | _ => Some 0%nat
  end.
Definition below (c c' : cont) : Prop :=
  submission c' = false ∧ match size c', size c with Some m, Some n => (m < n)%nat | Some _, None => True | None, _ => False end.

Lemma pwp_any {E A} (m : M Registry E A) r : pwp m (λ _ _, True) (λ _, True) r.
Proof. unfold pwp. by destruct (m r) as [[]]. Qed.
Lemma pwp_then {E A B} (m : M Registry E A) (f : A → M Registry E B) Q r :
  (∀ a r', pwp (f a) Q (λ _, True) r') → pwp (m ≫= f) Q (λ _, True) r.
Proof. intros Hf. apply pwp_bind. eapply pwp_mono; [apply pwp_any|auto|done]. Qed.
Lemma enqueue_below c job : (∃ n, size c = Some (S n)) ∨ size c = None → Forall (below c) (enqueue job).
Proof. intros Hc. destruct job; [|constructor]. apply Forall_singleton. split; [done|]. destruct Hc as [[n ->]| ->]; cbn; [lia|done]. Qed.

Ltac small := repeat first [apply Forall_nil_2|apply Forall_app_2|apply Forall_cons_2|apply enqueue_below; by left; eexists]; (split; [done|cbn; lia]).

Lemma complete_all_below c barrier tcp tls rest stream r :
  size c = None → (∀ a, submission (stream a) = false ∧ size (stream a) ≠ None) →
  pwp (complete_all barrier tcp tls rest stream) (λ cs _, Forall (below c) cs) (λ _, True) r.
Proof.
  intros Hc Hs. assert (Hb : ∀ c', submission c' = false → size c' ≠ None → below c c') by (intros c' ? ?; split; [done|rewrite Hc; by destruct (size c')]).
  unfold complete_all. repeat (apply pwp_then; intros ? ?). apply pwp_ret.
  repeat apply Forall_app_2; first [apply Forall_singleton; by apply Hb|apply Forall_map, Forall_true; intros; apply Hb; try done; apply Hs].
Qed.

Ltac shape :=
  repeat (cbn beta iota zeta;
    match goal with
    | |- pwp (mbind _ _) _ _ _ => apply pwp_then; intros ? ?
    | |- pwp (mret _) _ _ _ => apply pwp_ret
    | |- pwp panic _ _ _ => apply pwp_panic
    | |- pwp (if ?b then _ else _) _ _ _ => destruct b
    | |- pwp (match ?x with _ => _ end) _ _ _ => destruct x
    | |- Forall _ (match ?x with _ => _ end) => destruct x
    | |- Forall _ (_ ++ _) => apply Forall_app_2
    end).

Lemma run_cont_below c r : pwp (run_cont c) (λ cs _, Forall (below c) cs) (λ _, True) r.
Proof.
  assert (Hacc : ∀ cb m, size c = Some 2%nat → pwp (accepting cb m) (λ cs _, Forall (below c) cs) (λ _, True) r).
  { intros cb m Hc. unfold pwp, accepting. destruct (m r) as [[a|e| |] r']; try done. destruct cb; [|constructor].
    unfold below. rewrite Hc. repeat constructor. }
  assert (Hnone : ∀ x, size x ≠ None → submission x = false → size c = None → below c x) by (intros x H1 H2 H3; split; [done|rewrite H3; by destruct (size x)]).
  destruct c; cbn [run_cont]; try (by apply Hacc); try (shape; small; done).
  - unfold pwp. destruct (try_begin_callback_event id r) as [[]]; try done; small.
  - unfold cancel. shape; repeat first [apply Forall_nil_2|apply Forall_app_2|apply Forall_cons_2]; by apply Hnone.
  - unfold cancel_all. apply pwp_then. intros ? ?. apply pwp_bind. eapply pwp_mono; [apply (complete_all_below CancelAll); [done|by split]| |done]. intros cs r2 Hcs.
    apply pwp_ret, Forall_app_2; [done|]. apply Forall_singleton. by apply Hnone.
  - unfold begin_shutdown. apply pwp_then. intros ? ?. apply pwp_bind. eapply pwp_mono; [apply (complete_all_below BeginShutdown); [done|by split]| |done]. intros cs r2 Hcs.
    apply pwp_ret, Forall_app_2; [done|]. repeat apply Forall_cons_2; try apply Forall_nil_2; by apply Hnone.
  - unfold fail_all. apply pwp_bind. eapply pwp_mono; [apply (complete_all_below (FailAll e)); [done|by split]| |done]. intros cs r2 Hcs.
    apply pwp_ret, Forall_app_2; [done|]. apply Forall_singleton. by apply Hnone.
  - unfold release_io. shape; try small. apply Forall_map, Forall_true. intros p. split; [done|cbn; lia].
  - destruct todo as [|a todo]; shape; [|small]. apply Forall_map, Forall_true. intros j. split; [done|cbn; lia].
Qed.
End with_target.
