(* ===== verification/ReactorCore.v ===== *)
(** * The engine's owner ([src/reactor.rs], [drive] of [src/engine.rs])

    One thread owns the backend: it drains the command queue of the registry,
    hands each operation to the backend, polls it, commits its results, and
    tells it of operations that ended otherwise. In a spawned engine the thread
    loops until the engine stops, fails or panics; in a manual one the
    application drives it.

    The registry is that of [Registry.v] with all its threads: a call of the
    owner is one more thread, which the owner waits for, and any other thread
    may act between two of its steps. What the owner still has to do is a list
    of [instr]s; [run_instr] executes one, which reads the registry at most
    once. A submission is named by the address of its operation, a request by
    its identity. The backend is the class [Backend] (the trait of
    [src/backend/mod.rs]); what it does with the sinks it is given are calls
    like any other thread's. *)

From stdpp Require Import base list gmap strings.
From Stdlib Require Import ZArith Lia.
From S2P Require Import Prelude Errors Registry.

Module Core.

(** [None] as the result of a submission: the backend has taken it. A panic
    of the backend unwinds the owner. *)
Class Backend := {
  backend : Type;
  submit : Z → M backend Empty_set (option Completion);
  submit_stream : Z → M backend Empty_set unit;
  submit_resolve : Z → M backend Empty_set (option Completion);
  submit_tcp_connect : nat → M backend Empty_set unit;
  submit_tls_connect : nat → M backend Empty_set unit;
  submit_tls_upgrade : nat → M backend Empty_set unit;
  backend_cancel : Z → M backend Empty_set unit;
  backend_poll : M backend Error (list (Z * Completion));
  poll_resolves : M backend Error (list (Z * Completion));
  backend_shutdown : M backend Error unit;
  wants_poll_without_requests : backend → bool;
  interruptible : backend → bool
}.

(** The maps of the operations the backend has. *)
Inductive kind := Requests | Streams | Resolves.
#[global] Instance kind_eq_dec : EqDecision kind.
Proof. solve_decision. Defined.

Inductive DriveStatus := Progress | DeadlineReached | Idle.
#[global] Instance DriveStatus_eq_dec : EqDecision DriveStatus.
Proof. solve_decision. Defined.

Inductive instr :=
(* spawned_main_inner *)
| LoopHead | WaitForSignal | EndDrive | CheckStopped | EndStop | ReturnAfter (e : Error) | Return (e : option Error)
(* Engine::drive, and the end of stop_network *)
| EndManual (first : bool) | WaitUntil | EndManualStop
(* ReactorCore::drive *)
| WakeFailure | TakeQueue (closing : bool) | Dispatch (l : list nat)
| Reap (k : kind) | Collect (k : kind) (l : list (Z * nat)) (found : list Z) | Cancels (k : kind) (l : list Z)
| EarlyResolves | Poll | PollAgain (completions : list (Z * Completion)) | Commit (k : kind) (l : list (Z * Completion)) | Status
(* ReactorCore::shutdown *)
| Close (l : list nat) | CancelRest (k : kind) | CancelKeys (k : kind) (l : list Z) | BackendShutdown
(* a call of the registry *)
| Ask (c : cont).

(** How far the owner is: it serves, it is about to fail everything, it has
    failed everything, it found the engine stopped, or a panic went through
    the application. *)
Inductive stage := Serving | Failing | Failed_all | Stopping | Broken.
#[global] Instance stage_eq_dec : EqDecision stage.
Proof. solve_decision. Defined.

Section owner.
Context {tgt : Target} {bk : Backend}.

(** The last six fields are history. [given] records the operations of the
    submissions that returned to the owner, in order; each is also in [handed]
    if the backend has taken it (with its identity), in [sinks] if it is a
    connect, whose sink the backend has, in [answered] if it was answered at
    once, or in [thrown] if the submission panicked. [ended] records what of
    [handed] the backend answered or was told to cancel. *)
Record ReactorCore := mkCore {
  active : kind → gmap Z nat; the_backend : backend; handed : list (Z * nat); ended : list Z; sinks : list nat;
  given : list nat; answered : list nat; thrown : list nat
}.

(** The owner's thread. [calling] is the thread of its call; [stage_of] is
    history. *)
Record Owner := mkOwner {
  core : ReactorCore; todo : list instr; calling : option nat; spawned : bool; seen_generation : Z; progressed : bool;
  drive_result : option (Error + DriveStatus); shutdown_result : option Error; returned : option (option Error); stage_of : stage
}.

Definition set_core (c : ReactorCore) (o : Owner) : Owner :=
  mkOwner c (todo o) (calling o) (spawned o) (seen_generation o) (progressed o) (drive_result o) (shutdown_result o) (returned o) (stage_of o).
Definition set_todo (l : list instr) (o : Owner) : Owner :=
  mkOwner (core o) l (calling o) (spawned o) (seen_generation o) (progressed o) (drive_result o) (shutdown_result o) (returned o) (stage_of o).
Definition set_calling (c : option nat) (o : Owner) : Owner :=
  mkOwner (core o) (todo o) c (spawned o) (seen_generation o) (progressed o) (drive_result o) (shutdown_result o) (returned o) (stage_of o).
Definition set_seen (n : Z) (o : Owner) : Owner :=
  mkOwner (core o) (todo o) (calling o) (spawned o) n (progressed o) (drive_result o) (shutdown_result o) (returned o) (stage_of o).
Definition set_progressed (b : bool) (o : Owner) : Owner :=
  mkOwner (core o) (todo o) (calling o) (spawned o) (seen_generation o) b (drive_result o) (shutdown_result o) (returned o) (stage_of o).
Definition set_result (x : option (Error + DriveStatus)) (o : Owner) : Owner :=
  mkOwner (core o) (todo o) (calling o) (spawned o) (seen_generation o) (progressed o) x (shutdown_result o) (returned o) (stage_of o).
Definition set_shutdown (x : option Error) (o : Owner) : Owner :=
  mkOwner (core o) (todo o) (calling o) (spawned o) (seen_generation o) (progressed o) (drive_result o) x (returned o) (stage_of o).
Definition set_returned (x : option (option Error)) (o : Owner) : Owner :=
  mkOwner (core o) (todo o) (calling o) (spawned o) (seen_generation o) (progressed o) (drive_result o) (shutdown_result o) x (stage_of o).
Definition set_stage (s : stage) (o : Owner) : Owner :=
  mkOwner (core o) (todo o) (calling o) (spawned o) (seen_generation o) (progressed o) (drive_result o) (shutdown_result o) (returned o) s.

Definition set_active (k : kind) (m : gmap Z nat) (c : ReactorCore) : ReactorCore :=
  mkCore (λ k', if decide (k' = k) then m else active c k') (the_backend c) (handed c) (ended c) (sinks c) (given c) (answered c) (thrown c).
Definition set_backend (b : backend) (c : ReactorCore) : ReactorCore :=
  mkCore (active c) b (handed c) (ended c) (sinks c) (given c) (answered c) (thrown c).

(** The backend has the operation at [a]. *)
Definition hand (k : kind) (id : Z) (a : nat) (c : ReactorCore) : ReactorCore :=
  mkCore (λ k', if decide (k' = k) then <[id := a]> (active c k) else active c k') (the_backend c) (handed c ++ [(id, a)]) (ended c) (sinks c)
    (given c ++ [a]) (answered c) (thrown c).
Definition hand_sink (a : nat) (c : ReactorCore) : ReactorCore :=
  mkCore (active c) (the_backend c) (handed c) (ended c) (sinks c ++ [a]) (given c ++ [a]) (answered c) (thrown c).
(** It has answered the submission, or panicked in it. *)
Definition answer (a : nat) (c : ReactorCore) : ReactorCore :=
  mkCore (active c) (the_backend c) (handed c) (ended c) (sinks c) (given c ++ [a]) (answered c ++ [a]) (thrown c).
Definition throw (a : nat) (c : ReactorCore) : ReactorCore :=
  mkCore (active c) (the_backend c) (handed c) (ended c) (sinks c) (given c ++ [a]) (answered c) (thrown c ++ [a]).
(** It has answered, or was told to cancel. *)
Definition part (k : kind) (id : Z) (c : ReactorCore) : ReactorCore :=
  mkCore (λ k', if decide (k' = k) then delete id (active c k) else active c k') (the_backend c) (handed c)
    (ended c ++ if bool_decide (is_Some (active c k !! id)) then [id] else []) (sinks c) (given c) (answered c) (thrown c).
Definition clear (k : kind) (c : ReactorCore) : ReactorCore :=
  mkCore (λ k', if decide (k' = k) then ∅ else active c k') (the_backend c) (handed c) (ended c ++ map fst (map_to_list (active c k))) (sinks c)
    (given c) (answered c) (thrown c).

(** [is_terminal] of every kind of state. *)
Definition is_terminal (r : Registry) (a : nat) : bool :=
  match heap r !! a with
  | Some (ORequest _ s) => terminal s
  | Some (OResolve _ s) => bool_decide (is_Some (res_completion s))
  | Some (OStream _ s) => control_terminal s
  | Some (OConnect _ _ _ s | OTls _ _ _ _ s) => con_terminal s
  | _ => true
  end.
(** The call that commits a result of the backend. *)
Definition complete (k : kind) (a : nat) (c : Completion) : cont :=
  match k with Requests => CompleteState a c | Resolves => CompleteResolve a c | Streams => StreamResult a c end.

(** [transport_wait]: [None], to wait for a signal, is [false]. *)
Definition transport_wait (c : ReactorCore) : bool :=
  if bool_decide (active c Requests = ∅) && bool_decide (active c Streams = ∅) && bool_decide (active c Resolves = ∅)
     && negb (wants_poll_without_requests (the_backend c))
  then false else interruptible (the_backend c).
(** [wait_for_signal] goes on. *)
Definition signalled (r : Registry) (seen : Z) : bool :=
  negb (bool_decide (queue r = [])) || negb (generation r =? seen) || stopped r.

Definition reap_cancelled : list instr := [Reap Requests; Reap Resolves].
Definition reap_terminal_streams : list instr := [Reap Streams].
Definition drive : list instr :=
  [WakeFailure; TakeQueue false] ++ reap_cancelled ++ reap_terminal_streams ++ [EarlyResolves; Poll] ++ reap_cancelled ++ reap_terminal_streams ++ [Status].
Definition shutdown : list instr :=
  [TakeQueue true] ++ reap_cancelled ++ reap_terminal_streams ++ [CancelRest Requests; CancelRest Streams; CancelRest Resolves; BackendShutdown].

(** [reactor_panicked]. *)
Definition reactor_panicked : Error := error_new ErrorKind.Internal "NBReq reactor thread panicked".
Definition stopped_during (what : string) : Error :=
  error_new ErrorKind.EngineStopped ("the owning Engine stopped during " +:+ what +:+ " establishment").

(** [contain_reactor_panic]; in a manual engine the panic goes on into the
    application. *)
Definition panicked (o : Owner) : Owner :=
  if spawned o
  then set_stage Failing (set_todo [Ask (FailAll reactor_panicked); Ask MarkStopped; Return (Some reactor_panicked)] o)
  else set_stage (if bool_decide (stage_of o = Serving) then Broken else stage_of o) (set_todo [] o).

(** [?]: what is left of [drive] is skipped. *)
Fixpoint to_end (l : list instr) : list instr :=
  match l with [] => [] | (EndDrive | EndManual _) :: _ => l | _ :: l' => to_end l' end.
Definition drive_failed (e : Error) (rest : list instr) (o : Owner) : Owner := set_result (Some (inl e)) (set_todo (to_end rest) o).

(** A call of the backend; one that does not return leaves the owner there. *)
Definition on_backend {E A} (m : M backend E A) (o : Owner) (ok : A → Owner → Owner) (err : E → Owner → Owner) : Owner :=
  let '(result, b) := m (the_backend (core o)) in
  let o' := set_core (set_backend b (core o)) o in
  match result with Ok a => ok a o' | Err e => err e o' | Panic => panicked o' | Diverge => o end.
Definition never (e : Empty_set) (o : Owner) : Owner := match e with end.

Definition update_core (f : ReactorCore → ReactorCore) (o : Owner) : Owner := set_core (f (core o)) o.

(** A call that submits the operation at [a]. *)
Definition on_submit {A} (a : nat) (m : M backend Empty_set A) (o : Owner) (ok : A → Owner → Owner) : Owner :=
  let '(result, b) := m (the_backend (core o)) in
  let o' := set_core (set_backend b (core o)) o in
  match result with Ok x => ok x o' | Err e => never e o' | Panic => panicked (update_core (throw a) o') | Diverge => o end.

(** One submission of [drive]. *)
Definition dispatch (a : nat) (l : list nat) (rest : list instr) (r : Registry) (o : Owner) : Owner :=
  let next := Dispatch l :: rest in
  if is_terminal r a then
    match heap r !! a with
    | Some (OStream _ _) => set_todo (Ask (StreamResult a Cancelled) :: next) o
    | _ => set_todo next o
    end
  else
    match heap r !! a with
    | Some (ORequest id _) =>
        on_submit a (submit id) o (λ result o,
          match result with
          | Some c => set_todo (Ask (CompleteState a c) :: next) (update_core (answer a) o)
          | None => set_todo next (update_core (hand Requests id a) o)
          end)
    | Some (OStream id _) => on_submit a (submit_stream id) o (λ _ o, set_todo next (update_core (hand Streams id a) o))
    | Some (OResolve id _) =>
        on_submit a (submit_resolve id) o (λ result o,
          match result with
          | Some c => set_todo (Ask (CompleteResolve a c) :: next) (update_core (answer a) o)
          | None => set_todo next (update_core (hand Resolves id a) o)
          end)
    | Some (OConnect _ _ _ _) => on_submit a (submit_tcp_connect a) o (λ _ o, set_todo next (update_core (hand_sink a) o))
    | Some (OTls _ _ _ false _) => on_submit a (submit_tls_connect a) o (λ _ o, set_todo next (update_core (hand_sink a) o))
    | Some (OTls _ _ _ true _) => on_submit a (submit_tls_upgrade a) o (λ _ o, set_todo next (update_core (hand_sink a) o))
    | _ => set_todo next o
    end.

(** One submission of [shutdown]. *)
Definition close (a : nat) (l : list nat) (rest : list instr) (r : Registry) (o : Owner) : Owner :=
  let next := Close l :: rest in
  let unless c := if is_terminal r a then next else Ask c :: next in
  match heap r !! a with
  | Some (ORequest _ _) => set_todo (unless (CompleteState a Cancelled)) o
  | Some (OStream _ _) => set_todo (Ask (StreamResult a Cancelled) :: Ask (FinishStream a) :: next) o
  | Some (OResolve _ _) => set_todo (unless (CompleteResolve a Cancelled)) o
  | Some (OConnect _ _ _ _) => set_todo (unless (CompleteTcp a (Failed (stopped_during "TCP connection")))) o
  | Some (OTls _ _ _ _ _) => set_todo (unless (CompleteTls a (Failed (stopped_during "TLS")))) o
  | _ => set_todo next o
  end.

(** An instruction other than a call of the registry; [late] is whether the
    deadline has passed, [wake] a failure of the external waker. *)
Definition run_instr (late : bool) (wake : option Error) (i : instr) (rest : list instr) (r : Registry) (o : Owner) : Owner :=
  match i with
  | LoopHead => set_todo ((if transport_wait (core o) then [] else [WaitForSignal]) ++ drive ++ EndDrive :: rest) o
  | WaitForSignal => if signalled r (seen_generation o) then set_seen (generation r) (set_todo rest o) else o
  | EndDrive =>
      match drive_result o with
      | Some (inl e) => set_stage Failing (set_todo ([Ask (FailAll e)] ++ shutdown ++ [Ask MarkStopped; ReturnAfter e]) o)
      | _ => set_todo [CheckStopped] o
      end
  | CheckStopped => if stopped r then set_stage Stopping (set_todo (shutdown ++ [EndStop]) o) else set_todo [LoopHead] o
  | EndStop =>
      match shutdown_result o with
      | None => set_todo [Ask MarkStopped; Return None] o
      | Some e => set_todo [Return (Some e)] o
      end
  | ReturnAfter e => set_returned (Some (Some (default e (shutdown_result o)))) (set_todo [] o)
  | Return e => set_returned (Some e) (set_todo [] o)
  | EndManual first =>
      if first && bool_decide (drive_result o = Some (inr Idle)) && negb (transport_wait (core o)) && negb late
      then set_todo (WaitUntil :: rest) o else set_todo rest o
  | WaitUntil =>
      if signalled r (seen_generation o) then set_todo (drive ++ EndManual false :: rest) o
      else if late then set_result (Some (inr DeadlineReached)) (set_todo rest o) else o
  | EndManualStop => match shutdown_result o with None => set_todo (Ask MarkStopped :: rest) o | Some _ => set_todo rest o end
  | WakeFailure => match wake with Some e => drive_failed e rest o | None => set_todo rest o end
  | Dispatch [] | Close [] => set_todo rest o
  | Dispatch (a :: l) => dispatch a l rest r o
  | Close (a :: l) => close a l rest r o
  | Reap k => set_todo (Collect k (map_to_list (active (core o) k)) [] :: rest) o
  | Collect k [] found => set_progressed (progressed o || negb (bool_decide (found = []))) (set_todo (Cancels k found :: rest) o)
  | Collect k ((id, a) :: l) found => set_todo (Collect k l (if is_terminal r a then found ++ [id] else found) :: rest) o
  | Cancels k [] | CancelKeys k [] => match i with CancelKeys k _ => set_todo rest (update_core (clear k) o) | _ => set_todo rest o end
  | Cancels k (id :: l) =>
      on_backend (backend_cancel id) o (λ _ o,
        let finish := match k, active (core o) k !! id with Streams, Some a => [Ask (FinishStream a)] | _, _ => [] end in
        set_todo (finish ++ Cancels k l :: rest) (update_core (part k id) o)) never
  | CancelRest k => set_todo (CancelKeys k (map fst (map_to_list (active (core o) k))) :: rest) o
  | CancelKeys k (id :: l) => on_backend (backend_cancel id) o (λ _ o, set_todo (CancelKeys k l :: rest) o) never
  | EarlyResolves =>
      on_backend poll_resolves o
        (λ l o, set_progressed (progressed o || negb (bool_decide (l = []))) (set_todo (Commit Resolves l :: rest) o)) (λ e, drive_failed e rest)
  | Poll => on_backend backend_poll o (λ l, set_todo (PollAgain l :: rest)) (λ e, drive_failed e rest)
  | PollAgain l =>
      on_backend poll_resolves o
        (λ l' o, set_progressed (progressed o || negb (bool_decide (l = [])) || negb (bool_decide (l' = [])))
                   (set_todo (WakeFailure :: Commit Requests l :: Commit Resolves l' :: rest) o))
        (λ e, drive_failed e rest)
  | Commit k [] => set_todo rest o
  | Commit k ((id, c) :: l) =>
      match active (core o) k !! id with
      | Some a => set_todo (Ask (complete k a c) :: Commit k l :: rest) (update_core (part k id) o)
      | None => set_todo (Commit k l :: rest) o
      end
  | Status => set_result (Some (inr (if progressed o then Progress else if late then DeadlineReached else Idle))) (set_todo rest o)
  | BackendShutdown => on_backend backend_shutdown o (λ _ o, set_shutdown None (set_todo rest o)) (λ e o, set_shutdown (Some e) (set_todo rest o))
  | TakeQueue _ | Ask _ => o
  end.

(** ** The engine with its owner *)

Record System := mkSystem { engine : Engine; owner : Owner }.

(** A step of the owner's thread: of its call, or the next instruction. A call
    that its handle does not allow is an error of the owner, like a panic of
    the registry. *)
Definition own (late : bool) (wake : option Error) (s : System) : option System :=
  let e := engine s in let o := owner s in
  match calling o with
  | Some i =>
      match threads e !! i with
      | Some (c :: _) =>
          e' ← step (Step i) e;
          Some (mkSystem e' (match c with FailAll _ => if bool_decide (stage_of o = Failing) then set_stage Failed_all o else o | _ => o end))
      | _ => Some (mkSystem e (set_calling None o))
      end
  | None =>
      match todo o with
      | [] => Some s
      | Ask c :: rest =>
          if possible (heap (registry e)) c
          then e' ← step (Call c) e; Some (mkSystem e' (set_calling (Some (length (threads e))) (set_todo rest o)))
          else None
      | TakeQueue closing :: rest =>
          e1 ← step (Call Drain) e;
          e2 ← step (Step (length (threads e))) e1;
          let l := queue (registry e) in
          Some (mkSystem e2 (if closing then set_todo (Close l :: rest) o
                             else set_progressed (negb (bool_decide (l = []))) (set_todo (Dispatch l :: rest) o)))
      | i :: rest => Some (mkSystem e (run_instr late wake i rest (registry e) o))
      end
  end.

(** The application drives a manual engine, or shuts it down, after
    [begin_shutdown]. *)
Inductive request := AskDrive | AskShutdown.
Definition begin (q : request) (s : System) : System :=
  let o := owner s in
  if negb (spawned o) && bool_decide (todo o = []) && bool_decide (calling o = None) then
    match q with
    | AskDrive => mkSystem (engine s) (set_seen (generation (registry (engine s))) (set_todo (drive ++ [EndManual true]) o))
    | AskShutdown =>
        if stopped (registry (engine s)) then mkSystem (engine s) (set_stage Stopping (set_todo (shutdown ++ [EndManualStop]) o)) else s
    end
  else s.

(** Another thread acts, the owner does, or the application asks for it. Only
    the owner drains the queue and marks the engine stopped (for a spawned
    engine [stop_network] does so again once the owner has), and nobody else
    runs the owner's calls. *)
Inductive act := Other (m : move) | Own (late : bool) (wake : option Error) | Begin (q : request).
Definition allowed (m : move) (o : Owner) : bool :=
  match m with Call Drain | Call MarkStopped => false | Step i => negb (bool_decide (calling o = Some i)) | _ => true end.
Definition act_step (x : act) (s : System) : option System :=
  match x with
  | Other m => if allowed m (owner s) then e ← step m (engine s); Some (mkSystem e (owner s)) else Some s
  | Own late wake => own late wake s
  | Begin q => Some (begin q s)
  end.
Fixpoint run_acts (xs : list act) (s : System) : option System :=
  match xs with [] => Some s | x :: xs' => s' ← act_step x s; run_acts xs' s' end.

(** [spawned_main], or a manual engine. *)
Definition start (spawned : bool) (c : Config) (b : backend) : System :=
  mkSystem (new_engine c)
    (mkOwner (mkCore (λ _, ∅) b [] [] [] [] [] []) (if spawned then [LoopHead] else []) None spawned 0 false None None None Serving).

End owner.
End Core.
