(* ===== verification/ReactorCoreProofs.v ===== *)
(** * The engine's owner keeps every operation

    Through any run of the owner and the other threads, the backend is given
    an operation at most once and is told to cancel only what it has; an operation
    without a result is in the queue, in the owner's hands, or with the
    backend; and when the owner is done, every operation has its result,
    except one that the owner could not see any more. *)

From stdpp Require Import base list list_tactics gmap strings.
From Stdlib Require Import ZArith Lia.
From S2P Require Import Prelude Errors BodyBudget Request TcpIo Registry RegistryProofs RegistryCalls RegistryRuns RegistryReach ReactorCore.

Import Core.
#[local] Arguments len : simpl never.
#[local] Arguments drop_permits : simpl never.

Section proofs.
Context {tgt : Target} {bk : Backend}.

(** ** What a move does to the operations *)

Definition known (r : Registry) (a : nat) : Prop := ∃ o, heap r !! a = Some o ∧ is_op o.
Definition keyed (r : Registry) (a : nat) (t : table) (id : Z) : Prop := ∃ o, heap r !! a = Some o ∧ op_key o = Some (t, id, false).

Record follows (r r' : Registry) : Prop := {
  fo_queue : ∃ l, queue r' = queue r ++ l ∧ NoDup l ∧ (∀ a, a ∈ l → (length (heap r) ≤ a)%nat ∧ known r' a);
  fo_old : ∀ a o, heap r !! a = Some o → ∃ o', heap r' !! a = Some o' ∧ op_key o' = op_key o ∧ (op_done o = true → op_done o' = true);
  fo_new : ∀ a o', heap r' !! a = Some o' → is_op o' →
    a ∈ queue r' ∨ ∃ o, heap r !! a = Some o ∧ is_op o ∧ (op_done o = true → op_done o' = true)
}.

Lemma follows_refl r : follows r r.
Proof.
  split; eauto.
  - exists []. rewrite app_nil_r. split_and!; [done|constructor|]. by intros a ?%elem_of_nil.
Qed.

Lemma effect_follows c r r' : effect c r r' → c ≠ Drain → follows r r'.
Proof.
  intros [[Hp|(r1 & Hp & [(o & t & id & up & Hh & Hk & Hnd & _) Hq _ _])]| -> -> | -> ->] Hc; [| |by destruct (follows_refl r); split|done].
  - split.
    + exists []. rewrite app_nil_r, (pl_queue _ _ Hp). split_and!; [done|constructor|]. by intros a ?%elem_of_nil.
    + apply Hp.
    + intros a o' Ha [k Hk]. right. destruct (plain_was _ _ _ _ _ Hp Ha Hk) as (o & Ho & Hko & Hd). exists o. split_and!; [done|by eexists|done].
  - assert (Hlen : (length (heap r) ≤ length (heap r1))%nat).
    { destruct (decide (length (heap r) = 0)%nat) as [->|Hn]; [lia|]. destruct (lookup_lt_is_Some_2 (heap r) (pred (length (heap r)))) as [x Hx]; [lia|].
      destruct (pl_old _ _ Hp _ _ Hx) as (x' & Hx' & _). apply lookup_lt_Some in Hx'. lia. }
    assert (Hlast : heap r' !! length (heap r1) = Some o) by (rewrite Hh; by apply list_lookup_middle). split.
    + exists [length (heap r1)]. rewrite Hq, (pl_queue _ _ Hp). split_and!; [done|apply NoDup_singleton|].
      intros a ->%list_elem_of_singleton. split; [done|]. exists o. split; [done|by eexists].
    + intros a x Ha. destruct (pl_old _ _ Hp a x Ha) as (x' & Hx' & Hkx & Hd). exists x'. split_and!; try done. rewrite Hh. by apply lookup_app_l_Some.
    + intros a o' Ha Hop. rewrite Hh in Ha. apply lookup_app_Some in Ha as [Ha|[Hge Ha]].
      * right. destruct Hop as [k Hko]. destruct (plain_was _ _ _ _ _ Hp Ha Hko) as (x & Hx & Hkx & Hd). exists x. split_and!; [done|by eexists|done].
      * left. apply list_lookup_singleton_Some in Ha as [Ha <-]. rewrite Hq, elem_of_app, list_elem_of_singleton. right. lia.
Qed.

Lemma follows_known r r' a : follows r r' → known r a → known r' a.
Proof. intros Hf (o & Ho & Hop). destruct (fo_old _ _ Hf a o Ho) as (o' & Ho' & Hk & _). exists o'. split; [done|]. unfold is_op. by rewrite Hk. Qed.
Lemma follows_keyed r r' a t id : follows r r' → keyed r a t id → keyed r' a t id.
Proof. intros Hf (o & Ho & Hk). destruct (fo_old _ _ Hf a o Ho) as (o' & Ho' & Hk' & _). exists o'. split; [done|congruence]. Qed.
Lemma follows_done r r' a : follows r r' → done_at r a → done_at r' a.
Proof. intros Hf (o & Ho & Hd). destruct (fo_old _ _ Hf a o Ho) as (o' & Ho' & _ & H). exists o'. auto. Qed.
Lemma terminal_done r a o : heap r !! a = Some o → is_terminal r a = op_done o.
Proof. unfold is_terminal. intros ->. by destruct o. Qed.

(** ** The owner's books *)

Definition lists_of (i : instr) : list nat := match i with Dispatch l | Close l => l | _ => [] end.
Definition lists (l : list instr) : list nat := concat (map lists_of l).
(** The operation a call gives a result to. *)
Definition target (c : cont) : list nat :=
  match c with
  | CompleteState a _ | CompleteResolve a _ | StreamResult a _ | CompleteTcp a _ | CompleteTls a _ => [a]
  | _ => []
  end.
Definition carried (i : instr) : list nat := match i with Dispatch l | Close l => l | Ask c => target c | _ => [] end.
Definition held (l : list instr) : list nat := concat (map carried l).

Definition table_of (k : kind) : table := match k with Requests => TRequests | Streams => TStreams | Resolves => TResolutions end.

(** A call fits the operation it is for. *)
Definition ask_ok (r : Registry) (c : cont) : Prop :=
  match c with
  | CompleteState a _ => ∃ id, keyed r a TRequests id
  | CompleteResolve a _ => ∃ id, keyed r a TResolutions id
  | StreamResult a _ | FinishStream a => ∃ id, keyed r a TStreams id
  | CompleteTcp a _ => ∃ id, keyed r a TConnects id
  | CompleteTls a _ => ∃ o id up, heap r !! a = Some o ∧ op_key o = Some (TTls, id, up)
  | _ => False
  end.

Definition may_drive (st : stage) : Prop := st = Serving ∨ st = Broken ∨ st = Stopping.
Definition has_failed (st : stage) : Prop := st = Failing ∨ st = Failed_all.
(** [id] was given to the backend, for an operation that has its result. *)
Definition over_with (r : Registry) (o : Owner) (id : Z) : Prop := ∃ a, (id, a) ∈ handed (core o) ∧ done_at r a.

Definition instr_ok (r : Registry) (o : Owner) (i : instr) : Prop :=
  let st := stage_of o in
  match i with
  | Ask (FailAll _) => st = Failing
  | Ask MarkStopped => has_failed st ∨ st = Stopping
  | Ask c => ask_ok r c
  | Dispatch l => may_drive st ∧ Forall (known r) l
  | Close l => Forall (known r) l
  | LoopHead | EndDrive | CheckStopped => may_drive st ∧ spawned o = true
  | TakeQueue false | EndManual _ | WaitUntil => may_drive st
  | CancelRest _ | CancelKeys _ _ => st ≠ Serving
  | Collect k l found => Forall (λ x, x ∈ handed (core o)) l ∧ Forall (over_with r o) found
  | Cancels k l => Forall (over_with r o) l
  | EndStop | Return None => st = Stopping ∧ spawned o = true
  | ReturnAfter _ => has_failed st ∧ spawned o = true
  | Return (Some _) => (has_failed st ∨ st = Stopping) ∧ spawned o = true
  | EndManualStop => st = Stopping
  | _ => True
  end.

(** An instruction that may throw away what follows it. *)
Definition resets (i : instr) : bool :=
  match i with
  | LoopHead | WakeFailure | EarlyResolves | Poll | PollAgain _ | EndDrive | EndManual _ | WaitUntil | CheckStopped | EndStop | ReturnAfter _ | Return _ => true
  | _ => false
  end.
Fixpoint tidy (l : list instr) : Prop :=
  match l with [] => True | i :: l' => (resets i = true → held l' = []) ∧ tidy l' end.

Definition keys (k : kind) (o : Owner) : list Z := map fst (map_to_list (active (core o) k)).

Record Books (r : Registry) (o : Owner) : Prop := {
  bo_instrs : Forall (instr_ok r o) (todo o);
  bo_tidy : tidy (todo o);
  bo_nodup : NoDup (queue r ++ lists (todo o) ++ given (core o));
  bo_queue : Forall (known r) (queue r);
  bo_handed : Forall (λ x, ∃ t, keyed r x.2 t x.1) (handed (core o));
  bo_active : ∀ k id a, active (core o) k !! id = Some a → (id, a) ∈ handed (core o) ∧ keyed r a (table_of k) id;
  bo_count : (handed (core o)).*1 ≡ₚ ended (core o) ++ keys Requests o ++ keys Streams o ++ keys Resolves o;
  bo_known : Forall (known r) (given (core o));
  bo_given : given (core o) ≡ₚ (handed (core o)).*2 ++ sinks (core o) ++ answered (core o) ++ thrown (core o);
  bo_failed : has_failed (stage_of o) → spawned o = true;
  bo_returned : is_Some (returned o) →
    todo o = [] ∧ calling o = None ∧ spawned o = true ∧ (stage_of o = Failed_all ∨ stage_of o = Stopping) ∧
    (returned o = Some None → stage_of o = Stopping)
}.

(** Where an operation without a result is. *)
Definition in_call (e : Engine) (o : Owner) (a : nat) : Prop :=
  ∃ i cs, calling o = Some i ∧ threads e !! i = Some cs ∧ Exists (covers a) cs.
Definition with_backend (o : Owner) (a : nat) : Prop := (∃ k id, active (core o) k !! id = Some a) ∨ a ∈ sinks (core o).
Definition placed (e : Engine) (o : Owner) (a : nat) : Prop :=
  a ∈ queue (registry e) ∨ a ∈ held (todo o) ∨ in_call e o a ∨ stage_of o = Serving ∧ with_backend o a.
Definition all_placed (e : Engine) (o : Owner) : Prop :=
  ∀ a x, heap (registry e) !! a = Some x → is_op x → op_done x = true ∨ placed e o a.

Definition no_failure (i : instr) : Prop := match i with Ask (FailAll _) => False | _ => True end.
(** It will fail everything next. *)
Definition pending (e : Engine) (o : Owner) : Prop :=
  (calling o = None ∧ ∃ err rest, todo o = Ask (FailAll err) :: rest ∧ Forall no_failure rest) ∨
  (∃ i err, calling o = Some i ∧ threads e !! i = Some [FailAll err] ∧ Forall no_failure (todo o)).

Definition Places (e : Engine) (o : Owner) : Prop :=
  match stage_of o with
  | Serving | Failed_all => all_placed e o
  | Stopping => lifecycle (registry e) ≠ Running ∧ all_done (registry e)
  | Failing => pending e o
  | Broken => True
  end.

(** A stream is finished after its result. *)
Fixpoint finishes (r : Registry) (P : nat → Prop) (l : list instr) : Prop :=
  match l with
  | [] => True
  | i :: l' => (∀ a, i = Ask (FinishStream a) → done_at r a ∨ P a) ∧ finishes r (λ a, ∃ c, i = Ask (StreamResult a c)) l'
  end.

Record Inv (c : Config) (s : System) : Prop := {
  iv_engine : EI c (engine s);
  iv_reach : ER (engine s);
  iv_drain : Forall (Forall (λ x, x ≠ Drain)) (threads (engine s));
  iv_stops : stage_of (owner s) = Serving ∨ stage_of (owner s) = Broken → Stops (engine s);
  iv_books : Books (registry (engine s)) (owner s);
  iv_places : Places (engine s) (owner s);
  iv_finish : finishes (registry (engine s)) (in_call (engine s) (owner s)) (todo (owner s));
  iv_calling : ∀ i, calling (owner s) = Some i → (i < length (threads (engine s)))%nat;
  iv_calm : ∀ i cs, calling (owner s) = Some i → threads (engine s) !! i = Some cs → Forall (λ x, submission x = false) cs
}.

Lemma finishes_mono r r' (P P' : nat → Prop) l :
  (∀ a, done_at r a → done_at r' a) → (∀ a, P a → done_at r' a ∨ P' a) → finishes r P l → finishes r' P' l.
Proof.
  intros Hd. revert P P'. induction l as [|i l IH]; intros P P' HP; [done|]. intros [Hi Hl]. split.
  - intros a Ha. destruct (Hi a Ha) as [?|?]; auto.
  - eapply IH; [|exact Hl]. auto.
Qed.
Definition nobody (a : nat) : Prop := False.
Lemma finishes_app r P l l' : finishes r P l → finishes r nobody l' → finishes r P (l ++ l').
Proof.
  revert P. induction l as [|i l IH]; intros P; cbn; [|intros [? ?] ?; split; auto].
  intros _. by apply finishes_mono; [|intros ? []].
Qed.
Lemma held_no_result l a c : held l = [] → Ask (StreamResult a c) ∈ l → False.
Proof.
  induction l as [|i l IH]; [by intros _ ?%elem_of_nil|]. cbn. intros [Hi Hl]%app_eq_nil. intros [<- |?]%elem_of_cons; [done|auto].
Qed.
Lemma finishes_drop r P l l' : held l = [] → l ≠ [] → finishes r P (l ++ l') → finishes r nobody l'.
Proof.
  revert P. induction l as [|i l IH]; intros P; [done|]. cbn. intros [Hi Hl]%app_eq_nil _ [_ H]. destruct l as [|j l].
  - eapply finishes_mono, H; [done|]. by intros a [c ->].
  - by eapply IH.
Qed.

(** ** The registry moves, the owner does not *)

Lemma ask_ok_mono r r' c : follows r r' → ask_ok r c → ask_ok r' c.
Proof.
  intros Hf. destruct c; cbn; try done; try (intros [id Hk]; exists id; by eapply follows_keyed).
  intros (o & id & up & Ho & Hk). destruct (fo_old _ _ Hf a o Ho) as (o' & Ho' & Hk' & _). exists o', id, up. split; [done|congruence].
Qed.
Lemma over_with_mono r r' o id : follows r r' → over_with r o id → over_with r' o id.
Proof. intros Hf (a & Hin & Hd). exists a. split; [done|by eapply follows_done]. Qed.
Lemma instr_ok_mono r r' o i : follows r r' → instr_ok r o i → instr_ok r' o i.
Proof.
  intros Hf. destruct i as [| | | | |e|e|b| | | |b|l|k|k l found|k l| | |l|k l| |l|k|k l| |c]; cbn; try done.
  - intros [? Hl]. split; [done|]. eapply Forall_impl; [exact Hl|]. intros a. by apply follows_known.
  - intros [? Hl]. split; [done|]. eapply Forall_impl; [exact Hl|]. intros a. by apply over_with_mono.
  - intros Hl. eapply Forall_impl; [exact Hl|]. intros a. by apply over_with_mono.
  - intros Hl. eapply Forall_impl; [exact Hl|]. intros a. by apply follows_known.
  - pose proof (ask_ok_mono r r' c Hf) as Ha. destruct c; try done; by apply Ha.
Qed.

Lemma known_lt r a : known r a → (a < length (heap r))%nat.
Proof. intros (o & Ho & _). by eapply lookup_lt_Some. Qed.
Lemma lists_known r o l : Forall (instr_ok r o) l → Forall (known r) (lists l).
Proof.
  induction 1 as [|i l Hi _ IH]; [constructor|]. cbn. apply Forall_app. split; [|done]. destruct i; try constructor; [apply Hi|apply Hi].
Qed.
Lemma books_follows r r' o : Books r o → follows r r' → Books r' o.
Proof.
  intros Hb Hf. destruct Hb as [Hi Ht Hn Hq Hh Ha Hc Hhk Hg Hsp Hr]. pose proof (lists_known _ _ _ Hi) as Hl. split; try done.
  - eapply Forall_impl; [exact Hi|]. intros i. by apply instr_ok_mono.
  - destruct (fo_queue _ _ Hf) as (l & -> & Hnl & Hfresh). rewrite <-app_assoc, (Permutation_app_comm l), app_assoc.
    apply NoDup_app. split_and!; [done| |done]. intros a Hin Hal. destruct (Hfresh a Hal) as [Hge _].
    assert (known r a) as Hk%known_lt; [|lia]. rewrite !elem_of_app in Hin. rewrite Forall_forall in Hq, Hl, Hhk.
    destruct Hin as [?|[?|?]]; auto.
  - destruct (fo_queue _ _ Hf) as (l & -> & _ & Hfresh). apply Forall_app. split.
    + eapply Forall_impl; [exact Hq|]. intros a. by apply follows_known.
    + apply Forall_forall. intros a Hal. by apply Hfresh.
  - eapply Forall_impl; [exact Hh|]. intros x [t Hk]. exists t. by eapply follows_keyed.
  - intros k id a Hka. destruct (Ha k id a Hka) as [? Hk]. split; [done|by eapply follows_keyed].
  - eapply Forall_impl; [exact Hhk|]. intros a. by apply follows_known.
Qed.

(** An operation stays where it is when the call it is in is not moved. *)
Lemma placed_follows e e' o : follows (registry e) (registry e') →
  (∀ i cs, calling o = Some i → threads e !! i = Some cs → threads e' !! i = Some cs) → all_placed e o → all_placed e' o.
Proof.
  intros Hf Hth Hp a x' Ha Hop. destruct (fo_new _ _ Hf a x' Ha Hop) as [Hq|(x & Hx & Hopx & Hd)]; [right; by left|].
  destruct (Hp a x Hx Hopx) as [?|[Hq|[Hh|[(i & cs & Hc & Hi & Hcov)|Hb]]]]; [left; auto| | | |].
  - right; left. destruct (fo_queue _ _ Hf) as (l & -> & _). apply elem_of_app. by left.
  - right; right; by left.
  - right; right; right; left. exists i, cs. auto.
  - right; right; right; by right.
Qed.

Lemma places_env e e' o c : Books (registry e) o → effect c (registry e) (registry e') → c ≠ Drain →
  (∀ i cs, calling o = Some i → threads e !! i = Some cs → threads e' !! i = Some cs) → Places e o → Places e' o.
Proof.
  intros Hb He Hc Hth. pose proof (effect_follows _ _ _ He Hc) as Hf. unfold Places. destruct (stage_of o); try done.
  - by apply placed_follows.
  - intros [?|(i & err & Hi & Hcs & Hno)]; [by left|right]. exists i, err. auto.
  - by apply placed_follows.
  - intros [Hl Hd]. split; [by apply (effect_stopping _ _ _ He)|by eapply effect_all_done].
Qed.

(** A move of an engine's thread that is not the owner's. *)
Lemma stepped_drain m e e' : m ≠ Call Drain → stepped m e e' → Forall (Forall (λ x, x ≠ Drain)) (threads e) → Forall (Forall (λ x, x ≠ Drain)) (threads e').
Proof.
  intros Hm [-> |c -> Hcall Hpos -> |i c rest cs r' -> Hi Hpos Ho ->] Hd; [done| |]; cbn.
  - apply Forall_app. split; [done|]. apply Forall_singleton, Forall_singleton. congruence.
  - pose proof (proj1 (Forall_lookup _ _) Hd _ _ Hi) as [_ Hrest]%Forall_cons. apply Forall_insert; [done|].
    apply Forall_app. split; [|done]. eapply Forall_impl; [apply (oc_owners _ _ _ _ Ho)|]. intros x Hx ->. apply Hx. by right.
Qed.

Lemma other_inv c s m s' : Inv c s → act_step (Other m) s = Some s' → Inv c s'.
Proof.
  intros [He Hr Hd Hst Hb Hp Hfin Hcl Hcalm] Hs. cbn in Hs. destruct (allowed m (owner s)) eqn:Ha; simplify_eq; [|by split].
  destruct (step m (engine s)) as [e'|] eqn:He'; [|done]. cbn in Hs. injection Hs as <-. pose proof (step_spec _ _ _ _ He He') as Hei.
  pose proof (step_stepped _ _ _ _ He Hei Hr He') as Hstep.
  assert (Hm1 : m ≠ Call Drain) by (by intros ->). assert (Hm2 : m ≠ Call MarkStopped) by (by intros ->).
  assert (Hth : ∀ i cs, calling (owner s) = Some i → threads (engine s) !! i = Some cs → threads e' !! i = Some cs).
  { destruct Hstep as [-> |x -> ? ? -> |i x rest cs r' -> Hi ? Ho ->]; intros j l Hc Hj; [done|cbn; by apply lookup_app_l_Some|].
    cbn in Ha |- *. rewrite list_lookup_insert_ne; [done|]. intros ->. by rewrite bool_decide_true in Ha. }
  assert (Hef : ∃ x, x ≠ Drain ∧ effect x (registry (engine s)) (registry e')).
  { destruct Hstep as [-> |x -> ? ? -> |i x rest cs r' -> Hi ? Ho ->]; [exists Wake; split; [done|apply effect_frame, frame_refl]..|].
    exists x. split; [by pose proof (proj1 (Forall_lookup _ _) Hd _ _ Hi) as [? _]%Forall_cons|apply Ho]. }
  destruct Hef as (x & Hx & Hef). pose proof (effect_follows _ _ _ Hef Hx) as Hfo.
  split; cbn [engine owner]; [done|by eapply stepped_reach|by eapply stepped_drain|intros; by eapply stepped_stops; auto| | | | |].
  - by eapply books_follows.
  - by eapply places_env.
  - eapply finishes_mono, Hfin; [intros a; by apply follows_done|]. intros a (i & cs & Hc & Hi & Hcov). right. exists i, cs. auto.
  - intros i Hi. specialize (Hcl i Hi). apply lookup_lt_is_Some in Hcl as [l Hl]. eapply lookup_lt_Some, Hth; done.
  - intros i cs Hi Hcs. destruct (lookup_lt_is_Some_2 _ _ (Hcl i Hi)) as [l Hl]. rewrite (Hth _ _ Hi Hl) in Hcs. injection Hcs as <-. by eapply Hcalm.
Qed.

(** ** The owner moves, the registry does not *)

Record Ready (e : Engine) (i : instr) (rest : list instr) (o : Owner) : Prop := {
  re_books : Books (registry e) o;
  re_places : Places e o;
  re_calling : calling o = None;
  re_todo : todo o = i :: rest;
  re_stage : stage_of o ≠ Failing;
  re_finish : finishes (registry e) nobody (todo o);
  re_reg : Reg (registry e)
}.
Record Keeps (e : Engine) (o o' : Owner) : Prop := {
  ke_books : Books (registry e) o';
  ke_places : Places e o';
  ke_calling : calling o' = None;
  ke_stage : stage_of o' = Serving ∨ stage_of o' = Broken → stage_of o = Serving ∨ stage_of o = Broken;
  ke_finish : finishes (registry e) nobody (todo o')
}.

Lemma ready_returned e i rest o : Ready e i rest o → returned o = None.
Proof.
  intros Hr. destruct (returned o) as [x|] eqn:Hx; [|done]. destruct (bo_returned _ _ (re_books _ _ _ _ Hr)) as [Ht _]; [by rewrite Hx|].
  rewrite (re_todo _ _ _ _ Hr) in Ht. done.
Qed.

Lemma instr_ok_core r o o' i :
  stage_of o' = stage_of o → spawned o' = spawned o → (∀ x, x ∈ handed (core o) → x ∈ handed (core o')) → instr_ok r o i → instr_ok r o' i.
Proof.
  intros Hs Hsp Hh. assert (Hover : ∀ id, over_with r o id → over_with r o' id) by (intros id (a & ? & ?); exists a; auto).
  unfold instr_ok. rewrite Hs, Hsp. destruct i; try done.
  - intros [Hl Hf]. split; (eapply Forall_impl; [eassumption|]); auto.
  - intros Hl. eapply Forall_impl; [eassumption|]. auto.
Qed.
Lemma instrs_core r o o' l :
  stage_of o' = stage_of o → spawned o' = spawned o → (∀ x, x ∈ handed (core o) → x ∈ handed (core o')) →
  Forall (instr_ok r o) l → Forall (instr_ok r o') l.
Proof. intros ? ? ? Hl. eapply Forall_impl; [exact Hl|]. intros i. by apply instr_ok_core. Qed.

Lemma NoDup_sub {A} (l k : list A) : l ⊆+ k → NoDup k → NoDup l.
Proof. intros [k' ->]%submseteq_Permutation Hn. by apply NoDup_app in Hn as (? & _ & _). Qed.

(** What the rest of the owner's work carries. *)
Lemma ready_rest e i rest o : Ready e i rest o →
  instr_ok (registry e) o i ∧ Forall (instr_ok (registry e) o) rest ∧ tidy rest ∧ (resets i = true → held rest = []) ∧
  NoDup (queue (registry e) ++ (lists_of i ++ lists rest) ++ given (core o)).
Proof.
  intros [[Hi Ht Hn _ _ _ _ _ _ _ _] _ _ Htodo _ _ _]. rewrite Htodo in *. apply Forall_cons in Hi as [? ?]. destruct Ht as [? ?]. by split_and!.
Qed.
Lemma ready_finishes e i rest o : Ready e i rest o → carried i = [] ∨ (∀ c, i ≠ Ask c) → finishes (registry e) nobody rest.
Proof.
  intros [_ _ _ Ht _ Hf _] Hi. rewrite Ht in Hf. destruct Hf as [_ Hf]. eapply finishes_mono, Hf; [done|].
  intros a [c ->]. destruct Hi as [Hi|Hi]; [done|by destruct (Hi (StreamResult a c))].
Qed.

Record CoreOk (r : Registry) (c : ReactorCore) : Prop := {
  co_handed : Forall (λ x, ∃ t, keyed r x.2 t x.1) (handed c);
  co_active : ∀ k id a, active c k !! id = Some a → (id, a) ∈ handed c ∧ keyed r a (table_of k) id;
  co_count : (handed c).*1 ≡ₚ ended c ++ map fst (map_to_list (active c Requests)) ++ map fst (map_to_list (active c Streams)) ++ map fst (map_to_list (active c Resolves));
  co_known : Forall (known r) (given c);
  co_given : given c ≡ₚ (handed c).*2 ++ sinks c ++ answered c ++ thrown c
}.
Lemma books_core r o : Books r o → CoreOk r (core o).
Proof. intros Hb. split; apply Hb. Qed.

(** The stages in which every operation has a place. *)
Definition accounts (o : Owner) : Prop := stage_of o = Serving ∨ stage_of o = Failed_all.

Lemma keeps_intro e i rest o c' l :
  Ready e i rest o → Forall (instr_ok (registry e) (set_core c' o)) l → tidy l →
  NoDup (queue (registry e) ++ lists l ++ given c') → CoreOk (registry e) c' → finishes (registry e) nobody l →
  (∀ a, accounts o → ¬ done_at (registry e) a →
     a ∈ carried i ∨ a ∈ held rest ∨ stage_of o = Serving ∧ with_backend o a →
     a ∈ held l ∨ stage_of o = Serving ∧ with_backend (set_core c' o) a) →
  Keeps e o (set_todo l (set_core c' o)).
Proof.
  intros Hr Hl Ht Hn [Hh Ha Hc Hkn Hg] Hfin Hp. pose proof (ready_returned _ _ _ _ Hr) as Hret. destruct Hr as [Hb Hpl Hcall Htodo Hst _ _]. split; try done.
  - split; try done; [apply Hb|apply Hb|]. cbn. rewrite Hret. by intros [].
  - assert (Hall : accounts o → all_placed e o → all_placed e (set_todo l (set_core c' o))).
    { intros Hac H a x Hx Hop. destruct (H a x Hx Hop) as [?|Hpa]; [by left|]. destruct (op_done x) eqn:Hd; [by left|right].
      destruct Hpa as [?|Hpa]; [by left|].
      assert (Hnd : ¬ done_at (registry e) a) by (intros (y & Hy & ?); congruence).
      assert (Hcase : a ∈ carried i ∨ a ∈ held rest ∨ stage_of o = Serving ∧ with_backend o a).
      { rewrite Htodo in Hpa. unfold held in Hpa. cbn in Hpa. rewrite elem_of_app in Hpa. destruct Hpa as [[?|?]|[(j & cs & Hj & _)|?]]; auto. congruence. }
      destruct (Hp a Hac Hnd Hcase) as [?|[? ?]]; [right; by left|]. do 3 right. by split. }
    unfold Places in *. cbn. unfold accounts in Hall. destruct (stage_of o); auto; done.
Qed.

(** The next instructions, with the backend's books as they are. *)
Lemma keeps_next e i rest o new :
  Ready e i rest o → Forall (instr_ok (registry e) o) new → tidy (new ++ rest) → lists new ⊆+ lists_of i →
  finishes (registry e) nobody (new ++ rest) →
  (∀ a, a ∈ carried i → a ∈ held new ∨ done_at (registry e) a) → Keeps e o (set_todo (new ++ rest) o).
Proof.
  intros Hr Hnew Ht Hl Hfin Hh. pose proof (ready_rest _ _ _ _ Hr) as (_ & Hrest & _ & _ & Hn). pose proof (re_books _ _ _ _ Hr) as Hb.
  assert (Hk : Keeps e o (set_todo (new ++ rest) (set_core (core o) o))); [|by destruct o].
  apply (keeps_intro e i rest); [done| |done| |by apply books_core|done|].
  - destruct o; by apply Forall_app.
  - unfold lists. rewrite map_app, concat_app. fold (lists new) (lists rest). eapply NoDup_sub; [|exact Hn].
    apply submseteq_app; [done|]. apply submseteq_app; [|done]. by apply submseteq_app.
  - intros a _ Hnd [Ha|[Ha|Ha]].
    + destruct (Hh a Ha) as [?|?]; [left|done]. unfold held. rewrite map_app, concat_app, elem_of_app. by left.
    + left. unfold held. rewrite map_app, concat_app, elem_of_app. by right.
    + right. by destruct o.
Qed.

Lemma tidy_app new rest : Forall (λ i, resets i = false) new → tidy rest → tidy (new ++ rest).
Proof. induction 1 as [|i new Hi _ IH]; [done|]. intros Hr. cbn. split; [by rewrite Hi|auto]. Qed.
Lemma tidy_light l : held l = [] → tidy l.
Proof.
  induction l as [|i l IH]; [done|]. intros H. cbn in H. apply app_eq_nil in H as [_ H]. cbn. split; [done|auto].
Qed.

Lemma keeps_progressed e o o' b : Keeps e o o' → Keeps e o (set_progressed b o').
Proof. intros [[] ? ? ? ?]. split; [split|..]; done. Qed.
Lemma keeps_seen e o o' n : Keeps e o o' → Keeps e o (set_seen n o').
Proof. intros [[] ? ? ? ?]. split; [split|..]; done. Qed.
Lemma keeps_result e o o' x : Keeps e o o' → Keeps e o (set_result x o').
Proof. intros [[] ? ? ? ?]. split; [split|..]; done. Qed.
Lemma keeps_shutdown e o o' x : Keeps e o o' → Keeps e o (set_shutdown x o').
Proof. intros [[] ? ? ? ?]. split; [split|..]; done. Qed.
Lemma keeps_here e i rest o : Ready e i rest o → Keeps e o o.
Proof. intros [Hb Hp Hc Ht Hs Hf _]. by split. Qed.

(** The owner goes on with nothing in its hands. *)
Lemma held_lists l : held l = [] → lists l = [].
Proof.
  induction l as [|i l IH]; [done|]. cbn. intros [Hi Hl]%app_eq_nil. fold (lists l). rewrite IH by done. rewrite app_nil_r. by destruct i.
Qed.
Lemma keeps_drop e i rest o l' l :
  Ready e i rest o → resets i = true → carried i = [] → rest = l' ++ l → Keeps e o (set_todo l o).
Proof.
  intros Hr Hres Hc ->. pose proof (ready_finishes _ _ _ _ Hr (or_introl Hc)) as Hfin. pose proof (ready_rest _ _ _ _ Hr) as (_ & Hrest & Ht & Hheld & Hn). pose proof (re_books _ _ _ _ Hr) as Hb.
  specialize (Hheld Hres). pose proof Hheld as Hl. unfold held in Hl. rewrite map_app, concat_app in Hl. apply app_eq_nil in Hl as [Hl' Hl].
  fold (held l) in Hl. fold (held l') in Hl'. assert (Hfin' : finishes (registry e) nobody l) by (destruct l' as [|j l']; [done|apply (finishes_drop _ nobody (j :: l')); done]). assert (Hk : Keeps e o (set_todo l (set_core (core o) o))); [|by destruct o].
  apply (keeps_intro e i (l' ++ l)); [done| |by apply tidy_light| |by apply books_core|done|].
  - destruct o. by apply Forall_app in Hrest as [_ ?].
  - rewrite (held_lists _ Hl). rewrite (held_lists _ Hheld) in Hn. destruct o. cbn in Hn |- *. rewrite app_nil_r in Hn.
    eapply NoDup_sub; [|exact Hn]. apply submseteq_app; [done|]. by apply submseteq_inserts_l.
  - rewrite Hc, Hheld. intros a _ _ [Ha|[Ha|Ha]]; [by apply elem_of_nil in Ha..|]. right. by destruct o.
Qed.
Lemma to_end_suffix l : ∃ l', l = l' ++ to_end l.
Proof.
  induction l as [|i l [l' Hl']]; [by exists []|]. destruct i; try (exists []; done); eexists (_ :: l'); cbn; by rewrite <-Hl'.
Qed.
Lemma drive_failed_keeps e i rest o err : Ready e i rest o → resets i = true → carried i = [] → Keeps e o (drive_failed err rest o).
Proof.
  intros Hr Hres Hc. unfold drive_failed. apply keeps_result. destruct (to_end_suffix rest) as [l' Hl']. by eapply keeps_drop.
Qed.

(** A panic of the backend. *)
Lemma panicked_with e i rest o c' :
  Ready e i rest o → CoreOk (registry e) c' → NoDup (queue (registry e) ++ given c') → Keeps e o (panicked (set_core c' o)).
Proof.
  intros Hr [Hh Ha Hc Hkn Hg] Hn. pose proof (ready_returned _ _ _ _ Hr) as Hret.
  destruct Hr as [Hb Hp Hcall Htodo Hst _ _]. unfold panicked. cbn [spawned set_core]. destruct (spawned o) eqn:Hsp; (split; [split; try apply Hb; try done|..]); cbn; try done.
  - apply Forall_cons; split; [done|]. apply Forall_cons; split; [by left; left|]. apply Forall_singleton. split; [by left; left|done].
  - rewrite Hret. by intros [].
  - left. split; [done|]. eexists _, _. split; [done|]. by repeat constructor.
  - by intros [[=]|[=]].
  - intros Hf. exfalso. case_bool_decide; [by destruct Hf|]. apply (bo_failed _ _ Hb) in Hf. congruence.
  - rewrite Hret. by intros [].
  - unfold Places in *. cbn. case_bool_decide; [done|]. destruct (stage_of o) eqn:Hso; try done.
    assert (spawned o = true) by (apply (bo_failed _ _ Hb); by right). congruence.
  - case_bool_decide; auto.
Qed.
Lemma panicked_keeps e i rest o : Ready e i rest o → Keeps e o (panicked o).
Proof.
  intros Hr. pose proof (ready_rest _ _ _ _ Hr) as (_ & _ & _ & _ & Hn).
  assert (Hk : Keeps e o (panicked (set_core (core o) o))); [|by destruct o].
  eapply panicked_with; [exact Hr|apply books_core, Hr|]. eapply NoDup_sub; [|exact Hn]. apply submseteq_app; [done|]. by apply submseteq_inserts_l.
Qed.

(** Calls of the backend. *)
Lemma ready_backend e i rest o b : Ready e i rest o → Ready e i rest (set_core (set_backend b (core o)) o).
Proof. intros [[] Hp Hc Ht Hs Hf Hg]. split; [split|..]; done. Qed.
Lemma backend_keeps {E A} e i rest o (m : M backend E A) ok err :
  Ready e i rest o → (∀ a o1, Ready e i rest o1 → stage_of o1 = stage_of o → core o1 = set_backend (the_backend (core o1)) (core o) → Keeps e o1 (ok a o1)) →
  (∀ x o1, Ready e i rest o1 → Keeps e o1 (err x o1)) → Keeps e o (on_backend m o ok err).
Proof.
  intros Hr Hok Herr. unfold on_backend. destruct (m (the_backend (core o))) as [[a|x| |] b].
  - pose proof (Hok a _ (ready_backend _ _ _ _ b Hr) eq_refl eq_refl) as [? ? ? ? ?]. by split.
  - pose proof (Herr x _ (ready_backend _ _ _ _ b Hr)) as [? ? ? ? ?]. by split.
  - pose proof (panicked_keeps _ _ _ _ (ready_backend _ _ _ _ b Hr)) as [? ? ? ? ?]. by split.
  - by eapply keeps_here.
Qed.
Lemma never_keeps e o x : Keeps e o (never x o).
Proof. destruct x. Qed.

(** ** What the backend has *)

Definition key_list (k : kind) (c : ReactorCore) : list Z := map fst (map_to_list (active c k)).
Definition all_keys (c : ReactorCore) : list Z := key_list Requests c ++ key_list Streams c ++ key_list Resolves c.
Lemma all_keys_other (c c' : ReactorCore) k l l' :
  (∀ k', k' ≠ k → active c' k' = active c k') → l ++ key_list k c' ≡ₚ l' ++ key_list k c → l ++ all_keys c' ≡ₚ l' ++ all_keys c.
Proof.
  intros Hk Hp. assert (Hl : ∀ k', k' ≠ k → key_list k' c' = key_list k' c) by (intros k' Hne; unfold key_list; by rewrite Hk).
  unfold all_keys. destruct k; rewrite ?(Hl Requests), ?(Hl Streams), ?(Hl Resolves) by done.
  - by rewrite !app_assoc, Hp.
  - rewrite (Permutation_app_comm (key_list Requests c) (key_list Streams c' ++ _)), (Permutation_app_comm (key_list Requests c) (key_list Streams c ++ _)).
    by rewrite !app_assoc, Hp.
  - rewrite (Permutation_app_comm (key_list Requests c) (_ ++ key_list Resolves c')), (Permutation_app_comm (key_list Requests c) (_ ++ key_list Resolves c)).
    rewrite (Permutation_app_comm (key_list Streams c) (key_list Resolves c')), (Permutation_app_comm (key_list Streams c) (key_list Resolves c)).
    by rewrite !app_assoc, Hp.
Qed.

Lemma keyed_unique r a b t t' id : Reg r → keyed r a t id → keyed r b t' id → a = b.
Proof. intros Hr (o & Ho & Hk) (o' & Ho' & Hk'). by eapply (rg_unique _ Hr). Qed.

Lemma hand_free r c k id a : CoreOk r c → Reg r → keyed r a (table_of k) id → a ∉ given c → active c k !! id = None.
Proof.
  intros [_ Ha _ _ Hg] Hr Hk Hn. rewrite Hg, elem_of_app in Hn. destruct (active c k !! id) as [b|] eqn:Hb; [|done]. destruct (Ha _ _ _ Hb) as [Hin Hkb].
  destruct Hn. left. rewrite (keyed_unique _ _ _ _ _ _ Hr Hk Hkb). apply list_elem_of_fmap. by exists (id, b).
Qed.
Lemma hand_core r c k id a :
  CoreOk r c → Reg r → keyed r a (table_of k) id → a ∉ given c → CoreOk r (hand k id a c).
Proof.
  intros Hok Hr Hk Hn. pose proof (hand_free _ _ _ _ _ Hok Hr Hk Hn) as Hfree. destruct Hok as [Hh Ha Hc Hkn Hg]. split.
  - apply Forall_app. split; [done|]. apply Forall_singleton. by exists (table_of k).
  - cbn. intros k' id' a'. destruct (decide (k' = k)) as [->|Hne].
    + intros [[<- <-]|[_ H]]%lookup_insert_Some; [split; [|done]; apply elem_of_app; right; by left|].
      destruct (Ha _ _ _ H) as [? ?]. split; [|done]. apply elem_of_app. by left.
    + intros H. destruct (Ha _ _ _ H) as [? ?]. split; [|done]. apply elem_of_app. by left.
  - change (map fst (handed c) ≡ₚ ended c ++ all_keys c) in Hc. change (map fst (handed c ++ [(id, a)]) ≡ₚ ended c ++ all_keys (hand k id a c)).
    rewrite map_app, Hc. cbn [map fst].
    rewrite <-app_assoc, (Permutation_app_comm (all_keys c)). apply Permutation_app; [done|]. symmetry.
    apply (all_keys_other c (hand k id a c) k []); [intros k' Hne; cbn; by rewrite decide_False|].
    unfold key_list. cbn. rewrite decide_True by done. by rewrite (map_to_list_insert _ _ _ Hfree).
  - apply Forall_app. split; [done|]. apply Forall_singleton. destruct Hk as (x & Hx & Hkx). exists x. split; [done|by eexists].
  - cbn. rewrite Hg, fmap_app. cbn. by rewrite <-app_assoc, (Permutation_app_comm _ [a]), !app_assoc, (Permutation_app_comm _ [a]).
Qed.
Lemma hand_active c k id a k' id' b :
  active c k !! id = None → active c k' !! id' = Some b ∨ (k', id', b) = (k, id, a) → active (hand k id a c) k' !! id' = Some b.
Proof.
  intros Hf [Hb|[= -> -> ->]]; cbn; [|rewrite decide_True by done; by rewrite lookup_insert_eq].
  destruct (decide (k' = k)) as [->|]; [|done]. rewrite lookup_insert_ne; [done|]. congruence.
Qed.
Lemma part_core r c k id : CoreOk r c → CoreOk r (part k id c).
Proof.
  intros [Hh Ha Hc Hkn Hg]. split; [done| | |done|done].
  - cbn. intros k' id' a'. destruct (decide (k' = k)) as [->|Hne]; [|by apply Ha]. intros [_ H]%lookup_delete_Some. by apply Ha.
  - change (map fst (handed c) ≡ₚ ended c ++ all_keys c) in Hc. rewrite Hc. change (ended c ++ all_keys c ≡ₚ (ended c ++ (if bool_decide (is_Some (active c k !! id)) then [id] else [])) ++ all_keys (part k id c)).
    rewrite <-app_assoc. apply Permutation_app; [done|]. symmetry.
    apply (all_keys_other c (part k id c) k _ []); [intros k' Hne; cbn; by rewrite decide_False|].
    unfold key_list. cbn. rewrite decide_True by done. case_bool_decide as Hs.
    + destruct Hs as [b Hb]. by rewrite <-(map_to_list_delete _ _ _ Hb).
    + by rewrite delete_id by (by apply eq_None_not_Some).
Qed.
Lemma clear_core r c k : CoreOk r c → CoreOk r (clear k c).
Proof.
  intros [Hh Ha Hc Hkn Hg]. split; [done| | |done|done].
  - cbn. intros k' id' a'. destruct (decide (k' = k)) as [->|Hne]; [by rewrite lookup_empty|by apply Ha].
  - change (map fst (handed c) ≡ₚ ended c ++ all_keys c) in Hc. rewrite Hc. change (ended c ++ all_keys c ≡ₚ (ended c ++ key_list k c) ++ all_keys (clear k c)).
    rewrite <-app_assoc. apply Permutation_app; [done|]. symmetry.
    apply (all_keys_other c (clear k c) k _ []); [intros k' Hne; cbn; by rewrite decide_False|].
    unfold key_list at 2. cbn. rewrite decide_True by done. rewrite map_to_list_empty. cbn. by rewrite app_nil_r.
Qed.
(** The backend got one more operation, and has no state for it. *)
Lemma given_core r c c' a :
  CoreOk r c → known r a → handed c' = handed c → active c' = active c → ended c' = ended c → given c' = given c ++ [a] →
  sinks c' ++ answered c' ++ thrown c' ≡ₚ (sinks c ++ answered c ++ thrown c) ++ [a] → CoreOk r c'.
Proof.
  intros [Hh Ha Hc Hkn Hg] Hk H1 H2 H3 H4 H5. split; rewrite ?H1, ?H2, ?H3, ?H4; try done.
  - apply Forall_app. split; [done|]. by apply Forall_singleton.
  - by rewrite Hg, H5, <-app_assoc.
Qed.

(** ** Instructions *)

Definition asks (i : instr) : bool := match i with Ask _ => true | _ => false end.
Definition calm (i : instr) : bool := negb (resets i).

Lemma keeps_core e i rest o c' new :
  Ready e i rest o → asks i = false → Forall (instr_ok (registry e) (set_core c' o)) new → forallb calm new = true →
  (∀ x, x ∈ handed (core o) → x ∈ handed c') → finishes (registry e) nobody new →
  NoDup (queue (registry e) ++ (lists new ++ lists rest) ++ given c') → CoreOk (registry e) c' →
  (∀ a, accounts o → ¬ done_at (registry e) a → a ∈ carried i ∨ stage_of o = Serving ∧ with_backend o a →
     a ∈ held new ∨ stage_of o = Serving ∧ with_backend (set_core c' o) a) →
  Keeps e o (set_todo (new ++ rest) (set_core c' o)).
Proof.
  intros Hr Hi Hnew Hcalm Hin Hf Hn Hc Hp. pose proof (ready_rest _ _ _ _ Hr) as (_ & Hrest & Ht & _ & _).
  apply (keeps_intro e i rest); [done| | | |done| |].
  - apply Forall_app. split; [done|]. by eapply instrs_core, Hrest.
  - apply tidy_app; [|done]. apply Forall_forall. intros j Hj%list_elem_of_In.
    by apply negb_true_iff, (proj1 (forallb_forall calm new)).
  - unfold lists. by rewrite map_app, concat_app.
  - apply finishes_app; [done|]. eapply ready_finishes; [done|]. right. by intros c ->.
  - intros a Hk Hnd Hcase. unfold held. rewrite map_app, concat_app, elem_of_app. fold (held new) (held rest).
    destruct (decide (a ∈ held rest)); [by left; right|]. destruct (Hp a Hk Hnd) as [?|?]; [tauto|by left; left|by right].
Qed.
Lemma keeps_new e i rest o new :
  Ready e i rest o → asks i = false → Forall (instr_ok (registry e) o) new → forallb calm new = true →
  finishes (registry e) nobody new → lists new ⊆+ lists_of i → (∀ a, a ∈ carried i → a ∈ held new ∨ done_at (registry e) a) →
  Keeps e o (set_todo (new ++ rest) o).
Proof.
  intros Hr Hi Hnew Hcalm Hf Hl Hp. pose proof (ready_rest _ _ _ _ Hr) as (_ & _ & _ & _ & Hn).
  assert (Hk : Keeps e o (set_todo (new ++ rest) (set_core (core o) o))); [|by destruct o].
  apply (keeps_core e i); [done|done|by destruct o|done|done|done| |apply books_core, Hr|].
  - eapply NoDup_sub; [|exact Hn]. apply submseteq_app; [done|]. apply submseteq_app; [|done]. by apply submseteq_app.
  - intros a _ Hnd [Ha|Ha]; [|right; by destruct o]. left. by destruct (Hp a Ha).
Qed.
Lemma accounts_serving o : accounts o → may_drive (stage_of o) → stage_of o = Serving.
Proof. intros [?|Ha] [?|[?|?]]; congruence. Qed.
Lemma keeps_light e i rest o l :
  Ready e i rest o → resets i = true → carried i = [] → held l = [] → Forall (instr_ok (registry e) o) l →
  finishes (registry e) nobody l → Keeps e o (set_todo l o).
Proof.
  intros Hr Hres Hc Hl Hok Hf. pose proof (ready_rest _ _ _ _ Hr) as (_ & _ & _ & Hheld & Hn). specialize (Hheld Hres).
  assert (Hk : Keeps e o (set_todo l (set_core (core o) o))); [|by destruct o].
  apply (keeps_intro e i rest); [done|by destruct o|by apply tidy_light| |apply books_core, Hr|done|].
  - rewrite (held_lists _ Hl). eapply NoDup_sub; [|exact Hn]. apply submseteq_app; [done|]. by apply submseteq_inserts_l.
  - rewrite Hc, Hheld. intros a _ _ [Ha|[Ha|Ha]]; [by apply elem_of_nil in Ha..|]. right. by destruct o.
Qed.
(** The owner goes on to another stage. *)
Lemma keeps_stage e i rest o l st :
  Ready e i rest o → held l = [] → Forall (instr_ok (registry e) (set_stage st o)) l → finishes (registry e) nobody l →
  Places e (set_stage st (set_todo l o)) → (st = Serving ∨ st = Broken → stage_of o = Serving ∨ stage_of o = Broken) →
  (has_failed st → spawned o = true) → Keeps e o (set_stage st (set_todo l o)).
Proof.
  intros Hr Hl Hok Hf Hp Hst Hsp. pose proof (ready_rest _ _ _ _ Hr) as (_ & _ & _ & _ & Hn). pose proof (ready_returned _ _ _ _ Hr) as Hret.
  destruct Hr as [Hb _ Hcall _ _ _ _]. split; try done. split; try apply Hb; try done; cbn.
  - by apply tidy_light.
  - fold (lists l). rewrite (held_lists _ Hl). eapply NoDup_sub; [|exact Hn]. apply submseteq_app; [done|]. by apply submseteq_inserts_l.
  - rewrite Hret. by intros [].
Qed.
(** The owner is done. *)
Lemma keeps_return e i rest o x :
  Ready e i rest o → resets i = true → carried i = [] → spawned o = true → stage_of o = Failed_all ∨ stage_of o = Stopping →
  (x = None → stage_of o = Stopping) → Keeps e o (set_returned (Some x) (set_todo [] o)).
Proof.
  intros Hr Hres Hc Hsp Hst Hx. pose proof (re_calling _ _ _ _ Hr) as Hcall.
  destruct (keeps_light e i rest o [] Hr Hres Hc) as [[] ? ? ? ?]; try done.
  split; try done. split; try done. intros _. split_and!; try done. cbn. intros [= ->]. auto.
Qed.

Lemma drop_light e i rest o : Ready e i rest o → asks i = false → carried i = [] → Keeps e o (set_todo rest o).
Proof.
  intros Hr Hi Hc. apply (keeps_new e i rest o []); [done|done|constructor|done|done|apply submseteq_nil_l|]. rewrite Hc. by intros a ?%elem_of_nil.
Qed.

Ltac oks := repeat (apply Forall_cons; split); try apply Forall_nil; try done.
Ltac quiet := cbn; repeat (split; [by intros|]); done.

(** One operation of the list goes to the backend. *)
Lemma dispatch_new e a l rest o :
  Ready e (Dispatch (a :: l)) rest o →
  a ∉ given (core o) ∧ NoDup (queue (registry e) ++ (l ++ lists rest) ++ given (core o) ++ [a]).
Proof.
  intros Hr. destruct (ready_rest _ _ _ _ Hr) as (_ & _ & _ & _ & Hn). cbn in Hn. split.
  - intros Hin. apply NoDup_app in Hn as (_ & _ & Hn). apply NoDup_cons in Hn as [Hn _]. apply Hn. rewrite !elem_of_app. by right.
  - eapply NoDup_sub; [|exact Hn]. apply submseteq_app; [done|]. by rewrite app_assoc, (Permutation_app_comm _ [a]).
Qed.
Lemma gives_keeps e a l rest o new c' :
  Ready e (Dispatch (a :: l)) rest o → CoreOk (registry e) c' → given c' = given (core o) ++ [a] → (∀ x, x ∈ handed (core o) → x ∈ handed c') →
  Forall (instr_ok (registry e) (set_core c' o)) new → forallb calm new = true → finishes (registry e) nobody new → lists new = l →
  (∀ b, b ∈ l → b ∈ held new) → (accounts o → a ∈ held new ∨ stage_of o = Serving ∧ with_backend (set_core c' o) a) →
  (∀ b, with_backend o b → with_backend (set_core c' o) b) →
  Keeps e o (set_todo (new ++ rest) (set_core c' o)).
Proof.
  intros Hr Hok Hg Hh Hnew Hc Hf Hl Hheld Ha Hwith. destruct (dispatch_new _ _ _ _ _ Hr) as [_ Hn].
  apply (keeps_core e (Dispatch (a :: l))); try done.
  - by rewrite Hl, Hg.
  - cbn. intros b Hac _ [[-> |Hb]%elem_of_cons|[Hs Hb]]; [auto|left; auto|right; auto].
Qed.
(** A submission returns, or panics. *)
Lemma submit_keeps {A} e a l rest o (m : M backend Empty_set A) ok :
  Ready e (Dispatch (a :: l)) rest o → known (registry e) a → (∀ x o1, Ready e (Dispatch (a :: l)) rest o1 → Keeps e o1 (ok x o1)) →
  Keeps e o (on_submit a m o ok).
Proof.
  intros Hr Hk Hok. unfold on_submit. destruct (m (the_backend (core o))) as [[x|[]| |] b]; [| |by eapply keeps_here].
  - pose proof (Hok x _ (ready_backend _ _ _ _ b Hr)) as [? ? ? ? ?]. by split.
  - pose proof (ready_backend _ _ _ _ b Hr) as Hr1. set (o1 := set_core _ o) in *. destruct (dispatch_new _ _ _ _ _ Hr1) as [_ Hn].
    assert (Hp : Keeps e o1 (panicked (update_core (throw a) o1))); [|destruct Hp; by split].
    eapply panicked_with; [exact Hr1| |].
    + apply (given_core _ (core o1) _ a); [apply books_core, Hr1|done..|]. cbn. solve_Permutation.
    + eapply NoDup_sub; [|exact Hn]. apply submseteq_app; [done|]. by apply submseteq_inserts_l.
Qed.

Lemma hand_keeps e a l rest o k id :
  Ready e (Dispatch (a :: l)) rest o → keyed (registry e) a (table_of k) id →
  Keeps e o (set_todo ([Dispatch l] ++ rest) (update_core (hand k id a) o)).
Proof.
  intros Hr Hk. destruct (ready_rest _ _ _ _ Hr) as ([Hm [Ha Hl]%Forall_cons] & _). destruct (dispatch_new _ _ _ _ _ Hr) as [Hnew _].
  pose proof (hand_free _ _ _ _ _ (books_core _ _ (re_books _ _ _ _ Hr)) (re_reg _ _ _ _ Hr) Hk Hnew) as Hfree.
  apply (gives_keeps e a l); try done.
  - apply hand_core; [apply books_core, Hr|apply Hr|done|done].
  - intros x Hx. apply elem_of_app. by left.
  - by oks.
  - cbn. by rewrite app_nil_r.
  - cbn. by rewrite app_nil_r.
  - intros Hac. right. split; [by eapply accounts_serving|]. left. exists k, id. apply hand_active; auto.
  - intros b [(k' & id' & Hb)|Hb]; [left; exists k', id'; apply hand_active; auto|by right].
Qed.
Lemma sink_keeps e a l rest o :
  Ready e (Dispatch (a :: l)) rest o → Keeps e o (set_todo ([Dispatch l] ++ rest) (update_core (hand_sink a) o)).
Proof.
  intros Hr. destruct (ready_rest _ _ _ _ Hr) as ([Hm [Ha Hl]%Forall_cons] & _). apply (gives_keeps e a l); try done.
  - apply (given_core _ (core o) _ a); [apply books_core, Hr|done..|]. cbn. solve_Permutation.
  - by oks.
  - cbn. by rewrite app_nil_r.
  - cbn. by rewrite app_nil_r.
  - intros Hac. right. split; [by eapply accounts_serving|]. right. apply elem_of_app; right. by left.
  - intros b [Hb|Hb]; [by left|right]. apply elem_of_app. by left.
Qed.
Lemma answer_keeps e a l rest o c :
  Ready e (Dispatch (a :: l)) rest o → (∀ c', instr_ok (registry e) (set_core c' o) (Ask c)) → (∀ b, c ≠ FinishStream b) → target c = [a] →
  Keeps e o (set_todo ([Ask c; Dispatch l] ++ rest) (update_core (answer a) o)).
Proof.
  intros Hr Hc Hne Ht. destruct (ready_rest _ _ _ _ Hr) as ([Hm [Ha Hl]%Forall_cons] & _). apply (gives_keeps e a l); try done.
  - apply (given_core _ (core o) _ a); [apply books_core, Hr|done..|]. cbn. solve_Permutation.
  - by oks.
  - split; [|by repeat split]. intros b [= ->]. by destruct (Hne b).
  - cbn. by rewrite app_nil_r.
  - cbn. rewrite app_nil_r. intros b Hb. apply elem_of_app. by right.
  - intros _. left. cbn. rewrite Ht. by left.
Qed.

Lemma dispatch_keeps e a l rest o : Ready e (Dispatch (a :: l)) rest o → Keeps e o (dispatch a l rest (registry e) o).
Proof.
  intros Hr. unfold dispatch. set (r := registry e).
  destruct (ready_rest _ _ _ _ Hr) as ([Hm [(ob & Hob & Hop) Hl]%Forall_cons] & _). fold r in Hob. rewrite Hob.
  assert (Hkn : known r a) by by exists ob.
  destruct (is_terminal r a) eqn:Ht.
  - assert (Hd : done_at r a) by (exists ob; split; [done|by rewrite <-(terminal_done _ _ _ Hob)]).
    assert (Hrest : Keeps e o (set_todo ([Dispatch l] ++ rest) o)).
    { apply (keeps_new e (Dispatch (a :: l))); try done.
      - by oks.
      - cbn. rewrite app_nil_r. by apply submseteq_cons.
      - cbn. rewrite app_nil_r. intros b [-> |Hb]%elem_of_cons; [by right|by left]. }
    destruct ob; try done. apply (keeps_new e (Dispatch (a :: l)) rest o [Ask (StreamResult a Cancelled); Dispatch l]); try done.
    + oks. by exists id, (OStream id s).
    + cbn. rewrite app_nil_r. by apply submseteq_cons.
    + cbn. rewrite app_nil_r. auto.
  - assert (Hk : ∀ k id, op_key ob = Some (table_of k, id, false) → keyed r a (table_of k) id) by (intros; by exists ob).
    destruct ob as [id s|id s|id s|id ? ? s|id ? ? up s|id ?|id ?]; try by destruct Hop.
    + eapply submit_keeps; [exact Hr|done|]. intros [c|] o1 Hr1; [|by apply hand_keeps, (Hk Requests)].
      apply (answer_keeps e a l rest o1 (CompleteState a c)); try done. intros ?. exists id. by exists (ORequest id s).
    + eapply submit_keeps; [exact Hr|done|]. intros [c|] o1 Hr1; [|by apply hand_keeps, (Hk Resolves)].
      apply (answer_keeps e a l rest o1 (CompleteResolve a c)); try done. intros ?. exists id. by exists (OResolve id s).
    + eapply submit_keeps; [exact Hr|done|]. intros ? o1 Hr1. by apply hand_keeps, (Hk Streams).
    + eapply submit_keeps; [exact Hr|done|]. intros ? o1 Hr1. by apply sink_keeps.
    + destruct up; (eapply submit_keeps; [exact Hr|done|]); intros ? o1 Hr1; by apply sink_keeps.
Qed.

Lemma close_keeps e a l rest o : Ready e (Close (a :: l)) rest o → Keeps e o (close a l rest (registry e) o).
Proof.
  intros Hr. unfold close. set (r := registry e). destruct (ready_rest _ _ _ _ Hr) as ([(ob & Hob & Hop) Hl]%Forall_cons & _). fold r in Hob. rewrite Hob.
  assert (Hnew : ∀ new, Forall (instr_ok r o) new → forallb calm new = true → finishes r nobody new → lists new = [] → 
    (a ∈ held new ∨ done_at r a) → Keeps e o (set_todo ((new ++ [Close l]) ++ rest) o)).
  { intros new Hok Hc Hf Hn Ha. apply (keeps_new e (Close (a :: l))); try done.
    - apply Forall_app. split; [done|]. by oks.
    - by rewrite forallb_app, Hc.
    - by apply finishes_app.
    - unfold lists. rewrite map_app, concat_app. fold (lists new). rewrite Hn. cbn. rewrite app_nil_r. by apply submseteq_cons.
    - unfold held. rewrite map_app, concat_app. fold (held new). cbn. rewrite app_nil_r. intros b Hb. rewrite elem_of_app.
      apply elem_of_cons in Hb as [-> |Hb]; [destruct Ha; auto|by left; right]. }
  assert (Hone : ∀ c, instr_ok r o (Ask c) → (∀ b, c ≠ FinishStream b) → target c = [a] →
    Keeps e o (set_todo (if is_terminal r a then Close l :: rest else Ask c :: Close l :: rest) o)).
  { intros c Hc Hne Ht. destruct (is_terminal r a) eqn:Hter.
    - apply (Hnew []); try done. right. exists ob. split; [done|]. by rewrite <-(terminal_done _ _ _ Hob).
    - apply (Hnew [Ask c]); try done.
      + by oks.
      + split; [|done]. intros b [= ->]. by destruct (Hne b).
      + left. cbn. rewrite Ht. by left. }
  destruct ob as [id s|id s|id s|id ? ? s|id ? ? up s|id ?|id ?]; try by destruct Hop.
  - apply Hone; try done. exists id. by exists (ORequest id s).
  - apply Hone; try done. exists id. by exists (OResolve id s).
  - apply (Hnew [Ask (StreamResult a Cancelled); Ask (FinishStream a)]); try done.
    + oks; exists id; by exists (OStream id s).
    + split; [by intros|]. split; [|done]. intros b [= ->]. right. by eexists.
    + left. by left.
  - apply Hone; try done. exists id. by exists (OConnect id send_window receive_window s).
  - apply Hone; try done. by exists (OTls id send_window receive_window up s), id, up.
Qed.

Lemma ready_active e i rest o k id a : Ready e i rest o → active (core o) k !! id = Some a → (id, a) ∈ handed (core o) ∧ keyed (registry e) a (table_of k) id.
Proof. intros Hr. apply (bo_active _ _ (re_books _ _ _ _ Hr)). Qed.
Lemma over_with_done e i rest o k id a :
  Ready e i rest o → active (core o) k !! id = Some a → over_with (registry e) o id → done_at (registry e) a.
Proof.
  intros Hr Ha (b & Hb & Hd). destruct (ready_active _ _ _ _ _ _ _ Hr Ha) as [_ Hk].
  destruct (proj1 (Forall_forall _ _) (bo_handed _ _ (re_books _ _ _ _ Hr)) _ Hb) as [t Hkb].
  by rewrite (keyed_unique _ _ _ _ _ _ (re_reg _ _ _ _ Hr) Hk Hkb).
Qed.

(** The backend is done with [id], whose operation has its result or goes to
    the new instructions. *)
Lemma part_keeps e i rest o k id new :
  Ready e i rest o → asks i = false → Forall (instr_ok (registry e) o) new → forallb calm new = true → finishes (registry e) nobody new →
  lists new = [] → carried i = [] → (∀ a, active (core o) k !! id = Some a → done_at (registry e) a ∨ a ∈ held new) →
  Keeps e o (set_todo (new ++ rest) (update_core (part k id) o)).
Proof.
  intros Hr Hi Hok Hc Hf Hl Hcar Ha. destruct (ready_rest _ _ _ _ Hr) as (_ & _ & _ & _ & Hn). apply (keeps_core e i); try done.
  - rewrite Hl. eapply NoDup_sub; [|exact Hn]. apply submseteq_app; [done|]. apply submseteq_app; [|done]. by apply submseteq_inserts_l.
  - apply part_core, books_core, Hr.
  - rewrite Hcar. intros b Hac Hnd [Hb|[Hs [(k' & id' & Hb)|Hb]]]; [by apply elem_of_nil in Hb| |right; split; [done|by right]].
    destruct (decide ((k', id') = (k, id))) as [[= -> ->]|Hne]; [destruct (Ha _ Hb); [done|by left]|].
    right. split; [done|]. left. exists k', id'. cbn. destruct (decide (k' = k)) as [->|]; [|done]. rewrite lookup_delete_ne; [done|congruence].
Qed.

Lemma cancels_keeps e k id l rest late wake o :
  Ready e (Cancels k (id :: l)) rest o → Keeps e o (run_instr late wake (Cancels k (id :: l)) rest (registry e) o).
Proof.
  intros Hr. cbn [run_instr]. eapply backend_keeps; [exact Hr| |by intros []]. intros u o1 Hr1 _ _. cbn zeta.
  destruct (ready_rest _ _ _ _ Hr1) as ([Hid Hl]%Forall_cons & _).
  assert (Hgo : ∀ finish, finish = [] ∨ (∃ a, k = Streams ∧ active (core o1) k !! id = Some a ∧ finish = [Ask (FinishStream a)]) →
    Keeps e o1 (set_todo (finish ++ Cancels k l :: rest) (update_core (part k id) o1))).
  { intros finish Hfin. assert (Hk : Keeps e o1 (set_todo ((finish ++ [Cancels k l]) ++ rest) (update_core (part k id) o1))); [|by rewrite <-app_assoc in Hk].
    eapply part_keeps; [exact Hr1|done| | | | |done|].
    - apply Forall_app. split; [|by oks]. destruct Hfin as [->|(a & -> & Ha & ->)]; [constructor|]. oks. exists id. apply (ready_active _ _ _ _ _ _ _ Hr1 Ha).
    - by destruct Hfin as [->|(a & -> & Ha & ->)].
    - apply finishes_app; [|quiet]. destruct Hfin as [->|(a & -> & Ha & ->)]; [done|]. split; [|done]. intros b [= <-]. left. by eapply over_with_done.
    - by destruct Hfin as [->|(a & -> & Ha & ->)].
    - intros a Ha. left. by eapply over_with_done. }
  destruct k; try (apply Hgo; by left). destruct (active (core o1) Streams !! id) as [a|] eqn:Ha; apply Hgo; [right; by exists a|by left].
Qed.

Lemma commit_keeps e k id c l rest late wake o :
  Ready e (Commit k ((id, c) :: l)) rest o → Keeps e o (run_instr late wake (Commit k ((id, c) :: l)) rest (registry e) o).
Proof.
  intros Hr. cbn [run_instr]. destruct (active (core o) k !! id) as [a|] eqn:Ha.
  - destruct (ready_active _ _ _ _ _ _ _ Hr Ha) as [_ Hk]. apply (part_keeps e _ rest o k id [Ask (complete k a c); Commit k l] Hr); try done.
    + oks. destruct k; by exists id.
    + destruct k; quiet.
    + intros b Hb. right. assert (b = a) as -> by congruence. destruct k; by left.
  - apply (keeps_new e _ rest o [Commit k l] Hr); try done; [by oks|by intros a' ?%elem_of_nil].
Qed.

Lemma collect_keeps e k l found rest late wake o :
  Ready e (Collect k l found) rest o → Keeps e o (run_instr late wake (Collect k l found) rest (registry e) o).
Proof.
  intros Hr. destruct (ready_rest _ _ _ _ Hr) as ([Hl Hfound] & _). destruct l as [|[id a] l]; cbn [run_instr].
  - apply keeps_progressed. apply (keeps_new e _ rest o [Cancels k found] Hr); try done; [by oks|by intros a' ?%elem_of_nil].
  - apply Forall_cons in Hl as [Hin Hl]. apply (keeps_new e _ rest o [Collect k l _] Hr); try done; [|by intros a' ?%elem_of_nil].
    oks. split; [done|]. destruct (is_terminal (registry e) a) eqn:Ht; [|done]. apply Forall_app. split; [done|]. apply Forall_singleton. exists a. split; [done|].
    destruct (proj1 (Forall_forall _ _) (bo_handed _ _ (re_books _ _ _ _ Hr)) _ Hin) as (t & x & Hx & _). exists x. split; [done|]. by rewrite <-(terminal_done _ _ _ Hx).
Qed.

Lemma shutdown_ok r o : stage_of o ≠ Serving → Forall (instr_ok r o) shutdown.
Proof. intros Hs. unfold shutdown, reap_cancelled, reap_terminal_streams. cbn. by oks. Qed.
Lemma drive_ok r o : may_drive (stage_of o) → Forall (instr_ok r o) drive.
Proof. intros Hs. unfold drive, reap_cancelled, reap_terminal_streams. cbn. by oks. Qed.

(** One pass of the loop, and how it ends. *)
Lemma end_drive_keeps e rest o late wake :
  Ready e EndDrive rest o → Keeps e o (run_instr late wake EndDrive rest (registry e) o).
Proof.
  intros Hr. destruct (ready_rest _ _ _ _ Hr) as ([Hm Hsp] & _). cbn [run_instr].
  assert (Hgo : Keeps e o (set_todo [CheckStopped] o)) by (eapply keeps_light; [exact Hr|..]; try done; by oks).
  destruct (drive_result o) as [[err|st]|]; try exact Hgo. eapply keeps_stage; [exact Hr|done| | | | |done].
  - apply Forall_app. split; [by oks|]. apply Forall_app. split; [by apply shutdown_ok|]. oks; [by left; left|]. by split; [left|].
  - quiet.
  - left. split; [exact (re_calling _ _ _ _ Hr)|]. eexists _, _. split; [done|]. by repeat constructor.
  - by intros [|].
Qed.
Lemma check_stopped_keeps e rest o late wake :
  Ready e CheckStopped rest o → (stage_of o = Serving ∨ stage_of o = Broken → Stops e) →
  Keeps e o (run_instr late wake CheckStopped rest (registry e) o).
Proof.
  intros Hr Hst. destruct (ready_rest _ _ _ _ Hr) as ([Hm Hsp] & _). cbn [run_instr].
  destruct (stopped (registry e)) eqn:Hs; [|eapply keeps_light; [exact Hr|..]; try done; by oks].
  eapply keeps_stage; [exact Hr|done| | | | |done].
  - apply Forall_app. split; [by apply shutdown_ok|by oks].
  - quiet.
  - unfold Places. cbn. destruct Hm as [Hm|[Hm|Hm]]; [apply (st_stopped _ (Hst (or_introl Hm)) Hs)|apply (st_stopped _ (Hst (or_intror Hm)) Hs)|].
    pose proof (re_places _ _ _ _ Hr) as Hp. unfold Places in Hp. by rewrite Hm in Hp.
  - by intros [|].
Qed.
Lemma end_stop_keeps e rest o late wake : Ready e EndStop rest o → Keeps e o (run_instr late wake EndStop rest (registry e) o).
Proof.
  intros Hr. destruct (ready_rest _ _ _ _ Hr) as ([Hm Hsp] & _). cbn [run_instr].
  destruct (shutdown_result o); (eapply keeps_light; [exact Hr|..]; try done); try quiet; oks; [by split; [right|]|by right].
Qed.
Lemma ended e i rest o : Ready e i rest o → has_failed (stage_of o) → stage_of o = Failed_all.
Proof. intros Hr [H|H]; [by destruct (re_stage _ _ _ _ Hr)|done]. Qed.
Lemma owner_return_keeps e i rest o late wake x :
  Ready e i rest o → i = Return x ∨ (∃ err, i = ReturnAfter err) → Keeps e o (run_instr late wake i rest (registry e) o).
Proof.
  intros Hr Hi. destruct (ready_rest _ _ _ _ Hr) as (Hok & _).
  destruct Hi as [-> |[err ->]]; cbn [run_instr]; eapply keeps_return; try exact Hr; try done.
  - by destruct x; destruct Hok.
  - destruct x; destruct Hok as [Hst Hsp]; [|by right]. destruct Hst as [Hst|Hst]; [left; by eapply ended|by right].
  - intros ->. by destruct Hok.
  - by destruct Hok.
  - destruct Hok as [Hst _]. left. by eapply ended.
Qed.
Lemma loop_keeps e i rest o late wake :
  Ready e i rest o → i = LoopHead ∨ i = WaitUntil ∨ (∃ b, i = EndManual b) → Keeps e o (run_instr late wake i rest (registry e) o).
Proof.
  intros Hr Hi. destruct (ready_rest _ _ _ _ Hr) as (Hok & Hrest & _ & Hheld & _).
  assert (Hcar : carried i = []) by (destruct Hi as [->|[->|[b ->]]]; done). assert (Hres : resets i = true) by (destruct Hi as [->|[->|[b ->]]]; done).
  assert (Hask : asks i = false) by (destruct Hi as [->|[->|[b ->]]]; done).
  specialize (Hheld Hres). pose proof (ready_finishes _ _ _ _ Hr (or_introl Hcar)) as Hfin.
  assert (Hlight : ∀ new, held new = [] → Forall (instr_ok (registry e) o) new → finishes (registry e) nobody new → Keeps e o (set_todo (new ++ rest) o)).
  { intros new Hn Hnew Hf. eapply keeps_light; [exact Hr|done|done| | |].
    - unfold held. rewrite map_app, concat_app. fold (held new) (held rest). by rewrite Hn, Hheld.
    - by apply Forall_app.
    - by apply finishes_app. }
  pose proof (drop_light _ _ _ _ Hr Hask Hcar) as Hdrop.
  destruct Hi as [->|[->|[b ->]]]; cbn [run_instr].
  - destruct Hok as [Hm Hsp]. destruct (transport_wait (core o)).
    + apply (Hlight (drive ++ [EndDrive])); [done| |quiet]. apply Forall_app. split; [by apply drive_ok|by oks].
    + apply (Hlight (WaitForSignal :: drive ++ [EndDrive])); [done| |quiet]. apply Forall_cons. split; [done|]. apply Forall_app. split; [by apply drive_ok|by oks].
  - destruct (signalled _ _); [|destruct late; [by apply keeps_result|by eapply keeps_here]].
    apply (Hlight (drive ++ [EndManual false])); [done| |quiet]. apply Forall_app. split; [by apply drive_ok|by oks].
  - destruct (_ && _); [|done]. apply (Hlight [WaitUntil]); [done|by oks|quiet].
Qed.

Lemma simple_keeps e i rest o new :
  Ready e i rest o → asks i = false → carried i = [] → Forall (instr_ok (registry e) o) new → forallb calm new = true → 
  finishes (registry e) nobody new → lists new = [] → Keeps e o (set_todo (new ++ rest) o).
Proof.
  intros Hr Hi Hc Hok Hcalm Hf Hl. eapply keeps_new; [exact Hr|done|done|done|done|rewrite Hl; apply submseteq_nil_l|].
  rewrite Hc. by intros a ?%elem_of_nil.
Qed.

(** What the owner asks of the backend besides. *)
Lemma poll_keeps e i rest o late wake :
  Ready e i rest o → i = WakeFailure ∨ i = EarlyResolves ∨ i = Poll ∨ (∃ l, i = PollAgain l) ∨ i = BackendShutdown →
  Keeps e o (run_instr late wake i rest (registry e) o).
Proof.
  intros Hr Hi. destruct Hi as [->|[->|[->|[[l ->]| ->]]]]; cbn [run_instr].
  - destruct wake; [by eapply drive_failed_keeps|by eapply drop_light].
  - eapply backend_keeps; [exact Hr| |intros; by eapply drive_failed_keeps]. intros l o1 Hr1 _ _.
    apply keeps_progressed. apply (simple_keeps e _ rest o1 [Commit Resolves l] Hr1); try done; by oks.
  - eapply backend_keeps; [exact Hr| |intros; by eapply drive_failed_keeps]. intros l o1 Hr1 _ _.
    apply (keeps_light e _ rest o1 (PollAgain l :: rest) Hr1); try done.
    + by apply (ready_rest _ _ _ _ Hr1).
    + oks. by apply (ready_rest _ _ _ _ Hr1).
    + apply (finishes_app _ _ [_]); [quiet|]. eapply ready_finishes; [done|by left].
  - eapply backend_keeps; [exact Hr| |intros; by eapply drive_failed_keeps]. intros l' o1 Hr1 _ _.
    apply keeps_progressed. apply (keeps_light e _ rest o1 ([WakeFailure; Commit Requests l; Commit Resolves l'] ++ rest) Hr1); try done.
    + by apply (ready_rest _ _ _ _ Hr1).
    + oks. by apply (ready_rest _ _ _ _ Hr1).
    + apply finishes_app; [quiet|]. eapply ready_finishes; [done|by left].
  - eapply backend_keeps; [exact Hr| |]; intros ? o1 Hr1; [intros _ _|]; apply keeps_shutdown; by eapply drop_light.
Qed.

Lemma cancel_rest_keeps e i rest o late wake k :
  Ready e i rest o → i = CancelRest k ∨ (∃ l, i = CancelKeys k l) → Keeps e o (run_instr late wake i rest (registry e) o).
Proof.
  intros Hr Hi. destruct (ready_rest _ _ _ _ Hr) as (Hok & _ & _ & _ & Hn).
  assert (Hs : stage_of o ≠ Serving) by (destruct Hi as [->|[l ->]]; done).
  destruct Hi as [->|[[|id l] ->]]; cbn [run_instr].
  - apply (simple_keeps e _ rest o [CancelKeys k _] Hr); try done; by oks.
  - apply (keeps_core e _ rest o (clear k (core o)) [] Hr); try done; [apply clear_core, books_core, Hr|].
    intros a _ _ [Ha|[? _]]; [by apply elem_of_nil in Ha|done].
  - eapply backend_keeps; [exact Hr| |by intros []]. intros ? o1 Hr1 Hs1 _.
    apply (simple_keeps e _ rest o1 [CancelKeys k l] Hr1); try done. oks. congruence.
Qed.

Lemma run_instr_keeps e i rest o late wake :
  Ready e i rest o → asks i = false → (∀ b, i ≠ TakeQueue b) → (stage_of o = Serving ∨ stage_of o = Broken → Stops e) →
  Keeps e o (run_instr late wake i rest (registry e) o).
Proof.
  intros Hr Hi Ht Hst. destruct (ready_rest _ _ _ _ Hr) as (Hok & _).
  destruct i as [| | | | |e1|e1|b| | | |b|l|k|k l found|k l| | |l|k l| |l|k|k l| |c]; try done.
  - apply loop_keeps; auto.
  - cbn [run_instr]. destruct (signalled _ _); [|by eapply keeps_here]. apply keeps_seen. by eapply drop_light.
  - by apply end_drive_keeps.
  - by apply check_stopped_keeps.
  - by apply end_stop_keeps.
  - eapply (owner_return_keeps _ _ _ _ _ _ None); eauto.
  - eapply owner_return_keeps; eauto.
  - apply loop_keeps; eauto.
  - apply loop_keeps; auto.
  - cbn [run_instr]. destruct (shutdown_result o); [by eapply drop_light|].
    apply (simple_keeps e _ rest o [Ask MarkStopped] Hr); try done; oks; by right.
  - apply poll_keeps; auto.
  - by destruct (Ht b).
  - destruct l as [|a l]; [by eapply drop_light|by apply dispatch_keeps].
  - cbn [run_instr]. apply (simple_keeps e _ rest o [Collect k _ []] Hr); try done. oks. split; [|constructor].
    apply Forall_forall. intros [id a] Hin%elem_of_map_to_list. exact (proj1 (ready_active _ _ _ _ _ _ _ Hr Hin)).
  - by apply collect_keeps.
  - destruct l as [|id l]; [by eapply drop_light|by apply cancels_keeps].
  - apply poll_keeps; auto.
  - apply poll_keeps; auto.
  - apply poll_keeps; eauto 10.
  - destruct l as [|[id c] l]; [by eapply drop_light|by apply commit_keeps].
  - cbn [run_instr]. apply keeps_result. by eapply drop_light.
  - destruct l as [|a l]; [by eapply drop_light|by apply close_keeps].
  - eapply cancel_rest_keeps; eauto.
  - eapply cancel_rest_keeps; eauto.
  - apply poll_keeps; auto 10.
Qed.

(** ** The owner's steps *)

Definition Drains (e : Engine) : Prop := Forall (Forall (λ x, x ≠ Drain)) (threads e).

(** Its call takes a step. *)
Lemma finished_books r o : Books r o → stage_of o = Failing → Forall no_failure (todo o) → Books r (set_stage Failed_all o).
Proof.
  intros [Hi Ht Hn Hq Hh Ha Hc Hkn Hg Hsp Hr] Hst Hno. split; try done.
  - cbn. apply Forall_forall. intros i Hin. pose proof (proj1 (Forall_forall _ _) Hno i Hin) as Hf. pose proof (proj1 (Forall_forall _ _) Hi i Hin) as Hok.
    unfold instr_ok, may_drive, has_failed in *. rewrite Hst in Hok. cbn.
    destruct i as [| | | | |e1|[e1|]|b| | | |[]|l|k|k l found|k l| | |l|k l| |l|k|k l| |[]]; try done; naive_solver.
  - intros _. by apply Hsp; left.
  - cbn. intros Hret. destruct (Hr Hret) as (? & ? & ? & [?|?] & ?); congruence.
Qed.
Lemma covered_moves e i x rest' cs r' o a :
  calling o = Some i → threads e !! i = Some (x :: rest') → outcome_of x (registry e) cs r' → in_call e o a →
  done_at r' a ∨ in_call (mkEngine r' (<[i := cs ++ rest']> (threads e))) o a.
Proof.
  intros Hc Hi Ho (j & l & Hj & Hl & Hcov). assert (j = i) as -> by congruence. assert (l = x :: rest') as -> by congruence.
  apply Exists_cons in Hcov as [Hcov|Hcov]; [left; by apply (oc_covers _ _ _ _ Ho)|right].
  exists i, (cs ++ rest'). split_and!; [done| |apply Exists_app; by right]. cbn. apply list_lookup_insert_eq. by eapply lookup_lt_Some.
Qed.
Lemma all_placed_call e i x rest' cs r' o :
  calling o = Some i → threads e !! i = Some (x :: rest') → x ≠ Drain → outcome_of x (registry e) cs r' →
  all_placed e o → all_placed (mkEngine r' (<[i := cs ++ rest']> (threads e))) o.
Proof.
  intros Hc Hi Hx Ho Hp a y' Ha Hop. pose proof (effect_follows _ _ _ (oc_effect _ _ _ _ Ho) Hx) as Hf. cbn in Ha.
  destruct (fo_new _ _ Hf a y' Ha Hop) as [Hq|(y & Hy & Hopy & Hd)]; [right; by left|].
  destruct (Hp a y Hy Hopy) as [?|[Hq|[Hh|[Hin|Hb]]]]; [left; auto| | | |].
  - right; left. destruct (fo_queue _ _ Hf) as (l & Hq' & _). cbn. rewrite Hq'. apply elem_of_app. by left.
  - right; right; by left.
  - destruct (covered_moves _ _ _ _ _ _ _ _ Hc Hi Ho Hin) as [(z & Hz & ?)|?]; [left; congruence|right; right; right; by left].
  - right; right; right; by right.
Qed.

Lemma call_inv c s i x rest' e' cs r' :
  Inv c s → calling (owner s) = Some i → threads (engine s) !! i = Some (x :: rest') → EI c e' →
  outcome_of x (registry (engine s)) cs r' → stepped (Step i) (engine s) e' → e' = mkEngine r' (<[i := cs ++ rest']> (threads (engine s))) →
  Forall (λ x, submission x = false) (cs ++ rest') →
  Inv c (mkSystem e' (match x with FailAll _ => if bool_decide (stage_of (owner s) = Failing) then set_stage Failed_all (owner s) else owner s | _ => owner s end)).
Proof.
  intros [He Hr Hd Hst Hb Hp Hfin Hcl _] Hc Hi Hei Ho Hstep -> Hcalm. pose proof (proj1 (Forall_lookup _ _) Hd _ _ Hi) as [Hx _]%Forall_cons.
  pose proof (oc_effect _ _ _ _ Ho) as Hef. pose proof (effect_follows _ _ _ Hef Hx) as Hfo.
  set (e' := mkEngine r' _) in *. set (o' := match x with FailAll _ => _ | _ => _ end).
  assert (Ho' : stage_of (owner s) = Failing ∧ (∃ err, x = FailAll err ∧ rest' = []) ∧ Forall no_failure (todo (owner s)) ∧ o' = set_stage Failed_all (owner s) ∨
                stage_of (owner s) ≠ Failing ∧ o' = owner s).
  { unfold Places in Hp. subst o'. destruct (decide (stage_of (owner s) = Failing)) as [Hs|Hs].
    - left. rewrite Hs in *. destruct Hp as [[? _]|(j & err & Hj & Hjs & Hno)]; [congruence|]. assert (j = i) as -> by congruence.
      rewrite Hi in Hjs. injection Hjs as -> ->. rewrite bool_decide_true by done. split_and!; eauto.
    - right. split; [done|]. destruct x; try done. by rewrite bool_decide_false. }
  assert (Hsame : core o' = core (owner s) ∧ todo o' = todo (owner s) ∧ calling o' = calling (owner s)) by (destruct Ho' as [(_ & _ & _ & ->)|[_ ->]]; done).
  destruct Hsame as (Hcore & Htodo & Hcall). split; cbn [engine owner].
  - done.
  - by eapply stepped_reach.
  - eapply stepped_drain; [|exact Hstep|exact Hd]; done.
  - intros Hs. eapply stepped_stops; [|exact Hstep|]; [done|]. apply Hst. destruct Ho' as [(_ & _ & _ & ->)|[_ ->]]; [by destruct Hs|done].
  - pose proof (books_follows _ _ _ Hb Hfo) as Hb'. destruct Ho' as [(Hs & _ & Hno & ->)|[_ ->]]; [by apply finished_books|done].
  - destruct Ho' as [(Hs & (err & -> & ->) & Hno & ->)|[Hs ->]].
    + intros a y Ha Hop. destruct (oc_sweeps _ _ _ _ Ho (or_intror (ex_intro _ err eq_refl)) a y Ha Hop) as [?|Hcov]; [by left|].
      right; right; right; left. exists i, (cs ++ []). split_and!; [done| |by rewrite app_nil_r]. cbn. apply list_lookup_insert_eq. by eapply lookup_lt_Some.
    + unfold Places in *. destruct (stage_of (owner s)); try done; [by eapply all_placed_call..|].
      destruct Hp as [Hl Hdone]. split; [by apply (effect_stopping _ _ _ Hef)|by eapply effect_all_done].
  - rewrite Htodo. eapply finishes_mono, Hfin; [intros a; by apply follows_done|]. intros a Hin.
    destruct (covered_moves _ _ _ _ _ _ _ _ Hc Hi Ho Hin) as [?|(j & l & Hj & Hl & Hcov)]; [by left|right]. exists j, l. by rewrite Hcall.
  - rewrite Hcall. intros j Hj. cbn. rewrite length_insert. auto.
  - rewrite Hcall. intros j l Hj. assert (j = i) as -> by congruence. cbn. rewrite list_lookup_insert_eq by (by eapply lookup_lt_Some). by intros [= <-].
Qed.

(** A region that submits nothing returns. *)
Lemma step_run c e i x rest' :
  EI c e → ER e → threads e !! i = Some (x :: rest') → submission x = false →
  ∃ cs r', step (Step i) e = Some (mkEngine r' (<[i := cs ++ rest']> (threads e))) ∧ EI c (mkEngine r' (<[i := cs ++ rest']> (threads e))) ∧
    outcome_of x (registry e) cs r' ∧ stepped (Step i) e (mkEngine r' (<[i := cs ++ rest']> (threads e))) ∧ Forall (below x) cs.
Proof.
  intros He Hr Hi Hx. destruct (step (Step i) e) as [e'|] eqn:Hs.
  2: { apply (step_blocked _ _ _ He) in Hs. cbn in Hs. rewrite Hi in Hs. apply may_stick_submission in Hs. congruence. }
  pose proof (step_spec _ _ _ _ He Hs) as He'. pose proof (step_stepped _ _ _ _ He He' Hr Hs) as Hstep.
  cbn [step] in Hs. rewrite Hi in Hs. destruct (run_cont x (registry e)) as [[cs| | |] r'] eqn:Hrun; simplify_eq. exists cs, r'. destruct Hr as [Hreg Hcs].
  pose proof (proj1 (Forall_lookup _ _) (ei_threads _ _ He) _ _ Hi) as [[Hpos _] _]%Forall_cons.
  pose proof (proj1 (Forall_lookup _ _) Hcs _ _ Hi) as [Hc _]%Forall_cons.
  split_and!; try done; [apply run_cont_outcome; try done; [apply He|apply He']|].
  pose proof (run_cont_below x (registry e)) as Hb. unfold pwp in Hb. by rewrite Hrun in Hb.
Qed.

Lemma own_call c s i late wake :
  Inv c s → calling (owner s) = Some i → ∃ s', own late wake s = Some s' ∧ Inv c s'.
Proof.
  intros Hinv Hc. destruct (Hinv) as [He Hr Hd Hst Hb Hp Hfin Hcl Hcalm]. unfold own. rewrite Hc.
  assert (Hdone : (∀ l, threads (engine s) !! i = Some l → l = []) → Inv c (mkSystem (engine s) (set_calling None (owner s)))).
  { intros Hl. assert (Hno : ∀ a, ¬ in_call (engine s) (owner s) a).
    { intros a (j & l & Hj & Hlj & Hcov). assert (j = i) as -> by congruence. rewrite (Hl _ Hlj) in Hcov. by apply Exists_nil in Hcov. }
    split; try done; cbn [engine owner].
    - destruct Hb. split; try done. cbn. intros Hret. destruct (bo_returned0 Hret) as (_ & ? & _). congruence.
    - unfold Places in *. assert (Hall : all_placed (engine s) (owner s) → all_placed (engine s) (set_calling None (owner s))).
      { intros Hpl a y Ha Hop. destruct (Hpl a y Ha Hop) as [?|[?|[?|[Hin|?]]]]; [by left|right; by left|right; right; by left|by destruct (Hno a)|right; right; right; by right]. }
      cbn. destruct (stage_of (owner s)); auto. destruct Hp as [[? _]|(j & err & Hj & Hjs & _)]; [congruence|].
      assert (j = i) as -> by congruence. by apply Hl in Hjs.
    - eapply finishes_mono, Hfin; [done|]. intros a Hin. by destruct (Hno a). }
  destruct (threads (engine s) !! i) as [[|x rest']|] eqn:Hi; [eexists; split; [done|apply Hdone; congruence]| |eexists; split; [done|apply Hdone; congruence]].
  pose proof (Hcalm _ _ Hc Hi) as [Hx Hrest]%Forall_cons.
  destruct (step_run _ _ _ _ _ He Hr Hi Hx) as (cs & r' & Hs & Hei & Ho & Hstep & Hb'). rewrite Hs. cbn [mbind option_bind]. eexists. split; [done|].
  eapply call_inv; try done. apply Forall_app. split; [|done]. eapply Forall_impl; [exact Hb'|]. by intros y [].
Qed.

(** It makes a call. *)
Lemma target_covers a c : a ∈ target c → covers a c.
Proof. destruct c; cbn; intros Ha; try (by apply elem_of_nil in Ha); by apply list_elem_of_singleton in Ha. Qed.
Lemma ask_allowed r o c : instr_ok r o (Ask c) →
  is_call c = true ∧ c ≠ Drain ∧ (c = MarkStopped → stage_of o ≠ Serving ∧ stage_of o ≠ Broken).
Proof. intros Hok. destruct c; try done; (split_and!; [done|done|]); try done. intros _. destruct Hok as [[Hs|Hs]|Hs]; by rewrite Hs. Qed.
Lemma ask_possible r o c :
  instr_ok r o (Ask c) → (∀ a, c = FinishStream a → done_at r a) → possible (heap r) c = true.
Proof.
  assert (Hk : ∀ a t id, keyed r a t id → ∃ x, heap r !! a = Some x ∧ op_key x = Some (t, id, false)) by done.
  intros Hok Hf. destruct c; try done; cbn in Hok |- *.
  - destruct Hok as [id (x & -> & Hx)]. by destruct x.
  - destruct Hok as [id (x & -> & Hx)]. by destruct x.
  - destruct Hok as [id (x & -> & Hx)]. by destruct x.
  - destruct Hok as (x & id & up & -> & Hx). by destruct x.
  - destruct Hok as [id (x & -> & Hx)]. by destruct x.
  - destruct Hok as [id (x & Hx & Hkx)], (Hf _ eq_refl) as (y & Hy & Hd). rewrite Hx in Hy |- *. injection Hy as <-. by destruct x.
Qed.

Lemma own_ask c s x rest late wake :
  Inv c s → calling (owner s) = None → todo (owner s) = Ask x :: rest →
  ∃ s', own late wake s = Some s' ∧ Inv c s'.
Proof.
  intros [He Hr Hd Hst Hb Hp Hfin Hcl Hcalm] Hc Htodo. set (e := engine s) in *. set (o := owner s) in *.
  pose proof (bo_instrs _ _ Hb) as Hi. rewrite Htodo in Hi. apply Forall_cons in Hi as [Hok Hrest].
  destruct (ask_allowed _ _ _ Hok) as (Hcall & Hnd & Hnm). rewrite Htodo in Hfin. destruct Hfin as [Hhead Hfin].
  assert (Hpos : possible (heap (registry e)) x = true).
  { eapply ask_possible; [exact Hok|]. intros a ->. destruct (Hhead a eq_refl) as [?|(i & l & Hi & _)]; [done|congruence]. }
  destruct (step (Call x) e) as [e'|] eqn:He'; [|by apply (step_blocked _ _ _ He) in He'].
  pose proof (step_spec _ _ _ _ He He') as Hei. pose proof (step_stepped _ _ _ _ He Hei Hr He') as Hstep.
  unfold own. fold e o. rewrite Hc, Htodo, Hpos, He'. cbn [mbind option_bind]. eexists. split; [done|].
  cbn [step] in He'. rewrite Hcall, Hpos in He'. injection He' as <-. set (e' := mkEngine _ _) in *. set (o' := set_calling _ _).
  assert (Hin : ∀ a, covers a x → in_call e' o' a).
  { intros a Ha. exists (length (threads e)), [x]. split_and!; [done|by apply list_lookup_middle|by left]. }
  split; cbn [engine owner].
  - done.
  - by eapply stepped_reach.
  - eapply stepped_drain; [|exact Hstep|exact Hd]. congruence.
  - intros Hs. eapply stepped_stops; [|exact Hstep|by apply Hst]. intros [= ->]. destruct (Hnm eq_refl). destruct Hs; done.
  - destruct Hb as [Hi Ht Hn Hq Hh Ha Hct Hkn Hg Hsp Hret]. rewrite Htodo in *. split; try done; [by destruct Ht|].
    cbn. intros Hx. by destruct (Hret Hx).
  - assert (Hall : all_placed e o → all_placed e' o').
    { intros Hpl a y Ha Hop. destruct (Hpl a y Ha Hop) as [?|[?|[Hh|[(i & l & Hi & _)|?]]]]; [by left|right; by left| |congruence|do 4 right; done].
      rewrite Htodo in Hh. unfold held in Hh. cbn in Hh. apply elem_of_app in Hh as [Hh|Hh]; [|right; right; by left].
      right; right; right; left. by apply Hin, target_covers. }
    unfold Places in *. cbn. destruct (stage_of o); auto. destruct Hp as [[_ (err & l & Hl & Hno)]|(i & err & Hi & _)]; [|congruence].
    rewrite Htodo in Hl. injection Hl as -> ->. right. exists (length (threads e)), err. split_and!; [done|by apply list_lookup_middle|done].
  - cbn. eapply finishes_mono, Hfin; [done|]. intros a [y [= ->]]. right. by apply Hin.
  - cbn. intros i [= <-]. rewrite length_app. cbn. lia.
  - cbn. intros i l [= <-]. rewrite list_lookup_middle by done. intros [= <-]. apply Forall_singleton. by destruct x.
Qed.

(** It takes the command queue. *)
Lemma own_take c s closing rest late wake :
  Inv c s → calling (owner s) = None → todo (owner s) = TakeQueue closing :: rest →
  ∃ s', own late wake s = Some s' ∧ Inv c s'.
Proof.
  intros [He Hr Hd Hst Hb Hp Hfin Hcl Hcalm] Hc Htodo. set (e := engine s) in *. set (o := owner s) in *.
  destruct (step (Call Drain) e) as [e1|] eqn:He1; [|done]. pose proof (step_spec _ _ _ _ He He1) as Hei1.
  pose proof (step_stepped _ _ _ _ He Hei1 Hr He1) as Hs1. pose proof (stepped_reach _ _ _ Hs1 Hr) as Hr1.
  assert (Hi1 : threads e1 !! length (threads e) = Some [Drain]) by (cbn in He1; injection He1 as <-; by apply list_lookup_middle).
  destruct (step_run _ _ _ _ _ Hei1 Hr1 Hi1 eq_refl) as (cs & r2 & He2 & Hei2 & _ & Hs2 & _). revert He2 Hei2 Hs2. generalize (mkEngine r2 (<[length (threads e) := cs ++ []]> (threads e1))). clear cs r2. intros e2 He2 Hei2 Hs2.
  unfold own. fold e o. rewrite Hc, Htodo, He1. cbn [mbind option_bind]. rewrite He2. cbn [option_bind]. eexists. split; [done|].
  cbn in He1. injection He1 as <-. set (e1 := mkEngine _ _) in *.
  assert (He2' : e2 = mkEngine (drain (registry e)).2 (threads e ++ [[]])).
  { cbn [step threads e1] in He2. rewrite list_lookup_middle in He2 by done. cbn in He2. injection He2 as <-. f_equal. by rewrite insert_app_r_alt, Nat.sub_diag by done. }
  set (l := queue (registry e)).
  set (o' := if closing then _ else _). assert (Ho' : ∃ b i, lists_of i = l ∧ carried i = l ∧ instr_ok (registry e2) o i ∧ resets i = false ∧ asks i = false ∧
    o' = set_progressed b (set_todo (i :: rest) o)).
  { pose proof (bo_instrs _ _ Hb) as Hi. rewrite Htodo in Hi. apply Forall_cons in Hi as [Hok _]. pose proof (bo_queue _ _ Hb) as Hq. subst e2 o'. destruct closing.
    - exists (progressed o), (Close l). by split_and!.
    - eexists _, (Dispatch l). by split_and!. }
  destruct Ho' as (b & i & Hl & Hcar & Hok & Hres & Hasks & ->). 
  assert (Hheap : heap (registry e2) = heap (registry e)) by (by subst e2).
  split; cbn [engine owner].
  - done.
  - by eapply stepped_reach.
  - subst e2. apply Forall_app. split; [done|]. apply Forall_singleton. constructor.
  - intros Hs. eapply stepped_stops; [|exact Hs2|]; [done|]. eapply stepped_stops; [|exact Hs1|by apply Hst]. done.
  - destruct Hb as [Hi Ht Hn Hq Hh Ha Hct Hkn Hg Hsp Hret]. rewrite Htodo in *. subst e2. split; try done.
    + cbn. apply Forall_cons. split; [done|]. by apply Forall_cons in Hi as [_ ?].
    + cbn. split; [by rewrite Hres|by destruct Ht].
    + cbn in Hn |- *. by rewrite Hl, <-app_assoc.
    + cbn. intros Hx. by destruct (Hret Hx).
  - assert (Hall : all_placed e o → all_placed e2 (set_progressed b (set_todo (i :: rest) o))).
    { intros Hpl a y Ha Hop. rewrite Hheap in Ha. destruct (Hpl a y Ha Hop) as [?|[Hq|[Hh|[(j & k & Hj & _)|?]]]]; [by left| | |congruence|do 4 right; done].
      - right; right; left. cbn. apply elem_of_app. left. by rewrite Hcar.
      - right; right; left. cbn. rewrite Htodo in Hh. apply elem_of_app. by right. }
    unfold Places in *. cbn. destruct (stage_of o); auto; [|subst e2; exact Hp].
    destruct Hp as [[_ (err & k & Hk & _)]|(j & err & Hj & _)]; congruence.
  - cbn. rewrite Htodo in Hfin. destruct Hfin as [_ Hfin]. split; [by intros a ->|].
    eapply finishes_mono, Hfin; [intros a (y & Hy & ?); exists y; by rewrite Hheap|]. by intros a [y [=]].
  - cbn. congruence.
  - cbn. congruence.
Qed.

Lemma own_inv c s late wake : Inv c s → ∃ s', own late wake s = Some s' ∧ Inv c s'.
Proof.
  intros Hinv. destruct (calling (owner s)) as [i|] eqn:Hc; [by eapply own_call|].
  destruct (todo (owner s)) as [|i rest] eqn:Htodo; [unfold own; rewrite Hc, Htodo; by eexists|].
  destruct (decide (asks i = true)) as [Ha|Ha%not_true_is_false].
  { assert (∃ x, i = Ask x) as [x ->] by (destruct i; try done; by eexists). by eapply own_ask. }
  assert (Hgo : (∃ b, i = TakeQueue b) ∨ ∀ b, i ≠ TakeQueue b) by (destruct i; try (by right); left; by eexists).
  destruct Hgo as [[b ->]|Hnt]; [by eapply own_take|].
  destruct (Hinv) as [He Hr Hd Hst Hb Hp Hfin Hcl Hcalm].
  assert (Hready : Ready (engine s) i rest (owner s)).
  { split; try done; [|eapply finishes_mono, Hfin; [done|]|apply Hr].
    - intros Hs. unfold Places in Hp. rewrite Hs in Hp. destruct Hp as [[_ (err & l & Hl & _)]|(j & err & Hj & _)]; [|congruence]. rewrite Htodo in Hl. by injection Hl as ->.
    - intros a (j & l & Hj & _). congruence. }
  assert (Hown : own late wake s = Some (mkSystem (engine s) (run_instr late wake i rest (registry (engine s)) (owner s)))).
  { unfold own. rewrite Hc, Htodo. destruct i; try done. by destruct (Hnt closing). }
  rewrite Hown. eexists. split; [done|]. destruct (run_instr_keeps _ _ _ _ late wake Hready Ha Hnt Hst) as [Hb' Hp' Hc' Hst' Hf'].
  split; cbn [engine owner]; try done; [by intros Hs; apply Hst, Hst'|by eapply finishes_mono, Hf'; [|intros ? []]|..]; intros j; by rewrite Hc'.
Qed.

(** The application asks. *)
Lemma begin_inv c s q : Inv c s → Inv c (begin q s).
Proof.
  intros Hinv. destruct (Hinv) as [He Hr Hd Hst Hb Hp Hfin Hcl Hcalm]. unfold begin.
  destruct (negb (spawned (owner s))) eqn:Hsp; [|done]. apply negb_true_iff in Hsp. 
  destruct (bool_decide_reflect (todo (owner s) = [])) as [Htodo|]; [|done]. destruct (bool_decide_reflect (calling (owner s) = None)) as [Hc|]; [|done]. cbn.
  assert (Hret : returned (owner s) = None).
  { destruct (returned (owner s)) eqn:Hx; [|done]. destruct (bo_returned _ _ Hb) as (_ & _ & ? & _); [by rewrite Hx|]. congruence. }
  assert (Hm : may_drive (stage_of (owner s))).
  { unfold may_drive. destruct (stage_of (owner s)) eqn:Hs; auto; exfalso; assert (spawned (owner s) = true) by (apply (bo_failed _ _ Hb); rewrite Hs; by constructor); congruence. }
  pose proof (bo_nodup _ _ Hb) as Hn. rewrite Htodo in Hn.
  destruct q; [|destruct (stopped _) eqn:Hstop; [|done]]; (split; try done; cbn [engine owner]).
  - split; try apply Hb; try done; [|by cbn; rewrite Hret; intros []]. apply (Forall_app _ drive [EndManual true]). split; [by apply drive_ok|by apply Forall_singleton].
  - unfold Places in *. cbn. assert (Hall : all_placed (engine s) (owner s) → all_placed (engine s) (set_seen (generation (registry (engine s))) (set_todo (drive ++ [EndManual true]) (owner s)))).
    { intros H a y Ha Hop. destruct (H a y Ha Hop) as [?|[?|[Hh|[?|?]]]]; [by left|right; by left| |do 3 right; by left|do 4 right; done].
      rewrite Htodo in Hh. by apply elem_of_nil in Hh. }
    destruct Hm as [Hs|[Hs|Hs]]; rewrite Hs in *; auto.
  - by intros [|].
  - split; try apply Hb; try done; [|by intros [|]|by cbn; rewrite Hret; intros []]. apply (Forall_app _ shutdown [EndManualStop]). split; [by apply shutdown_ok|by apply Forall_singleton].
  - unfold Places in *. cbn. destruct Hm as [Hs|[Hs|Hs]]; [apply (st_stopped _ (Hst (or_introl Hs)) Hstop)|apply (st_stopped _ (Hst (or_intror Hs)) Hstop)|by rewrite Hs in Hp].
Qed.

Lemma owner_start_inv c spawned b : config_ok c → Inv c (start spawned c b).
Proof.
  intros Hc. split; cbn [engine owner start].
  - by apply initial_books.
  - split; [split; by intros|constructor].
  - constructor.
  - intros _. split; [constructor|constructor|done].
  - split; cbn; try done.
    + destruct spawned; [|constructor]. apply Forall_singleton. split; [by left|done].
    + by destruct spawned.
    + destruct spawned; constructor.
    + by intros [[=]|[=]].
  - by intros a x Ha.
  - by destruct spawned.
  - done.
  - done.
Qed.

Lemma act_inv c s x s' : Inv c s → act_step x s = Some s' → Inv c s'.
Proof.
  intros Hinv. destruct x as [m|late wake|q]; cbn [act_step].
  - by apply other_inv.
  - intros Hs. destruct (own_inv c s late wake Hinv) as (s1 & Hs1 & ?). by simplify_eq.
  - intros [= <-]. by apply begin_inv.
Qed.
(** Only a submission of another thread can stick. *)
Lemma act_blocked c s x : Inv c s → act_step x s = None → ∃ m, x = Other m ∧ blocked m (engine s).
Proof.
  intros Hinv. destruct x as [m|late wake|q]; cbn [act_step]; [|by destruct (own_inv c s late wake Hinv) as (s1 & -> & _)|done].
  destruct (allowed m (owner s)); [|done]. intros Hs. exists m. split; [done|].
  apply (step_blocked _ _ _ (iv_engine _ _ Hinv)). by destruct (step m (engine s)).
Qed.

Lemma acts_inv_from c s xs s' : Inv c s → run_acts xs s = Some s' → Inv c s'.
Proof.
  revert s. induction xs as [|x xs IH]; intros s Hs; cbn [run_acts]; [by intros [= <-]|].
  destruct (act_step x s) as [s1|] eqn:Hs1; [|done]. cbn. apply IH. by eapply act_inv.
Qed.
Lemma acts_inv c spawned b xs s : config_ok c → run_acts xs (start spawned c b) = Some s → Inv c s.
Proof. intros Hc. by apply acts_inv_from, owner_start_inv. Qed.

End proofs.
