(* ===== verification/ReactorCoreRuns.v ===== *)
(** * The engine's owner, run to its end

    What the invariant of [ReactorCoreProofs.v] says of every run, and that
    the owner of a stopped engine comes to its end whatever the other threads
    do meanwhile, if the calls of its backend return. *)

From stdpp Require Import base list gmap strings.
From Stdlib Require Import ZArith Lia.
From S2P Require Import Prelude Errors BodyBudget Request TcpIo Registry RegistryProofs RegistryCalls RegistryRuns RegistryReach ReactorCore ReactorCoreProofs.

Import Core.
#[local] Arguments len : simpl never.
#[local] Arguments drop_permits : simpl never.

Section proofs.
Context {tgt : Target} {bk : Backend}.

(** ** The owner of a stopped engine *)

Definition returns {E A} (m : M backend E A) : Prop := ∀ b, (m b).1 ≠ Diverge.
(** Every call of the backend returns, with a result, an error or a panic. *)
Definition prompt : Prop :=
  (∀ id, returns (submit id)) ∧ (∀ id, returns (submit_stream id)) ∧ (∀ id, returns (submit_resolve id)) ∧
  (∀ a, returns (submit_tcp_connect a)) ∧ (∀ a, returns (submit_tls_connect a)) ∧ (∀ a, returns (submit_tls_upgrade a)) ∧
  (∀ id, returns (backend_cancel id)) ∧ returns backend_poll ∧ returns poll_resolves ∧ returns backend_shutdown.

(** The owner reaches [P] after some number of its steps, however many moves
    the other threads make before each. A thread that is caught in a call which
    does not return ([blocked]) is not among them: it may keep the lock of the
    registry. *)
Inductive eventually (P : System → Prop) : System → Prop :=
| eventually_now s : P s → eventually P s
| eventually_step s :
    (∀ ms s1 late wake, run_acts (map Other ms) s = Some s1 → ∃ s2, own late wake s1 = Some s2 ∧ eventually P s2) →
    eventually P s.

(** What the other threads leave alone. *)
Lemma effect_stopped c r r' : effect c r r' → stopped r = true → stopped r' = true.
Proof. intros [[Hp|(r1 & Hp & Hg)]|_ ->|_ ->] Hs; [by rewrite (pl_stopped _ _ Hp)|by rewrite (gr_stopped _ _ Hg), (pl_stopped _ _ Hp)|done|done]. Qed.
Lemma stepped_stopped m e e' : stepped m e e' → stopped (registry e) = true → stopped (registry e') = true.
Proof. intros [-> |x -> _ _ ->|i x rest cs r' _ _ _ Ho ->] Hs; [done|done|]. eapply effect_stopped; [apply Ho|done]. Qed.

Lemma other_keeps c s m s1 :
  Inv c s → act_step (Other m) s = Some s1 → stopped (registry (engine s)) = true →
  owner s1 = owner s ∧ stopped (registry (engine s1)) = true ∧
  ∀ i cs, calling (owner s) = Some i → threads (engine s) !! i = Some cs → threads (engine s1) !! i = Some cs.
Proof.
  intros Hinv Hs Hst. cbn in Hs. destruct (allowed m (owner s)) eqn:Ha; simplify_eq; [|done].
  destruct (step m (engine s)) as [e'|] eqn:He'; [|done]. cbn in Hs. injection Hs as <-. pose proof (step_spec _ _ _ _ (iv_engine _ _ Hinv) He') as Hei.
  pose proof (step_stepped _ _ _ _ (iv_engine _ _ Hinv) Hei (iv_reach _ _ Hinv) He') as Hstep. split_and!; [done|by eapply stepped_stopped|].
  destruct Hstep as [-> |x -> ? ? -> |i x rest cs r' -> Hi ? Ho ->]; intros j l Hc Hj; [done|cbn; by apply lookup_app_l_Some|].
  cbn in Ha |- *. rewrite list_lookup_insert_ne; [done|]. intros ->. by rewrite bool_decide_true in Ha.
Qed.
Lemma others_keep c s ms s1 :
  Inv c s → run_acts (map Other ms) s = Some s1 → stopped (registry (engine s)) = true →
  Inv c s1 ∧ owner s1 = owner s ∧ stopped (registry (engine s1)) = true ∧
  ∀ i cs, calling (owner s) = Some i → threads (engine s) !! i = Some cs → threads (engine s1) !! i = Some cs.
Proof.
  revert s. induction ms as [|m ms IH]; intros s Hinv Hs Hst; cbn [map run_acts] in *; [by injection Hs as ->|].
  destruct (act_step (Other m) s) as [s0|] eqn:Hs0; [|done]. cbn [mbind option_bind] in Hs. pose proof (act_inv _ _ _ _ Hinv Hs0) as Hinv0.
  destruct (other_keeps _ _ _ _ Hinv Hs0 Hst) as (Ho & Hst0 & Hth).
  destruct (IH _ Hinv0 Hs Hst0) as (Hinv1 & Ho1 & Hst1 & Hth1). split_and!; [done|congruence|done|]. rewrite <-Ho in Hth |- *. eauto.
Qed.

Record Ending (c : Config) (s : System) (l : list instr) : Prop := {
  en_inv : Inv c s;
  en_stopped : stopped (registry (engine s)) = true;
  en_todo : todo (owner s) = l;
  en_spawned : spawned (owner s) = true
}.

Lemma step_stopped c m e e' : EI c e → ER e → step m e = Some e' → stopped (registry e) = true → stopped (registry e') = true.
Proof.
  intros He Hr Hs Hst. eapply stepped_stopped; [|exact Hst]. eapply step_stepped; try done. by eapply step_spec.
Qed.
Lemma own_stopped c s late wake s2 :
  Inv c s → own late wake s = Some s2 → stopped (registry (engine s)) = true → stopped (registry (engine s2)) = true.
Proof.
  intros Hinv Hs Hst. pose proof (iv_engine _ _ Hinv) as He. pose proof (iv_reach _ _ Hinv) as Hr. unfold own in Hs.
  destruct (calling (owner s)) as [i|] eqn:Hc.
  - destruct (threads (engine s) !! i) as [[|x l]|] eqn:Hi; try by simplify_eq.
    destruct (step (Step i) (engine s)) as [e'|] eqn:He'; [|done]. cbn in Hs. injection Hs as <-. by apply (step_stopped c (Step i) (engine s)).
  - destruct (todo (owner s)) as [|i rest] eqn:Ht; [by simplify_eq|].
    destruct i; try (by simplify_eq).
    + destruct (step (Call Drain) (engine s)) as [e1|] eqn:He1; [|done]. cbn [mbind option_bind] in Hs.
      destruct (step (Step _) e1) as [e2|] eqn:He2; [|done]. cbn in Hs. injection Hs as <-. cbn in He1. injection He1 as <-. cbn in He2.
      rewrite list_lookup_middle in He2 by done. cbn in He2. by injection He2 as <-.
    + destruct (possible _ _); [|done]. destruct (step (Call c0) (engine s)) as [e'|] eqn:He'; [|done]. cbn in Hs. injection Hs as <-. by apply (step_stopped c (Call c0) (engine s)).
Qed.

(** One step of the owner, and it goes on from there. *)
Lemma eventually_own c P s l :
  Ending c s l →
  (∀ s1 late wake s2, Ending c s1 l → owner s1 = owner s →
     (∀ i cs, calling (owner s) = Some i → threads (engine s) !! i = Some cs → threads (engine s1) !! i = Some cs) →
     own late wake s1 = Some s2 → Inv c s2 → stopped (registry (engine s2)) = true → eventually P s2) →
  eventually P s.
Proof.
  intros [Hinv Hst Ht Hsp] Hgo. apply eventually_step. intros ms s1 late wake Hs1.
  destruct (others_keep c s ms s1 Hinv) as (Hinv1 & Ho1 & Hst1 & Hth1); [done|done|].
  destruct (own_inv c s1 late wake Hinv1) as (s2 & Hs2 & Hinv2). exists s2. split; [done|].
  apply (Hgo s1 late wake s2); try done; [split; [done|done|congruence..]|]. exact (own_stopped _ _ _ _ _ Hinv1 Hs2 Hst1).
Qed.

(** ** What an instruction leads to *)

Definition panic_list : list instr := [Ask (FailAll reactor_panicked); Ask MarkStopped; Return (Some reactor_panicked)].
Definition failed_list (e : Error) : list instr := [Ask (FailAll e)] ++ shutdown ++ [Ask MarkStopped; ReturnAfter e].

(** It can skip the rest of [drive]. *)
Definition fails (i : instr) : bool := match i with WakeFailure | EarlyResolves | Poll | PollAgain _ => true | _ => false end.
(** It does its part and the rest follows. *)
Definition plain_instr (i : instr) : bool :=
  match i with
  | LoopHead | EndDrive | CheckStopped | EndStop | ReturnAfter _ | Return _ | EndManual _ | WaitUntil | EndManualStop | TakeQueue _ => false
  | _ => true
  end.
(** How much it can still add before the rest: how often it looks something
    up, then how long its lists are. *)
Definition looks (i : instr) : nat := match i with Poll => 2 | Reap _ | CancelRest _ | EarlyResolves | PollAgain _ => 1 | _ => 0 end.
Definition long (i : instr) : nat :=
  match i with
  | Dispatch l | Close l => S (length l)
  | Cancels _ l | CancelKeys _ l => S (length l)
  | Commit _ l => S (length l)
  | Collect _ l found => 2 + 2 * length l + length found
  | _ => 0
  end.
Definition smaller (i j : instr) : Prop :=
  plain_instr j = true ∧ (fails j = true → fails i = true) ∧ (looks j < looks i ∨ looks j = looks i ∧ long j < long i)%nat.

Inductive leads (running : bool) : instr → list instr → list instr → Prop :=
| leads_here l : running = true → leads running WaitForSignal l (WaitForSignal :: l)
| leads_panic i l : plain_instr i = true → leads running i l panic_list
| leads_end i l : fails i = true → leads running i l (to_end l)
| leads_on i l new : plain_instr i = true → Forall (smaller i) new → leads running i l (new ++ l)
| leads_loop l : leads running LoopHead l (drive ++ EndDrive :: l)
| leads_wait l : leads running LoopHead l (WaitForSignal :: drive ++ EndDrive :: l)
| leads_check l : leads running EndDrive l [CheckStopped]
| leads_fail l e : leads running EndDrive l (failed_list e)
| leads_again l : running = true → leads running CheckStopped l [LoopHead]
| leads_stop l : leads running CheckStopped l (shutdown ++ [EndStop])
| leads_mark l : leads running EndStop l [Ask MarkStopped; Return None]
| leads_error l e : leads running EndStop l [Return (Some e)].

Definition after (o : Owner) (l : list instr) (o' : Owner) : Prop := spawned o' = spawned o ∧ calling o' = calling o ∧ todo o' = l.
(** The owner is done, or goes on with what [i] leads to. *)
Definition goes (running : bool) (i : instr) (l : list instr) (o o' : Owner) : Prop :=
  is_Some (returned o') ∧ spawned o' = spawned o ∨ ∃ l', after o l' o' ∧ leads running i l l'.

Lemma goes_on running i l o o' new :
  plain_instr i = true → Forall (smaller i) new → after o (new ++ l) o' → goes running i l o o'.
Proof. intros Hi Hn Ha. right. exists (new ++ l). split; [done|by apply leads_on]. Qed.
Lemma goes_backend {E A} running i l o (m : M backend E A) ok err :
  plain_instr i = true → returns m → spawned o = true → (∀ a o1, after o (todo o) o1 → goes running i l o (ok a o1)) →
  (∀ x o1, after o (todo o) o1 → goes running i l o (err x o1)) → goes running i l o (on_backend m o ok err).
Proof.
  intros Hi Hm Hsp Hok Herr. unfold on_backend. specialize (Hm (the_backend (core o))). destruct (m (the_backend (core o))) as [[a|x| |] b]; [by apply Hok|by apply Herr| |done].
  right. exists panic_list. split; [|by constructor]. unfold panicked. cbn. by rewrite Hsp.
Qed.

Lemma goes_submit {A} running i l o a (m : M backend Empty_set A) ok :
  plain_instr i = true → returns m → spawned o = true → (∀ x o1, after o (todo o) o1 → goes running i l o (ok x o1)) →
  goes running i l o (on_submit a m o ok).
Proof.
  intros Hi Hm Hsp Hok. unfold on_submit. specialize (Hm (the_backend (core o))). destruct (m (the_backend (core o))) as [[x|[]| |] b]; [by apply Hok| |done].
  right. exists panic_list. split; [|by constructor]. unfold panicked. cbn. by rewrite Hsp.
Qed.

Ltac fewer := repeat first [apply Forall_nil_2|apply Forall_cons_2]; (split_and!; [done|done|cbn; lia]).
Ltac on new := apply (goes_on _ _ _ _ _ new); [done|fewer|by split_and!].

Lemma dispatch_goes running a q l r o : prompt → todo o = Dispatch (a :: q) :: l → spawned o = true → goes running (Dispatch (a :: q)) l o (dispatch a q l r o).
Proof.
  intros (H1 & H2 & H3 & H4 & H5 & H6 & _) Ht Hsp. unfold dispatch.
  destruct (is_terminal r a).
  { destruct (heap r !! a) as [[]|]; try (on [Dispatch q]). on [Ask (StreamResult a Cancelled); Dispatch q]. }
  assert (Hafter : ∀ o1 f new, after o (todo o) o1 → after o (new ++ l) (set_todo (new ++ l) (update_core f o1))) by (intros o1 f new (? & ? & ?); by split_and!).
  assert (Hnext : ∀ o1 f, after o (todo o) o1 → goes running (Dispatch (a :: q)) l o (set_todo (Dispatch q :: l) (update_core f o1))).
  { intros o1 f Ho1. apply (goes_on _ _ _ _ _ [Dispatch q]); [done|fewer|by apply (Hafter _ _ [_])]. }
  assert (Hanswer : ∀ o1 f c, after o (todo o) o1 → goes running (Dispatch (a :: q)) l o (set_todo (Ask c :: Dispatch q :: l) (update_core f o1))).
  { intros o1 f c Ho1. apply (goes_on _ _ _ _ _ [Ask c; Dispatch q]); [done|fewer|by apply (Hafter _ _ [_; _])]. }
  destruct (heap r !! a) as [[id s|id s|id s|id ? ? s|id ? ? [] s|id s|id s]|]; try (on [Dispatch q]);
    (apply goes_submit; [done|done|done|]); intros x o1 Ho1; try (by apply Hnext); destruct x; auto.
Qed.
Lemma close_goes running a q l r o : goes running (Close (a :: q)) l o (close a q l r o).
Proof.
  unfold close. destruct (is_terminal r a); destruct (heap r !! a) as [[id s|id s|id s|id ? ? s|id ? ? [] s|id s|id s]|]; try (on [Close q]);
    try (match goal with |- goes _ _ _ _ (set_todo (?x :: ?y :: l) _) => on [x; y] | |- goes _ _ _ _ (set_todo (?x :: ?y :: ?z :: l) _) => on [x; y; z] end).
Qed.

Definition manual (i : instr) : bool := match i with EndManual _ | WaitUntil | EndManualStop => true | _ => false end.
Definition polls (i : instr) : bool := match i with BackendShutdown => true | _ => fails i end.
Definition waits (i : instr) : bool := match i with WaitForSignal => true | _ => false end.
Definition takes (i : instr) : bool := match i with TakeQueue _ => true | _ => false end.

Lemma goes_failed running i l o e o1 : fails i = true → after o (todo o) o1 → goes running i l o (drive_failed e l o1).
Proof. intros Hf (? & ? & ?). right. exists (to_end l). split; [by split_and!|by constructor]. Qed.
Lemma polls_go running late wake i l r o :
  prompt → todo o = i :: l → spawned o = true → polls i = true → goes running i l o (run_instr late wake i l r o).
Proof.
  intros (_ & _ & _ & _ & _ & _ & _ & H8 & H9 & H10) Ht Hsp Hi. destruct i; try done; cbn [run_instr].
  - destruct wake; [|on (@nil instr)]. by apply goes_failed.
  - apply goes_backend; [done|done|done| |intros; by apply goes_failed]. intros x o1 (? & ? & ?). apply (goes_on _ _ _ _ _ [Commit Resolves x]); [done|fewer|by split_and!].
  - apply goes_backend; [done|done|done| |intros; by apply goes_failed]. intros x o1 (? & ? & ?). apply (goes_on _ _ _ _ _ [PollAgain x]); [done|fewer|by split_and!].
  - apply goes_backend; [done|done|done| |intros; by apply goes_failed]. intros x o1 (? & ? & ?).
    apply (goes_on _ _ _ _ _ [WakeFailure; Commit Requests completions; Commit Resolves x]); [done|fewer|by split_and!].
  - apply goes_backend; [done|done|done|..]; intros x o1 (? & ? & ?); (apply (goes_on _ _ _ _ _ []); [done|fewer|by split_and!]).
Qed.
Lemma lists_go running late wake i l r o :
  prompt → todo o = i :: l → spawned o = true → plain_instr i = true → asks i = false → polls i = false → waits i = false →
  goes running i l o (run_instr late wake i l r o).
Proof.
  intros Hp Ht Hsp Hi Ha Hf Hw. pose proof Hp as (_ & _ & _ & _ & _ & _ & H7 & _).
  destruct i as [| | | | |e1|e1|b| | | |b|q|k|k q found|k q| | |q|k q| |q|k|k q| |c]; try done; cbn [run_instr].
  - destruct q as [|a q]; [on (@nil instr)|by apply dispatch_goes].
  - on [Collect k (map_to_list (active (core o) k)) []].
  - destruct q as [|[id a] q]; [on [Cancels k found]|]. destruct (is_terminal r a); [|on [Collect k q found]].
    apply (goes_on _ _ _ _ _ [Collect k q (found ++ [id])]); [done| |by split_and!]. apply Forall_singleton. split_and!; [done|done|]. cbn. rewrite length_app. cbn. lia.
  - destruct q as [|id q]; [on (@nil instr)|]. apply goes_backend; [done|done|done| |by intros []]. intros x o1 (? & ? & ?). cbn zeta.
    assert (Hgo : ∀ finish, Forall (smaller (Cancels k (id :: q))) finish → goes running (Cancels k (id :: q)) l o (set_todo (finish ++ Cancels k q :: l) (update_core (part k id) o1))).
    { intros finish Hfin. apply (goes_on _ _ _ _ _ (finish ++ [Cancels k q])); [done|apply Forall_app_2; [done|fewer]|]. rewrite <-app_assoc. by split_and!. }
    destruct k; try (by apply Hgo). destruct (active (core o1) Streams !! id); apply Hgo; fewer.
  - destruct q as [|[id c] q]; [on (@nil instr)|]. destruct (active (core o) k !! id); [|on [Commit k q]].
    apply (goes_on _ _ _ _ _ [Ask (complete k n c); Commit k q]); [done|fewer|by split_and!].
  - on (@nil instr).
  - destruct q as [|a q]; [on (@nil instr)|by apply close_goes].
  - on [CancelKeys k (map fst (map_to_list (active (core o) k)))].
  - destruct q as [|id q]; [on (@nil instr)|]. apply goes_backend; [done|done|done| |by intros []]. intros x o1 (? & ? & ?).
    apply (goes_on _ _ _ _ _ [CancelKeys k q]); [done|fewer|by split_and!].
Qed.
Lemma run_instr_goes late wake i l r o :
  prompt → todo o = i :: l → spawned o = true → asks i = false → takes i = false → manual i = false →
  goes (negb (stopped r)) i l o (run_instr late wake i l r o).
Proof.
  intros Hp Ht Hsp Ha Hta Hm. destruct (polls i) eqn:Hpoll; [by apply polls_go|].
  destruct (plain_instr i) eqn:Hpl.
  - destruct (waits i) eqn:Hw; [|by apply lists_go]. destruct i; try done.
    cbn [run_instr]. unfold signalled. destruct (stopped r) eqn:Hs.
    + rewrite orb_true_r. on (@nil instr).
    + destruct (_ || _); [on (@nil instr)|]. right. exists (WaitForSignal :: l). split; [by split_and!|by constructor].
  - destruct i; try done; cbn [run_instr].
    + right. destruct (transport_wait (core o)); (eexists; split; [by split_and!|constructor]).
    + right. destruct (drive_result o) as [[e|st]|]; (eexists; split; [by split_and!|constructor]).
    + right. destruct (stopped r); (eexists; split; [by split_and!|by constructor]).
    + right. destruct (shutdown_result o); (eexists; split; [by split_and!|constructor]).
    + left. split; [by eexists|done].
    + left. split; [by eexists|done].
Qed.

(** A todo list of a spawned owner: it goes through to where the owner decides
    what comes next. *)
Fixpoint closed (l : list instr) : Prop :=
  match l with
  | [] => False
  | i :: l' =>
      match i with
      | LoopHead | EndDrive | CheckStopped | EndStop | ReturnAfter _ | Return _ => True
      | EndManual _ | WaitUntil | EndManualStop => False
      | _ => closed l' ∧ (fails i = true → ∃ k, to_end l' = EndDrive :: k)
      end
  end.
Lemma to_end_app new l : Forall (λ i, plain_instr i = true) new → to_end (new ++ l) = to_end l.
Proof. induction 1 as [|i new Hi _ IH]; [done|]. cbn. by destruct i. Qed.
Lemma closed_app new l :
  Forall (λ i, plain_instr i = true ∧ (fails i = true → ∃ k, to_end l = EndDrive :: k)) new → closed l → closed (new ++ l).
Proof.
  induction 1 as [|i new [Hi Hf] Hnew IH]; [done|]. intros Hl. cbn [app closed].
  assert (Hrest : closed (new ++ l) ∧ (fails i = true → ∃ k, to_end (new ++ l) = EndDrive :: k)).
  { split; [by apply IH|]. intros H. rewrite to_end_app; [by apply Hf|]. eapply Forall_impl; [exact Hnew|]. by intros x [? _]. }
  by destruct i.
Qed.
Lemma closed_plain i l : plain_instr i = true → closed (i :: l) → closed l ∧ (fails i = true → ∃ k, to_end l = EndDrive :: k).
Proof. by destruct i. Qed.
Lemma closed_drive l : closed (drive ++ EndDrive :: l).
Proof. cbn. repeat (split; [|intros; by eexists]). done. Qed.
Lemma leads_closed running i l l' : manual i = false → closed (i :: l) → leads running i l l' → closed l'.
Proof.
  intros Hm Hc Hl. destruct Hl as [l Hr|i l Hi|i l Hf|i l new Hi Hnew|l|l|l|l e|l Hr|l|l|l e]; try done.
  - destruct (closed_plain i l) as [_ H]; [by destruct i|done|]. by destruct (H Hf) as [k ->].
  - destruct (closed_plain i l Hi Hc) as [Hl H]. apply closed_app; [|done]. eapply Forall_impl; [exact Hnew|]. intros x (? & Hx & _). split; [done|auto].
  - apply closed_drive.
  - split; [apply closed_drive|done].
Qed.

(** The owner of a spawned engine is done, or is on its way to what comes
    next. *)
Definition OnWay (o : Owner) : Prop := spawned o = true ∧ (is_Some (returned o) ∨ closed (todo o)).
Lemma own_on_way c s late wake s' :
  prompt → Inv c s → OnWay (owner s) → own late wake s = Some s' → OnWay (owner s').
Proof.
  intros Hp Hinv [Hsp [Hret|Hc]] Hs; unfold own in Hs.
  { destruct (bo_returned _ _ (iv_books _ _ Hinv) Hret) as (Ht & Hca & _). rewrite Hca, Ht in Hs. injection Hs as <-. split; [done|by left]. }
  destruct (calling (owner s)) as [i|].
  - destruct (threads (engine s) !! i) as [[|x l]|]; [injection Hs as <-; split; [done|by right]| |injection Hs as <-; split; [done|by right]].
    destruct (step (Step i) (engine s)); [|done]. cbn in Hs. injection Hs as <-. destruct x; try (split; [done|by right]). cbn. case_bool_decide; (split; [done|by right]).
  - destruct (todo (owner s)) as [|i rest] eqn:Ht; [done|].
    destruct (asks i) eqn:Ha.
    { destruct i; try done. destruct (possible _ _); [|done]. destruct (step _ _); [|done]. cbn in Hs. injection Hs as <-. split; [done|]. right. by destruct Hc. }
    destruct (takes i) eqn:Hta.
    { destruct i; try done. destruct (step _ _) as [e1|]; [|done]. cbn [mbind option_bind] in Hs. destruct (step _ e1); [|done]. cbn in Hs. injection Hs as <-.
      split; [by destruct closing|]. right. destruct Hc as [Hc _]. by destruct closing. }
    assert (Hm : manual i = false) by (by destruct i).
    assert (Hs' : s' = mkSystem (engine s) (run_instr late wake i rest (registry (engine s)) (owner s))) by (destruct i; try done; by injection Hs as <-).
    subst s'. destruct (run_instr_goes late wake i rest (registry (engine s)) (owner s) Hp Ht Hsp Ha Hta Hm) as [[Hret Hsp']|(l' & (Hsp' & _ & Hl') & Hl)].
    + split; [cbn; congruence|by left].
    + split; [cbn; congruence|]. right. cbn. rewrite Hl'. by eapply leads_closed.
Qed.
(** ** What the owner still has to do, to its end *)

Section ends.
Context (c : Config) (P : System → Prop).
Hypothesis Hprompt : prompt.
Hypothesis HP : ∀ s, Inv c s → is_Some (returned (owner s)) → P s.

Definition Ends (l : list instr) : Prop := ∀ s, Ending c s l → calling (owner s) = None → eventually P s.

(** A call takes its steps, then the rest. *)
Definition call_ends (l : list instr) (cs : list cont) : Prop :=
  ∀ s i, Ending c s l → calling (owner s) = Some i → threads (engine s) !! i = Some cs → eventually P s.
Lemma call_nil l : Ends l → call_ends l [].
Proof.
  intros Hl s i He Hc Hi. eapply eventually_own; [exact He|]. intros s1 late wake s2 [Hinv Hst Ht Hsp] Ho Hth Hs Hinv2 Hst2.
  unfold own in Hs. rewrite Ho, Hc, (Hth _ _ Hc Hi) in Hs. injection Hs as <-. apply Hl; [|done]. rewrite Ho in *. by split.
Qed.
Lemma call_step l x cs : (∀ new, Forall (below x) new → call_ends l (new ++ cs)) → call_ends l (x :: cs).
Proof.
  intros Hgo s i He Hc Hi. eapply eventually_own; [exact He|]. intros s1 late wake s2 [Hinv Hst Ht Hsp] Ho Hth Hs Hinv2 Hst2.
  unfold own in Hs. rewrite Ho, Hc, (Hth _ _ Hc Hi) in Hs. destruct (step (Step i) (engine s1)) as [e'|] eqn:He'; [|done]. cbn in Hs. injection Hs as <-.
  cbn [step] in He'. rewrite (Hth _ _ Hc Hi) in He'. pose proof (run_cont_below x (registry (engine s1))) as Hb. unfold pwp in Hb.
  destruct (run_cont x (registry (engine s1))) as [[new| | |] r']; simplify_eq.
  apply (Hgo new Hb _ i); cbn [engine owner threads].
  - rewrite Ho in *. split; try done; cbn [owner]; destruct x; try done; by case_bool_decide.
  - destruct x; try done; by case_bool_decide.
  - apply list_lookup_insert_eq. eapply lookup_lt_Some. by apply Hth.
Qed.
Lemma call_sized l k x cs : size x = Some k → call_ends l cs → call_ends l (x :: cs).
Proof.
  revert x cs. induction (lt_wf k) as [k _ IH]. intros x cs Hk Hcs. apply call_step. intros new Hb.
  induction Hb as [|y new [_ Hy] Hnew IHn]; [done|]. rewrite Hk in Hy. destruct (size y) as [m|] eqn:Hm; [|done]. cbn. by eapply IH.
Qed.
Lemma call_any l x cs : call_ends l cs → call_ends l (x :: cs).
Proof.
  intros Hcs. destruct (size x) as [k|] eqn:Hk; [by eapply call_sized|]. apply call_step. intros new Hb.
  induction Hb as [|y new [_ Hy] Hnew IHn]; [done|]. rewrite Hk in Hy. destruct (size y) as [m|] eqn:Hm; [|done]. cbn. by eapply call_sized.
Qed.

Lemma ends_ask x l : Ends l → Ends (Ask x :: l).
Proof.
  intros Hl s He Hc. eapply eventually_own; [exact He|]. intros s1 late wake s2 [Hinv Hst Ht Hsp] Ho Hth Hs Hinv2 Hst2.
  unfold own in Hs. rewrite Ho, Hc in Hs. rewrite Ho in Ht, Hsp. rewrite Ht in Hs. destruct (possible _ _) eqn:Hpos; [|done].
  pose proof (bo_instrs _ _ (iv_books _ _ Hinv)) as Hi. rewrite Ho, Ht in Hi. apply Forall_cons in Hi as [Hok _].
  destruct (ask_allowed _ _ _ Hok) as [Hcall _]. cbn [step] in Hs. rewrite Hcall, Hpos in Hs. cbn in Hs. injection Hs as <-.
  apply (call_any l x [] (call_nil l Hl) _ (length (threads (engine s1)))); [|done|by apply list_lookup_middle].
  by split.
Qed.
Lemma ends_take (closing : bool) l : (∀ q, Ends ((if closing then Close q else Dispatch q) :: l)) → Ends (TakeQueue closing :: l).
Proof.
  intros Hl s He Hc. eapply eventually_own; [exact He|]. intros s1 late wake s2 [Hinv Hst Ht Hsp] Ho Hth Hs Hinv2 Hst2.
  unfold own in Hs. rewrite Ho, Hc in Hs. rewrite Ho in Ht, Hsp. rewrite Ht in Hs.
  destruct (step (Call Drain) (engine s1)) as [e1|]; [|done]. cbn [mbind option_bind] in Hs.
  destruct (step (Step _) e1) as [e2|]; [|done]. cbn in Hs. injection Hs as <-.
  apply (Hl (queue (registry (engine s1)))); destruct closing; try done; by split.
Qed.

Lemma ends_step i l :
  asks i = false → takes i = false → manual i = false → (∀ l', leads false i l l' → Ends l') → Ends (i :: l).
Proof.
  intros Ha Ht Hm Hgo s He Hc. eapply eventually_own; [exact He|]. intros s1 late wake s2 [Hinv Hst Htodo Hsp] Ho Hth Hs Hinv2 Hst2.
  unfold own in Hs. rewrite Ho, Hc in Hs. rewrite Ho in Htodo, Hsp. rewrite Htodo in Hs.
  assert (Hs' : s2 = mkSystem (engine s1) (run_instr late wake i l (registry (engine s1)) (owner s))) by (destruct i; try done; by injection Hs as <-).
  subst s2. pose proof (run_instr_goes late wake i l (registry (engine s1)) (owner s) Hprompt Htodo Hsp Ha Ht Hm) as [[Hret _]|(l' & (Hsp' & Hc' & Hl') & Hl)].
  - apply eventually_now. by eapply HP.
  - rewrite Hst in Hl. apply (Hgo _ Hl); [|cbn; congruence]. split; try done; cbn; congruence.
Qed.

Lemma ends_return x l : Ends (Return x :: l).
Proof. apply ends_step; try done. inversion 1; done. Qed.
Lemma ends_return_after e l : Ends (ReturnAfter e :: l).
Proof. apply ends_step; try done. inversion 1; done. Qed.
Lemma ends_panic : Ends panic_list.
Proof. apply ends_ask, ends_ask, ends_return. Qed.
(** By the size of the instruction. *)
Lemma ends_plain i l : plain_instr i = true → Ends l → (fails i = true → Ends (to_end l)) → Ends (i :: l).
Proof.
  remember (looks i) as k eqn:Hk. revert i l Hk. induction (lt_wf k) as [k _ IHk].
  intros i l Hk. remember (long i) as m eqn:Hm. revert i l Hk Hm. induction (lt_wf m) as [m _ IHm]. intros i l -> -> Hi Hl Hf.
  destruct (asks i) eqn:Ha; [destruct i; try done; by apply ends_ask|].
  assert (Hnew : ∀ new, Forall (smaller i) new → Ends (new ++ l)).
  { induction 1 as [|j new (Hj & Hfj & Hsize) Hnew IH]; [done|]. cbn.
    assert (Hend : fails j = true → Ends (to_end (new ++ l))).
    { intros Hj'. rewrite to_end_app; [by apply Hf, Hfj|]. eapply Forall_impl; [exact Hnew|]. by intros x (? & _). }
    destruct Hsize as [Hlt|[Heq Hlt]]; [by eapply (IHk (looks j))|by eapply (IHm (long j))]. }
  apply ends_step; [done|by destruct i|by destruct i|]. intros l' Hleads. inversion Hleads; subst; try done; [apply ends_panic|by apply Hf|by apply Hnew].
Qed.

Lemma ends_list new l : Forall (λ i, plain_instr i = true ∧ fails i = false) new → Ends l → Ends (new ++ l).
Proof. induction 1 as [|i new [Hi Hf] _ IH]; [done|]. intros Hl. apply ends_plain; [done|by apply IH|by rewrite Hf]. Qed.
Lemma ends_shutdown l : Ends l → Ends (shutdown ++ l).
Proof.
  intros Hl. apply ends_take. intros q. apply (ends_list (Close q :: reap_cancelled ++ reap_terminal_streams ++ [CancelRest Requests; CancelRest Streams; CancelRest Resolves; BackendShutdown])); [|done].
  by repeat constructor.
Qed.
Lemma ends_failed e : Ends (failed_list e).
Proof. apply ends_ask, ends_shutdown, ends_ask, ends_return_after. Qed.
Lemma ends_check l : Ends (CheckStopped :: l).
Proof.
  apply ends_step; try done. intros l' Hl. inversion Hl; subst; try done. apply ends_shutdown.
  apply ends_step; try done. intros l' Hl'. inversion Hl'; subst; try done; [apply ends_ask, ends_return|apply ends_return].
Qed.
Lemma ends_drive l : Ends (EndDrive :: l).
Proof. apply ends_step; try done. intros l' Hl. inversion Hl; subst; try done; [apply ends_check|apply ends_failed]. Qed.

Lemma ends_loop l : Ends (LoopHead :: l).
Proof.
  assert (Hd : Ends (drive ++ EndDrive :: l)).
  { apply ends_plain; [done| |intros _; apply ends_drive]. apply ends_take. intros q.
    apply (ends_list (Dispatch q :: reap_cancelled ++ reap_terminal_streams)); [by repeat constructor|].
    apply ends_plain; [done| |intros _; apply ends_drive]. apply ends_plain; [done| |intros _; apply ends_drive].
    apply (ends_list (reap_cancelled ++ reap_terminal_streams ++ [Status])); [by repeat constructor|apply ends_drive]. }
  apply ends_step; try done. intros l' Hl. inversion Hl; subst; try done. by apply ends_plain.
Qed.
Lemma closed_ends l : closed l → Ends l.
Proof.
  induction l as [|i l IH]; [done|]. intros Hc.
  assert (Hplain : plain_instr i = true → closed l ∧ (fails i = true → ∃ k, to_end l = EndDrive :: k) → Ends (i :: l)).
  { intros Hi [Hcl Hf]. apply ends_plain; [done|by apply IH|]. intros H. destruct (Hf H) as [k ->]. apply ends_drive. }
  destruct i; try done; try (by apply Hplain).
  - apply ends_loop.
  - apply ends_drive.
  - apply ends_check.
  - apply ends_step; try done. intros l' Hl'. inversion Hl'; subst; try done; [apply ends_ask, ends_return|apply ends_return].
  - apply ends_return_after.
  - apply ends_return.
  - destruct Hc as [Hc _]. apply ends_take. intros q. destruct closing; (apply ends_plain; [done|by apply IH|done]).
Qed.

End ends.

Lemma acts_on_way c s xs s' : prompt → Inv c s → OnWay (owner s) → run_acts xs s = Some s' → OnWay (owner s').
Proof.
  intros Hp. revert s. induction xs as [|x xs IH]; intros s Hinv Hw Hs; cbn [run_acts] in Hs; [by injection Hs as <-|].
  destruct (act_step x s) as [s1|] eqn:Hs1; [|done]. cbn [mbind option_bind] in Hs. pose proof (act_inv _ _ _ _ Hinv Hs1) as Hinv1.
  apply (IH s1 Hinv1); [|done]. destruct x as [m|late wake|q]; cbn [act_step] in Hs1.
  - destruct (allowed m (owner s)); [|by injection Hs1 as <-]. destruct (step m (engine s)); [|done]. cbn in Hs1. by injection Hs1 as <-.
  - exact (own_on_way c s late wake s1 Hp Hinv Hw Hs1).
  - injection Hs1 as <-. unfold begin. by rewrite (proj1 Hw).
Qed.

(** What the owner leaves when it is done. *)
Definition settled_all (s : System) (x : option Error) : Prop :=
  (∀ a ob, heap (registry (engine s)) !! a = Some ob → is_op ob → op_done ob = false → x ≠ None ∧ a ∈ queue (registry (engine s))) ∧
  (x = None → lifecycle (registry (engine s)) ≠ Running).
Lemma returned_settled c s x : Inv c s → returned (owner s) = Some x → settled_all s x.
Proof.
  intros Hinv Hx. destruct (bo_returned _ _ (iv_books _ _ Hinv)) as (Ht & Hc & Hsp & Hst & Hnone); [by rewrite Hx|].
  pose proof (iv_places _ _ Hinv) as Hp. unfold Places in Hp. destruct Hst as [Hst|Hst]; rewrite Hst in Hp.
  - assert (Hx' : x ≠ None) by (intros ->; rewrite (Hnone Hx) in Hst; done). split; [|done]. intros a ob Ha Hop Hd. split; [done|].
    destruct (Hp a ob Ha Hop) as [?|[?|[Hh|[(i & cs & Hi & _)|[Hs _]]]]]; [congruence|done| |congruence|congruence].
    rewrite Ht in Hh. by apply elem_of_nil in Hh.
  - destruct Hp as [Hl Hd]. split; [|done]. intros a ob Ha Hop Hnd. specialize (Hd a ob Ha Hop). congruence.
Qed.

(** ** The properties *)

(** C12: in any run of the owner of a spawned or a manual engine and of any
    number of other threads, the backend is given each operation at most once,
    connects, upgrades and operations it answers at once included, and each
    one given is kept by it, has its sink there, was answered at once, or
    panicked in its submission; of those kept, each ends at most once, by its
    answer or by a cancellation. Until a failure, a stop, or a panic that went
    to the application, every operation without a result is in the command
    queue, in the owner's hands, in the call the owner is making, or with the
    backend. The run can always go on, unless another thread enters a
    submission that does not return. *)
Theorem owner_keeps_operations c spawned b xs s :
  config_ok c → run_acts xs (start spawned c b) = Some s →
  let k := core (owner s) in
  NoDup (given k) ∧ given k ≡ₚ (handed k).*2 ++ sinks k ++ answered k ++ thrown k ∧
  NoDup (handed k).*1 ∧ (handed k).*1 ≡ₚ ended k ++ keys Requests (owner s) ++ keys Streams (owner s) ++ keys Resolves (owner s) ∧
  (stage_of (owner s) = Serving →
     ∀ a ob, heap (registry (engine s)) !! a = Some ob → is_op ob → op_done ob = false → placed (engine s) (owner s) a) ∧
  (∀ x, act_step x s = None → ∃ m, x = Other m ∧ blocked m (engine s)).
Proof.
  intros Hc Hrun k. pose proof (acts_inv c spawned b xs s Hc Hrun) as Hinv. pose proof (iv_books _ _ Hinv) as Hb.
  assert (Hn : NoDup (given k)) by (pose proof (bo_nodup _ _ Hb) as H; by apply NoDup_app in H as (_ & _ & [_ [_ ?]]%NoDup_app)).
  pose proof (bo_given _ _ Hb) as Hg. split_and!; [done|done| |apply Hb| |intros x; by eapply act_blocked].
  - assert (Hn2 : NoDup (handed k).*2) by (unfold k in *; rewrite Hg in Hn; by apply NoDup_app in Hn as [? _]).
    apply NoDup_fmap_2_strong; [|by eapply NoDup_fmap_1]. intros [id a] [id' a'] Hin Hin' H. cbn in H. subst id'.
    pose proof (proj1 (Forall_forall _ _) (bo_handed _ _ Hb)) as Hk. destruct (Hk _ Hin) as [t Ht], (Hk _ Hin') as [t' Ht'].
    f_equal. by eapply keyed_unique; [apply (iv_reach _ _ Hinv)|..].
  - intros Hst a ob Ha Hop Hd. pose proof (iv_places _ _ Hinv) as Hp. unfold Places in Hp. rewrite Hst in Hp.
    destruct (Hp a ob Ha Hop); [congruence|done].
Qed.

(** C14: when the owner of a spawned engine has returned, every operation has
    its result; where it returned an error, all but operations still in the
    command queue, accepted after it failed the others. *)
Theorem owner_leaves_nothing c b xs s x :
  config_ok c → run_acts xs (start true c b) = Some s → returned (owner s) = Some x → settled_all s x.
Proof. intros Hc Hs Hx. eapply returned_settled; [by apply (acts_inv c true b xs)|done]. Qed.

(** C13: once the stop of a spawned engine is published its owner returns,
    however far it was and whatever the other threads do between its steps, if
    the calls of its backend return; and then every operation has its result,
    save those accepted after a failure. *)
Theorem stopped_owner_ends c b xs s :
  config_ok c → prompt → run_acts xs (start true c b) = Some s → stopped (registry (engine s)) = true →
  eventually (λ s', ∃ x, returned (owner s') = Some x ∧ settled_all s' x) s.
Proof.
  intros Hc Hp Hs Hst. pose proof (owner_start_inv c true b Hc) as Hinv0. pose proof (acts_inv_from _ _ _ _ Hinv0 Hs) as Hinv.
  assert (Hw : OnWay (owner s)) by (eapply acts_on_way; [done|exact Hinv0| |exact Hs]; split; [done|by right]).
  set (P := λ s', _). assert (HP : ∀ s, Inv c s → is_Some (returned (owner s)) → P s).
  { intros s1 Hinv1 [x Hx]. exists x. split; [done|by eapply returned_settled]. }
  destruct Hw as [Hsp [Hret|Hclosed]]; [apply eventually_now; by apply HP|].
  destruct (calling (owner s)) as [i|] eqn:Hcall.
  - destruct (lookup_lt_is_Some_2 _ _ (iv_calling _ _ Hinv i Hcall)) as [cs Hcs].
    assert (Hends : call_ends c P (todo (owner s)) cs) by (clear Hcs; induction cs; [by apply call_nil, closed_ends|by apply call_any]).
    eapply Hends; [|done|done]. by split.
  - by eapply closed_ends.
Qed.
End proofs.

(** ** Runs

    A backend that takes everything and answers nothing, and whose [poll]
    fails when its state is an error. *)
Definition idle_backend : Core.Backend := {|
  backend := option Error;
  submit _ := mret None;
  submit_stream _ := mret tt;
  submit_resolve _ := mret None;
  submit_tcp_connect _ := mret tt;
  submit_tls_connect _ := mret tt;
  submit_tls_upgrade _ := mret tt;
  backend_cancel _ := mret tt;
  backend_poll := λ b, match b with Some e => (Err e, b) | None => (Ok [], b) end;
  poll_resolves := mret [];
  backend_shutdown := mret tt;
  wants_poll_without_requests _ := false;
  interruptible _ := false
|}.
Lemma idle_prompt : prompt (bk := idle_backend).
Proof. by repeat split; intros []. Qed.

Definition owner_steps (n : nat) : list act := replicate n (Own false None).
Definition accepts (thread : nat) : list act := [Other (Call (AcceptResolve None 10 false)); Other (Step thread)].
Definition spawned_run (xs : list act) (b : option Error) : option (System (bk := idle_backend)) :=
  run_acts (tgt := target64) (bk := idle_backend) xs (start (bk := idle_backend) true demo_config b).

(** An operation is accepted, handed to the backend, and the engine is told to
    stop; then the owner goes on alone. *)
Definition stopping : list act := accepts 0 ++ owner_steps 6 ++ [Other (Call BeginShutdown)] ++ replicate 7 (Other (Step 2)).
Definition stopping_end : System (bk := idle_backend) := default (start (bk := idle_backend) true demo_config None) (spawned_run stopping None).
Definition stopped_end : System (bk := idle_backend) :=
  default (start (bk := idle_backend) true demo_config None) (spawned_run (stopping ++ owner_steps 60) None).
Lemma stopping_run : spawned_run stopping None = Some stopping_end.
Proof. vm_compute. reflexivity. Qed.
Lemma stopped_run : spawned_run (stopping ++ owner_steps 60) None = Some stopped_end.
Proof. vm_compute. reflexivity. Qed.

Lemma owner_keeps_operations_witness :
  let k := core (owner stopping_end) in
  NoDup (given k) ∧ given k ≡ₚ (handed k).*2 ++ sinks k ++ answered k ++ thrown k ∧
  NoDup (handed k).*1 ∧ (handed k).*1 ≡ₚ ended k ++ keys Requests (owner stopping_end) ++ keys Streams (owner stopping_end) ++ keys Resolves (owner stopping_end) ∧
  (stage_of (owner stopping_end) = Serving →
     ∀ a ob, heap (registry (engine stopping_end)) !! a = Some ob → is_op ob → op_done ob = false → placed (engine stopping_end) (owner stopping_end) a) ∧
  (∀ x, act_step (tgt := target64) x stopping_end = None → ∃ m, x = Other m ∧ blocked (tgt := target64) m (engine stopping_end)).
Proof. apply (owner_keeps_operations (tgt := target64) (bk := idle_backend) demo_config true None stopping); [apply demo_config_ok|apply stopping_run]. Defined.

Lemma owner_leaves_nothing_witness : settled_all stopped_end None.
Proof.
  apply (owner_leaves_nothing (tgt := target64) (bk := idle_backend) demo_config None (stopping ++ owner_steps 60) stopped_end None);
    [apply demo_config_ok|apply stopped_run|by vm_compute].
Defined.

Lemma stopped_owner_ends_witness :
  eventually (tgt := target64) (bk := idle_backend) (λ s', ∃ x, returned (owner s') = Some x ∧ settled_all s' x) stopping_end.
Proof.
  apply (stopped_owner_ends (tgt := target64) (bk := idle_backend) demo_config None stopping stopping_end);
    [apply demo_config_ok|apply idle_prompt|apply stopping_run|by vm_compute].
Defined.

(** The backend fails: the owner fails the operations there are, drains the
    queue, and marks the engine stopped. One accepted after the drain is left
    in the queue with no thread to answer it: the engine has stopped without
    its [begin_shutdown]. *)
Definition failure : Error := error_new ErrorKind.Internal "the backend failed".
Example accepted_after_failure_unanswered :
  match spawned_run (accepts 0 ++ owner_steps 32 ++ accepts 4 ++ owner_steps 40) (Some failure) with
  | Some s =>
      returned (owner s) = Some (Some failure) ∧ stopped (registry (engine s)) = true ∧ lifecycle (registry (engine s)) = Stopped ∧
      map op_done (heap (registry (engine s))) = [true; false] ∧ queue (registry (engine s)) = [1%nat] ∧
      forallb (λ cs, match cs with [] => true | _ => false end) (threads (engine s)) = true
  | None => False
  end.
Proof. vm_compute. by repeat split. Qed.
