(* ===== verification/Http1.v ===== *)
(** * HTTP/1.1 messages ([src/backend/native_http/http1.rs])

    The request head serializer and the response head parser. The [httparse]
    crate is a parameter, the class [HttpParse]: the source calls its response
    parser, its chunk-size parser and its header parser. *)

From stdpp Require Import base list strings.
From Stdlib Require Import ZArith Lia.
From S2P Require Import Prelude Errors BodyBudget Request Stream.
Import Budget Request.

(** What [httparse] returns: [Status::Complete], [Status::Partial],
    [Error::TooManyHeaders], or another error with its [Display] text. *)
Inductive hp_status (A : Type) :=
| HpComplete (a : A) | HpPartial | HpTooManyHeaders | HpError (display : string).
Arguments HpComplete {A} a.
Arguments HpPartial {A}.
Arguments HpTooManyHeaders {A}.
Arguments HpError {A} display.

(** [hp_response slots bytes] is [Response::new(slots).parse(bytes)]: the bytes
    consumed, the version, the code and the headers. [hp_chunk_size] gives the
    bytes used and the size. *)
Class HttpParse := {
  hp_response : Z → list Z → hp_status (Z * option Z * option Z * list Header);
  hp_chunk_size : list Z → hp_status (Z * Z);
  hp_headers : Z → list Z → hp_status (Z * list Header);
  (* the size is a [u64] *)
  hp_chunk_size_u64 : ∀ b used size, hp_chunk_size b = HpComplete (used, size) → 0 ≤ size ≤ u64_max
}.

Module Http1.

Definition MAX_INFORMATIONAL_RESPONSES : Z := 8.
Definition STACK_RESPONSE_HEADER_SLOTS : Z := 32.

Record HttpLimits := mkLimits { body_bytes : Z; header_bytes : Z; header_count : Z }.

Definition for_request (l : HttpLimits) (r : Request) : HttpLimits :=
  mkLimits (response_body_limit (options r) (body_bytes l)) (header_bytes l) (header_count l).

(** ** Errors *)

Definition http_error (message : string) : Error := error_transport TransportStage.Http message.
Definition limit_message (what unit : string) (limit : Z) : string :=
  ((what +:+ " exceed the configured ") +:+ display limit) +:+ (" " +:+ unit +:+ " limit").
Definition request_header_bytes_limit (limit : Z) : Error :=
  error_limit LimitKind.RequestHeaderBytes (limit_message "request headers" "byte" limit).
Definition request_header_count_limit (limit : Z) : Error :=
  error_limit LimitKind.RequestHeaderCount (limit_message "request headers" "field" limit).
Definition response_header_count_limit (limit : Z) : Error :=
  error_limit LimitKind.ResponseHeaderCount (limit_message "response headers" "field" limit).
Definition response_body_limit_error (limit : Z) : Error :=
  error_limit LimitKind.ResponseBodyBytes
    (("response body exceeds the configured " +:+ display limit) +:+ " byte limit").

(** [result.map_err(|_| error)] *)
Definition map_err_to {E F A} (e : F) (o : outcome E A) : outcome F A :=
  match o with Ok a => Ok a | Err _ => Err e | Panic => Panic | Diverge => Diverge end.

(** ** Field values *)

Definition trim_ascii_whitespace : list Z → list Z := trim is_ascii_whitespace.
Definition is_ows (b : Z) : bool := (b =? SP) || (b =? HT).
Definition trim_ows : list Z → list Z := trim is_ows.

Inductive ConnectionPolicy := KeepAlive | Close.
#[global] Instance ConnectionPolicy_eq_dec : EqDecision ConnectionPolicy.
Proof. solve_decision. Defined.

(** The test both [Connection] parsers make of one trimmed list element. *)
Definition bad_connection_token (token : list Z) : bool :=
  bool_decide (token = []) || negb (forallb is_token_byte token).

(** One list element of [parse_connection_policy]: [(saw_token, reusable)]. *)
Definition connection_element (acc : outcome Error (bool * bool)) (raw : list Z)
  : outcome Error (bool * bool) :=
  '(_, reusable) ← acc;
  let token := trim_ascii_whitespace raw in
  if bad_connection_token token
  then Err (error_new ErrorKind.InvalidRequest "request Connection header contains an invalid token")
  else Ok (true, reusable && eq_ignore_ascii_case token (bs "keep-alive")).

Definition parse_connection_policy (v : list Z) : outcome Error ConnectionPolicy :=
  '(saw_token, reusable) ← foldl connection_element (Ok (false, true)) (split_on 44 v);
  if negb saw_token
  then Err (error_new ErrorKind.InvalidRequest "request Connection header is empty")
  else Ok (if (reusable : bool) then KeepAlive else Close).

Section with_target.
Context {tgt : Target}.

(** One list element of [parse_content_length_value]. *)
Definition length_element (acc : outcome Error (option Z)) (raw : list Z) : outcome Error (option Z) :=
  parsed ← acc;
  let item := trim_ows raw in
  if bool_decide (item = []) || negb (forallb is_ascii_digit item)
  then Err (http_error "HTTP Content-Length is invalid")
  else
    v ← ok_or (parse_uint usize_max item) (http_error "HTTP Content-Length is too large");
    if match parsed with Some existing => negb (existing =? v) | None => false end
    then Err (http_error "HTTP message contains conflicting Content-Length values")
    else Ok (Some v).

Definition parse_content_length_value (v : list Z) : outcome Error Z :=
  parsed ← foldl length_element (Ok None) (split_on 44 v);
  ok_or parsed (http_error "HTTP Content-Length is empty").

(** ** Request serialization *)

Record RequestTarget := mkTarget {
  target_scheme : list Z; authority : list Z; path_and_query : list Z
}.

Definition without_fragment (suffix : list Z) : list Z :=
  match split_once (bs "#") suffix with Some (v, _) => v | None => suffix end.

Definition parse_target (u : list Z) : outcome Error RequestTarget :=
  match split_once (bs "://") u with
  | None => Err (error_new ErrorKind.InvalidRequest "HTTP URL has no scheme separator")
  | Some (s, remainder) =>
      let auth := take (authority_end remainder) remainder in
      let path := without_fragment (drop (authority_end remainder) remainder) in
      let path := if bool_decide (path = []) then bs "/"
                  else if starts_with (bs "?") path then bs "/" ++ path
                  else path in
      if existsb (λ b, negb (in_range 33 126 b)) path
      then Err (error_new ErrorKind.Unsupported
                  "native HTTP currently requires an ASCII request target without raw spaces")
      else Ok (mkTarget s auth path)
  end.

Definition method_name (m : Method) : list Z :=
  match m with
  | Get => bs "GET" | Head => bs "HEAD" | Post => bs "POST" | Put => bs "PUT"
  | Patch => bs "PATCH" | Delete => bs "DELETE" | Other name => name
  end.

Definition field_wire_len (n v : list Z) : option Z :=
  a ← checked_add usize_max (len n) (len v);
  checked_add usize_max a (len (bs ": ") + len CRLF).

Definition append_header (n v : list Z) : list Z := n ++ bs ": " ++ v ++ CRLF.

(** What the pass over the request's headers collects. *)
Record Scan := mkScan {
  host_count : Z; content_length : option Z; connection_policy : option ConnectionPolicy
}.

Definition scan_header (upload : option Upload.UploadFraming) (acc : outcome Error Scan) (h : Header)
  : outcome Error Scan :=
  s ← acc;
  if eq_ignore_ascii_case (name h) (bs "host") then
    n ← uadd (host_count s) 1;
    Ok (mkScan n (content_length s) (connection_policy s))
  else if eq_ignore_ascii_case (name h) (bs "content-length") then
    if bool_decide (is_Some upload)
    then Err (error_new ErrorKind.InvalidRequest
                "NBReq generates Content-Length for a streamed upload body")
    else
      parsed ← map_err_to (error_new ErrorKind.InvalidRequest "request Content-Length is invalid")
                 (parse_content_length_value (value h));
      if match content_length s with Some existing => negb (existing =? parsed) | None => false end
      then Err (error_new ErrorKind.InvalidRequest
                  "request contains conflicting Content-Length values")
      else Ok (mkScan (host_count s) (Some parsed) (connection_policy s))
  else if eq_ignore_ascii_case (name h) (bs "transfer-encoding") then
    if bool_decide (is_Some upload)
    then Err (error_new ErrorKind.InvalidRequest
                "NBReq generates Transfer-Encoding for a streamed upload body")
    else Err (error_new ErrorKind.Unsupported
                "buffered native requests do not support Transfer-Encoding")
  else if eq_ignore_ascii_case (name h) (bs "connection") then
    parsed ← parse_connection_policy (value h);
    Ok (mkScan (host_count s) (content_length s)
          (Some match connection_policy s, parsed with
                | (None | Some KeepAlive), KeepAlive => KeepAlive
                | _, _ => Close
                end))
  else Ok s.

(** The fields the serializer adds after the request's own. *)
Definition generated_fields (t : RequestTarget) (body_len : Z) (upload : option Upload.UploadFraming)
    (s : Scan) : list (list Z * list Z) :=
  let generated_length :=
    match upload with
    | Some (Upload.Fixed _) => true
    | Some Upload.Chunked => false
    | None => bool_decide (content_length s = None) && negb (body_len =? 0)
    end in
  let generated_length_value :=
    match upload with
    | Some (Upload.Fixed length) => to_string length
    | Some Upload.Chunked => []
    | None => to_string body_len
    end in
  (if host_count s =? 0 then [(bs "Host", authority t)] else [])
  ++ (if generated_length then [(bs "Content-Length", generated_length_value)] else [])
  ++ (match upload with Some Upload.Chunked => [(bs "Transfer-Encoding", bs "chunked")] | _ => [] end).

(** [try_fold] of [field_wire_len] over the fields. *)
Definition add_field_len (total : option Z) (f : list Z * list Z) : option Z :=
  t ← total; field ← field_wire_len (fst f) (snd f); checked_add usize_max t field.

Record SerializedRequest := mkSerialized {
  serialized : list Z; response_to_head : bool; permits_reuse : bool
}.

Definition field_of (h : Header) : list Z * list Z := (name h, value h).

Definition serialize_request_with_upload (r : Request) (limits : HttpLimits)
    (upload : option Upload.UploadFraming) : outcome Error SerializedRequest :=
  _ ← validate r;
  t ← parse_target (url r);
  if negb (bytes_eqb (ascii_lowercase (target_scheme t)) (bs "http")
           || bytes_eqb (ascii_lowercase (target_scheme t)) (bs "https"))
  then Err (error_new ErrorKind.Unsupported
              "the native HTTP backend permits only HTTP and HTTPS URLs")
  else
  s ← foldl (scan_header upload) (Ok (mkScan 0 None None)) (headers r);
  if 1 <? host_count s
  then Err (error_new ErrorKind.InvalidRequest "request contains more than one Host header")
  else if bool_decide (upload = None)
          && match content_length s with
             | Some length => negb (length =? len (bytes (body r)))
             | None => false
             end
  then Err (error_new ErrorKind.InvalidRequest
              "request Content-Length does not match the buffered body")
  else
  let generated := generated_fields t (len (bytes (body r))) upload s in
  field_count ← ok_or (checked_add usize_max (len (headers r)) (len generated))
                  (request_header_count_limit (header_count limits));
  if header_count limits <? field_count
  then Err (request_header_count_limit (header_count limits))
  else
  let fields := map field_of (headers r) ++ generated in
  total ← ok_or (foldl add_field_len (Some 0) fields)
            (request_header_bytes_limit (header_bytes limits));
  if header_bytes limits <? total
  then Err (request_header_bytes_limit (header_bytes limits))
  else
  let m := method_name (method r) in
  request_line_bytes ←
    ok_or (a ← checked_add usize_max (len m) 1;
           a ← checked_add usize_max a (len (path_and_query t));
           checked_add usize_max a (len (bs " HTTP/1.1" ++ CRLF)))
      (request_header_bytes_limit (header_bytes limits));
  _ ← ok_or (a ← checked_add usize_max request_line_bytes total; checked_add usize_max a 2)
        (request_header_bytes_limit (header_bytes limits));
  Ok (mkSerialized
        (m ++ [SP] ++ path_and_query t ++ bs " HTTP/1.1" ++ CRLF
           ++ concat (map (λ f, append_header (fst f) (snd f)) fields) ++ CRLF)
        (bool_decide (method r = Head))
        (match connection_policy s with Some p => bool_decide (p = KeepAlive) | None => true end)).

(** ** Response heads *)

Inductive BodyFraming := FramingNone | FramingFixed (length : Z) | FramingChunked | FramingClose.

Inductive ParsedHead :=
| Informational
| Final (status : Z) (hs : list Header) (framing : BodyFraming) (reuse : bool).

(** One list element of [response_permits_reuse]: [(close, keep_alive, other)]. *)
Definition reuse_element (acc : outcome Error (bool * bool * bool)) (raw : list Z)
  : outcome Error (bool * bool * bool) :=
  '(close, keep_alive, other) ← acc;
  let token := trim_ascii_whitespace raw in
  if bad_connection_token token
  then Err (http_error "HTTP response Connection header contains an invalid token")
  else
    let is_close := eq_ignore_ascii_case token (bs "close") in
    let is_keep_alive := eq_ignore_ascii_case token (bs "keep-alive") in
    Ok (close || is_close, keep_alive || is_keep_alive, other || (negb is_close && negb is_keep_alive)).

Definition named (n : list Z) (h : Header) : bool := eq_ignore_ascii_case (name h) n.

Definition response_permits_reuse (version : Z) (hs : list Header) (framing : BodyFraming)
  : outcome Error bool :=
  match framing with
  | FramingClose => Ok false
  | _ =>
      '(close, keep_alive, other) ←
        foldl (λ acc h, foldl reuse_element acc (split_on 44 (value h)))
          (Ok (false, false, false)) (List.filter (named (bs "connection")) hs);
      Ok (negb close && negb other && ((version =? 1) || keep_alive))
  end.

Definition content_length_header (acc : outcome Error (option Z)) (h : Header) : outcome Error (option Z) :=
  length ← acc;
  parsed ← parse_content_length_value (value h);
  if match length with Some existing => negb (existing =? parsed) | None => false end
  then Err (http_error "HTTP response contains conflicting Content-Length values")
  else Ok (Some parsed).

Definition response_content_length (hs : list Header) : outcome Error (option Z) :=
  foldl content_length_header (Ok None) (List.filter (named (bs "content-length")) hs).

Definition transfer_coding (acc : outcome Error (list (list Z))) (raw : list Z) : outcome Error (list (list Z)) :=
  codings ← acc;
  let coding := trim_ows raw in
  if bool_decide (coding = []) then Err (http_error "HTTP Transfer-Encoding is invalid")
  else Ok (codings ++ [coding]).

Definition response_transfer_encoding (hs : list Header) : outcome Error bool :=
  codings ← foldl (λ acc h, foldl transfer_coding acc (split_on 44 (value h)))
              (Ok []) (List.filter (named (bs "transfer-encoding")) hs);
  match codings with
  | [] => Ok false
  | [coding] =>
      if eq_ignore_ascii_case coding (bs "chunked") then Ok true
      else Err (http_error "native HTTP supports only a single chunked transfer coding")
  | _ => Err (http_error "native HTTP supports only a single chunked transfer coding")
  end.

Section with_httparse.
Context {hp : HttpParse}.

Inductive ResponseHeadParseError := TooManyHeaders | Invalid (e : Error).

Record ParsedResponseParts := mkParts { version : Z; status : Z; part_headers : list Header }.

Definition parse_response_parts (slots : Z) (b : list Z)
  : outcome ResponseHeadParseError ParsedResponseParts :=
  match hp_response slots b with
  | HpPartial => Err (Invalid (http_error "HTTP response head ended prematurely"))
  | HpTooManyHeaders => Err TooManyHeaders
  | HpError d => Err (Invalid (http_error ("HTTP response head is malformed: " +:+ d)))
  | HpComplete (consumed, ver, code, hs) =>
      if negb (consumed =? len b)
      then Err (Invalid (http_error "HTTP response head has trailing bytes"))
      else match ver with
      | None => Err (Invalid (http_error "HTTP response has no version"))
      | Some v =>
          if negb ((v =? 0) || (v =? 1))
          then Err (Invalid (http_error "HTTP response version is unsupported"))
          else match code with
          | Some st =>
              if in_range 100 599 st
              then Ok (mkParts v st (if in_range 100 199 st then [] else hs))
              else Err (Invalid (http_error "HTTP response status is invalid"))
          | None => Err (Invalid (http_error "HTTP response status is invalid"))
          end
      end
  end.

(** The two tries: the stack slots, then the configured number of slots. *)
Definition parse_head_parts (b : list Z) (limits : HttpLimits) : outcome Error ParsedResponseParts :=
  let stack_count := Z.min (header_count limits) STACK_RESPONSE_HEADER_SLOTS in
  match parse_response_parts stack_count b with
  | Ok p => Ok p
  | Err TooManyHeaders =>
      if stack_count <? header_count limits then
        match parse_response_parts (header_count limits) b with
        | Ok p => Ok p
        | Err TooManyHeaders => Err (response_header_count_limit (header_count limits))
        | Err (Invalid e) => Err e
        | Panic => Panic
        | Diverge => Diverge
        end
      else Err (response_header_count_limit (header_count limits))
  | Err (Invalid e) => Err e
  | Panic => Panic
  | Diverge => Diverge
  end.

Definition parse_response_head (b : list Z) (to_head : bool) (limits : HttpLimits)
  : outcome Error ParsedHead :=
  p ← parse_head_parts b limits;
  if in_range 100 199 (status p) then
    if status p =? 101
    then Err (error_new ErrorKind.Unsupported "HTTP protocol switching is not supported")
    else Ok Informational
  else
    length ← response_content_length (part_headers p);
    chunked ← response_transfer_encoding (part_headers p);
    if chunked && bool_decide (is_Some length)
    then Err (http_error "HTTP response contains both Transfer-Encoding and Content-Length")
    else
      framing ←
        (if to_head || (status p =? 204) || (status p =? 304) then Ok FramingNone
         else if (chunked : bool) then Ok FramingChunked
         else match length with
              | Some n =>
                  if body_bytes limits <? n then Err (response_body_limit_error (body_bytes limits))
                  else Ok (FramingFixed n)
              | None => Ok FramingClose
              end);
      reuse ← response_permits_reuse (version p) (part_headers p) framing;
      Ok (Final (status p) (part_headers p) framing reuse).

Definition forbidden_trailer (h : Header) : bool :=
  let n := ascii_lowercase (name h) in
  bytes_eqb n (bs "content-length") || bytes_eqb n (bs "transfer-encoding") || bytes_eqb n (bs "host").

Definition validate_trailers (b : list Z) (limits : HttpLimits) : outcome Error unit :=
  match hp_headers (header_count limits) b with
  | HpPartial => Err (http_error "HTTP response trailers ended prematurely")
  | HpTooManyHeaders => Err (response_header_count_limit (header_count limits))
  | HpError d => Err (http_error ("HTTP response trailers are malformed: " +:+ d))
  | HpComplete (consumed, hs) =>
      if negb (consumed =? len b) then Err (http_error "HTTP response trailers have trailing bytes")
      else if existsb forbidden_trailer hs
      then Err (http_error "HTTP response trailers contain a forbidden framing field")
      else Ok tt
  end.

End with_httparse.
End with_target.
End Http1.
