(* ===== verification/Http1Proofs.v ===== *)
(** * Correctness of HTTP/1.1 response heads

    What the fields of a response say of its body ([framed]) and of its
    connection ([kept_open]), independently of the parser; and that the parser
    accepts exactly the heads whose fields say one thing, and says the same. *)

From stdpp Require Import base list strings.
From Stdlib Require Import ZArith Lia.
From S2P Require Import Prelude Errors BodyBudget Request RequestProofs Stream Http1.
Import Budget Request Http1.

(** ** Folds that can fail *)

Lemma foldl_ind {A B} (Q : A → Prop) (f : A → B → A) (a : A) (l : list B) :
  Q a → (∀ a x, x ∈ l → Q a → Q (f a x)) → Q (foldl f a l).
Proof.
  revert a. induction l as [|x l IH]; intros a Ha Hf; [done|]. cbn [foldl].
  apply IH; [|by intros; apply Hf; [apply list_elem_of_further|]]. apply Hf; [apply list_elem_of_here|done].
Qed.

Lemma owp_foldl {E A B} (P : A → Prop) (R : E → Prop) (f : outcome E A → B → outcome E A) o (l : list B) :
  owp o P R → (∀ o x, x ∈ l → owp o P R → owp (f o x) P R) → owp (foldl f o l) P R.
Proof. apply (foldl_ind (λ o, owp o P R)). Qed.

Lemma owp_true_inv {E A} (o : outcome E A) P : owp o P (λ _, True) → ∀ a, o = Ok a → P a.
Proof. by intros H a ->. Qed.

Section with_target.
Context {tgt : Target}.

Lemma usize_nonneg : 0 ≤ usize_max.
Proof. pose proof usize_bounds. unfold u32_max in *. lia. Qed.

Lemma content_length_value_owp v :
  owp (parse_content_length_value v) (λ n, 0 ≤ n ≤ usize_max) (λ _, True).
Proof.
  unfold parse_content_length_value. wp_go.
  eapply owp_mono; [apply (owp_foldl (λ p, ∀ n, p = Some n → 0 ≤ n ≤ usize_max) (λ _, True))| |done].
  - done.
  - intros o raw _ Ho. unfold length_element. wp_go. eapply owp_mono; [exact Ho| |done].
    intros parsed Hp. cbn beta. zcase; wp_go; [done|].
    wp_some n Hn. apply parse_uint_bound in Hn; [|apply usize_nonneg].
    zcase; wp_go; [done|]. by intros ? [= <-].
  - intros parsed Hp. cbn beta. wp_some n ->. by apply Hp.
Qed.

Lemma response_content_length_owp hs :
  owp (response_content_length hs) (λ p, ∀ n, p = Some n → 0 ≤ n ≤ usize_max) (λ _, True).
Proof.
  apply owp_foldl; [done|]. intros o h _ Ho. unfold content_length_header. wp_go.
  eapply owp_mono; [exact Ho| |done]. intros length _. wp_go.
  eapply owp_mono; [apply content_length_value_owp| |done]. intros n Hn. cbn beta.
  zcase; wp_go; [done|]. by intros ? [= <-].
Qed.

Lemma response_transfer_encoding_owp hs :
  owp (response_transfer_encoding hs) (λ _, True) (λ _, True).
Proof.
  unfold response_transfer_encoding. wp_go.
  eapply owp_mono; [apply (owp_foldl (λ _, True) (λ _, True))| |done]; [done| |].
  - intros o h _ Ho. apply owp_foldl; [done|]. clear o Ho. intros o raw _ Ho. unfold transfer_coding. wp_go.
    eapply owp_mono; [exact Ho| |done]. intros codings _. cbn beta. by zcase; wp_go.
  - intros codings _. destruct codings as [|c [|]]; wp_go; [done| |done]. by zcase; wp_go.
Qed.

(** ** What the fields of a response say *)

(** The elements of the comma-separated values of all fields called [n], with
    what [p] holds of (spaces and tabs) taken off both ends. *)
Definition elements (p : Z → bool) (n : list Z) (hs : list Header) : list (list Z) :=
  concat (map (λ h, map (trim p) (split_on 44 (value h))) (List.filter (named n) hs)).

(** A decimal numeral, as [1*DIGIT] of RFC 9110, and its number. *)
Definition numeral (n : Z) (ds : list Z) : Prop :=
  ds ≠ [] ∧ Forall (λ d, 48 ≤ d ≤ 57) ds ∧ foldl (λ a d, a * 10 + (d - 48)) 0 ds = n.

(** The Content-Length fields: none, or all elements of all of them numerals of
    the same number, which a [usize] can hold. *)
Inductive declares_length (hs : list Header) : option Z → Prop :=
| no_length : List.filter (named (bs "content-length")) hs = [] → declares_length hs None
| one_length n :
    elements is_ows (bs "content-length") hs ≠ [] → Forall (numeral n) (elements is_ows (bs "content-length") hs) →
    n ≤ usize_max → declares_length hs (Some n).

(** The Transfer-Encoding fields: none, or one element in all, [chunked]. *)
Inductive declares_chunks (hs : list Header) : bool → Prop :=
| no_coding : List.filter (named (bs "transfer-encoding")) hs = [] → declares_chunks hs false
| one_coding e :
    elements is_ows (bs "transfer-encoding") hs = [e] → eq_ignore_ascii_case e (bs "chunked") = true →
    declares_chunks hs true.

Definition bodiless (to_head : bool) (st : Z) : Prop := to_head = true ∨ st = 204 ∨ st = 304.

(** The framing of a final response's body. *)
Inductive framed (to_head : bool) (limits : HttpLimits) (st : Z) (hs : list Header) : BodyFraming → Prop :=
| framed_none length chunked :
    bodiless to_head st → declares_length hs length → declares_chunks hs chunked →
    ¬ (chunked = true ∧ length ≠ None) → framed to_head limits st hs FramingNone
| framed_fixed n :
    ¬ bodiless to_head st → declares_length hs (Some n) → declares_chunks hs false → n ≤ body_bytes limits →
    framed to_head limits st hs (FramingFixed n)
| framed_chunked :
    ¬ bodiless to_head st → declares_length hs None → declares_chunks hs true → framed to_head limits st hs FramingChunked
| framed_close :
    ¬ bodiless to_head st → declares_length hs None → declares_chunks hs false → framed to_head limits st hs FramingClose.

(** Whether the connection is kept: not when its end is the body's; otherwise
    the Connection fields hold tokens, all of them [keep-alive], and at least
    one does for HTTP/1.0. *)
Definition connection_tokens : list Header → list (list Z) := elements is_ascii_whitespace (bs "connection").
Definition kept_open (v : Z) (hs : list Header) (fr : BodyFraming) (reuse : bool) : Prop :=
  match fr with
  | FramingClose => reuse = false
  | _ =>
      Forall (λ t, t ≠ [] ∧ Forall (λ b, is_token_byte b = true) t) (connection_tokens hs) ∧
      (reuse = true ↔ Forall (λ t, eq_ignore_ascii_case t (bs "keep-alive") = true) (connection_tokens hs) ∧
                      (v = 1 ∨ connection_tokens hs ≠ []))
  end.

(** ** Values *)

Lemma split_on_ne sep l : split_on sep l ≠ [].
Proof. destruct l as [|b l]; cbn; [done|]. destruct (b =? sep); [done|]. by destruct (split_on sep l). Qed.

Lemma elements_nil p n hs : elements p n hs = [] ↔ List.filter (named n) hs = [].
Proof.
  unfold elements. destruct (List.filter (named n) hs) as [|h l]; [done|]. cbn. pose proof (split_on_ne 44 (value h)).
  by destruct (split_on 44 (value h)).
Qed.

Lemma parse_digits_value m l : ∀ acc,
  0 ≤ acc ≤ m → Forall (λ d, 48 ≤ d ≤ 57) l →
  ∀ n, parse_digits m acc l = Some n ↔ foldl (λ a d, a * 10 + (d - 48)) acc l = n ∧ n ≤ m.
Proof.
  assert (Hmono : ∀ l acc, 0 ≤ acc → Forall (λ d, 48 ≤ d ≤ 57) l → acc ≤ foldl (λ a d, a * 10 + (d - 48)) acc l).
  { clear. induction l as [|d l IH]; intros acc Ha Hd; cbn; [done|]. apply Forall_cons in Hd as [? Hd].
    etrans; [|apply IH]; [lia|lia|done]. }
  induction l as [|d l IH]; intros acc Ha Hd n; cbn [parse_digits foldl].
  { split; [intros [= <-]; split; [done|lia]|by intros [-> _]]. }
  apply Forall_cons in Hd as [Hb Hd]. replace (is_ascii_digit d) with true
    by (symmetry; apply andb_true_iff; rewrite !Z.leb_le; lia). cbv zeta. zcase; [apply IH; [lia|done]|].
  specialize (Hmono l (acc * 10 + (d - 48)) ltac:(lia) Hd). split; [done|intros [<- ?]; lia].
Qed.

Lemma digits_spec item : forallb is_ascii_digit item = true ↔ Forall (λ d, 48 ≤ d ≤ 57) item.
Proof.
  rewrite forallb_forall, Forall_forall. setoid_rewrite list_elem_of_In. unfold is_ascii_digit, in_range.
  setoid_rewrite andb_true_iff. setoid_rewrite Z.leb_le. done.
Qed.
Lemma parse_uint_numeral item n :
  Forall (λ d, 48 ≤ d ≤ 57) item → item ≠ [] → parse_uint usize_max item = Some n ↔ numeral n item ∧ n ≤ usize_max.
Proof.
  intros Hd Hne. pose proof usize_nonneg. unfold parse_uint. destruct (strip_prefix [43] item) as [r|] eqn:Hs.
  { apply strip_prefix_some in Hs as ->. apply Forall_cons in Hd as [? _]. lia. }
  rewrite bool_decide_eq_false_2, parse_digits_value by done. unfold numeral. naive_solver.
Qed.

(** What [length_element] makes of one element. *)
Definition length_ok (n : Z) (raw : list Z) : Prop := numeral n (trim_ows raw) ∧ n ≤ usize_max.
Lemma length_element_spec o raw p :
  length_element (Ok o) raw = Ok p ↔ ∃ n, p = Some n ∧ length_ok n raw ∧ (o = None ∨ o = Some n).
Proof.
  unfold length_element, length_ok. cbn [mbind outcome_bind].
  destruct (bool_decide _ || _) eqn:Hbad.
  { split; [done|]. intros (n & _ & [(Hne & Hd & _) _] & _). apply orb_true_iff in Hbad as [?%bool_decide_eq_true|Hf]; [done|].
    apply digits_spec in Hd. by rewrite Hd in Hf. }
  apply orb_false_iff in Hbad as [Hne%bool_decide_eq_false Hd%negb_false_iff%digits_spec].
  pose proof (λ n, parse_uint_numeral (trim_ows raw) n Hd Hne) as Hp. destruct (parse_uint usize_max (trim_ows raw)) as [v|] eqn:Hv; cbn.
  - pose proof (proj1 (Hp v) eq_refl) as Hnum. destruct o as [m|].
    + destruct (Z.eqb_spec m v) as [->|Hmv]; cbn.
      * split; [intros [= <-]; exists v; auto|]. by intros (n & -> & _ & [|[= ->]]).
      * split; [done|]. intros (n & _ & [(_ & _ & H1) _] & [|[= ->]]); [done|]. destruct Hnum as [(_ & _ & H2) _]. congruence.
    + split; [intros [= <-]; exists v; auto|]. intros (n & -> & [(_ & _ & H1) _] & _). destruct Hnum as [(_ & _ & H2) _]. congruence.
  - split; [done|]. intros (n & _ & Hn & _). apply Hp in Hn; congruence.
Qed.

(** A fold whose steps agree with one value. *)
Lemma foldl_agree {A B} (f : outcome Error (option A) → B → outcome Error (option A)) (P : A → B → Prop) :
  (∀ o x p, f (Ok o) x = Ok p ↔ ∃ n, p = Some n ∧ P n x ∧ (o = None ∨ o = Some n)) →
  (∀ o x p, f o x = Ok p → ∃ o', o = Ok o') →
  ∀ l o p, foldl f (Ok o) l = Ok p ↔ (l = [] ∧ p = o) ∨ ∃ n, l ≠ [] ∧ p = Some n ∧ Forall (P n) l ∧ (o = None ∨ o = Some n).
Proof.
  intros Hf Hok. assert (Herr : ∀ l o p, foldl f o l = Ok p → ∃ o', o = Ok o').
  { induction l as [|x l IH]; cbn; [eauto|]. intros o p [o' Ho]%IH. by eapply Hok. }
  induction l as [|x l IH]; intros o p; cbn [foldl].
  { split; [intros [= <-]; by left|]. by intros [[_ ->]|(n & ? & _)]. }
  split.
  - intros Hfold. destruct (Herr _ _ _ Hfold) as [o' Ho]. rewrite Ho in Hfold. apply Hf in Ho as (n & -> & HP & Ho).
    right. exists n. apply IH in Hfold as [[-> ->]|(m & _ & -> & Hall & [|[= <-]])]; [by auto|done|by auto].
  - intros [[? _]|(n & _ & -> & [HP Hall]%Forall_cons & Ho)]; [done|]. rewrite (proj2 (Hf o x (Some n))) by eauto.
    apply IH. destruct l; [by left|]. right. exists n. by auto.
Qed.

Lemma content_length_value_spec v n :
  parse_content_length_value v = Ok n ↔ Forall (numeral n) (map trim_ows (split_on 44 v)) ∧ n ≤ usize_max.
Proof.
  pose proof (foldl_agree length_element length_ok length_element_spec) as Hfold.
  specialize (Hfold ltac:(by intros [?| | |]; eauto) (split_on 44 v) None). pose proof (split_on_ne 44 v) as Hne.
  assert (Hall : Forall (length_ok n) (split_on 44 v) ↔ Forall (numeral n) (map trim_ows (split_on 44 v)) ∧ n ≤ usize_max).
  { unfold length_ok. rewrite Forall_and, Forall_map. split; [intros [? Hb]; split; [done|]|by intros [? ?]; split; [|apply Forall_true]].
    destruct (split_on 44 v); [done|]. by apply Forall_cons in Hb as [? _]. }
  unfold parse_content_length_value. rewrite <-Hall. clear Hall.
  destruct (foldl length_element (Ok None) (split_on 44 v)) as [p| | |] eqn:Hp; cbn [mbind outcome_bind].
  2-4: split; [done|]; intros Hn; by pose proof (proj2 (Hfold (Some n)) (or_intror (ex_intro _ n (conj Hne (conj eq_refl (conj Hn (or_introl eq_refl))))))).
  destruct (proj1 (Hfold p) eq_refl) as [[? _]|(m & _ & -> & Hm & _)]; [done|]. cbn. split; [by intros [= <-]|].
  intros Hn. f_equal. destruct (split_on 44 v) as [|x l]; [done|]. apply Forall_cons in Hm as [[(_ & _ & H1) _] _].
  apply Forall_cons in Hn as [[(_ & _ & H2) _] _]. congruence.
Qed.

Lemma response_content_length_spec hs p : response_content_length hs = Ok p ↔ declares_length hs p.
Proof.
  unfold response_content_length. set (P := λ n h, parse_content_length_value (value h) = Ok n).
  rewrite (foldl_agree content_length_header P).
  2: { intros o h q. unfold content_length_header, P. cbn [mbind outcome_bind].
       destruct (parse_content_length_value (value h)) as [v| | |] eqn:Hv; cbn; try naive_solver.
       destruct o as [m|]; [destruct (Z.eqb_spec m v); cbn|]; naive_solver. }
  2: { intros [?| | |]; eauto. }
  assert (Hall : ∀ n, List.filter (named (bs "content-length")) hs ≠ [] → Forall (P n) (List.filter (named (bs "content-length")) hs) ↔
    Forall (numeral n) (elements is_ows (bs "content-length") hs) ∧ n ≤ usize_max).
  { intros n Hne. unfold elements. rewrite Forall_concat, Forall_map. unfold P. setoid_rewrite content_length_value_spec.
    rewrite Forall_and. split; [intros [? Hb]; split; [done|]|by intros [? ?]; split; [|apply Forall_true]].
    destruct (List.filter _ hs); [done|]. by apply Forall_cons in Hb as [? _]. }
  split.
  - intros [[Hnil ->]|(n & Hne & -> & Hn & _)]; [by constructor|]. apply Hall in Hn as [? ?]; [|done].
    constructor; [by rewrite elements_nil|done..].
  - intros [Hnil|n Hne Hn Hb]; [by left|right]. rewrite elements_nil in Hne. exists n. split_and!; try auto. by apply Hall.
Qed.

Lemma transfer_coding_spec raws : ∀ acc cs,
  foldl transfer_coding (Ok acc) raws = Ok cs ↔ cs = acc ++ map trim_ows raws ∧ Forall (λ raw, trim_ows raw ≠ []) raws.
Proof.
  assert (Herr : ∀ raws (o : outcome Error (list (list Z))) cs, foldl transfer_coding o raws = Ok cs → ∃ acc, o = Ok acc).
  { clear. induction raws as [|raw raws IH]; cbn; [eauto|]. intros o cs [acc Ho]%IH. destruct o; eauto. }
  induction raws as [|raw raws IH]; intros acc cs; cbn [foldl map].
  { rewrite app_nil_r. split; [by intros [= <-]|by intros [-> _]]. }
  unfold transfer_coding at 2. cbn [mbind outcome_bind]. rewrite Forall_cons. destruct (bool_decide _) eqn:Hb.
  - apply bool_decide_eq_true in Hb. split; [intros [? [=]]%Herr|]. by intros (_ & ? & _).
  - apply bool_decide_eq_false in Hb. rewrite IH, <-app_assoc. naive_solver.
Qed.
Lemma foldl_concat {A B C} (f : A → B → A) (g : C → list B) l : ∀ a,
  foldl (λ a x, foldl f a (g x)) a l = foldl f a (concat (map g l)).
Proof. induction l as [|x l IH]; intros a; cbn; [done|]. by rewrite IH, foldl_app. Qed.

Lemma response_transfer_encoding_spec hs c : response_transfer_encoding hs = Ok c ↔ declares_chunks hs c.
Proof.
  unfold response_transfer_encoding. rewrite foldl_concat.
  set (raws := concat (map (λ h, split_on 44 (value h)) (List.filter (named (bs "transfer-encoding")) hs))).
  assert (Hraws : map trim_ows raws = elements is_ows (bs "transfer-encoding") hs).
  { unfold raws, elements. rewrite concat_map, map_map. done. }
  pose proof (transfer_coding_spec raws []) as Hfold. cbn [app] in Hfold. rewrite Hraws in Hfold.
  assert (Hne : ∀ e, elements is_ows (bs "transfer-encoding") hs = [e] → eq_ignore_ascii_case e (bs "chunked") = true →
    Forall (λ raw, trim_ows raw ≠ []) raws).
  { intros e He Hc. rewrite <-Hraws in He. destruct raws as [|raw [|]]; try done. injection He as <-. apply Forall_singleton.
    intros H0. by rewrite H0 in Hc. }
  destruct (foldl transfer_coding (Ok []) raws) as [cs| | |] eqn:Hcs; cbn [mbind outcome_bind].
  2-4: split; [done|]; intros [Hnil|t Ht Hc]; exfalso;
    first [subst raws; by rewrite Hnil in Hcs|by pose proof (proj2 (Hfold _) (conj eq_refl (Hne t Ht Hc)))].
  destruct (proj1 (Hfold cs) eq_refl) as [-> _]. split.
  - destruct (elements _ _ _) as [|e [|]] eqn:He; cbn; [|destruct (eq_ignore_ascii_case _ _) eqn:Hc; [|done]|done]; intros [= <-].
    + apply no_coding. by apply elements_nil in He.
    + by eapply one_coding.
  - intros [Hnil|e He Hc]; [apply (elements_nil is_ows) in Hnil; by rewrite Hnil|by rewrite He, Hc].
Qed.

Lemma reuse_element_spec raws : ∀ c k x r,
  foldl reuse_element (Ok (c, k, x)) raws = Ok r ↔
  let ts := map trim_ascii_whitespace raws in
  r = (c || existsb (λ t, eq_ignore_ascii_case t (bs "close")) ts,
       k || existsb (λ t, eq_ignore_ascii_case t (bs "keep-alive")) ts,
       x || existsb (λ t, negb (eq_ignore_ascii_case t (bs "close")) && negb (eq_ignore_ascii_case t (bs "keep-alive"))) ts) ∧
  Forall (λ t, bad_connection_token t = false) ts.
Proof.
  assert (Herr : ∀ raws (o : outcome Error (bool * bool * bool)) r, foldl reuse_element o raws = Ok r → ∃ a, o = Ok a).
  { clear. induction raws as [|raw raws IH]; cbn; [eauto|]. intros o r [a Ho]%IH. destruct o; eauto. }
  induction raws as [|raw raws IH]; intros c k x r; cbn [foldl map existsb].
  { rewrite !orb_false_r. split; [by intros [= <-]|by intros [-> _]]. }
  unfold reuse_element at 2. cbn [mbind outcome_bind]. cbv zeta. rewrite Forall_cons.
  destruct (bad_connection_token _) eqn:Hb.
  - split; [intros [? [=]]%Herr|]. by intros (_ & ? & _).
  - rewrite IH, !orb_assoc. cbv zeta. naive_solver.
Qed.

Lemma good_token t : bad_connection_token t = false ↔ t ≠ [] ∧ Forall (λ b, is_token_byte b = true) t.
Proof.
  unfold bad_connection_token. rewrite orb_false_iff, bool_decide_eq_false, negb_false_iff, forallb_forall, Forall_forall.
  by setoid_rewrite list_elem_of_In.
Qed.
Lemma keep_alive_not_close t :
  eq_ignore_ascii_case t (bs "keep-alive") = true → eq_ignore_ascii_case t (bs "close") = false.
Proof. unfold eq_ignore_ascii_case. rewrite bytes_eqb_eq. by intros ->. Qed.
Lemma existsb_false_Forall {A} (f : A → bool) l : existsb f l = false ↔ Forall (λ x, f x = false) l.
Proof. induction l as [|x l IH]; cbn; [done|]. by rewrite orb_false_iff, Forall_cons, IH. Qed.

Lemma response_permits_reuse_spec v hs fr r : response_permits_reuse v hs fr = Ok r ↔ kept_open v hs fr r.
Proof.
  unfold response_permits_reuse, kept_open. rewrite foldl_concat.
  set (raws := concat (map (λ h, split_on 44 (value h)) (List.filter (named (bs "connection")) hs))).
  assert (Hraws : map trim_ascii_whitespace raws = connection_tokens hs).
  { unfold raws, connection_tokens, elements. rewrite concat_map, map_map. done. }
  pose proof (reuse_element_spec raws false false false) as Hfold. cbv zeta in Hfold. rewrite Hraws in Hfold.
  set (ts := connection_tokens hs) in *.
  assert (Htok : Forall (λ t, bad_connection_token t = false) ts ↔ Forall (λ t, t ≠ [] ∧ Forall (λ b, is_token_byte b = true) t) ts)
    by (by setoid_rewrite good_token).
  assert (Hgen : (('(c, k, x) ← foldl reuse_element (Ok (false, false, false)) raws;
                   Ok (negb c && negb x && ((v =? 1) || k))) = Ok r) ↔
    Forall (λ t, bad_connection_token t = false) ts ∧
    (r = true ↔ Forall (λ t, eq_ignore_ascii_case t (bs "keep-alive") = true) ts ∧ (v = 1 ∨ ts ≠ []))).
  { destruct (foldl reuse_element (Ok (false, false, false)) raws) as [a| | |]; cbn [mbind outcome_bind].
    2-4: split; [done|]; intros [Hall _]; by pose proof (proj2 (Hfold _) (conj eq_refl Hall)).
    destruct (proj1 (Hfold a) eq_refl) as [-> Hall]. cbn [orb]. clear Hfold.
    assert (Hiff : negb (existsb (λ t, eq_ignore_ascii_case t (bs "close")) ts) &&
        negb (existsb (λ t, negb (eq_ignore_ascii_case t (bs "close")) && negb (eq_ignore_ascii_case t (bs "keep-alive"))) ts) &&
        ((v =? 1) || existsb (λ t, eq_ignore_ascii_case t (bs "keep-alive")) ts) = true ↔
      Forall (λ t, eq_ignore_ascii_case t (bs "keep-alive") = true) ts ∧ (v = 1 ∨ ts ≠ [])).
    { rewrite !andb_true_iff, !negb_true_iff, !existsb_false_Forall, orb_true_iff, Z.eqb_eq. split.
      - intros [[Hc Hx] Hk]. split; [|destruct Hk as [|Hk]; [by left|right; intros ->; done]].
        apply Forall_forall. intros t Ht. rewrite Forall_forall in Hc, Hx. specialize (Hc t Ht). specialize (Hx t Ht). cbn beta in Hc, Hx.
        rewrite Hc in Hx. cbn [negb andb] in Hx. by apply negb_false_iff in Hx.
      - intros [Hk Hv]. split_and!.
        + eapply Forall_impl; [exact Hk|]. apply keep_alive_not_close.
        + eapply Forall_impl; [exact Hk|]. cbn beta. intros t Ht. by rewrite Ht, andb_false_r.
        + destruct Hv as [|Hne]; [by left|right]. destruct ts as [|t ts]; [done|]. apply Forall_cons in Hk as [Ht _]. cbn [existsb]. by rewrite Ht. }
    split; [intros [= <-]; by split|]. intros [_ Hr]. f_equal. apply Bool.eq_iff_eq_true. by rewrite Hiff, Hr. }
  rewrite Htok in Hgen. destruct fr; try exact Hgen. split; [by intros [= <-]|by intros ->].
Qed.

(** ** Heads *)

Section with_httparse.
Context {hp : HttpParse}.

Lemma parse_response_parts_owp slots b :
  owp (parse_response_parts slots b) (λ p, 100 ≤ status p ≤ 599) (λ _, True).
Proof.
  unfold parse_response_parts. destruct (hp_response slots b) as [[[[n v] c] hs]| | |]; try done.
  zcase; [|done]. destruct v as [v|]; [|done]. zcase; [|done]. destruct c as [st|]; [|done].
  unfold in_range at 1. destruct (Z.leb_spec 100 st), (Z.leb_spec st 599); cbn; done || lia.
Qed.

Lemma parse_head_parts_owp b limits :
  owp (parse_head_parts b limits) (λ p, 100 ≤ status p ≤ 599) (λ _, True).
Proof.
  unfold parse_head_parts.
  pose proof (parse_response_parts_owp (Z.min (header_count limits) STACK_RESPONSE_HEADER_SLOTS) b) as H1.
  destruct (parse_response_parts _ b) as [p|[|e]| |]; try done. zcase; [|done].
  pose proof (parse_response_parts_owp (header_count limits) b) as H2.
  destruct (parse_response_parts (header_count limits) b) as [p|[|e]| |]; done.
Qed.


(** No [Connection] field makes the parser panic. *)
Lemma response_permits_reuse_owp v hs fr : owp (response_permits_reuse v hs fr) (λ r, kept_open v hs fr r) (λ _, True).
Proof.
  assert (Hok : owp (response_permits_reuse v hs fr) (λ _, True) (λ _, True)).
  { unfold response_permits_reuse. rewrite foldl_concat.
    set (raws := concat _). assert (Hf : owp (foldl reuse_element (Ok (false, false, false)) raws) (λ _, True) (λ _, True)).
    { apply owp_foldl; [done|]. intros o raw _ Ho. unfold reuse_element. wp_go. eapply owp_mono; [exact Ho| |done].
      intros [[c k] x] _. cbn beta iota. by zcase; wp_go. }
    destruct fr; [| | |done]; wp_go; (eapply owp_mono; [exact Hf| |done]); intros [[c k] x] _; by wp_go. }
  destruct (response_permits_reuse v hs fr) as [r| | |] eqn:Hr; try done. by apply response_permits_reuse_spec in Hr.
Qed.

Lemma bodiless_spec to_head st : to_head || (st =? 204) || (st =? 304) = true ↔ bodiless to_head st.
Proof. unfold bodiless. rewrite !orb_true_iff, !Z.eqb_eq. tauto. Qed.

Lemma declares_length_inj hs l l' : declares_length hs l → declares_length hs l' → l = l'.
Proof. intros H1%response_content_length_spec H2%response_content_length_spec. congruence. Qed.
Lemma declares_chunks_inj hs c c' : declares_chunks hs c → declares_chunks hs c' → c = c'.
Proof. intros H1%response_transfer_encoding_spec H2%response_transfer_encoding_spec. congruence. Qed.
Lemma declares_length_nonneg hs n : declares_length hs (Some n) → 0 ≤ n.
Proof.
  intros Hn%response_content_length_spec. pose proof (response_content_length_owp hs) as H. rewrite Hn in H. by apply (H n).
Qed.

(** The fields allow at most one framing. *)
Lemma framed_inj to_head limits st hs fr fr' :
  framed to_head limits st hs fr → framed to_head limits st hs fr' → fr = fr'.
Proof.
  intros [l c|n|  | ] [l' c'|n'| | ]; try done.
  all: repeat match goal with
    | H : declares_length _ ?l, H' : declares_length _ ?l' |- _ => pose proof (declares_length_inj _ _ _ H H'); clear H'
    | H : declares_chunks _ ?c, H' : declares_chunks _ ?c' |- _ => pose proof (declares_chunks_inj _ _ _ H H'); clear H'
    end; congruence.
Qed.

(** The head of a final response, given its status line and fields. *)
Lemma parse_response_head_spec b to_head limits p fr reuse :
  parse_head_parts b limits = Ok p → 200 ≤ status p →
  parse_response_head b to_head limits = Ok (Final (status p) (part_headers p) fr reuse) ↔
  framed to_head limits (status p) (part_headers p) fr ∧ kept_open (version p) (part_headers p) fr reuse.
Proof.
  intros Hp Hst. unfold parse_response_head. rewrite Hp. cbn [mbind outcome_bind].
  replace (in_range 100 199 (status p)) with false by (symmetry; apply andb_false_iff; right; apply Z.leb_gt; lia).
  set (hs := part_headers p). set (st := status p) in *.
  pose proof (λ l, response_content_length_spec hs l) as Hl. pose proof (λ c, response_transfer_encoding_spec hs c) as Hc.
  assert (Hno : ∀ fr, framed to_head limits st hs fr → ∃ l c, response_content_length hs = Ok l ∧ response_transfer_encoding hs = Ok c ∧
    (c && bool_decide (is_Some l)) = false).
  { intros fr' [l c _ H1 H2 H3|n _ H1 H2|_ H1 H2|_ H1 H2]; apply Hl in H1; apply Hc in H2; eexists _, _; (split; [exact H1|split; [exact H2|]]); try done.
    destruct c, l; cbn; try done. exfalso. by apply H3. }
  destruct (response_content_length hs) as [l| | |] eqn:Hlen; cbn [mbind outcome_bind].
  2-4: split; [done|]; intros [(? & ? & ? & _)%Hno _]; congruence.
  destruct (response_transfer_encoding hs) as [c| | |] eqn:Hte; cbn [mbind outcome_bind].
  2-4: split; [done|]; intros [(? & ? & _ & ? & _)%Hno _]; congruence.
  specialize (Hl l). specialize (Hc c). destruct Hl as [Hl _]. destruct Hc as [Hc _]. specialize (Hl eq_refl). specialize (Hc eq_refl).
  destruct (c && bool_decide (is_Some l)) eqn:Hboth.
  { split; [done|]. intros [(l' & c' & Hl' & Hc' & Hb')%Hno _].
    injection Hl' as <-. injection Hc' as <-. by rewrite Hboth in Hb'. }
  assert (Hreuse : ∀ fr', framed to_head limits st hs fr' →
    ((reuse ← response_permits_reuse (version p) hs fr'; Ok (Final st hs fr' reuse)) = Ok (Final st hs fr reuse) ↔
     framed to_head limits st hs fr ∧ kept_open (version p) hs fr reuse)).
  { intros fr' Hfr. split.
    - destruct (response_permits_reuse (version p) hs fr') as [r| | |] eqn:Hr; cbn; try done. intros Heq.
      assert (fr' = fr ∧ r = reuse) as [<- <-] by (split; congruence). apply response_permits_reuse_spec in Hr. by split.
    - intros [Hfr2 Hk]. pose proof (framed_inj _ _ _ _ _ _ Hfr Hfr2) as ->. apply response_permits_reuse_spec in Hk. by rewrite Hk. }
  destruct (to_head || (st =? 204) || (st =? 304)) eqn:Hb; cbn [mbind outcome_bind].
  { apply bodiless_spec in Hb. apply Hreuse. eapply framed_none; [done..|]. intros [-> Hne]. cbn in Hboth.
    apply bool_decide_eq_false in Hboth. by destruct l; [destruct Hboth; eexists|]. }
  assert (Hnb : ¬ bodiless to_head st) by (intros H%bodiless_spec; congruence). clear Hb.
  destruct c; cbn [andb] in Hboth; cbn [mbind outcome_bind].
  { apply Hreuse. apply framed_chunked; try done. apply bool_decide_eq_false in Hboth. by destruct l; [destruct Hboth; eexists|]. }
  destruct l as [n|]; cbn [mbind outcome_bind]; [|apply Hreuse; by apply framed_close].
  destruct (Z.ltb_spec (body_bytes limits) n); cbn [mbind outcome_bind]; [|apply Hreuse; by apply framed_fixed].
  split; [done|]. intros [Hfr _]. exfalso.
  destruct Hfr as [| n' _ H1 _ H2 |_ H1|_ H1]; [done| |by pose proof (declares_length_inj _ _ _ Hl H1)|by pose proof (declares_length_inj _ _ _ Hl H1)].
  pose proof (declares_length_inj _ _ _ Hl H1). simplify_eq. lia.
Qed.

(** What a head guarantees: its status, framing and reuse follow from its
    status line and fields. *)
Definition framing_sound (to_head : bool) (limits : HttpLimits) (h : ParsedHead) : Prop :=
  match h with
  | Informational => True
  | Final st hs fr reuse => 200 ≤ st ≤ 599 ∧ framed to_head limits st hs fr ∧ ∃ v, kept_open v hs fr reuse
  end.
Lemma framing_fixed to_head limits st hs n reuse :
  framing_sound to_head limits (Final st hs (FramingFixed n) reuse) → 0 ≤ n ≤ body_bytes limits.
Proof. intros (_ & Hf & _). inversion Hf; subst. split; [by eapply declares_length_nonneg|done]. Qed.

Lemma parse_response_head_owp b to_head limits :
  owp (parse_response_head b to_head limits) (framing_sound to_head limits) (λ _, True).
Proof.
  pose proof (parse_head_parts_owp b limits) as Hparts. destruct (parse_head_parts b limits) as [p| | |] eqn:Hp; [| |done..].
  2: { unfold parse_response_head. by rewrite Hp. }
  cbn in Hparts. destruct (in_range 100 199 (status p)) eqn:Hinf.
  { unfold parse_response_head. rewrite Hp. cbn [mbind outcome_bind]. rewrite Hinf. by destruct (status p =? 101). }
  assert (Hfinal : 200 ≤ status p) by (apply andb_false_iff in Hinf as [?%Z.leb_gt|?%Z.leb_gt]; lia).
  assert (Hok : owp (parse_response_head b to_head limits) (λ h, ∃ fr reuse, h = Final (status p) (part_headers p) fr reuse) (λ _, True)).
  { unfold parse_response_head. rewrite Hp. cbn [mbind outcome_bind]. rewrite Hinf. wp_go.
    eapply owp_mono; [apply response_content_length_owp| |done]. intros l _. wp_go.
    eapply owp_mono; [apply response_transfer_encoding_owp| |done]. intros c _. cbn beta.
    repeat (case_match; wp_go; try done); (eapply owp_mono; [apply response_permits_reuse_owp| |done]); intros r _; wp_go; eauto. }
  destruct (parse_response_head b to_head limits) as [h| | |] eqn:Hh; try done. cbn in Hok. destruct Hok as (fr & reuse & ->).
  apply parse_response_head_spec in Hh as [? ?]; [|done..]. cbn. split_and!; [lia..|done|eauto].
Qed.
End with_httparse.
End with_target.

(** C36: whatever [httparse] returns for its bytes, parsing a response head
    never panics, and a final response has the framing and the reuse that its
    status line and its fields give it, or is refused: it is parsed with a
    framing exactly when the fields allow that framing, and they never allow
    two. All elements of all Content-Length fields must be decimal numerals of
    the same number, within the body limit where there is a body; the
    Transfer-Encoding fields must be absent or say [chunked] once, without
    Content-Length; there is no body for a HEAD request, 204 or 304, and the
    body ends with the connection only with neither field, and then the
    connection is not reused. It is reused exactly if every Connection element
    is keep-alive, and for HTTP/1.0 there is one; an element that is no token is
    refused. *)
Theorem response_framing_unambiguous `{Target} {hp : HttpParse} b to_head limits :
  owp (parse_response_head b to_head limits)
    (λ h, match h with Informational => True | Final st hs fr _ => 200 ≤ st ≤ 599 ∧ framed to_head limits st hs fr end) (λ _, True) ∧
  (∀ p fr reuse, parse_head_parts b limits = Ok p → 200 ≤ status p →
     parse_response_head b to_head limits = Ok (Final (status p) (part_headers p) fr reuse) ↔
     framed to_head limits (status p) (part_headers p) fr ∧ kept_open (version p) (part_headers p) fr reuse) ∧
  (∀ st hs fr fr', framed to_head limits st hs fr → framed to_head limits st hs fr' → fr = fr').
Proof.
  split_and!; [|intros; by apply parse_response_head_spec|intros; by eapply framed_inj].
  eapply owp_mono; [apply parse_response_head_owp| |done]. intros [|st hs fr reuse]; [done|]. by intros (? & ? & _).
Qed.

(** Two Content-Length fields that agree. *)
Definition agreeing_fields : list Header :=
  [mkHeader (bs "Content-Length") (bs "5, 05"); mkHeader (bs "content-length") (bs " 5 "); mkHeader (bs "Connection") (bs "Keep-Alive")].
Definition agreeing_parser : HttpParse.
Proof.
  refine {| hp_response := λ _ b, HpComplete (len b, Some 0, Some 200, agreeing_fields);
            hp_chunk_size := λ _, HpPartial; hp_headers := λ _ _, HpPartial |}.
  done.
Defined.
Definition agreeing_limits : HttpLimits := mkLimits 10 1024 16.

Lemma response_framing_unambiguous_witness :
  @parse_response_head target64 agreeing_parser [] false agreeing_limits = Ok (Final 200 agreeing_fields (FramingFixed 5) true).
Proof.
  destruct (@response_framing_unambiguous target64 agreeing_parser [] false agreeing_limits) as (_ & Hexact & _).
  apply (Hexact (mkParts 0 200 agreeing_fields) (FramingFixed 5) true); [reflexivity|discriminate|]. split.
  - apply framed_fixed.
    + intros [|[|]]; discriminate.
    + apply one_length; [discriminate| |vm_compute; discriminate].
      repeat constructor; solve [discriminate|vm_compute; discriminate|reflexivity].
    + by constructor.
    + vm_compute; discriminate.
  - cbn [kept_open]. split; [repeat constructor; discriminate|]. split; [intros _|done].
    split; [by repeat constructor|right; discriminate].
Defined.
