(* ===== verification/SerializeProofs.v ===== *)
(** * Correctness of request serialization

    A reference parser for request heads, and the proof that it reads the
    bytes of [serialize_request_with_upload] back to the method, the target
    and the fields they were made of: nothing in a request can end a line
    early or start another one. The fields name the host once and frame the
    body by its length or by chunks, never by both. *)

From stdpp Require Import base list strings.
From Stdlib Require Import ZArith Lia.
From S2P Require Import Prelude Errors BodyBudget Request RequestProofs Stream Http1 Http1Proofs.
Import Budget Request Http1.

#[local] Arguments len : simpl never.

(** ** A reference parser for request heads *)

(** Fields up to the empty line; [fuel] bounds their number. *)
Fixpoint read_fields (fuel : nat) (b : list Z) : option (list (list Z * list Z) * list Z) :=
  match fuel with
  | O => None
  | S fuel' =>
      '(line, rest) ← split_once CRLF b;
      if bool_decide (line = []) then Some ([], rest)
      else
        f ← split_once (bs ": ") line;
        '(fs, rest) ← read_fields fuel' rest;
        Some (f :: fs, rest)
  end.

Record RequestHead := mkHead {
  head_method : list Z; head_target : list Z; head_fields : list (list Z * list Z)
}.

(** The head of a request and the bytes after it. *)
Definition read_request (b : list Z) : option (RequestHead * list Z) :=
  '(line, rest) ← split_once CRLF b;
  '(m, line) ← split_once [SP] line;
  '(t, v) ← split_once [SP] line;
  if bytes_eqb v (bs "HTTP/1.1")
  then '(fs, rest) ← read_fields (length rest) rest; Some (mkHead m t fs, rest)
  else None.

(** ** Printing and reading back *)

Definition print_fields (fs : list (list Z * list Z)) : list Z :=
  concat (map (λ f, append_header (fst f) (snd f)) fs).

Lemma print_fields_cons n v fs rest :
  print_fields ((n, v) :: fs) ++ rest = (n ++ bs ": " ++ v) ++ CRLF ++ (print_fields fs ++ rest).
Proof. unfold print_fields, append_header. cbn [map concat fst snd]. by rewrite <-!app_assoc. Qed.

(** A field that stays on its line and splits at its own colon. *)
Definition clean_field (f : list Z * list Z) : Prop :=
  f.1 ≠ [] ∧ ¬ (58 ∈ f.1) ∧ ¬ (CR ∈ f.1) ∧ ¬ (CR ∈ f.2).

Lemma split_line a rest : CR ∉ a → split_once CRLF (a ++ CRLF ++ rest) = Some (a, rest).
Proof. apply split_once_app. Qed.

Lemma split_space a rest : SP ∉ a → split_once [SP] (a ++ [SP] ++ rest) = Some (a, rest).
Proof. apply split_once_app. Qed.

Lemma read_fields_print fs rest fuel :
  Forall clean_field fs → (length fs < fuel)%nat →
  read_fields fuel (print_fields fs ++ CRLF ++ rest)
  = Some (fs, rest).
Proof.
  intros Hfs. revert fuel. induction Hfs as [|[n v] fs (Hn & Hc & Hcr & Hv) Hfs IH]; intros fuel Hfuel.
  { destruct fuel as [|fuel]; [cbn in Hfuel; lia|]. done. }
  destruct fuel as [|fuel]; [lia|]. cbn [read_fields fst snd] in *.
  assert (Hline : CR ∉ n ++ bs ": " ++ v).
  { rewrite !not_elem_of_app. split_and!; [done| |done]. change (bs ": ") with [58; 32].
    unfold CR. intros H. by repeat (apply elem_of_cons in H as [H|H]; [lia|]); apply elem_of_nil in H. }
  rewrite print_fields_cons.
  rewrite split_line by done. cbn [mbind option_bind].
  rewrite bool_decide_eq_false_2 by (by destruct n).
  change (bs ": ") with (58 :: bs " "). rewrite split_once_app by done. cbn [mbind option_bind].
  rewrite IH by (cbn in Hfuel; lia). done.
Qed.

Lemma len_fields_print fs :
  (length fs ≤ length (print_fields fs))%nat.
Proof.
  induction fs as [|[n v] fs IH]; [done|]. rewrite <-(app_nil_r (print_fields _)), print_fields_cons, app_nil_r.
  rewrite !length_app. cbn [length CRLF bs]. lia.
Qed.

Lemma read_request_print m t fs rest :
  CR ∉ m → SP ∉ m → CR ∉ t → SP ∉ t → Forall clean_field fs →
  read_request (m ++ [SP] ++ t ++ bs " HTTP/1.1" ++ CRLF
    ++ (print_fields fs ++ CRLF) ++ rest)
  = Some (mkHead m t fs, rest).
Proof.
  intros Hm Hm' Ht Ht' Hfs. unfold read_request.
  change (bs " HTTP/1.1") with ([SP] ++ bs "HTTP/1.1").
  replace (m ++ [SP] ++ t ++ ([SP] ++ bs "HTTP/1.1") ++ CRLF
    ++ (print_fields fs ++ CRLF) ++ rest)
    with ((m ++ [SP] ++ t ++ [SP] ++ bs "HTTP/1.1") ++ CRLF
    ++ (print_fields fs ++ CRLF ++ rest)) by (by rewrite <-!app_assoc).
  rewrite split_line; cycle 1.
  { rewrite !not_elem_of_app. split_and!; try done; by apply (bool_decide_unpack _); vm_compute. }
  cbn [mbind option_bind]. rewrite split_space by done. cbn [mbind option_bind].
  rewrite split_space by done. cbn [mbind option_bind].
  assert (bytes_eqb (bs "HTTP/1.1") (bs "HTTP/1.1") = true) as -> by done.
  rewrite read_fields_print; [done|done|].
  rewrite !length_app. pose proof (len_fields_print fs). cbn [length CRLF]. lia.
Qed.


(** ** The parts of a valid request are clean *)

Lemma forallb_elem {A} (p : A → bool) l x : forallb p l = true → x ∈ l → p x = true.
Proof. intros H Hx. rewrite forallb_forall in H. by apply H, list_elem_of_In. Qed.

Lemma token_clean n c : is_http_token n = true → is_token_byte c = false → c ∉ n.
Proof.
  unfold is_http_token. intros [_ Hn]%andb_true_iff Hc Hin.
  pose proof (forallb_elem _ _ _ Hn Hin). congruence.
Qed.

Lemma token_nonempty n : is_http_token n = true → n ≠ [].
Proof. by destruct n. Qed.

Lemma value_clean v : is_valid_http_header_value v = true → CR ∉ v.
Proof.
  unfold is_valid_http_header_value. intros Hv%negb_true_iff Hin.
  by pose proof (existsb_false _ _ _ Hv Hin).
Qed.

Lemma clean_intro n v : is_http_token n = true → CR ∉ v → clean_field (n, v).
Proof. intros Hn Hv. split_and!; [by apply token_nonempty|by apply token_clean..|done]. Qed.

Lemma header_clean h : valid_header h = true → clean_field (field_of h).
Proof.
  unfold valid_header. intros [Hn Hv]%andb_true_iff. apply clean_intro; [done|by apply value_clean].
Qed.

Lemma method_clean r c :
  validate r = Ok tt → is_token_byte c = false → c ∉ method_name (method r).
Proof.
  intros Hr Hc. apply token_clean; [|done]. apply valid_parts in Hr as (_ & Hm & _).
  destruct (method r); try done. by apply Hm.
Qed.

(** The path keeps its first byte unless it is only a fragment. *)
Lemma without_fragment_cons x l : x ≠ 35 → ∃ l', without_fragment (x :: l) = x :: l'.
Proof.
  intros Hx. unfold without_fragment. change (bs "#") with [35]. cbn [split_once].
  assert (strip_prefix [35] (x :: l) = None) as ->.
  { unfold strip_prefix, starts_with, bytes_eqb. cbn. rewrite bool_decide_eq_false_2; [done|congruence]. }
  destruct (split_once [35] l) as [[a b]|]; cbn; eauto.
Qed.

Lemma suffix_path rem :
  let path := without_fragment (drop (authority_end rem) rem) in
  path ≠ [] → starts_with (bs "?") path = false → starts_with (bs "/") path = true.
Proof.
  cbn zeta. unfold authority_end.
  destruct (position _ rem) as [n|] eqn:Hn; cbn [from_option id]; [|by rewrite drop_all].
  apply position_drop in Hn as (x & Hx & ->). apply contains_spec in Hx.
  change (bs "/?#") with [47; 63; 35] in Hx.
  apply elem_of_cons in Hx as [->|[->|[->|Hx]%elem_of_cons]%elem_of_cons].
  - by destruct (without_fragment_cons 47 (drop (S n) rem)) as [l' ->].
  - by destruct (without_fragment_cons 63 (drop (S n) rem)) as [l' ->].
  - done.
  - by apply elem_of_nil in Hx.
Qed.

Lemma target_inv u t :
  parse_target u = Ok t →
  ∃ remainder,
    split_once (bs "://") u = Some (target_scheme t, remainder) ∧
    authority t = take (authority_end remainder) remainder ∧
    starts_with (bs "/") (path_and_query t) = true ∧
    ∀ b, b ∈ path_and_query t → 33 ≤ b ≤ 126.
Proof.
  unfold parse_target. destruct (split_once _ u) as [[s rem]|] eqn:Hs; [|done].
  set (path := if bool_decide _ then _ else _).
  destruct (existsb _ path) eqn:Hp; [done|]. intros [= <-]. exists rem. cbn.
  split_and!; [done|done| |].
  - subst path. case_bool_decide as H1; [done|]. destruct (starts_with (bs "?") _) eqn:H2; [done|].
    by apply suffix_path.
  - intros b Hb. pose proof (existsb_false _ _ _ Hp Hb) as Hr. cbn in Hr.
    apply negb_false_iff, andb_true_iff in Hr as [?%Z.leb_le ?%Z.leb_le]. lia.
Qed.


(** ** The pass over the request's headers *)

Lemma named_excl a b h :
  bytes_eqb (ascii_lowercase a) (ascii_lowercase b) = false → named a h = true → named b h = false.
Proof.
  unfold named, eq_ignore_ascii_case. intros Hab Ha%bytes_eqb_eq. by rewrite Ha.
Qed.

(** A Connection value all of whose elements are [keep-alive]. *)
Definition only_keep_alive (v : list Z) : Prop :=
  Forall (λ raw, eq_ignore_ascii_case (trim_ascii_whitespace raw) (bs "keep-alive") = true) (split_on 44 v).

Lemma connection_policy_owp v :
  owp (parse_connection_policy v) (λ p, p = KeepAlive → only_keep_alive v) (λ _, True).
Proof.
  unfold parse_connection_policy. wp_go.
  eapply owp_mono; [|intros [saw reusable] Hr; cbn beta iota|done].
  - apply (foldl_prefix_ind (λ pre o, owp o (λ '(_, reusable), reusable = true →
      Forall (λ raw, eq_ignore_ascii_case (trim_ascii_whitespace raw) (bs "keep-alive") = true) pre)
      (λ _, True))); [by constructor|].
    intros pre raw post o _ Ho. unfold connection_element. wp_go.
    eapply owp_mono; [exact Ho| |done]. intros [saw reusable] Hr. cbn beta iota.
    zcase; wp_go; [done|]. intros [Hr' Hk]%andb_true_iff. apply Forall_app. auto.
  - zcase; wp_go; [|done]. by destruct reusable; [intros _; apply Hr|].
Qed.

Section scan.
Context {tgt : Target}.
Variable upload : option Upload.UploadFraming.

Definition with_name (n : string) (hs : list Header) : list Header := List.filter (named (bs n)) hs.

(** What the pass has learned of the headers it has seen. *)
Record scanned (hs : list Header) (s : Scan) : Prop := {
  sc_host : host_count s = len (with_name "host" hs);
  sc_te : with_name "transfer-encoding" hs = [];
  sc_upload : upload ≠ None → with_name "content-length" hs = [];
  sc_length : match content_length s with
    | None => with_name "content-length" hs = []
    | Some n => with_name "content-length" hs ≠ [] ∧
        Forall (λ h, parse_content_length_value (value h) = Ok n) (with_name "content-length" hs)
    end;
  sc_reuse : connection_policy s ≠ Some Close →
    Forall (λ h, only_keep_alive (value h)) (with_name "connection" hs)
}.

Lemma with_name_snoc n hs h :
  with_name n (hs ++ [h]) = with_name n hs ++ (if named (bs n) h then [h] else []).
Proof. unfold with_name. rewrite List.filter_app. cbn. by destruct (named (bs n) h). Qed.

(** Split on the four names a header can have, and add it to what was seen. *)
#[local] Ltac other_names a :=
  let no b := rewrite ?(with_name_snoc b), ?(named_excl (bs a) (bs b)) by done in
  no "host"; no "content-length"; no "transfer-encoding"; no "connection".

Lemma scan_header_owp pre h o :
  len pre < usize_max → owp o (scanned pre) (λ _, True) →
  owp (scan_header upload o h) (scanned (pre ++ [h])) (λ _, True).
Proof.
  intros Hlen Ho. unfold scan_header. wp_go. eapply owp_mono; [exact Ho| |done].
  intros s [Hhost Hte Hup Hcl Hre].
  change (eq_ignore_ascii_case (name h)) with (λ n, named n h). cbn beta.
  destruct (named (bs "host") h) eqn:N1; wp_go.
  { pose proof (List.filter_length_le (named (bs "host")) pre) as Hle.
    assert (len (with_name "host" pre) ≤ len pre) by (unfold len, with_name; lia).
    apply owp_uadd; [lia|]. wp_go. split; other_names "host"; rewrite ?N1, ?app_nil_r; cbn [host_count content_length connection_policy]; auto.
    rewrite len_app, len_cons. change (len []) with 0. lia. }
  destruct (named (bs "content-length") h) eqn:N2; wp_go.
  { case_bool_decide as Hu; wp_go; [done|].
    pose proof (content_length_value_owp (value h)) as Hv.
    destruct (parse_content_length_value (value h)) as [n| | |] eqn:Hn; [|done..]. cbn [map_err_to]. wp_go.
    destruct (match content_length s with Some e => _ | None => _ end) eqn:Hsame; wp_go; [done|].
    split; other_names "content-length"; rewrite ?N1, ?N2, ?app_nil_r; cbn [host_count content_length connection_policy]; auto.
    - intros Hup'. destruct Hu. by destruct upload; [eexists|].
    - split; [by destruct (with_name "content-length" pre)|]. apply Forall_app. split; [|by constructor].
      destruct (content_length s) as [e|]; [|by rewrite Hcl].
      apply negb_false_iff, Z.eqb_eq in Hsame. subst e. apply Hcl. }
  destruct (named (bs "transfer-encoding") h) eqn:N3; wp_go; [by zcase; wp_go|].
  destruct (named (bs "connection") h) eqn:N4; wp_go.
  { eapply owp_mono; [apply connection_policy_owp| |done]. intros p Hp. wp_go.
    split; rewrite !with_name_snoc, ?N1, ?N2, ?N3, ?N4, ?app_nil_r; cbn [host_count content_length connection_policy]; auto.
    intros Hpol. apply Forall_app. destruct p; [|by destruct (connection_policy s) as [[]|]].
    split; [|constructor; auto]. apply Hre. by destruct (connection_policy s) as [[]|]. }
  split; rewrite !with_name_snoc, ?N1, ?N2, ?N3, ?N4, ?app_nil_r; auto.
Qed.

Lemma scan_headers_owp hs :
  len hs ≤ usize_max →
  owp (foldl (scan_header upload) (Ok (mkScan 0 None None)) hs) (scanned hs) (λ _, True).
Proof.
  intros Hlen. apply (foldl_prefix_ind (λ pre o, owp o (scanned pre) (λ _, True))).
  - by split.
  - intros pre h post o Heq Ho. apply scan_header_owp; [|done]. subst hs.
    rewrite len_app, len_cons in Hlen. pose proof (len_nonneg post). lia.
Qed.
End scan.


(** ** The serialized head *)

Section serialize.
Context {tgt : Target}.

Lemma add_field_len_none fs : foldl add_field_len None fs = None.
Proof. by induction fs. Qed.

Lemma checked_add_inv m a b n : checked_add m a b = Some n → n = a + b.
Proof. unfold checked_add. destruct (_ <=? m); congruence. Qed.

(** The length the limit is compared with is the length of the printed fields. *)
Lemma fields_len fs a n : foldl add_field_len (Some a) fs = Some n → n = a + len (print_fields fs).
Proof.
  revert a. induction fs as [|[x v] fs IH]; intros a; cbn [foldl].
  { intros [= <-]. change (len (print_fields [])) with 0. lia. }
  destruct (add_field_len (Some a) (x, v)) as [b|] eqn:Hb; [|by rewrite add_field_len_none].
  intros ->%IH. revert Hb. unfold add_field_len, field_wire_len. cbn [mbind option_bind fst snd].
  destruct (checked_add usize_max (len x) (len v)) as [c|] eqn:Hc; [|done]. cbn [mbind option_bind].
  destruct (checked_add usize_max c _) as [d|] eqn:Hd; [|done]. cbn [mbind option_bind].
  intros Hb. apply checked_add_inv in Hb, Hc, Hd. subst.
  rewrite <-(app_nil_r (print_fields ((x, v) :: fs))), print_fields_cons, app_nil_r.
  rewrite !len_app. lia.
Qed.

Definition all_fields (r : Request) (t : RequestTarget) (upload : option Upload.UploadFraming) (sc : Scan)
  : list (list Z * list Z) :=
  map field_of (headers r) ++ generated_fields t (len (bytes (body r))) upload sc.

Lemma http_origin_total k u : owp (http_origin k u) (λ _, True) (λ _, True).
Proof.
  unfold http_origin, split_authority, parse_port, ok_or.
  repeat (case_match; wp_go; try done).
Qed.

Lemma validate_total r : owp (validate r) (λ _, True) (λ _, True).
Proof.
  unfold validate. wp_go. eapply owp_mono; [apply http_origin_total| |done]. intros _ _.
  repeat (case_match; wp_go; try done).
Qed.

Lemma parse_target_total u : owp (parse_target u) (λ _, True) (λ _, True).
Proof. unfold parse_target. repeat (case_match; wp_go; try done). Qed.

(** How an accepted request was serialized. *)
Record serialized_as (r : Request) (limits : HttpLimits) (upload : option Upload.UploadFraming)
    (t : RequestTarget) (sc : Scan) (s : SerializedRequest) : Prop := {
  sa_valid : validate r = Ok tt;
  sa_target : parse_target (url r) = Ok t;
  sa_scan : scanned upload (headers r) sc;
  sa_host : host_count sc ≤ 1;
  sa_length : upload = None → ∀ n, content_length sc = Some n → n = len (bytes (body r));
  sa_count : len (all_fields r t upload sc) ≤ header_count limits;
  sa_bytes : len (print_fields (all_fields r t upload sc)) ≤ header_bytes limits;
  sa_wire : serialized s = method_name (method r) ++ [SP] ++ path_and_query t ++ bs " HTTP/1.1" ++ CRLF
    ++ print_fields (all_fields r t upload sc) ++ CRLF;
  sa_reuse : permits_reuse s = true → connection_policy sc ≠ Some Close
}.

Lemma serialize_owp r limits upload :
  len (headers r) ≤ usize_max →
  owp (serialize_request_with_upload r limits upload)
    (λ s, ∃ t sc, serialized_as r limits upload t sc s) (λ _, True).
Proof.
  intros Hlen. unfold serialize_request_with_upload. wp_go.
  pose proof (validate_total r) as Hval. destruct (validate r) as [[]| | |] eqn:Hv; try done. wp_go.
  pose proof (parse_target_total (url r)) as Htt.
  destruct (parse_target (url r)) as [t| | |] eqn:Ht; try done. wp_go.
  zcase; wp_go; [|done]. eapply owp_mono; [by apply scan_headers_owp| |done].
  intros sc Hsc. cbn beta. zcase; wp_go; [done|].
  destruct (bool_decide (upload = None) && _) eqn:Hlength; wp_go; [done|].
  wp_some count Hcount. zcase; wp_go; [done|]. wp_some total Htotal. zcase; wp_go; [done|].
  wp_some line Hline. wp_some whole Hwhole.
  apply checked_add_inv in Hcount. apply fields_len in Htotal.
  exists t, sc. split; cbn [serialized permits_reuse]; try done.
  - intros -> n Hn. rewrite Hn in Hlength. cbn in Hlength. by apply negb_false_iff, Z.eqb_eq in Hlength.
  - unfold all_fields. rewrite len_app, len_map. lia.
  - unfold all_fields. lia.
  - intros Hre Hclose. by rewrite Hclose in Hre.
Qed.
End serialize.


(** ** Numbers on the wire *)

Lemma split_on_none c l : c ∉ l → split_on c l = [l].
Proof.
  induction l as [|b l IH]; [done|]. intros [Hb Hl]%not_elem_of_cons. cbn.
  rewrite (proj2 (Z.eqb_neq b c)) by congruence. by rewrite IH.
Qed.

Lemma trim_start_none p l : Forall (λ b, p b = false) l → trim_start p l = l.
Proof. destruct 1 as [|b l Hb _]; [done|]. cbn. by rewrite Hb. Qed.

Lemma trim_none p l : Forall (λ b, p b = false) l → trim p l = l.
Proof.
  intros Hl. unfold trim, trim_end. rewrite (trim_start_none _ l Hl).
  rewrite trim_start_none; [apply reverse_involutive|]. by apply Forall_reverse.
Qed.

Lemma digit_not b c : is_ascii_digit b = true → is_ascii_digit c = false → b ≠ c.
Proof. congruence. Qed.

Section length.
Context {tgt : Target}.

(** A printed length reads back. *)
Lemma content_length_print n : 0 ≤ n ≤ usize_max → parse_content_length_value (to_string n) = Ok n.
Proof.
  intros Hn. pose proof usize_bounds as Hu.
  destruct (to_string_spec n) as (Hne & Hd & _); [lia|].
  unfold parse_content_length_value. rewrite split_on_none; cycle 1.
  { intros Hin. rewrite Forall_forall in Hd. by apply Hd in Hin. }
  cbn [foldl]. unfold length_element. cbn [mbind outcome_bind].
  unfold trim_ows. rewrite trim_none; cycle 1.
  { eapply Forall_impl; [exact Hd|]. intros b Hb. unfold is_ows, SP, HT.
    by rewrite !(proj2 (Z.eqb_neq b _)) by (by eapply digit_not). }
  rewrite bool_decide_eq_false_2 by done.
  rewrite (proj2 (forallb_forall _ _)); [|by intros b Hb; rewrite Forall_forall in Hd; apply Hd, list_elem_of_In].
  cbn [negb orb]. rewrite parse_uint_to_string by lia. done.
Qed.
End length.


(** ** Claims *)

Section claims.
Context {tgt : Target}.

(** A request that fits in memory: no vector is longer than [isize::MAX]. *)
Definition fits (r : Request) : Prop :=
  len (headers r) ≤ isize_max ∧ len (bytes (body r)) ≤ isize_max.

Definition fields_named (n : string) (fs : list (list Z * list Z)) : list (list Z * list Z) :=
  List.filter (λ f, eq_ignore_ascii_case f.1 (bs n)) fs.

Lemma fields_named_app n fs gs : fields_named n (fs ++ gs) = fields_named n fs ++ fields_named n gs.
Proof. apply List.filter_app. Qed.

Lemma fields_named_headers n hs : fields_named n (map field_of hs) = map field_of (with_name n hs).
Proof.
  unfold fields_named, with_name. induction hs as [|h hs IH]; [done|]. cbn [map List.filter].
  change (eq_ignore_ascii_case (field_of h).1 (bs n)) with (named (bs n) h).
  destruct (named (bs n) h); cbn [map]; by rewrite IH.
Qed.

Lemma generated_clean t len upload sc :
  (∀ b, b ∈ authority t → visible b) → 0 ≤ len ≤ u64_max →
  (∀ n, upload = Some (Upload.Fixed n) → 0 ≤ n ≤ u64_max) →
  Forall clean_field (generated_fields t len upload sc).
Proof.
  intros Hauth Hlen Hup.
  assert (Hhost : clean_field (bs "Host", authority t)).
  { apply clean_intro; [done|]. intros Hin%Hauth. by destruct Hin. }
  assert (Hnum : ∀ n, 0 ≤ n ≤ u64_max → clean_field (bs "Content-Length", to_string n)).
  { intros n Hn. apply clean_intro; [done|].
    destruct (to_string_spec n) as (_ & Hd & _); [lia|]. intros Hin. rewrite Forall_forall in Hd.
    by apply Hd in Hin. }
  assert (Hte : clean_field (bs "Transfer-Encoding", bs "chunked"))
    by (apply clean_intro; [done|]; by apply (bool_decide_unpack _)).
  unfold generated_fields. repeat apply Forall_app_2.
  - destruct (_ =? 0); [by apply Forall_singleton|apply Forall_nil_2].
  - destruct upload as [[n|]|]; [|apply Forall_nil_2|]; [apply Forall_singleton; eauto|].
    destruct (_ && _); [apply Forall_singleton; eauto|apply Forall_nil_2].
  - destruct upload as [[n|]|]; [apply Forall_nil_2|by apply Forall_singleton|apply Forall_nil_2].
Qed.

Lemma all_fields_clean r limits upload t sc s :
  fits r → (∀ n, upload = Some (Upload.Fixed n) → 0 ≤ n ≤ u64_max) →
  serialized_as r limits upload t sc s → Forall clean_field (all_fields r t upload sc).
Proof.
  intros [_ Hbody] Hup Hs. destruct (valid_parts r (sa_valid _ _ _ _ _ _ Hs)) as ([o Ho] & _ & Hh).
  destruct (target_inv _ _ (sa_target _ _ _ _ _ _ Hs)) as (rem & Hsplit & Hauth & _ & _).
  apply Forall_app. split.
  - apply Forall_map, Forall_forall. intros h Hin. apply header_clean. by apply (forallb_elem _ _ _ Hh).
  - apply generated_clean; [|pose proof (len_nonneg (bytes (body r))); pose proof usize_bounds; pose proof isize_bounds; lia|done].
    intros b Hb. rewrite Hauth in Hb. by eapply authority_visible.
Qed.

(** Which fields the serializer generates. *)
Lemma generated_named t n upload sc :
  fields_named "host" (generated_fields t n upload sc)
    = (if host_count sc =? 0 then [(bs "Host", authority t)] else []) ∧
  fields_named "content-length" (generated_fields t n upload sc)
    = match upload with
      | Some (Upload.Fixed m) => [(bs "Content-Length", to_string m)]
      | Some Upload.Chunked => []
      | None => if bool_decide (content_length sc = None) && negb (n =? 0)
                then [(bs "Content-Length", to_string n)] else []
      end ∧
  fields_named "transfer-encoding" (generated_fields t n upload sc)
    = match upload with Some Upload.Chunked => [(bs "Transfer-Encoding", bs "chunked")] | _ => [] end ∧
  fields_named "connection" (generated_fields t n upload sc) = [].
Proof.
  unfold generated_fields. destruct (host_count sc =? 0), upload as [[m|]|]; try done;
    by destruct (bool_decide _ && _).
Qed.

Lemma serialized_reads r limits upload t sc s :
  fits r → (∀ n, upload = Some (Upload.Fixed n) → 0 ≤ n ≤ u64_max) →
  serialized_as r limits upload t sc s →
  ∀ rest, read_request (serialized s ++ rest)
    = Some (mkHead (method_name (method r)) (path_and_query t) (all_fields r t upload sc), rest).
Proof.
  intros Hfits Hup Hs rest. pose proof (all_fields_clean _ _ _ _ _ _ Hfits Hup Hs) as Hclean.
  destruct Hs as [Hval Ht _ _ _ _ _ Hwire _].
  destruct (target_inv _ _ Ht) as (_ & _ & _ & _ & Hpath).
  rewrite Hwire, <-!app_assoc, (app_assoc (print_fields _)).
  apply read_request_print; [by apply method_clean..| | |done];
    intros Hin%Hpath; unfold CR, SP in *; lia.
Qed.

(** C37: serializing a request never panics, and the bytes it gives are one
    request head: read by line (ended by CR LF), colon and space they give back
    the method, the target (which starts with a slash), the request's own
    fields in order and the generated fields after them, and leave exactly what
    follows. So no method, target, name or value can end such a line or add a
    field. The fields keep to the configured count and bytes. *)
Theorem serialized_request_parses r limits upload :
  fits r → (∀ n, upload = Some (Upload.Fixed n) → 0 ≤ n ≤ u64_max) →
  owp (serialize_request_with_upload r limits upload)
    (λ s, ∃ t generated,
       let fields := map field_of (headers r) ++ generated in
       parse_target (url r) = Ok t ∧ starts_with (bs "/") (path_and_query t) = true ∧
       (∀ rest, read_request (serialized s ++ rest)
          = Some (mkHead (method_name (method r)) (path_and_query t) fields, rest)) ∧
       len fields ≤ header_count limits ∧ len (print_fields fields) ≤ header_bytes limits)
    (λ _, True).
Proof.
  intros Hfits Hup. eapply owp_mono; [apply serialize_owp| |done].
  { destruct Hfits. pose proof isize_bounds. lia. }
  intros s (t & sc & Hs). exists t, (generated_fields t (len (bytes (body r))) upload sc). cbn zeta.
  destruct (target_inv _ _ (sa_target _ _ _ _ _ _ Hs)) as (_ & _ & _ & Hslash & _).
  split_and!; [apply Hs|done|by eapply serialized_reads|apply Hs|apply Hs].
Qed.

(** A serialized request names its host exactly once, and says how long
    its body is in exactly one way: by the length of a buffered body (always
    when it is not empty), by the declared length of a fixed-length upload, or
    by chunks for any other upload; and when the connection may be reused every
    Connection field of the request only says keep-alive. *)
Theorem serialized_request_framing r limits upload s h rest :
  fits r → (∀ n, upload = Some (Upload.Fixed n) → 0 ≤ n ≤ u64_max) →
  serialize_request_with_upload r limits upload = Ok s →
  read_request (serialized s) = Some (h, rest) →
  let lengths := fields_named "content-length" (head_fields h) in
  let codings := fields_named "transfer-encoding" (head_fields h) in
  len (fields_named "host" (head_fields h)) = 1 ∧
  match upload with
  | None => codings = [] ∧ (bytes (body r) ≠ [] → lengths ≠ []) ∧
      Forall (λ f, parse_content_length_value f.2 = Ok (len (bytes (body r)))) lengths
  | Some (Upload.Fixed n) => codings = [] ∧ lengths = [(bs "Content-Length", to_string n)]
  | Some Upload.Chunked => codings = [(bs "Transfer-Encoding", bs "chunked")] ∧ lengths = []
  end ∧
  (permits_reuse s = true →
     Forall (λ f, only_keep_alive f.2) (fields_named "connection" (head_fields h))).
Proof.
  intros Hfits Hup Hok Hread. pose proof (serialize_owp r limits upload) as Howp. rewrite Hok in Howp.
  destruct Howp as (t & sc & Hs); [destruct Hfits; pose proof isize_bounds; lia|].
  rewrite <-(app_nil_r (serialized s)), (serialized_reads _ _ _ _ _ _ Hfits Hup Hs) in Hread. injection Hread as <- <-.
  cbn zeta. cbn [head_fields]. destruct Hs as [_ _ Hsc Hhost Hlen _ _ _ Hre].
  unfold all_fields. rewrite !fields_named_app, !fields_named_headers.
  destruct Hsc as [Schost Ste Sup Slen Sre]. rewrite Ste.
  destruct (generated_named t (len (bytes (body r))) upload sc) as (-> & -> & -> & ->).
  split_and!.
  - rewrite len_app, len_map, <-Schost. pose proof (len_nonneg (with_name "host" (headers r))).
    destruct (Z.eqb_spec (host_count sc) 0) as [->|]; [done|]. change (len []) with 0. lia.
  - destruct upload as [[n|]|]; [by rewrite (Sup ltac:(done))..|]. split; [done|].
    destruct (content_length sc) as [n|] eqn:Hn.
    + destruct Slen as [Hne Hall]. specialize (Hlen eq_refl n eq_refl). subst n.
      rewrite bool_decide_eq_false_2 by done.
      cbn [andb]. rewrite app_nil_r. split; [|by apply Forall_map].
      by intros _ ?%map_eq_nil.
    + rewrite Slen, bool_decide_eq_true_2 by done. cbn [app map andb].
      destruct (Z.eqb_spec (len (bytes (body r))) 0) as [H0%len_zero|H0]; [by rewrite H0|].
      split; [done|]. apply Forall_singleton. apply content_length_print. destruct Hfits.
      pose proof (len_nonneg (bytes (body r))). pose proof isize_bounds. lia.
  - intros Hp%Hre%Sre. rewrite app_nil_r. by apply Forall_map.
Qed.

End claims.

(** ** Witnesses *)

Definition demo_request : Request :=
  with_body (bs "hello") 5
    (with_header (bs "Connection") (bs "keep-alive")
       (builder Post (bs "https://Example.com:8443/a?b=c#d"))).
Definition demo_request_limits : HttpLimits := mkLimits 1000 1000 10.

Lemma serialized_request_parses_witness :
  let tgt := target64 in
  match serialize_request_with_upload demo_request demo_request_limits None with
  | Ok s => ∃ fields, read_request (serialized s ++ bs "hello")
      = Some (mkHead (bs "POST") (bs "/a?b=c") fields, bs "hello") ∧ len fields = 3
  | _ => False
  end.
Proof.
  intros tgt.
  pose proof (serialized_request_parses demo_request demo_request_limits None) as H.
  destruct (serialize_request_with_upload demo_request demo_request_limits None) as [s| | |] eqn:Hs;
    [|by vm_compute in Hs..].
  destruct H as (t & gen & Ht & _ & Hread & _); [by split; vm_compute|done|].
  exists (map field_of (headers demo_request) ++ gen).
  vm_compute in Hs. injection Hs as <-. vm_compute in Ht. injection Ht as <-.
  split; [exact (Hread (bs "hello"))|].
  specialize (Hread []). vm_compute in Hread. injection Hread as Hf. by rewrite <-Hf.
Defined.

Lemma serialized_request_framing_witness :
  let tgt := target64 in
  ∃ s h, serialize_request_with_upload demo_request demo_request_limits None = Ok s ∧
    read_request (serialized s) = Some (h, []) ∧ len (fields_named "host" (head_fields h)) = 1.
Proof.
  intros tgt. eexists _, _. split; [vm_compute; reflexivity|]. split; [vm_compute; reflexivity|].
  eapply (serialized_request_framing demo_request demo_request_limits None);
    [by split; vm_compute|done|vm_compute; reflexivity|vm_compute; reflexivity].
Defined.
