(* ===== verification/Http1Decoder.v ===== *)
(** * Incremental response decoding ([src/backend/native_http/http1.rs])

    [Buffered] is [ResponseDecoder], which collects the body in a
    [BodyBuffer] charged to the Engine's budget; [Streaming] is
    [StreamingResponseDecoder], which hands the body to a [ResponseSink]. *)

From stdpp Require Import base list strings.
From Stdlib Require Import ZArith Lia.
From S2P Require Import Prelude Errors BodyBudget Request Stream Http1.
Import Budget Request Http1.

Inductive DecodeState :=
| StHead
| StFixed (remaining : Z)
| StCloseDelimited
| StChunkSize
| StChunkData (remaining : Z)
| StChunkEnd (matched : Z)
| StTrailers
| StComplete.
#[global] Instance DecodeState_eq_dec : EqDecision DecodeState.
Proof. solve_decision. Defined.

(** The messages both decoders share. *)
Definition header_limit_error (context : string) (limit : Z) : Error :=
  error_limit LimitKind.ResponseHeaderBytes
    ((context +:+ " exceeds the configured " +:+ display limit) +:+ " byte limit").
Definition framing_limit_error (context : string) (limit : Z) : Error :=
  error_limit LimitKind.ResponseHeaderBytes
    ((context +:+ " exceeds the configured " +:+ display limit)
       +:+ " byte framing-metadata limit").
Definition eof_in_head : Error :=
  error_transport TransportStage.Receive "the peer closed before a complete HTTP response head arrived".
Definition eof_in_fixed : Error :=
  error_transport TransportStage.Receive "the peer closed before the Content-Length body completed".
Definition eof_in_chunked : Error :=
  http_error "the peer closed before the chunked response completed".

Definition HEAD_END : list Z := CRLF ++ CRLF.

(** [scratch == b"\r\n" || scratch.ends_with(b"\r\n\r\n")] *)
Definition trailers_end (scratch : list Z) : bool :=
  bytes_eqb scratch CRLF || ends_with HEAD_END scratch.

(** The chunk-size line of [scratch], which ends in CRLF. *)
Definition parse_chunk_line `{HttpParse} (scratch : list Z) : outcome Error Z :=
  match hp_chunk_size scratch with
  | HpComplete (n, size) =>
      if negb (n =? len scratch) then Err (http_error "response chunk size has trailing bytes")
      else Ok size
  | _ => Err (http_error "response contains an invalid chunk size")
  end.

(** The size against the limit; [used] bytes are already in the body. *)
Definition admit_chunk `{Target} (size : Z) (limits : HttpLimits) (used : Z) : outcome Error Z :=
  if usize_max <? size then Err (response_body_limit_error (body_bytes limits))
  else if saturating_sub (body_bytes limits) used <? size
  then Err (response_body_limit_error (body_bytes limits))
  else Ok size.

Module Buffered.

Record Response := mkResponse { resp_status : Z; resp_headers : list Header; resp_body : BodyBuffer }.

Record ResponseDecoder := mkDecoder {
  limits : HttpLimits;
  to_head : bool;
  state : DecodeState;
  scratch : list Z;
  dec_status : option Z;
  dec_headers : list Header;
  dec_body : BodyBuffer;
  informational_responses : Z;
  framing_bytes : Z;
  dec_reuse : bool
}.

Record DecodeProgress := mkProgress { response : option Response; consumed : Z; progress_reuse : bool }.

(** The owner then replaces the default [body] by a buffer of its budget. *)
Definition decoder_new (to_head : bool) (l : HttpLimits) : ResponseDecoder :=
  mkDecoder l to_head StHead [] None [] default_buffer 0 0 false.

Definition set_state (st : DecodeState) (d : ResponseDecoder) : ResponseDecoder :=
  mkDecoder (limits d) (to_head d) st (scratch d) (dec_status d) (dec_headers d) (dec_body d)
    (informational_responses d) (framing_bytes d) (dec_reuse d).
Definition set_scratch (s : list Z) (d : ResponseDecoder) : ResponseDecoder :=
  mkDecoder (limits d) (to_head d) (state d) s (dec_status d) (dec_headers d) (dec_body d)
    (informational_responses d) (framing_bytes d) (dec_reuse d).
Definition set_framing (n : Z) (d : ResponseDecoder) : ResponseDecoder :=
  mkDecoder (limits d) (to_head d) (state d) (scratch d) (dec_status d) (dec_headers d) (dec_body d)
    (informational_responses d) n (dec_reuse d).
Definition set_informational (n : Z) (d : ResponseDecoder) : ResponseDecoder :=
  mkDecoder (limits d) (to_head d) (state d) (scratch d) (dec_status d) (dec_headers d) (dec_body d)
    n (framing_bytes d) (dec_reuse d).
Definition set_body (b : BodyBuffer) (d : ResponseDecoder) : ResponseDecoder :=
  mkDecoder (limits d) (to_head d) (state d) (scratch d) (dec_status d) (dec_headers d) b
    (informational_responses d) (framing_bytes d) (dec_reuse d).
Definition set_final (st : Z) (hs : list Header) (reuse : bool) (d : ResponseDecoder) : ResponseDecoder :=
  mkDecoder (limits d) (to_head d) (state d) (scratch d) (Some st) hs (dec_body d)
    (informational_responses d) (framing_bytes d) reuse.

Section with_params.
Context {tgt : Target} {alloc : VecAlloc} {hp : HttpParse}.

(** Methods run on the decoder and the budget its buffer is charged to. *)
Definition MD := M (ResponseDecoder * BodyBudget) Error.

Definition this : MD ResponseDecoder := λ s, (Ok (fst s), s).
Definition update (f : ResponseDecoder → ResponseDecoder) : MD unit := λ '(d, bud), (Ok tt, (f d, bud)).

(** Run a method of [self.body]. *)
Definition on_body {A} (m : MB A) : MD A := λ '(d, bud),
  let '(r, (buf, bud')) := m (dec_body d, bud) in (r, (set_body buf d, bud')).

Definition count_framing_byte (context : string) : MD unit :=
  d ← this;
  if header_bytes (limits d) <=? framing_bytes d
  then fail (framing_limit_error context (header_bytes (limits d)))
  else n ← lift (uadd (framing_bytes d) 1); update (set_framing n).

Definition push_scratch (byte : Z) (context : string) (framing : bool) : MD unit :=
  d ← this;
  if header_bytes (limits d) <=? len (scratch d)
  then fail (header_limit_error context (header_bytes (limits d)))
  else
    _ ← (if framing then count_framing_byte context else mret tt);
    update (λ d, set_scratch (scratch d ++ [byte]) d).

Definition push_body (byte : Z) : MD unit :=
  d ← this;
  if body_bytes (limits d) <=? len (bytes (dec_body d))
  then fail (response_body_limit_error (body_bytes (limits d)))
  else on_body (push byte (body_bytes (limits d))).

(** [mem::take] leaves the default in [headers] and [body]. *)
Definition complete : MD Response :=
  d ← this;
  match dec_status d with
  | None => fail (error_new ErrorKind.Internal "native HTTP decoder completed without a final status")
  | Some st =>
      _ ← update (λ d, mkDecoder (limits d) (to_head d) StComplete (scratch d) None [] default_buffer
                         (informational_responses d) (framing_bytes d) (dec_reuse d));
      mret (mkResponse st (dec_headers d) (dec_body d))
  end.

Definition complete_some : MD (option Response) := r ← complete; mret (Some r).

(** The [DecodeState::Head] arm of [consume]. *)
Definition consume_head (byte : Z) : MD (option Response) :=
  _ ← push_scratch byte "response head" false;
  d ← this;
  if negb (ends_with HEAD_END (scratch d)) then mret None
  else
    parsed ← lift (parse_response_head (scratch d) (to_head d) (limits d));
    _ ← update (set_scratch []);
    match parsed with
    | Informational =>
        n ← lift (ok_or (checked_add u8_max (informational_responses d) 1)
                    (http_error "too many informational responses"));
        _ ← update (set_informational n);
        if MAX_INFORMATIONAL_RESPONSES <? n
        then fail (http_error "too many informational responses")
        else mret None
    | Final st hs framing reuse =>
        _ ← update (set_final st hs reuse);
        match framing with
        | FramingNone => complete_some
        | FramingFixed remaining =>
            if remaining =? 0 then complete_some
            else
              _ ← on_body (plan_capacity remaining);
              _ ← update (set_state (StFixed remaining));
              mret None
        | FramingChunked => _ ← update (set_state StChunkSize); mret None
        | FramingClose => _ ← update (set_state StCloseDelimited); mret None
        end
    end.

Definition consume (byte : Z) : MD (option Response) :=
  d ← this;
  match state d with
  | StHead => consume_head byte
  | StFixed remaining =>
      _ ← push_body byte;
      if remaining =? 1 then complete_some
      else
        left ← lift (usub remaining 1);
        _ ← update (set_state (StFixed left));
        mret None
  | StCloseDelimited => _ ← push_body byte; mret None
  | StChunkSize =>
      _ ← push_scratch byte "chunk-size line" true;
      d ← this;
      if negb (ends_with CRLF (scratch d)) then mret None
      else
        size ← lift (parse_chunk_line (scratch d));
        _ ← update (set_scratch []);
        size ← lift (admit_chunk size (limits d) (len (bytes (dec_body d))));
        _ ← update (set_state (if size =? 0 then StTrailers else StChunkData size));
        mret None
  | StChunkData remaining =>
      _ ← push_body byte;
      st ← (if remaining =? 1 then mret (StChunkEnd 0)
            else left ← lift (usub remaining 1); mret (StChunkData left));
      _ ← update (set_state st);
      mret None
  | StChunkEnd matched =>
      if (matched =? 0) && (byte =? CR) then
        _ ← count_framing_byte "chunk terminator";
        _ ← update (set_state (StChunkEnd 1));
        mret None
      else if (matched =? 1) && (byte =? LF) then
        _ ← count_framing_byte "chunk terminator";
        _ ← update (set_state StChunkSize);
        mret None
      else fail (http_error "response chunk data is not followed by CRLF")
  | StTrailers =>
      _ ← push_scratch byte "response trailers" true;
      d ← this;
      if negb (trailers_end (scratch d)) then mret None
      else
        _ ← lift (validate_trailers (scratch d) (limits d));
        _ ← update (set_scratch []);
        complete_some
  | StComplete => fail (error_new ErrorKind.Internal "native HTTP decoder advanced after completion")
  end.

(** [(count, remaining, fixed)]: how much of the [available] bytes is payload
    in this state. *)
Definition payload_span (st : DecodeState) (available : Z) : Z * option Z * bool :=
  match st with
  | StFixed remaining => (Z.min available remaining, Some remaining, true)
  | StChunkData remaining => (Z.min available remaining, Some remaining, false)
  | StCloseDelimited => (available, None, false)
  | _ => (0, None, false)
  end.

(** A payload span of [count] bytes, taken at once. *)
Definition take_span (b : list Z) (at_ count : Z) (remaining : option Z) (fixed : bool)
  : MD (option Response) :=
  d ← this;
  if saturating_sub (body_bytes (limits d)) (len (bytes (dec_body d))) <? count
  then fail (response_body_limit_error (body_bytes (limits d)))
  else
    span ← lift (slice b at_ (at_ + count));
    _ ← on_body (extend span (body_bytes (limits d)));
    match remaining with
    | Some remaining =>
        if fixed && (count =? remaining) then complete_some
        else
          left ← lift (usub remaining count);
          _ ← update (set_state (if fixed then StFixed left
                                 else if count =? remaining then StChunkEnd 0
                                 else StChunkData left));
          mret None
    | None => mret None
    end.

(** The [while consumed < bytes.len()] loop of [ingest]. Every pass consumes at
    least a byte, so [len b] passes are enough. *)
Fixpoint ingest_loop (fuel : nat) (b : list Z) (at_ : Z) : MD DecodeProgress :=
  if len b <=? at_ then mret (mkProgress None (len b) false)
  else
    match fuel with
    | O => diverge
    | S fuel' =>
        d ← this;
        let '(count, remaining, fixed) := payload_span (state d) (len b - at_) in
        r ← (if negb (count =? 0) then take_span b at_ count remaining fixed
             else byte ← lift (index b at_); consume byte);
        let at_ := at_ + (if negb (count =? 0) then count else 1) in
        match r with
        | Some _ => d ← this; mret (mkProgress r at_ (dec_reuse d))
        | None => ingest_loop fuel' b at_
        end
    end.

Definition ingest (b : list Z) : MD DecodeProgress :=
  d ← this;
  if bool_decide (state d = StComplete)
  then fail (error_new ErrorKind.Internal "native HTTP decoder received bytes after completion")
  else ingest_loop (length b) b 0.

Definition eof : MD (option Response) :=
  d ← this;
  match state d with
  | StCloseDelimited => complete_some
  | StComplete => mret None
  | StHead => fail eof_in_head
  | StFixed _ => fail eof_in_fixed
  | _ => fail eof_in_chunked
  end.

End with_params.
End Buffered.

Module Streaming.
Import Download.

Inductive StreamOutput := AwaitHead | Deliver | Discard.
#[global] Instance StreamOutput_eq_dec : EqDecision StreamOutput.
Proof. solve_decision. Defined.

(** [sink] is the field [response]. *)
Record StreamingResponseDecoder := mkStreaming {
  limits : HttpLimits;
  to_head : bool;
  state : DecodeState;
  scratch : list Z;
  pending_head : option ResponseHead;
  output : StreamOutput;
  sink : option ResponseSink;
  received : Z;
  informational_responses : Z;
  framing_bytes : Z;
  dec_reuse : bool
}.

Inductive StreamDecodeProgress :=
| ProgressHead (h : ResponseHead) (consumed : Z)
| ProgressBody (consumed : Z) (blocked : bool)
| ProgressComplete (consumed : Z) (reuse delivered : bool).

Inductive StreamByteProgress := Continue | ByteHead (h : ResponseHead) | ByteComplete.

Record StreamHeadDecision := mkDecision { decided_complete : bool; decided_reuse : bool }.

Definition streaming_new (to_head : bool) (l : HttpLimits) (k : ResponseSink) : StreamingResponseDecoder :=
  mkStreaming l to_head StHead [] None AwaitHead (Some k) 0 0 0 false.

Definition set_state (st : DecodeState) (d : StreamingResponseDecoder) : StreamingResponseDecoder :=
  mkStreaming (limits d) (to_head d) st (scratch d) (pending_head d) (output d) (sink d)
    (received d) (informational_responses d) (framing_bytes d) (dec_reuse d).
Definition set_scratch (s : list Z) (d : StreamingResponseDecoder) : StreamingResponseDecoder :=
  mkStreaming (limits d) (to_head d) (state d) s (pending_head d) (output d) (sink d)
    (received d) (informational_responses d) (framing_bytes d) (dec_reuse d).
Definition set_pending (h : option ResponseHead) (d : StreamingResponseDecoder) : StreamingResponseDecoder :=
  mkStreaming (limits d) (to_head d) (state d) (scratch d) h (output d) (sink d)
    (received d) (informational_responses d) (framing_bytes d) (dec_reuse d).
Definition set_output (o : StreamOutput) (d : StreamingResponseDecoder) : StreamingResponseDecoder :=
  mkStreaming (limits d) (to_head d) (state d) (scratch d) (pending_head d) o (sink d)
    (received d) (informational_responses d) (framing_bytes d) (dec_reuse d).
Definition set_sink (k : option ResponseSink) (d : StreamingResponseDecoder) : StreamingResponseDecoder :=
  mkStreaming (limits d) (to_head d) (state d) (scratch d) (pending_head d) (output d) k
    (received d) (informational_responses d) (framing_bytes d) (dec_reuse d).
Definition set_received (n : Z) (d : StreamingResponseDecoder) : StreamingResponseDecoder :=
  mkStreaming (limits d) (to_head d) (state d) (scratch d) (pending_head d) (output d) (sink d)
    n (informational_responses d) (framing_bytes d) (dec_reuse d).
Definition set_informational (n : Z) (d : StreamingResponseDecoder) : StreamingResponseDecoder :=
  mkStreaming (limits d) (to_head d) (state d) (scratch d) (pending_head d) (output d) (sink d)
    (received d) n (framing_bytes d) (dec_reuse d).
Definition set_framing (n : Z) (d : StreamingResponseDecoder) : StreamingResponseDecoder :=
  mkStreaming (limits d) (to_head d) (state d) (scratch d) (pending_head d) (output d) (sink d)
    (received d) (informational_responses d) n (dec_reuse d).
Definition set_reuse (b : bool) (d : StreamingResponseDecoder) : StreamingResponseDecoder :=
  mkStreaming (limits d) (to_head d) (state d) (scratch d) (pending_head d) (output d) (sink d)
    (received d) (informational_responses d) (framing_bytes d) b.

Definition next_byte_is_body (d : StreamingResponseDecoder) : bool :=
  match state d with StFixed _ | StCloseDelimited | StChunkData _ => true | _ => false end.

Section with_params.
Context {tgt : Target} {hp : HttpParse}.

Definition MS := M StreamingResponseDecoder Error.

Definition count_stream_framing_byte (context : string) : MS unit :=
  d ← get;
  if header_bytes (limits d) <=? framing_bytes d
  then fail (framing_limit_error context (header_bytes (limits d)))
  else n ← lift (uadd (framing_bytes d) 1); modify (set_framing n).

Definition push_stream_scratch (byte : Z) (context : string) (framing : bool) : MS unit :=
  d ← get;
  if header_bytes (limits d) <=? len (scratch d)
  then fail (header_limit_error context (header_bytes (limits d)))
  else
    _ ← (if framing then count_stream_framing_byte context else mret tt);
    modify (λ d, set_scratch (scratch d ++ [byte]) d).

(** The local [body] of [ingest] is passed along and returned. *)
Definition push_stream_body (byte : Z) (body : list Z) : MS (list Z) :=
  d ← get;
  if body_bytes (limits d) <=? received d
  then fail (response_body_limit_error (body_bytes (limits d)))
  else
    n ← lift (uadd (received d) 1);
    _ ← modify (set_received n);
    mret (if bool_decide (output d = Deliver) then body ++ [byte] else body).

Definition sink_gone : Error :=
  error_new ErrorKind.Internal "native streaming decoder no longer owns its response sink".

(** [self.response_mut()?] and a method of the sink. *)
Definition on_sink {A} (f : ResponseSink → A * ResponseSink) : MS A :=
  d ← get;
  match sink d with
  | None => fail sink_gone
  | Some k => let '(a, k') := f k in _ ← put (set_sink (Some k') d); mret a
  end.

Definition flush_body (body : list Z) : MS unit :=
  if bool_decide (body = []) then mret tt
  else
    d ← get;
    r ← on_sink (sink_push body);
    match r with
    | Ok _ => mret tt
    | Err (WouldBlock _) =>
        fail (error_new ErrorKind.Internal "streaming decoder exceeded the capacity it observed")
    | Err (PushClosed _) =>
        fail (error_transport TransportStage.Receive
                "the streaming response reader closed during delivery")
    | Err (Protocol _) =>
        fail (error_new ErrorKind.Internal "streaming decoder delivered body before its final head")
    | Err (OverLimit _) => fail (response_body_limit_error (body_bytes (limits d)))
    | Panic => panic
    | Diverge => diverge
    end.

(** The [DecodeState::Head] arm of [consume_stream_byte]. *)
Definition consume_stream_head (byte : Z) : MS StreamByteProgress :=
  _ ← push_stream_scratch byte "response head" false;
  d ← get;
  if negb (ends_with HEAD_END (scratch d)) then mret Continue
  else
    parsed ← lift (parse_response_head (scratch d) (to_head d) (limits d));
    _ ← modify (set_scratch []);
    match parsed with
    | Informational =>
        n ← lift (ok_or (checked_add u8_max (informational_responses d) 1)
                    (http_error "too many informational responses"));
        _ ← modify (set_informational n);
        if MAX_INFORMATIONAL_RESPONSES <? n
        then fail (http_error "too many informational responses")
        else mret Continue
    | Final st hs framing reuse =>
        _ ← modify (set_reuse reuse);
        _ ← modify (set_state
              match framing with
              | FramingNone => StComplete
              | FramingFixed remaining => if remaining =? 0 then StComplete else StFixed remaining
              | FramingChunked => StChunkSize
              | FramingClose => StCloseDelimited
              end);
        _ ← modify (set_pending (Some (mkHead st hs)));
        mret (ByteHead (mkHead st hs))
    end.

Definition consume_stream_byte (byte : Z) (body : list Z) : MS (StreamByteProgress * list Z) :=
  d ← get;
  match state d with
  | StHead => p ← consume_stream_head byte; mret (p, body)
  | StFixed remaining =>
      body ← push_stream_body byte body;
      if remaining =? 1 then _ ← modify (set_state StComplete); mret (ByteComplete, body)
      else
        left ← lift (usub remaining 1);
        _ ← modify (set_state (StFixed left));
        mret (Continue, body)
  | StCloseDelimited => body ← push_stream_body byte body; mret (Continue, body)
  | StChunkSize =>
      _ ← push_stream_scratch byte "chunk-size line" true;
      d ← get;
      if negb (ends_with CRLF (scratch d)) then mret (Continue, body)
      else
        size ← lift (parse_chunk_line (scratch d));
        _ ← modify (set_scratch []);
        size ← lift (admit_chunk size (limits d) (received d));
        _ ← modify (set_state (if size =? 0 then StTrailers else StChunkData size));
        mret (Continue, body)
  | StChunkData remaining =>
      body ← push_stream_body byte body;
      st ← (if remaining =? 1 then mret (StChunkEnd 0)
            else left ← lift (usub remaining 1); mret (StChunkData left));
      _ ← modify (set_state st);
      mret (Continue, body)
  | StChunkEnd matched =>
      if (matched =? 0) && (byte =? CR) then
        _ ← count_stream_framing_byte "chunk terminator";
        _ ← modify (set_state (StChunkEnd 1));
        mret (Continue, body)
      else if (matched =? 1) && (byte =? LF) then
        _ ← count_stream_framing_byte "chunk terminator";
        _ ← modify (set_state StChunkSize);
        mret (Continue, body)
      else fail (http_error "response chunk data is not followed by CRLF")
  | StTrailers =>
      _ ← push_stream_scratch byte "response trailers" true;
      d ← get;
      if negb (trailers_end (scratch d)) then mret (Continue, body)
      else
        _ ← lift (validate_trailers (scratch d) (limits d));
        _ ← modify (set_scratch []);
        _ ← modify (set_state StComplete);
        mret (ByteComplete, body)
  | StComplete =>
      fail (error_transport TransportStage.Http "native streaming decoder advanced after completion")
  end.

(** [response.as_ref().map_or(0, ResponseSink::available_capacity)] *)
Definition sink_capacity (d : StreamingResponseDecoder) : outcome Error Z :=
  match sink d with
  | None => Ok 0
  | Some k => match available_capacity (shared k) with
              | Ok n => Ok n | Err e => match e with end | Panic => Panic | Diverge => Diverge
              end
  end.

Definition when_delivering (d : StreamingResponseDecoder) : MS bool :=
  if bool_decide (output d = Deliver)
  then _ ← on_sink (λ k, (tt, sink_complete k)); mret true
  else mret false.

(** The [for] loop of [ingest]. *)
Fixpoint stream_loop (available : Z) (b : list Z) (index : Z) (body : list Z) : MS StreamDecodeProgress :=
  match b with
  | [] => _ ← flush_body body; mret (ProgressBody index false)
  | byte :: rest =>
      d ← get;
      if bool_decide (output d = Deliver) && next_byte_is_body d && (len body =? available)
      then _ ← flush_body body; mret (ProgressBody index true)
      else
        '(p, body) ← consume_stream_byte byte body;
        match p with
        | Continue => stream_loop available rest (index + 1) body
        | ByteHead h => _ ← flush_body body; mret (ProgressHead h (index + 1))
        | ByteComplete =>
            _ ← flush_body body;
            d ← get;
            delivered ← when_delivering d;
            d ← get;
            mret (ProgressComplete (index + 1) (dec_reuse d) delivered)
        end
  end.

Definition stream_ingest (b : list Z) : MS StreamDecodeProgress :=
  d ← get;
  if bool_decide (state d = StComplete)
  then fail (error_transport TransportStage.Http
               "native streaming decoder received bytes after completion")
  else if bool_decide (is_Some (pending_head d))
  then fail (error_new ErrorKind.Internal
               "native streaming decoder advanced before its final head was decided")
  else
    available ← (match output d with Deliver => lift (sink_capacity d) | _ => mret usize_max end);
    stream_loop available b 0 [].

Definition decide_head (deliver : bool) : MS StreamHeadDecision :=
  d ← get;
  match pending_head d with
  | None => fail (error_new ErrorKind.Internal "native streaming decoder has no final head to decide")
  | Some h =>
      _ ← modify (set_pending None);
      _ ← modify (set_output (if deliver then Deliver else Discard));
      let complete := bool_decide (state d = StComplete) in
      published ← (if deliver then on_sink (publish_head h complete) else mret true);
      if negb published
      then fail (error_transport TransportStage.Receive
                   "the streaming response reader closed before head publication")
      else mret (mkDecision complete (dec_reuse d))
  end.

Definition stream_eof : MS (option (bool * bool)) :=
  d ← get;
  if bool_decide (is_Some (pending_head d))
  then fail (error_new ErrorKind.Internal
               "native streaming response reached EOF before its final head was decided")
  else match state d with
  | StCloseDelimited =>
      _ ← modify (set_state StComplete);
      delivered ← when_delivering d;
      mret (Some (dec_reuse d, delivered))
  | StComplete => mret None
  | StHead => fail eof_in_head
  | StFixed _ => fail eof_in_fixed
  | _ => fail eof_in_chunked
  end.

Definition stream_fail (e : Error) (d : StreamingResponseDecoder) : StreamingResponseDecoder :=
  match sink d with Some k => set_sink (Some (sink_fail e k)) d | None => d end.

Definition socket_capacity (d : StreamingResponseDecoder) : outcome Error Z :=
  if bool_decide (is_Some (pending_head d)) then Ok 0
  else match output d with
       | AwaitHead | Discard => Ok (16 * 1024)
       | Deliver => sink_capacity d
       end.

Definition take_response : MS ResponseSink :=
  d ← get;
  if negb (bool_decide (state d = StComplete)) || negb (bool_decide (output d = Discard))
  then fail (error_new ErrorKind.Internal
               "only a completely discarded streaming response can transfer its sink")
  else match sink d with
  | None => fail (error_new ErrorKind.Internal
                    "native streaming decoder response sink was already taken")
  | Some k => _ ← modify (set_sink None); mret k
  end.

End with_params.
End Streaming.
