(* ===== verification/Framing.v ===== *)
(** * The response framing machine: specification of the decoders

    HTTP/1.1 response framing, one byte at a time, with the body as a count:
    what [ResponseDecoder] and [StreamingResponseDecoder] both implement. The
    decoders are proved to refine it, so what is proved of it holds of both. *)

From stdpp Require Import base list strings.
From Stdlib Require Import ZArith Lia.
From S2P Require Import Prelude Errors BodyBudget Request RequestProofs Stream Http1 Http1Proofs Http1Decoder.
Import Request Http1.

(** The final head: status, headers, and whether the connection can be
    reused. *)
Definition final_head : Type := Z * list Header * bool.

Record frame := mkFrame {
  f_state : DecodeState;
  f_scratch : list Z;
  f_info : Z;
  f_framing : Z;
  f_body : Z
}.

Definition start_frame : frame := mkFrame StHead [] 0 0 0.

(** What a byte was: payload or not, the end of the final head, the end of the
    message. *)
Record event := mkEvent { ev_body : bool; ev_head : option final_head; ev_done : bool }.
Definition ev_none : event := mkEvent false None false.

Definition to_state (st : DecodeState) (f : frame) : frame :=
  mkFrame st (f_scratch f) (f_info f) (f_framing f) (f_body f).
Definition clear_scratch (f : frame) : frame :=
  mkFrame (f_state f) [] (f_info f) (f_framing f) (f_body f).

(** The state after the final head. *)
Definition framing_state (fr : BodyFraming) : DecodeState :=
  match fr with
  | FramingNone => StComplete
  | FramingFixed n => if n =? 0 then StComplete else StFixed n
  | FramingChunked => StChunkSize
  | FramingClose => StCloseDelimited
  end.

Definition is_complete (st : DecodeState) : bool := bool_decide (st = StComplete).

Section with_params.
Context {tgt : Target} {hp : HttpParse}.
Context (l : HttpLimits) (to_head : bool).

Definition count_framing (context : string) (f : frame) : outcome Error frame :=
  if header_bytes l <=? f_framing f then Err (framing_limit_error context (header_bytes l))
  else Ok (mkFrame (f_state f) (f_scratch f) (f_info f) (f_framing f + 1) (f_body f)).

Definition add_scratch (byte : Z) (context : string) (framing : bool) (f : frame) : outcome Error frame :=
  if header_bytes l <=? len (f_scratch f) then Err (header_limit_error context (header_bytes l))
  else
    f ← (if framing then count_framing context f else Ok f);
    Ok (mkFrame (f_state f) (f_scratch f ++ [byte]) (f_info f) (f_framing f) (f_body f)).

Definition add_body (f : frame) : outcome Error frame :=
  if body_bytes l <=? f_body f then Err (response_body_limit_error (body_bytes l))
  else Ok (mkFrame (f_state f) (f_scratch f) (f_info f) (f_framing f) (f_body f + 1)).

Definition head_step (byte : Z) (f : frame) : outcome Error (frame * event) :=
  f ← add_scratch byte "response head" false f;
  if negb (ends_with HEAD_END (f_scratch f)) then Ok (f, ev_none)
  else
    parsed ← parse_response_head (f_scratch f) to_head l;
    match parsed with
    | Informational =>
        if MAX_INFORMATIONAL_RESPONSES <? f_info f + 1
        then Err (http_error "too many informational responses")
        else Ok (mkFrame StHead [] (f_info f + 1) (f_framing f) (f_body f), ev_none)
    | Final st hs fr reuse =>
        Ok (to_state (framing_state fr) (clear_scratch f),
            mkEvent false (Some (st, hs, reuse)) (is_complete (framing_state fr)))
    end.

Definition payload_step (next : DecodeState) (f : frame) : outcome Error (frame * event) :=
  f ← add_body f; Ok (to_state next f, mkEvent true None (is_complete next)).

Definition fstep (byte : Z) (f : frame) : outcome Error (frame * event) :=
  match f_state f with
  | StHead => head_step byte f
  | StFixed n => payload_step (if n =? 1 then StComplete else StFixed (n - 1)) f
  | StCloseDelimited => payload_step StCloseDelimited f
  | StChunkSize =>
      f ← add_scratch byte "chunk-size line" true f;
      if negb (ends_with CRLF (f_scratch f)) then Ok (f, ev_none)
      else
        size ← parse_chunk_line (f_scratch f);
        size ← admit_chunk size l (f_body f);
        Ok (to_state (if size =? 0 then StTrailers else StChunkData size) (clear_scratch f), ev_none)
  | StChunkData n => payload_step (if n =? 1 then StChunkEnd 0 else StChunkData (n - 1)) f
  | StChunkEnd matched =>
      if (matched =? 0) && (byte =? CR)
      then f ← count_framing "chunk terminator" f; Ok (to_state (StChunkEnd 1) f, ev_none)
      else if (matched =? 1) && (byte =? LF)
      then f ← count_framing "chunk terminator" f; Ok (to_state StChunkSize f, ev_none)
      else Err (http_error "response chunk data is not followed by CRLF")
  | StTrailers =>
      f ← add_scratch byte "response trailers" true f;
      if negb (trailers_end (f_scratch f)) then Ok (f, ev_none)
      else
        _ ← validate_trailers (f_scratch f) l;
        Ok (to_state StComplete (clear_scratch f), mkEvent false None true)
  | StComplete => Err (error_new ErrorKind.Internal "the message is complete")
  end.

(** A run over a list of bytes stops at the end of the message. *)
Record run := mkRun {
  r_frame : frame; r_body : list Z; r_head : option final_head; r_done : bool; r_used : Z
}.

Definition after (byte : Z) (ev : event) (f : frame) (r : run) : run :=
  mkRun f (if ev_body ev then r_body r ++ [byte] else r_body r)
    (match ev_head ev with Some h => Some h | None => r_head r end)
    (ev_done ev) (r_used r + 1).

Fixpoint frun (b : list Z) (r : run) : outcome Error run :=
  match b with
  | [] => Ok r
  | byte :: rest =>
      if r_done r then Ok r
      else '(f, ev) ← fstep byte (r_frame r); frun rest (after byte ev f r)
  end.

Definition start_run : run := mkRun start_frame [] None false 0.

Lemma frun_done b r : r_done r = true → frun b r = Ok r.
Proof. destruct b; cbn; [done|]. by intros ->. Qed.

Lemma frun_app a b r : frun (a ++ b) r = (frun a r ≫= frun b).
Proof.
  revert r. induction a as [|x a IH]; intros r; [done|]. cbn [app frun].
  destruct (r_done r) eqn:Hd; [symmetry; by apply frun_done|].
  destruct (fstep x (r_frame r)) as [[f ev]| | |]; [|done..]. cbn. apply IH.
Qed.

(** ** Well-formed frames *)

Definition wf_limits : Prop :=
  0 ≤ body_bytes l ≤ isize_max ∧ 0 ≤ header_bytes l ≤ usize_max ∧ 0 ≤ header_count l ≤ usize_max.

Definition wf_frame (f : frame) : Prop :=
  0 ≤ f_info f ≤ MAX_INFORMATIONAL_RESPONSES ∧ 0 ≤ f_framing f ≤ header_bytes l ∧
  len (f_scratch f) ≤ header_bytes l ∧ 0 ≤ f_body f ≤ body_bytes l ∧
  match f_state f with
  | StHead => f_body f = 0
  | StFixed n | StChunkData n => 1 ≤ n ∧ f_body f + n ≤ body_bytes l
  | StChunkEnd m => m = 0 ∨ m = 1
  | _ => True
  end.

Lemma start_frame_wf : wf_limits → wf_frame start_frame.
Proof.
  intros (? & ? & ?). unfold wf_frame, MAX_INFORMATIONAL_RESPONSES, len. cbn. split_and!; done || lia.
Qed.

#[local] Arguments len : simpl never.

(** Equality of two runs up to arithmetic. *)
Ltac run_eq := f_equal; f_equal; try lia; f_equal; lia.

Lemma add_scratch_owp byte context fr f :
  wf_frame f →
  owp (add_scratch byte context fr f)
    (λ f', wf_frame f' ∧ f_state f' = f_state f ∧ f_scratch f' = f_scratch f ++ [byte] ∧
           f_body f' = f_body f) (λ _, True).
Proof.
  intros (Hi & Hf & Hs & Hb & Hst). unfold add_scratch, count_framing. zcase; wp_go; [done|].
  eapply (owp_mono _ (λ f', wf_frame f' ∧ f_state f' = f_state f ∧ f_scratch f' = f_scratch f ∧
    f_body f' = f_body f) _ (λ _, True)); [| |done].
  - destruct fr; cbn beta iota; [zcase|]; wp_go; try done; unfold wf_frame; cbn; split_and!; done || lia.
  - intros f' ((Hi' & Hf' & Hs' & Hb' & Hst') & H1 & H2 & H3). wp_go. unfold wf_frame. cbn.
    rewrite H2, len_app, len_cons. pose proof (@len_nil Z). split_and!; done || lia.
Qed.

Lemma payload_step_owp next f :
  wf_frame f →
  (∀ f', f_body f' = f_body f + 1 → wf_frame f → f_body f' ≤ body_bytes l →
         match next with
         | StHead => False
         | StFixed n | StChunkData n => 1 ≤ n ∧ f_body f' + n ≤ body_bytes l
         | StChunkEnd m => m = 0 ∨ m = 1
         | _ => True
         end) →
  owp (payload_step next f) (λ p, wf_frame (fst p)) (λ _, True).
Proof.
  intros Hf Hnext. pose proof Hf as (Hi & Hfr & Hs & Hb & _). unfold payload_step, add_body.
  zcase; wp_go; [done|]. cbn. specialize (Hnext (mkFrame next (f_scratch f) (f_info f) (f_framing f) (f_body f + 1))).
  cbn in Hnext. unfold wf_frame. cbn. split_and!; try lia.
  specialize (Hnext eq_refl Hf ltac:(lia)). by destruct next.
Qed.

Lemma head_step_owp byte f :
  wf_limits → wf_frame f → f_state f = StHead →
  owp (head_step byte f) (λ p, wf_frame (fst p)) (λ _, True).
Proof.
  intros Hl Hf Hst. unfold head_step. wp_go. eapply owp_mono; [by apply add_scratch_owp| |done].
  intros f' (Hf' & Hst' & _ & Hbody). cbn beta. zcase; wp_go; [|done].
  eapply owp_mono; [apply parse_response_head_owp| |done].
  destruct Hf' as (Hi & Hfr & Hs & Hb & Hs'). rewrite Hst', Hst in Hs'. destruct Hl as (Hlb & Hlh & _).
  intros [|st hs fr reuse] Hsound; cbn beta iota.
  - zcase; wp_go; [done|]. unfold wf_frame. cbn. pose proof (@len_nil Z). split_and!; done || lia.
  - wp_go. unfold wf_frame, framing_state. cbn [fst f_state f_scratch f_info f_framing f_body to_state clear_scratch].
    pose proof (@len_nil Z). split_and!; try lia.
    destruct fr as [|n| |]; try done. destruct (Z.eqb_spec n 0); [done|].
    apply framing_fixed in Hsound. lia.
Qed.

(** Every step keeps the frame well formed, and never panics. *)
Lemma fstep_owp byte f :
  wf_limits → wf_frame f → owp (fstep byte f) (λ p, wf_frame (fst p)) (λ _, True).
Proof.
  intros Hl Hf. unfold fstep. pose proof Hf as (Hi & Hfr & Hs & Hb & Hst).
  destruct (f_state f) as [|n| | |n|m| |] eqn:Est; try done.
  - by apply head_step_owp.
  - apply payload_step_owp; [done|]. intros f' Hb' _ _. destruct (Z.eqb_spec n 1); [done|lia].
  - by apply payload_step_owp.
  - wp_go. eapply owp_mono; [by apply add_scratch_owp| |done]. intros f' (Hf' & Hst' & _ & Hbody). cbn beta.
    zcase; wp_go; [|done]. destruct Hf' as (Hi' & Hfr' & Hs' & Hb' & _). unfold parse_chunk_line.
    destruct (hp_chunk_size _) as [[k size]| | |] eqn:Hcs; wp_go; try done.
    apply hp_chunk_size_u64 in Hcs. zcase; wp_go; [|done].
    unfold admit_chunk. zcase; wp_go; [done|]. zcase; wp_go; [done|]. unfold saturating_sub in *. destruct Hl as (_ & ? & _).
    unfold wf_frame. cbn [fst f_state f_scratch f_info f_framing f_body to_state clear_scratch].
    pose proof (@len_nil Z). split_and!; try lia. destruct (Z.eqb_spec size 0); [done|lia].
  - apply payload_step_owp; [done|]. intros f' Hb' _ _. destruct (Z.eqb_spec n 1); [by left|lia].
  - unfold count_framing. zcase; [|zcase; [|done]]; wp_go; (zcase; wp_go; [done|]);
      unfold wf_frame; cbn; split_and!; try lia; auto.
  - wp_go. eapply owp_mono; [by apply add_scratch_owp| |done]. intros f' (Hf' & Hst' & _ & Hbody). cbn beta.
    zcase; wp_go; [|done]. unfold validate_trailers.
    destruct (hp_headers _ _) as [[k hs]| | |]; wp_go; try done. zcase; wp_go; [|done].
    zcase; wp_go; [done|]. destruct Hf' as (Hi' & Hfr' & Hs' & Hb' & _). destruct Hl as (_ & ? & _).
    unfold wf_frame. cbn [fst f_state f_scratch f_info f_framing f_body to_state clear_scratch].
    pose proof (@len_nil Z). split_and!; done || lia.
Qed.

(** The body count is the number of payload bytes. *)
Lemma fstep_body x f f' ev :
  fstep x f = Ok (f', ev) → f_body f' = f_body f + (if ev_body ev then 1 else 0).
Proof.
  unfold fstep, head_step, payload_step, add_scratch, add_body, count_framing, mbind, outcome_bind.
  repeat (case_match; simplify_eq; try done); intros; simplify_eq; cbn; lia.
Qed.

Lemma frun_wf b r r' :
  wf_limits → wf_frame (r_frame r) → len (r_body r) = f_body (r_frame r) → frun b r = Ok r' →
  wf_frame (r_frame r') ∧ len (r_body r') = f_body (r_frame r').
Proof.
  intros Hl. revert r. induction b as [|x b IH]; intros r Hwf Hlen; cbn [frun]; [by intros [= <-]|].
  destruct (r_done r); [by intros [= <-]|]. pose proof (fstep_owp x _ Hl Hwf) as Howp.
  destruct (fstep x (r_frame r)) as [[f ev]| | |] eqn:Hstep; try done. cbn [mbind outcome_bind].
  apply IH; [done|]. apply fstep_body in Hstep. cbn. rewrite Hstep.
  destruct (ev_body ev); [rewrite len_app, len_cons; change (len []) with 0|]; lia.
Qed.

(** [fstep] for one byte, as a run. *)
Definition one (byte : Z) (r : run) : outcome Error run :=
  '(f, ev) ← fstep byte (r_frame r); Ok (after byte ev f r).

Lemma frun_one byte rest r :
  r_done r = false → frun (byte :: rest) r = (one byte r ≫= frun rest).
Proof. intros Hd. cbn [frun]. rewrite Hd. unfold one. by destruct (fstep _ _) as [[f ev]| | |]. Qed.

(** ** Payload spans *)

(** The state after [k] payload bytes. *)
Definition advance (st : DecodeState) (k : Z) : DecodeState :=
  match st with
  | StFixed n => if k =? n then StComplete else StFixed (n - k)
  | StChunkData n => if k =? n then StChunkEnd 0 else StChunkData (n - k)
  | _ => st
  end.

(** A span fits the state it is taken in. *)
Definition span_ok (st : DecodeState) (k : Z) : Prop :=
  match st with StFixed n | StChunkData n => k ≤ n | StCloseDelimited => True | _ => False end.

Definition after_span (p : list Z) (r : run) : run :=
  let f := r_frame r in
  let st := advance (f_state f) (len p) in
  mkRun (mkFrame st (f_scratch f) (f_info f) (f_framing f) (f_body f + len p))
    (r_body r ++ p) (r_head r) (is_complete st) (r_used r + len p).

Lemma payload_fstep byte f :
  span_ok (f_state f) 1 → fstep byte f = payload_step (advance (f_state f) 1) f.
Proof.
  unfold fstep, advance. destruct (f_state f) as [|n| | |n|m| |]; cbn; try done; intros _;
    by rewrite (Z.eqb_sym n 1).
Qed.

Lemma frun_span p r :
  p ≠ [] → r_done r = false → span_ok (f_state (r_frame r)) (len p) →
  frun p r =
    if f_body (r_frame r) + len p <=? body_bytes l then Ok (after_span p r)
    else Err (response_body_limit_error (body_bytes l)).
Proof.
  revert r. induction p as [|x p IH]; intros r Hne Hd Hok; [done|]. clear Hne.
  rewrite frun_one by done. unfold one. pose proof (len_nonneg p). rewrite len_cons in *.
  rewrite payload_fstep by (destruct (f_state (r_frame r)); try done; cbn in *; lia).
  unfold payload_step, add_body.
  destruct (Z.leb_spec (body_bytes l) (f_body (r_frame r))); cbn [mbind outcome_bind].
  { rewrite (proj2 (Z.leb_gt _ _)) by lia. done. }
  destruct (decide (p = [])) as [->|Hp].
  - cbn [frun]. rewrite (proj2 (Z.leb_le _ _)) by (change (len []) with 0; lia). done.
  - assert (len p ≠ 0) by (by intros ?%len_zero).
    set (r1 := after x _ _ r).
    assert (Hst1 : f_state (r_frame r1) = advance (f_state (r_frame r)) 1) by done.
    assert (Hadv : is_complete (advance (f_state (r_frame r)) 1) = false ∧
      span_ok (advance (f_state (r_frame r)) 1) (len p) ∧
      advance (advance (f_state (r_frame r)) 1) (len p) = advance (f_state (r_frame r)) (1 + len p)).
    { destruct (f_state (r_frame r)) as [|n| | |n|m| |]; cbn in Hok; try done; cbn [advance];
        rewrite (proj2 (Z.eqb_neq 1 n)) by lia; cbn; split_and!; try done; try lia;
        destruct (Z.eqb_spec (len p) (n - 1)), (Z.eqb_spec (1 + len p) n); try lia; f_equal; lia. }
    destruct Hadv as (Hc & Hs1 & Ha). rewrite IH; [|done|done|by rewrite Hst1].
    unfold r1 at 1. cbn [after r_frame to_state f_body].
    replace (f_body (r_frame r) + 1 + len p) with (f_body (r_frame r) + (1 + len p)) by lia.
    destruct (_ <=? _); [|done]. f_equal. unfold after_span. rewrite Hst1, Ha, len_cons. unfold r1. cbn.
    rewrite <-app_assoc. f_equal; [f_equal; lia|lia].
Qed.

(** ** Runs over lines

    In a state that reads a line, the bytes up to the end of the line only
    grow [scratch] (and the framing count). *)
Definition grown (fr : bool) (w : list Z) (r : run) : run :=
  let f := r_frame r in
  mkRun (mkFrame (f_state f) (f_scratch f ++ w) (f_info f)
           (f_framing f + (if fr then len w else 0)) (f_body f))
    (r_body r) (r_head r) false (r_used r + len w).

Definition line_state (st : DecodeState) (context : string) (fr : bool) (stop : list Z → bool)
    (k : frame → outcome Error (frame * event)) : Prop :=
  ∀ x f, f_state f = st →
    fstep x f = (f' ← add_scratch x context fr f;
                 if negb (stop (f_scratch f')) then Ok (f', ev_none) else k f').

Lemma grown_app fr u v r : r_done r = false → grown fr v (grown fr u r) = grown fr (u ++ v) r.
Proof.
  intros _. unfold grown. cbn. rewrite <-app_assoc, len_app. f_equal; [f_equal|]; destruct fr; lia.
Qed.

Lemma add_scratch_grown x context fr r :
  len (f_scratch (r_frame r)) < header_bytes l →
  (fr = true → f_framing (r_frame r) < header_bytes l) →
  add_scratch x context fr (r_frame r) = Ok (r_frame (grown fr [x] r)).
Proof.
  intros Hs Hf. unfold add_scratch, count_framing. rewrite (proj2 (Z.leb_gt _ _)) by lia.
  destruct fr; cbn [mbind outcome_bind].
  - rewrite (proj2 (Z.leb_gt _ _)) by auto. done.
  - unfold grown. cbn. by rewrite Z.add_0_r.
Qed.

Lemma line_run st context fr stop k w r :
  line_state st context fr stop k → f_state (r_frame r) = st → r_done r = false →
  len (f_scratch (r_frame r)) + len w ≤ header_bytes l →
  (fr = true → f_framing (r_frame r) + len w ≤ header_bytes l) →
  (∀ u v, w = u ++ v → u ≠ [] → stop (f_scratch (r_frame r) ++ u) = false) →
  w ≠ [] → frun w r = Ok (grown fr w r).
Proof.
  intros Hline. revert r. induction w as [|x w IH]; intros r Hst Hd Hs Hf Hstop Hne; [done|].
  rewrite len_cons in Hs, Hf. pose proof (len_nonneg w). cbn [frun]. rewrite Hd.
  rewrite (Hline x _ Hst), add_scratch_grown by (try intros ?%Hf; lia). cbn [mbind outcome_bind].
  change (f_scratch (r_frame (grown fr [x] r))) with (f_scratch (r_frame r) ++ [x]).
  rewrite (Hstop [x] w) by done. cbn [negb].
  change (frun w (grown fr [x] r) = Ok (grown fr (x :: w) r)).
  destruct (decide (w = [])) as [->|Hw]; [done|].
  rewrite IH; [by rewrite grown_app| done | done | | | | done].
  - cbn. rewrite len_app, len_cons. change (len []) with 0. lia.
  - intros ->. cbn. specialize (Hf eq_refl). change (len [x]) with 1. lia.
  - intros u v -> Hu. cbn. rewrite <-app_assoc. by apply (Hstop ([x] ++ u) v).
Qed.

(** The byte that ends the line. *)
Lemma line_end st context fr stop k x r :
  line_state st context fr stop k → f_state (r_frame r) = st → r_done r = false →
  len (f_scratch (r_frame r)) < header_bytes l →
  (fr = true → f_framing (r_frame r) < header_bytes l) →
  stop (f_scratch (r_frame r) ++ [x]) = true →
  fstep x (r_frame r) = k (r_frame (grown fr [x] r)).
Proof.
  intros Hline Hst Hd Hs Hf Hstop. rewrite (Hline x _ Hst), add_scratch_grown by done.
  cbn [mbind outcome_bind]. change (f_scratch (r_frame (grown fr [x] r))) with (f_scratch (r_frame r) ++ [x]).
  by rewrite Hstop.
Qed.

(** ** Complete heads *)

(** [h] is one head: it ends with the blank line, and no proper prefix does. *)
Definition one_head (h : list Z) : Prop :=
  ends_with HEAD_END h = true ∧ (∀ u v, h = u ++ v → v ≠ [] → ends_with HEAD_END u = false) ∧
  len h ≤ header_bytes l.

Lemma line_head : line_state StHead "response head" false (ends_with HEAD_END) (λ f,
  parsed ← parse_response_head (f_scratch f) to_head l;
  match parsed with
  | Informational =>
      if MAX_INFORMATIONAL_RESPONSES <? f_info f + 1
      then Err (http_error "too many informational responses")
      else Ok (mkFrame StHead [] (f_info f + 1) (f_framing f) (f_body f), ev_none)
  | Final st hs fr reuse =>
      Ok (to_state (framing_state fr) (clear_scratch f),
          mkEvent false (Some (st, hs, reuse)) (is_complete (framing_state fr)))
  end).
Proof. intros x f Hst. unfold fstep. by rewrite Hst. Qed.

Lemma head_run h st hs fr reuse :
  one_head h → parse_response_head h to_head l = Ok (Final st hs fr reuse) →
  frun h start_run =
    Ok (mkRun (mkFrame (framing_state fr) [] 0 0 0) [] (Some (st, hs, reuse))
          (is_complete (framing_state fr)) (len h)).
Proof.
  intros (Hend & Hpre & Hlen) Hparse.
  destruct (exists_last (l:=h)) as (w & x & ->); [by intros ->|].
  rewrite len_app in *. change (len [x]) with 1 in *.
  assert (Hw : w ≠ []) by (intros ->; by vm_compute in Hend).
  rewrite frun_app, (line_run _ _ _ _ _ w start_run line_head); try done.
  - cbn [mbind outcome_bind frun]. change (r_done (grown false w start_run)) with false. cbn iota.
    rewrite (line_end _ _ _ _ _ x (grown false w start_run) line_head); try done; [|cbn; lia].
    cbn [grown r_frame f_scratch start_run start_frame app]. rewrite Hparse. done.
  - cbn. change (len []) with 0. lia.
  - intros u v -> Hu. cbn. apply (Hpre u (v ++ [x])); [by rewrite app_assoc|by destruct v].
Qed.

(** ** Chunked bodies *)

Definition chunk_wire (c : list Z) : list Z := (to_hex (len c) ++ CRLF) ++ c ++ CRLF.
Definition last_chunk : list Z := bs "0" ++ CRLF ++ CRLF.

(** [httparse] on the lines that chunked framing consists of: a hexadecimal
    size and CRLF, and an empty trailer section. *)
Definition chunk_lines_law : Prop :=
  (∀ n, 0 ≤ n ≤ usize_max → hp_chunk_size (to_hex n ++ CRLF) = HpComplete (len (to_hex n) + 2, n)) ∧
  (∀ slots, hp_headers slots CRLF = HpComplete (2, [])).

(** The run [r] is at the start of a chunk. *)
Definition at_chunk (r : run) : Prop :=
  f_state (r_frame r) = StChunkSize ∧ f_scratch (r_frame r) = [] ∧ r_done r = false ∧
  0 ≤ f_body (r_frame r).

(** [r] after [framing] bytes of framing and the payload [c]. *)
Definition advanced (st : DecodeState) (framing : Z) (c : list Z) (r : run) : run :=
  let f := r_frame r in
  mkRun (mkFrame st [] (f_info f) (f_framing f + framing) (f_body f + len c))
    (r_body r ++ c) (r_head r) (is_complete st) (r_used r + framing + len c).

Lemma line_chunk : line_state StChunkSize "chunk-size line" true (ends_with CRLF) (λ f,
  size ← parse_chunk_line (f_scratch f);
  size ← admit_chunk size l (f_body f);
  Ok (to_state (if size =? 0 then StTrailers else StChunkData size) (clear_scratch f), ev_none)).
Proof. intros x f Hst. unfold fstep. by rewrite Hst. Qed.

Lemma hex_not_LF n b : 0 ≤ n → b ∈ to_hex n → b ≠ LF.
Proof.
  intros Hn Hb ->. destruct (to_hex_spec n Hn) as (_ & _ & Hd). rewrite Forall_forall in Hd.
  by specialize (Hd _ Hb).
Qed.

Lemma size_line_run n r :
  chunk_lines_law → at_chunk r → 0 ≤ n ≤ usize_max → f_body (r_frame r) + n ≤ body_bytes l →
  0 ≤ f_framing (r_frame r) → f_framing (r_frame r) + len (to_hex n) + 2 ≤ header_bytes l →
  frun (to_hex n ++ CRLF) r =
    Ok (advanced (if n =? 0 then StTrailers else StChunkData n) (len (to_hex n) + 2) [] r).
Proof.
  intros [Hhp _] (Hst & Hsc & Hd & Hb) Hn Hbody Hf0 Hf.
  change CRLF with ([CR] ++ [LF]). rewrite app_assoc, frun_app.
  assert (Hlen : len (to_hex n ++ [CR]) = len (to_hex n) + 1) by (by rewrite len_app).
  pose proof (len_nonneg (to_hex n)).
  rewrite (line_run _ _ _ _ _ (to_hex n ++ [CR]) r line_chunk); try done.
  - cbn [mbind outcome_bind frun]. change (r_done (grown true (to_hex n ++ [CR]) r)) with false. cbn iota.
    rewrite (line_end _ _ _ _ _ LF (grown true (to_hex n ++ [CR]) r) line_chunk); try done.
    + cbn [grown r_frame f_scratch f_body]. rewrite Hsc. cbn [app].
      replace ((to_hex n ++ [CR]) ++ [LF]) with (to_hex n ++ CRLF) by (by rewrite <-app_assoc).
      unfold parse_chunk_line. rewrite Hhp by done.
      rewrite (len_app (to_hex n) CRLF). change (len CRLF) with 2. rewrite Z.eqb_refl. cbn [negb mbind outcome_bind].
      unfold admit_chunk. rewrite (proj2 (Z.ltb_ge _ _)) by lia.
      unfold saturating_sub. rewrite (proj2 (Z.ltb_ge _ _)) by lia. cbn [mbind outcome_bind].
      unfold advanced, after, grown, to_state, clear_scratch. cbn. rewrite Hlen, app_nil_r.
      change (len [LF]) with 1. change (len []) with 0.
      f_equal. f_equal; [f_equal; lia|by destruct (n =? 0)|lia].
    + cbn. rewrite Hsc. cbn. rewrite Hlen. lia.
    + intros _. cbn. rewrite Hlen. lia.
    + cbn. rewrite Hsc. cbn. rewrite <-app_assoc. apply ends_with_app.
  - rewrite Hsc, Hlen. change (len []) with 0. lia.
  - intros _. rewrite Hlen. lia.
  - intros u v Huv Hu. rewrite Hsc. cbn. destruct (ends_with CRLF u) eqn:He; [|done].
    destruct (exists_last Hu) as (w & x & ->). apply (ends_with_last [CR]) in He. subst x.
    assert (Hin : LF ∈ to_hex n ++ [CR]) by (rewrite Huv; apply elem_of_app; left; apply elem_of_app; right; apply list_elem_of_here).
    apply elem_of_app in Hin as [Hin|Hin%list_elem_of_singleton]; [|done]. by apply hex_not_LF in Hin; [|lia].
  - by destruct (to_hex n).
Qed.

(** The CRLF after the data of a chunk. *)
Lemma chunk_end_step m x next f :
  f_state f = StChunkEnd m → f_framing f < header_bytes l →
  (m = 0 ∧ x = CR ∧ next = StChunkEnd 1) ∨ (m = 1 ∧ x = LF ∧ next = StChunkSize) →
  fstep x f = Ok (mkFrame next (f_scratch f) (f_info f) (f_framing f + 1) (f_body f), ev_none).
Proof.
  intros Hst Hf Hx. unfold fstep, count_framing. rewrite Hst.
  destruct Hx as [(-> & -> & ->)|(-> & -> & ->)]; cbn; by rewrite (proj2 (Z.leb_gt _ _)) by lia.
Qed.

Lemma chunk_end_run r :
  f_state (r_frame r) = StChunkEnd 0 → f_scratch (r_frame r) = [] → r_done r = false →
  f_framing (r_frame r) + 2 ≤ header_bytes l →
  frun CRLF r = Ok (advanced StChunkSize 2 [] r).
Proof.
  intros Hst Hsc Hd Hf. unfold CRLF. rewrite frun_one by done. unfold one.
  rewrite (chunk_end_step 0 CR (StChunkEnd 1)) by (try done; try lia; auto). cbn [mbind outcome_bind].
  rewrite frun_one by done. unfold one.
  rewrite (chunk_end_step 1 LF StChunkSize) by (try done; try (cbn; lia); auto). cbn. unfold advanced, after. cbn.
  rewrite app_nil_r, Hsc. change (len []) with 0. run_eq.
Qed.

Lemma chunk_run c r :
  chunk_lines_law → at_chunk r → c ≠ [] → len c ≤ usize_max →
  f_body (r_frame r) + len c ≤ body_bytes l → 0 ≤ f_framing (r_frame r) →
  f_framing (r_frame r) + len (to_hex (len c)) + 4 ≤ header_bytes l →
  frun (chunk_wire c) r = Ok (advanced StChunkSize (len (to_hex (len c)) + 4) c r).
Proof.
  intros Hhp Hat Hc Hmax Hb Hf0 Hf. pose proof Hat as (_ & _ & _ & Hb0).
  assert (len c ≠ 0) by (by intros ?%len_zero). pose proof (len_nonneg c).
  unfold chunk_wire. rewrite frun_app, size_line_run by (try done; lia). cbn [mbind outcome_bind].
  rewrite (proj2 (Z.eqb_neq (len c) 0)) by done. rewrite frun_app.
  rewrite frun_span; [|done|done|cbn; lia]. cbn [advanced r_frame f_body].
  change (len []) with 0. rewrite (proj2 (Z.leb_le _ _)) by lia. cbn [mbind outcome_bind].
  rewrite chunk_end_run.
  - unfold advanced, after_span. cbn. rewrite !app_nil_r. change (len []) with 0.
    run_eq.
  - cbn. by rewrite Z.eqb_refl.
  - done.
  - cbn. by rewrite Z.eqb_refl.
  - cbn. lia.
Qed.

(** The framing bytes of a list of chunks. *)
Definition chunk_framing (cs : list (list Z)) : Z := sumZ (map (λ c, len (to_hex (len c)) + 4) cs).

Lemma chunk_framing_nonneg cs : 0 ≤ chunk_framing cs.
Proof.
  apply sumZ_nonneg, Forall_map, Forall_forall. intros c _. pose proof (len_nonneg (to_hex (len c))). cbn. lia.
Qed.

Lemma chunks_run cs r :
  chunk_lines_law → at_chunk r → Forall (λ c, c ≠ [] ∧ len c ≤ usize_max) cs →
  f_body (r_frame r) + len (concat cs) ≤ body_bytes l → 0 ≤ f_framing (r_frame r) →
  f_framing (r_frame r) + chunk_framing cs ≤ header_bytes l →
  frun (concat (map chunk_wire cs)) r = Ok (advanced StChunkSize (chunk_framing cs) (concat cs) r).
Proof.
  intros Hhp. revert r. induction cs as [|c cs IH]; intros r Hat Hcs Hb Hf0 Hf.
  - cbn. destruct Hat as (Hst & Hsc & Hd & _). destruct r as [[st sc i f b] body h d u]. cbn in *. subst.
    unfold advanced. cbn. rewrite app_nil_r. change (len []) with 0. run_eq.
  - apply Forall_cons in Hcs as [[Hc Hmax] Hcs]. cbn [map concat] in *. rewrite len_app in Hb.
    pose proof (len_nonneg (concat cs)). pose proof (chunk_framing_nonneg cs). pose proof (len_nonneg c).
    pose proof (len_nonneg (to_hex (len c))).
    change (chunk_framing (c :: cs)) with (len (to_hex (len c)) + 4 + chunk_framing cs) in *.
    rewrite frun_app, chunk_run by (try done; lia). cbn [mbind outcome_bind]. rewrite IH; try done.
    + unfold advanced. cbn. rewrite app_assoc, len_app. run_eq.
    + destruct Hat as (_ & _ & _ & ?). by split_and!; cbn; try lia.
    + cbn. lia.
    + cbn. lia.
    + cbn. lia.
Qed.

Lemma line_trailers : line_state StTrailers "response trailers" true trailers_end (λ f,
  _ ← validate_trailers (f_scratch f) l;
  Ok (to_state StComplete (clear_scratch f), mkEvent false None true)).
Proof. intros x f Hst. unfold fstep. by rewrite Hst. Qed.

Lemma trailers_run r :
  chunk_lines_law → f_state (r_frame r) = StTrailers → f_scratch (r_frame r) = [] → r_done r = false →
  0 ≤ f_framing (r_frame r) → f_framing (r_frame r) + 2 ≤ header_bytes l →
  frun CRLF r = Ok (advanced StComplete 2 [] r).
Proof.
  intros [_ Hh] Hst Hsc Hd Hf0 Hf. change CRLF with ([CR] ++ [LF]). rewrite frun_app.
  rewrite (line_run _ _ _ _ _ [CR] r line_trailers); try done.
  - cbn [mbind outcome_bind]. rewrite frun_one by done. unfold one.
    rewrite (line_end _ _ _ _ _ LF (grown true [CR] r) line_trailers); try done.
    + cbn [grown r_frame f_scratch]. rewrite Hsc. unfold validate_trailers. change (([] ++ [CR]) ++ [LF]) with CRLF.
      rewrite Hh. change (2 =? len CRLF) with true. cbn. unfold advanced, after, to_state, clear_scratch. cbn. rewrite app_nil_r. change (len []) with 0.
      change (len [CR]) with 1. change (len [LF]) with 1. run_eq.
    + cbn. rewrite Hsc. change (len ([] ++ [CR])) with 1. lia.
    + intros _. cbn. change (len [CR]) with 1. lia.
    + cbn. by rewrite Hsc.
  - rewrite Hsc. change (len []) with 0. change (len [CR]) with 1. lia.
  - intros _. change (len [CR]) with 1. lia.
  - intros u v Huv Hu. rewrite Hsc. destruct u as [|x [|y u]]; [done| |done]. by injection Huv as <- _.
Qed.

Lemma last_chunk_run r :
  chunk_lines_law → at_chunk r → f_body (r_frame r) ≤ body_bytes l → 0 ≤ f_framing (r_frame r) →
  f_framing (r_frame r) + 5 ≤ header_bytes l →
  frun last_chunk r = Ok (advanced StComplete 5 [] r).
Proof.
  intros Hhp Hat Hb Hf0 Hf. unfold last_chunk. rewrite app_assoc, frun_app.
  change (bs "0" ++ CRLF) with (to_hex 0 ++ CRLF). pose proof usize_nonneg.
  rewrite size_line_run; try done; [|lia..|change (len (to_hex 0)) with 1; lia].
  change (len (to_hex 0) + 2) with 3. cbn [mbind outcome_bind Z.eqb].
  rewrite trailers_run; try done; [|cbn; lia..].
  unfold advanced. cbn. rewrite !app_nil_r. change (len []) with 0. run_eq.
Qed.
End with_params.
