(* ===== verification/HttpParseInstance.v ===== *)
(** * An instance of the parser interface

    A small parser with the documented behaviour of [httparse] on the inputs
    the examples use: hexadecimal chunk-size lines, an empty trailer section,
    and two response heads. It shows that the hypotheses on the interface can
    hold. *)

From stdpp Require Import base list strings.
From Stdlib Require Import ZArith Lia.
From S2P Require Import Prelude Errors Request Http1 Http1Decoder Framing.
Import Request Http1.

Definition hex_value (b : Z) : Z := if is_ascii_digit b then b - 48 else b - 55.

Fixpoint parse_hex (acc : Z) (l : list Z) : option (Z * list Z) :=
  match l with
  | b :: l' => if is_hex_digit b then parse_hex (acc * 16 + hex_value b) l' else Some (acc, l)
  | [] => None
  end.

Definition chunk_size_line (l : list Z) : hp_status (Z * Z) :=
  match parse_hex 0 l with
  | Some (n, rest) =>
      if starts_with CRLF rest && in_range 0 u64_max n
      then HpComplete (len l - len rest + 2, n) else HpError "invalid chunk size"
  | None => HpPartial
  end.

Lemma hex_value_digit d : 0 ≤ d < 16 → hex_value (hex_digit d) = d.
Proof.
  intros Hd. unfold hex_value, hex_digit, is_ascii_digit, in_range. destruct (Z.ltb_spec d 10).
  - rewrite !(proj2 (Z.leb_le _ _)) by lia. cbn. lia.
  - rewrite (proj2 (Z.leb_gt (55 + d) 57)) by lia. rewrite andb_false_r. lia.
Qed.

Definition hex_number : Z → list Z → Z := foldl (λ acc b, acc * 16 + hex_value b).

Lemma parse_hex_app acc ds b rest :
  Forall (λ b, is_hex_digit b = true) ds → is_hex_digit b = false →
  parse_hex acc (ds ++ b :: rest) = Some (hex_number acc ds, b :: rest).
Proof.
  intros Hds Hb. revert acc. induction Hds as [|d ds Hd _ IH]; intros acc; cbn [app parse_hex].
  - by rewrite Hb.
  - rewrite Hd. apply IH.
Qed.

Lemma hex_number_digits fuel n : 0 ≤ n < 16 ^ Z.of_nat fuel → hex_number 0 (hex_digits fuel n) = n.
Proof.
  revert n. induction fuel as [|fuel IH]; intros n Hn; [cbn in *; lia|].
  cbn [hex_digits]. destruct (Z.ltb_spec n 16).
  - cbn [hex_number foldl]. rewrite hex_value_digit by lia. lia.
  - pose proof (Z.mod_pos_bound n 16 ltac:(lia)). pose proof (Z.div_mod n 16 ltac:(lia)).
    unfold hex_number in *. rewrite foldl_app, IH.
    + cbn [foldl]. rewrite hex_value_digit by lia. lia.
    + rewrite Nat2Z.inj_succ, Z.pow_succ_r in Hn by lia.
      split; [apply Z.div_pos|apply Z.div_lt_upper_bound]; lia.
Qed.

Lemma chunk_size_line_hex n :
  0 ≤ n ≤ u64_max → chunk_size_line (to_hex n ++ CRLF) = HpComplete (len (to_hex n) + 2, n).
Proof.
  intros Hn. destruct (to_hex_spec n) as (_ & _ & Hd); [lia|].
  assert (Hnum : hex_number 0 (to_hex n) = n).
  { apply hex_number_digits. unfold u64_max in Hn. change (16 ^ Z.of_nat 16) with 18446744073709551616. lia. }
  unfold chunk_size_line, CRLF. rewrite parse_hex_app, Hnum by done.
  unfold in_range. rewrite !(proj2 (Z.leb_le _ _)) by lia.
  change (starts_with [CR; LF] [CR; LF]) with true. cbn [andb]. rewrite len_app.
  replace (len (to_hex n) + len [CR; LF] - len [CR; LF] + 2) with (len (to_hex n) + 2) by lia. done.
Qed.

(** Two heads: one with a Content-Length, one chunked. *)
Definition fixed_head : list Z := bs "HTTP/1.1 200 OK" ++ CRLF ++ bs "Content-Length: 5" ++ CRLF ++ CRLF.
Definition chunked_head : list Z :=
  bs "HTTP/1.1 200 OK" ++ CRLF ++ bs "Transfer-Encoding: chunked" ++ CRLF ++ CRLF.
Definition fixed_headers : list Header := [mkHeader (bs "Content-Length") (bs "5")].
Definition chunked_headers : list Header := [mkHeader (bs "Transfer-Encoding") (bs "chunked")].

Definition response_head (slots : Z) (b : list Z) : hp_status (Z * option Z * option Z * list Header) :=
  if slots <? 1 then HpTooManyHeaders
  else if bytes_eqb b fixed_head then HpComplete (len b, Some 1, Some 200, fixed_headers)
  else if bytes_eqb b chunked_head then HpComplete (len b, Some 1, Some 200, chunked_headers)
  else HpError "invalid HTTP version".

Definition header_block (slots : Z) (b : list Z) : hp_status (Z * list Header) :=
  if starts_with CRLF b then HpComplete (2, []) else HpError "invalid header name".

Definition small_parser : HttpParse.
Proof.
  refine {| hp_response := response_head; hp_chunk_size := chunk_size_line; hp_headers := header_block |}.
  intros b used size. unfold chunk_size_line. destruct (parse_hex 0 b) as [[n rest]|]; [|done].
  destruct (starts_with CRLF rest); cbn [andb]; [|done]. unfold in_range.
  destruct (Z.leb_spec 0 n), (Z.leb_spec n u64_max); cbn [andb]; try done. intros [= _ <-]. lia.
Defined.

Lemma small_parser_law `{Target} : chunk_lines_law (hp:=small_parser).
Proof.
  split; [|done]. intros n Hn. apply chunk_size_line_hex. pose proof usize_bounds. lia.
Qed.
