(* ===== verification/NativeUploadProofs.v ===== *)
(** * Correctness of upload bodies on the wire

    What reaches the socket is the accepted bytes in order, framed as the
    serialized head announced: by the declared length, or in chunks that any
    decoder of the framing machine reads back to those bytes. *)

From stdpp Require Import base list strings.
From Stdlib Require Import ZArith Lia.
From S2P Require Import Prelude Errors BodyBudget Request Stream StreamProofs NativeUpload Http1 Http1Decoder.
From S2P Require Import Framing HttpParseInstance.
Import Upload.

#[local] Arguments len : simpl never.

Section with_target.
Context {tgt : Target}.

(** ** The sender's side *)

Lemma sender_step o u live busy acc pop t :
  o ≠ TryPop → transfer_step o (mkTransfer u live busy acc pop) = Some t →
  transfer_step o (mkTransfer u live busy acc [])
    = Some (mkTransfer (channel t) (sender_live t) (pushing t) (accepted_log t) []) ∧
  popped_log t = pop.
Proof.
  destruct o; try done; intros _; cbn [transfer_step]; repeat (case_match; simplify_eq; try done);
    intros [= <-]; done.
Qed.

(** Nothing is accepted after the upload was finished. *)
Lemma finished_stable o t t' :
  UploadProofs.transfer_inv t → producer (state (channel t)) = Finished → o ≠ TryPop →
  transfer_step o t = Some t' →
  producer (state (channel t')) = Finished ∧ accepted_log t' = accepted_log t.
Proof.
  destruct t as [u live busy acc pop]. intros (Hch & Hpush & _) Hfin Ho. cbn in Hch, Hpush, Hfin.
  assert (busy = None) as ->.
  { destruct busy as [[c off]|]; [|done]. destruct Hpush as (_ & _ & Hopen & _). congruence. }
  destruct Hch as (_ & _ & _ & _ & Hacc & _ & _ & Hlen & _).
  assert (Hshut : bool_decide (producer (state u) = Open) = false) by (by rewrite Hfin).
  destruct o; try done; cbn [transfer_step channel accepted_log].
  - destruct (negb _); [by intros [= <-]|].
    assert (Hwp : wp (try_push chunk) (λ _ _, False) (λ _ u', u' = u) u).
    { unfold try_push. wp_go. zcase; wp_go; [done|]. destruct (receiver_alive _); wp_go; [|done].
      rewrite Hshut. by wp_go. }
    destruct (wp_inv _ _ _ _ Hwp) as [(? & ? & _ & [])|(e & u' & -> & ->)]. by intros [= <-].
  - destruct (negb _); [by intros [= <-]|].
    assert (Hwp : wp (push_admit chunk) (λ r u', r = None ∧ u' = u) (λ _ u', u' = u) u).
    { unfold push_admit. zcase; wp_go; [done|]. destruct (run_mode _) as [[]|]; wp_go; try done.
      zcase; wp_go; [done|]. rewrite Hshut, orb_true_r. by wp_go. }
    destruct (wp_inv _ _ _ _ Hwp) as [(? & u' & -> & -> & ->)|(e & u' & -> & ->)]; by intros [= <-].
  - by intros [= <-].
  - destruct (negb _); [by intros [= <-]|]. unfold finish. cbn beta iota zeta. unfold declared_length.
    destruct (negb (receiver_alive (state u))).
    { intros [= <-]. cbn. rewrite UploadProofs.wake_state. done. }
    assert (match match framing u with Fixed length => Some length | Chunked => None end with
      | Some length => negb (length =? accepted_bytes (state u)) | None => false end = false) as ->.
    { destruct (framing u) eqn:Hf; [|done]. rewrite Hacc, (Hlen Hfin _ eq_refl), Z.eqb_refl. done. }
    intros [= <-]. cbn. rewrite UploadProofs.wake_state. done.
  - destruct (negb _); [by intros [= <-]|]. intros [= <-]. cbn. unfold drop_sender.
    rewrite Hshut, UploadProofs.wake_state. done.
  - by intros [= <-].
  - assert (Hwp : wp (bind max_queue limit mode) (λ _ u', producer (state u') = Finished)
      (λ _ u', producer (state u') = Finished) u).
    { unfold bind. wp_go. repeat (case_match; wp_go; try done). }
    destruct (wp_inv _ _ _ _ Hwp) as [([] & u' & -> & Hp)|(e & u' & -> & Hp)]; by intros [= <-].
Qed.

Lemma pop_chunk u c u' : try_pop u = (Ok (Chunk c), u') → ∃ rest, queue (state u) = c :: rest.
Proof.
  unfold try_pop, mbind, M_bind, get, lift, put, mret, M_ret, usub.
  repeat (case_match; simplify_eq; try done); intros; simplify_eq; eauto.
Qed.

(** ** What is on the wire *)

Definition wire_of (f : UploadFraming) (taken : list (list Z)) (finished : bool) : list Z :=
  match f with
  | Fixed _ => concat taken
  | Chunked => concat (map chunk_wire taken) ++ (if finished then last_chunk else [])
  end.

Section config.
Context (f : UploadFraming) (capacity : Z).
Hypothesis Hcapacity : 1 ≤ capacity ≤ isize_max.

Definition upload_inv (u : NativeUpload) (live : bool) (busy : option (list Z * Z)) (acc out : list Z)
    (taken : list (list Z)) : Prop :=
  UploadProofs.transfer_inv (mkTransfer (up_body u) live busy acc (concat taken)) ∧
  (framing (up_body u) = f ∧ up_framing u = f ∧ queue_capacity (up_body u) = capacity) ∧
  Forall (λ c, c ≠ [] ∧ len c ≤ capacity) taken ∧
  out ++ default [] (pending_wire u) = wire_of f taken (producer_finished u) ∧
  (producer_finished u = true → producer (state (up_body u)) = Finished ∧ acc = concat taken) ∧
  (∀ w, pending_wire u = Some w → len w ≤ capacity + 20).

Definition sending_inv (s : sending) : Prop :=
  ∃ taken, upload_inv (sd_upload s) (sd_live s) (sd_busy s) (sd_accepted s) (sent s) taken ∧
    (sd_complete s = true → NativeUpload.is_complete (sd_upload s) = true).

Lemma pop_body_wp u p b (Q : UploadPoll → NativeUpload → Prop) R :
  try_pop (up_body u) = (Ok p, b) → Q p (with_body b u) → wp pop_body Q R u.
Proof. intros Hp HQ. unfold wpx, pop_body. by rewrite Hp. Qed.

(** A chunk taken from the queue, framed. *)
Lemma taken_inv u b live busy acc out taken c fin' wire :
  upload_inv u live busy acc out taken → pending_wire u = None → producer_finished u = false →
  try_pop (up_body u) = (Ok (Chunk c), b) →
  wire_of f (taken ++ [c]) false = wire_of f taken false ++ wire → len wire ≤ len c + 20 → fin' = false →
  upload_inv (mkUpload b (up_framing u) fin' (Some wire)) live busy acc out (taken ++ [c]).
Proof.
  intros (Ht & (Hf1 & Hf2 & Hcap) & Htk & Hw & _ & _) Hn Hnf Hpop Hwire Hlen ->.
  destruct (pop_chunk _ _ _ Hpop) as [rest Hq]. rewrite Hn, Hnf in Hw. cbn in Hw. rewrite app_nil_r in Hw.
  destruct (UploadProofs.transfer_step_inv TryPop _ Ht) as (t & Hstep & Ht').
  pose proof (UploadProofs.transfer_step_config _ _ _ Hstep) as [Hc1 Hc2].
  cbn [transfer_step] in Hstep. rewrite Hpop in Hstep. injection Hstep as <-. cbn in Hc1, Hc2.
  destruct Ht as ((_ & Hqb & Hqc & Hne & _) & _). cbn in Hqb, Hqc, Hne. rewrite Hq in Hqb, Hne.
  rewrite queued_cons in Hqb. pose proof (queued_nonneg rest). apply Forall_cons in Hne as [Hc _].
  assert (len c ≤ capacity) by lia.
  unfold upload_inv. cbn [up_body up_framing pending_wire producer_finished].
  rewrite concat_app. cbn [concat]. rewrite app_nil_r. split_and!; try done; try congruence.
  - apply Forall_app. split; [done|]. by apply Forall_singleton.
  - cbn. by rewrite Hwire, Hw.
  - intros w [= <-]. lia.
Qed.

Lemma prepare_wire_inv u live busy acc out taken :
  upload_inv u live busy acc out taken → pending_wire u = None → producer_finished u = false →
  wp prepare_wire
    (λ _ u', ∃ taken', upload_inv u' live busy acc out taken' ∧
       (pending_wire u' = None → producer_finished u' = false → queue (state (up_body u)) = []))
    (λ _ u', upload_inv u' live busy acc out taken) u.
Proof.
  intros Hinv Hn Hnf. pose proof Hinv as (Ht & (Hf1 & Hf2 & Hcap) & Htk & Hw & _ & _).
  unfold prepare_wire. wp_go. pose proof Ht as (Hch & _). cbn in Hch.
  destruct (wp_inv _ _ _ _ (UploadProofs.try_pop_inv _ _ _ Hch)) as [(p & b & Hp & Hpost)|(? & ? & _ & [])].
  eapply pop_body_wp; [exact Hp|]. wp_go. cbn [with_body up_framing]. rewrite Hf2.
  destruct p as [c| | |e].
  - assert (Hne : out ++ [] = wire_of f taken false) by (by rewrite Hn, Hnf in Hw).
    assert (Hgo : ∀ wire, wire_of f (taken ++ [c]) false = wire_of f taken false ++ wire → len wire ≤ len c + 20 →
      ∃ taken', upload_inv (set_pending (Some wire) (with_body b u)) live busy acc out taken' ∧
       (Some wire = None → producer_finished u = false → queue (state (up_body u)) = [])).
    { intros wire H1 H2. exists (taken ++ [c]). split; [|done]. unfold set_pending, with_body. cbn.
      rewrite Hf2, <-Hf2. by eapply taken_inv. }
    destruct f as [n|] eqn:Hf; wp_go.
    + apply Hgo; [cbn; by rewrite concat_app; cbn; rewrite app_nil_r|]. pose proof (len_nonneg c). lia.
    + pose proof (to_hex_spec (len c) (len_nonneg c)) as (_ & Hhex & _). pose proof (len_nonneg (to_hex (len c))).
      assert (Hc : len c ≤ capacity).
      { destruct (pop_chunk _ _ _ Hp) as [rest Hq]. destruct Hch as (_ & Hqb & Hqc & _).
        rewrite Hq, queued_cons in Hqb. pose proof (queued_nonneg rest). lia. }
      pose proof isize_bounds. pose proof (len_nonneg c).
      assert (Hpl : len (to_hex (len c) ++ CRLF) = len (to_hex (len c)) + 2) by (by rewrite len_app).
      unfold checked_add. rewrite Hpl, (proj2 (Z.leb_le _ _)) by lia. cbn [mbind option_bind].
      rewrite (proj2 (Z.leb_le _ _)) by lia. cbn [ok_or]. wp_go. apply Hgo.
      * cbn [wire_of]. rewrite map_app, concat_app. cbn [map concat]. by rewrite !app_nil_r.
      * rewrite !len_app. change (len CRLF) with 2. lia.
  - wp_go. destruct Hpost as [-> Hq]. exists taken. split; [by destruct u|]. intros _ _.
    destruct (receiver_alive (state (up_body u))) eqn:Ha; [by apply Hq|].
    destruct Hch as (_ & _ & _ & _ & _ & _ & _ & _ & Hx). rewrite Ha in Hx. by destruct Hx.
  - destruct Hpost as (-> & Hfin & Heq). rewrite Hn, Hnf in Hw. cbn in Hw.
    destruct f as [n|] eqn:Hf; wp_go; exists taken; (split; [|done]).
    + destruct u as [b0 f0 fin0 pend0]. cbn in *. subst. unfold upload_inv. cbn. rewrite Hf. by split_and!.
    + destruct u as [b0 f0 fin0 pend0]. cbn in *. subst. unfold upload_inv. cbn. rewrite Hf. split_and!; try done.
      * rewrite app_nil_r in Hw. rewrite Hw, app_nil_r. done.
      * intros w [= <-]. change (5 ≤ capacity + 20). lia.
  - wp_go. destruct Hpost as [-> _]. by destruct u.
Qed.

Lemma next_wire_inv cap u live busy acc out taken :
  upload_inv u live busy acc out taken →
  wp (next_wire cap)
    (λ r u', ∃ taken', upload_inv u' live busy acc (out ++ match r with WireBytes w => w | _ => [] end) taken' ∧
       match r with
       | WireBytes w => len w ≤ capacity + 20
       | WireComplete => NativeUpload.is_complete u' = true
       | WirePending =>
           (∀ n, cap = Some n → n < capacity + 20) ∨
           (pending_wire u' = None ∧ queue (state (up_body u)) = [])
       end)
    (λ _ u', upload_inv u' live busy acc out taken) u.
Proof.
  intros Hinv. unfold next_wire. wp_go.
  assert (Hready : wp (if bool_decide (pending_wire u = None) && negb (producer_finished u)
      then prepare_wire else mret tt)
    (λ _ u', ∃ taken', upload_inv u' live busy acc out taken' ∧
       (pending_wire u' = None → producer_finished u' = false → pending_wire u = None ∧ queue (state (up_body u)) = []))
    (λ _ u', upload_inv u' live busy acc out taken) u).
  { case_bool_decide as Hn; cbn [andb]; [|by wp_go; exists taken].
    destruct (producer_finished u) eqn:Hnf; cbn [negb]; [wp_go; exists taken; split; [done|congruence]|].
    eapply wp_mono; [by apply prepare_wire_inv| |done]. intros _ u' (tk & H1 & H2). exists tk. split; [done|auto]. }
  eapply wp_mono; [exact Hready| |done]. clear Hready. intros _ u' (tk & Hinv' & Hq). wp_go.
  pose proof Hinv' as (_ & _ & _ & Hw & _ & Hlen).
  destruct (pending_wire u') as [w|] eqn:Hp.
  - specialize (Hlen w eq_refl). destruct (match cap with Some n => _ | None => _ end) eqn:Hbig; wp_go.
    + exists tk. rewrite app_nil_r. split; [done|]. left. intros n ->. apply Z.ltb_lt in Hbig. lia.
    + exists tk. split; [|done]. destruct Hinv' as (H1 & H2 & H3 & H4 & H5 & H6).
      unfold upload_inv. cbn. rewrite app_nil_r. cbn in Hw. by split_and!; try apply H2.
  - wp_go. exists tk. destruct (producer_finished u') eqn:Hf; rewrite app_nil_r; (split; [done|]).
    + unfold NativeUpload.is_complete. by rewrite Hf, Hp.
    + right. split; [done|]. by apply Hq.
Qed.

(** A complete upload stays so, and nothing more is sent. *)
Lemma complete_stable cap u r u' :
  NativeUpload.is_complete u = true → next_wire cap u = (r, u') → NativeUpload.is_complete u' = true.
Proof.
  unfold NativeUpload.is_complete, next_wire, mbind, M_bind, get, mret, M_ret, modify.
  intros [Hf Hp%bool_decide_eq_true]%andb_true_iff. rewrite Hf, Hp. cbn. rewrite Hp.
  intros [= _ <-]. by rewrite Hf, Hp.
Qed.

(** What the sender does leaves the wire alone. *)
Lemma sender_inv o u live busy acc out taken t :
  o ≠ TryPop → upload_inv u live busy acc out taken →
  transfer_step o (mkTransfer (up_body u) live busy acc []) = Some t →
  upload_inv (with_body (channel t) u) (sender_live t) (pushing t) (accepted_log t) out taken.
Proof.
  intros Ho (Ht & (Hf1 & Hf2 & Hcap) & Htk & Hw & Hfin & Hlen) Hstep.
  destruct (UploadProofs.transfer_step_inv o _ Ht) as (t1 & Hstep1 & Ht1).
  destruct (sender_step o _ _ _ _ _ _ Ho Hstep1) as [Hstep' Hpop]. rewrite Hstep in Hstep'. injection Hstep' as ->.
  pose proof (UploadProofs.transfer_step_config _ _ _ Hstep1) as [Hc1 Hc2]. cbn in Hc1, Hc2.
  unfold upload_inv, with_body. cbn. split_and!; try done; try congruence.
  - by destruct t1; cbn in *; subst.
  - intros Hpf. destruct (Hfin Hpf) as [Hp Hacc].
    destruct (finished_stable o _ _ Ht Hp Ho Hstep1) as [? ->]. done.
Qed.

Lemma sender_total o u live busy acc out taken :
  upload_inv u live busy acc out taken → o ≠ TryPop →
  ∃ t, transfer_step o (mkTransfer (up_body u) live busy acc []) = Some t.
Proof.
  intros (Ht & _) Ho. destruct (UploadProofs.transfer_step_inv o _ Ht) as (t1 & Hstep1 & _).
  destruct (sender_step o _ _ _ _ _ _ Ho Hstep1) as [Hstep' _]. eauto.
Qed.

Lemma send_step_inv o s : sending_inv s → ∃ s', send_step o s = Some s' ∧ sending_inv s'.
Proof.
  intros (taken & Hinv & Hcomp). destruct o as [o|cap|].
  - assert (Hgo : o ≠ TryPop → ∃ s', send_step (SenderDoes o) s = Some s' ∧ sending_inv s').
    { intros Ho. destruct (sender_total o _ _ _ _ _ _ Hinv Ho) as [t Hstep].
      exists (mkSending (with_body (channel t) (sd_upload s)) (sender_live t) (pushing t) (accepted_log t)
        (sent s) (sd_complete s) (sd_failed s)).
      split; [destruct o; try done; cbn [send_step]; by rewrite Hstep|].
      exists taken. split; [by eapply sender_inv|done]. }
    destruct o; try (by apply Hgo). exists s. split; [done|by exists taken].
  - cbn [send_step]. case_bool_decide; [exists s; split; [done|by exists taken]|].
    destruct (wp_inv _ _ _ _ (next_wire_inv cap _ _ _ _ _ _ Hinv)) as [(r & u' & Hr & tk & Hinv' & Hpost)|(e & u' & Hr & Hinv')];
      rewrite Hr; eexists; (split; [done|]).
    + exists tk. split; [done|]. destruct r as [|w|]; cbn [sd_complete sd_upload]; auto.
      * intros Hc. eapply complete_stable; eauto.
      * intros Hc. eapply complete_stable; eauto.
    + exists taken. split; [done|]. intros Hc. eapply complete_stable; eauto.
  - eexists. split; [done|]. exists taken. cbn. split; [|done]. 
    change (upload_close (sd_upload s)) with (with_body (channel (mkTransfer (close (up_body (sd_upload s)))
      (sd_live s) (sd_busy s) (sd_accepted s) [])) (sd_upload s)).
    by apply (sender_inv Close (sd_upload s) (sd_live s) (sd_busy s) (sd_accepted s) (sent s) taken).
Qed.

Lemma send_run_inv ops s : sending_inv s → ∃ s', send_run ops s = Some s' ∧ sending_inv s'.
Proof.
  revert s. induction ops as [|o ops IH]; intros s Hs; cbn [send_run]; [by exists s|].
  destruct (send_step_inv o s Hs) as (s' & -> & Hs'). by apply IH.
Qed.

Lemma len_chunks cs : len (concat (map chunk_wire cs)) = chunk_framing cs + len (concat cs).
Proof.
  induction cs as [|c cs IH]; [done|]. cbn [map concat]. rewrite !len_app, IH.
  change (chunk_framing (c :: cs)) with (len (to_hex (len c)) + 4 + chunk_framing cs).
  unfold chunk_wire. rewrite !len_app. change (len CRLF) with 2. lia.
Qed.

(** ** Claims *)

Context (u : UploadShared).
Hypothesis Hpair : pair f capacity = Ok u.
Hypothesis Hdeclared : ∀ n, f = Fixed n → 0 ≤ n.

Lemma start_sending_inv : sending_inv (start_sending u).
Proof.
  exists []. split; [|done]. assert (Hs : UploadProofs.transfer_inv (start u)).
  { eapply UploadProofs.start_inv; [|exact Hdeclared|exact Hpair]. pose proof isize_bounds. lia. }
  unfold pair in Hpair. destruct (capacity =? 0); [done|]. injection Hpair as <-.
  unfold upload_inv. cbn. split_and!; try done. by destruct f.
Qed.

(** The wire once the transport has seen the end. *)
Lemma complete_wire s taken :
  upload_inv (sd_upload s) (sd_live s) (sd_busy s) (sd_accepted s) (sent s) taken →
  NativeUpload.is_complete (sd_upload s) = true →
  sd_accepted s = concat taken ∧ sent s = wire_of f taken true ∧ ∀ n, f = Fixed n → len (sd_accepted s) = n.
Proof.
  intros (((_ & _ & _ & _ & _ & _ & _ & Hlen & _) & _) & (Hf1 & _) & _ & Hw & Hfin & _).
  unfold NativeUpload.is_complete. intros [Hpf Hp%bool_decide_eq_true]%andb_true_iff.
  rewrite Hpf, Hp in Hw. cbn in Hw, Hlen. rewrite app_nil_r in Hw. destruct (Hfin Hpf) as [Hprod Hacc].
  split_and!; try done. intros n Hn. apply Hlen; [done|]. congruence.
Qed.

(** C38: whatever sender, transport and Engine do, in any interleaving, nothing
    panics; what is on the wire is a prefix of a framing of bytes the sender had
    accepted; and once the transport has seen the end the wire holds all of
    them and nothing else: as they are and as many as declared for a
    fixed-length upload, in non-empty chunks and a last chunk otherwise. *)
Theorem upload_wire_exact ops :
  ∃ s taken, send_run ops (start_sending u) = Some s ∧
    Forall (λ c, c ≠ [] ∧ len c ≤ capacity) taken ∧
    concat taken `prefix_of` sd_accepted s ∧ sent s `prefix_of` wire_of f taken true ∧
    (sd_complete s = true →
       concat taken = sd_accepted s ∧ sent s = wire_of f taken true ∧
       ∀ n, f = Fixed n → sent s = sd_accepted s ∧ len (sent s) = n).
Proof.
  destruct (send_run_inv ops _ start_sending_inv) as (s & Hs & taken & Hinv0 & Hcomp). exists s, taken.
  pose proof Hinv0 as Hinv. destruct Hinv as (((_ & _ & _ & _ & _ & _ & _ & Hlen & Hx) & _) & (Hf1 & Hf2 & Hcap) & Htk & Hw & Hfin & _).
  cbn in Hlen, Hx. split_and!; try done.
  - destruct (receiver_alive _); [rewrite Hx; by apply prefix_app_r|apply Hx].
  - exists (default [] (pending_wire (sd_upload s)) ++
      (if producer_finished (sd_upload s) then [] else match f with Fixed _ => [] | Chunked => last_chunk end)).
    rewrite app_assoc, Hw. destruct (producer_finished _); cbn; [by rewrite app_nil_r|].
    destruct f; cbn; by rewrite ?app_nil_r.
  - intros Hc. destruct (complete_wire s taken Hinv0 (Hcomp Hc)) as (-> & -> & Hn). split_and!; try done.
    intros n Hfx. rewrite Hfx. cbn. split; [done|]. by apply Hn.
Qed.

(** A completed chunked upload decodes: any decoder of the framing machine,
    at the start of a chunk and with room for it, reads the wire to the end of
    the message and gets exactly the accepted bytes. *)
Theorem chunked_upload_decodes {hp : HttpParse} l th ops s r :
  chunk_lines_law → send_run ops (start_sending u) = Some s → f = Chunked → sd_complete s = true →
  at_chunk r → 0 ≤ f_framing (r_frame r) →
  f_body (r_frame r) + len (sd_accepted s) ≤ Http1.body_bytes l →
  f_framing (r_frame r) + len (sent s) ≤ Http1.header_bytes l →
  ∃ r', frun l th (sent s) r = Ok r' ∧ r_done r' = true ∧ r_body r' = r_body r ++ sd_accepted s.
Proof.
  intros Hlaw Hs Hf Hc Hat Hf0 Hb Hh.
  destruct (send_run_inv ops _ start_sending_inv) as (s' & Hs' & taken & Hinv & Hcomp).
  rewrite Hs in Hs'. injection Hs' as <-. destruct (complete_wire s taken Hinv (Hcomp Hc)) as (Hacc & Hsent & _).
  destruct Hinv as (_ & _ & Htk & _). rewrite Hf in Hsent. cbn [wire_of] in Hsent. rewrite Hacc in Hb |- *. rewrite Hsent in Hh |- *.
  rewrite len_app, len_chunks in Hh. change (len last_chunk) with 5 in Hh.
  pose proof (chunk_framing_nonneg taken). pose proof (len_nonneg (concat taken)). pose proof isize_bounds.
  destruct Hat as (Hst & Hsc & Hd & Hbody).
  rewrite frun_app, chunks_run; [|done|done| |lia|done|lia]; cycle 1.
  { eapply Forall_impl; [exact Htk|]. intros c [? ?]. split; [done|lia]. }
  cbn [mbind outcome_bind]. rewrite last_chunk_run; [|done| |cbn; lia|cbn; lia|cbn; lia].
  - eexists. split; [reflexivity|]. split; [done|]. cbn. by rewrite app_nil_r.
  - split_and!; try done. cbn. lia.
Qed.

(** An outbound window that is empty takes whatever comes next: with the
    room of [cleartext_outbound_limit], the next wire is never too long, and
    nothing is held back unless there is nothing to send. *)
Theorem upload_wire_fits ops s window r u' :
  send_run ops (start_sending u) = Some s →
  cleartext_outbound_limit 0 0 (Some capacity) ≤ window →
  next_wire (Some window) (sd_upload s) = (Ok r, u') →
  match r with
  | WireBytes w => len w ≤ window
  | WirePending => pending_wire u' = None ∧ queue (state (up_body (sd_upload s))) = []
  | WireComplete => NativeUpload.is_complete u' = true
  end.
Proof.
  intros Hs Hwin Hnext. destruct (send_run_inv ops _ start_sending_inv) as (s' & Hs' & taken & Hinv & _).
  rewrite Hs in Hs'. injection Hs' as <-.
  pose proof (wp_ok _ _ _ _ _ _ (next_wire_inv (Some window) _ _ _ _ _ _ Hinv) Hnext) as (tk & _ & Hpost).
  assert (Hroom : capacity + 20 ≤ window).
  { unfold cleartext_outbound_limit, saturating_add in Hwin. pose proof isize_bounds. lia. }
  destruct r as [|w|]; [|lia|done]. destruct Hpost as [Hn|?]; [|done]. specialize (Hn window eq_refl). lia.
Qed.
End config.
End with_target.

(** ** Witnesses *)

(** Five bytes in two pushes through a four-byte queue, sent in chunks. *)
Definition demo_channel : UploadShared :=
  mkShared (mkState [] 0 0 Open true None None) Chunked 4 false 0 0.
Definition demo_send : list send_op :=
  [SenderDoes (TryPush (bs "hel")); SenderDoes (Bind 64 100 Manual); NextWire (Some 100);
   SenderDoes (TryPush (bs "lo")); NextWire (Some 3); NextWire (Some 100); SenderDoes Finish;
   NextWire None; NextWire None].
Definition demo_sent : sending :=
  default (start_sending demo_channel) (@send_run target64 demo_send (start_sending demo_channel)).

Lemma upload_wire_exact_witness :
  ∃ taken, concat taken = bs "hello" ∧ sent demo_sent = wire_of Chunked taken true.
Proof.
  destruct (@upload_wire_exact target64 Chunked 4 ltac:(by vm_compute) demo_channel eq_refl
    ltac:(by intros n [=]) demo_send) as (s & taken & Hs & _ & _ & _ & Hc).
  assert (s = demo_sent) as -> by (unfold demo_sent; by rewrite Hs).
  destruct (Hc ltac:(by vm_compute)) as (H1 & H2 & _). exists taken. split; [|exact H2].
  rewrite H1. by vm_compute.
Defined.

Lemma chunked_upload_decodes_witness :
  ∃ r', @frun target64 small_parser (Http1.mkLimits 1000 200 16) false (sent demo_sent)
          (mkRun (mkFrame StChunkSize [] 0 0 0) [] None false 0) = Ok r' ∧ r_body r' = bs "hello".
Proof.
  destruct (@chunked_upload_decodes target64 Chunked 4 ltac:(by vm_compute) demo_channel eq_refl
    ltac:(by intros n [=]) small_parser (Http1.mkLimits 1000 200 16) false demo_send demo_sent
    (mkRun (mkFrame StChunkSize [] 0 0 0) [] None false 0)) as (r' & H1 & _ & H2).
  - apply small_parser_law.
  - by vm_compute.
  - done.
  - by vm_compute.
  - done.
  - done.
  - by vm_compute.
  - by vm_compute.
  - exists r'. split; [exact H1|]. rewrite H2. by vm_compute.
Defined.

Lemma upload_wire_fits_witness :
  NativeUpload.is_complete (snd (@next_wire target64 (Some 36) (sd_upload demo_sent))) = true.
Proof.
  refine (@upload_wire_fits target64 Chunked 4 _ demo_channel eq_refl _ demo_send demo_sent 36
    WireComplete _ _ _ _).
  - by vm_compute.
  - by intros n [=].
  - by vm_compute.
  - by vm_compute.
  - by vm_compute.
Defined.
