(* ===== verification/BufferedProofs.v ===== *)
(** * The buffered decoder refines the framing machine

    [ResponseDecoder::ingest] takes payload in spans; the machine takes one
    byte at a time. They agree on every input and every way to cut it, except
    that a budget the body is charged to can refuse it, which it does only
    without room for twice the body limit. *)

From stdpp Require Import base list strings.
From Stdlib Require Import ZArith Lia.
From S2P Require Import Prelude Errors BodyBudget BodyBudgetProofs Request Stream Http1.
From S2P Require Import Http1Proofs Http1Decoder Framing HttpParseInstance.
Import Budget Request Http1 Buffered.

#[local] Arguments len : simpl never.

(** ** Errors of the body buffer *)

Definition budget_error (e : Error) : Prop :=
  ∃ message, e = error_limit LimitKind.BufferedBodyBytes message.

(** Every error of [m] satisfies [P]. *)
Definition errs {S E A} (P : E → Prop) (m : M S E A) : Prop := ∀ s e s', m s = (Err e, s') → P e.

Section errs.
Context {S E : Type} (P : E → Prop).

Lemma errs_bind {A B} (m : M S E A) (f : A → M S E B) :
  errs P m → (∀ a, errs P (f a)) → errs P (m ≫= f).
Proof.
  intros Hm Hf s e s'. unfold mbind, M_bind. destruct (m s) as [[a|e1| |] s1] eqn:H; try done.
  - apply Hf.
  - intros [= <- <-]. by apply (Hm s e1 s1).
Qed.

Lemma errs_ret {A} (a : A) : errs P (@mret (M S E) _ _ a).
Proof. by intros s e s'. Qed.
Lemma errs_get : errs P (@get S E).
Proof. by intros s e s'. Qed.
Lemma errs_put s0 : errs P (@put S E s0).
Proof. by intros s e s'. Qed.
Lemma errs_modify f : errs P (@modify S E f).
Proof. by intros s e s'. Qed.
Lemma errs_panic {A} : errs P (@panic S E A).
Proof. by intros s e s'. Qed.
Lemma errs_lift {A} (o : outcome E A) : (∀ e, o = Err e → P e) → errs P (@lift S E A o).
Proof. intros Ho s e s' [= -> <-]. auto. Qed.

Lemma errs_ok_or {A} (o : option A) e : P e → errs P (@lift S E A (ok_or o e)).
Proof. intros He. apply errs_lift. destruct o; [done|]. by intros ? [= <-]. Qed.

Lemma wp_errs {A} (m : M S E A) Q R s :
  wp m Q R s → errs P m → wp m Q (λ e s', R e s' ∧ P e) s.
Proof.
  unfold wpx. intros Hm He. destruct (m s) as [[a|e| |] s'] eqn:H; try done. split; [done|].
  by apply (He s e s').
Qed.
End errs.

Create HintDb errs.
#[export] Hint Resolve errs_ret errs_get errs_put errs_modify errs_panic errs_ok_or : errs.
Ltac errs_go := repeat first [apply errs_bind; [|intros ?] | solve [auto with errs]
  | match goal with |- errs _ (match ?x with _ => _ end) => destruct x end ].

Section with_alloc.
Context {tgt : Target} {alloc : VecAlloc}.

Lemma exhausted_refused : budget_error exhausted.
Proof. by eexists. Qed.
Lemma staging_refused : budget_error staging_exceeded.
Proof. by eexists. Qed.
#[local] Hint Resolve exhausted_refused staging_refused : errs.

Lemma check_capacity_errs {S} n : errs budget_error (@lift S _ _ (check_capacity n)).
Proof. apply errs_lift. unfold check_capacity. case_match; [|done]. intros e [= <-]. by eexists. Qed.

Lemma acquire_errs n : errs budget_error (acquire n).
Proof.
  unfold acquire. errs_go.
Qed.

Lemma on_budget_errs {A} (m : M BodyBudget Error A) : errs budget_error m → errs budget_error (on_budget m).
Proof.
  intros Hm [buf bud] e s'. unfold on_budget. destruct (m bud) as [r bud'] eqn:H.
  intros [= -> _]. by apply (Hm bud e bud').
Qed.

#[local] Hint Resolve check_capacity_errs acquire_errs on_budget_errs : errs.

Lemma plan_capacity_errs n : errs budget_error (plan_capacity n).
Proof. unfold plan_capacity. errs_go. Qed.

Lemma extend_errs more ceiling : errs budget_error (extend more ceiling).
Proof.
  unfold extend, vec_extend, reserve_capacity, take_permit. errs_go.
Qed.

(** The buffer operations as the decoder uses them: within the ceiling [C], only
    the budget of a charged buffer can refuse, and only if it is short. *)
Definition kept (C others : Z) (lim : option Z) (s : BodyBuffer * BodyBudget) : Prop := inv others s ∧ small C lim s.
Definition body_post (C others : Z) (lim : option Z) (more : list Z) (s : BodyBuffer * BodyBudget) (_ : unit)
  (s' : BodyBuffer * BodyBudget) : Prop :=
  kept C others lim s' ∧ bytes (fst s') = bytes (fst s) ++ more ∧ budgeted (fst s') = budgeted (fst s).
Definition refused (C others : Z) (lim : option Z) (s : BodyBuffer * BodyBudget) (e : Error) (_ : BodyBuffer * BodyBudget) : Prop :=
  budgeted (fst s) = true ∧ budget_error e ∧ ¬ roomy C others lim.

Lemma body_wp C others lim more (m : MB unit) s :
  wp m (λ _ s', inv others s' ∧ bytes (fst s') = bytes (fst s) ++ more ∧ budgeted (fst s') = budgeted (fst s))
    (λ e _, budgeted (fst s) = true ∧ budget_error e) s →
  wp m (λ _, small C lim) (λ _ _, ¬ roomy C others lim) s →
  wp m (body_post C others lim more s) (refused C others lim s) s.
Proof.
  intros H1 H2. eapply wp_mono; [exact (wp_and _ _ _ _ _ _ H1 H2)| |].
  - intros [] s' [(? & ? & ?) ?]. by split_and!.
  - intros e s' [[? ?] ?]. by split_and!.
Qed.

Lemma extend_within C others lim more s :
  kept C others lim s → C ≤ isize_max → len (bytes (fst s)) + len more ≤ C →
  wp (extend more C) (body_post C others lim more s) (refused C others lim s) s.
Proof.
  intros [Hinv Hsm] Hc Hfit. apply body_wp; [|by apply extend_small]. destruct (budgeted (fst s)) eqn:Hbg.
  - eapply wp_mono; [apply wp_errs; [apply (extend_spec others)|apply extend_errs]| |]; try done.
    + intros [] s' (H1 & H2 & H3 & _). rewrite Hbg in H3. by split_and!.
    + by intros e s' [_ He].
  - destruct s as [buf bud]. unfold extend. wp_go. cbn [fst] in *. pose proof isize_bounds.
    pose proof (len_nonneg (bytes buf)). unfold checked_add. cbn beta iota.
    rewrite (proj2 (Z.leb_le (len (bytes buf) + len more) usize_max)) by lia.
    rewrite (proj2 (Z.leb_le (len (bytes buf) + len more) C)) by lia. cbn [ok_or]. wp_go.
    rewrite Hbg. cbn [negb]. eapply wp_mono; [apply (vec_extend_spec others)| |done]; [done| |].
    + cbn. rewrite Hbg. lia.
    + intros [] s' (H1 & H2 & H3). cbn in H3. rewrite Hbg in H3. by split_and!.
Qed.

Lemma push_within C others lim byte s :
  kept C others lim s → C ≤ isize_max → len (bytes (fst s)) < C →
  wp (push byte C) (body_post C others lim [byte] s) (refused C others lim s) s.
Proof.
  intros [Hinv Hsm] Hc Hfit. pose proof (@len_nil Z). apply body_wp; [|by apply push_small]. unfold push. destruct s as [buf bud]. wp_go.
  destruct (_ || _) eqn:Hb.
  - eapply wp_mono; [apply (vec_extend_spec others)| |done]; [done| |by intros [] s' (? & ? & ?)].
    cbn [fst] in *. rewrite len_cons. apply orb_true_iff in Hb as [Hb%Z.ltb_lt|Hb%negb_true_iff].
    + destruct (budgeted buf); lia.
    + rewrite Hb. lia.
  - eapply wp_mono; [apply (extend_within C others lim); [done|done|]|by intros [] s' ([? _] & ? & ?)|by intros e s' (? & ? & _)].
    cbn [fst] in *. rewrite len_cons. lia.
Qed.

Lemma plan_within C others lim n s :
  kept C others lim s → charge (fst s) = 0 → 0 ≤ n ≤ C → C ≤ isize_max →
  wp (plan_capacity n) (body_post C others lim [] s) (refused C others lim s) s.
Proof.
  intros [Hinv Hsm] Hz Hn HC. apply body_wp; [|by apply plan_capacity_small]. destruct (budgeted (fst s)) eqn:Hbg.
  - eapply wp_mono; [apply wp_errs; [apply (plan_capacity_spec others)|apply plan_capacity_errs]| |].
    + done.
    + lia.
    + intros [] s' (H1 & H2 & H3 & _). rewrite Hbg in H3. by rewrite app_nil_r.
    + by intros e s' [_ He].
  - destruct s as [buf bud]. unfold plan_capacity, check_capacity.
    rewrite (proj2 (Z.ltb_ge isize_max n)) by lia. wp_go. cbn in Hbg. rewrite Hbg. wp_go.
    cbn. by rewrite app_nil_r.
Qed.
End with_alloc.

(** ** One byte *)

(** What the machine sees of a decoder. *)
Definition frame_of (d : ResponseDecoder) : frame :=
  mkFrame (state d) (scratch d) (informational_responses d) (framing_bytes d) (len (bytes (dec_body d))).

Definition head_of (d : ResponseDecoder) : option final_head :=
  match dec_status d with Some st => Some (st, dec_headers d, dec_reuse d) | None => None end.

Section refinement.
Context {tgt : Target} {alloc : VecAlloc} {hp : HttpParse}.
Context (l : HttpLimits) (th : bool) (others : Z) (lim : option Z) (charged : bool).
Hypothesis Hl : wf_limits l.
Abbreviation paid := (kept (body_bytes l) others lim).
(** The budget is too short for twice the body limit, and refuses. *)
Definition refusal (e : Error) : Prop := charged = true ∧ budget_error e ∧ ¬ roomy (body_bytes l) others lim.

(** A decoder in the middle of a message. *)
Definition dec_inv (s : ResponseDecoder * BodyBudget) : Prop :=
  let d := fst s in
  limits d = l ∧ to_head d = th ∧ budgeted (dec_body d) = charged ∧
  wf_frame l (frame_of d) ∧ paid (dec_body d, snd s) ∧
  (state d ≠ StHead → head_of d ≠ None) ∧ (state d = StHead → dec_body d = buffer_new charged).

(** The decoder agrees with run [r]. *)
Definition agrees (s : ResponseDecoder * BodyBudget) (r : run) : Prop :=
  dec_inv s ∧ frame_of (fst s) = r_frame r ∧ bytes (dec_body (fst s)) = r_body r ∧
  head_of (fst s) = r_head r ∧ r_done r = false ∧ state (fst s) ≠ StComplete.

(** The decoder delivered the message of run [r]. *)
Definition delivers (resp : Response) (s : ResponseDecoder * BodyBudget) (r : run) : Prop :=
  r_done r = true ∧ state (fst s) = StComplete ∧
  r_head r = Some (resp_status resp, resp_headers resp, dec_reuse (fst s)) ∧
  bytes (resp_body resp) = r_body r ∧ paid (resp_body resp, snd s) ∧
  budgeted (resp_body resp) = charged.

(** A result against the outcome of the machine. *)
Definition result (o : outcome Error run) (resp : option Response)
  (s : ResponseDecoder * BodyBudget) : Prop :=
  ∃ r, o = Ok r ∧ match resp with Some resp => delivers resp s r | None => agrees s r end.
Definition failure (o : outcome Error run) (e : Error) (_ : ResponseDecoder * BodyBudget) : Prop :=
  o = Err e ∨ refusal e.

Lemma on_body_wp {A} (m : MB A) Q R d bud :
  wp m (λ a p, Q a (set_body (fst p) d, snd p)) (λ e p, R e (set_body (fst p) d, snd p)) (dec_body d, bud) →
  wp (on_body m) Q R (d, bud).
Proof. unfold wpx, on_body. by destruct (m (dec_body d, bud)) as [[] [buf bud']]. Qed.

Lemma this_wp Q (R : Error → _ → Prop) s : Q (fst s) s → wp this Q R s.
Proof. done. Qed.
Lemma update_wp f Q (R : Error → _ → Prop) s : Q tt (f (fst s), snd s) → wp (update f) Q R s.
Proof. by destruct s. Qed.

Ltac dec_step :=
  lazymatch goal with
  | |- wpx _ this _ _ _ => apply this_wp
  | |- wpx _ (update _) _ _ _ => apply update_wp
  end; cbn beta iota.
Ltac dec_go := cbn beta iota; repeat first [wp_step | dec_step]; cbn [fst snd].

Lemma complete_wp d bud Q R :
  head_of d ≠ None →
  (∀ st, dec_status d = Some st →
     Q (Some (mkResponse st (dec_headers d) (dec_body d)))
       (mkDecoder (limits d) (to_head d) StComplete (scratch d) None [] default_buffer
          (informational_responses d) (framing_bytes d) (dec_reuse d), bud)) →
  wp complete_some Q R (d, bud).
Proof.
  intros Hh HQ. unfold complete_some, complete. dec_go. unfold head_of in Hh.
  destruct (dec_status d) as [st|]; [|done]. dec_go. by apply HQ.
Qed.

Lemma push_scratch_wp byte context framing d bud Q (R : Error → _ → Prop) :
  dec_inv (d, bud) →
  owp (add_scratch l byte context framing (frame_of d))
    (λ f, ∀ d', limits d' = l → to_head d' = th → dec_body d' = dec_body d → head_of d' = head_of d →
          dec_status d' = dec_status d → dec_headers d' = dec_headers d → dec_reuse d' = dec_reuse d →
          frame_of d' = f → Q tt (d', bud)) (λ e, ∀ s, R e s) →
  wp (push_scratch byte context framing) Q R (d, bud).
Proof.
  intros (Hlim & Hth & _ & (_ & Hfr & _) & _ & _) Howp. cbn [fst snd] in *. unfold push_scratch, count_framing_byte. dec_go.
  unfold add_scratch, count_framing in Howp. cbn [f_scratch frame_of f_framing] in *. rewrite Hlim.
  destruct (header_bytes l <=? len (scratch d)) eqn:H1; [dec_go; apply Howp|].
  destruct framing; cbn beta iota in *; dec_go.
  - rewrite Hlim. destruct (Z.leb_spec (header_bytes l) (framing_bytes d)); [dec_go; apply Howp|].
    dec_go. apply owp_uadd; [destruct Hl as (_ & ? & _); lia|]. dec_go. cbn in Howp. by apply Howp.
  - cbn in Howp. by apply Howp.
Qed.

Lemma count_framing_wp context d bud Q (R : Error → _ → Prop) :
  dec_inv (d, bud) →
  owp (count_framing l context (frame_of d))
    (λ f, ∀ d', limits d' = l → to_head d' = th → dec_body d' = dec_body d → head_of d' = head_of d →
          frame_of d' = f → Q tt (d', bud)) (λ e, ∀ s, R e s) →
  wp (count_framing_byte context) Q R (d, bud).
Proof.
  intros (Hlim & Hth & _ & (_ & Hfr & _) & _ & _) Howp. cbn [fst snd] in *. unfold count_framing_byte. dec_go.
  unfold count_framing in Howp. cbn [frame_of f_framing] in *. rewrite Hlim.
  destruct (Z.leb_spec (header_bytes l) (framing_bytes d)); [dec_go; apply Howp|].
  dec_go. apply owp_uadd; [destruct Hl as (_ & ? & _); lia|]. dec_go. by apply Howp.
Qed.

Lemma push_body_wp byte d bud Q (R : Error → _ → Prop) :
  dec_inv (d, bud) →
  owp (add_body l (frame_of d))
    (λ f, ∀ buf bud', paid (buf, bud') → bytes buf = bytes (dec_body d) ++ [byte] →
          budgeted buf = charged → frame_of (set_body buf d) = f → Q tt (set_body buf d, bud'))
    (λ e, ∀ s, R e s) →
  (∀ e s, refusal e → R e s) →
  wp (push_body byte) Q R (d, bud).
Proof.
  intros (Hlim & Hth & Hch & Hwf & Hinv & _) Howp Href. cbn [fst snd] in *. unfold push_body. dec_go.
  unfold add_body in Howp. cbn [frame_of f_body] in Howp. rewrite Hlim.
  destruct (Z.leb_spec (body_bytes l) (len (bytes (dec_body d)))); [dec_go; apply Howp|].
  apply on_body_wp. eapply wp_mono; [apply (push_within (body_bytes l) others lim)| |].
  - done.
  - destruct Hl as (? & _). lia.
  - cbn. lia.
  - intros [] [buf bud'] (H1 & H2 & H3). cbn [fst snd] in *. cbn in Howp. apply Howp; [done..|congruence|].
    unfold frame_of. cbn. by rewrite H2, len_app, len_cons.
  - intros e [buf bud'] (Hbg & He & Hr). apply Href. cbn in Hbg. split_and!; [congruence|done|done].
Qed.

Lemma agrees_next d' bud' byte ev r f' :
  limits d' = l → to_head d' = th → budgeted (dec_body d') = charged → paid (dec_body d', bud') →
  wf_frame l f' → frame_of d' = f' →
  bytes (dec_body d') = r_body (after byte ev f' r) → head_of d' = r_head (after byte ev f' r) →
  ev_done ev = false → state d' ≠ StComplete → (state d' ≠ StHead → head_of d' ≠ None) →
  (state d' = StHead → dec_body d' = buffer_new charged) →
  agrees (d', bud') (after byte ev f' r).
Proof. intros. unfold agrees, dec_inv. cbn [fst snd]. subst f'. by split_and!. Qed.

Lemma one_owp byte r : wf_frame l (r_frame r) →
  owp (fstep l th byte (r_frame r)) (λ p, wf_frame l (fst p)) (λ _, True).
Proof. by apply fstep_owp. Qed.

(** The states that read a line into [scratch]. *)
Lemma scratch_state byte context framing d bud r (m : MD (option Response)) (k : frame → outcome Error (frame * event)) :
  agrees (d, bud) r →
  fstep l th byte (frame_of d) = (add_scratch l byte context framing (frame_of d) ≫= k) →
  (∀ d' f, add_scratch l byte context framing (frame_of d) = Ok f → frame_of d' = f →
     limits d' = l → to_head d' = th → dec_body d' = dec_body d → head_of d' = head_of d →
     dec_status d' = dec_status d → dec_headers d' = dec_headers d → dec_reuse d' = dec_reuse d →
     wp m (result (one l th byte r)) (failure (one l th byte r)) (d', bud)) →
  wp (push_scratch byte context framing ≫= λ _, m) (result (one l th byte r)) (failure (one l th byte r)) (d, bud).
Proof.
  intros (Hinv & Hframe & _) Hstep Hm. cbn [fst snd] in *. wp_go. apply push_scratch_wp; [done|].
  pose proof (add_scratch_owp l byte context framing (frame_of d)) as Howp.
  destruct (add_scratch l byte context framing (frame_of d)) as [f|e| |] eqn:Ha.
  - cbn. intros. eapply Hm; done.
  - cbn. intros s. left. unfold one. by rewrite <-Hframe, Hstep.
  - destruct Howp. by destruct Hinv as (_ & _ & _ & ? & _).
  - destruct Howp. by destruct Hinv as (_ & _ & _ & ? & _).
Qed.

(** The states that take a payload byte. *)
Lemma payload_state byte next d bud r (m : MD (option Response)) :
  agrees (d, bud) r → fstep l th byte (frame_of d) = payload_step l next (frame_of d) →
  (∀ buf bud' f, payload_step l next (frame_of d) = Ok (to_state next f, mkEvent true None (is_complete next)) →
     frame_of (set_body buf d) = f → paid (buf, bud') → bytes buf = r_body r ++ [byte] →
     budgeted buf = charged → wp m (result (one l th byte r)) (failure (one l th byte r)) (set_body buf d, bud')) →
  wp (push_body byte ≫= λ _, m) (result (one l th byte r)) (failure (one l th byte r)) (d, bud).
Proof.
  intros (Hinv & Hframe & Hbytes & _) Hstep Hm. cbn [fst snd] in *. wp_go. unfold payload_step in Hm, Hstep.
  apply push_body_wp; [done| |by right]. destruct (add_body l (frame_of d)) as [f|e| |] eqn:Ha.
  - cbn. intros buf bud' H1 H2 H3 H4. apply (Hm buf bud' f); try done. cbn in Hbytes. by rewrite H2, Hbytes.
  - cbn. intros s. left. unfold one. by rewrite <-Hframe, Hstep.
  - unfold add_body in Ha. by destruct (_ <=? _).
  - unfold add_body in Ha. by destruct (_ <=? _).
Qed.

Lemma consume_head_refines byte d bud r :
  agrees (d, bud) r → state d = StHead →
  wp (consume_head byte) (result (one l th byte r)) (failure (one l th byte r)) (d, bud).
Proof.
  intros Hag Est. pose proof Hag as (Hinv & Hframe & Hbytes & Hhead & Hdone & _). cbn [fst snd] in *.
  unfold consume_head. eapply scratch_state; [done| |].
  { unfold fstep. cbn [frame_of f_state]. rewrite Est. reflexivity. }
  intros d1 f Ha Hf Hlim Hth Hbody Hh1 Hst1 Hhd1 Hre1.
  pose proof (one_owp byte r) as Howp. rewrite <-Hframe in Howp.
  destruct Hinv as (_ & _ & Hch & Hwf & Hinv & _ & Hnew). specialize (Howp Hwf). specialize (Hnew Est).
  assert (Hone : one l th byte r = ('(f0, ev) ← fstep l th byte (frame_of d); Ok (after byte ev f0 r)))
    by (unfold one; by rewrite <-Hframe).
  assert (Hstep : fstep l th byte (frame_of d) = head_step l th byte (frame_of d))
    by (unfold fstep; cbn [frame_of f_state fst]; by rewrite Est).
  cbn [fst] in *. rewrite Hstep in Hone, Howp. unfold head_step in Hone, Howp. rewrite Ha in Hone, Howp.
  cbn [mbind outcome_bind] in Hone, Howp. rewrite <-Hf in Hone, Howp. cbn [frame_of f_scratch f_info] in Hone, Howp.
  pose proof (add_scratch_owp l byte "response head" false (frame_of d) Hwf) as Hwf1.
  rewrite Ha in Hwf1. destruct Hwf1 as ((Hi1 & _) & Hs1 & _ & Hb1). rewrite <-Hf in Hi1, Hs1, Hb1.
  cbn [frame_of f_info f_state f_body] in Hi1, Hs1, Hb1.
  assert (Hsame : bytes (dec_body d1) = r_body r) by (by rewrite Hbody).
  assert (Hinv1 : paid (dec_body d1, bud)) by (by rewrite Hbody).
  assert (Hch1 : budgeted (dec_body d1) = charged) by (by rewrite Hbody).
  dec_go. rewrite Hlim, Hth. destruct (ends_with HEAD_END (scratch d1)); cbn [negb] in *; dec_go.
  2: { eexists. split; [exact Hone|]. apply agrees_next; try done; cbn; congruence. }
  destruct (parse_response_head (scratch d1) th l) as [parsed|e| |]; try done; [|dec_go; by left].
  dec_go. cbn [mbind outcome_bind] in Hone, Howp. destruct parsed as [|st hs fr reuse]; dec_go.
  - unfold checked_add. unfold MAX_INFORMATIONAL_RESPONSES, u8_max in *.
    rewrite (proj2 (Z.leb_le (informational_responses d1 + 1) 255)) by lia. cbn [ok_or]. dec_go.
    destruct (8 <? informational_responses d1 + 1); dec_go; [by left|].
    eexists. split; [exact Hone|].
    apply agrees_next; try done; cbn; try congruence.
    + unfold frame_of; cbn; congruence.
    + by rewrite <-Hhead, <-Hh1.
  - assert (Hag1 : ∀ d2, limits d2 = l → to_head d2 = th → budgeted (dec_body d2) = charged →
      bytes (dec_body d2) = bytes (dec_body d1) → head_of d2 = Some (st, hs, reuse) →
      frame_of d2 = to_state (framing_state fr) (clear_scratch (frame_of d1)) →
      is_complete (framing_state fr) = false → ∀ bud2, paid (dec_body d2, bud2) →
      result (one l th byte r) None (d2, bud2)).
    { intros d2 H1 H2 H3 H4 H5 H6 H7 bud2 H8. eexists. split; [exact Hone|].
      apply (f_equal f_state) in H6 as Hst2. cbn in Hst2.
      assert (framing_state fr ≠ StHead) by (destruct fr; cbn; [done|by case_match|done|done]).
      apply agrees_next; try done; cbn [after ev_body ev_head r_body r_head]; rewrite ?Hst2; try congruence.
      intros Hc. by rewrite Hc in H7. }
    assert (Hcomplete : is_complete (framing_state fr) = true →
      wp complete_some (result (one l th byte r)) (failure (one l th byte r))
        (set_final st hs reuse (set_scratch [] d1), bud)).
    { intros Hc. apply complete_wp; [done|]. intros st' [= <-]. eexists. split; [exact Hone|].
      unfold delivers. cbn. split_and!; try done. }
    destruct fr as [|n| |]; cbn [framing_state] in *; dec_go; try (by apply Hag1).
    + by apply Hcomplete.
    + destruct (Z.eqb_spec n 0); [by apply Hcomplete|]. dec_go. apply on_body_wp. cbn in Howp.
      eapply wp_mono; [apply (plan_within (body_bytes l) others lim)| |].
      * done.
      * cbn. by rewrite Hbody, Hnew.
      * destruct Howp as (_ & _ & _ & Hb & Hn). cbn in Hn, Hb.
        pose proof (len_nonneg (bytes (dec_body d1))). lia.
      * destruct Hl as ((_ & ?) & _). done.
      * intros [] [buf bud'] (H1 & H2 & H3). dec_go. rewrite app_nil_r in H2. cbn in H2, H3.
        apply Hag1; try done; cbn; try congruence. unfold frame_of. cbn. by rewrite H2.
      * intros e [buf bud'] (Hbg & He & Hr). right. cbn in Hbg. split_and!; [congruence|done|done].
Qed.

(** A byte of a state that neither starts nor ends anything. *)
Lemma quiet_next d d' bud byte r f :
  agrees (d, bud) r → state d ≠ StHead → one l th byte r = Ok (after byte ev_none f r) →
  limits d' = l → to_head d' = th → dec_body d' = dec_body d → head_of d' = head_of d →
  frame_of d' = f → wf_frame l f → state d' ≠ StComplete → state d' ≠ StHead → result (one l th byte r) None (d', bud).
Proof.
  intros ((_ & _ & Hch & _ & Hinv & Hh & _) & _ & Hbytes & Hhead & _) Hst Hone H1 H2 H3 H4 H5 H6 H7 H8.
  cbn [fst snd] in *. eexists. split; [exact Hone|]. apply agrees_next; try done; cbn; try congruence.
  intros _. rewrite H4. by apply Hh.
Qed.

Lemma payload_next byte st f d buf bud bud' r :
  agrees (d, bud) r → state d ≠ StHead →
  one l th byte r = Ok (after byte (mkEvent true None (is_complete st)) (to_state st f) r) →
  frame_of (set_body buf d) = f → paid (buf, bud') → bytes buf = r_body r ++ [byte] →
  budgeted buf = charged → wf_frame l (to_state st f) → st ≠ StComplete → st ≠ StHead →
  result (one l th byte r) None (set_state st (set_body buf d), bud').
Proof.
  intros ((Hlim & Hth & _ & _ & _ & Hh & _) & _ & _ & Hhead & _) Hst Hone Hf H1 H2 H3 H4 H5 H6.
  cbn [fst snd] in *. assert (is_complete st = false) as Hc by (by apply bool_decide_eq_false).
  eexists. split; [exact Hone|]. rewrite Hc. apply agrees_next; try done.
  - by rewrite <-Hf.
  - intros _. by apply Hh.
Qed.

Lemma payload_done byte f d buf bud bud' r :
  agrees (d, bud) r → state d ≠ StHead →
  one l th byte r = Ok (after byte (mkEvent true None (is_complete StComplete)) (to_state StComplete f) r) →
  paid (buf, bud') → bytes buf = r_body r ++ [byte] → budgeted buf = charged →
  wp complete_some (result (one l th byte r)) (failure (one l th byte r)) (set_body buf d, bud').
Proof.
  intros ((Hlim & Hth & _ & _ & _ & Hh & _) & _ & _ & Hhead & _) Hst Hone H1 H2 H3. cbn [fst snd] in *.
  apply complete_wp; [by apply Hh|]. intros st Hst'. eexists. split; [exact Hone|].
  unfold delivers. cbn in *. split_and!; try done. rewrite <-Hhead. unfold head_of. by rewrite Hst'.
Qed.

Ltac fstep_at Est := unfold fstep; cbn [frame_of f_state]; rewrite Est; reflexivity.

(** One lemma per state. Each starts with the state, what the reference does
    with the byte, and what it keeps. *)
Ltac consume_start :=
  intros Hag Est; pose proof Hag as ((_ & _ & Hch & Hwf & Hinv & Hh & _) & Hframe & Hbytes & Hhead & Hdone & Hnc);
  cbn [fst snd] in *; unfold consume; dec_go;
  match goal with
  | |- wpx _ _ (result (one l th ?byte ?r)) _ (?d, _) =>
      pose proof (fstep_owp l th byte (frame_of d) Hl Hwf) as Howp;
      assert (Hone : one l th byte r = ('(f0, ev) ← fstep l th byte (frame_of d); Ok (after byte ev f0 r)))
        by (unfold one; by rewrite <-Hframe)
  end;
  destruct Hwf as (_ & _ & _ & _ & Hst); cbn in Hst; rewrite Est in Hst |- *.

Lemma consume_fixed byte d bud r n :
  agrees (d, bud) r → state d = StFixed n →
  wp (consume byte) (result (one l th byte r)) (failure (one l th byte r)) (d, bud).
Proof.
  consume_start.
  eapply payload_state; [done|fstep_at Est|]. intros buf bud' f Hp Hf H1 H2 H3.
  assert (Hs : fstep l th byte (frame_of d) = _) by (etrans; [fstep_at Est|exact Hp]).
  rewrite Hs in Hone, Howp. cbn in Hone, Howp. destruct (Z.eqb_spec n 1).
  - eapply payload_done; try done. congruence.
  - dec_go. apply owp_usub; [lia|]. dec_go. eapply payload_next; try done. congruence.
Qed.

Lemma consume_close_delimited byte d bud r :
  agrees (d, bud) r → state d = StCloseDelimited →
  wp (consume byte) (result (one l th byte r)) (failure (one l th byte r)) (d, bud).
Proof.
  consume_start.
  eapply payload_state; [done|fstep_at Est|]. intros buf bud' f Hp Hf H1 H2 H3.
  assert (Hs : fstep l th byte (frame_of d) = _) by (etrans; [fstep_at Est|exact Hp]).
  rewrite Hs in Hone, Howp. cbn in Hone, Howp. dec_go.
  assert (set_body buf d = set_state StCloseDelimited (set_body buf d)) as ->
    by (destruct d; cbn in *; by subst).
  eapply payload_next; try done. congruence.
Qed.

Lemma consume_chunk_size byte d bud r :
  agrees (d, bud) r → state d = StChunkSize →
  wp (consume byte) (result (one l th byte r)) (failure (one l th byte r)) (d, bud).
Proof.
  consume_start.
  eapply scratch_state; [done|fstep_at Est|]. intros d1 f Ha Hf Hlim Hth Hbody Hh1 _ _ _.
  pose proof (add_scratch_owp l byte "chunk-size line" true (frame_of d)) as Hwf1.
  assert (Hs : fstep l th byte (frame_of d) = _) by (fstep_at Est). rewrite Ha in Hs. cbn in Hs.
  rewrite Hs in Hone, Howp. rewrite <-Hf in Hone, Howp. cbn [frame_of f_scratch f_body] in Hone, Howp.
  dec_go. rewrite Hlim. destruct (ends_with CRLF (scratch d1)); cbn [negb] in *; dec_go.
  - destruct (parse_chunk_line _) as [size0|e| |]; cbn in Howp; try done; [|dec_go; by left]. dec_go.
    cbn [mbind outcome_bind] in Hone, Howp. cbn [limits set_scratch]. rewrite ?Hlim.
    destruct (admit_chunk _ _ _) as [size|e| |]; cbn in Howp; try done; [|dec_go; by left]. dec_go.
    eapply (quiet_next d); [done|congruence|exact Hone|try done..]; cbn; by destruct (size =? 0).
  - apply (f_equal f_state) in Hf as Hf1. rewrite Ha in Hwf1.
    destruct Hwf1 as (_ & Hs1 & _); [by destruct Hag as ((_ & _ & _ & ? & _) & _)|].
    cbn in Hf1, Hs1. eapply (quiet_next d); [done|congruence|exact Hone|try done..]; congruence.
Qed.

Lemma consume_chunk_data byte d bud r n :
  agrees (d, bud) r → state d = StChunkData n →
  wp (consume byte) (result (one l th byte r)) (failure (one l th byte r)) (d, bud).
Proof.
  consume_start.
  eapply payload_state; [done|fstep_at Est|]. intros buf bud' f Hp Hf H1 H2 H3.
  assert (Hs : fstep l th byte (frame_of d) = _) by (etrans; [fstep_at Est|exact Hp]).
  rewrite Hs in Hone, Howp. cbn in Hone, Howp. destruct (Z.eqb_spec n 1); dec_go.
  - eapply payload_next; try done. congruence.
  - apply owp_usub; [lia|]. dec_go. eapply payload_next; try done. congruence.
Qed.

Lemma consume_chunk_end byte d bud r m :
  agrees (d, bud) r → state d = StChunkEnd m →
  wp (consume byte) (result (one l th byte r)) (failure (one l th byte r)) (d, bud).
Proof.
  consume_start.
  assert (Hs : fstep l th byte (frame_of d) = _) by (fstep_at Est).
  rewrite Hs in Hone, Howp. clear Hs.
  destruct ((m =? 0) && (byte =? CR)); [|destruct ((m =? 1) && (byte =? LF)); [|dec_go; by left]];
    wp_go; (apply count_framing_wp; [by destruct Hag as (? & _)|]);
    (destruct (count_framing l _ (frame_of d)) as [f|e| |]; cbn in Howp; try done; cbn;
     [|intros ?; by left]);
    intros d' H1 H2 H3 H4 H5; dec_go; (eapply (quiet_next d); [done|congruence|exact Hone|try done..]);
    unfold frame_of in *; cbn; by rewrite <-H5.
Qed.

Lemma consume_trailers byte d bud r :
  agrees (d, bud) r → state d = StTrailers →
  wp (consume byte) (result (one l th byte r)) (failure (one l th byte r)) (d, bud).
Proof.
  consume_start.
  eapply scratch_state; [done|fstep_at Est|]. intros d1 f Ha Hf Hlim Hth Hbody Hh1 Hst1 Hhd1 Hre1.
  pose proof (add_scratch_owp l byte "response trailers" true (frame_of d)) as Hwf1.
  assert (Hs : fstep l th byte (frame_of d) = _) by (fstep_at Est). rewrite Ha in Hs. cbn in Hs.
  rewrite Hs in Hone, Howp. rewrite <-Hf in Hone, Howp. cbn [frame_of f_scratch f_body] in Hone, Howp.
  dec_go. rewrite Hlim. destruct (trailers_end (scratch d1)); cbn [negb] in *; dec_go.
  - destruct (validate_trailers _ _) as [[]|e| |]; cbn in Howp; try done; [|dec_go; by left]. dec_go.
    apply complete_wp; [change (head_of d1 ≠ None); rewrite Hh1; apply Hh; by rewrite Est|]. intros st Hst'.
    eexists. split; [exact Hone|]. unfold delivers. cbn in *. rewrite Hbody. split_and!; try done.
    rewrite <-Hhead. unfold head_of. rewrite <-Hst1, <-Hhd1, <-Hre1. by rewrite Hst'.
  - apply (f_equal f_state) in Hf as Hf1. rewrite Ha in Hwf1.
    destruct Hwf1 as (_ & Hs1 & _); [by destruct Hag as ((_ & _ & _ & ? & _) & _)|].
    cbn in Hf1, Hs1. eapply (quiet_next d); [done|congruence|exact Hone|try done..]; congruence.
Qed.

Lemma consume_refines byte s r :
  agrees s r → wp (consume byte) (result (one l th byte r)) (failure (one l th byte r)) s.
Proof.
  destruct s as [d bud]. intros Hag. pose proof Hag as (_ & _ & _ & _ & _ & Hnc). cbn [fst] in Hnc.
  destruct (state d) as [|n| | |n|m| |] eqn:Est; try done.
  - unfold consume. dec_go. rewrite Est. by apply consume_head_refines.
  - by eapply consume_fixed.
  - by apply consume_close_delimited.
  - by apply consume_chunk_size.
  - by eapply consume_chunk_data.
  - by eapply consume_chunk_end.
  - by apply consume_trailers.
Qed.

(** ** Payload spans *)

Lemma payload_span_spec st k :
  0 ≤ k → (match st with StFixed n | StChunkData n => 1 ≤ n | _ => True end) →
  let '(count, remaining, fixed) := payload_span st k in
  0 ≤ count ≤ k ∧ (1 ≤ count → span_ok st count) ∧ (count = 0 → k = 0 ∨ ¬ span_ok st 0).
Proof. intros Hk Hst. destruct st; cbn; split_and!; try lia; auto. Qed.

Lemma take_span_refines b at_ d bud r count remaining fixed :
  agrees (d, bud) r → payload_span (state d) (len b - at_) = (count, remaining, fixed) → 1 ≤ count →
  0 ≤ at_ → at_ + count ≤ len b → span_ok (state d) count →
  let p := subrange b at_ (at_ + count) in
  wp (take_span b at_ count remaining fixed) (result (frun l th p r)) (failure (frun l th p r)) (d, bud).
Proof.
  intros Hag Hspan Hcount Hat Hfit Hok p.
  pose proof Hag as ((Hlim & Hth & Hch & Hwf & Hinv & Hh & _) & Hframe & Hbytes & Hhead & Hdone & Hnc).
  cbn [fst snd] in *. assert (Hlen : len p = count) by (unfold p; rewrite len_subrange; lia).
  assert (Hp : p ≠ []) by (intros Hp; rewrite Hp in Hlen; change (0 = count) in Hlen; lia).
  assert (Hst : f_state (r_frame r) = state d) by (by rewrite <-Hframe).
  assert (Hbody : f_body (r_frame r) = len (bytes (dec_body d))) by (by rewrite <-Hframe).
  rewrite frun_span by (try done; by rewrite Hst, Hlen). rewrite Hbody, Hlen.
  destruct Hwf as (_ & _ & _ & Hbb & Hst'). cbn in Hbb, Hst'.
  unfold take_span. dec_go. rewrite Hlim. unfold saturating_sub.
  destruct (Z.leb_spec (len (bytes (dec_body d)) + count) (body_bytes l));
    [rewrite (proj2 (Z.ltb_ge _ _)) by lia|rewrite (proj2 (Z.ltb_lt _ _)) by lia; dec_go; by left].
  dec_go. apply owp_slice; [lia..|]. dec_go. fold p. apply on_body_wp.
  eapply wp_mono; [apply (extend_within (body_bytes l) others lim); [done|by destruct Hl as ((_ & ?) & _)|cbn; lia]| |].
  2: { intros e [buf bud'] (Hbg & He & Hr). right. cbn in Hbg. split_and!; [congruence|done|done]. }
  intros [] [buf bud'] (H1 & H2 & H3). cbn [fst snd] in *.
  assert (Hr : bytes buf = r_body (after_span p r)) by (cbn; by rewrite H2, Hbytes).
  assert (Hag' : ∀ st, advance (state d) count = st → st ≠ StComplete → st ≠ StHead →
    wf_frame l (r_frame (after_span p r)) →
    result (Ok (after_span p r)) None (set_state st (set_body buf d), bud')).
  { intros st Hadv Hst1 Hst2 Hwf2. eexists. split; [done|]. unfold agrees, dec_inv. cbn [fst snd].
    assert (Hfr : frame_of (set_state st (set_body buf d)) = r_frame (after_span p r)).
    { unfold frame_of, after_span. cbn. rewrite Hlen, Hst, Hadv, H2, len_app, Hlen, <-Hframe. done. }
    split_and!; try done; [cbn; congruence|by rewrite Hfr| |].
    - intros _. apply Hh. intros Hs. rewrite Hs in Hok. done.
    - cbn. rewrite Hlen, Hst, Hadv. by apply bool_decide_eq_false. }
  assert (Hwf2 : wf_frame l (r_frame (after_span p r))).
  { destruct Hag as ((_ & _ & _ & (Hw1 & Hw2 & Hw3 & Hw4 & Hw5) & _) & _). cbn in Hw1, Hw2, Hw3, Hw4, Hw5.
    unfold wf_frame, after_span. cbn. rewrite <-Hframe, Hlen. cbn. split_and!; try lia.
    destruct (state d) as [|n| | |n|m| |]; cbn in *; try done; destruct (Z.eqb_spec count n); try done; try lia.
  }
  destruct (state d) as [|n| | |n|m| |] eqn:Est; try done; cbn [payload_span] in Hspan;
    injection Hspan as Hc <- <-; rewrite ?Hc; dec_go; cbn [andb advance] in *.
  - destruct (Z.eqb_spec count n).
    + apply complete_wp; [by apply Hh|]. intros st Hst1. eexists. split; [done|].
      unfold delivers. cbn in *. rewrite Hst, Hlen. cbn. rewrite (proj2 (Z.eqb_eq _ _)) by done.
      split_and!; try done; [|congruence]. rewrite <-Hhead. unfold head_of. by rewrite Hst1.
    + dec_go. apply owp_usub; [lia|]. dec_go. by apply Hag'.
  - assert (set_body buf d = set_state StCloseDelimited (set_body buf d)) as ->
      by (destruct d; cbn in *; by subst). by apply Hag'.
  - dec_go. apply owp_usub; [lia|]. dec_go. apply Hag'; try done; by destruct (count =? n).
Qed.

Definition ingest_post (b : list Z) (at_ : Z) (r : run) (p : DecodeProgress)
  (s : ResponseDecoder * BodyBudget) : Prop :=
  ∃ r', frun l th (drop (Z.to_nat at_) b) r = Ok r' ∧ consumed p = at_ + (r_used r' - r_used r) ∧
    match response p with
    | Some resp => delivers resp s r' ∧ progress_reuse p = dec_reuse (fst s)
    | None => agrees s r' ∧ consumed p = len b
    end.

Lemma frun_used b r r' : frun l th b r = Ok r' → r_used r ≤ r_used r' ≤ r_used r + len b ∧
  (r_done r' = false → r_used r' = r_used r + len b).
Proof.
  revert r. induction b as [|x b IH]; intros r; cbn [frun].
  - intros [= <-]. change (len []) with 0. lia.
  - rewrite len_cons. pose proof (len_nonneg b). destruct (r_done r) eqn:Hd.
    + intros [= <-]. rewrite Hd. split; [lia|done].
    + destruct (fstep _ _ _ _) as [[f ev]| | |]; try done. cbn. intros H1%IH. cbn in H1. split; [lia|].
      intros Hd'. destruct H1 as [_ H1]. specialize (H1 Hd'). lia.
Qed.

(** One pass of the loop: the bytes it takes, and that it takes all of them. *)
Definition pass_width (count : Z) : Z := if negb (count =? 0) then count else 1.

Lemma pass_refines b at_ d bud r count remaining fixed :
  agrees (d, bud) r → payload_span (state d) (len b - at_) = (count, remaining, fixed) →
  0 ≤ at_ < len b →
  let p := subrange b at_ (at_ + pass_width count) in
  1 ≤ pass_width count ≤ len b - at_ ∧
  (∀ r', frun l th p r = Ok r' → r_used r' = r_used r + pass_width count) ∧
  wp (if negb (count =? 0) then take_span b at_ count remaining fixed
      else byte ← lift (index b at_); consume byte)
    (result (frun l th p r)) (failure (frun l th p r)) (d, bud).
Proof.
  intros Hag Hspan Hat p. pose proof (payload_span_spec (state d) (len b - at_) ltac:(lia)) as Hps.
  rewrite Hspan in Hps. destruct Hps as (Hc & Hok & Hc0).
  { destruct Hag as ((_ & _ & _ & (_ & _ & _ & _ & Hst) & _) & _). cbn in Hst. destruct (state d); tauto. }
  assert (Hdone : r_done r = false) by (by destruct Hag as (_ & _ & _ & _ & ? & _)).
  subst p. unfold pass_width. destruct (Z.eqb_spec count 0) as [Hz|Hz]; cbn [negb].
  - destruct (byte_get b at_) as [x|] eqn:Hx; [|apply byte_get_none in Hx; lia].
    assert (subrange b at_ (at_ + 1) = [x]) as ->.
    { unfold subrange. unfold byte_get in Hx. rewrite (proj2 (Z.ltb_ge at_ 0)) in Hx by lia.
      replace (Z.to_nat (at_ + 1 - at_)) with 1%nat by lia. by rewrite (drop_S b x). }
    split; [lia|]. split.
    + intros r'. cbn [frun]. rewrite Hdone. destruct (fstep _ _ _ _) as [[f ev]| | |]; try done.
      by intros [= <-].
    + rewrite frun_one by done.
      assert (Hret : ∀ o : outcome Error run, (o ≫= frun l th []) = o) by (by intros []).
      rewrite Hret. unfold index. rewrite Hx. dec_go. by apply consume_refines.
  - split; [lia|]. specialize (Hok ltac:(lia)). split; [|apply take_span_refines; try done; lia].
    intros r'. set (p := subrange _ _ _). assert (Hlen : len p = count) by (unfold p; rewrite len_subrange; lia).
    assert (Hst : f_state (r_frame r) = state d) by (destruct Hag as (_ & Hf & _); by rewrite <-Hf).
    rewrite frun_span; [|intros Hp; rewrite Hp in Hlen; change (0 = count) in Hlen; lia|done|by rewrite Hst, Hlen].
    destruct (_ <=? _); [|done]. intros [= <-]. cbn. lia.
Qed.

Lemma drop_width b at_ w : 0 ≤ at_ → 0 ≤ w →
  drop (Z.to_nat at_) b = subrange b at_ (at_ + w) ++ drop (Z.to_nat (at_ + w)) b.
Proof.
  intros. unfold subrange. replace (Z.to_nat (at_ + w)) with (Z.to_nat at_ + Z.to_nat w)%nat by lia.
  rewrite <-drop_drop. replace (at_ + w - at_) with w by lia. by rewrite take_drop.
Qed.

Lemma ingest_loop_refines fuel b at_ s r :
  agrees s r → 0 ≤ at_ ≤ len b → len b - at_ ≤ Z.of_nat fuel →
  wp (ingest_loop fuel b at_) (ingest_post b at_ r) (failure (frun l th (drop (Z.to_nat at_) b) r)) s.
Proof.
  revert at_ s r. induction fuel as [|fuel IH]; intros at_ s r Hag Hat Hfuel;
    unfold ingest_loop; fold ingest_loop; destruct (Z.leb_spec (len b) at_); try lia.
  1,2: dec_go; exists r; rewrite drop_ge by (unfold len in *; lia); cbn; split_and!; [done|lia|done|lia].
  destruct s as [d bud]. dec_go.
  destruct (payload_span (state d) (len b - at_)) as [[count remaining] fixed] eqn:Hspan.
  destruct (pass_refines b at_ d bud r count remaining fixed Hag Hspan) as (Hw & Hused & Hpass); [lia|].
  pose proof (drop_width b at_ (pass_width count) ltac:(lia) ltac:(lia)) as Hsplit.
  dec_go. eapply wp_mono; [exact Hpass| |]; cbn beta; fold (pass_width count).
  - intros resp s' (r1 & Hr1 & Hres). specialize (Hused _ Hr1).
    assert (Happ : frun l th (drop (Z.to_nat at_) b) r = frun l th (drop (Z.to_nat (at_ + pass_width count)) b) r1)
      by (by rewrite Hsplit, frun_app, Hr1).
    destruct resp as [resp|]; dec_go.
    + exists r1. rewrite Happ. destruct Hres as (Hd & Hdel). rewrite frun_done by done.
      cbn. split_and!; try done. lia.
    + rewrite Happ. eapply wp_mono; [apply (IH _ s' r1); [done|lia|lia]| |done].
      intros pr s'' (r' & Hr' & Hcons & Hrest). exists r'. rewrite Happ. split_and!; try done. lia.
  - intros e s' [He|He]; [left|by right]. by rewrite Hsplit, frun_app, He.
Qed.

Lemma ingest_refines b s r :
  agrees s r → wp (ingest b) (ingest_post b 0 r) (failure (frun l th b r)) s.
Proof.
  intros Hag. unfold ingest. dec_go. rewrite bool_decide_eq_false_2 by (by destruct Hag as (_ & _ & _ & _ & _ & ?)).
  apply (ingest_loop_refines (length b) b 0 s r Hag); [pose proof (len_nonneg b)|]; unfold len in *; lia.
Qed.
End refinement.

(** ** Whole messages *)

Section messages.
Context {tgt : Target} {alloc : VecAlloc} {hp : HttpParse}.
Context (l : HttpLimits) (th : bool).

(** The segments of a connection in the order they arrive, until the response
    is there. *)
Fixpoint feed (segments : list (list Z)) : MD (option Response) :=
  match segments with
  | [] => mret None
  | segment :: rest =>
      p ← ingest segment;
      match response p with Some r => mret (Some r) | None => feed rest end
  end.

(** A new decoder with a body of the Engine's budget, or an uncharged one. *)
Definition fresh (charged : bool) : ResponseDecoder := set_body (buffer_new charged) (decoder_new th l).

Lemma feed_refines others lim charged segments s r :
  wf_limits l → agrees l th others lim charged s r →
  wp (feed segments) (result l th others lim charged (frun l th (concat segments) r))
    (failure l others lim charged (frun l th (concat segments) r)) s.
Proof.
  intros Hl. revert s r. induction segments as [|seg rest IH]; intros s r Hag.
  - apply wp_ret. by exists r.
  - cbn [feed concat]. apply wp_bind. rewrite frun_app.
    eapply wp_mono; [apply ingest_refines; done| |].
    + intros p s' (r' & Hr' & _ & Hres). change (drop (Z.to_nat 0) seg) with seg in Hr'. rewrite Hr'. cbn [mbind outcome_bind].
      destruct (response p) as [resp|].
      * apply wp_ret. exists r'. destruct Hres as ((Hd & Hdel) & _). by rewrite frun_done.
      * apply IH. by destruct Hres.
    + intros e s' [He|He]; [left|by right]. by rewrite He.
Qed.

Lemma fresh_agrees charged bud :
  wf_limits l → wf_budget bud → agrees l th (used bud) (limit bud) charged (fresh charged, bud) start_run.
Proof.
  intros Hl Hbud. unfold agrees, dec_inv, kept, small, inv, wf_buffer, charge. cbn. change (len []) with 0.
  split_and!; try done; try (by destruct Hbud as ((? & ?) & _)); try lia.
  - by apply start_frame_wf.
  - by destruct charged.
  - intros _. destruct Hl as ((? & _) & _). done.
Qed.

(** Room for the allocations of one body: twice its limit, because a buffer
    that grows has its old and its new allocation for a moment. *)
Definition ample (bud : BodyBudget) : Prop := roomy (body_bytes l) (used bud) (limit bud).
(** The outcome is the budget's refusal: the body is charged and the budget
    has no such room. *)
Definition budget_refused {A} (charged : bool) (bud : BodyBudget) (o : outcome Error A) : Prop :=
  charged = true ∧ ¬ ample bud ∧ ∃ message, o = Err (error_limit LimitKind.BufferedBodyBytes message).

(** What the caller sees of a result: status, headers and body bytes. *)
Definition observe (o : outcome Error (option Response)) : outcome Error (option (Z * list Header * list Z)) :=
  match o with
  | Ok (Some r) => Ok (Some (resp_status r, resp_headers r, bytes (resp_body r)))
  | Ok None => Ok None
  | Err e => Err e
  | Panic => Panic
  | Diverge => Diverge
  end.

(** The same of a run of the machine. *)
Definition observe_run (o : outcome Error run) : outcome Error (option (Z * list Header * list Z)) :=
  match o with
  | Ok r => Ok (if r_done r
                then match r_head r with Some (st, hs, _) => Some (st, hs, r_body r) | None => None end
                else None)
  | Err e => Err e
  | Panic => Panic
  | Diverge => Diverge
  end.

Lemma feed_observe charged segments bud :
  wf_limits l → wf_budget bud →
  let o := observe (fst (feed segments (fresh charged, bud))) in
  o = observe_run (frun l th (concat segments) start_run) ∨ budget_refused charged bud o.
Proof.
  intros Hl Hbud. pose proof (feed_refines (used bud) (limit bud) charged segments _ _ Hl (fresh_agrees charged bud Hl Hbud)) as Hwp.
  unfold wpx in Hwp. destruct (feed segments (fresh charged, bud)) as [[[resp|]|e| |] s']; cbn.
  - left. destruct Hwp as (r & -> & Hd & _ & Hhead & Hbody & _). cbn. by rewrite Hd, Hhead, Hbody.
  - left. destruct Hwp as (r & -> & _ & _ & _ & _ & Hd & _). cbn. by rewrite Hd.
  - destruct Hwp as [->|(Hc & [message ->] & Hr)]; [by left|right]. split_and!; [done|done|by eexists].
  - done.
  - done.
Qed.

(** C1: Cutting the bytes of a response into segments in another way, down to
    single bytes, does not change what the buffered decoder reports: the same
    status, headers and body, or the same error. This holds for a body charged
    to a budget, as the connection owner's is, and for one that is not, except
    that a budget without room for twice the body limit may refuse one of the
    two, whose buffers grow differently. *)
Theorem ingest_segmentation charged1 charged2 segments1 segments2 bud1 bud2 :
  wf_limits l → wf_budget bud1 → wf_budget bud2 → concat segments1 = concat segments2 →
  let o1 := observe (fst (feed segments1 (fresh charged1, bud1))) in
  let o2 := observe (fst (feed segments2 (fresh charged2, bud2))) in
  o1 = o2 ∨ budget_refused charged1 bud1 o1 ∨ budget_refused charged2 bud2 o2.
Proof.
  intros Hl Hbud1 Hbud2 Heq. cbv zeta. destruct (feed_observe charged1 segments1 bud1 Hl Hbud1) as [->|?]; [|by right; left].
  destruct (feed_observe charged2 segments2 bud2 Hl Hbud2) as [->|?]; [|by right; right]. left. by rewrite Heq.
Qed.

(** C2: On any input in any segments, with a body charged to the Engine's
    budget, the decoder neither panics nor loops; while it needs more input
    the body is within the response limit, the head, chunk-size line or
    trailer it collects and all chunk framing together are within the header
    limit, and at most eight informational responses were skipped; the budget
    is charged exactly for the body; and an error is either the framing
    machine's verdict on the input or the refusal of body bytes by a budget
    that has no room for twice the body limit. *)
Theorem decoder_within_limits segments bud :
  wf_limits l → wf_budget bud →
  wp (feed segments)
    (λ resp s', match resp with
       | Some r => len (bytes (resp_body r)) ≤ body_bytes l ∧
                   used (snd s') = used bud + charge (resp_body r)
       | None =>
           let d := fst s' in
           len (bytes (dec_body d)) ≤ body_bytes l ∧ len (scratch d) ≤ header_bytes l ∧
           framing_bytes d ≤ header_bytes l ∧ informational_responses d ≤ MAX_INFORMATIONAL_RESPONSES ∧
           used (snd s') = used bud + charge (dec_body d)
       end)
    (λ e _, frun l th (concat segments) start_run = Err e ∨
            (¬ ample bud ∧ ∃ message, e = error_limit LimitKind.BufferedBodyBytes message))
    (fresh true, bud).
Proof.
  intros Hl Hbud. eapply wp_mono; [apply (feed_refines (used bud) (limit bud) true); [done|by apply fresh_agrees]| |].
  - intros resp s' (r & Hr & Hres). destruct resp as [resp|].
    + destruct Hres as (Hd & _ & _ & Hbody & ((_ & _ & _ & Hused) & _) & _). cbn in Hused. split; [|done].
      destruct (frun_wf l th _ start_run _ Hl (start_frame_wf l Hl) eq_refl Hr) as ((_ & _ & _ & Hb & _) & Hlen).
      rewrite Hbody, Hlen. lia.
    + destruct Hres as ((_ & _ & _ & (Hw1 & Hw2 & Hw3 & Hw4 & _) & ((_ & _ & _ & Hused) & _) & _) & _).
      cbn in *. split_and!; try lia.
  - intros e s' [He|(_ & He & Hr)]; [by left|by right].
Qed.

(** A response with a Content-Length of [n] is decoded to exactly the [n]
    bytes after its head, whatever follows them and however the bytes are
    cut, unless the budget refuses it. *)
Theorem fixed_body_decodes charged segments bud h st hs n reuse body extra :
  wf_limits l → wf_budget bud → one_head l h →
  parse_response_head h th l = Ok (Final st hs (FramingFixed n) reuse) →
  len body = n → concat segments = h ++ body ++ extra →
  let o := observe (fst (feed segments (fresh charged, bud))) in
  o = Ok (Some (st, hs, body)) ∨ budget_refused charged bud o.
Proof.
  intros Hl Hbud Hh Hparse Hn Hsegs. cbv zeta. destruct (feed_observe charged segments bud Hl Hbud) as [->|?]; [left|by right].
  rewrite Hsegs, frun_app.
  rewrite (head_run l th h _ _ _ _ Hh Hparse). cbn [mbind outcome_bind framing_state].
  pose proof (parse_response_head_owp h th l) as Hsound. rewrite Hparse in Hsound.
  pose proof (framing_fixed _ _ _ _ _ _ Hsound) as Hbound.
  destruct (Z.eqb_spec n 0) as [Hz|Hz].
  - rewrite frun_done by done. rewrite Hz in Hn. apply len_zero in Hn. by subst body.
  - rewrite frun_app, frun_span; [|by intros ->; change (0 = n) in Hn; lia|done|cbn; lia].
    cbn [r_frame f_body]. rewrite (proj2 (Z.leb_le _ _)) by lia. cbn [mbind outcome_bind].
    rewrite frun_done; unfold after_span; cbn; by rewrite Hn, Z.eqb_refl.
Qed.

(** C3: A chunked response is decoded to the concatenation of its chunks, for
    every list of non-empty chunks within the limits, whatever follows the
    last chunk and however the bytes are cut; only a budget without room for
    twice the body limit may refuse a body charged to it. *)
Theorem chunked_body_decodes charged segments bud h st hs reuse cs extra :
  wf_limits l → wf_budget bud → chunk_lines_law → one_head l h →
  parse_response_head h th l = Ok (Final st hs FramingChunked reuse) →
  Forall (λ c, c ≠ []) cs → len (concat cs) ≤ body_bytes l → chunk_framing cs + 5 ≤ header_bytes l →
  concat segments = h ++ concat (map chunk_wire cs) ++ last_chunk ++ extra →
  let o := observe (fst (feed segments (fresh charged, bud))) in
  o = Ok (Some (st, hs, concat cs)) ∨ budget_refused charged bud o.
Proof.
  intros Hl Hbud Hhp Hh Hparse Hcs Hbody Hframing Hsegs. cbv zeta.
  destruct (feed_observe charged segments bud Hl Hbud) as [->|?]; [left|by right]. rewrite Hsegs, frun_app.
  rewrite (head_run l th h _ _ _ _ Hh Hparse). cbn [mbind outcome_bind framing_state].
  pose proof (chunk_framing_nonneg cs). pose proof (len_nonneg (concat cs)). pose proof isize_bounds.
  destruct Hl as ((_ & Hb) & _).
  assert (Hmax : Forall (λ c, c ≠ [] ∧ len c ≤ usize_max) cs).
  { apply Forall_forall. intros c Hc. pose proof (len_concat_elem _ _ Hc).
    split; [exact (Forall_elem _ _ _ Hcs Hc)|lia]. }
  rewrite frun_app, chunks_run; try done; [|cbn; lia..]. cbn [mbind outcome_bind].
  rewrite frun_app, last_chunk_run; try done; [|cbn; lia..]. cbn [mbind outcome_bind].
  rewrite frun_done by done. cbn. by rewrite app_nil_r.
Qed.
End messages.

(** ** Concrete responses *)

Definition demo_limits : HttpLimits := mkLimits 1000 200 16.
Definition demo_budget : BodyBudget := budget_new (Some 4096).
Definition demo_feed : list (list Z) → ResponseDecoder * BodyBudget → outcome Error (option Response) * (ResponseDecoder * BodyBudget) :=
  @feed target64 doubling small_parser.

(** Decidable form of [one_head], by trying every proper prefix. *)
Definition one_headb (l : HttpLimits) (h : list Z) : bool :=
  ends_with HEAD_END h && forallb (λ n, negb (ends_with HEAD_END (take n h))) (seq 0 (length h))
  && (len h <=? header_bytes l).

Lemma one_headb_sound l h : one_headb l h = true → one_head l h.
Proof.
  unfold one_headb. intros [[Hend Hpre]%andb_true_iff Hlen%Z.leb_le]%andb_true_iff. split_and!; try done.
  intros u v -> Hv. rewrite forallb_forall in Hpre. specialize (Hpre (length u)).
  rewrite take_app_length in Hpre. apply negb_true_iff, Hpre. apply in_seq. rewrite length_app.
  destruct v; [done|cbn; lia].
Qed.

Lemma demo_limits_wf : @wf_limits target64 demo_limits.
Proof. unfold wf_limits. by vm_compute. Qed.

Lemma demo_budget_wf : @wf_budget target64 demo_budget.
Proof. unfold wf_budget. by vm_compute. Qed.

Lemma demo_ample : @ample target64 demo_limits demo_budget.
Proof. by vm_compute. Qed.

Lemma ingest_segmentation_witness :
  observe (fst (demo_feed [fixed_head; bs "hello"] (fresh demo_limits false true, demo_budget))) =
  observe (fst (demo_feed (map (λ b, [b]) (fixed_head ++ bs "hello"))
                  (fresh demo_limits false true, demo_budget))).
Proof.
  destruct (@ingest_segmentation target64 doubling small_parser demo_limits false true true [fixed_head; bs "hello"]
    (map (λ b, [b]) (fixed_head ++ bs "hello")) demo_budget demo_budget) as [H|[(_ & H & _)|(_ & H & _)]].
  - exact demo_limits_wf.
  - exact demo_budget_wf.
  - exact demo_budget_wf.
  - by vm_compute.
  - exact H.
  - destruct H. exact demo_ample.
  - destruct H. exact demo_ample.
Defined.

Lemma decoder_within_limits_witness :
  wp (@feed target64 doubling small_parser [chunked_head; bs "3"]) (λ resp _, True) (λ _ _, True)
    (fresh demo_limits false true, demo_budget).
Proof.
  eapply wp_mono;
    [apply (@decoder_within_limits target64 doubling small_parser demo_limits false
              [chunked_head; bs "3"] demo_budget)| |].
  - exact demo_limits_wf.
  - exact demo_budget_wf.
  - done.
  - done.
Defined.

Lemma fixed_body_decodes_witness :
  observe (fst (demo_feed [fixed_head; bs "helloHTTP"] (fresh demo_limits false true, demo_budget)))
  = Ok (Some (200, fixed_headers, bs "hello")).
Proof.
  refine (match @fixed_body_decodes target64 doubling small_parser demo_limits false true _ demo_budget fixed_head
    200 fixed_headers 5 true (bs "hello") (bs "HTTP") _ _ _ _ _ _ with or_introl H => H | or_intror H => _ end).
  - exact demo_limits_wf.
  - exact demo_budget_wf.
  - by apply one_headb_sound; vm_compute.
  - by vm_compute.
  - done.
  - by vm_compute.
  - destruct H as (_ & H & _), H. exact demo_ample.
Defined.

Lemma chunked_body_decodes_witness :
  observe (fst (demo_feed [chunked_head ++ concat (map chunk_wire [bs "hel"; bs "lo"]) ++ last_chunk ++ bs "X"]
                  (fresh demo_limits false true, demo_budget)))
  = Ok (Some (200, chunked_headers, bs "hello")).
Proof.
  refine (match @chunked_body_decodes target64 doubling small_parser demo_limits false true _ demo_budget chunked_head
    200 chunked_headers true [bs "hel"; bs "lo"] (bs "X") _ _ _ _ _ _ _ _ _ with or_introl H => H | or_intror H => _ end).
  - exact demo_limits_wf.
  - exact demo_budget_wf.
  - apply small_parser_law.
  - by apply one_headb_sound; vm_compute.
  - by vm_compute.
  - by repeat constructor.
  - by vm_compute.
  - by vm_compute.
  - cbn [concat]. by rewrite app_nil_r.
  - destruct H as (_ & H & _), H. exact demo_ample.
Defined.

(** A short budget tells two cuts apart: a chunk of 5000 bytes that arrives at
    once gets an allocation of its size; one that arrives in two parts gets
    4096 bytes first, and the next allocation of 8192 is refused. *)
Definition long_limits : HttpLimits := mkLimits 10000 200 16.
Definition short_budget : BodyBudget := budget_new (Some 6000).
Definition long_chunk : list Z := chunk_wire (replicate 5000 97).
Definition ending (segments : list (list Z)) : outcome Error bool :=
  match observe (fst (demo_feed segments (fresh long_limits false true, short_budget))) with
  | Ok r => Ok (match r with Some _ => true | None => false end) | Err e => Err e | Panic => Panic | Diverge => Diverge
  end.
Example cuts_differ :
  ending [chunked_head; long_chunk; last_chunk] = Ok true ∧
  ending [chunked_head; take 4102 long_chunk; drop 4102 long_chunk; last_chunk] = Err exhausted.
Proof. vm_compute. by split. Qed.
