(* ===== verification/StreamingProofs.v ===== *)
(** * The streaming decoder delivers exactly the body

    [StreamingResponseDecoder] refines the framing machine byte by byte and
    pushes the payload to its sink; with a reader on the other side, however
    the bytes are cut and whenever the reader reads, the reader gets the body of
    the message and nothing else. *)

From stdpp Require Import base list strings.
From Stdlib Require Import ZArith Lia.
From S2P Require Import Prelude Errors BodyBudget Request Stream StreamProofs Http1 Http1Proofs.
From S2P Require Import Http1Decoder Framing HttpParseInstance.
Import Request Http1 Streaming.

#[local] Arguments len : simpl never.

Section with_params.
Context {tgt : Target} {hp : HttpParse}.
Context (l : HttpLimits) (th : bool).
Hypothesis Hl : wf_limits l.

(** ** One byte *)

Definition frame_of (d : StreamingResponseDecoder) : frame :=
  mkFrame (state d) (scratch d) (informational_responses d) (framing_bytes d) (received d).

(** The decoder after a step of the machine. *)
Definition after_event (f : frame) (ev : event) (d : StreamingResponseDecoder) : StreamingResponseDecoder :=
  mkStreaming (limits d) (to_head d) (f_state f) (f_scratch f)
    (match ev_head ev with Some (st, hs, _) => Some (Download.mkHead st hs) | None => pending_head d end)
    (output d) (sink d) (f_body f) (f_info f) (f_framing f)
    (match ev_head ev with Some (_, _, reuse) => reuse | None => dec_reuse d end).

Definition progress_of (ev : event) : StreamByteProgress :=
  match ev_head ev with
  | Some (st, hs, _) => ByteHead (Download.mkHead st hs)
  | None => if ev_done ev then ByteComplete else Continue
  end.

Definition delivers (d : StreamingResponseDecoder) : bool := bool_decide (output d = Deliver).

Definition byte_ok (byte : Z) (body : list Z) (d : StreamingResponseDecoder)
    (p : StreamByteProgress * list Z) (d' : StreamingResponseDecoder) : Prop :=
  ∃ f ev, fstep l th byte (frame_of d) = Ok (f, ev) ∧ d' = after_event f ev d ∧ fst p = progress_of ev ∧
    snd p = (if ev_body ev && delivers d then body ++ [byte] else body).

Definition byte_err (byte : Z) (d : StreamingResponseDecoder) (e : Error) (d' : StreamingResponseDecoder)
  : Prop := fstep l th byte (frame_of d) = Err e ∧ sink d' = sink d.

Definition with_frame (f : frame) (d : StreamingResponseDecoder) : StreamingResponseDecoder :=
  after_event f ev_none d.

Lemma stream_framing_wp context d Q R :
  limits d = l → wf_frame l (frame_of d) →
  (∀ f, count_framing l context (frame_of d) = Ok f → Q tt (with_frame f d)) →
  (∀ e, count_framing l context (frame_of d) = Err e → R e d) →
  wp (count_stream_framing_byte context) Q R d.
Proof.
  intros Hlim (_ & Hfr & _) HQ HR. unfold count_stream_framing_byte, count_framing in *. wp_go.
  cbn in Hfr, HQ, HR. rewrite Hlim. destruct Hl as (_ & Hlh & _).
  destruct (Z.leb_spec (header_bytes l) (framing_bytes d)); wp_go; [by apply HR|].
  apply owp_uadd; [lia|]. wp_go. by apply (HQ _ eq_refl).
Qed.

Lemma stream_scratch_wp byte context framing d Q R :
  limits d = l → wf_frame l (frame_of d) →
  (∀ f, add_scratch l byte context framing (frame_of d) = Ok f → Q tt (with_frame f d)) →
  (∀ e, add_scratch l byte context framing (frame_of d) = Err e → R e d) →
  wp (push_stream_scratch byte context framing) Q R d.
Proof.
  intros Hlim Hwf HQ HR. unfold push_stream_scratch, add_scratch in *. wp_go.
  cbn [frame_of f_scratch] in HQ, HR. rewrite Hlim.
  destruct (Z.leb_spec (header_bytes l) (len (scratch d))); wp_go; [by apply HR|].
  destruct framing; wp_go; [|by apply (HQ _ eq_refl)].
  apply stream_framing_wp; [done|done| |]; intros x Hx; rewrite Hx in HQ, HR; [|by apply HR].
  wp_go. exact (HQ _ eq_refl).
Qed.

Lemma stream_body_wp byte body d Q R :
  limits d = l → wf_frame l (frame_of d) →
  (∀ f, add_body l (frame_of d) = Ok f →
     Q (if delivers d then body ++ [byte] else body) (with_frame f d)) →
  (∀ e, add_body l (frame_of d) = Err e → R e d) →
  wp (push_stream_body byte body) Q R d.
Proof.
  intros Hlim (_ & _ & _ & Hb & _) HQ HR. unfold push_stream_body, add_body in *. wp_go.
  cbn in Hb, HQ, HR. rewrite Hlim. destruct Hl as (Hlb & _). pose proof isize_bounds.
  destruct (Z.leb_spec (body_bytes l) (received d)); wp_go; [by apply HR|].
  apply owp_uadd; [lia|]. wp_go. exact (HQ _ eq_refl).
Qed.

(** Answer with the machine's step, which is already known. *)
#[local] Ltac answer := eexists _, _; split_and!; [reflexivity|try done..].

Lemma stream_head_refines byte body d :
  limits d = l → to_head d = th → wf_frame l (frame_of d) → state d = StHead →
  wp (consume_stream_head byte) (λ p, byte_ok byte body d (p, body)) (byte_err byte d) d.
Proof.
  intros Hlim Hth Hwf Est. pose proof (fstep_owp l th byte _ Hl Hwf) as Howp.
  unfold consume_stream_head, byte_ok, byte_err. wp_go. unfold fstep in *. cbn [frame_of f_state] in *.
  rewrite Est in *. unfold head_step in *.
  apply stream_scratch_wp; [done|done| |]; intros f Hf; rewrite ?Hf in *; cbn [mbind outcome_bind] in *; [|done].
  pose proof (add_scratch_owp l byte "response head" false (frame_of d) Hwf) as Hwf'.
  rewrite Hf in Hwf'. destruct Hwf' as ((Hi & _) & Hst' & _ & _). cbn in Hst'. rewrite Est in Hst'.
  wp_go. cbn [with_frame after_event scratch to_head limits informational_responses].
  rewrite Hlim, Hth. destruct (ends_with HEAD_END (f_scratch f)); cbn [negb] in *; wp_go; [|by answer].
  destruct (parse_response_head (f_scratch f) th l) as [[|st hs fr reuse]|e| |]; try done; wp_go.
  - cbn [mbind outcome_bind] in *. unfold checked_add. unfold MAX_INFORMATIONAL_RESPONSES, u8_max in *.
    rewrite (proj2 (Z.leb_le (f_info f + 1) 255)) by lia. cbn [ok_or]. wp_go.
    destruct (8 <? f_info f + 1); wp_go; [done|]. answer. unfold set_informational, with_frame, after_event. cbn. by rewrite Hst'.
  - cbn [mbind outcome_bind] in *. by answer.
Qed.

Lemma consume_stream_refines byte body d :
  limits d = l → to_head d = th → wf_frame l (frame_of d) → state d ≠ StComplete →
  wp (consume_stream_byte byte body) (byte_ok byte body d) (byte_err byte d) d.
Proof.
  intros Hlim Hth Hwf Hst. unfold consume_stream_byte. wp_go.
  destruct (state d) as [|n| | |n|m| |] eqn:Est; try done.
  { wp_go. eapply wp_mono; [by apply stream_head_refines| |done]. intros p d' H. wp_go. exact H. }
  all: pose proof (fstep_owp l th byte _ Hl Hwf) as Howp; unfold byte_ok, byte_err;
    unfold fstep, payload_step in *; pose proof Hwf as (_ & _ & _ & _ & Hn);
    cbn [frame_of f_state] in *; rewrite Est in *; wp_go.
  - apply stream_body_wp; [done|done| |]; intros x Hx; rewrite ?Hx in *; cbn [mbind outcome_bind] in *; [|done].
    destruct (Z.eqb_spec n 1); wp_go; [by answer|]. apply owp_usub; [lia|]. wp_go. by answer.
  - apply stream_body_wp; [done|done| |]; intros x Hx; rewrite ?Hx in *; cbn [mbind outcome_bind] in *; [|done].
    wp_go. answer. unfold add_body in Hx. destruct (_ <=? _); [done|]. injection Hx as <-.
    unfold with_frame, after_event. cbn. by rewrite Est.
  - apply stream_scratch_wp; [done|done| |]; intros f Hf; rewrite ?Hf in *; cbn [mbind outcome_bind] in *; [|done].
    wp_go. cbn [with_frame after_event scratch limits received]. rewrite Hlim.
    destruct (ends_with CRLF (f_scratch f)); cbn [negb] in *; wp_go; [|by answer].
    destruct (parse_chunk_line (f_scratch f)) as [size0| | |]; cbn in Howp; try done. wp_go. cbn [mbind outcome_bind].
    destruct (admit_chunk size0 l (f_body f)) as [size| | |]; cbn in Howp; try done. wp_go. by answer.
  - apply stream_body_wp; [done|done| |]; intros x Hx; rewrite ?Hx in *; cbn [mbind outcome_bind] in *; [|done].
    destruct (Z.eqb_spec n 1); wp_go; [by answer|]. apply owp_usub; [lia|]. wp_go. by answer.
  - destruct ((m =? 0) && (byte =? CR)); [|destruct ((m =? 1) && (byte =? LF)); [|by wp_go]]; wp_go;
      (apply stream_framing_wp; [done|done| |]; intros f Hf; rewrite ?Hf in *; cbn [mbind outcome_bind] in *; [|done]);
      wp_go; by answer.
  - apply stream_scratch_wp; [done|done| |]; intros f Hf; rewrite ?Hf in *; cbn [mbind outcome_bind] in *; [|done].
    wp_go. cbn [with_frame after_event scratch limits]. rewrite Hlim.
    destruct (trailers_end (f_scratch f)); cbn [negb] in *; wp_go; [|by answer].
    destruct (validate_trailers (f_scratch f) l) as [[]| | |]; cbn in Howp; try done. wp_go. by answer.
Qed.

(** ** What a step of the machine can do *)

Lemma fstep_done byte f f' ev : fstep l th byte f = Ok (f', ev) → ev_done ev = is_complete (f_state f').
Proof.
  unfold fstep, head_step, payload_step, add_scratch, add_body, count_framing, mbind, outcome_bind.
  intros H. repeat (case_match; simplify_eq; try done).
Qed.

Lemma fstep_in_head byte f f' ev :
  f_state f = StHead → fstep l th byte f = Ok (f', ev) →
  ev_body ev = false ∧ (ev_head ev = None ↔ f_state f' = StHead).
Proof.
  unfold fstep, head_step, payload_step, add_scratch, add_body, count_framing, mbind, outcome_bind.
  intros Hf H. repeat (case_match; simplify_eq; try done); split; try done.
  split; [done|]. cbn. unfold framing_state. by repeat case_match.
Qed.

Lemma fstep_past_head byte f f' ev :
  f_state f ≠ StHead → fstep l th byte f = Ok (f', ev) → f_state f' ≠ StHead ∧ ev_head ev = None.
Proof.
  unfold fstep, head_step, payload_step, add_scratch, add_body, count_framing, mbind, outcome_bind.
  intros Hf H. repeat (case_match; simplify_eq; try done).
Qed.

(** Payload is exactly what arrives in the states [next_byte_is_body] names. *)
Lemma fstep_payload byte d f ev :
  fstep l th byte (frame_of d) = Ok (f, ev) → ev_body ev = next_byte_is_body d.
Proof.
  unfold fstep, head_step, payload_step, add_scratch, add_body, count_framing, mbind, outcome_bind,
    next_byte_is_body, frame_of. cbn [f_state].
  intros H. repeat (case_match; simplify_eq; try done).
Qed.

(** ** Flushing

    The sink is one end of an exchange; [pushed] and [got] are the bytes
    pushed to it and read from it. *)

Section flush.
Context (capacity limit : Z).
Hypothesis Hlimit : body_bytes l ≤ limit.

Definition linked (k : Download.ResponseSink) (r : Download.ResponseReader) (live : bool)
    (pushed got : list Z) : Prop :=
  DownloadProofs.exchange_inv capacity limit (Download.mkExchange r k true live pushed got).

Definition reader_closed : Error :=
  error_transport TransportStage.Receive "the streaming response reader closed during delivery".

Lemma set_sink_same d k : sink d = Some k → set_sink (Some k) d = d.
Proof. destruct d; cbn. by intros ->. Qed.

(** The reader or the transfer is gone. *)
Definition gone (k : Download.ResponseSink) : Prop :=
  Download.reader_alive (Download.state (Download.shared k)) = false ∨
  Download.terminal (Download.state (Download.shared k)) ≠ None.

(** A push that fits fails only when the reader or the transfer is gone. *)
Lemma sink_push_fits chunk k r live pushed got :
  linked k r live pushed got → Download.head (Download.state (Download.shared k)) ≠ None →
  len pushed + len chunk ≤ limit →
  Download.queued_bytes (Download.state (Download.shared k)) + len chunk ≤ capacity →
  (∃ k', Download.sink_push chunk k = (Ok tt, k') ∧ linked k' r live (pushed ++ chunk) got ∧
     Download.head (Download.state (Download.shared k')) = Download.head (Download.state (Download.shared k)) ∧
     Download.terminal (Download.state (Download.shared k')) = None ∧
     Download.queued_bytes (Download.state (Download.shared k'))
       = Download.queued_bytes (Download.state (Download.shared k)) + len chunk) ∨
  (Download.sink_push chunk k = (Err (Download.PushClosed chunk), k) ∧ gone k).
Proof.
  intros Hx Hh Hlim Hcap.
  destruct (DownloadProofs.exchange_step_inv capacity limit (Download.SinkPush chunk)
    (Download.mkExchange r k true live pushed got)) as (x & Hstep & Hx'); [done|done|].
  destruct Hx as (Hs & _). cbn in Hs. destruct Hs as ((Hc & Hcb) & Hqb & Hrecv & Hpl & (Htl & Hlu) & _).
  cbn [Download.exchange_step] in Hstep. revert Hstep.
  unfold Download.sink_push, mbind, M_bind, get, fail, lift, put. cbn beta iota zeta. rewrite Hrecv.
  destruct (negb _ || _) eqn:Hclosed.
  { intros _. right. split; [done|]. apply orb_true_iff in Hclosed as [?%negb_true_iff|Ht]; [by left|right].
    by destruct (Download.terminal _). }
  intros Hstep. left. revert Hstep.
  apply orb_false_iff in Hclosed as [_ Hterm].
  destruct (Download.head _) eqn:Hhd; [|done]. unfold checked_add. pose proof (len_nonneg chunk).
  rewrite (proj2 (Z.leb_le (len pushed + len chunk) usize_max)) by lia.
  rewrite Htl, (proj2 (Z.ltb_ge _ _)) by lia. unfold usub, uadd.
  rewrite Hc, (proj2 (Z.leb_le _ capacity)) by lia. cbn beta iota.
  rewrite (proj2 (Z.ltb_ge _ _)) by lia. rewrite (proj2 (Z.leb_le _ usize_max)) by lia. cbn beta iota.
  intros [= <-]. eexists. split; [reflexivity|]. split; [exact Hx'|]. cbn.
  split_and!; [done| |done]. by destruct (Download.terminal _).
Qed.

Abbreviation queued_in k := (Download.queued_bytes (Download.state (Download.shared k))).
Abbreviation head_of k := (Download.head (Download.state (Download.shared k))).
Abbreviation terminal_of k := (Download.terminal (Download.state (Download.shared k))).

Lemma flush_wp body d k r live pushed got Q R :
  sink d = Some k → linked k r live pushed got → (body ≠ [] → head_of k ≠ None) →
  len pushed + len body ≤ body_bytes l → queued_in k + len body ≤ capacity →
  (∀ k', linked k' r live (pushed ++ body) got → head_of k' = head_of k →
     queued_in k' = queued_in k + len body → terminal_of k' = terminal_of k ∨ terminal_of k' = None →
     Q tt (set_sink (Some k') d)) →
  (gone k → R reader_closed d) → wp (flush_body body) Q R d.
Proof.
  intros Hk Hx Hh Hlen Hq HQ HR. unfold flush_body. case_bool_decide as Hnil; wp_go.
  { subst body. rewrite <-(set_sink_same d k Hk). apply HQ; auto.
    - by rewrite app_nil_r.
    - change (len []) with 0. lia. }
  unfold on_sink. wp_go. rewrite Hk.
  destruct (sink_push_fits body k r live pushed got) as [(k' & -> & H1 & H2 & H3 & H4)|[-> Hgone]]; auto; [lia| |].
  - wp_go. by apply HQ; auto.
  - wp_go. rewrite (set_sink_same d k Hk). by apply HR.
Qed.

(** ** The ingest loop *)

Record agrees (d : StreamingResponseDecoder) (run : run) : Prop := {
  ag_limits : limits d = l;
  ag_head : to_head d = th;
  ag_frame : frame_of d = r_frame run;
  ag_wf : wf_frame l (r_frame run);
  ag_body : len (r_body run) = f_body (r_frame run);
  ag_done : r_done run = is_complete (state d)
}.

(** Where the decoder is relative to its final head. *)
Definition phase (d : StreamingResponseDecoder) (run : run) : Prop :=
  match output d, pending_head d with
  | AwaitHead, None => state d = StHead ∧ r_body run = []
  | AwaitHead, Some _ => state d ≠ StHead ∧ r_body run = []
  | _, None => state d ≠ StHead
  | _, Some _ => False
  end.

(** The bytes of the body that are for the reader. *)
Definition visible (d : StreamingResponseDecoder) (run : run) : list Z :=
  if delivers d then r_body run else [].

Lemma step_agrees byte d run f ev :
  agrees d run → fstep l th byte (frame_of d) = Ok (f, ev) →
  agrees (after_event f ev d) (after byte ev f run).
Proof.
  intros [H1 H2 H3 H4 H5 H6] Hstep. pose proof (fstep_owp l th byte (frame_of d) Hl) as Howp.
  rewrite H3 in Howp. specialize (Howp H4). rewrite H3 in Hstep. rewrite Hstep in Howp. split; try done.
  - by destruct f.
  - apply fstep_body in Hstep. cbn. rewrite Hstep.
    destruct (ev_body ev); [rewrite len_app, len_cons; change (len []) with 0|]; lia.
  - cbn. by eapply fstep_done.
Qed.

Lemma step_phase byte d run f ev :
  agrees d run → phase d run → pending_head d = None → fstep l th byte (frame_of d) = Ok (f, ev) →
  phase (after_event f ev d) (after byte ev f run) ∧ (output d ≠ AwaitHead → ev_head ev = None).
Proof.
  intros Ha Hp Hn Hstep. unfold phase in *. rewrite Hn in Hp. cbn [after_event output pending_head state after r_body].
  destruct (output d).
  - destruct Hp as [Hst Hb]. destruct (fstep_in_head byte (frame_of d) f ev Hst Hstep) as [Hev Hhd]. rewrite Hev, Hn.
    split; [|done]. destruct (ev_head ev) as [[[st hs] re]|]; split; try done; [|by apply Hhd].
    intros Hc. by apply Hhd in Hc.
  - destruct (fstep_past_head byte (frame_of d) f ev Hp Hstep) as [? ->]. by rewrite Hn.
  - destruct (fstep_past_head byte (frame_of d) f ev Hp Hstep) as [? ->]. by rewrite Hn.
Qed.

Lemma step_visible byte d run f ev body :
  fstep l th byte (frame_of d) = Ok (f, ev) → visible d run = body →
  visible (after_event f ev d) (after byte ev f run)
    = body ++ (if ev_body ev && delivers d then [byte] else []).
Proof.
  intros _ <-. unfold visible, delivers. cbn. destruct (bool_decide _), (ev_body ev); by rewrite ?app_nil_r.
Qed.

Section loop.
Context (k : Download.ResponseSink) (r : Download.ResponseReader) (live : bool) (pushed got : list Z).
Hypothesis Hk : linked k r live pushed got.
Hypothesis Hopen : terminal_of k ≠ Some Download.Complete.

(** The sink was brought up to date with the run. *)
Definition caught_up (d d' : StreamingResponseDecoder) (run' : run) : Prop :=
  agrees d' run' ∧ output d' = output d ∧ phase d' run' ∧
  ∃ k', sink d' = Some k' ∧ linked k' r live (visible d run') got ∧ head_of k' = head_of k ∧
    match terminal_of k' with
    | Some Download.Complete => delivers d = true ∧ r_done run' = true
    | _ => True
    end.

Definition ends_as (t : option Download.StreamTerminal) (d' : StreamingResponseDecoder) : Prop :=
  ∃ k', sink d' = Some k' ∧ terminal_of k' = t.

Definition loop_ok (b : list Z) (index : Z) (d : StreamingResponseDecoder) (run : run)
    (p : StreamDecodeProgress) (d' : StreamingResponseDecoder) : Prop :=
  ∃ c run', (c ≤ length b)%nat ∧ frun l th (take c b) run = Ok run' ∧ caught_up d d' run' ∧
    match p with
    | ProgressBody n blocked =>
        n = index + Z.of_nat c ∧ r_done run' = false ∧ pending_head d' = None ∧
        (terminal_of k = None → ends_as None d') ∧
        if blocked then delivers d = true ∧ ∃ k', sink d' = Some k' ∧ queued_in k' = capacity
        else c = length b
    | ProgressHead h n =>
        n = index + Z.of_nat c ∧ pending_head d' = Some h ∧ output d = AwaitHead ∧ (1 ≤ c)%nat ∧
        (terminal_of k = None → ends_as None d')
    | ProgressComplete n _ delivered =>
        n = index + Z.of_nat c ∧ r_done run' = true ∧ pending_head d' = None ∧ delivered = delivers d ∧
        (1 ≤ c)%nat ∧
        (terminal_of k = None → delivers d = true → ends_as (Some Download.Complete) d')
    end.

Definition loop_err (b : list Z) (run : run) (e : Error) (d' : StreamingResponseDecoder) : Prop :=
  sink d' = Some k ∧ ((∃ c, (c ≤ length b)%nat ∧ frun l th (take c b) run = Err e) ∨ (e = reader_closed ∧ gone k)).

(** What holds between two bytes; [body] is what is collected for the flush. *)
Record looping (available : Z) (body : list Z) (d : StreamingResponseDecoder) (run : run) : Prop := {
  lp_agrees : agrees d run;
  lp_phase : phase d run;
  lp_sink : sink d = Some k;
  lp_body : visible d run = pushed ++ body;
  lp_head : delivers d = true → head_of k ≠ None;
  lp_room : delivers d = true → available = capacity - queued_in k ∧ len body ≤ available
}.

(** A flush brings the sink up to date. *)
Lemma flush_loop available body d run Q R :
  looping available body d run →
  (∀ k', caught_up d (set_sink (Some k') d) run →
     (delivers d = true → queued_in k' = queued_in k + len body) →
     (terminal_of k = None → terminal_of k' = None) →
     Q tt (set_sink (Some k') d)) →
  (gone k → R reader_closed d) → wp (flush_body body) Q R d.
Proof.
  intros [Ha Hp Hs Hb Hh Hr] HQ HR.
  assert (Hlen : len pushed + len body ≤ body_bytes l).
  { rewrite <-len_app, <-Hb. unfold visible. destruct Ha as [_ _ _ (_ & _ & _ & ? & _) Hbody _].
    destruct (delivers d); [lia|]. change (len []) with 0. lia. }
  assert (Hroom : queued_in k + len body ≤ capacity).
  { destruct (delivers d) eqn:Hd; [destruct (Hr eq_refl); lia|]. unfold visible in Hb. rewrite Hd in Hb.
    symmetry in Hb. apply app_eq_nil in Hb as [_ ->]. change (len []) with 0.
    destruct Hk as ((_ & Hq & _) & _). cbn in Hq. lia. }
  eapply flush_wp; [done|done| |done|done| |done].
  - intros Hne. apply Hh. destruct (delivers d) eqn:Hd; [done|]. unfold visible in Hb. rewrite Hd in Hb.
    symmetry in Hb. by apply app_eq_nil in Hb as [_ ->].
  - intros k' Hk' Hhd Hq Ht. apply HQ; [|done|by intros Hn; destruct Ht; congruence]. split; [by destruct Ha|].
    split_and!; try done. exists k'. split_and!; try done; [by rewrite Hb|].
    destruct Ht as [->| ->]; [|done]. destruct (terminal_of k) as [[]|]; done.
Qed.

Lemma looping_step available body d run byte f ev :
  looping available body d run → pending_head d = None → fstep l th byte (frame_of d) = Ok (f, ev) →
  delivers d && next_byte_is_body d && (len body =? available) = false →
  looping available (if ev_body ev && delivers d then body ++ [byte] else body)
    (after_event f ev d) (after byte ev f run).
Proof.
  intros [Ha Hp Hs Hb Hh Hr] Hn Hstep Hfull. split; try done.
  - by apply step_agrees.
  - by apply step_phase.
  - rewrite (step_visible byte d run f ev (pushed ++ body)) by done.
    destruct (ev_body ev && delivers d); by rewrite ?app_nil_r, <-?app_assoc.
  - intros Hd. change (delivers d = true) in Hd. destruct (Hr Hd) as [Hav Hle]. split; [done|].
    rewrite (fstep_payload _ _ _ _ Hstep). rewrite Hd in *. destruct (next_byte_is_body d); [|done].
    cbn in Hfull |- *. apply Z.eqb_neq in Hfull. rewrite len_app, len_cons. change (len []) with 0. lia.
Qed.

Lemma take_one byte rest c run f ev :
  r_done run = false → fstep l th byte (r_frame run) = Ok (f, ev) →
  frun l th (take (S c) (byte :: rest)) run = frun l th (take c rest) (after byte ev f run).
Proof.
  intros Hd Hs. cbn [take]. rewrite frun_one by done. unfold one. rewrite Hs. done.
Qed.

(** The end of a delivered message completes the sink. *)
Lemma complete_loop d d' run R :
  caught_up d d' run → r_done run = true → 
  wp (when_delivering d')
    (λ delivered d'', (caught_up d d'' run ∧ pending_head d'' = pending_head d') ∧ delivered = delivers d ∧
       (ends_as None d' → delivers d = true → ends_as (Some Download.Complete) d'')) R d'.
Proof.
  intros (Ha & Hout & Hp & k' & Hs & Hk' & Hhd & Ht) Hdone. unfold when_delivering, delivers. rewrite Hout.
  case_bool_decide as Hd; wp_go.
  2: { split; [|done]. split; [|done]. split_and!; try done. by exists k'. }
  unfold on_sink. wp_go. rewrite Hs. wp_go. split; cycle 1.
  { split; [done|]. intros (k0 & Hk0 & Ht0) _. rewrite Hs in Hk0. injection Hk0 as <-.
    exists (Download.sink_complete k'). split; [done|]. unfold Download.sink_complete, Download.sink_commit.
    by rewrite Ht0. }
  split; [|done].
  split; [by destruct Ha|]. split_and!; try done. exists (Download.sink_complete k').
  split; [done|]. destruct (DownloadProofs.sink_commit_inv capacity limit Download.Complete k'
    (Download.current r) (visible d run) got) as (_ & _ & _ & Hh & _); [apply Hk'|].
  split_and!.
  - destruct (DownloadProofs.exchange_step_inv capacity limit Download.SinkComplete
      (Download.mkExchange r k' true live (visible d run) got)) as (x & [= <-] & Hx); done.
  - by rewrite <-Hhd.
  - unfold delivers. rewrite bool_decide_eq_true_2 by done. by destruct (terminal_of (Download.sink_complete k')) as [[]|].
Qed.

Lemma stream_loop_refines available b index body d run :
  looping available body d run → pending_head d = None → r_done run = false →
  wp (stream_loop available b index body) (loop_ok b index d run) (loop_err b run) d.
Proof.
  revert index body d run. induction b as [|byte rest IH]; intros index body d run Hlp Hpend Hdone;
    cbn [stream_loop]; wp_go.
  { eapply flush_loop; [exact Hlp| |by split; [apply Hlp|right]]. intros k' Hc _ Hn. wp_go.
    exists O, run. split_and!; try done; try lia. intros ?%Hn. by exists k'. }
  destruct (bool_decide (output d = Deliver) && next_byte_is_body d && (len body =? available)) eqn:Hfull; wp_go.
  { eapply flush_loop; [exact Hlp| |by split; [apply Hlp|right]]. intros k' Hc Hq Hn. wp_go.
    apply andb_true_iff in Hfull as [[Hd _]%andb_true_iff He%Z.eqb_eq]. change (delivers d = true) in Hd.
    exists O, run. split_and!; try done; try lia; [intros ?%Hn; by exists k'|]. exists k'. split; [done|]. destruct Hlp as [_ _ _ _ _ Hr]. destruct (Hr Hd). rewrite Hq by done. lia. }
  pose proof (lp_agrees _ _ _ _ Hlp) as Ha.
  assert (Hst : state d ≠ StComplete).
  { intros Hc. pose proof (ag_done _ _ Ha) as Hd. by rewrite Hc, Hdone in Hd. }
  eapply wp_mono; [apply consume_stream_refines; [apply Ha|apply Ha| |done]| |].
  { rewrite (ag_frame _ _ Ha). apply Ha. }
  2: { intros e d' [He Hs]. split; [by rewrite Hs; apply Hlp|]. left. exists 1%nat.
       split; [cbn; lia|]. cbn [take]. rewrite frun_one by done. unfold one. by rewrite <-(ag_frame _ _ Ha), He. }
  intros [p body'] d1 (f & ev & Hstep & -> & Hp & Hbody). cbn [fst snd] in Hp, Hbody. subst p body'. cbn beta iota.
  pose proof (looping_step _ _ _ _ _ _ _ Hlp Hpend Hstep Hfull) as Hlp1.
  rewrite (ag_frame _ _ Ha) in Hstep. set (run1 := after byte ev f run) in *. set (d1 := after_event f ev d) in *.
  pose proof (fun c => take_one byte rest c run f ev Hdone Hstep) as Htake. fold run1 in Htake.
  assert (Herr1 : ∀ e d', loop_err rest run1 e d' → loop_err (byte :: rest) run e d').
  { intros e d' [Hs [(c & Hle & Hc)|He]]; split; auto. left. exists (S c). rewrite Htake. split; [cbn; lia|done]. }
  unfold progress_of. destruct (ev_head ev) as [[[st hs] re]|] eqn:Hev.
  - wp_go. eapply flush_loop; [exact Hlp1| |intros ?; apply Herr1; by split; [apply Hlp1|right]]. intros k' Hc _ Hn. wp_go.
    exists 1%nat, run1. rewrite Htake. split_and!; try done; [cbn; lia| | |by intros ?%Hn; exists k'].
    + cbn. unfold d1, after_event. cbn. by rewrite Hev.
    + rewrite <-(ag_frame _ _ Ha) in Hstep. destruct (step_phase byte d run f ev Ha) as [_ Hh]; [apply Hlp|done|done|].
      destruct (decide (output d = AwaitHead)) as [|Hne]; [done|]. specialize (Hh Hne). congruence.
  - assert (Hd1 : r_done run1 = ev_done ev) by done.
    assert (Hpend1 : pending_head d1 = None) by (unfold d1, after_event; cbn; by rewrite Hev).
    destruct (ev_done ev) eqn:Hend.
    + wp_go. eapply flush_loop; [exact Hlp1| |intros ?; apply Herr1; by split; [apply Hlp1|right]]. intros k' Hc _ Hn. wp_go.
      eapply wp_mono; [apply complete_loop; [exact Hc|done]| |done].
      intros delivered d' (Hc' & -> & Hfin). wp_go. exists 1%nat, run1. rewrite Htake.
      destruct Hc' as [Hc' Hpd]. split; [cbn; lia|]. split; [done|]. split; [exact Hc'|].
      split_and!; try done; [by rewrite Hpd|]. intros ?%Hn. apply Hfin. by exists k'.
    + eapply wp_mono; [by apply IH| |exact Herr1].
      intros p d' (c & run' & Hc & Hrun & Hcu & Hpost). exists (S c), run'. rewrite Htake.
      split; [cbn; lia|]. split; [done|]. split; [exact Hcu|].
      destruct p; cbn in Hpost |- *; destruct Hpost as [-> Hpost]; (split; [lia|]).
      * destruct Hpost as (? & ? & ? & ?). split_and!; done || lia.
      * destruct Hpost as (? & ? & ? & ?). destruct blocked; auto.
      * destruct Hpost as (? & ? & ? & ? & ?). split_and!; done || lia.
Qed.
End loop.

(** ** Sessions

    A response on the wire, the owner that feeds the decoder with what has
    arrived, decides about the final head and reports the end of the
    connection, and the reader, in any order. [None] is a panic. *)

Inductive session_op :=
| Feed (n : nat) | Decide (deliver : bool) | PeerClosed
| ReadUpTo (n : Z) | ReaderDropped | TransferCancelled | TransferFailed (e : Error).

(** [s_pos] bytes of the wire are consumed and [s_got] was read; [s_over] says
    that the message ended, [s_failed] how the transfer failed. *)
Record session := mkSession {
  s_dec : StreamingResponseDecoder;
  s_reader : Download.ResponseReader;
  s_live : bool;
  s_pos : nat;
  s_got : list Z;
  s_over : bool;
  s_failed : option Error
}.

Definition start_session (k : Download.ResponseSink) (r : Download.ResponseReader) : session :=
  mkSession (streaming_new th l k) r true O [] false None.

(** [self.finish(slot, Completion::Failed(error), ..)] *)
Definition failing (e : Error) (d : StreamingResponseDecoder) (s : session) : session :=
  mkSession (stream_fail e d) (s_reader s) (s_live s) (s_pos s) (s_got s) (s_over s) (Some e).
Definition moving (d : StreamingResponseDecoder) (c : Z) (over : bool) (s : session) : session :=
  mkSession d (s_reader s) (s_live s) (s_pos s + Z.to_nat c) (s_got s) over (s_failed s).

(** The owner still works on this response. *)
Definition active (s : session) : bool := negb (s_over s) && bool_decide (s_failed s = None).

Definition on_reader (s : session)
    (f : Download.exchange → option Download.exchange) : option session :=
  match sink (s_dec s) with
  | None => Some s
  | Some k =>
      x ← f (Download.mkExchange (s_reader s) k true (s_live s) [] (s_got s));
      Some (mkSession (set_sink (Some (Download.sink x)) (s_dec s)) (Download.reader x)
              (Download.reader_live x) (s_pos s) (Download.read_log x) (s_over s) (s_failed s))
  end.

Definition session_step (wire : list Z) (o : session_op) (s : session) : option session :=
  match o with
  | Feed n =>
      let b := take n (drop (s_pos s) wire) in
      if active s && bool_decide (pending_head (s_dec s) = None) && negb (bool_decide (b = [])) then
        match stream_ingest b (s_dec s) with
        | (Ok (ProgressHead _ c), d) | (Ok (ProgressBody c _), d) => Some (moving d c false s)
        | (Ok (ProgressComplete c _ _), d) => Some (moving d c true s)
        | (Err e, d) => Some (failing e d s)
        | _ => None
        end
      else Some s
  | Decide deliver =>
      if active s && bool_decide (is_Some (pending_head (s_dec s))) then
        match decide_head deliver (s_dec s) with
        | (Ok decision, d) => Some (moving d 0 (decided_complete decision) s)
        | (Err e, d) => Some (failing e d s)
        | _ => None
        end
      else Some s
  | PeerClosed =>
      if active s && bool_decide (pending_head (s_dec s) = None) && (s_pos s =? length wire)%nat then
        match stream_eof (s_dec s) with
        | (Ok (Some _), d) => Some (moving d 0 true s)
        | (Ok None, d) => Some (failing (error_transport TransportStage.Receive
            "the peer closed without completing a streaming response") d s)
        | (Err e, d) => Some (failing e d s)
        | _ => None
        end
      else Some s
  | ReadUpTo n => on_reader s (Download.exchange_step (Download.TryRead n))
  | ReaderDropped => on_reader s (Download.exchange_step Download.DropReader)
  | TransferCancelled => on_reader s (Download.exchange_step Download.ControlCancel)
  | TransferFailed e => on_reader s (Download.exchange_step (Download.ControlFail e))
  end.

Fixpoint session_run (wire : list Z) (ops : list session_op) (s : session) : option session :=
  match ops with
  | [] => Some s
  | o :: ops' => s' ← session_step wire o s; session_run wire ops' s'
  end.

(** Why a session can fail: the message breaks the framing rules, the reader
    went away, or the peer closed too early. *)
Definition explained (wire : list Z) (e : Error) : Prop :=
  (∃ m, frun l th (take m wire) start_run = Err e) ∨
  e = reader_closed ∨
  e = error_transport TransportStage.Receive "the streaming response reader closed before head publication" ∨
  e = eof_in_head ∨ e = eof_in_fixed ∨ e = eof_in_chunked.

(** The message has ended after [pos] bytes of the wire. *)
Definition ended (wire : list Z) (pos : nat) (run : run) : Prop :=
  r_done run = true ∨ (f_state (r_frame run) = StCloseDelimited ∧ pos = length wire).

(** What holds while the owner still works on the response. *)
Definition working (d : StreamingResponseDecoder) (k : Download.ResponseSink) (run : run) (pushed : list Z)
  : Prop :=
  agrees d run ∧ phase d run ∧ pushed = visible d run ∧ (delivers d = true → head_of k ≠ None) ∧
  (delivers d = false → head_of k = None) ∧
  terminal_of k ≠ Some Download.Complete ∧ (pending_head d = None → r_done run = false).

Definition session_inv (wire : list Z) (s : session) : Prop :=
  ∃ run k pushed,
    (s_pos s ≤ length wire)%nat ∧ frun l th (take (s_pos s) wire) start_run = Ok run ∧
    sink (s_dec s) = Some k ∧ linked k (s_reader s) (s_live s) pushed (s_got s) ∧
    pushed `prefix_of` r_body run ∧
    (terminal_of k = Some Download.Complete → pushed = r_body run ∧ ended wire (s_pos s) run) ∧
    (active s = true → working (s_dec s) k run pushed) ∧
    (∀ e, s_failed s = Some e → explained wire e).

Lemma visible_prefix d run : visible d run `prefix_of` r_body run.
Proof. unfold visible. destruct (delivers d); [done|apply prefix_nil]. Qed.

Lemma start_session_inv wire mode r k :
  1 ≤ capacity ≤ usize_max → 0 ≤ limit ≤ usize_max →
  Download.response_pair mode capacity limit = Ok (r, k) → session_inv wire (start_session k r).
Proof.
  intros Hc Hlm Hpair. pose proof (DownloadProofs.open_inv capacity limit mode r k Hc Hlm Hpair) as Hx.
  unfold Download.response_pair in Hpair. destruct (capacity =? 0); [done|]. injection Hpair as <- <-.
  exists start_run, (Download.mkSink (Download.mkShared
    (Download.mkState None false [] 0 0 None true 0) capacity limit [] 0 0) false), [].
  split_and!; try done; [cbn; lia|]. intros _. split_and!; try done.
  split; try done. apply start_frame_wf. done.
Qed.

(** Reading and the control do not look at the log of the bytes pushed. *)
Lemma reader_step o r k live pushed got x :
  match o with
  | Download.TryRead _ | Download.DropReader | Download.ControlCancel | Download.ControlFail _ => True
  | _ => False
  end →
  Download.exchange_step o (Download.mkExchange r k true live pushed got) = Some x →
  Download.exchange_step o (Download.mkExchange r k true live [] got)
    = Some (Download.mkExchange (Download.reader x) (Download.sink x) true (Download.reader_live x) []
        (Download.read_log x)) ∧
  Download.pushed_log x = pushed ∧ Download.sink_live x = true.
Proof.
  destruct o; try done; intros _; cbn [Download.exchange_step].
  - by intros [= <-].
  - by intros [= <-].
  - destruct live; [|by intros [= <-]].
    destruct (Download.try_read _ _) as [[d|e| |] [r' s']]; try done; by intros [= <-].
  - destruct live; by intros [= <-].
Qed.

Definition reader_op (o : Download.exchange_op) : Prop :=
  match o with
  | Download.TryRead n => 0 ≤ n
  | Download.DropReader | Download.ControlCancel | Download.ControlFail _ => True
  | _ => False
  end.

Lemma reader_step_keeps o r k live pushed got x :
  reader_op o → linked k r live pushed got →
  Download.exchange_step o (Download.mkExchange r k true live pushed got) = Some x →
  head_of (Download.sink x) = head_of k ∧
  (terminal_of (Download.sink x) = Some Download.Complete → terminal_of k = Some Download.Complete).
Proof.
  destruct o; try done; cbn [reader_op Download.exchange_step]; intros Ho Hx.
  - intros [= <-]. cbn. unfold Download.control_fail, Download.control_commit.
    by destruct (terminal_of k) eqn:Ht; cbn [snd]; rewrite ?Ht.
  - intros [= <-]. cbn. unfold Download.control_cancel, Download.control_commit.
    by destruct (terminal_of k) eqn:Ht; cbn [snd]; rewrite ?Ht.
  - destruct live; [|by intros [= <-]]. destruct Hx as (Hs & Hr & Ha & _). cbn in Hs, Hr, Ha.
    pose proof (DownloadProofs.try_read_inv capacity limit destination r (Download.shared k) pushed got Ho Hs Hr Ha) as Hwp.
    unfold wpx in Hwp. destruct (Download.try_read _ _) as [[d|e| |] [r' s']]; try done; intros [= <-]; cbn.
    + destruct Hwp as (_ & _ & _ & Ht & Hh & _). cbn in Ht, Hh. by rewrite Ht, Hh.
    + destruct Hwp as (_ & _ & _ & Ht & Hh & _). cbn in Ht, Hh. by rewrite Ht, Hh.
  - destruct live; by intros [= <-].
Qed.

Lemma on_reader_inv wire o s :
  reader_op o → session_inv wire s →
  ∃ s', on_reader s (Download.exchange_step o) = Some s' ∧ session_inv wire s'.
Proof.
  intros Ho (run & k & pushed & Hpos & Hrun & Hs & Hk & Hpre & Hterm & Hwork & Hexp).
  destruct (DownloadProofs.exchange_step_inv capacity limit o
    (Download.mkExchange (s_reader s) k true (s_live s) pushed (s_got s))) as (x & Hstep & Hx); [done|by intros n ->|].
  destruct (reader_step_keeps _ _ _ _ _ _ _ Ho Hk Hstep) as [Hh Ht].
  destruct (reader_step o _ _ _ _ _ _ ltac:(by destruct o) Hstep) as (Hstep' & Hp & Hl').
  unfold on_reader. rewrite Hs, Hstep'. cbn [mbind option_bind]. eexists. split; [reflexivity|].
  exists run, (Download.sink x), pushed. cbn [s_pos s_dec s_reader s_live s_got s_failed Download.sink Download.reader Download.reader_live Download.read_log].
  split_and!; try done.
  - unfold linked. destruct x as [xr xk xl xrl xp xg]. cbn in *. by subst.
  - auto.
  - intros Hact. destruct (Hwork Hact) as (Ha & Hph & Hv & Hd & Hd' & Hnt & Hdone).
    unfold working. cbn. rewrite Hh. split_and!; try done; [by destruct Ha|auto].
Qed.

(** ** The owner's operations *)

Lemma failing_inv wire e d s :
  session_inv wire s → active s = true → sink d = sink (s_dec s) → explained wire e →
  session_inv wire (failing e d s).
Proof.
  intros (run & k & pushed & Hpos & Hrun & Hs & Hk & Hpre & Hterm & Hwork & _) Hact Hsink He.
  destruct (DownloadProofs.exchange_step_inv capacity limit (Download.SinkFail e)
    (Download.mkExchange (s_reader s) k true (s_live s) pushed (s_got s))) as (x & [= <-] & Hx); [done|done|].
  exists run, (Download.sink_fail e k), pushed. cbn [failing s_pos s_dec s_reader s_live s_got s_failed].
  unfold stream_fail. rewrite Hsink, Hs. split_and!; try done.
  - unfold Download.sink_fail, Download.sink_commit. destruct (terminal_of k) eqn:Ht; [|done]. by rewrite Ht.
  - unfold active. cbn. by rewrite andb_false_r.
  - by intros ? [= <-].
Qed.

Lemma take_split (wire : list Z) pos n c :
  (c ≤ length (take n (drop pos wire)))%nat → (pos ≤ length wire)%nat →
  take (pos + c) wire = take pos wire ++ take c (take n (drop pos wire)) ∧ (pos + c ≤ length wire)%nat.
Proof.
  rewrite length_take, length_drop. intros Hc Hpos. split; [|lia].
  rewrite take_take. replace (c `min` n)%nat with c by lia.
  rewrite <-(take_drop pos wire) at 1. rewrite take_app. rewrite length_take.
  replace (pos `min` length wire)%nat with pos by lia. rewrite (take_ge (take pos wire)) by (rewrite length_take; lia).
  do 2 f_equal. lia.
Qed.

Lemma stream_ingest_refines b d k r live pushed got run :
  sink d = Some k → linked k r live pushed got → working d k run pushed → pending_head d = None →
  wp (stream_ingest b) (loop_ok k r live got b 0 d run) (loop_err k b run) d.
Proof.
  intros Hs Hk (Ha & Hp & Hv & Hd & _ & Ht & Hdone) Hn. specialize (Hdone Hn).
  unfold stream_ingest. wp_go. rewrite bool_decide_eq_false_2; cycle 1.
  { intros Hc. pose proof (ag_done _ _ Ha) as Hdn. by rewrite Hc, Hdone in Hdn. }
  rewrite Hn. rewrite bool_decide_eq_false_2 by (by intros [? ?]). wp_go.
  pose proof Hk as (([Hcap _] & Hq & _) & _). cbn in Hcap, Hq.
  assert (Hlp : ∀ available, (delivers d = true → available = capacity - queued_in k) →
    looping k pushed available [] d run).
  { intros available Hav. split; try done; [by rewrite app_nil_r|]. intros Hd'. rewrite Hav by done.
    change (len []) with 0. lia. }
  unfold delivers in Hlp. destruct (output d) eqn:Hout; wp_go.
  - eapply stream_loop_refines; try done. by apply Hlp.
  - unfold sink_capacity, Download.available_capacity, usub. rewrite Hs, Hcap, (proj2 (Z.leb_le _ _)) by lia.
    wp_go. eapply stream_loop_refines; try done. by apply Hlp.
  - eapply stream_loop_refines; try done. by apply Hlp.
Qed.

Lemma feed_inv wire n s :
  session_inv wire s → ∃ s', session_step wire (Feed n) s = Some s' ∧ session_inv wire s'.
Proof.
  intros Hinv. cbn [session_step]. destruct (active s && _ && _) eqn:Hgo; [|by exists s].
  apply andb_true_iff in Hgo as [[Hact Hn%bool_decide_eq_true]%andb_true_iff _].
  pose proof Hinv as (run & k & pushed & Hpos & Hrun & Hs & Hk & Hpre & Hterm & Hwork & Hexp).
  set (b := take n (drop (s_pos s) wire)).
  assert (Hnf : s_failed s = None).
  { unfold active in Hact. by apply andb_true_iff in Hact as [_ ?%bool_decide_eq_true]. }
  destruct (wp_inv _ _ _ _ (stream_ingest_refines b _ _ _ _ _ _ _ Hs Hk (Hwork Hact) Hn))
    as [(p & d' & -> & c & run' & Hc & Hrun' & Hcu & Hp)|(e & d' & -> & Hs' & He)].
  2: { eexists. split; [done|]. apply failing_inv; try done; [congruence|].
       destruct He as [(c & Hle & Hc)|[He _]]; [left|by right; left]. exists (s_pos s + c)%nat.
       destruct (take_split wire (s_pos s) n c Hle Hpos) as [-> _]. rewrite frun_app, Hrun. exact Hc. }
  destruct (take_split wire (s_pos s) n c Hc Hpos) as [Htake Hpos'].
  destruct Hcu as (Ha' & Hout & Hph & k' & Hs' & Hk' & Hhd & Hterm').
  destruct (Hwork Hact) as (_ & _ & _ & Hd & Hd' & _).
  assert (Hvis : visible (s_dec s) run' = visible d' run') by (unfold visible, delivers; by rewrite Hout).
  assert (Hnext : ∀ over, (over = false → r_done run' = true → pending_head d' ≠ None) →
    (over = false → terminal_of k' ≠ Some Download.Complete) →
    session_inv wire (moving d' (Z.of_nat c) over s)).
  { intros over Hover Hopen'. exists run', k', (visible (s_dec s) run').
    cbn [moving s_pos s_dec s_reader s_live s_got s_failed]. rewrite Nat2Z.id, Htake, frun_app, Hrun.
    split_and!; try done.
    - apply visible_prefix.
    - intros Ht. rewrite Ht in Hterm'. destruct Hterm' as [Hdel Hdn]. unfold visible. rewrite Hdel.
      split; [done|by left].
    - intros Hact'. unfold active in Hact'. cbn in Hact'. apply andb_true_iff in Hact' as [Ho%negb_true_iff _].
      unfold working. rewrite Hhd, <-Hvis. unfold delivers in *. rewrite Hout. split_and!; auto.
      intros Hpd. destruct (r_done run') eqn:Hrd; [|done]. by destruct (Hover Ho eq_refl). }
  destruct p as [h m|m blocked|m re del]; cbn in Hp |- *; destruct Hp as [-> Hp]; rewrite Z.add_0_l.
  - eexists. split; [done|]. apply Hnext.
    + intros _ _. by destruct Hp as [-> _].
    + intros _ Ht. rewrite Ht in Hterm'. destruct Hterm' as [Hdel _], Hp as (_ & Hawait & _).
      unfold delivers in Hdel. by rewrite Hawait in Hdel.
  - eexists. split; [done|]. destruct Hp as (Hnd & _). apply Hnext; [congruence|].
    intros _ Ht. rewrite Ht in Hterm'. destruct Hterm'. congruence.
  - eexists. split; [done|]. by apply Hnext.
Qed.

Lemma publish_cases h nb k :
  (∃ k', Download.publish_head h nb k = (true, k') ∧ head_of k' = Some h ∧
     terminal_of k' = (if nb then Some Download.Complete else None)) ∨
  Download.publish_head h nb k = (false, k).
Proof.
  unfold Download.publish_head. destruct (head_of k); auto. destruct (terminal_of k); auto.
  destruct (Download.reader_alive _); auto. left. eexists. split; [reflexivity|]. by destruct nb.
Qed.

(** What is left of a session whose head was just decided. *)
Lemma decided_inv wire s d' k' run :
  (s_pos s ≤ length wire)%nat → frun l th (take (s_pos s) wire) start_run = Ok run → r_body run = [] →
  agrees d' run → output d' ≠ AwaitHead → pending_head d' = None → state d' ≠ StHead →
  sink d' = Some k' → linked k' (s_reader s) (s_live s) [] (s_got s) → s_failed s = None →
  head_of k' = (if delivers d' then head_of k' else None) → (delivers d' = true → head_of k' ≠ None) →
  (terminal_of k' = Some Download.Complete → state d' = StComplete) →
  session_inv wire (moving d' 0 (bool_decide (state d' = StComplete)) s).
Proof.
  intros Hpos Hrun Hnil Ha Hout Hpend Hst Hs Hk Hnf Hhd Hhd' Ht.
  exists run, k', []. cbn [moving s_pos s_dec s_reader s_live s_got s_failed]. rewrite Nat.add_0_r, Hnil.
  split_and!; try done.
  - intros Hc. split; [done|]. left. rewrite (ag_done _ _ Ha), (Ht Hc). done.
  - intros Hact. unfold active in Hact. cbn in Hact.
    apply andb_true_iff in Hact as [Hno%negb_true_iff%bool_decide_eq_false _].
    unfold working, phase, visible. rewrite Hpend, Hnil.
    split_and!; try done.
    + by destruct (output d').
    + by destruct (delivers d').
    + intros Hdel. by rewrite Hdel in Hhd.
    + intros Hc. by apply Hno, Ht.
    + intros _. rewrite (ag_done _ _ Ha). unfold is_complete. by rewrite bool_decide_eq_false_2.
  - intros e. by rewrite Hnf.
Qed.

Lemma decide_inv wire deliver s :
  session_inv wire s → ∃ s', session_step wire (Decide deliver) s = Some s' ∧ session_inv wire s'.
Proof.
  intros Hinv. cbn [session_step]. destruct (active s && _) eqn:Hgo; [|by exists s].
  apply andb_true_iff in Hgo as [Hact Hn%bool_decide_eq_true].
  pose proof Hinv as (run & k & pushed & Hpos & Hrun & Hs & Hk & Hpre & Hterm & Hwork & Hexp).
  assert (Hnf : s_failed s = None).
  { unfold active in Hact. by apply andb_true_iff in Hact as [_ ?%bool_decide_eq_true]. }
  destruct Hn as [h Hn]. destruct (Hwork Hact) as (Ha & Hp & Hv & _ & Hd & Hnt & _).
  unfold phase in Hp. rewrite Hn in Hp. destruct (output (s_dec s)) eqn:Hout; try done.
  destruct Hp as [Hst Hnil]. assert (pushed = []) as ->.
  { rewrite Hv. unfold visible. by destruct (delivers _). }
  assert (Hhead : head_of k = None) by (apply Hd; unfold delivers; by rewrite Hout).
  unfold decide_head, mbind, M_bind, get, modify. cbn beta iota. rewrite Hn.
  destruct deliver.
  - unfold on_sink, mbind, M_bind, get, put. cbn [set_output set_pending sink]. rewrite Hs.
    destruct (publish_cases h (bool_decide (state (s_dec s) = StComplete)) k) as [(k' & Hpub & Hh & Ht)|Hpub];
      rewrite Hpub; cbn.
    + destruct (DownloadProofs.exchange_step_inv capacity limit
        (Download.PublishHead h (bool_decide (state (s_dec s) = StComplete)))
        (Download.mkExchange (s_reader s) k true (s_live s) [] (s_got s))) as (x & Hstep & Hx); [done|done|].
      cbn [Download.exchange_step] in Hstep. rewrite Hpub in Hstep. injection Hstep as <-.
      eexists. split; [reflexivity|].
      apply (decided_inv wire s (set_sink (Some k') (set_output Deliver (set_pending None (s_dec s)))) k' run);
        try done; [by destruct Ha|by rewrite Hh|].
      rewrite Ht. cbn. by case_bool_decide.
    + eexists. split; [reflexivity|]. apply failing_inv; try done. right. right. by left.
  - cbn. eexists. split; [reflexivity|].
    apply (decided_inv wire s (set_output Discard (set_pending None (s_dec s))) k run); try done. by destruct Ha.
Qed.

Lemma peer_closed_inv wire s :
  session_inv wire s → ∃ s', session_step wire PeerClosed s = Some s' ∧ session_inv wire s'.
Proof.
  intros Hinv. cbn [session_step]. destruct (active s && _ && _) eqn:Hgo; [|by exists s].
  apply andb_true_iff in Hgo as [[Hact Hn%bool_decide_eq_true]%andb_true_iff Hend%Nat.eqb_eq].
  pose proof Hinv as (run & k & pushed & Hpos & Hrun & Hs & Hk & Hpre & Hterm & Hwork & Hexp).
  destruct (Hwork Hact) as (Ha & Hp & Hv & Hd & _ & Hnt & Hdone). specialize (Hdone Hn).
  unfold stream_eof, mbind, M_bind, get, modify. cbn beta iota.
  rewrite Hn, bool_decide_eq_false_2 by (by intros [? ?]).
  destruct (state (s_dec s)) eqn:Hst; cbn;
    try (eexists; split; [reflexivity|]; apply failing_inv; try done; unfold explained; tauto).
  2: { rewrite (ag_done _ _ Ha), Hst in Hdone. done. }
  assert (Hover : ∀ d' k', sink d' = Some k' → linked k' (s_reader s) (s_live s) pushed (s_got s) →
    (terminal_of k' = Some Download.Complete → delivers (s_dec s) = true) →
    session_inv wire (moving d' 0 true s)).
  { intros d' k' Hs' Hk' Ht. exists run, k', pushed. cbn [moving s_pos s_dec s_reader s_live s_got s_failed].
    rewrite Nat.add_0_r. split_and!; try done. intros Hc. split.
    - rewrite Hv. unfold visible. by rewrite (Ht Hc).
    - right. split; [|done]. by rewrite <-(ag_frame _ _ Ha). }
  unfold when_delivering. case_bool_decide as Hdel.
  - unfold on_sink, mbind, M_bind, get, put. cbn [set_state sink]. rewrite Hs. cbn. eexists. split; [reflexivity|].
    eapply Hover; [reflexivity| |intros _; by apply bool_decide_eq_true_2].
    destruct (DownloadProofs.exchange_step_inv capacity limit Download.SinkComplete
      (Download.mkExchange (s_reader s) k true (s_live s) pushed (s_got s))) as (x & [= <-] & Hx); done.
  - cbn. eexists. split; [reflexivity|]. by eapply Hover.
Qed.

Definition valid_session_op (o : session_op) : Prop :=
  match o with ReadUpTo n => 0 ≤ n | _ => True end.

Lemma session_step_inv wire o s :
  valid_session_op o → session_inv wire s → ∃ s', session_step wire o s = Some s' ∧ session_inv wire s'.
Proof.
  intros Ho Hinv. destruct o; cbn [session_step].
  - by apply feed_inv.
  - by apply decide_inv.
  - by apply peer_closed_inv.
  - by apply on_reader_inv.
  - by apply on_reader_inv.
  - by apply on_reader_inv.
  - by apply on_reader_inv.
Qed.

Lemma session_run_inv wire ops s :
  Forall valid_session_op ops → session_inv wire s →
  ∃ s', session_run wire ops s = Some s' ∧ session_inv wire s'.
Proof.
  intros Hops. revert s. induction Hops as [|o ops Ho _ IH]; intros s Hs; cbn [session_run]; [by exists s|].
  destruct (session_step_inv wire o s Ho Hs) as (s' & -> & Hs'). by apply IH.
Qed.

(** ** Progress

    A session whose reader stays and whose message follows the rules. *)

Record healthy (wire : list Z) (s : session) (run : run) (k : Download.ResponseSink) : Prop := {
  h_pos : (s_pos s ≤ length wire)%nat;
  h_run : frun l th (take (s_pos s) wire) start_run = Ok run;
  h_sink : sink (s_dec s) = Some k;
  h_link : linked k (s_reader s) (s_live s) (r_body run) (s_got s);
  h_live : s_live s = true;
  h_ok : s_failed s = None;
  h_out : output (s_dec s) ≠ Discard;
  h_working : s_over s = false → working (s_dec s) k run (r_body run) ∧ terminal_of k = None;
  h_over : s_over s = true →
    terminal_of k = Some Download.Complete ∧ head_of k ≠ None ∧ r_done run = true
}.

Lemma fstep_growth b run run' :
  frun l th b run = Ok run' → len (r_body run') ≤ len (r_body run) + len b.
Proof.
  revert run. induction b as [|x b IH]; intros run; cbn [frun].
  { intros [= <-]. change (len []) with 0. lia. }
  rewrite len_cons. pose proof (len_nonneg b).
  destruct (r_done run); [intros [= <-]; lia|].
  destruct (fstep l th x (r_frame run)) as [[f ev]| | |]; try done. cbn [mbind outcome_bind].
  intros Hgrow%IH. cbn in Hgrow. destruct (ev_body ev); [rewrite len_app, len_cons in Hgrow; change (len []) with 0 in Hgrow|]; lia.
Qed.

Lemma frun_prefix_ok wire n fin :
  frun l th wire start_run = Ok fin → ∀ e, frun l th (take n wire) start_run ≠ Err e.
Proof. intros Hfin e He. rewrite <-(take_drop n wire), frun_app, He in Hfin. done. Qed.

Lemma healthy_visible d run : output d ≠ Discard → phase d run → visible d run = r_body run.
Proof.
  unfold visible, delivers, phase. destruct (output d); try done. by destruct (pending_head d) as [h|]; intros _ [_ ->].
Qed.

Lemma healthy_not_gone wire s run k : healthy wire s run k → s_over s = false → ¬ gone k.
Proof.
  intros H Hov [Ha|Ht].
  - destruct (h_link _ _ _ _ H) as (_ & _ & Halive & _). cbn in Halive. rewrite (h_live _ _ _ _ H) in Halive. congruence.
  - by destruct (h_working _ _ _ _ H Hov) as [_ ?].
Qed.

Lemma feed_healthy wire fin n s run k :
  frun l th wire start_run = Ok fin → (1 ≤ n)%nat → healthy wire s run k →
  ∃ s' run' k', session_step wire (Feed n) s = Some s' ∧ healthy wire s' run' k' ∧ s_got s' = s_got s ∧
    (s_pos s ≤ s_pos s')%nat ∧ len (r_body run') - len (r_body run) ≤ Z.of_nat (s_pos s') - Z.of_nat (s_pos s) ∧
    (s_over s = true → s' = s) ∧
    (s_over s = false → pending_head (s_dec s) = None → (s_pos s < length wire)%nat →
       (s_pos s < s_pos s')%nat ∨ (queued_in k' = capacity ∧ head_of k' ≠ None)).
Proof.
  intros Hfin Hn H. pose proof H as [Hpos Hrun Hs Hk Hlive Hok Hout Hwork Hover].
  cbn [session_step]. set (b := take n (drop (s_pos s) wire)).
  destruct (active s && _ && _) eqn:Hgo; cycle 1.
  { exists s, run, k. split_and!; try done; try lia. intros Hov Hpd Hlt. exfalso.
    unfold active in Hgo. rewrite Hov, Hok, Hpd, !bool_decide_eq_true_2 in Hgo by done. cbn in Hgo.
    apply negb_false_iff, bool_decide_eq_true in Hgo. apply (f_equal length) in Hgo. unfold b in Hgo.
    rewrite length_take, length_drop in Hgo. cbn in Hgo. lia. }
  apply andb_true_iff in Hgo as [[Hact Hpd%bool_decide_eq_true]%andb_true_iff Hne%negb_true_iff%bool_decide_eq_false].
  assert (Hov : s_over s = false).
  { unfold active in Hact. by apply andb_true_iff in Hact as [?%negb_true_iff _]. }
  destruct (Hwork Hov) as [Hw Hterm].
  destruct (wp_inv _ _ _ _ (stream_ingest_refines b _ _ _ _ _ _ _ Hs Hk Hw Hpd))
    as [(p & d' & -> & c & run' & Hc & Hrun' & Hcu & Hp)|(e & d' & -> & _ & He)]; cycle 1.
  { exfalso. destruct He as [(c & Hle & Hc)|[_ Hgone]]; [|by apply (healthy_not_gone _ _ _ _ H Hov)].
    destruct (take_split wire (s_pos s) n c Hle Hpos) as [Htake _].
    apply (frun_prefix_ok wire (s_pos s + c) fin Hfin e). by rewrite Htake, frun_app, Hrun. }
  destruct (take_split wire (s_pos s) n c Hc Hpos) as [Htake Hpos'].
  destruct Hcu as (Ha' & Hout' & Hph & k' & Hs' & Hk' & Hhd & _).
  assert (Hvis : visible (s_dec s) run' = r_body run').
  { rewrite <-(healthy_visible d' run'); [|congruence|done]. unfold visible, delivers. by rewrite Hout'. }
  rewrite Hvis in Hk'. destruct Hw as (_ & _ & _ & Hd & Hd' & _).
  assert (Hnext : ∀ over, (over = false → (r_done run' = true → pending_head d' ≠ None) ∧ terminal_of k' = None) →
    (over = true → terminal_of k' = Some Download.Complete ∧ delivers (s_dec s) = true ∧ r_done run' = true) →
    ((1 ≤ c)%nat ∨ (queued_in k' = capacity ∧ head_of k' ≠ None)) →
    ∃ s' run1 k1, Some (moving d' (Z.of_nat c) over s) = Some s' ∧ healthy wire s' run1 k1 ∧ s_got s' = s_got s ∧
    (s_pos s ≤ s_pos s')%nat ∧ len (r_body run1) - len (r_body run) ≤ Z.of_nat (s_pos s') - Z.of_nat (s_pos s) ∧
    (s_over s = true → s' = s) ∧
    (s_over s = false → pending_head (s_dec s) = None → (s_pos s < length wire)%nat →
       (s_pos s < s_pos s')%nat ∨ (queued_in k1 = capacity ∧ head_of k1 ≠ None))).
  { intros over Hno Hyes Hprog. exists (moving d' (Z.of_nat c) over s), run', k'. cbn [moving s_got s_pos s_over].
    rewrite Nat2Z.id. split; [done|]. split_and!; try done; try lia; [| |by rewrite Hov|].
    - split; cbn [moving s_pos s_dec s_reader s_live s_got s_failed s_over]; try done; rewrite ?Nat2Z.id; try done.
      + by rewrite Htake, frun_app, Hrun.
      + congruence.
      + intros Ho. destruct (Hno Ho) as [Hpd' Ht]. split; [|done]. unfold working. rewrite Hhd, Ht.
        unfold visible, delivers in *. rewrite Hout', Hvis. split_and!; auto.
        intros Hp0. destruct (r_done run') eqn:Hrd; [|done]. by destruct (Hpd' eq_refl).
      + intros Ho. destruct (Hyes Ho) as (Ht & Hdel & Hrd). rewrite Hhd. auto.
    - apply fstep_growth in Hrun'. unfold len in *. rewrite length_take in Hrun'. lia.
    - intros _ _ _. destruct Hprog; [left; lia|by right]. }
  destruct p as [h m|m blocked|m re del]; cbn in Hp |- *; destruct Hp as [-> Hp]; rewrite Z.add_0_l.
  - destruct Hp as (Hpd' & Haw & H1 & Ht). destruct (Ht Hterm) as (k0 & Hk0 & Ht0). apply Hnext; [|done|by left].
    intros _. split; [by rewrite Hpd'|congruence].
  - destruct Hp as (Hnd & _ & Ht & Hb). destruct (Ht Hterm) as (k0 & Hk0 & Ht0). apply Hnext; [|done|].
    + intros _. split; [congruence|congruence].
    + destruct blocked.
      * destruct Hb as (Hdel & k1 & Hk1 & Hq). right. rewrite Hs' in Hk1. injection Hk1 as <-. rewrite Hhd. auto.
      * left. subst c. destruct b; [done|cbn; lia].
  - destruct Hp as (Hdn & Hpd' & _ & H1 & Ht). apply Hnext; [done| |by left]. intros _.
    assert (Hdel : delivers (s_dec s) = true).
    { unfold delivers. apply bool_decide_eq_true. unfold phase in Hph. rewrite Hout', Hpd' in Hph.
      destruct (output (s_dec s)); try done. destruct Hph as [Hst _].
      pose proof (ag_done _ _ Ha') as Hdd. by rewrite Hst, Hdn in Hdd. }
    destruct (Ht Hterm Hdel) as (k0 & Hk0 & Ht0). split; [congruence|done].
Qed.

Lemma decide_healthy wire s run k :
  healthy wire s run k →
  ∃ s' k', session_step wire (Decide true) s = Some s' ∧ healthy wire s' run k' ∧ s_got s' = s_got s ∧
    s_pos s' = s_pos s ∧ (s_over s = true → s' = s) ∧
    (s_over s' = false → pending_head (s_dec s') = None) ∧
    queued_in k' = queued_in k ∧ (head_of k ≠ None → head_of k' ≠ None).
Proof.
  intros H. pose proof H as [Hpos Hrun Hs Hk Hlive Hok Hout Hwork Hover]. cbn [session_step].
  destruct (active s && _) eqn:Hgo; cycle 1.
  { exists s, k. split_and!; try done. intros Hov. unfold active in Hgo.
    rewrite Hov, Hok, bool_decide_eq_true_2 in Hgo by done. cbn in Hgo. apply bool_decide_eq_false in Hgo.
    destruct (pending_head (s_dec s)); [by destruct Hgo|done]. }
  apply andb_true_iff in Hgo as [Hact Hn%bool_decide_eq_true]. destruct Hn as [h Hn].
  assert (Hov : s_over s = false).
  { unfold active in Hact. by apply andb_true_iff in Hact as [?%negb_true_iff _]. }
  destruct (Hwork Hov) as [(Ha & Hp & Hv & _ & Hd & _ & _) Hterm].
  unfold phase in Hp. rewrite Hn in Hp. destruct (output (s_dec s)) eqn:Ho; try done. destruct Hp as [Hst Hnil].
  assert (Hhead : head_of k = None) by (apply Hd; unfold delivers; by rewrite Ho).
  assert (Halive : Download.reader_alive (Download.state (Download.shared k)) = true).
  { destruct Hk as (_ & _ & Halive & _). cbn in Halive. by rewrite Halive. }
  unfold decide_head, mbind, M_bind, get, modify. cbn beta iota. rewrite Hn.
  unfold on_sink, mbind, M_bind, get, put. cbn [set_output set_pending sink]. rewrite Hs.
  set (nb := bool_decide (state (s_dec s) = StComplete)).
  destruct (DownloadProofs.exchange_step_inv capacity limit (Download.PublishHead h nb)
    (Download.mkExchange (s_reader s) k true (s_live s) (r_body run) (s_got s))) as (x & [= <-] & Hx); [done|done|].
  destruct (Download.publish_head h nb k) as [published k'] eqn:Hpub. cbn [snd] in Hx.
  unfold Download.publish_head in Hpub. rewrite Hhead, Hterm, Halive in Hpub. injection Hpub as <- Hk'.
  assert (Hfacts : head_of k' = Some h ∧ terminal_of k' = (if nb then Some Download.Complete else None) ∧
    queued_in k' = queued_in k) by (rewrite <-Hk'; by destruct nb). clear Hk'. destruct Hfacts as (Hh & Ht & Hq).
  cbn. eexists _, k'. split; [reflexivity|]. cbn [moving s_got s_pos s_over s_dec pending_head set_sink set_output set_pending].
  rewrite Nat.add_0_r. split_and!; try done; [|by rewrite ?Hov, ?Hh].
  split; cbn [moving s_pos s_dec s_reader s_live s_got s_failed s_over]; rewrite ?Nat.add_0_r; try done.
  - intros Hnb. split; [|by rewrite Ht, Hnb]. unfold working. rewrite Ht, Hh.
    split_and!; try done; [by destruct Ha|by rewrite Hnb|]. intros _. rewrite (ag_done _ _ Ha). exact Hnb.
  - intros Hnb. rewrite Ht, Hh, Hnb. split_and!; try done. rewrite (ag_done _ _ Ha). exact Hnb.
Qed.

Lemma read_healthy wire n s run k :
  1 ≤ n → healthy wire s run k →
  ∃ s' k', session_step wire (ReadUpTo n) s = Some s' ∧ healthy wire s' run k' ∧ s_pos s' = s_pos s ∧
    s_over s' = s_over s ∧ pending_head (s_dec s') = pending_head (s_dec s) ∧
    len (s_got s) ≤ len (s_got s') ∧
    (s_over s = true ∨ (queued_in k = capacity ∧ head_of k ≠ None) →
       Download.eof_reached (s_reader s') = true ∨ len (s_got s) < len (s_got s')).
Proof.
  intros Hn [Hpos Hrun Hs Hk Hlive Hok Hout Hwork Hover]. cbn [session_step]. unfold on_reader. rewrite Hs.
  assert (Hdel : DownloadProofs.delivering (Download.state (Download.shared k)) = true).
  { unfold DownloadProofs.delivering. destruct (s_over s); [by destruct (Hover eq_refl) as (-> & _)|].
    by destruct (Hwork eq_refl) as [_ ->]. }
  rewrite Hlive in *. cbn [Download.exchange_step]. pose proof Hk as (Hsi & Hri & Hal & Hend). cbn in Hsi, Hri, Hal, Hend.
  assert (Hcase : ∀ got' r' s', linked (Download.on_shared s' k) r' true (r_body run) got' →
    Download.terminal (Download.state s') = terminal_of k → Download.head (Download.state s') = head_of k →
    healthy wire (mkSession (set_sink (Some (Download.on_shared s' k)) (s_dec s)) r' true (s_pos s) got'
      (s_over s) (s_failed s)) run (Download.on_shared s' k)).
  { intros got' r' s' Hk' Ht Hh. split; cbn [s_pos s_dec s_reader s_live s_got s_failed s_over]; try done.
    - intros Ho. destruct (Hwork Ho) as [(Ha & Hw) Hn']. split; [|cbn; congruence]. unfold working. cbn. rewrite Ht, Hh.
      split; [by destruct Ha|]. exact Hw.
    - intros Ho. cbn. rewrite Ht, Hh. auto. }
  assert (Hlinked : ∀ r' s' got', DownloadProofs.shared_inv capacity limit s' (Download.current r') (r_body run) got' →
    DownloadProofs.reader_inv r' s' (r_body run) got' → Download.reader_alive (Download.state s') = true →
    Download.terminal (Download.state s') = terminal_of k → linked (Download.on_shared s' k) r' true (r_body run) got').
  { intros r' s' got' H1 H2 H3 H4. unfold linked, DownloadProofs.exchange_inv. cbn. rewrite H4. by split_and!. }
  destruct (wp_inv _ _ _ _ (DownloadProofs.try_read_inv capacity limit n (s_reader s) (Download.shared k)
    (r_body run) (s_got s) ltac:(lia) Hsi Hri Hal)) as [(d & [r' s'] & Hread & Hpost)|(e & [r' s'] & Hread & Hpost)];
    rewrite Hread; cbn [mbind option_bind Download.sink Download.reader Download.reader_live Download.read_log];
    eexists _, _; (split; [reflexivity|]); cbn [s_pos s_over s_got s_reader s_dec pending_head set_sink].
  - destruct Hpost as (H1 & H2 & H3 & H4 & H5 & H6 & H7). cbn [fst snd] in *.
    rewrite len_app. pose proof (len_nonneg (Download.delivered d)). split; [by apply Hcase; auto|].
    split_and!; try done; [lia|]. intros Hprog. destruct H7 as [->|Hne]; [done| | |by left; apply H6|].
    + destruct Hprog as [Ho|[_ ?]]; [|done]. by destruct (Hover Ho) as (_ & ? & _).
    + destruct Hprog as [Ho|[Hq _]]; [left; by destruct (Hover Ho)|].
      unfold DownloadProofs.delivering in Hdel. destruct (terminal_of k) as [[]|]; try done; [by left|right].
      split; [done|]. destruct Hsi as ((_ & Hcap) & _). lia.
    + right. assert (len (Download.delivered d) ≠ 0) by (by intros ?%len_zero). lia.
  - destruct Hpost as (H1 & H2 & H3 & H4 & H5 & H6). cbn [fst snd] in *. split; [by apply Hcase; auto|].
    split_and!; try done. intros Hprog. exfalso. specialize (H6 Hdel).
    destruct Hprog as [Ho|[_ ?]]; [|done]. by destruct (Hover Ho) as (_ & ? & _).
Qed.

(** What is left to do: bytes on the wire count twice, bytes not yet read once. *)
Definition todo (wire : list Z) (s : session) (run : run) : Z :=
  2 * (len wire - Z.of_nat (s_pos s)) + (len (r_body run) - len (s_got s)).

Definition one_round (n : nat) (m : Z) : list session_op := [Feed n; Decide true; ReadUpTo m].

Lemma healthy_eof wire s run k :
  healthy wire s run k → Download.eof_reached (s_reader s) = true → s_over s = true ∧ s_got s = r_body run.
Proof.
  intros H He. destruct (h_link _ _ _ _ H) as (_ & (_ & Heof & _) & _). destruct (Heof He) as [Ht Hg]. cbn in Ht, Hg.
  split; [|done]. destruct (s_over s) eqn:Hov; [done|].
  destruct (h_working _ _ _ _ H Hov) as [_ Hn]. congruence.
Qed.

Lemma session_run_app wire a b s : session_run wire (a ++ b) s = (session_run wire a s ≫= session_run wire b).
Proof.
  revert s. induction a as [|o a IH]; intros s; [done|]. cbn [app session_run].
  destruct (session_step wire o s); [apply IH|done].
Qed.

Lemma session_round_progress wire fin n m s run k :
  frun l th wire start_run = Ok fin → r_done fin = true → (1 ≤ n)%nat → 1 ≤ m →
  healthy wire s run k → (s_over s = false → pending_head (s_dec s) = None) →
  ∃ s' run' k', session_run wire (one_round n m) s = Some s' ∧ healthy wire s' run' k' ∧
    (s_over s' = false → pending_head (s_dec s') = None) ∧
    (Download.eof_reached (s_reader s') = true ∨
     (todo wire s' run' < todo wire s run ∧ Download.eof_reached (s_reader s) = false)).
Proof.
  intros Hfin Hdone Hn Hm H Hp. unfold one_round, session_run.
  destruct (feed_healthy wire fin n s run k Hfin Hn H) as (s1 & run1 & k1 & -> & H1 & Hg1 & Hp1 & Hb1 & Ho1 & Hq1).
  cbn [mbind option_bind].
  destruct (decide_healthy wire s1 run1 k1 H1) as (s2 & k2 & -> & H2 & Hg2 & Hp2 & Ho2 & Hn2 & Hq2 & Hh2).
  cbn [mbind option_bind].
  destruct (read_healthy wire m s2 run1 k2 Hm H2) as (s3 & k3 & -> & H3 & Hp3 & Ho3 & Hn3 & Hg3 & Hq3).
  cbn [mbind option_bind]. exists s3, run1, k3. split_and!; try done.
  { rewrite Ho3, Hn3. exact Hn2. }
  unfold todo. rewrite Hp3, Hp2. rewrite Hg2, Hg1 in *.
  destruct (Download.eof_reached (s_reader s3)) eqn:Heof3; [by left|right].
  assert (Hlt : s_over s = false → (s_pos s < length wire)%nat).
  { intros Hov. destruct (decide (s_pos s < length wire)%nat); [done|]. exfalso.
    destruct (h_working _ _ _ _ H Hov) as [(_ & _ & _ & _ & _ & _ & Hnd) _]. specialize (Hnd (Hp Hov)).
    pose proof (h_run _ _ _ _ H) as Hrun. rewrite take_ge in Hrun by lia. congruence. }
  destruct (s_over s) eqn:Hov; cycle 1.
  { split; cycle 1.
    - destruct (Download.eof_reached (s_reader s)) eqn:He; [|done].
      destruct (healthy_eof _ _ _ _ H He). congruence.
    - destruct (Hq1 eq_refl (Hp eq_refl) (Hlt eq_refl)) as [?|[Hq ?]]; [lia|].
      destruct Hq3 as [?|?]; [right; rewrite Hq2; auto|done|lia]. }
  rewrite (Ho1 eq_refl) in *. rewrite (Ho2 Hov) in *. destruct (Hq3 (or_introl Hov)) as [?|Hgt]; [done|].
  assert (run1 = run) as ->.
  { pose proof (h_run _ _ _ _ H1) as E1. pose proof (h_run _ _ _ _ H) as E2. congruence. }
  split; [lia|]. destruct (Download.eof_reached (s_reader s)) eqn:He; [|done].
  destruct (healthy_eof _ _ _ _ H He) as [_ Hgot]. destruct (h_link _ _ _ _ H3) as (Hsi & _).
  apply DownloadProofs.shared_prefix, prefix_length in Hsi. cbn in Hsi. rewrite Hgot in Hgt. unfold len in Hgt. lia.
Qed.

Lemma rounds_arrive wire fin n m j s run k :
  frun l th wire start_run = Ok fin → r_done fin = true → (1 ≤ n)%nat → 1 ≤ m →
  healthy wire s run k → (s_over s = false → pending_head (s_dec s) = None) →
  todo wire s run < Z.of_nat j ∨ (Download.eof_reached (s_reader s) = true ∧ (1 ≤ j)%nat) →
  ∃ s' run' k', session_run wire (concat (replicate j (one_round n m))) s = Some s' ∧
    healthy wire s' run' k' ∧ Download.eof_reached (s_reader s') = true.
Proof.
  intros Hfin Hdone Hn Hm. revert s run k. induction j as [|j IH]; intros s run k H Hp Hj.
  { destruct Hj as [Hj|[_ ?]]; [|lia]. exfalso. pose proof (h_pos _ _ _ _ H).
    destruct (h_link _ _ _ _ H) as (Hsi & _). apply DownloadProofs.shared_prefix, prefix_length in Hsi.
    unfold todo, len in Hj. cbn in Hsi. lia. }
  cbn [replicate concat]. rewrite session_run_app.
  destruct (session_round_progress wire fin n m s run k Hfin Hdone Hn Hm H Hp) as (s1 & run1 & k1 & -> & H1 & Hp1 & Hprog).
  cbn [mbind option_bind]. destruct j as [|j].
  - exists s1, run1, k1. split_and!; try done. destruct Hprog as [|[Hlt Hne]]; [done|].
    destruct Hj as [Hj|[He _]]; [|congruence]. exfalso.
    pose proof (h_pos _ _ _ _ H1). destruct (h_link _ _ _ _ H1) as (Hsi & _).
    apply DownloadProofs.shared_prefix, prefix_length in Hsi. unfold todo, len in *. cbn in Hsi. lia.
  - apply (IH s1 run1 k1); try done. destruct Hprog as [|[Hlt Hne]]; [right; split; [done|lia]|left].
    destruct Hj as [Hj|[He _]]; [lia|congruence].
Qed.

(** ** Claims *)

Context (mode : RunMode) (r : Download.ResponseReader) (k : Download.ResponseSink).
Hypothesis Hcapacity : 1 ≤ capacity ≤ usize_max.
Hypothesis Hlimit_fits : 0 ≤ limit ≤ usize_max.
Hypothesis Hpair : Download.response_pair mode capacity limit = Ok (r, k).

Lemma start_healthy wire : healthy wire (start_session k r) start_run k.
Proof.
  destruct (start_session_inv wire mode r k Hcapacity Hlimit_fits Hpair)
    as (run & k0 & pushed & Hpos & Hrun & Hs & Hk & _ & _ & Hwork & _).
  cbn in Hrun, Hs. injection Hrun as <-. injection Hs as <-. cbn in Hk, Hwork.
  destruct (Hwork eq_refl) as (Ha & Hp & -> & Hrest).
  split; try done. intros _. split; [by split; [|split; [|split]]|].
  unfold Download.response_pair in Hpair. destruct (capacity =? 0); [done|]. by injection Hpair as <- <-.
Qed.

(** C8: however the bytes of a response reach the owner, and whatever owner,
    reader and control do in any order, nothing panics; what the reader has read
    is a prefix of the body of the message consumed so far; a reader at the end
    has read exactly the body of a message that is complete; and a transfer
    fails only because the message breaks the framing rules, the peer closed
    too early or the reader went away, never by an internal error. *)
Theorem streamed_body_exact wire ops :
  Forall valid_session_op ops →
  ∃ s run, session_run wire ops (start_session k r) = Some s ∧
    frun l th (take (s_pos s) wire) start_run = Ok run ∧
    s_got s `prefix_of` r_body run ∧
    (Download.eof_reached (s_reader s) = true → s_got s = r_body run ∧ ended wire (s_pos s) run) ∧
    (∀ e, s_failed s = Some e → explained wire e).
Proof.
  intros Hops.
  destruct (session_run_inv wire ops _ Hops (start_session_inv wire mode r k Hcapacity Hlimit_fits Hpair))
    as (s & Hs & run & k' & pushed & _ & Hrun & _ & Hk & Hpre & Hterm & _ & Hexp).
  exists s, run. destruct Hk as (Hsi & (_ & Heof & _) & _). cbn in Hsi, Heof.
  split_and!; try done.
  - etrans; [by eapply DownloadProofs.shared_prefix|done].
  - intros He. destruct (Heof He) as [Ht ->]. by apply Hterm.
Qed.

(** When the bytes on the wire hold a complete message, an owner that keeps
    feeding the decoder at least a byte at a time, delivers the final head, and
    a reader that keeps reading at least a byte at a time, reach the end with
    the whole body read, in at most two rounds per byte and one more. *)
Theorem streamed_body_arrives wire fin n m :
  frun l th wire start_run = Ok fin → r_done fin = true → (1 ≤ n)%nat → 1 ≤ m →
  ∃ s, session_run wire (concat (replicate (S (2 * length wire)) (one_round n m))) (start_session k r) = Some s ∧
    Download.eof_reached (s_reader s) = true ∧ s_got s = r_body fin.
Proof.
  intros Hfin Hdone Hn Hm.
  destruct (rounds_arrive wire fin n m (S (2 * length wire)) _ _ _ Hfin Hdone Hn Hm (start_healthy wire))
    as (s & run & k' & Hrun & Hh & He); [done|left; unfold todo, len; cbn; lia|].
  exists s. split_and!; try done. destruct (healthy_eof _ _ _ _ Hh He) as [Hov ->].
  destruct (h_over _ _ _ _ Hh Hov) as (_ & _ & Hd). pose proof (h_run _ _ _ _ Hh) as Hr.
  rewrite <-(take_drop (s_pos s) wire), frun_app, Hr in Hfin. cbn in Hfin.
  rewrite (frun_done _ _ _ _ Hd) in Hfin. by injection Hfin as ->.
Qed.
End flush.
End with_params.

(** ** Witnesses *)

(** Two chunks through a four-byte queue. *)
Definition session_limits : HttpLimits := mkLimits 1000 200 16.
Definition session_sink : Download.ResponseSink :=
  Download.mkSink (Download.mkShared (Download.mkState None false [] 0 0 None true 0) 4 1000 [] 0 0) false.
Definition session_reader : Download.ResponseReader := Download.mkReader Spawned None None false false 0.
Definition session_wire : list Z :=
  chunked_head ++ concat (map chunk_wire [bs "hel"; bs "lo"]) ++ last_chunk.
Definition session_fin : run :=
  match @frun target64 small_parser session_limits false session_wire start_run with
  | Ok fin => fin
  | _ => start_run
  end.

Lemma session_limits_wf : @wf_limits target64 session_limits.
Proof. unfold wf_limits. by vm_compute. Qed.

Lemma streamed_body_exact_witness :
  ∃ s, @session_run target64 small_parser session_wire
         [Feed 60; Decide true; Feed 60; ReadUpTo 8; TransferCancelled; ReadUpTo 8]
         (start_session session_limits false session_sink session_reader) = Some s ∧
       s_failed s = None.
Proof.
  destruct (@streamed_body_exact target64 small_parser session_limits false session_limits_wf 4 1000
    ltac:(by vm_compute) Spawned session_reader session_sink ltac:(by vm_compute) ltac:(by vm_compute)
    eq_refl session_wire [Feed 60; Decide true; Feed 60; ReadUpTo 8; TransferCancelled; ReadUpTo 8])
    as (s & run & Hs & _); [by repeat constructor|].
  exists s. split; [exact Hs|]. vm_compute in Hs. injection Hs as <-. done.
Defined.

Lemma streamed_body_arrives_witness :
  ∃ s, @session_run target64 small_parser session_wire
         (concat (replicate (S (2 * length session_wire)) (one_round 7 2)))
         (start_session session_limits false session_sink session_reader) = Some s ∧
       s_got s = bs "hello".
Proof.
  destruct (@streamed_body_arrives target64 small_parser session_limits false session_limits_wf 4 1000
    ltac:(by vm_compute) Spawned session_reader session_sink ltac:(by vm_compute) ltac:(by vm_compute)
    eq_refl session_wire session_fin 7 2) as (s & Hs & _ & Hgot).
  - by vm_compute.
  - by vm_compute.
  - lia.
  - lia.
  - exists s. split; [exact Hs|]. rewrite Hgot. by vm_compute.
Defined.
