(* ===== verification/StdText.v ===== *)
(** * Text of the standard library

    [str::from_utf8], and [IpAddr::from_str] with its parser of addresses. *)

From stdpp Require Import base list strings.
From Stdlib Require Import ZArith Lia.
From S2P Require Import Prelude DnsCache.

Definition between (lo hi b : Z) : bool := (lo <=? b) && (b <=? hi).
Definition continuation (b : Z) : bool := between 128 191 b.

(** Well-formed UTF-8. *)
Fixpoint is_utf8 (l : list Z) : bool :=
  match l with
  | [] => true
  | b :: rest =>
      if b <? 128 then is_utf8 rest
      else match rest with
      | c :: rest2 =>
          if between 194 223 b then continuation c && is_utf8 rest2
          else match rest2 with
          | d :: rest3 =>
              if between 224 239 b then
                (if b =? 224 then between 160 191 c else if b =? 237 then between 128 159 c else continuation c)
                && continuation d && is_utf8 rest3
              else match rest3 with
              | e :: rest4 =>
                  between 240 244 b
                  && (if b =? 240 then between 144 191 c else if b =? 244 then between 128 143 c else continuation c)
                  && continuation d && continuation e && is_utf8 rest4
              | [] => false
              end
          | [] => false
          end
      | [] => false
      end
  end.

(** ** Addresses *)

Definition to_digit (radix b : Z) : option Z :=
  let d := if between 48 57 b then b - 48
           else if between 97 122 b then b - 87
           else if between 65 90 b then b - 55 else radix in
  if d <? radix then Some d else None.

Fixpoint read_digits (radix : Z) (l : list Z) : list Z * list Z :=
  match l with
  | b :: rest =>
      match to_digit radix b with
      | Some d => let '(ds, tail) := read_digits radix rest in (d :: ds, tail)
      | None => ([], l)
      end
  | [] => ([], [])
  end.

(** [read_number]: at most [max_digits] digits, and no leading zero unless
    [allow_zero_prefix]. *)
Definition read_number (radix max_digits max_value : Z) (allow_zero_prefix : bool) (l : list Z) : option (Z * list Z) :=
  let '(ds, rest) := read_digits radix l in
  let value := foldl (λ acc d, acc * radix + d) 0 ds in
  if (len ds =? 0) || (max_digits <? len ds) || (max_value <? value)
     || (negb allow_zero_prefix && bool_decide (head ds = Some 0) && (1 <? len ds))
  then None else Some (value, rest).

Definition read_given_char (c : Z) (l : list Z) : option (list Z) :=
  match l with b :: rest => if b =? c then Some rest else None | [] => None end.
Definition read_separator {A} (sep : Z) (index : nat) (inner : list Z → option (A * list Z)) (l : list Z)
    : option (A * list Z) :=
  match index with
  | O => inner l
  | S _ => rest ← read_given_char sep l; inner rest
  end.

Definition DOT : Z := 46.
Definition COLON : Z := 58.

Definition read_ipv4_addr (l : list Z) : option ((Z * Z * Z * Z) * list Z) :=
  let octet i := read_separator DOT i (read_number 10 3 255 false) in
  '(a, l) ← octet 0%nat l; '(b, l) ← octet 1%nat l; '(c, l) ← octet 2%nat l; '(d, l) ← octet 3%nat l;
  Some ((a, b, c, d), l).

(** [read_groups]: up to [n] groups, and whether the last two were an IPv4
    address; [i] groups are read already. *)
Fixpoint read_groups (n i : nat) (l : list Z) : list Z * bool * list Z :=
  match n with
  | O => ([], false, l)
  | S n' =>
      match (if (0 <? n')%nat then read_separator COLON i read_ipv4_addr l else None) with
      | Some ((a, b, c, d), rest) => ([a * 256 + b; c * 256 + d], true, rest)
      | None =>
          match read_separator COLON i (read_number 16 4 65535 true) l with
          | Some (g, rest) => let '(gs, v4, tail) := read_groups n' (S i) rest in (g :: gs, v4, tail)
          | None => ([], false, l)
          end
      end
  end.

Definition octets_of (groups : list Z) : list Z := concat (map (λ g, [g / 256; g mod 256]) groups).

Definition read_ipv6_addr (l : list Z) : option (list Z * list Z) :=
  let '(groups, v4, rest) := read_groups 8 0 l in
  if len groups =? 8 then Some (octets_of groups, rest)
  else if (v4 : bool) then None
  else
    rest ← read_given_char COLON rest;
    rest ← read_given_char COLON rest;
    let '(tail, _, rest) := read_groups (7 - length groups) 0 rest in
    Some (octets_of (groups ++ replicate (8 - length groups - length tail) 0 ++ tail), rest).

Definition parse_ip (l : list Z) : option IpAddr :=
  match read_ipv4_addr l with
  | Some ((a, b, c, d), rest) => if bool_decide (rest = []) then Some (V4 a b c d) else None
  | None =>
      match read_ipv6_addr l with
      | Some (octets, rest) => if bool_decide (rest = []) then Some (V6 octets) else None
      | None => None
      end
  end.

Example parse_ip_examples :
  parse_ip (bs "192.0.2.1") = Some (V4 192 0 2 1) ∧ parse_ip (bs "192.0.2.01") = None ∧ parse_ip (bs "example.com") = None ∧
  parse_ip (bs "::1") = Some (V6 (replicate 15 0 ++ [1])) ∧ parse_ip (bs "1::2:3") = Some (V6 ([0; 1] ++ replicate 10 0 ++ [0; 2; 0; 3])) ∧
  parse_ip (bs "::ffff:192.0.2.1") = Some (V6 (replicate 10 0 ++ [255; 255; 192; 0; 2; 1])) ∧ parse_ip (bs "1:2:3:4:5:6:7::") = Some (V6 [0;1;0;2;0;3;0;4;0;5;0;6;0;7;0;0]) ∧
  parse_ip (bs "1:2:3:4:5:6:7:8::") = None ∧ parse_ip (bs "1.2.3.4.5") = None.
Proof. vm_compute. by split_and!. Qed.
