(* ===== verification/NativeTls.v ===== *)
(** * TLS sessions ([src/backend/native_tls.rs])

    A TLS client without sockets: the owner hands in the bytes it received and
    takes the bytes to send. rustls, which does the protocol, is the class
    [Rustls]; the code around it is modelled here: the bounds on what is taken
    in and given out in one turn, the request that is encrypted piece by piece,
    the decrypted bytes that are kept for a slow reader, and the session that
    is lent to a handshake worker. [NativeTls] is the session of an HTTP
    exchange, [StandaloneTls] that of a plain TLS connection. How certificates
    are verified is rustls's business, except which of the two configurations
    a connection gets. *)

From stdpp Require Import base list strings.
From Stdlib Require Import ZArith Lia.
From S2P Require Import Prelude Errors BodyBudget Request.

Module Tls.
Import Budget (BodyBudget, BodyBuffer, MB, buffer_new, drop_buffer).
Import Request (TlsVerification, Verify, DangerouslyDisableCertificateVerification).

Definition STANDALONE_TLS_OUTPUT_LIMIT : Z := 64 * 1024.
Definition STANDALONE_TLS_WIRE_WINDOW : Z := 18 * 1024.
Definition STANDALONE_TLS_PLAINTEXT_WINDOW : Z := STANDALONE_TLS_WIRE_WINDOW + 16 * 1024.
Definition TLS_FLIGHT_LIMIT : Z := 512 * 1024.
Definition TLS_PLAINTEXT_CHUNK : Z := 16 * 1024.
Definition TLS_STREAM_WIRE_ALLOWANCE : Z := 18 * 1024.
Definition TLS_STREAM_PLAINTEXT_LIMIT : Z := TLS_STREAM_WIRE_ALLOWANCE + TLS_PLAINTEXT_CHUNK.

(** ** rustls *)

(** The errors the code tells apart. *)
Inductive CertificateError :=
| NotValidForName | NotValidForNameContext | UnknownIssuer | Expired | ExpiredContext | NotValidYet | NotValidYetContext
| Revoked | OtherCertificateError.
Inductive RustlsError :=
| InvalidCertificate (error : CertificateError) | NoCertificatesPresented | UnsupportedNameType | AlertReceived
| InappropriateMessage | InappropriateHandshakeMessage | InvalidEncryptedClientHello | InvalidMessage | DecryptError
| EncryptError | PeerIncompatible | PeerMisbehaved | HandshakeNotComplete | PeerSentOversizedRecord
| NoApplicationProtocol | BadMaxFragmentSize | InconsistentKeys | OtherRustlsError.

(** [reader().read]. *)
Inductive ReadPlaintext := PlainBytes (bytes : list Z) | PlainBlocks | PlainError.

(** A client connection. [outgoing] is the buffer [write_tls] offers to its
    writer, or its failure; [sent] is the connection after the writer took a
    number of bytes. [held] bounds the plaintext it can give without more
    input. The other functions are the methods of the same name; [None] is an
    [io::Error]. *)
Class Rustls := {
  ClientConfig : Type;
  alpn_protocols : ClientConfig → list (list Z);
  set_alpn_protocols : list (list Z) → ClientConfig → ClientConfig;
  ServerName : Type;
  server_name : list Z → option ServerName;
  ClientConnection : Type;
  client_connection : ClientConfig → ServerName → RustlsError + ClientConnection;
  set_buffer_limit : Z → ClientConnection → ClientConnection;
  is_handshaking : ClientConnection → bool;
  wants_write : ClientConnection → bool;
  outgoing : ClientConnection → option (list Z);
  sent : ClientConnection → Z → ClientConnection;
  read_tls : ClientConnection → list Z → option Z * ClientConnection;
  process_new_packets : ClientConnection → (RustlsError + bool) * ClientConnection;
  reader_read : ClientConnection → Z → ReadPlaintext * ClientConnection;
  writer_write : ClientConnection → list Z → option Z * ClientConnection;
  writer_write_vectored : ClientConnection → list Z → list Z → option Z * ClientConnection;
  connection_close_notify : ClientConnection → ClientConnection;
  held : ClientConnection → Z
}.

Definition classify_certificate_error (e : CertificateError) : TlsFailure.t :=
  match e with
  | NotValidForName | NotValidForNameContext => TlsFailure.CertificateHostnameMismatch
  | UnknownIssuer => TlsFailure.CertificateUnknownIssuer
  | Expired | ExpiredContext => TlsFailure.CertificateExpired
  | NotValidYet | NotValidYetContext => TlsFailure.CertificateNotYetValid
  | Revoked => TlsFailure.CertificateRevoked
  | OtherCertificateError => TlsFailure.CertificateInvalid
  end.
Definition classify_rustls_error (e : RustlsError) : TlsFailure.t :=
  match e with
  | InvalidCertificate e => classify_certificate_error e
  | NoCertificatesPresented | UnsupportedNameType => TlsFailure.CertificateInvalid
  | AlertReceived => TlsFailure.PeerAlert
  | OtherRustlsError => TlsFailure.Unknown
  | _ => TlsFailure.Protocol
  end.

Definition tls_io_error (handshaking : bool) (m : string) : Error :=
  error_tls (if handshaking then TransportStage.Tls else TransportStage.Receive) TlsFailure.Io m.
Definition tls_handshake_flight_limit : Error :=
  error_new ErrorKind.Limit "the native TLS peer handshake exceeded its private wire budget".
Definition internal (m : string) : Error := error_new ErrorKind.Internal m.
Definition output_failed (stage : TransportStage.t) : Error := error_tls stage TlsFailure.Io "native TLS record output failed".

(** ** Sessions *)

Section tls.
Context {tgt : Target} {alloc : VecAlloc} {rustls : Rustls}.

(** [body_budget] tells whether the decrypted bytes are charged to the
    Engine's budget. [accepted], [wire] and [released] are history: the
    plaintext rustls took, the bytes to send it gave, the plaintext it gave. *)
Record TlsSession := mkSession {
  connection : ClientConnection; handshake_received : Z; body_budget : bool; outbound_limit : Z;
  accepted : list Z; wire : list Z; released : list Z
}.
Definition set_connection (c : ClientConnection) (s : TlsSession) : TlsSession :=
  mkSession c (handshake_received s) (body_budget s) (outbound_limit s) (accepted s) (wire s) (released s).
Definition set_handshake_received (n : Z) (s : TlsSession) : TlsSession :=
  mkSession (connection s) n (body_budget s) (outbound_limit s) (accepted s) (wire s) (released s).
Definition set_accepted (c : ClientConnection) (l : list Z) (s : TlsSession) : TlsSession :=
  mkSession c (handshake_received s) (body_budget s) (outbound_limit s) (accepted s ++ l) (wire s) (released s).
Definition set_wire (c : ClientConnection) (l : list Z) (s : TlsSession) : TlsSession :=
  mkSession c (handshake_received s) (body_budget s) (outbound_limit s) (accepted s) (wire s ++ l) (released s).
Definition set_released (c : ClientConnection) (l : list Z) (s : TlsSession) : TlsSession :=
  mkSession c (handshake_received s) (body_budget s) (outbound_limit s) (accepted s) (wire s) (released s ++ l).
Definition handshaking (s : TlsSession) : bool := is_handshaking (connection s).
Definition pending_output (s : TlsSession) : bool := wants_write (connection s).

(** A method of the session; a method that fills a buffer. *)
Definition SM := M (TlsSession * BodyBudget) Error.
Definition DM := M (TlsSession * (BodyBuffer * BodyBudget)) Error.
Definition on_buffered {A} (m : M TlsSession Error A) : DM A := λ '(s, x), let '(o, s') := m s in (o, (s', x)).
Definition on_plaintext {A} (m : MB A) : DM A := λ '(s, x), let '(o, x') := m x in (o, (s, x')).
Definition on_connection {A} (m : M TlsSession Error A) : SM A := λ '(s, bud), let '(o, s') := m s in (o, (s', bud)).

(** [CappedWriter::write] and [BoundedWriter::write]: what they take. *)
Definition capped_write (limit : Z) (output bytes : list Z) : Z :=
  Z.min (saturating_sub limit (len output)) (len bytes).
Definition bounded_write (limit : Z) (output bytes : list Z) : option Z :=
  match checked_add usize_max (len output) (len bytes) with
  | Some next => if limit <? next then None else Some (len bytes)
  | None => None
  end.

Fixpoint drain_outbound_loop (fuel : nat) (ciphertext_limit : Z) (output : list Z) : M TlsSession Error (list Z) :=
  match fuel with
  | O => diverge
  | S fuel' =>
      s ← get;
      if pending_output s && (len output <? ciphertext_limit) then
        match outgoing (connection s) with
        | None => fail (output_failed TransportStage.Send)
        | Some chunk =>
            let written := capped_write ciphertext_limit output chunk in
            let taken := take (Z.to_nat written) chunk in
            _ ← put (set_wire (sent (connection s) written) taken s);
            if written =? 0 then mret output else drain_outbound_loop fuel' ciphertext_limit (output ++ taken)
        end
      else mret output
  end.
Definition drain_outbound_up_to (ciphertext_limit : Z) (output : list Z) : M TlsSession Error (list Z) :=
  drain_outbound_loop (S (Z.to_nat ciphertext_limit)) ciphertext_limit output.

Fixpoint take_outbound_loop (fuel : nat) (output : list Z) : M TlsSession Error (list Z) :=
  match fuel with
  | O => diverge
  | S fuel' =>
      s ← get;
      if pending_output s then
        let stage := if handshaking s then TransportStage.Tls else TransportStage.Send in
        match outgoing (connection s) with
        | None => fail (output_failed stage)
        | Some chunk =>
            match bounded_write (outbound_limit s) output chunk with
            | None => fail (output_failed stage)
            | Some written =>
                _ ← put (set_wire (sent (connection s) written) chunk s);
                if written =? 0 then mret output else take_outbound_loop fuel' (output ++ chunk)
            end
        end
      else mret output
  end.
Definition take_outbound : M TlsSession Error (list Z) :=
  s ← get; take_outbound_loop (S (Z.to_nat (outbound_limit s))) [].

(** [drain_plaintext]: the loop ends when rustls has no more. *)
Fixpoint drain_plaintext (fuel : nat) : DM unit :=
  match fuel with
  | O => diverge
  | S fuel' =>
      '(s, (plaintext, _)) ← get;
      let standalone_limit :=
        if outbound_limit s =? STANDALONE_TLS_OUTPUT_LIMIT then Some STANDALONE_TLS_PLAINTEXT_WINDOW else None in
      match reader_read (connection s) TLS_PLAINTEXT_CHUNK with
      | (PlainBytes [], c) => modify (λ '(s, x), (set_connection c s, x))
      | (PlainBytes bytes, c) =>
          _ ← modify (λ '(s, x), (set_released c bytes s, x));
          _ ← match standalone_limit with
              | Some limit =>
                  if Budget.vec_capacity plaintext =? 0 then on_plaintext (Budget.reserve_capacity limit) else mret tt
              | None => mret tt
              end;
          _ ← on_plaintext (Budget.extend bytes (default usize_max standalone_limit));
          drain_plaintext fuel'
      | (PlainBlocks, c) => modify (λ '(s, x), (set_connection c s, x))
      | (PlainError, c) =>
          _ ← modify (λ '(s, x), (set_connection c s, x));
          fail (tls_io_error false "native TLS plaintext read failed")
      end
  end.

Record TlsProgress := mkProgress {
  outbound : list Z; plaintext : BodyBuffer; handshake_complete : bool; peer_closed : bool
}.
Record TlsStreamProgress := mkStreamProgress { stream_outbound : list Z; stream_handshake_complete : bool; stream_peer_closed : bool }.
Record TlsWriteProgress := mkWriteProgress { write_outbound : list Z; consumed_body : Z }.

(** The loop of [receive] over the input that is left. *)
Fixpoint receive_loop (fuel : nat) (encrypted : list Z) (closed : bool) : DM bool :=
  match encrypted with
  | [] => mret closed
  | _ =>
      match fuel with
      | O => diverge
      | S fuel' =>
          '(s, _) ← get;
          let was_handshaking := handshaking s in
          let '(read, c) := read_tls (connection s) encrypted in
          _ ← modify (λ '(s, x), (set_connection c s, x));
          match read with
          | None => fail (tls_io_error was_handshaking "native TLS record input failed")
          | Some consumed =>
              if consumed =? 0 then fail (internal "native TLS made no progress while consuming a reactor event")
              else
                let '(processed, c) := process_new_packets c in
                _ ← modify (λ '(s, x), (set_connection c s, x));
                match processed with
                | inl e =>
                    fail (error_tls (if was_handshaking then TransportStage.Tls else TransportStage.Receive)
                            (classify_rustls_error e) "native TLS packet processing failed")
                | inr has_closed =>
                    _ ← drain_plaintext (S (Z.to_nat (held c)));
                    receive_loop fuel' (drop (Z.to_nat consumed) encrypted) (closed || has_closed)
                end
          end
      end
  end.

(** A local [BodyBuffer], dropped when the method fails. *)
Definition with_plaintext {A} (m : DM A) : SM (A * BodyBuffer) := λ '(s, bud),
  match m (s, (buffer_new (body_budget s), bud)) with
  | (Ok a, (s', (buf, bud'))) => (Ok (a, buf), (s', bud'))
  | (Err e, (s', (buf, bud'))) => (Err e, (s', drop_buffer buf bud'))
  | (Panic, (s', (_, bud'))) => (Panic, (s', bud'))
  | (Diverge, (s', (_, bud'))) => (Diverge, (s', bud'))
  end.

(** [TlsSession::receive]. *)
Definition session_receive (encrypted : list Z) : SM TlsProgress :=
  '(s, _) ← get;
  let started_handshaking := handshaking s in
  _ ← (if started_handshaking then
         match checked_add usize_max (handshake_received s) (len encrypted) with
         | None => fail tls_handshake_flight_limit
         | Some total =>
             _ ← on_connection (modify (set_handshake_received total));
             if TLS_FLIGHT_LIMIT <? total then fail tls_handshake_flight_limit else mret tt
         end
       else mret tt);
  '((closed, outbound), plaintext) ← with_plaintext (A := bool * list Z) (
     closed ← (receive_loop (length encrypted) encrypted false : DM bool);
     outbound ← (if started_handshaking then on_buffered take_outbound else mret [] : DM (list Z));
     (mret (closed, outbound) : DM (bool * list Z)));
  '(s, _) ← get;
  mret (mkProgress outbound plaintext (negb (handshaking s)) closed).

(** ** The session of an HTTP exchange *)

Record PendingPlaintext := mkPlaintext { pending_bytes : list Z; offset : Z }.
Definition remaining {E} (p : PendingPlaintext) : outcome E (list Z) := slice (pending_bytes p) (offset p) (len (pending_bytes p)).
Definition is_empty (p : PendingPlaintext) : bool := offset p =? len (pending_bytes p).

Record NativeTls := mkTls {
  session : option TlsSession; request : option PendingPlaintext; retained_response : PendingPlaintext
}.
Definition set_session (s : option TlsSession) (t : NativeTls) : NativeTls := mkTls s (request t) (retained_response t).
Definition set_request (r : option PendingPlaintext) (t : NativeTls) : NativeTls := mkTls (session t) r (retained_response t).
Definition set_retained (r : PendingPlaintext) (t : NativeTls) : NativeTls := mkTls (session t) (request t) r.

Definition TM := M (NativeTls * BodyBudget) Error.
(** [self.session.as_mut().expect(..)]. *)
Definition on_session {A} (m : SM A) : TM A := λ '(t, bud),
  match session t with
  | Some s => let '(o, (s', bud')) := m (s, bud) in (o, (set_session (Some s') t, bud'))
  | None => (Panic, (t, bud))
  end.
Definition tls_update (f : NativeTls → NativeTls) : TM unit := modify (λ '(t, bud), (f t, bud)).

Definition set_body_budget (budgeted : bool) : TM unit :=
  on_session (on_connection (modify (λ s,
    mkSession (connection s) (handshake_received s) budgeted (outbound_limit s) (accepted s) (wire s) (released s)))).
Definition start : TM (list Z) := on_session (on_connection take_outbound).
Definition receive (encrypted : list Z) : TM TlsProgress := on_session (session_receive encrypted).
Definition tls_is_handshaking (t : NativeTls) : bool := match session t with Some s => handshaking s | None => true end.
Definition handshake_in_worker (t : NativeTls) : bool := match session t with Some _ => false | None => true end.
Definition take_handshake (t : NativeTls) : option TlsSession * NativeTls :=
  if tls_is_handshaking t then (session t, set_session None t) else (None, t).
(** The [debug_assert] panics in a debug build. *)
Definition restore_handshake (s : TlsSession) : TM unit :=
  '(t, _) ← get;
  match session t with Some _ => panic | None => tls_update (set_session (Some s)) end.

Definition retain_stream_progress (progress : TlsProgress) : TM TlsStreamProgress := λ '(t, bud),
  if negb (is_empty (retained_response t)) then
    (Err (internal "TLS streaming plaintext was not drained"), (t, drop_buffer (plaintext progress) bud))
  else if TLS_STREAM_PLAINTEXT_LIMIT <? len (Budget.bytes (plaintext progress)) then
    (Err (internal "native TLS produced more streaming plaintext than its bounded input window"),
     (t, drop_buffer (plaintext progress) bud))
  else
    let '(bytes, bud) := Budget.into_vec (plaintext progress) bud in
    (Ok (mkStreamProgress (outbound progress) (handshake_complete progress) (peer_closed progress)),
     (set_retained (mkPlaintext bytes 0) t, bud)).

Definition receive_streaming (encrypted : list Z) : TM TlsStreamProgress :=
  '(t, _) ← get;
  if negb (is_empty (retained_response t)) then
    fail (internal "native TLS accepted another streaming window before retained plaintext drained")
  else if TLS_STREAM_WIRE_ALLOWANCE <? len encrypted then
    fail (internal "native TLS streaming input exceeded its advertised socket allowance")
  else
    progress ← receive encrypted;
    retain_stream_progress progress.

Definition streaming_read_allowance (t : NativeTls) (response_capacity : Z) : Z :=
  if handshake_in_worker t || negb (is_empty (retained_response t))
     || (negb (tls_is_handshaking t) && (response_capacity =? 0))
  then 0 else TLS_STREAM_WIRE_ALLOWANCE.

Definition retained_plaintext {E} (t : NativeTls) : outcome E (list Z) := remaining (retained_response t).

Definition consume_retained_plaintext (consumed : Z) : TM unit :=
  '(t, _) ← get;
  rest ← lift (remaining (retained_response t));
  if len rest <? consumed then fail (internal "native HTTP consumed beyond retained TLS plaintext")
  else
    let retained := mkPlaintext (pending_bytes (retained_response t)) (offset (retained_response t) + consumed) in
    tls_update (set_retained (if is_empty retained then mkPlaintext [] 0 else retained)).

Definition begin_request (bytes : list Z) : TM unit :=
  '(t, _) ← get;
  if tls_is_handshaking t then fail (internal "native TLS tried to reuse a connection before its handshake completed")
  else
    busy ← (match request t with
            | Some _ => mret true
            | None => match session t with Some s => mret (pending_output s) | None => panic end
            end);
    if (busy : bool) then fail (internal "native TLS tried to begin a request while prior output remained")
    else tls_update (set_request (Some (mkPlaintext bytes 0))).

(** Give rustls the head, the body, or both as one record; [None] is an
    error. The plaintext it takes is recorded. *)
Definition write_record (head body : list Z) : M TlsSession Error (option Z) :=
  s ← get;
  let '(written, c) :=
    match head, body with
    | [], _ => writer_write (connection s) body
    | _, [] => writer_write (connection s) head
    | _, _ => writer_write_vectored (connection s) head body
    end in
  match written with
  | None => _ ← put (set_connection c s); mret None
  | Some n => _ ← put (set_accepted c (take (Z.to_nat n) (head ++ body)) s); mret (Some n)
  end.

Definition drop_sent_request (t : NativeTls) : NativeTls :=
  match request t with Some r => if is_empty r then set_request None t else t | None => t end.

Fixpoint pump_loop (fuel : nat) (body : list Z) (ciphertext_limit : Z) (output : list Z) (consumed_body : Z)
    : TM (list Z * Z) :=
  match fuel with
  | O => diverge
  | S fuel' =>
      '(t, _) ← get;
      if ciphertext_limit <=? len output then mret (output, consumed_body)
      else if match session t with Some s => pending_output s | None => false end then mret (output, consumed_body)
      else
        _ ← tls_update drop_sent_request;
        '(t, _) ← get;
        head ← lift (match request t with Some r => remaining r | None => Ok [] end);
        let head_count := Z.min (len head) TLS_PLAINTEXT_CHUNK in
        body_left ← lift (usub (len body) consumed_body);
        chunk_left ← lift (usub TLS_PLAINTEXT_CHUNK head_count);
        let body_count := Z.min body_left chunk_left in
        if (head_count =? 0) && (body_count =? 0) then mret (output, consumed_body)
        else
          head ← lift (slice head 0 head_count);
          body_chunk ← lift (slice body consumed_body (consumed_body + body_count));
          written ← on_session (on_connection (write_record head body_chunk));
          match written with
          | None => fail (error_tls TransportStage.Send TlsFailure.Io "native TLS request encryption failed")
          | Some written =>
              if written =? 0 then fail (internal "native TLS made no progress while accepting request plaintext")
              else
                _ ← tls_update (λ t, match request t with
                                     | Some r => set_request (Some (mkPlaintext (pending_bytes r) (offset r + Z.min written head_count))) t
                                     | None => t
                                     end);
                output ← on_session (on_connection (drain_outbound_up_to ciphertext_limit output));
                pump_loop fuel' body ciphertext_limit output (consumed_body + saturating_sub written head_count)
          end
  end.

Definition pump_fuel (t : NativeTls) (body : list Z) : nat :=
  S (length body + match request t with Some r => length (pending_bytes r) | None => 0 end).
Definition pump_request_body (body : list Z) (ciphertext_limit : Z) : TM TlsWriteProgress :=
  '(t, _) ← get;
  if tls_is_handshaking t || (ciphertext_limit =? 0) then mret (mkWriteProgress [] 0)
  else
    output ← on_session (on_connection (drain_outbound_up_to ciphertext_limit []));
    '(output, consumed) ← pump_loop (pump_fuel t body) body ciphertext_limit output 0;
    _ ← tls_update (λ t, match session t with
                         | Some s => if pending_output s then t else drop_sent_request t
                         | None => t
                         end);
    mret (mkWriteProgress output consumed).

Definition request_fully_encrypted (t : NativeTls) : bool :=
  match request t, session t with None, Some s => negb (pending_output s) | _, _ => false end.

(** ** The session of a plain TLS connection *)

Record StandaloneTls := mkStandalone { standalone_session : option TlsSession }.
Definition PM := M (StandaloneTls * BodyBudget) Error.
Definition on_standalone {A} (m : SM A) : PM A := λ '(t, bud),
  match standalone_session t with
  | Some s => let '(o, (s', bud')) := m (s, bud) in (o, (mkStandalone (Some s'), bud'))
  | None => (Panic, (t, bud))
  end.

Definition session_promote_control : M TlsSession Error (list Z) :=
  s ← get;
  if handshaking s then mret []
  else
    match writer_write (connection s) [] with
    | (None, c) => _ ← put (set_connection c s); fail (tls_io_error false "native TLS control output failed")
    | (Some _, c) => _ ← put (set_connection c s); take_outbound
    end.
Definition promote_control : PM (list Z) := on_standalone (on_connection session_promote_control).
Definition standalone_start : PM (list Z) := on_standalone (on_connection take_outbound).
Definition standalone_is_handshaking (t : StandaloneTls) : bool :=
  match standalone_session t with Some s => handshaking s | None => true end.
Definition standalone_in_worker (t : StandaloneTls) : bool :=
  match standalone_session t with Some _ => false | None => true end.
Definition standalone_take_handshake (t : StandaloneTls) : option TlsSession * StandaloneTls :=
  if standalone_is_handshaking t then (standalone_session t, mkStandalone None) else (None, t).
Definition standalone_restore_handshake (s : TlsSession) : PM unit :=
  '(t, bud) ← get;
  match standalone_session t with Some _ => panic | None => put (mkStandalone (Some s), bud) end.
Definition standalone_receive (encrypted : list Z) : PM TlsProgress := on_standalone (session_receive encrypted).
Definition drain_wire (limit : Z) : PM (list Z) := on_standalone (on_connection (drain_outbound_up_to limit [])).

Definition session_encrypt (plaintext : list Z) (limit : Z) : M TlsSession Error (Z * list Z) :=
  s ← get;
  if handshaking s then fail (internal "application data before TLS verification")
  else
    output ← drain_outbound_up_to limit [];
    s ← get;
    if negb (bool_decide (output = [])) || pending_output s || (limit <=? len output) then mret (0, output)
    else
      match writer_write (connection s) plaintext with
      | (None, c) => _ ← put (set_connection c s); fail (tls_io_error false "native TLS plaintext encryption failed")
      | (Some count, c) =>
          _ ← put (set_accepted c (take (Z.to_nat count) plaintext) s);
          output ← drain_outbound_up_to limit output;
          s ← get;
          if pending_output s then fail (internal "one TLS application record exceeded the bounded wire window")
          else mret (count, output)
      end.
Definition encrypt (plaintext : list Z) (limit : Z) : PM (Z * list Z) :=
  on_standalone (on_connection (session_encrypt plaintext limit)).
Definition standalone_wants_write (t : StandaloneTls) : bool :=
  match standalone_session t with Some s => pending_output s | None => false end.
Definition send_close_notify : PM (list Z) :=
  on_standalone (on_connection (
    _ ← modify (λ s, set_connection (connection_close_notify (connection s)) s);
    take_outbound)).

(** ** The two configurations *)

Record NativeTlsConfigs := mkConfigs { verified : ClientConfig; unverified : ClientConfig }.

(** [from_verified], given the configuration without verification that
    rustls's builder makes. *)
Definition from_verified (verified unverified : ClientConfig) : NativeTlsConfigs :=
  mkConfigs (set_alpn_protocols [bs "http/1.1"] verified) (set_alpn_protocols [bs "http/1.1"] unverified).

Definition new_session (c : ClientConnection) (outbound_limit : Z) : TlsSession := mkSession c 0 false outbound_limit [] [] [].

Definition standalone_connection (t : NativeTlsConfigs) (name : list Z) : outcome Error StandaloneTls :=
  match server_name name with
  | None => Err (error_new ErrorKind.InvalidRequest "TLS server name cannot be represented as a peer identity")
  | Some name =>
      match client_connection (set_alpn_protocols [] (verified t)) name with
      | inl e => Err (error_tls TransportStage.Tls (classify_rustls_error e) "standalone TLS client setup failed")
      | inr c => Ok (mkStandalone (Some (new_session (set_buffer_limit STANDALONE_TLS_OUTPUT_LIMIT c) STANDALONE_TLS_OUTPUT_LIMIT)))
      end
  end.

Definition connect (t : NativeTlsConfigs) (host : list Z) (policy : TlsVerification) (bytes : list Z) : outcome Error NativeTls :=
  match server_name host with
  | None => Err (error_transport TransportStage.Tls "the HTTPS hostname cannot be represented as a TLS server name")
  | Some name =>
      match client_connection (match policy with Verify => verified t | DangerouslyDisableCertificateVerification => unverified t end) name with
      | inl e => Err (error_tls TransportStage.Tls (classify_rustls_error e) "native TLS client setup failed")
      | inr c => Ok (mkTls (Some (new_session c TLS_FLIGHT_LIMIT)) (Some (mkPlaintext bytes 0)) (mkPlaintext [] 0))
      end
  end.

End tls.
End Tls.
