(* ===== verification/NativeTlsProofs.v ===== *)
(** * TLS sessions: what goes in comes out

    The methods of a session one by one, then whole exchanges and plain
    connections. [RustlsLaws] is what the code relies on: rustls takes no more
    than it is offered, gives no more plaintext than the wire bytes it got
    (TLS does not compress), and once it says that there is no more to read it
    holds at most one record. *)

From stdpp Require Import base list strings.
From Stdlib Require Import ZArith Lia.
From S2P Require Import Prelude Errors BodyBudget BodyBudgetProofs Request NativeTls.

Import Budget (BodyBudget, BodyBuffer, buffer_new, drop_buffer).
Import Tls.

(** What a connection becomes. *)
Inductive becomes `{Rustls} (c : ClientConnection) : ClientConnection → Prop :=
| becomes_sent n : becomes c (sent c n)
| becomes_read_tls l : becomes c (read_tls c l).2
| becomes_processed : becomes c (process_new_packets c).2
| becomes_read n : becomes c (reader_read c n).2
| becomes_written l : becomes c (writer_write c l).2
| becomes_written_vectored l k : becomes c (writer_write_vectored c l k).2
| becomes_closed : becomes c (connection_close_notify c).

Class RustlsLaws `{Rustls} := {
  handshake_stays_done : ∀ c c', becomes c c' → is_handshaking c = false → is_handshaking c' = false;
  held_nonneg : ∀ c, 0 ≤ held c;
  client_connection_held : ∀ config name c, client_connection config name = inr c → held c ≤ TLS_PLAINTEXT_CHUNK;
  set_buffer_limit_held : ∀ n c, held (set_buffer_limit n c) ≤ held c;
  sent_held : ∀ c n, held (sent c n) ≤ held c;
  read_tls_held : ∀ c l n c', read_tls c l = (Some n, c') → 0 ≤ n ≤ len l ∧ held c' ≤ held c + n;
  process_held : ∀ c closed c', process_new_packets c = (inr closed, c') → held c' ≤ held c;
  reader_read_held : ∀ c n l c', reader_read c n = (PlainBytes l, c') → 0 < n → len l ≤ n ∧ len l + held c' ≤ held c;
  reader_read_drained : ∀ c n c', 0 < n → reader_read c n = (PlainBytes [], c') ∨ reader_read c n = (PlainBlocks, c') →
    held c' ≤ held c ∧ held c' ≤ TLS_PLAINTEXT_CHUNK;
  writer_write_held : ∀ c l n c', writer_write c l = (Some n, c') → 0 ≤ n ≤ len l ∧ held c' ≤ held c;
  writer_write_vectored_held : ∀ c l k n c', writer_write_vectored c l k = (Some n, c') → 0 ≤ n ≤ len l + len k ∧ held c' ≤ held c;
  close_notify_held : ∀ c, held (connection_close_notify c) ≤ held c
}.

Section proofs.
Context {tgt : Target} {alloc : VecAlloc} {rustls : Rustls} {laws : RustlsLaws}.
Implicit Types (s : TlsSession) (t : NativeTls).

(** ** Sessions *)

(** Only the connection and the histories move. *)
Record like s s' : Prop := {
  lk_budget : body_budget s' = body_budget s; lk_limit : outbound_limit s' = outbound_limit s;
  lk_held : held (connection s') ≤ Z.max (held (connection s)) TLS_PLAINTEXT_CHUNK;
  lk_done : handshaking s = false → handshaking s' = false
}.
Lemma like_refl s : like s s.
Proof. split; try done. lia. Qed.
Lemma like_trans s1 s2 s3 : like s1 s2 → like s2 s3 → like s1 s3.
Proof. intros [? ? ? ?] [? ? ? ?]. split; [congruence|congruence|lia|auto]. Qed.

(** Bytes [more] were taken off the connection to be sent. *)
Record gave s (more : list Z) s' : Prop := {
  gv_like : like s s'; gv_wire : wire s' = wire s ++ more;
  gv_accepted : accepted s' = accepted s; gv_released : released s' = released s;
  gv_held : held (connection s') ≤ held (connection s)
}.
Lemma gave_nil s : gave s [] s.
Proof. split; [apply like_refl|by rewrite app_nil_r|done|done|lia]. Qed.
Lemma gave_trans s1 l1 s2 l2 s3 : gave s1 l1 s2 → gave s2 l2 s3 → gave s1 (l1 ++ l2) s3.
Proof. intros [? Hw ? ? ?] [? Hw' ? ? ?]. split; [by eapply like_trans|by rewrite Hw', Hw, app_assoc|congruence|congruence|lia]. Qed.
Lemma gave_sent s n l : gave s l (set_wire (sent (connection s) n) l s).
Proof.
  pose proof (sent_held (connection s) n). split; [split|..]; try done; [cbn; lia|]. by apply handshake_stays_done, becomes_sent.
Qed.

Lemma take_len {A} (n : Z) (l : list A) : 0 ≤ n ≤ len l → len (take (Z.to_nat n) l) = n.
Proof. intros Hn. unfold len in *. rewrite length_take. lia. Qed.

Lemma drain_outbound_loop_spec limit fuel : ∀ output s,
  (Z.to_nat (limit - len output) < fuel)%nat →
  wp (drain_outbound_loop fuel limit output)
    (λ out s', ∃ more, out = output ++ more ∧ gave s more s' ∧ len out ≤ Z.max limit (len output)) (λ _ _, True) s.
Proof.
  induction fuel as [|fuel IH]; intros output s Hf; [lia|]. cbn [drain_outbound_loop]. wp_go.
  assert (Hstop : ∃ more, output = output ++ more ∧ gave s more s ∧ len output ≤ Z.max limit (len output)).
  { exists []. split_and!; [by rewrite app_nil_r|apply gave_nil|lia]. }
  destruct (pending_output s); cbn [andb]; [|by apply wp_ret]. zcase; [|by apply wp_ret].
  destruct (outgoing (connection s)) as [chunk|]; [|done]. wp_go.
  set (n := capped_write limit output chunk). pose proof (gave_sent s n (take (Z.to_nat n) chunk)) as Hg.
  assert (Hn : 0 ≤ n ≤ len chunk ∧ n ≤ limit - len output).
  { unfold n, capped_write, saturating_sub. pose proof (len_nonneg chunk). lia. }
  pose proof (take_len n chunk (proj1 Hn)) as Hl. destruct (Z.eqb_spec n 0) as [Hz|Hz].
  - apply wp_ret. exists []. rewrite app_nil_r. assert (Ht : take (Z.to_nat n) chunk = []) by (apply len_zero; lia).
    rewrite Ht in *. split_and!; [done|exact Hg|lia].
  - eapply wp_mono; [apply IH; rewrite len_app; lia| |done]. cbn beta. intros out s' (more & -> & Hm & Hlen).
    exists (take (Z.to_nat n) chunk ++ more). split_and!; [by rewrite app_assoc|by eapply gave_trans|]. rewrite !len_app in *. lia.
Qed.
Lemma drain_outbound_spec limit output s :
  wp (drain_outbound_up_to limit output)
    (λ out s', ∃ more, out = output ++ more ∧ gave s more s' ∧ len out ≤ Z.max limit (len output)) (λ _ _, True) s.
Proof. apply drain_outbound_loop_spec. pose proof (len_nonneg output). lia. Qed.

Lemma take_outbound_loop_spec fuel : ∀ output s,
  (Z.to_nat (outbound_limit s - len output) < fuel)%nat → len output ≤ outbound_limit s →
  wp (take_outbound_loop fuel output)
    (λ out s', ∃ more, out = output ++ more ∧ gave s more s' ∧ len out ≤ outbound_limit s) (λ _ _, True) s.
Proof.
  induction fuel as [|fuel IH]; intros output s Hf Hl; [lia|]. cbn [take_outbound_loop]. wp_go.
  assert (Hstop : ∃ more, output = output ++ more ∧ gave s more s ∧ len output ≤ outbound_limit s).
  { exists []. split_and!; [by rewrite app_nil_r|apply gave_nil|done]. }
  destruct (pending_output s); [|by apply wp_ret].
  destruct (outgoing (connection s)) as [chunk|]; [|done]. unfold bounded_write, checked_add. zcase; [|done]. zcase; [done|]. wp_go.
  pose proof (gave_sent s (len chunk) chunk) as Hg. pose proof (len_nonneg chunk). destruct (Z.eqb_spec (len chunk) 0) as [e|Hne].
  - apply wp_ret. apply len_zero in e as ->. exists []. by rewrite app_nil_r.
  - eapply wp_mono; [apply IH; rewrite ?len_app; cbn [set_wire outbound_limit]; lia| |done]. cbn beta. intros out s' (more & -> & Hm & Hlen).
    exists (chunk ++ more). split_and!; [by rewrite app_assoc|exact (gave_trans _ _ _ _ _ Hg Hm)|exact Hlen].
Qed.
Lemma take_outbound_spec s :
  0 ≤ outbound_limit s →
  wp take_outbound (λ out s', gave s out s' ∧ len out ≤ outbound_limit s) (λ _ _, True) s.
Proof.
  intros Hl. unfold take_outbound. wp_go. eapply wp_mono; [apply take_outbound_loop_spec; rewrite ?len_nil; lia| |done].
  cbn beta. intros out s' (more & -> & Hg & Hlen). done.
Qed.
(** ** Decrypted bytes *)

(** Plaintext [more] was read off the connection, by taking in at most
    [input] bytes. *)
Record read_off s (input : Z) (more : list Z) s' : Prop := {
  ro_like : like s s'; ro_wire : wire s' = wire s; ro_accepted : accepted s' = accepted s;
  ro_released : released s' = released s ++ more;
  ro_held : len more + held (connection s') ≤ held (connection s) + input
}.
Lemma read_off_trans s1 i1 l1 s2 i2 l2 s3 : read_off s1 i1 l1 s2 → read_off s2 i2 l2 s3 → read_off s1 (i1 + i2) (l1 ++ l2) s3.
Proof.
  intros [? ? ? Hr ?] [? ? ? Hr' ?]. split; [by eapply like_trans|congruence|congruence|by rewrite Hr', Hr, app_assoc|rewrite len_app; lia].
Qed.
Lemma becomes_done c c' : becomes c c' → is_handshaking c = false → is_handshaking c' = false.
Proof. apply handshake_stays_done. Qed.
Lemma read_off_connection s n x c i : reader_read (connection s) n = (x, c) → 0 ≤ i → held c ≤ held (connection s) + i →
  held c ≤ Z.max (held (connection s)) TLS_PLAINTEXT_CHUNK → read_off s i [] (set_connection c s).
Proof.
  intros Hr Hi Hh Hm. split; [split|..]; try done; [|by cbn; rewrite app_nil_r]. apply becomes_done.
  by rewrite <-(f_equal snd Hr : _ = c); apply becomes_read.
Qed.

Lemma extend_fits others more ceiling x :
  inv others x → len (Budget.bytes x.1) + len more ≤ isize_max →
  wp (Budget.extend more ceiling) (λ _ x', inv others x' ∧ Budget.bytes x'.1 = Budget.bytes x.1 ++ more ∧ Budget.budgeted x'.1 = Budget.budgeted x.1) (unchanged x) x.
Proof.
  intros Hi Hfit. destruct (Budget.budgeted x.1) eqn:Hb.
  - eapply wp_mono; [apply (extend_spec others); [done|congruence]| |done]. naive_solver.
  - destruct x as [buf bud]. cbn [fst] in *. unfold Budget.extend. wp_go. apply owp_ok_or; [|done]. intros n _. rewrite Hb. cbn [negb].
    eapply wp_mono; [apply (vec_extend_spec others); [done|cbn; by rewrite Hb]| |done]. naive_solver.
Qed.
Lemma on_plaintext_wp {A} (m : Budget.MB A) Q R s x :
  wp m (λ a x', Q a (s, x')) (λ e x', R e (s, x')) x → wp (on_plaintext m) Q R (s, x).
Proof. unfold wpx, on_plaintext. by destruct (m x) as [[] ?]. Qed.

(** What is left of the budget's charges when a method fails. *)
Definition kept_inv others (_ : Error) (x : TlsSession * (BodyBuffer * BodyBudget)) : Prop := inv others x.2.

Lemma drain_plaintext_spec others fuel : ∀ s x,
  inv others x → (Z.to_nat (held (connection s)) < fuel)%nat →
  len (Budget.bytes x.1) + held (connection s) ≤ isize_max →
  wp (drain_plaintext fuel)
    (λ _ '(s', x'), ∃ more, read_off s 0 more s' ∧ held (connection s') ≤ TLS_PLAINTEXT_CHUNK ∧
       inv others x' ∧ Budget.bytes x'.1 = Budget.bytes x.1 ++ more ∧ Budget.budgeted x'.1 = Budget.budgeted x.1) (kept_inv others) (s, x).
Proof.
  induction fuel as [|fuel IH]; intros s [buf bud] Hi Hf Hfit; [lia|]. cbn [drain_plaintext]. wp_go.
  pose proof (held_nonneg (connection s)) as Hh.
  destruct (reader_read (connection s) TLS_PLAINTEXT_CHUNK) as [[l| |] c] eqn:Hr; [destruct l as [|b l]| |].
  - destruct (reader_read_drained _ TLS_PLAINTEXT_CHUNK _ eq_refl (or_introl Hr)) as [H1 H2]. wp_go. exists []. rewrite app_nil_r.
    split_and!; [apply (read_off_connection _ _ _ _ _ Hr); lia|done..].
  - destruct (reader_read_held _ _ _ _ Hr) as [Hl Hc]; [done|]. set (bytes := b :: l) in *. pose proof (held_nonneg c) as Hh'.
    assert (Hro : read_off s 0 bytes (set_released c bytes s)).
    { split; cbn [set_released wire accepted released connection]; try done; [|lia]. split; cbn; try done; [pose proof (len_nonneg bytes); lia|]. apply becomes_done. by rewrite <-(f_equal snd Hr : _ = c); apply becomes_read. }
    assert (Hb : 0 < len bytes) by (unfold bytes; rewrite len_cons; pose proof (len_nonneg l); lia). cbn [fst] in *. wp_go.
    eapply (wp_mono _ (λ _ x, x.1 = set_released c bytes s ∧ inv others x.2 ∧ Budget.bytes x.2.1 = Budget.bytes buf ∧ Budget.budgeted x.2.1 = Budget.budgeted buf) _ (kept_inv others)).
    + case_match; [|by apply wp_ret]. zcase; [|by apply wp_ret]. apply on_plaintext_wp.
      eapply wp_mono; [apply (reserve_capacity_spec others); [done|case_match; by simplify_eq]| |].
      * cbn beta. naive_solver.
      * intros err x' ->. exact Hi.
    + intros _ [s1 [buf1 bud1]] (He & Hi1 & Hb1 & Hg1). cbn [fst snd] in *. subst s1. wp_go. apply on_plaintext_wp.
      eapply wp_mono; [apply (extend_fits others); [done|cbn [fst]; rewrite Hb1; lia]| |].
      * cbn beta. intros _ x2 (Hi2 & Hb2 & Hg2). eapply wp_mono; [apply IH; [done|cbn [set_released connection]; lia|]| |done].
        -- rewrite Hb2. cbn [fst]. rewrite Hb1, len_app. cbn [set_released connection]. lia.
        -- cbn beta. intros _ [s3 x3] (more & Hro3 & Hh3 & Hi3 & Hb3 & Hg3). exists (bytes ++ more).
           split_and!; [exact (read_off_trans _ 0 _ _ 0 _ _ Hro Hro3)|done|done| |].
           ++ rewrite Hb3, Hb2. cbn [fst]. by rewrite Hb1, app_assoc.
           ++ by rewrite Hg3, Hg2.
      * intros err x' ->. exact Hi1.
    + done.
  - destruct (reader_read_drained _ TLS_PLAINTEXT_CHUNK _ eq_refl (or_intror Hr)) as [H1 H2]. wp_go. exists []. rewrite app_nil_r.
    split_and!; [apply (read_off_connection _ _ _ _ _ Hr); lia|done..].
  - wp_go. exact Hi.
Qed.

Lemma receive_loop_spec others fuel : ∀ encrypted closed s x,
  (length encrypted ≤ fuel)%nat → inv others x → held (connection s) ≤ TLS_PLAINTEXT_CHUNK →
  len (Budget.bytes x.1) + held (connection s) + len encrypted ≤ isize_max →
  wp (receive_loop fuel encrypted closed)
    (λ _ '(s', x'), ∃ more, read_off s (len encrypted) more s' ∧ held (connection s') ≤ TLS_PLAINTEXT_CHUNK ∧
       inv others x' ∧ Budget.bytes x'.1 = Budget.bytes x.1 ++ more ∧ Budget.budgeted x'.1 = Budget.budgeted x.1) (kept_inv others) (s, x).
Proof.
  induction fuel as [|fuel IH]; intros encrypted closed s x Hf Hi Hh Hfit.
  all: destruct encrypted as [|byte rest]; [|try (cbn in Hf; lia)].
  1,2: apply wp_ret; exists []; rewrite app_nil_r; split_and!; try done; split; try done;
       [apply like_refl|by rewrite app_nil_r|change (len (@nil Z)) with 0; lia].
  cbn [receive_loop]. set (encrypted := byte :: rest) in *. wp_go.
  destruct (read_tls (connection s) encrypted) as [[n|] c0] eqn:Hread; wp_go; [|exact Hi].
  destruct (read_tls_held _ _ _ _ Hread) as [Hn H0]. zcase; [by wp_go|].
  destruct (process_new_packets c0) as [[e|has_closed] c] eqn:Hproc; wp_go; [exact Hi|].
  pose proof (process_held _ _ _ Hproc) as H1. set (s1 := set_connection c (set_connection c0 s)).
  assert (Hc : connection s1 = c) by done. pose proof (held_nonneg (connection s)).
  eapply wp_mono; [apply (drain_plaintext_spec others); [exact Hi|rewrite Hc; lia|rewrite Hc; lia]| |done].
  cbn beta. intros _ [s2 x2] (more & Hro & Hh2 & Hi2 & Hb2 & Hg2).
  assert (Hro' : read_off s n more s2).
  { destruct Hro as [[Hlb Hll _ Hdone] Hw Ha Hr Hd]. rewrite Hc in Hd. split; try done; [|lia]. split; [done|done|lia|].
    intros Hx. apply Hdone. unfold handshaking. rewrite Hc, <-(f_equal snd Hproc : _ = c). eapply becomes_done; [apply becomes_processed|].
    rewrite <-(f_equal snd Hread : _ = c0). by eapply becomes_done; [apply becomes_read_tls|]. }
  assert (Hd : len (drop (Z.to_nat n) encrypted) = len encrypted - n) by (unfold len in *; rewrite length_drop; lia).
  pose proof (ro_held _ _ _ _ Hro') as Hheld.
  eapply wp_mono; [apply IH; [rewrite length_drop; cbn in Hf |- *; lia|done|done|rewrite Hb2, len_app, Hd; lia]| |done].
  cbn beta. intros _ [s3 x3] (more' & Hro3 & Hh3 & Hi3 & Hb3 & Hg3). exists (more ++ more'). rewrite Hd in Hro3.
  split_and!; [|done|done|by rewrite Hb3, Hb2, app_assoc|by rewrite Hg3, Hg2].
  replace (len encrypted) with (n + (len encrypted - n)) by lia. by eapply read_off_trans.
Qed.

(** The budget without the session's buffer. *)
Definition charged_only others (bud : BodyBudget) : Prop := 0 ≤ others ∧ wf_budget bud ∧ Budget.used bud = others.
Lemma inv_new others budgeted bud : charged_only others bud → inv others (buffer_new budgeted, bud).
Proof.
  intros (Ho & Hb & Hu). unfold inv, charge. split_and!; try done; [|cbn in *; lia]. unfold wf_buffer, len. split_and!; cbn; try lia. by destruct budgeted.
Qed.
Lemma inv_dropped others x : inv others x → charged_only others (drop_buffer x.1 x.2).
Proof. intros Hi. destruct (drop_buffer_spec _ _ Hi). split_and!; [apply Hi|done|done]. Qed.
Lemma with_plaintext_wp {A} others (m : DM A) Q s bud :
  wp m (λ a x, Q (a, x.2.1) (x.1, x.2.2)) (kept_inv others) (s, (buffer_new (body_budget s), bud)) →
  wp (with_plaintext m) Q (λ _ x, charged_only others x.2) (s, bud).
Proof.
  unfold wpx, with_plaintext. destruct (m _) as [[a|e| |] [s' [buf bud']]]; [done| |done|done]. intros Hi. apply (inv_dropped _ _ Hi).
Qed.
Lemma on_connection_wp {A} (m : M TlsSession Error A) Q R s (bud : BodyBudget) :
  wp m (λ a s', Q a (s', bud)) (λ e s', R e (s', bud)) s → wp (on_connection m) Q R (s, bud).
Proof. unfold wpx, on_connection. by destruct (m s) as [[] ?]. Qed.
Lemma on_buffered_wp {A} (m : M TlsSession Error A) Q R s (x : BodyBuffer * BodyBudget) :
  wp m (λ a s', Q a (s', x)) (λ e s', R e (s', x)) s → wp (on_buffered m) Q R (s, x).
Proof. unfold wpx, on_buffered. by destruct (m s) as [[] ?]. Qed.

(** What one event does: [more] is the plaintext it released. *)
Record received others s (input : Z) (p : TlsProgress) s' (bud : BodyBudget) : Prop := {
  rc_like : like s s'; rc_wire : wire s' = wire s ++ outbound p; rc_accepted : accepted s' = accepted s;
  rc_released : released s' = released s ++ Budget.bytes (plaintext p);
  rc_outbound : len (outbound p) ≤ outbound_limit s; rc_held : held (connection s') ≤ TLS_PLAINTEXT_CHUNK;
  rc_plaintext : len (Budget.bytes (plaintext p)) ≤ TLS_PLAINTEXT_CHUNK + input;
  rc_inv : inv others (plaintext p, bud); rc_charged : Budget.budgeted (plaintext p) = body_budget s
}.
Lemma session_receive_spec others s bud encrypted :
  charged_only others bud → 0 ≤ outbound_limit s → held (connection s) ≤ TLS_PLAINTEXT_CHUNK →
  TLS_PLAINTEXT_CHUNK + len encrypted ≤ isize_max →
  wp (session_receive encrypted) (λ p x, received others s (len encrypted) p x.1 x.2) (λ _ x, charged_only others x.2) (s, bud).
Proof.
  intros Hb Hl Hh Hfit. unfold session_receive. wp_go.
  eapply (wp_mono _ (λ _ x, ∃ n, x = (set_handshake_received n s, bud)) _ (λ _ x, charged_only others x.2)); [| |done].
  { case_match; [|apply wp_ret; exists (handshake_received s); by destruct s]. unfold checked_add. zcase; [|done]. wp_go. apply on_connection_wp. wp_go.
    zcase; [exact Hb|]. apply wp_ret. by eexists. }
  intros _ x1 [n ->]. cbn beta. set (s1 := set_handshake_received n s). wp_go. apply with_plaintext_wp. wp_go.
  eapply wp_mono; [apply (receive_loop_spec others); [done|by apply inv_new|done|change (len (Budget.bytes (buffer_new (body_budget s1), bud).1)) with 0; change (connection s1) with (connection s); lia]| |done].
  cbn beta. intros closed [s2 [buf2 bud2]] (more & [Hk Hw Ha Hr Hd] & Hh2 & Hi2 & Hb2 & Hg2). cbn in Hb2, Hg2. wp_go.
  assert (Hlim : outbound_limit s2 = outbound_limit s) by apply Hk. pose proof (held_nonneg (connection s2)).
  change (connection s1) with (connection s) in Hd.
  eapply (wp_mono _ (λ out x, x.2 = (buf2, bud2) ∧ gave s2 out x.1 ∧ len out ≤ outbound_limit s) _ (kept_inv others)); [| |done].
  { case_match; [|apply wp_ret; split_and!; [done|apply gave_nil|change (len (@nil Z)) with 0; lia]].
    apply on_buffered_wp. eapply wp_mono; [apply take_outbound_spec; lia| |]; [|done]. cbn beta. intros out s3 [? ?]. rewrite Hlim in *. done. }
  intros out [s3 x3] (He & Hg & Hlen). cbn [fst snd] in *. subst x3. wp_go.
  split; cbn [outbound plaintext fst snd]; rewrite ?Hb2.
  - eapply like_trans; [|apply Hg]. destruct Hk as [? ? ? ?]. by split.
  - by rewrite (gv_wire _ _ _ Hg), Hw.
  - by rewrite (gv_accepted _ _ _ Hg), Ha.
  - by rewrite (gv_released _ _ _ Hg), Hr.
  - done.
  - pose proof (gv_held _ _ _ Hg). lia.
  - lia.
  - done.
  - exact Hg2.
Qed.

(** ** Requests *)

Lemma on_session_wp {A} (m : SM A) Q R t s bud :
  session t = Some s →
  wp m (λ a x, Q a (set_session (Some x.1) t, x.2)) (λ e x, R e (set_session (Some x.1) t, x.2)) (s, bud) →
  wp (on_session m) Q R (t, bud).
Proof. intros Hs. unfold wpx, on_session. rewrite Hs. by destruct (m (s, bud)) as [[] [? ?]]. Qed.

Definition plaintext_ok (p : PendingPlaintext) : Prop := 0 ≤ offset p ≤ len (pending_bytes p).
Definition left_of (p : PendingPlaintext) : list Z := drop (Z.to_nat (offset p)) (pending_bytes p).
Definition request_ok t : Prop := ∀ r, request t = Some r → plaintext_ok r.
(** The bytes of the request that rustls has not taken. *)
Definition queued t : list Z := match request t with Some r => left_of r | None => [] end.

Lemma slice_tail {E} (l : list Z) a : 0 ≤ a ≤ len l → slice (E := E) l a (len l) = Ok (drop (Z.to_nat a) l).
Proof.
  intros Ha. unfold slice, subrange. rewrite !(proj2 (Z.leb_le _ _)) by lia. cbn. f_equal. apply take_ge. unfold len in *. rewrite length_drop. lia.
Qed.
Lemma slice_part {E} (l : list Z) a n : 0 ≤ a → 0 ≤ n → a + n ≤ len l →
  slice (E := E) l a (a + n) = Ok (take (Z.to_nat n) (drop (Z.to_nat a) l)).
Proof. intros Ha Hn Hl. unfold slice, subrange. rewrite !(proj2 (Z.leb_le _ _)) by lia. cbn. by replace (a + n - a) with n by lia. Qed.
Lemma remaining_ok {E} p : plaintext_ok p → remaining (E := E) p = Ok (left_of p).
Proof. apply slice_tail. Qed.
Lemma left_of_len p : plaintext_ok p → len (left_of p) = len (pending_bytes p) - offset p.
Proof. unfold plaintext_ok, left_of, len. intros ?. rewrite length_drop. lia. Qed.
Lemma left_of_nil p : plaintext_ok p → is_empty p = true ↔ left_of p = [].
Proof.
  intros Hp. pose proof (left_of_len p Hp) as Hl. unfold is_empty. rewrite Z.eqb_eq. split; intros He; [apply len_zero; lia|].
  rewrite He, len_nil in Hl. lia.
Qed.
Lemma left_of_advance p n : plaintext_ok p → 0 ≤ n ≤ len (left_of p) →
  plaintext_ok (mkPlaintext (pending_bytes p) (offset p + n)) ∧
  left_of (mkPlaintext (pending_bytes p) (offset p + n)) = drop (Z.to_nat n) (left_of p).
Proof.
  intros Hp Hn. rewrite left_of_len in Hn by done. unfold plaintext_ok, left_of in *. cbn. rewrite drop_drop. split; [lia|]. f_equal. lia.
Qed.

(** rustls took [plain] and gave [more] to be sent. *)
Record fed s (plain more : list Z) s' : Prop := {
  fd_like : like s s'; fd_wire : wire s' = wire s ++ more; fd_accepted : accepted s' = accepted s ++ plain;
  fd_released : released s' = released s; fd_held : held (connection s') ≤ held (connection s)
}.
Lemma fed_trans s1 p1 m1 s2 p2 m2 s3 : fed s1 p1 m1 s2 → fed s2 p2 m2 s3 → fed s1 (p1 ++ p2) (m1 ++ m2) s3.
Proof.
  intros [? Hw Ha ? ?] [? Hw' Ha' ? ?]. split; [by eapply like_trans|by rewrite Hw', Hw, app_assoc|by rewrite Ha', Ha, app_assoc|congruence|lia].
Qed.
Lemma fed_gave s more s' : gave s more s' → fed s [] more s'.
Proof. intros [? ? ? ? ?]. split; try done. by rewrite app_nil_r. Qed.
Lemma fed_refl s : fed s [] [] s.
Proof. apply fed_gave, gave_nil. Qed.

Lemma write_record_spec s head body :
  wp (write_record head body)
    (λ w s', match w with Some n => 0 ≤ n ≤ len head + len body ∧ fed s (take (Z.to_nat n) (head ++ body)) [] s' | None => True end)
    (λ _ _, True) s.
Proof.
  unfold write_record. wp_go. destruct (match head, body with [], _ => _ | _, _ => _ end) as [[n|] c] eqn:Hw; wp_go; [|done].
  assert (0 ≤ n ≤ len head + len body ∧ held c ≤ held (connection s)) as [Hn Hh].
  { destruct head as [|h head]; [|destruct body as [|d body]].
    - destruct (writer_write_held _ _ _ _ Hw) as [? ?]. split; [unfold len in *; cbn in *; lia|done].
    - destruct (writer_write_held _ _ _ _ Hw) as [? ?]. split; [unfold len in *; cbn in *; lia|done].
    - exact (writer_write_vectored_held _ _ _ _ _ Hw). }
  split; [done|]. split; cbn; try done; [|by rewrite app_nil_r]. split; try done; [cbn; lia|]. apply becomes_done. cbn.
  rewrite <-(f_equal snd Hw : _ = c). destruct head; [|destruct body]; constructor.
Qed.

(** Pumping: [plain] goes from the head of what is to be sent. *)
Record pumping t s (body : list Z) (consumed : Z) (plain more : list Z) t' s' (consumed' : Z) : Prop := {
  pm_fed : fed s plain more s'; pm_session : session t' = Some s'; pm_retained : retained_response t' = retained_response t;
  pm_request : request_ok t'; pm_consumed : consumed ≤ consumed' ≤ len body;
  pm_plain : queued t ++ drop (Z.to_nat consumed) body = plain ++ queued t' ++ drop (Z.to_nat consumed') body
}.
Lemma pumping_trans t1 s1 body c1 p1 m1 t2 s2 c2 p2 m2 t3 s3 c3 :
  pumping t1 s1 body c1 p1 m1 t2 s2 c2 → pumping t2 s2 body c2 p2 m2 t3 s3 c3 → pumping t1 s1 body c1 (p1 ++ p2) (m1 ++ m2) t3 s3 c3.
Proof.
  intros [? ? ? ? ? He] [? ? ? ? ? He']. split; try done; [by eapply fed_trans|congruence|lia|]. by rewrite He, He', app_assoc.
Qed.
Lemma pumping_refl t s body c : session t = Some s → request_ok t → c ≤ len body → pumping t s body c [] [] t s c.
Proof. intros. split; try done. apply fed_refl. Qed.

Lemma drop_sent_spec t : request_ok t →
  request_ok (drop_sent_request t) ∧ queued (drop_sent_request t) = queued t ∧
  session (drop_sent_request t) = session t ∧ retained_response (drop_sent_request t) = retained_response t ∧
  match request (drop_sent_request t) with Some r => left_of r ≠ [] | None => True end.
Proof.
  intros Hr. unfold drop_sent_request, queued. destruct (request t) as [r|] eqn:He.
  - specialize (Hr r He). destruct (is_empty r) eqn:Hem.
    + split_and!; try done. symmetry. by apply left_of_nil.
    + rewrite He. split_and!; try done; [intros r' Hx; congruence|]. intros Hn. apply left_of_nil in Hn; [congruence|done].
  - rewrite He. by split_and!.
Qed.

(** A record takes its bytes off the front of what is to be sent. *)
Lemma record_front {A} (a b n : Z) (l k : list A) :
  0 ≤ a ≤ len l → 0 ≤ b ≤ len k → (a < len l → b = 0) → 0 ≤ n ≤ a + b →
  l ++ k = take (Z.to_nat n) (take (Z.to_nat a) l ++ take (Z.to_nat b) k) ++
           drop (Z.to_nat (Z.min n a)) l ++ drop (Z.to_nat (saturating_sub n a)) k.
Proof.
  unfold len, saturating_sub. intros Ha Hb Hfull Hn. destruct (decide (n ≤ a)) as [Hle|Hgt].
  - rewrite take_app_le by (rewrite length_take; lia). rewrite take_take, Nat.min_l, Z.min_l, Z.max_r by lia. cbn.
    by rewrite app_assoc, take_drop.
  - assert (a = Z.of_nat (length l)) as -> by lia. rewrite Z.min_r, Z.max_l, !Nat2Z.id by lia.
    rewrite (take_ge l), (drop_ge l) by lia. cbn. rewrite take_app_ge by lia. rewrite take_take, Nat.min_l by lia.
    rewrite <-app_assoc. replace (Z.to_nat n - length l)%nat with (Z.to_nat (n - Z.of_nat (length l))) by lia. by rewrite take_drop.
Qed.

Lemma pump_loop_spec body limit fuel : ∀ output consumed t s (bud : BodyBudget),
  session t = Some s → request_ok t → 0 ≤ consumed ≤ len body →
  (length (queued t) + Z.to_nat (len body - consumed) < fuel)%nat →
  wp (pump_loop fuel body limit output consumed)
    (λ '(out, consumed') '(t', bud'), ∃ plain more s', pumping t s body consumed plain more t' s' consumed' ∧
       out = output ++ more ∧ len out ≤ Z.max limit (len output) ∧ bud' = bud)
    (λ _ '(_, bud'), bud' = bud) (t, bud).
Proof.
  induction fuel as [|fuel IH]; intros output consumed t s bud Hs Hr Hc Hf; [lia|]. cbn [pump_loop]. unfold tls_update. wp_go.
  assert (Hstop : ∃ plain more s', pumping t s body consumed plain more t s' consumed ∧
    output = output ++ more ∧ len output ≤ Z.max limit (len output) ∧ bud = bud).
  { exists [], [], s. split_and!; [by apply pumping_refl; [| |lia]|by rewrite app_nil_r|lia|done]. }
  zcase; [by apply wp_ret|]. rewrite Hs. destruct (pending_output s); [by apply wp_ret|]. wp_go.
  destruct (drop_sent_spec t Hr) as (Hr1 & Hq1 & Hs1 & Hret1 & Hne). rewrite Hs in Hs1. wp_go. set (t1 := drop_sent_request t) in *.
  eapply (owp_mono _ (λ head, head = queued t1) _ (λ _, bud = bud)); [|intros head ->|done].
  { unfold queued. destruct (request t1) as [r|] eqn:He; [|done]. by rewrite remaining_ok by (by apply Hr1). }
  wp_go. rewrite Hq1. set (hc := Z.min (len (queued t)) TLS_PLAINTEXT_CHUNK).
  pose proof (len_nonneg (queued t)). assert (Hhc : 0 ≤ hc ≤ len (queued t) ∧ hc ≤ TLS_PLAINTEXT_CHUNK) by (unfold hc, TLS_PLAINTEXT_CHUNK; lia).
  unfold usub. rewrite !(proj2 (Z.leb_le _ _)) by lia. wp_go. set (bc := Z.min (len body - consumed) (TLS_PLAINTEXT_CHUNK - hc)).
  assert (Hfull : hc < len (queued t) → bc = 0) by (unfold bc, hc in *; lia).
  destruct ((hc =? 0) && (bc =? 0)) eqn:Hz.
  { apply wp_ret. exists [], [], s. split_and!; [|by rewrite app_nil_r|lia|done].
    split; try done; [apply fed_refl|lia|]. by rewrite Hq1. }
  assert (Hbc : 0 ≤ bc ≤ len body - consumed) by (unfold bc; lia). clear Hz. wp_go.
  pose proof (slice_part (E := Error) (queued t) 0 hc ltac:(lia) ltac:(lia) ltac:(lia)) as Hsl. rewrite Z.add_0_l in Hsl. rewrite Hsl. wp_go.
  rewrite (slice_part body consumed bc) by lia. wp_go. change (drop (Z.to_nat 0) (queued t)) with (queued t).
  eapply (on_session_wp _ _ _ _ s); [exact Hs1|]. apply on_connection_wp.
  eapply wp_mono; [apply write_record_spec| |done]. cbn beta. intros [n|] s2 Hw; [|by wp_go].
  assert (Hdl : len (drop (Z.to_nat consumed) body) = len body - consumed) by (unfold len in *; rewrite length_drop; lia).
  rewrite !take_len in Hw by lia. destruct Hw as [Hn Hfed]. cbn [fst snd]. zcase; [by wp_go|]. wp_go.
  pose proof (record_front hc bc n (queued t) (drop (Z.to_nat consumed) body) ltac:(lia) ltac:(lia) Hfull ltac:(lia)) as Hfront.
  set (plain := take (Z.to_nat n) _) in *. rewrite drop_drop in Hfront.
  set (t2 := match request (set_session (Some s2) t1) with Some r => _ | None => _ end).
  assert (request_ok t2 ∧ queued t2 = drop (Z.to_nat (Z.min n hc)) (queued t)) as [Hr2 Hq2].
  { destruct (request t1) as [r|] eqn:He.
    - assert (Hlr : left_of r = queued t) by (rewrite <-Hq1; unfold queued; by rewrite He).
      destruct (left_of_advance r (Z.min n hc) (Hr1 _ He)) as [Ho Hl]; [rewrite Hlr; lia|]. rewrite <-Hlr.
      unfold t2, queued, request_ok. cbn [set_session request]. rewrite He. split; [by intros ? [= <-]|exact Hl].
    - assert (Hlr : queued t = []) by (rewrite <-Hq1; unfold queued; by rewrite He). rewrite Hlr.
      unfold t2, queued, request_ok. cbn [set_session request]. rewrite He. cbn [set_session request]. rewrite He. split; [done|by rewrite drop_nil]. }
  assert (Hs2 : session t2 = Some s2) by (unfold t2; cbn [set_session request]; by destruct (request t1)).
  assert (Hret2 : retained_response t2 = retained_response t) by (rewrite <-Hret1; unfold t2; cbn [set_session request]; by destruct (request t1)).
  set (c2 := consumed + saturating_sub n hc). assert (Hc2 : consumed ≤ c2 ≤ len body) by (unfold c2, saturating_sub; lia).
  eapply (on_session_wp _ _ _ _ s2); [exact Hs2|]. apply on_connection_wp.
  eapply wp_mono; [apply drain_outbound_spec| |done]. cbn beta. intros out3 s3 (more & -> & Hg & Hlen). cbn [fst snd].
  set (t3 := set_session (Some s3) t2).
  assert (Hp3 : pumping t s body consumed plain more t3 s3 c2).
  { split; try done; [|].
    - rewrite <-(app_nil_r plain). change more with ([] ++ more). eapply fed_trans; [exact Hfed|by apply fed_gave].
    - change (queued t3) with (queued t2). rewrite Hq2, Hfront. do 3 f_equal. unfold c2, saturating_sub. lia. }
  assert (Hn0 : n ≠ 0) by (intros ->; congruence). assert (Hm3 : length (queued t3) = (length (queued t) - Z.to_nat (Z.min n hc))%nat).
  { change (queued t3) with (queued t2). by rewrite Hq2, length_drop. }
  eapply wp_mono; [apply (IH _ c2 t3 s3); [done|done|lia|]| |done].
  { rewrite Hm3. unfold c2, saturating_sub, len in *. lia. }
  cbn beta. intros [out4 c4] [t4 bud4] (plain4 & more4 & s4 & Hp4 & -> & Hl4 & ->).
  exists (plain ++ plain4), (more ++ more4), s4. split_and!; [by eapply pumping_trans|by rewrite app_assoc|lia|done].
Qed.

End proofs.
