(* ===== verification/NativeTlsRuns.v ===== *)
(** * TLS sessions: whole exchanges and plain connections

    The owner's calls of a session, in any order it may make them, charged to a
    budget or not, also while a handshake worker has the session; then the
    calls of a plain TLS connection. *)

From stdpp Require Import base list strings relations.
From Stdlib Require Import ZArith Lia.
From S2P Require Import Prelude Errors BodyBudget BodyBudgetProofs Request NativeTls NativeTlsProofs.

Import Budget (BodyBudget, BodyBuffer, buffer_new, drop_buffer).
Import Tls.

Section runs.
Context {tgt : Target} {alloc : VecAlloc} {rustls : Rustls} {laws : RustlsLaws}.
Implicit Types (s : TlsSession) (t : NativeTls).

(** ** Methods of [NativeTls] *)

Lemma pump_request_body_spec body limit t s (bud : BodyBudget) :
  session t = Some s → request_ok t → 0 ≤ limit →
  wp (pump_request_body body limit)
    (λ p '(t', bud'), ∃ plain s', pumping t s body 0 plain (write_outbound p) t' s' (consumed_body p) ∧
       len (write_outbound p) ≤ limit ∧ bud' = bud ∧ (handshaking s = true → t' = t))
    (λ _ '(_, bud'), bud' = bud) (t, bud).
Proof.
  intros Hs Hr Hl. pose proof (len_nonneg body). unfold pump_request_body, tls_update, tls_is_handshaking. wp_go. rewrite Hs.
  destruct (handshaking s) eqn:Hh; cbn [orb].
  { apply wp_ret. exists [], s. cbn [write_outbound consumed_body]. split_and!; first [done|by apply pumping_refl|by rewrite len_nil]. }
  zcase.
  { apply wp_ret. exists [], s. cbn [write_outbound consumed_body]. split_and!; first [done|by apply pumping_refl|by rewrite len_nil]. }
  wp_go. eapply (on_session_wp _ _ _ _ s); [exact Hs|]. apply on_connection_wp.
  eapply wp_mono; [apply drain_outbound_spec| |done]. cbn beta. intros out s1 (more & -> & Hg & Hlen). cbn [fst snd app] in *. rewrite len_nil in Hlen. wp_go.
  set (t1 := set_session (Some s1) t).
  eapply wp_mono; [apply (pump_loop_spec body limit _ more 0 t1 s1)| |done]; [done|done|lia| |].
  { unfold pump_fuel, queued. cbn [t1 set_session request]. destruct (request t) as [r|]; cbn; [|unfold len; lia].
    unfold left_of, len. rewrite length_drop. lia. }
  cbn beta. intros [out2 consumed] [t2 bud2] (plain & more2 & s2 & Hp & -> & Hlen2 & ->). wp_go.
  assert (Hp' : pumping t s body 0 plain (more ++ more2) t2 s2 consumed).
  { destruct Hp as [Hf Hses Hret Hreq Hc He]. split; try done. change plain with ([] ++ plain). eapply fed_trans; [by apply fed_gave|exact Hf]. }
  exists plain, s2. cbn [write_outbound consumed_body]. split_and!; [|lia|done|congruence].
  destruct (session t2) as [s2'|] eqn:Hs2; [|done]. destruct (pending_output s2'); [done|].
  destruct Hp' as [Hf Hses Hret Hreq Hc He]. destruct (drop_sent_spec t2 Hreq) as (Hr1 & Hq1 & Hs1 & Hret1 & _).
  split; try done; [by rewrite Hs1|by rewrite Hret1|by rewrite Hq1].
Qed.

Lemma receive_spec others t s bud encrypted :
  session t = Some s → charged_only others bud → 0 ≤ outbound_limit s → held (connection s) ≤ TLS_PLAINTEXT_CHUNK →
  TLS_PLAINTEXT_CHUNK + len encrypted ≤ isize_max →
  wp (receive encrypted)
    (λ p x, ∃ s', x.1 = set_session (Some s') t ∧ received others s (len encrypted) p s' x.2)
    (λ _ x, charged_only others x.2) (t, bud).
Proof.
  intros Hs Hb Hl Hh Hfit. unfold receive. eapply on_session_wp; [exact Hs|].
  eapply wp_mono; [by apply (session_receive_spec others)| |done]. cbn beta. intros p [s' bud'] Hr. by exists s'.
Qed.

Lemma retain_spec others progress t bud :
  inv others (plaintext progress, bud) →
  wp (retain_stream_progress progress)
    (λ p x, is_empty (retained_response t) = true ∧ stream_outbound p = outbound progress ∧
       x.1 = set_retained (mkPlaintext (Budget.bytes (plaintext progress)) 0) t ∧ charged_only others x.2)
    (λ e x, x.1 = t ∧ charged_only others x.2 ∧
       (is_empty (retained_response t) = true → TLS_STREAM_PLAINTEXT_LIMIT < len (Budget.bytes (plaintext progress)))) (t, bud).
Proof.
  intros Hi. pose proof (inv_dropped _ _ Hi) as Hd. unfold wpx, retain_stream_progress. destruct (is_empty (retained_response t)); cbn [negb].
  - zcase; [done|]. by cbn.
  - split_and!; [done|exact Hd|done].
Qed.

Lemma consume_spec n t bud :
  plaintext_ok (retained_response t) → 0 ≤ n →
  wp (consume_retained_plaintext n)
    (λ _ x, n ≤ len (left_of (retained_response t)) ∧ x.2 = bud ∧
       session x.1 = session t ∧ request x.1 = request t ∧ plaintext_ok (retained_response x.1) ∧
       left_of (retained_response x.1) = drop (Z.to_nat n) (left_of (retained_response t)))
    (λ _ x, x = (t, bud)) (t, bud).
Proof.
  intros Hp Hn. unfold consume_retained_plaintext, tls_update. wp_go. rewrite remaining_ok by done. wp_go. zcase; [by wp_go|]. wp_go.
  destruct (left_of_advance (retained_response t) n Hp ltac:(lia)) as [Ho Hl].
  destruct (is_empty (mkPlaintext _ _)) eqn:He; cbn [retained_response set_retained session request]; [|by split_and!].
  apply left_of_nil in He; [|done]. rewrite He in Hl. split_and!; try done.
Qed.

(** ** An exchange *)

(** What the owner keeps besides the session: the buffered body and how much
    of it was consumed, the session while it is with a worker and what the
    worker made of its input, and as history all that is to be sent, the bytes
    to send it was given, the plaintext it was given, and whether the plaintext
    is to be charged to the budget, as it is for a buffered response. *)
Record Exchange := mkExchange {
  x_tls : NativeTls; x_budget : BodyBudget; x_body : list Z; x_cursor : Z;
  x_away : option (TlsSession * option TlsProgress);
  x_plan : list Z; x_sent : list Z; x_got : list Z; x_charged : bool
}.

Inductive TlsCall :=
| Tls_budget (budgeted : bool)
| Tls_start
| Tls_receive (encrypted : list Z)
| Tls_receive_streaming (encrypted : list Z)
| Tls_consume (consumed : Z)
| Tls_pump (ciphertext_limit : Z)
| Tls_begin (head body : list Z)
| Tls_lend
| Tls_work (encrypted : list Z)
| Tls_return (streaming : bool).

Definition on_tls {A} (m : TM A) : M Exchange Error A := λ x,
  let '(o, (t, bud)) := m (x_tls x, x_budget x) in
  (o, mkExchange t bud (x_body x) (x_cursor x) (x_away x) (x_plan x) (x_sent x) (x_got x) (x_charged x)).
Definition sending (out : list Z) (x : Exchange) : Exchange :=
  mkExchange (x_tls x) (x_budget x) (x_body x) (x_cursor x) (x_away x) (x_plan x) (x_sent x ++ out) (x_got x) (x_charged x).
Definition getting (l : list Z) (x : Exchange) : Exchange :=
  mkExchange (x_tls x) (x_budget x) (x_body x) (x_cursor x) (x_away x) (x_plan x) (x_sent x) (x_got x ++ l) (x_charged x).
Definition send_out (out : list Z) : M Exchange Error (list Z) := _ ← modify (sending out); mret out.
(** The owner reads a buffer and drops it. *)
Definition read_out (b : BodyBuffer) (x : Exchange) : Exchange :=
  getting (Budget.bytes b)
    (mkExchange (x_tls x) (drop_buffer b (x_budget x)) (x_body x) (x_cursor x) (x_away x) (x_plan x) (x_sent x) (x_got x) (x_charged x)).

(** A call and the bytes it gives to be sent. *)
Definition do_call (c : TlsCall) : M Exchange Error (list Z) :=
  match c with
  | Tls_budget budgeted =>
      _ ← on_tls (set_body_budget budgeted);
      _ ← modify (λ x, mkExchange (x_tls x) (x_budget x) (x_body x) (x_cursor x) (x_away x) (x_plan x) (x_sent x) (x_got x) budgeted);
      mret []
  | Tls_start => out ← on_tls start; send_out out
  | Tls_receive l => p ← on_tls (receive l); _ ← modify (read_out (plaintext p)); send_out (outbound p)
  | Tls_receive_streaming l => p ← on_tls (receive_streaming l); send_out (stream_outbound p)
  | Tls_consume n =>
      x ← get;
      rest ← lift (retained_plaintext (x_tls x));
      _ ← on_tls (consume_retained_plaintext n);
      _ ← modify (getting (take (Z.to_nat n) rest));
      mret []
  | Tls_pump limit =>
      x ← get;
      body ← lift (slice (x_body x) (x_cursor x) (len (x_body x)));
      p ← on_tls (pump_request_body body limit);
      _ ← modify (λ x, mkExchange (x_tls x) (x_budget x) (x_body x) (x_cursor x + consumed_body p) (x_away x) (x_plan x) (x_sent x) (x_got x) (x_charged x));
      send_out (write_outbound p)
  | Tls_begin head body =>
      _ ← on_tls (begin_request head);
      _ ← modify (λ x, mkExchange (x_tls x) (x_budget x) body 0 (x_away x) (x_plan x ++ head ++ body) (x_sent x) (x_got x) (x_charged x));
      mret []
  | Tls_lend =>
      _ ← modify (λ x, let '(s, t) := take_handshake (x_tls x) in
                       mkExchange t (x_budget x) (x_body x) (x_cursor x)
                         (match s with Some s => Some (s, None) | None => x_away x end) (x_plan x) (x_sent x) (x_got x) (x_charged x));
      mret []
  | Tls_work l => λ x,
      match x_away x with
      | Some (s, None) =>
          let '(o, (s', bud)) := session_receive l (s, x_budget x) in
          let after p := mkExchange (x_tls x) bud (x_body x) (x_cursor x) (Some (s', p)) (x_plan x) (x_sent x) (x_got x) (x_charged x) in
          match o with
          | Ok p => (Ok [], after (Some p))
          | Err e => (Err e, after None)
          | Panic => (Panic, after None)
          | Diverge => (Diverge, after None)
          end
      | _ => (Ok [], x)
      end
  | Tls_return streaming =>
      x ← get;
      match x_away x with
      | Some (s, Some p) =>
          _ ← on_tls (restore_handshake s);
          _ ← modify (λ x, mkExchange (x_tls x) (x_budget x) (x_body x) (x_cursor x) None (x_plan x) (x_sent x) (x_got x) (x_charged x));
          if (streaming : bool) then q ← on_tls (retain_stream_progress p); send_out (stream_outbound q)
          else _ ← modify (read_out (plaintext p)); send_out (outbound p)
      | _ => mret []
      end
  end.

(** The calls the owner may make: with the session at hand, with plaintext
    retained only for streams, the next request after the body of the last. *)
Definition at_hand (x : Exchange) : Prop := x_away x = None.
Definition permitted (x : Exchange) (c : TlsCall) : Prop :=
  match c with
  | Tls_budget _ | Tls_start => at_hand x
  | Tls_receive l => at_hand x ∧ TLS_PLAINTEXT_CHUNK + len l ≤ isize_max ∧ is_empty (retained_response (x_tls x)) = true
  | Tls_receive_streaming l => at_hand x ∧ TLS_PLAINTEXT_CHUNK + len l ≤ isize_max
  | Tls_consume n => 0 ≤ n
  | Tls_pump limit => 0 ≤ limit
  | Tls_begin _ _ => x_cursor x = len (x_body x)
  | Tls_lend => True
  | Tls_work l => TLS_PLAINTEXT_CHUNK + len l ≤ isize_max
  | Tls_return streaming => streaming = true ∨ is_empty (retained_response (x_tls x)) = true
  end.
(** How much a call gives to be sent. *)
Definition allowance (c : TlsCall) : Z := match c with Tls_pump limit => limit | _ => TLS_FLIGHT_LIMIT end.

(** ** Its invariant *)

Definition the_session (x : Exchange) : option (TlsSession * option TlsProgress) :=
  match session (x_tls x), x_away x with
  | Some s, None => Some (s, None)
  | None, Some y => Some y
  | _, _ => None
  end.
Definition undelivered (p : option TlsProgress) : list Z := default [] (outbound <$> p).
Definition unread (p : option TlsProgress) : BodyBuffer := default (buffer_new false) (plaintext <$> p).

(** A charged buffer is charged for its whole capacity, any other for nothing. *)
Definition paid (charged : bool) (b : BodyBuffer) : Prop :=
  if charged then len (Budget.bytes b) ≤ charge b else charge b = 0.
Lemma inv_paid others b bud : inv others (b, bud) → paid (Budget.budgeted b) b.
Proof.
  intros (_ & (Hlen & Hp & Hf & Hbg) & _ & _). unfold paid, charge. cbn [fst] in *.
  destruct (Budget.budgeted b); [lia|]. by destruct Hbg as (-> & -> & _).
Qed.
Lemma paid_nothing charged : paid charged (unread None).
Proof. by destruct charged; cbn. Qed.

Record Books others (x : Exchange) s (p : option TlsProgress) : Prop := {
  ie_limit : outbound_limit s = TLS_FLIGHT_LIMIT; ie_held : held (connection s) ≤ TLS_PLAINTEXT_CHUNK;
  ie_request : request_ok (x_tls x); ie_retained : plaintext_ok (retained_response (x_tls x));
  ie_cursor : 0 ≤ x_cursor x ≤ len (x_body x);
  ie_plan : accepted s ++ queued (x_tls x) ++ drop (Z.to_nat (x_cursor x)) (x_body x) = x_plan x;
  ie_sent : wire s = x_sent x ++ undelivered p; ie_size : len (undelivered p) ≤ TLS_FLIGHT_LIMIT;
  ie_got : released s = x_got x ++ left_of (retained_response (x_tls x)) ++ Budget.bytes (unread p);
  ie_budget : inv others (unread p, x_budget x); ie_flag : body_budget s = x_charged x; ie_paid : paid (x_charged x) (unread p);
  ie_early : handshaking s = true → accepted s = []
}.

(** What holds after a call that returns. *)
Definition exchanging others (x : Exchange) : Prop := ∃ s p, the_session x = Some (s, p) ∧ Books others x s p.
Definition keeps others (c : TlsCall) (x : Exchange) : Prop :=
  wp (do_call c) (λ out x', exchanging others x' ∧ len out ≤ allowance c) (λ _ _, True) x.

Lemma on_tls_wp {A} (m : TM A) Q R x :
  wp m (λ a y, Q a (mkExchange y.1 y.2 (x_body x) (x_cursor x) (x_away x) (x_plan x) (x_sent x) (x_got x) (x_charged x)))
       (λ e y, R e (mkExchange y.1 y.2 (x_body x) (x_cursor x) (x_away x) (x_plan x) (x_sent x) (x_got x) (x_charged x))) (x_tls x, x_budget x) →
  wp (on_tls m) Q R x.
Proof. unfold wpx, on_tls. by destruct (m _) as [[] [? ?]]. Qed.

Lemma inv_unread others bud b : inv others (buffer_new b, bud) ↔ charged_only others bud.
Proof.
  split; [|apply inv_new]. intros (Ho & _ & Hb & Hu). split_and!; [done|exact Hb|]. cbn [fst snd] in Hu. rewrite Hu.
  unfold charge, permit_charge. cbn. lia.
Qed.

(** With the session at hand. *)
Lemma at_hand_session others x s p : the_session x = Some (s, p) → Books others x s p → at_hand x →
  session (x_tls x) = Some s ∧ p = None ∧ charged_only others (x_budget x).
Proof.
  intros Hs Hx Ha. unfold the_session, at_hand in *. rewrite Ha in Hs.
  destruct (session (x_tls x)) as [s'|]; [|done]. injection Hs as -> <-. split_and!; try done. apply (inv_unread _ _ false), (ie_budget _ _ _ _ Hx).
Qed.
Lemma like_early s s' : like s s' → handshaking s' = true → handshaking s = true.
Proof. intros Hl Ht. destruct (handshaking s) eqn:Hs; [done|]. apply (lk_done _ _ Hl) in Hs. congruence. Qed.

(** The books when the session had an event, and when the owner took what came
    of it. *)
Definition with_session s (bud : BodyBudget) (x : Exchange) : Exchange :=
  mkExchange (set_session (Some s) (x_tls x)) bud (x_body x) (x_cursor x) (x_away x) (x_plan x) (x_sent x) (x_got x) (x_charged x).
Definition moved (t : NativeTls) (bud : BodyBudget) (away : option (TlsSession * option TlsProgress)) (x : Exchange) : Exchange :=
  mkExchange t bud (x_body x) (x_cursor x) away (x_plan x) (x_sent x) (x_got x) (x_charged x).

Lemma books_received others x s i p s' t bud away :
  Books others x s None → received others s i p s' bud → queued t = queued (x_tls x) → request_ok t →
  retained_response t = retained_response (x_tls x) → Books others (moved t bud away x) s' (Some p).
Proof.
  intros [Hlim Hh Hr Hp Hc Hplan Hw Hz Hg Hi Hflag Hpaid He] [Hl Hw' Ha' Hr' Ho Hh' _ Hi' Hch] Hq Hrq Hret.
  split; cbn [moved x_tls x_budget x_body x_cursor x_plan x_sent x_got x_charged undelivered unread default fmap option_fmap option_map from_option id] in *; rewrite ?Hret, ?Hq; try done.
  - rewrite <-Hlim. apply Hl.
  - by rewrite Ha'.
  - rewrite Hw', Hw. cbn. by rewrite app_nil_r.
  - cbn. rewrite <-Hlim. exact Ho.
  - rewrite Hr', Hg. cbn. by rewrite app_nil_r, app_assoc.
  - by rewrite (lk_budget _ _ Hl).
  - rewrite <-Hflag, <-Hch. by eapply inv_paid.
  - intros Ht. rewrite Ha'. apply He. by eapply like_early.
Qed.
Lemma books_delivered others x s p :
  Books others x s (Some p) → is_empty (retained_response (x_tls x)) = true →
  Books others (sending (outbound p) (read_out (plaintext p) x)) s None.
Proof.
  intros [Hlim Hh Hr Hp Hc Hplan Hw Hz Hg Hi Hflag Hpaid He] Hem. apply left_of_nil in Hem; [|done]. rewrite Hem in Hg. cbn in Hw, Hg.
  split; cbn [sending getting read_out x_tls x_budget x_body x_cursor x_plan x_sent x_got x_charged]; try done.
  - cbn. by rewrite Hw, app_nil_r.
  - cbn. by rewrite Hem, Hg, !app_nil_r.
  - apply inv_unread, (inv_dropped _ _ Hi).
  - apply paid_nothing.
Qed.
Lemma books_retained others x s p bud away :
  Books others x s (Some p) → is_empty (retained_response (x_tls x)) = true → charged_only others bud →
  Books others (sending (outbound p) (moved (set_retained (mkPlaintext (Budget.bytes (plaintext p)) 0) (x_tls x)) bud away x)) s None.
Proof.
  intros [Hlim Hh Hr Hp Hc Hplan Hw Hz Hg Hi Hflag Hpaid He] Hem Hb. apply left_of_nil in Hem; [|done]. rewrite Hem in Hg. cbn in Hw, Hg.
  split; cbn [sending moved x_tls x_budget x_body x_cursor x_plan x_sent x_got x_charged set_retained retained_response]; try done.
  - unfold plaintext_ok. cbn. pose proof (len_nonneg (Budget.bytes (plaintext p))). lia.
  - cbn. by rewrite Hw, app_nil_r.
  - cbn. by rewrite Hg, app_nil_r.
  - by apply inv_unread.
  - apply paid_nothing.
Qed.

Lemma budget_keeps others x budgeted : exchanging others x → permitted x (Tls_budget budgeted) → keeps others (Tls_budget budgeted) x.
Proof.
  intros (s & p & Hses & Hx) Ha. destruct (at_hand_session _ _ _ _ Hses Hx Ha) as (Hs & -> & _). destruct Hx.
  unfold keeps, do_call. wp_go. apply on_tls_wp. unfold set_body_budget. eapply (on_session_wp _ _ _ _ s); [exact Hs|]. apply on_connection_wp.
  wp_go. split; [|by rewrite len_nil]. eexists _, None. split; [unfold the_session; cbn; by rewrite Ha|]. split; try done. apply paid_nothing.
Qed.

Lemma start_keeps others x : exchanging others x → permitted x Tls_start → keeps others Tls_start x.
Proof.
  intros (s & p & Hses & Hx) Ha. destruct (at_hand_session _ _ _ _ Hses Hx Ha) as (Hs & -> & Hb). destruct Hx as [Hlim Hh Hr Hp Hc Hplan Hw Hz Hg Hi Hflag Hpaid He].
  unfold keeps, do_call, send_out. wp_go. apply on_tls_wp. unfold start. eapply (on_session_wp _ _ _ _ s); [exact Hs|]. apply on_connection_wp.
  assert (Hfl : 0 ≤ outbound_limit s) by (rewrite Hlim; done).
  eapply wp_mono; [by apply take_outbound_spec| |done]. cbn beta. intros out s' [[Hl Hw' Ha' Hr' Hh'] Hlen]. cbn [fst snd]. wp_go.
  rewrite Hlim in Hlen. split; [|exact Hlen]. exists s', None. split; [unfold the_session; cbn; by rewrite Ha|].
  split; cbn [sending x_tls x_budget x_body x_cursor x_away x_plan x_sent x_got x_charged] in *; try done.
  - rewrite <-Hlim. apply Hl.
  - lia.
  - by rewrite Ha'.
  - rewrite Hw', Hw. cbn. by rewrite !app_nil_r.
  - by rewrite Hr'.
  - by rewrite (lk_budget _ _ Hl).
  - intros Ht. rewrite Ha'. apply He. by eapply like_early.
Qed.

Lemma receive_keeps others x l : exchanging others x → permitted x (Tls_receive l) → keeps others (Tls_receive l) x.
Proof.
  intros (s & p & Hses & Hx) (Ha & Hfit & Hem). destruct (at_hand_session _ _ _ _ Hses Hx Ha) as (Hs & -> & Hb).
  unfold keeps, do_call, send_out. wp_go. apply on_tls_wp. pose proof (ie_limit _ _ _ _ Hx) as Hlim.
  eapply wp_mono; [apply (receive_spec others _ s); [done|done|by rewrite Hlim|apply Hx|done]| |done].
  cbn beta. intros q [t bud] (s' & He & Hrc). cbn [fst snd] in He, Hrc. subst t. cbn [fst snd]. wp_go.
  pose proof (books_received _ _ _ _ _ _ (set_session (Some s') (x_tls x)) _ (x_away x) Hx Hrc eq_refl (ie_request _ _ _ _ Hx) eq_refl) as Hb1.
  split; [|cbn [allowance]; rewrite <-Hlim; apply Hrc]. exists s', None. split; [unfold the_session; cbn; by rewrite Ha|]. exact (books_delivered _ _ _ _ Hb1 Hem).
Qed.
Lemma receive_streaming_keeps others x l : exchanging others x → permitted x (Tls_receive_streaming l) → keeps others (Tls_receive_streaming l) x.
Proof.
  intros (s & p & Hses & Hx) (Ha & Hfit). destruct (at_hand_session _ _ _ _ Hses Hx Ha) as (Hs & -> & Hb).
  unfold keeps, do_call, send_out. wp_go. apply on_tls_wp. pose proof (ie_limit _ _ _ _ Hx) as Hlim. unfold receive_streaming. wp_go.
  destruct (is_empty (retained_response (x_tls x))) eqn:Hem; cbn [negb]; [|done]. zcase; [done|]. wp_go.
  eapply wp_mono; [apply (receive_spec others _ s); [done|done|by rewrite Hlim|apply Hx|done]| |done].
  cbn beta. intros q [t bud] (s' & He & Hrc). cbn [fst snd] in He, Hrc. subst t.
  pose proof (books_received _ _ _ _ _ _ (set_session (Some s') (x_tls x)) _ (x_away x) Hx Hrc eq_refl (ie_request _ _ _ _ Hx) eq_refl) as Hb1.
  eapply wp_mono; [apply (retain_spec others); apply Hrc| |done]. cbn beta. intros q' [t' bud'] (_ & Ho & He & Hb'). cbn [fst snd] in *. subst t'. wp_go.
  rewrite Ho. split; [|cbn [allowance]; rewrite <-Hlim; apply Hrc]. exists s', None. split; [unfold the_session; cbn; by rewrite Ha|].
  exact (books_retained _ _ _ _ _ (x_away x) Hb1 Hem Hb').
Qed.

Lemma consume_keeps others x n : exchanging others x → permitted x (Tls_consume n) → keeps others (Tls_consume n) x.
Proof.
  intros (s & p & Hses & [Hlim Hh Hr Hp Hc Hplan Hw Hz Hg Hi Hflag Hpaid He]) Hn. unfold keeps, do_call. wp_go. unfold retained_plaintext. rewrite remaining_ok by done. wp_go.
  apply on_tls_wp. eapply wp_mono; [by apply consume_spec| |done]. cbn beta. intros _ [t bud] (Hle & -> & Hs' & Hq' & Hp' & Hl'). cbn [fst snd] in *. wp_go.
  split; [|done]. exists s, p. split; [unfold the_session in *; cbn; by rewrite Hs'|].
  split; cbn [getting x_tls x_budget x_body x_cursor x_away x_plan x_sent x_got x_charged]; try done.
  - unfold request_ok. by rewrite Hq'.
  - unfold queued. by rewrite Hq'.
  - rewrite Hl', Hg. by rewrite <-app_assoc, (app_assoc (take _ _)), take_drop.
Qed.

Lemma pump_keeps others x limit : exchanging others x → permitted x (Tls_pump limit) → keeps others (Tls_pump limit) x.
Proof.
  intros (s & p & Hses & [Hlim Hh Hr Hp Hc Hplan Hw Hz Hg Hi Hflag Hpaid He]) Hn. unfold keeps, do_call, send_out. wp_go. rewrite slice_tail by done. wp_go.
  apply on_tls_wp. set (body := drop (Z.to_nat (x_cursor x)) (x_body x)).
  assert (Hbl : len body = len (x_body x) - x_cursor x) by (unfold body, len in *; rewrite length_drop; lia).
  unfold the_session in Hses. destruct (session (x_tls x)) as [s'|] eqn:Hs.
  - destruct (x_away x) eqn:Ha; [done|]. injection Hses as -> <-.
    eapply wp_mono; [by apply pump_request_body_spec| |done]. cbn beta. intros q [t bud] (plain & s' & [[Hl Hw' Ha' Hr' Hh'] Hs' Hret' Hrq' Hcon Hpl] & Hlen & -> & Hsame).
    cbn [fst snd]. wp_go. split; [|exact Hlen]. exists s', None. split; [unfold the_session; cbn; by rewrite Hs', ?Ha|].
    split; cbn [sending x_tls x_budget x_body x_cursor x_away x_plan x_sent x_got x_charged] in *; rewrite ?Hret'; try done.
    + rewrite <-Hlim. apply Hl.
    + lia.
    + lia.
    + rewrite <-Hplan, Ha', <-!app_assoc. f_equal. fold body. change (drop (Z.to_nat 0) body) with body in Hpl. rewrite Hpl. unfold body.
      rewrite drop_drop. do 3 f_equal. lia.
    + rewrite Hw', Hw. cbn. by rewrite !app_nil_r.
    + by rewrite Hr'.
    + by rewrite (lk_budget _ _ Hl).
    + intros Ht. pose proof (like_early _ _ Hl Ht) as Hearly. rewrite (Hsame Hearly) in *. rewrite Hs in Hs'. injection Hs' as <-. by apply He.
  - unfold pump_request_body, tls_is_handshaking. wp_go. rewrite Hs. cbn [orb]. wp_go. cbn [write_outbound consumed_body]. split; [|by rewrite len_nil].
    exists s, p. split; [unfold the_session; cbn; by rewrite ?Hs|].
    split; cbn [sending x_tls x_budget x_body x_cursor x_away x_plan x_sent x_got x_charged]; rewrite ?Z.add_0_r, ?app_nil_r; done.
Qed.

Lemma begin_keeps others x head body : exchanging others x → permitted x (Tls_begin head body) → keeps others (Tls_begin head body) x.
Proof.
  intros (s & p & Hses & [Hlim Hh Hr Hp Hc Hplan Hw Hz Hg Hi Hflag Hpaid He]) Hn. unfold permitted in Hn. unfold keeps, do_call. wp_go. apply on_tls_wp.
  unfold begin_request, tls_is_handshaking, tls_update. wp_go. unfold the_session in Hses. destruct (session (x_tls x)) as [s'|] eqn:Hs; [|by wp_go].
  destruct (x_away x) eqn:Ha; [done|]. injection Hses as -> <-. destruct (handshaking s) eqn:Hhs; [by wp_go|]. wp_go.
  destruct (request (x_tls x)) as [r|] eqn:Hrq; [by wp_go|]. wp_go. destruct (pending_output s); [by wp_go|]. wp_go.
  assert (Hq : queued (x_tls x) = []) by (unfold queued; by rewrite Hrq). rewrite Hq, Hn in Hplan.
  rewrite drop_ge in Hplan by (unfold len; lia). rewrite !app_nil_r in Hplan.
  split; [|by rewrite len_nil]. exists s, None. split; [unfold the_session; cbn; by rewrite ?Hs, ?Ha|].
  pose proof (len_nonneg head). pose proof (len_nonneg body).
  split; cbn [x_tls x_budget x_body x_cursor x_away x_plan x_sent x_got x_charged set_request retained_response]; try done; try lia.
  - intros r [= <-]. unfold plaintext_ok. cbn. lia.
  - by rewrite Hplan.
  - congruence.
Qed.

Lemma lend_keeps others x : exchanging others x → keeps others Tls_lend x.
Proof.
  intros (s & p & Hses & Hx). unfold keeps, do_call. wp_go. split; [|by rewrite len_nil]. unfold take_handshake, tls_is_handshaking.
  unfold the_session in Hses. destruct (session (x_tls x)) as [s'|] eqn:Hs.
  - destruct (x_away x) eqn:Ha; [done|]. injection Hses as -> <-. destruct (handshaking s) eqn:Hhs.
    + exists s, None. split; [done|]. by destruct Hx.
    + exists s, None. split; [unfold the_session; cbn; by rewrite ?Hs|]. by destruct Hx.
  - exists s, p. split; [by unfold the_session|]. by destruct Hx.
Qed.

Lemma work_keeps others x l : exchanging others x → permitted x (Tls_work l) → keeps others (Tls_work l) x.
Proof.
  intros (s & p & Hses & Hx) Hfit. unfold keeps, do_call, wpx. unfold the_session in Hses.
  destruct (x_away x) as [[s1 [q|]]|] eqn:Ha.
  1, 3: split; [exists s, p; split; [unfold the_session; by rewrite Ha|done]|by rewrite len_nil].
  destruct (session (x_tls x)) eqn:Hs; [done|]. injection Hses as -> <-. pose proof (ie_limit _ _ _ _ Hx) as Hlim.
  pose proof (proj1 (inv_unread _ _ false) (ie_budget _ _ _ _ Hx)) as Hb.
  assert (Hrec := session_receive_spec others s (x_budget x) l Hb ltac:(by rewrite Hlim) (ie_held _ _ _ _ Hx) Hfit).
  unfold wpx in Hrec. destruct (session_receive l (s, x_budget x)) as [[q|e| |] [s' bud]]; try done.
  split; [|by rewrite len_nil]. exists s', (Some q). split; [unfold the_session; cbn; by rewrite ?Hs|].
  exact (books_received _ _ _ _ _ _ (x_tls x) _ (Some (s', Some q)) Hx Hrec eq_refl (ie_request _ _ _ _ Hx) eq_refl).
Qed.

Lemma return_keeps others x streaming : exchanging others x → permitted x (Tls_return streaming) → keeps others (Tls_return streaming) x.
Proof.
  intros (s & p & Hses & Hx) Hok. unfold keeps, do_call, send_out. wp_go. unfold the_session in Hses.
  destruct (x_away x) as [[s1 [q|]]|] eqn:Ha.
  2, 3: wp_go; split; [exists s, p; split; [unfold the_session; by rewrite ?Ha, ?Hs|done]|by rewrite len_nil].
  destruct (session (x_tls x)) eqn:Hs; [done|]. injection Hses as -> <-. wp_go. apply on_tls_wp. unfold restore_handshake, tls_update. wp_go. rewrite Hs. wp_go.
  set (x1 := mkExchange _ _ _ _ _ _ _ _ _). assert (Hx1 : Books others x1 s (Some q)) by (by destruct Hx).
  pose proof (ie_size _ _ _ _ Hx) as Hz. cbn in Hz. destruct streaming.
  - wp_go. apply on_tls_wp. eapply wp_mono; [apply (retain_spec others); apply Hx1| |done].
    cbn beta. intros q' [t bud] (Hem & Ho & Ht & Hb). cbn [fst snd] in *. subst t. wp_go. rewrite Ho. split; [|exact Hz].
    exists s, None. split; [done|]. exact (books_retained _ _ _ _ _ None Hx1 Hem Hb).
  - destruct Hok as [|Hem]; [done|]. wp_go. split; [|exact Hz]. exists s, None. split; [done|]. exact (books_delivered _ _ _ _ Hx1 Hem).
Qed.

Lemma call_keeps others x c : exchanging others x → permitted x c → keeps others c x.
Proof.
  destruct c; intros Hx Hp;
    [by apply budget_keeps|by apply start_keeps|by apply receive_keeps|by apply receive_streaming_keeps|by apply consume_keeps|by apply pump_keeps
    |by apply begin_keeps|by apply lend_keeps|by apply work_keeps|by apply return_keeps].
Qed.

(** ** What is promised of an exchange *)

Definition returns {A} (o : outcome Error A) : Prop := match o with Ok _ | Err _ => True | _ => False end.
Inductive exchange_step : Exchange → Exchange → Prop :=
| exchange_call c x out x' : permitted x c → do_call c x = (Ok out, x') → exchange_step x x'.
Definition exchange_start (t : NativeTls) (bud : BodyBudget) (head body : list Z) : Exchange :=
  mkExchange t bud body 0 None (head ++ body) [] [] false.

Lemma connect_exchanging others configs host policy head body bud t :
  charged_only others bud → connect configs host policy head = Ok t → exchanging others (exchange_start t bud head body).
Proof.
  intros Hb Hc. unfold connect in Hc. destruct (server_name host) as [name|]; [|done].
  destruct (client_connection _ name) as [e|c] eqn:Hn; [done|]. injection Hc as <-. apply client_connection_held in Hn.
  exists (new_session c TLS_FLIGHT_LIMIT), None. split; [done|]. pose proof (len_nonneg head). pose proof (len_nonneg body).
  split; try done; try (cbn; lia); [|by apply inv_unread].
  intros r [= <-]. unfold plaintext_ok. cbn [offset pending_bytes]. lia.
Qed.
Lemma reachable_exchanging others x x' : rtc exchange_step x x' → exchanging others x → exchanging others x'.
Proof.
  induction 1 as [|x x1 x2 [c y out y' Hp Hdo] _ IH]; [done|]. intros Hx. apply IH. pose proof (call_keeps _ _ _ Hx Hp) as Hk.
  unfold keeps, wpx in Hk. rewrite Hdo in Hk. apply Hk.
Qed.

(** C18: In an exchange over TLS, whatever rustls, the peer and the handshake
    worker do and however the owner's calls are ordered, no call panics or
    hangs, and none gives more to be sent than it may. The plaintext rustls
    took, followed by what is queued and by the rest of the body, is exactly
    the requests' heads and bodies in order, so once the request counts as
    encrypted all of it was taken, once; before the handshake is done nothing
    was. The bytes given to the owner to send are all that rustls made, in
    order, and the plaintext it was given, with what is retained for it, is
    all that rustls decrypted. All this is so whichever budget the owner sets
    for each request, also when the budget refuses: plaintext for a buffered
    response is charged for at least its length, any other for nothing, and
    besides the others' charges the budget holds exactly the charge of the
    plaintext that the owner has yet to take. *)
Theorem tls_exchange_exact others configs host policy head body bud t x :
  charged_only others bud → connect configs host policy head = Ok t → rtc exchange_step (exchange_start t bud head body) x →
  (∀ c, permitted x c → returns (do_call c x).1 ∧ ∀ out x', do_call c x = (Ok out, x') → len out ≤ allowance c) ∧
  ∃ s p, the_session x = Some (s, p) ∧
    accepted s ++ queued (x_tls x) ++ drop (Z.to_nat (x_cursor x)) (x_body x) = x_plan x ∧
    (request_fully_encrypted (x_tls x) = true → x_cursor x = len (x_body x) → accepted s = x_plan x) ∧
    (handshaking s = true → accepted s = []) ∧
    wire s = x_sent x ++ undelivered p ∧
    released s = x_got x ++ left_of (retained_response (x_tls x)) ++ Budget.bytes (unread p) ∧
    Budget.used (x_budget x) = others + charge (unread p) ∧ paid (x_charged x) (unread p) ∧
    ∀ l q y, permitted x (Tls_receive l) → receive l (x_tls x, x_budget x) = (Ok q, y) →
      Budget.used y.2 = others + charge (plaintext q) ∧ paid (x_charged x) (plaintext q).
Proof.
  intros Hb Hc Hrun. pose proof (reachable_exchanging _ _ _ Hrun (connect_exchanging _ _ _ _ _ body _ _ Hb Hc)) as Hx. split.
  - intros c Hp. pose proof (call_keeps _ _ _ Hx Hp) as Hk. unfold keeps, wpx in Hk. destruct (do_call c x) as [[out|e| |] x']; try done.
    split; [done|]. intros out' x'' [= <- <-]. apply Hk.
  - destruct Hx as (s & p & Hs & Hx). exists s, p. split_and!; try done; try by destruct Hx.
    2: by destruct (ie_budget _ _ _ _ Hx) as (_ & _ & _ & ?).
    2: { intros l q y (Ha & Hfit & _) Hdo. destruct (at_hand_session _ _ _ _ Hs Hx Ha) as (Ht & -> & Hob).
         pose proof (receive_spec others _ s (x_budget x) l Ht Hob ltac:(by rewrite (ie_limit _ _ _ _ Hx)) (ie_held _ _ _ _ Hx) Hfit) as Hw.
         unfold wpx in Hw. rewrite Hdo in Hw. destruct Hw as (s' & _ & Hrc). split; [apply (rc_inv _ _ _ _ _ _ Hrc)|].
         rewrite <-(ie_flag _ _ _ _ Hx), <-(rc_charged _ _ _ _ _ _ Hrc). eapply inv_paid, Hrc. }
    destruct Hx as [Hlim Hh Hr Hp Hcur Hplan Hw Hz Hg Hi Hflag Hpaid He]. intros Hf Hall. rewrite <-Hplan, Hall. unfold request_fully_encrypted in Hf. unfold queued. destruct (request (x_tls x)); [done|].
    rewrite drop_ge by (unfold len; lia). by rewrite !app_nil_r.
Qed.

(** C19: What the connection owner relies on of a session at hand: a pump
    consumes no more than the body it is given; consuming retained plaintext
    takes it off the front and never more than there is; the read allowance is
    not negative; and a stream's read within its allowance is never refused
    for its size, neither the encrypted bytes nor the plaintext they make. *)
Theorem tls_keeps_promises others t s bud :
  session t = Some s → request_ok t → plaintext_ok (retained_response t) →
  outbound_limit s = TLS_FLIGHT_LIMIT → held (connection s) ≤ TLS_PLAINTEXT_CHUNK → charged_only others bud →
  (∀ body limit p y, 0 ≤ limit → pump_request_body body limit (t, bud) = (Ok p, y) → 0 ≤ consumed_body p ≤ len body) ∧
  (∀ n y, 0 ≤ n → consume_retained_plaintext n (t, bud) = (Ok tt, y) →
     n ≤ len (left_of (retained_response t)) ∧
     retained_plaintext (E := Error) y.1 = Ok (drop (Z.to_nat n) (left_of (retained_response t)))) ∧
  (∀ capacity, 0 ≤ streaming_read_allowance t capacity) ∧
  (∀ l capacity p y, 0 < len l ≤ streaming_read_allowance t capacity → receive l (t, bud) = (Ok p, y) →
     ∃ q y', receive_streaming l (t, bud) = (Ok q, y') ∧ stream_outbound q = outbound p ∧
             retained_plaintext (E := Error) y'.1 = Ok (Budget.bytes (plaintext p))).
Proof.
  intros Hs Hr Hp Hlim Hh Hb. split_and!.
  - intros body limit p y Hl Hdo. pose proof (pump_request_body_spec body limit t s bud Hs Hr Hl) as Hw. unfold wpx in Hw. rewrite Hdo in Hw.
    destruct y as [t' bud']. destruct Hw as (plain & s' & Hpm & _). apply Hpm.
  - intros n y Hn Hdo. pose proof (consume_spec n t bud Hp Hn) as Hw. unfold wpx in Hw. rewrite Hdo in Hw.
    destruct Hw as (Hle & _ & _ & _ & Hp' & Hl). split; [done|]. unfold retained_plaintext. by rewrite remaining_ok, Hl.
  - intros capacity. unfold streaming_read_allowance. by case_match.
  - intros l capacity p y Hl Hdo. unfold streaming_read_allowance in Hl. destruct (_ || _) eqn:Ho in Hl; [lia|].
    apply orb_false_iff in Ho as [Ho _]. apply orb_false_iff in Ho as [_ Hem]. apply negb_false_iff in Hem.
    assert (Hfit : TLS_PLAINTEXT_CHUNK + len l ≤ isize_max).
    { pose proof isize_bounds. unfold TLS_PLAINTEXT_CHUNK, TLS_STREAM_WIRE_ALLOWANCE in *. lia. }
    pose proof (receive_spec others t s bud l Hs Hb ltac:(by rewrite Hlim) Hh Hfit) as Hw. unfold wpx in Hw. rewrite Hdo in Hw.
    destruct y as [t1 bud1]. destruct Hw as (s' & He & Hrc). cbn [fst snd] in He, Hrc. subst t1.
    pose proof (retain_spec others p (set_session (Some s') t) bud1 (rc_inv _ _ _ _ _ _ Hrc)) as Hk. unfold wpx in Hk.
    unfold receive_streaming, mbind, M_bind, get. rewrite Hem. cbn [negb].
    replace (TLS_STREAM_WIRE_ALLOWANCE <? len l) with false by (symmetry; apply Z.ltb_ge; lia). rewrite Hdo.
    destruct (retain_stream_progress p (set_session (Some s') t, bud1)) as [[q|e| |] y']; try done.
    + destruct Hk as (_ & Ho & Ht & _). exists q, y'. split_and!; [done|done|]. rewrite Ht. unfold retained_plaintext. rewrite remaining_ok; [done|].
      unfold plaintext_ok. cbn. pose proof (len_nonneg (Budget.bytes (plaintext p))). lia.
    + destruct Hk as (_ & _ & Hbig). specialize (Hbig Hem). pose proof (rc_plaintext _ _ _ _ _ _ Hrc).
      unfold TLS_STREAM_PLAINTEXT_LIMIT in *. lia.
Qed.

(** ** A plain TLS connection *)

(** What its owner keeps: the session, and as history the plaintext that was
    taken, the bytes to send it was given, the plaintext it was given. *)
Record Plain := mkPlain { n_tls : StandaloneTls; n_budget : BodyBudget; n_taken : list Z; n_sent : list Z; n_got : list Z }.
Inductive PlainCall :=
| Plain_start
| Plain_receive (encrypted : list Z)
| Plain_promote_control
| Plain_drain_wire (limit : Z)
| Plain_encrypt (plaintext : list Z) (limit : Z)
| Plain_close_notify.

(** A call: how much plaintext it took, the bytes it gives to be sent, and the
    plaintext it gives. *)
Definition plain_call (c : PlainCall) : PM (Z * list Z * list Z) :=
  match c with
  | Plain_start => out ← standalone_start; mret (0, out, [])
  | Plain_receive l =>
      p ← standalone_receive l;
      _ ← modify (λ '(t, bud), (t, drop_buffer (plaintext p) bud));
      mret (0, outbound p, Budget.bytes (plaintext p))
  | Plain_promote_control => out ← promote_control; mret (0, out, [])
  | Plain_drain_wire limit => out ← drain_wire limit; mret (0, out, [])
  | Plain_encrypt l limit => '(count, out) ← encrypt l limit; mret (count, out, [])
  | Plain_close_notify => out ← send_close_notify; mret (0, out, [])
  end.
Definition offered (c : PlainCall) : list Z := match c with Plain_encrypt l _ => l | _ => [] end.
Definition do_plain (c : PlainCall) : M Plain Error (Z * list Z) := λ x,
  match plain_call c (n_tls x, n_budget x) with
  | (Ok (count, out, got), (t, bud)) =>
      (Ok (count, out),
       mkPlain t bud (n_taken x ++ take (Z.to_nat count) (offered c)) (n_sent x ++ out) (n_got x ++ got))
  | (Err e, (t, bud)) => (Err e, mkPlain t bud (n_taken x) (n_sent x) (n_got x))
  | (Panic, (t, bud)) => (Panic, mkPlain t bud (n_taken x) (n_sent x) (n_got x))
  | (Diverge, (t, bud)) => (Diverge, mkPlain t bud (n_taken x) (n_sent x) (n_got x))
  end.
Definition plain_ok (c : PlainCall) : Prop :=
  match c with
  | Plain_receive l => TLS_PLAINTEXT_CHUNK + len l ≤ isize_max
  | Plain_drain_wire limit | Plain_encrypt _ limit => 0 ≤ limit
  | _ => True
  end.
Definition plain_limit (c : PlainCall) : Z :=
  match c with Plain_drain_wire limit | Plain_encrypt _ limit => limit | _ => STANDALONE_TLS_OUTPUT_LIMIT end.

(** What the session did in a call. *)
Record plain_done others (c : PlainCall) s (r : Z * list Z * list Z) s' (bud : BodyBudget) : Prop := {
  pd_like : like s s'; pd_held : held (connection s') ≤ TLS_PLAINTEXT_CHUNK; pd_budget : charged_only others bud;
  pd_count : 0 ≤ r.1.1 ≤ len (offered c); pd_out : len r.1.2 ≤ plain_limit c;
  pd_accepted : accepted s' = accepted s ++ take (Z.to_nat r.1.1) (offered c); pd_wire : wire s' = wire s ++ r.1.2;
  pd_released : released s' = released s ++ r.2;
  pd_record : 0 < r.1.1 → handshaking s = false ∧ pending_output s' = false
}.
Lemma on_standalone_wp {A} (m : SM A) Q R (y : StandaloneTls) s bud :
  standalone_session y = Some s →
  wp m (λ a x, Q a (mkStandalone (Some x.1), x.2)) (λ e x, R e (mkStandalone (Some x.1), x.2)) (s, bud) →
  wp (on_standalone m) Q R (y, bud).
Proof. intros Hs. unfold wpx, on_standalone. rewrite Hs. by destruct (m (s, bud)) as [[] [? ?]]. Qed.
Lemma gave_done others c s out s' bud :
  gave s out s' → held (connection s) ≤ TLS_PLAINTEXT_CHUNK → charged_only others bud → len out ≤ plain_limit c →
  plain_done others c s (0, out, []) s' bud.
Proof.
  intros [Hl Hw Ha Hr Hh] Hs Hb Hlen. pose proof (len_nonneg (offered c)). split; cbn [fst snd]; rewrite ?app_nil_r; try done; lia.
Qed.
Lemma gave_connection s c out s' :
  (∀ b, is_handshaking (connection s) = b → b = false → is_handshaking c = false) → held c ≤ held (connection s) →
  gave (set_connection c s) out s' → gave s out s'.
Proof.
  intros Hd Hh [[? ? Hheld Hdone] Hw Ha Hr Hh']. cbn in *. split; try done; [|lia]. split; try done; [cbn in *; lia|].
  intros Hs. apply Hdone. by apply (Hd _ eq_refl).
Qed.

Lemma session_encrypt_spec others l limit s bud :
  0 ≤ limit → held (connection s) ≤ TLS_PLAINTEXT_CHUNK → charged_only others bud →
  wp (session_encrypt l limit) (λ '(n, out) s', plain_done others (Plain_encrypt l limit) s (n, out, []) s' bud) (λ _ _, True) s.
Proof.
  intros Hl Hh Hb. unfold session_encrypt. wp_go. destruct (handshaking s) eqn:Hhs; [done|]. wp_go.
  eapply wp_mono; [apply drain_outbound_spec| |done]. cbn beta. intros out s1 (more & -> & Hg & Hlen). cbn [app] in *. rewrite len_nil in Hlen. wp_go.
  destruct (negb (bool_decide (more = [])) || pending_output s1 || (limit <=? len more)) eqn:Ho.
  { apply wp_ret. apply gave_done; try done. cbn. lia. }
  apply orb_false_iff in Ho as [Ho _]. apply orb_false_iff in Ho as [Ho _]. apply negb_false_iff, bool_decide_eq_true in Ho as ->.
  destruct (writer_write (connection s1) l) as [[n|] c] eqn:Hw; [|done]. wp_go. destruct (writer_write_held _ _ _ _ Hw) as [Hn Hc].
  eapply wp_mono; [apply drain_outbound_spec| |done]. cbn beta. intros out2 s2 (more & -> & Hg2 & Hlen2). cbn [app] in *. rewrite len_nil in Hlen2. wp_go.
  destruct (pending_output s2) eqn:Hp; [done|]. wp_go. destruct Hg as [[? ? Hheld Hdone] Hw1 Ha1 Hr1 Hh1]. destruct Hg2 as [[? ? Hheld2 Hdone2] Hw2 Ha2 Hr2 Hh2].
  rewrite app_nil_r in Hw1. cbn in *. split; cbn [fst snd offered plain_limit]; try done; try lia.
  - split; try congruence; [cbn in *; lia|]. intros _. apply Hdone2. unfold handshaking. cbn. rewrite <-(f_equal snd Hw : _ = c).
    eapply becomes_done; [apply becomes_written|by apply Hdone].
  - by rewrite Ha2, Ha1.
  - by rewrite Hw2, Hw1.
  - by rewrite Hr2, Hr1, app_nil_r.
Qed.

Lemma plain_call_spec others c (y : StandaloneTls) s bud :
  standalone_session y = Some s → outbound_limit s = STANDALONE_TLS_OUTPUT_LIMIT → held (connection s) ≤ TLS_PLAINTEXT_CHUNK →
  charged_only others bud → plain_ok c →
  wp (plain_call c) (λ r y', ∃ s', y'.1 = mkStandalone (Some s') ∧ plain_done others c s r s' y'.2) (λ _ _, True) (y, bud).
Proof.
  intros Hs Hlim Hh Hb Hok.
  assert (Htake : ∀ c0, plain_limit c0 = STANDALONE_TLS_OUTPUT_LIMIT → ∀ s1, outbound_limit s1 = STANDALONE_TLS_OUTPUT_LIMIT →
    (∀ out s', gave s1 out s' → gave s out s') →
    wp take_outbound (λ out s', plain_done others c0 s (0, out, []) s' bud) (λ _ _, True) s1).
  { intros c0 Hc0 s1 H1 Hg. eapply wp_mono; [apply take_outbound_spec; by rewrite H1| |done]. cbn beta. intros out s' [Hgave Hlen].
    apply gave_done; try done; [by apply Hg|]. by rewrite Hc0, <-H1. }
  destruct c; cbn [plain_call plain_ok] in *; unfold standalone_start, standalone_receive, promote_control, drain_wire, encrypt, send_close_notify; wp_go;
    (eapply (on_standalone_wp _ _ _ _ s); [exact Hs|]); try apply on_connection_wp.
  - eapply wp_mono; [by apply (Htake Plain_start)| |done]. cbn beta. intros out s' Hd. wp_go. by exists s'.
  - eapply wp_mono; [apply (session_receive_spec others); [done|by rewrite Hlim|done|done]| |done]. cbn beta. intros p [s' bud'] [Hl Hw Ha Hr Ho Hh' Hpl Hi _].
    cbn [fst snd] in *. wp_go. exists s'. split; [done|]. pose proof (inv_dropped _ _ Hi).
    split; cbn [fst snd offered plain_limit]; rewrite ?app_nil_r; try done; by rewrite <-Hlim.
  - unfold session_promote_control. wp_go. destruct (handshaking s) eqn:Hhs.
    { wp_go. exists s. split; [done|]. apply gave_done; [apply gave_nil|done..]. }
    destruct (writer_write (connection s) []) as [[n|] c] eqn:Hw; [|done]. wp_go. destruct (writer_write_held _ _ _ _ Hw) as [Hn Hc].
    eapply wp_mono; [apply (Htake Plain_promote_control); [done|done|]| |done].
    + intros out s'. apply gave_connection; [|done]. intros b <- Hf. rewrite <-(f_equal snd Hw : _ = c). by eapply becomes_done; [apply becomes_written|].
    + cbn beta. intros out s' Hd. wp_go. by exists s'.
  - eapply wp_mono; [apply drain_outbound_spec| |done]. cbn beta. intros out s' (more & -> & Hg & Hlen). wp_go. exists s'. split; [done|].
    rewrite len_nil in Hlen. apply gave_done; [done..|]. cbn in *. lia.
  - eapply wp_mono; [by apply (session_encrypt_spec others)| |done]. cbn beta. intros [n out] s' Hd. wp_go. by exists s'.
  - wp_go. eapply wp_mono; [apply (Htake Plain_close_notify); [done|done|]| |done].
    + intros out s'. apply gave_connection; [|apply close_notify_held]. intros b <- Hf. by eapply becomes_done; [apply becomes_closed|].
    + cbn beta. intros out s' Hd. wp_go. by exists s'.
Qed.

Record PlainBooks others (x : Plain) s : Prop := {
  pb_session : standalone_session (n_tls x) = Some s; pb_limit : outbound_limit s = STANDALONE_TLS_OUTPUT_LIMIT;
  pb_held : held (connection s) ≤ TLS_PLAINTEXT_CHUNK; pb_budget : charged_only others (n_budget x);
  pb_taken : accepted s = n_taken x; pb_sent : wire s = n_sent x; pb_got : released s = n_got x;
  pb_early : handshaking s = true → accepted s = []
}.
Lemma plain_keeps others x s c :
  PlainBooks others x s → plain_ok c →
  wp (do_plain c)
    (λ r x', (∃ s', PlainBooks others x' s' ∧ (0 < r.1 → pending_output s' = false)) ∧ 0 ≤ r.1 ≤ len (offered c) ∧ len r.2 ≤ plain_limit c)
    (λ _ _, True) x.
Proof.
  intros [Hs Hlim Hh Hb Ht Hsent Hg He] Hok. pose proof (plain_call_spec others c _ _ _ Hs Hlim Hh Hb Hok) as Hw. unfold wpx, do_plain in *.
  destruct (plain_call c (n_tls x, n_budget x)) as [[[[n out] got]|e| |] [t bud]]; try done.
  destruct Hw as (s' & Hs' & [Hl Hh' Hb' Hn Ho Ha Hwi Hr Hrec]). cbn [fst snd] in *. subst t. split; [|done]. exists s'. split; [|intros Hpos; apply (Hrec Hpos)].
  split; cbn; try done; [by rewrite (lk_limit _ _ Hl)|by rewrite Ha, Ht|by rewrite Hwi, Hsent|by rewrite Hr, Hg|].
  intros Hhs. pose proof (like_early _ _ Hl Hhs) as Hhs0. rewrite Ha, (He Hhs0). destruct (Z.ltb_spec 0 n) as [Hpos|]; [|by replace n with 0 by lia].
  destruct (Hrec Hpos). congruence.
Qed.

Inductive plain_step : Plain → Plain → Prop :=
| plain_stepped c x r x' : plain_ok c → do_plain c x = (Ok r, x') → plain_step x x'.

(** C20: On a plain TLS connection, whatever rustls and the peer do and in
    whatever order the calls come, no call panics or hangs. The plaintext
    rustls took is exactly what the owner was told was taken, none of it
    before the handshake is done; the bytes to send it was given are all that
    rustls made, in order, and the plaintext all that rustls decrypted. A call
    gives no more than its window, and when plaintext was taken its whole
    record has been given. *)
Theorem plain_tls_exact others configs name bud y x :
  charged_only others bud → standalone_connection configs name = Ok y → rtc plain_step (mkPlain y bud [] [] []) x →
  (∃ s, standalone_session (n_tls x) = Some s ∧ accepted s = n_taken x ∧ wire s = n_sent x ∧ released s = n_got x ∧
        (handshaking s = true → n_taken x = [])) ∧
  ∀ c, plain_ok c → returns (do_plain c x).1 ∧
    ∀ count out x', do_plain c x = (Ok (count, out), x') →
      0 ≤ count ≤ len (offered c) ∧ len out ≤ plain_limit c ∧ (0 < count → standalone_wants_write (n_tls x') = false).
Proof.
  intros Hb Hc Hrun. assert (Hx : ∃ s, PlainBooks others x s).
  { assert (H0 : ∃ s, PlainBooks others (mkPlain y bud [] [] []) s).
    { unfold standalone_connection in Hc. destruct (server_name name) as [sn|]; [|done]. destruct (client_connection _ sn) as [e|c] eqn:Hn; [done|].
      injection Hc as <-. apply client_connection_held in Hn. pose proof (set_buffer_limit_held STANDALONE_TLS_OUTPUT_LIMIT c).
      eexists. split; try done. cbn. lia. }
    clear Hc. induction Hrun as [|x x1 x2 [c z r z' Hok Hdo] _ IH]; [done|]. apply IH. destruct H0 as [s Hx]. pose proof (plain_keeps _ _ _ _ Hx Hok) as Hk.
    unfold wpx in Hk. rewrite Hdo in Hk. destruct Hk as [(s' & Hx' & _) _]. by exists s'. }
  destruct Hx as [s Hx]. split.
  - exists s. destruct Hx as [? ? ? ? Ht ? ? He]. split_and!; try done. intros Hh. by rewrite <-Ht, He.
  - intros c Hok. pose proof (plain_keeps _ _ _ _ Hx Hok) as Hk. unfold wpx in Hk. destruct (do_plain c x) as [[[n out]|e| |] x']; try done.
    split; [done|]. intros n' out' x'' [= <- <- <-]. destruct Hk as [(s' & Hx' & Hrec) [Hn Ho]]. cbn [fst snd] in *. split; [done|]. split; [done|].
    intros Hpos. unfold standalone_wants_write. rewrite (pb_session _ _ _ Hx'). by apply Hrec.
Qed.

End runs.

(** ** A rustls that does not encrypt *)

Module Sample.
#[local] Existing Instance target64.
#[local] Existing Instance doubling.

Record Toy := mkToy { toy_handshaking : bool; toy_out : list Z; toy_in : list Z }.
#[local] Instance toy : Rustls := {|
  ClientConfig := list (list Z); alpn_protocols := id; set_alpn_protocols := λ l _, l;
  ServerName := list Z; server_name := λ l, if bool_decide (l = []) then None else Some l;
  ClientConnection := Toy; client_connection := λ _ _, inr (mkToy true [22; 1] []);
  set_buffer_limit := λ _ c, c; is_handshaking := toy_handshaking;
  wants_write := λ c, negb (bool_decide (toy_out c = [])); outgoing := λ c, Some (toy_out c);
  sent := λ c n, mkToy (toy_handshaking c) (drop (Z.to_nat n) (toy_out c)) (toy_in c);
  read_tls := λ c l, (Some (len l), mkToy (toy_handshaking c) (toy_out c) (toy_in c ++ l));
  process_new_packets := λ c, (inr false, mkToy false (toy_out c) (toy_in c));
  reader_read := λ c n,
    match toy_in c with
    | [] => (PlainBlocks, c)
    | l => (PlainBytes (take (Z.to_nat n) l), mkToy (toy_handshaking c) (toy_out c) (drop (Z.to_nat n) l))
    end;
  writer_write := λ c l, (Some (len l), mkToy (toy_handshaking c) (toy_out c ++ l) (toy_in c));
  writer_write_vectored := λ c l k, (Some (len l + len k), mkToy (toy_handshaking c) (toy_out c ++ l ++ k) (toy_in c));
  connection_close_notify := λ c, mkToy (toy_handshaking c) (toy_out c ++ [21]) (toy_in c);
  held := λ c, len (toy_in c)
|}.
#[local] Instance toy_laws : RustlsLaws.
Proof.
  split; cbn.
  - intros c c' [] Hh; cbn; try done. by destruct (toy_in c).
  - intros c. apply len_nonneg.
  - by intros _ _ c [= <-].
  - done.
  - intros. cbn. lia.
  - intros c l n c' [= <- <-]. cbn. rewrite len_app. pose proof (len_nonneg l). lia.
  - intros c closed c' [= <- <-]. cbn. lia.
  - intros c n l c' Hr Hn. destruct (toy_in c) as [|b r] eqn:He; [done|]. injection Hr as <- <-. cbn. unfold len. rewrite length_take, length_drop. cbn. lia.
  - intros c n c' Hn Hr. destruct (toy_in c) as [|b r] eqn:He.
    + destruct Hr as [|[= <-]]; [done|]. rewrite He. by cbn.
    + destruct Hr as [[= Ht _]|]; [|done]. destruct (Z.to_nat n) eqn:Hz; [lia|done].
  - intros c l n c' [= <- <-]. cbn. pose proof (len_nonneg l). lia.
  - intros c l k n c' [= <- <-]. cbn. pose proof (len_nonneg l). pose proof (len_nonneg k). lia.
  - intros. cbn. lia.
Qed.
Definition configs : NativeTlsConfigs := from_verified [] [].
Definition unlimited : BodyBudget := Budget.budget_new None.
Lemma unlimited_ok : charged_only 0 unlimited.
Proof. pose proof usize_bounds. unfold u32_max in *. split_and!; [lia|split_and!; cbn; try done; lia|done]. Qed.
Definition host : list Z := bs "host".
Definition head : list Z := bs "GET".
Definition sample_tls : NativeTls := mkTls (Some (new_session (mkToy true [22; 1] []) TLS_FLIGHT_LIMIT)) (Some (mkPlaintext head 0)) (mkPlaintext [] 0).

(** The hello, a handshake in a worker, the request, a buffered answer; then a
    second request, and its answer streamed. *)
Definition sample_calls : list TlsCall :=
  [Tls_budget true; Tls_start; Tls_lend; Tls_work [2]; Tls_return false; Tls_pump 4; Tls_pump 100; Tls_receive [65; 66; 67];
   Tls_budget false; Tls_begin head []; Tls_pump 100; Tls_receive_streaming [68; 69; 70]; Tls_consume 2].
Fixpoint run_calls (cs : list TlsCall) (x : Exchange) : Exchange :=
  match cs with [] => x | c :: cs' => run_calls cs' (do_call c x).2 end.
Definition is_ok {A} (o : outcome Error A) : Prop := match o with Ok _ => True | _ => False end.
Fixpoint calls_ok (cs : list TlsCall) (x : Exchange) : Prop :=
  match cs with [] => True | c :: cs' => permitted x c ∧ is_ok (do_call c x).1 ∧ calls_ok cs' (do_call c x).2 end.
Lemma calls_reach cs : ∀ x, calls_ok cs x → rtc exchange_step x (run_calls cs x).
Proof.
  induction cs as [|c cs IH]; intros x; [constructor|]. intros (Hp & Ho & Hok). eapply rtc_l; [|apply IH, Hok].
  destruct (do_call c x) as [[out|e| |] x'] eqn:Hdo; try done. by eapply exchange_call.
Qed.
Definition sample_start : Exchange := exchange_start sample_tls unlimited head [1; 2].
Definition sample_exchange : Exchange := run_calls sample_calls sample_start.
Lemma sample_reachable : rtc exchange_step sample_start sample_exchange.
Proof. apply calls_reach. vm_compute. repeat split; try congruence. by right. Qed.

Definition sample_plain : StandaloneTls := mkStandalone (Some (new_session (mkToy true [22; 1] []) STANDALONE_TLS_OUTPUT_LIMIT)).
Definition plain_calls : list PlainCall := [Plain_start; Plain_receive [2]; Plain_encrypt [7; 8] 100; Plain_close_notify].
Fixpoint run_plain (cs : list PlainCall) (x : Plain) : Plain :=
  match cs with [] => x | c :: cs' => run_plain cs' (do_plain c x).2 end.
Fixpoint plains_ok (cs : list PlainCall) (x : Plain) : Prop :=
  match cs with [] => True | c :: cs' => plain_ok c ∧ is_ok (do_plain c x).1 ∧ plains_ok cs' (do_plain c x).2 end.
Lemma plains_reach cs : ∀ x, plains_ok cs x → rtc plain_step x (run_plain cs x).
Proof.
  induction cs as [|c cs IH]; intros x; [constructor|]. intros (Hp & Ho & Hok). eapply rtc_l; [|apply IH, Hok].
  destruct (do_plain c x) as [[r|e| |] x'] eqn:Hdo; try done. by eapply plain_stepped.
Qed.
Definition plain_start : Plain := mkPlain sample_plain unlimited [] [] [].
Definition plain_end : Plain := run_plain plain_calls plain_start.
Lemma plain_reachable : rtc plain_step plain_start plain_end.
Proof. apply plains_reach. vm_compute. repeat split; congruence. Qed.
End Sample.
Import Sample.
#[local] Existing Instances target64 doubling toy toy_laws.

Example tls_exchange_exact_witness :
  x_sent sample_exchange = [22; 1] ++ head ++ [1; 2] ++ head ∧ x_got sample_exchange = [2; 65; 66; 67; 68; 69] ∧
  ∃ s p, the_session sample_exchange = Some (s, p) ∧ accepted s = x_plan sample_exchange.
Proof.
  split; [by vm_compute|]. split; [by vm_compute|].
  destruct (tls_exchange_exact 0 configs host Request.Verify head [1; 2] unlimited sample_tls sample_exchange
              unlimited_ok eq_refl sample_reachable) as [_ (s & p & Hs & _ & Hf & _)].
  exists s, p. split; [exact Hs|]. apply Hf; by vm_compute.
Defined.
Example tls_keeps_promises_witness : 0 ≤ streaming_read_allowance sample_tls 5.
Proof.
  refine (proj1 (proj2 (proj2 (tls_keeps_promises 0 sample_tls (new_session (mkToy true [22; 1] []) TLS_FLIGHT_LIMIT) unlimited
    eq_refl _ _ eq_refl _ unlimited_ok))) 5).
  - intros r [= <-]. by vm_compute.
  - by vm_compute.
  - by vm_compute.
Defined.
Example plain_tls_exact_witness :
  n_sent plain_end = [22; 1; 7; 8; 21] ∧
  ∃ s, standalone_session (n_tls plain_end) = Some s ∧ accepted s = [7; 8].
Proof.
  split; [by vm_compute|].
  destruct (plain_tls_exact 0 configs host unlimited sample_plain plain_end unlimited_ok eq_refl plain_reachable) as [(s & Hs & Ha & _) _].
  exists s. split; [exact Hs|]. rewrite Ha. by vm_compute.
Defined.
