(* ===== verification/NativeTlsWorkers.v ===== *)
(** * Handshake workers ([src/backend/native_tls/worker.rs])

    Processing the packets of a TLS handshake may block in the platform's
    certificate verification, so the owner hands a session and its input to one
    of two threads and takes the result back later. Each definition is one
    region under the mutex, or one action of a thread between two of them; a
    job's ticket keeps its place occupied until the job or its result is
    dropped, wherever that happens. A step of a session ([TlsSession::receive],
    which may panic) and the clock are parameters. *)

From stdpp Require Import base list strings gmap.
From Stdlib Require Import ZArith Lia.
From S2P Require Import Prelude Errors DnsCache NativeReactor.

Module Workers.
Import Reactor (SlotId).

Definition WORKERS : Z := 2.
Definition QUEUED : Z := 4.
Definition INPUT_WINDOW : Z := 16 * 1024.

Section workers.
Context {tgt : Target} {Session Progress : Type}.
Context (session_receive : Session → list Z → outcome Error Progress * Session).

(** [job_flag] names the job's [cancelled] flag, and its ticket. *)
Record Job := mkJob {
  job_flag : nat; job_slot : SlotId; job_session : Session; job_input : list Z; job_deadline : option Z
}.
Record Finished := mkFinished {
  fin_flag : nat; fin_slot : SlotId; fin_session : Session; fin_progress : Error + Progress
}.

(** What the mutex guards, with the tickets out and the flags raised. *)
Record Shared := mkShared {
  queued : list Job; running : gmap SlotId nat; finished : list Finished; stopping : bool;
  occupied : Z; raised : gset nat; next_flag : nat
}.
Definition set_queued (l : list Job) (s : Shared) : Shared :=
  mkShared l (running s) (finished s) (stopping s) (occupied s) (raised s) (next_flag s).
Definition set_running (m : gmap SlotId nat) (s : Shared) : Shared :=
  mkShared (queued s) m (finished s) (stopping s) (occupied s) (raised s) (next_flag s).
Definition set_finished (l : list Finished) (s : Shared) : Shared :=
  mkShared (queued s) (running s) l (stopping s) (occupied s) (raised s) (next_flag s).
Definition set_stopping (b : bool) (s : Shared) : Shared :=
  mkShared (queued s) (running s) (finished s) b (occupied s) (raised s) (next_flag s).
Definition raise (flags : gset nat) (s : Shared) : Shared :=
  mkShared (queued s) (running s) (finished s) (stopping s) (occupied s) (raised s ∪ flags) (next_flag s).
(** [Drop for Ticket]: [fetch_sub] wraps around. *)
Definition drop_ticket (s : Shared) : Shared :=
  mkShared (queued s) (running s) (finished s) (stopping s) ((occupied s - 1) mod (usize_max + 1)) (raised s) (next_flag s).

(** Where a thread is: waiting for work, between taking a job and locking
    again with its result, dropping a result nobody wants, or gone. *)
Inductive Thread :=
| Waiting
| Holding (job : Job)
| Processed (result : Finished)
| Dropping (result : Finished)
| Exited.

(** [held] are the results the owner has taken and not dropped yet, [trash]
    the jobs and results it removed under the lock and drops after it. *)
Record World := mkWorld { shared : Shared; threads : list Thread; held : list Finished; trash : list nat }.
Definition set_shared (s : Shared) (w : World) : World := mkWorld s (threads w) (held w) (trash w).
Definition set_thread (i : nat) (t : Thread) (w : World) : World := mkWorld (shared w) (<[i := t]> (threads w)) (held w) (trash w).

Definition new : World := mkWorld (mkShared [] ∅ [] false 0 ∅ 0) [] [] [].

(** ** The threads *)

(** [worker_main]: wake up under the lock. *)
Definition worker_take (i : nat) (w : World) : World :=
  let s := shared w in
  if stopping s then set_thread i Exited w
  else
    match queued s with
    | job :: rest =>
        set_thread i (Holding job) (set_shared (set_running (<[job_slot job := job_flag job]> (running s)) (set_queued rest s)) w)
    | [] => w
    end.
(** The step itself, on its own; [expired] is the deadline against the clock. *)
Definition process (cancelled expired : bool) (job : Job) : Finished :=
  let result progress session := mkFinished (job_flag job) (job_slot job) session progress in
  if cancelled then result (inl (error_new ErrorKind.Internal "cancelled TLS handshake step")) (job_session job)
  else if expired then result (inl (error_timeout TimeoutKind.Unknown "TLS handshake deadline elapsed in queue")) (job_session job)
  else
    match session_receive (job_session job) (job_input job) with
    | (Ok progress, session) => result (inr progress) session
    | (Err e, session) => result (inl e) session
    | (_, session) => result (inl (error_new ErrorKind.Internal "TLS handshake processing panicked")) session
    end.
Definition worker_process (i : nat) (job : Job) (now : Z) (w : World) : World :=
  let expired := match job_deadline job with Some deadline => deadline <=? now | None => false end in
  set_thread i (Processed (process (bool_decide (job_flag job ∈ raised (shared w))) expired job)) w.
(** Back under the lock with the result. *)
Definition worker_publish (i : nat) (result : Finished) (w : World) : World :=
  let s := set_running (delete (fin_slot result) (running (shared w))) (shared w) in
  if negb (stopping s) && negb (bool_decide (fin_flag result ∈ raised s)) then
    set_thread i Waiting (set_shared (set_finished (finished s ++ [result]) s) w)
  else set_thread i (Dropping result) (set_shared s w).
Definition worker_drop (i : nat) (w : World) : World := set_thread i Waiting (set_shared (drop_ticket (shared w)) w).

(** ** The owner's calls *)

Definition room (s : Shared) : bool := negb (stopping s) && (len (queued s) <? QUEUED) && (occupied s <? WORKERS + QUEUED).
Definition has_capacity (w : World) : bool := room (shared w).

(** [stop] without its drops, and [shutdown] once the threads are gone. *)
Definition stop (w : World) : World :=
  let s := shared w in
  let flags := list_to_set (map snd (map_to_list (running s))) in
  mkWorld (set_queued [] (set_finished [] (raise flags (set_stopping true s)))) (threads w) (held w)
    (trash w ++ map job_flag (queued s) ++ map fin_flag (finished s)).
Definition all_exited (w : World) : bool := forallb (λ t, match t with Exited => true | _ => false end) (threads w).
Definition joined (w : World) : World := mkWorld (shared w) [] (held w) (trash w).

(** The threads are started with the first job; when one cannot be, those
    already started are stopped and joined, and the flag is taken back. *)
Fixpoint start_threads (spawned : list bool) (w : World) : bool * World :=
  match spawned with
  | [] => (true, w)
  | true :: rest => start_threads rest (mkWorld (shared w) (threads w ++ [Waiting]) (held w) (trash w))
  | false :: _ => (false, let w := joined (stop w) in set_shared (set_stopping false (shared w)) w)
  end.

Definition submit (slot : SlotId) (session : Session) (input : list Z) (deadline : option Z) (spawned : bool * bool) : M World Error unit :=
  if INPUT_WINDOW <? len input then fail (error_new ErrorKind.Internal "TLS handshake input exceeded its read allowance")
  else
    started ← (λ w, match threads w with
                    | [] => let '(o, w) := start_threads [spawned.1; spawned.2] w in (Ok o, w)
                    | _ => (Ok true, w)
                    end);
    if negb started then fail (error_new ErrorKind.Internal "TLS worker creation failed")
    else
      w ← get;
      let s := shared w in
      if stopping s || (QUEUED <=? len (queued s)) || (WORKERS + QUEUED <=? occupied s) then
        fail (error_new ErrorKind.Internal "TLS handshake submitted without capacity")
      else
        put (set_shared (mkShared (queued s ++ [mkJob (next_flag s) slot session input deadline]) (running s) (finished s) (stopping s)
                           ((occupied s + 1) mod (usize_max + 1)) (raised s) (S (next_flag s))) w).

Definition take_finished : M World Error (option Finished) :=
  w ← get;
  match finished (shared w) with
  | result :: rest =>
      _ ← put (mkWorld (set_finished rest (shared w)) (threads w) (held w ++ [result]) (trash w));
      mret (Some result)
  | [] => mret None
  end.
(** The owner drops the result it took, and what [cancel] and [stop] removed. *)
Definition drop_held (w : World) : World :=
  match held w with
  | _ :: rest => mkWorld (drop_ticket (shared w)) (threads w) rest (trash w)
  | [] => w
  end.
Definition drop_trash (w : World) : World :=
  match trash w with
  | _ :: rest => mkWorld (drop_ticket (shared w)) (threads w) (held w) rest
  | [] => w
  end.

(** [position] and [remove]: the first job of the slot. *)
Fixpoint remove_first {A} (p : A → bool) (l : list A) : option A * list A :=
  match l with
  | [] => (None, [])
  | x :: rest => if p x then (Some x, rest) else let '(o, rest) := remove_first p rest in (o, x :: rest)
  end.
Definition cancel (slot : SlotId) (w : World) : World :=
  let s := shared w in
  let s := match running s !! slot with Some flag => raise {[flag]} s | None => s end in
  let '(job, queue) := remove_first (λ j, bool_decide (job_slot j = slot)) (queued s) in
  let '(result, results) := remove_first (λ f, bool_decide (fin_slot f = slot)) (finished s) in
  mkWorld (set_finished results (set_queued queue s)) (threads w) (held w)
    (trash w ++ match job with Some j => [job_flag j] | None => [] end
             ++ match result with Some f => [fin_flag f] | None => [] end).

End workers.
End Workers.
