(* ===== verification/NativeTlsWorkersProofs.v ===== *)
(** * Handshake workers: every job once, within the places there are

    The owner's calls and the threads' actions in any interleaving. A ticket is
    out for every job and result that exists somewhere; a job's result is taken
    at most once, and never after the job was cancelled or the service stopped;
    and the threads finish what they were given. *)

From stdpp Require Import base list strings gmap relations.
From Stdlib Require Import ZArith Lia.
From S2P Require Import Prelude Counting Errors DnsCache NativeReactor NativeTlsWorkers.

Import Reactor (SlotId).
Import Workers.

Section proofs.
Context {tgt : Target} {Session Progress : Type} (session_receive : Session → list Z → outcome Error Progress * Session).
Notation Job := (Job (Session := Session)).
Notation Finished := (Finished (Session := Session) (Progress := Progress)).
Notation Thread := (Thread (Session := Session) (Progress := Progress)).
Notation World := (World (Session := Session) (Progress := Progress)).

(** ** Interleavings *)

(** What was submitted, what was taken, and which jobs the owner gave up. *)
Record History := mkHistory { h_jobs : list Job; h_taken : list Finished; h_withdrawn : gset nat }.
Definition outstanding (p : Job → bool) (h : History) : gset nat :=
  list_to_set (map job_flag (List.filter (λ j, p j && negb (bool_decide (job_flag j ∈ map fin_flag (h_taken h)))) (h_jobs h))).
Definition withdraw (p : Job → bool) (h : History) : History :=
  mkHistory (h_jobs h) (h_taken h) (h_withdrawn h ∪ outstanding p h).

Inductive worker_step : World → World → Prop :=
| step_take i w : threads w !! i = Some Waiting → stopping (shared w) = true ∨ queued (shared w) ≠ [] → worker_step w (worker_take i w)
| step_process i job now w : threads w !! i = Some (Holding job) → worker_step w (worker_process session_receive i job now w)
| step_publish i result w : threads w !! i = Some (Processed result) → worker_step w (worker_publish i result w)
| step_drop i result w : threads w !! i = Some (Dropping result) → worker_step w (worker_drop i w).

(** The owner submits a slot's session only while it has it: the slot has no
    job under way and none that was cancelled is still with a thread. *)
Definition at_owner (slot : SlotId) (w : World) : Prop :=
  slot ∉ map job_slot (queued (shared w)) ∧ running (shared w) !! slot = None ∧ slot ∉ map fin_slot (finished (shared w)).

Inductive step : World * History → World * History → Prop :=
| step_worker w w' h : worker_step w w' → step (w, h) (w', h)
| step_submit slot session input deadline spawned w w' h :
    at_owner slot w → submit slot session input deadline spawned w = (Ok tt, w') →
    step (w, h) (w', mkHistory (h_jobs h ++ [mkJob (next_flag (shared w)) slot session input deadline]) (h_taken h) (h_withdrawn h))
| step_refused slot session input deadline spawned e w w' h :
    submit slot session input deadline spawned w = (Err e, w') → step (w, h) (w', h)
| step_take_finished w result w' h :
    take_finished w = (Ok (Some result), w') → step (w, h) (w', mkHistory (h_jobs h) (h_taken h ++ [result]) (h_withdrawn h))
| step_drop_held w h : step (w, h) (drop_held w, h)
| step_drop_trash w h : step (w, h) (drop_trash w, h)
| step_cancel slot w h : step (w, h) (cancel slot w, withdraw (λ j, bool_decide (job_slot j = slot)) h)
| step_stop w h : step (w, h) (stop w, withdraw (λ _, true) h)
| step_join w h : stopping (shared w) = true → all_exited w = true → step (w, h) (joined w, h).

(** ** Places *)

Definition busy (t : Thread) : list nat :=
  match t with Holding j => [job_flag j] | Processed f | Dropping f => [fin_flag f] | _ => [] end.
Definition live (t : Thread) : list (nat * SlotId) :=
  match t with Holding j => [(job_flag j, job_slot j)] | Processed f => [(fin_flag f, fin_slot f)] | _ => [] end.
Definition all_busy (w : World) : list nat := concat (map busy (threads w)).
Definition all_live (w : World) : list (nat * SlotId) := concat (map live (threads w)).
(** The jobs under way, by flag and slot. *)
Definition under_way (w : World) : list (nat * SlotId) :=
  map (λ j, (job_flag j, job_slot j)) (queued (shared w)) ++ all_live w ++ map (λ f, (fin_flag f, fin_slot f)) (finished (shared w)).

Definition late (j : Job) (now : Z) : bool := match job_deadline j with Some d => d <=? now | None => false end.
(** A result is a step of a submitted job, not cancelled unless its flag says so. *)
Definition made (h : History) (flags : gset nat) (f : Finished) : Prop :=
  ∃ j c now, j ∈ h_jobs h ∧ f = process session_receive c (late j now) j ∧ (c = true → job_flag j ∈ flags).

Record Tickets (w : World) : Prop := {
  ti_all : occupied (shared w) = len (queued (shared w)) + len (all_busy w) + len (finished (shared w)) + len (held w) + len (trash w);
  ti_most : occupied (shared w) ≤ WORKERS + QUEUED;
  ti_queue : len (queued (shared w)) ≤ QUEUED;
  ti_threads : len (threads w) ≤ WORKERS
}.
(** The jobs [U] are under way. *)
Record Places (U : list (nat * SlotId)) (h : History) : Prop := {
  jo_once : NoDup (map fst U ++ map fin_flag (h_taken h));
  jo_slots : NoDup (map snd U);
  jo_known : ∀ x, x ∈ U → ∃ j, j ∈ h_jobs h ∧ x = (job_flag j, job_slot j);
  jo_taken : ∀ x, x ∈ map fin_flag (h_taken h) → x ∈ map job_flag (h_jobs h);
  jo_kept : ∀ j, j ∈ h_jobs h → job_flag j ∈ map fst U ++ map fin_flag (h_taken h) ∨ job_flag j ∈ h_withdrawn h;
  jo_submitted : ∀ x, x ∈ h_withdrawn h → x ∈ map job_flag (h_jobs h)
}.
Record Jobs (w : World) (h : History) : Prop := {
  jo_flags : map job_flag (h_jobs h) = seq 0 (next_flag (shared w));
  jo_places : Places (under_way w) h;
  jo_withdrawn : ∀ x, x ∈ h_withdrawn h →
    x ∉ map job_flag (queued (shared w)) ∧ x ∉ map fin_flag (finished (shared w)) ∧ x ∉ map fin_flag (h_taken h) ∧
    (x ∈ map fst (all_live w) → x ∈ raised (shared w));
  jo_raised : raised (shared w) ⊆ h_withdrawn h;
  jo_running : ∀ slot flag, running (shared w) !! slot = Some flag ↔ (flag, slot) ∈ all_live w;
  jo_stopping : stopping (shared w) = true → under_way w = all_live w ∧ ∀ x, x ∈ all_live w → x.1 ∈ h_withdrawn h;
  jo_threads : threads w = [] → under_way w = []
}.
Record Results (w : World) (h : History) : Prop := {
  re_queued : ∀ j, j ∈ queued (shared w) → j ∈ h_jobs h;
  re_holding : ∀ i j, threads w !! i = Some (Holding j) → j ∈ h_jobs h;
  re_processed : ∀ i f, threads w !! i = Some (Processed f) → made h (raised (shared w)) f;
  re_finished : ∀ f, f ∈ finished (shared w) → made h ∅ f;
  re_taken : ∀ f, f ∈ h_taken h → made h ∅ f;
  re_exited : ∀ i, threads w !! i = Some Exited → stopping (shared w) = true
}.
Implicit Types (w : World) (h : History).

(** ** Tickets *)

Definition free_ticket w : Prop := 0 < occupied (shared w) ≤ usize_max.
Lemma drop_ticket_occupied w : free_ticket w → occupied (drop_ticket (shared w)) = occupied (shared w) - 1.
Proof. intros [? ?]. cbn. apply Z.mod_small. lia. Qed.
Lemma tickets_usize w : Tickets w → 0 ≤ occupied (shared w) ≤ 6.
Proof.
  intros [Ha Hm _ _]. unfold WORKERS, QUEUED in *. pose proof (len_nonneg (queued (shared w))). pose proof (len_nonneg (all_busy w)).
  pose proof (len_nonneg (finished (shared w))). pose proof (len_nonneg (held w)). pose proof (len_nonneg (trash w)). lia.
Qed.
Lemma len_perm {A} (l k : list A) : l ≡ₚ k → len l = len k.
Proof. intros Hp. unfold len. by rewrite Hp. Qed.

(** Putting a thread into another state. *)
Lemma busy_insert w i t t' : threads w !! i = Some t →
  len (concat (map busy (<[i := t']> (threads w)))) = len (all_busy w) + len (busy t') - len (busy t).
Proof. intros Hi. pose proof (len_perm _ _ (concat_insert busy (threads w) i t t' Hi)) as Hl. rewrite !len_app in Hl. unfold all_busy. lia. Qed.

Lemma tickets_thread w w' i t t' :
  Tickets w → threads w !! i = Some t → threads w' = <[i := t']> (threads w) → held w' = held w → trash w' = trash w →
  len (queued (shared w')) ≤ len (queued (shared w)) → occupied (shared w') ≤ occupied (shared w) →
  occupied (shared w') - len (queued (shared w')) - len (busy t') - len (finished (shared w')) =
    occupied (shared w) - len (queued (shared w)) - len (busy t) - len (finished (shared w)) → Tickets w'.
Proof.
  intros [Ha Hm Hq Ht] Hi Hth Hhe Htr Hle Ho He. pose proof (busy_insert w i t t' Hi).
  split; unfold all_busy, WORKERS, QUEUED in *; rewrite ?Hth, ?Hhe, ?Htr; try lia. unfold len in *. rewrite length_insert. lia.
Qed.

Lemma worker_tickets w w' : worker_step w w' → Tickets w → Tickets w'.
Proof.
  intros Hstep HT. pose proof (tickets_usize w HT) as Hu. pose proof usize_bounds as Hus. unfold u32_max in Hus.
  destruct Hstep as [i w Hi Hgo|i job now w Hi|i result w Hi|i result w Hi].
  - unfold worker_take. destruct (stopping (shared w)); [by apply (tickets_thread w _ i Waiting Exited)|].
    destruct (queued (shared w)) as [|job rest] eqn:He; [done|].
    apply (tickets_thread w _ i Waiting (Holding job)); try done; cbn; rewrite ?He, ?len_cons; unfold len; cbn; lia.
  - by apply (tickets_thread w _ i (Holding job) (Processed (process session_receive (bool_decide (job_flag job ∈ raised (shared w))) (late job now) job))).
  - unfold worker_publish. case_match.
    + apply (tickets_thread w _ i (Processed result) Waiting); try done; cbn; rewrite ?len_app; unfold len; cbn; lia.
    + by apply (tickets_thread w _ i (Processed result) (Dropping result)).
  - assert (Hf : free_ticket w).
    { pose proof (busy_insert w i _ Waiting Hi) as Hb. destruct HT as [Ha Hm _ _]. unfold WORKERS, QUEUED in Hm. change (len (busy Waiting)) with 0 in Hb. change (len (busy (Dropping result))) with 1 in Hb. unfold free_ticket. pose proof (len_nonneg (concat (map busy (<[i:=Waiting]> (threads w))))).
      pose proof (len_nonneg (queued (shared w))). pose proof (len_nonneg (finished (shared w))). pose proof (len_nonneg (held w)). pose proof (len_nonneg (trash w)).
      lia. }
    pose proof (drop_ticket_occupied w Hf) as Hd.
    apply (tickets_thread w _ i (Dropping result) Waiting); try done; cbn [worker_drop set_thread set_shared shared]; rewrite ?Hd; try lia.
    cbn. unfold len. cbn. lia.
Qed.

Lemma tickets_drop w w' :
  Tickets w → shared w' = drop_ticket (shared w) → threads w' = threads w → len (held w') + len (trash w') = len (held w) + len (trash w) - 1 → Tickets w'.
Proof.
  intros HT Hs Ht Hl. pose proof (tickets_usize w HT) as Hu. pose proof usize_bounds as Hus. unfold u32_max in Hus. destruct HT as [Ha Hm Hq Hth].
  assert (Hf : free_ticket w).
  { unfold free_ticket. pose proof (len_nonneg (queued (shared w))). pose proof (len_nonneg (all_busy w)). pose proof (len_nonneg (finished (shared w))).
    pose proof (len_nonneg (held w')). pose proof (len_nonneg (trash w')). lia. }
  pose proof (drop_ticket_occupied w Hf) as Hd. split; unfold all_busy, WORKERS, QUEUED in *; rewrite ?Hs, ?Ht, ?Hd; cbn [drop_ticket queued finished]; lia.
Qed.
Lemma remove_first_perm {A} (p : A → bool) (l : list A) :
  l ≡ₚ (match (remove_first p l).1 with Some x => [x] | None => [] end) ++ (remove_first p l).2.
Proof.
  induction l as [|x l IH]; cbn; [done|]. destruct (p x); cbn; [done|]. destruct (remove_first p l) as [o rest]. cbn in *. rewrite IH. destruct o; cbn; [apply Permutation_swap|done].
Qed.
Definition of_slot (slot : SlotId) (j : Job) : bool := bool_decide (job_slot j = slot).
Definition result_of (slot : SlotId) (f : Finished) : bool := bool_decide (fin_slot f = slot).
Definition flag_of (slot : SlotId) w : gset nat := match running (shared w) !! slot with Some flag => {[flag]} | None => ∅ end.
Lemma cancel_eq slot w :
  cancel slot w =
  mkWorld (mkShared (remove_first (of_slot slot) (queued (shared w))).2 (running (shared w)) (remove_first (result_of slot) (finished (shared w))).2
             (stopping (shared w)) (occupied (shared w)) (raised (shared w) ∪ flag_of slot w) (next_flag (shared w)))
    (threads w) (held w)
    (trash w ++ match (remove_first (of_slot slot) (queued (shared w))).1 with Some j => [job_flag j] | None => [] end
             ++ match (remove_first (result_of slot) (finished (shared w))).1 with Some f => [fin_flag f] | None => [] end).
Proof.
  unfold cancel, flag_of, of_slot, result_of. destruct (running (shared w) !! slot); cbn [raise queued finished];
    destruct (remove_first _ (queued _)) as [oj queue], (remove_first _ (finished _)) as [gone results]; cbn; [done|].
  rewrite union_empty_r_L. by destruct (shared w).
Qed.
Lemma cancel_tickets slot w : Tickets w → Tickets (cancel slot w).
Proof.
  intros [Ha Hm Hq Ht]. rewrite cancel_eq. pose proof (len_perm _ _ (remove_first_perm (of_slot slot) (queued (shared w)))) as L1.
  pose proof (len_perm _ _ (remove_first_perm (result_of slot) (finished (shared w)))) as L2.
  destruct (remove_first _ (queued _)) as [oj queue], (remove_first _ (finished _)) as [gone results]. cbn [fst snd] in *.
  rewrite !len_app in *. pose proof (len_nonneg queue).
  split; unfold all_busy, WORKERS, QUEUED in *; cbn [shared queued finished held trash occupied threads]; rewrite ?len_app; try done;
    destruct oj, gone; unfold len in *; cbn in *; lia.
Qed.
Lemma stop_tickets w : Tickets w → Tickets (stop w).
Proof.
  intros [Ha Hm Hq Ht]. split; unfold all_busy in *; cbn; rewrite ?len_app, ?len_map; unfold WORKERS, QUEUED, len in *; cbn; try done; lia.
Qed.
Lemma joined_tickets w : all_exited w = true → Tickets w → Tickets (joined w).
Proof.
  intros He [Ha Hm Hq Ht]. assert (Hb : all_busy w = []).
  { unfold all_exited, all_busy in *. clear Ha Ht. revert He. induction (threads w) as [|t l IH]; [done|]. cbn. by destruct t. }
  rewrite Hb in Ha. split; cbn; try done.
Qed.

(** ** Jobs *)

#[local] Instance Places_proper : Proper ((≡ₚ) ==> eq ==> iff) Places.
Proof.
  assert (Hi : ∀ U U' h, U ≡ₚ U' → Places U h → Places U' h).
  { intros U U' h HU [Ho Hs Hk Ht Hp Hw]. split; [by rewrite <-HU|by rewrite <-HU|intros x; rewrite <-HU; apply Hk|done| |done]. intros j. rewrite <-HU. apply Hp. }
  intros U U' HU h ? <-. split; apply Hi; [done|by symmetry].
Qed.
Lemma seq_elem x n : x ∈ seq 0 n ↔ (x < n)%nat.
Proof. rewrite elem_of_seq. lia. Qed.
(** A flag names one job. *)
Lemma flag_job w h j j' : Jobs w h → j ∈ h_jobs h → j' ∈ h_jobs h → job_flag j = job_flag j' → j = j'.
Proof.
  intros HJ Hj Hj' He. assert (Hn : NoDup (map job_flag (h_jobs h))) by (rewrite (jo_flags _ _ HJ); apply NoDup_seq). clear HJ.
  apply list_elem_of_lookup in Hj as [a Ha], Hj' as [b Hb].
  assert (a = b) as ->; [|congruence]. eapply NoDup_lookup; [exact Hn|by rewrite list_lookup_fmap, Ha|by rewrite list_lookup_fmap, Hb, He].
Qed.
Lemma way_slot w x y : NoDup (map snd (under_way w)) → x ∈ under_way w → y ∈ under_way w → x.2 = y.2 → x = y.
Proof.
  intros Hn [a Ha]%list_elem_of_lookup [b Hb]%list_elem_of_lookup He.
  assert (a = b) as ->; [|congruence]. eapply NoDup_lookup; [exact Hn|by rewrite list_lookup_fmap, Ha|by rewrite list_lookup_fmap, Hb, He].
Qed.
Lemma way_flag w h x y : Jobs w h → x ∈ under_way w → y ∈ under_way w → x.1 = y.1 → x = y.
Proof.
  intros HJ Hx Hy He. destruct (jo_known _ _ (jo_places _ _ HJ) _ Hx) as (j & Hj & ->), (jo_known _ _ (jo_places _ _ HJ) _ Hy) as (j' & Hj' & ->).
  by rewrite (flag_job w h j j').
Qed.
Lemma live_thread w x : x ∈ all_live w ↔ ∃ i t, threads w !! i = Some t ∧ x ∈ live t.
Proof.
  unfold all_live. rewrite list_elem_of_In, in_concat. split.
  - intros (l & (t & <- & Ht)%in_map_iff & Hx). apply list_elem_of_In, list_elem_of_lookup in Ht as [i Hi]. exists i, t. split; [done|]. by apply list_elem_of_In.
  - intros (i & t & Hi & Hx). exists (live t). split; [|by apply list_elem_of_In]. apply in_map, list_elem_of_In. by eapply list_elem_of_lookup_2.
Qed.

Lemma live_set w i t t' : threads w !! i = Some t → all_live (set_thread i t' w) ++ live t ≡ₚ live t' ++ all_live w.
Proof. intros Hi. apply (concat_insert live (threads w) i t t' Hi). Qed.

(** Jobs that are no longer under way. *)
Lemma places_shrink gone U h : Places (gone ++ U) h → (∀ x, x ∈ gone → x.1 ∈ h_withdrawn h) → Places U h.
Proof.
  intros [Ho Hs Hk Ht Hp Hw] Hg. rewrite map_app in Ho, Hs. rewrite <-app_assoc in Ho. split; try done.
  - by apply NoDup_app in Ho as (_ & _ & ?).
  - by apply NoDup_app in Hs as (_ & _ & ?).
  - intros x Hx. apply Hk, elem_of_app. by right.
  - intros j Hj. destruct (Hp j Hj) as [Hin|?]; [|by right]. rewrite map_app, <-app_assoc in Hin.
    apply elem_of_app in Hin as [Hin|Hin]; [right|by left]. apply list_elem_of_fmap in Hin as (x & -> & Hx). by apply Hg.
Qed.

(** A thread moves on and its job stays under way. *)
Lemma process_live c e j : live (Processed (process session_receive c e j)) = live (Holding j).
Proof.
  unfold process. destruct c; [done|]. destruct e; [done|]. by destruct (session_receive _ _) as [[] ?].
Qed.
Lemma all_live_same w i t t' : threads w !! i = Some t → live t' = live t → all_live (set_thread i t' w) ≡ₚ all_live w.
Proof. intros Hi He. pose proof (live_set w i t t' Hi) as Hp. rewrite He in Hp. perm_by idtac. Qed.
Lemma jobs_thread w w' h :
  Jobs w h → queued (shared w') = queued (shared w) → finished (shared w') = finished (shared w) → running (shared w') = running (shared w) →
  stopping (shared w') = stopping (shared w) → raised (shared w') = raised (shared w) → next_flag (shared w') = next_flag (shared w) →
  all_live w' ≡ₚ all_live w → (threads w' = [] → under_way w' = []) → Jobs w' h.
Proof.
  intros [Hf Hpl Hw Hra Hru Hst Hth] Eq Ef Er Es Era En Hl Hne. assert (Hway : under_way w' ≡ₚ under_way w) by (unfold under_way; by rewrite Eq, Ef, Hl).
  split; rewrite ?Eq, ?Ef, ?Er, ?Es, ?Era, ?En; try done.
  - by rewrite Hway.
  - intros x Hx. rewrite Hl. by apply Hw.
  - intros slot flag. rewrite Hl. apply Hru.
  - intros Hs. destruct (Hst Hs) as [Hu Hx]. split; [|intros x; rewrite Hl; apply Hx]. unfold under_way in *. rewrite Eq, Ef.
    pose proof (f_equal length Hu) as Hlen. rewrite !length_app, !length_map in Hlen.
    destruct (queued (shared w)), (finished (shared w)); cbn in *; try lia. by rewrite app_nil_r.
Qed.

Lemma in_way_live w x : x ∈ all_live w → x ∈ under_way w.
Proof. intros Hx. unfold under_way. rewrite !elem_of_app. auto. Qed.
Lemma in_way_queued w j : j ∈ queued (shared w) → (job_flag j, job_slot j) ∈ under_way w.
Proof. intros Hx. unfold under_way. rewrite !elem_of_app. left. by apply (list_elem_of_fmap_2 (λ j, (job_flag j, job_slot j))). Qed.
Lemma set_nonempty w i t : threads (set_thread i t w) = [] → threads w !! i = None.
Proof. cbn. intros He. apply (f_equal length) in He. rewrite length_insert in He. apply lookup_ge_None. cbn in He. lia. Qed.

Lemma take_jobs w h i job rest :
  threads w !! i = Some Waiting → stopping (shared w) = false → queued (shared w) = job :: rest → Jobs w h → Jobs (worker_take i w) h.
Proof.
  intros Hi Hs Hq HJ. unfold worker_take. rewrite Hs, Hq. set (w' := set_thread i _ _).
  assert (Hl : all_live w' ≡ₚ (job_flag job, job_slot job) :: all_live w).
  { pose proof (live_set w i _ (Holding job) Hi) as Hp. cbn in Hp. rewrite app_nil_r in Hp. exact Hp. }
  assert (Hway : under_way w' ≡ₚ under_way w).
  { unfold under_way. rewrite Hl, Hq. cbn. perm_by idtac. }
  pose proof (in_way_queued w job ltac:(rewrite Hq; by left)) as Hjw. destruct HJ as [Hf Hpl Hw Hra Hru Hst Hth]. split; try done.
  - by rewrite Hway.
  - intros x Hx. destruct (Hw x Hx) as (H1 & H2 & H3 & H4). rewrite Hq in H1. cbn [map] in H1. rewrite not_elem_of_cons in H1. destruct H1 as [Hne H1].
    split_and!; try done. rewrite Hl. cbn. rewrite elem_of_cons. intros [->|Hin]; [done|by apply H4].
  - intros slot flag. rewrite Hl, elem_of_cons, <-Hru. cbn [w' set_thread set_shared shared set_queued set_running running].
    destruct (decide (job_slot job = slot)) as [<-|Hne].
    + rewrite lookup_insert_eq. split; [intros [= <-]; by left|]. intros [[= ->]|Hold]; [done|]. apply Hru, in_way_live in Hold.
      pose proof (way_slot w _ _ (jo_slots _ _ Hpl) Hjw Hold eq_refl). congruence.
    + rewrite lookup_insert_ne by done. split; [by right|]. intros [[= _ He]|?]; [congruence|done].
  - cbn. congruence.
  - intros He. apply set_nonempty in He. cbn in He. congruence.
Qed.

Lemma publish_jobs w h i result : threads w !! i = Some (Processed result) → Jobs w h → Jobs (worker_publish i result w) h.
Proof.
  intros Hi HJ. pose proof HJ as [Hf Hpl Hw Hra Hru Hst Hth]. set (me := (fin_flag result, fin_slot result)).
  assert (Hl : ∀ t', live t' = [] → all_live w ≡ₚ me :: all_live (set_thread i t' w)).
  { intros t' He. pose proof (live_set w i _ t' Hi) as Hp. rewrite He in Hp. cbn [live app] in Hp. unfold me. perm_by idtac. }
  assert (Hme : me ∈ all_live w) by (apply live_thread; exists i, (Processed result); split; [done|by left]).
  assert (Hrun : ∀ t', live t' = [] → ∀ slot flag, delete (fin_slot result) (running (shared w)) !! slot = Some flag ↔ (flag, slot) ∈ all_live (set_thread i t' w)).
  { intros t' He slot flag. pose proof (Hl t' He) as Hp. destruct (decide (fin_slot result = slot)) as [<-|Hne].
    - rewrite lookup_delete_eq. split; [done|]. intros Hin. exfalso. pose proof (jo_slots _ _ Hpl) as Hn. unfold under_way in Hn. rewrite Hp, !map_app in Hn.
      apply NoDup_app in Hn as (_ & _ & Hn). apply NoDup_app in Hn as (Hn & _). cbn in Hn. apply NoDup_cons in Hn as [Hn _]. apply Hn.
      by apply (list_elem_of_fmap_2 snd) in Hin.
    - rewrite lookup_delete_ne by done. rewrite Hru, Hp, elem_of_cons. split; [intros [[= _ ->]|?]; done|by right]. }
  assert (Hsub : ∀ t', live t' = [] → ∀ x, x ∈ map fst (all_live (set_thread i t' w)) → x ∈ map fst (all_live w)).
  { intros t' He x Hx. rewrite (Hl t' He). by right. }
  unfold worker_publish. cbn [stopping set_running raised]. destruct (negb (stopping (shared w)) && negb (bool_decide (fin_flag result ∈ raised (shared w)))) eqn:Hk.
  - apply andb_true_iff in Hk as [Hs%negb_true_iff Hnr%negb_true_iff%bool_decide_eq_false]. set (w' := set_thread i Waiting _).
    assert (Hl' : all_live w ≡ₚ me :: all_live w') by exact (Hl Waiting eq_refl).
    assert (Hway : under_way w' ≡ₚ under_way w).
    { unfold under_way. rewrite Hl'. cbn [w' set_thread set_shared shared set_finished set_running finished queued]. rewrite map_app. cbn. fold me. perm_by idtac. }
    split; try done.
    + by rewrite Hway.
    + intros x Hx. destruct (Hw x Hx) as (H1 & H2 & H3 & H4). split_and!; try done; [|intros Hin; by apply H4, (Hsub Waiting)].
      cbn. rewrite map_app, not_elem_of_app. split; [done|]. cbn. rewrite list_elem_of_singleton. intros ->. apply Hnr, H4.
      by apply (list_elem_of_fmap_2 fst) in Hme.
    + by apply (Hrun Waiting).
    + cbn. congruence.
    + intros He. apply set_nonempty in He. cbn in He. congruence.
  - set (w' := set_thread i (Dropping result) _). assert (Hl' : all_live w ≡ₚ me :: all_live w') by exact (Hl (Dropping result) eq_refl).
    assert (Hgone : fin_flag result ∈ h_withdrawn h).
    { apply andb_false_iff in Hk as [Hs%negb_false_iff|Hr%negb_false_iff%bool_decide_eq_true]; [|by apply Hra]. by apply (proj2 (Hst Hs)) in Hme. }
    split; try done.
    + apply (places_shrink [me]); [|by intros x ->%list_elem_of_singleton]. assert (Hway : under_way w ≡ₚ [me] ++ under_way w').
      { unfold under_way. rewrite Hl'. cbn [w' set_thread set_shared shared set_finished set_running finished queued]. perm_by idtac. }
      by rewrite <-Hway.
    + intros x Hx. destruct (Hw x Hx) as (H1 & H2 & H3 & H4). split_and!; try done. intros Hin. by apply H4, (Hsub (Dropping result)).
    + by apply (Hrun (Dropping result)).
    + intros Hs. destruct (Hst Hs) as [Hu Hx]. split; [|intros x Hin; apply Hx; rewrite Hl'; by right].
      unfold under_way in *. cbn [w' set_thread set_shared shared set_running finished queued]. pose proof (f_equal length Hu) as Hlen.
      rewrite !length_app, !length_map in Hlen. destruct (queued (shared w)), (finished (shared w)); cbn in *; try lia. by rewrite app_nil_r.
    + intros He. apply set_nonempty in He. cbn in He. congruence.
Qed.

Lemma worker_jobs w w' h : worker_step w w' → Jobs w h → Jobs w' h.
Proof.
  intros Hstep HJ. assert (Hne : ∀ i t t' w0, threads w !! i = Some t → <[i := t']> (threads w) = [] → under_way w0 = []).
  { intros i t t' w0 Hi He. exfalso. apply (f_equal length) in He. rewrite length_insert in He. destruct (threads w); [by destruct i|done]. }
  destruct Hstep as [i w Hi Hgo|i job now w Hi|i result w Hi|i result w Hi].
  - destruct (stopping (shared w)) eqn:Hs.
    + unfold worker_take. rewrite Hs. apply (jobs_thread w); try done; [by apply (all_live_same w i Waiting)|by eapply Hne].
    + destruct (queued (shared w)) as [|job rest] eqn:Hq; [by destruct Hgo|]. by eapply take_jobs.
  - apply (jobs_thread w); try done; [|by eapply Hne]. apply (all_live_same w i (Holding job)); [done|apply process_live].
  - by apply publish_jobs.
  - apply (jobs_thread w); try done; [|by eapply Hne]. by apply (all_live_same w i (Dropping result)).
Qed.

(** ** The owner's calls *)

Lemma outstanding_elem p h x :
  x ∈ outstanding p h ↔ ∃ j, j ∈ h_jobs h ∧ p j = true ∧ job_flag j ∉ map fin_flag (h_taken h) ∧ x = job_flag j.
Proof.
  unfold outstanding. rewrite elem_of_list_to_set, list_elem_of_fmap. split.
  - intros (j & -> & Hj). apply list_elem_of_In, filter_In in Hj as [Hj Hp]. apply andb_true_iff in Hp as [Hp Ht%negb_true_iff%bool_decide_eq_false].
    exists j. split_and!; try done. by apply list_elem_of_In.
  - intros (j & Hj & Hp & Ht & ->). exists j. split; [done|]. apply list_elem_of_In, filter_In. split; [by apply list_elem_of_In|].
    rewrite Hp. cbn. by apply negb_true_iff, bool_decide_eq_false.
Qed.
Lemma places_withdraw U p h : Places U h → Places U (withdraw p h).
Proof.
  intros [Ho Hs Hk Ht Hp Hw]. split; try done; [intros j Hj; destruct (Hp j Hj); [by left|right]; cbn; set_solver|].
  cbn. intros x [Hx|Hx]%elem_of_union; [by apply Hw|]. apply outstanding_elem in Hx as (j & Hj & _ & _ & ->). by apply list_elem_of_fmap_2.
Qed.
Lemma way_outstanding w h p x :
  Jobs w h → x ∈ under_way w → (∀ j, (job_flag j, job_slot j) = x → p j = true) → x.1 ∈ outstanding p h.
Proof.
  intros HJ Hx Hp. destruct (jo_known _ _ (jo_places _ _ HJ) x Hx) as (j & Hj & ->). apply outstanding_elem. exists j. split_and!; try done; [by apply Hp|].
  pose proof (jo_once _ _ (jo_places _ _ HJ)) as Hn. apply NoDup_app in Hn as (_ & Hd & _). apply Hd. by apply (list_elem_of_fmap_2 fst) in Hx.
Qed.
Lemma way_job w h x : Jobs w h → x ∈ under_way w → ∀ j, j ∈ h_jobs h → x.1 = job_flag j → x.2 = job_slot j.
Proof.
  intros HJ Hx j Hj He. destruct (jo_known _ _ (jo_places _ _ HJ) x Hx) as (j' & Hj' & ->). cbn in *. by rewrite (flag_job w h j' j).
Qed.
Lemma remove_first_gone {A B} `{EqDecision B} (f : A → B) (b : B) l :
  NoDup (map f l) → b ∉ map f (remove_first (λ x, bool_decide (f x = b)) l).2.
Proof.
  induction l as [|x l IH]; cbn; [intros _ Hx; by apply elem_of_nil in Hx|]. intros [Hn Hnd]%NoDup_cons. case_bool_decide as He; [by rewrite <-He|].
  specialize (IH Hnd). destruct (remove_first _ l) as [o rest]. cbn in *. rewrite elem_of_cons. intros [?|?]; [congruence|done].
Qed.

(** Where the parts of [under_way] are. *)
Lemma way_parts w :
  NoDup (map snd (under_way w)) → NoDup (map job_slot (queued (shared w))) ∧ NoDup (map fin_slot (finished (shared w))).
Proof.
  unfold under_way. rewrite !map_app, !map_map. intros (Hq & _ & (_ & _ & Hf)%NoDup_app)%NoDup_app. by split.
Qed.
Lemma in_way_finished w f : f ∈ finished (shared w) → (fin_flag f, fin_slot f) ∈ under_way w.
Proof. intros Hx. unfold under_way. rewrite !elem_of_app. do 2 right. by apply (list_elem_of_fmap_2 (λ f, (fin_flag f, fin_slot f))). Qed.

(** Some of what is under way, not with a thread, is given up together with
    the flags of the threads that work for it. *)
Lemma withdraw_jobs w w' h p gone :
  Jobs w h → under_way w ≡ₚ gone ++ under_way w' → all_live w' = all_live w → threads w' = threads w →
  running (shared w') = running (shared w) → next_flag (shared w') = next_flag (shared w) →
  (∀ j, j ∈ queued (shared w') → j ∈ queued (shared w)) → (∀ f, f ∈ finished (shared w') → f ∈ finished (shared w)) →
  (∀ x, x ∈ gone → ∀ j, (job_flag j, job_slot j) = x → p j = true) →
  (∀ j, j ∈ h_jobs h → p j = true →
     job_slot j ∉ map job_slot (queued (shared w')) ∧ job_slot j ∉ map fin_slot (finished (shared w')) ∧
     (running (shared w) !! job_slot j = Some (job_flag j) → job_flag j ∈ raised (shared w'))) →
  raised (shared w) ⊆ raised (shared w') →
  (∀ x, x ∈ raised (shared w') → x ∈ raised (shared w) ∨ ∃ slot, running (shared w) !! slot = Some x ∧ ∀ j, job_slot j = slot → p j = true) →
  (stopping (shared w') = true → stopping (shared w) = false →
     under_way w' = all_live w' ∧ ∀ x, x ∈ all_live w → ∀ j, (job_flag j, job_slot j) = x → p j = true) →
  (stopping (shared w) = true → stopping (shared w') = true) →
  Jobs w' (withdraw p h).
Proof.
  intros HJ Hway Hl Hth Hrun Hnext HQ HF Hgone Hslots Hup Hraised Hstopping Hstill. pose proof HJ as [Hf Hpl Hw Hra Hru Hst Ht].
  pose proof (jo_slots _ _ Hpl) as Hns.
  assert (Hin : ∀ x, x ∈ under_way w' → x ∈ under_way w) by (intros x Hx; rewrite Hway, elem_of_app; by right).
  split; rewrite ?Hrun, ?Hnext, ?Hth, ?Hl; try done.
  - apply (places_shrink gone); [rewrite <-Hway; by apply places_withdraw|]. intros x Hx. cbn. apply elem_of_union_r.
    apply (way_outstanding w); [done|rewrite Hway, elem_of_app; by left|by apply Hgone].
  - cbn [withdraw h_withdrawn h_taken]. intros x [Hx|Hx]%elem_of_union.
    + destruct (Hw x Hx) as (H1 & H2 & H3 & H4). split_and!; try done; [| |intros Hin'; by apply Hup, H4].
      * intros (j & -> & Hj)%list_elem_of_fmap. apply H1, list_elem_of_fmap_2, HQ, Hj.
      * intros (f & -> & Hj)%list_elem_of_fmap. apply H2, list_elem_of_fmap_2, HF, Hj.
    + apply outstanding_elem in Hx as (j & Hj & Hp & Htk & ->). destruct (Hslots j Hj Hp) as (S1 & S2 & S3). split_and!; try done.
      * intros (j' & He & Hj')%list_elem_of_fmap. apply S1. pose proof (way_job w h _ HJ (in_way_queued w j' (HQ _ Hj')) j Hj (eq_sym He)) as Hs. cbn in Hs.
        rewrite <-Hs. by apply list_elem_of_fmap_2.
      * intros (f & He & Hj')%list_elem_of_fmap. apply S2. pose proof (way_job w h _ HJ (in_way_finished w f (HF _ Hj')) j Hj (eq_sym He)) as Hs. cbn in Hs.
        rewrite <-Hs. by apply list_elem_of_fmap_2.
      * intros ([flag slot] & He & Hx)%list_elem_of_fmap. cbn in He. subst flag. pose proof (way_job w h _ HJ (in_way_live w _ Hx) j Hj eq_refl) as Hs. cbn in Hs. subst slot.
        apply S3. by apply Hru.
  - cbn [withdraw h_withdrawn]. intros x Hx. destruct (Hraised x Hx) as [Hold|(slot & Hs & Hp)]; [apply elem_of_union_l; by apply Hra|].
    apply elem_of_union_r. apply Hru, in_way_live in Hs. apply (way_outstanding w h p _ HJ Hs). intros j [= _ He]. by apply Hp.
  - intros Hs. destruct (stopping (shared w)) eqn:Hso.
    + destruct (Hst eq_refl) as [Hu Hx]. split.
      * pose proof (f_equal length Hu) as Hlen. unfold under_way in Hlen |- *. rewrite !length_app, !length_map in Hlen.
        assert (queued (shared w') = []) as ->. { apply elem_of_nil_inv. intros j Hj%HQ. destruct (queued (shared w)) as [|j0 l0]; [by rewrite elem_of_nil in Hj|cbn in Hlen; lia]. }
        assert (finished (shared w') = []) as ->. { apply elem_of_nil_inv. intros j Hj%HF. destruct (finished (shared w)) as [|j0 l0]; [by rewrite elem_of_nil in Hj|cbn in Hlen; lia]. }
        cbn. by rewrite Hl, app_nil_r.
      * intros x Hin'. cbn. apply elem_of_union_l. by apply Hx.
    + destruct (Hstopping Hs eq_refl) as [Hu Hx]. rewrite Hl in Hu. split; [done|]. intros x Hin'. cbn. apply elem_of_union_r.
      apply (way_outstanding w h p _ HJ (in_way_live w _ Hin')). by apply Hx.
  - intros He. specialize (Ht He). rewrite Ht in Hway. apply Permutation_nil, app_eq_nil in Hway. by destruct Hway.
Qed.

Lemma remove_first_sub {A} (p : A → bool) (l : list A) x : x ∈ (remove_first p l).2 → x ∈ l.
Proof. intros Hx. rewrite (remove_first_perm p l), elem_of_app. by right. Qed.
Lemma remove_first_taken {A} (p : A → bool) (l : list A) x : (remove_first p l).1 = Some x → p x = true.
Proof.
  induction l as [|y l IH]; cbn; [done|]. destruct (p y) eqn:Hp; cbn; [by intros [= <-]|]. by destruct (remove_first p l).
Qed.
Lemma cancel_jobs slot w h : Jobs w h → Jobs (cancel slot w) (withdraw (of_slot slot) h).
Proof.
  intros HJ. rewrite cancel_eq. pose proof (remove_first_perm (of_slot slot) (queued (shared w))) as L1.
  pose proof (remove_first_perm (result_of slot) (finished (shared w))) as L2.
  destruct (way_parts w (jo_slots _ _ (jo_places _ _ HJ))) as [N1 N2].
  pose proof (remove_first_gone job_slot slot _ N1) as G1. pose proof (remove_first_gone fin_slot slot _ N2) as G2.
  pose proof (remove_first_sub (of_slot slot) (queued (shared w))) as S1. pose proof (remove_first_sub (result_of slot) (finished (shared w))) as S2.
  pose proof (remove_first_taken (of_slot slot) (queued (shared w))) as T1. pose proof (remove_first_taken (result_of slot) (finished (shared w))) as T2.
  change (λ x : Job, bool_decide (job_slot x = slot)) with (of_slot slot) in G1. change (λ x : Finished, bool_decide (fin_slot x = slot)) with (result_of slot) in G2.
  destruct (remove_first (of_slot slot) (queued (shared w))) as [oj queue], (remove_first (result_of slot) (finished (shared w))) as [gone results]. cbn [fst snd] in *.
  eapply (withdraw_jobs _ _ _ _
    (map (λ j, (job_flag j, job_slot j)) (match oj with Some x => [x] | None => [] end) ++ map (λ f, (fin_flag f, fin_slot f)) (match gone with Some x => [x] | None => [] end)) HJ);
    cbn [shared threads queued finished running next_flag raised stopping]; try done.
  - unfold under_way. cbn [shared queued finished]. change (all_live (mkWorld _ (threads w) _ _)) with (all_live w). rewrite L1, L2, !map_app. perm_by idtac.
  - intros x [Hx|Hx]%elem_of_app j He; apply list_elem_of_fmap in Hx as (y & -> & Hy).
    + destruct oj as [z|]; [|by apply elem_of_nil in Hy]. apply list_elem_of_singleton in Hy as ->. specialize (T1 z eq_refl). injection He as _ He.
      unfold of_slot in *. apply bool_decide_eq_true in T1. apply bool_decide_eq_true. congruence.
    + destruct gone as [z|]; [|by apply elem_of_nil in Hy]. apply list_elem_of_singleton in Hy as ->. specialize (T2 z eq_refl). injection He as _ He.
      unfold of_slot, result_of in *. apply bool_decide_eq_true in T2. apply bool_decide_eq_true. congruence.
  - intros j _ Hj%bool_decide_eq_true. rewrite Hj. split_and!; try done. unfold flag_of. intros ->. set_solver.
  - set_solver.
  - intros x [Hx|Hx]%elem_of_union; [by left|right]. unfold flag_of in Hx. destruct (running (shared w) !! slot) as [flag|] eqn:Hr; [|set_solver].
    apply elem_of_singleton in Hx as ->. exists slot. split; [done|]. intros j Hj. by apply bool_decide_eq_true.
  - congruence.
Qed.

Lemma stop_jobs w h : Jobs w h → Jobs (stop w) (withdraw (λ _, true) h).
Proof.
  intros HJ. eapply (withdraw_jobs _ _ _ _ (map (λ j, (job_flag j, job_slot j)) (queued (shared w)) ++ map (λ f, (fin_flag f, fin_slot f)) (finished (shared w))) HJ);
    cbn [stop shared threads queued finished running next_flag raised stopping set_queued set_finished set_stopping raise]; try done.
  - unfold under_way. cbn. fold (all_live w). perm_by idtac.
  - by intros j ?%elem_of_nil.
  - by intros j ?%elem_of_nil.
  - intros j _ _. split_and!; [by intros ?%elem_of_nil|by intros ?%elem_of_nil|]. intros Hr. apply elem_of_union. right. apply elem_of_list_to_set.
    apply list_elem_of_fmap. exists (job_slot j, job_flag j). split; [done|by apply elem_of_map_to_list].
  - set_solver.
  - intros x [Hx|Hx]%elem_of_union; [by left|right]. apply elem_of_list_to_set, list_elem_of_fmap in Hx as ([slot flag] & -> & Hx%elem_of_map_to_list).
    by exists slot.
  - intros _ _. split; [|done]. unfold under_way. cbn. by rewrite app_nil_r.
Qed.

Lemma take_finished_jobs w h result rest :
  finished (shared w) = result :: rest → Jobs w h →
  Jobs (mkWorld (set_finished rest (shared w)) (threads w) (held w ++ [result]) (trash w)) (mkHistory (h_jobs h) (h_taken h ++ [result]) (h_withdrawn h)).
Proof.
  intros Hfi HJ. pose proof HJ as [Hf [Ho Hs Hk Htk Hkept Hsub] Hw Hra Hru Hst Ht]. set (w' := mkWorld _ _ _ _). set (me := (fin_flag result, fin_slot result)).
  assert (Hway : under_way w ≡ₚ me :: under_way w').
  { unfold under_way, me. rewrite Hfi. change (all_live w') with (all_live w). cbn [w' shared set_finished queued finished map]. perm_by idtac. }
  assert (Hme : me ∈ under_way w) by (rewrite Hway; by left).
  split; cbn [h_jobs h_taken h_withdrawn]; try done.
  - split; cbn [h_jobs h_taken h_withdrawn]; rewrite ?map_app.
    + rewrite Hway in Ho. cbn [map fst me app] in Ho. cbn [map]. rewrite app_assoc. by rewrite (Permutation_app_comm _ [fin_flag result]).
    + rewrite Hway in Hs. by apply NoDup_cons in Hs as [_ ?].
    + intros x Hx. apply Hk. rewrite Hway. by right.
    + intros x [Hx|Hx]%elem_of_app; [by apply Htk|]. apply list_elem_of_singleton in Hx as ->. destruct (Hk _ Hme) as (j & Hj & [= -> _]). by apply list_elem_of_fmap_2.
    + intros j Hj. destruct (Hkept j Hj) as [Hin|?]; [left|by right]. rewrite Hway in Hin. cbn [map fst me app] in Hin. revert Hin. rewrite elem_of_cons, !elem_of_app.
      intros [->|[?|?]]; [right; right; by left|by left|right; by left].
    + exact Hsub.
  - intros x Hx. destruct (Hw x Hx) as (H1 & H2 & H3 & H4). rewrite Hfi in H2. cbn in H2. apply not_elem_of_cons in H2 as [Hne H2]. split_and!; try done.
    rewrite map_app, not_elem_of_app. split; [done|]. cbn. by rewrite list_elem_of_singleton.
  - intros Hstop. destruct (Hst Hstop) as [Hu _]. exfalso. apply (f_equal length) in Hu. unfold under_way in Hu. rewrite Hfi, !length_app, !length_map in Hu. cbn in Hu. lia.
  - intros He. rewrite (Ht He) in Hme. by apply elem_of_nil in Hme.
Qed.

Lemma joined_jobs w h : all_exited w = true → Jobs w h → stopping (shared w) = true → Jobs (joined w) h.
Proof.
  intros He HJ Hs. assert (Hl : all_live w = []).
  { unfold all_exited, all_live in *. clear HJ Hs. revert He. induction (threads w) as [|t l IH]; [done|]. cbn. by destruct t. }
  pose proof HJ as [Hf Hpl Hw Hra Hru Hst Ht]. destruct (Hst Hs) as [Hu _]. rewrite Hl in Hu.
  assert (Hu' : under_way (joined w) = []). { unfold under_way in *. rewrite Hl in Hu. cbn. exact Hu. }
  split; try done.
  - by rewrite Hu', <-Hu.
  - intros x Hx. destruct (Hw x Hx) as (H1 & H2 & H3 & H4). split_and!; try done. cbn. by rewrite elem_of_nil.
  - intros slot flag. rewrite Hru, Hl. done.
  - intros _. rewrite Hu'. split; [done|]. intros x. cbn. by rewrite elem_of_nil.
Qed.

(** *** Submitting *)

(** [w1] differs from [w] at most by threads that were just started, or by a
    start that failed and was undone. *)
Definition with_threads (l : list Thread) (b : bool) w : World := mkWorld (set_stopping b (shared w)) l (held w) (trash w).
Definition started w w1 : Prop :=
  w1 = w ∨ threads w = [] ∧ (w1 = with_threads [Waiting; Waiting] (stopping (shared w)) w ∨ w1 = with_threads [] false w).

Lemma idle_shared w h : Jobs w h → threads w = [] → queued (shared w) = [] ∧ finished (shared w) = [] ∧ running (shared w) = ∅.
Proof.
  intros HJ He. pose proof (jo_threads _ _ HJ He) as Hu. assert (Hl : all_live w = []) by (unfold all_live; by rewrite He).
  unfold under_way in Hu. apply app_eq_nil in Hu as [Hq Hu]. apply app_eq_nil in Hu as [_ Hf]. split_and!.
  - by destruct (queued (shared w)).
  - by destruct (finished (shared w)).
  - apply map_eq. intros slot. rewrite lookup_empty. destruct (running (shared w) !! slot) as [flag|] eqn:Hr; [|done].
    apply (jo_running _ _ HJ) in Hr. rewrite Hl in Hr. by apply elem_of_nil in Hr.
Qed.
Lemma undo_start w u h : Jobs w h → threads w = [] → shared u = shared w → held u = held w → trash u = trash w →
  (let v := joined (stop u) in set_shared (set_stopping false (shared v)) v) = with_threads [] false w.
Proof.
  intros HJ He Es Eh Et. destruct (idle_shared w h HJ He) as (Hq & Hf & Hr). unfold with_threads, joined, stop, set_shared. cbn.
  rewrite Es, Eh, Et, Hq, Hf, Hr, map_to_list_empty. cbn. rewrite app_nil_r. unfold set_stopping, set_queued, set_finished, raise. cbn.
  by rewrite union_empty_r_L, Hq, Hf.
Qed.
Lemma started_tickets w w1 : started w w1 → Tickets w → Tickets w1.
Proof.
  intros [->|(He & [->| ->])] HT; [done|..]; destruct HT as [Ha Hm Hq Ht]; unfold all_busy in Ha; rewrite He in Ha; split; unfold WORKERS, QUEUED in *; try done; cbn; lia.
Qed.
Lemma started_jobs w w1 h : started w w1 → Jobs w h → Jobs w1 h.
Proof.
  intros [->|(He & Hc)] HJ; [done|]. assert (Hl : all_live w = []) by (unfold all_live; by rewrite He). pose proof (jo_threads _ _ HJ He) as Hu.
  assert (Hl1 : all_live w1 = []) by (by destruct Hc as [-> | ->]).
  assert (∃ b, shared w1 = set_stopping b (shared w) ∧ (b = true → stopping (shared w) = true)) as (b & Hsh & Hb) by (destruct Hc as [-> | ->]; by eexists).
  assert (Hu1 : under_way w1 = []). { unfold under_way in *. rewrite Hl1, Hsh. rewrite Hl in Hu. exact Hu. }
  destruct HJ as [Hf Hpl Hw Hra Hru Hst Ht]. split; rewrite ?Hsh; try done.
  - by rewrite Hu1, <-Hu.
  - intros x Hx. rewrite Hl1, <-Hl. apply (Hw x Hx).
  - intros slot flag. rewrite Hl1, <-Hl. apply Hru.
  - intros _. rewrite Hu1, Hl1. split; [done|]. by intros x ?%elem_of_nil.
Qed.

Definition enqueued (j : Job) w : World :=
  set_shared (mkShared (queued (shared w) ++ [j]) (running (shared w)) (finished (shared w)) (stopping (shared w))
                ((occupied (shared w) + 1) mod (usize_max + 1)) (raised (shared w)) (S (next_flag (shared w)))) w.
Lemma submit_job_spec slot session input deadline spawned w h o w' :
  Jobs w h → submit slot session input deadline spawned w = (o, w') →
  ∃ w1, started w w1 ∧
    ((∃ e, o = Err e ∧ w' = w1) ∨
     (o = Ok tt ∧ room (shared w1) = true ∧ threads w1 ≠ [] ∧ w' = enqueued (mkJob (next_flag (shared w)) slot session input deadline) w1)).
Proof.
  intros HJ Hsub. unfold submit in Hsub. destruct (INPUT_WINDOW <? len input); [injection Hsub as <- <-; exists w; split; [by left|left; by eexists]|].
  unfold mbind, M_bind in Hsub.
  assert (Hst : ∃ b w1, (match threads w with [] => let '(o, w) := start_threads [spawned.1; spawned.2] w in (Ok o, w) | _ => (Ok true, w) end)
    = (Ok b : outcome Error bool, w1) ∧ started w w1 ∧ (b = true → threads w1 ≠ [] ∧ stopping (shared w1) = stopping (shared w) ∧ next_flag (shared w1) = next_flag (shared w))).
  { destruct (threads w) as [|t l] eqn:He; [|exists true, w; split; [done|split; [by left|by rewrite He]]].
    destruct spawned as [[] []]; cbn [start_threads fst snd].
    2-4: exists false, (with_threads [] false w); split; [|split; [right; split; [done|by right]|done]]; f_equal; by eapply undo_start.
    exists true, (with_threads [Waiting; Waiting] (stopping (shared w)) w). split; [|split; [right; split; [done|by left]|done]].
      unfold with_threads. cbn [threads app]. rewrite He. cbn. by destruct (shared w). }
  destruct Hst as (b & w1 & Hrun & Hs1 & Hb). rewrite Hrun in Hsub. exists w1. split; [done|]. destruct b; cbn [negb] in Hsub; [|injection Hsub as <- <-; left; by eexists].
  destruct (Hb eq_refl) as (Hne & _ & Hn). cbn in Hsub. destruct (_ || _) eqn:Hc in Hsub; [injection Hsub as <- <-; left; by eexists|].
  injection Hsub as <- <-. right. apply orb_false_iff in Hc as [Hc Ho%Z.leb_gt]. apply orb_false_iff in Hc as [Hs Hq%Z.leb_gt].
  split_and!; try done; [|by rewrite <-Hn]. unfold room. rewrite Hs. cbn. by apply andb_true_iff; split; apply Z.ltb_lt.
Qed.

Lemma enqueued_tickets w j : Tickets w → room (shared w) = true → Tickets (enqueued j w).
Proof.
  intros HT Hr. pose proof (tickets_usize w HT) as Hu. pose proof usize_bounds as Hus. unfold u32_max in Hus. destruct HT as [Ha Hm Hq Ht].
  unfold room in Hr. apply andb_true_iff in Hr as [Hr Ho%Z.ltb_lt]. apply andb_true_iff in Hr as [_ Hl%Z.ltb_lt]. unfold WORKERS, QUEUED in *.
  split; unfold WORKERS, QUEUED; try done; unfold enqueued; cbn [shared set_shared occupied queued finished held trash]; rewrite ?Z.mod_small by lia; rewrite ?len_app;
    change (len [j]) with 1; try lia. change (all_busy (set_shared _ w)) with (all_busy w). lia.
Qed.
Lemma enqueued_jobs w h slot session input deadline :
  Jobs w h → room (shared w) = true → threads w ≠ [] → at_owner slot w →
  Jobs (enqueued (mkJob (next_flag (shared w)) slot session input deadline) w)
    (mkHistory (h_jobs h ++ [mkJob (next_flag (shared w)) slot session input deadline]) (h_taken h) (h_withdrawn h)).
Proof.
  intros HJ Hr Hne (A1 & A2 & A3). set (j := mkJob _ _ _ _ _). set (w' := enqueued j w). pose proof HJ as [Hf [Ho Hs Hk Htk Hkept Hsub] Hw Hra Hru Hst Ht].
  assert (Hway : under_way w' ≡ₚ (job_flag j, job_slot j) :: under_way w).
  { unfold under_way. change (all_live w') with (all_live w). cbn [w' enqueued set_shared shared queued finished]. rewrite map_app. cbn [map]. perm_by idtac. }
  assert (Hnew : ∀ x, x ∈ map job_flag (h_jobs h) → x ≠ job_flag j). { intros x. rewrite Hf, seq_elem. cbn. lia. }
  assert (Hnw : job_flag j ∉ map fst (under_way w)).
  { intros (x & He & Hx)%list_elem_of_fmap. destruct (Hk x Hx) as (j' & Hj' & ->). by apply (Hnew (job_flag j')); [apply list_elem_of_fmap_2|]. }
  split; cbn [h_jobs h_taken h_withdrawn]; try done.
  - rewrite map_app, Hf. cbn [w' enqueued set_shared shared next_flag map]. change (job_flag j) with (0 + next_flag (shared w))%nat. by rewrite <-seq_S.
  - split; cbn [h_jobs h_taken h_withdrawn]; rewrite ?Hway.
    + cbn [map fst app]. apply NoDup_cons. split; [|done]. rewrite elem_of_app. intros [?|Hx%Htk]; [done|by apply (Hnew _ Hx)].
    + cbn [map snd]. apply NoDup_cons. split; [|done]. unfold under_way. rewrite !map_app, !map_map, !elem_of_app. cbn [j job_slot].
      intros [?|[(x & He & Hx)%list_elem_of_fmap|?]]; [done| |done]. destruct x as [flag slot']. cbn in He. subst slot'. apply Hru in Hx. congruence.
    + intros x. rewrite Hway, elem_of_cons. intros [->|Hx]; [exists j; split; [apply elem_of_app; right; by left|done]|].
      destruct (Hk x Hx) as (j' & Hj' & ->). exists j'. split; [apply elem_of_app; by left|done].
    + intros x Hx%Htk. rewrite map_app, elem_of_app. by left.
    + intros j' [Hj'| ->%list_elem_of_singleton]%elem_of_app; rewrite Hway; cbn [map fst app]; rewrite elem_of_cons; [|by left; left].
      destruct (Hkept j' Hj'); [left; by right|by right].
    + intros x Hx%Hsub. rewrite map_app, elem_of_app. by left.
  - intros x Hx. destruct (Hw x Hx) as (H1 & H2 & H3 & H4). split_and!; try done. cbn. rewrite map_app, not_elem_of_app. split; [done|]. cbn.
    rewrite list_elem_of_singleton. intros ->. by apply (Hnew _ (Hsub _ Hx)).
  - unfold room in Hr. cbn. intros Hx. rewrite Hx in Hr. done.
Qed.

(** ** Results *)

Lemma process_flag c e j : fin_flag (process session_receive c e j) = job_flag j.
Proof. unfold process. destruct c; [done|]. destruct e; [done|]. by destruct (session_receive _ _) as [[] ?]. Qed.
Lemma made_mono h h' (X Y : gset nat) f : (∀ j, j ∈ h_jobs h → j ∈ h_jobs h') → X ⊆ Y → made h X f → made h' Y f.
Proof. intros Hj HX (j & c & now & Hin & -> & Hc). exists j, c, now. split_and!; [by apply Hj|done|]. intros Ht. by apply HX, Hc. Qed.

Lemma results_thread w w' h i t' :
  Results w h → threads w' = <[i := t']> (threads w) → (∀ j, j ∈ queued (shared w') → j ∈ queued (shared w)) →
  raised (shared w') = raised (shared w) → stopping (shared w') = stopping (shared w) → (∀ f, f ∈ finished (shared w') → made h ∅ f) →
  match t' with Holding j => j ∈ h_jobs h | Processed f => made h (raised (shared w)) f | Exited => stopping (shared w) = true | _ => True end →
  Results w' h.
Proof.
  intros [Hq Hh Hp Hf Ht He] Hth Hq' Er Es Hf' Ht'. split; rewrite ?Hth, ?Er, ?Es; try done.
  - intros j Hj. by apply Hq, Hq'.
  - intros k j Hk. apply list_lookup_insert_Some in Hk as [(_ & -> & _)|[_ Hk]]; [done|by eapply Hh].
  - intros k f Hk. apply list_lookup_insert_Some in Hk as [(_ & -> & _)|[_ Hk]]; [done|by eapply Hp].
  - intros k Hk. apply list_lookup_insert_Some in Hk as [(_ & -> & _)|[_ Hk]]; [done|by eapply He].
Qed.
Lemma worker_results w w' h : worker_step w w' → Results w h → Results w' h.
Proof.
  intros Hstep HR. pose proof HR as [Hq Hh Hp Hf Ht He]. destruct Hstep as [i w Hi Hgo|i job now w Hi|i result w Hi|i result w Hi].
  - unfold worker_take. destruct (stopping (shared w)) eqn:Hs; [by apply (results_thread w _ h i Exited)|].
    destruct (queued (shared w)) as [|job rest] eqn:Hqe; [done|].
    apply (results_thread w _ h i (Holding job)); try done; [cbn; intros j Hj; rewrite ?Hqe; by right|apply Hq; rewrite ?Hqe; by left].
  - unfold worker_process. eapply (results_thread w _ h i); try done. cbn.
    exists job, (bool_decide (job_flag job ∈ raised (shared w))), now. split_and!; [by eapply Hh|done|]. by intros ?%bool_decide_eq_true.
  - unfold worker_publish. cbn [stopping set_running raised]. destruct (negb (stopping (shared w)) && _) eqn:Hk.
    + apply andb_true_iff in Hk as [_ Hnr%negb_true_iff%bool_decide_eq_false]. apply (results_thread w _ h i Waiting); try done. cbn.
      intros f [Hin| ->%list_elem_of_singleton]%elem_of_app; [by apply Hf|]. destruct (Hp _ _ Hi) as (j & c & now & Hj & Heq & Hc).
      exists j, c, now. split_and!; try done. intros ->. exfalso. apply Hnr. rewrite Heq, process_flag. by apply Hc.
    + by apply (results_thread w _ h i (Dropping result)).
  - by apply (results_thread w _ h i Waiting).
Qed.

(** The owner's calls, as far as results are concerned. *)
Lemma owner_results w w' h h' :
  Results w h → (∀ j, j ∈ h_jobs h → j ∈ h_jobs h') → (∀ j, j ∈ queued (shared w') → j ∈ queued (shared w) ∨ j ∈ h_jobs h') →
  (∀ i t, threads w' !! i = Some t → threads w !! i = Some t ∨ t = Waiting) →
  raised (shared w) ⊆ raised (shared w') → (∀ f, f ∈ finished (shared w') → f ∈ finished (shared w)) →
  (∀ f, f ∈ h_taken h' → f ∈ h_taken h ∨ f ∈ finished (shared w)) →
  (threads w' ≠ [] → stopping (shared w) = true → stopping (shared w') = true) → Results w' h'.
Proof.
  intros [Hq Hh Hp Hf Ht He] Hj Hq' Hth Hra Hf' Ht' Hs. split.
  - intros j [Hin|Hin]%Hq'; [by apply Hj, Hq|done].
  - intros i j [Hin|]%Hth; [by eapply Hj, Hh|done].
  - intros i f [Hin|]%Hth; [|done]. by eapply made_mono; [..|eapply Hp].
  - intros f Hin%Hf'. by eapply made_mono; [..|apply Hf].
  - intros f [Hin|Hin]%Ht'; (eapply made_mono; [exact Hj|reflexivity|]); [by apply Ht|by apply Hf].
  - intros i Hi. destruct (Hth _ _ Hi) as [Hin|]; [|done]. apply Hs; [by intros He0; rewrite He0 in Hi|by eapply He].
Qed.

(** ** Any interleaving *)

Definition Inv w h : Prop := Tickets w ∧ Jobs w h ∧ Results w h.
Definition begun : World * History := (new, mkHistory [] [] ∅).
Lemma begun_inv : Inv new (mkHistory [] [] ∅).
Proof.
  split_and!.
  - split; done.
  - split; try done; [|by intros slot flag; cbn; rewrite lookup_empty, elem_of_nil].
    split; cbn; try (by constructor); intros x; rewrite ?elem_of_nil; done.
  - split; cbn; intros *; rewrite ?elem_of_nil; done.
Qed.
Lemma step_inv w h w' h' : step (w, h) (w', h') → Inv w h → Inv w' h'.
Proof.
  intros Hstep (HT & HJ & HR). inversion Hstep; subst; clear Hstep.
  - split_and!; [by eapply worker_tickets|by eapply worker_jobs|by eapply worker_results].
  - destruct (submit_job_spec _ _ _ _ _ _ h _ _ HJ ltac:(eassumption)) as (w1 & Hst & [(e & [=] & _)|(_ & Hr & Hne & ->)]).
    pose proof (started_tickets _ _ Hst HT) as HT1. pose proof (started_jobs _ _ _ Hst HJ) as HJ1.
    assert (Hn : next_flag (shared w1) = next_flag (shared w)) by (destruct Hst as [->|(_ & [-> | ->])]; done).
    assert (Ha : at_owner slot w1) by (destruct Hst as [->|(_ & [-> | ->])]; done). rewrite <-Hn.
    split_and!; [by apply enqueued_tickets|by apply enqueued_jobs|]. apply (owner_results w _ h); cbn; try done.
    + intros j Hj. apply elem_of_app. by left.
    + intros j [Hj|Hj]%elem_of_app; [left; by destruct Hst as [->|(_ & [-> | ->])]|right; apply elem_of_app; by right].
    + intros i t Hi. destruct Hst as [->|(_ & [-> | ->])]; [by left|right|by destruct i]. cbn in Hi. by destruct i as [|[|i]]; simplify_eq/=.
    + by destruct Hst as [->|(_ & [-> | ->])].
    + by destruct Hst as [->|(_ & [-> | ->])].
    + by left.
    + intros _ Hs. destruct Hst as [->|(_ & [-> | ->])]; done.
  - destruct (submit_job_spec _ _ _ _ _ _ h' _ _ HJ ltac:(eassumption)) as (w1 & Hst & [(e' & _ & ->)|([=] & _)]).
    split_and!; [by eapply started_tickets|by eapply started_jobs|]. apply (owner_results w _ h'); try done.
    + intros j Hj. left. by destruct Hst as [->|(_ & [-> | ->])].
    + intros i t Hi. destruct Hst as [->|(_ & [-> | ->])]; [by left|right|by destruct i]. cbn in Hi. by destruct i as [|[|i]]; simplify_eq/=.
    + by destruct Hst as [->|(_ & [-> | ->])].
    + by destruct Hst as [->|(_ & [-> | ->])].
    + by left.
    + intros Hne Hs. destruct Hst as [->|(_ & [-> | ->])]; done.
  - match goal with Ht : take_finished _ = _ |- _ => unfold take_finished, mbind, M_bind, get in Ht; destruct (finished (shared w)) as [|f rest] eqn:Hf; [done|]; injection Ht as <- <- end.
    split_and!; [|by apply take_finished_jobs|].
    + destruct HT as [Ha Hm Hq Hth]. unfold all_busy in *. split; try done. cbn. rewrite Ha, Hf, len_cons, len_app. unfold len. cbn. lia.
    + apply (owner_results w _ h); cbn; try done; [by left|by left|rewrite Hf; by right|].
      intros f' [?| ->%list_elem_of_singleton]%elem_of_app; [by left|right; rewrite Hf; by left].
  - split_and!.
    + unfold drop_held. destruct (held w) as [|f rest] eqn:Hh; [done|]. apply (tickets_drop w); try done. cbn. rewrite Hh, len_cons. lia.
    + unfold drop_held. destruct (held w); [done|]. apply (jobs_thread w); try done. apply (jo_threads _ _ HJ).
    + unfold drop_held. destruct (held w); [done|]. apply (owner_results w _ h'); cbn; try done; by left.
  - split_and!.
    + unfold drop_trash. destruct (trash w) as [|f rest] eqn:Hh; [done|]. apply (tickets_drop w); try done. cbn. rewrite Hh, len_cons. lia.
    + unfold drop_trash. destruct (trash w); [done|]. apply (jobs_thread w); try done. apply (jo_threads _ _ HJ).
    + unfold drop_trash. destruct (trash w); [done|]. apply (owner_results w _ h'); cbn; try done; by left.
  - split_and!; [by apply cancel_tickets|by apply cancel_jobs|]. rewrite cancel_eq. apply (owner_results w _ h); cbn; try done.
    + intros j Hj. left. by eapply remove_first_sub.
    + by left.
    + set_solver.
    + intros f. apply remove_first_sub.
    + by left.
  - split_and!; [by apply stop_tickets|by apply stop_jobs|]. apply (owner_results w _ h); cbn; try done.
    + intros j. by rewrite elem_of_nil.
    + by left.
    + set_solver.
    + intros f. by rewrite elem_of_nil.
    + by left.
  - split_and!; [by apply joined_tickets|by apply joined_jobs|]. apply (owner_results w _ h'); cbn; try done; by left.
Qed.
Lemma reachable_inv w h : rtc step begun (w, h) → Inv w h.
Proof.
  intros Hrun. assert (Hg : ∀ x y, rtc step x y → Inv x.1 x.2 → Inv y.1 y.2).
  { induction 1 as [|[w1 h1] [w2 h2] y Hs _ IH]; [done|]. intros Hi. apply IH. by eapply step_inv. }
  apply (Hg _ _ Hrun), begun_inv.
Qed.

(** ** The threads finish *)

Definition weight (t : Thread) : nat :=
  match t with Waiting => 1 | Holding _ => 4 | Processed _ => 3 | Dropping _ => 2 | Exited => 0 end.
Definition work w : nat := 4 * length (queued (shared w)) + sum_list_with weight (threads w).
Lemma weight_insert l i t t' : l !! i = Some t → (sum_list_with weight (<[i := t']> l) + weight t = sum_list_with weight l + weight t')%nat.
Proof.
  revert i. induction l as [|x l IH]; intros [|i] Hi; simplify_eq/=; [lia|]. specialize (IH i Hi). lia.
Qed.
Lemma worker_works w w' : worker_step w w' → (work w' < work w)%nat.
Proof.
  intros Hstep. unfold work. destruct Hstep as [i w Hi Hgo|i job now w Hi|i result w Hi|i result w Hi].
  - unfold worker_take. destruct (stopping (shared w)); [pose proof (weight_insert _ _ _ Exited Hi); cbn in *; lia|].
    destruct (queued (shared w)) as [|job rest] eqn:Hq; [by destruct Hgo|]. pose proof (weight_insert _ _ _ (Holding job) Hi). cbn in *. lia.
  - pose proof (weight_insert _ _ _ (Processed (process session_receive (bool_decide (job_flag job ∈ raised (shared w))) (late job now) job)) Hi).
    cbn in *. unfold late in *. lia.
  - unfold worker_publish. case_match; [pose proof (weight_insert _ _ _ Waiting Hi)|pose proof (weight_insert _ _ _ (Dropping result) Hi)]; cbn in *; lia.
  - pose proof (weight_insert _ _ _ Waiting Hi). cbn in *. lia.
Qed.
Lemma worker_steps_work n w w' : nsteps worker_step n w w' → (n + work w' ≤ work w)%nat.
Proof. induction 1 as [|n x y z Hs _ IH]; [lia|]. apply worker_works in Hs. lia. Qed.
Lemma worker_steps_inv n w w' h : nsteps worker_step n w w' → Inv w h → Inv w' h.
Proof.
  induction 1 as [|n x y z Hs _ IH]; [done|]. intros Hi. apply IH. eapply step_inv; [|exact Hi]. by apply step_worker.
Qed.
Lemma work_bound w : Tickets w → (work w ≤ 24)%nat.
Proof.
  intros [_ _ Hq Ht]. unfold work, QUEUED, WORKERS, len in *. assert (Hs : (sum_list_with weight (threads w) ≤ 4 * length (threads w))%nat).
  { clear. induction (threads w) as [|t l IH]; cbn; [lia|]. destruct t; cbn in *; lia. } lia.
Qed.
(** When no thread can act, no job is queued or with a thread. *)
Lemma quiet_way w h : Inv w h → (∀ w', ¬ worker_step w w') → queued (shared w) = [] ∧ all_live w = [].
Proof.
  intros (HT & HJ & HR) Hq. assert (Hidle : ∀ i t, threads w !! i = Some t → t = Waiting ∧ queued (shared w) = [] ∨ t = Exited).
  { intros i t Hi. destruct t; [left|exfalso; by eapply Hq, (step_process i _ 0)|exfalso; by eapply Hq, (step_publish i)|exfalso; by eapply Hq, (step_drop i)|by right].
    split; [done|].
    destruct (queued (shared w)) eqn:He; [done|]. exfalso. eapply Hq, (step_take i); [done|right; by rewrite He]. }
  assert (Hl : all_live w = []).
  { apply elem_of_nil_inv. intros x (i & t & Hi & Hx)%live_thread. destruct (Hidle i t Hi) as [[-> _]| ->]; by apply elem_of_nil in Hx. }
  split; [|done]. destruct (threads w) as [|t l] eqn:Hth; [by apply (idle_shared w h)|].
  destruct (Hidle 0%nat t eq_refl) as [[_ ?]| ->]; [done|]. assert (Hs : stopping (shared w) = true) by (apply (re_exited _ _ HR 0%nat); by rewrite Hth).
  destruct (jo_stopping _ _ HJ Hs) as [Hu _]. rewrite Hl in Hu. unfold under_way in Hu. apply app_eq_nil in Hu as [Hu _]. by destruct (queued (shared w)).
Qed.

Lemma room_stays w w' : worker_step w w' → Tickets w → room (shared w) = true → room (shared w') = true.
Proof.
  intros Hs HT Hc. pose proof (worker_tickets _ _ Hs HT) as HT'. pose proof (tickets_usize _ HT) as Hu. pose proof (tickets_usize _ HT') as Hu'.
  pose proof usize_bounds as Hus. unfold u32_max in Hus. unfold room in *.
  apply andb_true_iff in Hc as [Hc Ho%Z.ltb_lt]. apply andb_true_iff in Hc as [Hst%negb_true_iff Hl%Z.ltb_lt].
  assert (Hgoal : stopping (shared w') = false → len (queued (shared w')) ≤ len (queued (shared w)) → occupied (shared w') ≤ occupied (shared w) →
    negb (stopping (shared w')) && (len (queued (shared w')) <? QUEUED) && (occupied (shared w') <? WORKERS + QUEUED) = true).
  { intros -> ? ?. cbn. apply andb_true_iff; split; apply Z.ltb_lt; lia. }
  destruct Hs as [i x Hx Hgo|i job now x Hx|i result x Hx|i result x Hx].
  - apply Hgoal; unfold worker_take; rewrite Hst; destruct (queued (shared x)) as [|job rest] eqn:Hq; try done; cbn; rewrite ?Hq, ?len_cons; lia.
  - by apply Hgoal.
  - apply Hgoal; unfold worker_publish; case_match; cbn; try done; lia.
  - apply Hgoal; [done..|]. cbn in Hu' |- *. destruct (Z.eq_dec (occupied (shared x)) 0) as [Hz|Hz]; [|rewrite Z.mod_small; lia].
    rewrite Hz in Hu'. replace ((0 - 1) mod (usize_max + 1)) with usize_max in Hu'; [lia|].
    replace (0 - 1) with (usize_max + (-1) * (usize_max + 1)) by lia. rewrite Z.mod_add by lia. symmetry. apply Z.mod_small. lia.
Qed.

(** C21: Whatever the owner's calls, the threads' actions, the clock and the
    sessions do, in any interleaving, at most four jobs are queued and six
    tickets out, one for every job and result there is. A result is taken at
    most once; it is that of the job's own session on its own input, or the
    error of a deadline that passed; a job that was cancelled, or was there
    when the service stopped, never gives a result that is taken; and no other
    job is lost. *)
Theorem handshake_jobs_exact w h :
  rtc step begun (w, h) →
  len (queued (shared w)) ≤ QUEUED ∧ occupied (shared w) ≤ WORKERS + QUEUED ∧
  occupied (shared w) = len (queued (shared w)) + len (all_busy w) + len (finished (shared w)) + len (held w) + len (trash w) ∧
  NoDup (map job_flag (h_jobs h)) ∧ NoDup (map fin_flag (h_taken h)) ∧
  (∀ f, f ∈ h_taken h → ∃ j now, j ∈ h_jobs h ∧ f = process session_receive false (late j now) j) ∧
  (∀ x, x ∈ h_withdrawn h → x ∉ map fin_flag (h_taken h)) ∧
  (∀ j, j ∈ h_jobs h → job_flag j ∈ map fst (under_way w) ∨ job_flag j ∈ map fin_flag (h_taken h) ∨ job_flag j ∈ h_withdrawn h).
Proof.
  intros Hrun. destruct (reachable_inv _ _ Hrun) as (HT & HJ & HR). pose proof (jo_places _ _ HJ) as Hpl. split_and!; try apply HT.
  - rewrite (jo_flags _ _ HJ). apply NoDup_seq.
  - pose proof (jo_once _ _ Hpl) as Ho. by apply NoDup_app in Ho as (_ & _ & ?).
  - intros f Hf. destruct (re_taken _ _ HR f Hf) as (j & c & now & Hj & -> & Hc). exists j, now. split; [done|]. destruct c; [|done].
    by specialize (Hc eq_refl); apply not_elem_of_empty in Hc.
  - intros x Hx. apply (jo_withdrawn _ _ HJ x Hx).
  - intros j Hj. destruct (jo_kept _ _ Hpl j Hj) as [Hin|?]; [|by right; right]. apply elem_of_app in Hin as [?|?]; [by left|by right; left].
Qed.

(** C22: The threads get the work done: from any moment on they can act at most
    24 times before they wait for the owner, and then every job that was
    submitted has its result ready or taken, unless it was cancelled or the
    service stopped. Meanwhile room that the owner saw stays, so that a job it
    then submits, within the input window, is accepted. *)
Theorem handshakes_finish w h n w' :
  rtc step begun (w, h) → nsteps worker_step n w w' →
  (n ≤ 24)%nat ∧
  ((∀ w'', ¬ worker_step w' w'') →
   ∀ j, j ∈ h_jobs h → job_flag j ∈ map fin_flag (finished (shared w')) ∨ job_flag j ∈ map fin_flag (h_taken h) ∨ job_flag j ∈ h_withdrawn h) ∧
  (has_capacity w = true → ∀ slot session input deadline, len input ≤ INPUT_WINDOW →
   ∃ w'', submit slot session input deadline (true, true) w' = (Ok tt, w'')).
Proof.
  intros Hrun Hsteps. pose proof (reachable_inv _ _ Hrun) as Hi. pose proof (worker_steps_inv _ _ _ _ Hsteps Hi) as Hi'. split_and!.
  - pose proof (worker_steps_work _ _ _ Hsteps). pose proof (work_bound w (proj1 Hi)). lia.
  - intros Hq j Hj. destruct (quiet_way w' h Hi' Hq) as [Eq El]. destruct Hi' as (_ & HJ & _).
    destruct (jo_kept _ _ (jo_places _ _ HJ) j Hj) as [Hin|?]; [|by right; right]. apply elem_of_app in Hin as [Hin|?]; [|by right; left]. left.
    unfold under_way in Hin. rewrite Eq, El, !map_app, !map_map in Hin. exact Hin.
  - intros Hc. assert (Hroom : room (shared w') = true).
    { clear Hrun Hi'. revert Hi Hc. induction Hsteps as [|n x y z Hs _ IH]; [done|]. intros Hi Hc.
      apply IH; [eapply step_inv; [by apply step_worker|exact Hi]|]. by eapply room_stays; [|apply Hi|]. }
    intros slot session input deadline Hin. unfold submit. rewrite (proj2 (Z.ltb_ge _ _)) by lia. unfold mbind, M_bind.
    assert (Hnot : (stopping (shared w') || (QUEUED <=? len (queued (shared w'))) || (WORKERS + QUEUED <=? occupied (shared w'))) = false).
    { unfold room in Hroom. apply andb_true_iff in Hroom as [Hroom Ho%Z.ltb_lt]. apply andb_true_iff in Hroom as [Hst%negb_true_iff Hl%Z.ltb_lt].
      rewrite Hst. cbn. apply orb_false_iff. by split; apply Z.leb_gt. }
    destruct (threads w') as [|t l]; cbn; cbn in Hnot; rewrite Hnot; by eexists.
Qed.

End proofs.

(** ** A run: a handshake in a worker, and one that is cancelled *)

Module Sample.
#[local] Existing Instance target64.
Definition echo (s : nat) (l : list Z) : outcome Error Z * nat := (Ok (len l), S s).
Definition slot1 : SlotId := Reactor.mkSlotId 0 1.
Definition slot2 : SlotId := Reactor.mkSlotId 1 2.
Definition sample_world : Type := World (Session := nat) (Progress := Z).
Definition submitted1 : sample_world := (submit slot1 7%nat [1; 2; 3] None (true, true) new).2.
Definition taken1 : sample_world := worker_take 0 submitted1.
Definition job1 : Job (Session := nat) := mkJob 0 slot1 7%nat [1; 2; 3] None.
Definition processed1 : sample_world := worker_process echo 0 job1 5 taken1.
Definition result1 : Finished (Session := nat) (Progress := Z) := mkFinished 0 slot1 8%nat (inr 3).
Definition published1 : sample_world := worker_publish 0 result1 processed1.
Definition received1 : sample_world := (take_finished published1).2.
Definition submitted2 : sample_world := (submit slot2 0%nat [] None (true, true) received1).2.
Definition cancelled2 : sample_world := cancel slot2 submitted2.
Definition history : History := withdraw (λ j, bool_decide (job_slot j = slot2)) (mkHistory [job1; mkJob 1 slot2 0%nat [] None] [result1] ∅).

Lemma worker_run : rtc (step echo) begun (cancelled2, history).
Proof.
  eapply rtc_l; [eapply (step_submit _ slot1 7%nat [1; 2; 3] None (true, true) _ submitted1)|].
  { split_and!; [by intros ?%elem_of_nil|done|by intros ?%elem_of_nil]. }
  { reflexivity. }
  eapply rtc_l; [eapply (step_worker _ _ taken1), (step_take _ 0 submitted1); [done|by right]|].
  eapply rtc_l; [eapply (step_worker _ _ processed1), (step_process echo 0 job1 5 taken1); done|].
  eapply rtc_l; [eapply (step_worker _ _ published1), (step_publish _ 0 result1 processed1); done|].
  eapply rtc_l; [eapply (step_take_finished _ _ result1 received1); reflexivity|].
  eapply rtc_l; [eapply (step_submit _ slot2 0%nat [] None (true, true) _ submitted2)|].
  { split_and!; [by intros ?%elem_of_nil|done|by intros ?%elem_of_nil]. }
  { reflexivity. }
  eapply rtc_l; [apply (step_cancel _ slot2)|]. reflexivity.
Qed.
End Sample.
Import Sample.

Example handshake_jobs_exact_witness :
  h_taken history = [result1] ∧ 1%nat ∈ h_withdrawn history ∧ 1%nat ∉ map fin_flag (h_taken history).
Proof.
  assert (Hw : 1%nat ∈ h_withdrawn history) by (apply (bool_decide_unpack _); vm_compute; done).
  split; [done|]. split; [exact Hw|].
  destruct (@handshake_jobs_exact target64 nat Z echo cancelled2 history worker_run) as (_ & _ & _ & _ & _ & _ & Hn & _). exact (Hn _ Hw).
Defined.
Example handshakes_finish_witness :
  has_capacity cancelled2 = true ∧ ∃ w, submit (tgt := target64) slot1 9%nat [4] None (true, true) cancelled2 = (Ok tt, w).
Proof.
  split; [reflexivity|].
  destruct (@handshakes_finish target64 nat Z echo cancelled2 history 0%nat cancelled2 worker_run (nsteps_O _ _)) as (_ & _ & Hc).
  exact (Hc eq_refl slot1 9%nat [4] None ltac:(done)).
Defined.
