(* ===== verification/NativeHttp.v ===== *)
(** * The connection owner ([src/backend/native_http.rs])

    [NativeHttpBackend] takes requests, finds or opens a connection for each,
    feeds it, hands the response back, and keeps finished connections for reuse.
    The reactor is the one of [NativeReactor.v]. What the owner calls besides
    (TLS sessions and their workers, decoders, upload channels, the resolver's
    handle) is the class [HttpPeers]; the [n]-th question gets the [n]-th
    answer. A stream's [ResponseSink] is named by its request; what the owner
    tells it is recorded in [stream_log]. Metrics, lookups of the application
    and standalone TCP connections are not modelled. This file has the state,
    the accounting of connections and the way of a request to its connection;
    [NativeHttpEvents.v] has the exchange. *)

From stdpp Require Import base list strings gmap.
From Stdlib Require Import ZArith Lia.
From S2P Require Import Prelude Errors BodyBudget DnsCache DnsConfig StdText Request Stream Http1 Http1Decoder NativeUpload NativeReactor.

Module Owner.
Import Budget (bytes).
Import Request Http1.
Import Reactor (SlotId, NativeFailure, NativeEvent, Sockets, NativeReactor).
Import Config (SocketAddr).
Import Streaming (StreamDecodeProgress, StreamHeadDecision).

Definition RequestId : Type := Z.
Definition ResolveKey : Type := Z.
Definition INPUT_WINDOW : Z := 16 * 1024.
Definition TLS_FLIGHT_LIMIT : Z := 512 * 1024.

Inductive Completion := Completed (response : Buffered.Response) | Failed (error : Error) | Cancelled.

(** [outbound], [handshake_complete], [peer_closed]. *)
Record TlsStreamProgress := mkTlsStreamProgress {
  sp_outbound : list Z; sp_handshake_complete : bool; sp_peer_closed : bool
}.
Record TlsProgress := mkTlsProgress {
  tp_outbound : list Z; tp_plaintext : list Z; tp_handshake_complete : bool; tp_peer_closed : bool
}.

(** ** What the owner calls *)

(** [inl] and [Some] are errors where the type says so. [NativeTls] keeps the
    plaintext that is not consumed yet; a request body and a budget are shared
    by their addresses. *)
Class HttpPeers := {
  peers_clock :: Clock;
  peers_sockets :: Sockets;
  (* TLS sessions *)
  NativeTls : Type;
  TlsSession : Type;
  tls_connection : nat → list Z → TlsVerification → list Z → Error + NativeTls;
  tls_start : nat → NativeTls → (Error + list Z) * NativeTls;
  tls_receive : nat → NativeTls → list Z → (Error + TlsProgress) * NativeTls;
  tls_receive_streaming : nat → NativeTls → list Z → (Error + TlsStreamProgress) * NativeTls;
  tls_retain_stream_progress : nat → NativeTls → TlsProgress → (Error + TlsStreamProgress) * NativeTls;
  tls_begin_request : nat → NativeTls → list Z → (Error + unit) * NativeTls;
  tls_pump_request_body : nat → NativeTls → list Z → Z → (Error + (list Z * Z)) * NativeTls;
  tls_is_handshaking : NativeTls → bool;
  tls_handshake_in_worker : NativeTls → bool;
  tls_request_fully_encrypted : NativeTls → bool;
  tls_streaming_read_allowance : NativeTls → Z → Z;
  tls_retained_plaintext : NativeTls → list Z;
  tls_consume_retained_plaintext : NativeTls → Z → (Error + unit) * NativeTls;
  tls_take_handshake : NativeTls → option TlsSession * NativeTls;
  tls_restore_handshake : NativeTls → TlsSession → NativeTls;
  (* the handshake workers: finished jobs, room for another, submitting one *)
  workers_finished : nat → list (SlotId * TlsSession * (Error + TlsProgress));
  workers_has_capacity : nat → bool;
  workers_submit : nat → option Error;
  (* decoders *)
  BufferedDecoder : Type;
  StreamDecoder : Type;
  decoder_new : bool → HttpLimits → Request → BufferedDecoder;
  decoder_ingest : nat → BufferedDecoder → list Z → (Error + Buffered.DecodeProgress) * BufferedDecoder;
  decoder_eof : nat → BufferedDecoder → (Error + option Buffered.Response) * BufferedDecoder;
  stream_new : bool → HttpLimits → RequestId → StreamDecoder;
  stream_ingest : nat → StreamDecoder → list Z → (Error + StreamDecodeProgress) * StreamDecoder;
  stream_decide_head : nat → StreamDecoder → bool → (Error + StreamHeadDecision) * StreamDecoder;
  stream_eof : nat → StreamDecoder → (Error + option (bool * bool)) * StreamDecoder;
  stream_take_response : nat → StreamDecoder → (Error + unit) * StreamDecoder;
  stream_socket_capacity : nat → StreamDecoder → Z;
  stream_consumer_blocked : nat → StreamDecoder → bool;
  (* uploads: their framing, queue capacity, the answers of [next_wire] during
     one pump, whether they are complete *)
  UploadBody : Type;
  upload_framing : UploadBody → Upload.UploadFraming;
  upload_queue_capacity : UploadBody → Z;
  upload_wires : nat → UploadBody → list (Error + UploadWire);
  upload_is_complete : nat → UploadBody → bool;
  (* the resolver's handle *)
  resolver_take_idle_http_eviction : nat → Error + option Z;
  resolver_drain : nat → Error + list (ResolveKey * (string + list IpAddr));
  resolver_resolve : nat → list Z → option Error;
  resolver_cancel : nat → option Error;
  (* a hash map's order, the crate [url], shared buffers *)
  hash_order : nat → ∀ A : Type, list A → list A;
  url_parses : list Z → bool;
  url_join : list Z → list Z → option (list Z);
  body_owner : Request → Z;
  body_budget : Request → option Z;
  (* what the owner relies on *)
  tls_pump_bounds : ∀ n t body limit out consumed t',
    tls_pump_request_body n t body limit = (inr (out, consumed), t') → 0 ≤ consumed ≤ len body;
  tls_consume_spec : ∀ t n t',
    tls_consume_retained_plaintext t n = (inr tt, t') →
    0 ≤ n → n ≤ len (tls_retained_plaintext t) ∧ tls_retained_plaintext t' = drop (Z.to_nat n) (tls_retained_plaintext t);
  stream_ingest_bounds : ∀ n d bytes p d',
    stream_ingest n d bytes = (inr p, d') →
    match p with
    | Streaming.ProgressHead _ consumed => 0 < consumed ≤ len bytes
    | Streaming.ProgressBody consumed _ | Streaming.ProgressComplete consumed _ _ => 0 ≤ consumed ≤ len bytes
    end;
  stream_socket_capacity_nonneg : ∀ n d, 0 ≤ stream_socket_capacity n d;
  tls_streaming_read_allowance_nonneg : ∀ t n, 0 ≤ n → 0 ≤ tls_streaming_read_allowance t n;
  upload_queue_capacity_nonneg : ∀ u, 0 ≤ upload_queue_capacity u;
  hash_order_perm : ∀ n A l, hash_order n A l ≡ₚ l;
  body_owner_bytes : ∀ r, Reactor.arc_bytes (body_owner r) = bytes (body r)
}.

(** ** Data *)

Record ConnectionLimits := mkConnectionLimits {
  global : Z; per_origin : Z; idle_global : Z; idle_per_origin : Z; idle_timeout : Z
}.

Record ConnectionKey := mkKey {
  key_scheme : list Z; key_host : list Z; key_port : Z; key_dangerously_disable_tls_verification : bool
}.
#[global] Instance ConnectionKey_eq_dec : EqDecision ConnectionKey.
Proof. solve_decision. Defined.
#[global] Instance ConnectionKey_countable : Countable ConnectionKey.
Proof.
  apply (inj_countable' (λ k, (key_scheme k, key_host k, key_port k, key_dangerously_disable_tls_verification k))
           (λ x, mkKey x.1.1.1 x.1.1.2 x.1.2 x.2)). by intros [].
Defined.

Record PendingDeadlines := mkDeadlines { d_connect : option Z; d_total : option Z; d_inactivity : option Z }.

Definition flatten_min (l : list (option Z)) : option Z :=
  foldr (λ o acc, match o, acc with Some a, Some b => Some (Z.min a b) | Some a, None => Some a | None, _ => acc end) None l.
(** [deadline.is_some_and(|deadline| deadline <= now)]. *)
Definition passed (deadline : option Z) (now : Z) : bool := match deadline with Some d => d <=? now | None => false end.

Definition native_timeout_message (kind : TimeoutKind.t) : string :=
  match kind with
  | TimeoutKind.Connect => "the native HTTP connection-establishment timeout expired"
  | TimeoutKind.Inactivity => "the native HTTP inactivity timeout expired"
  | TimeoutKind.Total => "the native HTTP total request timeout expired"
  | TimeoutKind.Unknown => "a native HTTP deadline expired without a matching timeout stage"
  end.
Definition timeout_error (kind : TimeoutKind.t) : Error := error_timeout kind (native_timeout_message kind).

Definition native_internal_error (f : NativeFailure) : Error := error_new ErrorKind.Internal (Reactor.message f).
Definition native_transport_error (f : NativeFailure) : Error :=
  match Reactor.kind f with
  | Reactor.Connect => error_transport TransportStage.Connect (Reactor.message f)
  | Reactor.Read => error_transport TransportStage.Receive (Reactor.message f)
  | Reactor.Write => error_transport TransportStage.Send (Reactor.message f)
  | Reactor.OutboundQueueFull =>
      error_limit LimitKind.RequestBodyBytes "the serialized native request exceeded its bounded send queue"
  | Reactor.ReceiveLimit =>
      error_limit LimitKind.ResponseBodyBytes "the native response exceeded its bounded wire allowance"
  | Reactor.BodyBudget => error_limit LimitKind.BufferedBodyBytes (Reactor.message f)
  | Reactor.Internal => error_new ErrorKind.Internal (Reactor.message f)
  end.
Definition is_connect (f : NativeFailure) : bool := match Reactor.kind f with Reactor.Connect => true | _ => false end.

Section owner.
Context {tgt : Target} {peers : HttpPeers}.

Definition reactor_receive_limit (l : HttpLimits) : Z :=
  saturating_add usize_max
    (saturating_add usize_max (saturating_mul usize_max (header_bytes l) (MAX_INFORMATIONAL_RESPONSES + 2)) (body_bytes l))
    (16 * 1024).
Definition encrypted_outbound_limit : Z := TLS_FLIGHT_LIMIT.
Definition encrypted_receive_limit (plaintext_bytes : Z) : Z := saturating_add usize_max plaintext_bytes TLS_FLIGHT_LIMIT.

(** The [ResponseSink] of a stream is the request's. *)
Inductive PendingResponse := Pending_Buffered | Pending_Streaming (upload : option UploadBody).
Definition pending_upload (r : PendingResponse) : option UploadBody :=
  match r with Pending_Buffered => None | Pending_Streaming u => u end.

Record PendingResolve := mkPending {
  p_request_id : RequestId; p_serialized : SerializedRequest; p_port : Z; p_scheme : list Z; p_host : list Z;
  p_tls_verification : TlsVerification; p_body_bearing : bool; p_connect_deadline : option Z; p_total_deadline : option Z;
  p_inactivity_timeout : option Z; p_inactivity_deadline : option Z; p_key : ConnectionKey; p_request : Request;
  p_redirect_hops : Z; p_response : PendingResponse
}.
Definition set_p_inactivity_deadline (d : option Z) (p : PendingResolve) : PendingResolve :=
  mkPending (p_request_id p) (p_serialized p) (p_port p) (p_scheme p) (p_host p) (p_tls_verification p) (p_body_bearing p)
    (p_connect_deadline p) (p_total_deadline p) (p_inactivity_timeout p) d (p_key p) (p_request p) (p_redirect_hops p) (p_response p).

Definition pending_next_deadline (p : PendingResolve) : option Z :=
  flatten_min [p_connect_deadline p; p_total_deadline p; p_inactivity_deadline p].
Definition pending_expired_timeout (p : PendingResolve) (now : Z) : TimeoutKind.t :=
  if passed (p_total_deadline p) now then TimeoutKind.Total
  else if passed (p_connect_deadline p) now then TimeoutKind.Connect
  else if passed (p_inactivity_deadline p) now then TimeoutKind.Inactivity
  else TimeoutKind.Unknown.
Definition receive_budget (p : PendingResolve) : option Z :=
  match p_response p with Pending_Buffered => body_budget (p_request p) | Pending_Streaming _ => None end.

Record HttpConnecting := mkConnecting {
  remaining : list SocketAddr; cleartext_request : option (list Z); c_outbound_limit : Z; c_receive_limit : Z
}.

Inductive TransferResponse :=
| Tr_Buffered (decoder : BufferedDecoder)
| Tr_Streaming (decoder : StreamDecoder) (retained_cleartext : list Z) (retained_offset : Z) (peer_closed tls_dirty_eof : bool)
    (redirect : option RequestRedirect).
Definition is_streaming (r : TransferResponse) : bool := match r with Tr_Streaming _ _ _ _ _ _ => true | _ => false end.

Record HttpTransfer := mkTransfer {
  t_request_id : RequestId; t_response : TransferResponse; t_body_bearing : bool; t_response_started : bool; t_connected : bool;
  t_connecting : option HttpConnecting; t_tls : option NativeTls; t_connect_deadline : option Z; t_total_deadline : option Z;
  t_inactivity_timeout : option Z; t_inactivity_deadline : option Z; t_inactivity_paused : bool; t_key : ConnectionKey;
  t_resolver_config_generation : Z; t_request_permits_reuse : bool; t_request_write_drained : bool; t_request : Request;
  t_request_body_offset : Z; t_redirect_hops : Z; t_upload : option UploadBody; t_upload_aborted : bool
}.

Definition set_t_response (v : TransferResponse) (t : HttpTransfer) : HttpTransfer :=
  mkTransfer (t_request_id t) v (t_body_bearing t) (t_response_started t) (t_connected t) (t_connecting t) (t_tls t)
    (t_connect_deadline t) (t_total_deadline t) (t_inactivity_timeout t) (t_inactivity_deadline t)
    (t_inactivity_paused t) (t_key t) (t_resolver_config_generation t) (t_request_permits_reuse t)
    (t_request_write_drained t) (t_request t) (t_request_body_offset t) (t_redirect_hops t) (t_upload t)
    (t_upload_aborted t).
Definition set_t_response_started (v : bool) (t : HttpTransfer) : HttpTransfer :=
  mkTransfer (t_request_id t) (t_response t) (t_body_bearing t) v (t_connected t) (t_connecting t) (t_tls t)
    (t_connect_deadline t) (t_total_deadline t) (t_inactivity_timeout t) (t_inactivity_deadline t)
    (t_inactivity_paused t) (t_key t) (t_resolver_config_generation t) (t_request_permits_reuse t)
    (t_request_write_drained t) (t_request t) (t_request_body_offset t) (t_redirect_hops t) (t_upload t)
    (t_upload_aborted t).
Definition set_t_connecting (v : option HttpConnecting) (t : HttpTransfer) : HttpTransfer :=
  mkTransfer (t_request_id t) (t_response t) (t_body_bearing t) (t_response_started t) (t_connected t) v (t_tls t)
    (t_connect_deadline t) (t_total_deadline t) (t_inactivity_timeout t) (t_inactivity_deadline t)
    (t_inactivity_paused t) (t_key t) (t_resolver_config_generation t) (t_request_permits_reuse t)
    (t_request_write_drained t) (t_request t) (t_request_body_offset t) (t_redirect_hops t) (t_upload t)
    (t_upload_aborted t).
Definition set_t_tls (v : option NativeTls) (t : HttpTransfer) : HttpTransfer :=
  mkTransfer (t_request_id t) (t_response t) (t_body_bearing t) (t_response_started t) (t_connected t) (t_connecting t)
    v (t_connect_deadline t) (t_total_deadline t) (t_inactivity_timeout t) (t_inactivity_deadline t)
    (t_inactivity_paused t) (t_key t) (t_resolver_config_generation t) (t_request_permits_reuse t)
    (t_request_write_drained t) (t_request t) (t_request_body_offset t) (t_redirect_hops t) (t_upload t)
    (t_upload_aborted t).
Definition set_t_inactivity (connected : bool) (deadline : option Z) (paused : bool) (t : HttpTransfer) : HttpTransfer :=
  mkTransfer (t_request_id t) (t_response t) (t_body_bearing t) (t_response_started t) connected (t_connecting t)
    (t_tls t) (t_connect_deadline t) (t_total_deadline t) (t_inactivity_timeout t) deadline paused (t_key t)
    (t_resolver_config_generation t) (t_request_permits_reuse t) (t_request_write_drained t) (t_request t)
    (t_request_body_offset t) (t_redirect_hops t) (t_upload t) (t_upload_aborted t).
Definition set_t_request_write_drained (v : bool) (t : HttpTransfer) : HttpTransfer :=
  mkTransfer (t_request_id t) (t_response t) (t_body_bearing t) (t_response_started t) (t_connected t) (t_connecting t)
    (t_tls t) (t_connect_deadline t) (t_total_deadline t) (t_inactivity_timeout t) (t_inactivity_deadline t)
    (t_inactivity_paused t) (t_key t) (t_resolver_config_generation t) (t_request_permits_reuse t) v (t_request t)
    (t_request_body_offset t) (t_redirect_hops t) (t_upload t) (t_upload_aborted t).
Definition set_t_request_body_offset (v : Z) (t : HttpTransfer) : HttpTransfer :=
  mkTransfer (t_request_id t) (t_response t) (t_body_bearing t) (t_response_started t) (t_connected t) (t_connecting t)
    (t_tls t) (t_connect_deadline t) (t_total_deadline t) (t_inactivity_timeout t) (t_inactivity_deadline t)
    (t_inactivity_paused t) (t_key t) (t_resolver_config_generation t) (t_request_permits_reuse t)
    (t_request_write_drained t) (t_request t) v (t_redirect_hops t) (t_upload t) (t_upload_aborted t).
Definition set_t_upload (v : option UploadBody) (aborted : bool) (t : HttpTransfer) : HttpTransfer :=
  mkTransfer (t_request_id t) (t_response t) (t_body_bearing t) (t_response_started t) (t_connected t) (t_connecting t)
    (t_tls t) (t_connect_deadline t) (t_total_deadline t) (t_inactivity_timeout t) (t_inactivity_deadline t)
    (t_inactivity_paused t) (t_key t) (t_resolver_config_generation t) (t_request_permits_reuse t)
    (t_request_write_drained t) (t_request t) (t_request_body_offset t) (t_redirect_hops t) v aborted.

Definition next_deadline (t : HttpTransfer) : option Z :=
  flatten_min [t_total_deadline t; if t_connected t then None else t_connect_deadline t;
               if t_inactivity_paused t then None else t_inactivity_deadline t].
(** [timeout.and_then(|timeout| now.checked_add(timeout))]. *)
Definition after (timeout : option Z) (now : Z) : option Z := timeout ≫= instant_checked_add now.
Definition transfer_note_progress (now : Z) (connected : bool) (t : HttpTransfer) : HttpTransfer :=
  set_t_inactivity (t_connected t || connected) (after (t_inactivity_timeout t) now) false t.
Definition expired_timeout (t : HttpTransfer) (now : Z) : TimeoutKind.t :=
  if passed (t_total_deadline t) now then TimeoutKind.Total
  else if negb (t_connected t) && passed (t_connect_deadline t) now then TimeoutKind.Connect
  else if passed (t_inactivity_deadline t) now then TimeoutKind.Inactivity
  else TimeoutKind.Unknown.

Record IdleConnection := mkIdle { i_slot : SlotId; i_tls : option NativeTls; i_expires_at : Z }.

(** [completions] are those of the call under way; [carried] records which
    connection got a request, and for which origin. *)
Record Backend := mkBackend {
  reactor : NativeReactor; handshake_waiting : list (SlotId * list Z); handshake_peer_closed : gset SlotId;
  resolver : bool; tls : bool; limits : HttpLimits;
  request_to_slot : gmap RequestId SlotId; transfers : gmap SlotId HttpTransfer;
  request_to_resolve : gmap RequestId ResolveKey; resolves : gmap ResolveKey PendingResolve;
  pending_http_from_dns : list (RequestId * Completion); next_resolve_key : Z;
  idle : gmap ConnectionKey (list IdleConnection); idle_slots : gmap SlotId ConnectionKey; idle_count : Z;
  resolver_config_generation : Z; connection_count : Z; connections_per_key : gmap ConnectionKey Z;
  waiting : list PendingResolve; connection_limits : ConnectionLimits;
  completions : list (RequestId * Completion); stream_log : list (RequestId * option Error);
  carried : list (SlotId * ConnectionKey); asked : nat
}.

Definition set_reactor (v : NativeReactor) (b : Backend) : Backend :=
  mkBackend v (handshake_waiting b) (handshake_peer_closed b) (resolver b) (tls b) (limits b) (request_to_slot b)
    (transfers b) (request_to_resolve b) (resolves b) (pending_http_from_dns b) (next_resolve_key b) (idle b)
    (idle_slots b) (idle_count b) (resolver_config_generation b) (connection_count b) (connections_per_key b)
    (waiting b) (connection_limits b) (completions b) (stream_log b) (carried b) (asked b).
Definition set_handshake_waiting (v : list (SlotId * list Z)) (b : Backend) : Backend :=
  mkBackend (reactor b) v (handshake_peer_closed b) (resolver b) (tls b) (limits b) (request_to_slot b) (transfers b)
    (request_to_resolve b) (resolves b) (pending_http_from_dns b) (next_resolve_key b) (idle b) (idle_slots b)
    (idle_count b) (resolver_config_generation b) (connection_count b) (connections_per_key b) (waiting b)
    (connection_limits b) (completions b) (stream_log b) (carried b) (asked b).
Definition set_handshake_peer_closed (v : gset SlotId) (b : Backend) : Backend :=
  mkBackend (reactor b) (handshake_waiting b) v (resolver b) (tls b) (limits b) (request_to_slot b) (transfers b)
    (request_to_resolve b) (resolves b) (pending_http_from_dns b) (next_resolve_key b) (idle b) (idle_slots b)
    (idle_count b) (resolver_config_generation b) (connection_count b) (connections_per_key b) (waiting b)
    (connection_limits b) (completions b) (stream_log b) (carried b) (asked b).
Definition set_request_to_slot (v : gmap RequestId SlotId) (b : Backend) : Backend :=
  mkBackend (reactor b) (handshake_waiting b) (handshake_peer_closed b) (resolver b) (tls b) (limits b) v (transfers b)
    (request_to_resolve b) (resolves b) (pending_http_from_dns b) (next_resolve_key b) (idle b) (idle_slots b)
    (idle_count b) (resolver_config_generation b) (connection_count b) (connections_per_key b) (waiting b)
    (connection_limits b) (completions b) (stream_log b) (carried b) (asked b).
Definition set_transfers (v : gmap SlotId HttpTransfer) (b : Backend) : Backend :=
  mkBackend (reactor b) (handshake_waiting b) (handshake_peer_closed b) (resolver b) (tls b) (limits b)
    (request_to_slot b) v (request_to_resolve b) (resolves b) (pending_http_from_dns b) (next_resolve_key b) (idle b)
    (idle_slots b) (idle_count b) (resolver_config_generation b) (connection_count b) (connections_per_key b)
    (waiting b) (connection_limits b) (completions b) (stream_log b) (carried b) (asked b).
Definition set_request_to_resolve (v : gmap RequestId ResolveKey) (b : Backend) : Backend :=
  mkBackend (reactor b) (handshake_waiting b) (handshake_peer_closed b) (resolver b) (tls b) (limits b)
    (request_to_slot b) (transfers b) v (resolves b) (pending_http_from_dns b) (next_resolve_key b) (idle b)
    (idle_slots b) (idle_count b) (resolver_config_generation b) (connection_count b) (connections_per_key b)
    (waiting b) (connection_limits b) (completions b) (stream_log b) (carried b) (asked b).
Definition set_resolves (v : gmap ResolveKey PendingResolve) (b : Backend) : Backend :=
  mkBackend (reactor b) (handshake_waiting b) (handshake_peer_closed b) (resolver b) (tls b) (limits b)
    (request_to_slot b) (transfers b) (request_to_resolve b) v (pending_http_from_dns b) (next_resolve_key b) (idle b)
    (idle_slots b) (idle_count b) (resolver_config_generation b) (connection_count b) (connections_per_key b)
    (waiting b) (connection_limits b) (completions b) (stream_log b) (carried b) (asked b).
Definition set_pending_http_from_dns (v : list (RequestId * Completion)) (b : Backend) : Backend :=
  mkBackend (reactor b) (handshake_waiting b) (handshake_peer_closed b) (resolver b) (tls b) (limits b)
    (request_to_slot b) (transfers b) (request_to_resolve b) (resolves b) v (next_resolve_key b) (idle b)
    (idle_slots b) (idle_count b) (resolver_config_generation b) (connection_count b) (connections_per_key b)
    (waiting b) (connection_limits b) (completions b) (stream_log b) (carried b) (asked b).
Definition set_next_resolve_key (v : Z) (b : Backend) : Backend :=
  mkBackend (reactor b) (handshake_waiting b) (handshake_peer_closed b) (resolver b) (tls b) (limits b)
    (request_to_slot b) (transfers b) (request_to_resolve b) (resolves b) (pending_http_from_dns b) v (idle b)
    (idle_slots b) (idle_count b) (resolver_config_generation b) (connection_count b) (connections_per_key b)
    (waiting b) (connection_limits b) (completions b) (stream_log b) (carried b) (asked b).
Definition set_resolver_config_generation (v : Z) (b : Backend) : Backend :=
  mkBackend (reactor b) (handshake_waiting b) (handshake_peer_closed b) (resolver b) (tls b) (limits b)
    (request_to_slot b) (transfers b) (request_to_resolve b) (resolves b) (pending_http_from_dns b)
    (next_resolve_key b) (idle b) (idle_slots b) (idle_count b) v (connection_count b) (connections_per_key b)
    (waiting b) (connection_limits b) (completions b) (stream_log b) (carried b) (asked b).
Definition set_waiting (v : list PendingResolve) (b : Backend) : Backend :=
  mkBackend (reactor b) (handshake_waiting b) (handshake_peer_closed b) (resolver b) (tls b) (limits b)
    (request_to_slot b) (transfers b) (request_to_resolve b) (resolves b) (pending_http_from_dns b)
    (next_resolve_key b) (idle b) (idle_slots b) (idle_count b) (resolver_config_generation b) (connection_count b)
    (connections_per_key b) v (connection_limits b) (completions b) (stream_log b) (carried b) (asked b).
Definition set_completions (v : list (RequestId * Completion)) (b : Backend) : Backend :=
  mkBackend (reactor b) (handshake_waiting b) (handshake_peer_closed b) (resolver b) (tls b) (limits b)
    (request_to_slot b) (transfers b) (request_to_resolve b) (resolves b) (pending_http_from_dns b)
    (next_resolve_key b) (idle b) (idle_slots b) (idle_count b) (resolver_config_generation b) (connection_count b)
    (connections_per_key b) (waiting b) (connection_limits b) v (stream_log b) (carried b) (asked b).
Definition set_stream_log (v : list (RequestId * option Error)) (b : Backend) : Backend :=
  mkBackend (reactor b) (handshake_waiting b) (handshake_peer_closed b) (resolver b) (tls b) (limits b)
    (request_to_slot b) (transfers b) (request_to_resolve b) (resolves b) (pending_http_from_dns b)
    (next_resolve_key b) (idle b) (idle_slots b) (idle_count b) (resolver_config_generation b) (connection_count b)
    (connections_per_key b) (waiting b) (connection_limits b) (completions b) v (carried b) (asked b).
Definition set_carried (v : list (SlotId * ConnectionKey)) (b : Backend) : Backend :=
  mkBackend (reactor b) (handshake_waiting b) (handshake_peer_closed b) (resolver b) (tls b) (limits b)
    (request_to_slot b) (transfers b) (request_to_resolve b) (resolves b) (pending_http_from_dns b)
    (next_resolve_key b) (idle b) (idle_slots b) (idle_count b) (resolver_config_generation b) (connection_count b)
    (connections_per_key b) (waiting b) (connection_limits b) (completions b) (stream_log b) v (asked b).
Definition set_asked (v : nat) (b : Backend) : Backend :=
  mkBackend (reactor b) (handshake_waiting b) (handshake_peer_closed b) (resolver b) (tls b) (limits b)
    (request_to_slot b) (transfers b) (request_to_resolve b) (resolves b) (pending_http_from_dns b)
    (next_resolve_key b) (idle b) (idle_slots b) (idle_count b) (resolver_config_generation b) (connection_count b)
    (connections_per_key b) (waiting b) (connection_limits b) (completions b) (stream_log b) (carried b) v.
Definition set_idle (m : gmap ConnectionKey (list IdleConnection)) (slots : gmap SlotId ConnectionKey) (count : Z) (b : Backend) : Backend :=
  mkBackend (reactor b) (handshake_waiting b) (handshake_peer_closed b) (resolver b) (tls b) (limits b)
    (request_to_slot b) (transfers b) (request_to_resolve b) (resolves b) (pending_http_from_dns b)
    (next_resolve_key b) m slots count (resolver_config_generation b) (connection_count b) (connections_per_key b)
    (waiting b) (connection_limits b) (completions b) (stream_log b) (carried b) (asked b).
Definition set_connections (count : Z) (per_key : gmap ConnectionKey Z) (b : Backend) : Backend :=
  mkBackend (reactor b) (handshake_waiting b) (handshake_peer_closed b) (resolver b) (tls b) (limits b)
    (request_to_slot b) (transfers b) (request_to_resolve b) (resolves b) (pending_http_from_dns b)
    (next_resolve_key b) (idle b) (idle_slots b) (idle_count b) (resolver_config_generation b) count per_key
    (waiting b) (connection_limits b) (completions b) (stream_log b) (carried b) (asked b).

(** ** The monad *)

Definition BM : Type → Type := M Backend Error.

(** Run the reactor; its error is a value. *)
Definition on_reactor {T} (m : Reactor.RM T) : BM (NativeFailure + T) := λ b,
  match m (reactor b) with
  | (Ok a, r) => (Ok (inr a), set_reactor r b)
  | (Err f, r) => (Ok (inl f), set_reactor r b)
  | (Panic, r) => (Panic, set_reactor r b)
  | (Diverge, r) => (Diverge, set_reactor r b)
  end.
(** [.map_err(native_internal_error)?] *)
Definition reactor_or_fail {T} (m : Reactor.RM T) : BM T :=
  answer ← on_reactor m;
  match answer with inr a => mret a | inl f => fail (native_internal_error f) end.
Definition instant_now : BM Z := reactor_or_fail Reactor.instant_now.
Definition reactor_cancel (slot : SlotId) : BM unit := _ ← on_reactor (Reactor.cancel slot); mret tt.

Definition ask {T} (f : nat → T) : BM T := λ b, (Ok (f (asked b)), set_asked (S (asked b)) b).
Definition in_hash_order {A} (l : list A) : BM (list A) := ask (λ n, hash_order n A l).
Definition push_completion (id : RequestId) (c : Completion) : BM unit :=
  modify (λ b, set_completions (completions b ++ [(id, c)]) b).
Definition push_completions (l : list (RequestId * Completion)) : BM unit :=
  modify (λ b, set_completions (completions b ++ l) b).
(** [Some e] fails the response of a stream; [None]: it was completed. *)
Definition tell_stream (id : RequestId) (e : option Error) : BM unit :=
  modify (λ b, set_stream_log (stream_log b ++ [(id, e)]) b).
Definition maybe_complete (id : RequestId) (c : option Completion) : list (RequestId * Completion) :=
  match c with Some c => [(id, c)] | None => [] end.

Definition get_transfer (slot : SlotId) : BM (option HttpTransfer) := b ← get; mret (transfers b !! slot).
Definition put_transfer (slot : SlotId) (t : HttpTransfer) : BM unit :=
  modify (λ b, set_transfers (<[slot := t]> (transfers b)) b).

(** [PendingResolve::fail]. *)
Definition pending_fail (p : PendingResolve) (e : Error) : BM (option Completion) :=
  match p_response p with
  | Pending_Buffered => mret (Some (Failed e))
  | Pending_Streaming _ => _ ← tell_stream (p_request_id p) (Some e); mret None
  end.

(** ** Connection accounting *)

Definition count_for (b : Backend) (key : ConnectionKey) : Z := default 0 (connections_per_key b !! key).
Definition can_reserve_connection (b : Backend) (key : ConnectionKey) : bool :=
  (connection_count b <? global (connection_limits b)) && (count_for b key <? per_origin (connection_limits b)).

Definition reserve_connection (key : ConnectionKey) : BM bool :=
  b ← get;
  if negb (can_reserve_connection b key) then mret false
  else
    _ ← put (set_connections (connection_count b + 1) (<[key := count_for b key + 1]> (connections_per_key b)) b);
    mret true.

(** [debug_assert!(false)] is a panic. *)
Definition release_connection (key : ConnectionKey) : BM unit :=
  b ← get;
  match connections_per_key b !! key with
  | None => panic
  | Some count =>
      if (connection_count b =? 0) || (count =? 0) then panic
      else
        put (set_connections (connection_count b - 1)
               (if count - 1 =? 0 then delete key (connections_per_key b) else <[key := count - 1]> (connections_per_key b)) b)
  end.

(** ** Idle connections *)

Definition take_idle (key : ConnectionKey) : BM (option IdleConnection) :=
  b ← get;
  match idle b !! key with
  | Some (c :: rest) =>
      _ ← put (set_idle (if bool_decide (rest = []) then delete key (idle b) else <[key := rest]> (idle b))
                 (delete (i_slot c) (idle_slots b)) (saturating_sub (idle_count b) 1) b);
      mret (Some c)
  | _ => mret None
  end.

Fixpoint remove_slot (slot : SlotId) (l : list IdleConnection) : option (list IdleConnection) :=
  match l with
  | [] => None
  | c :: rest => if bool_decide (i_slot c = slot) then Some rest else cons c <$> remove_slot slot rest
  end.

Definition discard_idle_slot (slot : SlotId) : BM unit :=
  b ← get;
  match idle_slots b !! slot with
  | None => reactor_cancel slot
  | Some key =>
      let '(connections, count) :=
        match idle b !! key with
        | Some l =>
            let '(l, count) := match remove_slot slot l with
                               | Some l' => (l', saturating_sub (idle_count b) 1)
                               | None => (l, idle_count b)
                               end in
            (if bool_decide (l = []) then delete key (idle b) else <[key := l]> (idle b), count)
        | None => (idle b, idle_count b)
        end in
      _ ← put (set_idle connections (delete slot (idle_slots b)) count b);
      _ ← reactor_cancel slot;
      release_connection key
  end.

Fixpoint discard_idle_slots (slots : list SlotId) : BM unit :=
  match slots with
  | [] => mret tt
  | slot :: rest => _ ← discard_idle_slot slot; discard_idle_slots rest
  end.

Definition evict_idle_for_key (key : ConnectionKey) : BM bool :=
  b ← get;
  match idle b !! key ≫= head with
  | Some c => _ ← discard_idle_slot (i_slot c); mret true
  | None => mret false
  end.

Definition evict_any_idle : BM bool :=
  b ← get;
  values ← in_hash_order (map snd (map_to_list (idle b)));
  match head (omap head values) with
  | Some c => _ ← discard_idle_slot (i_slot c); mret true
  | None => mret false
  end.

Definition evict_all_idle : BM unit :=
  b ← get; slots ← in_hash_order (map fst (map_to_list (idle_slots b))); discard_idle_slots slots.

Definition expire_idle (now : Z) : BM unit :=
  b ← get;
  values ← in_hash_order (map snd (map_to_list (idle b)));
  discard_idle_slots (map i_slot (List.filter (λ c, i_expires_at c <=? now) (concat values))).

Definition apply_idle_http_eviction : BM unit :=
  b ← get;
  if resolver b then
    answer ← ask resolver_take_idle_http_eviction;
    match answer with
    | inl e => fail e
    | inr None => mret tt
    | inr (Some generation) => _ ← modify (set_resolver_config_generation generation); evict_all_idle
    end
  else mret tt.

(** Every turn evicts an idle connection, so one more turn than there are idle
    connections is enough. *)
Fixpoint evict_while (fuel : nat) (full : Backend → bool) (evict : BM bool) : BM bool :=
  match fuel with
  | O => diverge
  | S fuel' =>
      b ← get;
      if full b then
        evicted ← evict;
        if (evicted : bool) then evict_while fuel' full evict else mret false
      else mret true
  end.

Definition make_connection_capacity (key : ConnectionKey) : BM bool :=
  b ← get;
  let fuel := S (Z.to_nat (idle_count b)) in
  room ← evict_while fuel (λ b, per_origin (connection_limits b) <=? count_for b key) (evict_idle_for_key key);
  if (room : bool) then evict_while fuel (λ b, global (connection_limits b) <=? connection_count b) evict_any_idle
  else mret false.

(** ** Pending requests *)

Definition key_of (origin : HttpOrigin) (verification : TlsVerification) : ConnectionKey :=
  mkKey (scheme origin) (ascii_lowercase (host origin)) (port origin)
    (match verification with DangerouslyDisableCertificateVerification => true | Verify => false end).

Definition make_pending (id : RequestId) (request : Request) (d : PendingDeadlines) (redirect_hops : Z)
    (origin_error_kind : ErrorKind.t) (response : PendingResponse) (l : HttpLimits) : outcome Error PendingResolve :=
  serialized ← serialize_request_with_upload request l (upload_framing <$> pending_upload response);
  origin ← http_origin origin_error_kind (url request);
  let verification := tls_verification (options request) in
  Ok (mkPending id serialized (port origin) (scheme origin) (host origin) verification
        (negb (Reactor.is_none (pending_upload response)) || negb (bool_decide (bytes (body request) = [])))
        (d_connect d) (d_total d) (inactivity_timeout (options request)) (d_inactivity d) (key_of origin verification)
        request redirect_hops response).

Definition into_active (p : PendingResolve) (b : Backend) : TransferResponse * option UploadBody :=
  let to_head := response_to_head (p_serialized p) in
  let l := for_request (limits b) (p_request p) in
  match p_response p with
  | Pending_Buffered => (Tr_Buffered (decoder_new to_head l (p_request p)), None)
  | Pending_Streaming u => (Tr_Streaming (stream_new to_head l (p_request_id p)) [] 0 false false None, u)
  end.

(** The transfer a pending request becomes. *)
Definition new_transfer (p : PendingResolve) (response : TransferResponse) (upload : option UploadBody) (connected : bool)
    (connecting : option HttpConnecting) (t : option NativeTls) (offset : Z) (generation : Z) : HttpTransfer :=
  mkTransfer (p_request_id p) response (p_body_bearing p) false connected connecting t (p_connect_deadline p)
    (p_total_deadline p) (p_inactivity_timeout p) (p_inactivity_deadline p) false (p_key p) generation
    (permits_reuse (p_serialized p)) false (p_request p) offset (p_redirect_hops p) upload false.

Definition activate (slot : SlotId) (p : PendingResolve) (connected : bool) (connecting : option HttpConnecting)
    (t : option NativeTls) (offset : Z) : BM unit :=
  b ← get;
  let '(response, upload) := into_active p b in
  put (set_transfers (<[slot := new_transfer p response upload connected connecting t offset (resolver_config_generation b)]>
                        (transfers b))
         (set_request_to_slot (<[p_request_id p := slot]> (request_to_slot b))
            (set_carried (carried b ++ [(slot, p_key p)]) b))).

(** ** Reuse *)

(** The idle connection is of no use. *)
Definition drop_reused (slot : SlotId) (p : PendingResolve) : BM (option PendingResolve) :=
  _ ← reactor_cancel slot; _ ← release_connection (p_key p); mret (Some p).

Definition outbound_limit_for (p : PendingResolve) (encrypted : bool) : Z :=
  if encrypted then encrypted_outbound_limit
  else cleartext_outbound_limit (len (serialized (p_serialized p))) (len (bytes (body (p_request p))))
         (upload_queue_capacity <$> pending_upload (p_response p)).
Definition receive_limit_for (b : Backend) (encrypted : bool) : Z :=
  if encrypted then encrypted_receive_limit (reactor_receive_limit (limits b)) else reactor_receive_limit (limits b).

(** Encrypt the request on an idle session. *)
Definition encrypt_reused (t : NativeTls) (p : PendingResolve) (limit : Z) : BM (option (list Z * Z * NativeTls)) :=
  '(begun, t) ← ask (λ n, tls_begin_request n t (serialized (p_serialized p)));
  match begun with
  | inl _ => mret None
  | inr _ =>
      '(pumped, t) ← ask (λ n, tls_pump_request_body n t (bytes (body (p_request p))) limit);
      match pumped with
      | inl _ => mret None
      | inr (outbound, consumed) => mret (Some (outbound, consumed, t))
      end
  end.

(** The body bytes that fit behind the head; [None] is an error. *)
Definition queue_first_body (slot : SlotId) (p : PendingResolve) : BM (option Z) :=
  capacity ← on_reactor (Reactor.outbound_capacity slot);
  match capacity with
  | inl _ => mret None
  | inr capacity =>
      let count := Z.min (len (bytes (body (p_request p)))) capacity in
      if count =? 0 then mret (Some 0)
      else
        queued ← on_reactor (Reactor.queue_body slot (body_owner (p_request p)) 0 count);
        match queued with inl _ => mret None | inr _ => mret (Some count) end
  end.

(** [None] when an idle connection took the request. *)
Definition try_begin_reused (p : PendingResolve) : BM (option PendingResolve) :=
  taken ← take_idle (p_key p);
  match taken with
  | None => mret (Some p)
  | Some c =>
      let slot := i_slot c in
      quiet ← on_reactor (Reactor.idle_is_quiet slot);
      match quiet with
      | inr true =>
          b ← get;
          let encrypted := negb (Reactor.is_none (i_tls c)) in
          let limit := outbound_limit_for p encrypted in
          prepared ← on_reactor (Reactor.prepare_reuse slot (pending_next_deadline p) limit (receive_limit_for b encrypted));
          match prepared with
          | inl _ => drop_reused slot p
          | inr _ =>
              budget ← on_reactor (Reactor.set_body_budget slot (receive_budget p));
              match budget with
              | inl _ => drop_reused slot p
              | inr _ =>
                  encryption ← match i_tls c with
                               | Some t =>
                                   e ← encrypt_reused t p limit;
                                   mret ((λ '(outbound, consumed, t), (outbound, consumed, Some t)) <$> e)
                               | None => mret (Some (serialized (p_serialized p), 0, None))
                               end;
                  match encryption with
                  | None => drop_reused slot p
                  | Some (outbound, consumed, t) =>
                      queued ← on_reactor (Reactor.queue_write slot outbound);
                      match queued with
                      | inl _ => drop_reused slot p
                      | inr _ =>
                          offset ← (if encrypted then mret (Some consumed) else queue_first_body slot p);
                          match offset with
                          | None => drop_reused slot p
                          | Some offset => _ ← activate slot p true None t offset; mret None
                          end
                      end
                  end
              end
          end
      | _ => drop_reused slot p
      end
  end.

(** ** Opening a connection *)

(** The reservation is given back and the request fails. *)
Definition abandon_start (p : PendingResolve) (e : Error) : BM (option Completion) :=
  _ ← release_connection (p_key p); pending_fail p e.

(** The loop of [begin_connection]: the slot and the addresses left, or the
    result of the request. *)
Fixpoint connect_first (addresses : list SocketAddr) (p : PendingResolve) (deadline : option Z) (out_limit in_limit : Z)
    : BM (option Completion + SlotId * list SocketAddr) :=
  now ← instant_now;
  if passed deadline now then
    now ← instant_now;
    c ← abandon_start p (timeout_error (pending_expired_timeout p now)); mret (inl c)
  else
    match addresses with
    | [] =>
        c ← abandon_start p (error_transport TransportStage.Dns "the native resolver returned no usable address"); mret (inl c)
    | address :: rest =>
        connected ← on_reactor (Reactor.connect address deadline out_limit in_limit);
        match connected with
        | inr slot => mret (inr (slot, rest))
        | inl f =>
            if is_connect f && negb (bool_decide (rest = [])) then connect_first rest p deadline out_limit in_limit
            else c ← abandon_start p (native_transport_error f); mret (inl c)
        end
    end.

(** [configs.connection(..)] for an https request. *)
Definition session_for (p : PendingResolve) : BM (Error + option NativeTls) :=
  b ← get;
  if bytes_eqb (p_scheme p) (bs "https") then
    if tls b then
      answer ← ask (λ n, tls_connection n (p_host p) (p_tls_verification p) (serialized (p_serialized p)));
      mret (match answer with inl e => inl e | inr t => inr (Some t) end)
    else mret (inl (error_new ErrorKind.Unsupported "the selected native proving Engine has no TLS configuration"))
  else mret (inr None).

Definition begin_connection (addresses : list SocketAddr) (p : PendingResolve) : BM (option Completion) :=
  session ← session_for p;
  match session with
  | inl e => abandon_start p e
  | inr t =>
      b ← get;
      let encrypted := negb (Reactor.is_none t) in
      let out_limit := outbound_limit_for p encrypted in
      let in_limit := receive_limit_for b encrypted in
      opened ← connect_first addresses p (pending_next_deadline p) out_limit in_limit;
      match opened with
      | inl c => mret c
      | inr (slot, rest) =>
          budget ← on_reactor (Reactor.set_body_budget slot (receive_budget p));
          match budget with
          | inl f => _ ← reactor_cancel slot; abandon_start p (native_transport_error f)
          | inr _ =>
              allowed ← (if encrypted then on_reactor (Reactor.set_read_allowance slot (Some INPUT_WINDOW)) else mret (inr tt));
              match allowed with
              | inl f => _ ← reactor_cancel slot; abandon_start p (native_transport_error f)
              | inr _ =>
                  now ← instant_now;
                  let p := set_p_inactivity_deadline (after (p_inactivity_timeout p) now) p in
                  let cleartext := if encrypted then None else Some (serialized (p_serialized p)) in
                  _ ← activate slot p false (Some (mkConnecting rest cleartext out_limit in_limit)) t 0;
                  mret None
              end
          end
      end
  end.

Definition allocate_resolve_key : BM (option ResolveKey) :=
  b ← get;
  match checked_add u64_max (next_resolve_key b) 1 with
  | Some next => _ ← put (set_next_resolve_key next b); mret (Some (next_resolve_key b))
  | None => mret None
  end.

Definition start_reserved (p : PendingResolve) : BM (option Completion) :=
  match parse_ip (p_host p) with
  | Some ip => begin_connection [Config.mkSocketAddr ip (p_port p) 0 0] p
  | None =>
      allocated ← allocate_resolve_key;
      match allocated with
      | None => abandon_start p (error_new ErrorKind.Internal "the native resolver request identity space is exhausted")
      | Some key =>
          b ← get;
          if resolver b then
            answer ← ask (λ n, resolver_resolve n (p_host p));
            match answer with
            | Some e => abandon_start p e
            | None =>
                _ ← modify (λ b, set_resolves (<[key := p]> (resolves b))
                                   (set_request_to_resolve (<[p_request_id p := key]> (request_to_resolve b)) b));
                mret None
            end
          else abandon_start p (error_new ErrorKind.Unsupported
                            "the native HTTP proving Engine requires an injected resolver for hostnames")
      end
  end.

Definition start_pending (p : PendingResolve) : BM (option Completion) := λ b,
  match apply_idle_http_eviction b with
  | (Err e, b') => pending_fail p e b'
  | (Panic, b') => (Panic, b')
  | (Diverge, b') => (Diverge, b')
  | (Ok _, b') =>
      (now ← instant_now;
       if passed (pending_next_deadline p) now then pending_fail p (timeout_error (pending_expired_timeout p now))
       else
         left ← try_begin_reused p;
         match left with
         | None => mret None
         | Some p =>
             capacity ← make_connection_capacity (p_key p);
             reserved ← (if (capacity : bool) then reserve_connection (p_key p) else mret false);
             if (reserved : bool) then start_reserved p
             else _ ← modify (λ b, set_waiting (waiting b ++ [p]) b); mret None
         end) b'
  end.

(** ** Waiting requests *)

(** Every turn takes a request off or goes on to the next. *)
Fixpoint expire_loop (fuel : nat) (now : Z) (index : nat) : BM (list (RequestId * Completion)) :=
  match fuel with
  | O => diverge
  | S fuel' =>
      b ← get;
      match waiting b !! index with
      | None => mret []
      | Some p =>
          if passed (pending_next_deadline p) now then
            _ ← put (set_waiting (delete index (waiting b)) b);
            c ← pending_fail p (timeout_error (pending_expired_timeout p now));
            done ← expire_loop fuel' now index;
            mret (maybe_complete (p_request_id p) c ++ done)
          else expire_loop fuel' now (S index)
      end
  end.

Definition expire_waiting : BM (list (RequestId * Completion)) :=
  now ← instant_now;
  b ← get;
  expire_loop (S (length (waiting b))) now 0.

(** [waiting.remove(index)]. *)
Definition remove_waiting (index : nat) : BM (option PendingResolve) :=
  b ← get;
  match waiting b !! index with
  | Some p => _ ← put (set_waiting (delete index (waiting b)) b); mret (Some p)
  | None => mret None
  end.
Definition insert_waiting (index : nat) (p : PendingResolve) : BM unit :=
  modify (λ b, set_waiting (take index (waiting b) ++ [p] ++ drop index (waiting b)) b).

(** Every time the index goes back to the start a request has left the list, so
    the square of the length is enough. *)
Fixpoint dispatch_loop (fuel : nat) (index : nat) : BM (list (RequestId * Completion)) :=
  match fuel with
  | O => diverge
  | S fuel' =>
      removed ← remove_waiting index;
      match removed with
      | None => mret []
      | Some p =>
          left ← try_begin_reused p;
          match left with
          | None => dispatch_loop fuel' 0
          | Some p =>
              capacity ← make_connection_capacity (p_key p);
              reserved ← (if (capacity : bool) then reserve_connection (p_key p) else mret false);
              if (reserved : bool) then
                c ← start_reserved p;
                done ← dispatch_loop fuel' 0;
                mret (maybe_complete (p_request_id p) c ++ done)
              else
                _ ← insert_waiting index p;
                dispatch_loop fuel' (S index)
          end
      end
  end.

Definition dispatch_waiting : BM (list (RequestId * Completion)) :=
  expired ← expire_waiting;
  b ← get;
  done ← dispatch_loop (S (length (waiting b)) * S (length (waiting b))) 0;
  mret (expired ++ done).

(** ** The end of a transfer *)

Definition cancel_handshake (slot : SlotId) : BM unit :=
  modify (λ b, set_handshake_peer_closed (handshake_peer_closed b ∖ {[slot]})
                 (set_handshake_waiting (List.filter (λ x, negb (bool_decide (x.1 = slot))) (handshake_waiting b)) b)).

Definition remove_transfer (slot : SlotId) : BM (option HttpTransfer) :=
  b ← get;
  match transfers b !! slot with
  | Some t =>
      _ ← put (set_request_to_slot (delete (t_request_id t) (request_to_slot b)) (set_transfers (delete slot (transfers b)) b));
      mret (Some t)
  | None => mret None
  end.

Definition stream_failure (c : Completion) : Error :=
  match c with
  | Failed e => e
  | Cancelled => error_new ErrorKind.Internal "native streaming transport cancelled without registry arbitration"
  | Completed _ => error_new ErrorKind.Internal "native streaming transport produced a buffered completion"
  end.

Definition finish (slot : SlotId) (c : Completion) : BM unit :=
  _ ← cancel_handshake slot;
  _ ← reactor_cancel slot;
  removed ← remove_transfer slot;
  match removed with
  | None => mret tt
  | Some t =>
      _ ← release_connection (t_key t);
      if is_streaming (t_response t) then tell_stream (t_request_id t) (Some (stream_failure c))
      else push_completion (t_request_id t) c
  end.
Definition finish_timeout (slot : SlotId) (t : HttpTransfer) (now : Z) : BM unit :=
  finish slot (Failed (timeout_error (expired_timeout t now))).

(** Whether the connection may be kept. *)
Definition reusable (b : Backend) (t : HttpTransfer) (response_permits_reuse peer_closed : bool) : bool :=
  response_permits_reuse && t_request_permits_reuse t && t_request_write_drained t
  && (t_resolver_config_generation t =? resolver_config_generation b) && negb peer_closed
  && negb (idle_timeout (connection_limits b) =? 0) && (idle_count b <? idle_global (connection_limits b))
  && (len (default [] (idle b !! t_key t)) <? idle_per_origin (connection_limits b)).

(** Park the connection, or close it. *)
Definition park_or_close (slot : SlotId) (t : HttpTransfer) (keep : bool) : BM unit :=
  let close := _ ← reactor_cancel slot; release_connection (t_key t) in
  if keep then
    b ← get;
    now ← instant_now;
    match instant_checked_add now (idle_timeout (connection_limits b)) with
    | None => close
    | Some expires_at =>
        parked ← on_reactor (Reactor.park_idle slot expires_at);
        match parked with
        | inl _ => close
        | inr _ =>
            modify (λ b, set_idle (<[t_key t := default [] (idle b !! t_key t) ++ [mkIdle slot (t_tls t) expires_at]]> (idle b))
                           (<[slot := t_key t]> (idle_slots b)) (idle_count b + 1) b)
        end
    end
  else close.

(** [resolved_redirect_target_from_headers]. *)
Definition resolved_redirect_target (request : Request) (headers : list Header) : outcome Error (option (list Z)) :=
  location ← foldl (λ acc h,
                found ← acc;
                match found with
                | Some _ => Err (error_new ErrorKind.Redirect "a redirect response contained more than one Location field")
                | None =>
                    let value := trim_ascii_whitespace (value h) in
                    if is_utf8 value then Ok (Some value)
                    else Err (error_new ErrorKind.Redirect "a redirect Location was not valid UTF-8")
                end) (Ok None) (List.filter (named (bs "location")) headers);
  match location with
  | None => Ok None
  | Some location =>
      if url_parses (url request) then
        match url_join (url request) location with
        | Some target => Ok (Some target)
        | None => Err (error_new ErrorKind.Redirect "the redirect Location could not be resolved")
        end
      else Err (error_new ErrorKind.Redirect "the redirect source URL could not be resolved")
  end.

(** The next request of a redirect, from the start. *)
Definition start_redirect (id : RequestId) (request : Request) (total_deadline : option Z) (hops : Z)
    (response : PendingResponse) : BM (outcome Error PendingResolve) :=
  now ← instant_now;
  b ← get;
  mret (make_pending id request
          (mkDeadlines (after (connect_timeout (options request)) now) total_deadline
             (after (inactivity_timeout (options request)) now))
          hops ErrorKind.Redirect response (limits b)).

Definition complete_response (slot : SlotId) (response : Buffered.Response) (response_permits_reuse peer_closed : bool) : BM unit :=
  removed ← remove_transfer slot;
  match removed with
  | None => reactor_cancel slot
  | Some t =>
      let id := t_request_id t in
      b ← get;
      _ ← park_or_close slot t (reusable b t response_permits_reuse peer_closed);
      match plan_redirect (t_request t) (Buffered.resp_status response) (t_redirect_hops t)
              (resolved_redirect_target (t_request t) (Buffered.resp_headers response)) with
      | Ok None => push_completion id (Completed response)
      | Err e => push_completion id (Failed e)
      | Ok (Some redirect) =>
          next ← start_redirect id (apply_redirect redirect (t_request t)) (t_total_deadline t)
                   (saturating_add u8_max (t_redirect_hops t) 1) Pending_Buffered;
          match next with
          | Ok p => c ← start_pending p; push_completions (maybe_complete id c)
          | Err e => push_completion id (Failed e)
          | Panic => panic
          | Diverge => diverge
          end
      | Panic => panic
      | Diverge => diverge
      end
  end.

(** ** Resolver results *)

Fixpoint resolver_results (results : list (ResolveKey * (string + list IpAddr))) : BM (list (RequestId * Completion)) :=
  match results with
  | [] => mret []
  | (key, answer) :: rest =>
      b ← get;
      match resolves b !! key with
      | None => resolver_results rest
      | Some p =>
          _ ← put (set_request_to_resolve (delete (p_request_id p) (request_to_resolve b))
                     (set_resolves (delete key (resolves b)) b));
          c ← match answer with
              | inr addresses => begin_connection (map (λ ip, Config.mkSocketAddr ip (p_port p) 0 0) addresses) p
              | inl message => abandon_start p (error_transport TransportStage.Dns message)
              end;
          done ← resolver_results rest;
          mret (maybe_complete (p_request_id p) c ++ done)
      end
  end.

Definition process_resolver_results : BM (list (RequestId * Completion)) :=
  _ ← apply_idle_http_eviction;
  b ← get;
  if resolver b then
    answer ← ask resolver_drain;
    match answer with
    | inl e => fail e
    | inr results => resolver_results results
    end
  else mret [].

Definition drain_dns : BM unit :=
  http ← process_resolver_results;
  modify (λ b, set_pending_http_from_dns (pending_http_from_dns b ++ http) b).

Fixpoint expire_resolve_keys (now : Z) (keys : list ResolveKey) : BM (list (RequestId * Completion)) :=
  match keys with
  | [] => mret []
  | key :: rest =>
      b ← get;
      match resolves b !! key with
      | None => expire_resolve_keys now rest
      | Some p =>
          _ ← put (set_request_to_resolve (delete (p_request_id p) (request_to_resolve b))
                     (set_resolves (delete key (resolves b)) b));
          _ ← release_connection (p_key p);
          cancelled ← (if resolver b then ask resolver_cancel else mret None);
          match cancelled with
          | Some e => fail e
          | None =>
              c ← pending_fail p (timeout_error (pending_expired_timeout p now));
              done ← expire_resolve_keys now rest;
              mret (maybe_complete (p_request_id p) c ++ done)
          end
      end
  end.

Definition expire_resolves : BM (list (RequestId * Completion)) :=
  now ← instant_now;
  b ← get;
  keys ← in_hash_order (map fst (List.filter (λ x, passed (pending_next_deadline x.2) now) (map_to_list (resolves b))));
  expire_resolve_keys now keys.

End owner.
End Owner.
