(* ===== verification/NativeHttpEvents.v ===== *)
(** * The connection owner: exchanges ([src/backend/native_http.rs])

    Feeding a connection, TLS handshakes, streamed and buffered responses, the
    reactor's events, and the calls of the engine: [submit], [submit_stream],
    [cancel], [poll], [shutdown]. *)

From stdpp Require Import base list strings gmap.
From Stdlib Require Import ZArith Lia.
From S2P Require Import Prelude Errors BodyBudget DnsCache DnsConfig StdText Request Stream Http1 Http1Decoder NativeUpload NativeReactor NativeHttp.

Module Events.
Import Budget (bytes).
Import Request Http1.
Import Reactor (SlotId, NativeFailure, NativeEvent, Sockets, NativeReactor).
Import Config (SocketAddr).
Import Streaming (StreamDecodeProgress, StreamHeadDecision).
Import Owner.

Section owner.
Context {tgt : Target} {peers : HttpPeers}.

(** ** Failures of a connection *)

(** One address less every turn: the addresses left and one more is enough. *)
Fixpoint retry_loop (fuel : nat) (slot : SlotId) (failure : NativeFailure) : BM unit :=
  match fuel with
  | O => diverge
  | S fuel' =>
      found ← get_transfer slot;
      match found with
      | None => mret tt
      | Some t =>
          now ← instant_now;
          let deadline := next_deadline t in
          if passed deadline now then finish_timeout slot t now
          else
            match t_connecting t with
            | None => panic
            | Some c =>
                match remaining c with
                | [] => finish slot (Failed (native_transport_error failure))
                | address :: rest =>
                    let t := set_t_connecting (Some (mkConnecting rest (cleartext_request c) (c_outbound_limit c) (c_receive_limit c))) t in
                    _ ← put_transfer slot t;
                    connected ← on_reactor (Reactor.connect address deadline (c_outbound_limit c) (c_receive_limit c));
                    match connected with
                    | inl f => if is_connect f then retry_loop fuel' slot f else finish slot (Failed (native_transport_error f))
                    | inr next =>
                        budget ← on_reactor (Reactor.set_body_budget next
                                   (if is_streaming (t_response t) then None else body_budget (t_request t)));
                        match budget with
                        | inl f => _ ← reactor_cancel next; finish slot (Failed (native_transport_error f))
                        | inr _ =>
                            allowed ← (if Reactor.is_none (t_tls t) then mret (inr tt)
                                       else on_reactor (Reactor.set_read_allowance next (Some INPUT_WINDOW)));
                            match allowed with
                            | inl f => _ ← reactor_cancel next; finish slot (Failed (native_transport_error f))
                            | inr _ =>
                                modify (λ b, set_transfers (<[next := t]> (delete slot (transfers b)))
                                               (set_request_to_slot (<[t_request_id t := next]> (request_to_slot b))
                                                  (set_carried (carried b ++ [(next, t_key t)]) b)))
                            end
                        end
                    end
                end
            end
      end
  end.

Definition retry_http_connect (slot : SlotId) (failure : NativeFailure) : BM unit :=
  _ ← reactor_cancel slot;
  found ← get_transfer slot;
  retry_loop (S (length (default [] (remaining <$> (found ≫= t_connecting))))) slot failure.

Definition handshaking (t : HttpTransfer) : bool := match t_tls t with Some s => tls_is_handshaking s | None => false end.

Definition fail_native (slot : SlotId) (failure : NativeFailure) : BM unit :=
  found ← get_transfer slot;
  if is_connect failure && negb (Reactor.is_none (found ≫= t_connecting)) then retry_http_connect slot failure
  else
    let error :=
      if match found with Some t => handshaking t | None => false end then
        error_tls TransportStage.Tls TlsFailure.Io
          ("the connection failed during the TLS handshake: " +:+ Reactor.message failure)
      else if match Reactor.kind failure with Reactor.Read => true | _ => false end
              && match found with Some t => t_body_bearing t && negb (t_response_started t) | None => false end then
        error_transport TransportStage.Send
          "the connection failed during a body-bearing exchange before any response bytes arrived"
      else native_transport_error failure in
    finish slot (Failed error).

(** ** Output *)

Definition note_progress (slot : SlotId) (connected arm_deadline : bool) : BM unit :=
  found ← get_transfer slot;
  match found with
  | None => mret tt
  | Some t =>
      now ← instant_now;
      let t := transfer_note_progress now connected t in
      _ ← put_transfer slot t;
      if arm_deadline then reactor_or_fail (Reactor.set_deadline slot (next_deadline t)) else mret tt
  end.

(** [&request.body()[offset..]]; a larger offset panics. *)
Definition body_rest (t : HttpTransfer) : BM (list Z) :=
  let l := bytes (body (t_request t)) in
  lift (slice l (t_request_body_offset t) (len l)).

Definition pump_tls_request (slot : SlotId) : BM bool :=
  capacity ← on_reactor (Reactor.outbound_capacity slot);
  match capacity with
  | inl f => _ ← finish slot (Failed (error_new ErrorKind.Internal (Reactor.message f))); mret false
  | inr capacity =>
      found ← get_transfer slot;
      match found with
      | Some t =>
          match t_tls t with
          | Some s =>
              rest ← body_rest t;
              '(pumped, s) ← ask (λ n, tls_pump_request_body n s rest capacity);
              match pumped with
              | inl e => _ ← put_transfer slot (set_t_tls (Some s) t); _ ← finish slot (Failed e); mret false
              | inr (outbound, consumed) =>
                  _ ← put_transfer slot (set_t_request_body_offset (t_request_body_offset t + consumed) (set_t_tls (Some s) t));
                  if bool_decide (outbound = []) then mret false
                  else
                    queued ← on_reactor (Reactor.queue_write slot outbound);
                    match queued with
                    | inl f => _ ← finish slot (Failed (error_transport TransportStage.Send (Reactor.message f))); mret false
                    | inr _ => mret true
                    end
              end
          | None => mret false
          end
      | None => mret false
      end
  end.

Definition pump_cleartext_body (slot : SlotId) : BM bool :=
  capacity ← reactor_or_fail (Reactor.outbound_capacity slot);
  found ← get_transfer slot;
  match found with
  | None => mret false
  | Some t =>
      rest ← body_rest t;
      let count := Z.min (len rest) capacity in
      if count =? 0 then mret false
      else
        let offset := t_request_body_offset t in
        queued ← on_reactor (Reactor.queue_body slot (body_owner (t_request t)) offset (offset + count));
        match queued with
        | inl f => _ ← finish slot (Failed (native_transport_error f)); mret false
        | inr _ => _ ← put_transfer slot (set_t_request_body_offset (offset + count) t); mret true
        end
  end.

(** The loop of [pump_request_output]: [wires] are the answers of [next_wire]. *)
Fixpoint pump_upload (slot : SlotId) (wires : list (Error + UploadWire)) (queued : bool) : BM bool :=
  found ← get_transfer slot;
  match found with
  | None => mret queued
  | Some t =>
      match t_upload t with
      | None => mret queued
      | Some _ =>
          match t_tls t with
          | Some s =>
              if tls_is_handshaking s || negb (tls_request_fully_encrypted s) then mret queued
              else
                match wires with
                | inr (WireBytes wire) :: rest =>
                    '(begun, s) ← ask (λ n, tls_begin_request n s wire);
                    _ ← put_transfer slot (set_t_tls (Some s) t);
                    match begun with
                    | inl e => _ ← finish slot (Failed e); mret queued
                    | inr _ => more ← pump_tls_request slot; pump_upload slot rest (queued || more)
                    end
                | inl e :: _ => _ ← finish slot (Failed e); mret queued
                | _ => mret queued
                end
          | None =>
              capacity ← on_reactor (Reactor.outbound_capacity slot);
              match capacity with
              | inl f => _ ← finish slot (Failed (error_new ErrorKind.Internal (Reactor.message f))); mret queued
              | inr _ =>
                  match wires with
                  | inr (WireBytes wire) :: rest =>
                      written ← on_reactor (Reactor.queue_write slot wire);
                      match written with
                      | inl f => _ ← finish slot (Failed (error_transport TransportStage.Send (Reactor.message f))); mret queued
                      | inr _ => pump_upload slot rest true
                      end
                  | inl e :: _ => _ ← finish slot (Failed e); mret queued
                  | _ => mret queued
                  end
              end
          end
      end
  end.

Definition pump_request_output (slot : SlotId) : BM bool :=
  found ← get_transfer slot;
  match found with
  | None => mret false
  | Some t =>
      if negb (Reactor.is_none (t_connecting t)) then mret false
      else
        queued ← (if Reactor.is_none (t_tls t) then pump_cleartext_body slot else pump_tls_request slot);
        wires ← match t_upload t with Some u => ask (λ n, upload_wires n u) | None => mret [] end;
        pump_upload slot wires queued
  end.

Definition request_output_complete (t : HttpTransfer) : BM bool :=
  if t_upload_aborted t then mret false
  else
    upload_complete ← match t_upload t with Some u => ask (λ n, upload_is_complete n u) | None => mret true end;
    let encrypted := match t_tls t with Some s => tls_request_fully_encrypted s | None => true end in
    mret (upload_complete && encrypted && (t_request_body_offset t =? len (bytes (body (t_request t))))).

Definition refresh_request_write_drained (slot : SlotId) : BM unit :=
  found ← get_transfer slot;
  match found with
  | None => mret tt
  | Some t =>
      complete ← (if t_connected t then request_output_complete t else mret false);
      if (complete : bool) then
        empty ← reactor_or_fail (Reactor.outbound_is_empty slot);
        if (empty : bool) then put_transfer slot (set_t_request_write_drained true t) else mret tt
      else mret tt
  end.

Definition handle_connected (slot : SlotId) (arm_deadline : bool) : BM unit :=
  found ← get_transfer slot;
  _ ← match found with Some t => put_transfer slot (set_t_connecting None t) | None => mret tt end;
  let request := if arm_deadline then match found with Some t => t_connecting t ≫= cleartext_request | None => None end else None in
  queued ← match request with Some bytes => on_reactor (Reactor.queue_write slot bytes) | None => mret (inr tt) end;
  match queued with
  | inl f => finish slot (Failed (native_transport_error f))
  | inr _ =>
      found ← get_transfer slot;
      match found with
      | Some t =>
          match t_tls t with
          | Some s =>
              '(started, s) ← ask (λ n, tls_start n s);
              _ ← put_transfer slot (set_t_tls (Some s) t);
              match started with
              | inl e => finish slot (Failed e)
              | inr outbound =>
                  _ ← note_progress slot false arm_deadline;
                  if arm_deadline && negb (bool_decide (outbound = [])) then
                    hello ← on_reactor (Reactor.queue_write slot outbound);
                    match hello with
                    | inl f => finish slot (Failed (error_tls TransportStage.Tls TlsFailure.Io
                                 ("native TLS ClientHello queueing failed: " +:+ Reactor.message f)))
                    | inr _ => mret tt
                    end
                  else mret tt
              end
          | None => note_progress slot true arm_deadline
          end
      | None => note_progress slot true arm_deadline
      end
  end.

(** ** Streamed responses *)

Definition stream_plaintext (t : HttpTransfer) : list Z :=
  match t_response t with
  | Tr_Streaming _ retained offset _ _ _ =>
      match t_tls t with Some s => tls_retained_plaintext s | None => drop (Z.to_nat offset) retained end
  | Tr_Buffered _ => []
  end.

Definition consume_stream_plaintext (slot : SlotId) (t : HttpTransfer) (consumed : Z) : BM HttpTransfer :=
  match t_response t with
  | Tr_Streaming d retained offset closed dirty redirect =>
      match t_tls t with
      | Some s =>
          let '(answer, s) := tls_consume_retained_plaintext s consumed in
          let t := set_t_tls (Some s) t in
          _ ← put_transfer slot t;
          match answer with inl e => fail e | inr _ => mret t end
      | None =>
          if saturating_sub (len retained) offset <? consumed then
            fail (error_new ErrorKind.Internal "native HTTP consumed beyond retained cleartext streaming bytes")
          else
            let offset := offset + consumed in
            let t := set_t_response (if offset =? len retained then Tr_Streaming d [] 0 closed dirty redirect
                                     else Tr_Streaming d retained offset closed dirty redirect) t in
            _ ← put_transfer slot t; mret t
      end
  | Tr_Buffered _ =>
      fail (error_new ErrorKind.Internal "buffered native response entered streaming plaintext consumption")
  end.

(** [Some 0] while a worker has the session or will get it. *)
Definition set_handshake_allowance (slot : SlotId) (s : NativeTls) : BM unit :=
  b ← get;
  reactor_or_fail (Reactor.set_read_allowance slot
    (Some (if tls_handshake_in_worker s || existsb (λ x, bool_decide (x.1 = slot)) (handshake_waiting b)
           then 0 else INPUT_WINDOW))).

(** The inactivity deadline rests while the reader is behind. *)
Definition refresh_paused (slot : SlotId) (t : HttpTransfer) (d : StreamDecoder) (allowance : Z) : BM unit :=
  blocked ← ask (λ n, stream_consumer_blocked n d);
  now ← instant_now;
  let changed :=
    if (blocked : bool) && negb (t_inactivity_paused t) then Some (set_t_inactivity (t_connected t) None true t)
    else if negb blocked && t_inactivity_paused t
    then Some (set_t_inactivity (t_connected t) (after (t_inactivity_timeout t) now) false t)
    else None in
  _ ← match changed with
      | Some t => _ ← put_transfer slot t; reactor_or_fail (Reactor.set_deadline slot (next_deadline t))
      | None => mret tt
      end;
  reactor_or_fail (Reactor.set_read_allowance slot (Some allowance)).

Definition refresh_stream_allowance (slot : SlotId) : BM unit :=
  found ← get_transfer slot;
  match found with
  | None => mret tt
  | Some t =>
      match t_tls t with
      | Some s => if tls_is_handshaking s then set_handshake_allowance slot s else
          match t_response t with
          | Tr_Streaming d _ _ _ _ _ =>
              capacity ← ask (λ n, stream_socket_capacity n d);
              refresh_paused slot t d (tls_streaming_read_allowance s capacity)
          | Tr_Buffered _ => mret tt
          end
      | None =>
          match t_response t with
          | Tr_Streaming d retained offset _ _ _ =>
              capacity ← ask (λ n, stream_socket_capacity n d);
              refresh_paused slot t d (if saturating_sub (len retained) offset =? 0 then capacity else 0)
          | Tr_Buffered _ => mret tt
          end
      end
  end.

Definition set_redirect (redirect : option RequestRedirect) (r : TransferResponse) : TransferResponse :=
  match r with
  | Tr_Streaming d retained offset closed dirty _ => Tr_Streaming d retained offset closed dirty redirect
  | Tr_Buffered _ => r
  end.
Definition set_decoder (d : StreamDecoder) (r : TransferResponse) : TransferResponse :=
  match r with
  | Tr_Streaming _ retained offset closed dirty redirect => Tr_Streaming d retained offset closed dirty redirect
  | Tr_Buffered _ => r
  end.
Definition stream_redirect (t : HttpTransfer) : option RequestRedirect :=
  match t_response t with Tr_Streaming _ _ _ _ _ redirect => redirect | Tr_Buffered _ => None end.
Definition stream_peer_closed (t : HttpTransfer) : bool :=
  match t_response t with Tr_Streaming _ _ _ closed _ _ => closed | Tr_Buffered _ => false end.
Definition stream_dirty_eof (t : HttpTransfer) : bool :=
  match t_response t with Tr_Streaming _ _ _ _ dirty _ => dirty | Tr_Buffered _ => false end.
Definition set_stream_closed (dirty : bool) (t : HttpTransfer) : HttpTransfer :=
  set_t_response (match t_response t with
                  | Tr_Streaming d retained offset _ dirty' redirect => Tr_Streaming d retained offset true (dirty' || dirty) redirect
                  | r => r
                  end) t.

(** The response is over: its connection is parked or closed, and a redirect
    goes on with the stream. *)
Definition complete_stream_response (slot : SlotId) (response_permits_reuse peer_closed : bool) : BM unit :=
  removed ← remove_transfer slot;
  match removed with
  | None => reactor_cancel slot
  | Some t =>
      let id := t_request_id t in
      match t_response t with
      | Tr_Buffered _ => panic
      | Tr_Streaming d _ _ _ _ redirect =>
          taken ← match redirect with
                  | Some rd =>
                      '(answer, _) ← ask (λ n, stream_take_response n d);
                      match answer with
                      | inr _ => mret (Some rd, false)
                      | inl e => _ ← tell_stream id (Some e); mret (None, true)
                      end
                  | None => mret (None, false)
                  end;
          let '(redirect, failed) := taken in
          b ← get;
          _ ← park_or_close slot t (negb failed && reusable b t response_permits_reuse peer_closed);
          match redirect with
          | None => if (failed : bool) then mret tt else tell_stream id None
          | Some rd =>
              next ← start_redirect id (apply_redirect rd (t_request t)) (t_total_deadline t)
                       (saturating_add u8_max (t_redirect_hops t) 1) (Pending_Streaming None);
              match next with
              | Ok p => c ← start_pending p; match c with None => mret tt | Some _ => panic end
              | Err e => tell_stream id (Some e)
              | Panic => panic
              | Diverge => diverge
              end
          end
      end
  end.

Definition bytes_after_redirect : Error :=
  error_transport TransportStage.Http "the peer sent bytes after a no-body redirect response".
Definition bytes_after_stream : Error :=
  error_transport TransportStage.Http "the peer sent bytes after the completed streaming HTTP response".

(** The head is decided: whether the loop goes on. *)
Definition drain_head (slot : SlotId) (t : HttpTransfer) (d : StreamDecoder) (head : Download.ResponseHead) (consumed : Z) : BM bool :=
  let planned := if Reactor.is_none (t_upload t) then
                   plan_redirect (t_request t) (Download.head_status head) (t_redirect_hops t)
                     (resolved_redirect_target (t_request t) (Download.head_headers head))
                 else Ok None in
  match planned with
  | Err e => _ ← finish slot (Failed e); mret false
  | Panic => panic
  | Diverge => diverge
  | Ok redirect =>
      t ← consume_stream_plaintext slot t consumed;
      t ← match t_upload t with
          | Some u =>
              complete ← ask (λ n, upload_is_complete n u);
              mret (set_t_upload None (t_upload_aborted t || negb complete || negb (t_request_write_drained t)) t)
          | None => mret t
          end;
      '(decision, d) ← ask (λ n, stream_decide_head n d (Reactor.is_none redirect));
      let t := set_t_response (set_redirect redirect (set_decoder d (t_response t))) t in
      _ ← put_transfer slot t;
      match decision with
      | inl e => _ ← finish slot (Failed e); mret false
      | inr decision =>
          if Streaming.decided_complete decision then
            let trailing := negb (bool_decide (stream_plaintext t = [])) in
            _ ← (if trailing && negb (Reactor.is_none redirect) then finish slot (Failed bytes_after_redirect)
                 else complete_stream_response slot (Streaming.decided_reuse decision && negb trailing) (stream_peer_closed t));
            mret false
          else mret true
      end
  end.

(** The loop of [drain_stream_plaintext]: whether it was left by [break]. A turn
    that goes on consumes a byte, so one more turn than there are bytes is
    enough. *)
Fixpoint drain_loop (fuel : nat) (slot : SlotId) : BM bool :=
  match fuel with
  | O => diverge
  | S fuel' =>
      found ← get_transfer slot;
      match found with
      | None => mret false
      | Some t =>
          match t_response t with
          | Tr_Buffered _ => fail (error_new ErrorKind.Internal "buffered native response entered streaming decoder drain")
          | Tr_Streaming d _ _ _ _ _ =>
              let plaintext := stream_plaintext t in
              if bool_decide (plaintext = []) then mret true
              else
                '(progress, d) ← ask (λ n, stream_ingest n d plaintext);
                let t := set_t_response_started true (set_t_response (set_decoder d (t_response t)) t) in
                _ ← put_transfer slot t;
                match progress with
                | inl e => _ ← finish slot (Failed e); mret false
                | inr (Streaming.ProgressHead head consumed) =>
                    more ← drain_head slot t d head consumed;
                    if (more : bool) then drain_loop fuel' slot else mret false
                | inr (Streaming.ProgressBody consumed blocked) =>
                    _ ← consume_stream_plaintext slot t consumed;
                    if (blocked : bool) || (consumed =? 0) then mret true else drain_loop fuel' slot
                | inr (Streaming.ProgressComplete consumed reuse _) =>
                    t ← consume_stream_plaintext slot t consumed;
                    _ ← (if bool_decide (stream_plaintext t = []) then complete_stream_response slot reuse (stream_peer_closed t)
                         else finish slot (Failed bytes_after_stream));
                    mret false
                end
          end
      end
  end.

Definition drain_eof (slot : SlotId) (t : HttpTransfer) (d : StreamDecoder) : BM unit :=
  '(answer, d) ← ask (λ n, stream_eof n d);
  _ ← put_transfer slot (set_t_response (set_decoder d (t_response t)) t);
  match answer with
  | inr (Some (reuse, _)) => complete_stream_response slot reuse true
  | inr None => finish slot (Failed (error_transport TransportStage.Receive "the peer closed without completing a streaming response"))
  | inl e => finish slot (Failed e)
  end.

Definition dirty_close : Error :=
  error_transport TransportStage.Receive "the TLS peer closed without an authenticated close notification".

Definition drain_stream_plaintext (slot : SlotId) (peer_closed : bool) : BM unit :=
  found ← get_transfer slot;
  _ ← match found with
      | Some t => if (peer_closed : bool) && is_streaming (t_response t) then put_transfer slot (set_stream_closed false t) else mret tt
      | None => mret tt
      end;
  broke ← drain_loop (S (length (default [] (stream_plaintext <$> found)))) slot;
  if negb broke then mret tt
  else
    found ← get_transfer slot;
    match found with
    | Some t =>
        match t_response t with
        | Tr_Streaming d _ _ true dirty _ =>
            if bool_decide (stream_plaintext t = []) then
              if (dirty : bool) then finish slot (Failed dirty_close)
              else
                _ ← drain_eof slot t d;
                b ← get;
                if Reactor.is_none (transfers b !! slot) then mret tt else refresh_stream_allowance slot
            else refresh_stream_allowance slot
        | _ => refresh_stream_allowance slot
        end
    | None => mret tt
    end.

Definition refresh_tls_allowance (slot : SlotId) : BM unit :=
  found ← get_transfer slot;
  match found with
  | Some t =>
      match t_tls t with
      | Some s =>
          if tls_is_handshaking s then set_handshake_allowance slot s
          else if is_streaming (t_response t) then refresh_stream_allowance slot
          else reactor_or_fail (Reactor.set_read_allowance slot None)
      | None => mret tt
      end
  | None => mret tt
  end.

(** ** Input *)

(** Queue what the session has to say; [error] if that fails. *)
Definition queue_outbound (slot : SlotId) (arm_deadline : bool) (outbound : list Z)
    (error : option HttpTransfer → NativeFailure → Error) : BM bool :=
  if arm_deadline && negb (bool_decide (outbound = [])) then
    queued ← on_reactor (Reactor.queue_write slot outbound);
    match queued with
    | inr _ => mret true
    | inl f => found ← get_transfer slot; _ ← finish slot (Failed (error found f)); mret false
    end
  else mret true.

Definition tls_io (f : NativeFailure) : Error := error_tls TransportStage.Tls TlsFailure.Io (Reactor.message f).

(** [None]: the connection has no TLS. *)
Definition handle_stream_tls_progress (slot : SlotId) (progress : option (Error + TlsStreamProgress)) (bytes : list Z) (arm_deadline : bool) : BM unit :=
  found ← get_transfer slot;
  step ← match progress with
         | Some (inr p) => mret (Some (sp_handshake_complete p, sp_outbound p, sp_peer_closed p))
         | Some (inl e) => _ ← finish slot (Failed e); mret None
         | None =>
             match found with
             | None => mret None
             | Some t =>
                 match t_response t with
                 | Tr_Buffered _ => fail (error_new ErrorKind.Internal "buffered native response entered streaming data path")
                 | Tr_Streaming d retained offset closed dirty redirect =>
                     if offset =? len retained then
                       _ ← put_transfer slot (set_t_response (Tr_Streaming d bytes 0 closed dirty redirect) t);
                       mret (Some (false, [], false))
                     else
                       _ ← finish slot (Failed (error_new ErrorKind.Internal
                             "native cleartext accepted bytes while streaming plaintext remained"));
                       mret None
                 end
             end
         end;
  match step with
  | None => mret tt
  | Some (established, outbound, peer_closed) =>
      _ ← note_progress slot established arm_deadline;
      queued ← queue_outbound slot arm_deadline outbound (λ _, tls_io);
      if negb queued then mret tt
      else
        b ← get;
        _ ← (if arm_deadline && established && negb (Reactor.is_none (transfers b !! slot)) then
               _ ← pump_request_output slot; mret tt
             else mret tt);
        drain_stream_plaintext slot peer_closed
  end.

Definition handle_stream_data (slot : SlotId) (bytes : list Z) (arm_deadline : bool) : BM unit :=
  found ← get_transfer slot;
  progress ← match found with
             | Some t =>
                 match t_tls t with
                 | Some s =>
                     '(answer, s) ← ask (λ n, tls_receive_streaming n s bytes);
                     _ ← put_transfer slot (set_t_tls (Some s) t);
                     mret (Some answer)
                 | None => mret None
                 end
             | None => mret None
             end;
  handle_stream_tls_progress slot progress bytes arm_deadline.

Fixpoint resume_slots (slots : list SlotId) : BM unit :=
  match slots with
  | [] => mret tt
  | slot :: rest =>
      _ ← pump_request_output slot;
      b ← get;
      _ ← (if Reactor.is_none (transfers b !! slot) then mret tt else refresh_request_write_drained slot);
      _ ← drain_stream_plaintext slot false;
      b ← get;
      _ ← (if Reactor.is_none (transfers b !! slot) then mret tt else refresh_stream_allowance slot);
      resume_slots rest
  end.
Definition resume_streams : BM unit :=
  b ← get;
  slots ← in_hash_order (map fst (List.filter (λ x, is_streaming (t_response x.2)) (map_to_list (transfers b))));
  resume_slots slots.

Definition bytes_after_response : Error :=
  error_transport TransportStage.Http "the peer sent bytes after the completed HTTP response".
Definition closed_early (message : string) : Error := error_transport TransportStage.Receive message.

(** The response at the end of the input, if there is one. *)
Definition buffered_eof (slot : SlotId) (t : HttpTransfer) (d : BufferedDecoder) (otherwise : string) : BM unit :=
  '(answer, d) ← ask (λ n, decoder_eof n d);
  _ ← put_transfer slot (set_t_response (Tr_Buffered d) t);
  match answer with
  | inr (Some response) => finish slot (Completed response)
  | inr None => finish slot (Failed (closed_early otherwise))
  | inl e => finish slot (Failed e)
  end.

Definition handle_buffered_tls_progress (slot : SlotId) (progress : option (Error + TlsProgress)) (bytes : list Z) (arm_deadline : bool) : BM unit :=
  step ← match progress with
         | Some (inr p) => mret (Some (tp_plaintext p, tp_handshake_complete p, tp_outbound p, tp_peer_closed p))
         | Some (inl e) => _ ← finish slot (Failed e); mret None
         | None => mret (Some (bytes, false, [], false))
         end;
  match step with
  | None => mret tt
  | Some (plaintext, established, outbound, peer_closed) =>
      _ ← note_progress slot established arm_deadline;
      queued ← queue_outbound slot arm_deadline outbound (λ found f,
                 if match found with Some t => handshaking t | None => false end then tls_io f
                 else error_transport TransportStage.Send (Reactor.message f));
      if negb queued then mret tt
      else
        b ← get;
        _ ← (if arm_deadline && established && negb (Reactor.is_none (transfers b !! slot)) then
               _ ← pump_request_output slot; mret tt
             else mret tt);
        found ← get_transfer slot;
        match found with
        | None => mret tt
        | Some t =>
            match t_response t with
            | Tr_Streaming _ _ _ _ _ _ => panic
            | Tr_Buffered d =>
                '(decoded, d) ← ask (λ n, decoder_ingest n d plaintext);
                let t := set_t_response_started (t_response_started t || negb (bool_decide (plaintext = [])))
                           (set_t_response (Tr_Buffered d) t) in
                _ ← put_transfer slot t;
                match decoded with
                | inl e => finish slot (Failed e)
                | inr p =>
                    match Buffered.response p with
                    | Some response =>
                        if Buffered.consumed p =? len plaintext then
                          complete_response slot response (Buffered.progress_reuse p) peer_closed
                        else finish slot (Failed bytes_after_response)
                    | None =>
                        if (peer_closed : bool) then
                          buffered_eof slot t d "the TLS peer closed without completing a response"
                        else mret tt
                    end
                end
            end
        end
  end.

Definition waits_for_worker (b : Backend) (slot : SlotId) : bool := existsb (λ x, bool_decide (x.1 = slot)) (handshake_waiting b).

Definition handle_data (slot : SlotId) (bytes : list Z) (arm_deadline : bool) : BM unit :=
  found ← get_transfer slot;
  if match found with Some t => handshaking t | None => false end then
    if negb arm_deadline then mret tt
    else
      _ ← note_progress slot false true;
      _ ← reactor_or_fail (Reactor.set_read_allowance slot (Some 0));
      b ← get;
      if (INPUT_WINDOW <? len bytes) || waits_for_worker b slot
         || match found ≫= t_tls with Some s => tls_handshake_in_worker s | None => false end
      then finish slot (Failed (error_new ErrorKind.Internal "TLS handshake received bytes without an input allowance"))
      else modify (λ b, set_handshake_waiting (handshake_waiting b ++ [(slot, bytes)]) b)
  else if match found with Some t => is_streaming (t_response t) | None => false end then
    handle_stream_data slot bytes arm_deadline
  else
    progress ← match found with
               | Some t =>
                   match t_tls t with
                   | Some s =>
                       '(answer, s) ← ask (λ n, tls_receive n s bytes);
                       _ ← put_transfer slot (set_t_tls (Some s) t);
                       mret (Some answer)
                   | None => mret None
                   end
               | None => mret None
               end;
    handle_buffered_tls_progress slot progress bytes arm_deadline.

(** ** Events *)

Definition handle_peer_closed (slot : SlotId) : BM unit :=
  found ← get_transfer slot;
  b ← get;
  if waits_for_worker b slot || match found ≫= t_tls with Some s => tls_handshake_in_worker s | None => false end then
    put (set_handshake_peer_closed (handshake_peer_closed b ∪ {[slot]}) b)
  else
    match found with
    | None => reactor_cancel slot
    | Some t =>
        match t_tls t, t_response t with
        | Some s, r =>
            if tls_is_handshaking s then
              finish slot (Failed (error_tls TransportStage.Tls TlsFailure.Protocol "the peer closed during the TLS handshake"))
            else if is_streaming r then
              _ ← put_transfer slot (set_stream_closed true t); drain_stream_plaintext slot false
            else finish slot (Failed dirty_close)
        | None, Tr_Streaming _ _ _ _ _ _ => drain_stream_plaintext slot true
        | None, Tr_Buffered d => buffered_eof slot t d "the peer closed without completing a response"
        end
    end.

Definition handle_deadline_expired (slot : SlotId) : BM unit :=
  now ← instant_now;
  found ← get_transfer slot;
  match found with
  | None => mret tt
  | Some t =>
      match next_deadline t with
      | Some deadline =>
          if deadline <=? now then finish_timeout slot t now
          else reactor_or_fail (Reactor.set_deadline slot (Some deadline))
      | None => mret tt
      end
  end.

Definition event_slot (e : NativeEvent) : SlotId :=
  match e with
  | Reactor.Connected slot | Reactor.WriteProgress slot _ | Reactor.WriteDrained slot | Reactor.Data slot _
  | Reactor.PeerClosed slot | Reactor.Failed slot _ | Reactor.DeadlineExpired slot => slot
  end.
Definition failed_slots (events : list NativeEvent) : gset SlotId :=
  list_to_set (omap (λ e, match e with Reactor.Failed slot _ => Some slot | _ => None end) events).

Definition process_event (failed : gset SlotId) (e : NativeEvent) : BM unit :=
  let slot := event_slot e in
  let alive := negb (bool_decide (slot ∈ failed)) in
  b ← get;
  match idle_slots b !! slot with
  | Some _ =>
      match e with
      | Reactor.WriteProgress _ _ | Reactor.WriteDrained _ => mret tt
      | _ => discard_idle_slot slot
      end
  | None =>
      match e with
      | Reactor.Connected _ =>
          _ ← handle_connected slot alive;
          b ← get;
          if alive && negb (Reactor.is_none (transfers b !! slot)) then _ ← pump_request_output slot; mret tt else mret tt
      | Reactor.WriteProgress _ _ =>
          _ ← note_progress slot false alive;
          if (alive : bool) then _ ← pump_request_output slot; mret tt else mret tt
      | Reactor.WriteDrained _ =>
          _ ← note_progress slot false alive;
          more ← (if (alive : bool) then pump_request_output slot else mret false);
          b ← get;
          if negb more && negb (Reactor.is_none (transfers b !! slot)) then refresh_request_write_drained slot else mret tt
      | Reactor.Data _ bytes => handle_data slot bytes alive
      | Reactor.PeerClosed _ => handle_peer_closed slot
      | Reactor.Failed _ failure => fail_native slot failure
      | Reactor.DeadlineExpired _ => handle_deadline_expired slot
      end
  end.
Fixpoint process_all (failed : gset SlotId) (events : list NativeEvent) : BM unit :=
  match events with
  | [] => mret tt
  | e :: rest => _ ← process_event failed e; process_all failed rest
  end.
Definition process_events (events : list NativeEvent) : BM unit := process_all (failed_slots events) events.

(** ** TLS handshakes *)

(** A job the workers have finished. *)
Definition handshake_finished (job : SlotId * TlsSession * (Error + TlsProgress)) : BM unit :=
  let '(slot, session, progress) := job in
  found ← get_transfer slot;
  match found with
  | None => mret tt
  | Some t =>
      now ← instant_now;
      if passed (next_deadline t) now then finish_timeout slot t now
      else
        match t_tls t with
        | None => mret tt
        | Some s =>
            let s := tls_restore_handshake s session in
            b ← get;
            let peer_closed := bool_decide (slot ∈ handshake_peer_closed b) in
            _ ← put (set_handshake_peer_closed (handshake_peer_closed b ∖ {[slot]}) b);
            _ ← put_transfer slot (set_t_tls (Some s) t);
            _ ← (if is_streaming (t_response t) then
                   retained ← match progress with
                              | inl e => mret (inl e)
                              | inr p =>
                                  '(answer, s) ← ask (λ n, tls_retain_stream_progress n s p);
                                  _ ← put_transfer slot (set_t_tls (Some s) t);
                                  mret answer
                              end;
                   handle_stream_tls_progress slot (Some retained) [] true
                 else handle_buffered_tls_progress slot (Some progress) [] true);
            _ ← refresh_tls_allowance slot;
            if peer_closed then process_events [Reactor.PeerClosed slot] else mret tt
        end
  end.
Fixpoint handshakes_finished (jobs : list (SlotId * TlsSession * (Error + TlsProgress))) : BM unit :=
  match jobs with
  | [] => mret tt
  | job :: rest => _ ← handshake_finished job; handshakes_finished rest
  end.

(** Give the input of a handshake to the workers. *)
Definition submit_handshake (slot : SlotId) : BM unit :=
  found ← get_transfer slot;
  match found with
  | None => mret tt
  | Some t =>
      now ← instant_now;
      if passed (next_deadline t) now then finish_timeout slot t now
      else
        match t_tls t with
        | None => mret tt
        | Some s =>
            let '(session, s) := tls_take_handshake s in
            _ ← put_transfer slot (set_t_tls (Some s) t);
            match session with
            | None => fail (error_new ErrorKind.Internal "TLS handshake lost its session")
            | Some _ =>
                answer ← ask workers_submit;
                match answer with Some e => finish slot (Failed e) | None => mret tt end
            end
        end
  end.
(** Every turn takes an input off the queue. *)
Fixpoint submit_handshakes (fuel : nat) : BM unit :=
  match fuel with
  | O => diverge
  | S fuel' =>
      capacity ← ask workers_has_capacity;
      if (capacity : bool) then
        b ← get;
        match handshake_waiting b with
        | [] => mret tt
        | (slot, _) :: rest => _ ← put (set_handshake_waiting rest b); _ ← submit_handshake slot; submit_handshakes fuel'
        end
      else mret tt
  end.

Definition service_tls : BM unit :=
  jobs ← ask workers_finished;
  _ ← handshakes_finished jobs;
  b ← get;
  submit_handshakes (S (length (handshake_waiting b))).

(** ** The calls of the engine *)

Definition deadlines_from (o : RequestOptions) (accepted_at : Z) : PendingDeadlines :=
  mkDeadlines (after (connect_timeout o) accepted_at) (after (total_timeout o) accepted_at) (after (inactivity_timeout o) accepted_at).

Definition submit (id : RequestId) (request : Request) (accepted_at : Z) : BM (option Completion) :=
  b ← get;
  match make_pending id request (deadlines_from (options request) accepted_at) 0 ErrorKind.InvalidRequest Pending_Buffered (limits b) with
  | Ok p => start_pending p
  | Err e => mret (Some (Failed e))
  | Panic => panic
  | Diverge => diverge
  end.

Definition submit_stream (id : RequestId) (request : Request) (upload : option UploadBody) (accepted_at : Z) : BM unit :=
  b ← get;
  match make_pending id request (deadlines_from (options request) accepted_at) 0 ErrorKind.InvalidRequest (Pending_Streaming upload) (limits b) with
  | Ok p => c ← start_pending p; match c with None => mret tt | Some _ => panic end
  | Err e => tell_stream id (Some e)
  | Panic => panic
  | Diverge => diverge
  end.

Fixpoint remove_request (id : RequestId) (l : list PendingResolve) : list PendingResolve :=
  match l with
  | [] => []
  | p :: rest => if p_request_id p =? id then rest else p :: remove_request id rest
  end.

Definition cancel (id : RequestId) : BM unit :=
  b ← get;
  _ ← match request_to_slot b !! id with Some slot => cancel_handshake slot | None => mret tt end;
  _ ← modify (λ b, set_waiting (remove_request id (waiting b)) b);
  b ← get;
  _ ← match request_to_resolve b !! id with
      | None => mret tt
      | Some key =>
          _ ← put (set_resolves (delete key (resolves b)) (set_request_to_resolve (delete id (request_to_resolve b)) b));
          _ ← match resolves b !! key with Some p => release_connection (p_key p) | None => mret tt end;
          if resolver b then _ ← ask resolver_cancel; mret tt else mret tt
      end;
  b ← get;
  match request_to_slot b !! id with
  | None => mret tt
  | Some slot =>
      _ ← put (set_transfers (delete slot (transfers b)) (set_request_to_slot (delete id (request_to_slot b)) b));
      _ ← match transfers b !! slot with Some t => release_connection (t_key t) | None => mret tt end;
      reactor_cancel slot
  end.

Definition take_pending_http : BM unit :=
  modify (λ b, set_pending_http_from_dns [] (set_completions (completions b ++ pending_http_from_dns b) b)).

Definition poll_body : BM unit :=
  _ ← apply_idle_http_eviction;
  now ← instant_now;
  _ ← expire_idle now;
  done ← dispatch_waiting; _ ← push_completions done;
  _ ← drain_dns; _ ← take_pending_http;
  done ← expire_resolves; _ ← push_completions done;
  done ← dispatch_waiting; _ ← push_completions done;
  _ ← service_tls;
  _ ← resume_streams;
  events ← reactor_or_fail Reactor.poll;
  _ ← process_events events;
  _ ← service_tls;
  _ ← drain_dns; _ ← take_pending_http;
  done ← expire_resolves; _ ← push_completions done;
  done ← dispatch_waiting; push_completions done.

(** [completions] is a local variable: it is returned, or dropped with an error. *)
Definition poll : BM (list (RequestId * Completion)) := λ b,
  match poll_body (set_completions [] b) with
  | (Ok _, b') => (Ok (completions b'), set_completions [] b')
  | (Err e, b') => (Err e, set_completions [] b')
  | (Panic, b') => (Panic, b')
  | (Diverge, b') => (Diverge, b')
  end.

Definition shutdown : BM unit :=
  _ ← on_reactor Reactor.shutdown;
  modify (λ b, mkBackend (reactor b) [] ∅ (resolver b) (tls b) (limits b) ∅ ∅ ∅ ∅ [] (next_resolve_key b) ∅ ∅ 0
                 (resolver_config_generation b) 0 ∅ [] (connection_limits b) (completions b) (stream_log b) (carried b) (asked b)).

Definition new (l : HttpLimits) (with_resolver with_tls : bool) (cl : ConnectionLimits) : outcome Error Backend :=
  if (global cl =? 0) || (per_origin cl =? 0) then Err (error_new ErrorKind.Internal "native connection limits are invalid")
  else Ok (mkBackend Reactor.new [] ∅ with_resolver with_tls l ∅ ∅ ∅ ∅ [] 1 ∅ ∅ 0 (if with_resolver then 1 else 0) 0 ∅ [] cl [] [] [] 0).

End owner.
End Events.
