(* ===== verification/NativeHttpProofs.v ===== *)
(** * The connection owner: its books

    Every connection the owner counts is held by a transfer, a lookup, an idle
    connection or the function that is running; every request it was given is
    waiting, being looked up, being carried, answered, or in the hands of the
    function that is running. The record [Good] says so; this file shows that
    the elementary changes of the state keep it. *)

From stdpp Require Import base list strings gmap.
From Stdlib Require Import ZArith Lia.
From S2P Require Import Prelude Counting Errors BodyBudget DnsCache DnsConfig StdText Request RequestProofs Stream Http1 SerializeProofs Http1Decoder NativeUpload NativeReactor NativeReactorProofs NativeReactorRuns NativeHttp.

Import Budget (bytes).
Import Request Http1.
Import Reactor (SlotId, NativeFailure, NativeReactor).
Import Owner.

(** Permutations by counting, whatever the identifiers are called. *)
Ltac perm := perm_by ltac:(unfold ResolveKey, RequestId in *).

(** What the values of a map are under [f], in some order. *)
Definition vals {K A B} `{Countable K} (f : A → B) (m : gmap K A) : list B := map (λ x, f x.2) (map_to_list m).

Section vals.
Context {K A B} `{Countable K} (f : A → B).
Implicit Types (m : gmap K A).
Lemma vals_insert m i x : m !! i = None → vals f (<[i := x]> m) ≡ₚ f x :: vals f m.
Proof. intros Hi. unfold vals. by rewrite (map_to_list_insert m i x Hi). Qed.
Lemma vals_delete m i x : m !! i = Some x → vals f m ≡ₚ f x :: vals f (delete i m).
Proof. intros Hi. unfold vals. by rewrite <-(map_to_list_delete m i x Hi). Qed.
Lemma vals_update m i x y : m !! i = Some x → f y = f x → vals f (<[i := y]> m) ≡ₚ vals f m.
Proof.
  intros Hi Hf. rewrite (vals_delete m i x Hi), <-Hf. rewrite <-(vals_insert (delete i m) i y) by apply lookup_delete_eq.
  by rewrite insert_delete_eq.
Qed.
Lemma vals_elem m y : y ∈ vals f m ↔ ∃ i x, m !! i = Some x ∧ y = f x.
Proof.
  unfold vals. rewrite list_elem_of_fmap. split.
  - intros ([i x] & -> & Hx%elem_of_map_to_list). by exists i, x.
  - intros (i & x & Hx & ->). exists (i, x). split; [done|]. by apply elem_of_map_to_list.
Qed.
Lemma vals_len m : len (vals f m) = Z.of_nat (size m).
Proof. unfold vals, len. by rewrite length_map, length_map_to_list. Qed.
End vals.

(** ** The invariant *)

Section books.
Context {tgt : Target} {peers : HttpPeers} (cl : ConnectionLimits).

(** The connections in use, by key. *)
Definition reserved (b : Backend) : list ConnectionKey :=
  vals t_key (transfers b) ++ vals p_key (resolves b) ++ vals id (idle_slots b).
(** The requests under way, and those that ended. *)
Definition placed (b : Backend) : list RequestId :=
  map p_request_id (waiting b) ++ vals t_request_id (transfers b) ++ vals p_request_id (resolves b).
Definition ended (b : Backend) : list RequestId :=
  map fst (completions b) ++ map fst (pending_http_from_dns b) ++ map fst (stream_log b).

(** The key is that of the request's URL and TLS verification. *)
Definition key_ok (r : Request) (k : ConnectionKey) : Prop :=
  ∃ kind origin, http_origin kind (url r) = Ok origin ∧ key_scheme k = scheme origin ∧
    key_host k = ascii_lowercase (host origin) ∧ key_port k = port origin ∧
    (key_dangerously_disable_tls_verification k = true ↔ tls_verification (options r) = DangerouslyDisableCertificateVerification).
Definition encrypted_ok (t : option NativeTls) (k : ConnectionKey) : Prop := is_Some t ↔ key_scheme k = bs "https".
(** A [Vec] holds at most [usize::MAX] elements. *)
Definition sized (r : Request) : Prop := len (headers r) ≤ usize_max.

Record pending_ok (p : PendingResolve) : Prop := {
  pk_sized : sized (p_request p);
  pk_key : key_ok (p_request p) (p_key p);
  pk_scheme : key_scheme (p_key p) = p_scheme p
}.
Record transfer_ok (t : HttpTransfer) : Prop := {
  tk_sized : sized (t_request t);
  tk_key : key_ok (t_request t) (t_key t);
  tk_tls : encrypted_ok (t_tls t) (t_key t);
  tk_offset : 0 ≤ t_request_body_offset t ≤ len (bytes (body (t_request t)));
  tk_connecting : ∀ c, t_connecting t = Some c → 0 ≤ c_outbound_limit c ∧ 0 ≤ c_receive_limit c;
  tk_retained : ∀ d l o closed dirty redirect, t_response t = Tr_Streaming d l o closed dirty redirect → 0 ≤ o ≤ len l
}.

(** The counters are exact and within the limits; [K] are the reservations of
    the running function. *)
Record Counted (K : list ConnectionKey) (b : Backend) : Prop := {
  co_limits : connection_limits b = cl;
  co_total : connection_count b = len K + len (reserved b);
  co_global : connection_count b ≤ global cl;
  co_each : ∀ k, count_for b k = occ k K + occ k (reserved b);
  co_origin : ∀ k, count_for b k ≤ per_origin cl;
  co_positive : ∀ k n, connections_per_key b !! k = Some n → 0 < n
}.
(** No request is lost or there twice; [I] are those of the running function. *)
Record Listed (L I : list RequestId) (b : Backend) : Prop := {
  li_all : I ++ placed b ++ ended b ≡ₚ L;
  li_once : NoDup L
}.
Record Indexed (b : Backend) : Prop := {
  ix_slot : ∀ id slot, request_to_slot b !! id = Some slot ↔ ∃ t, transfers b !! slot = Some t ∧ t_request_id t = id;
  ix_resolve : ∀ id key, request_to_resolve b !! id = Some key ↔ ∃ p, resolves b !! key = Some p ∧ p_request_id p = id;
  ix_next : ∀ key p, resolves b !! key = Some p → key < next_resolve_key b
}.
Record Parked (b : Backend) : Prop := {
  pa_slots : ∀ slot k, idle_slots b !! slot = Some k ↔ ∃ l, idle b !! k = Some l ∧ slot ∈ map i_slot l;
  pa_lists : ∀ k l, idle b !! k = Some l → l ≠ [] ∧ NoDup (map i_slot l) ∧ len l ≤ idle_per_origin cl;
  pa_tls : ∀ k l c, idle b !! k = Some l → c ∈ l → encrypted_ok (i_tls c) k;
  pa_count : idle_count b = Z.of_nat (size (idle_slots b));
  pa_global : idle_count b ≤ idle_global cl
}.
Record Sound (b : Backend) : Prop := {
  so_http : 0 ≤ header_bytes (limits b) ∧ 0 ≤ body_bytes (limits b);
  so_transfers : ∀ slot t, transfers b !! slot = Some t → transfer_ok t;
  so_apart : ∀ slot t, transfers b !! slot = Some t → idle_slots b !! slot = None;
  so_waiting : Forall pending_ok (waiting b);
  so_resolves : ∀ key p, resolves b !! key = Some p → pending_ok p;
  so_carries : ∀ slot t, transfers b !! slot = Some t → (slot, t_key t) ∈ carried b;
  so_carried : ∀ slot k, idle_slots b !! slot = Some k → (slot, k) ∈ carried b;
  so_one_key : ∀ slot k k', (slot, k) ∈ carried b → (slot, k') ∈ carried b → k = k'
}.
Record Good (L : list RequestId) (K : list ConnectionKey) (I : list RequestId) (b : Backend) : Prop := {
  go_counted : Counted K b; go_listed : Listed L I b; go_indexed : Indexed b; go_parked : Parked b; go_sound : Sound b
}.

Implicit Types (b : Backend) (L I : list RequestId) (K : list ConnectionKey).

Lemma counted_perm K K' b b' :
  Counted K b → connection_limits b' = connection_limits b → connection_count b' = connection_count b →
  connections_per_key b' = connections_per_key b → K' ++ reserved b' ≡ₚ K ++ reserved b → Counted K' b'.
Proof.
  intros [Hl Ht Hg He Ho Hp] El Ec Ek Hperm. unfold count_for in *. split; unfold count_for; rewrite ?El, ?Ec, ?Ek; try done.
  - apply Permutation_length in Hperm. rewrite !length_app in Hperm. unfold len in *. lia.
  - intros k. rewrite He. rewrite occ_perm in Hperm. specialize (Hperm k). rewrite !occ_app in Hperm. lia.
Qed.
Lemma listed_perm L I I' b b' : Listed L I b → I' ++ placed b' ++ ended b' ≡ₚ I ++ placed b ++ ended b → Listed L I' b'.
Proof. intros [Ha Ho] Hperm. split; [by rewrite Hperm|done]. Qed.

#[export] Instance Good_proper : Proper ((≡ₚ) ==> (≡ₚ) ==> (≡ₚ) ==> eq ==> iff) Good.
Proof.
  assert (Hi : ∀ L L' K K' I I' b, L ≡ₚ L' → K ≡ₚ K' → I ≡ₚ I' → Good L K I b → Good L' K' I' b).
  { intros L L' K K' I I' b HL HK HI [Hc [Ha Ho] Hx Hp Hs]. split; try done.
    - by apply (counted_perm _ K' _ b Hc); rewrite ?HK.
    - split; [by rewrite <-HI, <-HL|by rewrite <-HL]. }
  intros L L' HL K K' HK I I' HI b ? <-. split; intros HG; (eapply Hi; [..|exact HG]); done || by symmetry.
Qed.

(** A request of the owner is in one place. *)
Lemma placed_once L I b : Listed L I b → NoDup (I ++ placed b).
Proof. intros [Ha Ho]. rewrite <-Ha, app_assoc in Ho. by apply NoDup_app in Ho as []. Qed.

(** ** Elementary changes *)

(** Fields that are in no book. *)
Definition alike b b' : Prop :=
  ∃ r hw hp g n, b' = set_reactor r (set_handshake_waiting hw (set_handshake_peer_closed hp
                        (set_resolver_config_generation g (set_asked n b)))).
Lemma alike_good L K I b b' : alike b b' → Good L K I b → Good L K I b'.
Proof. intros (r & hw & hp & g & n & ->) [[] [] [] [] []]. by split; split. Qed.

Lemma reserve_good L K I b key :
  Good L K I b → can_reserve_connection b key = true →
  Good L (key :: K) I (set_connections (connection_count b + 1) (<[key := count_for b key + 1]> (connections_per_key b)) b).
Proof.
  intros [[Hl Ht Hg He Ho Hp] [] [] [] []] Hcan. unfold can_reserve_connection in Hcan.
  apply andb_true_iff in Hcan as [Hc1%Z.ltb_lt Hc2%Z.ltb_lt]. rewrite Hl in Hc1, Hc2.
  split; try (by split). unfold count_for in *. split; try done; unfold count_for.
  - cbn. rewrite Ht. change (reserved (set_connections _ _ _)) with (reserved b). len_lia.
  - cbn. lia.
  - intros k. cbn. specialize (He k). rewrite occ_cons. destruct (decide (key = k)) as [->|].
    + rewrite lookup_insert_eq. cbn. rewrite He. change (reserved (set_connections _ _ _)) with (reserved b). lia.
    + rewrite lookup_insert_ne by done. exact He.
  - intros k. cbn. destruct (decide (key = k)) as [->|]; [rewrite lookup_insert_eq; cbn; lia|rewrite lookup_insert_ne by done; apply Ho].
  - intros k n. cbn. destruct (decide (key = k)) as [->|].
    + rewrite lookup_insert_eq. intros [= <-]. destruct (connections_per_key b !! k) eqn:Hk; cbn; [apply Hp in Hk|]; lia.
    + rewrite lookup_insert_ne by done. apply Hp.
Qed.

Lemma release_good L K I b key :
  Good L (key :: K) I b →
  ∃ n, connections_per_key b !! key = Some n ∧ 0 < n ∧ 0 < connection_count b ∧
  Good L K I (set_connections (connection_count b - 1)
    (if n - 1 =? 0 then delete key (connections_per_key b) else <[key := n - 1]> (connections_per_key b)) b).
Proof.
  intros [[Hl Ht Hg He Ho Hp] [] [] [] []]. unfold count_for in *.
  pose proof (He key) as Hk. rewrite occ_cons, decide_True in Hk by done.
  pose proof (occ_nonneg key K). pose proof (occ_nonneg key (reserved b)).
  destruct (connections_per_key b !! key) as [n|] eqn:Hn; cbn in Hk; [|lia].
  exists n. split_and!; [done|lia|rewrite Ht; pose proof (len_nonneg (reserved b)); len_lia|].
  assert (Hlook : ∀ k, (if n - 1 =? 0 then delete key (connections_per_key b) else <[key := n - 1]> (connections_per_key b)) !! k
    = if decide (k = key) then (if n - 1 =? 0 then None else Some (n - 1)) else connections_per_key b !! k).
  { intros k. destruct (decide (k = key)) as [->|]; zcase; simplify_map_eq; done. }
  split; try (by split). split; try done; unfold count_for.
  - cbn. rewrite Ht. change (reserved (set_connections _ _ _)) with (reserved b). len_lia.
  - cbn. lia.
  - intros k. cbn. rewrite Hlook. specialize (He k). rewrite occ_cons in He.
    change (reserved (set_connections _ _ _)) with (reserved b). destruct (decide (k = key)) as [->|].
    + rewrite decide_True in He by done. rewrite Hn in He. cbn in He. zcase; cbn; lia.
    + rewrite decide_False in He by done. lia.
  - intros k. cbn. rewrite Hlook. specialize (Ho k). destruct (decide (k = key)) as [->|]; [|done].
    rewrite Hn in Ho. cbn in Ho. zcase; cbn; lia.
  - intros k m. cbn. rewrite Hlook. destruct (decide (k = key)) as [->|]; [|apply Hp].
    apply Hp in Hn. zcase; [done|]. intros [= <-]. lia.
Qed.

(** Requests that ended. *)
Lemma listed_good L K I I' b b' :
  Good L K I b → Counted K b' → Indexed b' → Parked b' → Sound b' →
  I' ++ placed b' ++ ended b' ≡ₚ I ++ placed b ++ ended b → Good L K I' b'.
Proof. intros [? Hl ? ? ?] ? ? ? ? Hperm. split; try done. exact (listed_perm _ _ _ _ _ Hl Hperm). Qed.

(** Only lists of requests change. *)
Ltac relist HG :=
  apply (listed_good _ _ _ _ _ _ HG);
  [by destruct HG as [[] ? ? ? ?]|by destruct HG as [? ? [] ? ?]|by destruct HG as [? ? ? [] ?]|by destruct HG as [? ? ? ? []]|].

Lemma completions_good L K I b l :
  Good L K (map fst l ++ I) b → Good L K I (set_completions (completions b ++ l) b).
Proof.
  intros HG. relist HG.
  unfold placed, ended. cbn. rewrite map_app. perm.
Qed.
Lemma stream_good L K I b id e : Good L K (id :: I) b → Good L K I (set_stream_log (stream_log b ++ [(id, e)]) b).
Proof.
  intros HG. relist HG.
  unfold placed, ended. cbn. rewrite map_app. cbn. perm.
Qed.
Lemma from_dns_good L K I b l :
  Good L K (map fst l ++ I) b → Good L K I (set_pending_http_from_dns (pending_http_from_dns b ++ l) b).
Proof.
  intros HG. relist HG.
  unfold placed, ended. cbn. rewrite map_app. perm.
Qed.
Lemma take_pending_good L K I b :
  Good L K I b → Good L K I (set_pending_http_from_dns [] (set_completions (completions b ++ pending_http_from_dns b) b)).
Proof.
  intros HG. relist HG.
  unfold placed, ended. cbn. rewrite map_app. perm.
Qed.
(** The completions of a call are handed out. *)
Lemma take_completions_good L K I b : Good L K I b → Good L K (map fst (completions b) ++ I) (set_completions [] b).
Proof.
  intros HG. relist HG.
  unfold placed, ended. cbn. perm.
Qed.

(** The waiting requests are [W] and those of [I]. *)
Lemma waiting_good L K I I' b W :
  Good L K I b → Forall pending_ok W → I' ++ map p_request_id W ≡ₚ I ++ map p_request_id (waiting b) →
  Good L K I' (set_waiting W b).
Proof.
  intros HG HW Hperm.
  relist HG.
  unfold placed, ended. cbn. perm.
Qed.

(** *** Transfers *)

Lemma put_transfer_good L K I b slot t t' :
  Good L K I b → transfers b !! slot = Some t → transfer_ok t' → t_request_id t' = t_request_id t → t_key t' = t_key t →
  Good L K I (set_transfers (<[slot := t']> (transfers b)) b).
Proof.
  intros [Hc Hl [Hx1 Hx2 Hx3] [] [? Ht Ha ? ? Hca ? ?]] Hs Hok Hid Hk.
  assert (Hlook : ∀ i x, <[slot := t']> (transfers b) !! i = Some x →
    ∃ y, transfers b !! i = Some y ∧ t_request_id x = t_request_id y ∧ t_key x = t_key y ∧ (transfer_ok y → transfer_ok x)).
  { intros i x. destruct (decide (i = slot)) as [->|]; [rewrite lookup_insert_eq; intros [= <-]; by exists t|].
    rewrite lookup_insert_ne by done. intros ?. by exists x. }
  split.
  - apply (counted_perm _ _ _ _ Hc); try done. unfold reserved. cbn. by rewrite (vals_update t_key _ _ _ _ Hs Hk).
  - apply (listed_perm _ _ _ _ _ Hl). unfold placed, ended. cbn. by rewrite (vals_update t_request_id _ _ _ _ Hs Hid).
  - split; try done. intros id i. rewrite Hx1. cbn. split.
    + intros (x & Hx & <-). destruct (decide (i = slot)) as [->|].
      * exists t'. rewrite lookup_insert_eq. split; [done|]. congruence.
      * exists x. by rewrite lookup_insert_ne.
    + intros (x & (y & Hy & Hi & _)%Hlook & <-). by exists y.
  - by split.
  - split; try done; cbn.
    + intros i x (y & Hy & _ & _ & Hxy)%Hlook. eauto.
    + intros i x (y & Hy & _)%Hlook. eauto.
    + intros i x (y & Hy & _ & -> & _)%Hlook. eauto.
Qed.

Lemma remove_transfer_good L K I b slot t :
  Good L K I b → transfers b !! slot = Some t →
  Good L (t_key t :: K) (t_request_id t :: I)
    (set_request_to_slot (delete (t_request_id t) (request_to_slot b)) (set_transfers (delete slot (transfers b)) b)).
Proof.
  intros [Hc Hl [Hx1 Hx2 Hx3] [] [? Ht Ha ? ? Hca ? ?]] Hs. split.
  - apply (counted_perm _ _ _ _ Hc); try done. unfold reserved. cbn. rewrite (vals_delete t_key _ _ _ Hs). perm.
  - apply (listed_perm _ _ _ _ _ Hl). unfold placed, ended. cbn. rewrite (vals_delete t_request_id _ _ _ Hs). perm.
  - split; try done. intros id i. cbn. rewrite !lookup_delete_Some. split.
    + intros [Hne (x & Hx & <-)%Hx1]. exists x. rewrite lookup_delete_Some. split; [|done]. split; [|done]. intros ->. congruence.
    + intros (x & [Hne Hx]%lookup_delete_Some & <-). split; [|by apply Hx1; eexists]. intros Heq.
      apply Hne. assert (request_to_slot b !! t_request_id x = Some i) as H1 by (apply Hx1; eauto).
      assert (request_to_slot b !! t_request_id t = Some slot) as H2 by (apply Hx1; eauto). congruence.
  - by split.
  - split; try done; cbn; intros i x [_ Hx]%lookup_delete_Some; eauto.
Qed.

(** A connection that may carry a request of the key. *)
Definition free_for b (slot : SlotId) (k : ConnectionKey) : Prop :=
  transfers b !! slot = None ∧ idle_slots b !! slot = None ∧ ∀ k', (slot, k') ∈ carried b → k' = k.

Lemma placed_transfer b slot t : transfers b !! slot = Some t → t_request_id t ∈ placed b.
Proof. intros Ht. unfold placed. rewrite !elem_of_app. right; left. apply vals_elem. eauto. Qed.
Lemma placed_resolve b key p : resolves b !! key = Some p → p_request_id p ∈ placed b.
Proof. intros Hp. unfold placed. rewrite !elem_of_app. right; right. apply vals_elem. eauto. Qed.
Lemma held_not_placed L I b id : Listed L (id :: I) b → id ∉ placed b.
Proof. intros Hn%placed_once. apply NoDup_cons in Hn as [Hn _]. rewrite elem_of_app in Hn. tauto. Qed.

Lemma place_transfer_good L K I b slot t :
  Good L (t_key t :: K) (t_request_id t :: I) b → transfer_ok t → free_for b slot (t_key t) →
  Good L K I (set_transfers (<[slot := t]> (transfers b))
    (set_request_to_slot (<[t_request_id t := slot]> (request_to_slot b)) (set_carried (carried b ++ [(slot, t_key t)]) b))).
Proof.
  intros [Hc Hl [Hx1 Hx2 Hx3] [] [? Ht Ha ? ? Hca Hci Hone]] Hok (Hs & Hi & Hk).
  assert (Hlook : ∀ i x, <[slot := t]> (transfers b) !! i = Some x → (i = slot ∧ x = t) ∨ (i ≠ slot ∧ transfers b !! i = Some x)).
  { intros i x. destruct (decide (i = slot)) as [->|]; [rewrite lookup_insert_eq; intros [= <-]; by left|].
    rewrite lookup_insert_ne by done. by right. }
  split.
  - apply (counted_perm _ _ _ _ Hc); try done. unfold reserved. cbn. rewrite (vals_insert t_key _ _ _ Hs). perm.
  - apply (listed_perm _ _ _ _ _ Hl). unfold placed, ended. cbn. rewrite (vals_insert t_request_id _ _ _ Hs). perm.
  - split; try done. intros id i. cbn. destruct (decide (id = t_request_id t)) as [->|Hne].
    + rewrite lookup_insert_eq. split.
      * intros [= <-]. exists t. by rewrite lookup_insert_eq.
      * intros (x & [[-> ->]|[_ Hx]]%Hlook & Hid); [done|]. destruct (held_not_placed _ _ _ _ Hl). rewrite <-Hid. by eapply placed_transfer.
    + rewrite lookup_insert_ne by done. rewrite Hx1. split.
      * intros (x & Hx & <-). exists x. rewrite lookup_insert_ne; [done|]. intros ->. congruence.
      * intros (x & [[-> ->]|[_ Hx]]%Hlook & <-); [done|]. eauto.
  - by split.
  - split; try done; cbn.
    + intros i x [[-> ->]|[_ Hx]]%Hlook; eauto.
    + intros i x [[-> ->]|[_ Hx]]%Hlook; eauto.
    + intros i x [[-> ->]|[_ Hx]]%Hlook; rewrite elem_of_app, list_elem_of_singleton; [by right|left; eauto].
    + intros i k Hk'. rewrite elem_of_app. left. eauto.
    + intros i k k'. rewrite !elem_of_app, !list_elem_of_singleton. naive_solver.
Qed.

(** *** Lookups *)

Lemma put_resolve_good L K I b p :
  Good L (p_key p :: K) (p_request_id p :: I) b → pending_ok p →
  Good L K I (set_resolves (<[next_resolve_key b := p]> (resolves b))
    (set_request_to_resolve (<[p_request_id p := next_resolve_key b]> (request_to_resolve b))
       (set_next_resolve_key (next_resolve_key b + 1) b))).
Proof.
  intros [Hc Hl [Hx1 Hx2 Hx3] [] [? Ht Ha ? Hr Hca Hci Hone]] Hok.
  assert (Hs : resolves b !! next_resolve_key b = None).
  { destruct (resolves b !! next_resolve_key b) eqn:He; [|done]. apply Hx3 in He. lia. }
  assert (Hlook : ∀ i x, <[next_resolve_key b := p]> (resolves b) !! i = Some x → (i = next_resolve_key b ∧ x = p) ∨ resolves b !! i = Some x).
  { intros i x. destruct (decide (i = next_resolve_key b)) as [->|]; [rewrite lookup_insert_eq; intros [= <-]; by left|].
    rewrite lookup_insert_ne by done. by right. }
  split.
  - apply (counted_perm _ _ _ _ Hc); try done. unfold reserved. cbn. rewrite (vals_insert p_key _ _ _ Hs). perm.
  - apply (listed_perm _ _ _ _ _ Hl). unfold placed, ended. cbn. rewrite (vals_insert p_request_id _ _ _ Hs). perm.
  - split; try done.
    + intros id i. cbn. destruct (decide (id = p_request_id p)) as [->|Hne].
      * rewrite lookup_insert_eq. split; [intros [= <-]; exists p; by rewrite lookup_insert_eq|].
        intros (x & [[-> ->]|Hx]%Hlook & Hid); [done|]. destruct (held_not_placed _ _ _ _ Hl). rewrite <-Hid. by eapply placed_resolve.
      * rewrite lookup_insert_ne by done. rewrite Hx2. split.
        { intros (x & Hx & <-). exists x. rewrite lookup_insert_ne; [done|]. intros Heq. apply Hx3 in Hx. unfold ResolveKey in *. lia. }
        intros (x & [[-> ->]|Hx]%Hlook & <-); [done|]. eauto.
    + intros i x [[-> ->]|Hx]%Hlook; cbn; [lia|apply Hx3 in Hx; lia].
  - by split.
  - split; try done; cbn. intros i x [[-> ->]|Hx]%Hlook; eauto.
Qed.

Lemma next_key_good L K I b n : Good L K I b → next_resolve_key b ≤ n → Good L K I (set_next_resolve_key n b).
Proof.
  intros [[] [] [? ? Hx] [] []] Hn. split; try (by split). split; try done. intros i x Hi. cbn. apply Hx in Hi. lia.
Qed.

Lemma remove_resolve_good L K I b key p :
  Good L K I b → resolves b !! key = Some p →
  Good L (p_key p :: K) (p_request_id p :: I)
    (set_request_to_resolve (delete (p_request_id p) (request_to_resolve b)) (set_resolves (delete key (resolves b)) b)).
Proof.
  intros [Hc Hl [Hx1 Hx2 Hx3] [] [? Ht Ha ? ? Hca ? ?]] Hs. split.
  - apply (counted_perm _ _ _ _ Hc); try done. unfold reserved. cbn. rewrite (vals_delete p_key _ _ _ Hs). perm.
  - apply (listed_perm _ _ _ _ _ Hl). unfold placed, ended. cbn. rewrite (vals_delete p_request_id _ _ _ Hs). perm.
  - split; try done.
    + intros id i. cbn. rewrite !lookup_delete_Some. split.
      * intros [Hne (x & Hx & <-)%Hx2]. exists x. rewrite lookup_delete_Some. split; [|done]. split; [|done]. intros ->. congruence.
      * intros (x & [Hne Hx]%lookup_delete_Some & <-). split; [|by apply Hx2; eexists]. intros Heq.
        apply Hne. assert (request_to_resolve b !! p_request_id x = Some i) as H1 by (apply Hx2; eauto).
        assert (request_to_resolve b !! p_request_id p = Some key) as H2 by (apply Hx2; eauto). congruence.
    + cbn. intros i x [_ Hx]%lookup_delete_Some. by eapply Hx3.
  - by split.
  - split; try done; cbn; intros i x [_ Hx]%lookup_delete_Some; eauto.
Qed.

(** *** Idle connections *)

Lemma parked_slot b slot k : Parked b → idle_slots b !! slot = Some k → ∃ l c, idle b !! k = Some l ∧ c ∈ l ∧ i_slot c = slot.
Proof. intros [Hs _ _ _ _] (l & Hl & (c & -> & Hc)%list_elem_of_fmap)%Hs. by exists l, c. Qed.

Lemma unpark_good L K I b k l c l' :
  Good L K I b → idle b !! k = Some l → l ≡ₚ c :: l' →
  Good L (k :: K) I (set_idle (if bool_decide (l' = []) then delete k (idle b) else <[k := l']> (idle b))
                       (delete (i_slot c) (idle_slots b)) (saturating_sub (idle_count b) 1) b)
  ∧ idle_slots b !! i_slot c = Some k ∧ 0 < idle_count b.
Proof.
  intros [Hc Hl [] [Hps Hpl Hpt Hpc Hpg] [? Ht Ha ? ? Hca Hci Hone]] Hk Hperm.
  assert (Hs : idle_slots b !! i_slot c = Some k).
  { apply Hps. exists l. split; [done|]. rewrite Hperm. apply list_elem_of_fmap. exists c. rewrite elem_of_cons. by split; [|left]. }
  assert (Hsz : (0 < size (idle_slots b))%nat).
  { apply Nat.neq_0_lt_0. apply (map_size_ne_0_lookup_2 _ (i_slot c)). by eexists. }
  destruct (Hpl _ _ Hk) as (_ & Hnd & Hlen). rewrite Hperm in Hnd. cbn in Hnd. apply NoDup_cons in Hnd as [Hnc Hnd].
  assert (Hlook : ∀ j x, (if bool_decide (l' = []) then delete k (idle b) else <[k := l']> (idle b)) !! j = Some x ↔
                         (j = k ∧ x = l' ∧ l' ≠ []) ∨ (j ≠ k ∧ idle b !! j = Some x)).
  { intros j x. case_bool_decide; [rewrite lookup_delete_Some|rewrite lookup_insert_Some]; naive_solver. }
  assert (Hsat : saturating_sub (idle_count b) 1 = idle_count b - 1) by (unfold saturating_sub; lia).
  split_and!; [|done|lia]. split.
  - apply (counted_perm _ _ _ _ Hc); try done. unfold reserved. cbn. rewrite (vals_delete id _ _ _ Hs). cbn. perm.
  - by destruct Hl; split.
  - by split.
  - split; cbn.
    + intros i j. rewrite lookup_delete_Some, Hps. split.
      * intros [Hne (x & Hx & Hi)]. destruct (decide (j = k)) as [->|Hjk]; [|exists x; rewrite Hlook; by split; [right|]].
        replace x with l in Hi by congruence. rewrite Hperm in Hi. cbn in Hi. apply elem_of_cons in Hi as [->|Hi]; [done|].
        exists l'. rewrite Hlook. split; [left|done]. split_and!; [done..|]. intros ->. by apply elem_of_nil in Hi.
      * intros (x & [(-> & -> & Hne)|[Hjk Hx]]%Hlook & Hi).
        { split; [by intros <-|]. exists l. split; [done|]. rewrite Hperm. cbn. by right. }
        split; [|by exists x]. intros <-.
        assert (idle_slots b !! i_slot c = Some j) as Hj by (apply Hps; by exists x). rewrite Hs in Hj. congruence.
    + intros j x [(-> & -> & Hne)|[Hjk Hx]]%Hlook; [|exact (Hpl j x Hx)]. split_and!; [done..|].
      apply Permutation_length in Hperm. unfold len in *. cbn in Hperm. lia.
    + intros j x c' [(-> & -> & Hne)|[Hjk Hx]]%Hlook Hc'; [|by eapply Hpt]. eapply Hpt; [exact Hk|]. rewrite Hperm. by right.
    + rewrite map_size_delete_Some by (by eexists). lia.
    + lia.
  - split; try done; cbn.
    + intros i t Hi. rewrite lookup_delete_None. right. by eapply Ha.
    + intros i j [_ Hi]%lookup_delete_Some. by eapply Hci.
Qed.

Lemma park_good L K I b slot k t e :
  Good L (k :: K) I b → transfers b !! slot = None → idle_slots b !! slot = None → (slot, k) ∈ carried b → encrypted_ok t k →
  idle_count b < idle_global cl → len (default [] (idle b !! k)) < idle_per_origin cl →
  Good L K I (set_idle (<[k := default [] (idle b !! k) ++ [mkIdle slot t e]]> (idle b)) (<[slot := k]> (idle_slots b)) (idle_count b + 1) b).
Proof.
  intros [Hc Hl [] [Hps Hpl Hpt Hpc Hpg] [? Ht Ha ? ? Hca Hci Hone]] Htr Hs Hcar Henc Hgl Hpo.
  assert (Hlook : ∀ j x, <[k := default [] (idle b !! k) ++ [mkIdle slot t e]]> (idle b) !! j = Some x ↔
                         (j = k ∧ x = default [] (idle b !! k) ++ [mkIdle slot t e]) ∨ (j ≠ k ∧ idle b !! j = Some x)).
  { intros j x. rewrite lookup_insert_Some. naive_solver. }
  assert (Hold : ∀ i, i ∈ map i_slot (default [] (idle b !! k)) ↔ idle_slots b !! i = Some k).
  { intros i. rewrite Hps. destruct (idle b !! k) as [l|] eqn:Hk; cbn; [|split; [by intros ?%elem_of_nil|by intros (? & ? & ?)]].
    split; [intros Hi; by exists l|]. by intros (x & [= <-] & Hi). }
  split.
  - apply (counted_perm _ _ _ _ Hc); try done. unfold reserved. cbn. rewrite (vals_insert id _ _ _ Hs). cbn. perm.
  - by destruct Hl; split.
  - by split.
  - split; cbn.
    + intros i j. rewrite lookup_insert_Some. split.
      * intros [[<- <-]|[Hne Hi]].
        { eexists. rewrite Hlook. split; [by left|]. rewrite map_app. apply elem_of_app. right. cbn. by rewrite list_elem_of_singleton. }
        destruct (decide (j = k)) as [->|Hjk].
        { eexists. rewrite Hlook. split; [by left|]. rewrite map_app. apply elem_of_app. left. by apply Hold. }
        apply Hps in Hi as (l & Hl' & Hi). exists l. rewrite Hlook. by split; [right|].
      * intros (x & [[-> ->]|[Hjk Hx]]%Hlook & Hi).
        { rewrite map_app in Hi. apply elem_of_app in Hi as [Hi|Hi]; [|apply list_elem_of_singleton in Hi as ->; by left].
          apply Hold in Hi. right. split; [|done]. intros <-. congruence. }
        assert (idle_slots b !! i = Some j) as Hi' by (apply Hps; by exists x). right. split; [|done]. intros <-. congruence.
    + intros j x [[-> ->]|[Hjk Hx]]%Hlook; [|exact (Hpl j x Hx)]. split_and!.
      * by destruct (default [] (idle b !! k)).
      * rewrite map_app. apply NoDup_app. split_and!.
        { destruct (idle b !! k) eqn:Hk; cbn; [by apply (Hpl k)|constructor]. }
        { intros i Hi%Hold ->%list_elem_of_singleton. cbn in Hi. congruence. }
        apply NoDup_singleton.
      * len_lia.
    + intros j x c [[-> ->]|[Hjk Hx]]%Hlook Hin; [|by eapply Hpt].
      apply elem_of_app in Hin as [Hin|Hin]; [|by apply list_elem_of_singleton in Hin as ->].
      destruct (idle b !! k) as [l|] eqn:Hk; cbn in Hin; [by eapply Hpt|by apply elem_of_nil in Hin].
    + rewrite map_size_insert_None by done. lia.
    + lia.
  - split; try done; cbn.
    + intros i x Hi. rewrite lookup_insert_None. split; [by eapply Ha|]. intros <-. congruence.
    + intros i j [[<- <-]|[Hne Hi]]%lookup_insert_Some; eauto.
Qed.

End books.
