(* ===== verification/NativeHttpStarts.v ===== *)
(** * The connection owner: from a request to its connection

    What keeps the books of [NativeHttpProofs.v]: the reactor's calls, the
    accounting, the idle connections, and the ways a request gets a connection,
    waits for one, or fails. *)

From stdpp Require Import base list strings gmap.
From Stdlib Require Import ZArith Lia.
From S2P Require Import Prelude Counting Errors BodyBudget DnsCache DnsConfig StdText Request RequestProofs Stream Http1 SerializeProofs Http1Decoder NativeUpload NativeReactor NativeReactorProofs NativeReactorRuns NativeHttp NativeHttpProofs.

Import Budget (bytes).
Import Request Http1.
Import Reactor (SlotId, NativeFailure, NativeReactor).
Import Owner.

(** ** The reactor *)

Section reactor.
Context {tgt : Target} {peers : HttpPeers}.

(** The reactor is between two polls, and the slots of [S] were given out. *)
Definition Rok (S : list SlotId) (r : NativeReactor) : Prop :=
  ∃ g, Inv true g None r ∧ polling g = false ∧ ∀ slot, slot ∈ S → slot ∈ issued g.
Definition calm {T} (m : Reactor.RM T) : Prop := ∀ S r, Rok S r → wp m (λ _, Rok S) (λ _, Rok S) r.

Lemma Rok_mono S S' r : (∀ slot, slot ∈ S' → slot ∈ S) → Rok S r → Rok S' r.
Proof. intros Hsub (g & HI & Hp & Hi). exists g. split_and!; eauto. Qed.

Lemma calm_call {T} (m : Reactor.RM T) c reply : call_ok c → (∀ r, Reactor.run_call c r = (x ← m; mret (reply x)) r) → calm m.
Proof.
  intros Hok Hrun S r (g & HI & Hp & Hi). pose proof (call_spec g c r HI Hp Hok) as [Hf (g' & HI' & Hfo)].
  rewrite Hrun in *. unfold wpx, mbind, M_bind in *.
  assert (HR : Rok S (m r).2).
  { exists g'. split_and!; [by destruct (m r) as [[] ?]|by rewrite (fo_polling _ _ _ Hfo)|].
    intros slot Hs. rewrite (fo_issued _ _ _ Hfo), elem_of_app. right. by apply Hi. }
  destruct (m r) as [[a|f| |] r']; exact HR || exact Hf.
Qed.
Lemma calm_still {T} (m : Reactor.RM T) : still m → calm m.
Proof.
  intros Hm S r (g & HI & Hp & Hi). eapply wp_mono; [exact (Hm r)|..]; intros ? r' Hs; exists g;
    (split_and!; [exact (same_inv _ _ _ _ _ Hs HI)|done|done]).
Qed.

Lemma calm_cancel slot : calm (Reactor.cancel slot).
Proof. by apply (calm_call _ (Reactor.Call_cancel slot) Reactor.Reply_bool). Qed.
Lemma calm_budget slot budget : calm (Reactor.set_body_budget slot budget).
Proof. by apply (calm_call _ (Reactor.Call_set_body_budget slot budget) (λ _, Reactor.Reply_unit)). Qed.
Lemma calm_write slot bytes : calm (Reactor.queue_write slot bytes).
Proof. by apply (calm_call _ (Reactor.Call_queue_write slot bytes) (λ _, Reactor.Reply_unit)). Qed.
Lemma calm_body slot arc first last : 0 ≤ first → calm (Reactor.queue_body slot arc first last).
Proof. intros. by apply (calm_call _ (Reactor.Call_queue_body slot arc first last) (λ _, Reactor.Reply_unit)). Qed.
Lemma calm_allowance slot a : match a with Some n => 0 ≤ n | None => True end → calm (Reactor.set_read_allowance slot a).
Proof. intros. by apply (calm_call _ (Reactor.Call_set_read_allowance slot a) (λ _, Reactor.Reply_unit)). Qed.
Lemma calm_deadline slot d : calm (Reactor.set_deadline slot d).
Proof. by apply (calm_call _ (Reactor.Call_set_deadline slot d) (λ _, Reactor.Reply_unit)). Qed.
Lemma calm_park slot d : calm (Reactor.park_idle slot d).
Proof. by apply (calm_call _ (Reactor.Call_park_idle slot d) (λ _, Reactor.Reply_unit)). Qed.
Lemma calm_reuse slot d o i : 0 ≤ o → 0 ≤ i → calm (Reactor.prepare_reuse slot d o i).
Proof. intros. by apply (calm_call _ (Reactor.Call_prepare_reuse slot d o i) (λ _, Reactor.Reply_unit)). Qed.
Lemma calm_quiet slot : calm (Reactor.idle_is_quiet slot).
Proof. by apply (calm_call _ (Reactor.Call_idle_is_quiet slot) Reactor.Reply_bool). Qed.
Lemma calm_poll : calm Reactor.poll.
Proof. by apply (calm_call _ Reactor.Call_poll Reactor.Reply_events). Qed.
Lemma calm_shutdown : calm Reactor.shutdown.
Proof. by apply (calm_call _ Reactor.Call_shutdown (λ _, Reactor.Reply_unit)). Qed.
Lemma calm_capacity slot : calm (Reactor.outbound_capacity slot).
Proof.
  apply calm_still. intros r. unfold keeps, Reactor.outbound_capacity, Reactor.outbound_is_empty.
  apply require_then; [|reflexivity].
  intros c _. apply wp_ret. reflexivity.
Qed.
Lemma calm_empty slot : calm (Reactor.outbound_is_empty slot).
Proof.
  apply calm_still. intros r. unfold keeps, Reactor.outbound_capacity, Reactor.outbound_is_empty.
  apply require_then; [|reflexivity].
  intros c _. apply wp_ret. reflexivity.
Qed.
Lemma connect_fresh address d o i S r :
  0 ≤ o → 0 ≤ i → Rok S r →
  wp (Reactor.connect address d o i) (λ slot r', Rok (slot :: S) r' ∧ slot ∉ S) (λ _, Rok S) r.
Proof.
  intros Ho Hi (g & HI & Hp & Hs). eapply wp_mono; [exact (connect_spec g r address d o i HI Ho Hi)|..].
  - intros slot r' (HI' & Hn & _). split; [|by intros ?%Hs]. exists (issue slot g). split_and!; [done..|].
    intros x [->|Hx]%elem_of_cons; cbn; rewrite elem_of_cons; [by left|right; by apply Hs].
  - intros f r' HI'. by exists g.
Qed.

End reactor.
#[export] Hint Resolve calm_cancel calm_budget calm_write calm_allowance calm_deadline calm_park calm_quiet calm_poll
  calm_shutdown calm_capacity calm_empty : calm.

(** ** The monad *)

Section safe.
Context {tgt : Target} {peers : HttpPeers} {cl : ConnectionLimits}.
Implicit Types (b : Backend) (L I : list RequestId) (K : list ConnectionKey).

(** The books are good, and the reactor knows every connection. *)
Definition Safe L K I b : Prop := Good cl L K I b ∧ Rok (map fst (carried b)) (reactor b).
(** After an error requests may be lost. *)
Definition Lost L K I b : Prop := ∃ gone, Safe L K (gone ++ I) b.

#[export] Instance Safe_proper : Proper ((≡ₚ) ==> (≡ₚ) ==> (≡ₚ) ==> eq ==> iff) Safe.
Proof. intros L L' HL K K' HK I I' HI b ? <-. unfold Safe. by rewrite HL, HK, HI. Qed.

Lemma safe_lost L K I b : Safe L K I b → Lost L K I b.
Proof. by exists []. Qed.
Lemma lost_more L K I I' b : Lost L K (I' ++ I) b → Lost L K I b.
Proof. intros [gone HS]. exists (gone ++ I'). by rewrite <-app_assoc. Qed.

(** A function that does not fail. *)
Definition runs {T} (m : BM T) (Q : T → Backend → Prop) (b : Backend) : Prop := wp m Q (λ _ _, False) b.

Lemma runs_then {T U} (m : BM T) (k : T → BM U) P Q R b :
  runs m P b → (∀ a b', P a b' → wp (k a) Q R b') → wp (m ≫= k) Q R b.
Proof. intros Hm Hk. apply wp_bind. by eapply wp_mono; [exact Hm|exact Hk|]. Qed.

(** The state may differ from [b] in the reactor and the number of questions. *)
Definition quiet b b' : Prop := ∃ r n, b' = set_asked n (set_reactor r b).
Lemma quiet_good L K I b b' : quiet b b' → Good cl L K I b → Good cl L K I b'.
Proof.
  intros (r & n & ->). apply alike_good.
  by exists r, (handshake_waiting b), (handshake_peer_closed b), (resolver_config_generation b), n.
Qed.

Lemma on_reactor_rok {T} (m : Reactor.RM T) S b :
  calm m → Rok S (reactor b) → runs (on_reactor m) (λ _ b', ∃ r, b' = set_reactor r b ∧ Rok S r) b.
Proof.
  intros Hm HR. specialize (Hm S _ HR). unfold runs, wpx, on_reactor in *. destruct (m (reactor b)) as [[a|f| |] r]; try done; by exists r.
Qed.
Lemma reactor_then {T U} (m : Reactor.RM T) (k : NativeFailure + T → BM U) L K I Q R b :
  calm m → Safe L K I b → (∀ a r, Safe L K I (set_reactor r b) → wp (k a) Q R (set_reactor r b)) → wp (on_reactor m ≫= k) Q R b.
Proof.
  intros Hm [HG HR] Hk. eapply runs_then; [by eapply on_reactor_rok|]. intros a ? (r & -> & Hr). apply Hk. split; [|done].
  apply (quiet_good _ _ _ b); [by exists r, (asked b); destruct b|done].
Qed.
Lemma asking_then {T U} (f : nat → T) (k : T → BM U) L K I Q R b :
  Safe L K I b → (∀ n m, Safe L K I (set_asked n b) → wp (k (f m)) Q R (set_asked n b)) → wp (ask f ≫= k) Q R b.
Proof.
  intros [HG HR] Hk. apply wp_bind. apply (Hk _ (asked b)). split; [|done].
  apply (quiet_good _ _ _ b); [by exists (reactor b), (S (asked b)); destruct b|done].
Qed.
Lemma fail_then {T U} (m : Reactor.RM T) (k : T → BM U) L K I Q (R : Error → Backend → Prop) b :
  calm m → Safe L K I b → (∀ e b', Safe L K I b' → R e b') →
  (∀ a r, Safe L K I (set_reactor r b) → wp (k a) Q R (set_reactor r b)) → wp (reactor_or_fail m ≫= k) Q R b.
Proof.
  intros Hm HS HR Hk. apply wp_bind. unfold reactor_or_fail. apply (reactor_then _ _ _ _ _ _ _ _ Hm HS).
  intros [f|a] r Hr; [apply wp_fail; by apply HR|apply wp_ret; by apply Hk].
Qed.
Lemma clock_then {U} (k : Z → BM U) L K I Q R b :
  Safe L K I b → (∀ t r, Safe L K I (set_reactor r b) → wp (k t) Q R (set_reactor r b)) → wp (instant_now ≫= k) Q R b.
Proof.
  intros HS Hk. assert (∃ t r, on_reactor Reactor.instant_now b = (Ok (inr t), set_reactor r b)) as (t & r & Hnow)
    by (eexists _, _; reflexivity).
  assert (Hr : runs (on_reactor Reactor.instant_now) (λ a b', Safe L K I b' ∧ a = inr t ∧ b' = set_reactor r b) b).
  { pose proof (reactor_then Reactor.instant_now mret L K I (λ _ b', Safe L K I b') (λ _ _, False) b
      (calm_still _ still_now) HS (λ a r' H', H')) as Hs.
    unfold runs, wpx, mbind, M_bind in *. rewrite Hnow in *. by cbn in Hs. }
  apply wp_bind. unfold instant_now, reactor_or_fail. eapply runs_then; [exact Hr|].
  intros ? ? (Hs & -> & ->). apply wp_ret. by apply Hk.
Qed.
Lemma capacity_then {U} slot (k : NativeFailure + Z → BM U) L K I Q R b :
  Safe L K I b → (∀ a r, match a with inr n => 0 ≤ n | inl _ => True end → Safe L K I (set_reactor r b) → wp (k a) Q R (set_reactor r b)) →
  wp (on_reactor (Reactor.outbound_capacity slot) ≫= k) Q R b.
Proof.
  intros HS Hk. pose proof (reactor_then (Reactor.outbound_capacity slot) mret L K I (λ _ b', Safe L K I b') (λ _ _, False) b
    (calm_capacity slot) HS (λ a r' H', H')) as Hs.
  assert (Hr : (on_reactor (Reactor.outbound_capacity slot) b).2 = set_reactor (reactor b) b ∧
               match (on_reactor (Reactor.outbound_capacity slot) b).1 with Ok (inr n) => 0 ≤ n | Ok _ => True | _ => False end).
  { unfold on_reactor, Reactor.outbound_capacity, Reactor.require, mbind, M_bind, get. cbn.
    destruct (Reactor.connection_mut (reactor b) slot); [|done]. split; [done|]. cbn. unfold Reactor.room, saturating_sub. lia. }
  unfold wpx, mbind, M_bind in *. destruct (on_reactor _ b) as [[a|e| |] b'']; destruct Hr as [Hb Ha]; cbn in *; try done.
  subst b''. apply Hk; [by destruct a|done].
Qed.
Lemma clock_read b (P : NativeFailure + Z → Backend → Prop) :
  runs (on_reactor Reactor.instant_now) P b → runs (on_reactor Reactor.instant_now) (λ a b', P a b' ∧ ∃ t, a = inr t) b.
Proof. unfold runs, wpx, on_reactor. cbn. intros HP. split; [exact HP|]. by eexists. Qed.
Lemma close_slot_spec slot L K I b : Safe L K I b → runs (reactor_cancel slot) (λ _ b', Safe L K I b' ∧ ∃ r, b' = set_reactor r b) b.
Proof.
  intros HS. unfold reactor_cancel. eapply reactor_then; [auto with calm|exact HS|]. intros _ r Hr. apply wp_ret. split; [done|]. by exists r.
Qed.
Lemma cancel_then {U} slot (k : unit → BM U) L K I Q R b :
  Safe L K I b → (∀ r, Safe L K I (set_reactor r b) → wp (k tt) Q R (set_reactor r b)) → wp (reactor_cancel slot ≫= k) Q R b.
Proof. intros HS Hk. eapply runs_then; [by eapply close_slot_spec|]. intros [] ? (Hs & r & ->). by apply Hk. Qed.

(** ** Accounting *)

Lemma safe_good L K I L' K' I' b b' :
  Safe L K I b → Good cl L' K' I' b' → reactor b' = reactor b → carried b' = carried b → Safe L' K' I' b'.
Proof. intros [_ HR] HG Er Ec. split; [done|]. by rewrite Er, Ec. Qed.

Lemma reserve_spec L K I b key :
  Safe L K I b →
  runs (reserve_connection key) (λ ok b', if ok then Safe L (key :: K) I b' else Safe L K I b') b.
Proof.
  intros HS. unfold reserve_connection. apply wp_bind, wp_get. destruct (can_reserve_connection b key) eqn:Hc; cbn [negb].
  - apply wp_bind, wp_put, wp_ret. apply (safe_good _ _ _ _ _ _ _ _ HS); try done. apply reserve_good; [apply HS|done].
  - by apply wp_ret.
Qed.

Lemma release_key_spec L K I b key :
  Safe L (key :: K) I b → runs (release_connection key) (λ _ b', Safe L K I b' ∧ ∃ n m, b' = set_connections n m b) b.
Proof.
  intros HS. unfold release_connection. apply wp_bind, wp_get.
  destruct (release_good _ _ _ _ _ _ (proj1 HS)) as (n & Hn & Hpos & Htot & HG). rewrite Hn.
  destruct (Z.eqb_spec (connection_count b) 0); [lia|]. destruct (Z.eqb_spec n 0); [lia|]. cbn [orb].
  apply wp_put. split; [by apply (safe_good _ _ _ _ _ _ _ _ HS)|]. by eexists _, _.
Qed.
Lemma release_then {U} key (k : unit → BM U) L K I Q R b :
  Safe L (key :: K) I b → (∀ n m, Safe L K I (set_connections n m b) → wp (k tt) Q R (set_connections n m b)) →
  wp (release_connection key ≫= k) Q R b.
Proof. intros HS Hk. eapply runs_then; [by eapply release_key_spec|]. intros [] ? (Hs & n & m & ->). by apply Hk. Qed.

Lemma pending_fail_spec L K I b p e :
  Safe L K (p_request_id p :: I) b →
  runs (pending_fail p e) (λ c b', Safe L K (map fst (maybe_complete (p_request_id p) c) ++ I) b'
                                   ∧ (p_response p ≠ Pending_Buffered → c = None)) b.
Proof.
  intros HS. unfold pending_fail. destruct (p_response p); [by apply wp_ret|].
  apply wp_bind, wp_modify, wp_ret. split; [|done]. apply (safe_good _ _ _ _ _ _ _ _ HS); try done. by apply stream_good, HS.
Qed.

(** ** Idle connections *)

Lemma take_idle_spec L K I b key :
  Safe L K I b →
  runs (take_idle key) (λ taken b',
    match taken with
    | None => Safe L K I b'
    | Some c => Safe L (key :: K) I b' ∧ free_for b' (i_slot c) key ∧ (i_slot c, key) ∈ carried b' ∧ encrypted_ok (i_tls c) key
    end) b.
Proof.
  intros HS. unfold take_idle. apply wp_bind, wp_get. destruct (idle b !! key) as [[|c rest]|] eqn:Hk; try by apply wp_ret.
  apply wp_bind, wp_put, wp_ret. destruct (unpark_good _ _ _ _ _ _ _ c rest (proj1 HS) Hk) as (HG & Hs & _); [done|].
  destruct HS as [[? ? ? Hp Hso] HR]. split_and!.
  - by split.
  - unfold free_for. cbn. rewrite lookup_delete_eq. split_and!; [|done|].
    + destruct (transfers b !! i_slot c) as [t|] eqn:Ht; [|done]. apply (so_apart _ Hso) in Ht. congruence.
    + intros k' Hk'. apply (so_one_key _ Hso _ _ _ Hk'). by apply (so_carried _ Hso).
  - by apply (so_carried _ Hso).
  - apply (pa_tls _ _ Hp _ _ c Hk). by left.
Qed.

Lemma remove_slot_some slot l l' : remove_slot slot l = Some l' → ∃ c, i_slot c = slot ∧ l ≡ₚ c :: l'.
Proof.
  revert l'. induction l as [|c l IH]; intros l'; [done|]. cbn. case_bool_decide as Hc.
  - intros [= <-]. by exists c.
  - destruct (remove_slot slot l) as [k|]; [|done]. intros [= <-]. destruct (IH k eq_refl) as (x & Hx & Hp).
    exists x. split; [done|]. rewrite Hp. apply Permutation_swap.
Qed.
Lemma remove_slot_none slot l : remove_slot slot l = None → slot ∉ map i_slot l.
Proof.
  induction l as [|c l IH]; [intros _; apply not_elem_of_nil|]. cbn. case_bool_decide as Hc; [done|].
  destruct (remove_slot slot l); [done|]. intros _. rewrite elem_of_cons. intros [->|Hin]; [done|by apply IH].
Qed.

(** An idle connection is closed: there is one less. *)
Lemma discard_spec L K I b slot :
  Safe L K I b →
  runs (discard_idle_slot slot) (λ _ b', Safe L K I b' ∧ (is_Some (idle_slots b !! slot) → idle_count b' = idle_count b - 1 ∧ 0 < idle_count b)) b.
Proof.
  intros HS. unfold discard_idle_slot. apply wp_bind, wp_get. destruct (idle_slots b !! slot) as [key|] eqn:Hs.
  - destruct (parked_slot _ _ _ _ (go_parked _ _ _ _ _ (proj1 HS)) Hs) as (l & x & Hl & Hx & Hi). rewrite Hl.
    destruct (remove_slot slot l) as [l'|] eqn:Hrem.
    + apply remove_slot_some in Hrem as (c & <- & Hperm).
      destruct (unpark_good _ _ _ _ _ _ _ c l' (proj1 HS) Hl Hperm) as (HG & _ & Hpos).
      apply wp_bind, wp_put. apply (cancel_then _ _ L (key :: K) I).
      { by apply (safe_good _ _ _ _ _ _ _ _ HS). }
      intros r Hr. eapply wp_mono; [exact (release_key_spec _ _ _ _ _ Hr)| |done].
      intros ? ? (Hr' & n & m & ->). split; [done|]. intros _. cbn. unfold saturating_sub. lia.
    + apply remove_slot_none in Hrem. destruct Hrem. rewrite <-Hi. by apply list_elem_of_fmap_2.
  - eapply wp_mono; [exact (close_slot_spec _ _ _ _ _ HS)| |done]. intros ? ? [Hs' _]. split; [done|]. by intros [? ?].
Qed.

Lemma discard_all_spec L K I : ∀ slots b, Safe L K I b → runs (discard_idle_slots slots) (λ _ b', Safe L K I b') b.
Proof.
  induction slots as [|slot slots IH]; intros b HS; cbn [discard_idle_slots]; [by apply wp_ret|].
  eapply runs_then; [by eapply discard_spec|]. intros ? b' [Hs _]. by apply IH.
Qed.
Lemma evict_all_spec L K I b : Safe L K I b → runs evict_all_idle (λ _ b', Safe L K I b') b.
Proof.
  intros HS. unfold evict_all_idle, in_hash_order. apply wp_bind, wp_get. eapply asking_then; [exact HS|].
  intros n ? Hs. by apply discard_all_spec.
Qed.
Lemma expire_idle_spec L K I b now : Safe L K I b → runs (expire_idle now) (λ _ b', Safe L K I b') b.
Proof.
  intros HS. unfold expire_idle, in_hash_order. apply wp_bind, wp_get. eapply asking_then; [exact HS|].
  intros n ? Hs. by apply discard_all_spec.
Qed.

(** [evict] closes one idle connection, or there is none it may close. *)
Definition evicts L K I (evict : BM bool) : Prop :=
  ∀ b, Safe L K I b → runs evict (λ done b', Safe L K I b' ∧ if (done : bool) then idle_count b' = idle_count b - 1 ∧ 0 < idle_count b else idle_count b' = idle_count b) b.

Lemma evict_key_spec L K I key : evicts L K I (evict_idle_for_key key).
Proof.
  intros b HS. unfold evict_idle_for_key. apply wp_bind, wp_get. destruct (idle b !! key) as [[|c l]|] eqn:Hk; simpl; try (by apply wp_ret).
  assert (Hs : is_Some (idle_slots b !! i_slot c)).
  { exists key. apply (pa_slots _ _ (go_parked _ _ _ _ _ (proj1 HS))). exists (c :: l). split; [done|]. by left. }
  eapply runs_then; [by eapply discard_spec|]. intros ? b' [Hs' Hc]. apply wp_ret. by split; [|apply Hc].
Qed.
Lemma evict_any_spec L K I : evicts L K I evict_any_idle.
Proof.
  intros b HS. unfold evict_any_idle, in_hash_order. apply wp_bind, wp_get.
  apply wp_bind. unfold wpx at 1, ask. set (values := hash_order _ _ _).
  assert (Hv : ∀ l, l ∈ values → ∃ k, idle b !! k = Some l).
  { intros l Hl. unfold values in Hl. rewrite hash_order_perm in Hl. apply list_elem_of_fmap in Hl as ([k x] & -> & Hx%elem_of_map_to_list). by exists k. }
  assert (HS' : Safe L K I (set_asked (S (asked b)) b)).
  { destruct HS as [HG HR]. split; [|done]. apply (quiet_good _ _ _ b); [exists (reactor b), (S (asked b)); by destruct b|done]. }
  destruct (head (omap head values)) as [c|] eqn:Hh; [|by apply wp_ret].
  assert (Hs : is_Some (idle_slots b !! i_slot c)).
  { apply head_Some_elem_of in Hh. apply list_elem_of_omap in Hh as ([|x l] & Hl & [= <-]). destruct (Hv _ Hl) as [k Hk].
    exists k. apply (pa_slots _ _ (go_parked _ _ _ _ _ (proj1 HS))). exists (x :: l). split; [done|]. by left. }
  eapply runs_then; [by eapply discard_spec|]. intros ? b' [Hs' Hc]. apply wp_ret. by split; [|apply Hc].
Qed.

Lemma evict_while_spec L K I full evict : evicts L K I evict → ∀ fuel b,
  Safe L K I b → (Z.to_nat (idle_count b) < fuel)%nat → runs (evict_while fuel full evict) (λ _ b', Safe L K I b' ∧ idle_count b' ≤ idle_count b) b.
Proof.
  intros Hev fuel. induction fuel as [|fuel IH]; intros b HS Hf; [lia|]. cbn [evict_while].
  apply wp_bind, wp_get. destruct (full b); [|by apply wp_ret].
  eapply runs_then; [by apply Hev|]. intros [|] b' [Hs Hc]; cbn beta iota in *.
  - eapply wp_mono; [apply IH; [exact Hs|lia]| |done]. intros ? b2 [? ?]. split; [done|lia].
  - apply wp_ret. split; [done|lia].
Qed.

Lemma make_capacity_spec L K I b key : Safe L K I b → runs (make_connection_capacity key) (λ _ b', Safe L K I b') b.
Proof.
  intros HS. unfold make_connection_capacity. apply wp_bind, wp_get.
  eapply runs_then; [apply (evict_while_spec _ _ _ _ _ (evict_key_spec L K I key)); [exact HS|lia]|].
  intros [|] b' [Hs Hc]; cbn beta iota; [|by apply wp_ret].
  eapply wp_mono; [apply (evict_while_spec _ _ _ _ _ (evict_any_spec L K I)); [exact Hs|lia]| |done]. by intros ? ? [? _].
Qed.
Lemma apply_eviction_spec L K I b :
  Safe L K I b → wp apply_idle_http_eviction (λ _ b', Safe L K I b') (λ _ b', Safe L K I b') b.
Proof.
  intros HS. unfold apply_idle_http_eviction. apply wp_bind, wp_get. destruct (resolver b); [|by apply wp_ret].
  eapply asking_then; [exact HS|]. intros n m Hs. destruct (resolver_take_idle_http_eviction m) as [e|[g|]]; [by apply wp_fail| |by apply wp_ret].
  apply wp_bind, wp_modify. eapply wp_mono; [apply (evict_all_spec L K I)| |done]; [|done].
  destruct Hs as [HG HR]. split; [|done]. revert HG. apply alike_good.
  eexists (reactor b), (handshake_waiting b), (handshake_peer_closed b), g, n. by destruct b.
Qed.

(** ** Activation and reuse *)

Lemma rok_slot L K I b slot k : Safe L K I b → (slot, k) ∈ carried b → Rok (slot :: map fst (carried b)) (reactor b).
Proof.
  intros [_ HR] Hin. eapply Rok_mono; [|exact HR]. intros x [->|Hx]%elem_of_cons; [|done].
  apply list_elem_of_fmap. by exists (slot, k).
Qed.

(** What [activate] needs of the connection. *)
Record may_carry (slot : SlotId) (p : PendingResolve) (connecting : option HttpConnecting) (t : option NativeTls) (offset : Z) b : Prop := {
  mc_pending : pending_ok p;
  mc_free : free_for b slot (p_key p);
  mc_tls : encrypted_ok t (p_key p);
  mc_offset : 0 ≤ offset ≤ len (bytes (body (p_request p)));
  mc_connecting : ∀ c, connecting = Some c → 0 ≤ c_outbound_limit c ∧ 0 ≤ c_receive_limit c;
  mc_rok : Rok (slot :: map fst (carried b)) (reactor b)
}.

Lemma activate_spec L K I b slot p connected connecting t offset :
  Good cl L (p_key p :: K) (p_request_id p :: I) b → may_carry slot p connecting t offset b →
  runs (activate slot p connected connecting t offset) (λ _ b', Safe L K I b') b.
Proof.
  intros HG [[Hp1 Hp2 Hp3] Hfree Henc Hoff Hcon HR]. unfold activate. apply wp_bind, wp_get.
  destruct (into_active p b) as [response upload] eqn:Hact. apply wp_put. split.
  - apply (place_transfer_good _ _ _ _ _ _ (new_transfer p response upload connected connecting t offset (resolver_config_generation b)) HG); [|exact Hfree].
    split; try done. cbn. intros d l o closed dirty redirect ->. unfold into_active in Hact.
    destruct (p_response p); injection Hact; [done|]. intros. subst. split; [lia|apply len_nonneg].
  - cbn. rewrite map_app. eapply Rok_mono; [|exact HR]. intros x. rewrite elem_of_app, elem_of_cons. cbn. rewrite list_elem_of_singleton. tauto.
Qed.

Lemma drop_reused_spec L K I b slot p :
  Safe L (p_key p :: K) I b → runs (drop_reused slot p) (λ left b', left = Some p ∧ Safe L K I b') b.
Proof.
  intros HS. unfold drop_reused. eapply cancel_then; [exact HS|]. intros r Hr. eapply release_then; [exact Hr|].
  intros n m Hs. by apply wp_ret.
Qed.

Lemma limits_nonneg L K I b p encrypted : Safe L K I b → 0 ≤ outbound_limit_for p encrypted ∧ 0 ≤ receive_limit_for b encrypted.
Proof.
  intros [[_ _ _ _ [[Hh Hb] _ _ _ _ _ _ _]] _]. pose proof usize_bounds. unfold u32_max in *.
  assert (0 ≤ reactor_receive_limit (limits b)).
  { unfold reactor_receive_limit, saturating_add, saturating_mul, MAX_INFORMATIONAL_RESPONSES. lia. }
  split.
  - unfold outbound_limit_for, encrypted_outbound_limit, TLS_FLIGHT_LIMIT, cleartext_outbound_limit, saturating_add.
    pose proof (len_nonneg (serialized (p_serialized p))). pose proof (len_nonneg (bytes (body (p_request p)))).
    destruct encrypted; [lia|]. destruct (pending_upload (p_response p)) as [u|]; cbn; [pose proof (upload_queue_capacity_nonneg u)|];
      unfold HTTP_BODY_SEND_WINDOW; lia.
  - unfold receive_limit_for, encrypted_receive_limit, saturating_add, TLS_FLIGHT_LIMIT. destruct encrypted; lia.
Qed.

(** The body bytes taken fit. *)
Definition taken_ok (p : PendingResolve) (offset : Z) : Prop := 0 ≤ offset ≤ len (bytes (body (p_request p))).

Lemma encrypt_reused_spec L K I b t p limit :
  Safe L K I b →
  runs (encrypt_reused t p limit) (λ e b', Safe L K I b' ∧ quiet b b' ∧ ∀ out offset t', e = Some (out, offset, t') → taken_ok p offset) b.
Proof.
  intros HS. unfold encrypt_reused. eapply asking_then; [exact HS|]. intros n m Hs.
  destruct (tls_begin_request m t _) as [[e|[]] t1].
  { apply wp_ret. split_and!; [done| |done]. exists (reactor b), n. by destruct b. }
  eapply asking_then; [exact Hs|]. intros n' m' Hs'. destruct (tls_pump_request_body m' t1 _ _) as [[e|[out consumed]] t2] eqn:Hpump; apply wp_ret.
  { split_and!; [done| |done]. exists (reactor b), n'. by destruct b. }
  split_and!; [done|exists (reactor b), n'; by destruct b|]. intros ? ? ? [= <- <- <-]. by apply (tls_pump_bounds _ _ _ _ _ _ _ Hpump).
Qed.
Lemma queue_first_spec L K I b slot p :
  Safe L K I b → runs (queue_first_body slot p) (λ o b', Safe L K I b' ∧ quiet b b' ∧ ∀ offset, o = Some offset → taken_ok p offset) b.
Proof.
  intros HS. unfold queue_first_body. eapply capacity_then; [exact HS|]. intros [f|capacity] r Hcap Hr.
  { apply wp_ret. split_and!; [done| |done]. exists r, (asked b). by destruct b. }
  pose proof (len_nonneg (bytes (body (p_request p)))). zcase.
  { apply wp_ret. split_and!; [done|exists r, (asked b); by destruct b|]. intros ? [= <-]. unfold taken_ok. lia. }
  eapply reactor_then; [by apply calm_body|exact Hr|]. intros [f|[]] r' Hr'; apply wp_ret.
  { split_and!; [done| |done]. exists r', (asked b). by destruct b. }
  split_and!; [done|exists r', (asked b); by destruct b|]. intros ? [= <-]. unfold taken_ok. lia.
Qed.

Lemma quiet_carry slot p connecting t offset b b' :
  quiet b b' → Rok (slot :: map fst (carried b')) (reactor b') → may_carry slot p connecting t offset b → may_carry slot p connecting t offset b'.
Proof. intros (r & n & ->) HR []. by split. Qed.

(** The last part of [try_begin_reused]: the session is ready. *)
Lemma reuse_queued_spec L K I b slot p t (encrypted : bool) outbound consumed :
  Safe L (p_key p :: K) (p_request_id p :: I) b → pending_ok p → free_for b slot (p_key p) → (slot, p_key p) ∈ carried b →
  encrypted_ok t (p_key p) → taken_ok p consumed →
  runs (queued ← on_reactor (Reactor.queue_write slot outbound);
        match queued with
        | inl _ => drop_reused slot p
        | inr _ =>
            offset ← (if encrypted then mret (Some consumed) else queue_first_body slot p);
            match offset with
            | None => drop_reused slot p
            | Some offset => _ ← activate slot p true None t offset; mret None
            end
        end)
    (λ left b', match left with None => Safe L K I b' | Some p' => p' = p ∧ Safe L K (p_request_id p :: I) b' end) b.
Proof.
  intros HS Hp Hfree Hcar Henc Htaken.
  assert (Hdrop : ∀ b', Safe L (p_key p :: K) (p_request_id p :: I) b' → runs (drop_reused slot p)
    (λ left b', match left with None => Safe L K I b' | Some p' => p' = p ∧ Safe L K (p_request_id p :: I) b' end) b').
  { intros b' HS'. eapply wp_mono; [exact (drop_reused_spec _ _ _ _ slot p HS')| |done]. by intros ? ? [-> ?]. }
  eapply reactor_then; [auto with calm|exact HS|]. intros [f|[]] r Hr; [by apply Hdrop|].
  eapply (runs_then _ _ (λ o b', Safe L (p_key p :: K) (p_request_id p :: I) b' ∧ quiet (set_reactor r b) b' ∧ ∀ offset, o = Some offset → taken_ok p offset)).
  { destruct encrypted; [|by apply queue_first_spec]. apply wp_ret. split_and!; [done|exists r, (asked b); by destruct b|]. by intros ? [= <-]. }
  intros [offset|] b' (Hs' & Hq & Ho); [|by apply Hdrop].
  eapply runs_then; [eapply (activate_spec L K I); [exact (proj1 Hs')|]|].
  - destruct Hq as (r' & n & ->). split; try done; [by apply Ho|]. exact (rok_slot _ _ _ _ _ (p_key p) Hs' Hcar).
  - intros ? b2 Hs2. by apply wp_ret.
Qed.

Lemma try_begin_reused_spec L K I b p :
  Safe L K (p_request_id p :: I) b → pending_ok p →
  runs (try_begin_reused p)
    (λ left b', match left with None => Safe L K I b' | Some p' => p' = p ∧ Safe L K (p_request_id p :: I) b' end) b.
Proof.
  intros HS Hp. unfold try_begin_reused. eapply runs_then; [by eapply take_idle_spec|].
  intros [c|] b0 H0; [|by apply wp_ret]. destruct H0 as (Hs & Hfree & Hcar & Henc).
  assert (Hdrop : ∀ b', Safe L (p_key p :: K) (p_request_id p :: I) b' → runs (drop_reused (i_slot c) p)
    (λ left b', match left with None => Safe L K I b' | Some p' => p' = p ∧ Safe L K (p_request_id p :: I) b' end) b').
  { intros b' HS'. eapply wp_mono; [exact (drop_reused_spec _ _ _ _ (i_slot c) p HS')| |done]. by intros ? ? [-> ?]. }
  eapply reactor_then; [auto with calm|exact Hs|]. intros [f|[|]] r1 Hr1; [by apply Hdrop| |by apply Hdrop].
  apply wp_bind, wp_get. destruct (limits_nonneg _ _ _ _ p (negb (Reactor.is_none (i_tls c))) Hr1) as [Ho Hi].
  eapply reactor_then; [by apply calm_reuse|exact Hr1|]. intros [f|[]] r2 Hr2; [by apply Hdrop|].
  eapply reactor_then; [auto with calm|exact Hr2|]. intros [f|[]] r3 Hr3; [by apply Hdrop|].
  eapply (runs_then _ _ (λ e b', Safe L (p_key p :: K) (p_request_id p :: I) b' ∧ quiet (set_reactor r3 b0) b' ∧
    ∀ out offset t, e = Some (out, offset, t) → taken_ok p offset ∧ encrypted_ok t (p_key p))).
  - destruct (i_tls c) as [t|] eqn:Ht.
    + eapply runs_then; [by eapply encrypt_reused_spec|]. intros e b' (Hs' & Hq & He). apply wp_ret. split_and!; [done|done|].
      intros out offset t' Hout. destruct e as [[[out0 offset0] t0]|]; [|done]. injection Hout as <- <- <-.
      split; [by eapply He|]. split; [intros _; apply Henc; by eexists|by eexists].
    + apply wp_ret. split_and!; [done|exists r3, (asked b0); by destruct b0|]. intros ? ? ? [= <- <- <-]. split; [|done].
      unfold taken_ok. pose proof (len_nonneg (bytes (body (p_request p)))). lia.
  - intros [[[outbound consumed] t]|] b' (Hs' & (r & n & ->) & He); [|by apply Hdrop].
    destruct (He _ _ _ eq_refl) as [Htk Hte]. by apply reuse_queued_spec.
Qed.

(** ** Opening a connection *)

(** The request is answered, or is on its way. *)
Definition answered L K I (p : PendingResolve) (c : option Completion) b : Prop :=
  Safe L K (map fst (maybe_complete (p_request_id p) c) ++ I) b ∧ (p_response p ≠ Pending_Buffered → c = None).

Lemma abandon_spec L K I b p e :
  Safe L (p_key p :: K) (p_request_id p :: I) b → runs (abandon_start p e) (answered L K I p) b.
Proof.
  intros HS. unfold abandon_start. eapply release_then; [exact HS|]. intros n m Hs. by apply pending_fail_spec.
Qed.

Lemma session_spec L K I b p :
  Safe L K I b → pending_ok p →
  runs (session_for p) (λ s b', Safe L K I b' ∧ ∀ t, s = inr t → encrypted_ok t (p_key p)) b.
Proof.
  intros HS Hp. unfold session_for. apply wp_bind, wp_get. unfold bytes_eqb. case_bool_decide as Hh.
  - destruct (tls b); [|by apply wp_ret]. eapply asking_then; [exact HS|]. intros n m Hs. apply wp_ret. split; [done|].
    intros t. destruct (tls_connection _ _ _ _); [done|]. intros [= <-]. unfold encrypted_ok. rewrite (pk_scheme _ Hp).
    split; [done|by eexists].
  - apply wp_ret. split; [done|]. intros t [= <-]. unfold encrypted_ok. rewrite (pk_scheme _ Hp). split; [by intros [? ?]|done].
Qed.

Lemma connect_then {U} address d o i (k : NativeFailure + SlotId → BM U) L K I Q R b :
  0 ≤ o → 0 ≤ i → Safe L K I b →
  (∀ slot r, Good cl L K I (set_reactor r b) → Rok (slot :: map fst (carried b)) r → slot ∉ map fst (carried b) →
     wp (k (inr slot)) Q R (set_reactor r b)) →
  (∀ f r, Safe L K I (set_reactor r b) → wp (k (inl f)) Q R (set_reactor r b)) →
  wp (on_reactor (Reactor.connect address d o i) ≫= k) Q R b.
Proof.
  intros Ho Hi HS Hok Herr. pose proof (connect_fresh address d o i _ _ Ho Hi (proj2 HS)) as Hc.
  assert (Hg : ∀ r, Good cl L K I (set_reactor r b)).
  { intros r. apply (quiet_good _ _ _ b); [exists r, (asked b); by destruct b|apply HS]. }
  unfold wpx, mbind, M_bind, on_reactor in *.
  destruct (Reactor.connect address d o i (reactor b)) as [[slot|f| |] r]; try done.
  - apply Hok; [done|apply Hc|apply Hc].
  - by apply Herr.
Qed.

Lemma connect_first_spec L K I p deadline o i : 0 ≤ o → 0 ≤ i → ∀ addresses b,
  Safe L (p_key p :: K) (p_request_id p :: I) b →
  runs (connect_first addresses p deadline o i) (λ opened b',
    match opened with
    | inl c => answered L K I p c b'
    | inr (slot, _) => Good cl L (p_key p :: K) (p_request_id p :: I) b' ∧
                       Rok (slot :: map fst (carried b')) (reactor b') ∧ slot ∉ map fst (carried b')
    end) b.
Proof.
  intros Ho Hi. induction addresses as [|address rest IH]; intros b HS; cbn [connect_first].
  - eapply clock_then; [exact HS|]. intros t r Hr. zcase.
    + eapply clock_then; [exact Hr|]. intros t' r' Hr'. eapply runs_then; [by apply (abandon_spec L K I)|]. intros c b' Hc. by apply wp_ret.
    + eapply runs_then; [by apply (abandon_spec L K I)|]. intros c b' Hc. by apply wp_ret.
  - eapply clock_then; [exact HS|]. intros t r Hr. zcase.
    + eapply clock_then; [exact Hr|]. intros t' r' Hr'. eapply runs_then; [by apply (abandon_spec L K I)|]. intros c b' Hc. by apply wp_ret.
    + apply (connect_then _ _ _ _ _ L (p_key p :: K) (p_request_id p :: I)); [done|done|exact Hr| |].
      * intros slot r' Hg Hrok Hn. by apply wp_ret.
      * intros f r' Hr'. zcase; [by apply IH|]. eapply runs_then; [by apply (abandon_spec L K I)|]. intros c b' Hc. by apply wp_ret.
Qed.

Lemma fresh_free L K I b slot k : Good cl L K I b → slot ∉ map fst (carried b) → free_for b slot k.
Proof.
  intros HG Hn. pose proof (go_sound _ _ _ _ _ HG) as Hso.
  assert (Hc : ∀ k', (slot, k') ∉ carried b).
  { intros k' Hin. apply Hn. apply list_elem_of_fmap. by exists (slot, k'). }
  split_and!.
  - destruct (transfers b !! slot) as [t|] eqn:Ht; [|done]. by apply (so_carries _ Hso) in Ht as ?%Hc.
  - destruct (idle_slots b !! slot) as [t|] eqn:Ht; [|done]. by apply (so_carried _ Hso) in Ht as ?%Hc.
  - by intros k' ?%Hc.
Qed.

Lemma set_deadline_pending d p : pending_ok p → pending_ok (set_p_inactivity_deadline d p).
Proof. by intros []. Qed.

Lemma begin_connection_spec L K I b addresses p :
  Safe L (p_key p :: K) (p_request_id p :: I) b → pending_ok p →
  runs (begin_connection addresses p) (answered L K I p) b.
Proof.
  intros HS Hp. unfold begin_connection. eapply runs_then; [by eapply session_spec|].
  intros [e|t] b1 [H1 Ht]; [by apply (abandon_spec L K I)|]. specialize (Ht _ eq_refl).
  apply wp_bind, wp_get. destruct (limits_nonneg _ _ _ _ p (negb (Reactor.is_none t)) H1) as [Ho Hi].
  eapply runs_then; [by apply (connect_first_spec L K I)|]. intros [c|[slot rest]] b2 H2; [by apply wp_ret|].
  destruct H2 as (HG2 & HR2 & Hn).
  assert (Hdone : ∀ r, Rok (slot :: map fst (carried b2)) r → Safe L (p_key p :: K) (p_request_id p :: I) (set_reactor r b2)).
  { intros r Hr. split; [apply (quiet_good _ _ _ b2); [exists r, (asked b2); by destruct b2|done]|].
    eapply Rok_mono; [|exact Hr]. intros x Hx. rewrite elem_of_cons. by right. }
  assert (Hfail : ∀ r f, Rok (slot :: map fst (carried b2)) r →
    runs (_ ← reactor_cancel slot; abandon_start p f) (answered L K I p) (set_reactor r b2)).
  { intros r f Hr. eapply cancel_then; [by apply Hdone|]. intros r' Hr'. by apply (abandon_spec L K I). }
  eapply runs_then; [eapply on_reactor_rok; [auto with calm|exact HR2]|]. intros [f|[]] ? (r1 & -> & Hr1); [by apply Hfail|].
  eapply (runs_then _ _ (λ _ b', ∃ r, b' = set_reactor r b2 ∧ Rok (slot :: map fst (carried b2)) r)).
  { destruct (negb (Reactor.is_none t)).
    - eapply wp_mono; [apply (on_reactor_rok (Reactor.set_read_allowance slot (Some INPUT_WINDOW)) (slot :: map fst (carried b2)))| |done]; [by apply calm_allowance|done|].
      intros ? ? (r & -> & Hr). by exists r.
    - apply wp_ret. by exists r1. }
  intros [f|[]] ? (r2 & -> & Hr2); [by apply Hfail|].
  eapply (runs_then _ _ (λ _ b', ∃ r, b' = set_reactor r b2 ∧ Rok (slot :: map fst (carried b2)) r)).
  { pose proof (on_reactor_rok Reactor.instant_now (slot :: map fst (carried b2)) (set_reactor r2 b2) (calm_still _ still_now) Hr2) as Hnow.
    unfold instant_now, reactor_or_fail. eapply runs_then; [exact (clock_read _ _ Hnow)|].
    intros ? ? ((r & -> & Hr) & n & ->). apply wp_ret. by exists r. }
  intros now ? (r3 & -> & Hr3). eapply runs_then; [apply (activate_spec L K I)|].
  - apply (quiet_good _ _ _ b2); [exists r3, (asked b2); by destruct b2|exact HG2].
  - split; [by apply set_deadline_pending| |done| | |done].
    + exact (fresh_free L _ _ b2 slot (p_key p) HG2 Hn).
    + cbn. pose proof (len_nonneg (bytes (body (p_request p)))). lia.
    + intros c [= <-]. done.
  - intros ? b3 H3. by apply wp_ret.
Qed.

Lemma start_reserved_spec L K I b p :
  Safe L (p_key p :: K) (p_request_id p :: I) b → pending_ok p → runs (start_reserved p) (answered L K I p) b.
Proof.
  intros HS Hp. unfold start_reserved. destruct (parse_ip (p_host p)); [by apply begin_connection_spec|].
  unfold allocate_resolve_key. apply wp_bind, wp_bind, wp_get. unfold checked_add. zcase; [|by apply wp_ret, (abandon_spec L K I)].
  apply wp_bind, wp_put, wp_ret. apply wp_bind, wp_get.
  assert (Hn : Safe L (p_key p :: K) (p_request_id p :: I) (set_next_resolve_key (next_resolve_key b + 1) b)).
  { apply (safe_good _ _ _ _ _ _ _ _ HS); try done. apply next_key_good; [apply HS|lia]. }
  zcase; [|by apply (abandon_spec L K I)]. eapply asking_then; [exact Hn|]. intros n m Hn'.
  destruct (resolver_resolve m (p_host p)); [by apply (abandon_spec L K I)|].
  apply wp_bind, wp_modify, wp_ret. split; [|done].
  destruct HS as [HG HR]. split; [|exact HR]. apply (put_resolve_good _ L K I (set_asked n b) p); [|done].
  apply (quiet_good _ _ _ b); [exists (reactor b), n; by destruct b|exact HG].
Qed.

Lemma start_pending_spec L K I b p :
  Safe L K (p_request_id p :: I) b → pending_ok p → runs (start_pending p) (answered L K I p) b.
Proof.
  intros HS Hp. unfold start_pending. unfold runs, wpx at 1. pose proof (apply_eviction_spec _ _ _ _ HS) as Hev. unfold wpx in Hev.
  destruct (apply_idle_http_eviction b) as [[[]|e| |] b1]; try done; [|by apply pending_fail_spec].
  change (runs (now ← instant_now; if passed (pending_next_deadline p) now then pending_fail p (timeout_error (pending_expired_timeout p now))
     else left ← try_begin_reused p;
          match left with
          | None => mret None
          | Some p => capacity ← make_connection_capacity (p_key p);
              reserved ← (if (capacity : bool) then reserve_connection (p_key p) else mret false);
              if (reserved : bool) then start_reserved p else _ ← modify (λ b, set_waiting (waiting b ++ [p]) b); mret None
          end) (answered L K I p) b1).
  eapply clock_then; [exact Hev|]. intros now r Hr. zcase; [by apply pending_fail_spec|].
  eapply runs_then; [by apply (try_begin_reused_spec L K I)|]. intros [p'|] b2 H2; [|by apply wp_ret].
  destruct H2 as [-> H2]. eapply runs_then; [by apply (make_capacity_spec L K (p_request_id p :: I))|]. intros capacity b3 H3.
  eapply (runs_then _ _ (λ ok b', if ok : bool then Safe L (p_key p :: K) (p_request_id p :: I) b' else Safe L K (p_request_id p :: I) b')).
  { destruct capacity; [by apply reserve_spec|by apply wp_ret]. }
  intros [|] b4 H4; [by apply start_reserved_spec|].
  apply wp_bind, wp_modify, wp_ret. split; [|done]. apply (safe_good _ _ _ _ _ _ _ _ H4); try done.
  apply (waiting_good _ _ _ _ _ _ _ (proj1 H4)).
  - apply Forall_app. split; [apply (so_waiting _ (go_sound _ _ _ _ _ (proj1 H4)))|]. by constructor.
  - cbn. rewrite map_app. cbn. perm.
Qed.

End safe.
