(* ===== verification/NativeHttpEnds.v ===== *)
(** * The connection owner: waiting requests, the end of a transfer, lookups

    What is left of [NativeHttp.v]: the queue of waiting requests and the turns
    its loop takes, the ways a transfer ends, and the resolver's results. *)

From stdpp Require Import base list strings gmap.
From Stdlib Require Import ZArith Lia.
From S2P Require Import Prelude Counting Errors BodyBudget DnsCache DnsConfig StdText Request RequestProofs Stream Http1 SerializeProofs Http1Decoder NativeUpload NativeReactor NativeReactorProofs NativeReactorRuns NativeHttp NativeHttpProofs NativeHttpStarts.

Import Budget (bytes).
Import Request Http1.
Import Reactor (SlotId, NativeFailure, NativeReactor).
Import Owner.

(** ** What is left alone *)

(** A part of the state that has nothing to do with connections. *)
Class Framed {tgt : Target} {peers : HttpPeers} {A} (f : Backend → A) :=
  framed b r hw hp rts tr rtr res nk i il ic gen cc cpk sl car n :
    f (mkBackend r hw hp (resolver b) (tls b) (limits b) rts tr rtr res (pending_http_from_dns b) nk i il ic gen cc cpk
         (waiting b) (connection_limits b) (completions b) sl car n) = f b.
#[export] Instance waiting_framed {tgt : Target} {peers : HttpPeers} : Framed waiting.
Proof. done. Qed.
#[export] Instance completions_framed {tgt : Target} {peers : HttpPeers} : Framed completions.
Proof. done. Qed.

Section queue.
Context {tgt : Target} {peers : HttpPeers} {A : Type} (f : Backend → A) {HF : Framed f} (w : A).

(** Whatever its result, [m] run from [b] leaves the part at [w]. *)
Definition still_waits {T} (m : BM T) (b : Backend) : Prop := f b = w → f (m b).2 = w.

Lemma waits_ret {T} (a : T) b : still_waits (mret a) b.
Proof. by intros Hw. Qed.
Lemma waits_fail {T} e b : still_waits (fail (A := T) e) b.
Proof. by intros Hw. Qed.
Lemma waits_panic {T} b : still_waits (panic (A := T)) b.
Proof. by intros Hw. Qed.
Lemma waits_diverge {T} b : still_waits (diverge (A := T)) b.
Proof. by intros Hw. Qed.
Lemma waits_reactor {T} (m : Reactor.RM T) b : still_waits (on_reactor m) b.
Proof. intros <-. unfold on_reactor. destruct (m (reactor b)) as [[] r]; eapply framed. Qed.
Lemma waits_ask {T} (g : nat → T) b : still_waits (ask g) b.
Proof. intros <-. eapply framed. Qed.
Lemma waits_put b' b : (f b = w → f b' = w) → still_waits (put b') b.
Proof. intros Hb Hw. by apply Hb. Qed.
Lemma waits_modify g b : (f b = w → f (g b) = w) → still_waits (modify g) b.
Proof. intros Hb Hw. by apply Hb. Qed.
Lemma waits_bind {T U} (m : BM T) (k : T → BM U) b : still_waits m b → (∀ a b', still_waits (k a) b') → still_waits (m ≫= k) b.
Proof.
  intros Hm Hk Hw. specialize (Hm Hw). unfold mbind, M_bind. destruct (m b) as [[a|e| |] b']; try done. by apply Hk.
Qed.
Lemma waits_get {T} (k : Backend → BM T) b : (f b = w → still_waits (k b) b) → still_waits (get ≫= k) b.
Proof. intros Hk Hw. by apply (Hk Hw). Qed.
End queue.

Create HintDb waits discriminated.
#[export] Hint Constants Opaque : waits.
#[export] Hint Transparent BM : waits.
#[export] Hint Resolve waits_ret waits_fail waits_panic waits_diverge : waits.
(** The queue is left alone: by the structure of the program. *)
Ltac waits_step :=
  cbn beta iota zeta;
  lazymatch goal with
  | |- still_waits _ _ (get ≫= _) _ => apply waits_get; intros ?
  | |- still_waits _ _ (put _) ?b => apply waits_put; let Hw := fresh in intros Hw; rewrite <-Hw; apply (framed b)
  | |- still_waits _ _ (modify _) ?b => apply waits_modify; let Hw := fresh in intros Hw; rewrite <-Hw; apply (framed b)
  | |- still_waits _ _ (on_reactor _) _ => apply waits_reactor; solve [assumption | apply _]
  | |- still_waits _ _ (ask _) _ => apply waits_ask; solve [assumption | apply _]
  | |- still_waits _ _ (_ ≫= _) _ => apply waits_bind; [|intros ? ?]
  | |- still_waits _ _ (match _ with _ => _ end) _ => case_match
  | |- still_waits _ _ _ _ => solve [auto 2 with waits]
  end.
Ltac waits := intros; repeat waits_step.

Section queue_lemmas.
Context {tgt : Target} {peers : HttpPeers} {A : Type} (f : Backend → A) {HF : Framed f} (w : A).
Implicit Types (b : Backend).

Lemma waits_cancel slot b : still_waits f w (reactor_cancel slot) b.
Proof. unfold reactor_cancel. waits. Qed.
Lemma waits_now b : still_waits f w instant_now b.
Proof. unfold instant_now, reactor_or_fail. waits. Qed.
Hint Resolve waits_cancel waits_now : waits.
Lemma waits_reserve key b : still_waits f w (reserve_connection key) b.
Proof. unfold reserve_connection. waits. Qed.
Lemma waits_release key b : still_waits f w (release_connection key) b.
Proof. unfold release_connection. waits. Qed.
Lemma waits_fail_pending p e b : still_waits f w (pending_fail p e) b.
Proof. unfold pending_fail, tell_stream. waits. Qed.
Hint Resolve waits_reserve waits_release waits_fail_pending : waits.
Lemma waits_take key b : still_waits f w (take_idle key) b.
Proof. unfold take_idle. waits. Qed.
Lemma waits_discard slot b : still_waits f w (discard_idle_slot slot) b.
Proof.
  unfold discard_idle_slot. apply waits_get. intros Hw. destruct (idle_slots b !! slot) as [key|]; [|waits].
  destruct (idle b !! key) as [l|]; [destruct (remove_slot slot l) as [l'|]|]; waits.
Qed.
Hint Resolve waits_take waits_discard : waits.
Lemma waits_evict_while fuel full evict b :
  (∀ b, still_waits f w evict b) → still_waits f w (evict_while fuel full evict) b.
Proof. intros Hev. revert b. induction fuel; intros b; cbn [evict_while]; waits. Qed.
Lemma waits_capacity key b : still_waits f w (make_connection_capacity key) b.
Proof.
  unfold make_connection_capacity. apply waits_get. intros Hw. apply waits_bind; [|intros [|] ?; [|waits]]; apply waits_evict_while; intros ?.
  - unfold evict_idle_for_key. waits.
  - unfold evict_any_idle, in_hash_order. waits.
Qed.
Lemma waits_drop slot p b : still_waits f w (drop_reused slot p) b.
Proof. unfold drop_reused. waits. Qed.
Lemma waits_activate slot p connected connecting t offset b : still_waits f w (activate slot p connected connecting t offset) b.
Proof. unfold activate. waits. Qed.
Hint Resolve waits_capacity waits_drop waits_activate : waits.
Lemma waits_encrypt t p limit b : still_waits f w (encrypt_reused t p limit) b.
Proof. unfold encrypt_reused. waits. Qed.
Lemma waits_first_body slot p b : still_waits f w (queue_first_body slot p) b.
Proof. unfold queue_first_body. waits. Qed.
Hint Resolve waits_encrypt waits_first_body : waits.
Lemma waits_reuse p b : still_waits f w (try_begin_reused p) b.
Proof. unfold try_begin_reused. waits. Qed.
Lemma waits_abandon p e b : still_waits f w (abandon_start p e) b.
Proof. unfold abandon_start. waits. Qed.
Hint Resolve waits_abandon : waits.
Lemma waits_connect addresses p deadline o i b : still_waits f w (connect_first addresses p deadline o i) b.
Proof. revert b. induction addresses; intros b; cbn [connect_first]; waits. Qed.
Lemma waits_session p b : still_waits f w (session_for p) b.
Proof. unfold session_for. waits. Qed.
Hint Resolve waits_connect waits_session : waits.
Lemma waits_begin addresses p b : still_waits f w (begin_connection addresses p) b.
Proof. unfold begin_connection. waits. Qed.
Lemma waits_key b : still_waits f w allocate_resolve_key b.
Proof. unfold allocate_resolve_key. waits. Qed.
Hint Resolve waits_begin waits_key : waits.
Lemma waits_start p b : still_waits f w (start_reserved p) b.
Proof. unfold start_reserved. waits. Qed.
Lemma waits_discard_all slots b : still_waits f w (discard_idle_slots slots) b.
Proof. revert b. induction slots; intros b; cbn [discard_idle_slots]; waits. Qed.
Hint Resolve waits_discard_all : waits.
Lemma waits_eviction b : still_waits f w apply_idle_http_eviction b.
Proof. unfold apply_idle_http_eviction, evict_all_idle, in_hash_order. waits. Qed.
End queue_lemmas.

Section ends.
Context {tgt : Target} {peers : HttpPeers} {cl : ConnectionLimits}.
Notation Safe := (Safe (cl := cl)).
Notation answered := (answered (cl := cl)).
Implicit Types (b : Backend) (L I : list RequestId) (K : list ConnectionKey).

Lemma runs_waits {T} (m : BM T) Q b :
  runs m Q b → still_waits waiting (waiting b) m b → runs m (λ a b', Q a b' ∧ waiting b' = waiting b) b.
Proof. unfold runs, wpx, still_waits. destruct (m b) as [[a|e| |] b']; cbn; try done. intros HQ Hw. split; [done|by apply Hw]. Qed.
Lemma safe_perm L K I I' b : Safe L K I b → I' ≡ₚ I → Safe L K I' b.
Proof. intros HS Hp. by rewrite Hp. Qed.
(** For the goal that only the order of the requests differs. *)
Ltac reorder := rewrite ?map_app; cbn; perm.

Lemma ask_spec {T} (f : nat → T) L K I b : Safe L K I b → runs (ask f) (λ _ b', Safe L K I b') b.
Proof.
  intros HS. pose proof (asking_then f mret L K I (λ _ b', Safe L K I b') (λ _ _, False) b HS (λ n m H', H')) as Ha. exact Ha.
Qed.

(** ** Pending requests *)

Lemma make_pending_spec id request d hops kind response l :
  sized request →
  owp (make_pending id request d hops kind response l)
    (λ p, pending_ok p ∧ p_request_id p = id ∧ p_response p = response) (λ _, True).
Proof.
  intros Hs. unfold make_pending. apply owp_bind. eapply owp_mono; [exact (serialize_owp _ _ _ Hs)| |done].
  intros s _. cbn beta. apply owp_bind.
  pose proof (http_origin_total kind (url request)) as Ho. destruct (http_origin kind (url request)) as [origin|e| |] eqn:Horigin; try done.
  apply owp_ok, owp_ok. split_and!; [|done|done]. split; cbn; [done| |done]. exists kind, origin.
  split_and!; try done. cbn. by destruct (tls_verification (options request)).
Qed.

Lemma sized_redirect rd r : sized r → sized (apply_redirect rd r).
Proof.
  unfold sized, apply_redirect, redirected, len. cbn. intros Hs.
  pose proof (filter_length_le (keeps_header (rd_keep_body rd) (rd_cross_origin rd)) (headers r)). lia.
Qed.

Lemma redirect_target_total request hs : owp (resolved_redirect_target request hs) (λ _, True) (λ _, True).
Proof.
  unfold resolved_redirect_target. apply owp_bind.
  assert (Hf : ∀ l acc, owp acc (λ _ : option (list Z), True) (λ _ : Error, True) →
    owp (foldl (λ acc h, found ← acc;
                match found with
                | Some _ => Err (error_new ErrorKind.Redirect "a redirect response contained more than one Location field")
                | None =>
                    let value := trim_ascii_whitespace (value h) in
                    if is_utf8 value then Ok (Some value)
                    else Err (error_new ErrorKind.Redirect "a redirect Location was not valid UTF-8")
                end) acc l) (λ _, True) (λ _, True)).
  { induction l as [|h l IH]; intros acc Hacc; cbn [foldl]; [done|]. apply IH. apply owp_bind.
    eapply owp_mono; [exact Hacc| |done]. intros [v|] _; cbn beta iota zeta; [done|]. by case_match. }
  eapply owp_mono; [by apply Hf| |done]. intros [v|] _; cbn beta iota; [|done]. case_match; [|done]. by case_match.
Qed.
Lemma plan_total r status hops target :
  owp target (λ _ : option (list Z), True) (λ _, True) → owp (plan_redirect r status hops target) (λ _, True) (λ _, True).
Proof.
  intros Ht. unfold plan_redirect. case_match; [|done]. case_match. do 2 (case_match; [done|]). apply owp_bind. eapply owp_mono; [exact Ht| |done].
  intros [u|] _; cbn beta iota; [|done]. apply owp_bind. eapply owp_mono; [exact (http_origin_total _ _)| |done]. intros so _. cbn beta.
  apply owp_bind. eapply owp_mono; [exact (http_origin_total _ _)| |done]. intros to _. cbn beta. by case_match.
Qed.

(** ** Waiting requests *)

Lemma waiting_at L K I b index p :
  Safe L K I b → waiting b !! index = Some p →
  Safe L K (p_request_id p :: I) (set_waiting (delete index (waiting b)) b) ∧ pending_ok p.
Proof.
  intros HS Hp. pose proof (so_waiting _ (go_sound _ _ _ _ _ (proj1 HS))) as Hf. pose proof (delete_Permutation _ _ _ Hp) as Hperm.
  split; [|by apply (Forall_lookup_1 _ _ _ _ Hf Hp)].
  apply (safe_good _ _ _ _ _ _ _ _ HS); try done. apply (waiting_good _ _ _ _ _ _ _ (proj1 HS)); [by apply Forall_delete|].
  rewrite (Permutation_map p_request_id Hperm). cbn. perm.
Qed.

Lemma expire_loop_waiting L K now : ∀ fuel index I b,
  Safe L K I b → (length (waiting b) - index < fuel)%nat → runs (expire_loop fuel now index) (λ done b', Safe L K (map fst done ++ I) b') b.
Proof.
  induction fuel as [|fuel IH]; intros index I b HS Hf; [lia|]. cbn [expire_loop]. apply wp_bind, wp_get.
  destruct (waiting b !! index) as [p|] eqn:Hp; [|by apply wp_ret]. pose proof (lookup_lt_Some _ _ _ Hp). zcase.
  - destruct (waiting_at _ _ _ _ _ _ HS Hp) as [H1 _]. apply wp_bind, wp_put.
    eapply runs_then; [apply runs_waits; [exact (pending_fail_spec _ _ _ _ p _ H1)|by apply waits_fail_pending]|]. intros c b2 [[H2 _] Hw].
    eapply runs_then; [apply (IH index (map fst (maybe_complete (p_request_id p) c) ++ I)); [exact H2|]|].
    + rewrite Hw. cbn. rewrite length_delete by (by eexists). lia.
    + intros done b3 H3. apply wp_ret. eapply safe_perm; [exact H3|reorder].
  - apply IH; [done|lia].
Qed.
Lemma expire_waiting_spec L K I b : Safe L K I b → runs expire_waiting (λ done b', Safe L K (map fst done ++ I) b') b.
Proof.
  intros HS. unfold expire_waiting. eapply clock_then; [exact HS|]. intros now r Hr. apply wp_bind, wp_get.
  apply expire_loop_waiting; [done|lia].
Qed.

Lemma put_back L K I b index p :
  Safe L K (p_request_id p :: I) b → pending_ok p →
  Safe L K I (set_waiting (take index (waiting b) ++ [p] ++ drop index (waiting b)) b).
Proof.
  intros HS Hp. pose proof (so_waiting _ (go_sound _ _ _ _ _ (proj1 HS))) as Hf.
  apply (safe_good _ _ _ _ _ _ _ _ HS); try done. apply (waiting_good _ _ _ _ _ _ _ (proj1 HS)).
  - rewrite !Forall_app. split_and!; [by apply Forall_take|by constructor|by apply Forall_drop].
  - rewrite <-(take_drop index (waiting b)) at 3. rewrite !map_app. cbn. perm.
Qed.

(** The turns left: to the end of the queue, and once over every shorter one. *)
Lemma dispatch_loop_spec L K : ∀ fuel index I b,
  let n := length (waiting b) in
  Safe L K I b → (index ≤ n)%nat → (n - index + n * n < fuel)%nat →
  runs (dispatch_loop fuel index) (λ done b', Safe L K (map fst done ++ I) b') b.
Proof.
  induction fuel as [|fuel IH]; intros index I b n HS Hi Hf; [lia|]. cbn [dispatch_loop].
  eapply (runs_then _ _ (λ removed b', b' = match removed with Some p => set_waiting (delete index (waiting b)) b | None => b end
    ∧ removed = waiting b !! index)).
  { unfold remove_waiting. apply wp_bind, wp_get. destruct (waiting b !! index); [apply wp_bind, wp_put|]; by apply wp_ret. }
  intros removed ? [-> Hp]. destruct removed as [p|]; [|by apply wp_ret]. symmetry in Hp.
  pose proof (lookup_lt_Some _ _ _ Hp) as Hlt. destruct (waiting_at _ _ _ _ _ _ HS Hp) as [H1 Hok].
  assert (Hlen : length (delete index (waiting b)) = (n - 1)%nat) by (rewrite length_delete by (by eexists); unfold n; lia).
  set (w := delete index (waiting b)) in *. set (b1 := set_waiting w b) in *.
  eapply runs_then; [apply runs_waits; [exact (try_begin_reused_spec L K I _ p H1 Hok)|by apply waits_reuse]|].
  intros [p'|] b2 [H2 Hw2]; cbn beta iota in H2.
  2: { apply IH; [done|lia|]. rewrite Hw2. cbn. rewrite Hlen. unfold n in *. nia. }
  destruct H2 as [-> H2]. eapply runs_then; [apply runs_waits; [exact (make_capacity_spec _ _ _ _ _ H2)|by apply waits_capacity]|].
  intros capacity b3 [H3 Hw3].
  eapply (runs_then _ _ (λ ok b', (if ok : bool then Safe L (p_key p :: K) (p_request_id p :: I) b' else Safe L K (p_request_id p :: I) b') ∧ waiting b' = w)).
  { destruct capacity; [|apply wp_ret; split; [done|by rewrite Hw3]].
    eapply wp_mono; [apply runs_waits; [exact (reserve_spec _ _ _ _ (p_key p) H3)|by apply waits_reserve]| |done]. intros ok b' [? ->]. by rewrite Hw3, Hw2. }
  intros [|] b4 [H4 Hw4].
  - eapply runs_then; [apply runs_waits; [exact (start_reserved_spec _ _ _ _ _ H4 Hok)|by apply waits_start]|]. intros c b5 [[H5 _] Hw5].
    eapply runs_then; [apply (IH 0%nat _ _ H5); [lia|]|].
    + rewrite Hw5, Hw4, Hlen. unfold n in *. nia.
    + intros done b6 H6. apply wp_ret. eapply safe_perm; [exact H6|reorder].
  - unfold insert_waiting. apply wp_bind, wp_modify.
    assert (Hl : length (take index (waiting b4) ++ [p] ++ drop index (waiting b4)) = n).
    { rewrite !length_app, length_take, length_drop, Hw4, Hlen. cbn. unfold n in *. lia. }
    apply IH; [by apply put_back|..]; cbn [waiting set_waiting]; rewrite Hl; unfold n in *; lia.
Qed.

Lemma dispatch_waiting_spec L K I b : Safe L K I b → runs dispatch_waiting (λ done b', Safe L K (map fst done ++ I) b') b.
Proof.
  intros HS. unfold dispatch_waiting. eapply runs_then; [by apply expire_waiting_spec|]. intros expired b1 H1. apply wp_bind, wp_get.
  eapply runs_then; [apply (dispatch_loop_spec _ _ _ _ _ _ H1); lia|]. intros done b2 H2. apply wp_ret.
  eapply safe_perm; [exact H2|reorder].
Qed.

(** ** The end of a transfer *)

(** Changes of the handshakes' fields are not in the books. *)
Lemma handshakes_safe L K I b hw hp :
  Safe L K I b → Safe L K I (set_handshake_peer_closed hp (set_handshake_waiting hw b)).
Proof.
  intros [HG HR]. split; [|done]. revert HG. apply alike_good.
  exists (reactor b), hw, hp, (resolver_config_generation b), (asked b). by destruct b.
Qed.
(** Handshake inputs only leave the queue. *)
Definition fewer b b' : Prop := (length (handshake_waiting b') ≤ length (handshake_waiting b))%nat.

Lemma finish_slot_spec L K I b slot c :
  Safe L K I b → runs (finish slot c) (λ _ b', Safe L K I b' ∧ transfers b' = delete slot (transfers b) ∧ fewer b b') b.
Proof.
  intros HS. unfold finish, cancel_handshake. apply wp_bind, wp_modify.
  eapply cancel_then; [by apply handshakes_safe|]. intros r Hr.
  set (b1 := set_reactor r _) in *.
  assert (Hfew : fewer b b1) by (unfold fewer; cbn; apply filter_length_le).
  assert (Htr : transfers b1 = transfers b) by done.
  unfold remove_transfer. apply wp_bind, wp_bind, wp_get. destruct (transfers b1 !! slot) as [t|] eqn:Ht.
  - apply wp_bind, wp_put, wp_ret.
    assert (H2 : Safe L (t_key t :: K) (t_request_id t :: I) (set_request_to_slot (delete (t_request_id t) (request_to_slot b1)) (set_transfers (delete slot (transfers b1)) b1))).
    { apply (safe_good _ _ _ _ _ _ _ _ Hr); try done. apply remove_transfer_good; [apply Hr|done]. }
    eapply release_then; [exact H2|]. intros n m H3. destruct (is_streaming (t_response t)).
    + apply wp_modify. split_and!; [|done|done]. apply (safe_good _ _ _ _ _ _ _ _ H3); try done. by apply stream_good, H3.
    + apply wp_modify. split_and!; [|done|done]. apply (safe_good _ _ _ _ _ _ _ _ H3); try done. apply completions_good, H3.
  - apply wp_ret, wp_ret. split_and!; [done| |done]. rewrite Htr in *. by rewrite delete_id.
Qed.

Lemma park_spec L K I b slot t keep :
  Safe L (t_key t :: K) I b → transfers b !! slot = None → idle_slots b !! slot = None → (slot, t_key t) ∈ carried b →
  encrypted_ok (t_tls t) (t_key t) →
  (keep = true → idle_count b < idle_global cl ∧ len (default [] (idle b !! t_key t)) < idle_per_origin cl) →
  runs (park_or_close slot t keep) (λ _ b', Safe L K I b') b.
Proof.
  intros HS Htr Hid Hcar Henc Hkeep. unfold park_or_close.
  assert (Hclose : ∀ b', Safe L (t_key t :: K) I b' → runs (_ ← reactor_cancel slot; release_connection (t_key t)) (λ _ b', Safe L K I b') b').
  { intros b' Hs. eapply cancel_then; [exact Hs|]. intros r Hr. eapply wp_mono; [exact (release_key_spec _ _ _ _ _ Hr)| |done]. by intros ? ? [? _]. }
  destruct keep; [|by apply Hclose]. destruct (Hkeep eq_refl) as [Hg Ho].
  apply wp_bind, wp_get. eapply clock_then; [exact HS|]. intros now r Hr.
  destruct (instant_checked_add now (idle_timeout (connection_limits b))) as [e|]; [|by apply Hclose].
  eapply reactor_then; [auto with calm|exact Hr|]. intros [f|[]] r' Hr'; [by apply Hclose|].
  apply wp_modify. apply (safe_good _ _ _ _ _ _ _ _ Hr'); try done. by apply (park_good _ _ _ _ _ _ _ _ _ (proj1 Hr')).
Qed.

(** What is known of a transfer that has just been removed. *)
Record removed b slot t : Prop := {
  rm_ok : transfer_ok t;
  rm_transfers : transfers b !! slot = None;
  rm_idle : idle_slots b !! slot = None;
  rm_carried : (slot, t_key t) ∈ carried b
}.

Lemma remove_spec_owner L K I b slot :
  Safe L K I b →
  runs (remove_transfer slot) (λ r b', match r with
    | None => Safe L K I b' ∧ transfers b !! slot = None
    | Some t => transfers b !! slot = Some t ∧ Safe L (t_key t :: K) (t_request_id t :: I) b' ∧ removed b' slot t end) b.
Proof.
  intros HS. unfold remove_transfer. apply wp_bind, wp_get. destruct (transfers b !! slot) as [t|] eqn:Ht; [|by apply wp_ret].
  apply wp_bind, wp_put, wp_ret. pose proof (go_sound _ _ _ _ _ (proj1 HS)) as Hso. split_and!; [done| |].
  - apply (safe_good _ _ _ _ _ _ _ _ HS); try done. apply remove_transfer_good; [apply HS|done].
  - split; cbn; [by apply (so_transfers _ Hso slot)|by rewrite lookup_delete_eq|by apply (so_apart _ Hso slot t)|by apply (so_carries _ Hso)].
Qed.

Lemma reusable_limits L K I b t permits closed :
  Safe L K I b → reusable b t permits closed = true →
  idle_count b < idle_global cl ∧ len (default [] (idle b !! t_key t)) < idle_per_origin cl.
Proof.
  intros [HG _]. pose proof (co_limits _ _ _ (go_counted _ _ _ _ _ HG)) as <-. unfold reusable. intros Hr.
  rewrite !andb_true_iff, !Z.ltb_lt in Hr. tauto.
Qed.

(** The request of a redirect is a new one under the same id. *)
Lemma redirect_spec L K I b (id : RequestId) request total hops response :
  Safe L K (id :: I) b → sized request →
  runs (start_redirect id request total hops response)
    (λ next b', Safe L K (id :: I) b' ∧
       owp next (λ p, pending_ok p ∧ p_request_id p = id ∧ p_response p = response) (λ _, True)) b.
Proof.
  intros HS Hs. unfold start_redirect. eapply clock_then; [exact HS|]. intros now r Hr. apply wp_bind, wp_get, wp_ret.
  split; [done|]. by apply make_pending_spec.
Qed.

Lemma push_all_spec L K I b l : Safe L K (map fst l ++ I) b → runs (push_completions l) (λ _ b', Safe L K I b') b.
Proof. intros HS. apply wp_modify. apply (safe_good _ _ _ _ _ _ _ _ HS); try done. apply completions_good, HS. Qed.
Lemma push_one_spec L K I b id c : Safe L K (id :: I) b → runs (push_completion id c) (λ _ b', Safe L K I b') b.
Proof. apply (push_all_spec L K I b [(id, c)]). Qed.
Lemma tell_spec L K I b id e : Safe L K (id :: I) b → runs (tell_stream id e) (λ _ b', Safe L K I b') b.
Proof. intros HS. apply wp_modify. apply (safe_good _ _ _ _ _ _ _ _ HS); try done. apply stream_good, HS. Qed.

Lemma complete_response_spec L K I b slot response permits closed :
  Safe L K I b → runs (complete_response slot response permits closed) (λ _ b', Safe L K I b') b.
Proof.
  intros HS. unfold complete_response. eapply runs_then; [by eapply remove_spec_owner|]. intros [t|] b1; cbn beta iota.
  2: { intros [H1 _]. eapply wp_mono; [exact (close_slot_spec _ _ _ _ _ H1)| |done]. by intros ? ? [? _]. }
  intros (_ & H1 & Hrm). apply wp_bind, wp_get.
  eapply runs_then; [apply (park_spec L K (t_request_id t :: I)); try apply Hrm; [done|exact (reusable_limits _ _ _ _ _ _ _ H1)]|].
  intros ? b2 H2.
  pose proof (plan_total (t_request t) (Buffered.resp_status response) (t_redirect_hops t) _
    (redirect_target_total (t_request t) (Buffered.resp_headers response))) as Hplan.
  destruct (plan_redirect _ _ _ _) as [[rd|]|e| |]; try done; [|by apply push_one_spec|by apply push_one_spec].
  eapply runs_then; [apply (redirect_spec L K I); [exact H2|apply sized_redirect, Hrm]|].
  intros next b3 [H3 Hn]. destruct next as [p|e| |]; try done; [|by apply push_one_spec]. destruct Hn as (Hp & Hid & _).
  rewrite <-Hid in *. eapply runs_then; [by eapply start_pending_spec|]. intros c b4 [H4 _]. by apply push_all_spec.
Qed.

(** ** Lookups *)

Lemma take_resolve L K I b key p :
  Safe L K I b → resolves b !! key = Some p →
  Safe L (p_key p :: K) (p_request_id p :: I)
    (set_request_to_resolve (delete (p_request_id p) (request_to_resolve b)) (set_resolves (delete key (resolves b)) b)) ∧ pending_ok p.
Proof.
  intros HS Hp. split; [|by apply (so_resolves _ (go_sound _ _ _ _ _ (proj1 HS)) key)].
  apply (safe_good _ _ _ _ _ _ _ _ HS); try done. apply remove_resolve_good; [apply HS|done].
Qed.

Lemma resolver_results_spec L K : ∀ results I b,
  Safe L K I b → runs (resolver_results results) (λ done b', Safe L K (map fst done ++ I) b') b.
Proof.
  induction results as [|[key answer] rest IH]; intros I b HS; cbn [resolver_results]; [by apply wp_ret|].
  apply wp_bind, wp_get. destruct (resolves b !! key) as [p|] eqn:Hp; [|by apply IH].
  destruct (take_resolve _ _ _ _ _ _ HS Hp) as [H1 Hok]. apply wp_bind, wp_put.
  eapply (runs_then _ _ (λ c b', answered L K I p c b')).
  { destruct answer; [by apply abandon_spec|by apply begin_connection_spec]. }
  intros c b2 [H2 _]. eapply runs_then; [by apply IH|]. intros done b3 H3. apply wp_ret. eapply safe_perm; [exact H3|reorder].
Qed.

Lemma drain_dns_spec L K I b : Safe L K I b → wp drain_dns (λ _ b', Safe L K I b') (λ _ b', Safe L K I b') b.
Proof.
  intros HS. unfold drain_dns, process_resolver_results. apply wp_bind, wp_bind.
  eapply wp_mono; [exact (apply_eviction_spec _ _ _ _ HS)| |done]. intros ? b1 H1. apply wp_bind, wp_get.
  assert (Hput : ∀ l b', Safe L K (map fst l ++ I) b' → Safe L K I (set_pending_http_from_dns (pending_http_from_dns b' ++ l) b')).
  { intros l b' Hs. apply (safe_good _ _ _ _ _ _ _ _ Hs); try done. apply from_dns_good, Hs. }
  destruct (resolver b1); [|apply wp_ret, wp_modify; by apply (Hput [])].
  eapply asking_then; [exact H1|]. intros n m H2. destruct (resolver_drain m) as [e|results]; [by apply wp_fail|].
  eapply wp_mono; [exact (resolver_results_spec L K results I _ H2)| |done]. intros l b3 H3. apply wp_modify. by apply Hput.
Qed.

Lemma expire_keys_spec L K now : ∀ keys I b,
  Safe L K I b → wp (expire_resolve_keys now keys) (λ done b', Safe L K (map fst done ++ I) b') (λ _, Lost (cl := cl) L K I) b.
Proof.
  induction keys as [|key rest IH]; intros I b HS; cbn [expire_resolve_keys]; [by apply wp_ret|].
  apply wp_bind, wp_get. destruct (resolves b !! key) as [p|] eqn:Hp; [|by apply IH].
  destruct (take_resolve _ _ _ _ _ _ HS Hp) as [H1 Hok]. apply wp_bind, wp_put.
  eapply release_then; [exact H1|]. intros n m H2. eapply (runs_then _ _ (λ _ b', Safe L K (p_request_id p :: I) b')).
  { case_match; [|by apply wp_ret]. by apply ask_spec. }
  intros [e|] b3 H3; [apply wp_fail; by exists [p_request_id p]|].
  eapply runs_then; [by eapply pending_fail_spec|]. intros c b4 [H4 _]. apply wp_bind.
  eapply wp_mono; [exact (IH _ _ H4)| |intros ? ? Hl; exact (lost_more _ _ _ _ _ Hl)].
  intros done b5 H5. apply wp_ret. eapply safe_perm; [exact H5|reorder].
Qed.
Lemma expire_resolves_spec L K I b :
  Safe L K I b → wp expire_resolves (λ done b', Safe L K (map fst done ++ I) b') (λ _, Lost (cl := cl) L K I) b.
Proof.
  intros HS. unfold expire_resolves, in_hash_order. eapply clock_then; [exact HS|]. intros now r Hr. apply wp_bind, wp_get.
  eapply asking_then; [exact Hr|]. intros n m Hs. by apply expire_keys_spec.
Qed.

(** *** What starting a request leaves alone *)

Lemma start_completions p b : completions (start_pending p b).2 = completions b.
Proof.
  unfold start_pending. pose proof (waits_eviction completions (completions b) b eq_refl) as Hev.
  destruct (apply_idle_http_eviction b) as [[[]|e| |] b1]; cbn [snd] in Hev; try exact Hev.
  - rewrite <-Hev. set (m := now ← instant_now; _). assert (Hm : still_waits completions (completions b1) m b1); [|by apply Hm].
    unfold m. apply waits_bind; [apply waits_now, _|intros now b2]. case_match; [apply waits_fail_pending, _|].
    apply waits_bind; [apply waits_reuse, _|intros [p'|] b3]; [|apply waits_ret].
    apply waits_bind; [apply waits_capacity, _|intros capacity b4].
    apply waits_bind; [destruct capacity; [apply waits_reserve, _|apply waits_ret]|intros [|] b5]; [apply waits_start, _|].
    apply waits_bind; [|intros ? ?; apply waits_ret]. by apply waits_modify.
  - rewrite <-Hev. by apply (waits_fail_pending completions (completions b1) p e b1).
Qed.

End ends.
