(* ===== verification/NativeHttpEventProofs.v ===== *)
(** * The connection owner: exchanges keep the books

    Every function of [NativeHttpEvents.v] returns or fails with an error, and
    keeps the books of [NativeHttpProofs.v]; an error loses no connection. *)

From stdpp Require Import base list strings gmap.
From Stdlib Require Import ZArith Lia.
From S2P Require Import Prelude Counting Errors BodyBudget DnsCache DnsConfig StdText Request RequestProofs Stream Http1 SerializeProofs Http1Decoder NativeUpload NativeReactor NativeReactorProofs NativeReactorRuns NativeHttp NativeHttpEvents NativeHttpProofs NativeHttpStarts NativeHttpEnds.

Import Budget (bytes).
Import Request Http1.
Import Reactor (SlotId, NativeFailure, NativeReactor).
Import Owner Events.

(** ** The same transfer, further on *)

Section like.
Context {tgt : Target} {peers : HttpPeers}.

Definition like (t t' : HttpTransfer) : Prop :=
  t_request_id t' = t_request_id t ∧ t_key t' = t_key t ∧ t_request t' = t_request t ∧ (transfer_ok t → transfer_ok t').
#[export] Instance like_preorder : PreOrder like.
Proof.
  split; [by intros t|]. intros t1 t2 t3 (H1 & H2 & H3 & H4) (H5 & H6 & H7 & H8). split_and!; try congruence. tauto.
Qed.

Lemma like_started v t : like t (set_t_response_started v t).
Proof. split_and!; try done. by intros []. Qed.
Lemma like_inactivity c d p t : like t (set_t_inactivity c d p t).
Proof. split_and!; try done. by intros []. Qed.
Lemma like_drained v t : like t (set_t_request_write_drained v t).
Proof. split_and!; try done. by intros []. Qed.
Lemma like_upload u a t : like t (set_t_upload u a t).
Proof. split_and!; try done. by intros []. Qed.
Lemma like_connected t : like t (set_t_connecting None t).
Proof. split_and!; try done. by intros []. Qed.
Lemma like_connecting c rest t :
  t_connecting t = Some c → like t (set_t_connecting (Some (mkConnecting rest (cleartext_request c) (c_outbound_limit c) (c_receive_limit c))) t).
Proof.
  intros Hc. split_and!; try done. intros [? ? ? ? Hcon ?]. split; try done. intros c' [= <-]. cbn. by apply Hcon.
Qed.
Lemma like_tls s s' t : t_tls t = Some s → like t (set_t_tls (Some s') t).
Proof.
  intros Hs. split_and!; try done. intros [? ? Htls ? ? ?]. split; try done. unfold encrypted_ok in *. cbn. rewrite <-Htls, Hs.
  split; intros _; by eexists.
Qed.
Lemma like_offset n t :
  (transfer_ok t → 0 ≤ n ≤ len (bytes (body (t_request t)))) → like t (set_t_request_body_offset n t).
Proof. intros Hn. split_and!; try done. intros Hok. pose proof (Hn Hok). by destruct Hok. Qed.
Lemma like_response r t :
  (transfer_ok t → ∀ d l o closed dirty redirect, r = Tr_Streaming d l o closed dirty redirect → 0 ≤ o ≤ len l) →
  like t (set_t_response r t).
Proof. intros Hr. split_and!; try done. intros Hok. pose proof (Hr Hok). by destruct Hok. Qed.
Lemma like_buffered d t : like t (set_t_response (Tr_Buffered d) t).
Proof. by apply like_response. Qed.
Lemma like_decoder d redirect t : like t (set_t_response (set_redirect redirect (set_decoder d (t_response t))) t).
Proof.
  apply like_response. intros [? ? ? ? ? Hret] *. destruct (t_response t) eqn:Hr; cbn; [done|]. intros [= <- <- <- <- <- <-]. by eapply Hret.
Qed.
Lemma like_set_decoder d t : like t (set_t_response (set_decoder d (t_response t)) t).
Proof.
  apply like_response. intros [? ? ? ? ? Hret] *. destruct (t_response t) eqn:Hr; cbn; [done|]. intros [= <- <- <- <- <- <-]. by eapply Hret.
Qed.
Lemma like_closed v t : like t (set_stream_closed v t).
Proof.
  apply like_response. intros [? ? ? ? ? Hret] *. destruct (t_response t) eqn:Hr; cbn; [done|]. intros [= <- <- <- <- <- <-]. by eapply Hret.
Qed.
Lemma like_progress now c t : like t (transfer_note_progress now c t).
Proof. apply like_inactivity. Qed.
End like.
#[export] Hint Resolve like_started like_inactivity like_drained like_upload like_connected like_connecting like_tls like_buffered
  like_decoder like_set_decoder like_closed like_progress : like.

Section events.
Context {tgt : Target} {peers : HttpPeers} {cl : ConnectionLimits}.
Context (L : list RequestId) (K : list ConnectionKey) (I : list RequestId).
Notation safe := (Safe (cl := cl) L K I).
Notation lost := (λ _ : Error, Lost (cl := cl) L K I).
Implicit Types (b : Backend) (slot : SlotId) (t : HttpTransfer).

Lemma step_mono {T} (m : BM T) (Q Q' : T → Backend → Prop) b :
  wp m Q lost b → (∀ a b', Q a b' → Q' a b') → wp m Q' lost b.
Proof. intros Hm HQ. by eapply wp_mono; [exact Hm|exact HQ|]. Qed.
Lemma step_then {T U} (m : BM T) (k : T → BM U) P Q b :
  wp m P lost b → (∀ a b', P a b' → wp (k a) Q lost b') → wp (m ≫= k) Q lost b.
Proof. intros Hm Hk. apply wp_bind. by eapply step_mono. Qed.
Lemma runs_step {T} (m : BM T) (Q : T → Backend → Prop) b : runs m Q b → wp m Q lost b.
Proof. intros Hm. by eapply wp_mono; [exact Hm| |]. Qed.
Lemma or_fail_then {T U} (m : Reactor.RM T) (k : T → BM U) Q b :
  calm m → safe b → (∀ a r, safe (set_reactor r b) → wp (k a) Q lost (set_reactor r b)) → wp (reactor_or_fail m ≫= k) Q lost b.
Proof. intros Hm HS Hk. eapply fail_then; [exact Hm|exact HS| |exact Hk]. intros e b' Hs. by exists []. Qed.
Lemma or_fail_spec {T} (m : Reactor.RM T) b :
  calm m → safe b → wp (reactor_or_fail m) (λ _ b', safe b' ∧ ∃ r, b' = set_reactor r b) lost b.
Proof.
  intros Hm HS. unfold reactor_or_fail. eapply reactor_then; [exact Hm|exact HS|]. intros [f|a] r Hr.
  - apply wp_fail. by exists [].
  - apply wp_ret. split; [done|]. by exists r.
Qed.

Lemma reactor_spec {T} (m : Reactor.RM T) b : calm m → safe b → runs (on_reactor m) (λ _ b', safe b' ∧ ∃ r, b' = set_reactor r b) b.
Proof.
  intros Hm [HG HR]. eapply wp_mono; [exact (on_reactor_rok m _ b Hm HR)| |done]. intros ? ? (r & -> & Hr). split; [|by exists r].
  split; [|exact Hr]. apply (quiet_good _ _ _ b); [exists r, (asked b); by destruct b|done].
Qed.

Lemma put_then {U} slot t t' (k : unit → BM U) Q R b :
  safe b → transfers b !! slot = Some t → like t t' →
  (safe (set_transfers (<[slot := t']> (transfers b)) b) → <[slot := t']> (transfers b) !! slot = Some t' →
   wp (k tt) Q R (set_transfers (<[slot := t']> (transfers b)) b)) →
  wp (put_transfer slot t' ≫= k) Q R b.
Proof.
  intros HS Ht (Hid & Hk & _ & Hok) Hc. apply wp_bind, wp_modify. apply Hc; [|by apply lookup_insert_eq].
  apply (safe_good _ _ _ _ _ _ _ _ HS); try done. apply (put_transfer_good _ _ _ _ _ _ t); try done; [apply HS|].
  apply Hok. by apply (so_transfers _ (go_sound _ _ _ _ _ (proj1 HS)) slot).
Qed.
Lemma put_spec_owner slot t t' b :
  safe b → transfers b !! slot = Some t → like t t' →
  runs (put_transfer slot t') (λ _ b', safe b' ∧ b' = set_transfers (<[slot := t']> (transfers b)) b) b.
Proof.
  intros HS Ht Hl. pose proof (put_then slot t t' mret (λ _ b', safe b' ∧ b' = set_transfers (<[slot := t']> (transfers b)) b) (λ _ _, False) b HS Ht Hl) as Hp.
  apply Hp. intros Hs _. by apply wp_ret.
Qed.
Lemma transfer_found b slot t : safe b → transfers b !! slot = Some t → transfer_ok t.
Proof. intros HS Ht. by apply (so_transfers _ (go_sound _ _ _ _ _ (proj1 HS)) slot). Qed.

(** ** Failures of a connection *)

(** The function leaves the books good and ends the transfer. *)
Lemma finish_step slot c b : safe b → wp (finish slot c) (λ _ b', safe b' ∧ transfers b' !! slot = None ∧ fewer b b') lost b.
Proof.
  intros HS. apply runs_step. eapply wp_mono; [exact (finish_slot_spec _ _ _ _ slot c HS)| |done].
  intros ? b' (Hs & Ht & Hf). split_and!; [done|by rewrite Ht, lookup_delete_eq|done].
Qed.

Lemma move_good b slot next t :
  Good cl L K I b → transfers b !! slot = Some t → free_for b next (t_key t) → next ≠ slot →
  Good cl L K I (set_transfers (<[next := t]> (delete slot (transfers b)))
    (set_request_to_slot (<[t_request_id t := next]> (request_to_slot b)) (set_carried (carried b ++ [(next, t_key t)]) b))).
Proof.
  intros HG Ht (Hf1 & Hf2 & Hf3) Hne. pose proof (so_transfers _ (go_sound _ _ _ _ _ HG) _ _ Ht) as Hok.
  pose proof (remove_transfer_good _ _ _ _ _ _ _ HG Ht) as Hr.
  apply (place_transfer_good _ _ _ _ _ next t) in Hr; [|done|].
  - cbn in Hr. by rewrite insert_delete_eq in Hr.
  - split_and!; [|done|done]. cbn. by rewrite lookup_delete_ne.
Qed.

Lemma retry_loop_spec : ∀ fuel slot failure b,
  safe b → (∀ t, transfers b !! slot = Some t → ∃ c, t_connecting t = Some c ∧ (length (remaining c) < fuel)%nat) → (0 < fuel)%nat →
  wp (retry_loop fuel slot failure) (λ _ b', safe b') lost b.
Proof.
  induction fuel as [|fuel IH]; intros slot failure b HS Hcon Hpos; [lia|]. cbn [retry_loop].
  assert (Hend : ∀ c b', safe b' → wp (finish slot c) (λ _ b', safe b') lost b').
  { intros c b' Hs. eapply step_mono; [by apply finish_step|]. by intros ? ? [? _]. }
  unfold get_transfer. apply wp_bind, wp_bind, wp_get, wp_ret. destruct (transfers b !! slot) as [t|] eqn:Ht; [|by apply wp_ret].
  destruct (Hcon _ eq_refl) as (c & Hc & Hlen). eapply clock_then; [exact HS|]. intros now r Hr. zcase; [by apply Hend|].
  rewrite Hc. destruct (remaining c) as [|address rest] eqn:Hrem; [by apply Hend|].
  eapply put_then; [exact Hr|exact Ht|by apply like_connecting|]. intros H2 Ht2. cbn in Hlen.
  set (t' := set_t_connecting _ t) in *. set (b2 := set_transfers _ _) in *.
  destruct (tk_connecting _ (transfer_found _ _ _ Hr Ht) _ Hc) as [Ho Hi].
  apply (connect_then (cl := cl) _ _ _ _ _ L K I); [done|done|exact H2| |].
  - intros next r3 HG3 HR3 Hn3.
    assert (Hback : ∀ r f, Rok (next :: map fst (carried b2)) r → wp (_ ← reactor_cancel next; finish slot f) (λ _ b', safe b') lost (set_reactor r b2)).
    { intros r' f Hr'. eapply cancel_then; [|intros r4 Hr4; by apply Hend]. split.
      - apply (quiet_good _ _ _ b2); [exists r', (asked b2); by destruct b2|apply H2].
      - eapply Rok_mono; [|exact Hr']. intros x Hx. rewrite elem_of_cons. by right. }
    eapply runs_then; [eapply on_reactor_rok; [auto with calm|exact HR3]|]. intros [f|[]] ? (r4 & -> & Hr4); [by apply Hback|].
    eapply (runs_then _ _ (λ _ b', ∃ r, b' = set_reactor r b2 ∧ Rok (next :: map fst (carried b2)) r)).
    { case_match; [apply wp_ret; by exists r4|].
      eapply wp_mono; [apply (on_reactor_rok (Reactor.set_read_allowance next (Some INPUT_WINDOW)) (next :: map fst (carried b2)))| |done];
        [apply calm_allowance; unfold INPUT_WINDOW; lia|done|].
      intros ? ? (r' & -> & Hr'). by exists r'. }
    intros [f|[]] ? (r5 & -> & Hr5); [by apply Hback|]. apply wp_modify. split.
    + apply (move_good (set_reactor r5 b2)).
      * apply (quiet_good _ _ _ b2); [exists r5, (asked b2); by destruct b2|apply H2].
      * done.
      * exact (fresh_free _ _ _ b2 next (t_key t') (proj1 H2) Hn3).
      * intros ->. apply Hn3. apply list_elem_of_fmap. exists (slot, t_key t').
        split; [done|]. by apply (so_carries _ (go_sound _ _ _ _ _ (proj1 H2))).
    + cbn. rewrite map_app. eapply Rok_mono; [|exact Hr5]. intros x. rewrite elem_of_app, elem_of_cons. cbn. rewrite list_elem_of_singleton. tauto.
  - intros f r3 H3. destruct (is_connect f); [|by apply Hend]. apply IH; [done| |lia].
    intros x Hx. cbn in Hx. rewrite lookup_insert_eq in Hx. injection Hx as <-. eexists. split; [done|]. cbn. lia.
Qed.

Lemma fail_native_spec slot failure b : safe b → wp (fail_native slot failure) (λ _ b', safe b') lost b.
Proof.
  intros HS. unfold fail_native, get_transfer. apply wp_bind, wp_bind, wp_get, wp_ret. zcase.
  - apply andb_true_iff in Heqb0 as [_ Hcon]. unfold retry_http_connect. eapply cancel_then; [exact HS|]. intros r Hr.
    unfold get_transfer. apply wp_bind, wp_bind, wp_get, wp_ret. apply retry_loop_spec; [done| |lia].
    intros t Ht. cbn in Ht. change (transfers (set_reactor r b)) with (transfers b). rewrite Ht in Hcon |- *. cbn in Hcon |- *.
    destruct (t_connecting t) as [c|]; [|done]. exists c. split; [done|]. cbn. lia.
  - cbn zeta. eapply step_mono; [by apply finish_step|]. by intros ? ? [? _].
Qed.

(** ** Output *)

(** Whether the transfer of a slot is streamed. *)
Definition kind b slot : option bool := (λ t, is_streaming (t_response t)) <$> transfers b !! slot.
(** The transfer is over, or of the same kind. *)
Definition kept slot b b' : Prop := kind b' slot = None ∨ kind b' slot = kind b slot.
Lemma kind_at b slot t : transfers b !! slot = Some t → kind b slot = Some (is_streaming (t_response t)).
Proof. intros Ht. unfold kind. by rewrite Ht. Qed.
Lemma kept_same slot b b' : transfers b' !! slot = transfers b !! slot → kept slot b b'.
Proof. intros Ht. right. unfold kind. by rewrite Ht. Qed.
Lemma kept_over slot b b' : transfers b' !! slot = None → kept slot b b'.
Proof. intros Ht. left. unfold kind. by rewrite Ht. Qed.
Lemma kept_put slot b b' t t' :
  transfers b !! slot = Some t → is_streaming (t_response t') = is_streaming (t_response t) →
  transfers b' !! slot = Some t' → kept slot b b'.
Proof. intros Ht He Ht'. right. unfold kind. rewrite Ht, Ht'. cbn. by rewrite He. Qed.
Lemma kept_trans slot b1 b2 b3 : kept slot b1 b2 → kept slot b2 b3 → kept slot b1 b3.
Proof. unfold kept. intros [H1|H1] [H2|H2]; [by left|left; congruence|by left|right; congruence]. Qed.

(** The books are good after the step, and the transfer is over or of its kind. *)
Definition goes slot b b' : Prop := safe b' ∧ kept slot b b'.
Lemma goes_refl slot b : safe b → goes slot b b.
Proof. intros HS. split; [done|by apply kept_same]. Qed.
Lemma goes_trans slot b1 b2 b3 : kept slot b1 b2 → goes slot b2 b3 → goes slot b1 b3.
Proof. intros Hk [HS Hk']. split; [done|by eapply kept_trans]. Qed.
Lemma finish_goes slot c b b0 : safe b → wp (finish slot c) (λ _ b', goes slot b0 b') lost b.
Proof. intros HS. eapply step_mono; [by apply finish_step|]. intros ? ? (Hs & Ht & _). split; [done|by apply kept_over]. Qed.
Lemma finish_then {U} slot c (k : unit → BM U) b b0 Q :
  safe b → (∀ b', goes slot b0 b' → wp (k tt) Q lost b') → wp (finish slot c ≫= k) Q lost b.
Proof. intros HS Hk. eapply step_then; [by apply (finish_goes slot c b b0)|]. intros [] b' Hg. by apply Hk. Qed.

Lemma ask_goes {T} (f : nat → T) slot b b0 : goes slot b0 b → runs (ask f) (λ _ b', goes slot b0 b') b.
Proof.
  intros [HS Hk]. pose proof (ask_spec f _ _ _ _ HS) as Ha. split; [exact Ha|]. eapply kept_trans; [exact Hk|by apply kept_same].
Qed.
Lemma note_progress_spec slot connected arm b : safe b → wp (note_progress slot connected arm) (λ _ b', goes slot b b') lost b.
Proof.
  intros HS. unfold note_progress, get_transfer. apply wp_bind, wp_bind, wp_get, wp_ret.
  destruct (transfers b !! slot) as [t|] eqn:Ht; [|apply wp_ret; by apply goes_refl].
  eapply clock_then; [exact HS|]. intros now r Hr. eapply put_then; [exact Hr|exact Ht|by auto with like|]. intros H2 Ht2.
  assert (Hk : ∀ r', kept slot b (set_reactor r' (set_transfers (<[slot := transfer_note_progress now connected t]> (transfers b)) b))).
  { intros r'. by eapply kept_put; [exact Ht| |exact Ht2]. }
  destruct arm.
  - eapply step_mono; [apply or_fail_spec; [auto with calm|exact H2]|]. intros ? ? (Hs & r' & ->). split; [done|]. apply Hk.
  - apply wp_ret. split; [done|]. apply Hk.
Qed.

Lemma body_rest_spec t b (Q : list Z → Backend → Prop) :
  transfer_ok t → (∀ rest, len rest = len (bytes (body (t_request t))) - t_request_body_offset t → Q rest b) → runs (body_rest t) Q b.
Proof.
  intros [_ _ _ [Ho1 Ho2] _ _] HQ. unfold body_rest. apply wp_lift. apply owp_slice; [lia|lia|]. apply HQ.
  rewrite len_subrange; lia.
Qed.

Lemma pump_tls_spec slot b : safe b → wp (pump_tls_request slot) (λ _ b', goes slot b b') lost b.
Proof.
  intros HS. unfold pump_tls_request. eapply capacity_then; [exact HS|]. intros [f|capacity] r _ Hr.
  { eapply finish_then; [exact Hr|]. intros b' Hg. by apply wp_ret. }
  unfold get_transfer. apply wp_bind, wp_bind, wp_get, wp_ret.
  change (transfers (set_reactor r b)) with (transfers b). destruct (transfers b !! slot) as [t|] eqn:Ht; [|apply wp_ret; split; [done|by apply kept_same]].
  destruct (t_tls t) as [s|] eqn:Hs; [|apply wp_ret; split; [done|by apply kept_same]].
  pose proof (transfer_found _ _ _ HS Ht) as Hok. eapply runs_then; [apply body_rest_spec; [done|]|].
  { intros rest Hrest. instantiate (1 := λ rest b', b' = set_reactor r b ∧ len rest = len (bytes (body (t_request t))) - t_request_body_offset t). by cbn. }
  intros rest ? [-> Hrest]. eapply asking_then; [exact Hr|]. intros n m H2.
  destruct (tls_pump_request_body m s rest capacity) as [[e|[outbound consumed]] s'] eqn:Hpump.
  - eapply put_then; [exact H2|exact Ht|by eapply like_tls|]. intros H3 Ht3. eapply finish_then; [exact H3|]. intros b' Hg. by apply wp_ret.
  - pose proof (tls_pump_bounds _ _ _ _ _ _ _ Hpump). eapply put_then; [exact H2|exact Ht| |].
    { transitivity (set_t_tls (Some s') t); [by eapply like_tls|]. apply like_offset. intros [? ? ? ? ? ?]. cbn in *. lia. }
    intros H3 Ht3. set (b3 := set_transfers _ _) in *. assert (Hk : kept slot b b3) by (eapply kept_put; [exact Ht| |exact Ht3]; done).
    case_bool_decide; [apply wp_ret; by split|].
    eapply reactor_then; [auto with calm|exact H3|]. intros [f|[]] r4 H4.
    + eapply finish_then; [exact H4|]. intros b' Hg. by apply wp_ret.
    + apply wp_ret. split; [done|]. eapply kept_trans; [exact Hk|by apply kept_same].
Qed.

Lemma pump_cleartext_spec slot b : safe b → wp (pump_cleartext_body slot) (λ _ b', goes slot b b') lost b.
Proof.
  intros HS. unfold pump_cleartext_body, reactor_or_fail. apply wp_bind. eapply capacity_then; [exact HS|]. intros [f|capacity] r Hcap Hr.
  { apply wp_fail. by exists []. }
  apply wp_ret. unfold get_transfer. apply wp_bind, wp_bind, wp_get, wp_ret.
  change (transfers (set_reactor r b)) with (transfers b). destruct (transfers b !! slot) as [t|] eqn:Ht; [|apply wp_ret; split; [done|by apply kept_same]].
  pose proof (transfer_found _ _ _ HS Ht) as Hok. eapply runs_then; [apply body_rest_spec; [done|]|].
  { intros rest Hrest. instantiate (1 := λ rest b', b' = set_reactor r b ∧ len rest = len (bytes (body (t_request t))) - t_request_body_offset t). by cbn. }
  intros rest ? [-> Hrest]. pose proof (len_nonneg rest). pose proof (tk_offset _ Hok). cbn zeta.
  zcase; [apply wp_ret; split; [done|by apply kept_same]|].
  eapply reactor_then; [apply calm_body; lia|exact Hr|]. intros [f|[]] r2 H2.
  - eapply finish_then; [exact H2|]. intros b' Hg. by apply wp_ret.
  - eapply put_then; [exact H2|exact Ht|apply like_offset; intros _; lia|]. intros H3 Ht3. apply wp_ret. split; [done|].
    by eapply kept_put; [exact Ht| |exact Ht3].
Qed.

Lemma pump_upload_spec slot : ∀ wires queued b0 b,
  goes slot b0 b → wp (pump_upload slot wires queued) (λ _ b', goes slot b0 b') lost b.
Proof.
  assert (Hfin : ∀ c (q : bool) b0 b, safe b → wp (_ ← finish slot c; mret q) (λ _ b', goes slot b0 b') lost b).
  { intros c q b0 b HS. eapply finish_then; [exact HS|]. intros b' Hg. by apply wp_ret. }
  induction wires as [|wire rest IH]; intros queued b0 b Hgo; cbn [pump_upload]; unfold get_transfer; apply wp_bind, wp_bind, wp_get, wp_ret;
    (destruct (transfers b !! slot) as [t|] eqn:Ht; [|by apply wp_ret]); (destruct (t_upload t); [|by apply wp_ret]);
    (destruct (t_tls t) as [s|] eqn:Hs).
  - zcase; by apply wp_ret.
  - eapply reactor_then; [auto with calm|apply Hgo|]. intros [f|n] r Hr; [by apply Hfin|]. apply wp_ret.
    apply (goes_trans _ _ _ _ (proj2 Hgo)). split; [done|by apply kept_same].
  - zcase; [by apply wp_ret|]. destruct wire as [e|[|wire|]]; [by apply Hfin, Hgo|by apply wp_ret| |by apply wp_ret].
    eapply asking_then; [apply Hgo|]. intros n m H2. destruct (tls_begin_request m s wire) as [begun s'].
    eapply put_then; [exact H2|exact Ht|by eapply like_tls|]. intros H3 Ht3. destruct begun as [e|[]]; [by apply Hfin|].
    set (b3 := set_transfers _ _) in *. assert (Hk : kept slot b b3) by (eapply kept_put; [exact Ht| |exact Ht3]; done).
    eapply step_then; [by apply pump_tls_spec|]. intros more b4 Hg4. apply IH.
    apply (goes_trans _ _ _ _ (proj2 Hgo)), (goes_trans _ _ _ _ Hk), Hg4.
  - eapply reactor_then; [auto with calm|apply Hgo|]. intros [f|n] r Hr; [by apply Hfin|].
    assert (Hg2 : goes slot b0 (set_reactor r b)) by (apply (goes_trans _ _ _ _ (proj2 Hgo)); split; [done|by apply kept_same]).
    destruct wire as [e|[|wire|]]; [by apply Hfin|by apply wp_ret| |by apply wp_ret].
    eapply reactor_then; [auto with calm|exact Hr|]. intros [f|[]] r3 H3; [by apply Hfin|]. apply IH.
    apply (goes_trans _ _ _ _ (proj2 Hg2)). split; [done|by apply kept_same].
Qed.

Lemma pump_output_spec slot b : safe b → wp (pump_request_output slot) (λ _ b', goes slot b b') lost b.
Proof.
  intros HS. unfold pump_request_output, get_transfer. apply wp_bind, wp_bind, wp_get, wp_ret.
  destruct (transfers b !! slot) as [t|] eqn:Ht; [|apply wp_ret; by apply goes_refl].
  zcase; [|apply wp_ret; by apply goes_refl].
  eapply (step_then _ _ (λ _ b', goes slot b b')).
  { case_match; [by apply pump_cleartext_spec|by apply pump_tls_spec]. }
  intros queued b1 H1. eapply (step_then _ _ (λ _ b', goes slot b b')).
  { destruct (t_upload t); [|by apply wp_ret]. apply runs_step. apply ask_goes; exact H1. }
  intros wires b2 H2. by apply pump_upload_spec.
Qed.

Lemma output_complete_spec t b slot :
  safe b → runs (request_output_complete t) (λ _ b', safe b' ∧ transfers b' !! slot = transfers b !! slot) b.
Proof.
  intros HS. unfold request_output_complete. case_match; [by apply wp_ret|].
  eapply (runs_then _ _ (λ _ b', safe b' ∧ transfers b' !! slot = transfers b !! slot)).
  - destruct (t_upload t); [|by apply wp_ret]. pose proof (ask_spec (λ n, upload_is_complete n u) _ _ _ _ HS) as Ha. by split; [exact Ha|].
  - intros c b' Hb. by apply wp_ret.
Qed.
Lemma refresh_drained_spec slot b : safe b → wp (refresh_request_write_drained slot) (λ _ b', goes slot b b') lost b.
Proof.
  intros HS. unfold refresh_request_write_drained, get_transfer. apply wp_bind, wp_bind, wp_get, wp_ret.
  destruct (transfers b !! slot) as [t|] eqn:Ht; [|apply wp_ret; by apply goes_refl].
  eapply (runs_then _ _ (λ _ b', safe b' ∧ transfers b' !! slot = transfers b !! slot)).
  { case_match; [by apply output_complete_spec|by apply wp_ret]. }
  intros [|] b1 [H1 E1]; [|apply wp_ret; split; [done|by apply kept_same]].
  eapply or_fail_then; [auto with calm|exact H1|]. intros [|] r Hr.
  - eapply wp_mono; [apply (put_spec_owner slot t); [exact Hr|cbn; by rewrite E1|auto with like]| |done].
    intros ? ? [Hs ->]. split; [done|]. eapply kept_put; [exact Ht| |cbn; by apply lookup_insert_eq]. done.
  - apply wp_ret. split; [done|]. apply kept_same. by rewrite <-E1.
Qed.

Lemma handle_connected_spec slot arm b : safe b → wp (handle_connected slot arm) (λ _ b', safe b') lost b.
Proof.
  intros HS. unfold handle_connected, get_transfer. apply wp_bind, wp_bind, wp_get, wp_ret.
  eapply (runs_then _ _ (λ _ b', safe b')).
  { destruct (transfers b !! slot) as [t|] eqn:Ht; [|by apply wp_ret].
    eapply wp_mono; [apply (put_spec_owner slot t); [done|done|auto with like]| |done]. by intros ? ? [? _]. }
  intros ? b1 H1. cbn zeta. eapply (runs_then _ _ (λ _ b', safe b')).
  { destruct (if arm then _ else None) as [bytes|]; [|by apply wp_ret].
    eapply wp_mono; [exact (reactor_spec _ _ (calm_write slot bytes) H1)| |done]. by intros ? ? [? _]. }
  assert (Hend : ∀ c b', safe b' → wp (finish slot c) (λ _ b', safe b') lost b').
  { intros c b' Hs. eapply step_mono; [by apply finish_step|]. by intros ? ? [? _]. }
  assert (Hnote : ∀ c b', safe b' → wp (note_progress slot c arm) (λ _ b', safe b') lost b').
  { intros c b' Hs. eapply step_mono; [by apply note_progress_spec|]. by intros ? ? [? _]. }
  intros [f|[]] b2 H2; [by apply Hend|]. apply wp_bind, wp_bind, wp_get, wp_ret.
  destruct (transfers b2 !! slot) as [t|] eqn:Ht; [|by apply Hnote]. destruct (t_tls t) as [s|] eqn:Hs; [|by apply Hnote].
  eapply asking_then; [exact H2|]. intros n m H3. destruct (tls_start m s) as [started s'].
  eapply put_then; [exact H3|exact Ht|by eapply like_tls|]. intros H4 Ht4. destruct started as [e|outbound]; [by apply Hend|].
  eapply step_then; [by apply Hnote|]. intros ? b5 H5. zcase; [|by apply wp_ret].
  eapply reactor_then; [auto with calm|exact H5|]. intros [f|[]] r H6; [by apply Hend|by apply wp_ret].
Qed.

(** ** Streamed responses *)

(** What consuming plaintext does to the transfer. *)
Record consumes (n : Z) t t' : Prop := {
  cs_like : like t t';
  cs_kind : is_streaming (t_response t') = is_streaming (t_response t);
  cs_fits : 0 ≤ n ≤ len (stream_plaintext t);
  cs_rest : stream_plaintext t' = drop (Z.to_nat n) (stream_plaintext t)
}.
Lemma consume_plaintext_spec slot t n b :
  safe b → transfers b !! slot = Some t → 0 ≤ n →
  wp (consume_stream_plaintext slot t n) (λ t' b', safe b' ∧ transfers b' !! slot = Some t' ∧ consumes n t t') lost b.
Proof.
  intros HS Ht Hn. unfold consume_stream_plaintext. destruct (t_response t) as [|d retained offset closed dirty redirect] eqn:Hr; [apply wp_fail; by exists []|].
  destruct (t_tls t) as [s|] eqn:Hs.
  - destruct (tls_consume_retained_plaintext s n) as [answer s'] eqn:Hc. cbn beta iota zeta.
    eapply put_then; [exact HS|exact Ht|by eapply like_tls|]. intros H2 Ht2. destruct answer as [e|[]]; [apply wp_fail; by exists []|].
    apply wp_ret. destruct (tls_consume_spec _ _ _ Hc Hn) as [Hle Hdrop]. split_and!; [done|done|].
    split; [by eapply like_tls|done| |]; unfold stream_plaintext; cbn; rewrite Hr; [rewrite Hs; lia|by rewrite Hs].
  - pose proof (tk_retained _ (transfer_found _ _ _ HS Ht) _ _ _ _ _ _ Hr) as Hof. unfold saturating_sub.
    zcase; [apply wp_fail; by exists []|]. cbn zeta.
    set (t' := set_t_response _ t).
    assert (Hl : like t t').
    { apply like_response. intros _ *. zcase; intros [= <- <- <- <- <- <-]; [split; [lia|apply len_nonneg]|lia]. }
    eapply put_then; [exact HS|exact Ht|exact Hl|]. intros H2 Ht2. apply wp_ret. split_and!; [done|done|]. split; [done| | |].
    + unfold t'. cbn. rewrite Hr. by case_match.
    + unfold stream_plaintext. rewrite Hr, Hs. unfold len. rewrite length_drop. unfold len in *. lia.
    + unfold stream_plaintext, t'. cbn. rewrite Hr, Hs, drop_drop. zcase.
      * cbn. rewrite drop_nil, drop_ge; [done|]. unfold len in *. lia.
      * f_equal. lia.
Qed.

Lemma handshake_allowance_spec slot s b : safe b → wp (set_handshake_allowance slot s) (λ _ b', goes slot b b') lost b.
Proof.
  intros HS. unfold set_handshake_allowance. apply wp_bind, wp_get. eapply step_mono; [apply or_fail_spec; [|exact HS]|].
  - apply calm_allowance. case_match; [lia|unfold INPUT_WINDOW; lia].
  - intros ? ? (Hs & r & ->). split; [done|by apply kept_same].
Qed.
Lemma refresh_paused_spec slot t d a b :
  safe b → transfers b !! slot = Some t → 0 ≤ a → wp (refresh_paused slot t d a) (λ _ b', goes slot b b') lost b.
Proof.
  intros HS Ht Ha. unfold refresh_paused. eapply asking_then; [exact HS|]. intros n m H1. eapply clock_then; [exact H1|]. intros now r H2. cbn zeta.
  eapply (step_then _ _ (λ _ b', goes slot b b')).
  - assert (Hdo : ∀ t', like t t' → is_streaming (t_response t') = is_streaming (t_response t) →
      wp (_ ← put_transfer slot t'; reactor_or_fail (Reactor.set_deadline slot (next_deadline t'))) (λ _ b', goes slot b b') lost (set_reactor r (set_asked n b))).
    { intros t' Hl Hk. eapply put_then; [exact H2|exact Ht|exact Hl|]. intros H3 Ht3.
      eapply step_mono; [apply or_fail_spec; [auto with calm|exact H3]|]. intros ? ? (Hs & r' & ->). split; [done|].
      eapply kept_put; [exact Ht|exact Hk|exact Ht3]. }
    destruct (stream_consumer_blocked m d && _); [by apply Hdo; [auto with like|]|].
    destruct (negb _ && _); [by apply Hdo; [auto with like|]|]. apply wp_ret. split; [done|by apply kept_same].
  - intros ? b3 [H3 Hk3]. eapply step_mono; [apply or_fail_spec; [by apply calm_allowance|exact H3]|].
    intros ? ? (Hs & r' & ->). split; [done|]. eapply kept_trans; [exact Hk3|by apply kept_same].
Qed.
Lemma refresh_allowance_spec slot b : safe b → wp (refresh_stream_allowance slot) (λ _ b', goes slot b b') lost b.
Proof.
  intros HS. unfold refresh_stream_allowance, get_transfer. apply wp_bind, wp_bind, wp_get, wp_ret.
  destruct (transfers b !! slot) as [t|] eqn:Ht; [|apply wp_ret; by apply goes_refl].
  assert (Hk : ∀ d n a, safe (set_asked n b) → 0 ≤ a → wp (refresh_paused slot t d a) (λ _ b', goes slot b b') lost (set_asked n b)).
  { intros d n a Hs Ha. eapply step_mono; [by apply refresh_paused_spec|]. intros ? ? Hg. eapply goes_trans; [|exact Hg]. by apply kept_same. }
  destruct (t_tls t) as [s|].
  - zcase; [by apply handshake_allowance_spec|]. destruct (t_response t) as [|d ? ? ? ? ?]; [apply wp_ret; by apply goes_refl|].
    eapply asking_then; [exact HS|]. intros n m Hs. apply Hk; [done|]. apply tls_streaming_read_allowance_nonneg, stream_socket_capacity_nonneg.
  - destruct (t_response t) as [|d ? ? ? ? ?]; [apply wp_ret; by apply goes_refl|].
    eapply asking_then; [exact HS|]. intros n m Hs. apply Hk; [done|]. case_match; [apply stream_socket_capacity_nonneg|lia].
Qed.

(** ** The end of a streamed response *)

Lemma tell_stream_removed K' b slot t e :
  Safe (cl := cl) L K' (t_request_id t :: I) b → removed b slot t →
  runs (tell_stream (t_request_id t) e) (λ _ b', Safe (cl := cl) L K' I b' ∧ removed b' slot t) b.
Proof.
  intros HS [? ? ? ?]. pose proof (tell_spec _ _ _ _ _ e HS) as Ht. by split; [exact Ht|].
Qed.
Lemma complete_stream_spec slot permits closed b :
  safe b → kind b slot ≠ Some false → wp (complete_stream_response slot permits closed) (λ _ b', safe b') lost b.
Proof.
  intros HS Hk. apply runs_step. unfold complete_stream_response. eapply runs_then; [by eapply remove_spec_owner|].
  intros [t|] b1; cbn beta iota.
  2: { intros [H1 _]. eapply wp_mono; [exact (close_slot_spec _ _ _ _ _ H1)| |done]. by intros ? ? [? _]. }
  intros (Ht & H1 & Hrm). cbn zeta. destruct (t_response t) as [|d retained offset pc dirty redirect] eqn:Hr.
  { destruct Hk. unfold kind. rewrite Ht. cbn. by rewrite Hr. }
  eapply (runs_then _ _ (λ taken b', Safe (cl := cl) L (t_key t :: K) (if taken.2 : bool then I else t_request_id t :: I) b' ∧ removed b' slot t
                          ∧ (taken.2 = true → taken.1 = None))).
  { destruct redirect as [rd|]; [|by apply wp_ret]. eapply asking_then; [exact H1|]. intros n m H2.
    assert (Hrm2 : removed (set_asked n b1) slot t) by (by destruct Hrm; split).
    destruct (stream_take_response m d) as [[e|[]] d']; [|apply wp_ret; by split_and!].
    eapply runs_then; [by apply tell_stream_removed|]. intros ? b3 [H3 Hrm3]. by apply wp_ret. }
  intros [rd failed] b2 (H2 & Hrm2 & Hf). cbn in Hf. apply wp_bind, wp_get. cbn beta iota.
  eapply runs_then; [apply (park_spec (cl := cl) L K); try apply Hrm2; [exact H2|]|].
  { intros [_ Hre]%andb_true_iff. exact (reusable_limits _ _ _ _ _ _ _ H2 Hre). }
  intros ? b3 H3. destruct failed.
  { rewrite (Hf eq_refl). by apply wp_ret. }
  cbn in H3. destruct rd as [rd|]; [|by apply tell_spec].
  eapply runs_then; [apply (redirect_spec (cl := cl) L K I); [exact H3|apply sized_redirect, Hrm2]|].
  intros next b4 [H4 Hn]. destruct next as [p|e| |]; try done; [|by apply tell_spec]. destruct Hn as (Hp & Hid & Hresp).
  rewrite <-Hid in *. eapply runs_then; [by eapply start_pending_spec|]. intros c b5 [H5 Hc]. assert (c = None) as -> by (apply Hc; by rewrite Hresp).
  by apply wp_ret.
Qed.

(** ** Draining a stream *)

Lemma drain_head_spec slot t d head n b :
  safe b → transfers b !! slot = Some t → is_streaming (t_response t) = true → 0 < n →
  wp (drain_head slot t d head n) (λ more b', safe b' ∧
    (more = true → ∃ t', transfers b' !! slot = Some t' ∧ len (stream_plaintext t') < len (stream_plaintext t))) lost b.
Proof.
  intros HS Ht Hstream Hn. unfold drain_head.
  assert (Hfin : ∀ c b', safe b' → wp (_ ← finish slot c; mret false) (λ more b', safe b' ∧
    (more = true → ∃ t', transfers b' !! slot = Some t' ∧ len (stream_plaintext t') < len (stream_plaintext t))) lost b').
  { intros c b' Hs. apply (finish_then _ _ _ b' b'); [exact Hs|]. intros b2 [H2 _]. by apply wp_ret. }
  cbn zeta. set (planned := if Reactor.is_none (t_upload t) then _ else _).
  assert (Hp : owp planned (λ _, True) (λ _, True)).
  { unfold planned. case_match; [|done]. apply plan_total, redirect_target_total. }
  destruct planned as [redirect|e| |]; try done; [|by apply Hfin].
  eapply step_then; [apply consume_plaintext_spec; [exact HS|exact Ht|lia]|]. intros t1 b1 (H1 & Ht1 & [Hl1 Hk1 Hf1 Hr1]).
  eapply (runs_then _ _ (λ t2 b', safe b' ∧ transfers b' !! slot = Some t1 ∧ like t1 t2 ∧ t_response t2 = t_response t1 ∧ t_tls t2 = t_tls t1)).
  { destruct (t_upload t1) as [u|]; [|by apply wp_ret]. eapply asking_then; [exact H1|]. intros k m H2. apply wp_ret. by split_and!; [| |auto with like| |]. }
  intros t2 b2 (H2 & Ht2 & Hl2 & Hr2 & Htls2). eapply asking_then; [exact H2|]. intros k m H3.
  destruct (stream_decide_head m d _) as [decision d']. cbn beta iota.
  set (t3 := set_t_response _ t2).
  assert (Hl3 : like t1 t3) by (transitivity t2; [done|]; apply like_decoder).
  assert (Hs3 : is_streaming (t_response t3) = true).
  { unfold t3. cbn. rewrite Hr2. rewrite Hstream in Hk1. by destruct (t_response t1). }
  assert (Hp3 : stream_plaintext t3 = stream_plaintext t1).
  { unfold t3, stream_plaintext. cbn. rewrite Hr2, Htls2. by destruct (t_response t1). }
  eapply put_then; [exact H3|exact Ht2|exact Hl3|]. intros H4 Ht4.
  destruct decision as [e|decision]; [by apply Hfin|]. zcase.
  - eapply (step_then _ _ (λ _ b', safe b')).
    + case_match; [eapply step_mono; [by apply finish_step|]; by intros ? ? [? _]|].
      apply complete_stream_spec; [done|]. erewrite kind_at; [|exact Ht4]. by rewrite Hs3.
    + intros ? b5 H5. by apply wp_ret.
  - apply wp_ret. split; [done|]. intros _. exists t3. split; [done|]. rewrite Hp3, Hr1. unfold len in *. rewrite length_drop. lia.
Qed.

Lemma drain_loop_spec : ∀ fuel slot b,
  safe b → (∀ t, transfers b !! slot = Some t → (length (stream_plaintext t) < fuel)%nat) → (0 < fuel)%nat →
  wp (drain_loop fuel slot) (λ _ b', safe b') lost b.
Proof.
  induction fuel as [|fuel IH]; intros slot b HS Hf Hpos; [lia|]. cbn [drain_loop]. unfold get_transfer. apply wp_bind, wp_bind, wp_get, wp_ret.
  destruct (transfers b !! slot) as [t|] eqn:Ht; [|by apply wp_ret]. specialize (Hf _ eq_refl).
  assert (Hfin : ∀ c b', safe b' → wp (_ ← finish slot c; mret false) (λ _ b', safe b') lost b').
  { intros c b' Hs. apply (finish_then _ _ _ b' b'); [exact Hs|]. intros b2 [H2 _]. by apply wp_ret. }
  destruct (t_response t) as [|d retained offset pc dirty redirect] eqn:Hr; [apply wp_fail; by exists []|]. cbn zeta.
  case_bool_decide as Hp; [by apply wp_ret|]. eapply asking_then; [exact HS|]. intros k m H1.
  destruct (stream_ingest m d (stream_plaintext t)) as [progress d'] eqn:Hin. cbn beta iota.
  set (t1 := set_t_response_started true _).
  assert (Hl1 : like t t1) by (transitivity (set_t_response (set_decoder d' (t_response t)) t); [apply like_set_decoder|rewrite Hr; apply like_started]).
  assert (Hp1 : stream_plaintext t1 = stream_plaintext t) by (unfold t1, stream_plaintext; cbn; by rewrite Hr).
  assert (Hs1 : is_streaming (t_response t1) = true) by done.
  eapply put_then; [exact H1|exact Ht|exact Hl1|]. intros H2 Ht2. set (b2 := set_transfers _ _) in *.
  destruct progress as [e|[head n|n blocked|n reuse leftover]]; [by apply Hfin|..]; pose proof (stream_ingest_bounds _ _ _ _ _ Hin) as Hb; cbn beta iota in Hb.
  - eapply step_then; [apply drain_head_spec; [exact H2|exact Ht2|done|lia]|]. intros [|] b3 [H3 Hmore]; [|by apply wp_ret].
    destruct (Hmore eq_refl) as (t3 & Ht3 & Hlt). rewrite Hp1 in Hlt. apply IH; [done| |unfold len in *; lia].
    intros t4 Ht4. rewrite Ht3 in Ht4. injection Ht4 as <-. unfold len in *. lia.
  - eapply step_then; [apply consume_plaintext_spec; [exact H2|exact Ht2|lia]|]. intros t3 b3 (H3 & Ht3 & [_ _ Hf3 Hr3]).
    zcase; [by apply wp_ret|]. apply orb_false_iff in Heqb0 as [_ Hn%Z.eqb_neq].
    assert (Hlt : (length (stream_plaintext t3) < fuel)%nat) by (rewrite Hr3, length_drop, Hp1; unfold len in *; lia).
    apply IH; [done| |lia]. intros t4 Ht4. rewrite Ht3 in Ht4. by injection Ht4 as <-.
  - eapply step_then; [apply consume_plaintext_spec; [exact H2|exact Ht2|lia]|]. intros t3 b3 (H3 & Ht3 & [_ Hk3 _ _]).
    eapply (step_then _ _ (λ _ b', safe b')).
    + case_bool_decide; [|eapply step_mono; [by apply finish_step|]; by intros ? ? [? _]].
      apply complete_stream_spec; [done|]. erewrite kind_at; [|exact Ht3]. by rewrite Hk3, Hs1.
    + intros ? b4 H4. by apply wp_ret.
Qed.

Lemma drain_eof_spec slot t d b :
  safe b → transfers b !! slot = Some t → is_streaming (t_response t) = true → wp (drain_eof slot t d) (λ _ b', safe b') lost b.
Proof.
  intros HS Ht Hs. unfold drain_eof. eapply asking_then; [exact HS|]. intros n m H1. destruct (stream_eof m d) as [answer d'].
  eapply put_then; [exact H1|exact Ht|auto with like|]. intros H2 Ht2.
  assert (Hend : ∀ c b', safe b' → wp (finish slot c) (λ _ b', safe b') lost b').
  { intros c b' Hs'. eapply step_mono; [by apply finish_step|]. by intros ? ? [? _]. }
  destruct answer as [e|[[reuse ?]|]]; [by apply Hend| |by apply Hend]. apply complete_stream_spec; [done|].
  erewrite kind_at; [|exact Ht2]. cbn. by destruct (t_response t).
Qed.

Lemma drain_spec slot closed b : safe b → wp (drain_stream_plaintext slot closed) (λ _ b', safe b') lost b.
Proof.
  intros HS. unfold drain_stream_plaintext, get_transfer. apply wp_bind, wp_bind, wp_get, wp_ret.
  set (found := transfers b !! slot).
  eapply (runs_then _ _ (λ _ b', safe b' ∧ (∀ t, transfers b' !! slot = Some t → ∃ t0, found = Some t0 ∧ stream_plaintext t = stream_plaintext t0))).
  { destruct found as [t|] eqn:Ht; [|apply wp_ret; split; [done|]; by intros ? Hx; unfold found in Ht; rewrite Ht in Hx].
    case_match; [|apply wp_ret; split; [done|]; intros t' Ht'; exists t; unfold found in Ht; split; [done|]; congruence].
    eapply wp_mono; [apply (put_spec_owner slot t); [done|exact Ht|auto with like]| |done]. intros ? ? [Hs ->]. split; [done|].
    intros t' Ht'. cbn in Ht'. rewrite lookup_insert_eq in Ht'. injection Ht' as <-. exists t. split; [done|].
    unfold stream_plaintext, set_stream_closed. cbn. by destruct (t_response t). }
  intros ? b1 [H1 Hp]. eapply step_then.
  { apply drain_loop_spec; [exact H1| |lia]. intros t Ht. destruct (Hp _ Ht) as (t0 & Hf & ->). rewrite Hf. cbn. lia. }
  intros broke b2 H2. destruct broke; cbn [negb]; [|by apply wp_ret]. apply wp_bind, wp_bind, wp_get, wp_ret.
  assert (Href : ∀ b', safe b' → wp (refresh_stream_allowance slot) (λ _ b', safe b') lost b').
  { intros b' Hs. eapply step_mono; [by apply refresh_allowance_spec|]. by intros ? ? [? _]. }
  destruct (transfers b2 !! slot) as [t|] eqn:Ht; [|by apply wp_ret].
  destruct (t_response t) as [|d retained offset [|] dirty redirect] eqn:Hr; [by apply Href| |by apply Href].
  case_bool_decide; [|by apply Href]. destruct dirty; [eapply step_mono; [by apply finish_step|]; by intros ? ? [? _]|].
  eapply step_then; [apply drain_eof_spec; [done|exact Ht|by rewrite Hr]|]. intros ? b3 H3. apply wp_bind, wp_get.
  case_match; [by apply wp_ret|by apply Href].
Qed.

(** ** Input *)

(** The function ends with good books. *)
Notation steps m b := (wp m (λ _ b', safe b') lost b).

Lemma goes_steps {T} (m : BM T) slot b : wp m (λ _ b', goes slot b b') lost b → steps m b.
Proof. intros Hm. eapply step_mono; [exact Hm|]. by intros ? ? [? _]. Qed.
Lemma finish_steps slot c b : safe b → steps (finish slot c) b.
Proof. intros HS. by eapply goes_steps, finish_goes. Qed.
Lemma or_fail_steps {T} (m : Reactor.RM T) b : calm m → safe b → steps (reactor_or_fail m) b.
Proof. intros Hm HS. eapply step_mono; [by apply or_fail_spec|]. by intros ? ? [? _]. Qed.

Lemma tls_allowance_spec slot b : safe b → steps (refresh_tls_allowance slot) b.
Proof.
  intros HS. unfold refresh_tls_allowance, get_transfer. apply wp_bind, wp_bind, wp_get, wp_ret.
  destruct (transfers b !! slot) as [t|]; [|by apply wp_ret]. destruct (t_tls t) as [s|]; [|by apply wp_ret].
  case_match; [by eapply goes_steps, handshake_allowance_spec|]. case_match; [by eapply goes_steps, refresh_allowance_spec|].
  apply or_fail_steps; [by apply calm_allowance|done].
Qed.

Lemma queue_outbound_spec slot arm outbound error b :
  safe b → wp (queue_outbound slot arm outbound error) (λ _ b', goes slot b b') lost b.
Proof.
  intros HS. unfold queue_outbound. case_match; [|apply wp_ret; by apply goes_refl].
  eapply reactor_then; [auto with calm|exact HS|]. intros [f|[]] r Hr; [|apply wp_ret; split; [done|by apply kept_same]].
  unfold get_transfer. apply wp_bind, wp_bind, wp_get, wp_ret. eapply finish_then; [exact Hr|]. intros b' Hg. by apply wp_ret.
Qed.

(** Whether the request may go on once the handshake is over. *)
Lemma established_spec slot (c : Backend → bool) b :
  safe b → wp (b ← get; if c b then _ ← pump_request_output slot; mret tt else mret tt) (λ _ b', goes slot b b') lost b.
Proof.
  intros HS. apply wp_bind, wp_get. destruct (c b); [|apply wp_ret; by apply goes_refl].
  eapply step_then; [by apply pump_output_spec|]. intros ? b' Hg. by apply wp_ret.
Qed.

Lemma stream_progress_spec slot progress bytes arm b : safe b → steps (handle_stream_tls_progress slot progress bytes arm) b.
Proof.
  intros HS. unfold handle_stream_tls_progress, get_transfer. apply wp_bind, wp_bind, wp_get, wp_ret.
  eapply (step_then _ _ (λ _ b', safe b')).
  { destruct progress as [[e|p]|]; [|by apply wp_ret|].
    - eapply step_then; [by apply finish_steps|]. intros ? b' Hs. by apply wp_ret.
    - destruct (transfers b !! slot) as [t|] eqn:Ht; [|by apply wp_ret].
      destruct (t_response t) as [|d retained offset closed dirty redirect] eqn:Hr; [apply wp_fail; by exists []|]. zcase.
      + eapply put_then; [exact HS|exact Ht| |intros H2 _; by apply wp_ret].
        apply like_response. intros _ *. intros [= <- <- <- <- <- <-]. split; [lia|apply len_nonneg].
      + eapply step_then; [by apply finish_steps|]. intros ? b' Hs. by apply wp_ret. }
  intros [[[established outbound] closed]|] b1 H1; [|by apply wp_ret].
  eapply step_then; [by apply note_progress_spec|]. intros ? b2 [H2 _].
  eapply step_then; [by apply queue_outbound_spec|]. intros queued b3 [H3 _]. zcase; [|by apply wp_ret].
  apply wp_bind, wp_get. eapply (step_then _ _ (λ _ b', safe b')).
  { case_match; [|by apply wp_ret]. eapply step_then; [by apply pump_output_spec|]. intros ? b4 [H4 _]. by apply wp_ret. }
  intros ? b4 H4. by apply drain_spec.
Qed.
Lemma stream_data_spec slot bytes arm b : safe b → steps (handle_stream_data slot bytes arm) b.
Proof.
  intros HS. unfold handle_stream_data, get_transfer. apply wp_bind, wp_bind, wp_get, wp_ret.
  eapply (step_then _ _ (λ _ b', safe b')); [|intros progress b' Hs; by apply stream_progress_spec].
  destruct (transfers b !! slot) as [t|] eqn:Ht; [|by apply wp_ret]. destruct (t_tls t) as [s|] eqn:Hs; [|by apply wp_ret].
  eapply asking_then; [exact HS|]. intros n m H1. destruct (tls_receive_streaming m s bytes) as [answer s'].
  eapply put_then; [exact H1|exact Ht|by eapply like_tls|]. intros H2 _. by apply wp_ret.
Qed.

Lemma resume_slots_spec : ∀ slots b, safe b → steps (resume_slots slots) b.
Proof.
  assert (Hif : ∀ (c : Backend → bool) (m : BM unit) b, safe b → (∀ b, safe b → steps m b) → steps (b ← get; if c b then mret tt else m) b).
  { intros c m b HS Hm. apply wp_bind, wp_get. destruct (c b); [by apply wp_ret|by apply Hm]. }
  induction slots as [|slot rest IH]; intros b HS; cbn [resume_slots]; [by apply wp_ret|].
  eapply step_then; [by apply pump_output_spec|]. intros ? b1 [H1 _]. apply wp_bind, wp_get.
  eapply (step_then _ _ (λ _ b', safe b')).
  { case_match; [by apply wp_ret|by eapply goes_steps, refresh_drained_spec]. }
  intros ? b2 H2. eapply step_then; [by apply drain_spec|]. intros ? b3 H3. apply wp_bind, wp_get.
  eapply (step_then _ _ (λ _ b', safe b')).
  { case_match; [by apply wp_ret|by eapply goes_steps, refresh_allowance_spec]. }
  intros ? b4 H4. by apply IH.
Qed.
Lemma resume_streams_spec b : safe b → steps resume_streams b.
Proof.
  intros HS. unfold resume_streams, in_hash_order. apply wp_bind, wp_get. eapply asking_then; [exact HS|]. intros n m Hs. by apply resume_slots_spec.
Qed.

Lemma buffered_eof_spec slot t d otherwise b : safe b → transfers b !! slot = Some t → steps (buffered_eof slot t d otherwise) b.
Proof.
  intros HS Ht. unfold buffered_eof. eapply asking_then; [exact HS|]. intros n m H1. destruct (decoder_eof m d) as [answer d'].
  eapply put_then; [exact H1|exact Ht|auto with like|]. intros H2 _. destruct answer as [e|[r|]]; by apply finish_steps.
Qed.

Lemma buffered_progress_spec slot progress bytes arm b :
  safe b → kind b slot ≠ Some true → steps (handle_buffered_tls_progress slot progress bytes arm) b.
Proof.
  intros HS Hk. unfold handle_buffered_tls_progress. eapply (step_then _ _ (λ _ b', goes slot b b')).
  { destruct progress as [[e|p]|]; [|apply wp_ret; by apply goes_refl|apply wp_ret; by apply goes_refl].
    eapply finish_then; [exact HS|]. intros b' Hg. by apply wp_ret. }
  intros [[[[plaintext established] outbound] closed]|] b1 G1; [|apply wp_ret; by destruct G1].
  eapply (step_then _ _ (λ _ b', goes slot b b')).
  { eapply step_mono; [apply note_progress_spec; by destruct G1|]. intros ? ? Hg. exact (goes_trans _ _ _ _ (proj2 G1) Hg). }
  intros ? b2 G2. eapply (step_then _ _ (λ _ b', goes slot b b')).
  { eapply step_mono; [apply queue_outbound_spec; by destruct G2|]. intros ? ? Hg. exact (goes_trans _ _ _ _ (proj2 G2) Hg). }
  intros queued b3 G3. zcase; [|apply wp_ret; by destruct G3]. apply wp_bind, wp_get.
  eapply (step_then _ _ (λ _ b', goes slot b b')).
  { case_match; [|by apply wp_ret]. eapply step_then; [apply pump_output_spec; by destruct G3|]. intros ? b4 G4. apply wp_ret.
    exact (goes_trans _ _ _ _ (proj2 G3) G4). }
  intros ? b4 [H4 K4]. unfold get_transfer. apply wp_bind, wp_bind, wp_get, wp_ret.
  destruct (transfers b4 !! slot) as [t|] eqn:Ht; [|by apply wp_ret].
  assert (Hs : is_streaming (t_response t) = false).
  { destruct K4 as [K4|K4]; rewrite (kind_at _ _ _ Ht) in K4; [done|]. rewrite <-K4 in Hk. by destruct (is_streaming _). }
  destruct (t_response t) as [d|] eqn:Hr; [|done].
  eapply asking_then; [exact H4|]. intros n m H5. destruct (decoder_ingest m d plaintext) as [decoded d']. cbn beta iota zeta.
  eapply put_then; [exact H5|exact Ht| |].
  { transitivity (set_t_response (Tr_Buffered d') t); auto with like. }
  intros H6 Ht6. destruct decoded as [e|p]; [by apply finish_steps|]. destruct (Buffered.response p) as [response|].
  - case_match; [|by apply finish_steps]. apply runs_step. by apply complete_response_spec.
  - destruct closed; [|by apply wp_ret]. by eapply buffered_eof_spec.
Qed.

Lemma handle_data_spec slot bytes arm b : safe b → steps (handle_data slot bytes arm) b.
Proof.
  intros HS. unfold handle_data, get_transfer. apply wp_bind, wp_bind, wp_get, wp_ret. zcase.
  - zcase; [|by apply wp_ret]. eapply step_then; [by apply note_progress_spec|]. intros ? b1 [H1 _].
    eapply or_fail_then; [by apply calm_allowance|exact H1|]. intros [] r H2. apply wp_bind, wp_get.
    zcase; [by apply finish_steps|]. apply wp_modify.
    exact (handshakes_safe _ _ _ _ (handshake_waiting (set_reactor r b1) ++ [(slot, bytes)]) (handshake_peer_closed b1) H2).
  - zcase; [by apply stream_data_spec|]. eapply (step_then _ _ (λ _ b', safe b' ∧ kind b' slot ≠ Some true)).
    + destruct (transfers b !! slot) as [t|] eqn:Ht; [|apply wp_ret; split; [done|]; unfold kind; by rewrite Ht].
      destruct (t_tls t) as [s|] eqn:Hs.
      2: { apply wp_ret. split; [done|]. erewrite kind_at by exact Ht. congruence. }
      eapply asking_then; [exact HS|]. intros n m H1. destruct (tls_receive m s bytes) as [answer s'].
      eapply put_then; [exact H1|exact Ht|by eapply like_tls|]. intros H2 Ht2. apply wp_ret. split; [done|].
      erewrite kind_at by exact Ht2. cbn. congruence.
    + intros progress b1 [H1 K1]. by apply buffered_progress_spec.
Qed.

(** ** Events *)

Lemma handle_peer_closed_spec slot b : safe b → steps (handle_peer_closed slot) b.
Proof.
  intros HS. unfold handle_peer_closed, get_transfer. apply wp_bind, wp_bind, wp_get, wp_ret. apply wp_bind, wp_get. zcase.
  { apply wp_put. exact (handshakes_safe _ _ _ _ (handshake_waiting b) _ HS). }
  destruct (transfers b !! slot) as [t|] eqn:Ht.
  2: { apply runs_step. eapply wp_mono; [exact (close_slot_spec _ _ _ _ _ HS)| |done]. by intros ? ? [? _]. }
  destruct (t_tls t) as [s|].
  - zcase; [by apply finish_steps|]. zcase; [|by apply finish_steps].
    eapply put_then; [exact HS|exact Ht|auto with like|]. intros H2 _. by apply drain_spec.
  - destruct (t_response t); [by apply buffered_eof_spec|by apply drain_spec].
Qed.
Lemma deadline_expired_spec slot b : safe b → steps (handle_deadline_expired slot) b.
Proof.
  intros HS. unfold handle_deadline_expired. eapply clock_then; [exact HS|]. intros now r Hr.
  unfold get_transfer. apply wp_bind, wp_bind, wp_get, wp_ret. destruct (transfers _ !! slot); [|by apply wp_ret].
  destruct (next_deadline h); [|by apply wp_ret]. case_match; [by apply finish_steps|by apply or_fail_steps; [auto with calm|]].
Qed.

Lemma process_event_spec failed e b : safe b → steps (process_event failed e) b.
Proof.
  intros HS. unfold process_event. cbn zeta. apply wp_bind, wp_get. destruct (idle_slots b !! event_slot e).
  { assert (Hd : steps (discard_idle_slot (event_slot e)) b).
    { apply runs_step. eapply wp_mono; [exact (discard_spec _ _ _ _ _ HS)| |done]. by intros ? ? [? _]. }
    destruct e; try exact Hd; by apply wp_ret. }
  assert (Hpump : ∀ b', safe b' → steps (_ ← pump_request_output (event_slot e); mret tt) b').
  { intros b' Hs. eapply step_then; [by apply pump_output_spec|]. intros ? ? [? _]. by apply wp_ret. }
  destruct e; cbn [event_slot] in *.
  - eapply step_then; [by apply handle_connected_spec|]. intros ? b1 H1. apply wp_bind, wp_get. case_match; [by apply Hpump|by apply wp_ret].
  - eapply step_then; [by apply note_progress_spec|]. intros ? b1 [H1 _]. case_match; [by apply Hpump|by apply wp_ret].
  - eapply step_then; [by apply note_progress_spec|]. intros ? b1 [H1 _]. eapply (step_then _ _ (λ _ b', safe b')).
    { case_match; [by eapply goes_steps, pump_output_spec|by apply wp_ret]. }
    intros more b2 H2. apply wp_bind, wp_get. case_match; [by eapply goes_steps, refresh_drained_spec|by apply wp_ret].
  - by apply handle_data_spec.
  - by apply handle_peer_closed_spec.
  - by apply fail_native_spec.
  - by apply deadline_expired_spec.
Qed.
Lemma process_all_spec failed : ∀ events b, safe b → steps (process_all failed events) b.
Proof.
  induction events as [|e rest IH]; intros b HS; cbn [process_all]; [by apply wp_ret|].
  eapply step_then; [by apply process_event_spec|]. intros ? b' Hs. by apply IH.
Qed.

(** ** Handshakes *)

Lemma handshake_finished_spec job b : safe b → steps (handshake_finished job) b.
Proof.
  intros HS. destruct job as [[slot session] progress]. unfold handshake_finished, get_transfer. apply wp_bind, wp_bind, wp_get, wp_ret.
  destruct (transfers b !! slot) as [t|] eqn:Ht; [|by apply wp_ret]. eapply clock_then; [exact HS|]. intros now r Hr.
  zcase; [by apply finish_steps|]. destruct (t_tls t) as [s|] eqn:Hs; [|by apply wp_ret]. cbn zeta. apply wp_bind, wp_get, wp_bind, wp_put.
  pose proof (handshakes_safe _ _ _ _ (handshake_waiting b) (handshake_peer_closed (set_reactor r b) ∖ {[slot]}) Hr) as H1.
  eapply put_then; [exact H1|exact Ht|by eapply like_tls|]. intros H2 Ht2. set (t2 := set_t_tls _ t) in *.
  eapply (step_then _ _ (λ _ b', safe b')).
  - destruct (is_streaming (t_response t)) eqn:Hstream.
    + eapply (step_then _ _ (λ _ b', safe b')); [|intros ? b3 H3; by apply stream_progress_spec].
      destruct progress as [e|p]; [by apply wp_ret|]. eapply asking_then; [exact H2|]. intros n m H3.
      destruct (tls_retain_stream_progress m _ p) as [answer s'].
      eapply put_then; [exact H3|exact Ht2| |intros H4 _; by apply wp_ret]. exact (like_tls _ s' t2 eq_refl).
    + apply buffered_progress_spec; [done|]. erewrite kind_at by exact Ht2. cbn. congruence.
  - intros ? b3 H3. eapply step_then; [by apply tls_allowance_spec|]. intros ? b4 H4. case_match; [by apply process_all_spec|by apply wp_ret].
Qed.
Lemma handshakes_finished_spec : ∀ jobs b, safe b → steps (handshakes_finished jobs) b.
Proof.
  induction jobs as [|job rest IH]; intros b HS; cbn [handshakes_finished]; [by apply wp_ret|].
  eapply step_then; [by apply handshake_finished_spec|]. intros ? b' Hs. by apply IH.
Qed.

Lemma fewer_same b b' : handshake_waiting b' = handshake_waiting b → fewer b b'.
Proof. unfold fewer. intros ->. lia. Qed.
Lemma submit_handshake_spec slot b : safe b → wp (submit_handshake slot) (λ _ b', safe b' ∧ fewer b b') lost b.
Proof.
  intros HS. unfold submit_handshake, get_transfer. apply wp_bind, wp_bind, wp_get, wp_ret.
  destruct (transfers b !! slot) as [t|] eqn:Ht; [|apply wp_ret; split; [done|by apply fewer_same]]. eapply clock_then; [exact HS|]. intros now r Hr.
  assert (Hend : ∀ c b', safe b' → handshake_waiting b' = handshake_waiting b → wp (finish slot c) (λ _ b', safe b' ∧ fewer b b') lost b').
  { intros c b' Hs Hw. eapply step_mono; [by apply finish_step|]. intros ? b2 (H2 & _ & Hf). split; [done|]. unfold fewer in *. by rewrite <-Hw. }
  zcase; [by apply Hend|]. destruct (t_tls t) as [s|] eqn:Hs; [|apply wp_ret; split; [done|by apply fewer_same]]. destruct (tls_take_handshake s) as [session s'].
  eapply put_then; [exact Hr|exact Ht|by eapply like_tls|]. intros H2 Ht2. destruct session; [|apply wp_fail; by exists []].
  eapply asking_then; [exact H2|]. intros n m H3. destruct (workers_submit m); [by apply Hend|apply wp_ret; split; [done|by apply fewer_same]].
Qed.
Lemma submit_handshakes_spec : ∀ fuel b, safe b → (length (handshake_waiting b) < fuel)%nat → steps (submit_handshakes fuel) b.
Proof.
  induction fuel as [|fuel IH]; intros b HS Hf; [lia|]. cbn [submit_handshakes]. eapply asking_then; [exact HS|]. intros n m H1.
  destruct (workers_has_capacity m); [|by apply wp_ret]. apply wp_bind, wp_get. cbn [handshake_waiting set_asked].
  destruct (handshake_waiting b) as [|[slot input] rest] eqn:Hw; [by apply wp_ret|]. cbn in Hf. apply wp_bind, wp_put.
  pose proof (handshakes_safe _ _ _ _ rest (handshake_peer_closed b) H1) as H2.
  eapply step_then; [by apply submit_handshake_spec|]. intros ? b3 [H3 Hf3]. apply IH; [done|]. unfold fewer in Hf3. cbn in Hf3. lia.
Qed.
Lemma service_tls_spec b : safe b → steps service_tls b.
Proof.
  intros HS. unfold service_tls. eapply asking_then; [exact HS|]. intros n m H1. eapply step_then; [by apply handshakes_finished_spec|].
  intros ? b2 H2. apply wp_bind, wp_get. apply submit_handshakes_spec; [done|lia].
Qed.

End events.
