(* ===== verification/NativeHttpRuns.v ===== *)
(** * The connection owner under any sequence of calls

    The Engine's calls of the owner, in any order, with any answers of the
    peers: no call panics or hangs, the accounting of connections is exact and
    within the limits, every request ends once, and connections are not shared
    between origins. *)

From stdpp Require Import base list strings gmap.
From Stdlib Require Import ZArith Lia.
From S2P Require Import Prelude Counting Errors BodyBudget DnsCache DnsConfig StdText Request RequestProofs Stream Http1 SerializeProofs Http1Decoder NativeUpload NativeReactor NativeReactorProofs NativeReactorRuns NativeHttp NativeHttpEvents NativeHttpProofs NativeHttpStarts NativeHttpEnds NativeHttpEventProofs.

Import Budget (bytes).
Import Request Http1.
Import Reactor (SlotId, NativeFailure, NativeReactor).
Import Owner Events.

Section runs.
Context {tgt : Target} {peers : HttpPeers} {cl : ConnectionLimits}.
Notation Safe := (Safe (cl := cl)).
Implicit Types (b : Backend) (L I : list RequestId).

(** ** The calls *)

Inductive OwnerCall :=
| Call_submit (id : RequestId) (request : Request) (accepted_at : Z)
| Call_submit_stream (id : RequestId) (request : Request) (upload : option UploadBody) (accepted_at : Z)
| Call_cancel (id : RequestId)
| Call_poll
| Call_shutdown.
Inductive OwnerReply := Reply_submitted (c : option Completion) | Reply_completions (l : list (RequestId * Completion)) | Reply_none.

Definition run_owner_call (c : OwnerCall) : BM OwnerReply :=
  match c with
  | Call_submit id request at_ => r ← submit id request at_; mret (Reply_submitted r)
  | Call_submit_stream id request upload at_ => _ ← submit_stream id request upload at_; mret Reply_none
  | Call_cancel id => _ ← cancel id; mret Reply_none
  | Call_poll => l ← poll; mret (Reply_completions l)
  | Call_shutdown => _ ← shutdown; mret Reply_none
  end.
Fixpoint run_owner (cs : list OwnerCall) (b : Backend) : list (OwnerCall * outcome Error OwnerReply) * Backend :=
  match cs with
  | [] => ([], b)
  | c :: cs' =>
      let '(o, b1) := run_owner_call c b in
      let '(out, b2) := run_owner cs' b1 in
      ((c, o) :: out, b2)
  end.

(** The requests given to the owner, and the ones a call answered. *)
Definition submitted (c : OwnerCall) : list RequestId :=
  match c with Call_submit id _ _ | Call_submit_stream id _ _ _ => [id] | _ => [] end.
Definition answered_by (x : OwnerCall * outcome Error OwnerReply) : list RequestId :=
  match x with
  | (Call_submit id _ _, Ok (Reply_submitted (Some _))) => [id]
  | (Call_poll, Ok (Reply_completions l)) => map fst l
  | _ => []
  end.
(** Why a request may be gone without an answer. *)
Definition drops (x : OwnerCall * outcome Error OwnerReply) (id : RequestId) : Prop :=
  match x with
  | (Call_cancel id', _) => id = id'
  | (Call_shutdown, _) => True
  | (Call_poll, Err _) => True
  | _ => False
  end.
Definition owner_call_ok (c : OwnerCall) : Prop :=
  match c with Call_submit _ request _ | Call_submit_stream _ request _ _ => sized request | _ => True end.

(** Between two calls. *)
Definition Between L I b : Prop := Safe L [] I b ∧ completions b = [].

(** ** Each call *)

Lemma submitted_safe L K I b id : Safe L K I b → id ∉ L → Safe (id :: L) K (id :: I) b.
Proof.
  intros [[? [Ha Ho] ? ? ?] HR] Hid. split; [|done]. split; try done. split; [|by constructor]. rewrite <-Ha. perm.
Qed.

Lemma submit_spec L I b id request at_ :
  Between L I b → id ∉ L → sized request →
  runs (submit id request at_) (λ c b', Between (id :: L) (map fst (maybe_complete id c) ++ I) b') b.
Proof.
  intros [HS Hc] Hid Hs. pose proof (submitted_safe _ _ _ _ _ HS Hid) as H1. unfold submit. apply wp_bind, wp_get.
  pose proof (make_pending_spec id request (deadlines_from (options request) at_) 0 ErrorKind.InvalidRequest Pending_Buffered (limits b) Hs) as Hp.
  destruct (make_pending _ _ _ _ _ _ _) as [p|e| |]; try done. destruct Hp as (Hok & Hi & _). rewrite <-Hi in *.
  pose proof (start_completions p b) as Hsc. pose proof (start_pending_spec _ _ _ _ _ H1 Hok) as Hst.
  unfold runs, wpx in *. destruct (start_pending p b) as [[c|e| |] b']; try done. cbn in Hsc. split; [apply Hst|congruence].
Qed.
Lemma submit_stream_spec L I b id request upload at_ :
  Between L I b → id ∉ L → sized request →
  runs (submit_stream id request upload at_) (λ _ b', Between (id :: L) I b') b.
Proof.
  intros [HS Hc] Hid Hs. pose proof (submitted_safe _ _ _ _ _ HS Hid) as H1. unfold submit_stream. apply wp_bind, wp_get.
  pose proof (make_pending_spec id request (deadlines_from (options request) at_) 0 ErrorKind.InvalidRequest (Pending_Streaming upload) (limits b) Hs) as Hp.
  destruct (make_pending _ _ _ _ _ _ _) as [p|e| |]; try done.
  - destruct Hp as (Hok & Hi & Hr). rewrite <-Hi in *.
    pose proof (start_completions p b) as Hsc. pose proof (start_pending_spec _ _ _ _ _ H1 Hok) as Hst.
    apply wp_bind. unfold runs, wpx at 1 in Hst. unfold wpx at 1. destruct (start_pending p b) as [[c|e| |] b']; try done. cbn in Hsc.
    destruct Hst as [H2 Hcn]. assert (c = None) as -> by (apply Hcn; by rewrite Hr). apply wp_ret. split; [exact H2|congruence].
  - pose proof (tell_spec _ _ _ _ _ (Some e) H1) as Ht. split; [exact Ht|exact Hc].
Qed.

Lemma remove_request_spec id l :
  (id ∉ map p_request_id l ∧ remove_request id l = l) ∨
  (map p_request_id l ≡ₚ id :: map p_request_id (remove_request id l)).
Proof.
  induction l as [|p l IH]; [left; split; [apply not_elem_of_nil|done]|]. cbn. destruct (Z.eqb_spec (p_request_id p) id) as [->|Hne]; [by right|].
  destruct IH as [[Hn ->]|Hp]; [left|right].
  - split; [|done]. rewrite elem_of_cons. intros [->|]; done.
  - cbn. rewrite Hp. apply Permutation_swap.
Qed.
Lemma remove_request_ok id l : Forall pending_ok l → Forall pending_ok (remove_request id l).
Proof. induction 1 as [|p l Hp Hl IH]; cbn; [constructor|]. case_match; [done|by constructor]. Qed.

Lemma not_placed b id :
  Indexed b → id ∉ map p_request_id (waiting b) → request_to_resolve b !! id = None → request_to_slot b !! id = None → id ∉ placed b.
Proof.
  intros [Hs Hr _] Hw Hrn Hsn. unfold placed. rewrite !elem_of_app, !vals_elem. intros [?|[(i & t & Ht & ->)|(i & p & Hp & ->)]]; [done|..].
  - assert (request_to_slot b !! t_request_id t = Some i) by (apply Hs; eauto). congruence.
  - assert (request_to_resolve b !! p_request_id p = Some i) by (apply Hr; eauto). congruence.
Qed.
Lemma held_gone L K I gone b id : Safe L K (gone ++ I) b → id ∈ gone → id ∉ placed b.
Proof.
  intros [HG _] Hin Hp. pose proof (placed_once _ _ _ (go_listed _ _ _ _ _ HG)) as Hn. apply NoDup_app in Hn as (_ & Hd & _).
  apply (Hd id); [|done]. apply elem_of_app. by left.
Qed.

Lemma cancel_completions id b : completions (cancel id b).2 = completions b.
Proof.
  assert (Hc : still_waits completions (completions b) (cancel id) b); [|by apply Hc]. unfold cancel, cancel_handshake.
  apply waits_get. intros _. apply waits_bind; [case_match; [by apply waits_modify|apply waits_ret]|intros ? b1].
  apply waits_bind; [by apply waits_modify|intros ? b2]. apply waits_get. intros _. apply waits_bind.
  - case_match; [|apply waits_ret]. apply waits_bind; [by apply waits_put|intros ? b3].
    apply waits_bind; [case_match; [apply waits_release, _|apply waits_ret]|intros ? b4].
    case_match; [|apply waits_ret]. apply waits_bind; [apply waits_ask, _|intros ? b5; apply waits_ret].
  - intros ? b3. apply waits_get. intros _. case_match; [|apply waits_ret]. apply waits_bind; [by apply waits_put|intros ? b4].
    apply waits_bind; [case_match; [apply waits_release, _|apply waits_ret]|intros ? b5]. apply waits_cancel, _.
Qed.

(** The requests [gone] are [id], and it is nowhere in the owner. *)
Definition withdrawn (id : RequestId) (gone : list RequestId) b : Prop := (∀ x, x ∈ gone → x = id) ∧ id ∉ placed b.

Lemma cancel_slot_spec L I b id gone :
  Safe L [] (gone ++ I) b → (∀ x, x ∈ gone → x = id) →
  (gone = [] → id ∉ map p_request_id (waiting b) ∧ request_to_resolve b !! id = None) →
  runs (b ← get;
        match request_to_slot b !! id with
        | None => mret tt
        | Some slot =>
            _ ← put (set_transfers (delete slot (transfers b)) (set_request_to_slot (delete id (request_to_slot b)) b));
            _ ← match transfers b !! slot with Some t => release_connection (t_key t) | None => mret tt end;
            reactor_cancel slot
        end)
    (λ _ b', ∃ gone, Safe L [] (gone ++ I) b' ∧ withdrawn id gone b') b.
Proof.
  intros HS Hg Hno. apply wp_bind, wp_get. destruct (request_to_slot b !! id) as [slot|] eqn:Hs.
  - pose proof (proj1 (ix_slot _ (go_indexed _ _ _ _ _ (proj1 HS)) id slot) Hs) as (t & Ht & <-). rewrite Ht. apply wp_bind, wp_put.
    assert (H1 : Safe L [t_key t] ((t_request_id t :: gone) ++ I)
      (set_transfers (delete slot (transfers b)) (set_request_to_slot (delete (t_request_id t) (request_to_slot b)) b))).
    { apply (safe_good _ _ _ _ _ _ _ _ HS); try done. exact (remove_transfer_good _ _ _ _ _ _ _ (proj1 HS) Ht). }
    eapply release_then; [exact H1|]. intros n m H2. eapply wp_mono; [exact (close_slot_spec _ _ _ _ _ H2)| |done].
    intros ? b3 [H3 _]. exists (t_request_id t :: gone). split; [done|]. split.
    + intros x [->|Hx]%elem_of_cons; [done|by apply Hg].
    + eapply held_gone; [exact H3|by left].
  - apply wp_ret. exists gone. split; [done|]. split; [done|]. destruct gone as [|x gone].
    + destruct (Hno eq_refl). apply not_placed; try done. apply HS.
    + rewrite <-(Hg x) by by left. eapply held_gone; [exact HS|by left].
Qed.

Lemma cancel_spec_owner L I b id :
  Between L I b → runs (cancel id) (λ _ b', ∃ gone, Between L (gone ++ I) b' ∧ withdrawn id gone b') b.
Proof.
  intros [HS Hc]. assert (Hrun : runs (cancel id) (λ _ b', ∃ gone, Safe L [] (gone ++ I) b' ∧ withdrawn id gone b') b).
  2: { pose proof (cancel_completions id b) as Hcc. unfold runs, wpx in *. destruct (cancel id b) as [[a|e| |] b']; try done.
       destruct Hrun as (gone & ? & ?). exists gone. split; [split; [done|]|done]. cbn in Hcc. congruence. }
  unfold cancel. apply wp_bind, wp_get. eapply (runs_then _ _ (λ _ b', Safe L [] I b')).
  { destruct (request_to_slot b !! id); [|by apply wp_ret]. apply wp_modify. by apply handshakes_safe. }
  intros ? b1 H1. apply wp_bind, wp_modify. set (b2 := set_waiting _ b1).
  assert (∃ gone, Safe L [] (gone ++ I) b2 ∧ (∀ x, x ∈ gone → x = id) ∧ (gone = [] → id ∉ map p_request_id (waiting b2))) as (gone & H2 & Hg & Hw).
  { pose proof (remove_request_ok id _ (so_waiting _ (go_sound _ _ _ _ _ (proj1 H1)))) as Hok.
    destruct (remove_request_spec id (waiting b1)) as [[Hn He]|Hp].
    - exists []. split_and!; [|by intros ? ?%elem_of_nil|by unfold b2; cbn; rewrite He].
      apply (safe_good _ _ _ _ _ _ _ _ H1); try done. apply (waiting_good _ _ _ _ _ _ _ (proj1 H1)); [done|by rewrite He].
    - exists [id]. split_and!; [|by intros x ->%list_elem_of_singleton|done].
      apply (safe_good _ _ _ _ _ _ _ _ H1); try done. apply (waiting_good _ _ _ _ _ _ _ (proj1 H1)); [done|]. cbn. perm. }
  apply wp_bind, wp_get. destruct (request_to_resolve b2 !! id) as [key|] eqn:Hr.
  - pose proof (proj1 (ix_resolve _ (go_indexed _ _ _ _ _ (proj1 H2)) id key) Hr) as (p & Hp & <-).
    destruct (take_resolve _ _ _ _ _ _ H2 Hp) as [H3 _]. rewrite Hp.
    eapply (runs_then _ _ (λ _ b', Safe L [] ((p_request_id p :: gone) ++ I) b')).
    + apply wp_bind, wp_put. eapply release_then; [exact H3|]. intros n m H4. case_match; [|by apply wp_ret].
      eapply runs_then; [exact (ask_spec resolver_cancel _ _ _ _ H4)|]. intros ? b5 H5. by apply wp_ret.
    + intros ? b4 H4. apply (cancel_slot_spec L I b4 (p_request_id p) (p_request_id p :: gone)); [done| |done].
      intros x [->|Hx]%elem_of_cons; [done|by apply Hg].
  - eapply (runs_then _ _ (λ _ b', b' = b2)); [by apply wp_ret|]. intros ? ? ->.
    by apply (cancel_slot_spec L I b2 id gone); [| |intros He; split; [apply Hw|]].
Qed.

(** ** Polls *)

Lemma poll_body_spec L I b :
  Safe L [] I b → wp poll_body (λ _ b', Safe L [] I b') (λ _, Lost (cl := cl) L [] I) b.
Proof.
  intros HS. unfold poll_body.
  assert (Hlost : ∀ (e : Error) b, Safe L [] I b → Lost (cl := cl) L [] I b) by (intros e b' Hs; by exists []).
  assert (Hpush : ∀ l b, Safe L [] (map fst l ++ I) b → wp (push_completions l) (λ _ b', Safe L [] I b') (λ _, Lost (cl := cl) L [] I) b).
  { intros l b' Hs. apply runs_step. by apply push_all_spec. }
  assert (Hdispatch : ∀ (k : unit → BM unit) b, Safe L [] I b →
    (∀ b, Safe L [] I b → wp (k tt) (λ _ b', Safe L [] I b') (λ _, Lost (cl := cl) L [] I) b) →
    wp (done ← dispatch_waiting; _ ← push_completions done; k tt) (λ _ b', Safe L [] I b') (λ _, Lost (cl := cl) L [] I) b).
  { intros k b' Hs Hk. eapply runs_then; [exact (dispatch_waiting_spec _ _ _ _ Hs)|]. intros l b1 H1.
    eapply step_then; [by apply Hpush|]. intros ? b2 H2. by apply Hk. }
  assert (Hdns : ∀ (k : unit → BM unit) b, Safe L [] I b →
    (∀ b, Safe L [] I b → wp (k tt) (λ _ b', Safe L [] I b') (λ _, Lost (cl := cl) L [] I) b) →
    wp (_ ← drain_dns; _ ← take_pending_http; l ← expire_resolves; _ ← push_completions l; k tt) (λ _ b', Safe L [] I b') (λ _, Lost (cl := cl) L [] I) b).
  { intros k b' Hs Hk. apply wp_bind. eapply wp_mono; [exact (drain_dns_spec _ _ _ _ Hs)| |exact Hlost]. intros ? b1 H1.
    unfold take_pending_http. apply wp_bind, wp_modify. eapply step_then; [apply (expire_resolves_spec L [] I)|].
    - apply (safe_good _ _ _ _ _ _ _ _ H1); try done. apply take_pending_good, H1.
    - intros l b2 H2. eapply step_then; [by apply Hpush|]. intros ? b3 H3. by apply Hk. }
  apply wp_bind. eapply wp_mono; [exact (apply_eviction_spec _ _ _ _ HS)| |exact Hlost]. intros ? b1 H1.
  eapply clock_then; [exact H1|]. intros now r Hr. eapply runs_then; [exact (expire_idle_spec _ _ _ _ now Hr)|]. intros ? b2 H2.
  apply (Hdispatch (λ _, _) b2 H2). intros b3 H3. apply (Hdns (λ _, _) b3 H3). intros b4 H4. apply (Hdispatch (λ _, _) b4 H4). intros b5 H5.
  eapply step_then; [exact (service_tls_spec _ _ _ _ H5)|]. intros ? b6 H6. eapply step_then; [exact (resume_streams_spec _ _ _ _ H6)|]. intros ? b7 H7.
  eapply or_fail_then; [apply calm_poll|exact H7|]. intros events r8 H8.
  eapply step_then; [exact (process_all_spec _ _ _ (failed_slots events) events _ H8)|]. intros ? b9 H9.
  eapply step_then; [exact (service_tls_spec _ _ _ _ H9)|]. intros ? b10 H10.
  apply (Hdns (λ _, _) b10 H10). intros b11 H11. eapply runs_then; [exact (dispatch_waiting_spec _ _ _ _ H11)|]. intros l b12 H12. by apply Hpush.
Qed.

Lemma poll_spec_owner L I b :
  Between L I b → wp poll (λ l b', Between L (map fst l ++ I) b') (λ _ b', ∃ gone, Between L (gone ++ I) b') b.
Proof.
  intros [HS Hc]. assert (Hb : set_completions [] b = b) by (destruct b; cbn in *; by subst).
  unfold wpx at 1, poll. rewrite Hb. pose proof (poll_body_spec _ _ _ HS) as Hp. unfold wpx in Hp.
  assert (Htake : ∀ I' b', Safe L [] I' b' → Between L (map fst (completions b') ++ I') (set_completions [] b')).
  { intros I' b' Hs. split; [|done]. apply (safe_good _ _ _ _ _ _ _ _ Hs); try done. apply take_completions_good, Hs. }
  destruct (poll_body b) as [[[]|e| |] b']; try done; [by apply Htake|]. destruct Hp as [gone Hs]. exists (map fst (completions b') ++ gone). rewrite <-app_assoc. by apply Htake.
Qed.

(** ** Shutdown and the start *)

Lemma shutdown_spec L I b :
  Between L I b → runs shutdown (λ _ b', ∃ gone, Between L (gone ++ I) b' ∧ placed b' = [] ∧ connection_count b' = 0) b.
Proof.
  intros [HS Hc]. unfold shutdown. eapply reactor_then; [apply calm_shutdown|exact HS|]. intros a r [HG HR]. apply wp_modify.
  cbn beta. set (b' := mkBackend _ _ _ _ _ _ _ _ _ _ _ _ _ _ _ _ _ _ _ _ _ _ _ _). exists (placed b ++ map fst (pending_http_from_dns b)).
  assert (HG0 : Good cl L [] I b) by (revert HG; apply alike_good; exists (reactor b), (handshake_waiting b), (handshake_peer_closed b), (resolver_config_generation b), (asked b); by destruct b).
  clear HG. destruct HG0 as [[Hl Ht Hg He Ho Hp] [Ha Hn] _ [_ _ _ Hpc Hpg] [Hso _ _ _ _ _ _ Hone]].
  assert (Hr : reserved b' = []) by done. assert (Hpl : placed b' = []) by done.
  split; [|by split]. split; [|exact Hc]. split; [|exact HR]. split.
  - split; try done; unfold count_for; cbn; rewrite ?Hr.
    + rewrite Ht in Hg. pose proof (len_nonneg (reserved b)). rewrite len_nil in Hg. lia.
    + intros k. rewrite lookup_empty; cbn. specialize (Ho k). rewrite He in Ho. pose proof (occ_nonneg k []). pose proof (occ_nonneg k (reserved b)). lia.
  - split; [|done]. rewrite Hpl. unfold placed, ended in *. cbn in *. rewrite Hc in *. cbn in *. perm.
  - split; cbn.
    + intros id slot. rewrite lookup_empty. split; [done|]. intros (t & Hx & _). by rewrite lookup_empty in Hx.
    + intros id key. rewrite lookup_empty. split; [done|]. intros (p & Hx & _). by rewrite lookup_empty in Hx.
    + intros key p Hx. by rewrite lookup_empty in Hx.
  - split; cbn.
    + intros slot k. rewrite lookup_empty. split; [done|]. intros (l & Hx & _). by rewrite lookup_empty in Hx.
    + intros k l Hx. by rewrite lookup_empty in Hx.
    + intros k l c Hx. by rewrite lookup_empty in Hx.
    + done.
    + cbn in *. lia.
  - split; try done; cbn; intros *; by rewrite lookup_empty.
Qed.

(** The limits are [usize]. *)
Record limits_ok (l : HttpLimits) : Prop := {
  ok_http : 0 ≤ header_bytes l ∧ 0 ≤ body_bytes l;
  ok_global : 0 ≤ global cl ∧ 0 ≤ per_origin cl;
  ok_idle : 0 ≤ idle_global cl ∧ 0 ≤ idle_per_origin cl
}.
Lemma new_between l with_resolver with_tls b : limits_ok l → new l with_resolver with_tls cl = Ok b → Between [] [] b.
Proof.
  intros [Hh [Hg Ho] [Hi _]] Hnew. unfold new in Hnew. case_match; [done|]. injection Hnew as <-. split; [|done]. split.
  - split.
    + split; done.
    + split; [done|constructor].
    + split; cbn.
      * intros id slot. rewrite lookup_empty. split; [done|]. intros (t & Hx & _). by rewrite lookup_empty in Hx.
      * intros id key. rewrite lookup_empty. split; [done|]. intros (p & Hx & _). by rewrite lookup_empty in Hx.
      * intros key p Hx. by rewrite lookup_empty in Hx.
    + split; cbn; try done. intros slot k. rewrite lookup_empty. split; [done|]. intros (x & Hx & _). by rewrite lookup_empty in Hx.
    + split; cbn; try done; intros *; try (by rewrite lookup_empty); try (by rewrite elem_of_nil).
  - exists no_history. split_and!; [apply new_inv|done|]. cbn. by intros ? ?%elem_of_nil.
Qed.

(** ** Sequences of calls *)

Definition returned (o : outcome Error OwnerReply) : Prop := match o with Ok _ | Err _ => True | _ => False end.

(** A call returns and keeps the books: what it answered is in the caller's
    hands, and what is gone was dropped by it. *)
Definition kept_books (c : OwnerCall) L I (x : outcome Error OwnerReply * Backend) : Prop :=
  returned x.1 ∧ ∃ gone, Between (submitted c ++ L) (answered_by (c, x.1) ++ gone ++ I) x.2 ∧ ∀ id, id ∈ gone → drops (c, x.1) id.

Lemma between_perm L I I' b : Between L I b → I' ≡ₚ I → Between L I' b.
Proof. intros [HS Hc] Hp. split; [by rewrite Hp|done]. Qed.

Lemma owner_call_spec c L I b :
  Between L I b → owner_call_ok c → (∀ id, id ∈ submitted c → id ∉ L) → kept_books c L I (run_owner_call c b).
Proof.
  intros HB Hok Hfresh. unfold kept_books, run_owner_call. destruct c as [id request at_|id request upload at_|id| |]; cbn [submitted] in *.
  - pose proof (submit_spec L I b id request at_ HB (Hfresh id ltac:(by left)) Hok) as Hs.
    unfold runs, wpx, mbind, M_bind in *. destruct (submit id request at_ b) as [[r|e| |] b']; try done. split; [done|]. exists []. split; [|by intros ? ?%elem_of_nil].
    cbn. by destruct r.
  - pose proof (submit_stream_spec L I b id request upload at_ HB (Hfresh id ltac:(by left)) Hok) as Hs.
    unfold runs, wpx, mbind, M_bind in *. destruct (submit_stream id request upload at_ b) as [[r|e| |] b']; try done. split; [done|].
    exists []. by split; [|intros ? ?%elem_of_nil].
  - pose proof (cancel_spec_owner L I b id HB) as Hs.
    unfold runs, wpx, mbind, M_bind in *. destruct (cancel id b) as [[r|e| |] b']; try done. split; [done|].
    destruct Hs as (gone & Hb & Hg & _). exists gone. by split.
  - pose proof (poll_spec_owner L I b HB) as Hs.
    unfold runs, wpx, mbind, M_bind in *. destruct (poll b) as [[l|e| |] b']; try done; (split; [done|]).
    + exists []. by split; [|intros ? ?%elem_of_nil].
    + destruct Hs as [gone Hb]. by exists gone.
  - pose proof (shutdown_spec L I b HB) as Hs.
    unfold runs, wpx, mbind, M_bind in *. destruct (shutdown b) as [[r|e| |] b']; try done. split; [done|].
    destruct Hs as (gone & Hb & _). by exists gone.
Qed.

Lemma run_owner_spec : ∀ cs L I b out b',
  Between L I b → Forall owner_call_ok cs → NoDup (concat (map submitted cs)) → (∀ id, id ∈ concat (map submitted cs) → id ∉ L) →
  run_owner cs b = (out, b') →
  Forall (λ x, returned x.2) out ∧
  ∃ gone, Between (concat (map submitted cs) ++ L) (concat (map answered_by out) ++ gone ++ I) b' ∧ ∀ id, id ∈ gone → ∃ x, x ∈ out ∧ drops x id.
Proof.
  induction cs as [|c cs IH]; intros L I b out b' HB Hok Hnd Hfresh Hrun; cbn in Hrun.
  - injection Hrun as <- <-. split; [constructor|]. exists []. by split; [|intros ? ?%elem_of_nil].
  - cbn in Hnd, Hfresh. apply Forall_cons in Hok as [Hc Hok]. apply NoDup_app in Hnd as (_ & Hd & Hnd).
    assert (H1 := owner_call_spec c L I b HB Hc (λ id Hin, Hfresh id ltac:(rewrite elem_of_app; by left))).
    destruct (run_owner_call c b) as [o b1]. destruct (run_owner cs b1) as [out2 b2] eqn:Hrun2. injection Hrun as <- <-.
    destruct H1 as [Hr1 (gone1 & HB1 & Hg1)]. cbn [fst snd] in *.
    destruct (IH _ _ _ out2 b2 HB1 Hok Hnd) as [Hr2 (gone2 & HB2 & Hg2)]; [|exact Hrun2|].
    + intros id Hin. rewrite elem_of_app. intros [Hx|Hx]; [by apply (Hd id)|]. apply (Hfresh id); [|done]. rewrite elem_of_app. by right.
    + split; [by constructor|]. exists (gone1 ++ gone2). split.
      * destruct HB2 as [HS Hcm]. split; [|done]. cbn [map concat].
        assert (HL : (submitted c ++ concat (map submitted cs)) ++ L ≡ₚ concat (map submitted cs) ++ submitted c ++ L) by perm. rewrite HL.
        eapply safe_perm; [exact HS|perm].
      * intros id [Hin|Hin]%elem_of_app; [exists (c, o); split; [by left|by apply Hg1]|].
        destruct (Hg2 _ Hin) as (x & Hx & Hdx). exists x. split; [by right|done].
Qed.

Lemma run_from_new l with_resolver with_tls cs b0 out b :
  limits_ok l → new l with_resolver with_tls cl = Ok b0 → Forall owner_call_ok cs → NoDup (concat (map submitted cs)) →
  run_owner cs b0 = (out, b) →
  Forall (λ x, returned x.2) out ∧
  ∃ gone, Between (concat (map submitted cs)) (concat (map answered_by out) ++ gone) b ∧ ∀ id, id ∈ gone → ∃ x, x ∈ out ∧ drops x id.
Proof.
  intros Hl Hnew Hok Hnd Hrun.
  destruct (run_owner_spec cs [] [] b0 out b (new_between _ _ _ _ Hl Hnew) Hok Hnd) as [Hr (gone & HB & Hg)]; [by intros ? _ ?%elem_of_nil|exact Hrun|].
  split; [done|]. exists gone. rewrite !app_nil_r in HB. by split.
Qed.

(** ** What is promised *)

Section promises.
Variables (l : HttpLimits) (with_resolver with_tls : bool) (cs : list OwnerCall).
Variables (b0 : Backend) (out : list (OwnerCall * outcome Error OwnerReply)) (b : Backend).
Hypothesis Hlimits : limits_ok l.
Hypothesis Hstart : new l with_resolver with_tls cl = Ok b0.
Hypothesis Hsized : Forall owner_call_ok cs.
Hypothesis Honce : NoDup (concat (map submitted cs)).
Hypothesis Hrun : run_owner cs b0 = (out, b).

(** C15: Whatever calls the connection owner gets, in any order, and whatever
    the network, the resolver, the TLS sessions, the decoders and the uploads
    answer, no call panics or hangs. After each sequence of calls the counter
    of connections is the number of connections held by transfers, lookups and
    idle connections together, the counter of each origin is the number it
    holds, and both are within their limits; the idle connections are as many
    as the idle counter says and within both of their limits. *)
Theorem connections_accounted :
  Forall (λ x, returned x.2) out ∧
  connection_count b = len (reserved b) ∧ connection_count b ≤ global cl ∧
  (∀ k, count_for b k = occ k (reserved b) ∧ count_for b k ≤ per_origin cl) ∧
  idle_count b = Z.of_nat (size (idle_slots b)) ∧ idle_count b ≤ idle_global cl ∧
  (∀ slot k, idle_slots b !! slot = Some k ↔ ∃ cs, idle b !! k = Some cs ∧ slot ∈ map i_slot cs) ∧
  (∀ k cs, idle b !! k = Some cs → NoDup (map i_slot cs) ∧ len cs ≤ idle_per_origin cl).
Proof.
  destruct (run_from_new _ _ _ _ _ _ _ Hlimits Hstart Hsized Honce Hrun) as [Hr (gone & [[[Hco _ _ Hpa _] _] _] & _)].
  split_and!; first [done|apply Hco|apply Hpa|idtac].
  intros k. split; [by rewrite (co_each _ _ _ Hco)|apply Hco].
Qed.

(** C16: Every request given to the owner is at every moment in exactly one
    place: waiting for a connection, being looked up, being exchanged, ended
    with a result that is not handed out yet, answered once to the caller or
    to its stream, or dropped; and a request is dropped without an answer only
    by cancelling it, by shutting down or by a poll that fails as a whole. *)
Theorem requests_end_once :
  ∃ gone,
    concat (map submitted cs) ≡ₚ
      placed b ++ map fst (pending_http_from_dns b) ++ concat (map answered_by out) ++ map fst (stream_log b) ++ gone ∧
    NoDup (concat (map answered_by out) ++ map fst (stream_log b)) ∧
    ∀ id, id ∈ gone → ∃ x, x ∈ out ∧ drops x id.
Proof.
  destruct (run_from_new _ _ _ _ _ _ _ Hlimits Hstart Hsized Honce Hrun) as [_ (gone & [[[_ [Ha Hn] _ _ _] _] Hc] & Hg)].
  unfold ended in Ha. rewrite Hc in Ha. exists gone. split_and!; [perm| |done].
  apply occ_nodup. intros x. pose proof (proj1 (occ_nodup _) Hn x). pose proof (proj1 (occ_perm _ _) Ha x) as Hx.
  autorewrite with occ in *. pose proof (occ_nonneg x gone). pose proof (occ_nonneg x (placed b)).
  pose proof (occ_nonneg x (map fst (pending_http_from_dns b))). unfold RequestId in *. lia.
Qed.

(** C17: A connection serves one key only: a transfer's key is the scheme,
    host, port and TLS verification of its request, its connection is
    encrypted exactly for https, is not idle, belongs to no other request and
    has carried only requests of that key; the same holds for the key under
    which a connection is kept for reuse. *)
Theorem connections_unshared :
  (∀ slot t, transfers b !! slot = Some t →
     key_ok (t_request t) (t_key t) ∧ encrypted_ok (t_tls t) (t_key t) ∧
     idle_slots b !! slot = None ∧ request_to_slot b !! t_request_id t = Some slot ∧
     (slot, t_key t) ∈ carried b ∧ ∀ k, (slot, k) ∈ carried b → k = t_key t) ∧
  (∀ k cs c, idle b !! k = Some cs → c ∈ cs →
     encrypted_ok (i_tls c) k ∧ (i_slot c, k) ∈ carried b ∧ ∀ k', (i_slot c, k') ∈ carried b → k' = k).
Proof.
  destruct (run_from_new _ _ _ _ _ _ _ Hlimits Hstart Hsized Honce Hrun) as [_ (gone & [[[_ _ [Hix _ _] Hpa Hso] _] _] & _)]. split.
  - intros slot t Ht. pose proof (so_transfers _ Hso _ _ Ht) as [_ ? ? _ _ _].
    split_and!; try done; [by apply (so_apart _ Hso _ _ Ht)|apply Hix; by exists t|by apply (so_carries _ Hso)|].
    intros k Hk. by apply (so_one_key _ Hso slot k _ Hk), (so_carries _ Hso).
  - intros k x c Hx Hc. assert (Hk : idle_slots b !! i_slot c = Some k).
    { apply (pa_slots _ _ Hpa). exists x. split; [done|]. apply list_elem_of_fmap. by exists c. }
    apply (so_carried _ Hso) in Hk. split_and!; [by apply (pa_tls _ _ Hpa k x)|done|]. intros k' Hk'. by apply (so_one_key _ Hso (i_slot c)).
Qed.
End promises.

End runs.

(** ** A run: two requests share a connection, one is looked up, one is
    rejected, one is cancelled and one waits *)

Module Sample.
#[local] Existing Instance target64.
Definition encode_bytes (l : list Z) : Z := Zpos (encode l).
Definition decode_bytes (z : Z) : list Z := default [] (decode (Z.to_pos z)).
#[local] Program Instance sample_sockets : Reactor.Sockets := {|
  Reactor.sk_tick := λ _, 5; Reactor.sk_connect := λ _ _, None; Reactor.sk_register := λ _, None;
  Reactor.sk_take_error := λ _, inr None;
  Reactor.sk_poll := λ n, inr [Reactor.mkReady 1 (15 <? n)%nat true false];
  Reactor.sk_write := λ _, [Reactor.Wrote 100000]; Reactor.sk_read := λ _, [Reactor.ReadBytes [7; 8; 9]];
  Reactor.sk_peek := λ _, Reactor.PeekBlocks; Reactor.sk_shutdown := λ _, None; Reactor.sk_charge := λ _, None;
  Reactor.arc_bytes := decode_bytes; Reactor.budget_is_limited := λ _, false |}.
Next Obligation. lia. Qed.
#[local] Program Instance sample_peers : HttpPeers := {|
  peers_clock := Build_Clock u64_max; peers_sockets := sample_sockets;
  NativeTls := unit; TlsSession := unit;
  tls_connection := λ _ _ _ _, inr tt; tls_start := λ _ t, (inr [], t);
  tls_receive := λ _ t b, (inr (mkTlsProgress [] b true false), t);
  tls_receive_streaming := λ _ t b, (inr (mkTlsStreamProgress [] true false), t);
  tls_retain_stream_progress := λ _ t b, (inr (mkTlsStreamProgress [] true false), t);
  tls_begin_request := λ _ t _, (inr tt, t); tls_pump_request_body := λ _ t b _, (inr (b, len b), t);
  tls_is_handshaking := λ _, false; tls_handshake_in_worker := λ _, false; tls_request_fully_encrypted := λ _, true;
  tls_streaming_read_allowance := λ _ n, n; tls_retained_plaintext := λ _, [];
  tls_consume_retained_plaintext := λ t n, if n =? 0 then (inr tt, t) else (inl (error_new ErrorKind.Internal "consumed"), t);
  tls_take_handshake := λ t, (Some tt, t); tls_restore_handshake := λ t _, t;
  workers_finished := λ _, []; workers_has_capacity := λ _, true; workers_submit := λ _, None;
  BufferedDecoder := unit; StreamDecoder := unit;
  decoder_new := λ _ _ _, tt;
  decoder_ingest := λ _ d b, (inr (Buffered.mkProgress (Some (Buffered.mkResponse 200 [] (Budget.buffer_new false))) (len b) true), d);
  decoder_eof := λ _ d, (inr None, d);
  stream_new := λ _ _ _, tt; stream_ingest := λ _ d b, (inr (Streaming.ProgressComplete (len b) true true), d);
  stream_decide_head := λ _ d _, (inr (Streaming.mkDecision false true), d); stream_eof := λ _ d, (inr None, d);
  stream_take_response := λ _ d, (inr tt, d); stream_socket_capacity := λ _ _, 100; stream_consumer_blocked := λ _ _, false;
  UploadBody := unit; upload_framing := λ _, Upload.Chunked; upload_queue_capacity := λ _, 100;
  upload_wires := λ _ _, []; upload_is_complete := λ _ _, true;
  resolver_take_idle_http_eviction := λ _, inr None; resolver_drain := λ _, inr [(1, inr [V4 1 2 3 4])];
  resolver_resolve := λ _ _, None; resolver_cancel := λ _, None;
  hash_order := λ _ _ l, l; url_parses := λ _, true; url_join := λ _ l, Some l;
  body_owner := λ r, encode_bytes (bytes (body r)); body_budget := λ _, None |}.
Next Obligation. cbn. intros. simplify_eq. unfold len. lia. Qed.
Next Obligation. cbn. intros t n t'. destruct (n =? 0) eqn:E; intros [= ]. apply Z.eqb_eq in E. subst. intros _. split; [done|]. done. Qed.
Next Obligation. cbn. intros. simplify_eq. unfold len. lia. Qed.
Next Obligation. cbn. lia. Qed.
Next Obligation. cbn. lia. Qed.
Next Obligation. cbn. lia. Qed.
Next Obligation. intros. done. Qed.
Next Obligation. intros r. change (decode_bytes (encode_bytes (bytes (body r))) = bytes (body r)). unfold decode_bytes, encode_bytes. change (Z.to_pos (Z.pos ?x)) with x. by rewrite decode_encode. Qed.

Definition sample_limits : HttpLimits := mkLimits 1000 1000 100.
Definition sample_connections : ConnectionLimits := mkConnectionLimits 2 1 1 1 1000000.
Definition sample_request (u : string) : Request := mkRequest Get (bs u) [] (Budget.buffer_new false) default_options.
Definition sample_calls : list OwnerCall :=
  [Call_submit 1 (sample_request "http://1.2.3.4/x") 0; Call_poll; Call_poll; Call_submit 2 (sample_request "http://1.2.3.4/y") 0;
   Call_submit_stream 3 (sample_request "http://host/y") None 0; Call_submit 4 (sample_request "ftp://x") 0; Call_submit 5 (sample_request "http://9.9.9.9/") 0;
   Call_cancel 5; Call_submit 6 (sample_request "https://host/") 0].
Definition sample_start : Backend :=
  match new sample_limits true true sample_connections with
  | Ok b => b
  | _ => mkBackend Reactor.new [] ∅ true true sample_limits ∅ ∅ ∅ ∅ [] 1 ∅ ∅ 0 0 0 ∅ [] sample_connections [] [] [] 0
  end.
Definition sample_out : list (OwnerCall * outcome Error OwnerReply) := (run_owner sample_calls sample_start).1.
Definition sample_end : Backend := (run_owner sample_calls sample_start).2.

Lemma sample_limits_ok : limits_ok (cl := sample_connections) sample_limits.
Proof. split; cbn; lia. Qed.
Lemma sample_started : new sample_limits true true sample_connections = Ok sample_start.
Proof. reflexivity. Qed.
Lemma sample_calls_ok : Forall owner_call_ok sample_calls.
Proof. repeat constructor; unfold owner_call_ok, sized; vm_compute; congruence. Qed.
Lemma sample_calls_once : NoDup (concat (map submitted sample_calls)).
Proof. apply (bool_decide_unpack _). vm_compute. constructor. Qed.
Lemma sample_ran : run_owner sample_calls sample_start = (sample_out, sample_end).
Proof. apply surjective_pairing. Qed.
End Sample.
Import Sample.

Example connections_accounted_witness :
  connection_count sample_end = 2 ∧ connection_count sample_end = len (reserved sample_end).
Proof.
  split; [by vm_compute|].
  destruct (connections_accounted (cl := sample_connections) sample_limits true true sample_calls sample_start sample_out sample_end
              sample_limits_ok sample_started sample_calls_ok sample_calls_once sample_ran) as (_ & Ht & _). exact Ht.
Defined.
Example requests_end_once_witness :
  concat (map answered_by sample_out) = [1; 4] ∧
  NoDup (concat (map answered_by sample_out) ++ map fst (stream_log sample_end)).
Proof.
  split; [by vm_compute|].
  destruct (requests_end_once (cl := sample_connections) sample_limits true true sample_calls sample_start sample_out sample_end
              sample_limits_ok sample_started sample_calls_ok sample_calls_once sample_ran) as (gone & _ & Hn & _). exact Hn.
Defined.
Example connections_unshared_witness :
  map fst (carried sample_end) = [Reactor.mkSlotId 0 1; Reactor.mkSlotId 0 1] ∧
  ∀ t, transfers sample_end !! Reactor.mkSlotId 0 1 = Some t →
       key_ok (t_request t) (t_key t) ∧ ∀ k, (Reactor.mkSlotId 0 1, k) ∈ carried sample_end → k = t_key t.
Proof.
  split; [by vm_compute|]. intros t Ht.
  destruct (connections_unshared (cl := sample_connections) sample_limits true true sample_calls sample_start sample_out sample_end
              sample_limits_ok sample_started sample_calls_ok sample_calls_once sample_ran) as [Hu _].
  destruct (Hu _ t Ht) as (Hk & _ & _ & _ & _ & Hc). split; [exact Hk|exact Hc].
Defined.
