(* ===== verification/SmtpWire.v ===== *)
(** * SMTP replies, message data and request validation ([smtp/src])

    [Reply] is [reply.rs], [Data] is [data.rs] and [Requests] is
    [request.rs]: the incremental reply parser, the dot-stuffing encoder and
    the checks that a mailbox, an EHLO name and a prepared message pass. *)

From stdpp Require Import base list strings.
From Stdlib Require Import ZArith Lia.
From S2P Require Import Prelude Errors.

Module Reply.

Definition MAX_LINE : Z := 512.
Definition MAX_TOTAL : Z := 8 * 1024.
Definition MAX_LINES : Z := 32.

Definition text_byte (b : Z) : bool := (b =? HT) || in_range 32 126 b.

Record Reply := mkReply { code : Z; lines : list (list Z) }.
#[global] Instance Reply_eq_dec : EqDecision Reply.
Proof. solve_decision. Defined.

Record ReplySummary := mkSummary { sum_code : Z; sum_text : list Z }.
#[global] Instance ReplySummary_eq_dec : EqDecision ReplySummary.
Proof. solve_decision. Defined.

(** [lines.join("\n")] *)
Fixpoint join_lines (ls : list (list Z)) : list Z :=
  match ls with
  | [] => []
  | [l] => l
  | l :: rest => l ++ LF :: join_lines rest
  end.
Definition summary (r : Reply) : ReplySummary := mkSummary (code r) (join_lines (lines r)).

(** [line.split_ascii_whitespace().next()] *)
Fixpoint take_word (l : list Z) : list Z :=
  match l with
  | [] => []
  | b :: l' => if is_ascii_whitespace b then [] else b :: take_word l'
  end.
Definition first_word (l : list Z) : option (list Z) :=
  match take_word (trim_start is_ascii_whitespace l) with [] => None | w => Some w end.

Definition advertises (extension : list Z) (r : Reply) : bool :=
  existsb (λ line, match first_word line with
                   | Some word => eq_ignore_ascii_case word extension
                   | None => false
                   end) (drop 1 (lines r)).

Record ReplyParser := mkParser {
  line : list Z; parsed : list (list Z); first_code : option Z; total : Z
}.
Definition parser_default : ReplyParser := mkParser [] [] None 0.

Definition set_line (l : list Z) (p : ReplyParser) : ReplyParser :=
  mkParser l (parsed p) (first_code p) (total p).

Section with_target.
Context {tgt : Target}.

Definition MP := M ReplyParser unit.

(** The part of [push] after the line feed. The text bytes are ASCII, on which
    [String::from_utf8] does not fail. *)
Definition finish_line : MP (option Reply) :=
  p ← get;
  let bytes := line p in
  if len bytes <? 5 then fail tt
  else
  n ← lift (usub (len bytes) 2);
  before ← lift (index bytes n);
  if negb (before =? CR) then fail tt
  else
    let bare_code := len bytes =? 5 in
    b0 ← lift (index bytes 0);
    b1 ← lift (index bytes 1);
    b2 ← lift (index bytes 2);
    b3 ← lift (index bytes 3);
    if negb (in_range 50 53 b0) || negb (in_range 48 53 b1) || negb (is_ascii_digit b2)
       || (negb bare_code && negb ((b3 =? 45) || (b3 =? 32)))
    then fail tt
    else
      text ← (if bare_code then mret [] else lift (slice bytes 4 n));
      if negb (forallb text_byte text) then fail tt
      else
        let code := (b0 - 48) * 100 + (b1 - 48) * 10 + (b2 - 48) in
        if match first_code p with Some first => negb (first =? code) | None => false end then fail tt
        else
          _ ← modify (λ p, mkParser (line p) (parsed p) (Some code) (total p));
          if MAX_LINES <=? len (parsed p) then fail tt
          else
            let final_line := bare_code || (b3 =? 32) in
            let lines := parsed p ++ [text] in
            if negb final_line
            then _ ← put (mkParser [] lines (Some code) (total p)); mret None
            else _ ← put (mkParser [] [] None 0); mret (Some (mkReply code lines)).

Definition push (byte : Z) : MP (option Reply) :=
  p ← get;
  let total' := saturating_add usize_max (total p) 1 in
  _ ← put (mkParser (line p) (parsed p) (first_code p) total');
  if (MAX_TOTAL <? total') || (MAX_LINE <=? len (line p)) then fail tt
  else
    _ ← modify (λ p, set_line (line p ++ [byte]) p);
    if negb (byte =? LF)
    then if negb (byte =? CR) && negb (text_byte byte) then fail tt else mret None
    else finish_line.
End with_target.
End Reply.

Module Data.

Record DataEncoder := mkEncoder {
  cursor : Z; suffix_len : Z; at_line_start : bool; extra_dot_pending : bool
}.

Definition data_new (message : list Z) : DataEncoder :=
  mkEncoder 0 (if ends_with CRLF message then 0 else 2) true false.

Definition finished (message : list Z) (d : DataEncoder) : bool :=
  (cursor d =? len message + suffix_len d) && negb (extra_dot_pending d).

(** The byte at the cursor: of the message, or of the CRLF after it. *)
Definition data_byte (message : list Z) (at_ : Z) : Z :=
  match byte_get message at_ with
  | Some b => b
  | None => if at_ =? len message then CR else LF
  end.

(** [while chunk.len() < limit && !self.finished(message)]: every pass pushes
    one byte, so [room] is the rest of the limit. *)
Fixpoint next_chunk (room : nat) (message : list Z) (d : DataEncoder) : list Z * DataEncoder :=
  match room with
  | O => ([], d)
  | S room' =>
      if finished message d then ([], d)
      else
        let byte := data_byte message (cursor d) in
        if at_line_start d && (byte =? 46) && negb (extra_dot_pending d)
        then
          let '(rest, d') := next_chunk room' message (mkEncoder (cursor d) (suffix_len d) false true) in
          (46 :: rest, d')
        else
          let '(rest, d') := next_chunk room' message
                               (mkEncoder (cursor d + 1) (suffix_len d) (byte =? LF) false) in
          (byte :: rest, d')
  end.
End Data.

Module Requests.

Inductive SmtpErrorKind := InvalidRequest | WrongMode | Transport.

(** [TransportDiagnostic] of [client.rs]: the classification of an error. *)
Record TransportDiagnostic := mkDiagnostic {
  d_kind : ErrorKind.t; d_transport_stage : option TransportStage.t;
  d_tls_failure : option TlsFailure.t; d_dns_failure : option DnsFailure.t;
  d_timeout_kind : option TimeoutKind.t; d_limit_kind : option LimitKind.t
}.
#[global] Instance TransportDiagnostic_eq_dec : EqDecision TransportDiagnostic.
Proof. solve_decision. Defined.
Definition diagnostic_from (e : Error) : TransportDiagnostic :=
  mkDiagnostic (kind e) (transport_stage e) (tls_failure e) (dns_failure e) (timeout_kind e) (limit_kind e).

Record SmtpError := mkSmtpError {
  error_kind : SmtpErrorKind; detail : string; error_diagnostic : option TransportDiagnostic
}.
Definition smtp_error_new (k : SmtpErrorKind) (d : string) : SmtpError := mkSmtpError k d None.
Definition smtp_error_transport (e : Error) (d : string) : SmtpError :=
  mkSmtpError Transport d (Some (diagnostic_from e)).
Definition invalid (d : string) : SmtpError := smtp_error_new InvalidRequest d.

Definition MAX_MESSAGE_BYTES : Z := 8 * 1024 * 1024.
Definition MAX_RECIPIENTS : Z := 100.

(** ** Domains and mailboxes *)

Definition label_byte (b : Z) : bool := is_ascii_alphanumeric b || (b =? 45).
Definition label_ok (label : list Z) : bool :=
  match label with
  | [] => false
  | first :: _ =>
      (len label <=? 63) && is_ascii_alphanumeric first
      && is_ascii_alphanumeric (List.last label first) && forallb label_byte label
  end.

Definition validate_domain (domain : list Z) : outcome SmtpError unit :=
  if bool_decide (domain = []) || (253 <? len domain) || negb (is_ascii domain)
  then Err (invalid "invalid SMTP domain")
  else if forallb label_ok (split_on 46 domain) then Ok tt
  else Err (invalid "invalid SMTP domain label").

Definition local_symbols : list Z := bs "!#$%&'*+/=?^_`{|}~-".

(** The loop over the local part. *)
Fixpoint local_ok (previous_dot : bool) (l : list Z) : bool :=
  match l with
  | [] => true
  | b :: l' =>
      if b =? 46 then if previous_dot then false else local_ok true l'
      else (is_ascii_alphanumeric b || contains b local_symbols) && local_ok false l'
  end.

Definition validate_mailbox (address : list Z) : outcome SmtpError unit :=
  if bool_decide (address = []) || (254 <? len address) || negb (is_ascii address)
  then Err (invalid "invalid SMTP mailbox length or encoding")
  else match rsplit_once 64 address with
  | None => Err (invalid "SMTP mailbox must contain one @")
  | Some (local, domain) =>
      if bool_decide (local = []) || (64 <? len local) || starts_with (bs ".") local
         || ends_with (bs ".") local || negb (local_ok false local)
      then Err (invalid "unsupported SMTP local part")
      else validate_domain domain
  end.

Record Envelope := mkEnvelope { from : list Z; recipients : list (list Z) }.

(** [recipients.iter().map(validate).collect()] stops at the first error. *)
Fixpoint validate_all (addresses : list (list Z)) : outcome SmtpError unit :=
  match addresses with
  | [] => Ok tt
  | a :: rest => _ ← validate_mailbox a; validate_all rest
  end.

Definition envelope_new (from : list Z) (recipients : list (list Z)) : outcome SmtpError Envelope :=
  _ ← (if bool_decide (from = []) then Ok tt else validate_mailbox from);
  if bool_decide (recipients = []) || (MAX_RECIPIENTS <? len recipients)
  then Err (invalid "SMTP requires 1 to 100 recipients")
  else _ ← validate_all recipients; Ok (mkEnvelope from recipients).

(** ** EHLO names

    [Ipv4Addr::from_str] and [Ipv6Addr::from_str]: whether they accept. *)

Definition octet_ok (l : list Z) : bool :=
  match l with
  | [] => false
  | [d] => is_ascii_digit d
  | d :: _ => negb (d =? 48) && (len l <=? 3) && bool_decide (is_Some (parse_digits 255 0 l))
  end.
Definition ipv4_ok (l : list Z) : bool :=
  let parts := split_on 46 l in (length parts =? 4)%nat && forallb octet_ok parts.

Definition is_hex (b : Z) : bool := is_ascii_digit b || in_range 65 70 b || in_range 97 102 b.
(** A group is one to four hexadecimal digits. *)
Definition group_ok (l : list Z) : bool := in_range 1 4 (len l) && forallb is_hex l.

(** The number of 16-bit groups of colon-separated parts, where the last part
    may be an IPv4 address, which counts twice. *)
Fixpoint groups (parts : list (list Z)) : option Z :=
  match parts with
  | [] => Some 0
  | [last] => if group_ok last then Some 1 else if ipv4_ok last then Some 2 else None
  | part :: rest => if group_ok part then (λ n, n + 1) <$> groups rest else None
  end.
Definition side_groups (side : list Z) : option Z :=
  if bool_decide (side = []) then Some 0 else groups (split_on 58 side).

(** Eight groups, or at most seven around one [::], of which the part before
    it has no IPv4 address. *)
Definition ipv6_ok (l : list Z) : bool :=
  match split_once (bs "::") l with
  | None => bool_decide (side_groups l = Some 8)
  | Some (head, tail) =>
      match side_groups head, side_groups tail with
      | Some h, Some t => negb (contains 46 head) && (h + t <=? 7)
      | _, _ => false
      end
  end.

Definition literal_ok (name : list Z) : bool :=
  match strip_prefix (bs "[") name with
  | None => false
  | Some part =>
      match strip_suffix (bs "]") part with
      | None => false
      | Some literal =>
          ipv4_ok literal
          || ((5 <=? len literal) && eq_ignore_ascii_case (take 5 literal) (bs "IPv6:")
              && ipv6_ok (drop 5 literal))
      end
  end.

Definition validate_ehlo (name : list Z) : outcome SmtpError unit :=
  if 255 <? len name then Err (invalid "SMTP EHLO identity is too long")
  else if literal_ok name then Ok tt
  else validate_domain name.

(** ** Prepared messages *)

Record Lines := mkLines { header_count : Z; last_had_header : bool }.

Section with_target.
Context {tgt : Target}.

Definition validate_line (content : list Z) (in_headers : bool) (s : Lines) : outcome SmtpError Lines :=
  if 998 <? len content then Err (invalid "prepared SMTP line exceeds 998 octets")
  else if negb in_headers || bool_decide (content = []) then Ok s
  else
    first ← index content 0;
    if (first =? SP) || (first =? HT) then
      if negb (last_had_header s) then Err (invalid "SMTP header continuation has no preceding field")
      else Ok s
    else match position (Z.eqb 58) content with
    | None => Err (invalid "SMTP header field lacks a colon")
    | Some colon =>
        if (colon =? 0)%nat || negb (forallb (λ b, in_range 33 126 b && negb (b =? 58)) (take colon content))
        then Err (invalid "SMTP header field name is invalid")
        else n ← uadd (header_count s) 1; Ok (mkLines n true)
    end.

(** The [while index < message.len()] loop: [rest] is the message from
    [index] on. *)
Fixpoint message_loop (message rest : list Z) (index_ line_start : Z) (in_headers : bool) (s : Lines)
  : outcome SmtpError (Z * bool * Lines) :=
  match rest with
  | [] => Ok (line_start, in_headers, s)
  | byte :: rest' =>
      if byte =? LF then
        before ← (if index_ =? 0 then Ok 0 else index message (index_ - 1));
        if (index_ =? 0) || negb (before =? CR)
        then Err (invalid "prepared SMTP message requires CRLF lines")
        else
          content ← slice message line_start (index_ - 1);
          s ← validate_line content in_headers s;
          message_loop message rest' (index_ + 1) (index_ + 1)
            (in_headers && negb (bool_decide (content = []))) s
      else if byte =? CR then
        after ← (if len message <=? index_ + 1 then Ok 0 else index message (index_ + 1));
        if (len message <=? index_ + 1) || negb (after =? LF)
        then Err (invalid "prepared SMTP message contains a bare CR")
        else message_loop message rest' (index_ + 1) line_start in_headers s
      else if ((byte <? 32) && negb (byte =? HT)) || (byte =? 127)
      then Err (invalid "prepared SMTP message contains a control byte")
      else message_loop message rest' (index_ + 1) line_start in_headers s
  end.

Definition validate_message (message : list Z) (capacity : Z) : outcome SmtpError unit :=
  let suffix := if ends_with CRLF message then 0 else 2 in
  if (MAX_MESSAGE_BYTES <? capacity)
     || (MAX_MESSAGE_BYTES <? saturating_add usize_max (len message) suffix)
  then Err (invalid "prepared SMTP message exceeds 8 MiB allocation or length")
  else if bool_decide (message = []) || negb (is_ascii message) || contains 0 message
  then Err (invalid "prepared SMTP message must be seven-bit and nonempty")
  else
    '(line_start, in_headers, s) ← message_loop message message 0 0 true (mkLines 0 false);
    s ← (if line_start <? len message
         then content ← slice message line_start (len message); validate_line content in_headers s
         else Ok s);
    if in_headers || (header_count s =? 0)
    then Err (invalid "prepared SMTP message requires headers and a blank separator")
    else Ok tt.
End with_target.
End Requests.
