(* ===== verification/SmtpWireProofs.v ===== *)
(** * Correctness of SMTP data, replies and validation

    The encoder's chunks are the dot-stuffed message however it is cut, and a
    receiver that follows RFC 5321 gets the message back; the reply parser
    stays within its bounds and reads printed replies back. *)

From stdpp Require Import base list strings.
From Stdlib Require Import ZArith Lia.
From S2P Require Import Prelude Errors SmtpWire.

#[local] Arguments len : simpl never.

(** ** Dot stuffing *)

Module DataProofs.
Import Data.

(** The reference: a dot at the start of a line is doubled. *)
Fixpoint stuff (line_start : bool) (l : list Z) : list Z :=
  match l with
  | [] => []
  | b :: l' => (if line_start && (b =? 46) then [46; b] else [b]) ++ stuff (b =? LF) l'
  end.

(** The message with the CRLF the encoder adds when it does not end in one. *)
Definition padded (message : list Z) : list Z :=
  message ++ (if ends_with CRLF message then [] else CRLF).

Section message.
Context (message : list Z).

Definition wf_encoder (d : DataEncoder) : Prop :=
  0 ≤ cursor d ≤ len (padded message) ∧ suffix_len d = len (padded message) - len message ∧
  (extra_dot_pending d = true → at_line_start d = false ∧ cursor d < len (padded message)).

(** What is left to send. *)
Definition remaining (d : DataEncoder) : list Z :=
  stuff (at_line_start d) (drop (Z.to_nat (cursor d)) (padded message)).

Lemma data_byte_padded d :
  wf_encoder d → cursor d < len (padded message) →
  drop (Z.to_nat (cursor d)) (padded message)
    = data_byte message (cursor d) :: drop (Z.to_nat (cursor d + 1)) (padded message).
Proof.
  intros (Hc & Hs & _) Hlt. replace (Z.to_nat (cursor d + 1)) with (S (Z.to_nat (cursor d))) by lia.
  apply drop_S. unfold data_byte, byte_get, padded in *. rewrite (proj2 (Z.ltb_ge _ _)) by lia.
  destruct (message !! Z.to_nat (cursor d)) as [b|] eqn:Hb; [by apply lookup_app_l_Some|].
  apply lookup_ge_None in Hb. rewrite lookup_app_r by lia. unfold len in *.
  destruct (ends_with CRLF message); rewrite length_app in *; cbn in Hlt; [lia|].
  destruct (Z.eqb_spec (cursor d) (Z.of_nat (length message))) as [->|].
  - by rewrite Nat2Z.id, Nat.sub_diag.
  - replace (Z.to_nat (cursor d) - length message)%nat with 1%nat by lia. done.
Qed.

Lemma finished_spec d :
  wf_encoder d → finished message d = true ↔ remaining d = [].
Proof.
  intros Hwf. pose proof Hwf as (Hc & Hs & Hx). unfold finished, remaining. rewrite Hs.
  replace (len message + (len (padded message) - len message)) with (len (padded message)) by lia.
  destruct (Z.eqb_spec (cursor d) (len (padded message))) as [He|Hne]; cbn [andb].
  - rewrite He, to_nat_len, drop_all. cbn. split; [done|].
    intros _. destruct (extra_dot_pending d) eqn:Hp; [|done]. destruct (Hx eq_refl). lia.
  - split; [done|]. rewrite data_byte_padded by (done || lia). cbn. by destruct (_ && _).
Qed.

Lemma encoder_chunk_spec room d out d' :
  wf_encoder d → next_chunk room message d = (out, d') →
  out ++ remaining d' = remaining d ∧ wf_encoder d' ∧ length out = (room `min` length (remaining d))%nat.
Proof.
  revert d out d'. induction room as [|room IH]; intros d out d' Hwf; cbn [next_chunk].
  { intros [= <- <-]. by split_and!. }
  destruct (finished message d) eqn:Hfin.
  { intros [= <- <-]. apply finished_spec in Hfin; [|done]. by rewrite Hfin. }
  assert (Hlt : cursor d < len (padded message)).
  { destruct (decide (cursor d < len (padded message))); [done|]. exfalso.
    assert (remaining d = []) as Hr; [|apply finished_spec in Hr; [congruence|done]].
    unfold remaining. rewrite drop_ge; [done|]. unfold len in *. lia. }
  pose proof (data_byte_padded d Hwf Hlt) as Hdrop. pose proof Hwf as (Hc & Hs & Hx).
  set (byte := data_byte message (cursor d)) in *.
  assert (Hr : remaining d = (if at_line_start d && (byte =? 46) then [46; byte] else [byte])
    ++ stuff (byte =? LF) (drop (Z.to_nat (cursor d + 1)) (padded message)))
    by (unfold remaining; by rewrite Hdrop).
  rewrite Hr.
  destruct (at_line_start d && (byte =? 46) && negb (extra_dot_pending d)) eqn:Hdot.
  - destruct (next_chunk room message _) as [rest d1] eqn:Hrec. intros [= <- <-].
    apply IH in Hrec as (Happ & Hwf' & Hlen); [|by split_and!; cbn; try lia].
    apply andb_true_iff in Hdot as [Hd _]. rewrite Hd. unfold remaining in Happ, Hlen. cbn [cursor at_line_start] in Happ, Hlen.
    rewrite Hdrop in Happ, Hlen. cbn [stuff andb app length] in *.
    apply andb_true_iff in Hd as [_ He%Z.eqb_eq]. rewrite He in *. split_and!; [|done|].
    + f_equal. exact Happ.
    + rewrite Hlen. lia.
  - destruct (next_chunk room message _) as [rest d1] eqn:Hrec. intros [= <- <-].
    apply IH in Hrec as (Happ & Hwf' & Hlen); [|split_and!; cbn; try done; lia].
    assert (at_line_start d && (byte =? 46) = false) as ->.
    { destruct (extra_dot_pending d) eqn:Hp; [destruct (Hx eq_refl) as [-> _]; done|].
      by rewrite andb_true_r in Hdot. }
    unfold remaining in Happ, Hlen. cbn [cursor at_line_start] in Happ, Hlen. cbn [app length] in *.
    split_and!; [|done|].
    + f_equal. exact Happ.
    + rewrite Hlen. lia.
Qed.

(** The chunks for a list of limits. *)
Fixpoint chunks (limits : list nat) (d : DataEncoder) : list Z * DataEncoder :=
  match limits with
  | [] => ([], d)
  | n :: rest =>
      let '(out, d1) := next_chunk n message d in
      let '(more, d2) := chunks rest d1 in (out ++ more, d2)
  end.

Lemma chunks_spec limits d out d' :
  wf_encoder d → chunks limits d = (out, d') →
  out ++ remaining d' = remaining d ∧ wf_encoder d' ∧
  length out = (sum_list limits `min` length (remaining d))%nat.
Proof.
  revert d out. induction limits as [|n limits IH]; intros d out Hwf; cbn [chunks].
  { intros [= <- <-]. by split_and!. }
  destruct (next_chunk n message d) as [o1 d1] eqn:H1. destruct (chunks limits d1) as [o2 d2] eqn:H2.
  intros [= <- <-]. apply encoder_chunk_spec in H1 as (Ha1 & Hw1 & Hl1); [|done].
  apply IH in H2 as (Ha2 & Hw2 & Hl2); [|done]. split_and!; [|done|].
  - by rewrite <-app_assoc, Ha2.
  - apply (f_equal length) in Ha1. rewrite length_app in *.
    change (sum_list (n :: limits)) with (n + sum_list limits)%nat. lia.
Qed.

Lemma new_wf : wf_encoder (data_new message) ∧ remaining (data_new message) = stuff true (padded message).
Proof.
  split; [|done]. unfold wf_encoder, data_new, padded. cbn. pose proof (len_nonneg message).
  destruct (ends_with CRLF message); rewrite len_app; change (len CRLF) with 2; change (len []) with 0;
    split_and!; done || lia.
Qed.

(** The DATA phase sends the dot-stuffed message exactly. Whatever limits
    the transport's send window gives the encoder, chunk after chunk, the
    bytes sent are a prefix of the message (completed to a final CRLF) with
    every line-initial dot doubled, as long a prefix as the limits allow, and
    the encoder says it is finished exactly when all of it was sent. *)
Theorem data_encoding_exact limits :
  let wire := stuff true (padded message) in
  let '(out, d) := chunks limits (data_new message) in
  out = take (sum_list limits) wire ∧
  (finished message d = true ↔ (length wire ≤ sum_list limits)%nat).
Proof.
  cbv zeta. destruct (chunks limits (data_new message)) as [out d] eqn:Hc.
  destruct new_wf as [Hwf Hr].
  apply chunks_spec in Hc as (Happ & Hwf' & Hlen); [|done]. rewrite Hr in Happ, Hlen. split.
  - rewrite <-Happ in Hlen |- *. rewrite length_app in Hlen. rewrite take_app. rewrite take_ge by lia.
    destruct (remaining d) eqn:He; [by rewrite take_nil, app_nil_r|]. cbn in Hlen.
    replace (sum_list limits - length out)%nat with 0%nat by lia. by rewrite app_nil_r.
  - rewrite (finished_spec d Hwf'). rewrite <-Happ, length_app in Hlen |- *.
    destruct (remaining d); cbn in *; split; intros; (done || lia).
Qed.
End message.
End DataProofs.


(** ** Prepared messages *)

Module MessageProofs.
Import Data Requests DataProofs.

(** A list of lines as a byte string. *)
Definition joined (ls : list (list Z)) : list Z := concat (map (λ l, l ++ CRLF) ls).

(** Text of a line: no CR, no LF and no control byte but the tab. *)
Definition clean (l : list Z) : Prop := Forall (λ b, b = HT ∨ 32 ≤ b < 127) l.
Definition line_ok (l : list Z) : Prop := clean l ∧ len l ≤ 998.

(** A header field: a nonempty printable name, then a colon. *)
Definition field_line (l : list Z) : Prop :=
  ∃ name value, l = name ++ 58 :: value ∧ name ≠ [] ∧ Forall (λ b, 33 ≤ b ≤ 126 ∧ b ≠ 58) name.
(** A folded line continues the field before it. *)
Definition continuation (l : list Z) : Prop := ∃ b l', l = b :: l' ∧ (b = SP ∨ b = HT).
(** A header block: fields and their continuations, a field first. *)
Definition headers_ok (hs : list (list Z)) : Prop :=
  Forall (λ l, field_line l ∨ continuation l) hs ∧ ∀ l, head hs = Some l → field_line l.

Lemma joined_app a b : joined (a ++ b) = joined a ++ joined b.
Proof. unfold joined. by rewrite map_app, concat_app. Qed.

Lemma joined_one l : joined [l] = l ++ CRLF.
Proof. unfold joined. cbn. by rewrite app_nil_r. Qed.

Lemma clean_CR l : clean l → CR ∉ l.
Proof. intros H Hin. destruct (Forall_elem _ _ _ H Hin) as [|]; [done|unfold CR in *; lia]. Qed.
Lemma clean_LF l : clean l → LF ∉ l.
Proof. intros H Hin. destruct (Forall_elem _ _ _ H Hin) as [|]; [done|unfold LF in *; lia]. Qed.

(** The lines read so far, against the flags of the loop. *)
Definition lines_inv (ls : list (list Z)) (in_headers : bool) (s : Lines) : Prop :=
  Forall line_ok ls ∧ 0 ≤ header_count s ≤ len ls ∧
  ∃ hs, headers_ok hs ∧ (last_had_header s = true ↔ hs ≠ []) ∧ (header_count s = 0 ↔ hs = []) ∧
    if in_headers then ls = hs else ∃ body, ls = hs ++ [] :: body.

Section with_target.
Context {tgt : Target}.

Lemma validate_line_spec ls content in_headers s :
  lines_inv ls in_headers s → clean content → len ls ≤ MAX_MESSAGE_BYTES →
  owp (validate_line content in_headers s)
    (λ s', lines_inv (ls ++ [content]) (in_headers && negb (bool_decide (content = []))) s' ∧
           (content = [] → s' = s) ∧ len content ≤ 998)
    (λ _, True).
Proof.
  intros (Hok & Hc & hs & Hh & Hl & Hn & Hshape) Hcl Hb. unfold validate_line.
  assert (Hlen : len (ls ++ [content]) = len ls + 1) by (rewrite len_app; done).
  zcase; [done|]. assert (Hok' : Forall line_ok (ls ++ [content])) by (apply Forall_app; split; [done|]; by repeat constructor).
  destruct in_headers; cbn [negb andb orb].
  2:{ wp_go. split_and!; [|done|done]. split_and!; [done|lia|lia|]. exists hs. split_and!; try done.
      destruct Hshape as [body ->]. exists (body ++ [content]). by rewrite <-app_assoc. }
  subst hs. destruct (bool_decide_reflect (content = [])) as [->|Hne]; cbn [negb].
  { wp_go. split_and!; [|done|done]. split_and!; [done|lia|lia|]. exists ls. split_and!; try done. by exists []. }
  destruct content as [|first content]; [done|]. change (@index SmtpError (first :: content) 0) with (Ok first : outcome SmtpError Z).
  wp_go. zcase.
  - zcase; [|done]. wp_go. split_and!; [|done|done]. split_and!; [done|lia|lia|].
    exists (ls ++ [first :: content]). destruct Hh as [Hh1 Hh2].
    assert (ls ≠ []) by tauto. unfold headers_ok. split_and!.
    + apply Forall_app. split; [done|]. constructor; [|done]. right. exists first, content. split; [done|].
      apply orb_true_iff in Heqb as [?%Z.eqb_eq|?%Z.eqb_eq]; auto.
    + intros l Hd. apply Hh2. by destruct ls.
    + split; [|tauto]. intros _. by destruct ls.
    + split; [tauto|]. by destruct ls.
    + done.
  - destruct (position _ _) as [colon|] eqn:Hp; [|done]. zcase; [done|].
    apply orb_false_iff in Heqb0 as [Hz%Nat.eqb_neq Hname%negb_false_iff].
    apply owp_bind, owp_uadd.
    { pose proof usize_bounds. unfold MAX_MESSAGE_BYTES, u32_max in *. lia. }
    wp_go. split_and!; [|done|done]. split_and!; [done|cbn; lia|cbn; lia|].
    exists (ls ++ [first :: content]).
    assert (Hf : field_line (first :: content)).
    { destruct (position_drop _ _ _ Hp) as (b & Hb58%Z.eqb_eq & Hdrop). subst b.
      exists (take colon (first :: content)), (drop (S colon) (first :: content)). split_and!.
      - by rewrite <-Hdrop, take_drop.
      - by destruct colon.
      - rewrite forallb_forall in Hname. apply Forall_forall. intros b Hin. apply list_elem_of_In, Hname in Hin.
        unfold in_range in Hin. rewrite !andb_true_iff, negb_true_iff, !Z.leb_le, Z.eqb_neq in Hin. lia. }
    destruct Hh as [Hh1 Hh2]. unfold headers_ok. split_and!.
    + apply Forall_app. split; [done|]. constructor; [|done]. by left.
    + intros l. destruct ls as [|h ls]; [by intros [= <-]|]. apply Hh2.
    + split; [|done]. intros _. by destruct ls.
    + cbn. split; [lia|]. by destruct ls.
    + done.
Qed.

(** The bytes of the line being read: clean, or about to be ended. *)
Definition partial_ok (partial rest : list Z) : Prop :=
  clean partial ∨ ∃ text, partial = text ++ [CR] ∧ clean text ∧ head rest = Some LF.

Lemma last_not_CR ls partial : clean partial → last (joined ls ++ partial) ≠ Some CR.
Proof.
  intros Hcl. destruct partial as [|x partial _] using rev_ind.
  - rewrite app_nil_r. destruct ls as [|l ls _] using rev_ind; [done|].
    rewrite joined_app, joined_one. unfold CRLF. change [CR; LF] with ([CR] ++ [LF]).
    by rewrite !app_assoc, last_snoc.
  - rewrite app_assoc, last_snoc. intros [= ->]. apply (clean_CR _ Hcl). apply elem_of_app. right. apply list_elem_of_here.
Qed.

Lemma joined_len ls : 0 ≤ 2 * len ls ≤ len (joined ls).
Proof.
  induction ls as [|l ls IH]; [done|]. unfold joined in *. cbn [map concat].
  rewrite len_cons, !len_app. change (len CRLF) with 2. pose proof (len_nonneg l). lia.
Qed.

Lemma message_loop_spec rest message ls partial in_headers s :
  message = joined ls ++ partial ++ rest → is_ascii rest = true → partial_ok partial rest →
  len message ≤ MAX_MESSAGE_BYTES → lines_inv ls in_headers s →
  owp (message_loop message rest (len (joined ls ++ partial)) (len (joined ls)) in_headers s)
    (λ '(line_start, h, s'), ∃ ls' tail,
       message = joined ls' ++ tail ∧ clean tail ∧ line_start = len (joined ls') ∧ lines_inv ls' h s')
    (λ _, True).
Proof.
  intros Hm. revert ls partial Hm in_headers s.
  induction rest as [|byte rest IH]; intros ls partial Hm h s Hasc Hpart Hmax Hinv; cbn [message_loop].
  { apply owp_ok. exists ls, partial. rewrite app_nil_r in Hm. split_and!; try done.
    by destruct Hpart as [|(? & _ & _ & ?)]. }
  cbn in Hasc. apply andb_true_iff in Hasc as [Hb%Z.ltb_lt Hasc].
  assert (Hnext : len (joined ls ++ partial) + 1 = len (joined ls ++ partial ++ [byte]))
    by (rewrite app_assoc, (len_app (joined ls ++ partial)); done).
  assert (Hm' : message = joined ls ++ (partial ++ [byte]) ++ rest) by (by rewrite <-app_assoc).
  destruct (Z.eqb_spec byte LF) as [->|HnLF]; [|destruct (Z.eqb_spec byte CR) as [->|HnCR]].
  - destruct Hpart as [Hcl|(text & -> & Hcl & _)].
    + rewrite app_assoc in Hm. pose proof (last_not_CR ls partial Hcl) as Hlast.
      destruct (joined ls ++ partial) as [|x pre _] eqn:Hpre using rev_ind; [done|].
      rewrite len_app. change (len [x]) with 1. pose proof (len_nonneg pre).
      destruct (Z.eqb_spec (len pre + 1) 0); [lia|]. replace (len pre + 1 - 1) with (len pre) by lia.
      rewrite Hm, <-app_assoc. unfold index at 1. cbn [app]. rewrite byte_get_head. wp_go.
      rewrite last_snoc in Hlast. destruct (Z.eqb_spec x CR); [congruence|done].
    + rewrite (app_assoc (joined ls)), len_app. change (len [CR]) with 1.
      pose proof (len_nonneg (joined ls ++ text)).
      destruct (Z.eqb_spec (len (joined ls ++ text) + 1) 0); [lia|].
      replace (len (joined ls ++ text) + 1 - 1) with (len (joined ls ++ text)) by lia.
      assert (Hmm : message = (joined ls ++ text) ++ CR :: LF :: rest) by (rewrite Hm, <-!app_assoc; done).
      unfold index at 1. rewrite Hmm at 1. rewrite byte_get_head. wp_go. rewrite Z.eqb_refl. cbn [orb negb].
      assert (slice message (len (joined ls)) (len (joined ls ++ text)) = Ok text :> outcome SmtpError _) as ->.
      { rewrite len_app, Hmm, <-app_assoc. apply slice_middle. }
      wp_go. eapply owp_mono; [eapply validate_line_spec; [done..|]| |done].
      { pose proof (joined_len ls). rewrite Hmm, !len_app in Hmax. len_lia. }
      intros s' (Hinv' & _ & _).
      assert (joined (ls ++ [text]) = joined ls ++ text ++ CRLF) as Hj by (by rewrite joined_app, joined_one).
      replace (len (joined ls ++ text) + 1 + 1) with (len (joined (ls ++ [text]) ++ []))
        by (rewrite app_nil_r, Hj, (app_assoc (joined ls)), (len_app _ CRLF); change (len CRLF) with 2; lia).
      rewrite app_nil_r at 2. apply IH; try done.
      * rewrite Hmm, Hj, <-!app_assoc. done.
      * left. constructor.
  - destruct (Z.leb_spec (len message) (len (joined ls ++ partial) + 1)) as [|Hlt]; [done|]. cbn [orb].
    rewrite app_assoc in Hm. rewrite Hm, (len_app (joined ls ++ partial)), len_cons in Hlt.
    destruct rest as [|after rest]; [change (len []) with 0 in Hlt; lia|].
    assert (index message (len (joined ls ++ partial) + 1) = Ok after :> outcome SmtpError _) as ->.
    { rewrite Hm. unfold index. by rewrite byte_get_app. }
    wp_go. destruct (Z.eqb_spec after LF) as [->|]; [|done]. cbn [negb].
    replace (len (joined ls ++ partial) + 1) with (len (joined ls ++ partial ++ [CR])) by auto.
    apply IH; try done. right. exists partial. split_and!; try done.
    by destruct Hpart as [|(? & _ & _ & [=])].
  - zcase; [done|]. replace (len (joined ls ++ partial) + 1) with (len (joined ls ++ partial ++ [byte])) by auto.
    apply IH; try done. left. apply Forall_app. split.
    + by destruct Hpart as [|(? & _ & _ & [=])].
    + constructor; [|done].
      apply orb_false_iff in Heqb as [Hc ?%Z.eqb_neq].
      apply andb_false_iff in Hc as [?%Z.ltb_ge|?%negb_false_iff%Z.eqb_eq]; [right; lia|by left].
Qed.

Lemma ends_with_joined ls tail :
  clean tail → ends_with CRLF (joined ls ++ tail) = true → tail = [].
Proof.
  intros Hcl He. destruct tail as [|x tail _] using rev_ind; [done|]. exfalso.
  rewrite app_assoc in He. apply (ends_with_last [CR]) in He. subst x.
  apply (clean_LF _ Hcl). apply elem_of_app. right. apply list_elem_of_here.
Qed.

Lemma joined_ends ls : ls ≠ [] → ends_with CRLF (joined ls) = true.
Proof.
  intros Hne. destruct ls as [|l ls _] using rev_ind; [done|].
  rewrite joined_app, joined_one, app_assoc. apply ends_with_app.
Qed.

(** A prepared message: a header block with at least one field, an empty line
    and a body, all of clean lines of at most 998 bytes. *)
Definition prepared (message : list Z) : Prop :=
  ∃ hs body, padded message = joined (hs ++ [] :: body) ∧ hs ≠ [] ∧ headers_ok hs ∧
             Forall line_ok (hs ++ [] :: body).

Lemma padded_len message :
  len (padded message) = len message + (if ends_with CRLF message then 0 else 2).
Proof. unfold padded. rewrite len_app. by destruct (ends_with CRLF message). Qed.

Lemma validate_message_sound message capacity :
  owp (validate_message message capacity)
    (λ _, capacity ≤ MAX_MESSAGE_BYTES ∧ len (padded message) ≤ MAX_MESSAGE_BYTES ∧ prepared message)
    (λ _, True).
Proof.
  unfold validate_message. zcase; [done|]. zcase; [done|].
  apply orb_false_iff in Heqb as [Hcap%Z.ltb_ge Hsize%Z.ltb_ge].
  apply orb_false_iff in Heqb0 as [[Hne%bool_decide_eq_false Hasc%negb_false_iff]%orb_false_iff _].
  assert (Hpad : len (padded message) ≤ MAX_MESSAGE_BYTES).
  { rewrite padded_len. pose proof usize_bounds. unfold saturating_add, MAX_MESSAGE_BYTES, u32_max in *. lia. }
  assert (len message ≤ MAX_MESSAGE_BYTES) by (rewrite padded_len in Hpad; destruct (ends_with _ _); lia).
  apply owp_bind. eapply owp_mono; [apply (message_loop_spec message message [] []); try done| |done].
  { left. constructor. }
  { split_and!; [constructor|done|done|]. exists []. unfold headers_ok. by split_and!. }
  intros [[line_start h] s] (ls & tail & Hm & Hcl & -> & Hinv). wp_go.
  assert (Hfin : ∀ ls' s', padded message = joined ls' → lines_inv ls' h s' →
    owp (if h || (header_count s' =? 0) then Err (invalid "prepared SMTP message requires headers and a blank separator") else Ok tt)
     (λ _, capacity ≤ MAX_MESSAGE_BYTES ∧ len (padded message) ≤ MAX_MESSAGE_BYTES ∧ prepared message) (λ _, True)).
  { intros ls' s' Hp (Hok & Hc & hs & Hh & _ & Hn & Hshape). destruct h; [done|]. cbn [orb].
    zcase; [done|]. wp_go. split_and!; [done..|]. destruct Hshape as [body ->]. exists hs, body.
    split_and!; try done. tauto. }
  zcase.
  - assert (Htail : tail ≠ []) by (intros ->; rewrite app_nil_r in Hm; subst; lia).
    assert (slice message (len (joined ls)) (len message) = Ok tail :> outcome SmtpError _) as ->.
    { rewrite Hm. rewrite len_app. rewrite <-(app_nil_r tail) at 1. apply slice_middle. }
    wp_go. eapply owp_mono; [apply (validate_line_spec ls); [done..|]| |done].
    { pose proof (joined_len ls). lia. }
    intros s' (Hinv' & _ & _). apply (Hfin (ls ++ [tail])).
    + unfold padded. destruct (ends_with CRLF message) eqn:He.
      { rewrite Hm in He. by apply ends_with_joined in He. }
      by rewrite joined_app, joined_one, Hm, <-app_assoc.
    + rewrite bool_decide_eq_false_2 in Hinv' by done. by rewrite andb_true_r in Hinv'.
  - wp_go. rewrite Hm, len_app in H0. assert (tail = []) as -> by (apply len_zero; pose proof (len_nonneg tail); lia).
    rewrite app_nil_r in Hm. apply (Hfin ls); [|done]. unfold padded. rewrite Hm.
    rewrite joined_ends; [by rewrite app_nil_r|]. intros ->. done.
Qed.

(** *** Everything prepared is accepted *)

(** A line the flags allow next. *)
Definition allowed (ls : list (list Z)) (in_headers : bool) (l : list Z) : Prop :=
  line_ok l ∧ (in_headers = true → l ≠ [] → field_line l ∨ (continuation l ∧ ls ≠ [])).

Lemma validate_line_accepts ls in_headers s l :
  lines_inv ls in_headers s → len ls ≤ MAX_MESSAGE_BYTES → allowed ls in_headers l →
  ∃ s', validate_line l in_headers s = Ok s' ∧
        lines_inv (ls ++ [l]) (in_headers && negb (bool_decide (l = []))) s'.
Proof.
  intros Hinv Hb [[Hcl Hlen] Hal].
  pose proof (validate_line_spec ls l in_headers s Hinv Hcl Hb) as Hsp.
  destruct (validate_line l in_headers s) as [s'|e| |] eqn:Hv; cbn in Hsp; try done.
  { exists s'. tauto. }
  exfalso. unfold validate_line in Hv. rewrite (proj2 (Z.ltb_ge _ _)) in Hv by lia.
  destruct in_headers; [|done]. cbn [negb orb] in Hv.
  destruct (bool_decide_reflect (l = [])) as [|Hne]; [done|].
  destruct l as [|first l]; [done|]. change (@index SmtpError (first :: l) 0) with (Ok first : outcome SmtpError Z) in Hv.
  cbn [mbind outcome_bind] in Hv. destruct Hinv as (_ & _ & hs & _ & Hlast & _ & ->).
  destruct (Hal eq_refl Hne) as [(name & value & Heq & Hnn & Hname)|[(b & l' & [= -> ->] & Hbl) Hls]].
  - destruct name as [|n0 name]; [done|]. injection Heq as -> ->.
    assert (H0 := Hname). apply Forall_cons in H0 as [H0 _].
    replace ((n0 =? SP) || (n0 =? HT)) with false in Hv.
    2:{ symmetry. apply orb_false_iff. rewrite !Z.eqb_neq. unfold SP, HT. lia. }
    change (n0 :: name ++ 58 :: value) with ((n0 :: name) ++ 58 :: value) in Hv.
    rewrite (position_app (Z.eqb 58) (n0 :: name) 58 value) in Hv.
    2:{ intros b Hb'. apply Z.eqb_neq. pose proof (Forall_elem _ _ _ Hname Hb'). cbn in *. lia. }
    2:{ done. }
    rewrite take_app_length in Hv. cbn [length Nat.eqb orb] in Hv.
    replace (forallb (λ b, in_range 33 126 b && negb (b =? 58)) (n0 :: name)) with true in Hv.
    2:{ symmetry. apply forallb_forall. intros b Hb'%list_elem_of_In. pose proof (Forall_elem _ _ _ Hname Hb'). cbn in *.
        unfold in_range. rewrite !andb_true_iff, !Z.leb_le, negb_true_iff, Z.eqb_neq. lia. }
    cbn [negb] in Hv. unfold uadd in Hv. by destruct (_ <=? usize_max).
  - replace ((b =? SP) || (b =? HT)) with true in Hv.
    2:{ symmetry. apply orb_true_iff. rewrite !Z.eqb_eq. done. }
    by rewrite (proj2 Hlast Hls) in Hv.
Qed.

Lemma message_loop_text message text rest i line_start h s :
  clean text →
  message_loop message (text ++ rest) i line_start h s = message_loop message rest (i + len text) line_start h s.
Proof.
  revert i. induction text as [|b text IH]; intros i Hcl.
  { change (len []) with 0. by rewrite Z.add_0_r. }
  apply Forall_cons in Hcl as [Hb Hcl]. cbn [app message_loop].
  rewrite (proj2 (Z.eqb_neq b LF)) by (unfold LF, HT in *; lia).
  rewrite (proj2 (Z.eqb_neq b CR)) by (unfold CR, HT in *; lia).
  replace ((b <? 32) && negb (b =? HT) || (b =? 127)) with false.
  { rewrite IH by done. rewrite len_cons. f_equal. lia. }
  symmetry. apply orb_false_iff. rewrite andb_false_iff, Z.ltb_ge, negb_false_iff, Z.eqb_eq, Z.eqb_neq.
  unfold HT in *. lia.
Qed.

Lemma message_loop_line message ls text rest h s :
  message = joined ls ++ text ++ CRLF ++ rest → clean text →
  message_loop message (text ++ CRLF ++ rest) (len (joined ls)) (len (joined ls)) h s =
  (s' ← validate_line text h s;
   message_loop message rest (len (joined (ls ++ [text]))) (len (joined (ls ++ [text])))
     (h && negb (bool_decide (text = []))) s').
Proof.
  intros Hm Hcl. rewrite message_loop_text, <-len_app by done.
  rewrite app_assoc in Hm. unfold CRLF in Hm |- *. cbn [app] in Hm |- *.
  assert (Hi : @index SmtpError message (len (joined ls ++ text)) = Ok CR).
  { rewrite Hm. unfold index. by rewrite byte_get_head. }
  assert (Hi' : @index SmtpError message (len (joined ls ++ text) + 1) = Ok LF).
  { rewrite Hm. unfold index. by rewrite byte_get_app. }
  assert (Hl : (len message <=? len (joined ls ++ text) + 1) = false).
  { apply Z.leb_gt. rewrite Hm, (len_app (joined ls ++ text)), !len_cons. pose proof (len_nonneg rest). lia. }
  cbn [message_loop]. change (CR =? LF) with false. change (CR =? CR) with true. cbv iota.
  rewrite Hl, Hi'. cbn [mbind outcome_bind orb]. change (negb (LF =? LF)) with false.
  change (LF =? LF) with true. cbv iota. pose proof (len_nonneg (joined ls ++ text)).
  rewrite (proj2 (Z.eqb_neq (len (joined ls ++ text) + 1) 0)) by lia.
  rewrite Z.add_simpl_r, Hi. cbn [mbind outcome_bind orb]. change (negb (CR =? CR)) with false. cbv iota.
  assert (slice message (len (joined ls)) (len (joined ls ++ text)) = Ok text :> outcome SmtpError _) as ->.
  { rewrite len_app, Hm, <-app_assoc. apply slice_middle. }
  cbn [mbind outcome_bind].
  replace (len (joined ls ++ text) + 1 + 1) with (len (joined (ls ++ [text]))); [done|].
  rewrite joined_app, joined_one, !len_app. change (len CRLF) with 2. lia.
Qed.

(** The lines still to come, all allowed where they stand. *)
Fixpoint all_allowed (ls : list (list Z)) (h : bool) (todo : list (list Z)) : Prop :=
  match todo with
  | [] => True
  | l :: todo' => allowed ls h l ∧ all_allowed (ls ++ [l]) (h && negb (bool_decide (l = []))) todo'
  end.
(** Whether the headers are still open after them. *)
Definition still_headers (h : bool) (todo : list (list Z)) : bool :=
  h && forallb (λ l, negb (bool_decide (l = []))) todo.

Lemma message_loop_lines message todo ls tail h s :
  message = joined ls ++ joined todo ++ tail → clean tail → len message ≤ MAX_MESSAGE_BYTES →
  lines_inv ls h s → all_allowed ls h todo →
  ∃ s', message_loop message (joined todo ++ tail) (len (joined ls)) (len (joined ls)) h s
          = Ok (len (joined (ls ++ todo)), still_headers h todo, s') ∧
        lines_inv (ls ++ todo) (still_headers h todo) s'.
Proof.
  intros Hm Hcl Hmax. revert ls h s Hm. induction todo as [|l todo IH]; intros ls h s Hm Hinv Hal.
  { exists s. cbn [joined map concat app] in *. rewrite app_nil_r. unfold still_headers. cbn [forallb].
    rewrite andb_true_r. split; [|done]. rewrite <-(app_nil_r tail). by rewrite message_loop_text. }
  destruct Hal as [Hl Hal]. change (l :: todo) with ([l] ++ todo) in *.
  rewrite joined_app, joined_one, <-!app_assoc in Hm |- *.
  rewrite (message_loop_line message ls l) by (done || apply Hl).
  destruct (validate_line_accepts ls h s l Hinv) as (s1 & -> & Hinv1); [|done|].
  { pose proof (joined_len ls). rewrite Hm, len_app in Hmax.
    pose proof (len_nonneg (l ++ CRLF ++ joined todo ++ tail)). lia. }
  cbn [mbind outcome_bind].
  destruct (IH (ls ++ [l]) (h && negb (bool_decide (l = []))) s1) as (s2 & H2 & Hinv2); [|done|done|].
  { rewrite joined_app, joined_one, <-!app_assoc. done. }
  exists s2. rewrite <-app_assoc in H2, Hinv2. unfold still_headers in *. cbn [forallb app].
  by rewrite andb_assoc.
Qed.

Lemma body_allowed ls todo : Forall line_ok todo → all_allowed ls false todo.
Proof. intros H. revert ls. induction H; intros ls; cbn; [done|]. by split; [split|]. Qed.

Lemma prepared_allowed ls hs body :
  Forall line_ok (hs ++ [] :: body) → Forall (λ l, field_line l ∨ continuation l) hs →
  (ls = [] → ∀ l, head hs = Some l → field_line l) →
  all_allowed ls true (hs ++ [] :: body).
Proof.
  intros Hok Hh Hhead. revert ls Hok Hhead. induction Hh as [|l hs Hl Hh IH]; intros ls Hok Hhead; cbn [app] in *.
  - apply Forall_cons in Hok as [Hok1 Hok]. split; [by split|]. cbn. by apply body_allowed.
  - apply Forall_cons in Hok as [Hok1 Hok]. split.
    + split; [done|]. intros _ Hne. destruct ls; [left; by apply Hhead|]. destruct Hl; [by left|by right].
    + rewrite bool_decide_eq_false_2.
      2:{ intros ->. destruct Hl as [(n & v & ? & _)|(? & ? & ? & _)]; [by destruct n|done]. }
      cbn. apply IH; [done|]. intros He. by apply app_eq_nil in He as [_ ?].
Qed.

Lemma prepared_still hs body : still_headers true (hs ++ [] :: body) = false.
Proof. unfold still_headers. rewrite forallb_app. cbn. by rewrite andb_false_r. Qed.

Lemma prepared_ascii ls : Forall line_ok ls → is_ascii (joined ls) = true ∧ contains 0 (joined ls) = false.
Proof.
  intros Hok. assert (Hb : Forall (λ b, 0 < b < 128) (joined ls)).
  { unfold joined. induction Hok as [|l ls [Hl _] _ IH]; cbn [map concat]; [constructor|].
    apply Forall_app. split; [|done]. apply Forall_app. split.
    - eapply Forall_impl; [exact Hl|]. cbn. unfold HT. lia.
    - by repeat constructor. }
  split.
  - apply forallb_forall. intros b Hin%list_elem_of_In. pose proof (Forall_elem _ _ _ Hb Hin). cbn in *. apply Z.ltb_lt. lia.
  - apply not_true_iff_false. rewrite contains_spec. intros Hin. pose proof (Forall_elem _ _ _ Hb Hin). cbn in *. lia.
Qed.

(** A message is the lines of its padded form, the last one perhaps without
    its CRLF. *)
Lemma padded_lines message ls :
  padded message = joined ls → message ≠ [] →
  ∃ todo tail, message = joined todo ++ tail ∧
    ((tail = [] ∧ ls = todo) ∨ (tail ≠ [] ∧ ls = todo ++ [tail])).
Proof.
  unfold padded. intros Hp Hne. destruct (ends_with CRLF message) eqn:He.
  { rewrite app_nil_r in Hp. exists ls, []. rewrite app_nil_r. auto. }
  destruct ls as [|l ls _] using rev_ind.
  { by apply app_eq_nil in Hp as [_ ?]. }
  rewrite joined_app, joined_one, app_assoc in Hp. apply app_inv_tail in Hp. exists ls, l.
  split; [done|]. right. split; [|done]. intros ->. rewrite app_nil_r in Hp. subst message.
  destruct ls; [done|]. by rewrite joined_ends in He.
Qed.

Lemma all_allowed_app ls h a b :
  all_allowed ls h (a ++ b) ↔ all_allowed ls h a ∧ all_allowed (ls ++ a) (still_headers h a) b.
Proof.
  revert ls h. induction a as [|l a IH]; intros ls h; cbn [app all_allowed].
  - unfold still_headers. cbn. rewrite andb_true_r, app_nil_r. tauto.
  - rewrite IH, <-app_assoc. unfold still_headers. cbn [forallb app]. rewrite andb_assoc. tauto.
Qed.

(** The end of [validate_message] on lines with a header block. *)
Lemma lines_closed ls hs body s :
  lines_inv ls false s → ls `prefix_of` hs ++ [] :: body → hs ≠ [] →
  (∀ l, head hs = Some l → field_line l) → (header_count s =? 0) = false.
Proof.
  intros (_ & _ & hs' & _ & _ & Hn & body' & ->) [k Hk] Hne Hhead. apply Z.eqb_neq. rewrite Hn. intros ->.
  destruct hs as [|h hs]; [done|]. injection Hk as -> _.
  destruct (Hhead [] eq_refl) as (n & v & ? & _). by destruct n.
Qed.

Lemma validate_message_complete message capacity :
  capacity ≤ MAX_MESSAGE_BYTES → len (padded message) ≤ MAX_MESSAGE_BYTES → prepared message →
  validate_message message capacity = Ok tt.
Proof.
  intros Hcap Hmax (hs & body & Hp & Hne & [Hh Hhead] & Hok). rewrite padded_len in Hmax.
  assert (Hmne : message ≠ []).
  { intros ->. apply (f_equal len) in Hp. pose proof (joined_len (hs ++ [] :: body)) as Hj.
    rewrite <-Hp, len_app, len_cons in Hj. change (len (padded [])) with 2 in Hj.
    destruct hs; [done|]. rewrite len_cons in Hj. pose proof (len_nonneg hs). pose proof (len_nonneg body). lia. }
  assert (len message ≤ MAX_MESSAGE_BYTES) by (destruct (ends_with _ _); lia).
  destruct (prepared_ascii _ Hok) as [Ha H0]. rewrite <-Hp in Ha, H0. unfold padded, is_ascii in Ha. unfold padded, contains in H0.
  rewrite forallb_app in Ha. rewrite existsb_app in H0.
  apply andb_true_iff in Ha as [Ha _]. apply orb_false_iff in H0 as [H0 _].
  unfold validate_message, saturating_add.
  rewrite (proj2 (Z.ltb_ge _ _)) by lia. rewrite (proj2 (Z.ltb_ge _ _)) by lia. cbn [orb].
  rewrite bool_decide_eq_false_2 by done. unfold is_ascii, contains. rewrite Ha, H0. cbn [negb orb].
  destruct (padded_lines _ _ Hp Hmne) as (todo & tail & Hm & Hcase).
  assert (Hall : all_allowed [] true (hs ++ [] :: body)) by (by apply prepared_allowed).
  assert (Hinit : lines_inv [] true (mkLines 0 false)).
  { split_and!; [constructor|done|done|]. exists []. unfold headers_ok. by split_and!. }
  assert (Hloop := message_loop_lines message todo [] tail true (mkLines 0 false) Hm).
  rewrite <-Hm in Hloop. change (len (joined [])) with 0 in Hloop. cbn [app] in Hloop.
  destruct Hcase as [[-> <-]|[Htail Hls]].
  - destruct Hloop as (s & -> & Hinv); [constructor|done..|]. cbn [mbind outcome_bind].
    rewrite prepared_still in *. rewrite Hm, app_nil_r, Z.ltb_irrefl. cbn [mbind outcome_bind orb].
    by rewrite (lines_closed _ hs body s Hinv) by done.
  - rewrite Hls in Hall. apply all_allowed_app in Hall as [Hall [Htl _]]. cbn [app] in Htl.
    pose proof (prepared_still hs body) as Hst. rewrite Hls in Hst. unfold still_headers in Hst.
    rewrite forallb_app in Hst. cbn [forallb] in Hst. rewrite (bool_decide_eq_false_2 (tail = [])) in Hst by done.
    cbn [negb andb] in Hst. rewrite andb_true_r in Hst.
    destruct Hloop as (s & -> & Hinv); [apply Htl|done..|]. cbn [mbind outcome_bind].
    unfold still_headers in Hinv, Htl |- *. cbn [andb] in Hinv, Htl |- *. rewrite Hst in Hinv, Htl |- *.
    assert (Hlt : len (joined todo) < len message).
    { rewrite Hm, len_app. destruct tail; [done|]. rewrite len_cons. pose proof (len_nonneg tail). lia. }
    rewrite (proj2 (Z.ltb_lt _ _) Hlt).
    assert (slice message (len (joined todo)) (len message) = Ok tail :> outcome SmtpError _) as ->.
    { rewrite Hm. rewrite len_app. rewrite <-(app_nil_r tail) at 1. apply slice_middle. }
    cbn [mbind outcome_bind]. destruct (validate_line_accepts todo false s tail Hinv) as (s' & -> & Hinv'); [|done|].
    { pose proof (joined_len todo). lia. }
    cbn [mbind outcome_bind orb andb] in *.
    by rewrite (lines_closed _ hs body s' Hinv') by (done || by rewrite Hls).
Qed.

(** [SendRequest::new] accepts exactly the prepared messages. The
    validator returns on every byte string (no index leaves the buffer, no
    counter overflows), and it accepts one exactly when its allocation and its
    CRLF-completed length are at most 8 MiB and it consists of a header block
    that starts with a field, an empty line and a body, in CRLF lines of at
    most 998 printable seven-bit bytes. *)
Theorem message_accepted_iff message capacity :
  (∃ r, validate_message message capacity = r ∧ r ≠ Panic ∧ r ≠ Diverge) ∧
  (validate_message message capacity = Ok tt ↔
   capacity ≤ MAX_MESSAGE_BYTES ∧ len (padded message) ≤ MAX_MESSAGE_BYTES ∧ prepared message).
Proof.
  pose proof (validate_message_sound message capacity) as Hs. split.
  - eexists. split; [done|]. by destruct (validate_message message capacity).
  - split; [by intros He; rewrite He in Hs|]. intros (? & ? & ?). by apply validate_message_complete.
Qed.

(** *** What the server receives

    The receiver of RFC 5321, section 4.5.2: lines up to a lone dot, with a
    leading dot removed from every other line. [fuel] bounds the lines. *)
Fixpoint receive (fuel : nat) (bytes : list Z) : option (list Z * list Z) :=
  match fuel with
  | O => None
  | S fuel' =>
      match split_once CRLF bytes with
      | None => None
      | Some (l, rest) =>
          if bytes_eqb l [46] then Some ([], rest)
          else
            let text := match strip_prefix [46] l with Some t => t | None => l end in
            '(more, rest') ← receive fuel' rest; Some (text ++ CRLF ++ more, rest')
      end
  end.

Definition terminator : list Z := 46 :: CRLF.

Lemma stuff_text b text rest : LF ∉ text → stuff b (text ++ CRLF ++ rest) =
  (if b && starts_with [46] text then 46 :: text else text) ++ CRLF ++ stuff true rest.
Proof.
  intros Hlf. assert (Hin : ∀ t, LF ∉ t → stuff false (t ++ CRLF ++ rest) = t ++ CRLF ++ stuff true rest).
  { clear. induction t as [|x t IH]; intros Ht; [done|]. apply not_elem_of_cons in Ht as [Hx Ht].
    cbn [app stuff andb]. rewrite (proj2 (Z.eqb_neq x LF)) by done. by rewrite IH. }
  destruct text as [|x text]; [by destruct b|]. apply not_elem_of_cons in Hlf as [Hx Hlf].
  cbn [app stuff]. rewrite (proj2 (Z.eqb_neq x LF)), Hin by done.
  unfold starts_with. cbn [length take]. rewrite take_0.
  destruct (Z.eqb_spec x 46) as [->|Hn]; [by destruct b|].
  replace (bytes_eqb [x] [46]) with false; [by rewrite andb_false_r|].
  symmetry. apply not_true_iff_false. rewrite bytes_eqb_eq. congruence.
Qed.

Lemma receive_joined ls rest fuel :
  Forall line_ok ls → (length ls < fuel)%nat →
  receive fuel (stuff true (joined ls) ++ terminator ++ rest) = Some (joined ls, rest).
Proof.
  intros Hok. revert fuel. induction Hok as [|l ls [Hcl _] _ IH]; intros [|fuel] Hf; cbn in Hf; try lia.
  - unfold terminator. cbn [joined map concat stuff app receive].
    change (46 :: CRLF ++ rest) with ([46] ++ CRLF ++ rest).
    rewrite (split_once_app CR [LF] [46]); [done|]. by intros ?%list_elem_of_singleton.
  - change (joined (l :: ls)) with ((l ++ CRLF) ++ joined ls). rewrite <-app_assoc.
    rewrite stuff_text by (by apply clean_LF). cbn [andb].
    set (sent := if starts_with [46] l then 46 :: l else l). rewrite <-!app_assoc. cbn [receive].
    rewrite (split_once_app CR [LF] sent).
    2:{ subst sent. destruct (starts_with [46] l); [|by apply clean_CR]. intros [|Hin]%elem_of_cons; [done|].
        by apply (clean_CR l). }
    assert (Hs : bytes_eqb sent [46] = false ∧ match strip_prefix [46] sent with Some t => t | None => sent end = l).
    { subst sent. destruct (starts_with [46] l) eqn:He.
      - split.
        + apply not_true_iff_false. rewrite bytes_eqb_eq. by intros [= ->].
        + change (46 :: l) with ([46] ++ l). by rewrite strip_prefix_app.
      - unfold strip_prefix. rewrite He. split; [|done].
        apply not_true_iff_false. rewrite bytes_eqb_eq. by intros ->. }
    destruct Hs as [-> ->]. rewrite IH by lia. cbn. done.
Qed.

(** What the server receives is the message. For every message
    [SendRequest::new] accepts and every sequence of send windows that lets
    the encoder finish, a receiver that follows RFC 5321 and gets the chunks,
    then the terminator the client sends after them, then anything else,
    recovers the message (completed to a final CRLF) and stops right after
    the terminator: no line of the message ends the transaction early and no
    dot is lost or added. *)
Theorem data_roundtrip message capacity limits rest :
  validate_message message capacity = Ok tt →
  (length (stuff true (padded message)) ≤ sum_list limits)%nat →
  ∃ fuel, receive fuel ((chunks message limits (data_new message)).1 ++ terminator ++ rest)
            = Some (padded message, rest).
Proof.
  intros Hv Hlim. pose proof (validate_message_sound message capacity) as Hs. rewrite Hv in Hs.
  destruct Hs as (_ & _ & hs & body & Hp & _ & _ & Hok). exists (S (length (hs ++ [] :: body))).
  destruct (chunks message limits (data_new message)) as [out d] eqn:Hc.
  destruct (new_wf message) as [Hwf Hr].
  apply chunks_spec in Hc as (Happ & Hwf' & Hlen); [|done]. rewrite Hr in Happ, Hlen. cbn [fst].
  assert (out = stuff true (padded message)) as ->.
  { rewrite <-Happ, length_app in Hlen. destruct (remaining message d); [by rewrite app_nil_r in Happ|].
    rewrite <-Happ, length_app in Hlim. cbn in *. lia. }
  rewrite Hp. apply receive_joined; [done|lia].
Qed.
End with_target.

(** A message with a line of one dot and a line that starts with two, sent in
    chunks of 7 bytes. *)
Definition sample_message : list Z :=
  bs "Subject: x" ++ CRLF ++ CRLF ++ bs "." ++ CRLF ++ bs "..a" ++ CRLF ++ bs "end".

Lemma data_roundtrip_witness :
  ∃ fuel, receive fuel ((chunks sample_message (replicate 10 7%nat) (data_new sample_message)).1
                        ++ terminator ++ bs "QUIT") = Some (padded sample_message, bs "QUIT").
Proof.
  apply (data_roundtrip (tgt := target64) sample_message 100); [vm_compute; reflexivity|].
  apply Nat.leb_le. vm_compute. reflexivity.
Defined.
End MessageProofs.

(** ** Addresses and names in commands *)

Module AddressProofs.
Import Requests.

(** A byte that can stand in a command argument: printable and neither a
    space nor an angle bracket. *)
Definition arg_byte (b : Z) : Prop := 33 ≤ b ≤ 126 ∧ b ≠ 60 ∧ b ≠ 62.
Definition arg_byteb (b : Z) : bool := in_range 33 126 b && negb (b =? 60) && negb (b =? 62).

Lemma arg_byteb_spec b : arg_byteb b = true → arg_byte b.
Proof.
  unfold arg_byteb, arg_byte, in_range.
  rewrite !andb_true_iff, !negb_true_iff, !Z.leb_le, !Z.eqb_neq. tauto.
Qed.

Lemma args_eval l : forallb arg_byteb l = true → Forall arg_byte l.
Proof. rewrite forallb_forall. intros H. apply Forall_forall. intros b Hb. apply arg_byteb_spec, H. by apply list_elem_of_In. Qed.

Lemma alnum_arg b : is_ascii_alphanumeric b = true → arg_byte b.
Proof.
  unfold is_ascii_alphanumeric, is_ascii_alphabetic, is_ascii_uppercase, is_ascii_lowercase, is_ascii_digit, in_range, arg_byte.
  rewrite !orb_true_iff, !andb_true_iff, !Z.leb_le. lia.
Qed.

Lemma label_byte_arg b : label_byte b = true → arg_byte b.
Proof. unfold label_byte. intros [?| ->%Z.eqb_eq]%orb_true_iff; [by apply alnum_arg|unfold arg_byte; lia]. Qed.

(** What [split_on] leaves out is the separator. *)
Lemma split_on_elem sep l b : b ∈ l → b = sep ∨ ∃ piece, piece ∈ split_on sep l ∧ b ∈ piece.
Proof.
  induction l as [|x l IH]; [by intros ?%elem_of_nil|]. cbn [split_on].
  destruct (Z.eqb_spec x sep) as [->|Hx].
  - intros [->|Hb]%elem_of_cons; [by left|]. destruct (IH Hb) as [|(piece & Hp & Hin)]; [by left|].
    right. exists piece. split; [by apply list_elem_of_further|done].
  - destruct (split_on sep l) as [|piece rest].
    + intros [->|Hb]%elem_of_cons.
      { right. exists [x]. split; apply list_elem_of_here. }
      destruct (IH Hb) as [|(? & Hp & _)]; [by left|by apply elem_of_nil in Hp].
    + intros [->|Hb]%elem_of_cons.
      { right. exists (x :: piece). split; apply list_elem_of_here. }
      destruct (IH Hb) as [|(p & Hp & Hin)]; [by left|right].
      apply elem_of_cons in Hp as [->|Hp].
      * exists (x :: piece). split; [apply list_elem_of_here|by apply list_elem_of_further].
      * exists p. split; [by apply list_elem_of_further|done].
Qed.

Lemma domain_arg domain : validate_domain domain = Ok tt → Forall arg_byte domain.
Proof.
  unfold validate_domain. destruct (_ || _); [done|]. destruct (forallb label_ok (split_on 46 domain)) eqn:Hl; [|done].
  intros _. apply Forall_forall. intros b Hb. rewrite forallb_forall in Hl.
  destruct (split_on_elem 46 domain b Hb) as [->|(piece & Hp & Hin)]; [unfold arg_byte; lia|].
  apply list_elem_of_In, Hl in Hp.
  unfold label_ok in Hp. destruct piece as [|first piece]; [done|].
  apply andb_true_iff in Hp as [_ Hall]. rewrite forallb_forall in Hall. apply label_byte_arg, Hall. by apply list_elem_of_In.
Qed.

Lemma local_arg d l : local_ok d l = true → Forall arg_byte l.
Proof.
  revert d. induction l as [|b l IH]; intros d; [by constructor|]. cbn [local_ok].
  destruct (Z.eqb_spec b 46) as [->|].
  - destruct d; [done|]. intros H. constructor; [unfold arg_byte; lia|by apply (IH true)].
  - intros [[Hb|Hb]%orb_true_iff Hl]%andb_true_iff; (constructor; [|by apply (IH false)]).
    + by apply alnum_arg.
    + apply arg_byteb_spec. apply contains_spec in Hb.
      assert (Forall (λ b, arg_byteb b = true) local_symbols) as H by by_eval. by apply (Forall_elem _ _ _ H).
Qed.

Lemma mailbox_arg address : validate_mailbox address = Ok tt → Forall arg_byte address ∧ address ≠ [] ∧ len address ≤ 254.
Proof.
  unfold validate_mailbox. destruct (_ || _) eqn:H0; [done|].
  apply orb_false_iff in H0 as [[Hne%bool_decide_eq_false Hlen%Z.ltb_ge]%orb_false_iff _].
  destruct (rsplit_once 64 address) as [[local domain]|] eqn:Hs; [|done].
  destruct (_ || negb (local_ok false local)) eqn:Hc; [done|]. intros Hd.
  apply orb_false_iff in Hc as [_ Hl%negb_false_iff]. apply rsplit_once_some in Hs. split_and!; [|done|done].
  rewrite Hs. apply Forall_app. split; [by apply (local_arg false)|].
  constructor; [unfold arg_byte; lia|by apply domain_arg].
Qed.

Lemma octet_arg l : octet_ok l = true → Forall arg_byte l.
Proof.
  assert (Hd : ∀ b, is_ascii_digit b = true → arg_byte b).
  { intros b Hb. apply alnum_arg. unfold is_ascii_alphanumeric. by rewrite Hb, orb_true_r. }
  unfold octet_ok. destruct l as [|x [|y l]]; [done|by constructor; [apply Hd|constructor]|].
  intros [_ [n Hn]%bool_decide_eq_true]%andb_true_iff. apply parse_digits_digits in Hn.
  eapply Forall_impl; [exact Hn|apply Hd].
Qed.

Lemma pieces_arg (ok : list Z → bool) sep l :
  arg_byte sep → (∀ p, ok p = true → Forall arg_byte p) →
  forallb ok (split_on sep l) = true → Forall arg_byte l.
Proof.
  intros Hsep Hok Hall. apply Forall_forall. intros b Hb. rewrite forallb_forall in Hall.
  destruct (split_on_elem sep l b Hb) as [->|(piece & Hp & Hin)]; [done|].
  apply list_elem_of_In, Hall in Hp.
  apply (Forall_elem _ _ _ (Hok _ Hp) Hin).
Qed.

Lemma ipv4_arg l : ipv4_ok l = true → Forall arg_byte l.
Proof.
  unfold ipv4_ok. intros [_ H]%andb_true_iff. apply (pieces_arg octet_ok 46); [unfold arg_byte; lia|apply octet_arg|done].
Qed.

Lemma group_arg l : group_ok l = true → Forall arg_byte l.
Proof.
  unfold group_ok. intros [_ H]%andb_true_iff. rewrite forallb_forall in H. apply Forall_forall.
  intros b Hb%list_elem_of_In%H. unfold is_hex, is_ascii_digit, in_range in Hb.
  rewrite !orb_true_iff, !andb_true_iff, !Z.leb_le in Hb. unfold arg_byte. lia.
Qed.

Lemma groups_arg parts n : groups parts = Some n → ∀ p, p ∈ parts → Forall arg_byte p.
Proof.
  revert n. induction parts as [|part rest IH]; intros n; [by intros _ p ?%elem_of_nil|].
  destruct rest as [|next rest].
  - cbn. intros H p ->%list_elem_of_singleton. destruct (group_ok part) eqn:Hg; [by apply group_arg|].
    destruct (ipv4_ok part) eqn:H4; [by apply ipv4_arg|done].
  - cbn [groups]. destruct (group_ok part) eqn:Hg; [|done].
    destruct (match rest with [] => _ | _ :: _ => _ end) as [m|] eqn:Hr; [|done]. intros _ p.
    intros [->|Hp]%elem_of_cons; [by apply group_arg|]. by apply (IH m).
Qed.

Lemma side_arg side n : side_groups side = Some n → Forall arg_byte side.
Proof.
  unfold side_groups. destruct (bool_decide_reflect (side = [])) as [->|]; [by constructor|]. intros H.
  apply Forall_forall. intros b Hb. destruct (split_on_elem 58 side b Hb) as [->|(p & Hp & Hin)]; [unfold arg_byte; lia|].
  apply (Forall_elem _ _ _ (groups_arg _ _ H p Hp) Hin).
Qed.

Lemma ipv6_arg l : ipv6_ok l = true → Forall arg_byte l.
Proof.
  unfold ipv6_ok. destruct (split_once _ l) as [[head tail]|] eqn:Hs.
  - apply split_once_some in Hs. subst l. destruct (side_groups head) eqn:Hh; [|done].
    destruct (side_groups tail) eqn:Ht; [|done]. intros _. apply Forall_app. split; [by apply (side_arg head z)|].
    apply Forall_app. split; [|by apply (side_arg tail z0)].
    by apply args_eval.
  - intros H%bool_decide_eq_true. by apply (side_arg l 8).
Qed.

Lemma ignore_case_arg l k : eq_ignore_ascii_case l k = true → Forall arg_byte (ascii_lowercase k) → Forall arg_byte l.
Proof.
  unfold eq_ignore_ascii_case. intros <-%bytes_eqb_eq. unfold ascii_lowercase. rewrite Forall_map.
  intros H. eapply Forall_impl; [exact H|]. cbn. intros b. unfold to_ascii_lowercase. destruct (is_ascii_uppercase b) eqn:Hu; [|done].
  intros _. apply alnum_arg. unfold is_ascii_alphanumeric, is_ascii_alphabetic. by rewrite Hu.
Qed.

Lemma ehlo_arg name : validate_ehlo name = Ok tt → Forall arg_byte name ∧ len name ≤ 255.
Proof.
  unfold validate_ehlo. destruct (Z.ltb_spec 255 (len name)); [done|]. intros Hv. split; [|lia].
  destruct (literal_ok name) eqn:Hl; [|by apply domain_arg]. clear Hv. unfold literal_ok in Hl.
  destruct (strip_prefix _ name) as [part|] eqn:Hp; [|done]. apply strip_prefix_some in Hp. subst name.
  destruct (strip_suffix (bs "]") part) as [literal|] eqn:Hsfx; [|done]. apply strip_suffix_some in Hsfx. subst part.
  apply Forall_app. split; [by apply args_eval|].
  apply Forall_app. split; [|by apply args_eval].
  apply orb_true_iff in Hl as [H4|[[_ Htag]%andb_true_iff H6]%andb_true_iff]; [by apply ipv4_arg|].
  rewrite <-(take_drop 5 literal). apply Forall_app. split; [|by apply ipv6_arg].
  apply (ignore_case_arg _ _ Htag). by apply args_eval.
Qed.

Lemma envelope_arg from recipients e :
  envelope_new from recipients = Ok e →
  e = mkEnvelope from recipients ∧ 1 ≤ len recipients ≤ MAX_RECIPIENTS ∧
  Forall (λ a, Forall arg_byte a ∧ len a ≤ 254) (from :: recipients) ∧ [] ∉ recipients.
Proof.
  unfold envelope_new.
  assert (Hall : ∀ rs, validate_all rs = Ok tt → Forall (λ a, Forall arg_byte a ∧ len a ≤ 254) rs ∧ [] ∉ rs).
  { induction rs as [|a rs IH]; cbn [validate_all]; [by split; [|intros ?%elem_of_nil]|].
    destruct (validate_mailbox a) as [[]| | |] eqn:Ha; try done. intros Hrs. destruct (IH Hrs) as [H1 H2].
    apply mailbox_arg in Ha as (Ha & Hne & Hl). split; [by constructor|]. by intros [<-|]%elem_of_cons. }
  destruct (if bool_decide (from = []) then _ else _) as [[]| | |] eqn:Hf; try done. cbn [mbind outcome_bind].
  destruct (_ || _) eqn:Hc; [done|]. apply orb_false_iff in Hc as [Hne%bool_decide_eq_false Hl%Z.ltb_ge].
  destruct (validate_all recipients) as [[]| | |] eqn:Hv; try done. intros [= <-].
  destruct (Hall _ Hv) as [H1 H2]. split_and!; [done| |done| |done].
  - destruct recipients as [|r rs]; [done|]. rewrite len_cons. pose proof (len_nonneg rs). lia.
  - constructor; [|done]. destruct (bool_decide_reflect (from = [])) as [->|]; [by split; [constructor|]|].
    apply mailbox_arg in Hf. tauto.
Qed.

(** No command injection. A mailbox, a reverse path or an EHLO name the
    constructors accept consists of printable bytes without spaces and angle
    brackets, so that the EHLO, MAIL and RCPT commands built from them are one
    line each, of which only the CRLF at the end is a line break. *)
Theorem command_arguments_safe :
  (∀ name, validate_ehlo name = Ok tt → Forall arg_byte name ∧ len name ≤ 255) ∧
  (∀ from recipients e, envelope_new from recipients = Ok e →
     e = mkEnvelope from recipients ∧ 1 ≤ len recipients ≤ MAX_RECIPIENTS ∧
     Forall (λ a, Forall arg_byte a ∧ len a ≤ 254) (from :: recipients) ∧ [] ∉ recipients).
Proof. split; [apply ehlo_arg|apply envelope_arg]. Qed.

Lemma command_arguments_safe_witness :
  (Forall arg_byte (bs "[IPv6:2001:db8::1]") ∧ len (bs "[IPv6:2001:db8::1]") ≤ 255) ∧
  Forall (λ a, Forall arg_byte a ∧ len a ≤ 254) [bs "a.b+c@example.org"; bs "x@y"].
Proof.
  split; [apply command_arguments_safe; vm_compute; reflexivity|].
  apply (proj2 command_arguments_safe (bs "a.b+c@example.org") [bs "x@y"]
           (mkEnvelope (bs "a.b+c@example.org") [bs "x@y"])). vm_compute. reflexivity.
Defined.
End AddressProofs.
