(* ===== verification/SmtpReplyProofs.v ===== *)
(** * Correctness of the SMTP reply parser

    The parser never panics and never holds more than its limits; the replies
    it returns are what the server sent, and every reply within the limits is
    read back, in order, with the parser empty in between. *)

From stdpp Require Import base list strings.
From Stdlib Require Import ZArith Lia.
From S2P Require Import Prelude Errors SmtpWire.
Import Reply.

#[local] Arguments len : simpl never.

(** ** The grammar of a reply (RFC 5321, section 4.2) *)

Definition code_digits (code : Z) : list Z := [48 + code / 100; 48 + code / 10 mod 10; 48 + code mod 10].
Definition code_ok (code : Z) : Prop := 200 ≤ code < 600 ∧ code / 10 mod 10 ≤ 5.

Definition inner_line (code : Z) (text : list Z) : list Z := code_digits code ++ 45 :: text ++ CRLF.
Definition inner_lines (code : Z) (texts : list (list Z)) : list Z := concat (map (inner_line code) texts).
(** The last line has a space after the code, or is the code alone. *)
Definition final_line (code : Z) (text bytes : list Z) : Prop :=
  bytes = code_digits code ++ 32 :: text ++ CRLF ∨ text = [] ∧ bytes = code_digits code ++ CRLF.

Definition text_ok (l : list Z) : Prop := Forall (λ b, text_byte b = true) l.
(** A reply the limits let through. *)
Definition reply_ok (r : Reply) : Prop :=
  code_ok (code r) ∧ 1 ≤ len (lines r) ≤ MAX_LINES ∧ Forall text_ok (lines r) ∧
  Forall (λ l, len l ≤ MAX_LINE - 5) (lines r) ∧ sumZ (map len (lines r)) ≤ MAX_TOTAL.
(** [bytes] spell the reply [r]. *)
Definition spells (r : Reply) (bytes : list Z) : Prop :=
  ∃ init last final, lines r = init ++ [last] ∧ final_line (code r) last final ∧
    bytes = inner_lines (code r) init ++ final.

(** ** The parser against what it received since the last reply *)

Record parser_inv (p : ReplyParser) (received : list Z) : Prop := {
  pi_total : total p = len received ∧ len received ≤ MAX_TOTAL;
  pi_line : len (line p) ≤ MAX_LINE;
  pi_lines : len (parsed p) ≤ MAX_LINES;
  pi_text : Forall text_ok (parsed p) ∧ Forall (λ l, len l ≤ MAX_LINE - 6) (parsed p);
  pi_open : LF ∉ line p;
  pi_received : ∃ c, received = inner_lines c (parsed p) ++ line p ∧
                     match first_code p with Some c' => c = c' ∧ code_ok c | None => parsed p = [] end;
}.

Lemma default_inv : parser_inv parser_default [].
Proof. split; try done; [by intros ?%elem_of_nil|by exists 200]. Qed.

Lemma code_digits_inv b0 b1 b2 :
  in_range 50 53 b0 = true → in_range 48 53 b1 = true → is_ascii_digit b2 = true →
  let c := (b0 - 48) * 100 + (b1 - 48) * 10 + (b2 - 48) in
  code_digits c = [b0; b1; b2] ∧ code_ok c.
Proof.
  unfold is_ascii_digit, in_range. rewrite !andb_true_iff, !Z.leb_le. intros H0 H1 H2. cbv zeta.
  set (c := (b0 - 48) * 100 + (b1 - 48) * 10 + (b2 - 48)).
  assert (c / 100 = b0 - 48) as E0 by (symmetry; apply (Z.div_unique c 100 _ ((b1 - 48) * 10 + (b2 - 48))); lia).
  assert (c / 10 = (b0 - 48) * 10 + (b1 - 48)) as E1 by (symmetry; apply (Z.div_unique c 10 _ (b2 - 48)); lia).
  assert (c mod 10 = b2 - 48) as E2 by (symmetry; apply (Z.mod_unique c 10 ((b0 - 48) * 10 + (b1 - 48))); lia).
  assert ((c / 10) mod 10 = b1 - 48) as E3
    by (rewrite E1; symmetry; apply (Z.mod_unique _ 10 (b0 - 48)); lia).
  unfold code_digits, code_ok. rewrite E0, E2, E3. split; [f_equal; [lia|f_equal; [lia|f_equal; lia]]|lia].
Qed.

Lemma inner_lines_snoc c texts t : inner_lines c (texts ++ [t]) = inner_lines c texts ++ inner_line c t.
Proof. unfold inner_lines. rewrite map_app, concat_app. cbn. by rewrite app_nil_r. Qed.

Lemma inner_lines_sum c texts : sumZ (map len texts) ≤ len (inner_lines c texts).
Proof.
  unfold inner_lines. induction texts as [|t texts IH]; [done|]. cbn [map concat sumZ].
  unfold inner_line at 1. rewrite !len_app, len_cons, len_app. change (len (code_digits c)) with 3. change (len CRLF) with 2. lia.
Qed.

Section with_target.
Context {tgt : Target}.

(** A line of at least five bytes that ends in CRLF, taken apart. *)
Lemma line_parts (l : list Z) :
  5 ≤ len (l ++ [LF]) → byte_get (l ++ [LF]) (len (l ++ [LF]) - 2) = Some CR →
  ∃ b0 b1 b2 rest, l ++ [LF] = b0 :: b1 :: b2 :: rest ++ CRLF.
Proof.
  intros Hlen Hcr. rewrite len_app in Hcr, Hlen. change (len [LF]) with 1 in *.
  destruct l as [|y l _] using rev_ind; [done|].
  rewrite <-app_assoc in Hcr. cbn [app] in Hcr. rewrite len_app in Hcr, Hlen. change (len [y]) with 1 in *.
  replace (len l + 1 + 1 - 2) with (len l) in Hcr by lia. rewrite byte_get_head in Hcr. injection Hcr as ->.
  destruct l as [|b0 [|b1 [|b2 rest]]]; [exfalso; rewrite ?len_cons in Hlen; change (len (@nil Z)) with 0 in Hlen; lia..|].
  exists b0, b1, b2, rest. cbn. by rewrite <-app_assoc.
Qed.

(** What the state is bounded by, also after an error. *)
Definition bounded (p : ReplyParser) : Prop :=
  len (line p) ≤ MAX_LINE ∧ len (parsed p) ≤ MAX_LINES ∧ 0 ≤ total p ≤ MAX_TOTAL + 1.

Definition push_post (received : list Z) (r : option Reply) (p : ReplyParser) : Prop :=
  match r with
  | None => parser_inv p received
  | Some reply => p = parser_default ∧ spells reply received ∧ reply_ok reply
  end.

Record line_pre (p : ReplyParser) (received : list Z) : Prop := {
  lp_bounded : bounded p;
  lp_total : total p = len received;
  lp_max : len received ≤ MAX_TOTAL;
  lp_text : Forall text_ok (parsed p) ∧ Forall (λ l, len l ≤ MAX_LINE - 6) (parsed p);
  lp_received : ∃ c, received = inner_lines c (parsed p) ++ line p ∧
    match first_code p with Some c' => c = c' ∧ code_ok c | None => parsed p = [] end;
}.

(** The end of [finish_line], once the line is taken apart. *)
Lemma finish_tail_spec p received code text (final : bool) :
  line_pre p received → code_ok code → text_ok text → len text ≤ MAX_LINE - (if final then 5 else 6) →
  (if final then final_line code text (line p) else line p = inner_line code text) →
  wp (if match first_code p with Some first => negb (first =? code) | None => false end then fail tt
      else
        _ ← modify (λ p, mkParser (line p) (parsed p) (Some code) (total p));
        if MAX_LINES <=? len (parsed p) then fail tt
        else
          if negb final
          then _ ← put (mkParser [] (parsed p ++ [text]) (Some code) (total p)); mret None
          else _ ← put (mkParser [] [] None 0); mret (Some (mkReply code (parsed p ++ [text]))))
     (push_post received) (λ _ : unit, bounded) p.
Proof.
  intros [Hbd Ht Hmax [Htxt Hshort] (c & Hrec & Hc)] Hcode Htext Hlen Hform. zcase; [done|].
  assert (Hrec' : received = inner_lines code (parsed p) ++ line p).
  { destruct (first_code p) as [c'|]; [|by rewrite Hc in *].
    apply negb_false_iff, Z.eqb_eq in Heqb. destruct Hc as [-> _]. by subst. }
  wp_go. zcase; [by wp_go|]. destruct final; cbn [negb]; wp_go.
  - split_and!; [done| |].
    + exists (parsed p), text, (line p). by split_and!.
    + split_and!; cbn [Reply.code lines]; [done|rewrite len_app; change (len [text]) with 1; pose proof (len_nonneg (parsed p)); lia..| | |].
      * apply Forall_app. by repeat constructor.
      * apply Forall_app. split; [eapply Forall_impl; [done|]; cbn; lia|by repeat constructor].
      * rewrite map_app, sumZ_app. cbn [map sumZ]. pose proof (inner_lines_sum code (parsed p)).
        assert (len text ≤ len (line p)).
        { destruct Hform as [->|[-> _]]; [|apply len_nonneg]. rewrite !len_app, len_cons, len_app.
          change (len (code_digits code)) with 3. change (len CRLF) with 2. lia. }
        rewrite Hrec', len_app in Hmax. lia.
  - split; cbn [line parsed first_code total].
    + done.
    + done.
    + rewrite len_app. change (len [text]) with 1. lia.
    + split; apply Forall_app; split; try done; by repeat constructor.
    + by intros ?%elem_of_nil.
    + exists code. rewrite inner_lines_snoc, app_nil_r, <-Hform. done.
Qed.

Lemma finish_line_spec p l received :
  line p = l ++ [LF] → line_pre p received →
  wp finish_line (push_post received) (λ _, bounded) p.
Proof.
  intros Hl Hpre. pose proof (lp_bounded _ _ Hpre) as Hbd. pose proof Hbd as (Hb1 & _).
  unfold finish_line. wp_go. zcase; [by wp_go|]. wp_go. apply owp_usub; [lia|]. wp_go.
  unfold index at 1. destruct (byte_get (line p) (len (line p) - 2)) as [before|] eqn:Hcr.
  2:{ apply byte_get_none in Hcr; lia. }
  wp_go. zcase; [|done]. subst before.
  rewrite Hl in H, Hcr. destruct (line_parts l) as (b0 & b1 & b2 & rest & Hparts); [done|done|].
  rewrite <-Hl in Hparts. 
  assert (Hlb : len (line p) = len rest + 5) by (rewrite Hparts, !len_cons, len_app; change (len CRLF) with 2; lia).
  assert (index (line p) 0 = Ok b0 :> outcome unit Z) as -> by (by rewrite Hparts). wp_go.
  assert (index (line p) 1 = Ok b1 :> outcome unit Z) as -> by (by rewrite Hparts). wp_go.
  assert (index (line p) 2 = Ok b2 :> outcome unit Z) as -> by (by rewrite Hparts). wp_go.
  assert (index (line p) 3 = Ok (List.hd CR rest) :> outcome unit Z) as -> by (rewrite Hparts; by destruct rest). wp_go.
  zcase; [done|]. rewrite !orb_false_iff, !negb_false_iff in Heqb. destruct Heqb as [[[Hd0 Hd1] Hd2] Hsep].
  destruct (code_digits_inv b0 b1 b2 Hd0 Hd1 Hd2) as [Hdig Hcode].
  destruct rest as [|b3 text]; cbn [List.hd] in *.
  - rewrite Hlb. change (len [] + 5 =? 5) with true. cbn [orb negb]. wp_go. cbn [forallb negb].
    apply (finish_tail_spec p received _ [] true); try done; [constructor|].
    right. split; [done|]. rewrite Hdig. done.
  - rewrite len_cons in Hlb. pose proof (len_nonneg text).
    rewrite (proj2 (Z.eqb_neq (len (line p)) 5)) in Hsep |- * by lia. cbn [orb negb andb] in *. wp_go.
    assert (slice (line p) 4 (len (line p) - 2) = Ok text :> outcome unit _) as ->.
    { rewrite Hparts. replace (len _ - 2) with (len [b0; b1; b2; b3] + len text)
        by (rewrite <-Hparts, Hlb; change (len [b0; b1; b2; b3]) with 4; lia).
      apply (slice_middle [b0; b1; b2; b3] text CRLF). }
    wp_go. destruct (forallb text_byte text) eqn:Heqb; [|done]. cbv beta iota delta [negb]. fold (negb (b3 =? 32)).
    apply finish_tail_spec; [done..| | |].
    + apply Forall_forall. intros b Hb%list_elem_of_In. rewrite forallb_forall in Heqb. by apply Heqb.
    + destruct (b3 =? 32); lia.
    + apply negb_false_iff, orb_true_iff in Hsep. rewrite Hparts.
      destruct (Z.eqb_spec b3 32) as [->|Hn].
      * left. by rewrite Hdig.
      * destruct Hsep as [->%Z.eqb_eq|?]; [|done]. unfold inner_line. by rewrite Hdig.
Qed.

Lemma reply_push_spec p received byte :
  parser_inv p received →
  wp (push byte) (push_post (received ++ [byte])) (λ _, bounded) p.
Proof.
  intros [[Ht Hmax] Hline Hlines [Htxt Hsh] Hopen (c & Hrec & Hc)]. unfold push. wp_go.
  pose proof (len_nonneg received). pose proof usize_bounds.
  assert (Hsat : saturating_add usize_max (total p) 1 = len received + 1).
  { unfold saturating_add, u32_max, MAX_TOTAL in *. lia. }
  rewrite Hsat. zcase; [wp_go; unfold bounded; cbn; lia|]. apply orb_false_iff in Heqb as [Hmt%Z.ltb_ge Hml%Z.leb_gt].
  wp_go. unfold set_line. cbn [line parsed first_code total].
  assert (Hlen : len (line p ++ [byte]) ≤ MAX_LINE) by (rewrite len_app; change (len [byte]) with 1; lia).
  assert (Hlr : len (received ++ [byte]) = len received + 1) by (by rewrite len_app).
  assert (Hrec' : received ++ [byte] = inner_lines c (parsed p) ++ line p ++ [byte]) by (by rewrite Hrec, <-app_assoc).
  destruct (Z.eqb_spec byte LF) as [->|HnLF]; cbn [negb].
  - eapply finish_line_spec; [done|]. split; cbn [line parsed first_code total]; [|lia..|done|by exists c].
    unfold bounded; cbn; lia.
  - zcase; [wp_go; unfold bounded; cbn; lia|]. wp_go. split; cbn [line parsed first_code total]; [lia|done..| |by exists c].
    intros [|?%list_elem_of_singleton]%elem_of_app; [done|congruence].
Qed.

(** ** Streams of replies *)

(** The replies in a run of bytes. *)
Fixpoint feed (bytes : list Z) : M ReplyParser unit (list Reply) :=
  match bytes with
  | [] => mret []
  | b :: rest => r ← push b; rs ← feed rest; mret (option_list r ++ rs)
  end.

Lemma feed_spec bytes p received :
  parser_inv p received →
  wp (feed bytes)
    (λ rs p', ∃ parts pending, received ++ bytes = concat parts ++ pending ∧
       Forall2 spells rs parts ∧ Forall reply_ok rs ∧ parser_inv p' pending)
    (λ _, bounded) p.
Proof.
  revert p received. induction bytes as [|b bytes IH]; intros p received Hinv; cbn [feed].
  - wp_go. exists [], received. rewrite app_nil_r. split_and!; (done || constructor).
  - wp_go. eapply wp_mono; [by apply reply_push_spec| |done]. intros [reply|] p1 Hp1; wp_go.
    + destruct Hp1 as (-> & Hsp & Hok). eapply wp_mono; [apply (IH _ []), default_inv| |done].
      intros rs p' (parts & pending & Heq & Hsps & Hoks & Hinv'). wp_go. cbn [option_list app] in *.
      exists ((received ++ [b]) :: parts), pending. split_and!; [|by constructor..|done].
      cbn [concat]. rewrite Heq, <-!app_assoc. done.
    + eapply wp_mono; [by apply IH| |done]. intros rs p' (parts & pending & Heq & Hrest). wp_go.
      exists parts, pending. rewrite <-app_assoc in Heq. by split.
Qed.

(** The reply parser is memory-safe and never invents a reply. On every
    byte stream from the server it neither panics nor overflows, and keeps at
    most 512 bytes of line, 32 lines and 8 KiB in total, whether it goes on or
    reports an error; the replies it returns are printable, of codes 200 to
    559 and within the limits, and spelled, one after the other and nothing
    between them, by the bytes received. *)
Theorem reply_parser_sound bytes :
  ∃ r p, feed bytes parser_default = (r, p) ∧ bounded p ∧
    match r with
    | Ok rs => ∃ parts pending, bytes = concat parts ++ pending ∧
                 Forall2 spells rs parts ∧ Forall reply_ok rs
    | Err _ => True
    | _ => False
    end.
Proof.
  destruct (wp_inv _ _ _ _ (feed_spec bytes _ _ default_inv)) as [(rs & p & H & parts & pending & Heq & Hs & Ho & Hi)|(e & p & H & Hb)].
  - exists (Ok rs), p. split_and!; [done| |eauto 6].
    destruct Hi as [[Ht Hm] Hl Hls _ _ _]. unfold bounded. pose proof (len_nonneg pending). lia.
  - by exists (Err e), p.
Qed.
(** ** Every reply within the limits is read back *)

Definition print_reply (r : Reply) : list Z :=
  match reverse (lines r) with
  | [] => []
  | last :: init => inner_lines (code r) (reverse init) ++ code_digits (code r) ++ 32 :: last ++ CRLF
  end.
Definition sendable (r : Reply) : Prop :=
  code_ok (code r) ∧ 1 ≤ len (lines r) ≤ MAX_LINES ∧ Forall text_ok (lines r) ∧
  Forall (λ l, len l ≤ MAX_LINE - 6) (lines r) ∧ len (print_reply r) ≤ MAX_TOTAL.

Lemma code_digits_ok c :
  code_ok c → in_range 50 53 (48 + c / 100) = true ∧ in_range 48 53 (48 + c / 10 mod 10) = true ∧
    is_ascii_digit (48 + c mod 10) = true ∧
    (48 + c / 100 - 48) * 100 + (48 + c / 10 mod 10 - 48) * 10 + (48 + c mod 10 - 48) = c.
Proof.
  intros [Hc Ht]. unfold is_ascii_digit, in_range. rewrite !andb_true_iff, !Z.leb_le.
  pose proof (Z.mod_pos_bound c 10 ltac:(lia)). pose proof (Z.mod_pos_bound (c / 10) 10 ltac:(lia)).
  assert (c / 100 = c / 10 / 10) by (rewrite Z.div_div; [done|lia..]).
  pose proof (Z.div_mod c 10 ltac:(lia)). pose proof (Z.div_mod (c / 10) 10 ltac:(lia)). lia.
Qed.

Lemma quiet_range b : 32 ≤ b ≤ 126 → b ≠ LF ∧ (b = CR ∨ text_byte b = true).
Proof.
  intros Hb. split; [unfold LF; lia|]. right. unfold text_byte, in_range. apply orb_true_iff. right.
  apply andb_true_iff. rewrite !Z.leb_le. lia.
Qed.

Lemma quiet_text text : text_ok text → Forall (λ b, b ≠ LF ∧ (b = CR ∨ text_byte b = true)) text.
Proof. intros H. eapply Forall_impl; [exact H|]. cbn. intros b Hb. split; [by intros ->|by right]. Qed.

Lemma feed_quiet bytes rest p :
  Forall (λ b, b ≠ LF ∧ (b = CR ∨ text_byte b = true)) bytes → 0 ≤ total p →
  total p + len bytes ≤ MAX_TOTAL → len (line p) + len bytes ≤ MAX_LINE →
  feed (bytes ++ rest) p = feed rest (mkParser (line p ++ bytes) (parsed p) (first_code p) (total p + len bytes)).
Proof.
  intros Hq. revert p. induction Hq as [|b bytes [HnLF Hb] Hq IH]; intros p Hz Ht Hl.
  { change (len []) with 0. rewrite app_nil_r, Z.add_0_r. by destruct p. }
  rewrite len_cons in Ht, Hl |- *. pose proof (len_nonneg bytes). cbn [app feed].
  pose proof usize_bounds. unfold u32_max, MAX_TOTAL in *.
  assert (Hpush : push b p = (Ok None, mkParser (line p ++ [b]) (parsed p) (first_code p) (total p + 1))).
  { unfold push, mbind, M_bind, get, put, modify, set_line, saturating_add. cbn [line parsed first_code total].
    rewrite Z.min_l by lia. unfold MAX_TOTAL. rewrite (proj2 (Z.ltb_ge _ _)), (proj2 (Z.leb_gt _ _)) by lia. cbn [orb].
    rewrite (proj2 (Z.eqb_neq b LF)) by done. cbn [negb].
    destruct Hb as [->|Hb]; [done|]. rewrite Hb. by rewrite andb_false_r. }
  erewrite run_bind by done. unfold mbind at 1, M_bind at 1.
  rewrite IH; cbn [line parsed first_code total]; [|lia|lia|rewrite len_app; change (len [b]) with 1; lia].
  rewrite <-app_assoc. replace (total p + 1 + len bytes) with (total p + (1 + len bytes)) by lia.
  cbn [app option_list]. by destruct (feed rest _) as [[] ?].
Qed.

(** [finish_line] on a line that was printed. *)
Lemma finish_line_run c sep text ls fc n :
  code_ok c → text_ok text → sep = 45 ∨ sep = 32 → len ls < MAX_LINES → (fc = None ∨ fc = Some c) →
  finish_line (mkParser ((code_digits c ++ sep :: text) ++ CRLF) ls fc n)
  = if sep =? 45 then (Ok None, mkParser [] (ls ++ [text]) (Some c) n)
    else (Ok (Some (mkReply c (ls ++ [text]))), parser_default).
Proof.
  intros Hc Htx Hsep Hls Hfc. pose proof (code_digits_ok c Hc) as (Hd0 & Hd1 & Hd2 & Hval).
  unfold finish_line, mbind, M_bind, get, put, modify, lift, mret, M_ret. cbn beta iota zeta.
  cbn [line parsed first_code total]. set (bytes := (code_digits c ++ sep :: text) ++ CRLF).
  assert (Hlb : len bytes = len text + 6).
  { subst bytes. rewrite !len_app, len_cons. change (len (code_digits c)) with 3. change (len CRLF) with 2. lia. }
  pose proof (len_nonneg text). rewrite (proj2 (Z.ltb_ge _ _)) by lia.
  unfold usub. rewrite (proj2 (Z.leb_le _ _)) by lia. cbn beta iota zeta.
  assert (Hcr : @index unit bytes (len bytes - 2) = Ok CR).
  { rewrite Hlb. subst bytes. unfold index.
    replace (len text + 6 - 2) with (len (code_digits c ++ sep :: text) + 0)
      by (rewrite len_app, len_cons; change (len (code_digits c)) with 3; lia).
    by rewrite byte_get_app. }
  rewrite Hcr. change (negb (CR =? CR)) with false. cbv iota.
  change (@index unit bytes 0) with (@Ok unit Z (48 + c / 100)).
  change (@index unit bytes 1) with (@Ok unit Z (48 + c / 10 mod 10)).
  change (@index unit bytes 2) with (@Ok unit Z (48 + c mod 10)).
  change (@index unit bytes 3) with (@Ok unit Z sep). cbn beta iota zeta.
  rewrite (proj2 (Z.eqb_neq (len bytes) 5)) by lia. rewrite Hd0, Hd1, Hd2. cbn [negb orb andb].
  replace ((sep =? 45) || (sep =? 32)) with true by (by destruct Hsep as [-> | ->]). cbn [negb].
  assert (slice bytes 4 (len bytes - 2) = Ok text :> outcome unit _) as ->.
  { replace (len bytes - 2) with (len (code_digits c ++ [sep]) + len text)
      by (rewrite Hlb, len_app; change (len (code_digits c)) with 3; change (len [sep]) with 1; lia).
    subst bytes. change 4 with (len (code_digits c ++ [sep])) at 1.
    replace ((code_digits c ++ sep :: text) ++ CRLF) with ((code_digits c ++ [sep]) ++ text ++ CRLF)
      by (by rewrite <-!app_assoc). apply slice_middle. }
  cbn beta iota zeta. replace (forallb text_byte text) with true.
  2:{ symmetry. apply forallb_forall. intros b Hb%list_elem_of_In. by apply (Forall_elem _ _ _ Htx). }
  cbn [negb]. rewrite Hval.
  replace (match fc with Some first => negb (first =? c) | None => false end) with false
    by (destruct Hfc as [-> | ->]; by rewrite ?Z.eqb_refl).
  rewrite (proj2 (Z.leb_gt _ _)) by lia. by destruct Hsep as [-> | ->].
Qed.

(** One line, up to its line feed. *)
Lemma feed_line p c sep text rest :
  code_ok c → text_ok text → sep = 45 ∨ sep = 32 → line p = [] → 0 ≤ total p →
  len text ≤ MAX_LINE - 6 → total p + len text + 6 ≤ MAX_TOTAL → len (parsed p) < MAX_LINES →
  (first_code p = None ∨ first_code p = Some c) →
  feed (code_digits c ++ sep :: text ++ CRLF ++ rest) p =
  if sep =? 45 then feed rest (mkParser [] (parsed p ++ [text]) (Some c) (total p + len text + 6))
  else (rs ← feed rest; mret (mkReply c (parsed p ++ [text]) :: rs)) parser_default.
Proof.
  intros Hc Htx Hsep Hline Hz Hlen Ht Hls Hfc. pose proof (code_digits_ok c Hc) as (Hd0 & Hd1 & Hd2 & Hval).
  change (code_digits c ++ sep :: text ++ CRLF ++ rest) with ((code_digits c ++ sep :: text) ++ [CR] ++ (LF :: rest)).
  rewrite app_assoc. assert (Hl4 : len ((code_digits c ++ sep :: text) ++ [CR]) = len text + 5).
  { rewrite !len_app, len_cons. change (len (code_digits c)) with 3. change (len [CR]) with 1. lia. }
  rewrite feed_quiet; [| |done|lia|rewrite Hline; change (len []) with 0; lia].
  2:{ apply Forall_app; split; [|constructor; [split; [done|by left]|done]]. apply Forall_app; split.
      - unfold in_range, is_ascii_digit, in_range in Hd0, Hd1, Hd2.
        rewrite !andb_true_iff, !Z.leb_le in Hd0, Hd1, Hd2. do 3 (constructor; [apply quiet_range; lia|]). constructor.
      - constructor; [|by apply quiet_text]. apply quiet_range. lia. }
  rewrite Hline, Hl4. cbn [app].
  cbn [feed]. unfold mbind at 1, M_bind at 1.
  assert (Hpush : push LF (mkParser ((code_digits c ++ sep :: text) ++ [CR]) (parsed p) (first_code p) (total p + (len text + 5)))
    = if sep =? 45 then (Ok None, mkParser [] (parsed p ++ [text]) (Some c) (total p + len text + 6))
      else (Ok (Some (mkReply c (parsed p ++ [text]))), parser_default)).
  { rewrite <-(finish_line_run c sep text (parsed p) (first_code p)) by done. unfold push, mbind, M_bind, get, put, modify, set_line, saturating_add.
    cbn [line parsed first_code total]. pose proof usize_bounds. pose proof (len_nonneg text).
    unfold u32_max, MAX_TOTAL, MAX_LINE in *.
    rewrite Z.min_l by lia. rewrite (proj2 (Z.ltb_ge _ _)), (proj2 (Z.leb_gt _ _)) by lia. cbn [orb].
    change (negb (LF =? LF)) with false. cbv iota. replace (total p + (len text + 5) + 1) with (total p + len text + 6) by lia.
    cbn [line parsed first_code total]. rewrite <-(app_assoc _ [CR] [LF]). done. }
  rewrite Hpush. destruct (sep =? 45); [|done]. cbn beta iota zeta. unfold mbind, M_bind.
  by destruct (feed rest _) as [[] ?].
Qed.

Lemma len_inner_line c t : len (inner_line c t) = len t + 6.
Proof. unfold inner_line. rewrite len_app, len_cons, len_app. change (len (code_digits c)) with 3. change (len CRLF) with 2. lia. Qed.

Lemma feed_reply_lines c init last rest p :
  code_ok c → Forall text_ok (init ++ [last]) → Forall (λ l, len l ≤ MAX_LINE - 6) (init ++ [last]) →
  line p = [] → 0 ≤ total p → (first_code p = None ∨ first_code p = Some c) →
  len (parsed p) + len init < MAX_LINES →
  total p + len (inner_lines c init) + len last + 6 ≤ MAX_TOTAL →
  feed (inner_lines c init ++ code_digits c ++ 32 :: last ++ CRLF ++ rest) p =
  (rs ← feed rest; mret (mkReply c (parsed p ++ init ++ [last]) :: rs)) parser_default.
Proof.
  intros Hc. revert p. induction init as [|t init IH]; intros p Htx Hsh Hl Hz Hfc Hn Ht; cbn [app] in Htx, Hsh.
  - apply Forall_cons in Htx as [Htx _]. apply Forall_cons in Hsh as [Hsh _].
    cbn [inner_lines map concat app]. rewrite feed_line; try done; [auto|change (len (inner_lines c [])) with 0 in Ht; lia|
      change (len []) with 0 in Hn; lia].
  - apply Forall_cons in Htx as [Ht1 Htx]. apply Forall_cons in Hsh as [Hs1 Hsh].
    change (inner_lines c (t :: init)) with (inner_line c t ++ inner_lines c init) in *.
    rewrite len_app, len_inner_line in Ht. rewrite len_cons in Hn.
    pose proof (len_nonneg init). pose proof (len_nonneg last). pose proof (len_nonneg t). pose proof (len_nonneg (inner_lines c init)).
    unfold inner_line at 1. rewrite <-!app_assoc. cbn [app]. rewrite <-!app_assoc.
    rewrite feed_line; try done; [|auto|lia..]. change (45 =? 45) with true. cbv iota.
    rewrite IH; try done; cbn [line parsed first_code total]; [|lia|auto|rewrite len_app; change (len [t]) with 1; lia|lia].
    by rewrite <-app_assoc.
Qed.

Lemma feed_printed r rest :
  sendable r → feed (print_reply r ++ rest) parser_default = (rs ← feed rest; mret (r :: rs)) parser_default.
Proof.
  intros (Hc & Hn & Htx & Hsh & Ht). unfold print_reply in *. destruct r as [c ls]. cbn [code lines] in *.
  destruct (reverse ls) as [|last init] eqn:Hrev.
  { apply (f_equal len) in Hrev. rewrite len_reverse in Hrev. change (len []) with 0 in Hrev. lia. }
  assert (Hls : ls = reverse init ++ [last]).
  { rewrite <-(reverse_involutive ls), Hrev. by rewrite reverse_cons. }
  rewrite Hls in *. rewrite !len_app, len_cons, len_app in Ht. change (len (code_digits c)) with 3 in Ht. change (len CRLF) with 2 in Ht.
  rewrite len_app in Hn. change (len [last]) with 1 in Hn.
  rewrite <-!app_assoc. cbn [app]. rewrite <-!app_assoc.
  rewrite feed_reply_lines; try done; cbn [line parsed first_code total parser_default]; [auto|change (len []) with 0; lia|lia].
Qed.

(** Every reply the server may send is read. For any sequence of
    replies within the parser's limits (code 200 to 559, 1 to 32 printable
    lines of at most 506 bytes, 8 KiB in all), the bytes that print them parse
    to the same replies in the same order, and leave the parser empty: a reply
    does not affect the next. *)
Theorem replies_roundtrip rs :
  Forall sendable rs →
  feed (concat (map print_reply rs)) parser_default = (Ok rs, parser_default).
Proof.
  induction 1 as [|r rs Hr _ IH]; [done|]. cbn [map concat]. rewrite feed_printed by done.
  unfold mbind, M_bind. by rewrite IH.
Qed.
End with_target.

Definition sample_replies : list Reply :=
  [mkReply 250 [bs "mx.example greets you"; bs "SIZE 1000"; bs "STARTTLS"]; mkReply 220 [bs ""]].

Lemma replies_roundtrip_witness :
  feed (tgt := target64) (concat (map print_reply sample_replies)) parser_default = (Ok sample_replies, parser_default).
Proof.
  apply (replies_roundtrip (tgt := target64)). unfold sample_replies.
  repeat (constructor; [unfold sendable; split_and!; try (unfold code_ok; by_eval); by_eval|]). constructor.
Defined.
