(* ===== verification/SmtpClient.v ===== *)
(** * The SMTP submission ([smtp/src/client.rs])

    [SendOperation] with every method of it. What the operation learns from
    outside (the clock and the answer of the one transport call a step makes)
    is the argument [env] of a step, so that theorems quantify over all
    servers, networks and schedules. The bytes the transport admits and the
    replies read from it are kept in a log, which the source does not have. *)

From stdpp Require Import base list strings.
From Stdlib Require Import ZArith Lia.
From S2P Require Import Prelude Errors Stream TcpIo SmtpWire.
Import Reply Data Requests.

(** ** Public outcome types *)

Module Stage.
Inductive t :=
| Connect | Greeting | Ehlo | StartTls | Upgrade | MailFrom | RcptTo (index : nat)
| DataCommand | DataBody | DataResult | Quit.
#[global] Instance t_eq_dec : EqDecision t.
Proof. solve_decision. Defined.
End Stage.

Module FailureReason.
Inductive t :=
| Cancelled | Timeout | Transport | Protocol | EngineStopped | StartTlsUnavailable
| NoAcceptedRecipients | RecipientsRejected.
#[global] Instance t_eq_dec : EqDecision t.
Proof. solve_decision. Defined.
End FailureReason.

Inductive RecipientStatus :=
| AcceptedForTransaction (reply : ReplySummary)
| RcptRejected (reply : ReplySummary)
| Unattempted
| Unresolved.
#[global] Instance RecipientStatus_eq_dec : EqDecision RecipientStatus.
Proof. solve_decision. Defined.

Record RecipientReport := mkReport { address : list Z; status : RecipientStatus }.
#[global] Instance RecipientReport_eq_dec : EqDecision RecipientReport.
Proof. solve_decision. Defined.

Inductive Delivery :=
| Accepted (reply : ReplySummary)
| Rejected (stage : Stage.t) (reply : ReplySummary)
| NotAccepted (stage : Stage.t) (reason : FailureReason.t)
| Uncertain (stage : Stage.t) (reason : FailureReason.t).
#[global] Instance Delivery_eq_dec : EqDecision Delivery.
Proof. solve_decision. Defined.

Record SendOutcome := mkOutcome {
  out_recipients : list RecipientReport; delivery : Delivery;
  out_diagnostic : option TransportDiagnostic
}.
#[global] Instance SendOutcome_eq_dec : EqDecision SendOutcome.
Proof. solve_decision. Defined.

(** ** Requests *)

Inductive TlsPolicy := Implicit | RequiredStartTls.
#[global] Instance TlsPolicy_eq_dec : EqDecision TlsPolicy.
Proof. solve_decision. Defined.
Inductive RecipientPolicy := RequireAllRecipients | AcceptedRecipients.
#[global] Instance RecipientPolicy_eq_dec : EqDecision RecipientPolicy.
Proof. solve_decision. Defined.

(** Of the server, the policy and the send queue of its connect request; the
    timeouts are durations in one unit of the clock. *)
Record SendRequest := mkRequest {
  policy : TlsPolicy; send_queue_bytes : option Z;
  ehlo_name : list Z; envelope : Envelope; prepared_message : list Z;
  recipient_policy : RecipientPolicy;
  command_timeout : Z; overall_timeout : Z; tls_timeout : Z
}.

Definition SendRequest_new `{Target} (server : TlsPolicy * option Z * Z) (ehlo_name : list Z)
    (envelope : Envelope) (message : list Z) (capacity : Z) (seconds : Z → Z)
  : outcome SmtpError SendRequest :=
  _ ← validate_ehlo ehlo_name;
  _ ← validate_message message capacity;
  let '(policy, queue, tls) := server in
  Ok (mkRequest policy queue ehlo_name envelope message RequireAllRecipients (seconds 30) (seconds 120) tls).

(** ** Phases *)

Inductive Phase :=
| PhConnect | PhGreeting | PhEhloSend | PhEhloReply | PhStartTlsSend | PhStartTlsReply | PhUpgrade
| PhMailSend | PhMailReply | PhRcptSend (index : nat) | PhRcptReply (index : nat)
| PhDataSend | PhDataReply | PhDataBody | PhTerminatorSend | PhDataResult
| PhQuitSend | PhQuitReply | PhFinish.
#[global] Instance Phase_eq_dec : EqDecision Phase.
Proof. solve_decision. Defined.

Definition public (p : Phase) : Stage.t :=
  match p with
  | PhConnect => Stage.Connect
  | PhGreeting => Stage.Greeting
  | PhEhloSend | PhEhloReply => Stage.Ehlo
  | PhStartTlsSend | PhStartTlsReply => Stage.StartTls
  | PhUpgrade => Stage.Upgrade
  | PhMailSend | PhMailReply => Stage.MailFrom
  | PhRcptSend index | PhRcptReply index => Stage.RcptTo index
  | PhDataSend | PhDataReply => Stage.DataCommand
  | PhDataBody | PhTerminatorSend => Stage.DataBody
  | PhDataResult => Stage.DataResult
  | PhQuitSend | PhQuitReply | PhFinish => Stage.Quit
  end.

(** Cleartext or TLS: the variants of [PendingConnect] and of [Transport],
    without the connection inside. *)
Inductive Channel := Plain | Tls.
#[global] Instance Channel_eq_dec : EqDecision Channel.
Proof. solve_decision. Defined.

Record Outbound := mkOutbound { ob_bytes : list Z; ob_offset : Z; ob_retry : option (list Z) }.
Definition Outbound_new (bytes : list Z) : Outbound := mkOutbound bytes 0 None.

Inductive SendStep := SendPending | SendProgress (bytes : Z) | SendDone (bytes : Z) | SendFailed (reason : FailureReason.t).
Inductive ReadStep := ReadPending | ReadProgress | ReadComplete (reply : Reply) | ReadFailed (reason : FailureReason.t).

Definition MAX_STEPS_PER_POLL : nat := 64.
Definition MAX_DATA_BYTES_PER_POLL : Z := 16 * 1024.
Definition MAX_STAGING : Z := 2048.

(** ** Answers of the transport, as the NBReq API declares them *)

Inductive ConnectAnswer := ConnectTimedOut | ConnectCompleted | ConnectFailed (error : Error) | ConnectCancelled.

(** A read into one byte: how many bytes it claims, and the byte. *)
Inductive ReadAnswer := AnsPending | AnsData (count byte : Z) | AnsEof | AnsError (error : TcpStreamError).
Inductive FinishAnswer := FinishPending | FinishFinished | FinishError.

(** [try_send] admits all of its bytes or returns them unchanged. *)
Record env := mkEnv {
  e_now : Z;               (* [Instant::now] in [poll] *)
  e_set_now : Z;           (* [Instant::now] in [set_phase] *)
  e_connect : ConnectAnswer;
  e_send : option TcpSendErrorKind;
  e_read : ReadAnswer;
  e_finish : FinishAnswer;
  e_upgrade : option Error (* [submit_tls] *)
}.

Inductive event := Sent (on : Channel) (bytes : list Z) | Got (on : Channel) (reply : Reply).

Record SendOperation := mkOperation {
  request : option SendRequest; phase : Phase; pending : option Channel; transport : option Channel;
  parser : ReplyParser; outbound : option Outbound; data : option DataEncoder;
  reports : list RecipientReport; op_outcome : option SendOutcome; accepted : option ReplySummary;
  transport_diagnostic : option TransportDiagnostic; terminator_admitted : bool;
  send_limit : Z; phase_deadline : Z; overall_deadline : Z;
  log : list event
}.

Definition set_request v o := mkOperation v (phase o) (pending o) (transport o) (parser o) (outbound o) (data o) (reports o) (op_outcome o) (accepted o) (transport_diagnostic o) (terminator_admitted o) (send_limit o) (phase_deadline o) (overall_deadline o) (log o).
Definition set_phase_field v o := mkOperation (request o) v (pending o) (transport o) (parser o) (outbound o) (data o) (reports o) (op_outcome o) (accepted o) (transport_diagnostic o) (terminator_admitted o) (send_limit o) (phase_deadline o) (overall_deadline o) (log o).
Definition set_pending v o := mkOperation (request o) (phase o) v (transport o) (parser o) (outbound o) (data o) (reports o) (op_outcome o) (accepted o) (transport_diagnostic o) (terminator_admitted o) (send_limit o) (phase_deadline o) (overall_deadline o) (log o).
Definition set_transport v o := mkOperation (request o) (phase o) (pending o) v (parser o) (outbound o) (data o) (reports o) (op_outcome o) (accepted o) (transport_diagnostic o) (terminator_admitted o) (send_limit o) (phase_deadline o) (overall_deadline o) (log o).
Definition set_parser v o := mkOperation (request o) (phase o) (pending o) (transport o) v (outbound o) (data o) (reports o) (op_outcome o) (accepted o) (transport_diagnostic o) (terminator_admitted o) (send_limit o) (phase_deadline o) (overall_deadline o) (log o).
Definition set_outbound v o := mkOperation (request o) (phase o) (pending o) (transport o) (parser o) v (data o) (reports o) (op_outcome o) (accepted o) (transport_diagnostic o) (terminator_admitted o) (send_limit o) (phase_deadline o) (overall_deadline o) (log o).
Definition set_data v o := mkOperation (request o) (phase o) (pending o) (transport o) (parser o) (outbound o) v (reports o) (op_outcome o) (accepted o) (transport_diagnostic o) (terminator_admitted o) (send_limit o) (phase_deadline o) (overall_deadline o) (log o).
Definition set_reports v o := mkOperation (request o) (phase o) (pending o) (transport o) (parser o) (outbound o) (data o) v (op_outcome o) (accepted o) (transport_diagnostic o) (terminator_admitted o) (send_limit o) (phase_deadline o) (overall_deadline o) (log o).
Definition set_outcome v o := mkOperation (request o) (phase o) (pending o) (transport o) (parser o) (outbound o) (data o) (reports o) v (accepted o) (transport_diagnostic o) (terminator_admitted o) (send_limit o) (phase_deadline o) (overall_deadline o) (log o).
Definition set_accepted v o := mkOperation (request o) (phase o) (pending o) (transport o) (parser o) (outbound o) (data o) (reports o) (op_outcome o) v (transport_diagnostic o) (terminator_admitted o) (send_limit o) (phase_deadline o) (overall_deadline o) (log o).
Definition set_diagnostic v o := mkOperation (request o) (phase o) (pending o) (transport o) (parser o) (outbound o) (data o) (reports o) (op_outcome o) (accepted o) v (terminator_admitted o) (send_limit o) (phase_deadline o) (overall_deadline o) (log o).
Definition set_terminator v o := mkOperation (request o) (phase o) (pending o) (transport o) (parser o) (outbound o) (data o) (reports o) (op_outcome o) (accepted o) (transport_diagnostic o) v (send_limit o) (phase_deadline o) (overall_deadline o) (log o).
Definition set_send_limit v o := mkOperation (request o) (phase o) (pending o) (transport o) (parser o) (outbound o) (data o) (reports o) (op_outcome o) (accepted o) (transport_diagnostic o) (terminator_admitted o) v (phase_deadline o) (overall_deadline o) (log o).
Definition set_phase_deadline v o := mkOperation (request o) (phase o) (pending o) (transport o) (parser o) (outbound o) (data o) (reports o) (op_outcome o) (accepted o) (transport_diagnostic o) (terminator_admitted o) (send_limit o) v (overall_deadline o) (log o).
Definition log_event v o := mkOperation (request o) (phase o) (pending o) (transport o) (parser o) (outbound o) (data o) (reports o) (op_outcome o) (accepted o) (transport_diagnostic o) (terminator_admitted o) (send_limit o) (phase_deadline o) (overall_deadline o) (log o ++ [v]).

(** ** Methods *)

Section with_target.
Context {tgt : Target}.
(** The last representable [Instant]. *)
Context (instant_max : Z).

Definition MO := M SendOperation Empty_set.

Definition the_request : MO SendRequest :=
  o ← get; match request o with Some r => mret r | None => panic end.

Definition reason_from_error (e : Error) : FailureReason.t :=
  match kind e with
  | ErrorKind.Timeout => FailureReason.Timeout
  | ErrorKind.EngineStopped => FailureReason.EngineStopped
  | _ => FailureReason.Transport
  end.

Definition set_phase (e : env) (p : Phase) : MO unit :=
  _ ← modify (set_phase_field p);
  r ← the_request;
  modify (λ o, set_phase_deadline
    (Z.min (default (overall_deadline o) (checked_add instant_max (e_set_now e) (command_timeout r)))
           (overall_deadline o)) o).

Definition command (e : env) (p : Phase) (bytes : list Z) : MO unit :=
  _ ← set_phase e p; modify (set_outbound (Some (Outbound_new bytes))).

(** Cancelling a connection that is dropped has no effect on the operation. *)
Definition abort_transport (o : SendOperation) : SendOperation :=
  set_data None (set_outbound None (set_transport None (set_pending None o))).

Definition terminal (d : Delivery) (o : SendOperation) : SendOperation :=
  match op_outcome o with
  | Some _ => o
  | None =>
      let o := set_request None (abort_transport o) in
      set_diagnostic None (set_reports []
        (set_outcome (Some (mkOutcome (reports o) d (transport_diagnostic o))) o))
  end.

Definition fail_with (reason : FailureReason.t) (o : SendOperation) : SendOperation :=
  match accepted o with
  | Some reply => terminal (Accepted reply) (set_accepted None o)
  | None =>
      if terminator_admitted o then terminal (Uncertain (public (phase o)) reason) o
      else terminal (NotAccepted (public (phase o)) reason) o
  end.

Definition reject (reply : Reply) (o : SendOperation) : SendOperation :=
  terminal (Rejected (public (phase o)) (summary reply)) o.

Definition ehlo_command (r : SendRequest) : list Z := bs "EHLO " ++ ehlo_name r ++ CRLF.

Definition poll_connect (e : env) : MO bool :=
  o ← get;
  match pending o with
  | None => _ ← modify (fail_with FailureReason.Protocol); mret false
  | Some channel =>
      _ ← modify (set_pending None);
      match e_connect e with
      | ConnectTimedOut => _ ← modify (set_pending (Some channel)); mret false
      | ConnectCompleted =>
          _ ← modify (set_transport (Some channel));
          _ ← (match channel with
               | Tls => if bool_decide (phase o = PhUpgrade)
                        then r ← the_request; command e PhEhloSend (ehlo_command r)
                        else set_phase e PhGreeting
               | Plain => set_phase e PhGreeting
               end);
          mret true
      | ConnectFailed error =>
          _ ← modify (set_diagnostic (Some (diagnostic_from error)));
          _ ← modify (fail_with (reason_from_error error)); mret true
      | ConnectCancelled => _ ← modify (fail_with FailureReason.Cancelled); mret true
      end
  end.

(** Running the parser in place. *)
Definition parser_push (byte : Z) : MO (option (option Reply)) := λ o,
  match push byte (parser o) with
  | (Ok r, p) => (Ok (Some r), set_parser p o)
  | (Err _, p) => (Ok None, set_parser p o)
  | (Panic, p) => (Panic, set_parser p o)
  | (Diverge, p) => (Diverge, set_parser p o)
  end.

Definition read_step (e : env) : MO ReadStep :=
  o ← get;
  match transport o with
  | None => mret (ReadFailed FailureReason.Transport)
  | Some channel =>
      match e_read e with
      | AnsPending => mret ReadPending
      | AnsData count byte =>
          if count =? 1 then
            r ← parser_push byte;
            match r with
            | Some (Some reply) => _ ← modify (log_event (Got channel reply)); mret (ReadComplete reply)
            | Some None => mret ReadProgress
            | None => mret (ReadFailed FailureReason.Protocol)
            end
          else mret (ReadFailed FailureReason.Transport)
      | AnsEof => mret (ReadFailed FailureReason.Transport)
      | AnsError (StreamFailed error) | AnsError (StreamOperation error) =>
          _ ← modify (set_diagnostic (Some (diagnostic_from error)));
          mret (ReadFailed (reason_from_error error))
      | AnsError StreamCancelled => mret (ReadFailed FailureReason.Cancelled)
      | AnsError StreamReset => mret (ReadFailed FailureReason.Transport)
      end
  end.

(** [Outbound::step] on the outbound [ob] of the operation. *)
Definition outbound_step (e : env) (channel : Channel) (ob : Outbound) : MO SendStep :=
  if ob_offset ob =? len (ob_bytes ob) then mret (SendDone 0)
  else
    o ← get;
    candidate ← (match ob_retry ob with
                 | Some bytes => mret bytes
                 | None =>
                     sum ← lift (uadd (ob_offset ob) (send_limit o));
                     lift (slice (ob_bytes ob) (ob_offset ob) (Z.min sum (len (ob_bytes ob))))
                 end);
    let length := len candidate in
    match e_send e with
    | None =>
        offset ← lift (uadd (ob_offset ob) length);
        _ ← modify (λ o, log_event (Sent channel candidate)
                           (set_outbound (Some (mkOutbound (ob_bytes ob) offset None)) o));
        mret (if offset =? len (ob_bytes ob) then SendDone length else SendProgress length)
    | Some WouldBlock =>
        _ ← modify (set_outbound (Some (mkOutbound (ob_bytes ob) (ob_offset ob) (Some candidate))));
        mret SendPending
    | Some k =>
        _ ← modify (set_outbound (Some (mkOutbound (ob_bytes ob) (ob_offset ob) None)));
        if bool_decide (k = ChunkTooLarge) && (1 <? send_limit o)
        then _ ← modify (set_send_limit (Z.max (send_limit o / 2) 1)); mret (SendProgress 0)
        else mret (SendFailed (match k with
                               | SendEngineStopped => FailureReason.EngineStopped
                               | SendCancelled => FailureReason.Cancelled
                               | _ => FailureReason.Transport
                               end))
    end.

Definition send_step (e : env) : MO SendStep :=
  o ← get;
  match outbound o, transport o with
  | Some ob, Some channel => outbound_step e channel ob
  | _, _ => mret (SendFailed FailureReason.Transport)
  end.

Definition after_command (e : env) : MO unit :=
  o ← get;
  match phase o with
  | PhEhloSend => modify (set_phase_field PhEhloReply)
  | PhStartTlsSend => modify (set_phase_field PhStartTlsReply)
  | PhMailSend => modify (set_phase_field PhMailReply)
  | PhRcptSend index =>
      match reports o !! index with
      | None => panic
      | Some report =>
          _ ← modify (set_reports (<[index := mkReport (address report) Unresolved]> (reports o)));
          modify (set_phase_field (PhRcptReply index))
      end
  | PhDataSend => modify (set_phase_field PhDataReply)
  | PhTerminatorSend => _ ← modify (set_terminator true); set_phase e PhDataResult
  | PhQuitSend => modify (set_phase_field PhQuitReply)
  | _ => modify (fail_with FailureReason.Protocol)
  end.

Definition mail_command (from : list Z) : list Z :=
  if bool_decide (from = []) then bs "MAIL FROM:<>" ++ CRLF else bs "MAIL FROM:<" ++ from ++ bs ">" ++ CRLF.
Definition rcpt_command (address : list Z) : list Z := bs "RCPT TO:<" ++ address ++ bs ">" ++ CRLF.

Definition start_mail (e : env) : MO unit :=
  r ← the_request; command e PhMailSend (mail_command (from (envelope r))).

Definition start_rcpt (e : env) (index : nat) : MO unit :=
  r ← the_request;
  match recipients (envelope r) !! index with
  | None => panic
  | Some address => command e (PhRcptSend index) (rcpt_command address)
  end.

Definition is_accepted (r : RecipientReport) : bool :=
  match status r with AcceptedForTransaction _ => true | _ => false end.
Definition is_rejected (r : RecipientReport) : bool :=
  match status r with RcptRejected _ => true | _ => false end.

Definition positive (code : Z) : bool := in_range 200 299 code.
Definition negative (code : Z) : bool := in_range 400 599 code.

(** The common end of a branch on the reply code: reject or fail. *)
Definition refuse (reply : Reply) : MO unit :=
  if negative (code reply) then modify (reject reply) else modify (fail_with FailureReason.Protocol).

Definition set_status (index : nat) (s : RecipientStatus) : MO unit :=
  o ← get;
  match reports o !! index with
  | None => panic
  | Some report => modify (set_reports (<[index := mkReport (address report) s]> (reports o)))
  end.

(** The end of the RCPT branch, once the status is recorded. *)
Definition after_rcpt (e : env) (index : nat) : MO unit :=
  r ← the_request;
  if (S index <? length (recipients (envelope r)))%nat then start_rcpt e (S index)
  else
    o ← get;
    if negb (existsb is_accepted (reports o)) then modify (fail_with FailureReason.NoAcceptedRecipients)
    else if existsb is_rejected (reports o) && bool_decide (recipient_policy r = RequireAllRecipients)
    then modify (fail_with FailureReason.RecipientsRejected)
    else command e PhDataSend (bs "DATA" ++ CRLF).

Definition handle_reply (e : env) (reply : Reply) : MO unit :=
  o ← get;
  let c := code reply in
  match phase o with
  | PhGreeting =>
      if positive c then r ← the_request; command e PhEhloSend (ehlo_command r) else refuse reply
  | PhEhloReply =>
      if positive c then
        r ← the_request;
        if bool_decide (policy r = RequiredStartTls) && bool_decide (transport o = Some Plain) then
          if advertises (bs "STARTTLS") reply then command e PhStartTlsSend (bs "STARTTLS" ++ CRLF)
          else modify (fail_with FailureReason.StartTlsUnavailable)
        else start_mail e
      else refuse reply
  | PhStartTlsReply =>
      if c =? 220 then
        _ ← modify (set_transport None);
        if negb (bool_decide (transport o = Some Plain)) then modify (fail_with FailureReason.Protocol)
        else
          _ ← the_request;
          match e_upgrade e with
          | None => _ ← modify (set_pending (Some Tls)); set_phase e PhUpgrade
          | Some error =>
              _ ← modify (set_diagnostic (Some (diagnostic_from error)));
              modify (fail_with (reason_from_error error))
          end
      else refuse reply
  | PhMailReply => if positive c then start_rcpt e 0 else refuse reply
  | PhRcptReply index =>
      if positive c then _ ← set_status index (AcceptedForTransaction (summary reply)); after_rcpt e index
      else if negative c then
        _ ← set_status index (RcptRejected (summary reply));
        if c =? 421 then modify (reject reply) else after_rcpt e index
      else modify (fail_with FailureReason.Protocol)
  | PhDataReply =>
      if in_range 300 399 c then
        r ← the_request;
        _ ← modify (set_data (Some (data_new (prepared_message r)))); set_phase e PhDataBody
      else refuse reply
  | PhDataResult =>
      if positive c then
        _ ← modify (set_accepted (Some (summary reply))); command e PhQuitSend (bs "QUIT" ++ CRLF)
      else refuse reply
  | PhQuitReply =>
      if positive c && bool_decide (is_Some (accepted o)) then set_phase e PhFinish
      else modify (fail_with FailureReason.Protocol)
  | _ => modify (fail_with FailureReason.Protocol)
  end.

(** The [DataBody] arm, with the count of data bytes of this poll. *)
Definition send_data (e : env) (data_bytes : Z) : MO (bool * Z) :=
  s ← send_step e;
  match s with
  | SendPending => mret (false, data_bytes)
  | SendProgress n => total ← lift (uadd data_bytes n); mret (true, total)
  | SendDone n =>
      total ← lift (uadd data_bytes n);
      _ ← modify (set_outbound None); mret (true, total)
  | SendFailed reason => _ ← modify (fail_with reason); mret (false, data_bytes)
  end.

Definition advance_data (e : env) (data_bytes : Z) : MO (bool * Z) :=
  if MAX_DATA_BYTES_PER_POLL <=? data_bytes then mret (false, data_bytes)
  else
    o ← get;
    match outbound o with
    | Some _ => send_data e data_bytes
    | None =>
        match request o, data o with
        | Some r, Some d =>
            if finished (prepared_message r) d
            then _ ← command e PhTerminatorSend (bs "." ++ CRLF); mret (true, data_bytes)
            else
              let limit := Z.min MAX_STAGING (MAX_DATA_BYTES_PER_POLL - data_bytes) in
              let '(chunk, d') := next_chunk (Z.to_nat limit) (prepared_message r) d in
              _ ← modify (λ o, set_outbound (Some (Outbound_new chunk)) (set_data (Some d') o));
              send_data e data_bytes
        | _, _ => panic
        end
    end.

Definition advance_read (e : env) : MO bool :=
  s ← read_step e;
  match s with
  | ReadPending => mret false
  | ReadProgress => mret true
  | ReadComplete reply => _ ← handle_reply e reply; mret true
  | ReadFailed reason => _ ← modify (fail_with reason); mret false
  end.

Definition advance_send (e : env) : MO bool :=
  s ← send_step e;
  match s with
  | SendPending => mret false
  | SendProgress _ => mret true
  | SendDone _ => _ ← modify (set_outbound None); _ ← after_command e; mret true
  | SendFailed reason => _ ← modify (fail_with reason); mret false
  end.

Definition advance_finish (e : env) : MO bool :=
  o ← get;
  match transport o with
  | None => _ ← modify (fail_with FailureReason.Transport); mret false
  | Some _ =>
      match e_finish e with
      | FinishPending => mret false
      | FinishFinished => _ ← modify (fail_with FailureReason.Protocol); mret true
      | FinishError => _ ← modify (fail_with FailureReason.Transport); mret false
      end
  end.

Definition advance (e : env) (data_bytes : Z) : MO (bool * Z) :=
  o ← get;
  match phase o with
  | PhConnect | PhUpgrade => b ← poll_connect e; mret (b, data_bytes)
  | PhGreeting | PhEhloReply | PhStartTlsReply | PhMailReply | PhRcptReply _ | PhDataReply
  | PhDataResult | PhQuitReply => b ← advance_read e; mret (b, data_bytes)
  | PhEhloSend | PhStartTlsSend | PhMailSend | PhRcptSend _ | PhDataSend | PhTerminatorSend
  | PhQuitSend => b ← advance_send e; mret (b, data_bytes)
  | PhDataBody => advance_data e data_bytes
  | PhFinish => b ← advance_finish e; mret (b, data_bytes)
  end.

(** The loop of [poll]; [es i] answers its [i]th pass. *)
Fixpoint poll_loop (steps : nat) (es : nat → env) (data_bytes : Z) : MO unit :=
  match steps with
  | O => mret tt
  | S steps' =>
      o ← get;
      if bool_decide (is_Some (op_outcome o)) then mret tt
      else if (overall_deadline o <=? e_now (es O)) || (phase_deadline o <=? e_now (es O))
      then modify (fail_with FailureReason.Timeout)
      else
        '(more, total) ← advance (es O) data_bytes;
        if more : bool then poll_loop steps' (λ i, es (S i)) total else mret tt
  end.

Definition poll (es : nat → env) : MO (option SendOutcome) :=
  _ ← poll_loop MAX_STEPS_PER_POLL es 0; o ← get; mret (op_outcome o).

Definition cancel (o : SendOperation) : SendOperation :=
  match op_outcome o with Some _ => o | None => fail_with FailureReason.Cancelled o end.

Definition drop_operation (o : SendOperation) : SendOperation := abort_transport o.

(** ** Submission *)

Definition validate_deadlines (r : SendRequest) (now : Z) : outcome SmtpError unit :=
  if (command_timeout r =? 0) || (overall_timeout r =? 0) || (tls_timeout r =? 0)
     || bool_decide (checked_add instant_max now (command_timeout r) = None)
     || bool_decide (checked_add instant_max now (overall_timeout r) = None)
     || bool_decide (checked_add instant_max now (tls_timeout r) = None)
  then Err (invalid "SMTP and TLS timeouts must be finite, positive, and representable")
  else Ok tt.

(** [admission] is the connector's refusal, if it refuses. *)
Definition submit (r : SendRequest) (checked now : Z) (admission : option Error) : outcome SmtpError SendOperation :=
  _ ← validate_deadlines r checked;
  overall ← ok_or (checked_add instant_max now (overall_timeout r))
              (invalid "SMTP overall deadline cannot be represented");
  command ← ok_or (checked_add instant_max now (command_timeout r))
              (invalid "SMTP command deadline cannot be represented");
  let send_limit := Z.min (default MAX_STAGING (send_queue_bytes r)) MAX_STAGING in
  channel ← (match policy r, admission with
             | Implicit, Some error => Err (smtp_error_transport error "SMTP TLS connection admission failed")
             | Implicit, None => Ok Tls
             | RequiredStartTls, Some error => Err (smtp_error_transport error "SMTP TCP connection admission failed")
             | RequiredStartTls, None => Ok Plain
             end);
  Ok (mkOperation (Some r) PhConnect (Some channel) None parser_default None None
        (map (λ a, mkReport a Unattempted) (recipients (envelope r))) None None None false
        send_limit command overall []).

(** [send_blocking]: polling until there is an outcome, which is taken. The
    [i]th poll sees [es i]; [fuel] bounds the polls. *)
Fixpoint blocking_loop (fuel : nat) (es : nat → nat → env) (o : SendOperation) : outcome SmtpError SendOutcome :=
  match fuel with
  | O => Diverge
  | S fuel' =>
      match poll (es O) o with
      | (Ok (Some out), _) => Ok out
      | (Ok None, o') => blocking_loop fuel' (λ i, es (S i)) o'
      | (Panic, _) => Panic
      | (_, _) => Diverge
      end
  end.

Definition send_blocking (mode : RunMode) (r : SendRequest) (checked now : Z) (admission : option Error)
    (fuel : nat) (es : nat → nat → env) : outcome SmtpError SendOutcome :=
  if negb (bool_decide (mode = Spawned))
  then Err (smtp_error_new WrongMode "blocking SMTP send requires a spawned Engine")
  else o ← submit r checked now admission; blocking_loop fuel es o.
End with_target.
