(* ===== verification/SmtpClientProofs.v ===== *)
(** * Correctness of an SMTP submission

    Whatever the server, the network and the clock do: what is sent is a
    prefix of one fixed conversation, of which nothing but EHLO and STARTTLS
    is in cleartext, and the outcome tells the truth about it. *)

From stdpp Require Import base list strings.
From Stdlib Require Import ZArith Lia.
From S2P Require Import Prelude Errors Stream TcpIo SmtpWire SmtpWireProofs SmtpReplyProofs SmtpClient.
Import Reply Data Requests DataProofs.

#[local] Arguments len : simpl never.
#[local] Arguments bs : simpl never.
#[local] Arguments ehlo_command : simpl never.
#[local] Arguments mail_command : simpl never.
#[local] Arguments rcpt_command : simpl never.

(** ** The conversation *)

Definition sent_by (ch : Channel) (e : event) : list Z :=
  match e with Sent on bytes => if decide (on = ch) then bytes else [] | Got _ _ => [] end.
(** The bytes admitted on a channel. *)
Definition sent (ch : Channel) (l : list event) : list Z := concat (map (sent_by ch) l).
#[local] Arguments sent : simpl never.

Lemma sent_app ch a b : sent ch (a ++ b) = sent ch a ++ sent ch b.
Proof. unfold sent. by rewrite map_app, concat_app. Qed.
Lemma sent_got ch l on reply : sent ch (l ++ [Got on reply]) = sent ch l.
Proof. rewrite sent_app. unfold sent at 2. cbn. by rewrite app_nil_r. Qed.
Lemma sent_same ch l bytes : sent ch (l ++ [Sent ch bytes]) = sent ch l ++ bytes.
Proof. rewrite sent_app. unfold sent at 2. cbn. by rewrite decide_True, app_nil_r. Qed.
Lemma sent_other ch on l bytes : on ≠ ch → sent ch (l ++ [Sent on bytes]) = sent ch l.
Proof. intros. rewrite sent_app. unfold sent at 2. cbn. by rewrite decide_False, app_nil_r. Qed.

Section script.
Context (r : SendRequest).

Definition plain_script : list Z :=
  match policy r with Implicit => [] | RequiredStartTls => ehlo_command r ++ bs "STARTTLS" ++ CRLF end.

Definition count : nat := length (recipients (envelope r)).
Definition through_mail : list Z := ehlo_command r ++ mail_command (from (envelope r)).
(** Through the RCPT commands of the first [n] recipients. *)
Definition through_rcpt (n : nat) : list Z :=
  through_mail ++ concat (map rcpt_command (take n (recipients (envelope r)))).
Definition through_data_command : list Z := through_rcpt count ++ bs "DATA" ++ CRLF.
Definition through_body : list Z := through_data_command ++ stuff true (padded (prepared_message r)).
Definition through_terminator : list Z := through_body ++ bs "." ++ CRLF.
Definition full_script : list Z := through_terminator ++ bs "QUIT" ++ CRLF.

#[local] Arguments plain_script : simpl never.
#[local] Arguments through_mail : simpl never.
#[local] Arguments through_rcpt : simpl never.
#[local] Arguments through_data_command : simpl never.
#[local] Arguments through_body : simpl never.
#[local] Arguments through_terminator : simpl never.
#[local] Arguments full_script : simpl never.

(** The server answered with [P] right after the bytes [upto] were sent over
    TLS. *)
Definition answered (l : list event) (upto : list Z) (P : Reply → Prop) : Prop :=
  ∃ pre reply post, l = pre ++ Got Tls reply :: post ∧ sent Tls pre = upto ∧ P reply.

Definition status_ok (l : list event) (i : nat) (s : RecipientStatus) : Prop :=
  match s with
  | AcceptedForTransaction rep =>
      answered l (through_rcpt (S i)) (λ reply, positive (code reply) = true ∧ summary reply = rep)
  | RcptRejected rep =>
      answered l (through_rcpt (S i)) (λ reply, negative (code reply) = true ∧ summary reply = rep)
  | Unattempted => len (sent Tls l) < len (through_rcpt (S i))
  | Unresolved => sent Tls l = through_rcpt (S i)
  end.

Definition policy_ok (rs : list RecipientReport) : Prop :=
  existsb is_accepted rs = true ∧
  (recipient_policy r = RequireAllRecipients → forallb is_accepted rs = true).

(** What holds of the log and the reports at any time. *)
Record transcript_ok (l : list event) (rs : list RecipientReport) : Prop := {
  t_addresses : map address rs = recipients (envelope r);
  t_plain : sent Plain l `prefix_of` plain_script;
  t_tls : sent Tls l `prefix_of` full_script;
  t_order : sent Tls l ≠ [] → sent Plain l = plain_script;
  t_status : ∀ i rep, rs !! i = Some rep → status_ok l i (status rep);
  t_policy : len (through_rcpt count) < len (sent Tls l) → policy_ok rs;
}.

Definition final_answer (s : ReplySummary) (reply : Reply) : Prop :=
  positive (code reply) = true ∧ summary reply = s.

Definition delivery_ok (l : list event) (d : Delivery) : Prop :=
  match d with
  | Accepted s => answered l through_terminator (final_answer s)
  | Rejected _ s => ∃ pre ch reply, l = pre ++ [Got ch reply] ∧ negative (code reply) = true ∧ summary reply = s
  | NotAccepted _ _ => len (sent Tls l) < len through_terminator
  | Uncertain _ _ => sent Tls l = through_terminator
  end.

(** The operation between steps, as far as [fail] looks at it. *)
Record core (o : SendOperation) : Prop := {
  c_active : op_outcome o = None;
  c_transcript : transcript_ok (log o) (reports o);
  c_accepted : ∀ s, accepted o = Some s → answered (log o) through_terminator (final_answer s);
  c_terminator : accepted o = None →
    if terminator_admitted o then sent Tls (log o) = through_terminator
    else len (sent Tls (log o)) < len through_terminator;
}.

Definition final (o : SendOperation) : Prop :=
  ∃ out, op_outcome o = Some out ∧ request o = None ∧
    transcript_ok (log o) (out_recipients out) ∧ delivery_ok (log o) (delivery out).

(** ** The operation between steps *)

Definition first_channel : Channel := match policy r with Implicit => Tls | RequiredStartTls => Plain end.

(** What will have been sent over TLS when the command of the phase is. *)
Definition tls_goal (p : Phase) : list Z :=
  match p with
  | PhConnect | PhGreeting | PhEhloSend | PhEhloReply | PhStartTlsSend | PhStartTlsReply | PhUpgrade => ehlo_command r
  | PhMailSend | PhMailReply => through_mail
  | PhRcptSend i | PhRcptReply i => through_rcpt (S i)
  | PhDataSend | PhDataReply => through_data_command
  | PhDataBody => through_body
  | PhTerminatorSend | PhDataResult => through_terminator
  | PhQuitSend | PhQuitReply | PhFinish => full_script
  end.

Definition wire_inv (p : Phase) (pend trans : option Channel) (P T todo : list Z) : Prop :=
  match p with
  | PhConnect => pend = Some first_channel ∧ P = [] ∧ T = []
  | PhGreeting => trans = Some first_channel ∧ P = [] ∧ T = []
  | PhEhloSend | PhEhloReply =>
      (trans = Some Plain ∧ policy r = RequiredStartTls ∧ T = [] ∧ P ++ todo = ehlo_command r) ∨
      (trans = Some Tls ∧ P = plain_script ∧ T ++ todo = ehlo_command r)
  | PhStartTlsSend | PhStartTlsReply =>
      trans = Some Plain ∧ policy r = RequiredStartTls ∧ T = [] ∧ P ++ todo = plain_script
  | PhUpgrade => pend = Some Tls ∧ P = plain_script ∧ T = []
  | p => trans = Some Tls ∧ P = plain_script ∧ T ++ todo = tls_goal p
  end.

Definition sending (p : Phase) : bool :=
  match p with
  | PhEhloSend | PhStartTlsSend | PhMailSend | PhRcptSend _ | PhDataSend | PhTerminatorSend | PhQuitSend => true
  | _ => false
  end.
Definition after_terminator (p : Phase) : bool :=
  match p with PhDataResult | PhQuitSend | PhQuitReply | PhFinish => true | _ => false end.
Definition quitting (p : Phase) : bool :=
  match p with PhQuitSend | PhQuitReply | PhFinish => true | _ => false end.
(** How many recipients have their reply. *)
Definition resolved_count (p : Phase) : nat :=
  match p with
  | PhRcptSend i | PhRcptReply i => i
  | PhDataSend | PhDataReply | PhDataBody | PhTerminatorSend | PhDataResult
  | PhQuitSend | PhQuitReply | PhFinish => count
  | _ => 0
  end.
(** A recipient's place is in range. *)
Definition index_ok (p : Phase) : Prop :=
  match p with PhRcptSend i | PhRcptReply i => (i < count)%nat | _ => True end.

Definition rest (ob : option Outbound) : list Z :=
  match ob with Some ob => drop (Z.to_nat (ob_offset ob)) (ob_bytes ob) | None => [] end.
(** What is still to be sent for the goal of the phase. *)
Definition todo (o : SendOperation) : list Z :=
  rest (outbound o) ++
  (if decide (phase o = PhDataBody)
   then match data o with Some d => remaining (prepared_message r) d | None => [] end else []).

Definition outbound_ok (ob : Outbound) : Prop :=
  0 ≤ ob_offset ob < len (ob_bytes ob) ∧ len (ob_bytes ob) ≤ MAX_STAGING ∧
  (∀ c, ob_retry ob = Some c → c ≠ [] ∧ c `prefix_of` rest (Some ob)).

(** The reports, of which the first [k] are resolved. *)
Definition report_shape (l : list event) (p : Phase) (i : nat) (s : RecipientStatus) : Prop :=
  if decide (i < resolved_count p)%nat
  then match s with AcceptedForTransaction _ | RcptRejected _ => status_ok l i s | _ => False end
  else if decide (p = PhRcptReply i) then s = Unresolved
  else s = Unattempted.

(** The overall deadline, which never moves. *)
Context (deadline : Z).

Record alive (o : SendOperation) : Prop := {
  a_overall : overall_deadline o = deadline;
  a_active : op_outcome o = None;
  a_request : request o = Some r;
  a_parser : ∃ received, parser_inv (parser o) received;
  a_addresses : map address (reports o) = recipients (envelope r);
  a_index : index_ok (phase o);
  a_shape : ∀ i rep, reports o !! i = Some rep → report_shape (log o) (phase o) i (status rep);
  a_policy : (count ≤ resolved_count (phase o))%nat → policy_ok (reports o);
  a_terminator : terminator_admitted o = after_terminator (phase o);
  a_accepted : match accepted o with
               | Some s => quitting (phase o) = true ∧ answered (log o) through_terminator (final_answer s)
               | None => quitting (phase o) = false
               end;
  a_limit : 1 ≤ send_limit o ≤ MAX_STAGING;
  a_sending : sending (phase o) = bool_decide (is_Some (outbound o)) ∨ phase o = PhDataBody;
  a_outbound : ∀ ob, outbound o = Some ob → outbound_ok ob;
  a_data : phase o = PhDataBody → ∃ d, data o = Some d ∧ wf_encoder (prepared_message r) d;
  a_wire : wire_inv (phase o) (pending o) (transport o) (sent Plain (log o)) (sent Tls (log o)) (todo o);
}.

Lemma fail_final reason o : core o → final (fail_with reason o).
Proof.
  intros [Ha Ht Hacc Hterm]. unfold fail_with, final, terminal. destruct (accepted o) as [s|].
  - cbn [op_outcome set_accepted]. rewrite Ha. eexists. split; [reflexivity|]. cbn. by split_and!; auto.
  - specialize (Hterm eq_refl). rewrite Ha. destruct (terminator_admitted o);
      (eexists; split; [reflexivity|]; cbn; by split_and!).
Qed.

Lemma reject_final reply o pre ch :
  core o → log o = pre ++ [Got ch reply] → negative (code reply) = true → final (reject reply o).
Proof.
  intros [Ha Ht _ _] Hl Hn. unfold reject, final, terminal. rewrite Ha. eexists. split; [reflexivity|]. cbn.
  split_and!; [done|done|]. exists pre, ch, reply. by split_and!.
Qed.

(** *** The goals grow *)

Hypothesis recipients_exist : (0 < count)%nat.

Lemma answered_app l e upto P : answered l upto P → answered (l ++ e) upto P.
Proof. intros (pre & reply & post & -> & Hs & HP). exists pre, reply, (post ++ e). by rewrite <-app_assoc. Qed.

Lemma through_rcpt_S n a :
  recipients (envelope r) !! n = Some a → through_rcpt (S n) = through_rcpt n ++ rcpt_command a.
Proof.
  intros Ha. unfold through_rcpt. rewrite (take_S_r _ _ _ Ha), map_app, concat_app, app_assoc. cbn. by rewrite app_nil_r.
Qed.

Lemma through_rcpt_mono n m : (n ≤ m)%nat → through_rcpt n `prefix_of` through_rcpt m.
Proof.
  intros H. unfold through_rcpt. apply prefix_app. replace m with (n + (m - n))%nat by lia.
  exists (concat (map rcpt_command (take (m - n) (drop n (recipients (envelope r)))))).
  by rewrite <-concat_app, <-map_app, take_take_drop.
Qed.

Lemma len_rcpt_command a : 0 < len (rcpt_command a).
Proof. unfold rcpt_command. rewrite !len_app. change (len CRLF) with 2. pose proof (len_nonneg a). pose proof (len_nonneg (bs "RCPT TO:<")). pose proof (len_nonneg (bs ">")). lia. Qed.

Lemma through_rcpt_lt n m : (n < m)%nat → (m ≤ count)%nat → len (through_rcpt n) < len (through_rcpt m).
Proof.
  intros Hnm Hm. destruct (lookup_lt_is_Some_2 (recipients (envelope r)) n) as [a Ha]; [unfold count in Hm; lia|].
  pose proof (prefix_length _ _ (through_rcpt_mono (S n) m ltac:(lia))).
  rewrite (through_rcpt_S _ _ Ha), length_app in H. pose proof (len_rcpt_command a). unfold len in *. lia.
Qed.

Lemma goals_grow :
  ehlo_command r `prefix_of` through_mail ∧ through_mail `prefix_of` through_rcpt 1 ∧
  through_rcpt count `prefix_of` through_data_command ∧ through_data_command `prefix_of` through_body ∧
  through_body `prefix_of` through_terminator ∧ through_terminator `prefix_of` full_script.
Proof. split_and!; by eexists. Qed.

Lemma goal_full p : index_ok p → tls_goal p `prefix_of` full_script.
Proof.
  destruct goals_grow as (H1 & H2 & H3 & H4 & H5 & H6).
  assert (Hr : ∀ n, (n ≤ count)%nat → through_rcpt n `prefix_of` full_script).
  { intros n Hn. etrans; [by apply through_rcpt_mono|]. by repeat (etrans; [eassumption|]). }
  assert (through_rcpt 1 `prefix_of` full_script) by (apply Hr; lia).
  destruct p; cbn; intros Hi; try (by repeat (first [done|etrans; [eassumption|]])); by apply Hr.
Qed.

Lemma prefix_len {A} (l k : list A) : l `prefix_of` k → len l ≤ len k.
Proof. intros H%prefix_length. unfold len. lia. Qed.

Lemma wire_goal p pend trans P T td : wire_inv p pend trans P T td → T `prefix_of` tls_goal p.
Proof.
  destruct p; cbn; intros H; try (destruct H as (? & ? & <-); by eexists);
    try (destruct H as (? & ? & ->); apply prefix_nil); try (destruct H as (? & ? & -> & ?); apply prefix_nil).
  all: destruct H as [(? & ? & -> & ?)|(? & ? & <-)]; [apply prefix_nil|by eexists].
Qed.

Lemma wire_plain p pend trans P T td :
  wire_inv p pend trans P T td → P `prefix_of` plain_script ∧ (T ≠ [] → P = plain_script).
Proof.
  destruct p; cbn; intros H; try (destruct H as (? & -> & ?); by split);
    try (destruct H as (? & -> & ->); split; [apply prefix_nil|done]).
  all: try (destruct H as (? & ? & -> & <-); split; [by eexists|done]).
  all: destruct H as [(? & Hp & -> & He)|(? & -> & ?)]; [|by split]; (split; [|done]);
    unfold plain_script; rewrite Hp, <-He, <-app_assoc; by eexists.
Qed.

Lemma rest_ok ob : outbound_ok ob → rest (Some ob) ≠ [].
Proof.
  intros (Ho & _) He. cbn in He. apply (f_equal length) in He. rewrite length_drop in He. cbn in He. unfold len in Ho. lia.
Qed.

Lemma todo_sending o : alive o → sending (phase o) = true → ∃ ob, outbound o = Some ob ∧ todo o = rest (Some ob) ∧ outbound_ok ob.
Proof.
  intros Ha Hs. destruct (a_sending _ Ha) as [He|He]; [|by rewrite He in Hs].
  rewrite Hs in He. symmetry in He. apply bool_decide_eq_true in He as [ob Hob]. exists ob.
  pose proof (a_outbound _ Ha _ Hob). unfold todo. rewrite Hob, decide_False, app_nil_r; [done|].
  intros Hd. by rewrite Hd in Hs.
Qed.

Lemma todo_reply o : alive o → sending (phase o) = false → phase o ≠ PhDataBody → outbound o = None ∧ todo o = [].
Proof.
  intros Ha Hs Hd. destruct (a_sending _ Ha) as [He|He]; [|done]. rewrite Hs in He. symmetry in He.
  apply bool_decide_eq_false in He. destruct (outbound o) eqn:Hob; [by exfalso; apply He|].
  unfold todo. by rewrite Hob, decide_False.
Qed.

Lemma goal_before_rcpt i : (i < count)%nat → len (ehlo_command r) < len (through_rcpt (S i)) ∧ len through_mail < len (through_rcpt (S i)).
Proof.
  intros Hi. pose proof (through_rcpt_lt 0 (S i) ltac:(lia) ltac:(lia)) as H.
  assert (through_rcpt 0 = through_mail) as Hm by (unfold through_rcpt; cbn; by rewrite app_nil_r).
  rewrite Hm in H. split; [|done]. destruct goals_grow as (H1%prefix_len & _). lia.
Qed.

Lemma alive_status o i rep : alive o → reports o !! i = Some rep → status_ok (log o) i (status rep).
Proof.
  intros Ha Hi. pose proof (a_shape _ Ha i rep Hi) as Hs. pose proof (a_wire _ Ha) as Hw.
  pose proof (a_index _ Ha) as Hix. pose proof (todo_sending _ Ha) as Hsend. pose proof (todo_reply _ Ha) as Hrep.
  assert (Hic : (i < count)%nat).
  { unfold count. rewrite <-(a_addresses _ Ha), length_map. by apply lookup_lt_Some in Hi. }
  pose proof (prefix_len _ _ (wire_goal _ _ _ _ _ _ Hw)) as HT. pose proof (goal_before_rcpt i Hic) as [He Hm].
  unfold report_shape in Hs. destruct (decide (i < resolved_count (phase o))%nat) as [|Hk]; [by destruct (status rep)|].
  destruct (decide (phase o = PhRcptReply i)) as [Hp|Hp]; rewrite Hs; cbn.
  - rewrite Hp in Hw, Hrep. destruct Hrep as [_ Htodo]; [done..|]. rewrite Htodo in Hw.
    cbn in Hw. destruct Hw as (_ & _ & Hw). by rewrite app_nil_r in Hw.
  - destruct (phase o) eqn:Hph; cbn in HT, Hk, Hix; try lia.
    + destruct (Hsend eq_refl) as (ob & _ & Htodo & Hob%rest_ok). destruct Hw as (_ & _ & Hw). rewrite Htodo in Hw.
      apply (f_equal len) in Hw. rewrite len_app in Hw. cbn [tls_goal] in Hw.
      assert (0 < len (rest (Some ob))) by (destruct (rest (Some ob)) eqn:Hr; [done|rewrite len_cons; pose proof (len_nonneg l); lia]).
      pose proof (prefix_len _ _ (through_rcpt_mono (S index) (S i) ltac:(lia))). lia.
    + assert (index < i)%nat by (destruct (decide (index = i)); [congruence|lia]).
      pose proof (through_rcpt_lt (S index) (S i) ltac:(lia) ltac:(lia)). lia.
Qed.

Lemma alive_transcript o : alive o → transcript_ok (log o) (reports o).
Proof.
  intros Ha. pose proof (a_wire _ Ha) as Hw. pose proof (wire_goal _ _ _ _ _ _ Hw) as HT.
  destruct (wire_plain _ _ _ _ _ _ Hw) as [HP Hord]. split; try done.
  - apply Ha.
  - etrans; [done|]. apply goal_full, Ha.
  - intros. by apply alive_status.
  - intros Hlt. apply (a_policy _ Ha). apply prefix_len in HT. pose proof (a_index _ Ha) as Hix.
    destruct (goal_before_rcpt 0 recipients_exist). pose proof (prefix_len _ _ (through_rcpt_mono 1 count ltac:(lia))).
    destruct (phase o); cbn in HT, Hix |- *; try lia.
    all: pose proof (prefix_len _ _ (through_rcpt_mono (S index) count ltac:(lia))); lia.
Qed.

Lemma goals_before_terminator p :
  index_ok p → after_terminator p = false → p ≠ PhTerminatorSend → len (tls_goal p) < len through_terminator.
Proof.
  intros Hi Ha Hp. destruct goals_grow as (H1%prefix_len & H2%prefix_len & H3%prefix_len & H4%prefix_len & _).
  pose proof (prefix_len _ _ (through_rcpt_mono 1 count ltac:(lia))).
  assert (len through_body < len through_terminator).
  { unfold through_terminator. rewrite !len_app. change (len CRLF) with 2. pose proof (len_nonneg (bs ".")). lia. }
  destruct p; cbn in Hi, Ha |- *; try done; try lia.
  all: pose proof (prefix_len _ _ (through_rcpt_mono (S index) count ltac:(lia))); lia.
Qed.

Lemma alive_core o : alive o → core o.
Proof.
  intros Ha. split; [apply Ha|by apply alive_transcript| |].
  - intros s Hs. pose proof (a_accepted _ Ha) as H. rewrite Hs in H. apply H.
  - intros Hn. pose proof (a_accepted _ Ha) as Hq. rewrite Hn in Hq. rewrite (a_terminator _ Ha).
    pose proof (a_wire _ Ha) as Hw. pose proof (prefix_len _ _ (wire_goal _ _ _ _ _ _ Hw)) as HT.
    destruct (after_terminator (phase o)) eqn:Hat.
    + destruct (phase o) eqn:Hp; try done. destruct (todo_reply _ Ha) as [_ Htd]; [by rewrite Hp..|].
      rewrite Htd in Hw. destruct Hw as (_ & _ & Hw). by rewrite app_nil_r in Hw.
    + destruct (decide (phase o = PhTerminatorSend)) as [Hp|Hp].
      * destruct (todo_sending _ Ha) as (ob & _ & Htd & Hob%rest_ok); [by rewrite Hp|].
        rewrite Hp, Htd in Hw. destruct Hw as (_ & _ & Hw). apply (f_equal len) in Hw. rewrite len_app in Hw. cbn [tls_goal] in Hw.
        destruct (rest (Some ob)) as [|b l]; [done|]. rewrite len_cons in Hw. pose proof (len_nonneg l). lia.
      * pose proof (goals_before_terminator _ (a_index _ Ha) Hat Hp). lia.
Qed.

(** *** Moving from phase to phase *)

Record base (o : SendOperation) : Prop := {
  b_overall : overall_deadline o = deadline;
  b_active : op_outcome o = None;
  b_request : request o = Some r;
  b_parser : ∃ received, parser_inv (parser o) received;
  b_addresses : map address (reports o) = recipients (envelope r);
  b_limit : 1 ≤ send_limit o ≤ MAX_STAGING;
}.

(** The reports and the flags are those of phase [p]. *)
Record at_phase (p : Phase) (o : SendOperation) : Prop := {
  p_index : index_ok p;
  p_shape : ∀ i rep, reports o !! i = Some rep → report_shape (log o) p i (status rep);
  p_policy : (count ≤ resolved_count p)%nat → policy_ok (reports o);
  p_terminator : terminator_admitted o = after_terminator p;
  p_accepted : match accepted o with
               | Some s => quitting p = true ∧ answered (log o) through_terminator (final_answer s)
               | None => quitting p = false
               end;
}.

Lemma alive_base o : alive o → base o.
Proof. intros []; by split. Qed.
Lemma alive_at o : alive o → at_phase (phase o) o.
Proof. intros []; by split. Qed.

(** Between phases that agree on the reports and the flags. *)
Lemma at_phase_same p p' o :
  at_phase p o → index_ok p' → resolved_count p' = resolved_count p →
  (∀ i, p ≠ PhRcptReply i ∧ p' ≠ PhRcptReply i) →
  after_terminator p' = after_terminator p → quitting p' = quitting p → at_phase p' o.
Proof.
  intros [Hi Hs Hp Ht Ha] Hi' Hk Hr Hat Hq. split; [done| |by rewrite Hk|by rewrite Hat|by rewrite Hq].
  intros i rep Hrep. specialize (Hs i rep Hrep). unfold report_shape in *. rewrite Hk.
  destruct (decide (i < _)%nat); [done|]. destruct (Hr i) as [H1 H2].
  rewrite decide_False in Hs by done. by rewrite decide_False.
Qed.

Lemma command_alive o p bytes d :
  base o → at_phase p o → sending p = true → 0 < len bytes ≤ MAX_STAGING →
  wire_inv p (pending o) (transport o) (sent Plain (log o)) (sent Tls (log o)) bytes →
  alive (set_outbound (Some (Outbound_new bytes)) (set_phase_deadline d (set_phase_field p o))).
Proof.
  intros [] [] Hs Hb Hw. assert (p ≠ PhDataBody) by (by intros ->). split; cbn; try done.
  - by left.
  - intros ob [= <-]. split_and!; cbn; try done; lia.
  - unfold todo. cbn. rewrite decide_False, drop_0, app_nil_r by done. done.
Qed.

(** Into a phase that does not send. *)
Lemma phase_alive o p d :
  base o → at_phase p o → sending p = false → p ≠ PhDataBody → outbound o = None →
  wire_inv p (pending o) (transport o) (sent Plain (log o)) (sent Tls (log o)) [] →
  alive (set_phase_deadline d (set_phase_field p o)).
Proof.
  intros [] [] Hs Hd Hout Hw. split; cbn; try done.
  - left. rewrite Hs, Hout. done.
  - by rewrite Hout.
  - unfold todo. cbn. by rewrite Hout, decide_False.
Qed.

Lemma alive_deadline o d : alive (set_phase_deadline d o) ↔ alive o.
Proof. split; intros []; by split. Qed.

Lemma phase_only_alive o p :
  base o → at_phase p o → sending p = false → p ≠ PhDataBody → outbound o = None →
  wire_inv p (pending o) (transport o) (sent Plain (log o)) (sent Tls (log o)) [] →
  alive (set_phase_field p o).
Proof. intros. rewrite <-(alive_deadline _ 0). by apply phase_alive. Qed.

Lemma alive_got o ch reply : alive o → alive (log_event (Got ch reply) o).
Proof.
  intros []. split; cbn; rewrite ?sent_got; try done.
  - intros i rep Hi. specialize (a_shape0 i rep Hi). unfold report_shape in *.
    destruct (decide _); [|done]. destruct (status rep); try done; by apply answered_app.
  - destruct (accepted o); [|done]. destruct a_accepted0. split; [done|]. by apply answered_app.
Qed.

Section steps.
Context {tgt : Target} (instant_max : Z).
Hypothesis ehlo_fits : len (ehlo_name r) ≤ 255.
Hypothesis from_fits : len (from (envelope r)) ≤ 254.
Hypothesis recipients_fit : Forall (λ a, len a ≤ 254) (recipients (envelope r)).

Definition good (o : SendOperation) : Prop := alive o ∨ final o.

Lemma wp_the_request o (Q : SendRequest → SendOperation → Prop) R :
  request o = Some r → Q r o → wp the_request Q R o.
Proof. intros Hr HQ. unfold the_request. wp_go. by rewrite Hr. Qed.

Lemma wp_set_phase e p o (Q : unit → SendOperation → Prop) R :
  request o = Some r → (∀ d, Q tt (set_phase_deadline d (set_phase_field p o))) → wp (set_phase instant_max e p) Q R o.
Proof. intros Hr HQ. unfold set_phase. wp_go. apply wp_the_request; [done|]. wp_go. apply HQ. Qed.

Lemma wp_command e p bytes o (Q : unit → SendOperation → Prop) R :
  request o = Some r →
  (∀ d, Q tt (set_outbound (Some (Outbound_new bytes)) (set_phase_deadline d (set_phase_field p o)))) →
  wp (command instant_max e p bytes) Q R o.
Proof. intros Hr HQ. unfold command. wp_go. apply wp_set_phase; [done|]. intros d. wp_go. apply HQ. Qed.

Lemma len_ehlo : 0 < len (ehlo_command r) ≤ MAX_STAGING.
Proof.
  unfold ehlo_command. rewrite !len_app. change (len (bs "EHLO ")) with 5. change (len CRLF) with 2.
  pose proof (len_nonneg (ehlo_name r)). unfold MAX_STAGING. lia.
Qed.
Lemma len_mail : 0 < len (mail_command (from (envelope r))) ≤ MAX_STAGING.
Proof.
  unfold mail_command. destruct (bool_decide _); [done|]. rewrite !len_app. change (len (bs "MAIL FROM:<")) with 11.
  change (len (bs ">")) with 1. change (len CRLF) with 2. pose proof (len_nonneg (from (envelope r))). unfold MAX_STAGING. lia.
Qed.
Lemma len_rcpt a i : recipients (envelope r) !! i = Some a → 0 < len (rcpt_command a) ≤ MAX_STAGING.
Proof.
  intros Ha. split; [apply len_rcpt_command|]. rewrite Forall_lookup in recipients_fit. specialize (recipients_fit i a Ha).
  unfold rcpt_command. rewrite !len_app. change (len (bs "RCPT TO:<")) with 9.
  change (len (bs ">")) with 1. change (len CRLF) with 2. unfold MAX_STAGING. lia.
Qed.

Lemma refuse_good reply o pre ch :
  alive o → log o = pre ++ [Got ch reply] → wp (refuse reply) (λ _, good) (λ _ _, True) o.
Proof.
  intros Ha Hl. unfold refuse. apply alive_core in Ha.
  destruct (negative (code reply)) eqn:Hn; wp_go; right; [by eapply reject_final|by apply fail_final].
Qed.

(** What a reply phase knows: its goal is sent. *)
Lemma reply_wire o :
  alive o → sending (phase o) = false → phase o ≠ PhDataBody →
  base o ∧ outbound o = None ∧
  wire_inv (phase o) (pending o) (transport o) (sent Plain (log o)) (sent Tls (log o)) [] ∧ at_phase (phase o) o.
Proof.
  intros Ha Hs Hd. destruct (todo_reply _ Ha Hs Hd) as [Ho Ht]. pose proof (a_wire _ Ha) as Hw. rewrite Ht in Hw.
  split_and!; [by apply alive_base|done|done|by apply alive_at].
Qed.

Lemma start_mail_good e o :
  alive o → phase o = PhEhloReply → transport o = Some Tls →
  wp (start_mail instant_max e) (λ _, good) (λ _ _, True) o.
Proof.
  intros Ha Hp Ht. destruct (reply_wire o Ha) as (Hb & Ho & Hw & Hat); [by rewrite Hp..|]. rewrite Hp in Hw, Hat.
  unfold start_mail. wp_go. apply wp_the_request; [apply Hb|]. apply wp_command; [apply Hb|]. intros d. left.
  apply command_alive; [done| |done|apply len_mail|].
  - by eapply at_phase_same; [exact Hat|..].
  - destruct Hw as [(? & _)|(_ & HP & HT)]; [congruence|]. rewrite app_nil_r in HT.
    cbn. split_and!; [done..|]. unfold through_mail. by rewrite HT.
Qed.

Lemma start_rcpt_good e o i :
  base o → at_phase (PhRcptSend i) o → outbound o = None →
  transport o = Some Tls → sent Plain (log o) = plain_script → sent Tls (log o) = through_rcpt i →
  wp (start_rcpt instant_max e i) (λ _, good) (λ _ _, True) o.
Proof.
  intros Hb Hat Ho Ht HP HT. unfold start_rcpt. wp_go. apply wp_the_request; [apply Hb|].
  destruct (lookup_lt_is_Some_2 (recipients (envelope r)) i) as [a Ha]; [exact (p_index _ _ Hat)|]. rewrite Ha.
  apply wp_command; [apply Hb|]. intros d. left. apply command_alive; [done|done|done|by eapply len_rcpt|].
  cbn. split_and!; [done..|]. by rewrite HT, (through_rcpt_S _ _ Ha).
Qed.

(** Recording the reply to RCPT [i]. *)
Lemma set_status_spec i st o (Q : unit → SendOperation → Prop) R :
  at_phase (PhRcptReply i) o → map address (reports o) = recipients (envelope r) →
  (∀ rs, map address rs = recipients (envelope r) →
     (∀ j rep, rs !! j = Some rep →
        if decide (j = i) then status rep = st else reports o !! j = Some rep) →
     Q tt (set_reports rs o)) →
  wp (set_status i st) Q R o.
Proof.
  intros Hat Hadr HQ. unfold set_status. wp_go.
  destruct (lookup_lt_is_Some_2 (reports o) i) as [rep Hrep].
  { rewrite <-(length_map address), Hadr. exact (p_index _ _ Hat). }
  rewrite Hrep. wp_go. apply HQ.
  - rewrite <-Hadr. change (address <$> <[i:=mkReport (address rep) st]> (reports o) = address <$> reports o).
    rewrite list_fmap_insert. cbn. apply list_insert_id. by rewrite list_lookup_fmap, Hrep.
  - intros j rep' Hj. destruct (decide (j = i)) as [->|Hne].
    + rewrite list_lookup_insert_eq in Hj; [by injection Hj as <-|]. by eapply lookup_lt_Some.
    + by rewrite list_lookup_insert_ne in Hj.
Qed.

(** The step to the next recipient or to DATA, once RCPT [i] is answered. *)
Lemma after_rcpt_good e i o :
  base o → outbound o = None → terminator_admitted o = false → accepted o = None →
  transport o = Some Tls → sent Plain (log o) = plain_script → sent Tls (log o) = through_rcpt (S i) →
  (i < count)%nat →
  (∀ j rep, reports o !! j = Some rep →
     if decide (j < S i)%nat
     then match status rep with AcceptedForTransaction _ | RcptRejected _ => status_ok (log o) j (status rep) | _ => False end
     else status rep = Unattempted) →
  core o →
  wp (after_rcpt instant_max e i) (λ _, good) (λ _ _, True) o.
Proof.
  intros Hb Ho Htm Hac Htr HP HT Hi Hsh Hcore. unfold after_rcpt. wp_go. apply wp_the_request; [apply Hb|].
  fold count. destruct (Nat.ltb_spec (S i) count) as [Hlt|Hge].
  - apply start_rcpt_good; try done. split; try done.
    + cbn. lia.
    + by rewrite Hac.
  - wp_go. destruct (existsb is_accepted (reports o)) eqn:Hacc; cbn [negb]; [|wp_go; right; by apply fail_final].
    destruct (existsb is_rejected (reports o) && _) eqn:Hrej; [wp_go; right; by apply fail_final|].
    assert (Hall : ∀ j rep, reports o !! j = Some rep → (j < count)%nat).
    { intros j rep Hj%lookup_lt_Some. unfold count. by rewrite <-(b_addresses _ Hb), length_map. }
    apply wp_command; [apply Hb|]. intros d. left. apply command_alive; [done| |done|done|].
    + split; try done.
      * intros j rep Hj. specialize (Hsh j rep Hj). unfold report_shape. cbn [resolved_count].
        pose proof (Hall j rep Hj). rewrite decide_True in Hsh by lia. by rewrite decide_True by lia.
      * intros _. split; [done|]. intros Hpol. apply andb_false_iff in Hrej as [Hrej|Hrej].
        -- apply forallb_forall. intros rep Hin%list_elem_of_In.
           apply list_elem_of_lookup in Hin as [j Hj]. specialize (Hsh j rep Hj). pose proof (Hall j rep Hj).
           rewrite decide_True in Hsh by lia. assert (is_rejected rep = false) as Hnr.
           { apply not_true_iff_false. intros Hr. apply not_true_iff_false in Hrej. apply Hrej, existsb_exists.
             exists rep. split; [|done]. apply list_elem_of_In. by eapply list_elem_of_lookup_2. }
           unfold is_rejected, is_accepted in *. by destruct (status rep).
        -- by apply bool_decide_eq_false in Hrej.
      * by rewrite Hac.
    + cbn. split_and!; [done..|]. unfold through_data_command. rewrite HT. by replace (S i) with count by lia.
Qed.

(** Core facts after a reply to RCPT [i] is recorded. *)
Lemma core_recorded o i rs :
  base o → terminator_admitted o = false → accepted o = None → sent Plain (log o) = plain_script →
  sent Tls (log o) = through_rcpt (S i) → (i < count)%nat → map address rs = recipients (envelope r) →
  (∀ j rep, rs !! j = Some rep → status_ok (log o) j (status rep)) → core (set_reports rs o).
Proof.
  intros Hb Htm Hac HP HT Hi Hadr Hst. split; cbn; [apply Hb| |by rewrite Hac|].
  - split; cbn; try done; [by rewrite HP|rewrite HT; by apply (goal_full (PhRcptSend i))|].
    rewrite HT. intros Hlt. pose proof (prefix_len _ _ (through_rcpt_mono (S i) count ltac:(lia))). lia.
  - intros _. rewrite Htm, HT. by apply (goals_before_terminator (PhRcptSend i)).
Qed.

Lemma handle_rcpt_good e i reply o pre ch :
  alive o → phase o = PhRcptReply i → log o = pre ++ [Got ch reply] → transport o = Some ch →
  wp (handle_reply instant_max e reply) (λ _, good) (λ _ _, True) o.
Proof.
  intros Ha Hp Hl Htr. destruct (reply_wire o Ha) as (Hb & Ho & Hw & Hat); [by rewrite Hp..|]. rewrite Hp in Hw, Hat.
  destruct Hw as (Ht & HP & HT). rewrite app_nil_r in HT. cbn [tls_goal] in HT.
  assert (ch = Tls) as -> by congruence. unfold handle_reply. wp_go. rewrite Hp.
  assert (Hi : (i < count)%nat) by exact (p_index _ _ Hat).
  assert (Htm : terminator_admitted o = false) by exact (p_terminator _ _ Hat).
  assert (Hac : accepted o = None). { pose proof (p_accepted _ _ Hat) as H. destruct (accepted o); [by destruct H|done]. }
  assert (Hans : ∀ P : Reply → Prop, P reply → answered (log o) (through_rcpt (S i)) P).
  { intros P HPr. exists pre, reply, []. split_and!; [done| |done]. by rewrite <-HT, Hl, sent_got. }
  assert (Hrec : ∀ st rs, status_ok (log o) i st →
    match st with AcceptedForTransaction _ | RcptRejected _ => True | _ => False end →
    map address rs = recipients (envelope r) →
    (∀ j rep, rs !! j = Some rep → if decide (j = i) then status rep = st else reports o !! j = Some rep) →
    ∀ j rep, rs !! j = Some rep →
      if decide (j < S i)%nat
      then match status rep with AcceptedForTransaction _ | RcptRejected _ => status_ok (log o) j (status rep) | _ => False end
      else status rep = Unattempted).
  { intros st rs Hst Hk Hadr Hrs j rep Hj. specialize (Hrs j rep Hj). destruct (decide (j = i)) as [->|Hne].
    - rewrite decide_True by lia. rewrite Hrs. by destruct st.
    - pose proof (p_shape _ _ Hat j rep Hrs) as Hsh. unfold report_shape in Hsh. cbn [resolved_count] in Hsh.
      destruct (decide (j < i)%nat); [by rewrite decide_True by lia|]. rewrite decide_False by lia.
      rewrite decide_False in Hsh by congruence. done. }
  assert (Hgo : ∀ st, status_ok (log o) i st → match st with AcceptedForTransaction _ | RcptRejected _ => True | _ => False end →
    ∀ rs, map address rs = recipients (envelope r) →
    (∀ j rep, rs !! j = Some rep → if decide (j = i) then status rep = st else reports o !! j = Some rep) →
    core (set_reports rs o) ∧ wp (after_rcpt instant_max e i) (λ _, good) (λ _ _, True) (set_reports rs o)).
  { intros st Hst Hk rs Hadr Hrs. pose proof (Hrec st rs Hst Hk Hadr Hrs) as Hr.
    assert (Hcore : core (set_reports rs o)).
    { apply (core_recorded o i rs); try done. intros j rep Hj. pose proof (Hr j rep Hj) as H.
      destruct (decide (j < S i)%nat); [by destruct (status rep)|]. rewrite H. cbn. rewrite HT.
      apply through_rcpt_lt; [lia|]. apply lookup_lt_Some in Hj. unfold count. rewrite <-Hadr, length_map. lia. }
    split; [done|]. apply after_rcpt_good; try done. by destruct Hb; split. }
  destruct (positive (code reply)) eqn:Hpos; [|destruct (negative (code reply)) eqn:Hneg].
  - wp_go. apply set_status_spec; [done|apply Hb|]. intros rs Hadr Hrs. wp_go.
    apply (Hgo (AcceptedForTransaction (summary reply))); try done. by apply Hans.
  - wp_go. apply set_status_spec; [done|apply Hb|]. intros rs Hadr Hrs. wp_go.
    destruct (Hgo (RcptRejected (summary reply))) with (rs := rs) as [Hc Hw]; try done; [by apply Hans|].
    destruct (code reply =? 421); [|done]. wp_go. right. by eapply (reject_final reply _ pre Tls).
  - wp_go. right. apply fail_final. by apply alive_core.
Qed.

Definition reading (p : Phase) : bool :=
  match p with
  | PhGreeting | PhEhloReply | PhStartTlsReply | PhMailReply | PhRcptReply _ | PhDataReply | PhDataResult | PhQuitReply => true
  | _ => false
  end.

Lemma starttls_good e reply o pre ch :
  alive o → phase o = PhStartTlsReply → log o = pre ++ [Got ch reply] →
  wp (handle_reply instant_max e reply) (λ _, good) (λ _ _, True) o.
Proof.
  intros Ha Hp Hl. destruct (reply_wire o Ha) as (Hb & Ho & Hw & Hat); [by rewrite Hp..|]. rewrite Hp in Hw, Hat.
  destruct Hw as (Ht & Hpol & HT & HP). rewrite app_nil_r in HP. unfold handle_reply. wp_go. rewrite Hp.
  destruct (code reply =? 220); [|by eapply refuse_good]. wp_go. rewrite Ht. cbn [bool_decide]. 
  rewrite bool_decide_eq_true_2 by done. cbn [negb]. wp_go. apply wp_the_request; [apply Hb|].
  destruct (e_upgrade e) as [error|]; wp_go.
  - right. apply fail_final. by destruct (alive_core _ Ha).
  - apply wp_set_phase; [apply Hb|]. intros d. left. apply phase_alive; try done; [by destruct Hb|].
    eapply (at_phase_same PhStartTlsReply); try done. by destruct Hat.
Qed.

Lemma handle_reply_good e reply o pre ch :
  alive o → reading (phase o) = true → log o = pre ++ [Got ch reply] → transport o = Some ch →
  wp (handle_reply instant_max e reply) (λ _, good) (λ _ _, True) o.
Proof.
  intros Ha Hrd Hl Htr.
  destruct (reply_wire o Ha) as (Hb & Ho & Hw & Hat); [by destruct (phase o)..|].
  destruct (phase o) eqn:Hp; try done; [| |by eapply starttls_good| |by eapply handle_rcpt_good| | |];
    unfold handle_reply; wp_go; rewrite Hp.
  - (* greeting *)
    destruct (positive (code reply)); [|by eapply refuse_good]. wp_go. apply wp_the_request; [apply Hb|].
    apply wp_command; [apply Hb|]. intros d. left. apply command_alive; [done| |done|apply len_ehlo|].
    + by eapply at_phase_same; [exact Hat|..].
    + destruct Hw as (Ht & HP & HT). rewrite HP, HT. cbn. unfold first_channel in Ht. unfold plain_script.
      destruct (policy r) eqn:Hpol; [right|left]; by split_and!.
  - (* EHLO *)
    destruct (positive (code reply)); [|by eapply refuse_good]. wp_go. apply wp_the_request; [apply Hb|].
    destruct Hw as [(Ht & Hpol & HT & HP)|(Ht & HP & HT)].
    + rewrite bool_decide_eq_true_2 by done. rewrite bool_decide_eq_true_2 by done. cbn [andb].
      destruct (advertises _ reply); [|wp_go; right; by apply fail_final, alive_core].
      apply wp_command; [apply Hb|]. intros d. left. apply command_alive; [done| |done|done|].
      * by eapply at_phase_same; [exact Hat|..].
      * rewrite app_nil_r in HP. cbn. split_and!; try done. unfold plain_script. by rewrite Hpol, HP.
    + rewrite (bool_decide_eq_false_2 (transport o = Some Plain)) by congruence. rewrite andb_false_r.
      by apply start_mail_good.
  - (* MAIL *)
    destruct (positive (code reply)); [|by eapply refuse_good]. destruct Hw as (Ht & HP & HT). rewrite app_nil_r in HT.
    apply start_rcpt_good; try done.
    + by eapply at_phase_same; [exact Hat|..].
    + rewrite HT. unfold through_rcpt. cbn. by rewrite app_nil_r.
  - (* DATA *)
    destruct (in_range 300 399 (code reply)); [|by eapply refuse_good]. wp_go. apply wp_the_request; [apply Hb|]. wp_go.
    apply wp_set_phase; [apply Hb|]. intros d. left. destruct Hw as (Ht & HP & HT). rewrite app_nil_r in HT.
    assert (Hat' : at_phase PhDataBody o) by (by eapply at_phase_same; [exact Hat|..]).
    destruct Hb, Hat'. destruct (new_wf (prepared_message r)) as [Hwf Hrem].
    split; cbn; try done; [by right|by rewrite Ho|by eexists|]. split_and!; [done..|].
    unfold todo. cbn. rewrite Ho, decide_True by done. cbn. unfold through_body. by rewrite HT, Hrem.
  - (* result *)
    destruct (positive (code reply)) eqn:Hpos; [|by eapply refuse_good]. wp_go.
    destruct Hw as (Ht & HP & HT). rewrite app_nil_r in HT. cbn [tls_goal] in HT.
    apply wp_command; [apply Hb|]. intros d. left.
    apply (command_alive (set_accepted (Some (summary reply)) o)); try done; [by destruct Hb| |].
    + destruct Hat as [? Hsh Hpl Htm _]. split; try done; cbn. split; [done|]. exists pre, reply, [].
      assert (ch = Tls) as -> by congruence. split_and!; [done| |done]. by rewrite <-HT, Hl, sent_got.
    + cbn. split_and!; [done..|]. by rewrite HT.
  - (* QUIT *)
    destruct (_ && _); [|wp_go; right; by apply fail_final, alive_core].
    apply wp_set_phase; [apply Hb|]. intros d. left. apply phase_alive; try done.
    by eapply at_phase_same; [exact Hat|..].
Qed.

Lemma core_parser p o : core o → core (set_parser p o).
Proof. intros []; by split. Qed.

Lemma alive_parser p received o : alive o → parser_inv p received → alive (set_parser p o).
Proof. intros [] Hp. split; try done. by exists received. Qed.

Lemma advance_read_good e o :
  alive o → reading (phase o) = true → wp (advance_read instant_max e) (λ _, good) (λ _ _, True) o.
Proof.
  intros Ha Hrd. pose proof (alive_core _ Ha) as Hc.
  assert (Hfail : ∀ reason, good (fail_with reason o)) by (intros; right; by apply fail_final).
  assert (Hfaild : ∀ reason d, good (fail_with reason (set_diagnostic d o))).
  { intros. right. apply fail_final. by destruct Hc. }
  unfold advance_read, read_step. wp_go. destruct (transport o) as [ch|] eqn:Htr; [|wp_go; apply Hfail].
  destruct (e_read e) as [|count byte| |[error| | |error]]; wp_go; try apply Hfail; try apply Hfaild; [by left|].
  destruct (count =? 1); wp_go; [|apply Hfail]. unfold wpx at 1, parser_push.
  destruct (a_parser _ Ha) as [received Hp]. pose proof (reply_push_spec (parser o) received byte Hp) as Hpush.
  unfold wpx in Hpush. destruct (push byte (parser o)) as [[[reply|]| | |] p]; try done.
  - destruct Hpush as (-> & _). wp_go. eapply wp_mono; [eapply (handle_reply_good e reply _ (log o) ch); [|done..]|by intros ? ? ?; wp_go|done].
    apply alive_got. by eapply alive_parser; [|apply default_inv].
  - wp_go. left. by eapply alive_parser.
  - wp_go. right. by apply fail_final, core_parser.
Qed.

(** *** Sending *)

(** A state in which the head [c] of what is to be sent was admitted. *)
Definition sent_state (ch : Channel) (ob : Outbound) (c : list Z) (o : SendOperation) : SendOperation :=
  log_event (Sent ch c) (set_outbound (Some (mkOutbound (ob_bytes ob) (ob_offset ob + len c) None)) o).

Lemma drop_len_app {A} (l c k : list A) n : 0 ≤ n → drop (Z.to_nat n) l = c ++ k → drop (Z.to_nat (n + len c)) l = k.
Proof.
  intros Hn H. replace (Z.to_nat (n + len c)) with (length c + Z.to_nat n)%nat by (unfold len; lia).
  rewrite Nat.add_comm, <-drop_drop, H. apply drop_app_length.
Qed.

Lemma outbound_step_spec e ch ob o (Q : SendStep → SendOperation → Prop) :
  outbound o = Some ob → outbound_ok ob → 1 ≤ send_limit o ≤ MAX_STAGING →
  (∀ c k, rest (Some ob) = c ++ k → c ≠ [] →
     Q (if decide (k = []) then SendDone (len c) else SendProgress (len c)) (sent_state ch ob c o)) →
  (∀ retry limit, 1 ≤ limit ≤ MAX_STAGING → (∀ c, retry = Some c → c ≠ [] ∧ c `prefix_of` rest (Some ob)) →
     let o' := set_send_limit limit (set_outbound (Some (mkOutbound (ob_bytes ob) (ob_offset ob) retry)) o) in
     Q SendPending o' ∧ Q (SendProgress 0) o' ∧ ∀ reason, Q (SendFailed reason) o') →
  wp (outbound_step e ch ob) Q (λ _ _, True) o.
Proof.
  intros Ho (Hoff & Hlen & Hretry) Hlim Hsent Hother. unfold outbound_step.
  rewrite (proj2 (Z.eqb_neq _ _)) by lia. wp_go. pose proof usize_bounds. unfold u32_max, MAX_STAGING in *.
  assert (Hcand : ∃ c, match ob_retry ob with
     | Some bytes => (mret bytes : MO (list Z))
     | None => sum ← lift (uadd (ob_offset ob) (send_limit o));
               lift (slice (ob_bytes ob) (ob_offset ob) (Z.min sum (len (ob_bytes ob))))
     end o = (Ok c, o) ∧ c ≠ [] ∧ c `prefix_of` rest (Some ob)).
  { destruct (ob_retry ob) as [c|] eqn:Hr; [exists c; split; [done|by apply Hretry]|].
    exists (subrange (ob_bytes ob) (ob_offset ob) (Z.min (ob_offset ob + send_limit o) (len (ob_bytes ob)))). split_and!.
    - unfold mbind, M_bind, lift. rewrite uadd_fits by lia. unfold slice. by rewrite !(proj2 (Z.leb_le _ _)) by lia.
    - intros He. apply (f_equal len) in He. rewrite len_subrange in He by lia. change (len []) with 0 in He. lia.
    - unfold subrange, rest. apply prefix_take. }
  destruct Hcand as (c & Hrun & Hne & [k Hk]). eapply wp_run; [exact Hrun|]. cbn beta.
  assert (Hsz : len c + len k + ob_offset ob = len (ob_bytes ob)).
  { apply (f_equal len) in Hk. rewrite len_app in Hk. cbn [rest] in Hk. unfold len in *. rewrite length_drop in Hk. lia. }
  destruct (e_send e) as [err|].
  - assert (Hkeep : ∀ retry, set_send_limit (send_limit o) (set_outbound (Some (mkOutbound (ob_bytes ob) (ob_offset ob) retry)) o)
      = set_outbound (Some (mkOutbound (ob_bytes ob) (ob_offset ob) retry)) o) by done.
    destruct (Hother (Some c) (send_limit o)) as [H1 _]; [lia|intros ? [= <-]; split; [done|by exists k]|].
    destruct (Hother None (send_limit o)) as (_ & _ & H3); [lia|done|]. rewrite !Hkeep in *.
    destruct err; wp_go; try (by apply H1); try (by apply H3).
    destruct (Z.ltb_spec 1 (send_limit o)); cbn [andb bool_decide]; wp_go; [|by apply H3].
    destruct (Hother None (Z.max (send_limit o / 2) 1)) as (_ & H2 & _); [|done|exact H2].
    pose proof (Z.div_lt (send_limit o) 2 ltac:(lia) ltac:(lia)). lia.
  - wp_go. pose proof (len_nonneg k). apply owp_uadd; [lia|]. wp_go. specialize (Hsent c k Hk Hne).
    destruct (Z.eqb_spec (ob_offset ob + len c) (len (ob_bytes ob))) as [He|He].
    + assert (k = []) as -> by (apply len_zero; lia). by rewrite decide_True in Hsent.
    + rewrite decide_False in Hsent; [done|]. intros ->. change (len []) with 0 in Hsz. lia.
Qed.

Lemma wire_send p pend ch l c td :
  sending p = true ∨ p = PhDataBody →
  wire_inv p pend (Some ch) (sent Plain l) (sent Tls l) (c ++ td) →
  wire_inv p pend (Some ch) (sent Plain (l ++ [Sent ch c])) (sent Tls (l ++ [Sent ch c])) td.
Proof.
  intros Hp Hw.
  assert (Htls : ∀ g, Some ch = Some Tls ∧ sent Plain l = plain_script ∧ sent Tls l ++ c ++ td = g →
    Some ch = Some Tls ∧ sent Plain (l ++ [Sent ch c]) = plain_script ∧ sent Tls (l ++ [Sent ch c]) ++ td = g).
  { intros g ([= ->] & HP & HT). by rewrite sent_other, sent_same, <-app_assoc. }
  assert (Hplain : ∀ g, Some ch = Some Plain ∧ policy r = RequiredStartTls ∧ sent Tls l = [] ∧ sent Plain l ++ c ++ td = g →
    Some ch = Some Plain ∧ policy r = RequiredStartTls ∧ sent Tls (l ++ [Sent ch c]) = [] ∧ sent Plain (l ++ [Sent ch c]) ++ td = g).
  { intros g ([= ->] & Hpol & HT & HP). by rewrite sent_other, sent_same, <-app_assoc. }
  destruct p; cbn in Hw |- *; try (by apply Htls); try (by apply Hplain); try (by destruct Hp).
  destruct Hw as [Hw|Hw]; [left; by apply Hplain|right; by apply Htls].
Qed.

(** The reports and the flags do not look at what is sent, but for the
    evidence in the log. *)
Lemma at_phase_sent p o ch c v :
  at_phase p o → at_phase p (log_event (Sent ch c) (set_outbound v o)).
Proof.
  intros [Hi Hs Hp Ht Ha]. split; cbn; try done.
  - intros i rep Hr. specialize (Hs i rep Hr). unfold report_shape in *.
    destruct (decide _); [|done]. destruct (status rep); try done; by apply answered_app.
  - destruct (accepted o); [|done]. destruct Ha. split; [done|]. by apply answered_app.
Qed.

Lemma sent_alive o ch ob c k :
  alive o → transport o = Some ch → outbound o = Some ob → rest (Some ob) = c ++ k → c ≠ [] → k ≠ [] →
  alive (sent_state ch ob c o).
Proof.
  intros Ha Htr Hob Hk Hc Hkn. pose proof (a_outbound _ Ha _ Hob) as (Hoff & Hlen & _).
  assert (Hrest : rest (Some (mkOutbound (ob_bytes ob) (ob_offset ob + len c) None)) = k).
  { cbn. apply drop_len_app; [lia|exact Hk]. }
  assert (Hsz : ob_offset ob + len c < len (ob_bytes ob)).
  { apply (f_equal len) in Hk. cbn [rest] in Hk. rewrite len_app in Hk. unfold len in *. rewrite length_drop in Hk.
    destruct k; [done|]. cbn in Hk. lia. }
  assert (Hph : sending (phase o) = true ∨ phase o = PhDataBody).
  { destruct (a_sending _ Ha) as [->|]; [|by right]. left. apply bool_decide_eq_true. by exists ob. }
  pose proof (at_phase_sent _ _ ch c (Some (mkOutbound (ob_bytes ob) (ob_offset ob + len c) None)) (alive_at _ Ha)) as [].
  pose proof (a_wire _ Ha) as Hw. unfold todo in Hw. rewrite Hob, Hk, <-app_assoc, Htr in Hw.
  apply wire_send in Hw; [|done]. pose proof (len_nonneg c).
  unfold sent_state. split; try (apply Ha); try done.
  - cbn. intros ob' [= <-]. split_and!; cbn; try done; lia.
  - cbn [phase pending transport log log_event set_outbound]. rewrite Htr. unfold todo.
    cbn [outbound log_event set_outbound phase data]. by rewrite Hrest.
Qed.

(** Not admitted: the outbound keeps its place. *)
Lemma kept_alive o ob retry limit :
  alive o → outbound o = Some ob → 1 ≤ limit ≤ MAX_STAGING →
  (∀ c, retry = Some c → c ≠ [] ∧ c `prefix_of` rest (Some ob)) →
  alive (set_send_limit limit (set_outbound (Some (mkOutbound (ob_bytes ob) (ob_offset ob) retry)) o)).
Proof.
  intros Ha Hob Hlim Hret. pose proof (a_outbound _ Ha _ Hob) as (Hoff & Hlen & _).
  pose proof (a_sending _ Ha) as Hs. pose proof (a_wire _ Ha) as Hw. unfold todo in Hw. rewrite Hob in Hs, Hw.
  split; try (apply Ha); try done. intros ob' [= <-]. split_and!; cbn; try done; lia.
Qed.

(** The command of the phase is out: the state as [after_command] finds it. *)
Lemma sent_done o ch ob c :
  alive o → transport o = Some ch → outbound o = Some ob → rest (Some ob) = c →
  let o' := set_outbound None (sent_state ch ob c o) in
  base o' ∧ at_phase (phase o) o' ∧
  (phase o ≠ PhDataBody → sending (phase o) = true →
     wire_inv (phase o) (pending o) (Some ch) (sent Plain (log o')) (sent Tls (log o')) []).
Proof.
  intros Ha Htr Hob Hk. cbv zeta. split_and!.
  - destruct (alive_base _ Ha). by split.
  - pose proof (at_phase_sent (phase o) o ch c None (alive_at _ Ha)) as []. by split.
  - intros Hd Hs. pose proof (a_wire _ Ha) as Hw. unfold todo in Hw. rewrite Hob, Hk, Htr, decide_False in Hw by done.
    apply wire_send in Hw; [done|by left].
Qed.

Lemma after_rcpt_sent_at i o :
  at_phase (PhRcptSend i) o → map address (reports o) = recipients (envelope r) →
  ∃ rep, reports o !! i = Some rep ∧
    at_phase (PhRcptReply i) (set_reports (<[i := mkReport (address rep) Unresolved]> (reports o)) o) ∧
    map address (<[i := mkReport (address rep) Unresolved]> (reports o)) = recipients (envelope r).
Proof.
  intros [Hi Hs Hp Ht Hac] Hadr. destruct (lookup_lt_is_Some_2 (reports o) i) as [rep Hrep].
  { rewrite <-(length_map address), Hadr. exact Hi. }
  exists rep. split; [done|]. split.
  - split; cbn; try done.
    + intros j rep' Hj. unfold report_shape. cbn [resolved_count]. destruct (decide (j = i)) as [->|Hne].
      * rewrite list_lookup_insert_eq in Hj by (by eapply lookup_lt_Some). injection Hj as <-.
        rewrite decide_False by lia. by rewrite decide_True.
      * rewrite list_lookup_insert_ne in Hj by done. specialize (Hs j rep' Hj). unfold report_shape in Hs.
        cbn [resolved_count] in Hs. destruct (decide (j < i)%nat); [done|].
        rewrite decide_False in Hs by done. rewrite decide_False by congruence. done.
    + cbn in Hi. lia.
  - rewrite <-Hadr. change (address <$> <[i:=mkReport (address rep) Unresolved]> (reports o) = address <$> reports o).
    rewrite list_fmap_insert. cbn. apply list_insert_id. by rewrite list_lookup_fmap, Hrep.
Qed.

Lemma after_command_good e o :
  base o → at_phase (phase o) o → sending (phase o) = true → outbound o = None →
  wire_inv (phase o) (pending o) (transport o) (sent Plain (log o)) (sent Tls (log o)) [] →
  wp (after_command instant_max e) (λ _, good) (λ _ _, True) o.
Proof.
  intros Hb Hat Hs Ho Hw. unfold after_command. wp_go.
  destruct (phase o) eqn:Hp; try done; wp_go.
  1,2,3: left; apply phase_only_alive; try done; by eapply at_phase_same; [exact Hat|..].
  2,4: left; apply phase_only_alive; try done; by eapply at_phase_same; [exact Hat|..].
  - destruct (after_rcpt_sent_at index o Hat (b_addresses _ Hb)) as (rep & Hrep & Hat' & Hadr).
    rewrite Hrep. wp_go. left. apply phase_only_alive; try done. destruct Hb. by split.
  - apply wp_set_phase; [apply Hb|]. intros d. left. apply phase_alive; try done; [by destruct Hb|].
    destruct Hat as [? Hsh Hpl Htm Hacc]. by split.
Qed.

Lemma advance_send_good e o :
  alive o → sending (phase o) = true → wp (advance_send instant_max e) (λ _, good) (λ _ _, True) o.
Proof.
  intros Ha Hs. destruct (todo_sending _ Ha Hs) as (ob & Hob & Htd & Hobk).
  assert (Hfail : ∀ o' reason, alive o' → good (fail_with reason o')) by (intros; right; by apply fail_final, alive_core).
  unfold advance_send, send_step. wp_go. rewrite Hob. destruct (transport o) as [ch|] eqn:Htr; [|wp_go; by apply Hfail].
  apply (outbound_step_spec e ch ob o); [done|done|apply Ha| |].
  2:{ intros retry limit Hlim Hret. cbv zeta. pose proof (kept_alive o ob retry limit Ha Hob Hlim Hret) as Hk.
      split_and!; intros; wp_go; [by left|by left|by apply Hfail]. }
  intros c k Hk Hc. destruct (decide (k = [])) as [->|Hkn]; wp_go; [|left; by eapply sent_alive].
  rewrite app_nil_r in Hk. destruct (sent_done o ch ob c Ha Htr Hob Hk) as (Hb & Hat & Hw).
  assert (Hd : phase o ≠ PhDataBody) by (intros Hd; by rewrite Hd in Hs). specialize (Hw Hd Hs).
  eapply wp_mono; [apply after_command_good|by intros ? ? ?; wp_go|done]; try done.
  cbn. by rewrite Htr.
Qed.

Lemma body_sent_alive o ch ob c :
  alive o → phase o = PhDataBody → transport o = Some ch → outbound o = Some ob → rest (Some ob) = c →
  alive (set_outbound None (sent_state ch ob c o)).
Proof.
  intros Ha Hp Htr Hob Hk. destruct (sent_done o ch ob c Ha Htr Hob Hk) as ([] & [] & _).
  pose proof (a_data _ Ha Hp) as (d & Hd & Hwf). pose proof (a_wire _ Ha) as Hw. unfold todo in Hw. rewrite Hob, Hk, Htr in Hw.
  apply wire_send in Hw; [|by right]. split; try done.
  - by right.
  - cbn. intros _. by exists d.
  - cbn [phase pending transport log set_outbound sent_state log_event]. rewrite Htr.
    unfold todo. cbn [outbound set_outbound phase data sent_state log_event]. cbn [rest app]. exact Hw.
Qed.

Lemma send_data_good e n o :
  alive o → phase o = PhDataBody → is_Some (outbound o) → 0 ≤ n < MAX_DATA_BYTES_PER_POLL →
  wp (send_data e n) (λ '(_, n') o', good o' ∧ 0 ≤ n') (λ _ _, True) o.
Proof.
  intros Ha Hp [ob Hob] Hn. pose proof (a_wire _ Ha) as Hw. rewrite Hp in Hw. destruct Hw as (Htr & _).
  assert (Hadd : ∀ c k, rest (Some ob) = c ++ k → n + len c ≤ usize_max).
  { intros c k Hk. pose proof (a_outbound _ Ha _ Hob) as (Hoff & Hlen & _). apply (f_equal len) in Hk.
    rewrite len_app in Hk. cbn [rest] in Hk. pose proof (len_nonneg k). unfold len in *. rewrite length_drop in Hk.
    pose proof usize_bounds. unfold u32_max, MAX_STAGING, MAX_DATA_BYTES_PER_POLL in *. lia. }
  unfold send_data, send_step. wp_go. rewrite Hob, Htr.
  apply (outbound_step_spec e Tls ob o); [done|by apply Ha|apply Ha| |].
  - intros c k Hk Hc. pose proof (len_nonneg c). destruct (decide (k = [])) as [->|Hkn]; wp_go;
      (apply owp_uadd; [by eapply Hadd|]); wp_go; (split; [|lia]); left.
    + rewrite app_nil_r in Hk. by apply body_sent_alive.
    + by eapply sent_alive.
  - intros retry limit Hlim Hret. cbv zeta. pose proof (kept_alive o ob retry limit Ha Hob Hlim Hret) as Hk.
    split_and!; intros; wp_go; [by split; [left|lia]| |split; [right; by apply fail_final, alive_core|lia]].
    apply owp_uadd; [|wp_go; split; [by left|lia]].
    pose proof usize_bounds. unfold u32_max, MAX_DATA_BYTES_PER_POLL in *. lia.
Qed.

Lemma advance_data_good e n o :
  alive o → phase o = PhDataBody → 0 ≤ n →
  wp (advance_data instant_max e n) (λ '(_, n') o', good o' ∧ 0 ≤ n') (λ _ _, True) o.
Proof.
  intros Ha Hp Hn. unfold advance_data. destruct (Z.leb_spec MAX_DATA_BYTES_PER_POLL n) as [|Hlt]; [wp_go; by split; [left|]|].
  wp_go. destruct (outbound o) as [ob|] eqn:Hob; [by apply send_data_good|].
  destruct (a_data _ Ha Hp) as (d & Hd & Hwf). rewrite (a_request _ Ha), Hd.
  pose proof (a_wire _ Ha) as Hw. unfold todo in Hw. rewrite Hp, Hob, Hd, decide_True in Hw by done. destruct Hw as (Htr & HP & HT).
  destruct (finished (prepared_message r) d) eqn:Hf.
  - wp_go. apply wp_command; [apply Ha|]. intros dl. wp_go. split; [left|done].
    apply (finished_spec _ d Hwf) in Hf. rewrite Hf in HT. rewrite app_nil_r in HT.
    apply command_alive; [by apply alive_base| |done|done|].
    + eapply at_phase_same; [exact (alive_at _ Ha)|..]; by rewrite ?Hp.
    + cbn. split_and!; [done..|]. unfold through_terminator. by rewrite HT.
  - destruct (next_chunk _ _ d) as [chunk d'] eqn:Hch. apply encoder_chunk_spec in Hch as (Happ & Hwf' & Hlen); [|done].
    assert (Hne : 0 < len chunk ≤ MAX_STAGING).
    { assert (remaining (prepared_message r) d ≠ []) as Hr.
      { intros He. apply (finished_spec _ d Hwf) in He. congruence. }
      unfold MAX_STAGING in *. destruct (remaining (prepared_message r) d); [done|]. cbn [length] in Hlen. unfold len. lia. }
    wp_go. apply send_data_good; [|done|done|done].
    destruct (alive_base _ Ha), (alive_at _ Ha). split; try done.
    + by right.
    + intros ob [= <-]. split_and!; cbn; try done; lia.
    + intros _. by exists d'.
    + cbn [phase pending transport log set_outbound set_data]. rewrite Hp. unfold todo.
      cbn [outbound set_outbound phase data set_data]. rewrite Hp, decide_True by done. cbn [rest ob_offset Outbound_new ob_bytes].
      rewrite drop_0. split_and!; try done. cbn [rest app] in HT. by rewrite Happ.
Qed.

Lemma poll_connect_good e o :
  alive o → phase o = PhConnect ∨ phase o = PhUpgrade →
  wp (poll_connect instant_max e) (λ _, good) (λ _ _, True) o.
Proof.
  intros Ha Hp. destruct (reply_wire o Ha) as (Hb & Ho & Hw & Hat); [by destruct Hp as [-> | ->]..|].
  pose proof (alive_core _ Ha) as Hc.
  assert (Hpend : ∃ ch, pending o = Some ch ∧ if decide (phase o = PhUpgrade) then ch = Tls else ch = first_channel).
  { destruct Hp as [Hp|Hp]; rewrite Hp in Hw |- *; destruct Hw as (-> & _); by eexists. }
  destruct Hpend as (ch & Hch & Hk). unfold poll_connect. wp_go. rewrite Hch. wp_go.
  destruct (e_connect e) as [| |error|]; wp_go.
  - left. replace (set_pending (Some ch) (set_pending None o)) with o; [done|]. destruct o; cbn in *; by subst.
  - destruct Hp as [Hp|Hp]; rewrite Hp in *; cbn in Hk, Hw.
    + destruct Hw as (_ & HP & HT). assert (Hg : wp (set_phase instant_max e PhGreeting) (λ _ s', wp (mret true : MO bool) (λ _, good) (λ _ _, True) s') (λ _ _, True)
        (set_transport (Some ch) (set_pending None o))).
      { apply wp_set_phase; [apply Hb|]. intros d. wp_go. left. apply phase_alive; try done; [by destruct Hb| |].
        - eapply (at_phase_same PhConnect); try done. by destruct Hat.
        - cbn. by rewrite Hk. }
      by destruct ch.
    + assert (ch = Tls) as -> by exact Hk. destruct Hw as (_ & HP & HT). wp_go. rewrite bool_decide_eq_true_2 by done. wp_go.
      apply wp_the_request; [apply Hb|]. apply wp_command; [apply Hb|]. intros d. wp_go. left.
      apply command_alive; [by destruct Hb| |done|apply len_ehlo|].
      * eapply (at_phase_same PhUpgrade); try done. by destruct Hat.
      * cbn. right. split_and!; [done..|]. by rewrite HT.
  - right. apply fail_final. by destruct Hc.
  - right. apply fail_final. by destruct Hc.
Qed.

Lemma advance_good e n o :
  alive o → 0 ≤ n → wp (advance instant_max e n) (λ '(_, n') o', good o' ∧ 0 ≤ n') (λ _ _, True) o.
Proof.
  intros Ha Hn. unfold advance. wp_go.
  assert (Hlift : ∀ m : MO bool, wp m (λ _, good) (λ _ _, True) o →
    wp m (λ b s', wp (mret (b, n) : MO _) (λ '(_, n') o', good o' ∧ 0 ≤ n') (λ _ _, True) s') (λ _ _, True) o).
  { intros m Hm. eapply wp_mono; [exact Hm| |done]. intros b s' Hg. wp_go. by split. }
  destruct (phase o) eqn:Hp; try (apply advance_data_good; done); wp_go; apply Hlift;
    try (apply poll_connect_good; auto); try (apply advance_read_good; [done|by rewrite Hp]);
    try (apply advance_send_good; [done|by rewrite Hp]).
  unfold advance_finish. wp_go. pose proof (alive_core _ Ha).
  destruct (transport o); [|wp_go; right; by apply fail_final].
  destruct (e_finish e); wp_go; [by left|right; by apply fail_final..].
Qed.

Lemma poll_loop_good steps es n o :
  good o → 0 ≤ n → wp (poll_loop instant_max steps es n) (λ _, good) (λ _ _, True) o.
Proof.
  revert es n o. induction steps as [|steps IH]; intros es n o Hg Hn; cbn [poll_loop]; wp_go; [done|].
  destruct Hg as [Ha|Hf].
  2:{ destruct Hf as (out & Hout & Hf). rewrite bool_decide_eq_true_2 by (by rewrite Hout).
      wp_go. right. by exists out. }
  rewrite bool_decide_eq_false_2 by (rewrite (a_active _ Ha); by intros [? ?]).
  destruct (_ || _); wp_go; [right; by apply fail_final, alive_core|].
  eapply wp_mono; [by apply advance_good| |done]. intros [more n'] o' [Hg Hn']. cbn beta iota.
  destruct more; [by apply IH|wp_go; done].
Qed.
End steps.
End script.

(** ** Runs of a submission *)

Inductive client_op := DoPoll (es : nat → env) | DoCancel.

Definition built `{Target} (r : SendRequest) : Prop :=
  envelope_new (from (envelope r)) (recipients (envelope r)) = Ok (envelope r) ∧
  validate_ehlo (ehlo_name r) = Ok tt ∧
  (∃ capacity, validate_message (prepared_message r) capacity = Ok tt) ∧
  ∀ n, send_queue_bytes r = Some n → 1 ≤ n.

Section runs.
Context {tgt : Target} (instant_max : Z).

(** [None] when a call panics. *)
Definition client_step (c : client_op) (o : SendOperation) : option SendOperation :=
  match c with
  | DoPoll es => match poll instant_max es o with (Ok _, o') => Some o' | _ => None end
  | DoCancel => Some (cancel o)
  end.
Fixpoint client_run (cs : list client_op) (o : SendOperation) : option SendOperation :=
  match cs with [] => Some o | c :: cs' => o' ← client_step c o; client_run cs' o' end.

Context (r : SendRequest) (checked now : Z) (admission : option Error) (o : SendOperation).
Hypothesis r_built : built r.
Hypothesis submitted : submit instant_max r checked now admission = Ok o.

Lemma built_sizes :
  (0 < count r)%nat ∧ len (ehlo_name r) ≤ 255 ∧ len (from (envelope r)) ≤ 254 ∧
  Forall (λ a, len a ≤ 254) (recipients (envelope r)).
Proof.
  destruct r_built as (He & Hn & _). apply AddressProofs.ehlo_arg in Hn as [_ Hn].
  apply AddressProofs.envelope_arg in He as (_ & Hc & Hall & _). apply Forall_cons in Hall as [[_ Hf] Hall].
  split_and!; [unfold count, len in *; lia|done|done|]. eapply Forall_impl; [exact Hall|]. by intros ? [].
Qed.

Lemma submitted_alive : alive r (now + overall_timeout r) o.
Proof.
  pose proof built_sizes as (Hc & _). destruct r_built as (_ & _ & _ & Hq).
  unfold submit in submitted. destruct (validate_deadlines _ _ _); try done. cbn [mbind outcome_bind] in submitted.
  unfold checked_add in submitted. destruct (now + overall_timeout r <=? instant_max); [|done]. cbn in submitted.
  destruct (now + command_timeout r <=? instant_max); [|done]. cbn in submitted.
  assert (Hop : ∃ d, o = mkOperation (Some r) PhConnect (Some (first_channel r)) None parser_default None None
        (map (λ a, mkReport a Unattempted) (recipients (envelope r))) None None None false
        (Z.min (default MAX_STAGING (send_queue_bytes r)) MAX_STAGING) d (now + overall_timeout r) []).
  { eexists. unfold first_channel. destruct (policy r), admission; try done; by injection submitted as <-. }
  destruct Hop as [d ->]. split; cbn; try done.
  - exists []. apply default_inv.
  - rewrite map_map. cbn. apply map_id.
  - intros i rep Hi. apply list_elem_of_lookup_2 in Hi. apply list_elem_of_In in Hi.
    rewrite in_map_iff in Hi. destruct Hi as (x & <- & _). done.
  - lia.
  - destruct (send_queue_bytes r) as [n|]; [specialize (Hq n eq_refl)|]; cbn; unfold MAX_STAGING; lia.
  - by left.
Qed.

Lemma client_run_good cs o0 :
  good r (now + overall_timeout r) o0 →
  ∃ o', client_run cs o0 = Some o' ∧ good r (now + overall_timeout r) o'.
Proof.
  pose proof built_sizes as (Hc & He & Hf & Hr).
  revert o0. induction cs as [|c cs IH]; intros o0 Hg; cbn [client_run]; [by exists o0|].
  assert (∃ o1, client_step c o0 = Some o1 ∧ good r (now + overall_timeout r) o1) as (o1 & -> & Hg1); [|by apply IH].
  destruct c as [es|]; cbn [client_step].
  - pose proof (poll_loop_good r _ Hc instant_max He Hf Hr MAX_STEPS_PER_POLL es 0 o0 Hg ltac:(lia)) as Hw.
    unfold poll, mbind, M_bind, get, mret, M_ret. unfold wpx in Hw.
    destruct (poll_loop _ _ _ _ o0) as [[[]| | |] o1]; try done. by exists o1.
  - exists (cancel o0). split; [done|]. unfold cancel. destruct Hg as [Ha|Hf'].
    + rewrite (a_active _ _ _ Ha). right. apply fail_final. by eapply alive_core.
    + destruct Hf' as (out & Hout & Hf'). rewrite Hout. right. by exists out.
Qed.

Lemma good_transcript o' : good r (now + overall_timeout r) o' → ∃ rs, transcript_ok r (log o') rs.
Proof.
  pose proof built_sizes as (Hc & _).
  intros [Ha|(out & _ & _ & Ht & _)]; [eexists; by eapply alive_transcript|by eexists].
Qed.

(** C31: One fixed conversation. Whatever the server, the network and the
    clock do, and however the application polls and cancels, a submission
    never panics, and what it sends is at every moment a prefix of the same
    script: with required STARTTLS only EHLO and STARTTLS in cleartext,
    completely, before anything goes over TLS; with implicit TLS nothing in
    cleartext; and over TLS EHLO, MAIL, one RCPT per recipient in order, DATA,
    the dot-stuffed message, its terminator and QUIT. *)
Theorem conversation_exact cs :
  ∃ o', client_run cs o = Some o' ∧
    sent Plain (log o') `prefix_of` plain_script r ∧
    sent Tls (log o') `prefix_of` full_script r ∧
    (sent Tls (log o') ≠ [] → sent Plain (log o') = plain_script r).
Proof.
  destruct (client_run_good cs o (or_introl submitted_alive)) as (o' & Hrun & Hg). exists o'.
  destruct (good_transcript _ Hg) as [rs []]. by split_and!.
Qed.

(** C32: The outcome tells the truth. When a submission ends, the report
    lists the recipients in order; a recipient is reported accepted or
    rejected only with the reply the server gave right after its RCPT command,
    unresolved only if that command was sent and nothing more, unattempted
    only if it was not sent completely. The message is accepted only with a
    2xx reply read after the complete terminator; it is reported not accepted
    only if the terminator was not sent completely, uncertain only if all was
    sent through the terminator and nothing more, rejected only with a 4xx or
    5xx reply that was the last thing read. DATA was sent only if the recipient
    policy allows it. *)
Theorem outcome_truthful cs o' out :
  client_run cs o = Some o' → op_outcome o' = Some out →
  map address (out_recipients out) = recipients (envelope r) ∧
  (∀ i rep, out_recipients out !! i = Some rep → status_ok r (log o') i (status rep)) ∧
  delivery_ok r (log o') (delivery out) ∧
  (len (through_rcpt r (count r)) < len (sent Tls (log o')) → policy_ok r (out_recipients out)).
Proof.
  intros Hrun Hout. destruct (client_run_good cs o (or_introl submitted_alive)) as (o1 & Hrun1 & Hg).
  rewrite Hrun in Hrun1. injection Hrun1 as <-. destruct Hg as [Ha|(out' & Hout' & _ & Ht & Hd)].
  - by rewrite (a_active _ _ _ Ha) in Hout.
  - rewrite Hout in Hout'. injection Hout' as <-. destruct Ht. by split_and!.
Qed.

(** After the outcome, nothing changes. *)
Lemma ended_stays cs o1 out :
  op_outcome o1 = Some out → client_run cs o1 = Some o1.
Proof.
  intros Hout. induction cs as [|c cs IH]; cbn [client_run]; [done|].
  assert (client_step c o1 = Some o1) as ->; [|done]. destruct c as [es|]; cbn; [|unfold cancel; by rewrite Hout].
  unfold poll, MAX_STEPS_PER_POLL, poll_loop, mbind, M_bind, get. rewrite bool_decide_eq_true_2; [done|]. by rewrite Hout.
Qed.

Lemma poll_past_deadline es o1 :
  good r (now + overall_timeout r) o1 → now + overall_timeout r ≤ e_now (es O) →
  ∃ out o2, poll instant_max es o1 = (Ok (Some out), o2) ∧ op_outcome o2 = Some out.
Proof.
  pose proof built_sizes as (Hc & _). intros Hg Hlate.
  unfold poll, MAX_STEPS_PER_POLL, poll_loop, mbind, M_bind, get. destruct Hg as [Ha|(out & Hout & _)].
  - rewrite bool_decide_eq_false_2 by (rewrite (a_active _ _ _ Ha); by intros [? ?]).
    rewrite (a_overall _ _ _ Ha), (proj2 (Z.leb_le _ _)) by done. cbn [orb modify].
    destruct (fail_final r FailureReason.Timeout o1) as (out & Hout & _); [by eapply alive_core|].
    exists out. eexists. by rewrite Hout.
  - rewrite bool_decide_eq_true_2 by (by rewrite Hout). exists out, o1.
    unfold mret, M_ret. by rewrite Hout.
Qed.

(** A submission ends, once. A poll at or after the overall deadline
    always has an outcome; and once there is one, no poll and no cancellation
    changes it or sends another byte. *)
Theorem outcome_final cs cs' o' es :
  client_run cs o = Some o' →
  (∀ out, op_outcome o' = Some out → client_run cs' o' = Some o') ∧
  (now + overall_timeout r ≤ e_now (es O) →
     ∃ out o'', poll instant_max es o' = (Ok (Some out), o'') ∧ client_run (DoPoll es :: cs') o' = Some o'').
Proof.
  intros Hrun. destruct (client_run_good cs o (or_introl submitted_alive)) as (o1 & Hrun1 & Hg).
  rewrite Hrun in Hrun1. injection Hrun1 as <-. split.
  - intros out Hout. by eapply ended_stays.
  - intros Hlate. destruct (poll_past_deadline es o' Hg Hlate) as (out & o2 & Hp & Hout). exists out, o2.
    split; [done|]. cbn [client_run client_step]. rewrite Hp. cbn. by eapply ended_stays.
Qed.

Lemma blocking_returns n es o1 :
  good r (now + overall_timeout r) o1 → now + overall_timeout r ≤ e_now (es n O) →
  ∀ fuel, (n < fuel)%nat → ∃ out, blocking_loop instant_max fuel es o1 = Ok out.
Proof.
  revert es o1. induction n as [|n IH]; intros es o1 Hg Hlate fuel Hfuel; destruct fuel as [|fuel]; try lia; cbn [blocking_loop].
  - destruct (poll_past_deadline (es O) o1 Hg Hlate) as (out & o2 & -> & _). by exists out.
  - destruct (client_run_good [DoPoll (es O)] o1 Hg) as (o2 & Hrun & Hg2). cbn [client_run client_step] in Hrun.
    destruct (poll instant_max (es O) o1) as [[[out|]|[]| |] o3]; [by exists out| |done|done].
    injection Hrun as ->. apply (IH (λ i, es (S i))); [done|done|lia].
Qed.
End runs.

(** C35: A blocking send returns. On a spawned engine, a submission that is
    admitted returns an outcome no later than the first poll at or after its
    overall deadline, whatever the server and the network do. *)
Theorem send_blocking_returns `{Target} instant_max r checked now admission o n es fuel :
  built r → submit instant_max r checked now admission = Ok o →
  now + overall_timeout r ≤ e_now (es n O) → (n < fuel)%nat →
  ∃ out, send_blocking instant_max Spawned r checked now admission fuel es = Ok out.
Proof.
  intros Hb Hsub Hlate Hfuel. unfold send_blocking. rewrite bool_decide_eq_true_2 by done. cbn [negb].
  rewrite Hsub. cbn [mbind outcome_bind].
  eapply blocking_returns; [done|left; by eapply submitted_alive|done|done].
Qed.

(** ** Witnesses

    A submission over STARTTLS to a server that answers every command. *)

Definition sample_request : SendRequest :=
  mkRequest RequiredStartTls (Some 64) (bs "client.example") (mkEnvelope (bs "a@example.org") [bs "b@example.org"; bs "c@example.org"])
    MessageProofs.sample_message RequireAllRecipients 30 120 10.

Definition answer (read : ReadAnswer) : env := mkEnv 5 5 ConnectCompleted None read FinishFinished None.
(** One step that reads the byte [b], and a step that sends or connects. *)
Definition reads (l : list Z) : list env := map (λ b, answer (AnsData 1 b)) l.
Definition steps (n : nat) : list env := replicate n (answer AnsPending).
Definition line_bytes (c : Z) (t : list Z) : list Z := code_digits c ++ 32 :: t ++ CRLF.
(** Polls of at most 64 steps. *)
Fixpoint polls (fuel : nat) (l : list env) : list client_op :=
  match fuel with
  | O => []
  | S fuel' => DoPoll (λ i, nth i l (answer AnsPending)) :: polls fuel' (drop 64 l)
  end.

Definition sample_session : list env :=
  steps 1 ++ reads (line_bytes 220 (bs "hi")) ++ steps 1
  ++ reads (code_digits 250 ++ 45 :: bs "mx" ++ CRLF ++ line_bytes 250 (bs "STARTTLS")) ++ steps 1
  ++ reads (line_bytes 220 (bs "go")) ++ steps 2
  ++ reads (line_bytes 250 (bs "mx")) ++ steps 1 ++ reads (line_bytes 250 (bs "ok")) ++ steps 1
  ++ reads (line_bytes 250 (bs "ok")) ++ steps 1 ++ reads (line_bytes 250 (bs "ok")) ++ steps 1
  ++ reads (line_bytes 354 (bs "go on")) ++ steps 3 ++ reads (line_bytes 250 (bs "queued")) ++ steps 1
  ++ reads (line_bytes 221 (bs "bye")) ++ steps 1.

Definition sample_ops : list client_op := polls 5 sample_session.
Definition sample_operation : SendOperation :=
  match submit 1000 sample_request 0 0 None with
  | Ok o => o
  | _ => mkOperation None PhFinish None None parser_default None None [] None None None false 0 0 0 []
  end.

Lemma sample_built : @built target64 sample_request.
Proof.
  split_and!; [vm_compute; reflexivity|vm_compute; reflexivity|exists 100; vm_compute; reflexivity|].
  intros n [= <-]. lia.
Qed.
Definition sample_outcome : SendOutcome :=
  mkOutcome [mkReport (bs "b@example.org") (AcceptedForTransaction (mkSummary 250 (bs "ok")));
             mkReport (bs "c@example.org") (AcceptedForTransaction (mkSummary 250 (bs "ok")))]
            (Accepted (mkSummary 250 (bs "queued"))) None.
Definition sample_end : SendOperation :=
  default sample_operation (client_run (tgt := target64) 1000 sample_ops sample_operation).
Lemma sample_run :
  client_run (tgt := target64) 1000 sample_ops sample_operation = Some sample_end ∧ op_outcome sample_end = Some sample_outcome.
Proof. split; vm_compute; reflexivity. Qed.

Lemma conversation_exact_witness :
  ∃ o', client_run (tgt := target64) 1000 sample_ops sample_operation = Some o' ∧
    sent Plain (log o') `prefix_of` plain_script sample_request ∧
    sent Tls (log o') `prefix_of` full_script sample_request ∧
    (sent Tls (log o') ≠ [] → sent Plain (log o') = plain_script sample_request).
Proof. exact (conversation_exact (tgt := target64) 1000 sample_request 0 0 None sample_operation sample_built eq_refl sample_ops). Defined.

Lemma outcome_truthful_witness :
  delivery_ok sample_request (log sample_end) (Accepted (mkSummary 250 (bs "queued"))).
Proof.
  exact (proj1 (proj2 (proj2 (outcome_truthful (tgt := target64) 1000 sample_request 0 0 None sample_operation sample_built eq_refl
           sample_ops sample_end sample_outcome (proj1 sample_run) (proj2 sample_run))))).
Defined.

Definition late_env : nat → env := λ _, mkEnv 120 120 ConnectTimedOut None AnsPending FinishPending None.
Lemma outcome_final_witness :
  ∃ out o'', poll (tgt := target64) 1000 late_env sample_operation = (Ok (Some out), o'') ∧
    client_run (tgt := target64) 1000 (DoPoll late_env :: [DoCancel]) sample_operation = Some o''.
Proof.
  refine (proj2 (outcome_final (tgt := target64) 1000 sample_request 0 0 None sample_operation sample_built eq_refl
           [] [DoCancel] sample_operation late_env eq_refl) _).
  cbn. lia.
Defined.

Lemma send_blocking_returns_witness :
  ∃ out, send_blocking (tgt := target64) 1000 Spawned sample_request 0 0 None 4 (λ i _, if (i <? 3)%nat then answer AnsPending else late_env 0) = Ok out.
Proof.
  apply (send_blocking_returns (H := target64) 1000 sample_request 0 0 None sample_operation 3); [exact sample_built|reflexivity|cbn; lia|lia].
Defined.
